(* ===== verification/_CoqProject ===== *)
-Q . S2P
Prelude.v
TaskKey.v
TaskRange.v
Predicates.v
TaskPredicates.v
TaskScope.v
Monitor.v
PagingIterator.v
TaskIterator.v
PriorityQueue.v
Tracker.v
Convert.v
QueueWorld.v
Slice.v
SliceIterators.v
SliceSpec.v
SliceLoad.v
SliceProps.v
Reader.v
ReaderSpec.v
ReaderProps.v
Queue.v
QueueSpec.v
ActionSliceCount.v
ActionPendingTask.v
Mitigator.v
QueueReload.v
QueueProps.v
ShardKeys.v
ShardSafety.v
ShardState.v
VersionHistory.v
VersionHistoryProps.v
VersionHistoryLCA.v
VersionHistories.v
HistoryStore.v
HistoryManager.v
HistoryRead.v
HistoryChain.v
HistoryTree.v
HistoryRefine.v
HistoryTrim.v
FairLevel.v
FairCounter.v
FairStore.v
FairReader.v
FairWriter.v
FairMerge.v
FairBacklog.v
FairSafety.v
FairProps.v
FairFailures.v
UpdateState.v
UpdateMachine.v
UpdateScript.v
UpdateInv.v
UpdateTxn.v
UpdateCommit.v
UpdateProps.v
SchedTime.v
SchedText.v
SchedCalendar.v
SchedNext.v
SchedExact.v
SchedParse.v
SchedGrammar.v
SchedSpec.v
SchedNextTime.v
SchedProps.v
SchedFailures.v
LruCache.v
LruSpec.v
LruProps.v
Semaphore.v
SemaphoreProps.v
WorkflowCache.v
WorkflowCacheProps.v
WorkflowTimers.v
WorkflowTimersSpec.v
WorkflowTimersProps.v
