(* ===== verification/Prelude.v ===== *)
(** * A verification library for the history and matching services of the Temporal server

    The history service of the Temporal server ([src/temporal/service/history]) writes a task for everything a workflow
    still has to do (start a timer, push a workflow task, update visibility) and processes these tasks through
    queues, one per category of task and shard.  The queue code of [service/history/queues] loads tasks from persistence in key
    order, hands them to a scheduler, remembers which are pending, and from time to time deletes what is finished
    and persists how far it has come, so that after a crash nothing is lost.  This library models that code and
    proves it: a task is deleted only after it has been acked, and every task that has not been acked
    stays owed by some part of the queue, whatever happens in between, crashes included.

    Around the queues it models three more parts of the service: the shard, which gives tasks their keys and tells the queues
    how far they may read ([service/history/shard]); the history store, which keeps the events of workflows in a tree of
    branches ([common/persistence/history_manager.go] over the SQL tables); and version histories, by which replication
    finds where two branches part ([common/persistence/versionhistory]).  Of workflows themselves it models updates, the requests a
    client sends to a running workflow and waits for ([service/history/workflow/update]): their state machine, whose effects
    become visible when a transaction is committed, and the registry that holds them in memory; and the cache through which every call
    gets hold of a workflow and locks it ([service/history/workflow/cache]), with the LRU cache ([common/cache]) and the priority
    semaphore ([common/locks]) it is made of.  And it models the timers of a workflow ([workflow/timer_sequence.go], [timer_queue_active_task_executor.go]):
    its user timers and the timeouts and retries of its activities, of which only the one due first has a task in the timer queue.

    Of the matching service ([service/matching]), which keeps the tasks workers poll for, it models the fair task queue: a
    backlog in which tasks of different fairness keys take turns, so that a new task may be placed in front of tasks that
    were read already, and of which only a window is in memory.

    Of the worker service it models schedule specs ([service/worker/scheduler]): calendars, cron strings and intervals, and the
    search for the next time at which a schedule is due.

    ** The program and the files that model it

    The parts build on each other; each file requires those above it.

    - [Prelude]: outcomes of a Go call ([Ok], an [error], a [panic]), 64- and 32-bit wrap-around, tactics, the hint
      database [go], lemmas on lists and maps.
    - [TaskKey] ([service/history/tasks/key.go]): keys (fire time, task ID), their order, successor, distance.
    - [TaskRange] ([queues/range.go]): half-open ranges of keys.
    - [Predicates] ([common/predicates]), [TaskPredicates] ([tasks/predicates.go]): predicates on tasks; the former is
      generic in its leaves through the class [LeafPredicate] with the laws [LeafLaws], the latter is the instance and
      the simplifying [AndPredicates] and [OrPredicates].
    - [TaskScope] ([queues/scope.go]): a range with a predicate.
    - [Monitor] ([queues/monitor.go], [alerts.go]): statistics and alerts of a queue, as a record and its operations;
      [monitor_step] is their step relation.
    - [PagingIterator] ([common/collection/paging_iterator.go]), [TaskIterator] ([queues/iterator.go]): reading a range of
      tasks page by page.
    - [PriorityQueue] ([common/collection/priority_queue.go], over Go's [container/heap]).
    - [Tracker] ([queues/tracker.go], [grouper.go], the state of [executable.go]): the executables a slice has loaded.  The
      class [Grouper] with [GrouperLaws] is the interface of the two groupers.
    - [Convert] ([queues/convert.go]): the persisted form of a queue; [Timestamppb] is the interface of the protobuf
      timestamps.
    - [QueueWorld]: the state the rest runs in (allocation of slices, monitor, clock, persistence), the monad [Q] of
      computations on it that may panic, and the rules of its weakest precondition [wp].
    - [Slice] ([queues/slice.go]): a slice is a scope, the iterators that still have to be read and the tracker of what was.
      Its laws are in [SliceIterators] (ordered lists of iterators), [SliceSpec] (the invariant [slice_inv], what a slice
      [owes], splitting, merging, compacting), [SliceLoad] (shrinking, clearing, loading) and [SliceProps].
    - [Reader] ([queues/reader.go]): a list of slices with a cursor.  Laws in [ReaderSpec] ([reader_inv], the relation
      [chain] that every reorganisation satisfies) and [ReaderProps].
    - [Queue] ([queues/queue_base.go], [reader_group.go], [action_slice_predicate.go], [action_reader_stuck.go],
      [action_move_group.go]), [ActionSliceCount] ([action_slice_count.go]), [ActionPendingTask]
      ([action_pending_task_count.go]), [Mitigator] ([mitigator.go], [queueBase.handleAlert]): the queue, its readers, the
      actions that move slices between them, and the alerts that start them.  Laws in [QueueSpec], [QueueReload] (loading from the persisted state) and [QueueProps]
      (the invariant [queue_inv], the step relation [queue_step] and the main theorems).
    - [ShardKeys] ([shard/task_key_generator.go], [task_key_manager.go], [task_request_tracker.go], [renewRangeLocked] of
      [context_impl.go]): the keys of tasks, the requests whose outcome is open, the read watermark; [Shard] is the monad of
      the operations under the shard's lock.  [ShardSafety] has the step relation [shard_step] (requests that begin, are written, complete
      or stay unknown, range renewals, another owner that takes the shard) and its invariant [shard_inv].
    - [ShardState] ([shard/context_impl.go]: [transition], [acquireShard], error handling): the life cycle of a shard as
      the step relation [lifecycle_step], with any number of running [acquireShard]s.
    - [VersionHistory] ([common/persistence/versionhistory]: every function of its three files); [VersionHistoryProps]
      (the abstraction [log]), [VersionHistoryLCA] (lowest common ancestors), [VersionHistories] (sets of branches).
    - [HistoryStore] ([common/persistence/sql/history_store.go], the queries of [sqlplugin/mysql/events.go]): the tables
      [history_node] and [history_tree] and the store's operations; the class [EventSerializer] is the interface of the event serializer.
      [HistoryManager] ([history_manager.go], [history_manager_util.go], [history_node_util.go]): appending, forking, deleting,
      reading in pages forward and in reverse, trimming.  Laws in [HistoryRead] (pages and filtering), [HistoryChain] (what a
      branch [holds]), [HistoryTree] (forks, deletions), [HistoryRefine] (the step relation [history_step] and its invariant
      [tree_inv]) and [HistoryTrim].
    - [FairLevel] ([matching/fair_level.go], [backlog_age_tracker.go]): the levels that order fair tasks, and the ordered map over them.
      [FairCounter] ([matching/counter]): the class [Counter] and its three instances.  [FairStore] ([common/persistence/sql/task_v2.go]
      with the MySQL queries, the subqueues of [matching/db.go]).  [FairReader] ([fair_task_reader.go]) and [FairWriter]
      ([fair_task_writer.go]), the latter against the interface [Counter].  Laws of the reader in [FairMerge]; [FairBacklog] has the step relation
      [fair_step] of reader, writer, store, matcher and owners together, [FairSafety] its invariant [queue_inv], [FairProps]
      and [FairFailures] the theorems.
    - [UpdateState] ([workflow/update]: [state.go], [abort_reason.go], [validation.go], [status.go], [WaitLifecycleStage] and the closures of
      [update.go]; [common/future]) and [UpdateMachine] ([update.go], [registry.go], [common/effect], the update events of [mutable_state_impl.go],
      [ApplyRequest], [handleMessage]): updates, the registry, effects and the operations [exec] of a workflow on them.  [UpdateScript] has what a transaction has
      registered for one update ([cfg]) and what running it does, [UpdateInv] the invariants [uinv] and [live],
      [UpdateTxn] and [UpdateCommit] that every operation keeps them,
      [UpdateProps] the theorems.
    - [SchedTime] (what the schedules use of Go's [time], [daysInMonth]), [SchedText] (of [strings] and [strconv]), [SchedCalendar]
      ([scheduler/calendar.go]: matchers, compiled calendars, [next]), [SchedParse] (its parsers), [SchedSpec] ([scheduler/spec.go]).  Laws of
      [next] in [SchedNext] (its loops end) and [SchedExact] (zones without transitions, and matchers), of [makeRange] in
      [SchedGrammar], whose [item]s are the language it reads; [SchedNextTime] says when a spec is due and has the class [NextLaws], the
      interface through which specs use calendars; it, [SchedProps] and [SchedFailures] have the theorems.
    - [LruCache] ([common/cache/lru.go]): entries in a list by age and in a map, pins, expiry, eviction, iterators.  [LruSpec] has its invariant
      [lru_ok] and what each operation does, [LruProps] the step relation [cache_step] against a map, the theorems and concrete runs.
    - [Semaphore] ([common/locks/priority_semaphore_impl.go]): tokens and lists of waiters.  [SemaphoreProps] has the invariant [sem_ok], the
      step relation [sem_step] of all its calls and the theorems.
    - [WorkflowCache] ([workflow/cache/cache.go], locking of [workflow/context.go]): calls that get, lock, use and release the contexts of workflows, as the step
      relation [wf_step] on a pinning [LruCache] and a [Semaphore] per context.  [WorkflowCacheProps] counts references, relates the locks to [sem_step],
      and has the invariant [wf_inv], the theorems and concrete runs.

    - [WorkflowTimers] ([workflow/timer_sequence.go], [retry.go], the user timers and activities of [mutable_state_impl.go] and [activity.go], two tasks of
      [timer_queue_active_task_executor.go]): the timers in their order, the operations of a transaction [exec], the creation of the next task at its end, and the execution of
      tasks; [step] relates a workflow in memory and the timer queue ([world]).  The class [timeout_numbers] is the interface of the API's enumeration.
      [WorkflowTimersSpec] has what each operation does to marks and tasks ([tamed], [kept], [execute_spec]), [WorkflowTimersProps] the invariants [user_world] and
      [activity_world], the theorems and concrete runs.

    ** How the code is modelled

    A struct is a record, an interface with several implementations an inductive type or a class, a method
    that mutates its receiver a function that returns the new value.  Pointers matter in one place: slices are
    compared and used as map keys by identity, so a slice carries a [SliceID] that [alloc] draws from a counter.  A
    method that destroys its receiver leaves it [destroyed], and the sanity check of every other method panics
    on it, as in the code.  The container/list elements of a reader are its slices; [nextReadSlice] is an [element], in the list or
    removed from it.  A call that can fail without returning is [None] or [Panic].  A [map] is a [gmap]; where the code
    ranges over one, the model takes some order ([map_to_list]), and no theorem depends on which.  Integers the code computes with are
    [Z] with the wrap-around written out where a bound can be met (keys); counters are plain [Z].  Times are nanoseconds.

    The shard's [drain] waits for the requests in flight: in the model a renewal is possible once none is, and a call that would have
    to wait is the error [Waiting]; between two steps requests may complete, so every order of waiting and completing is a sequence of
    steps.  An engine of a shard is a number.  The tables of the history store are those of one shard and tree, since every query names
    both; branch tokens and page tokens are given parsed (their JSON and protobuf encodings are generated or
    standard code); an error of the database leaves the tables as they were and is returned, and is left out.

    A step of the fair queue is what its code does under one lock, or one call of the store; the goroutines for reading and collecting are
    [readPending] and [inGC] with the places [read_phase], and what happens between two locked parts of a function is any
    sequence of other steps.  One subqueue is modelled: a reader, a counter and the rows of each subqueue are its own.  Task ids and
    passes of fair tasks are unbounded; [counter_strides] gives the bound under which passes do not wrap around.  Two steps are races in which the program loses tasks: the
    completion of a task written again that the window no longer has, and a deletion of an earlier owner that takes effect late; [fair_step] takes a proposition for each that says
    whether it may happen.

    Updates are referred to by pointers, from the registry and from buffered closures, so they are cells of a heap.  A closure is a constructor of
    [commit] or [rollback] with the variables it captures.  The futures are read without the lock, so the order in which
    they are completed is a [log], and a waiter reads at prefixes of it.  The mutable state in memory and as last persisted are both in the
    [world]; a failed write may or may not have taken effect.

    Instants of calendars are seconds since 1970; a [Location] is an offset and a list of transitions, and [MakeDate] looks offsets up twice
    as [time.Date] does, so that local times that are missing or repeated are resolved as in Go.  Strings are lists of code points.

    The elements of the LRU cache's list are numbers and the map has those; the clock and the size of a value, which changes while the value is cached, are
    arguments of each operation, so the theorems hold for any.  A call of [Acquire] is split where it gives up the semaphore's lock, and is known
    by its channel; the contexts of workflows are cells of a heap, and a call's place in the code is its [status].

    Of an activity what its timers and retries depend on is kept.  A timer task is known by a number, as mutable state knows it by a pointer; the bits of
    [TimerTaskStatus] are a [Z].  Each execution of a task and each transaction is one step: both hold the workflow's lock.  [AddTasks] drops a task
    that is more than [maxScheduledTaskDuration], 99 years, away, though its timer counts as one with a task; [start] is a time before which no transaction is closed.  A write that fails, whether it took effect or
    not, is followed by a [reload].  The shard may give a task a later time than it asked for, a task may be executed early, late or again, and the clock is any.

    Loops over lists are structural.  Thirteen loops take fuel: the skipping of empty pages by the paging iterator (enough:
    more than the number of pages), the loop of [SelectTasks] (enough: [turns], the tasks and iterators left) and the loop of the
    move-group action over readers (their maximal number, given in the definition), the loop of [findSliceToClear] (every
    turn takes a slice off a key's list, [list_slices] counts them), the sifting of a heap (its length), the loops over the pages of a branch
    ([ReadFullPageEvents], [collect_nodes]: rows and ranges, since a page without a row ends a range), the walk back along a
    chain ([link_back]: its batches); the ninth, which advances the ack level of a fair reader ([advance_loop]), has the size of
    the window it shrinks as its fuel.  The outer loop of [next] takes the distance of its fields, read as digits, from the last year ([rank]), that of
    [GetNextTime] the seconds to the last year, both in binary ([ploop]); [iterate] runs over the values of a range, and past its fuel it would
    not end.  Background eviction ([bgEvict]) runs at most as often as there are entries ([bgEvict_ends]).  Every theorem about
    them shows that they return with that fuel; running out of it is the error [OutOfFuel] or [LoopsForever], which no theorem allows.

    What is not under src/ is a parameter: the pagination function of persistence ([provider_ok]: it serves the stored
    tasks of a range in key order, and any read may fail), the floating-point load factors ([multiply], [load]), the size of an empty protobuf message,
    [timestamppb] and the event serializer with their round-trip laws, the answers of the shard's database, and the hash, the seeds and
    the floating-point skip rate and width of a counter, the time-zone database, the fingerprint of the jitter (32 bits), and [timestamp.ParseDuration],
    which goes through floating point; of activities, the numbers and names of the timeout types, [ExponentialBackoffAlgorithm], which is floating point too, and
    whether a rule of the namespace pauses an activity.  Each theorem with such a hypothesis has a witness with a concrete
    instance.

    ** What the theorems show

    - Keys, ranges, scopes, predicates: the algebra is right on every branch, with the exact panics ([Next_is_successor],
      [Split_partition], [Merge_union], [split_scope_partitions], [merge_scope_union], [Equals_equivalence_sound],
      [predicate_constructors_correct], [AndPredicates_OrPredicates_correct]); [Sub_distance] shows a distance that is one short.
    - Monitor, iterators, tracker: totals and counts are exact, reading terminates and skips nothing
      ([monitor_totals_exact], [paging_iterator_complete], [tracker_split_correct], [tracker_merge_correct],
      [tracker_shrink_correct]).
    - Slices: every operation keeps the invariant and what is owed ([slice_split_safe], [slice_merge_safe],
      [slice_compact_safe], [slice_shrink_clear_safe], [SelectTasks_correct]).
    - Readers: the same for lists of slices with a cursor ([reader_reorganise_safe], [ShrinkSlices_safe],
      [loadAndSubmitTasks_safe]); [ShrinkSlices_can_strand_cursor] is a run in which the cursor is lost.
    - Persistence: a queue state is read back as it was written ([queue_state_roundtrip]).
    - The queue: over all interleavings of its steps, failures and reloads no task is lost and no unfinished task is deleted
      ([queue_never_loses_tasks]), and the steps return ([queue_steps_return]); the slice-count action is safe when it
      returns ([actionSliceCount_safe]) and can panic ([actionSliceCount_panics]); the pending-task action always returns
      ([actionQueuePendingTask_safe]) and clears enough ([findSliceToClear_enough], over [priority_queue_correct]);
      [Mitigate_safe] is what the queue relies on when it handles an alert.
    - The shard: once a queue has been given a watermark, no task below it that it could not already read ever appears
      ([no_task_below_watermark]), which is what the queue's reading in key order relies on; the documented invariants of the
      life cycle hold in every reachable state ([shard_lifecycle_safe]), and acquisition ends when its attempts are
      given time ([acquire_ends]).
    - Version histories: they refine the list of the versions of all events ([version_history_refines_log]); lowest common
      ancestors are ends of longest common prefixes ([lca_is_longest_common_prefix]); the branch chosen to compare with is the
      best one ([FindLCAVersionHistoryItemAndIndex_best]), the current branch stays the highest
      ([AddAndSwitchVersionHistory_current_highest]).
    - The history store: over all sequences of creations, appends, commits, forks and deletions, reading a branch gives its committed events
      ([history_store_refines]); deletion removes exactly what no other branch needs ([delete_branch_exact]); trimming removes
      exactly what hides the committed chain ([trim_restores_chain]); reading in reverse can lose events without an
      error ([reverse_read_loses_events]).
    - The fair task queue: over all interleavings a confirmed task is not lost ([fair_backlog_safe]) and the reader's counts, age and
      window are exact ([fair_reader_exact]), in runs where a task that was written again is still loaded when it is completed and
      no deletion of an earlier owner takes effect late; with either a task can be lost ([respool_race_loses_task],
      [late_deletion_loses_task]).  Progress is not guaranteed: [reader_can_stall], [expired_batch_wedges].  The passes of a fairness key
      are its strides apart ([counter_strides]).  [next_page_refused]: a page token of the store is never accepted.
    - Updates: nothing a client or a worker sends makes the code panic ([updates_never_panic]); what a waiter is told is durable
      ([update_wait_sound]); stages follow the life cycle and acceptance is not announced ahead of a result, but by a rejection without a failure ([update_life_cycle]); a transaction is invisible
      before its commit and undone by its cancellation ([update_transaction_undone]); giving it up in the right order leaves nobody waiting
      ([clear_wakes_waiters]), a failed write does not ([persist_failure_strands]); [rejection_without_failure_accepts] and
      [response_overtaken] are runs with a wrong answer.
    - Schedules: [next] returns ([next_returns]) and in zones without transitions is the earliest matching time ([next_earliest]); [makeRange]
      reads the documented language and covers what it denotes ([makeRange_grammar]); canonical specs are stable
      ([canonicalizeSpec_idempotent]) and compile ([NewCompiledSpec_total]); [GetNextTime] is the first time due and not excluded, with
      the jitter in its bounds ([GetNextTime_correct]), from times not before the phase of an interval ([early_interval_skips]).  In zones with transitions [next] can miss times and return wrong ones
      ([next_skips_repeated_hour], [next_misreads_missing_time]); [one_to_seven_drops_sunday] and [large_step_not_rejected] are
      ranges that are read wrongly.
    - The LRU cache: it is a bounded view of the values put into it that are not larger than itself ([lru_refines_map], [lru_put_get]), well formed
      ([lru_well_formed]), both as long as callers release only references they have, and it
      evicts the oldest unpinned entries and no more than it must ([lru_evicts_oldest]).  [large_put_keeps_stale], [delete_loses_pin] and [over_release] are what it
      does not promise.
    - The semaphore: no interleaving of calls and cancellations takes more tokens than there are, panics, or forgets a waiter ([semaphore_safe]); waking is in
      order ([release_order]).
    - The workflow cache: a workflow is locked by one call at a time, although its context may be evicted and created again, and nothing stays pinned
      ([workflow_exclusive]); the next call does not see a dirty state ([workflow_lock_sees_clean]) and is woken ([workflow_wait_ends]).  All of
      it needs a cache of at least one entry ([no_cache_no_lock]).
    - Timers: over all transactions, executions and reloads the task of the first user timer is in the queue and fires it ([user_timers_not_forgotten]), unless the timer is further
      away than 99 years ([far_timer_has_no_task]); the same holds of
      activity timeouts as long as activities are not paused and tasks not deleted early ([activity_timeouts_not_forgotten]), and not otherwise: [pause_loses_timeouts],
      [heartbeat_loses_timeouts].  Retries keep to their policy ([retry_within_policy]).

    ** What is not modelled

    Goroutines and locks of the queues: every operation of a reader holds its lock and the queue's event loop is a single
    goroutine, so operations are steps that do not interleave inside.  The scheduler, the rescheduler and the execution of a task: an
    executable may be acked at any step.  Timers, rate limits, metrics and logging.  Deleted tasks stay in the
    model's store: only acked tasks are deleted, and a reload may load such a task again, as the code may.  Of the shard context, the
    requests to persistence themselves, namespace handover and remote cluster state; of the history store, Cassandra, the
    listing of all branches over all trees, and errors of the database.  Of matching, the matcher, the engine, forwarding,
    versioning, the classic and priority backlogs, retries of handing a task to the matcher, and which subqueue a task
    belongs to.  Of the workflow cache, the callbacks by which a shard that stops clears its contexts, and what a call does with a context besides making it dirty.  Of timers, workflow-task timeouts and
    the executor's other tasks, the standby executor, [ResetActivity], history events and the validation of options.  Of schedules, the text of errors, the location cache (an argument) and the workflow that acts on them.  Of updates, the encoding of requests, instrumentation, speculative workflow tasks and the other commands of a
    workflow task.

    ** Plan

    Next: the status transitions of a workflow and the rest of its mutable state
    ([service/history/workflow]), the ack manager and version sets of [service/matching], and the callback state machine. *)
From stdpp Require Export base tactics list gmap strings sorting.
From Stdlib Require Export ZArith Lia.

Local Open Scope Z_scope.

(** ** Outcomes of a Go call

    A Go function that can fail returns a value and an [error]; any function
    can also [panic].  [outcome E A] has one constructor for each of the three
    ways a call ends. *)

Inductive outcome (E A : Type) : Type :=
  | Ok (a : A)
  | Err (e : E)
  | Panic.
Arguments Ok {E A} a.
Arguments Err {E A} e.
Arguments Panic {E A}.

Definition obind {E A B} (m : outcome E A) (f : A → outcome E B) : outcome E B :=
  match m with
  | Ok a => f a
  | Err e => Err e
  | Panic => Panic
  end.

Declare Scope go_scope.
Delimit Scope go_scope with go.
Notation "'let!' x ':=' c 'in' k" := (obind c (fun x => k))
  (at level 10, x pattern, c at level 100, k at level 200) : go_scope.
(** [guard!] is Go's [if !cond { panic(..) }] in front of the rest of a body. *)
Notation "'guard!' b ; k" := (if b then k else Panic)
  (at level 100, b at next level, right associativity) : go_scope.

(** Loops whose length the code does not bound take fuel; running out of it is
    a third kind of failure, told apart from an error and from a panic. *)
Inductive stuck := OutOfFuel.

Definition is_ok {E A} (m : outcome E A) : bool :=
  match m with Ok _ => true | _ => false end.

Lemma obind_ok {E A B} (m : outcome E A) (f : A → outcome E B) b :
  obind m f = Ok b ↔ ∃ a, m = Ok a ∧ f a = Ok b.
Proof. destruct m; simpl; naive_solver. Qed.

(** ** Machine integers

    An [int64] is a [Z]; Go's arithmetic wraps around silently, so each
    operation that can leave the range goes through [wrap64]. *)

Definition two63 : Z := 2 ^ 63.
Definition two64 : Z := 2 ^ 64.
Definition MaxInt64 : Z := two63 - 1.
Definition MinInt64 : Z := - two63.
Definition wrap64 (z : Z) : Z := (z + two63) mod two64 - two63.
Definition in_int64 (z : Z) : Prop := MinInt64 ≤ z ≤ MaxInt64.

Definition MaxInt32 : Z := 2 ^ 31 - 1.
Definition MinInt32 : Z := - 2 ^ 31.
Definition wrap32 (z : Z) : Z := (z + 2 ^ 31) mod 2 ^ 32 - 2 ^ 31.
Definition in_int32 (z : Z) : Prop := MinInt32 ≤ z ≤ MaxInt32.

Lemma wrap64_id z : in_int64 z → wrap64 z = z.
Proof.
  unfold in_int64, wrap64, MinInt64, MaxInt64, two63, two64. intros.
  rewrite Z.mod_small; lia.
Qed.

Lemma wrap64_range z : in_int64 (wrap64 z).
Proof.
  unfold in_int64, wrap64, MinInt64, MaxInt64, two63, two64.
  pose proof (Z.mod_pos_bound (z + 2 ^ 63) (2 ^ 64)). lia.
Qed.

Lemma wrap32_id z : in_int32 z → wrap32 z = z.
Proof.
  unfold in_int32, wrap32, MinInt32, MaxInt32. intros.
  rewrite Z.mod_small; lia.
Qed.

Lemma wrap32_range z : in_int32 (wrap32 z).
Proof.
  unfold in_int32, wrap32, MinInt32, MaxInt32.
  pose proof (Z.mod_pos_bound (z + 2 ^ 31) (2 ^ 32)). lia.
Qed.

#[export] Instance in_int64_dec z : Decision (in_int64 z).
Proof. unfold in_int64. apply _. Defined.
#[export] Instance in_int32_dec z : Decision (in_int32 z).
Proof. unfold in_int32. apply _. Defined.

Ltac int_bounds := unfold in_int64, in_int32, MinInt64, MaxInt64, MinInt32, MaxInt32, two63, two64 in *.

(** ** Automation

    [go_solve] closes the goals left once a definition has been unfolded: it
    turns boolean tests into propositions and finishes with [lia] or
    [naive_solver]. *)

Create HintDb go.

(** Proves a decidable closed proposition by running its decision procedure. *)
Ltac by_decide :=
  lazymatch goal with |- ?P => apply (bool_decide_eq_true_1 P); vm_compute; reflexivity end.

Ltac bool_to_prop :=
  repeat match goal with
  | H : andb _ _ = true |- _ => apply andb_true_iff in H as [? ?]
  | H : orb _ _ = false |- _ => apply orb_false_iff in H as [? ?]
  | H : negb _ = true |- _ => apply negb_true_iff in H
  | H : negb _ = false |- _ => apply negb_false_iff in H
  | H : Z.ltb _ _ = true |- _ => apply Z.ltb_lt in H
  | H : Z.ltb _ _ = false |- _ => apply Z.ltb_ge in H
  | H : Z.leb _ _ = true |- _ => apply Z.leb_le in H
  | H : Z.leb _ _ = false |- _ => apply Z.leb_gt in H
  | H : Z.gtb _ _ = true |- _ => apply Z.gtb_lt in H
  | H : Z.gtb _ _ = false |- _ => rewrite Z.gtb_ltb in H; apply Z.ltb_ge in H
  | H : Z.geb _ _ = true |- _ => rewrite Z.geb_leb in H; apply Z.leb_le in H
  | H : Z.geb _ _ = false |- _ => rewrite Z.geb_leb in H; apply Z.leb_gt in H
  | H : Z.eqb _ _ = true |- _ => apply Z.eqb_eq in H
  | H : Z.eqb _ _ = false |- _ => apply Z.eqb_neq in H
  | H : bool_decide _ = true |- _ => apply bool_decide_eq_true in H
  | H : bool_decide _ = false |- _ => apply bool_decide_eq_false in H
  end.

(** Case analysis on every comparison the goal or a hypothesis branches on. *)
Ltac split_ifs :=
  repeat match goal with
  | |- context [if ?b then _ else _] => let E := fresh "E" in destruct b eqn:E
  | H : context [if ?b then _ else _] |- _ => let E := fresh "E" in destruct b eqn:E
  end.

Ltac go_solve := split_ifs; bool_to_prop; simplify_eq/=; try lia; try naive_solver lia.

(** ** Generic lemmas on lists *)

Lemma existsb_spec {A} (f : A → bool) l :
  existsb f l = true ↔ ∃ x, x ∈ l ∧ f x = true.
Proof. rewrite existsb_exists. setoid_rewrite list_elem_of_In. done. Qed.

Lemma existsb_false {A} (f : A → bool) l :
  existsb f l = false ↔ ∀ x, x ∈ l → f x = false.
Proof.
  rewrite <- not_true_iff_false, existsb_spec. split.
  - intros H x Hx. destruct (f x) eqn:E; [exfalso; eauto | done].
  - intros H (x & Hx & E). rewrite H in E; done.
Qed.

Lemma forallb_spec {A} (f : A → bool) l :
  forallb f l = true ↔ ∀ x, x ∈ l → f x = true.
Proof. rewrite forallb_forall. setoid_rewrite list_elem_of_In. done. Qed.

(** Matching a list into one of the same length, with no two elements able to
    share a partner, is a bijection: the second list can be permuted so that
    partners face each other. *)
Lemma matching_perm {A B} (R : A → B → Prop) (ps : list A) (qs : list B) :
  ForallOrdPairs (λ p1 p2, ∀ q, R p1 q → R p2 q → False) ps →
  length ps = length qs →
  (∀ p, p ∈ ps → ∃ q, q ∈ qs ∧ R p q) →
  ∃ qs', qs' ≡ₚ qs ∧ Forall2 R ps qs'.
Proof.
  intros Hd. revert qs. induction Hd as [|p ps Hp _ IH]; intros qs Hlen Hm.
  - destruct qs; [|done]. exists []. split; [done | constructor].
  - destruct (Hm p) as (q & Hq & HR); [left|].
    apply list_elem_of_split in Hq as (l1 & l2 & ->).
    destruct (IH (l1 ++ l2)) as (qs' & Hperm & HF).
    + rewrite length_app in *. simpl in *. lia.
    + intros p' Hp'. destruct (Hm p') as (q' & Hq' & HR'); [by right|].
      exists q'. split; [|done].
      rewrite List.Forall_forall in Hp. apply list_elem_of_In in Hp'.
      apply elem_of_app in Hq' as [Hq'|Hq']; [set_solver|].
      apply elem_of_cons in Hq' as [->|Hq']; [|set_solver].
      exfalso; eauto.
    + exists (q :: qs'). split; [|by constructor].
      rewrite Hperm. by rewrite Permutation_middle.
Qed.

Lemma ForallOrdPairs_app {A} (R : A → A → Prop) l1 l2 :
  ForallOrdPairs R (l1 ++ l2) ↔
  ForallOrdPairs R l1 ∧ ForallOrdPairs R l2 ∧ ∀ x y, x ∈ l1 → y ∈ l2 → R x y.
Proof.
  induction l1 as [|a l1 IH]; simpl.
  - split; [|tauto]. intros H. split; [constructor|]. split; [done|]. set_solver.
  - split.
    + inversion 1 as [|? ? Ha Hl]; subst. apply IH in Hl as (H1 & H2 & H3).
      apply List.Forall_app in Ha as [Ha1 Ha2]. split; [by constructor|]. split; [done|].
      intros x y [->|Hx]%elem_of_cons Hy; [|auto].
      rewrite List.Forall_forall in Ha2. apply Ha2. by apply list_elem_of_In.
    + intros (H1 & H2 & H3). inversion H1 as [|? ? Ha Hl]; subst. constructor.
      * apply List.Forall_app. split; [done|]. apply List.Forall_forall.
        intros y Hy%list_elem_of_In. apply H3; [left|done].
      * apply IH. split; [done|]. split; [done|]. intros. apply H3; [by right|done].
Qed.

Lemma ForallOrdPairs_filter {A} (R : A → A → Prop) (P : A → Prop) `{∀ x, Decision (P x)} (l : list A) :
  ForallOrdPairs R l → ForallOrdPairs R (filter P l).
Proof.
  induction 1 as [|a l Ha _ IH]; [constructor|]. rewrite filter_cons. case_decide; [|done].
  constructor; [|done]. rewrite List.Forall_forall in *. intros x Hx%list_elem_of_In.
  apply Ha, list_elem_of_In. by apply list_elem_of_filter in Hx as [_ ?].
Qed.

Lemma filter_all {A} (P : A → Prop) `{∀ x, Decision (P x)} (l : list A) :
  (∀ x, x ∈ l → P x) → filter P l = l.
Proof.
  induction l as [|x l IH]; intros Hl; [done|].
  rewrite filter_cons_True by (apply Hl; left). f_equal. apply IH. intros. apply Hl. by right.
Qed.

Lemma StronglySorted_filter {A} (R : A → A → Prop) (P : A → Prop) `{∀ x, Decision (P x)} (l : list A) :
  StronglySorted R l → StronglySorted R (filter P l).
Proof.
  induction 1 as [|a l _ IH Hl]; [constructor|].
  rewrite filter_cons. case_decide; [|done]. constructor; [done|].
  rewrite Forall_forall in *. intros x [_ Hx]%list_elem_of_filter. auto.
Qed.

Lemma NoDup_fmap_filter {A B} (f : A → B) (P : A → Prop) `{∀ x, Decision (P x)} (l : list A) :
  NoDup (f <$> l) → NoDup (f <$> filter P l).
Proof.
  induction l as [|x l IH]; [done|]. rewrite filter_cons, fmap_cons, NoDup_cons. intros [Hx Hn].
  case_decide; [|by apply IH]. rewrite fmap_cons, NoDup_cons. split; [|by apply IH].
  intros (y & Hy & [_ Hin]%list_elem_of_filter)%list_elem_of_fmap. apply Hx, list_elem_of_fmap. by exists y.
Qed.

Lemma Forall_app_cons2 {A} (P : A → Prop) l x y l' :
  Forall P (l ++ x :: y :: l') ↔ Forall P l ∧ P x ∧ P y ∧ Forall P l'.
Proof. by rewrite Forall_app, !Forall_cons. Qed.

(** ** Generic lemmas on maps *)

(** Sums over a finite map, for any reading [f] of its values. *)
Section sums.
Context {K A : Type} `{Countable K} (f : A → Z).
Definition msum (m : gmap K A) : Z := map_fold (λ _ x acc, acc + f x) 0 m.

Lemma msum_fresh m k x : m !! k = None → msum (<[k := x]> m) = msum m + f x.
Proof.
  intros Hk. unfold msum. rewrite map_fold_insert_L; [done| |done].
  intros. lia.
Qed.
Lemma msum_delete m k x : m !! k = Some x → msum (delete k m) = msum m - f x.
Proof.
  intros Hk. rewrite <- (insert_id m k x Hk) at 2. rewrite <- insert_delete_eq.
  rewrite msum_fresh by apply lookup_delete_eq. lia.
Qed.
Lemma msum_insert m k x :
  msum (<[k := x]> m) = msum m - from_option f 0 (m !! k) + f x.
Proof.
  destruct (m !! k) as [y|] eqn:E; simpl.
  - rewrite <- insert_delete_eq, msum_fresh by apply lookup_delete_eq.
    rewrite (msum_delete m k y E). lia.
  - rewrite msum_fresh by done. lia.
Qed.
Lemma msum_to_list m : msum m = foldr (λ kv acc, acc + f kv.2) 0 (map_to_list m).
Proof.
  unfold msum. rewrite map_fold_foldr. induction (map_to_list m) as [|[k x] l IH]; simpl; [done|].
  by rewrite IH.
Qed.
Lemma msum_nonneg m : (∀ x, 0 ≤ f x) → 0 ≤ msum m.
Proof.
  intros Hf. induction m as [|k x m Hk IH] using map_ind; [done|].
  rewrite msum_fresh by done. specialize (Hf x). lia.
Qed.
Lemma msum_pos m : (∀ x, 0 ≤ f x) → 0 < msum m ↔ ∃ k x, m !! k = Some x ∧ 0 < f x.
Proof.
  intros Hf. induction m as [|k x m Hk IH] using map_ind.
  - split; [done|]. intros (k & x & Hx & _). by rewrite lookup_empty in Hx.
  - rewrite msum_fresh by done. pose proof (Hf x). pose proof (msum_nonneg m Hf). split.
    + intros Hs. destruct (decide (0 < f x)).
      * exists k, x. by rewrite lookup_insert_eq.
      * destruct IH as [IH _]. destruct IH as (k' & x' & ? & ?); [lia|].
        exists k', x'. rewrite lookup_insert_ne by congruence. done.
    + intros (k' & x' & Hl & ?). destruct (decide (k = k')) as [<-|Hne].
      * rewrite lookup_insert_eq in Hl. simplify_eq. lia.
      * rewrite lookup_insert_ne in Hl by done. assert (0 < msum m) by (apply IH; eauto). lia.
Qed.
End sums.
