(* ===== verification/TaskKey.v ===== *)
(** * Task keys: [service/history/tasks/key.go]

    A task key is a fire time and a task ID; immediate queues use the fire
    time 0.  A [time.Time] is represented by its instant, in nanoseconds since
    the Unix epoch (the location and the monotonic reading do not take part in
    [Before], [After] or [UnixNano]). *)
From S2P Require Import Prelude.
Local Open Scope Z_scope.
Local Open Scope go_scope.

Definition time := Z.
(** [Time.UnixNano] computes in [int64] arithmetic. *)
Definition UnixNano (t : time) : Z := wrap64 t.

Record Key := mkKey { FireTime : time; TaskID : Z }.

#[export] Instance Key_eq_dec : EqDecision Key.
Proof. solve_decision. Defined.
#[export] Instance Key_countable : Countable Key.
Proof.
  refine (inj_countable' (λ k, (FireTime k, TaskID k)) (λ p, mkKey p.1 p.2) _).
  by intros [].
Defined.
#[export] Instance Key_inhabited : Inhabited Key := populate (mkKey 0 0).

Definition DefaultFireTime : time := 0.
Definition defaultFireTimeUnixNano : Z := UnixNano DefaultFireTime.

Definition NewKey (fireTime : time) (taskID : Z) : Key := mkKey fireTime taskID.
Definition NewImmediateKey (taskID : Z) : Key := mkKey DefaultFireTime taskID.

Definition MinimumKey : Key := NewKey DefaultFireTime 0.
Definition MaximumKey : Key := NewKey MaxInt64 MaxInt64.

Inductive key_error := FireTimeTooSmall (unixNano : Z) | TaskIDNegative (taskID : Z).

Definition ValidateKey (key : Key) : option key_error :=
  if UnixNano (FireTime key) <? defaultFireTimeUnixNano
  then Some (FireTimeTooSmall (UnixNano (FireTime key)))
  else if TaskID key <? 0 then Some (TaskIDNegative (TaskID key))
  else None.

Definition CompareTo (left right : Key) : Z :=
  if FireTime left <? FireTime right then -1
  else if FireTime left >? FireTime right then 1
  else if TaskID left <? TaskID right then -1
  else if TaskID left >? TaskID right then 1
  else 0.

(** [None] is the panic on underflow or overflow. *)
Definition Prev (k : Key) : option Key :=
  if TaskID k =? 0 then
    if UnixNano (FireTime k) =? 0 then None
    else Some (NewKey (FireTime k - 1) MaxInt64)
  else Some (NewKey (FireTime k) (wrap64 (TaskID k - 1))).

Definition Next (k : Key) : option Key :=
  if TaskID k =? MaxInt64 then
    if UnixNano (FireTime k) =? MaxInt64 then None
    else Some (NewKey (FireTime k + 1) 0)
  else Some (NewKey (FireTime k) (wrap64 (TaskID k + 1))).

Definition Sub (k subtrahend : Key) : option Key :=
  let d := wrap64 (TaskID k - TaskID subtrahend) in
  let '(borrow, differenceTaskID) :=
    if d <? 0 then (1, wrap64 (d + TaskID MaximumKey)) else (0, d) in
  let fireTime := wrap64 (UnixNano (FireTime k) - borrow) in
  let subtrahendFireTime := UnixNano (FireTime subtrahend) in
  if fireTime <? subtrahendFireTime then None
  else Some (NewKey (wrap64 (fireTime - subtrahendFireTime)) differenceTaskID).

Definition MinKey (this that : Key) : Key :=
  if CompareTo this that <? 0 then this else that.

Definition MaxKey (this that : Key) : Key :=
  if CompareTo this that <? 0 then that else this.

(** [sort.Interface] on a slice of keys. *)
Definition Keys := list Key.
Definition Keys_Len (s : Keys) : nat := length s.
Definition Keys_Less (s : Keys) (this that : nat) : option bool :=
  match s !! this, s !! that with
  | Some a, Some b => Some (CompareTo a b <? 0)
  | _, _ => None
  end.
Definition Keys_Swap (s : Keys) (this that : nat) : option Keys :=
  match s !! this, s !! that with
  | Some a, Some b => Some (<[that := a]> (<[this := b]> s))
  | _, _ => None
  end.

(** ** The order [CompareTo] decides *)

Definition key_lt (a b : Key) : Prop :=
  FireTime a < FireTime b ∨ (FireTime a = FireTime b ∧ TaskID a < TaskID b).
Definition key_le (a b : Key) : Prop := ¬ key_lt b a.

Declare Scope key_scope.
Delimit Scope key_scope with key.
Infix "<k" := key_lt (at level 70) : key_scope.
Infix "≤k" := key_le (at level 70) : key_scope.
Local Open Scope key_scope.

Ltac key_unfold :=
  unfold key_le, key_lt, MinKey, MaxKey, CompareTo, NewKey in *;
  repeat match goal with k : Key |- _ => destruct k end; simpl in *.
(** Decides goals about the order of keys. *)
Ltac key_solve :=
  key_unfold; intros; go_solve;
  repeat match goal with |- mkKey _ _ = mkKey _ _ => f_equal end; try lia.

Lemma key_lt_irrefl a : ¬ a <k a.
Proof. key_solve. Qed.
Lemma key_lt_trans a b c : a <k b → b <k c → a <k c.
Proof. key_solve. Qed.
Lemma key_le_antisymm a b : a ≤k b → b ≤k a → a = b.
Proof. key_unfold. intros. f_equal; lia. Qed.

Lemma CompareTo_lt a b : CompareTo a b < 0 ↔ a <k b.
Proof. key_unfold. split; intros; go_solve. Qed.
Lemma CompareTo_gt a b : 0 < CompareTo a b ↔ b <k a.
Proof. key_unfold. split; intros; go_solve. Qed.
Lemma CompareTo_eq a b : CompareTo a b = 0 ↔ a = b.
Proof.
  key_unfold. split; intros; [|go_solve].
  split_ifs; bool_to_prop; try lia. f_equal; lia.
Qed.
Lemma CompareTo_le a b : CompareTo a b ≤ 0 ↔ a ≤k b.
Proof. unfold key_le. rewrite <- CompareTo_gt. lia. Qed.
Lemma CompareTo_ge a b : 0 ≤ CompareTo a b ↔ b ≤k a.
Proof. unfold key_le. rewrite <- CompareTo_lt. lia. Qed.

Lemma MinKey_l a b : a ≤k b → MinKey a b = a.
Proof.
  unfold MinKey. intros H. destruct (CompareTo a b <? 0) eqn:E; [done|].
  apply Z.ltb_ge, CompareTo_ge in E. by apply key_le_antisymm.
Qed.
Lemma MinKey_r a b : b ≤k a → MinKey a b = b.
Proof.
  unfold MinKey. intros H. destruct (CompareTo a b <? 0) eqn:E; [|done].
  apply Z.ltb_lt, CompareTo_lt in E. done.
Qed.
Lemma MaxKey_l a b : b ≤k a → MaxKey a b = a.
Proof.
  unfold MaxKey. intros H. destruct (CompareTo a b <? 0) eqn:E; [|done].
  apply Z.ltb_lt, CompareTo_lt in E. done.
Qed.
Lemma MaxKey_r a b : a ≤k b → MaxKey a b = b.
Proof.
  unfold MaxKey. intros H. destruct (CompareTo a b <? 0) eqn:E; [done|].
  apply Z.ltb_ge, CompareTo_ge in E. by apply key_le_antisymm.
Qed.
Lemma key_le_total a b : a ≤k b ∨ b ≤k a.
Proof. key_unfold. lia. Qed.
Lemma key_le_refl a : a ≤k a.
Proof. key_unfold. lia. Qed.
Lemma key_le_trans a b c : a ≤k b → b ≤k c → a ≤k c.
Proof. key_unfold. lia. Qed.
Lemma key_lt_le a b : a <k b → a ≤k b.
Proof. key_unfold. lia. Qed.
Lemma MinKey_comm a b : MinKey a b = MinKey b a.
Proof.
  destruct (key_le_total a b); [rewrite MinKey_l, MinKey_r | rewrite MinKey_r, MinKey_l]; done.
Qed.
Lemma MaxKey_comm a b : MaxKey a b = MaxKey b a.
Proof.
  destruct (key_le_total a b); [rewrite MaxKey_r, MaxKey_l | rewrite MaxKey_l, MaxKey_r]; done.
Qed.

#[export] Instance key_lt_dec a b : Decision (a <k b).
Proof. unfold key_lt. apply _. Defined.
#[export] Instance key_le_dec a b : Decision (a ≤k b).
Proof. unfold key_le. apply _. Defined.

(** Rewrites every comparison of keys in the context to the order. *)
Ltac key_cmp :=
  repeat match goal with
  | H : (CompareTo _ _ <? 0) = true |- _ => apply Z.ltb_lt, CompareTo_lt in H
  | H : (CompareTo _ _ <? 0) = false |- _ => apply Z.ltb_ge, CompareTo_ge in H
  | H : (CompareTo _ _ <=? 0) = true |- _ => apply Z.leb_le, CompareTo_le in H
  | H : (0 <=? CompareTo _ _) = true |- _ => apply Z.leb_le, CompareTo_ge in H
  end.

(** ** Keys the store can hold

    [ValidateKey] accepts exactly the keys with a fire time in
    [0, MaxInt64] nanoseconds (given that the instant is one an [int64] can
    express) and a non-negative task ID. *)

Definition valid_key (k : Key) : Prop :=
  0 ≤ FireTime k ≤ MaxInt64 ∧ 0 ≤ TaskID k ≤ MaxInt64.

#[export] Instance valid_key_dec k : Decision (valid_key k).
Proof. unfold valid_key. apply _. Defined.

Lemma ValidateKey_spec k :
  in_int64 (FireTime k) → in_int64 (TaskID k) →
  ValidateKey k = None ↔ valid_key k.
Proof.
  unfold ValidateKey, valid_key, UnixNano, defaultFireTimeUnixNano, UnixNano, DefaultFireTime.
  intros Hf Ht. rewrite !wrap64_id by (int_bounds; lia). int_bounds. go_solve.
Qed.

Lemma valid_key_bounds k : valid_key k → MinimumKey ≤k k ∧ k ≤k MaximumKey.
Proof.
  unfold valid_key, MinimumKey, MaximumKey, DefaultFireTime. key_unfold.
  int_bounds. lia.
Qed.

(** The position of a valid key in the order: the number of keys below it. *)
Definition key_pos (k : Key) : Z := FireTime k * two63 + TaskID k.

Lemma key_pos_lt a b : valid_key a → valid_key b → a <k b ↔ key_pos a < key_pos b.
Proof.
  unfold valid_key, key_pos, key_lt. int_bounds.
  intros [??] [??]. split; [|destruct (Z.lt_trichotomy (FireTime a) (FireTime b)) as [?|[?|?]]]; nia.
Qed.

Lemma Next_pos k : valid_key k →
  match Next k with
  | Some k' => valid_key k' ∧ key_pos k' = key_pos k + 1
  | None => k = MaximumKey
  end.
Proof.
  intros Hv. destruct k as [f t]. unfold Next, UnixNano, valid_key, key_pos, MaximumKey, NewKey in *.
  simpl in *. int_bounds. rewrite wrap64_id by (int_bounds; lia).
  destruct (t =? _) eqn:E1; [destruct (f =? _) eqn:E2|]; bool_to_prop; simpl.
  - f_equal; lia.
  - lia.
  - rewrite wrap64_id by (int_bounds; lia). lia.
Qed.

Lemma Prev_pos k : valid_key k →
  match Prev k with
  | Some k' => valid_key k' ∧ key_pos k' = key_pos k - 1
  | None => k = MinimumKey
  end.
Proof.
  intros Hv. destruct k as [f t].
  unfold Prev, UnixNano, valid_key, key_pos, MinimumKey, DefaultFireTime, NewKey in *.
  simpl in *. int_bounds. rewrite wrap64_id by (int_bounds; lia).
  destruct (t =? _) eqn:E1; [destruct (f =? _) eqn:E2|]; bool_to_prop; simpl.
  - f_equal; lia.
  - lia.
  - rewrite wrap64_id by (int_bounds; lia). lia.
Qed.

Lemma key_pos_inj a b : valid_key a → valid_key b → key_pos a = key_pos b → a = b.
Proof.
  intros Ha Hb E. apply key_le_antisymm; intros ?%key_pos_lt; lia || done.
Qed.

Lemma Next_lt k k' : valid_key k → Next k = Some k' → valid_key k' ∧ k <k k'.
Proof.
  intros Hv E. pose proof (Next_pos k Hv) as H. rewrite E in H. destruct H.
  split; [done|]. apply key_pos_lt; [done..|lia].
Qed.

Lemma Next_le k k' x : valid_key k → valid_key x → Next k = Some k' → k <k x ↔ k' ≤k x.
Proof.
  intros Hv Hx E. pose proof (Next_pos k Hv) as H. rewrite E in H. destruct H as [Hk' Hp].
  unfold key_le. rewrite !key_pos_lt by done. lia.
Qed.

(** ** Properties *)

(** On the keys [ValidateKey] accepts, [Next] returns the immediate successor in the order
    of [CompareTo] (it is greater, it is below every other greater valid key, and [Prev]
    undoes it), and it panics exactly at [MaximumKey]. *)
Theorem Next_is_successor k :
  valid_key k →
  match Next k with
  | None => k = MaximumKey
  | Some k' =>
      valid_key k' ∧ CompareTo k k' = -1 ∧ Prev k' = Some k ∧
      ∀ x, valid_key x → CompareTo k x = -1 → CompareTo k' x ≤ 0
  end.
Proof.
  intros Hv. pose proof (Next_pos k Hv) as HN.
  destruct (Next k) as [k'|] eqn:E; [|done]. destruct HN as [Hv' Hp].
  assert (Hlt : k <k k') by (apply key_pos_lt; [done..|lia]).
  split; [done|]. split; [|split].
  - apply CompareTo_lt in Hlt. unfold CompareTo in *. go_solve.
  - pose proof (Prev_pos k' Hv') as HP. destruct (Prev k') as [k''|] eqn:E'.
    + destruct HP as [Hv'' Hp']. f_equal. apply key_pos_inj; [done..|lia].
    + subst k'. exfalso. apply valid_key_bounds in Hv as [Hv _]. done.
  - intros x Hx Hc. apply CompareTo_le. apply (Next_le k); [done..|]. apply CompareTo_lt. lia.
Qed.

Lemma Next_is_successor_witness :
  valid_key (mkKey 7 MaxInt64) ∧ Next (mkKey 7 MaxInt64) = Some (mkKey 8 0) ∧
  Prev (mkKey 8 0) = Some (mkKey 7 MaxInt64).
Proof.
  assert (Hv : valid_key (mkKey 7 MaxInt64)) by by_decide.
  assert (E : Next (mkKey 7 MaxInt64) = Some (mkKey 8 0)) by (vm_compute; reflexivity).
  pose proof (Next_is_successor _ Hv) as H. rewrite E in H.
  destruct H as (_ & _ & H & _). exact (conj Hv (conj E H)).
Defined.

(** A key is never below what is subtracted from it when it is not below it. *)
Lemma Sub_is_Some k s : valid_key k → valid_key s → s ≤k k → is_Some (Sub k s).
Proof.
  destruct k as [f t], s as [f' t']. unfold valid_key, Sub, UnixNano, MaximumKey, NewKey, key_le, key_lt.
  simpl. intros [??] [??] Hle. int_bounds.
  rewrite !(wrap64_id (t - t')) by (int_bounds; lia).
  rewrite !(wrap64_id f), !(wrap64_id f') by (int_bounds; lia).
  destruct (t - t' <? 0) eqn:E1; bool_to_prop;
  rewrite !wrap64_id by (int_bounds; lia);
  destruct (_ <? f') eqn:E3; bool_to_prop; [lia|by eexists|lia|by eexists].
Qed.

(** [Sub] on valid keys: without a borrow the result is the exact distance of the two keys;
    when the task ID borrows, [MaximumKey.TaskID] ([2^63-1]) is added where a fire-time step is
    worth [2^63] task IDs, so the result is one short of the distance. *)
Theorem Sub_distance k s :
  valid_key k → valid_key s →
  match Sub k s with
  | Some d => key_pos d = key_pos k - key_pos s - (if TaskID k <? TaskID s then 1 else 0)
  | None => key_pos k < key_pos s
  end.
Proof.
  destruct k as [f t], s as [f' t']. unfold valid_key, Sub, UnixNano, key_pos, MaximumKey, NewKey.
  simpl. intros [??] [??]. int_bounds.
  rewrite !(wrap64_id (t - t')) by (int_bounds; lia).
  rewrite !(wrap64_id f), !(wrap64_id f') by (int_bounds; lia).
  destruct (t - t' <? 0) eqn:E1; destruct (t <? t') eqn:E2; bool_to_prop; try lia;
  rewrite !wrap64_id by (int_bounds; lia);
  destruct (_ <? f') eqn:E3; bool_to_prop; simpl; rewrite ?wrap64_id by (int_bounds; lia); lia.
Qed.

Lemma Sub_distance_witness :
  valid_key (mkKey 8 0) ∧ valid_key (mkKey 7 MaxInt64) ∧
  Sub (mkKey 8 0) (mkKey 7 MaxInt64) = Some MinimumKey ∧
  key_pos (mkKey 8 0) - key_pos (mkKey 7 MaxInt64) = 1 ∧
  key_pos MinimumKey = key_pos (mkKey 8 0) - key_pos (mkKey 7 MaxInt64) - 1.
Proof.
  assert (H1 : valid_key (mkKey 8 0)) by by_decide.
  assert (H2 : valid_key (mkKey 7 MaxInt64)) by by_decide.
  split; [exact H1|]. split; [exact H2|]. split; [reflexivity|]. split; [reflexivity|].
  exact (Sub_distance _ _ H1 H2).
Defined.
