(* ===== verification/TaskRange.v ===== *)
(** * Key ranges: [service/history/queues/range.go]

    A range is a half-open interval of task keys.  [NewRange] panics on
    inverted bounds, so every range a queue holds is [range_wf]. *)
From S2P Require Import Prelude TaskKey.
Local Open Scope Z_scope.
Local Open Scope key_scope.

Record Range := mkRange { InclusiveMin : Key; ExclusiveMax : Key }.

#[export] Instance Range_eq_dec : EqDecision Range.
Proof. solve_decision. Defined.

(** [None] is a panic. *)
Definition NewRange (inclusiveMin exclusiveMax : Key) : option Range :=
  if 0 <? CompareTo inclusiveMin exclusiveMax then None
  else Some (mkRange inclusiveMin exclusiveMax).

Definition IsEmpty (r : Range) : bool := CompareTo (InclusiveMin r) (ExclusiveMax r) =? 0.

Definition ContainsKey (r : Range) (key : Key) : bool :=
  (CompareTo key (InclusiveMin r) >=? 0) && (CompareTo key (ExclusiveMax r) <? 0).

Definition ContainsRange (r input : Range) : bool :=
  (CompareTo (InclusiveMin r) (InclusiveMin input) <=? 0) &&
  (CompareTo (ExclusiveMax r) (ExclusiveMax input) >=? 0).

Definition CanSplit (r : Range) (key : Key) : bool :=
  ContainsKey r key || (CompareTo (ExclusiveMax r) key =? 0).

Definition Split (r : Range) (key : Key) : option (Range * Range) :=
  if CanSplit r key then
    left ← NewRange (InclusiveMin r) key;
    right ← NewRange key (ExclusiveMax r);
    Some (left, right)
  else None.

Definition CanMerge (r input : Range) : bool :=
  (CompareTo (InclusiveMin r) (ExclusiveMax input) <=? 0) &&
  (CompareTo (ExclusiveMax r) (InclusiveMin input) >=? 0).

Definition Merge (r input : Range) : option Range :=
  if CanMerge r input then
    NewRange (MinKey (InclusiveMin r) (InclusiveMin input))
             (MaxKey (ExclusiveMax r) (ExclusiveMax input))
  else None.

Definition Equals (r input : Range) : bool :=
  (CompareTo (InclusiveMin r) (InclusiveMin input) =? 0) &&
  (CompareTo (ExclusiveMax r) (ExclusiveMax input) =? 0).

(** ** Ranges as sets of keys *)

Definition range_wf (r : Range) : Prop := InclusiveMin r ≤k ExclusiveMax r.
Definition in_range (k : Key) (r : Range) : Prop := InclusiveMin r ≤k k ∧ k <k ExclusiveMax r.

#[export] Instance range_wf_dec r : Decision (range_wf r).
Proof. unfold range_wf. apply _. Defined.

Lemma NewRange_Some a b r : NewRange a b = Some r ↔ a ≤k b ∧ r = mkRange a b.
Proof.
  unfold NewRange. destruct (0 <? CompareTo a b) eqn:E.
  - apply Z.ltb_lt, CompareTo_gt in E. unfold key_le. naive_solver.
  - apply Z.ltb_ge, CompareTo_le in E. naive_solver.
Qed.

Lemma ContainsKey_spec r k : ContainsKey r k = true ↔ in_range k r.
Proof.
  unfold ContainsKey, in_range. rewrite andb_true_iff, Z.geb_leb, Z.leb_le, Z.ltb_lt.
  by rewrite CompareTo_ge, CompareTo_lt.
Qed.

Lemma ContainsRange_spec r i :
  ContainsRange r i = true ↔ InclusiveMin r ≤k InclusiveMin i ∧ ExclusiveMax i ≤k ExclusiveMax r.
Proof.
  unfold ContainsRange. rewrite andb_true_iff, Z.geb_leb, !Z.leb_le.
  by rewrite CompareTo_ge, CompareTo_le.
Qed.

Lemma CanSplit_spec r k :
  range_wf r → CanSplit r k = true ↔ InclusiveMin r ≤k k ∧ k ≤k ExclusiveMax r.
Proof.
  unfold CanSplit, range_wf. intros Hwf.
  rewrite orb_true_iff, ContainsKey_spec, Z.eqb_eq, CompareTo_eq. unfold in_range.
  split.
  - intros [[??]|<-]; [auto using key_lt_le|]. auto using key_le_refl.
  - intros [??]. destruct (decide (ExclusiveMax r = k)); [by right|left].
    split; [done|]. destruct (decide (k <k ExclusiveMax r)); [done|].
    exfalso. eauto using key_le_antisymm.
Qed.

Lemma CanMerge_spec r i :
  CanMerge r i = true ↔ InclusiveMin r ≤k ExclusiveMax i ∧ InclusiveMin i ≤k ExclusiveMax r.
Proof.
  unfold CanMerge. rewrite andb_true_iff, Z.geb_leb, !Z.leb_le.
  by rewrite CompareTo_ge, CompareTo_le.
Qed.

Lemma Equals_spec r i : Equals r i = true ↔ r = i.
Proof.
  unfold Equals. rewrite andb_true_iff, !Z.eqb_eq, !CompareTo_eq.
  destruct r, i; naive_solver.
Qed.

Lemma IsEmpty_spec r : range_wf r → IsEmpty r = true ↔ ∀ k, ¬ in_range k r.
Proof.
  unfold IsEmpty, in_range, range_wf. rewrite Z.eqb_eq, CompareTo_eq. intros Hwf. split.
  - intros -> k [H1 H2]. done.
  - intros H. destruct (decide (InclusiveMin r <k ExclusiveMax r)) as [Hlt|Hge].
    + exfalso. apply (H (InclusiveMin r)). auto using key_le_refl.
    + by apply key_le_antisymm.
Qed.

Lemma Split_Some r k r1 r2 :
  Split r k = Some (r1, r2) →
  InclusiveMin r ≤k k ∧ k ≤k ExclusiveMax r ∧
  r1 = mkRange (InclusiveMin r) k ∧ r2 = mkRange k (ExclusiveMax r).
Proof.
  unfold Split. destruct (CanSplit r k); [|done].
  intros (l & Hl%NewRange_Some & (rr & Hr%NewRange_Some & [= <- <-])%bind_Some)%bind_Some.
  naive_solver.
Qed.

Lemma Split_total r k :
  range_wf r → InclusiveMin r ≤k k → k ≤k ExclusiveMax r →
  Split r k = Some (mkRange (InclusiveMin r) k, mkRange k (ExclusiveMax r)).
Proof.
  intros Hwf H1 H2. unfold Split.
  rewrite (proj2 (CanSplit_spec r k Hwf)) by done.
  rewrite (proj2 (NewRange_Some _ _ _) (conj H1 eq_refl)). simpl.
  by rewrite (proj2 (NewRange_Some _ _ _) (conj H2 eq_refl)).
Qed.

Lemma Merge_total r i :
  range_wf r → range_wf i → CanMerge r i = true →
  Merge r i = Some (mkRange (MinKey (InclusiveMin r) (InclusiveMin i))
                            (MaxKey (ExclusiveMax r) (ExclusiveMax i))).
Proof.
  unfold range_wf, Merge. intros Hr Hi ->. apply NewRange_Some. split; [|done].
  key_solve.
Qed.

Lemma CanMerge_sym r input : CanMerge input r = CanMerge r input.
Proof. apply eq_iff_eq_true. rewrite !CanMerge_spec. tauto. Qed.

Lemma Merge_keys r input m :
  range_wf r → range_wf input → Merge r input = Some m →
  range_wf m ∧ ∀ k, ContainsKey m k = true ↔ ContainsKey r k = true ∨ ContainsKey input k = true.
Proof.
  intros Hr Hi Hm. destruct (CanMerge r input) eqn:E; [|unfold Merge in Hm; by rewrite E in Hm].
  rewrite Merge_total in Hm by done. injection Hm as <-.
  apply CanMerge_spec in E as [E1 E2]. unfold range_wf in *. split; [simpl; key_solve|].
  intros k. rewrite !ContainsKey_spec. unfold in_range. simpl.
  destruct (key_le_total (InclusiveMin r) (InclusiveMin input)) as [Ha|Ha];
  destruct (key_le_total (ExclusiveMax r) (ExclusiveMax input)) as [Hb|Hb];
  rewrite ?(MinKey_l _ _ Ha), ?(MinKey_r _ _ Ha), ?(MaxKey_l _ _ Hb), ?(MaxKey_r _ _ Hb);
  destruct r, input; simpl in *; key_unfold; lia.
Qed.

(** ** Properties *)

(** [Split] of a well-formed range panics exactly when the key lies outside its closed
    interval, and otherwise partitions the keys of the range: every key of the range is in
    exactly one half, and no other key is in either. *)
Lemma Split_partition r key :
  range_wf r →
  (Split r key = None ↔ CanSplit r key = false) ∧
  ∀ left right, Split r key = Some (left, right) →
    range_wf left ∧ range_wf right ∧
    ∀ k, (ContainsKey r k = true ↔ ContainsKey left k = true ∨ ContainsKey right k = true) ∧
         ¬ (ContainsKey left k = true ∧ ContainsKey right k = true).
Proof.
  intros Hwf. split.
  - destruct (CanSplit r key) eqn:E.
    + apply CanSplit_spec in E as [??]; [|done]. rewrite Split_total by done. done.
    + unfold Split. by rewrite E.
  - intros l rr (H1 & H2 & -> & ->)%Split_Some. split; [done|]. split; [done|].
    intros k. rewrite !ContainsKey_spec. unfold in_range. simpl. key_unfold. lia.
Qed.

Lemma Split_partition_witness :
  range_wf (mkRange (mkKey 0 1) (mkKey 0 9)) ∧
  Split (mkRange (mkKey 0 1) (mkKey 0 9)) (mkKey 0 4)
    = Some (mkRange (mkKey 0 1) (mkKey 0 4), mkRange (mkKey 0 4) (mkKey 0 9)) ∧
  Split (mkRange (mkKey 0 1) (mkKey 0 9)) (mkKey 0 10) = None.
Proof.
  assert (H : range_wf (mkRange (mkKey 0 1) (mkKey 0 9))) by by_decide.
  split; [exact H|]. split; [reflexivity|].
  apply (Split_partition _ (mkKey 0 10) H). reflexivity.
Defined.

(** [Merge] of two well-formed ranges panics exactly when they neither overlap nor touch
    ([CanMerge]), is commutative, and otherwise its keys are exactly those of the two ranges:
    [CanMerge] never lets it swallow keys of a gap. *)
Lemma Merge_union r input :
  range_wf r → range_wf input →
  Merge r input = Merge input r ∧
  (Merge r input = None ↔ CanMerge r input = false) ∧
  ∀ m, Merge r input = Some m →
    range_wf m ∧
    ∀ k, ContainsKey m k = true ↔ ContainsKey r k = true ∨ ContainsKey input k = true.
Proof.
  intros Hr Hi. pose proof (CanMerge_sym r input) as Hsym. split; [|split].
  - destruct (CanMerge r input) eqn:E; [|unfold Merge; by rewrite E, Hsym].
    rewrite !Merge_total by done. by rewrite MinKey_comm, MaxKey_comm.
  - destruct (CanMerge r input) eqn:E; [by rewrite Merge_total|]. unfold Merge. by rewrite E.
  - intros m. by apply Merge_keys.
Qed.

Lemma Merge_union_witness :
  range_wf (mkRange (mkKey 0 1) (mkKey 0 4)) ∧ range_wf (mkRange (mkKey 0 4) (mkKey 0 9)) ∧
  Merge (mkRange (mkKey 0 1) (mkKey 0 4)) (mkRange (mkKey 0 4) (mkKey 0 9))
    = Some (mkRange (mkKey 0 1) (mkKey 0 9)) ∧
  Merge (mkRange (mkKey 0 1) (mkKey 0 4)) (mkRange (mkKey 0 5) (mkKey 0 9)) = None.
Proof.
  assert (H1 : range_wf (mkRange (mkKey 0 1) (mkKey 0 4))) by by_decide.
  assert (H2 : range_wf (mkRange (mkKey 0 5) (mkKey 0 9))) by by_decide.
  split; [exact H1|]. split; [by_decide|]. split; [reflexivity|].
  apply (Merge_union _ _ H1 H2). reflexivity.
Defined.
