(* ===== verification/Predicates.v ===== *)
(** * Predicates: [common/predicates]

    The package's predicate combinators over an open set of leaf predicates.
    A leaf is whatever another package adds to the [Predicate] interface; the
    class [LeafPredicate] is that interface ([Test], [Equals], [Size]) and
    [LeafLaws] what this package relies on: the leaf's [Equals] is an
    equivalence that implies the same [Test].  [TaskPredicates] discharges it
    for the task predicates. *)
From S2P Require Import Prelude.
Local Open Scope Z_scope.

Class LeafPredicate (T L : Type) := {
  leaf_test : L → T → bool;
  leaf_equals : L → L → bool;
  leaf_size : Z → L → Z;
}.

Class LeafLaws (T L : Type) {LP : LeafPredicate T L} := {
  leaf_equals_refl l : leaf_equals l l = true;
  leaf_equals_sym l m : leaf_equals l m = true → leaf_equals m l = true;
  leaf_equals_trans l m n :
    leaf_equals l m = true → leaf_equals m n = true → leaf_equals l n = true;
  leaf_equals_sound l m t : leaf_equals l m = true → leaf_test l t = leaf_test m t;
}.

Inductive Predicate (L : Type) : Type :=
  | UniversalImpl
  | EmptyImpl
  | AndImpl (Predicates : list (Predicate L))
  | OrImpl (Predicates : list (Predicate L))
  | NotImpl (p : Predicate L)
  | Leaf (l : L).
Arguments UniversalImpl {L}.
Arguments EmptyImpl {L}.
Arguments AndImpl {L} Predicates.
Arguments OrImpl {L} Predicates.
Arguments NotImpl {L} p.
Arguments Leaf {L} l.

(** The induction principle that reaches through the lists of children. *)
Section induction.
Context {L : Type} (P : Predicate L → Prop).
Hypothesis Hu : P UniversalImpl.
Hypothesis He : P EmptyImpl.
Hypothesis Ha : ∀ ps, (∀ p, p ∈ ps → P p) → P (AndImpl ps).
Hypothesis Ho : ∀ ps, (∀ p, p ∈ ps → P p) → P (OrImpl ps).
Hypothesis Hn : ∀ p, P p → P (NotImpl p).
Hypothesis Hl : ∀ l, P (Leaf l).

Fixpoint Predicate_nested_ind (p : Predicate L) : P p :=
  let all := fix all (ps : list (Predicate L)) : Forall P ps :=
    match ps with
    | [] => Forall_nil_2 P
    | q :: qs => Forall_cons_2 P q qs (Predicate_nested_ind q) (all qs)
    end in
  match p with
  | UniversalImpl => Hu
  | EmptyImpl => He
  | AndImpl ps => Ha ps (proj1 (Forall_forall P ps) (all ps))
  | OrImpl ps => Ho ps (proj1 (Forall_forall P ps) (all ps))
  | NotImpl q => Hn q (Predicate_nested_ind q)
  | Leaf l => Hl l
  end.
End induction.

Section predicates.
Context {T L : Type} {LP : LeafPredicate T L}.
Implicit Types (p q : Predicate L) (ps qs cur new : list (Predicate L)) (t : T).

(** [Test]: the method of each implementation. *)
Fixpoint Test (p : Predicate L) (t : T) : bool :=
  match p with
  | UniversalImpl => true
  | EmptyImpl => false
  | AndImpl ps => forallb (fun q => Test q t) ps
  | OrImpl ps => existsb (fun q => Test q t) ps
  | NotImpl q => negb (Test q t)
  | Leaf l => leaf_test l t
  end.

(** [Equals]; the [AndImpl] and [OrImpl] cases are [predicatesEqual] of the
    children, which the recursion needs inline ([Equals_And], [Equals_Or]). *)
Fixpoint Equals (p q : Predicate L) : bool :=
  match p, q with
  | UniversalImpl, UniversalImpl => true
  | EmptyImpl, EmptyImpl => true
  | AndImpl this, AndImpl that =>
      Nat.eqb (length this) (length that) &&
      forallb (fun x => existsb (fun y => Equals x y) that) this
  | OrImpl this, OrImpl that =>
      Nat.eqb (length this) (length that) &&
      forallb (fun x => existsb (fun y => Equals x y) that) this
  | NotImpl x, NotImpl y => Equals x y
  | Leaf l, Leaf m => leaf_equals l m
  | _, _ => false
  end.

Definition predicatesEqual (this that : list (Predicate L)) : bool :=
  if negb (Nat.eqb (length this) (length that)) then false
  else forallb (fun x => existsb (fun y => Equals x y) that) this.

(** The size of the empty predicate's protobuf message is a value of the
    protobuf library. *)
Fixpoint Size (EmptyPredicateProtoSize : Z) (p : Predicate L) : Z :=
  match p with
  | UniversalImpl => EmptyPredicateProtoSize
  | EmptyImpl => EmptyPredicateProtoSize
  | AndImpl ps => fold_left (fun size q => size + Size EmptyPredicateProtoSize q) ps EmptyPredicateProtoSize
  | OrImpl ps => fold_left (fun size q => size + Size EmptyPredicateProtoSize q) ps EmptyPredicateProtoSize
  | NotImpl q => Size EmptyPredicateProtoSize q + EmptyPredicateProtoSize
  | Leaf l => leaf_size EmptyPredicateProtoSize l
  end.

(** The outer loop runs over [new] and compares with [current] only, not with
    what it has appended to [result]. *)
Fixpoint append_loop (current result new : list (Predicate L)) : list (Predicate L) :=
  match new with
  | [] => result
  | newPredicate :: rest =>
      if existsb (fun currentPredicate => Equals currentPredicate newPredicate) current
      then append_loop current result rest
      else append_loop current (result ++ [newPredicate]) rest
  end.
Definition appendPredicates (current new : list (Predicate L)) : list (Predicate L) :=
  append_loop current current new.

(** The loops of [And] and [Or]; [inl p] is the early [return p]. *)
Fixpoint and_loop (ps flattened : list (Predicate L)) : Predicate L + list (Predicate L) :=
  match ps with
  | [] => inr flattened
  | p :: rest =>
      match p with
      | AndImpl qs => and_loop rest (appendPredicates flattened qs)
      | UniversalImpl => and_loop rest flattened
      | EmptyImpl => inl p
      | _ => and_loop rest (appendPredicates flattened [p])
      end
  end.

(** [None] is the panic on fewer than two arguments. *)
Definition And (ps : list (Predicate L)) : option (Predicate L) :=
  if (length ps <? 2)%nat then None
  else Some match and_loop ps [] with
    | inl p => p
    | inr [] => UniversalImpl
    | inr [p] => p
    | inr flattened => AndImpl flattened
    end.

Fixpoint or_loop (ps flattened : list (Predicate L)) : Predicate L + list (Predicate L) :=
  match ps with
  | [] => inr flattened
  | p :: rest =>
      match p with
      | OrImpl qs => or_loop rest (appendPredicates flattened qs)
      | UniversalImpl => inl p
      | EmptyImpl => or_loop rest flattened
      | _ => or_loop rest (appendPredicates flattened [p])
      end
  end.

Definition Or (ps : list (Predicate L)) : option (Predicate L) :=
  if (length ps <? 2)%nat then None
  else Some match or_loop ps [] with
    | inl p => p
    | inr [] => EmptyImpl
    | inr [p] => p
    | inr flattened => OrImpl flattened
    end.

Definition Not (p : Predicate L) : Predicate L :=
  match p with
  | NotImpl q => q
  | UniversalImpl => EmptyImpl
  | EmptyImpl => UniversalImpl
  | _ => NotImpl p
  end.

(** ** Well-formed predicates

    What the constructors [And], [Or] and [Not] maintain: a junction has at
    least two children, no two of them [Equals], none of its own kind and
    none trivial; a negation is not of a negation or a trivial predicate. *)

Definition trivial (p : Predicate L) : bool :=
  match p with UniversalImpl | EmptyImpl => true | _ => false end.
Definition is_and (p : Predicate L) : bool := match p with AndImpl _ => true | _ => false end.
Definition is_or (p : Predicate L) : bool := match p with OrImpl _ => true | _ => false end.
Definition is_not (p : Predicate L) : bool := match p with NotImpl _ => true | _ => false end.

Fixpoint distinct (ps : list (Predicate L)) : bool :=
  match ps with
  | [] => true
  | p :: rest => forallb (fun q => negb (Equals p q)) rest && distinct rest
  end.

Fixpoint wf (p : Predicate L) : bool :=
  match p with
  | AndImpl ps =>
      (2 <=? length ps)%nat && forallb (fun q => wf q && negb (trivial q) && negb (is_and q)) ps
      && distinct ps
  | OrImpl ps =>
      (2 <=? length ps)%nat && forallb (fun q => wf q && negb (trivial q) && negb (is_or q)) ps
      && distinct ps
  | NotImpl q => wf q && negb (trivial q) && negb (is_not q)
  | _ => true
  end.

Definition and_child (p : Predicate L) : bool := wf p && negb (trivial p) && negb (is_and p).
Definition or_child (p : Predicate L) : bool := wf p && negb (trivial p) && negb (is_or p).

Lemma Equals_And this that : Equals (AndImpl this) (AndImpl that) = predicatesEqual this that.
Proof. unfold predicatesEqual. simpl. by destruct (Nat.eqb _ _). Qed.
Lemma Equals_Or this that : Equals (OrImpl this) (OrImpl that) = predicatesEqual this that.
Proof. unfold predicatesEqual. simpl. by destruct (Nat.eqb _ _). Qed.

Lemma predicatesEqual_spec this that :
  predicatesEqual this that = true ↔
  length this = length that ∧ ∀ p, p ∈ this → ∃ q, q ∈ that ∧ Equals p q = true.
Proof.
  unfold predicatesEqual. destruct (Nat.eqb_spec (length this) (length that)); simpl.
  - rewrite forallb_spec. setoid_rewrite existsb_spec. tauto.
  - naive_solver.
Qed.

Lemma distinct_spec ps :
  distinct ps = true ↔ ForallOrdPairs (λ p q, Equals p q = false) ps.
Proof.
  induction ps as [|p ps IH]; simpl.
  - split; [constructor | done].
  - rewrite andb_true_iff, forallb_spec, IH. setoid_rewrite negb_true_iff. split.
    + intros [H1 H2]. constructor; [|done]. rewrite List.Forall_forall.
      intros q Hq. apply H1. by apply list_elem_of_In.
    + intros H. inversion H as [|? ? H1 H2]; subst. split; [|done].
      intros q Hq. rewrite List.Forall_forall in H1. apply H1. by apply list_elem_of_In.
Qed.

Lemma appendPredicates_app cur new :
  appendPredicates cur new =
  cur ++ filter (λ n, existsb (λ c, Equals c n) cur = false) new.
Proof.
  unfold appendPredicates. generalize cur at 2 3 as res.
  induction new as [|n new IH]; intros res; simpl.
  - by rewrite app_nil_r.
  - rewrite filter_cons. destruct (existsb _ cur) eqn:E.
    + rewrite decide_False by congruence. apply IH.
    + rewrite decide_True by done. by rewrite IH, <- app_assoc.
Qed.

(** ** [Equals] *)

Lemma Equals_refl `{!LeafLaws T L} p : Equals p p = true.
Proof.
  induction p as [| |ps IH|ps IH|p IH|l] using Predicate_nested_ind; simpl; auto using leaf_equals_refl.
  all: rewrite Nat.eqb_refl; simpl; apply forallb_spec; intros q Hq; apply existsb_spec; eauto.
Qed.

(** [Equals] between two predicates, as a property of the first. *)
Definition equals_good (p : Predicate L) : Prop :=
  ∀ q, wf p = true → wf q = true → Equals p q = true →
    Equals q p = true ∧ (∀ t, Test p t = Test q t) ∧
    ∀ r, wf r = true → Equals q r = true → Equals p r = true.

Lemma wf_And ps :
  wf (AndImpl ps) = true ↔
  (2 ≤ length ps)%nat ∧ (∀ p, p ∈ ps → and_child p = true) ∧ distinct ps = true.
Proof. cbn [wf]. rewrite !andb_true_iff, Nat.leb_le, forallb_spec. tauto. Qed.
Lemma wf_Or ps :
  wf (OrImpl ps) = true ↔
  (2 ≤ length ps)%nat ∧ (∀ p, p ∈ ps → or_child p = true) ∧ distinct ps = true.
Proof. cbn [wf]. rewrite !andb_true_iff, Nat.leb_le, forallb_spec. tauto. Qed.
Lemma and_child_wf_all ps : (∀ p, p ∈ ps → and_child p = true) → (∀ p, p ∈ ps → wf p = true).
Proof. intros H p Hp. specialize (H p Hp). unfold and_child in H. by bool_to_prop. Qed.
Lemma or_child_wf_all ps : (∀ p, p ∈ ps → or_child p = true) → (∀ p, p ∈ ps → wf p = true).
Proof. intros H p Hp. specialize (H p Hp). unfold or_child in H. by bool_to_prop. Qed.

(** The heart of the argument: children pairwise different and each with a
    partner among as many children on the other side are matched one to one,
    so each child of the other side has a partner too. *)
Lemma children_back ps qs :
  (∀ p, p ∈ ps → equals_good p) →
  (∀ p, p ∈ ps → wf p = true) → (∀ q, q ∈ qs → wf q = true) →
  distinct ps = true → predicatesEqual ps qs = true →
  ∀ q, q ∈ qs → ∃ p, p ∈ ps ∧ Equals p q = true.
Proof.
  intros IH Hps Hqs Hd [Hlen Hm]%predicatesEqual_spec.
  destruct (matching_perm (λ p q, wf q = true ∧ Equals p q = true) ps qs) as (qs' & Hperm & HF).
  - apply distinct_spec in Hd. clear Hlen Hm. induction Hd as [|p ps Hp _ IHd]; constructor.
    + rewrite List.Forall_forall in *. intros p2 Hp2 q [Hq E1] [_ E2].
      specialize (Hp p2 Hp2). apply list_elem_of_In in Hp2.
      destruct (IH p2 ltac:(by right) q ltac:(apply Hps; by right) Hq E2) as (E3 & _ & _).
      destruct (IH p ltac:(by left) q ltac:(apply Hps; by left) Hq E1) as (_ & _ & Htr).
      rewrite (Htr p2) in Hp; [done|apply Hps; by right|done].
    + apply IHd; intros; [apply IH | apply Hps]; by right.
  - done.
  - intros p Hp. destruct (Hm p Hp) as (q & ? & ?). eauto.
  - intros q Hq. rewrite <- Hperm in Hq. apply list_elem_of_lookup in Hq as [i Hi].
    destruct (Forall2_lookup_r _ _ _ _ _ HF Hi) as (p & Hp & _ & E).
    apply list_elem_of_lookup_2 in Hp. eauto.
Qed.

Lemma forallb_corr (f g : Predicate L → bool) ps qs :
  (∀ p, p ∈ ps → ∃ q, q ∈ qs ∧ f p = g q) → (∀ q, q ∈ qs → ∃ p, p ∈ ps ∧ f p = g q) →
  forallb f ps = forallb g qs ∧ existsb f ps = existsb g qs.
Proof.
  intros H1 H2. split; apply eq_iff_eq_true; rewrite ?forallb_spec, ?existsb_spec; split.
  - intros H q Hq. destruct (H2 q Hq) as (p & Hp & <-). auto.
  - intros H p Hp. destruct (H1 p Hp) as (q & Hq & ->). auto.
  - intros (p & Hp & E). destruct (H1 p Hp) as (q & Hq & Eq). exists q. split; congruence.
  - intros (q & Hq & E). destruct (H2 q Hq) as (p & Hp & Ep). exists p. split; congruence.
Qed.

(** Everything [equals_good] asks of a junction, from its children. *)
Lemma junction_good ps qs :
  (∀ p, p ∈ ps → equals_good p) →
  (∀ p, p ∈ ps → wf p = true) → (∀ q, q ∈ qs → wf q = true) →
  distinct ps = true → predicatesEqual ps qs = true →
  predicatesEqual qs ps = true ∧
  (∀ t, forallb (λ p, Test p t) ps = forallb (λ q, Test q t) qs ∧
        existsb (λ p, Test p t) ps = existsb (λ q, Test q t) qs) ∧
  ∀ rs, (∀ r, r ∈ rs → wf r = true) →
    predicatesEqual qs rs = true → predicatesEqual ps rs = true.
Proof.
  intros IH Hps Hqs Hd Heq. pose proof (children_back ps qs IH Hps Hqs Hd Heq) as Hback.
  apply predicatesEqual_spec in Heq as [Hlen Hm]. split; [|split].
  - apply predicatesEqual_spec. split; [done|]. intros q Hq.
    destruct (Hback q Hq) as (p & Hp & E). exists p. split; [done|]. apply (IH p Hp q); auto.
  - intros t. apply forallb_corr.
    + intros p Hp. destruct (Hm p Hp) as (q & Hq & E). exists q. split; [done|].
      apply (IH p Hp q); auto.
    + intros q Hq. destruct (Hback q Hq) as (p & Hp & E). exists p. split; [done|].
      apply (IH p Hp q); auto.
  - intros rs Hrs [Hlen' Hm']%predicatesEqual_spec. apply predicatesEqual_spec.
    split; [congruence|]. intros p Hp. destruct (Hm p Hp) as (q & Hq & E).
    destruct (Hm' q Hq) as (r & Hr & E'). exists r. split; [done|].
    apply (IH p Hp q); auto.
Qed.

Lemma Equals_good `{!LeafLaws T L} p : equals_good p.
Proof.
  induction p as [| |ps IH|ps IH|p IH|l] using Predicate_nested_ind; intros q Hp Hq E.
  - destruct q; try done.
  - destruct q; try done.
  - destruct q as [| |qs| | |]; try done.
    apply wf_And in Hp as (_ & Hp & Hd). apply wf_And in Hq as (_ & Hq & _).
    specialize (and_child_wf_all _ Hp) as Hpw. specialize (and_child_wf_all _ Hq) as Hqw.
    rewrite Equals_And in *.
    destruct (junction_good ps qs IH Hpw Hqw Hd E) as (E1 & E2 & E3).
    split; [done|]. split; [intros t; apply E2|].
    intros [| |rs| | |] Hr Er; try done. rewrite Equals_And in *.
    apply wf_And in Hr as (_ & Hr & _).
    specialize (and_child_wf_all _ Hr) as Hrw. auto.
  - destruct q as [| | |qs| |]; try done.
    apply wf_Or in Hp as (_ & Hp & Hd). apply wf_Or in Hq as (_ & Hq & _).
    specialize (or_child_wf_all _ Hp) as Hpw. specialize (or_child_wf_all _ Hq) as Hqw.
    rewrite Equals_Or in *.
    destruct (junction_good ps qs IH Hpw Hqw Hd E) as (E1 & E2 & E3).
    split; [done|]. split; [intros t; apply E2|].
    intros [| | |rs| |] Hr Er; try done. rewrite Equals_Or in *.
    apply wf_Or in Hr as (_ & Hr & _).
    specialize (or_child_wf_all _ Hr) as Hrw. auto.
  - destruct q as [| | | |q|]; try done. simpl in *. bool_to_prop.
    destruct (IH q) as (E1 & E2 & E3); [done..|].
    split; [done|]. split; [intros t; by rewrite E2|].
    intros [| | | |r|] Hr Er; try done. simpl in *. bool_to_prop. auto.
  - destruct q as [| | | | |m]; try done. simpl in *.
    split; [by apply leaf_equals_sym|]. split; [intros t; by apply leaf_equals_sound|].
    intros [| | | | |n] _ Er; try done. simpl in *. by eapply leaf_equals_trans.
Qed.

(** ** The constructors *)
Section constructors.
Context {LL : LeafLaws T L}.

Lemma append_elem cur new p : p ∈ appendPredicates cur new → p ∈ cur ∨ p ∈ new.
Proof.
  rewrite appendPredicates_app, elem_of_app, list_elem_of_filter. tauto.
Qed.

Lemma append_distinct cur new :
  distinct cur = true → distinct new = true → distinct (appendPredicates cur new) = true.
Proof.
  rewrite !distinct_spec, appendPredicates_app, ForallOrdPairs_app. intros H1 H2.
  split; [done|]. split; [by apply ForallOrdPairs_filter|].
  intros c n Hc [Hn _]%list_elem_of_filter. rewrite existsb_false in Hn. auto.
Qed.

(** Dropping a predicate that [Equals] one already there does not change the
    conjunction or the disjunction. *)
Lemma append_test cur new t :
  (∀ p, p ∈ cur → wf p = true) → (∀ p, p ∈ new → wf p = true) →
  forallb (λ p, Test p t) (appendPredicates cur new)
    = forallb (λ p, Test p t) cur && forallb (λ p, Test p t) new ∧
  existsb (λ p, Test p t) (appendPredicates cur new)
    = existsb (λ p, Test p t) cur || existsb (λ p, Test p t) new.
Proof.
  intros Hcur Hnew. rewrite <- forallb_app, <- existsb_app. apply forallb_corr.
  - intros p [Hp|Hp]%append_elem; exists p; split; try done; apply elem_of_app; auto.
  - intros p [Hp|Hp]%elem_of_app.
    + exists p. rewrite appendPredicates_app, elem_of_app. auto.
    + destruct (existsb (λ c, Equals c p) cur) eqn:E.
      * apply existsb_spec in E as (c & Hc & E). exists c.
        rewrite appendPredicates_app, elem_of_app. split; [by left|].
        apply (Equals_good c p); auto.
      * exists p. rewrite appendPredicates_app, elem_of_app, list_elem_of_filter. auto.
Qed.

(** What [and_loop] returns when it still has [ps] to go and has kept [fl]. *)
Definition and_result (fl ps : list (Predicate L)) (r : Predicate L + list (Predicate L)) : Prop :=
  match r with
  | inl p => p = EmptyImpl ∧ ∀ t, forallb (λ q, Test q t) ps = false
  | inr fl' =>
      (∀ p, p ∈ fl' → and_child p = true) ∧ distinct fl' = true ∧
      ∀ t, forallb (λ q, Test q t) fl' = forallb (λ q, Test q t) fl && forallb (λ q, Test q t) ps
  end.

Lemma and_result_step p ps fl new r :
  (∀ q, q ∈ fl → wf q = true) → (∀ q, q ∈ new → wf q = true) →
  (∀ t, Test p t = forallb (λ q, Test q t) new) →
  and_result (appendPredicates fl new) ps r → and_result fl (p :: ps) r.
Proof.
  intros Hfl Hnew Ht. destruct r; simpl.
  - intros [-> H]. split; [done|]. intros t. rewrite H. apply andb_false_r.
  - intros (H1 & H2 & H3). split; [done|]. split; [done|]. intros t.
    rewrite H3, Ht, (proj1 (append_test fl new t Hfl Hnew)). by rewrite andb_assoc.
Qed.

Lemma and_loop_spec ps fl :
  (∀ p, p ∈ ps → wf p = true) →
  (∀ p, p ∈ fl → and_child p = true) → distinct fl = true →
  and_result fl ps (and_loop ps fl).
Proof.
  revert fl. induction ps as [|p ps IH]; intros fl Hps Hfl Hd; simpl.
  - split; [done|]. split; [done|]. intros t. by rewrite andb_true_r.
  - assert (Hp : wf p = true) by (apply Hps; by left).
    assert (Hstep : ∀ new, (∀ q, q ∈ new → and_child q = true) → distinct new = true →
      (∀ t, Test p t = forallb (λ q, Test q t) new) →
      and_result fl (p :: ps) (and_loop ps (appendPredicates fl new))).
    { intros new Hnew Hdn Ht. apply (and_result_step p ps fl new); [exact (and_child_wf_all _ Hfl)|exact (and_child_wf_all _ Hnew)|done|].
      apply IH; [intros; apply Hps; by right|intros q [?|?]%append_elem; auto|by apply append_distinct]. }
    assert (Hone : and_child p = true →
      and_result fl (p :: ps) (and_loop ps (appendPredicates fl [p]))).
    { intros Hc. apply Hstep; [by intros ? ->%list_elem_of_singleton|done|].
      intros t. simpl. by rewrite andb_true_r. }
    destruct p as [| |qs|qs|q|l]; simpl in Hp;
      try (apply Hone; unfold and_child; simpl in *; by rewrite ?Hp).
    + apply IH; [intros; apply Hps; by right|done..].
    + split; done.
    + apply wf_And in Hp as (_ & ? & ?). by apply Hstep.
Qed.

(** What [or_loop] returns when it still has [ps] to go and has kept [fl]. *)
Definition or_result (fl ps : list (Predicate L)) (r : Predicate L + list (Predicate L)) : Prop :=
  match r with
  | inl p => p = UniversalImpl ∧ ∀ t, existsb (λ q, Test q t) ps = true
  | inr fl' =>
      (∀ p, p ∈ fl' → or_child p = true) ∧ distinct fl' = true ∧
      ∀ t, existsb (λ q, Test q t) fl' = existsb (λ q, Test q t) fl || existsb (λ q, Test q t) ps
  end.

Lemma or_result_step p ps fl new r :
  (∀ q, q ∈ fl → wf q = true) → (∀ q, q ∈ new → wf q = true) →
  (∀ t, Test p t = existsb (λ q, Test q t) new) →
  or_result (appendPredicates fl new) ps r → or_result fl (p :: ps) r.
Proof.
  intros Hfl Hnew Ht. destruct r; simpl.
  - intros [-> H]. split; [done|]. intros t. rewrite H. apply orb_true_r.
  - intros (H1 & H2 & H3). split; [done|]. split; [done|]. intros t.
    rewrite H3, Ht, (proj2 (append_test fl new t Hfl Hnew)). by rewrite orb_assoc.
Qed.

Lemma or_loop_spec ps fl :
  (∀ p, p ∈ ps → wf p = true) →
  (∀ p, p ∈ fl → or_child p = true) → distinct fl = true →
  or_result fl ps (or_loop ps fl).
Proof.
  revert fl. induction ps as [|p ps IH]; intros fl Hps Hfl Hd; simpl.
  - split; [done|]. split; [done|]. intros t. by rewrite orb_false_r.
  - assert (Hp : wf p = true) by (apply Hps; by left).
    assert (Hstep : ∀ new, (∀ q, q ∈ new → or_child q = true) → distinct new = true →
      (∀ t, Test p t = existsb (λ q, Test q t) new) →
      or_result fl (p :: ps) (or_loop ps (appendPredicates fl new))).
    { intros new Hnew Hdn Ht. apply (or_result_step p ps fl new); [exact (or_child_wf_all _ Hfl)|exact (or_child_wf_all _ Hnew)|done|].
      apply IH; [intros; apply Hps; by right|intros q [?|?]%append_elem; auto|by apply append_distinct]. }
    assert (Hone : or_child p = true →
      or_result fl (p :: ps) (or_loop ps (appendPredicates fl [p]))).
    { intros Hc. apply Hstep; [by intros ? ->%list_elem_of_singleton|done|].
      intros t. simpl. by rewrite orb_false_r. }
    destruct p as [| |qs|qs|q|l]; simpl in Hp;
      try (apply Hone; unfold or_child; simpl in *; by rewrite ?Hp).
    + split; done.
    + apply IH; [intros; apply Hps; by right|done..].
    + apply wf_Or in Hp as (_ & ? & ?). by apply Hstep.
Qed.

Lemma And_spec ps p :
  (∀ q, q ∈ ps → wf q = true) → And ps = Some p →
  wf p = true ∧ ∀ t, Test p t = forallb (λ q, Test q t) ps.
Proof.
  unfold And. destruct (_ <? 2)%nat; [done|]. intros Hps [= <-].
  pose proof (and_loop_spec ps [] Hps) as H.
  destruct (and_loop ps []) as [p|[|p [|p' fl]]].
  - destruct H as [-> H]; [set_solver|done|]. split; [done|]. intros t. by rewrite H.
  - destruct H as (_ & _ & H); [set_solver|done|]. split; [done|]. intros t. specialize (H t). simpl in H. by rewrite <- H.
  - destruct H as (H1 & _ & H); [set_solver|done|]. split.
    + apply (and_child_wf_all _ H1). by left.
    + intros t. specialize (H t). simpl in H. by rewrite andb_true_r in H.
  - destruct H as (H1 & H2 & H); [set_solver|done|]. split.
    + apply wf_And. split; [simpl; lia|]. done.
    + intros t. apply (H t).
Qed.

Lemma Or_spec ps p :
  (∀ q, q ∈ ps → wf q = true) → Or ps = Some p →
  wf p = true ∧ ∀ t, Test p t = existsb (λ q, Test q t) ps.
Proof.
  unfold Or. destruct (_ <? 2)%nat; [done|]. intros Hps [= <-].
  pose proof (or_loop_spec ps [] Hps) as H.
  destruct (or_loop ps []) as [p|[|p [|p' fl]]].
  - destruct H as [-> H]; [set_solver|done|]. split; [done|]. intros t. by rewrite H.
  - destruct H as (_ & _ & H); [set_solver|done|]. split; [done|]. intros t. specialize (H t). simpl in H. by rewrite <- H.
  - destruct H as (H1 & _ & H); [set_solver|done|]. split.
    + apply (or_child_wf_all _ H1). by left.
    + intros t. specialize (H t). simpl in H. by rewrite orb_false_r in H.
  - destruct H as (H1 & H2 & H); [set_solver|done|]. split.
    + apply wf_Or. split; [simpl; lia|]. done.
    + intros t. apply (H t).
Qed.

Lemma Not_spec p :
  wf p = true → wf (Not p) = true ∧ ∀ t, Test (Not p) t = negb (Test p t).
Proof.
  intros Hp. destruct p as [| |ps|ps|p|l]; simpl in *;
    try (split; [by rewrite ?Hp | done]).
  bool_to_prop. split; [done|]. intros t. by rewrite negb_involutive.
Qed.
End constructors.
End predicates.
