(* ===== verification/TaskPredicates.v ===== *)
(** * Task predicates: [service/history/tasks/predicates.go], with the part of
      the [Task] interface ([tasks/task.go]) the predicates read *)
From S2P Require Import Prelude TaskKey Predicates.
From Stdlib Require Import Btauto.
Local Open Scope Z_scope.

(** A task as the queues see it.  [Destination] and [StateMachineTaskType] are
    present when the task implements [HasDestination] and
    [HasStateMachineTaskType]. *)
Record Task := mkTask {
  GetKey : Key;
  GetNamespaceID : string;
  GetType : Z;
  GetDestination : option string;
  StateMachineTaskType : option string;
}.

#[export] Instance Task_eq_dec : EqDecision Task.
Proof. solve_decision. Defined.

Record TaskGroupNamespaceIDAndDestination := mkTaskGroup {
  TaskGroup : string;
  NamespaceID : string;
  Destination : string;
}.

#[export] Instance TaskGroup_eq_dec : EqDecision TaskGroupNamespaceIDAndDestination.
Proof. solve_decision. Defined.
#[export] Instance TaskGroup_countable : Countable TaskGroupNamespaceIDAndDestination.
Proof.
  refine (inj_countable' (λ g, (TaskGroup g, NamespaceID g, Destination g))
                         (λ p, mkTaskGroup p.1.1 p.1.2 p.2) _).
  by intros [].
Defined.

(** The leaf predicates; a [map[K]struct{}] is a finite set. *)
Inductive TaskLeaf :=
  | NamespacePredicate (NamespaceIDs : gset string)
  | DestinationPredicate (Destinations : gset string)
  | OutboundTaskGroupPredicate (Groups : gset string)
  | TypePredicate (Types : gset Z)
  | OutboundTaskPredicate (Groups : gset TaskGroupNamespaceIDAndDestination).

Abbreviation TaskPredicate := (Predicate TaskLeaf).

Definition NewNamespacePredicate (namespaceIDs : list string) : TaskPredicate :=
  Leaf (NamespacePredicate (list_to_set namespaceIDs)).
Definition NewDestinationPredicate (destinations : list string) : TaskPredicate :=
  Leaf (DestinationPredicate (list_to_set destinations)).
Definition NewOutboundTaskGroupPredicate (groups : list string) : TaskPredicate :=
  Leaf (OutboundTaskGroupPredicate (list_to_set groups)).
Definition NewTypePredicate (types : list Z) : TaskPredicate :=
  Leaf (TypePredicate (list_to_set types)).
Definition NewOutboundTaskPredicate (groups : list TaskGroupNamespaceIDAndDestination) : TaskPredicate :=
  Leaf (OutboundTaskPredicate (list_to_set groups)).

(** The group of a task: absent parts are the zero value of a Go string. *)
Definition task_group (task : Task) : TaskGroupNamespaceIDAndDestination :=
  mkTaskGroup (default "" (StateMachineTaskType task)) (GetNamespaceID task)
              (default "" (GetDestination task)).

(** [Test], [Equals] and [Size] of each predicate, and the dynamic dispatch on them. *)
Definition NamespacePredicate_Test (ids : gset string) (task : Task) : bool :=
  bool_decide (GetNamespaceID task ∈ ids).
Definition DestinationPredicate_Test (ds : gset string) (task : Task) : bool :=
  match GetDestination task with
  | None => false
  | Some d => bool_decide (d ∈ ds)
  end.
Definition OutboundTaskGroupPredicate_Test (gs : gset string) (task : Task) : bool :=
  match StateMachineTaskType task with
  | None => false
  | Some g => bool_decide (g ∈ gs)
  end.
Definition TypePredicate_Test (ts : gset Z) (task : Task) : bool :=
  bool_decide (GetType task ∈ ts).
Definition OutboundTaskPredicate_Test (gs : gset TaskGroupNamespaceIDAndDestination) (task : Task) : bool :=
  bool_decide (task_group task ∈ gs).

Definition TaskLeaf_Test (p : TaskLeaf) (task : Task) : bool :=
  match p with
  | NamespacePredicate ids => NamespacePredicate_Test ids task
  | DestinationPredicate ds => DestinationPredicate_Test ds task
  | OutboundTaskGroupPredicate gs => OutboundTaskGroupPredicate_Test gs task
  | TypePredicate ts => TypePredicate_Test ts task
  | OutboundTaskPredicate gs => OutboundTaskPredicate_Test gs task
  end.

(** [maps.Equal] of two maps to the empty struct is equality of key sets. *)
Definition NamespacePredicate_Equals (ids : gset string) (predicate : TaskLeaf) : bool :=
  match predicate with NamespacePredicate ids' => bool_decide (ids = ids') | _ => false end.
Definition DestinationPredicate_Equals (ds : gset string) (predicate : TaskLeaf) : bool :=
  match predicate with DestinationPredicate ds' => bool_decide (ds = ds') | _ => false end.
Definition OutboundTaskGroupPredicate_Equals (gs : gset string) (predicate : TaskLeaf) : bool :=
  match predicate with OutboundTaskGroupPredicate gs' => bool_decide (gs = gs') | _ => false end.
Definition TypePredicate_Equals (ts : gset Z) (predicate : TaskLeaf) : bool :=
  match predicate with TypePredicate ts' => bool_decide (ts = ts') | _ => false end.
Definition OutboundTaskPredicate_Equals (gs : gset TaskGroupNamespaceIDAndDestination) (predicate : TaskLeaf) : bool :=
  match predicate with OutboundTaskPredicate gs' => bool_decide (gs = gs') | _ => false end.

Definition TaskLeaf_Equals (p q : TaskLeaf) : bool :=
  match p with
  | NamespacePredicate ids => NamespacePredicate_Equals ids q
  | DestinationPredicate ds => DestinationPredicate_Equals ds q
  | OutboundTaskGroupPredicate gs => OutboundTaskGroupPredicate_Equals gs q
  | TypePredicate ts => TypePredicate_Equals ts q
  | OutboundTaskPredicate gs => OutboundTaskPredicate_Equals gs q
  end.

Definition strings_size (base : Z) (s : gset string) : Z :=
  set_fold (λ g size, size + Z.of_nat (String.length g)) base s.

Definition NamespacePredicate_Size (EmptyPredicateProtoSize : Z) (ids : gset string) : Z :=
  strings_size EmptyPredicateProtoSize ids.
Definition DestinationPredicate_Size (EmptyPredicateProtoSize : Z) (ds : gset string) : Z :=
  strings_size EmptyPredicateProtoSize ds.
Definition OutboundTaskGroupPredicate_Size (EmptyPredicateProtoSize : Z) (gs : gset string) : Z :=
  strings_size EmptyPredicateProtoSize gs.
Definition TypePredicate_Size (EmptyPredicateProtoSize : Z) (ts : gset Z) : Z :=
  EmptyPredicateProtoSize + 4 * Z.of_nat (size ts).
Definition OutboundTaskPredicate_Size (EmptyPredicateProtoSize : Z) (gs : gset TaskGroupNamespaceIDAndDestination) : Z :=
  set_fold (λ g size, size + (Z.of_nat (String.length (TaskGroup g))
                              + Z.of_nat (String.length (NamespaceID g))
                              + Z.of_nat (String.length (Destination g))))
           EmptyPredicateProtoSize gs.

Definition TaskLeaf_Size (EmptyPredicateProtoSize : Z) (p : TaskLeaf) : Z :=
  match p with
  | NamespacePredicate ids => NamespacePredicate_Size EmptyPredicateProtoSize ids
  | DestinationPredicate ds => DestinationPredicate_Size EmptyPredicateProtoSize ds
  | OutboundTaskGroupPredicate gs => OutboundTaskGroupPredicate_Size EmptyPredicateProtoSize gs
  | TypePredicate ts => TypePredicate_Size EmptyPredicateProtoSize ts
  | OutboundTaskPredicate gs => OutboundTaskPredicate_Size EmptyPredicateProtoSize gs
  end.

Arguments NamespacePredicate_Test _ _ /.
Arguments DestinationPredicate_Test _ _ /.
Arguments OutboundTaskGroupPredicate_Test _ _ /.
Arguments TypePredicate_Test _ _ /.
Arguments OutboundTaskPredicate_Test _ _ /.
Arguments NamespacePredicate_Equals _ _ /.
Arguments DestinationPredicate_Equals _ _ /.
Arguments OutboundTaskGroupPredicate_Equals _ _ /.
Arguments TypePredicate_Equals _ _ /.
Arguments OutboundTaskPredicate_Equals _ _ /.

#[export] Instance TaskLeaf_Predicate : LeafPredicate Task TaskLeaf := {|
  leaf_test := TaskLeaf_Test;
  leaf_equals := TaskLeaf_Equals;
  leaf_size := TaskLeaf_Size;
|}.

Lemma TaskLeaf_Equals_eq l m : TaskLeaf_Equals l m = true ↔ l = m.
Proof.
  destruct l, m; simpl; try (split; [done|congruence]); rewrite bool_decide_eq_true; naive_solver.
Qed.

#[export] Instance TaskLeaf_Laws : LeafLaws Task TaskLeaf.
Proof.
  split; simpl.
  - intros l. by apply TaskLeaf_Equals_eq.
  - intros l m. rewrite !TaskLeaf_Equals_eq. congruence.
  - intros l m n. rewrite !TaskLeaf_Equals_eq. congruence.
  - intros l m t. rewrite TaskLeaf_Equals_eq. congruence.
Qed.

(** ** [AndPredicates] and [OrPredicates]

    [predicates.And] and [predicates.Or] on two arguments, which never panic. *)
Definition and2 (a b : TaskPredicate) : TaskPredicate := default EmptyImpl (And [a; b]).
Definition or2 (a b : TaskPredicate) : TaskPredicate := default EmptyImpl (Or [a; b]).

Definition set_leaf {A} `{Countable A} (mk : gset A → TaskLeaf) (s : gset A) : TaskPredicate :=
  if bool_decide (s = ∅) then EmptyImpl else Leaf (mk s).

(** The [switch] of [AndPredicates], once [a] is not a negation. *)
Definition and_switch (a b : TaskPredicate) : TaskPredicate :=
  match a, b with
  | Leaf (NamespacePredicate x), Leaf (NamespacePredicate y) => set_leaf NamespacePredicate (x ∩ y)
  | Leaf (NamespacePredicate x), NotImpl (Leaf (NamespacePredicate y)) => set_leaf NamespacePredicate (x ∖ y)
  | Leaf (TypePredicate x), Leaf (TypePredicate y) => set_leaf TypePredicate (x ∩ y)
  | Leaf (TypePredicate x), NotImpl (Leaf (TypePredicate y)) => set_leaf TypePredicate (x ∖ y)
  | Leaf (DestinationPredicate x), Leaf (DestinationPredicate y) => set_leaf DestinationPredicate (x ∩ y)
  | Leaf (DestinationPredicate x), NotImpl (Leaf (DestinationPredicate y)) =>
      set_leaf DestinationPredicate (x ∖ y)
  | Leaf (OutboundTaskGroupPredicate x), Leaf (OutboundTaskGroupPredicate y) =>
      set_leaf OutboundTaskGroupPredicate (x ∩ y)
  | Leaf (OutboundTaskGroupPredicate x), NotImpl (Leaf (OutboundTaskGroupPredicate y)) =>
      set_leaf OutboundTaskGroupPredicate (x ∖ y)
  | Leaf (OutboundTaskPredicate x), Leaf (OutboundTaskPredicate y) => set_leaf OutboundTaskPredicate (x ∩ y)
  | Leaf (OutboundTaskPredicate x), NotImpl (Leaf (OutboundTaskPredicate y)) =>
      set_leaf OutboundTaskPredicate (x ∖ y)
  | _, _ => and2 a b
  end.

(** The [switch] of [OrPredicates], once neither is a negation. *)
Definition or_switch (a b : TaskPredicate) : TaskPredicate :=
  match a, b with
  | Leaf (NamespacePredicate x), Leaf (NamespacePredicate y) => Leaf (NamespacePredicate (x ∪ y))
  | Leaf (TypePredicate x), Leaf (TypePredicate y) => Leaf (TypePredicate (x ∪ y))
  | Leaf (DestinationPredicate x), Leaf (DestinationPredicate y) => Leaf (DestinationPredicate (x ∪ y))
  | Leaf (OutboundTaskGroupPredicate x), Leaf (OutboundTaskGroupPredicate y) =>
      Leaf (OutboundTaskGroupPredicate (x ∪ y))
  | Leaf (OutboundTaskPredicate x), Leaf (OutboundTaskPredicate y) => Leaf (OutboundTaskPredicate (x ∪ y))
  | _, _ => or2 a b
  end.

(** The bodies of the two mutually recursive functions, with the recursive
    calls as arguments.  The swap [a, b = b, a] is the case where only [a] is a
    negation. *)
Definition and_body (orRec : TaskPredicate → TaskPredicate → TaskPredicate)
    (a b : TaskPredicate) : TaskPredicate :=
  match a, b with
  | NotImpl a', NotImpl b' => Not (orRec a' b')
  | NotImpl _, _ => and_switch b a
  | _, _ => and_switch a b
  end.

Definition or_body (andRec : TaskPredicate → TaskPredicate → TaskPredicate)
    (a b : TaskPredicate) : TaskPredicate :=
  match a, b with
  | NotImpl a', NotImpl b' => Not (andRec a' b')
  | NotImpl a', _ => Not (andRec a' (Not b))
  | _, NotImpl b' => Not (andRec b' (Not a))
  | _, _ => or_switch a b
  end.

(** The recursion strips one negation per call, except that [OrPredicates a
    (Not b)] calls [AndPredicates b (Not a)]; fuel bounds the depth and
    [AndPredicates_eq], [OrPredicates_eq] show that it never runs out. *)
Fixpoint and_rec (fuel : nat) (a b : TaskPredicate) : TaskPredicate :=
  match fuel with
  | O => and_switch a b
  | S n => and_body (or_rec n) a b
  end
with or_rec (fuel : nat) (a b : TaskPredicate) : TaskPredicate :=
  match fuel with
  | O => or_switch a b
  | S n => or_body (and_rec n) a b
  end.

(** How many negations a predicate starts with. *)
Fixpoint nots (p : TaskPredicate) : nat :=
  match p with NotImpl q => S (nots q) | _ => O end.

Definition fuel_for (a b : TaskPredicate) : nat := 2 * (nots a + nots b) + 3.

Definition AndPredicates (a b : TaskPredicate) : TaskPredicate := and_rec (fuel_for a b) a b.
Definition OrPredicates (a b : TaskPredicate) : TaskPredicate := or_rec (fuel_for a b) a b.

Definition IsUniverisalPredicate (p : TaskPredicate) : bool :=
  match p with UniversalImpl => true | _ => false end.
Definition IsNamespacePredicate (p : TaskPredicate) : bool :=
  match p with Leaf (NamespacePredicate _) => true | _ => false end.
Definition IsTypePredicate (p : TaskPredicate) : bool :=
  match p with Leaf (TypePredicate _) => true | _ => false end.

(** ** The recursion equations: the fuel is always enough *)

Lemma nots_Not a : is_not a = false → (nots (Not a) ≤ 1)%nat.
Proof. destruct a; simpl; try done; lia. Qed.

Lemma rec_fuel n m :
  (∀ a b, (2 * (nots a + nots b) < n)%nat → (2 * (nots a + nots b) < m)%nat →
    and_rec n a b = and_rec m a b) ∧
  (∀ a b, (2 * (nots a + nots b) + 1 < n)%nat → (2 * (nots a + nots b) + 1 < m)%nat →
    or_rec n a b = or_rec m a b).
Proof.
  revert m. induction n as [|n IH]; intros [|m]; try (split; intros; lia).
  destruct (IH m) as [IHa IHo]. split; intros a b Hn Hm; cbn [and_rec or_rec].
  - destruct a, b; try reflexivity. simpl in *. f_equal. apply IHo; lia.
  - pose proof (nots_Not a) as Ha. pose proof (nots_Not b) as Hb.
    destruct a as [| | | |a'|], b as [| | | |b'|]; try reflexivity;
      cbn [or_body]; f_equal; apply IHa; cbn [nots is_not Not] in *; lia.
Qed.

Lemma AndPredicates_eq a b : AndPredicates a b = and_body OrPredicates a b.
Proof.
  unfold AndPredicates, fuel_for. rewrite Nat.add_comm. cbn [Nat.add and_rec].
  destruct a as [| | | |a'|], b as [| | | |b'|]; try reflexivity. cbn [and_body].
  f_equal. apply rec_fuel; unfold fuel_for; cbn [nots]; lia.
Qed.

Lemma OrPredicates_eq a b : OrPredicates a b = or_body AndPredicates a b.
Proof.
  unfold OrPredicates, fuel_for. rewrite Nat.add_comm. cbn [Nat.add or_rec].
  pose proof (nots_Not a) as Ha. pose proof (nots_Not b) as Hb.
  destruct a as [| | | |a'|], b as [| | | |b'|]; try reflexivity; cbn [or_body];
    f_equal; apply rec_fuel; unfold fuel_for; cbn [nots is_not Not] in *; lia.
Qed.

(** ** Meaning *)

Definition meets (f : bool → bool → bool) (r a b : TaskPredicate) : Prop :=
  wf r = true ∧ ∀ t, Test r t = f (Test a t) (Test b t).

Lemma and2_spec a b : wf a = true → wf b = true → meets andb (and2 a b) a b.
Proof.
  intros Ha Hb. unfold meets, and2. destruct (And_spec [a; b] (and2 a b)) as [H1 H2].
  - intros q [->|[->|H]%elem_of_cons]%elem_of_cons; [done..|by apply not_elem_of_nil in H].
  - done.
  - split; [done|]. intros t. unfold and2 in H2. rewrite H2. simpl. by rewrite andb_true_r.
Qed.

Lemma or2_spec a b : wf a = true → wf b = true → meets orb (or2 a b) a b.
Proof.
  intros Ha Hb. unfold meets, or2. destruct (Or_spec [a; b] (or2 a b)) as [H1 H2].
  - intros q [->|[->|H]%elem_of_cons]%elem_of_cons; [done..|by apply not_elem_of_nil in H].
  - done.
  - split; [done|]. intros t. unfold or2 in H2. rewrite H2. simpl. by rewrite orb_false_r.
Qed.

(** A leaf over a set tests membership of some reading of the task; building it
    from an empty set and building [Empty] mean the same. *)
Lemma set_leaf_wf {A} `{Countable A} (mk : gset A → TaskLeaf) s : wf (set_leaf mk s) = true.
Proof. unfold set_leaf. by case_bool_decide. Qed.
Lemma set_leaf_test {A} `{Countable A} (mk : gset A → TaskLeaf) s t :
  TaskLeaf_Test (mk ∅) t = false → Test (set_leaf mk s) t = TaskLeaf_Test (mk s) t.
Proof. intros H0. unfold set_leaf. case_bool_decide; subst; simpl; by rewrite ?H0. Qed.

Ltac leaf_solve :=
  simpl; repeat case_match; try done; repeat case_bool_decide; simpl; set_solver.

Lemma and_switch_spec a b : wf a = true → wf b = true → meets andb (and_switch a b) a b.
Proof.
  intros Ha Hb. pose proof (and2_spec a b Ha Hb) as Hd.
  destruct a as [| | | | |[x|x|x|x|x]]; try exact Hd;
  destruct b as [| | | |[| | | | |[y|y|y|y|y]]|[y|y|y|y|y]]; try exact Hd;
  (split; [apply set_leaf_wf|]); intros t; unfold and_switch;
  (rewrite set_leaf_test; [|leaf_solve]); leaf_solve.
Qed.

Lemma or_switch_spec a b : wf a = true → wf b = true → meets orb (or_switch a b) a b.
Proof.
  intros Ha Hb. pose proof (or2_spec a b Ha Hb) as Hd.
  destruct a as [| | | | |[x|x|x|x|x]]; try exact Hd;
  destruct b as [| | | | |[y|y|y|y|y]]; try exact Hd;
  (split; [done|]); intros t; leaf_solve.
Qed.

Lemma wf_NotImpl p : wf (NotImpl p) = true → wf p = true.
Proof. simpl. intros. by bool_to_prop. Qed.

Lemma rec_spec n :
  (∀ a b, wf a = true → wf b = true → meets andb (and_rec n a b) a b) ∧
  (∀ a b, wf a = true → wf b = true → meets orb (or_rec n a b) a b).
Proof.
  induction n as [|n [IHa IHo]].
  - split; [apply and_switch_spec | apply or_switch_spec].
  - split; intros a b Ha Hb; cbn [and_rec or_rec].
    + pose proof (and_switch_spec a b Ha Hb) as Hd.
      destruct a as [| | | |a'|]; try exact Hd.
      pose proof (and_switch_spec b (NotImpl a') Hb Ha) as [Hw Ht].
      assert (Hd' : meets andb (and_switch b (NotImpl a')) (NotImpl a') b).
      { split; [done|]. intros t. rewrite Ht. apply andb_comm. }
      destruct b as [| | | |b'|]; try exact Hd'. cbn [and_body].
      destruct (IHo a' b') as [Hw' Ht']; [by apply wf_NotImpl..|].
      destruct (Not_spec _ Hw') as [? Ht'']. split; [done|].
      intros t. rewrite Ht'', Ht'. simpl. apply negb_orb.
    + (* the three cases with a negation all call [AndPredicates] *)
      assert (Hneg : ∀ x y, wf x = true → wf y = true →
        (∀ t, negb (Test x t && Test y t) = Test a t || Test b t) →
        meets orb (Not (and_rec n x y)) a b).
      { intros x y Hx Hy E. destruct (IHa x y Hx Hy) as [Hw Ht].
        destruct (Not_spec _ Hw) as [? Ht']. split; [done|]. intros t. by rewrite Ht', Ht. }
      pose proof (or_switch_spec a b Ha Hb) as Hd.
      destruct (Not_spec a Ha) as [Hna Hta]. destruct (Not_spec b Hb) as [Hnb Htb].
      destruct a as [| | | |a'|], b as [| | | |b'|]; try exact Hd; cbn [or_body]; apply Hneg;
        try (by apply wf_NotImpl); try done; intros t; rewrite ?Hta, ?Htb; cbn [Test]; btauto.
Qed.

Lemma AndPredicates_spec a b : wf a = true → wf b = true → meets andb (AndPredicates a b) a b.
Proof. apply rec_spec. Qed.
Lemma OrPredicates_spec a b : wf a = true → wf b = true → meets orb (OrPredicates a b) a b.
Proof. apply rec_spec. Qed.

Lemma Equals_test (p q : TaskPredicate) t :
  wf p = true → wf q = true → Equals p q = true → Test p t = Test q t.
Proof. intros Hp Hq E. by apply (Equals_good p q Hp Hq E). Qed.

(** [Equals] really needs what the constructors maintain: on hand-made
    conjunctions with a repeated child it identifies different predicates. *)
Example Equals_needs_distinct :
  let n1 := NewNamespacePredicate ["n1"] in
  let n2 := NewNamespacePredicate ["n2"] in
  Equals (AndImpl [n1; n1]) (AndImpl [n1; n2]) = true ∧
  Equals (AndImpl [n1; n2]) (AndImpl [n1; n1]) = false.
Proof. split; vm_compute; reflexivity. Qed.

(** ** Properties *)

(** On the predicates the constructors build, [Equals] is an equivalence, although
    [predicatesEqual] only looks for a partner of each left child, and two predicates it
    identifies accept the same tasks; so merging scopes on [Equals] never changes which tasks
    a slice is responsible for. *)
Theorem Equals_equivalence_sound (p q r : TaskPredicate) :
  wf p = true → wf q = true → wf r = true →
  Equals p p = true ∧
  Equals p q = Equals q p ∧
  (Equals p q = true → Equals q r = true → Equals p r = true) ∧
  (Equals p q = true → ∀ t, Test p t = Test q t).
Proof.
  intros Hp Hq Hr. split; [apply Equals_refl|]. split; [|split].
  - apply eq_iff_eq_true. split; intros E; [apply (Equals_good p q Hp Hq E) | apply (Equals_good q p Hq Hp E)].
  - intros E. by apply (Equals_good p q Hp Hq E).
  - intros E t. by apply Equals_test.
Qed.

Definition ns_pred (l : list string) : TaskPredicate := NewNamespacePredicate l.
Definition ty_pred (l : list Z) : TaskPredicate := NewTypePredicate l.

Lemma Equals_equivalence_sound_witness :
  let p := AndImpl [ns_pred ["a"; "b"]; NotImpl (ty_pred [1])] in
  let q := AndImpl [NotImpl (ty_pred [1]); ns_pred ["b"; "a"]] in
  wf p = true ∧ wf q = true ∧ Equals p q = true ∧ ∀ t, Test p t = Test q t.
Proof.
  intros p q. assert (Hp : wf p = true) by (vm_compute; reflexivity).
  assert (Hq : wf q = true) by (vm_compute; reflexivity).
  assert (E : Equals p q = true) by (vm_compute; reflexivity).
  destruct (Equals_equivalence_sound p q p Hp Hq Hp) as (_ & _ & _ & H).
  exact (conj Hp (conj Hq (conj E (H E)))).
Defined.

(** The constructors [And], [Or] and [Not] on well-formed arguments: the flattening,
    de-duplicating conjunction and disjunction accept exactly the tasks the plain ones do, the
    result is again well-formed, and the only failure is the panic on fewer than two
    arguments. *)
Lemma predicate_constructors_correct (ps : list TaskPredicate) (p : TaskPredicate) :
  (∀ q, q ∈ ps → wf q = true) → wf p = true →
  (And ps = None ↔ (length ps < 2)%nat) ∧ (Or ps = None ↔ (length ps < 2)%nat) ∧
  (∀ r, And ps = Some r → wf r = true ∧ ∀ t, Test r t = forallb (λ q, Test q t) ps) ∧
  (∀ r, Or ps = Some r → wf r = true ∧ ∀ t, Test r t = existsb (λ q, Test q t) ps) ∧
  wf (Not p) = true ∧ ∀ t, Test (Not p) t = negb (Test p t).
Proof.
  intros Hps Hp. unfold And at 1, Or at 1.
  destruct (Nat.ltb_spec (length ps) 2).
  - do 2 (split; [done|]). split; [|split; [|by apply Not_spec]];
      intros r E; [by apply And_spec | by apply Or_spec].
  - do 2 (split; [split; [done|lia]|]). split; [|split; [|by apply Not_spec]];
      intros r E; [by apply And_spec | by apply Or_spec].
Qed.

Lemma predicate_constructors_correct_witness :
  let ps := [ns_pred ["a"]; UniversalImpl; AndImpl [ns_pred ["a"]; ty_pred [1]]] in
  And ps = Some (AndImpl [ns_pred ["a"]; ty_pred [1]]) ∧ wf (AndImpl [ns_pred ["a"]; ty_pred [1]]) = true.
Proof.
  intros ps.
  assert (E : And ps = Some (AndImpl [ns_pred ["a"]; ty_pred [1]])) by (vm_compute; reflexivity).
  split; [exact E|].
  destruct (predicate_constructors_correct ps UniversalImpl) as (_ & _ & H & _).
  - intros q Hq. unfold ps in Hq.
    repeat (apply elem_of_cons in Hq as [->|Hq]; [vm_compute; reflexivity|]).
    by apply not_elem_of_nil in Hq.
  - reflexivity.
  - apply (H _ E).
Defined.

(** The simplifying combinators [AndPredicates] and [OrPredicates], which rewrite negations
    with De Morgan's laws while calling each other and compute set intersections, differences
    and unions of leaves, terminate (their recursion equations hold with the fuel given) and
    denote conjunction and disjunction; the result is well-formed. *)
Theorem AndPredicates_OrPredicates_correct (a b : TaskPredicate) :
  wf a = true → wf b = true →
  AndPredicates a b = and_body OrPredicates a b ∧
  OrPredicates a b = or_body AndPredicates a b ∧
  wf (AndPredicates a b) = true ∧ wf (OrPredicates a b) = true ∧
  ∀ t, Test (AndPredicates a b) t = Test a t && Test b t ∧
       Test (OrPredicates a b) t = Test a t || Test b t.
Proof.
  intros Ha Hb. destruct (AndPredicates_spec a b Ha Hb) as [H1 H2].
  destruct (OrPredicates_spec a b Ha Hb) as [H3 H4].
  split; [apply AndPredicates_eq|]. split; [apply OrPredicates_eq|]. auto.
Qed.

Lemma AndPredicates_OrPredicates_correct_witness :
  let a := ns_pred ["n1"; "n2"] in
  let b := NotImpl (ns_pred ["n2"; "n3"]) in
  Equals (OrPredicates a b) (NotImpl (ns_pred ["n3"])) = true ∧
  Equals (AndPredicates a b) (ns_pred ["n1"]) = true ∧
  wf (OrPredicates a b) = true.
Proof.
  intros a b. split; [vm_compute; reflexivity|]. split; [vm_compute; reflexivity|].
  destruct (AndPredicates_OrPredicates_correct a b) as (_ & _ & _ & H & _);
    [vm_compute; reflexivity..|]. exact H.
Defined.
