(* ===== verification/TaskScope.v ===== *)
(** * Scopes: [service/history/queues/scope.go]

    A scope is the part of the task space a queue slice is responsible for: a
    key range and a predicate. *)
From S2P Require Import Prelude TaskKey TaskRange Predicates TaskPredicates.
Local Open Scope Z_scope.

Record Scope := mkScope { ScopeRange : Range; ScopePredicate : TaskPredicate }.

Definition NewScope (r : Range) (predicate : TaskPredicate) : Scope := mkScope r predicate.

Definition Contains (s : Scope) (task : Task) : bool :=
  ContainsKey (ScopeRange s) (GetKey task) && Test (ScopePredicate s) task.

Definition CanSplitByRange (s : Scope) (key : Key) : bool := CanSplit (ScopeRange s) key.

(** [None] is a panic. *)
Definition SplitByRange (s : Scope) (key : Key) : option (Scope * Scope) :=
  if CanSplitByRange s key then
    '(leftRange, rightRange) ← Split (ScopeRange s) key;
    Some (NewScope leftRange (ScopePredicate s), NewScope rightRange (ScopePredicate s))
  else None.

Definition SplitByPredicate (s : Scope) (predicate : TaskPredicate) : Scope * Scope :=
  (NewScope (ScopeRange s) (AndPredicates (ScopePredicate s) predicate),
   NewScope (ScopeRange s) (AndPredicates (ScopePredicate s) (Not predicate))).

Definition CanMergeByRange (s incomingScope : Scope) : bool :=
  CanMerge (ScopeRange s) (ScopeRange incomingScope) &&
  Predicates.Equals (ScopePredicate s) (ScopePredicate incomingScope).

Definition MergeByRange (s incomingScope : Scope) : option Scope :=
  if CanMergeByRange s incomingScope then
    r ← Merge (ScopeRange s) (ScopeRange incomingScope);
    Some (NewScope r (ScopePredicate s))
  else None.

Definition CanMergeByPredicate (s incomingScope : Scope) : bool :=
  TaskRange.Equals (ScopeRange s) (ScopeRange incomingScope).

Definition MergeByPredicate (s incomingScope : Scope) : option Scope :=
  if CanMergeByPredicate s incomingScope then
    Some (NewScope (ScopeRange s) (OrPredicates (ScopePredicate s) (ScopePredicate incomingScope)))
  else None.

Definition IsEmpty (s : Scope) : bool :=
  if TaskRange.IsEmpty (ScopeRange s) then true
  else match ScopePredicate s with EmptyImpl => true | _ => false end.

Definition Equals (s scope : Scope) : bool :=
  TaskRange.Equals (ScopeRange s) (ScopeRange scope) &&
  Predicates.Equals (ScopePredicate s) (ScopePredicate scope).

(** ** Well-formed scopes *)

Definition scope_wf (s : Scope) : Prop :=
  range_wf (ScopeRange s) ∧ Predicates.wf (ScopePredicate s) = true.

#[export] Instance scope_wf_dec s : Decision (scope_wf s).
Proof. unfold scope_wf. apply _. Defined.

(** A list of scopes partitions a set of tasks. *)
Definition partitions (whole : Task → bool) (parts : list Scope) : Prop :=
  ∀ t, (whole t = true ↔ ∃ s, s ∈ parts ∧ Contains s t = true) ∧
       ForallOrdPairs (λ s1 s2, ¬ (Contains s1 t = true ∧ Contains s2 t = true)) parts.

Lemma Contains_spec s t :
  Contains s t = true ↔ in_range (GetKey t) (ScopeRange s) ∧ Test (ScopePredicate s) t = true.
Proof. unfold Contains. by rewrite andb_true_iff, ContainsKey_spec. Qed.

Lemma SplitByRange_Some s key s1 s2 :
  SplitByRange s key = Some (s1, s2) →
  Split (ScopeRange s) key = Some (ScopeRange s1, ScopeRange s2) ∧
  ScopePredicate s1 = ScopePredicate s ∧ ScopePredicate s2 = ScopePredicate s.
Proof.
  unfold SplitByRange. destruct (CanSplitByRange s key); [|done].
  intros ([r1 r2] & H & [= <- <-])%bind_Some. done.
Qed.

Lemma SplitByRange_total s key :
  range_wf (ScopeRange s) → CanSplitByRange s key = true →
  SplitByRange s key =
    Some (NewScope (mkRange (InclusiveMin (ScopeRange s)) key) (ScopePredicate s),
          NewScope (mkRange key (ExclusiveMax (ScopeRange s))) (ScopePredicate s)).
Proof.
  intros Hwf Hc. unfold SplitByRange. rewrite Hc.
  apply CanSplit_spec in Hc as [H1 H2]; [|done]. by rewrite Split_total.
Qed.

Lemma MergeByRange_spec s incoming m :
  scope_wf s → scope_wf incoming → MergeByRange s incoming = Some m →
  scope_wf m ∧ ∀ t, Contains m t = Contains s t || Contains incoming t.
Proof.
  intros [Hr Hp] [Hr' Hp']. unfold MergeByRange.
  destruct (CanMergeByRange s incoming) eqn:E; [|done].
  intros (rm & EM & [= <-])%bind_Some. apply andb_true_iff in E as [_ E].
  destruct (Merge_keys _ _ _ Hr Hr' EM) as [Hw Hk].
  split; [done|]. intros t. unfold Contains; simpl. apply eq_iff_eq_true.
  rewrite <- (Equals_test _ _ t Hp Hp' E), orb_true_iff, !andb_true_iff, Hk. tauto.
Qed.

Lemma MergeByPredicate_spec s incoming m :
  scope_wf s → scope_wf incoming → MergeByPredicate s incoming = Some m →
  scope_wf m ∧ ∀ t, Contains m t = Contains s t || Contains incoming t.
Proof.
  intros [Hr Hp] [Hr' Hp']. unfold MergeByPredicate.
  destruct (CanMergeByPredicate s incoming) eqn:E; [|done]. intros [= <-].
  apply TaskRange.Equals_spec in E. destruct (OrPredicates_spec _ _ Hp Hp') as [Hw Ht].
  split; [done|]. intros t. unfold Contains; simpl. rewrite <- E, Ht.
  by destruct (ContainsKey _ _).
Qed.

Lemma MergeByRange_None s incoming :
  scope_wf s → scope_wf incoming →
  MergeByRange s incoming = None ↔ CanMergeByRange s incoming = false.
Proof.
  intros [Hr _] [Hr' _]. unfold MergeByRange, CanMergeByRange.
  destruct (CanMerge _ _) eqn:E; simpl; [|done].
  destruct (Predicates.Equals _ _); [|done]. by rewrite Merge_total.
Qed.

(** ** Properties *)

(** Splitting a scope, by range or by predicate, partitions its tasks: every task of the scope
    is in exactly one of the two results and no other task is in either; both results are
    well-formed. *)
Theorem split_scope_partitions s key predicate :
  scope_wf s → Predicates.wf predicate = true →
  (∀ left right, SplitByRange s key = Some (left, right) →
     scope_wf left ∧ scope_wf right ∧ partitions (Contains s) [left; right]) ∧
  (let '(pass, fail) := SplitByPredicate s predicate in
   scope_wf pass ∧ scope_wf fail ∧ partitions (Contains s) [pass; fail]).
Proof.
  intros [Hr Hp] Hq. split.
  - intros [r1 p1] [r2 p2] (HS & E1 & E2)%SplitByRange_Some. simpl in *. subst.
    apply Split_Some in HS as (H1 & H2 & -> & ->).
    split; [done|]. split; [done|]. intros t. split.
    + rewrite Contains_spec. setoid_rewrite elem_of_cons. setoid_rewrite list_elem_of_singleton.
      setoid_rewrite Contains_spec. unfold in_range; simpl. split.
      * intros [[Ha Hb] Ht]. destruct (decide (key_lt (GetKey t) key)).
        -- eexists; split; [by left|]. done.
        -- eexists; split; [by right|]. done.
      * intros (s' & [-> | ->] & [Ha Hb] & Ht); simpl in *; split; try done; split; try done.
        -- key_solve.
        -- key_solve.
    + repeat constructor. rewrite !Contains_spec. unfold in_range; simpl.
      intros [[[_ Ha] _] [[Hb _] _]]. done.
  - simpl. destruct (Not_spec predicate Hq) as [Hn Htn].
    destruct (AndPredicates_spec _ _ Hp Hq) as [Hw1 Ht1].
    destruct (AndPredicates_spec _ _ Hp Hn) as [Hw2 Ht2].
    split; [done|]. split; [done|]. intros t. split.
    + setoid_rewrite elem_of_cons. setoid_rewrite list_elem_of_singleton. unfold Contains. simpl. split.
      * rewrite andb_true_iff. intros [Ha Hb]. destruct (Test predicate t) eqn:E.
        -- eexists; split; [by left|]. simpl. by rewrite Ha, Ht1, Hb, E.
        -- eexists; split; [by right|]. simpl. by rewrite Ha, Ht2, Htn, Hb, E.
      * intros (s' & [-> | ->] & H); simpl in H; rewrite ?Ht1, ?Ht2 in H; by bool_to_prop; apply andb_true_iff.
    + repeat constructor. unfold Contains. simpl. rewrite Ht1, Ht2, Htn.
      rewrite !andb_true_iff, negb_true_iff. intros [(_ & _ & E1) (_ & _ & E2)]. congruence.
Qed.

Definition scope_1_9 : Scope :=
  mkScope (mkRange (mkKey 0 1) (mkKey 0 9)) (ns_pred ["n1"; "n2"]).

Lemma split_scope_partitions_witness :
  scope_wf scope_1_9 ∧
  SplitByRange scope_1_9 (mkKey 0 5) =
    Some (mkScope (mkRange (mkKey 0 1) (mkKey 0 5)) (ns_pred ["n1"; "n2"]),
          mkScope (mkRange (mkKey 0 5) (mkKey 0 9)) (ns_pred ["n1"; "n2"])) ∧
  partitions (Contains scope_1_9)
    [(SplitByPredicate scope_1_9 (ns_pred ["n1"])).1; (SplitByPredicate scope_1_9 (ns_pred ["n1"])).2].
Proof.
  assert (H : scope_wf scope_1_9) by by_decide.
  split; [exact H|]. split; [reflexivity|].
  exact (proj2 (proj2 (proj2 (split_scope_partitions scope_1_9 (mkKey 0 5) (ns_pred ["n1"]) H eq_refl)))).
Defined.

(** Merging well-formed scopes loses and invents no task: [MergeByRange] (which keeps only the
    receiver's predicate, on the strength of [Equals]) and [MergeByPredicate] each contain
    exactly the tasks of the two arguments, and each panics exactly when its [CanMerge] test
    fails. *)
Theorem merge_scope_union s incoming :
  scope_wf s → scope_wf incoming →
  (MergeByRange s incoming = None ↔ CanMergeByRange s incoming = false) ∧
  (MergeByPredicate s incoming = None ↔ CanMergeByPredicate s incoming = false) ∧
  ∀ m, MergeByRange s incoming = Some m ∨ MergeByPredicate s incoming = Some m →
    scope_wf m ∧ ∀ t, Contains m t = Contains s t || Contains incoming t.
Proof.
  intros Hs Hi. split; [by apply MergeByRange_None|]. split.
  - unfold MergeByPredicate. by destruct (CanMergeByPredicate s incoming).
  - intros m [Hm|Hm]; [by apply MergeByRange_spec | by apply MergeByPredicate_spec].
Qed.

Lemma merge_scope_union_witness :
  let s := mkScope (mkRange (mkKey 0 1) (mkKey 0 5)) (ns_pred ["n1"; "n2"]) in
  let i := mkScope (mkRange (mkKey 0 3) (mkKey 0 9)) (ns_pred ["n2"; "n1"]) in
  scope_wf s ∧ scope_wf i ∧
  MergeByRange s i = Some scope_1_9 ∧ scope_wf scope_1_9.
Proof.
  intros s i. assert (Hs : scope_wf s) by by_decide. assert (Hi : scope_wf i) by by_decide.
  assert (E : MergeByRange s i = Some scope_1_9) by (vm_compute; reflexivity).
  exact (conj Hs (conj Hi (conj E (proj1
    (proj2 (proj2 (merge_scope_union s i Hs Hi)) scope_1_9 (or_introl E)))))).
Defined.
