(* ===== verification/Monitor.v ===== *)
(** * The queue monitor: [service/history/queues/monitor.go], [alerts.go]

    The monitor counts pending tasks per slice and slices per reader and posts
    alerts on a bounded channel.  Slices are the keys of its table by identity;
    [SliceID] is that identity.  The options and the clock are read at each
    call: their values are arguments. *)
From S2P Require Import Prelude TaskKey.
Local Open Scope Z_scope.

Abbreviation SliceID := N.
Abbreviation ReaderID := Z.

Definition DefaultReaderId : ReaderID := 0.
Definition Second : Z := 1000000000.
Definition monitorWatermarkPrecision : Z := Second.
Definition defaultAlertSilenceDuration : Z := 10 * Second.
Definition alertChSize : nat := 10.

(** The zero [time.Time] is the first instant of year 1. *)
Definition zeroTime : time := -62135596800 * Second.

Inductive AlertType :=
  | AlertTypeUnspecified
  | AlertTypeQueuePendingTaskCount
  | AlertTypeReaderStuck
  | AlertTypeSliceCount.

#[export] Instance AlertType_eq_dec : EqDecision AlertType.
Proof. solve_decision. Defined.
#[export] Instance AlertType_countable : Countable AlertType.
Proof.
  refine (inj_countable
    (λ a, match a with AlertTypeUnspecified => 0%nat | AlertTypeQueuePendingTaskCount => 1%nat
                     | AlertTypeReaderStuck => 2%nat | AlertTypeSliceCount => 3%nat end)
    (λ n, match n with 0%nat => Some AlertTypeUnspecified | 1%nat => Some AlertTypeQueuePendingTaskCount
                     | 2%nat => Some AlertTypeReaderStuck | _ => Some AlertTypeSliceCount end) _).
  by intros [].
Defined.

Inductive Alert :=
  | AlertAttributesQueuePendingTaskCount (CurrentPendingTaskCount CiriticalPendingTaskCount : Z)
  | AlertAttributesReaderStuck (readerID : ReaderID) (CurrentWatermark : Key)
  | AlertAttributesSlicesCount (CurrentSliceCount CriticalSliceCount : Z).

Definition alert_type (a : Alert) : AlertType :=
  match a with
  | AlertAttributesQueuePendingTaskCount _ _ => AlertTypeQueuePendingTaskCount
  | AlertAttributesReaderStuck _ _ => AlertTypeReaderStuck
  | AlertAttributesSlicesCount _ _ => AlertTypeSliceCount
  end.

Inductive CategoryType := CategoryTypeImmediate | CategoryTypeScheduled.

#[export] Instance CategoryType_eq_dec : EqDecision CategoryType.
Proof. solve_decision. Defined.

Record MonitorOptions := mkMonitorOptions {
  PendingTasksCriticalCount : Z;
  ReaderStuckCriticalAttempts : Z;
  SliceCountCriticalThreshold : Z;
}.

Record readerStats := mkReaderStats { watermark : Key; attempts : Z; sliceCount : Z }.
(** The value Go's map read gives for an absent key. *)
Definition zeroReaderStats : readerStats := mkReaderStats (mkKey zeroTime 0) 0 0.

Record monitorImpl := mkMonitor {
  totalPendingTaskCount : Z;
  totalSliceCount : Z;
  readers : gmap ReaderID readerStats;
  sliceStats : gmap SliceID Z;
  categoryType : CategoryType;
  pendingAlerts : gset AlertType;
  silencedAlerts : gmap AlertType time;
  alertCh : list Alert;
  closed : bool;
}.

Definition newMonitor (c : CategoryType) : monitorImpl :=
  mkMonitor 0 0 ∅ ∅ c ∅ ∅ [] false.

Section monitor.
Context (options : MonitorOptions) (now : time).

Definition sendAlertLocked (m : monitorImpl) (alert : Alert) : monitorImpl :=
  if closed m then m
  else if now <? default zeroTime (silencedAlerts m !! alert_type alert) then m
  else if bool_decide (alert_type alert ∈ pendingAlerts m) then m
  else if (length (alertCh m) <? alertChSize)%nat
  then mkMonitor (totalPendingTaskCount m) (totalSliceCount m) (readers m) (sliceStats m)
         (categoryType m) ({[alert_type alert]} ∪ pendingAlerts m) (silencedAlerts m)
         (alertCh m ++ [alert]) (closed m)
  else m.

Definition GetSlicePendingTaskCount (m : monitorImpl) (slice : SliceID) : Z :=
  default 0 (sliceStats m !! slice).

Definition SetSlicePendingTaskCount (m : monitorImpl) (slice : SliceID) (count : Z) : monitorImpl :=
  let stats := default 0 (sliceStats m !! slice) in
  let m1 := mkMonitor (totalPendingTaskCount m - stats + count) (totalSliceCount m) (readers m)
              (<[slice := count]> (sliceStats m)) (categoryType m) (pendingAlerts m)
              (silencedAlerts m) (alertCh m) (closed m) in
  let criticalTotalTasks := PendingTasksCriticalCount options in
  if (criticalTotalTasks >? 0) && (totalPendingTaskCount m1 >? criticalTotalTasks)
  then sendAlertLocked m1
         (AlertAttributesQueuePendingTaskCount (totalPendingTaskCount m1) criticalTotalTasks)
  else m1.

Definition GetReaderWatermark (m : monitorImpl) (readerID : ReaderID) : Key * bool :=
  match readers m !! readerID with
  | None => (MinimumKey, false)
  | Some stats => (watermark stats, true)
  end.

Definition set_reader (m : monitorImpl) (readerID : ReaderID) (s : readerStats) : monitorImpl :=
  mkMonitor (totalPendingTaskCount m) (totalSliceCount m) (<[readerID := s]> (readers m))
    (sliceStats m) (categoryType m) (pendingAlerts m) (silencedAlerts m) (alertCh m) (closed m).

(** [Truncate] to the second: the zero time is a whole second. *)
Definition Truncate (t : time) (d : Z) : time := t - t mod d.

Definition SetReaderWatermark (m : monitorImpl) (readerID : ReaderID) (wm : Key) : monitorImpl :=
  if negb (readerID =? DefaultReaderId) || negb (bool_decide (categoryType m = CategoryTypeScheduled))
  then m
  else
    let wm := mkKey (Truncate (FireTime wm) monitorWatermarkPrecision) 0 in
    let stats := default zeroReaderStats (readers m !! readerID) in
    if negb (CompareTo (watermark stats) wm =? 0)
    then set_reader m readerID (mkReaderStats wm 1 (sliceCount stats))
    else
      let stats := mkReaderStats (watermark stats) (attempts stats + 1) (sliceCount stats) in
      let m1 := set_reader m readerID stats in
      let criticalAttempts := ReaderStuckCriticalAttempts options in
      if (criticalAttempts >? 0) && (attempts stats >=? criticalAttempts)
      then sendAlertLocked m1 (AlertAttributesReaderStuck readerID (watermark stats))
      else m1.

Definition GetTotalSliceCount (m : monitorImpl) : Z :=
  map_fold (λ _ stats count, count + sliceCount stats) 0 (readers m).

Definition GetSliceCount (m : monitorImpl) (readerID : ReaderID) : Z :=
  match readers m !! readerID with Some stats => sliceCount stats | None => 0 end.

Definition SetSliceCount (m : monitorImpl) (readerID : ReaderID) (count : Z) : monitorImpl :=
  let stats := default zeroReaderStats (readers m !! readerID) in
  let m1 := mkMonitor (totalPendingTaskCount m) (totalSliceCount m - sliceCount stats + count)
              (<[readerID := mkReaderStats (watermark stats) (attempts stats) count]> (readers m))
              (sliceStats m) (categoryType m) (pendingAlerts m) (silencedAlerts m) (alertCh m) (closed m) in
  let criticalSliceCount := SliceCountCriticalThreshold options in
  if (criticalSliceCount >? 0) && (totalSliceCount m1 >? criticalSliceCount)
  then sendAlertLocked m1 (AlertAttributesSlicesCount (totalSliceCount m1) criticalSliceCount)
  else m1.

Definition RemoveSlice (m : monitorImpl) (slice : SliceID) : monitorImpl :=
  match sliceStats m !! slice with
  | None => m
  | Some stats =>
      mkMonitor (totalPendingTaskCount m - stats) (totalSliceCount m) (readers m)
        (delete slice (sliceStats m)) (categoryType m) (pendingAlerts m) (silencedAlerts m)
        (alertCh m) (closed m)
  end.

Definition RemoveReader (m : monitorImpl) (readerID : ReaderID) : monitorImpl :=
  match readers m !! readerID with
  | None => m
  | Some stats =>
      mkMonitor (totalPendingTaskCount m) (totalSliceCount m - sliceCount stats)
        (delete readerID (readers m)) (sliceStats m) (categoryType m) (pendingAlerts m)
        (silencedAlerts m) (alertCh m) (closed m)
  end.

Definition ResolveAlert (m : monitorImpl) (a : AlertType) : monitorImpl :=
  mkMonitor (totalPendingTaskCount m) (totalSliceCount m) (readers m) (sliceStats m)
    (categoryType m) (pendingAlerts m ∖ {[a]}) (silencedAlerts m) (alertCh m) (closed m).

Definition SilenceAlert (m : monitorImpl) (a : AlertType) : monitorImpl :=
  mkMonitor (totalPendingTaskCount m) (totalSliceCount m) (readers m) (sliceStats m)
    (categoryType m) (pendingAlerts m ∖ {[a]})
    (<[a := now + defaultAlertSilenceDuration]> (silencedAlerts m)) (alertCh m) (closed m).

(** A receive on [AlertCh()] by the queue's event loop. *)
Definition ReceiveAlert (m : monitorImpl) : option (Alert * monitorImpl) :=
  match alertCh m with
  | [] => None
  | a :: rest =>
      Some (a, mkMonitor (totalPendingTaskCount m) (totalSliceCount m) (readers m) (sliceStats m)
                 (categoryType m) (pendingAlerts m) (silencedAlerts m) rest (closed m))
  end.

(** Closing [shutdownCh] a second time panics. *)
Definition Close (m : monitorImpl) : option monitorImpl :=
  if closed m then None
  else Some (mkMonitor (totalPendingTaskCount m) (totalSliceCount m) (readers m) (sliceStats m)
               (categoryType m) (pendingAlerts m) (silencedAlerts m) [] true).
End monitor.

(** ** The monitor's transitions *)

Inductive monitor_step (options : MonitorOptions) : monitorImpl → monitorImpl → Prop :=
  | step_set_slice now m s c : monitor_step options m (SetSlicePendingTaskCount options now m s c)
  | step_watermark now m r k : monitor_step options m (SetReaderWatermark options now m r k)
  | step_set_count now m r c : monitor_step options m (SetSliceCount options now m r c)
  | step_remove_slice m s : monitor_step options m (RemoveSlice m s)
  | step_remove_reader m r : monitor_step options m (RemoveReader m r)
  | step_resolve m a : monitor_step options m (ResolveAlert m a)
  | step_silence now m a : monitor_step options m (SilenceAlert now m a)
  | step_receive m a m' : ReceiveAlert m = Some (a, m') → monitor_step options m m'
  | step_close m m' : Close m = Some m' → monitor_step options m m'.

(** The totals are the sums of the tables, and the channel respects its capacity. *)
Definition sum_slices (m : gmap SliceID Z) : Z := map_fold (λ _ c acc, acc + c) 0 m.
Definition sum_readers (m : gmap ReaderID readerStats) : Z :=
  map_fold (λ _ s acc, acc + sliceCount s) 0 m.

Record monitor_inv (m : monitorImpl) : Prop := {
  inv_pending : totalPendingTaskCount m = sum_slices (sliceStats m);
  inv_slices : totalSliceCount m = sum_readers (readers m);
  inv_channel : (length (alertCh m) ≤ alertChSize)%nat;
}.

Lemma sendAlertLocked_tables now m a :
  totalPendingTaskCount (sendAlertLocked now m a) = totalPendingTaskCount m ∧
  totalSliceCount (sendAlertLocked now m a) = totalSliceCount m ∧
  readers (sendAlertLocked now m a) = readers m ∧ sliceStats (sendAlertLocked now m a) = sliceStats m.
Proof. unfold sendAlertLocked. by repeat case_match. Qed.

Lemma sendAlertLocked_inv now m a : monitor_inv m → monitor_inv (sendAlertLocked now m a).
Proof.
  intros [H1 H2 H3]. destruct (sendAlertLocked_tables now m a) as (E1 & E2 & E3 & E4).
  split; rewrite ?E1, ?E2, ?E3, ?E4; [done..|].
  unfold sendAlertLocked. destruct (closed m); [done|].
  destruct (now <? _); [done|]. destruct (bool_decide _); [done|].
  destruct (length (alertCh m) <? alertChSize)%nat eqn:E; [|done].
  apply Nat.ltb_lt in E. simpl. rewrite length_app. simpl. lia.
Qed.

Lemma sum_slices_insert m k x : sum_slices (<[k := x]> m) = sum_slices m - default 0 (m !! k) + x.
Proof. apply (msum_insert (λ z, z)). Qed.
Lemma sum_readers_insert m k x :
  sum_readers (<[k := x]> m) = sum_readers m - sliceCount (default zeroReaderStats (m !! k)) + sliceCount x.
Proof.
  pose proof (msum_insert sliceCount m k x) as E. unfold sum_readers. unfold msum in E.
  rewrite E. by destruct (m !! k).
Qed.

Lemma set_reader_inv m r s :
  monitor_inv m → sliceCount s = sliceCount (default zeroReaderStats (readers m !! r)) →
  monitor_inv (set_reader m r s).
Proof.
  intros [H1 H2 H3] E. split; simpl; [done| |done]. rewrite sum_readers_insert. lia.
Qed.

Lemma monitor_step_inv options m m' : monitor_inv m → monitor_step options m m' → monitor_inv m'.
Proof.
  intros Hinv Hstep. destruct Hstep as [now m s c|now m r k|now m r c|m s|m r|m a|now m a|m a m' E|m m' E].
  - unfold SetSlicePendingTaskCount. destruct Hinv.
    match goal with |- context [sendAlertLocked _ ?m1 _] => assert (monitor_inv m1) end.
    { split; simpl; [|done..]. rewrite sum_slices_insert. lia. }
    case_match; [by apply sendAlertLocked_inv | done].
  - unfold SetReaderWatermark. case_match; [done|]. case_match; [by apply set_reader_inv|].
    case_match; [apply sendAlertLocked_inv|]; by apply set_reader_inv.
  - unfold SetSliceCount. destruct Hinv.
    match goal with |- context [sendAlertLocked _ ?m1 _] => assert (monitor_inv m1) end.
    { split; simpl; [done| |done]. rewrite sum_readers_insert. simpl. lia. }
    case_match; [by apply sendAlertLocked_inv | done].
  - unfold RemoveSlice. destruct (sliceStats m !! s) as [c|] eqn:E; [|done].
    destruct Hinv as [H1 ? ?]. split; simpl; [|done..].
    rewrite H1. symmetry. apply (msum_delete (λ z, z) _ _ _ E).
  - unfold RemoveReader. destruct (readers m !! r) as [c|] eqn:E; [|done].
    destruct Hinv as [? H2 ?]. split; simpl; [done| |done].
    rewrite H2. symmetry. apply (msum_delete sliceCount _ _ _ E).
  - destruct Hinv. by split.
  - destruct Hinv. by split.
  - unfold ReceiveAlert in E. destruct (alertCh m) as [|b rest] eqn:Ech; [done|].
    simplify_eq. destruct Hinv as [? ? H3]. split; simpl; [done..|]. rewrite Ech in H3. simpl in H3. lia.
  - unfold Close in E. destruct (closed m); [done|]. simplify_eq. destruct Hinv.
    split; simpl; [done..|lia].
Qed.

(** ** Properties *)

(** In every state the monitor can reach from [newMonitor] by its own operations (including
    receives from the alert channel, silencing and closing), the cached totals it compares with
    the critical thresholds equal the sums over its per-slice and per-reader tables, and the
    alert channel never exceeds its capacity of 10 (so [sendAlertLocked] never blocks). *)
Theorem monitor_totals_exact options c m :
  rtc (monitor_step options) (newMonitor c) m →
  totalPendingTaskCount m = map_fold (λ _ n acc, acc + n) 0 (sliceStats m) ∧
  totalSliceCount m = GetTotalSliceCount m ∧
  (length (alertCh m) ≤ 10)%nat.
Proof.
  intros Hr. assert (H : monitor_inv m).
  { assert (H0 : monitor_inv (newMonitor c)) by (split; simpl; [done..|lia]).
    induction Hr as [|m1 m2 m3 Hs _ IH]; [done|]. apply IH. by eapply monitor_step_inv. }
  destruct H. split; [done|]. split; done.
Qed.

Lemma monitor_totals_exact_witness :
  let o := mkMonitorOptions 5 3 10 in
  let m1 := SetSlicePendingTaskCount o 0 (newMonitor CategoryTypeScheduled) 1%N 4 in
  let m2 := SetSlicePendingTaskCount o 0 m1 2%N 3 in
  rtc (monitor_step o) (newMonitor CategoryTypeScheduled) m2 ∧
  totalPendingTaskCount m2 = 7 ∧ length (alertCh m2) = 1%nat ∧
  totalPendingTaskCount m2 = map_fold (λ _ n acc, acc + n) 0 (sliceStats m2).
Proof.
  intros o m1 m2.
  assert (H : rtc (monitor_step o) (newMonitor CategoryTypeScheduled) m2).
  { eapply rtc_l; [apply (step_set_slice o 0 _ 1%N 4)|].
    eapply rtc_l; [apply (step_set_slice o 0 _ 2%N 3)|]. apply rtc_refl. }
  split; [exact H|]. split; [reflexivity|]. split; [reflexivity|].
  exact (proj1 (monitor_totals_exact _ _ _ H)).
Defined.
