(* ===== verification/PagingIterator.v ===== *)
(** * Paging iterators: [common/collection/paging_iterator.go]

    The pagination function reads a page from some store and may fail; [W] is
    the state of that store and of whatever makes a read fail.  An iterator
    fetches eagerly on creation and then whenever its page is exhausted and the
    token says there is more. *)
From S2P Require Import Prelude.
From Stdlib Require Import Strings.Byte.
Local Open Scope go_scope.

Abbreviation token := (list Byte.byte).

Section paging.
Context {W E V : Type}.

(** One page, its continuation token, or an error. *)
Definition PaginationFn := W → token → W * (E + list V * token).

Record PagingIteratorImpl := mkPaging {
  paginationFn : PaginationFn;
  pageToken : token;
  pageErr : option E;
  pageItems : list V;
  nextPageItemIndex : nat;
}.

Definition getNextPage (w : W) (iter : PagingIteratorImpl) : W * PagingIteratorImpl :=
  match paginationFn iter w (pageToken iter) with
  | (w', inr (items, tok)) => (w', mkPaging (paginationFn iter) tok None items 0)
  | (w', inl err) => (w', mkPaging (paginationFn iter) [] (Some err) [] 0)
  end.

Definition NewPagingIteratorWithToken (w : W) (fn : PaginationFn) (tok : token) : W * PagingIteratorImpl :=
  getNextPage w (mkPaging fn tok None [] 0).

Definition NewPagingIterator (w : W) (fn : PaginationFn) : W * PagingIteratorImpl :=
  NewPagingIteratorWithToken w fn [].

(** [HasNext] calls itself after fetching an empty page. *)
Fixpoint HasNext (fuel : nat) (w : W) (iter : PagingIteratorImpl)
    : outcome stuck (bool * W * PagingIteratorImpl) :=
  match fuel with
  | O => Err OutOfFuel
  | S n =>
      if pageErr iter then Ok (true, w, iter)
      else if (nextPageItemIndex iter <? length (pageItems iter))%nat then Ok (true, w, iter)
      else if negb (length (pageToken iter) =? 0)%nat then
        let '(w', iter') := getNextPage w iter in HasNext n w' iter'
      else Ok (false, w, iter)
  end.

Definition Next (fuel : nat) (w : W) (iter : PagingIteratorImpl)
    : outcome stuck ((E + V) * W * PagingIteratorImpl) :=
  let! (has, w, iter) := HasNext fuel w iter in
  if negb has then Panic
  else match pageErr iter with
  | Some err =>
      Ok (inl err, w,
          mkPaging (paginationFn iter) (pageToken iter) None (pageItems iter) (nextPageItemIndex iter))
  | None =>
      match pageItems iter !! nextPageItemIndex iter with
      | Some v =>
          Ok (inr v, w,
              mkPaging (paginationFn iter) (pageToken iter) (pageErr iter) (pageItems iter)
                (S (nextPageItemIndex iter)))
      | None => Panic
      end
  end.

(** ** What a pagination function serves

    Starting from a token, and whatever the state of the store when each page
    is read, the pages that arrive make up [items], in at most [n] pages; a
    read may fail at any point. *)
Fixpoint serves (fn : PaginationFn) (n : nat) (tok : token) (items : list V) : Prop :=
  match n with
  | O => False
  | S n =>
      ∀ w, match (fn w tok).2 with
           | inl _ => True
           | inr (page, tok') =>
               ∃ rest, items = page ++ rest ∧
                 match tok' with [] => rest = [] | _ => serves fn n tok' rest end
           end
  end.

(** The items an iterator still has to give, if no read fails. *)
Definition yields (iter : PagingIteratorImpl) (n : nat) (items : list V) : Prop :=
  match pageErr iter with
  | Some _ => True
  | None =>
      (nextPageItemIndex iter ≤ length (pageItems iter))%nat ∧
      ∃ rest, items = drop (nextPageItemIndex iter) (pageItems iter) ++ rest ∧
        match pageToken iter with [] => rest = [] | tok => serves (paginationFn iter) n tok rest end
  end.

Lemma getNextPage_yields w iter n items :
  serves (paginationFn iter) (S n) (pageToken iter) items →
  yields (getNextPage w iter).2 n items.
Proof.
  intros Hs. specialize (Hs w). unfold getNextPage.
  destruct (paginationFn iter w (pageToken iter)) as [w' [e|[page tok']]]; simpl in *; [done|].
  destruct Hs as (rest & -> & Hr). split; simpl; [lia|]. exists rest. split; [done|]. by destruct tok'.
Qed.

Lemma NewPagingIterator_yields w fn n items :
  serves fn (S n) [] items → yields (NewPagingIterator w fn).2 n items.
Proof. intros. by apply (getNextPage_yields w (mkPaging fn [] None [] 0)). Qed.

Lemma yields_mono iter n m items : (n ≤ m)%nat → yields iter n items → yields iter m items.
Proof.
  assert (Hmono : ∀ fn n m tok its, (n ≤ m)%nat → serves fn n tok its → serves fn m tok its).
  { intros fn n'. induction n' as [|n' IH]; intros m' tok its Hle Hs; [done|].
    destruct m' as [|m']; [lia|]. intros w. specialize (Hs w).
    destruct (fn w tok).2 as [e|[page tok']]; [done|].
    destruct Hs as (rest & -> & Hr). exists rest. split; [done|].
    destruct tok'; [done|]. apply (IH m'); [lia|done]. }
  unfold yields. intros Hle. destruct (pageErr iter); [done|].
  intros (? & rest & ? & Hr). split; [done|]. exists rest. split; [done|].
  destruct (pageToken iter); [done|]. by eapply Hmono.
Qed.

(** An item or an error is at hand: no read is needed. *)
Definition ready (iter : PagingIteratorImpl) : Prop :=
  is_Some (pageErr iter) ∨ ∃ v, pageItems iter !! nextPageItemIndex iter = Some v.

Lemma HasNext_ready fuel w iter : ready iter → HasNext (S fuel) w iter = Ok (true, w, iter).
Proof.
  intros [[e He]|[v Hv]]; simpl; [by rewrite He|]. destruct (pageErr iter); [done|].
  apply lookup_lt_Some, Nat.ltb_lt in Hv. by rewrite Hv.
Qed.

(** With as much fuel as pages are left, [HasNext] decides whether an item or
    an error is left, and leaves the items to come unchanged. *)
Lemma HasNext_yields n fuel w iter items :
  yields iter n items → (n < fuel)%nat →
  ∃ b w' iter', HasNext fuel w iter = Ok (b, w', iter') ∧
    paginationFn iter' = paginationFn iter ∧ yields iter' n items ∧
    (b = false → items = [] ∧ pageErr iter' = None) ∧
    (b = true → ready iter').
Proof.
  revert n w iter. induction fuel as [|fuel IH]; intros n w iter Hy Hf; [lia|]. simpl.
  destruct (pageErr iter) as [e|] eqn:Ee.
  { exists true, w, iter. rewrite Ee. repeat split; try done. left. eauto. }
  destruct (nextPageItemIndex iter <? length (pageItems iter))%nat eqn:Ei.
  { apply Nat.ltb_lt in Ei. exists true, w, iter. repeat split; try done. right.
    by apply lookup_lt_is_Some. }
  apply Nat.ltb_ge in Ei.
  pose proof Hy as Hy0. unfold yields in Hy0. rewrite Ee in Hy0.
  destruct Hy0 as (Hle & rest & Hit & Hr).
  rewrite drop_ge in Hit by lia. simpl in Hit. subst rest.
  destruct (pageToken iter) as [|b0 tok] eqn:Et; simpl.
  { exists false, w, iter. rewrite Ee. repeat split; done. }
  destruct n as [|n]; [done|].
  pose proof (getNextPage_yields w iter n items) as Hg. rewrite Et in Hg. specialize (Hg Hr).
  destruct (getNextPage w iter) as [w1 iter1] eqn:Eg. simpl in Hg.
  assert (Hfn : paginationFn iter1 = paginationFn iter).
  { unfold getNextPage in Eg. repeat case_match; by simplify_eq/=. }
  destruct (IH n w1 iter1 Hg) as (b & w2 & iter2 & E2 & Hfn2 & Hy2 & Hb); [lia|].
  exists b, w2, iter2. split; [done|]. split; [congruence|]. split; [|done].
  eapply yields_mono; [|done]. lia.
Qed.

Lemma Next_yields n fuel w iter v w' iter' items :
  yields iter n items → (n < fuel)%nat → Next fuel w iter = Ok (inr v, w', iter') →
  ∃ rest, items = v :: rest ∧ yields iter' n rest ∧ paginationFn iter' = paginationFn iter.
Proof.
  intros Hy Hf. unfold Next.
  destruct (HasNext_yields n fuel w iter items Hy Hf) as (b & w1 & iter1 & -> & Hfn & Hy1 & _ & _).
  simpl. destruct b; simpl; [|done].
  destruct (pageErr iter1) as [e|] eqn:Ee; [done|].
  destruct (pageItems iter1 !! nextPageItemIndex iter1) as [x|] eqn:Ex; [|done].
  intros [= -> -> <-]. unfold yields in Hy1. rewrite Ee in Hy1.
  destruct Hy1 as (Hle & rest & -> & Hr). rewrite (drop_S _ _ _ Ex). simpl.
  exists (drop (S (nextPageItemIndex iter1)) (pageItems iter1) ++ rest). split; [done|].
  split; [|done]. unfold yields. simpl. apply lookup_lt_Some in Ex.
  split; [lia|]. by exists rest.
Qed.

(** [for iter.HasNext() { iter.Next() }], as the callers of the package run it:
    the items, and the error that stopped it. *)
Fixpoint drain (fuel : nat) (w : W) (iter : PagingIteratorImpl) : outcome stuck (list V * option E) :=
  match fuel with
  | O => Err OutOfFuel
  | S n =>
      let! (has, w, iter) := HasNext fuel w iter in
      if negb has then Ok ([], None)
      else
        let! (r, w, iter) := Next fuel w iter in
        match r with
        | inl err => Ok ([], Some err)
        | inr v => let! (vs, e) := drain n w iter in Ok (v :: vs, e)
        end
  end.

(** When [HasNext] has said yes, [Next] returns an item or the error. *)
Lemma Next_total fuel w iter : ready iter → ∃ r w' iter', Next (S fuel) w iter = Ok (r, w', iter').
Proof.
  intros Hr. unfold Next. rewrite HasNext_ready by done. simpl.
  destruct (pageErr iter) as [e|] eqn:Ee; [by do 3 eexists|].
  destruct Hr as [[? ?]|[v Hv]]; [congruence|]. rewrite Hv. by do 3 eexists.
Qed.

Lemma drain_yields fuel n w iter items :
  yields iter n items → (n + length items < fuel)%nat →
  ∃ vs e, drain fuel w iter = Ok (vs, e) ∧
    match e with None => vs = items | Some _ => vs `prefix_of` items end.
Proof.
  revert w iter items. induction fuel as [|fuel IH]; intros w iter items Hy Hf; [lia|].
  cbn [drain].
  destruct (HasNext_yields n (S fuel) w iter items Hy) as (b & w1 & iter1 & -> & _ & Hy1 & Hb0 & Hb1);
    [lia|]. cbn [obind].
  destruct b; simpl negb; cbv iota; [|exists [], None; naive_solver].
  destruct (Next_total fuel w1 iter1 (Hb1 eq_refl)) as (r & w2 & iter2 & EN).
  rewrite EN. cbn [obind].
  destruct r as [e|v]; [exists [], (Some e); split; [done|apply prefix_nil]|].
  destruct (Next_yields n (S fuel) w1 iter1 v w2 iter2 items Hy1) as (rest & -> & Hy2 & _);
    [lia|done|].
  destruct (IH w2 iter2 rest Hy2) as (vs & e & -> & He); [simpl in *; lia|].
  exists (v :: vs), e. split; [done|]. destruct e; [by apply prefix_cons|by rewrite He].
Qed.

(** A paging iterator over a pagination function that serves [items] (in at most [S n]
    pages, some of which may be empty) always terminates when drained with [HasNext]/[Next],
    never panics, and returns exactly [items] in order; if a page read fails it returns a
    prefix of them together with the error. *)
Theorem paging_iterator_complete n w fn items :
  serves fn (S n) [] items →
  let '(w', iter) := NewPagingIterator w fn in
  ∃ vs e, drain (S (n + length items)) w' iter = Ok (vs, e) ∧
    match e with None => vs = items | Some _ => vs `prefix_of` items end.
Proof.
  intros Hs. pose proof (NewPagingIterator_yields w fn n items Hs) as Hy.
  destruct (NewPagingIterator w fn) as [w' iter]. by apply (drain_yields _ n); [|lia].
Qed.
End paging.
Arguments PaginationFn : clear implicits.
Arguments PagingIteratorImpl : clear implicits.

(** A store of three pages, one of them empty, whose second read fails once. *)
Definition flaky_pages (w : nat) (tok : token) : nat * (string + list nat * token) :=
  match tok with
  | [] => (w, inr ([1; 2], [x01]))
  | x01 :: _ => if (w =? 0)%nat then (S w, inl "unavailable") else (w, inr ([], [x02]))
  | _ => (w, inr ([3], []))
  end.

Lemma flaky_pages_serves : serves flaky_pages 3 [] [1; 2; 3].
Proof.
  intros w; simpl. exists [3]. split; [done|]. intros w'; simpl. destruct (w' =? 0)%nat; simpl; [done|].
  exists [3]. split; [done|]. intros w''. by exists [].
Qed.

Lemma paging_iterator_complete_witness :
  serves flaky_pages 3 [] [1; 2; 3] ∧
  (let '(w', iter) := NewPagingIterator 1%nat flaky_pages in drain 6 w' iter) = Ok ([1; 2; 3], None) ∧
  (let '(w', iter) := NewPagingIterator 0%nat flaky_pages in drain 6 w' iter) = Ok ([1; 2], Some "unavailable") ∧
  ∃ vs e, drain 6 0%nat (NewPagingIterator 0%nat flaky_pages).2 = Ok (vs, e) ∧
      match e with None => vs = [1; 2; 3] | Some _ => vs `prefix_of` [1; 2; 3] end.
Proof.
  split; [exact flaky_pages_serves|]. split; [reflexivity|]. split; [reflexivity|].
  exact (paging_iterator_complete 2 0%nat flaky_pages [1; 2; 3] flaky_pages_serves).
Defined.
