(* ===== verification/TaskIterator.v ===== *)
(** * Task iterators: [service/history/queues/iterator.go]

    An iterator owns the part of a slice's range that is not loaded yet.  It
    creates its paging iterator on the first [HasNext] and moves the lower bound
    of its range past each task it returns. *)
From S2P Require Import Prelude TaskKey TaskRange Predicates TaskPredicates PagingIterator.
Local Open Scope go_scope.
Local Open Scope key_scope.

Section iterator.
Context {W E : Type}.

Definition PaginationFnProvider := Range → PaginationFn W E Task.

(** The provider is the same for all the iterators of a queue. *)
Context (provider : PaginationFnProvider).

Record IteratorImpl := mkIterator {
  remainingRange : Range;
  pagingIterator : option (PagingIteratorImpl W E Task);
}.

Definition NewIterator (r : Range) : IteratorImpl := mkIterator r None.

(** The lazy creation at the start of [HasNext]. *)
Definition ensure_paging (w : W) (i : IteratorImpl) : W * PagingIteratorImpl W E Task :=
  match pagingIterator i with
  | Some p => (w, p)
  | None => NewPagingIterator w (provider (remainingRange i))
  end.

Definition HasNext (fuel : nat) (w : W) (i : IteratorImpl) : outcome stuck (bool * W * IteratorImpl) :=
  let '(w, p) := ensure_paging w i in
  let! (has, w, p) := PagingIterator.HasNext fuel w p in
  Ok (has, w, mkIterator (remainingRange i) (Some p)).

Definition Next (fuel : nat) (w : W) (i : IteratorImpl)
    : outcome stuck ((E + Task) * W * IteratorImpl) :=
  let! (has, w, i) := HasNext fuel w i in
  if negb has then Panic
  else
    let '(w, p) := ensure_paging w i in
    let! (r, w, p) := PagingIterator.Next fuel w p in
    match r with
    | inl err => Ok (inl err, w, mkIterator (remainingRange i) (Some p))
    | inr task =>
        match TaskKey.Next (GetKey task) with
        | None => Panic
        | Some k =>
            Ok (inr task, w, mkIterator (mkRange k (ExclusiveMax (remainingRange i))) (Some p))
        end
    end.

Definition iter_Range (i : IteratorImpl) : Range := remainingRange i.

Definition iter_CanSplit (i : IteratorImpl) (key : Key) : bool := CanSplit (remainingRange i) key.

(** [None] is a panic. *)
Definition iter_Split (i : IteratorImpl) (key : Key) : option (IteratorImpl * IteratorImpl) :=
  if iter_CanSplit i key then
    '(leftRange, rightRange) ← Split (remainingRange i) key;
    Some (NewIterator leftRange, NewIterator rightRange)
  else None.

Definition iter_CanMerge (i iter : IteratorImpl) : bool := CanMerge (remainingRange i) (iter_Range iter).

Definition iter_Merge (i iter : IteratorImpl) : option IteratorImpl :=
  if iter_CanMerge i iter then
    r ← Merge (remainingRange i) (iter_Range iter);
    Some (NewIterator r)
  else None.

Definition Remaining (i : IteratorImpl) : IteratorImpl := NewIterator (remainingRange i).

(** ** Iterators over a store of tasks *)

Definition range_valid (r : Range) : Prop :=
  valid_key (InclusiveMin r) ∧ valid_key (ExclusiveMax r) ∧ range_wf r.

(** The store holds each task once, in key order. *)
Definition store_sorted (store : list Task) : Prop :=
  StronglySorted (λ a b, GetKey a <k GetKey b) store ∧ Forall (λ t, valid_key (GetKey t)) store.

Definition tasks_in (store : list Task) (r : Range) : list Task :=
  filter (λ t, ContainsKey r (GetKey t) = true) store.

(** Reading a range yields the store's tasks of that range, in at most [S n]
    pages; any read may fail. *)
Definition provider_ok (store : list Task) (n : nat) : Prop :=
  ∀ r, serves (provider r) (S n) [] (tasks_in store r).

Definition iter_ok (store : list Task) (n : nat) (i : IteratorImpl) : Prop :=
  range_valid (remainingRange i) ∧
  match pagingIterator i with
  | None => True
  | Some p => yields p n (tasks_in store (remainingRange i))
  end.

Lemma tasks_in_elem store r t : t ∈ tasks_in store r ↔ in_range (GetKey t) r ∧ t ∈ store.
Proof. unfold tasks_in. rewrite list_elem_of_filter, ContainsKey_spec. done. Qed.

(** After the first task of a range, the rest of the range is what lies past it. *)
Lemma tasks_in_next store r t rest k :
  store_sorted store → range_valid r → tasks_in store r = t :: rest →
  TaskKey.Next (GetKey t) = Some k →
  rest = tasks_in store (mkRange k (ExclusiveMax r)) ∧ range_valid (mkRange k (ExclusiveMax r)).
Proof.
  intros [Hs Hv] (Hmin & Hmax & Hwf) Ht Hk.
  assert (Hin : t ∈ tasks_in store r) by (rewrite Ht; left).
  apply tasks_in_elem in Hin as [[Hlo Hhi] Hin].
  rewrite Forall_forall in Hv. pose proof (Hv t Hin) as Hvt.
  destruct (Next_lt _ _ Hvt Hk) as [Hvk Hlt].
  split; [|split; [done|split; [done|]]].
  - assert (Hs' : StronglySorted (λ a b, GetKey a <k GetKey b) (t :: rest)).
    { rewrite <- Ht. by apply StronglySorted_filter. }
    apply StronglySorted_inv in Hs' as [_ Hall]. rewrite Forall_forall in Hall.
    assert (Hrest : ∀ x, x ∈ rest → ContainsKey (mkRange k (ExclusiveMax r)) (GetKey x) = true).
    { intros x Hx. assert (Hx' : x ∈ tasks_in store r) by (rewrite Ht; by right).
      apply tasks_in_elem in Hx' as [[_ ?] Hx']. apply ContainsKey_spec. split; [simpl|done].
      apply (Next_le (GetKey t)); auto. }
    transitivity (filter (λ x, ContainsKey (mkRange k (ExclusiveMax r)) (GetKey x) = true) (t :: rest)).
    + rewrite filter_cons_False.
      * symmetry. by apply filter_all.
      * rewrite ContainsKey_spec. intros [Hc _]. done.
    + rewrite <- Ht. unfold tasks_in. apply list_filter_filter_l.
      intros x. rewrite !ContainsKey_spec. unfold in_range; simpl. intros [Hc Hd].
      split; [|done]. eauto using key_le_trans, key_lt_le.
  - unfold range_wf; simpl. by apply (Next_le (GetKey t)).
Qed.

Lemma NewIterator_ok store n r : range_valid r → iter_ok store n (NewIterator r).
Proof. by split. Qed.

Lemma ensure_paging_ok store n w i :
  provider_ok store n → iter_ok store n i →
  yields (ensure_paging w i).2 n (tasks_in store (remainingRange i)).
Proof.
  intros Hp [_ Hi]. unfold ensure_paging. destruct (pagingIterator i); [done|].
  by apply NewPagingIterator_yields.
Qed.

Lemma HasNext_ok store n fuel w i :
  provider_ok store n → iter_ok store n i → (n < fuel)%nat →
  ∃ b w' i', HasNext fuel w i = Ok (b, w', i') ∧
    remainingRange i' = remainingRange i ∧ iter_ok store n i' ∧
    (b = false → tasks_in store (remainingRange i) = []) ∧
    (b = true → ∃ p, pagingIterator i' = Some p ∧ ready p).
Proof.
  intros Hp Hi Hf. pose proof (ensure_paging_ok store n w i Hp Hi) as Hy. unfold HasNext.
  destruct (ensure_paging w i) as [w1 p1]. simpl in Hy.
  destruct (HasNext_yields n fuel w1 p1 _ Hy Hf) as (b & w2 & p2 & -> & _ & Hy2 & Hb0 & Hb1).
  simpl. exists b, w2, (mkIterator (remainingRange i) (Some p2)). split; [done|].
  split; [done|]. split; [by split; [apply Hi|]|]. split; [naive_solver|]. eauto.
Qed.

(** One [Next] on a well-behaved iterator that has said it has a next item: it
    returns an error, or the first task of the range with the iterator moved
    past it.  The panic of [Key.Next] is not reachable: a task below the
    exclusive bound of a range does not have the largest key. *)
Lemma Next_ok store n fuel w i p :
  store_sorted store → provider_ok store n → iter_ok store n i → (n < fuel)%nat →
  pagingIterator i = Some p → ready p →
  (∃ err w' i', Next fuel w i = Ok (inl err, w', i') ∧ remainingRange i' = remainingRange i) ∨
  (∃ t w' i', Next fuel w i = Ok (inr t, w', i') ∧ iter_ok store n i' ∧
     ContainsRange (remainingRange i) (remainingRange i') = true ∧
     tasks_in store (remainingRange i) = t :: tasks_in store (remainingRange i')).
Proof.
  intros Hst Hp [Hv Hy] Hf Hpg Hready. rewrite Hpg in Hy. destruct fuel as [|fuel]; [lia|].
  unfold Next, HasNext, ensure_paging. rewrite Hpg, HasNext_ready by done.
  cbn [obind negb pagingIterator remainingRange].
  destruct (Next_total fuel w p Hready) as (r & w4 & p4 & EN). rewrite EN. cbn [obind].
  destruct r as [err|t]; [left; by do 3 eexists|right].
  destruct (Next_yields n (S fuel) w p t w4 p4 _ Hy Hf EN) as (rest & Et & Hy4 & _).
  assert (Hin : t ∈ tasks_in store (remainingRange i)) by (rewrite Et; left).
  apply tasks_in_elem in Hin as [[Hlo Hhi] Hin].
  assert (Hvt : valid_key (GetKey t)) by (destruct Hst as [_ Ha]; rewrite Forall_forall in Ha; auto).
  destruct (TaskKey.Next (GetKey t)) as [k|] eqn:Ek.
  2: { pose proof (Next_pos _ Hvt) as Hm. rewrite Ek in Hm. rewrite Hm in Hhi.
       destruct Hv as (_ & Hmax & _). apply valid_key_bounds in Hmax as [_ Hmax]. done. }
  destruct (tasks_in_next store _ t rest k Hst Hv Et Ek) as [-> Hv'].
  do 3 eexists. split; [done|]. split; [by split|]. split; [|done].
  apply ContainsRange_spec. simpl. split; [|apply key_le_refl].
  eapply key_le_trans; [exact Hlo|]. by apply key_lt_le, (Next_lt (GetKey t)).
Qed.
End iterator.
