(* ===== verification/PriorityQueue.v ===== *)
(** * The priority queue: [common/collection/priority_queue.go]

    A binary heap in a slice of items, with the operations of Go's
    [container/heap] ([Init], [Push], [Pop] with their helpers [up] and [down]),
    which the methods of [priorityQueueImpl] call back into.  An index out
    of range is the panic [None].  The order [compareLess] is a parameter;
    [LessLaws] is what a comparison of priorities satisfies. *)
From S2P Require Import Prelude.

Class LessLaws {T : Type} (less : T → T → bool) := {
  less_asym x y : less x y = true → less y x = false;
  less_neg_trans x y z : less x y = false → less y z = false → less x z = false;
}.

Section heap.
Context {T : Type} (compareLess : T → T → bool).
Implicit Types (h : list T) (i j k : nat).

(** ** The heap's interface *)

Definition Less (h : list T) (i j : nat) : option bool :=
  x ← h !! i; y ← h !! j; Some (compareLess x y).
Definition Swap (h : list T) (i j : nat) : option (list T) :=
  x ← h !! i; y ← h !! j; Some (<[j := x]> (<[i := y]> h)).
Definition heap_Push (h : list T) (item : T) : list T := h ++ [item].
Definition heap_Pop (h : list T) : option (T * list T) :=
  x ← last h; Some (x, take (length h - 1) h).

(** ** [container/heap]

    Each turn of [up] moves towards the root and each turn of [down] away from
    it, so the index and the length bound the turns. *)

Fixpoint up (fuel : nat) (h : list T) (j : nat) : option (list T) :=
  match fuel with
  | O => None
  | S fuel =>
      let i := ((j - 1) / 2)%nat in
      if (i =? j)%nat then Some h
      else
        b ← Less h j i;
        if negb b then Some h else h ← Swap h i j; up fuel h i
  end.

Fixpoint down (fuel : nat) (h : list T) (i n : nat) : option (list T) :=
  match fuel with
  | O => None
  | S fuel =>
      let j1 := (2 * i + 1)%nat in
      if (n <=? j1)%nat then Some h
      else
        let j2 := (j1 + 1)%nat in
        right_smaller ← (if (j2 <? n)%nat then Less h j2 j1 else Some false);
        let j := if right_smaller : bool then j2 else j1 in
        b ← Less h j i;
        if negb b then Some h else h ← Swap h i j; down fuel h j n
  end.

(** [for i := n/2 - 1; i >= 0; i--], the argument being one more than [i]. *)
Fixpoint init_loop (h : list T) (i n : nat) : option (list T) :=
  match i with
  | O => Some h
  | S i => h ← down (S n) h i n; init_loop h i n
  end.

(** ** The priority queue *)

Definition NewPriorityQueue : list T := [].
Definition NewPriorityQueueWithItems (items : list T) : option (list T) :=
  init_loop items (length items / 2) (length items).
Definition IsEmpty (h : list T) : bool := (length h =? 0)%nat.
Definition Peek (h : list T) : option T := if IsEmpty h then None else h !! 0%nat.
Definition Add (h : list T) (item : T) : option (list T) :=
  let h := heap_Push h item in up (S (length h)) h (length h - 1).
Definition Remove (h : list T) : option (T * list T) :=
  match length h with
  | O => None
  | S n => h ← Swap h 0 n; h ← down (S n) h 0 n; heap_Pop h
  end.

(** ** The heap order *)

Definition parent (k : nat) : nat := ((k - 1) / 2)%nat.

(** Item [k] is not less than item [i]. *)
Definition above h i k : Prop := ∀ x y, h !! i = Some x → h !! k = Some y → compareLess y x = false.

(** Among the first [n] items each whose parent is at [lo] or later is not less
    than its parent, except the children of [hole]; they are not less than the
    parent of the hole. *)
Definition heap_except h lo n (hole : nat → Prop) : Prop :=
  (∀ k, (0 < k < n)%nat → (lo ≤ parent k)%nat → ¬ hole (parent k) → above h (parent k) k) ∧
  (∀ k, (0 < k < n)%nat → hole (parent k) → (0 < parent k)%nat → (lo ≤ parent (parent k))%nat →
     above h (parent (parent k)) k).
Definition heap_from h lo n : Prop :=
  ∀ k, (0 < k < n)%nat → (lo ≤ parent k)%nat → above h (parent k) k.
Definition is_heap h : Prop := heap_from h 0 (length h).

Lemma parent_lt k : (0 < k)%nat → (parent k < k)%nat.
Proof. intros Hk. unfold parent. apply Nat.Div0.div_lt_upper_bound. lia. Qed.
Lemma parent_children k i : (0 < k)%nat → parent k = i → k = (2 * i + 1)%nat ∨ k = (2 * i + 2)%nat.
Proof. unfold parent. intros Hk <-. pose proof (Nat.div_mod_eq (k - 1) 2). pose proof (Nat.mod_upper_bound (k - 1) 2). lia. Qed.
Lemma parent_left i : parent (2 * i + 1) = i.
Proof. unfold parent. rewrite Nat.add_sub, Nat.mul_comm. by apply Nat.div_mul. Qed.
Lemma parent_right i : parent (2 * i + 2) = i.
Proof. unfold parent. replace (2 * i + 2 - 1)%nat with (1 + i * 2)%nat by lia. by rewrite Nat.div_add. Qed.

(** Where [Swap] moves the items. *)
Definition swapped i j k : nat := if (k =? i)%nat then j else if (k =? j)%nat then i else k.

Lemma Swap_spec h i j :
  (i < length h)%nat → (j < length h)%nat → i ≠ j →
  ∃ h', Swap h i j = Some h' ∧ h' ≡ₚ h ∧ ∀ k, h' !! k = h !! swapped i j k.
Proof.
  intros Hi Hj Hij. destruct (lookup_lt_is_Some_2 h i Hi) as [x Hx]. destruct (lookup_lt_is_Some_2 h j Hj) as [y Hy].
  unfold Swap. rewrite Hx. simpl. rewrite Hy. simpl. eexists. split; [done|]. split.
  - by apply Permutation_insert_swap.
  - intros k. unfold swapped. destruct (Nat.eqb_spec k i) as [->|Hki].
    + rewrite list_lookup_insert_ne by done. by rewrite list_lookup_insert_eq, Hy.
    + destruct (Nat.eqb_spec k j) as [->|Hkj].
      * rewrite list_lookup_insert_eq; [done|]. by rewrite length_insert.
      * by rewrite !list_lookup_insert_ne.
Qed.

Context {LL : LessLaws compareLess}.

Lemma above_trans h i j k : (j < length h)%nat → above h i j → above h j k → above h i k.
Proof.
  intros Hj Hij Hjk x z Hx Hz. destruct (lookup_lt_is_Some_2 h j Hj) as [y Hy].
  eapply less_neg_trans; [by apply Hjk|by apply Hij].
Qed.
Lemma Less_above h i j : (i < length h)%nat → (j < length h)%nat →
  ∃ b, Less h j i = Some b ∧ if b : bool then above h j i else above h i j.
Proof.
  intros Hi Hj. destruct (lookup_lt_is_Some_2 h i Hi) as [x Hx]. destruct (lookup_lt_is_Some_2 h j Hj) as [y Hy].
  unfold Less, above. rewrite Hy. simpl. rewrite Hx. simpl. exists (compareLess y x). split; [done|].
  destruct (compareLess y x) eqn:E; intros ? ? [= <-] [= <-]; [by apply less_asym|done].
Qed.
Lemma above_swapped h h' i j a b :
  (∀ k, h' !! k = h !! swapped i j k) → above h (swapped i j a) (swapped i j b) → above h' a b.
Proof. intros Hl Ha x y. rewrite !Hl. apply Ha. Qed.
Lemma swapped_l i j : swapped i j i = j.
Proof. unfold swapped. by rewrite Nat.eqb_refl. Qed.
Lemma swapped_r i j : swapped i j j = i.
Proof. unfold swapped. rewrite Nat.eqb_refl. by destruct (Nat.eqb_spec j i). Qed.
Lemma swapped_other i j k : k ≠ i → k ≠ j → swapped i j k = k.
Proof. unfold swapped. intros. by destruct (Nat.eqb_spec k i), (Nat.eqb_spec k j). Qed.

(** ** [down] *)

(** The child the loop of [down] looks at is the one no child is less than. *)
Lemma choose_child h i n :
  (2 * i + 1 < n)%nat → (n ≤ length h)%nat →
  ∃ b, (if (2 * i + 1 + 1 <? n)%nat then Less h (2 * i + 1 + 1) (2 * i + 1) else Some false) = Some b ∧
    let j := if b : bool then (2 * i + 1 + 1)%nat else (2 * i + 1)%nat in
    (j < n)%nat ∧ parent j = i ∧ (0 < j)%nat ∧
    ∀ k, (0 < k < n)%nat → parent k = i → above h j k ∨ k = j.
Proof.
  intros Hl Hn. destruct (Nat.ltb_spec (2 * i + 1 + 1) n) as [Hr|Hr].
  - destruct (Less_above h (2 * i + 1) (2 * i + 1 + 1)) as (b & -> & Hb); [lia..|]. exists b. split; [done|].
    destruct b; (split; [lia|]); (split; [rewrite <- ?Nat.add_assoc; apply parent_left || apply parent_right|]); (split; [lia|]);
      intros k [Hk _] [-> | ->]%parent_children; try done.
    + by left.
    + right. lia.
    + by right.
    + left. by rewrite <- Nat.add_assoc in Hb.
  - exists false. split; [done|]. split; [done|]. split; [apply parent_left|]. split; [lia|].
    intros k Hk [-> | ->]%parent_children; [by right|exfalso; lia|lia].
Qed.

Lemma down_spec fuel h lo i n :
  heap_except h lo n (eq i) → (lo ≤ i)%nat → (n ≤ length h)%nat → (n - i < fuel)%nat →
  ∃ h', down fuel h i n = Some h' ∧ h' ≡ₚ h ∧ heap_from h' lo n ∧ ∀ k, (n ≤ k)%nat → h' !! k = h !! k.
Proof.
  revert h i. induction fuel as [|fuel IH]; intros h i [He1 He2] Hlo Hn Hf; [lia|]. cbn [down].
  destruct (Nat.leb_spec n (2 * i + 1)) as [Hleaf|Hl].
  { exists h. split; [done|]. split; [done|]. split; [|done]. intros k Hk Hp. apply He1; [done|done|].
    intros Hi. symmetry in Hi. apply parent_children in Hi; lia. }
  destruct (choose_child h i n) as (b & -> & Hj & Hpj & Hj0 & Hmin); [done..|]. cbn [mbind option_bind].
  set (j := if b then _ else _) in *. clearbody j.
  assert (Hij : (i < j)%nat) by (rewrite <- Hpj; by apply parent_lt).
  destruct (Less_above h i j) as (b' & -> & Hb'); [lia..|]. cbn [mbind option_bind].
  destruct b'; cbn [negb].
  - destruct (Swap_spec h i j) as (h1 & -> & Hperm & Hsw); [lia..|]. cbn [mbind option_bind].
    destruct (IH h1 j) as (h2 & -> & Hp2 & Hh2 & Hk2); [|lia|by rewrite Hperm|lia|].
    + split.
      * intros k Hk Hpk Hne. apply (above_swapped h h1 i j); [done|].
        destruct (decide (parent k = i)) as [Hpi|Hpi].
        -- rewrite Hpi, swapped_l. destruct (Hmin k Hk Hpi) as [Hab| ->]; [|by rewrite swapped_r].
           destruct (decide (k = j)) as [-> |Hkj]; [by rewrite swapped_r|]. rewrite swapped_other; [done| |done].
           intros ->. pose proof (parent_lt i). lia.
        -- rewrite (swapped_other i j (parent k)) by congruence.
           destruct (decide (k = i)) as [-> |Hki]; [rewrite swapped_l; rewrite <- Hpj at 1; apply He2; rewrite ?Hpj; lia|].
           assert (k ≠ j) by (intros ->; congruence). rewrite swapped_other by done. apply He1; [done|done|congruence].
      * intros k Hk Hpk Hp0 Hpp. apply (above_swapped h h1 i j); [done|].
        rewrite <- Hpk, Hpj, swapped_l. pose proof (parent_lt k ltac:(lia)). rewrite swapped_other by lia.
        rewrite Hpk. apply He1; lia.
    + exists h2. split; [done|]. split; [by rewrite Hp2|]. split; [done|]. intros k Hk. rewrite Hk2 by done.
      rewrite Hsw, swapped_other; [done|lia..].
  - exists h. split; [done|]. split; [done|]. split; [|done]. intros k Hk Hpk.
    destruct (decide (i = parent k)) as [Hpi|Hpi]; [|by apply He1]. rewrite <- Hpi.
    destruct (Hmin k Hk (eq_sym Hpi)) as [Hab| ->]; [|done]. eapply above_trans; [|done..]. lia.
Qed.

(** ** [up] *)

(** Only item [j] may be less than its parent, and its children are not less
    than that parent. *)
Definition heap_but h j : Prop :=
  (∀ k, (0 < k < length h)%nat → k ≠ j → above h (parent k) k) ∧
  (∀ k, (0 < k < length h)%nat → parent k = j → (0 < j)%nat → above h (parent j) k).

Lemma heap_but_swap h h1 j :
  heap_but h j → (0 < j < length h)%nat → above h j (parent j) →
  h1 ≡ₚ h → (∀ k, h1 !! k = h !! swapped (parent j) j k) → heap_but h1 (parent j).
Proof.
  intros [Hb1 Hb2] Hj Hless Hperm Hsw. pose proof (parent_lt j ltac:(lia)) as Hlt.
  assert (Hkids : ∀ k, (0 < k < length h)%nat → k ≠ j → parent k = parent j → above h (parent j) k).
  { intros k Hk Hkj Hpk. rewrite <- Hpk. by apply Hb1. }
  assert (Hlen : length h1 = length h) by (by rewrite Hperm). split; rewrite Hlen; intros k Hk.
  - intros Hki. apply (above_swapped h h1 (parent j) j); [done|].
    destruct (decide (k = j)) as [-> |Hkj]; [by rewrite swapped_l, swapped_r|].
    rewrite (swapped_other _ _ k) by done.
    destruct (decide (parent k = parent j)) as [Hpk|Hpk].
    + rewrite Hpk, swapped_l. apply (above_trans _ _ (parent j)); [lia|done|by apply Hkids].
    + destruct (decide (parent k = j)) as [Hpk'|Hpk']; [rewrite Hpk', swapped_r; by apply Hb2; [| |lia]|].
      rewrite swapped_other by done. by apply Hb1.
  - intros Hpk Hp0. apply (above_swapped h h1 (parent j) j); [done|].
    pose proof (parent_lt (parent j) Hp0). rewrite (swapped_other _ _ (parent (parent j))) by lia.
    assert (Hpp : above h (parent (parent j)) (parent j)) by (apply Hb1; lia).
    destruct (decide (k = j)) as [-> |Hkj]; [by rewrite swapped_r|].
    pose proof (parent_lt k ltac:(lia)). rewrite swapped_other by lia.
    eapply above_trans; [|exact Hpp|by apply Hkids]. lia.
Qed.

Lemma up_spec fuel h j :
  heap_but h j → (j < length h)%nat → (j < fuel)%nat →
  ∃ h', up fuel h j = Some h' ∧ h' ≡ₚ h ∧ is_heap h'.
Proof.
  revert h j. induction fuel as [|fuel IH]; intros h j Hb Hj Hf; [lia|]. cbn [up]. fold (parent j).
  destruct (Nat.eqb_spec (parent j) j) as [Heq|Hne].
  { exists h. split; [done|]. split; [done|]. intros k Hk _. apply Hb; [done|]. intros ->. pose proof (parent_lt j). lia. }
  assert (Hj0 : (0 < j)%nat) by (destruct j; [done|lia]). pose proof (parent_lt j Hj0) as Hlt.
  destruct (Less_above h (parent j) j) as (b & -> & Hab); [lia..|]. cbn [mbind option_bind]. destruct b; cbn [negb].
  - destruct (Swap_spec h (parent j) j) as (h1 & -> & Hperm & Hsw); [lia..|]. cbn [mbind option_bind].
    destruct (IH h1 (parent j)) as (h2 & -> & Hp2 & Hh2); [by eapply heap_but_swap|rewrite Hperm; lia|lia|].
    exists h2. split; [done|]. split; [by rewrite Hp2|done].
  - exists h. split; [done|]. split; [done|]. intros k Hk _.
    destruct (decide (k = j)) as [-> |Hkj]; [done|]. by apply Hb.
Qed.

(** ** The operations *)

Lemma init_loop_spec h i n :
  heap_from h i n → (n ≤ length h)%nat → ∃ h', init_loop h i n = Some h' ∧ h' ≡ₚ h ∧ heap_from h' 0 n.
Proof.
  revert h. induction i as [|i IH]; intros h Hh Hn; cbn [init_loop]; [by exists h|].
  destruct (down_spec (S n) h i i n) as (h1 & -> & Hp1 & Hh1 & _); [|lia|done|lia|].
  - split.
    + intros k Hk Hpk Hne. apply Hh; [done|]. lia.
    + intros k Hk Hi Hp0 Hpp. pose proof (parent_lt (parent k) Hp0). lia.
  - cbn [mbind option_bind]. destruct (IH h1) as (h2 & -> & Hp2 & Hh2); [done|by rewrite Hp1|].
    exists h2. split; [done|]. split; [by rewrite Hp2|done].
Qed.

Lemma heap_min h k : is_heap h → (k < length h)%nat → above h 0 k.
Proof.
  intros Hh. induction k as [k IH] using lt_wf_ind. intros Hk. destruct (decide (k = 0%nat)) as [-> |Hk0].
  - intros x y -> [= <-]. destruct (compareLess x x) eqn:E; [|done]. by rewrite (less_asym _ _ E) in E.
  - pose proof (parent_lt k ltac:(lia)) as Hlt. eapply above_trans; [|apply (IH (parent k)); lia|apply Hh; lia]. lia.
Qed.

Lemma take_heap h n : (n ≤ length h)%nat → heap_from h 0 n → is_heap (take n h).
Proof.
  intros Hn Hh k. rewrite length_take_le by done. intros Hk Hpk x y Hx Hy.
  pose proof (parent_lt k ltac:(lia)). rewrite lookup_take_lt in Hx, Hy by lia. by apply (Hh k).
Qed.

Lemma NewPriorityQueueWithItems_spec items :
  ∃ h, NewPriorityQueueWithItems items = Some h ∧ is_heap h ∧ h ≡ₚ items.
Proof.
  unfold NewPriorityQueueWithItems.
  destruct (init_loop_spec items (length items / 2) (length items)) as (h & -> & Hp & Hh); [|done|].
  - intros k Hk Hpk. pose proof (parent_children k _ ltac:(lia) eq_refl).
    pose proof (Nat.div_mod_eq (length items) 2). pose proof (Nat.mod_upper_bound (length items) 2). lia.
  - exists h. split; [done|]. split; [|done]. unfold is_heap. by rewrite (Permutation_length Hp).
Qed.

Lemma Add_spec h item : is_heap h → ∃ h', Add h item = Some h' ∧ is_heap h' ∧ h' ≡ₚ item :: h.
Proof.
  intros Hh. unfold Add, heap_Push. set (h1 := h ++ [item]).
  assert (Hlen : length h1 = S (length h)) by (unfold h1; rewrite length_app; simpl; lia).
  destruct (up_spec (S (length h1)) h1 (length h1 - 1)) as (h2 & -> & Hp & Hh2); [|lia..|].
  - split; rewrite Hlen; intros k Hk; [|intros Hpk ?; pose proof (parent_lt k); lia].
    intros Hkj x y. pose proof (parent_lt k ltac:(lia)). unfold h1. rewrite !lookup_app_l by lia. apply Hh; lia.
  - exists h2. split; [done|]. split; [done|]. rewrite Hp. unfold h1. by rewrite Permutation_app_comm.
Qed.

Lemma Remove_spec h :
  is_heap h →
  match Remove h with
  | None => h = []
  | Some (x, h') => Peek h = Some x ∧ h ≡ₚ x :: h' ∧ is_heap h' ∧ ∀ y, y ∈ h → compareLess y x = false
  end.
Proof.
  intros Hh. unfold Remove. destruct (length h) as [|n] eqn:Hlen; [by apply nil_length_inv|].
  destruct (lookup_lt_is_Some_2 h 0) as [x Hx]; [lia|].
  assert (Hmin : ∀ y, y ∈ h → compareLess y x = false).
  { intros y (k & Hk)%list_elem_of_lookup. apply (heap_min h k); [done| |done|done]. by eapply lookup_lt_Some. }
  assert (Hpeek : Peek h = Some x) by (unfold Peek, IsEmpty; by rewrite Hlen).
  assert (Hswap : ∃ h1, Swap h 0 n = Some h1 ∧ h1 ≡ₚ h ∧ h1 !! n = Some x ∧ heap_except h1 0 n (eq 0%nat)).
  { destruct (decide (n = 0%nat)) as [-> |Hn0].
    - exists h. unfold Swap. rewrite Hx. simpl. rewrite !(list_insert_id h 0 x Hx).
      split; [done|]. split; [done|]. split; [done|]. split; intros; lia.
    - destruct (Swap_spec h 0 n) as (h1 & E1 & Hp1 & Hsw); [lia..|]. exists h1. split; [done|]. split; [done|].
      split; [by rewrite Hsw, swapped_r|]. split; [|lia].
      intros k Hk _ Hne. apply (above_swapped h h1 0 n); [done|]. pose proof (parent_lt k ltac:(lia)).
      rewrite !swapped_other by lia. apply Hh; lia. }
  destruct Hswap as (h1 & -> & Hp1 & Hn1 & He). cbn [mbind option_bind].
  assert (Hl1 : length h1 = S n) by (by rewrite Hp1).
  destruct (down_spec (S n) h1 0 0 n) as (h2 & -> & Hp2 & Hh2 & Hk2); [done|lia|lia|lia|]. cbn [mbind option_bind].
  assert (Hl2 : length h2 = S n) by (by rewrite Hp2). assert (Hx2 : h2 !! n = Some x) by (by rewrite Hk2).
  unfold heap_Pop. rewrite last_lookup, Hl2. cbn [pred]. rewrite Hx2. cbn [mbind option_bind].
  replace (S n - 1)%nat with n by lia.
  split; [done|]. split; [|split; [apply take_heap; [lia|done]|done]].
  rewrite <- Hp1, <- Hp2. rewrite <- (take_drop_middle h2 n x Hx2) at 1.
  rewrite (drop_ge h2 (S n)) by lia. by rewrite <- Permutation_middle, app_nil_r.
Qed.

(** The priority queue is one: building it from items, adding an item and removing one never index out of range and
    stop, keep the heap order and exactly the items (those given, with the one added, without the one removed), and what
    [Remove] returns is what [Peek] shows: an item that no item of the queue is less than. *)
Theorem priority_queue_correct items h item :
  is_heap h →
  (∃ h0, NewPriorityQueueWithItems items = Some h0 ∧ is_heap h0 ∧ h0 ≡ₚ items) ∧
  (∃ h1, Add h item = Some h1 ∧ is_heap h1 ∧ h1 ≡ₚ item :: h) ∧
  match Remove h with
  | None => h = []
  | Some (x, h2) => Peek h = Some x ∧ h ≡ₚ x :: h2 ∧ is_heap h2 ∧ ∀ y, y ∈ h → compareLess y x = false
  end.
Proof.
  intros Hh. split; [apply NewPriorityQueueWithItems_spec|]. split; [by apply Add_spec|by apply Remove_spec].
Qed.
End heap.

(** ** Witness *)

#[local] Instance nat_less_laws : LessLaws Nat.ltb.
Proof.
  split; [intros x y ?%Nat.ltb_lt; apply Nat.ltb_ge; lia|].
  intros x y z ?%Nat.ltb_ge ?%Nat.ltb_ge. apply Nat.ltb_ge. lia.
Qed.

Definition sample_heap : list nat := default [] (NewPriorityQueueWithItems Nat.ltb [5; 3; 8; 1; 9; 2]%nat).

Lemma priority_queue_correct_witness :
  sample_heap = [1; 3; 2; 5; 9; 8]%nat ∧
  match Remove Nat.ltb sample_heap with
  | Some (x, h2) => Peek sample_heap = Some x ∧ sample_heap ≡ₚ x :: h2 ∧ is_heap Nat.ltb h2 ∧
      ∀ y, y ∈ sample_heap → Nat.ltb y x = false
  | None => sample_heap = []
  end.
Proof.
  split; [vm_compute; reflexivity|].
  assert (Hh : is_heap Nat.ltb sample_heap).
  { intros k [H0 Hk] _ x y Hx Hy. change sample_heap with [1; 3; 2; 5; 9; 8]%nat in *. simpl in Hk.
    do 6 (destruct k as [|k]; [vm_compute in Hx, Hy; try lia; simplify_eq; reflexivity|]). lia. }
  exact (proj2 (proj2 (priority_queue_correct Nat.ltb [] sample_heap 0%nat Hh))).
Defined.
