(* ===== verification/Tracker.v ===== *)
(** * Pending tasks of a slice: [service/history/queues/tracker.go], with the
      groupers ([grouper.go]) and what the tracker sees of an executable
      ([executable.go]) *)
From S2P Require Import Prelude TaskKey TaskRange Predicates TaskPredicates TaskScope.
Local Open Scope Z_scope.

(** ** Executables *)

Inductive TaskState :=
  TaskStatePending | TaskStateAborted | TaskStateCancelled | TaskStateAcked | TaskStateNacked.

#[export] Instance TaskState_eq_dec : EqDecision TaskState.
Proof. solve_decision. Defined.

Record Executable := mkExecutable { ex_task : Task; ex_state : TaskState }.

Definition NewExecutable (task : Task) : Executable := mkExecutable task TaskStatePending.

(** An executable is itself a [Task] whose [GetDestination] and
    [StateMachineTaskType] always exist and default to the empty string. *)
Definition as_task (e : Executable) : Task :=
  mkTask (GetKey (ex_task e)) (GetNamespaceID (ex_task e)) (GetType (ex_task e))
    (Some (default "" (GetDestination (ex_task e))))
    (Some (default "" (StateMachineTaskType (ex_task e)))).

Definition Cancel (e : Executable) : Executable :=
  if bool_decide (ex_state e = TaskStatePending) then mkExecutable (ex_task e) TaskStateCancelled else e.
Definition Abort (e : Executable) : Executable :=
  if bool_decide (ex_state e = TaskStatePending) then mkExecutable (ex_task e) TaskStateAborted else e.
Definition Ack (e : Executable) : Executable :=
  if negb (bool_decide (ex_state e = TaskStatePending)) then e
  else mkExecutable (ex_task e) TaskStateAcked.

(** ** Groupers *)

(** A grouper gives each task a group key and turns group keys back into a
    predicate.  Go's key type is [any]; a grouper's [Predicate] is only called
    with keys from its own [Key], which the type of keys makes explicit. *)
Class Grouper (GK : Type) := {
  Grouper_Key : Task → GK;
  Grouper_Predicate : list GK → TaskPredicate;
}.

(** What the slices rely on: the predicate of some keys accepts exactly the
    tasks of those groups, reads a task and its executable alike, and is
    well-formed; so does the key. *)
Class GrouperLaws (GK : Type) {G : Grouper GK} := {
  Grouper_Predicate_spec keys t : Test (Grouper_Predicate keys) t = true ↔ Grouper_Key t ∈ keys;
  Grouper_Predicate_wf keys : Predicates.wf (Grouper_Predicate keys) = true;
  Grouper_Key_as_task e : Grouper_Key (as_task e) = Grouper_Key (ex_task e);
}.

Definition GrouperNamespaceID_Key (task : Task) : string := GetNamespaceID task.
Definition GrouperNamespaceID_Predicate (keys : list string) : TaskPredicate := NewNamespacePredicate keys.
#[export] Instance GrouperNamespaceID : Grouper string :=
  {| Grouper_Key := GrouperNamespaceID_Key; Grouper_Predicate := GrouperNamespaceID_Predicate |}.

Definition GrouperStateMachine_KeyTyped (task : Task) : TaskGroupNamespaceIDAndDestination :=
  let dest := default "" (GetDestination task) in
  let smt := default "" (StateMachineTaskType task) in
  mkTaskGroup smt (GetNamespaceID task) dest.
Definition GrouperStateMachine_Predicate (keys : list TaskGroupNamespaceIDAndDestination) : TaskPredicate :=
  match keys with
  | [] => EmptyImpl
  | _ => NewOutboundTaskPredicate keys
  end.
#[export] Instance GrouperStateMachineNamespaceIDAndDestination : Grouper TaskGroupNamespaceIDAndDestination :=
  {| Grouper_Key := GrouperStateMachine_KeyTyped; Grouper_Predicate := GrouperStateMachine_Predicate |}.

#[export] Instance GrouperNamespaceID_laws : GrouperLaws string.
Proof.
  split; [|done|done]. intros keys t. simpl. rewrite bool_decide_eq_true. apply elem_of_list_to_set.
Qed.
#[export] Instance GrouperStateMachine_laws : GrouperLaws TaskGroupNamespaceIDAndDestination.
Proof.
  split; [|by intros []|done]. intros keys t. destruct keys as [|k keys].
  - simpl. split; [done|]. by intros ?%not_elem_of_nil.
  - unfold Grouper_Predicate, GrouperStateMachineNamespaceIDAndDestination, GrouperStateMachine_Predicate,
      NewOutboundTaskPredicate. cbn [Test leaf_test TaskLeaf_Predicate TaskLeaf_Test OutboundTaskPredicate_Test].
    rewrite bool_decide_eq_true. apply (elem_of_list_to_set (C := gset _)).
Qed.

(** ** The tracker *)

Section tracker.
Context {GK : Type} `{Countable GK} {G : Grouper GK}.

Record executableTracker := mkTracker {
  pendingExecutables : gmap Key Executable;
  pendingPerKey : gmap GK Z;
}.

Definition newExecutableTracker : executableTracker := mkTracker ∅ ∅.

(** [m[k] += d] on a Go map of integers. *)
Definition map_add (k : GK) (d : Z) (m : gmap GK Z) : gmap GK Z :=
  <[k := default 0 (m !! k) + d]> m.

(** The loop of [split]; Go's iteration order is unspecified, the model takes
    that of [map_to_list] and [split_spec] shows the order does not matter. *)
Fixpoint split_loop (thisScope thatScope : Scope) (l : list (Key * Executable))
    (t that : executableTracker) : option (executableTracker * executableTracker) :=
  match l with
  | [] => Some (t, that)
  | (key, executable) :: rest =>
      if Contains thisScope (as_task executable) then split_loop thisScope thatScope rest t that
      else if negb (Contains thatScope (as_task executable)) then None
      else
        let groupKey := Grouper_Key (as_task executable) in
        split_loop thisScope thatScope rest
          (mkTracker (delete key (pendingExecutables t)) (map_add groupKey (-1) (pendingPerKey t)))
          (mkTracker (<[key := executable]> (pendingExecutables that))
                     (map_add groupKey 1 (pendingPerKey that)))
  end.

(** [None] is a panic: a pending task belongs to neither scope. *)
Definition tracker_split (t : executableTracker) (thisScope thatScope : Scope)
    : option (executableTracker * executableTracker) :=
  split_loop thisScope thatScope (map_to_list (pendingExecutables t)) t newExecutableTracker.

Definition merge_step (acc : executableTracker) (kv : Key * Executable) : executableTracker :=
  mkTracker (<[kv.1 := kv.2]> (pendingExecutables acc))
            (map_add (Grouper_Key (as_task kv.2)) 1 (pendingPerKey acc)).

(** The smaller map is folded into the larger one. *)
Definition tracker_merge (t incomingTracker : executableTracker) : executableTracker :=
  let '(this, that) :=
    if (size (pendingExecutables t) <? size (pendingExecutables incomingTracker))%nat
    then (incomingTracker, t) else (t, incomingTracker) in
  fold_left merge_step (map_to_list (pendingExecutables that)) this.

Definition tracker_add (t : executableTracker) (executable : Executable) : executableTracker :=
  mkTracker (<[GetKey (ex_task executable) := executable]> (pendingExecutables t))
            (map_add (Grouper_Key (as_task executable)) 1 (pendingPerKey t)).

Fixpoint shrink_loop (l : list (Key * Executable)) (t : executableTracker)
    (minPendingTaskKey : Key) (tasksCompleted : Z) : executableTracker * Key * Z :=
  match l with
  | [] => (t, minPendingTaskKey, tasksCompleted)
  | (key, executable) :: rest =>
      if bool_decide (ex_state executable = TaskStateAcked) then
        shrink_loop rest
          (mkTracker (delete key (pendingExecutables t))
                     (map_add (Grouper_Key (as_task executable)) (-1) (pendingPerKey t)))
          minPendingTaskKey (tasksCompleted + 1)
      else shrink_loop rest t (MinKey minPendingTaskKey key) tasksCompleted
  end.

(** The second loop drops the groups whose count is zero. *)
Definition tracker_shrink (t : executableTracker) : executableTracker * Key * Z :=
  let '(t, minPendingTaskKey, tasksCompleted) :=
    shrink_loop (map_to_list (pendingExecutables t)) t MaximumKey 0 in
  (mkTracker (pendingExecutables t) (filter (λ kv, kv.2 ≠ 0) (pendingPerKey t)),
   minPendingTaskKey, tasksCompleted).

(** [clear] forgets the pending executables after cancelling each; the second
    component is what the scheduler, which shares them, then sees. *)
Definition tracker_clear (t : executableTracker) : executableTracker * gmap Key Executable :=
  (newExecutableTracker, Cancel <$> pendingExecutables t).

(** ** Counting *)

Definition in_group (g : GK) (e : Executable) : Z :=
  if decide (Grouper_Key (as_task e) = g) then 1 else 0.

(** [pendingPerKey] is exact. *)
Definition counted (t : executableTracker) : Prop :=
  ∀ g, default 0 (pendingPerKey t !! g) = msum (in_group g) (pendingExecutables t).

Lemma map_add_lookup k d m g :
  default 0 (map_add k d m !! g) = default 0 (m !! g) + if decide (k = g) then d else 0.
Proof.
  unfold map_add. rewrite lookup_insert. case_decide; subst; simpl; [done|lia].
Qed.

Lemma counted_delete k e (P : gmap Key Executable) m :
  counted (mkTracker P m) → P !! k = Some e →
  counted (mkTracker (delete k P) (map_add (Grouper_Key (as_task e)) (-1) m)).
Proof.
  intros Hc Hk g. specialize (Hc g). simpl in *. rewrite map_add_lookup, Hc.
  rewrite (msum_delete _ _ _ _ Hk). unfold in_group. case_decide; lia.
Qed.

Lemma counted_insert k e (P : gmap Key Executable) m :
  counted (mkTracker P m) → P !! k = None →
  counted (mkTracker (<[k := e]> P) (map_add (Grouper_Key (as_task e)) 1 m)).
Proof.
  intros Hc Hk g. specialize (Hc g). simpl in *. rewrite map_add_lookup, Hc.
  rewrite (msum_fresh _ _ _ _ Hk). unfold in_group. case_decide; lia.
Qed.

Lemma counted_new : counted newExecutableTracker.
Proof. intros g. done. Qed.

(** [pendingPerKey] counts every pending task at least once.  This is all that
    shrinking a predicate needs, and unlike exactness it survives a merge of
    trackers that share a key and loading a task twice. *)
Definition covered (t : executableTracker) : Prop :=
  ∀ g, msum (in_group g) (pendingExecutables t) ≤ default 0 (pendingPerKey t !! g).

Lemma in_group_nonneg g e : 0 ≤ in_group g e.
Proof. unfold in_group. case_decide; lia. Qed.

Lemma counted_covered t : counted t → covered t.
Proof. intros Hc g. by rewrite Hc. Qed.

Lemma covered_delete k e (P : gmap Key Executable) m :
  covered (mkTracker P m) → P !! k = Some e →
  covered (mkTracker (delete k P) (map_add (Grouper_Key (as_task e)) (-1) m)).
Proof.
  intros Hc Hk g. specialize (Hc g). simpl in *. rewrite map_add_lookup.
  rewrite (msum_delete _ _ _ _ Hk). unfold in_group at 2. case_decide; lia.
Qed.

Lemma covered_insert k e (P : gmap Key Executable) m :
  covered (mkTracker P m) →
  covered (mkTracker (<[k := e]> P) (map_add (Grouper_Key (as_task e)) 1 m)).
Proof.
  intros Hc g. specialize (Hc g). simpl in *. rewrite map_add_lookup, msum_insert.
  assert (0 ≤ from_option (in_group g) 0 (P !! k)).
  { destruct (P !! k); simpl; [apply in_group_nonneg|lia]. }
  unfold in_group at 3. case_decide; lia.
Qed.

Lemma covered_new : covered newExecutableTracker.
Proof. apply counted_covered, counted_new. Qed.

(** ** Splitting *)

Lemma split_loop_spec thisS thatS l t that t1 t2 :
  NoDup l.*1 →
  (∀ k e, (k, e) ∈ l → pendingExecutables t !! k = Some e ∧ pendingExecutables that !! k = None) →
  split_loop thisS thatS l t that = Some (t1, t2) →
  (∀ k, k ∉ l.*1 → pendingExecutables t1 !! k = pendingExecutables t !! k ∧
                   pendingExecutables t2 !! k = pendingExecutables that !! k) ∧
  (∀ k e, (k, e) ∈ l →
     if Contains thisS (as_task e)
     then pendingExecutables t1 !! k = Some e ∧ pendingExecutables t2 !! k = None
     else pendingExecutables t1 !! k = None ∧ pendingExecutables t2 !! k = Some e ∧
          Contains thatS (as_task e) = true) ∧
  (counted t → counted t1) ∧ (counted that → counted t2) ∧
  (covered t → covered t1) ∧ (covered that → covered t2).
Proof.
  revert t that. induction l as [|[k e] l IH]; intros t that Hnd Hl; simpl.
  { intros [= <- <-]. split; [done|]. split; [|done]. intros k e H0. by apply not_elem_of_nil in H0. }
  apply NoDup_cons in Hnd as [Hk Hnd].
  destruct (Hl k e ltac:(left)) as [Hkt Hkthat].
  destruct (Contains thisS (as_task e)) eqn:Ec.
  - intros Hs. destruct (IH t that Hnd ltac:(intros; apply Hl; by right) Hs) as (H1 & H2 & H3).
    split; [intros k' [_ ?]%not_elem_of_cons; auto|]. split; [|done].
    intros k' e' [[= -> ->]|Hin]%elem_of_cons; [|by apply H2].
    rewrite Ec. destruct (H1 k Hk) as [-> ->]. done.
  - destruct (Contains thatS (as_task e)) eqn:Ed; [|done]. simpl. intros Hs.
    eapply IH in Hs as (H1 & H2 & H3 & H4 & H5 & H6); [| done |].
    + split.
      { intros k' [Hne Hn]%not_elem_of_cons. destruct (H1 k' Hn) as [E1 E2]. rewrite E1, E2.
        simpl. by rewrite lookup_delete_ne, lookup_insert_ne by done. }
      split.
      { intros k' e' [[= -> ->]|Hin]%elem_of_cons; [|by apply H2].
        rewrite Ec. destruct (H1 k Hk) as [-> ->]. simpl.
        by rewrite lookup_delete_eq, lookup_insert_eq. }
      destruct t as [P m], that as [P' m']. simpl in *.
      split_and!; intros; [apply H3; by apply counted_delete | apply H4; by apply counted_insert
        | apply H5; by apply covered_delete | apply H6; by apply covered_insert].
    + simpl. intros k' e' Hin. assert (k' ≠ k).
      { intros ->. apply Hk. apply list_elem_of_fmap. by exists (k, e'). }
      rewrite lookup_delete_ne, lookup_insert_ne by done. apply Hl. by right.
Qed.

Lemma split_loop_None thisS thatS l t that :
  split_loop thisS thatS l t that = None →
  ∃ k e, (k, e) ∈ l ∧ Contains thisS (as_task e) = false ∧ Contains thatS (as_task e) = false.
Proof.
  revert t that. induction l as [|[k e] l IH]; intros t that; simpl; [done|].
  destruct (Contains thisS (as_task e)) eqn:Ec.
  - intros (k' & e' & ? & ?)%IH. exists k', e'. split; [by right|done].
  - destruct (Contains thatS (as_task e)) eqn:Ed; simpl.
    + intros (k' & e' & ? & ?)%IH. exists k', e'. split; [by right|done].
    + intros _. exists k, e. split; [left|done].
Qed.

Lemma tracker_split_spec t thisS thatS t1 t2 :
  tracker_split t thisS thatS = Some (t1, t2) →
  pendingExecutables t1 = filter (λ kv, Contains thisS (as_task kv.2) = true) (pendingExecutables t) ∧
  pendingExecutables t2 = filter (λ kv, Contains thisS (as_task kv.2) = false) (pendingExecutables t) ∧
  (∀ k e, pendingExecutables t2 !! k = Some e → Contains thatS (as_task e) = true) ∧
  (counted t → counted t1 ∧ counted t2) ∧ (covered t → covered t1 ∧ covered t2).
Proof.
  unfold tracker_split. intros Hs.
  eapply split_loop_spec in Hs as (H1 & H2 & H3 & H4 & H5 & H6); [| apply NoDup_fst_map_to_list |].
  2: { intros k e Hin%elem_of_map_to_list. split; [done|apply lookup_empty]. }
  assert (Hcase : ∀ k, match pendingExecutables t !! k with
    | None => pendingExecutables t1 !! k = None ∧ pendingExecutables t2 !! k = None
    | Some e =>
       if Contains thisS (as_task e)
       then pendingExecutables t1 !! k = Some e ∧ pendingExecutables t2 !! k = None
       else pendingExecutables t1 !! k = None ∧ pendingExecutables t2 !! k = Some e ∧
            Contains thatS (as_task e) = true
    end).
  { intros k. destruct (pendingExecutables t !! k) as [e|] eqn:E.
    - by apply H2, elem_of_map_to_list.
    - destruct (H1 k) as [-> ->]; [|split; [done|apply lookup_empty]].
      intros ([k' e] & -> & Hin%elem_of_map_to_list)%list_elem_of_fmap. simpl in *. congruence. }
  split; [|split; [|split; [|split]]].
  - apply map_eq. intros k. apply option_eq. intros e'. rewrite map_lookup_filter_Some. simpl.
    specialize (Hcase k). destruct (pendingExecutables t !! k) as [e|].
    + destruct (Contains thisS (as_task e)) eqn:E; destruct Hcase as [Ha Hb];
        [|destruct Hb as [Hb _]]; rewrite ?Ha, ?Hb; split; naive_solver congruence.
    + destruct Hcase as [Ha Hb]. rewrite ?Ha, ?Hb. naive_solver.
  - apply map_eq. intros k. apply option_eq. intros e'. rewrite map_lookup_filter_Some. simpl.
    specialize (Hcase k). destruct (pendingExecutables t !! k) as [e|].
    + destruct (Contains thisS (as_task e)) eqn:E; destruct Hcase as [Ha Hb];
        [|destruct Hb as [Hb _]]; rewrite ?Ha, ?Hb; split; naive_solver congruence.
    + destruct Hcase as [Ha Hb]. rewrite ?Ha, ?Hb. naive_solver.
  - intros k e Hk. specialize (Hcase k). rewrite Hk in Hcase.
    destruct (pendingExecutables t !! k) as [e'|]; [|naive_solver].
    destruct (Contains thisS (as_task e')); naive_solver.
  - intros Hc. split; [by apply H3 | apply H4, counted_new].
  - intros Hc. split; [by apply H5 | apply H6, covered_new].
Qed.

Lemma tracker_split_total t thisS thatS :
  (∀ k e, pendingExecutables t !! k = Some e →
     Contains thisS (as_task e) = true ∨ Contains thatS (as_task e) = true) →
  is_Some (tracker_split t thisS thatS).
Proof.
  intros Hall. destruct (tracker_split t thisS thatS) eqn:E; [eauto|].
  apply split_loop_None in E as (k & e & Hin%elem_of_map_to_list & E1 & E2).
  destruct (Hall k e Hin); congruence.
Qed.

(** ** Merging *)

Lemma merge_fold_pending l t :
  pendingExecutables (fold_left merge_step l t)
    = fold_left (λ m kv, <[kv.1 := kv.2]> m) l (pendingExecutables t).
Proof. revert t. induction l as [|kv l IH]; intros t; simpl; [done|]. by rewrite IH. Qed.

Lemma fold_insert_lookup (l : list (Key * Executable)) (m : gmap Key Executable) k :
  NoDup l.*1 →
  fold_left (λ m kv, <[kv.1 := kv.2]> m) l m !! k =
    match (list_to_map l : gmap Key Executable) !! k with Some e => Some e | None => m !! k end.
Proof.
  revert m. induction l as [|[k' e] l IH]; intros m Hnd; simpl; [done|].
  apply NoDup_cons in Hnd as [Hk Hnd]. rewrite IH by done.
  destruct (decide (k = k')) as [->|Hne].
  - rewrite !lookup_insert_eq, not_elem_of_list_to_map_1 by done. done.
  - by rewrite !lookup_insert_ne by done.
Qed.

(** The pending tasks are the union of the two; on a common key the smaller
    tracker's executable wins. *)
Lemma tracker_merge_lookup t i k :
  pendingExecutables (tracker_merge t i) !! k =
    if (size (pendingExecutables t) <? size (pendingExecutables i))%nat
    then (pendingExecutables t ∪ pendingExecutables i) !! k
    else (pendingExecutables i ∪ pendingExecutables t) !! k.
Proof.
  unfold tracker_merge. destruct (_ <? _)%nat; rewrite merge_fold_pending, fold_insert_lookup,
    list_to_map_to_list by apply NoDup_fst_map_to_list; rewrite lookup_union;
    repeat (destruct (_ !! k); try done).
Qed.

Lemma merge_fold_counted l t :
  NoDup l.*1 → (∀ k e, (k, e) ∈ l → pendingExecutables t !! k = None) →
  counted t → counted (fold_left merge_step l t).
Proof.
  revert t. induction l as [|[k e] l IH]; intros t Hnd Hl Hc; simpl; [done|].
  apply NoDup_cons in Hnd as [Hk Hnd]. apply IH; [done| |].
  - intros k' e' Hin. simpl. rewrite lookup_insert_ne.
    + eapply Hl. right. done.
    + intros <-. apply Hk, list_elem_of_fmap. by exists (k, e').
  - destruct t as [P m]. apply counted_insert; [done|]. eapply (Hl k e). left.
Qed.

Lemma merge_fold_count l t g :
  default 0 (pendingPerKey (fold_left merge_step l t) !! g)
    = default 0 (pendingPerKey t !! g) + foldr (λ kv acc, acc + in_group g kv.2) 0 l.
Proof.
  revert t. induction l as [|[k e] l IH]; intros t; simpl; [lia|].
  rewrite IH. simpl. rewrite map_add_lookup. change (in_group g e) with (if decide (Grouper_Key (as_task e) = g) then 1 else 0).
  case_decide; lia.
Qed.

(** The count of a group after a merge is the sum of its pending tasks on
    both sides, shared keys included. *)
Lemma tracker_merge_count t i g :
  counted t → counted i →
  default 0 (pendingPerKey (tracker_merge t i) !! g)
    = msum (in_group g) (pendingExecutables t) + msum (in_group g) (pendingExecutables i).
Proof.
  intros Ht Hi. unfold tracker_merge. destruct (_ <? _)%nat;
    rewrite merge_fold_count, <- msum_to_list, ?Ht, ?Hi; lia.
Qed.

(** The counts stay exact when the trackers share no key. *)
Lemma tracker_merge_counted t i :
  pendingExecutables t ##ₘ pendingExecutables i → counted t → counted i →
  counted (tracker_merge t i).
Proof.
  intros Hd Ht Hi. unfold tracker_merge. destruct (_ <? _)%nat.
  - apply merge_fold_counted; [apply NoDup_fst_map_to_list| |done].
    intros k e Hin%elem_of_map_to_list. by eapply map_disjoint_Some_l.
  - apply merge_fold_counted; [apply NoDup_fst_map_to_list| |done].
    intros k e Hin%elem_of_map_to_list. by eapply map_disjoint_Some_r.
Qed.

(** ** Shrinking *)

Lemma shrink_loop_spec l t k0 n0 t1 k1 n1 :
  NoDup l.*1 → (∀ k e, (k, e) ∈ l → pendingExecutables t !! k = Some e) →
  shrink_loop l t k0 n0 = (t1, k1, n1) →
  (∀ k, k ∉ l.*1 → pendingExecutables t1 !! k = pendingExecutables t !! k) ∧
  (∀ k e, (k, e) ∈ l →
     pendingExecutables t1 !! k = if bool_decide (ex_state e = TaskStateAcked) then None else Some e) ∧
  ((counted t → counted t1) ∧ (covered t → covered t1)) ∧
  n1 = n0 + Z.of_nat (length (filter (λ kv, ex_state kv.2 = TaskStateAcked) l)) ∧
  key_le k1 k0 ∧
  (∀ k e, (k, e) ∈ l → ex_state e ≠ TaskStateAcked → key_le k1 k) ∧
  (k1 = k0 ∨ ∃ e, (k1, e) ∈ l ∧ ex_state e ≠ TaskStateAcked).
Proof.
  revert t k0 n0. induction l as [|[k e] l IH]; intros t k0 n0 Hnd Hl; simpl.
  { intros [= <- <- <-]. split; [done|]. split; [set_solver|]. split; [done|].
    split; [simpl; lia|]. split; [apply key_le_refl|]. split; [set_solver|by left]. }
  apply NoDup_cons in Hnd as [Hk Hnd]. pose proof (Hl k e ltac:(left)) as Hke.
  rewrite filter_cons. simpl. case_bool_decide as Ea; intros Hs.
  - rewrite decide_True by done. apply IH in Hs as (H1 & H2 & H3 & H4 & H5 & H6 & H7); [|done|].
    + split.
      { intros k' [Hne Hn]%not_elem_of_cons. rewrite H1 by done. simpl. by rewrite lookup_delete_ne. }
      split.
      { intros k' e' [[= -> ->]|Hin]%elem_of_cons; [|by apply H2].
        rewrite bool_decide_true by done. rewrite H1 by done. apply lookup_delete_eq. }
      split; [destruct t; split; intros; apply H3; [by apply counted_delete | by apply covered_delete]|].
      split; [simpl; lia|]. split; [done|]. split.
      { intros k' e' [[= -> ->]|Hin]%elem_of_cons ?; [done|by eapply H6]. }
      destruct H7 as [?|(e' & ? & ?)]; [by left|right; exists e'; split; [by right|done]].
    + simpl. intros k' e' Hin. rewrite lookup_delete_ne; [apply Hl; by right|].
      intros <-. apply Hk, list_elem_of_fmap. by exists (k, e').
  - rewrite decide_False by done. apply IH in Hs as (H1 & H2 & H3 & H4 & H5 & H6 & H7);
      [|done|intros; apply Hl; by right].
    assert (Hmin : key_le (MinKey k0 k) k0 ∧ key_le (MinKey k0 k) k ∧ (MinKey k0 k = k0 ∨ MinKey k0 k = k)).
    { destruct (key_le_total k0 k); [rewrite MinKey_l|rewrite MinKey_r]; auto using key_le_refl. }
    destruct Hmin as (Hm1 & Hm2 & Hm3).
    split; [intros k' [_ ?]%not_elem_of_cons; auto|]. split.
    { intros k' e' [[= -> ->]|Hin]%elem_of_cons; [|by apply H2].
      rewrite bool_decide_false by done. by rewrite H1. }
    split; [done|]. split; [done|]. split; [by eapply key_le_trans|]. split.
    { intros k' e' [[= -> ->]|Hin]%elem_of_cons ?; [by eapply key_le_trans|by eapply H6]. }
    destruct H7 as [->|(e' & ? & ?)]; [|right; exists e'; split; [by right|done]].
    destruct Hm3 as [->| ->]; [by left|right; exists e; split; [left|done]].
Qed.

Lemma covered_group t k e :
  covered t → pendingExecutables t !! k = Some e →
  0 < default 0 (pendingPerKey t !! Grouper_Key (as_task e)).
Proof.
  intros Hc Hk. specialize (Hc (Grouper_Key (as_task e))).
  assert (0 < msum (in_group (Grouper_Key (as_task e))) (pendingExecutables t)).
  { apply msum_pos; [apply in_group_nonneg|]. exists k, e. split; [done|].
    unfold in_group. by rewrite decide_True. }
  lia.
Qed.

Lemma counted_group t g :
  counted t →
  0 < default 0 (pendingPerKey t !! g) ↔
  ∃ k e, pendingExecutables t !! k = Some e ∧ Grouper_Key (as_task e) = g.
Proof.
  intros Hc. rewrite Hc, msum_pos by apply in_group_nonneg. unfold in_group.
  split; intros (k & e & ? & Hg); exists k, e; (split; [done|]); case_decide; try lia; done.
Qed.

Lemma tracker_shrink_spec t t' k n :
  tracker_shrink t = (t', k, n) →
  pendingExecutables t' = filter (λ kv, ex_state kv.2 ≠ TaskStateAcked) (pendingExecutables t) ∧
  n = Z.of_nat (length (filter (λ kv, ex_state kv.2 = TaskStateAcked) (map_to_list (pendingExecutables t)))) ∧
  key_le k MaximumKey ∧
  (∀ k' e, pendingExecutables t' !! k' = Some e → key_le k k') ∧
  (k = MaximumKey ∨ ∃ e, pendingExecutables t' !! k = Some e) ∧
  (counted t → counted t' ∧
     ∀ g, is_Some (pendingPerKey t' !! g) ↔
          ∃ k' e, pendingExecutables t' !! k' = Some e ∧ Grouper_Key (as_task e) = g) ∧
  (covered t → covered t' ∧
     ∀ k' e, pendingExecutables t' !! k' = Some e → is_Some (pendingPerKey t' !! Grouper_Key (as_task e))).
Proof.
  unfold tracker_shrink.
  destruct (shrink_loop _ t MaximumKey 0) as [[t1 k1] n1] eqn:Es. intros [= <- <- <-].
  apply shrink_loop_spec in Es as (H1 & H2 & H3 & -> & H5 & H6 & H7);
    [|apply NoDup_fst_map_to_list|by intros ? ? ?%elem_of_map_to_list]. simpl.
  assert (HP : pendingExecutables t1 =
    filter (λ kv, ex_state kv.2 ≠ TaskStateAcked) (pendingExecutables t)).
  { apply map_eq. intros k. apply option_eq. intros e'. rewrite map_lookup_filter_Some. simpl.
    destruct (pendingExecutables t !! k) as [e|] eqn:E.
    - rewrite (H2 k e) by (by apply elem_of_map_to_list). case_bool_decide; naive_solver.
    - rewrite H1; [rewrite E; naive_solver|].
      intros ([k' e] & -> & Hin%elem_of_map_to_list)%list_elem_of_fmap. simpl in *. congruence. }
  assert (Hd : ∀ g, default 0 (filter (λ kv, kv.2 ≠ 0) (pendingPerKey t1) !! g)
                    = default 0 (pendingPerKey t1 !! g)).
  { intros g. destruct (filter _ (pendingPerKey t1) !! g) as [c|] eqn:E.
    - apply map_lookup_filter_Some in E as [-> _]. done.
    - apply map_lookup_filter_None in E as [-> | E]; [done|].
      destruct (pendingPerKey t1 !! g) as [c|]; [|done]. specialize (E c eq_refl). simpl in *.
      destruct (decide (c = 0)); [done|]. by exfalso; apply E. }
  split; [done|]. split; [lia|]. split; [done|]. split; [|split; [|split]].
  - intros k' e Hk. rewrite HP, map_lookup_filter_Some in Hk. destruct Hk as [Hk Hs].
    apply (H6 k' e); [by apply elem_of_map_to_list|done].
  - destruct H7 as [->|(e & Hin%elem_of_map_to_list & Hs)]; [by left|right].
    exists e. rewrite HP. by apply map_lookup_filter_Some.
  - intros Hc. destruct H3 as [H3 _]. specialize (H3 Hc). destruct t1 as [P m]. simpl in *.
    split.
    + intros g. simpl. rewrite Hd. apply H3.
    + intros g. rewrite <- (counted_group (mkTracker P m)) by done. simpl.
      pose proof (H3 g) as Hg. simpl in Hg.
      pose proof (msum_nonneg (in_group g) P (in_group_nonneg g)).
      specialize (Hd g). destruct (filter _ m !! g) as [c|] eqn:E; simpl in Hd.
      * apply map_lookup_filter_Some in E as [E Hne]. simpl in Hne.
        split; [intros _|eauto]. rewrite <- Hd. rewrite E in Hg. simpl in *. lia.
      * split; [by intros [? ?]|lia].
  - intros Hc. destruct H3 as [_ H3]. specialize (H3 Hc). split.
    + intros g. simpl. rewrite Hd. apply H3.
    + intros k' e Hk. pose proof (covered_group t1 k' e H3 Hk) as Hpos. rewrite <- Hd in Hpos.
      destruct (filter _ _ !! _); [done|simpl in *; lia].
Qed.

Lemma merge_fold_covered l t : covered t → covered (fold_left merge_step l t).
Proof.
  revert t. induction l as [|[k e] l IH]; intros [P m] Hc; simpl; [done|].
  apply IH. by apply covered_insert.
Qed.
Lemma tracker_merge_covered t i : covered t → covered i → covered (tracker_merge t i).
Proof.
  intros. unfold tracker_merge. destruct (_ <? _)%nat; by apply merge_fold_covered.
Qed.
Lemma tracker_add_covered t e : covered t → covered (tracker_add t e).
Proof. destruct t. apply covered_insert. Qed.
End tracker.
Arguments executableTracker GK {_ _}.

(** ** Properties *)

(** Splitting a tracker between two scopes, in whatever order the map is walked, panics only if
    some pending executable belongs to neither scope; otherwise the first keeps exactly the
    executables of the first scope, the second gets the rest, nothing is lost or duplicated, and
    exact per-group counts stay exact on both sides. *)
Theorem tracker_split_correct (t : executableTracker string) thisScope thatScope :
  counted t →
  match tracker_split t thisScope thatScope with
  | None => ∃ k e, pendingExecutables t !! k = Some e ∧
              Contains thisScope (as_task e) = false ∧ Contains thatScope (as_task e) = false
  | Some (t1, t2) =>
      pendingExecutables t1 ∪ pendingExecutables t2 = pendingExecutables t ∧
      pendingExecutables t1 ##ₘ pendingExecutables t2 ∧
      (∀ k e, pendingExecutables t1 !! k = Some e → Contains thisScope (as_task e) = true) ∧
      (∀ k e, pendingExecutables t2 !! k = Some e →
         Contains thisScope (as_task e) = false ∧ Contains thatScope (as_task e) = true) ∧
      counted t1 ∧ counted t2
  end.
Proof.
  intros Hc. destruct (tracker_split t thisScope thatScope) as [[t1 t2]|] eqn:E.
  - apply tracker_split_spec in E as (E1 & E2 & E3 & E4 & _).
    split; [|split; [|split; [|split; [|by apply E4]]]].
    + rewrite E1, E2. apply map_eq. intros k. apply option_eq. intros e.
      rewrite lookup_union_Some_raw, map_lookup_filter_Some, map_lookup_filter_None, map_lookup_filter_Some.
      simpl. destruct (pendingExecutables t !! k) as [e'|]; [|naive_solver].
      destruct (Contains thisScope (as_task e')) eqn:Ec; split; intros; naive_solver congruence.
    + apply map_disjoint_spec. intros k e e'. rewrite E1, E2, !map_lookup_filter_Some. naive_solver congruence.
    + intros k e. rewrite E1, map_lookup_filter_Some. naive_solver.
    + intros k e Hk. split; [|by eapply E3]. rewrite E2, map_lookup_filter_Some in Hk. naive_solver.
  - apply split_loop_None in E as (k & e & Hin%elem_of_map_to_list & ? & ?). eauto.
Qed.

Definition sample_task (id : Z) (ns : string) : Task := mkTask (mkKey 0 id) ns 1 None None.
Definition sample_tracker : executableTracker string :=
  tracker_add (tracker_add newExecutableTracker (NewExecutable (sample_task 3 "n1")))
    (NewExecutable (sample_task 7 "n2")).

Lemma sample_tracker_counted : counted sample_tracker.
Proof. repeat apply counted_insert; try done; apply counted_new. Qed.

Definition size_of (t : executableTracker string) : nat := size (pendingExecutables t).

Lemma tracker_split_correct_witness :
  let l := mkScope (mkRange (mkKey 0 1) (mkKey 0 5)) UniversalImpl in
  let r := mkScope (mkRange (mkKey 0 5) (mkKey 0 9)) UniversalImpl in
  match tracker_split sample_tracker l r with
  | Some (t1, t2) => counted t1 ∧ counted t2 ∧ size_of t1 = 1%nat ∧ size_of t2 = 1%nat
  | None => False
  end.
Proof.
  intros l r. pose proof (tracker_split_correct sample_tracker l r sample_tracker_counted) as H.
  assert (E : match tracker_split sample_tracker l r with
              | Some (t1, t2) => size_of t1 = 1%nat ∧ size_of t2 = 1%nat | None => False end)
    by (vm_compute; done).
  destruct (tracker_split sample_tracker l r) as [[t1 t2]|]; [|done]. naive_solver.
Defined.

(** [merge] keeps every pending executable of both trackers, and the count of a group becomes
    the sum of its pending tasks on both sides; this is the number of its pending tasks when the
    trackers share no key, while each shared key of the group is counted twice. *)
Theorem tracker_merge_correct (t i : executableTracker string) :
  counted t → counted i →
  (∀ k, is_Some (pendingExecutables (tracker_merge t i) !! k) ↔
        is_Some (pendingExecutables t !! k) ∨ is_Some (pendingExecutables i !! k)) ∧
  (∀ g, default 0 (pendingPerKey (tracker_merge t i) !! g)
        = msum (in_group g) (pendingExecutables t) + msum (in_group g) (pendingExecutables i)) ∧
  (pendingExecutables t ##ₘ pendingExecutables i → counted (tracker_merge t i)).
Proof.
  intros Ht Hi. split; [|split; [by intros; apply tracker_merge_count | by intros; apply tracker_merge_counted]].
  intros k. rewrite tracker_merge_lookup.
  destruct (_ <? _)%nat; rewrite lookup_union;
    destruct (pendingExecutables t !! k), (pendingExecutables i !! k); simpl;
    split; intros; destruct_or?; eauto; naive_solver.
Qed.

(** Two trackers that hold the same task: after the merge one task is pending
    and its group's count is two. *)
Lemma tracker_merge_correct_witness :
  counted sample_tracker ∧
  size_of (tracker_merge sample_tracker sample_tracker) = 2%nat ∧
  default 0 (pendingPerKey (tracker_merge sample_tracker sample_tracker) !! "n1") = 2 ∧
  msum (in_group "n1") (pendingExecutables sample_tracker) = 1 ∧
  ∀ g, default 0 (pendingPerKey (tracker_merge sample_tracker sample_tracker) !! g)
       = msum (in_group g) (pendingExecutables sample_tracker)
         + msum (in_group g) (pendingExecutables sample_tracker).
Proof.
  split; [exact sample_tracker_counted|]. split; [vm_compute; reflexivity|].
  split; [vm_compute; reflexivity|]. split; [vm_compute; reflexivity|].
  exact (proj1 (proj2 (tracker_merge_correct sample_tracker sample_tracker
    sample_tracker_counted sample_tracker_counted))).
Defined.

(** [shrink] removes exactly the acknowledged executables and reports how many; the key it returns
    is a lower bound of the remaining ones and is attained (or [MaximumKey] when none is left);
    exact counts stay exact and exactly the groups with a pending task keep an entry, which is
    what the predicate of a shrunken slice is built from. *)
Theorem tracker_shrink_correct (t : executableTracker string) :
  counted t →
  let '(t', k, n) := tracker_shrink t in
  pendingExecutables t' = filter (λ kv, ex_state kv.2 ≠ TaskStateAcked) (pendingExecutables t) ∧
  n = Z.of_nat (length (filter (λ kv, ex_state kv.2 = TaskStateAcked) (map_to_list (pendingExecutables t)))) ∧
  (∀ k' e, pendingExecutables t' !! k' = Some e → key_le k k') ∧
  (k = MaximumKey ∨ is_Some (pendingExecutables t' !! k)) ∧
  counted t' ∧
  ∀ g, is_Some (pendingPerKey t' !! g) ↔
       ∃ k' e, pendingExecutables t' !! k' = Some e ∧ Grouper_Key (as_task e) = g.
Proof.
  intros Hc. destruct (tracker_shrink t) as [[t' k] n] eqn:E.
  apply tracker_shrink_spec in E as (H1 & H2 & _ & H4 & H5 & H6 & _). destruct (H6 Hc).
  repeat split; try done; naive_solver.
Qed.

Definition acked_tracker : executableTracker string :=
  tracker_add sample_tracker (Ack (NewExecutable (sample_task 9 "n3"))).

Lemma tracker_shrink_correct_witness :
  counted acked_tracker ∧
  let '(t', k, n) := tracker_shrink acked_tracker in
  k = mkKey 0 3 ∧ n = 1 ∧ size_of t' = 2%nat ∧ counted t'.
Proof.
  assert (Hc : counted acked_tracker).
  { apply counted_insert; [apply sample_tracker_counted | vm_compute; reflexivity]. }
  split; [exact Hc|].
  pose proof (tracker_shrink_correct acked_tracker Hc) as H.
  assert (E : let '(t', k, n) := tracker_shrink acked_tracker in
              k = mkKey 0 3 ∧ n = 1 ∧ size_of t' = 2%nat) by (vm_compute; done).
  destruct (tracker_shrink acked_tracker) as [[t' k] n]. naive_solver.
Defined.
