(* ===== verification/Convert.v ===== *)
(** * The persisted form of a queue: [service/history/queues/convert.go]

    [ToPersistence*] turn the state of a queue into the protobuf messages that
    are stored with the shard and [FromPersistence*] read them back when the
    shard is loaded.  A message is a record; a field that holds a pointer to a
    message is an [option], [None] being [nil], and dereferencing [nil] is the
    panic [None] of the reader that does it.  [timestamppb] is a third-party package:
    its pointer type and its two functions are the interface [Timestamppb]. *)
From S2P Require Import Prelude TaskKey TaskRange Predicates TaskPredicates TaskScope Monitor.
Local Open Scope Z_scope.

(** ** Messages *)

Inductive PredicateType :=
  | PREDICATE_TYPE_UNIVERSAL | PREDICATE_TYPE_EMPTY | PREDICATE_TYPE_AND | PREDICATE_TYPE_OR
  | PREDICATE_TYPE_NOT | PREDICATE_TYPE_NAMESPACE_ID | PREDICATE_TYPE_TASK_TYPE
  | PREDICATE_TYPE_DESTINATION | PREDICATE_TYPE_OUTBOUND_TASK_GROUP | PREDICATE_TYPE_OUTBOUND_TASK
  | PREDICATE_TYPE_UNSPECIFIED.

(** [OutboundTaskPredicateAttributes_Group] *)
Record pb_Group := mkPbGroup { pb_TaskGroup : string; pb_NamespaceId : string; pb_Destination : string }.

(** [Predicate]: a type and the oneof [Attributes]. *)
Inductive pb_Predicate :=
  | mkPbPredicate (PredicateType : PredicateType) (Attributes : pb_Attributes)
with pb_Attributes :=
  | NilAttributes
  | UniversalPredicateAttributes
  | EmptyPredicateAttributes
  | AndPredicateAttributes (Predicates : list pb_Predicate)
  | OrPredicateAttributes (Predicates : list pb_Predicate)
  | NotPredicateAttributes (Predicate : option pb_Predicate)
  | NamespaceIdPredicateAttributes (NamespaceIds : list string)
  | TaskTypePredicateAttributes (TaskTypes : list Z)
  | DestinationPredicateAttributes (Destinations : list string)
  | OutboundTaskGroupPredicateAttributes (Groups : list string)
  | OutboundTaskPredicateAttributes (Groups : list pb_Group).

(** [timestamppb]: [New] makes a message of a time, [AsTime] a time of a pointer
    to a message. *)
Class Timestamppb := {
  Timestamp : Type;
  timestamp_New : time → Timestamp;
  AsTime : Timestamp → time;
}.
Class TimestamppbLaws {TS : Timestamppb} := AsTime_New t : AsTime (timestamp_New t) = t.

(** The state of a queue that outlives the process. *)
Record queueState := mkQueueState {
  readerScopes : gmap ReaderID (list Scope);
  exclusiveReaderHighWatermark : Key;
}.

Section convert.
Context {TS : Timestamppb}.

Record pb_TaskKey := mkPbTaskKey { pb_FireTime : Timestamp; pb_TaskId : Z }.
Record pb_QueueSliceRange := mkPbRange { pb_InclusiveMin : option pb_TaskKey; pb_ExclusiveMax : option pb_TaskKey }.
Record pb_QueueSliceScope := mkPbScope { pb_Range : option pb_QueueSliceRange; pb_ScopePredicate : option pb_Predicate }.
Record pb_QueueReaderState := mkPbReaderState { pb_Scopes : list pb_QueueSliceScope }.
Record pb_QueueState := mkPbQueueState {
  pb_ReaderStates : gmap ReaderID pb_QueueReaderState;
  pb_ExclusiveReaderHighWatermark : option pb_TaskKey;
}.

(** ** Keys and ranges *)

Definition ToPersistenceTaskKey (key : Key) : pb_TaskKey :=
  mkPbTaskKey (timestamp_New (FireTime key)) (TaskID key).
Definition FromPersistenceTaskKey (key : option pb_TaskKey) : option Key :=
  key ← key; Some (NewKey (AsTime (pb_FireTime key)) (pb_TaskId key)).

Definition ToPersistenceRange (r : Range) : pb_QueueSliceRange :=
  mkPbRange (Some (ToPersistenceTaskKey (InclusiveMin r))) (Some (ToPersistenceTaskKey (ExclusiveMax r))).
Definition FromPersistenceRange (r : option pb_QueueSliceRange) : option Range :=
  r ← r;
  inclusiveMin ← FromPersistenceTaskKey (pb_InclusiveMin r);
  exclusiveMax ← FromPersistenceTaskKey (pb_ExclusiveMax r);
  NewRange inclusiveMin exclusiveMax.
End convert.

(** ** Predicates *)

Definition ToPersistenceUniversalPredicate : pb_Predicate :=
  mkPbPredicate PREDICATE_TYPE_UNIVERSAL UniversalPredicateAttributes.
Definition ToPersistenceEmptyPredicate : pb_Predicate :=
  mkPbPredicate PREDICATE_TYPE_EMPTY EmptyPredicateAttributes.
Definition ToPersistenceNamespaceIDPredicate (NamespaceIDs : gset string) : pb_Predicate :=
  mkPbPredicate PREDICATE_TYPE_NAMESPACE_ID (NamespaceIdPredicateAttributes (elements NamespaceIDs)).
Definition ToPersistenceTaskTypePredicate (Types : gset Z) : pb_Predicate :=
  mkPbPredicate PREDICATE_TYPE_TASK_TYPE (TaskTypePredicateAttributes (elements Types)).
Definition ToPersistenceDestinationPredicate (Destinations : gset string) : pb_Predicate :=
  mkPbPredicate PREDICATE_TYPE_DESTINATION (DestinationPredicateAttributes (elements Destinations)).
Definition ToPersistenceOutboundTaskGroupPredicate (Groups : gset string) : pb_Predicate :=
  mkPbPredicate PREDICATE_TYPE_OUTBOUND_TASK_GROUP (OutboundTaskGroupPredicateAttributes (elements Groups)).
Definition ToPersistenceOutboundTaskPredicate (Groups : gset TaskGroupNamespaceIDAndDestination) : pb_Predicate :=
  mkPbPredicate PREDICATE_TYPE_OUTBOUND_TASK (OutboundTaskPredicateAttributes
    (map (λ g, mkPbGroup (TaskGroup g) (NamespaceID g) (Destination g)) (elements Groups))).

(** The cases of the junctions and of the negation are
    [ToPersistenceAndPredicate], [ToPersistenceOrPredicate] and
    [ToPersistenceNotPredicate]. *)
Fixpoint ToPersistencePredicate (predicate : TaskPredicate) : pb_Predicate :=
  match predicate with
  | UniversalImpl => ToPersistenceUniversalPredicate
  | EmptyImpl => ToPersistenceEmptyPredicate
  | AndImpl ps => mkPbPredicate PREDICATE_TYPE_AND (AndPredicateAttributes (map ToPersistencePredicate ps))
  | OrImpl ps => mkPbPredicate PREDICATE_TYPE_OR (OrPredicateAttributes (map ToPersistencePredicate ps))
  | NotImpl p => mkPbPredicate PREDICATE_TYPE_NOT (NotPredicateAttributes (Some (ToPersistencePredicate p)))
  | Leaf (NamespacePredicate ids) => ToPersistenceNamespaceIDPredicate ids
  | Leaf (TypePredicate ts) => ToPersistenceTaskTypePredicate ts
  | Leaf (DestinationPredicate ds) => ToPersistenceDestinationPredicate ds
  | Leaf (OutboundTaskGroupPredicate gs) => ToPersistenceOutboundTaskGroupPredicate gs
  | Leaf (OutboundTaskPredicate gs) => ToPersistenceOutboundTaskPredicate gs
  end.

Definition FromPersistenceUniversalPredicate : TaskPredicate := UniversalImpl.
Definition FromPersistenceEmptyPredicate : TaskPredicate := EmptyImpl.
Definition FromPersistenceNamespaceIDPredicate (attributes : pb_Attributes) : option TaskPredicate :=
  match attributes with
  | NamespaceIdPredicateAttributes ids => Some (NewNamespacePredicate ids)
  | _ => None
  end.
Definition FromPersistenceTaskTypePredicate (attributes : pb_Attributes) : option TaskPredicate :=
  match attributes with
  | TaskTypePredicateAttributes ts => Some (NewTypePredicate ts)
  | _ => None
  end.
Definition FromPersistenceDestinationPredicate (attributes : pb_Attributes) : option TaskPredicate :=
  match attributes with
  | DestinationPredicateAttributes ds => Some (NewDestinationPredicate ds)
  | _ => None
  end.
Definition FromPersistenceOutboundTaskGroupPredicate (attributes : pb_Attributes) : option TaskPredicate :=
  match attributes with
  | OutboundTaskGroupPredicateAttributes gs => Some (NewOutboundTaskGroupPredicate gs)
  | _ => None
  end.
Definition FromPersistenceOutboundTaskPredicate (attributes : pb_Attributes) : option TaskPredicate :=
  match attributes with
  | OutboundTaskPredicateAttributes gs =>
      Some (NewOutboundTaskPredicate (map (λ g, mkTaskGroup (pb_TaskGroup g) (pb_NamespaceId g) (pb_Destination g)) gs))
  | _ => None
  end.

(** The getter of each case returns [nil] when the oneof holds another case;
    the universal and the empty predicate do not look at it. *)
Fixpoint FromPersistencePredicate (predicate : pb_Predicate) : option TaskPredicate :=
  let all := fix all (ps : list pb_Predicate) : option (list TaskPredicate) :=
    match ps with
    | [] => Some []
    | p :: ps => p ← FromPersistencePredicate p; ps ← all ps; Some (p :: ps)
    end in
  match predicate with
  | mkPbPredicate PREDICATE_TYPE_UNIVERSAL _ => Some FromPersistenceUniversalPredicate
  | mkPbPredicate PREDICATE_TYPE_EMPTY _ => Some FromPersistenceEmptyPredicate
  | mkPbPredicate PREDICATE_TYPE_AND (AndPredicateAttributes ps) => ps ← all ps; And ps
  | mkPbPredicate PREDICATE_TYPE_OR (OrPredicateAttributes ps) => ps ← all ps; Or ps
  | mkPbPredicate PREDICATE_TYPE_NOT (NotPredicateAttributes (Some p)) => p ← FromPersistencePredicate p; Some (Not p)
  | mkPbPredicate PREDICATE_TYPE_NAMESPACE_ID attributes => FromPersistenceNamespaceIDPredicate attributes
  | mkPbPredicate PREDICATE_TYPE_TASK_TYPE attributes => FromPersistenceTaskTypePredicate attributes
  | mkPbPredicate PREDICATE_TYPE_DESTINATION attributes => FromPersistenceDestinationPredicate attributes
  | mkPbPredicate PREDICATE_TYPE_OUTBOUND_TASK_GROUP attributes => FromPersistenceOutboundTaskGroupPredicate attributes
  | mkPbPredicate PREDICATE_TYPE_OUTBOUND_TASK attributes => FromPersistenceOutboundTaskPredicate attributes
  | _ => None
  end.

Section states.
Context {TS : Timestamppb}.

(** ** Scopes and queue states *)

Definition ToPersistenceScope (sc : Scope) : pb_QueueSliceScope :=
  mkPbScope (Some (ToPersistenceRange (ScopeRange sc))) (Some (ToPersistencePredicate (ScopePredicate sc))).
Definition FromPersistenceScope (sc : pb_QueueSliceScope) : option Scope :=
  r ← FromPersistenceRange (pb_Range sc);
  pb ← pb_ScopePredicate sc;
  p ← FromPersistencePredicate pb;
  Some (NewScope r p).

Definition ToPersistenceQueueState (st : queueState) : pb_QueueState :=
  mkPbQueueState ((λ scopes, mkPbReaderState (map ToPersistenceScope scopes)) <$> readerScopes st)
    (Some (ToPersistenceTaskKey (exclusiveReaderHighWatermark st))).

(** The loop over the readers fills [readerScopes]; a panic in it ends the call. *)
Definition from_readers (l : list (ReaderID * pb_QueueReaderState)) : option (list (ReaderID * list Scope)) :=
  mapM (λ '(id, st), scopes ← mapM FromPersistenceScope (pb_Scopes st); Some (id, scopes)) l.
Definition FromPersistenceQueueState (state : pb_QueueState) : option queueState :=
  l ← from_readers (map_to_list (pb_ReaderStates state));
  watermark ← FromPersistenceTaskKey (pb_ExclusiveReaderHighWatermark state);
  Some (mkQueueState (list_to_map l) watermark).
End states.

(** ** Round trips *)

(** On the children of a well-formed junction, none of which [Equals] another,
    the constructors drop and flatten nothing. *)
Lemma append_new (fl : list TaskPredicate) p :
  (∀ c, c ∈ fl → Predicates.Equals c p = false) → appendPredicates fl [p] = fl ++ [p].
Proof.
  intros Hne. rewrite appendPredicates_app, filter_cons_True; [done|]. by apply existsb_false.
Qed.

Lemma loops_distinct (ps fl : list TaskPredicate) :
  (∀ c p, c ∈ fl → p ∈ ps → Predicates.Equals c p = false) → distinct ps = true →
  ((∀ p, p ∈ ps → and_child p = true) → and_loop ps fl = inr (fl ++ ps)) ∧
  ((∀ p, p ∈ ps → or_child p = true) → or_loop ps fl = inr (fl ++ ps)).
Proof.
  revert fl. induction ps as [|p ps IH]; intros fl Hne Hd; [by rewrite app_nil_r|].
  simpl in Hd. apply andb_true_iff in Hd as [Hp Hd]. rewrite forallb_spec in Hp.
  assert (Hnew : appendPredicates fl [p] = fl ++ [p]).
  { apply append_new. intros c Hc. apply Hne; [done|by left]. }
  destruct (IH (fl ++ [p])) as [IHa IHo]; [|done|].
  { intros c q [Hc|Hc]%elem_of_app Hq; [apply Hne; [done|by right]|].
    apply list_elem_of_singleton in Hc as ->. by apply negb_true_iff, Hp. }
  rewrite <- app_assoc in IHa, IHo.
  split; intros Hc; (assert (Hcp := Hc p (list_elem_of_here _ _))); cbn [and_loop or_loop]; rewrite Hnew;
    unfold and_child, or_child in Hcp; destruct p; cbn [trivial is_and is_or negb] in Hcp;
    rewrite ?andb_false_r in Hcp; try done; (apply IHa || apply IHo); intros; apply Hc; by right.
Qed.

Lemma And_children ps : wf (AndImpl ps : TaskPredicate) = true → And ps = Some (AndImpl ps).
Proof.
  intros (Hlen & Hc & Hd)%wf_And. unfold And.
  rewrite (proj2 (Nat.ltb_ge _ _)) by lia.
  rewrite (proj1 (loops_distinct ps [] (λ c p Hc, False_ind _ (not_elem_of_nil _ Hc)) Hd) Hc).
  by destruct ps as [|p [|q ps]]; simpl in *; [lia|lia|].
Qed.
Lemma Or_children ps : wf (OrImpl ps : TaskPredicate) = true → Or ps = Some (OrImpl ps).
Proof.
  intros (Hlen & Hc & Hd)%wf_Or. unfold Or.
  rewrite (proj2 (Nat.ltb_ge _ _)) by lia.
  rewrite (proj2 (loops_distinct ps [] (λ c p Hc, False_ind _ (not_elem_of_nil _ Hc)) Hd) Hc).
  by destruct ps as [|p [|q ps]]; simpl in *; [lia|lia|].
Qed.

Lemma From_To_all (ps : list TaskPredicate) :
  (∀ p, p ∈ ps → FromPersistencePredicate (ToPersistencePredicate p) = Some p) →
  (fix all (ps : list pb_Predicate) : option (list TaskPredicate) :=
    match ps with
    | [] => Some []
    | p :: ps => p ← FromPersistencePredicate p; ps ← all ps; Some (p :: ps)
    end) (map ToPersistencePredicate ps) = Some ps.
Proof.
  induction ps as [|p ps IH]; intros Hps; [done|]. simpl. rewrite (Hps p) by (by left). simpl.
  rewrite IH; [done|]. intros q Hq. apply Hps. by right.
Qed.

Lemma From_To_leaf l : FromPersistencePredicate (ToPersistencePredicate (Leaf l)) = Some (Leaf l).
Proof.
  destruct l as [s|s|s|s|s]; simpl; unfold NewNamespacePredicate, NewDestinationPredicate, NewOutboundTaskGroupPredicate,
    NewTypePredicate, NewOutboundTaskPredicate; do 3 f_equal; try apply list_to_set_elements_L.
  rewrite map_map, (map_ext _ id); [by rewrite map_id; apply list_to_set_elements_L|by intros []].
Qed.

Lemma predicate_roundtrip (p : TaskPredicate) :
  wf p = true → FromPersistencePredicate (ToPersistencePredicate p) = Some p.
Proof.
  induction p as [| |ps IH|ps IH|p IH|l] using Predicate_nested_ind; intros Hw; [done|done| | | |apply From_To_leaf].
  - destruct (proj1 (wf_And ps) Hw) as (_ & Hc & _). simpl. rewrite From_To_all; [by apply And_children|].
    intros q Hq. apply IH; [done|]. by apply (and_child_wf_all ps).
  - destruct (proj1 (wf_Or ps) Hw) as (_ & Hc & _). simpl. rewrite From_To_all; [by apply Or_children|].
    intros q Hq. apply IH; [done|]. by apply (or_child_wf_all ps).
  - simpl in *. bool_to_prop. rewrite IH by done. by destruct p.
Qed.

Section roundtrip.
Context {TS : Timestamppb} {TL : TimestamppbLaws}.

Lemma key_roundtrip k : FromPersistenceTaskKey (Some (ToPersistenceTaskKey k)) = Some k.
Proof. simpl. rewrite AsTime_New. by destruct k. Qed.

Lemma scope_roundtrip sc : scope_wf sc → FromPersistenceScope (ToPersistenceScope sc) = Some sc.
Proof.
  intros [Hr Hp]. unfold FromPersistenceScope, FromPersistenceRange, ToPersistenceScope, ToPersistenceRange.
  cbn [pb_Range pb_ScopePredicate mbind option_bind pb_InclusiveMin pb_ExclusiveMax].
  rewrite !key_roundtrip, predicate_roundtrip by done. simpl.
  rewrite (proj2 (NewRange_Some _ _ _) (conj Hr eq_refl)). by destruct sc as [[]].
Qed.

Lemma scopes_roundtrip scs : Forall scope_wf scs → mapM FromPersistenceScope (map ToPersistenceScope scs) = Some scs.
Proof. induction 1 as [|sc scs Hsc _ IH]; [done|]. simpl. rewrite scope_roundtrip by done. simpl. by rewrite IH. Qed.

Lemma readers_roundtrip (l : list (ReaderID * list Scope)) :
  Forall (λ kv, Forall scope_wf kv.2) l →
  from_readers (prod_map id (λ scopes, mkPbReaderState (map ToPersistenceScope scopes)) <$> l) = Some l.
Proof.
  induction 1 as [|[id scs] l Hscs _ IH]; [done|]. unfold from_readers in *. cbn [fmap list_fmap mapM prod_map fst snd pb_Scopes].
  simpl in Hscs. rewrite scopes_roundtrip by done. simpl in *. by rewrite IH.
Qed.

Lemma state_roundtrip st :
  (∀ rid scs sc, readerScopes st !! rid = Some scs → sc ∈ scs → scope_wf sc) →
  FromPersistenceQueueState (ToPersistenceQueueState st) = Some st.
Proof.
  intros Hwf. unfold FromPersistenceQueueState, ToPersistenceQueueState.
  cbn [pb_ReaderStates pb_ExclusiveReaderHighWatermark].
  rewrite map_to_list_fmap, readers_roundtrip.
  - cbn [mbind option_bind]. rewrite key_roundtrip. cbn [mbind option_bind].
    rewrite list_to_map_to_list. by destruct st.
  - apply Forall_forall. intros [rid scs] Hin%elem_of_map_to_list. apply Forall_forall. eauto.
Qed.

(** C40 What a queue persists is what it reads back: for a state whose scopes are well-formed (ordered bounds, predicates
    as the constructors build them) [FromPersistenceQueueState] of [ToPersistenceQueueState] does not panic and returns
    the same readers, ranges and predicates and the same watermark, whatever the nesting of the predicates; and a
    predicate converts back to itself and tests every task as before. *)
Theorem queue_state_roundtrip st p :
  (∀ rid scs sc, readerScopes st !! rid = Some scs → sc ∈ scs → scope_wf sc) → wf p = true →
  FromPersistenceQueueState (ToPersistenceQueueState st) = Some st ∧
  FromPersistencePredicate (ToPersistencePredicate p) = Some p.
Proof. intros Hst Hp. split; [by apply state_roundtrip|by apply predicate_roundtrip]. Qed.
End roundtrip.

(** Seconds and nanoseconds, as the message stores them. *)
#[local] Instance seconds_nanos : Timestamppb := {|
  Timestamp := (Z * Z)%type;
  timestamp_New := λ t, (t / Second, t mod Second);
  AsTime := λ ts, ts.1 * Second + ts.2;
|}.
#[local] Instance seconds_nanos_laws : TimestamppbLaws.
Proof. intros t. simpl. rewrite (Z.div_mod t Second) at 3 by done. lia. Qed.

Definition sample_state : queueState :=
  mkQueueState {[ 0 := [mkScope (mkRange (mkKey 0 3) (mkKey 0 8))
      (OrImpl [NewNamespacePredicate ["n1"; "n2"]; NotImpl (NewTypePredicate [4])])];
    1 := [] ]} (mkKey 1500000000 9).

Lemma queue_state_roundtrip_witness :
  FromPersistenceQueueState (ToPersistenceQueueState sample_state) = Some sample_state ∧
  FromPersistencePredicate (ToPersistencePredicate (NewTypePredicate [4])) = Some (NewTypePredicate [4]).
Proof.
  apply queue_state_roundtrip; [|vm_compute; reflexivity].
  intros rid scs sc Hrid Hsc. cbn [sample_state readerScopes] in Hrid.
  apply lookup_insert_Some in Hrid as [[_ <-]|[_ [_ <-]%lookup_singleton_Some]].
  - apply list_elem_of_singleton in Hsc as ->. by_decide.
  - by apply not_elem_of_nil in Hsc.
Defined.
