(* ===== verification/QueueWorld.v ===== *)
(** * The state queue operations run in

    Slices, readers and queues mutate a shared monitor, take identities from an
    allocator (a slice is a Go pointer: two slices with equal fields are still
    different keys of the monitor's map), read the clock and read tasks from
    persistence.  [Q A] is a computation in that state; it can panic, and a loop
    in it can run out of fuel.  [wp m Φ w] says that [m] started in [w] returns,
    and that [Φ] holds of its result. *)
From S2P Require Import Prelude TaskKey Monitor.

Section world.
Context {W : Type}.

Record World := mkWorld {
  nextSliceID : SliceID;
  monitor : monitorImpl;
  now : time;
  persistence : W;
}.

Definition Q (A : Type) : Type := World → outcome stuck (A * World).
Definition qret {A} (a : A) : Q A := λ w, Ok (a, w).
Definition qbind {A B} (m : Q A) (f : A → Q B) : Q B :=
  λ w, match m w with Ok (a, w') => f a w' | Err e => Err e | Panic => Panic end.
Definition qpanic {A} : Q A := λ _, Panic.
Definition qlift {A} (o : option A) : Q A := match o with Some a => qret a | None => qpanic end.
Definition with_monitor (f : time → monitorImpl → monitorImpl) : Q unit :=
  λ w, Ok (tt, mkWorld (nextSliceID w) (f (now w) (monitor w)) (now w) (persistence w)).
Definition q_monitor {A} (f : monitorImpl → A) : Q A := λ w, Ok (f (monitor w), w).
Definition alloc : Q SliceID :=
  λ w, Ok (nextSliceID w, mkWorld (N.succ (nextSliceID w)) (monitor w) (now w) (persistence w)).

(** ** Reasoning *)

Definition wp {A} (m : Q A) (Φ : A → World → Prop) (w : World) : Prop :=
  match m w with Ok (a, w') => Φ a w' | _ => False end.

Lemma wp_ret {A} (a : A) Φ w : Φ a w → wp (qret a) Φ w.
Proof. done. Qed.
Lemma wp_bind {A B} (m : Q A) (f : A → Q B) Φ w :
  wp m (λ a w', wp (f a) Φ w') w → wp (qbind m f) Φ w.
Proof. unfold wp, qbind. by destruct (m w) as [[a w']| |]. Qed.
Lemma wp_bind_inv {A B} (m : Q A) (f : A → Q B) Φ w :
  wp (qbind m f) Φ w → wp m (λ a w', wp (f a) Φ w') w.
Proof. unfold wp, qbind. by destruct (m w) as [[a w']| |]. Qed.
Lemma wp_mono {A} (m : Q A) (Φ Ψ : A → World → Prop) w :
  wp m Φ w → (∀ a w', Φ a w' → Ψ a w') → wp m Ψ w.
Proof. unfold wp. destruct (m w) as [[a w']| |]; auto. Qed.
Lemma wp_lift {A} (o : option A) a Φ w : o = Some a → Φ a w → wp (qlift o) Φ w.
Proof. by intros ->. Qed.
Lemma wp_alloc Φ w :
  Φ (nextSliceID w) (mkWorld (N.succ (nextSliceID w)) (monitor w) (now w) (persistence w)) →
  wp alloc Φ w.
Proof. done. Qed.
Lemma wp_with_monitor f Φ w :
  Φ tt (mkWorld (nextSliceID w) (f (now w) (monitor w)) (now w) (persistence w)) →
  wp (with_monitor f) Φ w.
Proof. done. Qed.
Lemma wp_monitor {A} (f : monitorImpl → A) Φ w : Φ (f (monitor w)) w → wp (q_monitor f) Φ w.
Proof. done. Qed.
Lemma wp_elim {A} (m : Q A) w (P : Prop) : wp m (λ a w', m w = Ok (a, w') → P) w → P.
Proof. unfold wp. destruct (m w) as [[a w']| |]; naive_solver. Qed.
Lemma wp_run {A} (m : Q A) Φ w : wp m Φ w → ∃ a w', m w = Ok (a, w') ∧ Φ a w'.
Proof. unfold wp. destruct (m w) as [[a w']| |]; naive_solver. Qed.

(** For a computation that may panic: what holds if it returns and if it panics. *)
Definition wlp {A} (m : Q A) (Φ : A → World → Prop) (Ψ : Prop) (w : World) : Prop :=
  match m w with Ok (a, w') => Φ a w' | Panic => Ψ | Err _ => False end.
Lemma wlp_wp {A} (m : Q A) Φ Ψ w : wp m Φ w → wlp m Φ Ψ w.
Proof. unfold wp, wlp. by destruct (m w) as [[a w']| |]. Qed.
Lemma wlp_bind {A B} (m : Q A) (f : A → Q B) Φ Ψ w :
  wlp m (λ a w', wlp (f a) Φ Ψ w') Ψ w → wlp (qbind m f) Φ Ψ w.
Proof. unfold wlp, qbind. by destruct (m w) as [[a w']| |]. Qed.
Lemma wlp_mono {A} (m : Q A) Φ (Ψ Ψ' : Prop) w : wlp m Φ Ψ w → (Ψ → Ψ') → wlp m Φ Ψ' w.
Proof. unfold wlp. destruct (m w) as [[a w']| |]; auto. Qed.
Lemma wlp_lift {A} (o : option A) Φ (Ψ : Prop) w : (∀ a, o = Some a → Φ a w) → (o = None → Ψ) → wlp (qlift o) Φ Ψ w.
Proof. destruct o as [a|]; intros HΦ HΨ; [by apply (HΦ a)|by apply HΨ]. Qed.
End world.
Arguments World W : clear implicits.
Arguments Q W A : clear implicits.

Declare Scope queue_scope.
Delimit Scope queue_scope with queue.
Notation "'let*' x ':=' c 'in' k" := (qbind c (fun x => k))
  (at level 10, x pattern, c at level 100, k at level 200) : queue_scope.
Notation "'do*' c 'in' k" := (qbind c (fun _ => k))
  (at level 10, c at level 100, k at level 200) : queue_scope.

(** One step of a computation: a [return], a bind, a lifted option whose value
    is known. *)
Ltac wp_step :=
  match goal with
  | |- wp (qbind _ _) _ _ => apply wp_bind
  | |- wp (qret _) _ _ => apply wp_ret
  | |- wp (with_monitor _) _ _ => apply wp_with_monitor
  | |- wp alloc _ _ => apply wp_alloc
  | |- wp (q_monitor _) _ _ => apply wp_monitor
  | |- wp (qlift (Some _)) _ _ => apply wp_ret
  end.
Ltac wp_steps := repeat (wp_step; cbn beta iota).

(** Turns a claim that a computation returns into a [wp] goal. *)
Ltac wp_returns :=
  match goal with |- context [?m ?w = Ok _] => apply (wp_elim m w) end.
