(* ===== verification/Slice.v ===== *)
(** * Queue slices: [service/history/queues/slice.go]

    A slice loads and tracks the tasks of its scope: iterators own what is
    still in persistence, the tracker owns what is loaded.  Operations run in
    the state of the queue: the allocator of slice identities (a Go pointer),
    the monitor, the clock and the store the pagination function reads. *)
From S2P Require Import Prelude TaskKey TaskRange Predicates TaskPredicates TaskScope Monitor PagingIterator.
From S2P Require Import TaskIterator Tracker QueueWorld.
Local Open Scope Z_scope.
Local Open Scope queue_scope.

Definition shrinkPredicateMaxPendingKeys : nat := 3.

Section slice.
Context {W E GK : Type} `{Countable GK} {G : Grouper GK}.
Context (provider : PaginationFnProvider (W := W) (E := E)).
(** Values of the options a queue reads: the monitor's thresholds, the limit
    on predicate sizes, the protobuf size of an empty predicate; and the fuel
    for one page read. *)
Context (options : MonitorOptions) (maxPredicateSize EmptyPredicateProtoSize : Z) (pageFuel : nat).

Abbreviation World := (World W).
Abbreviation Q := (Q W).

(** ** The slice *)

Abbreviation Iter := (@IteratorImpl W E).

Record SliceImpl := mkSlice {
  slice_id : SliceID;
  destroyed : bool;
  scope : Scope;
  iterators : list Iter;
  (** [None] is the nil pointer a destroyed slice has. *)
  tracker : option (executableTracker GK);
}.

Definition pending (s : SliceImpl) : gmap Key Executable :=
  from_option pendingExecutables ∅ (tracker s).

Definition stateSanityCheck (s : SliceImpl) : Q unit :=
  if destroyed s then qpanic else qret tt.

Definition ensurePredicateSizeLimit (sc : Scope) : Scope :=
  if (maxPredicateSize >? 0) && (Size EmptyPredicateProtoSize (ScopePredicate sc) >? maxPredicateSize)
  then mkScope (ScopeRange sc) UniversalImpl
  else sc.

Definition NewSlice (sc : Scope) : Q SliceImpl :=
  let* id := alloc in
  qret (mkSlice id false (ensurePredicateSizeLimit sc) [NewIterator (ScopeRange sc)]
          (Some newExecutableTracker)).

Definition setPendingCount (s : SliceImpl) : Q unit :=
  with_monitor (λ now m, SetSlicePendingTaskCount options now m (slice_id s)
                           (Z.of_nat (size (pending s)))).

Definition newSlice (sc : Scope) (its : list Iter) (t : executableTracker GK) : Q SliceImpl :=
  let* id := alloc in
  let slice := mkSlice id false (ensurePredicateSizeLimit sc) its (Some t) in
  do* setPendingCount slice in
  qret slice.

(** The fields of the destroyed slice are not read again; the monitor is told. *)
Definition destroy (s : SliceImpl) : Q SliceImpl :=
  do* with_monitor (λ _ m, RemoveSlice m (slice_id s)) in
  qret (mkSlice (slice_id s) true (scope s) [] None).

Definition slice_Scope (s : SliceImpl) : Q Scope :=
  do* stateSanityCheck s in qret (scope s).

Definition slice_CanSplitByRange (s : SliceImpl) (key : Key) : Q bool :=
  do* stateSanityCheck s in qret (CanSplitByRange (scope s) key).

Fixpoint split_iterators (leftRange rightRange : Range) (key : Key) (its : list Iter)
    : option (list Iter * list Iter) :=
  match its with
  | [] => Some ([], [])
  | iter :: rest =>
      let iterRange := iter_Range iter in
      if ContainsRange leftRange iterRange then
        '(ls, rs) ← split_iterators leftRange rightRange key rest; Some (iter :: ls, rs)
      else if ContainsRange rightRange iterRange then
        '(ls, rs) ← split_iterators leftRange rightRange key rest; Some (ls, iter :: rs)
      else
        '(l, r) ← iter_Split iter key;
        '(ls, rs) ← split_iterators leftRange rightRange key rest;
        Some (l :: ls, r :: rs)
  end.

Definition splitByRange (s : SliceImpl) (key : Key) : Q (SliceImpl * SliceImpl) :=
  let* (leftScope, rightScope) := qlift (SplitByRange (scope s) key) in
  let* t := qlift (tracker s) in
  let* (leftTracker, rightTracker) := qlift (tracker_split t leftScope rightScope) in
  let* (leftIterators, rightIterators) :=
    qlift (split_iterators (ScopeRange leftScope) (ScopeRange rightScope) key (iterators s)) in
  do* destroy s in
  let* leftSlice := newSlice leftScope leftIterators leftTracker in
  let* rightSlice := newSlice rightScope rightIterators rightTracker in
  qret (leftSlice, rightSlice).

Definition slice_SplitByRange (s : SliceImpl) (key : Key) : Q (SliceImpl * SliceImpl) :=
  let* can := slice_CanSplitByRange s key in
  if negb can then qpanic else splitByRange s key.

Definition slice_SplitByPredicate (s : SliceImpl) (predicate : TaskPredicate) : Q (SliceImpl * SliceImpl) :=
  do* stateSanityCheck s in
  let '(passScope, failScope) := SplitByPredicate (scope s) predicate in
  let* t := qlift (tracker s) in
  let* (passTracker, failTracker) := qlift (tracker_split t passScope failScope) in
  let passIterators := iterators s in
  let failIterators := map Remaining (iterators s) in
  do* destroy s in
  let* pass := newSlice passScope passIterators passTracker in
  let* fail := newSlice failScope failIterators failTracker in
  qret (pass, fail).

Definition CanMergeWithSlice (s slice : SliceImpl) : Q bool :=
  do* stateSanityCheck s in
  if (slice_id s =? slice_id slice)%N then qret false
  else
    let* sc := slice_Scope slice in
    qret (CanMerge (ScopeRange (scope s)) (ScopeRange sc)).

(** [iterators[size-1]] is the last element of the accumulator. *)
Definition appendIterator (its : list Iter) (iterator : Iter) : option (list Iter) :=
  match last its with
  | None => Some [iterator]
  | Some l =>
      if iter_CanMerge l iterator then
        m ← iter_Merge l iterator; Some (removelast its ++ [m])
      else Some (its ++ [iterator])
  end.

Fixpoint append_iterators (acc its : list Iter) : option (list Iter) :=
  match its with
  | [] => Some acc
  | i :: rest => acc' ← appendIterator acc i; append_iterators acc' rest
  end.

(** The first loop of [mergeIterators] and the two that empty what is left. *)
Fixpoint merge_iterators_loop (current : list Iter) : list Iter → list Iter → option (list Iter) :=
  fix inner (incoming acc : list Iter) : option (list Iter) :=
    match current, incoming with
    | currentIter :: cs, incomingIter :: ins =>
        if CompareTo (InclusiveMin (iter_Range currentIter)) (InclusiveMin (iter_Range incomingIter)) <? 0
        then acc' ← appendIterator acc currentIter; merge_iterators_loop cs incoming acc'
        else acc' ← appendIterator acc incomingIter; inner ins acc'
    | _, _ => acc' ← append_iterators acc current; append_iterators acc' incoming
    end.

Fixpoint validateIteratorsOrderedDisjoint (its : list Iter) : bool :=
  match its with
  | i :: (j :: _) as rest =>
      if CompareTo (ExclusiveMax (iter_Range i)) (InclusiveMin (iter_Range j)) >=? 0 then false
      else validateIteratorsOrderedDisjoint rest
  | _ => true
  end.

Definition mergeIterators (s incomingSlice : SliceImpl) : option (list Iter) :=
  merged ← merge_iterators_loop (iterators s) (iterators incomingSlice) [];
  if validateIteratorsOrderedDisjoint merged then Some merged else None.

(** [mergeByRange], [mergeByPredicate] and [CompactWithSlice] differ in the
    scope of the result only. *)
Definition merge_slices (s incomingSlice : SliceImpl) (sc : option Scope) : Q SliceImpl :=
  let* t := qlift (tracker s) in
  let* ti := qlift (tracker incomingSlice) in
  let mergedTaskTracker := tracker_merge t ti in
  let* mergedIterators := qlift (mergeIterators s incomingSlice) in
  do* destroy s in
  do* destroy incomingSlice in
  let* sc := qlift sc in
  newSlice sc mergedIterators mergedTaskTracker.

Definition mergeByRange (s incomingSlice : SliceImpl) : Q SliceImpl :=
  merge_slices s incomingSlice (MergeByRange (scope s) (scope incomingSlice)).

Definition mergeByPredicate (s incomingSlice : SliceImpl) : Q SliceImpl :=
  merge_slices s incomingSlice (MergeByPredicate (scope s) (scope incomingSlice)).

Definition appendMergedSlice (mergedSlices : list SliceImpl) (s : SliceImpl) : Q (list SliceImpl) :=
  if IsEmpty (scope s) then do* destroy s in qret mergedSlices
  else qret (mergedSlices ++ [s]).

(** The body of [MergeWithSlice] when the receiver starts first. *)
Definition merge_ordered (s incomingSlice : SliceImpl) : Q (list SliceImpl) :=
  let* can := CanMergeWithSlice s incomingSlice in
  if negb can then qpanic
  else if CanMergeByRange (scope s) (scope incomingSlice) then
    let* merged := mergeByRange s incomingSlice in qret [merged]
  else
    let* incomingScope := slice_Scope incomingSlice in
    let* (currentLeft, currentRight) := splitByRange s (InclusiveMin (ScopeRange incomingScope)) in
    let* mergedSlices := appendMergedSlice [] currentLeft in
    let* rightScope := slice_Scope currentRight in
    let currentRightMax := ExclusiveMax (ScopeRange rightScope) in
    let* canSplit := slice_CanSplitByRange incomingSlice currentRightMax in
    if canSplit then
      let* (leftIncoming, rightIncoming) := splitByRange incomingSlice currentRightMax in
      let* mergedMid := mergeByPredicate currentRight leftIncoming in
      let* mergedSlices := appendMergedSlice mergedSlices mergedMid in
      appendMergedSlice mergedSlices rightIncoming
    else
      let* (currentMid, currentRight') := splitByRange currentRight (ExclusiveMax (ScopeRange incomingScope)) in
      let* mergedMid := mergeByPredicate currentMid incomingSlice in
      let* mergedSlices := appendMergedSlice mergedSlices mergedMid in
      appendMergedSlice mergedSlices currentRight'.

(** The receiver and the argument swap when the argument starts first; the
    recursive call then has its receiver first. *)
Definition MergeWithSlice (s slice : SliceImpl) : Q (list SliceImpl) :=
  let* sc := slice_Scope slice in
  if CompareTo (InclusiveMin (ScopeRange (scope s))) (InclusiveMin (ScopeRange sc)) >? 0 then
    do* stateSanityCheck s in merge_ordered slice s
  else merge_ordered s slice.

Definition CompactWithSlice (s incomingSlice : SliceImpl) : Q SliceImpl :=
  do* stateSanityCheck s in
  do* stateSanityCheck incomingSlice in
  merge_slices s incomingSlice
    (r ← NewRange (MinKey (InclusiveMin (ScopeRange (scope s))) (InclusiveMin (ScopeRange (scope incomingSlice))))
                  (MaxKey (ExclusiveMax (ScopeRange (scope s))) (ExclusiveMax (ScopeRange (scope incomingSlice))));
     Some (NewScope r (OrPredicates (ScopePredicate (scope s)) (ScopePredicate (scope incomingSlice))))).

(** [shrinkRange] and [shrinkPredicate] on the fields they change. *)
Definition shrinkRange (sc : Scope) (its : list Iter) (t : executableTracker GK)
    : Scope * executableTracker GK * Z :=
  let '(t', minPendingTaskKey, tasksCompleted) := tracker_shrink t in
  let minIteratorKey := match its with [] => MaximumKey | i :: _ => InclusiveMin (iter_Range i) end in
  let newRangeMin := MinKey minPendingTaskKey minIteratorKey in
  let newRangeMin := if bool_decide (newRangeMin = MaximumKey) then ExclusiveMax (ScopeRange sc)
                     else newRangeMin in
  (mkScope (mkRange newRangeMin (ExclusiveMax (ScopeRange sc))) (ScopePredicate sc), t', tasksCompleted).

Definition shrinkPredicate (sc : Scope) (its : list Iter) (t : executableTracker GK) : Scope :=
  match its with
  | _ :: _ => sc
  | [] =>
      if (shrinkPredicateMaxPendingKeys <? size (pendingPerKey t))%nat then sc
      else ensurePredicateSizeLimit
             (mkScope (ScopeRange sc) (Grouper_Predicate (map fst (map_to_list (pendingPerKey t)))))
  end.

Definition ShrinkScope (s : SliceImpl) : Q (SliceImpl * Z) :=
  do* stateSanityCheck s in
  let* t := qlift (tracker s) in
  let '(sc1, t', tasksCompleted) := shrinkRange (scope s) (iterators s) t in
  let sc2 := shrinkPredicate sc1 (iterators s) t' in
  let s' := mkSlice (slice_id s) (destroyed s) sc2 (iterators s) (Some t') in
  do* setPendingCount s' in
  qret (s', tasksCompleted).
(** ** Loading tasks *)

(** [s.iterators[0]] after an operation on it. *)
Definition set_iterators (s : SliceImpl) (its : list Iter) : SliceImpl :=
  mkSlice (slice_id s) (destroyed s) (scope s) its (tracker s).
Definition set_tracker (s : SliceImpl) (t : executableTracker GK) : SliceImpl :=
  mkSlice (slice_id s) (destroyed s) (scope s) (iterators s) (Some t).

(** An iterator operation reads the store. *)
Definition q_iter {A} (f : W → outcome stuck (A * W * Iter)) : Q (A * Iter) :=
  λ w, match f (persistence w) with
       | Ok (a, w', i) => Ok ((a, i), mkWorld (nextSliceID w) (monitor w) (now w) w')
       | Err e => Err e
       | Panic => Panic
       end.

(** The loop of [SelectTasks]; every turn consumes a task or an iterator. *)
Fixpoint select_loop (fuel : nat) (batchSize : Z) (s : SliceImpl) (executables : list Executable)
    : Q ((E + list Executable) * SliceImpl) :=
  match fuel with
  | O => λ _, Err OutOfFuel
  | S fuel =>
      if negb (Z.of_nat (length executables) <? batchSize) then qret (inr executables, s)
      else match iterators s with
      | [] => qret (inr executables, s)
      | it :: its =>
          let* (has, it) := q_iter (λ w, HasNext provider pageFuel w it) in
          if negb has then select_loop fuel batchSize (set_iterators s its) executables
          else
            let* (r, it) := q_iter (λ w, Next provider pageFuel w it) in
            match r with
            | inl err =>
                let s := set_iterators s (Remaining it :: its) in
                match executables with
                | _ :: _ => qret (inr executables, s)
                | [] => qret (inl err, s)
                end
            | inr task =>
                let s := set_iterators s (it :: its) in
                if negb (ContainsKey (ScopeRange (scope s)) (GetKey task)) then qpanic
                else if negb (Test (ScopePredicate (scope s)) task) then
                  select_loop fuel batchSize s executables
                else
                  let executable := NewExecutable task in
                  let* t := qlift (tracker s) in
                  select_loop fuel batchSize (set_tracker s (tracker_add t executable))
                    (executables ++ [executable])
            end
      end
  end.

(** [make] panics on a negative capacity; the count is set by a deferred call. *)
Definition SelectTasks (fuel : nat) (s : SliceImpl) (batchSize : Z)
    : Q ((E + list Executable) * SliceImpl) :=
  do* stateSanityCheck s in
  match iterators s with
  | [] => qret (inr [], s)
  | _ =>
      if batchSize <? 0 then qpanic
      else
        let* (r, s) := select_loop fuel batchSize s [] in
        do* setPendingCount s in
        qret (r, s)
  end.

Definition MoreTasks (s : SliceImpl) : Q bool :=
  do* stateSanityCheck s in
  qret (match iterators s with [] => false | _ => true end).

Definition TaskStats (s : SliceImpl) : Q (gmap GK Z) :=
  do* stateSanityCheck s in
  let* t := qlift (tracker s) in
  qret (pendingPerKey t).

(** The cancelled executables are the scheduler's from here on. *)
Definition Clear (s : SliceImpl) : Q SliceImpl :=
  do* stateSanityCheck s in
  let* (s, _) := ShrinkScope s in
  let* t := qlift (tracker s) in
  let s := mkSlice (slice_id s) (destroyed s) (scope s) [NewIterator (ScopeRange (scope s))]
             (Some (tracker_clear t).1) in
  do* setPendingCount s in
  qret s.
End slice.
