(* ===== verification/SliceIterators.v ===== *)
(** * The iterators of a slice

    What [splitByRange] and [mergeIterators] of [service/history/queues/slice.go]
    do to the list of iterators: the list stays ordered with gaps between
    neighbours, so the panic of [validateIteratorsOrderedDisjoint] is
    unreachable, and exactly the same keys remain to be read. *)
From S2P Require Import Prelude TaskKey TaskRange Predicates TaskPredicates TaskScope Monitor PagingIterator.
From S2P Require Import TaskIterator Tracker QueueWorld Slice.
Local Open Scope key_scope.

Section iterators.
Context {W E : Type} (store : list Task) (n : nat).
Abbreviation Iter := (@IteratorImpl W E).
Implicit Types (its acc cur inc : list Iter) (i j : Iter).

Definition before i j : Prop := ExclusiveMax (iter_Range i) <k InclusiveMin (iter_Range j).

Definition in_iters (k : Key) its : Prop := ∃ i, i ∈ its ∧ in_range k (iter_Range i).

Record iters_ok (r : Range) its : Prop := {
  iters_sorted : StronglySorted before its;
  iters_each : ∀ i, i ∈ its → iter_ok store n i ∧ ContainsRange r (iter_Range i) = true;
}.

Lemma iters_ok_nil r : iters_ok r [].
Proof. split; [constructor|]. intros i Hi. by apply not_elem_of_nil in Hi. Qed.

Lemma iters_ok_cons r i its :
  iters_ok r (i :: its) ↔
  iters_ok r its ∧ iter_ok store n i ∧ ContainsRange r (iter_Range i) = true ∧ Forall (before i) its.
Proof.
  split.
  - intros [Hs He]. apply StronglySorted_inv in Hs as [Hs Hb]. destruct (He i) as [??]; [left|].
    split; [|done]. split; [done|]. intros j Hj. apply He. by right.
  - intros ([Hs He] & ? & ? & ?). split; [by constructor|].
    intros j [-> | Hj]%elem_of_cons; [done|by apply He].
Qed.

Lemma in_iters_cons k i its : in_iters k (i :: its) ↔ in_range k (iter_Range i) ∨ in_iters k its.
Proof. unfold in_iters. set_solver. Qed.
Lemma in_iters_nil k : in_iters k [] ↔ False.
Proof. unfold in_iters. set_solver. Qed.
Lemma in_iters_app k its acc : in_iters k (its ++ acc) ↔ in_iters k its ∨ in_iters k acc.
Proof. unfold in_iters. set_solver. Qed.

Lemma in_iters_range k r its : iters_ok r its → in_iters k its → in_range k r.
Proof.
  intros [_ He] (i & Hi & Hlo & Hhi). destruct (He i Hi) as [_ [H1 H2]%ContainsRange_spec].
  split; [eauto using key_le_trans|]. clear -H2 Hhi. key_solve.
Qed.

Lemma iter_ok_wf i : iter_ok store n i → range_wf (iter_Range i).
Proof. by intros [(_ & _ & ?) _]. Qed.

Lemma iters_ok_weaken r r' its : ContainsRange r' r = true → iters_ok r its → iters_ok r' its.
Proof.
  rewrite ContainsRange_spec. intros [H1 H2] [Hs He]. split; [done|].
  intros i Hi. destruct (He i Hi) as [? [??]%ContainsRange_spec]. split; [done|].
  apply ContainsRange_spec. eauto using key_le_trans.
Qed.

(** ** Splitting *)

Definition within its' its : Prop :=
  ∀ j, j ∈ its' → ∃ i, i ∈ its ∧ ContainsRange (iter_Range i) (iter_Range j) = true.

Lemma within_before i its its' : within its' its → Forall (before i) its → Forall (before i) its'.
Proof.
  intros Hw. rewrite !Forall_forall. intros Hb j Hj.
  destruct (Hw j Hj) as (i' & Hi' & [H1 _]%ContainsRange_spec). specialize (Hb i' Hi').
  unfold before in *. clear -Hb H1. key_solve.
Qed.

Lemma before_sub i i' its :
  ExclusiveMax (iter_Range i') ≤k ExclusiveMax (iter_Range i) →
  Forall (before i) its → Forall (before i') its.
Proof.
  intros H1 Hb. eapply Forall_impl; [exact Hb|]. unfold before. intros j Hj. clear -H1 Hj. key_solve.
Qed.

Lemma ContainsRange_refl (r : Range) : ContainsRange r r = true.
Proof. apply ContainsRange_spec. auto using key_le_refl. Qed.

Lemma within_cons i its' its : within its' its → within its' (i :: its).
Proof. intros Hw j Hj. destruct (Hw j Hj) as (i' & ? & ?). exists i'. split; [by right|done]. Qed.

Lemma within_cons2 i j its' its :
  ContainsRange (iter_Range i) (iter_Range j) = true → within its' its → within (j :: its') (i :: its).
Proof.
  intros Hc Hw k [-> | Hk]%elem_of_cons; [exists i; split; [left|done]|]. by apply (within_cons i its' its Hw).
Qed.

(** An iterator in neither half is split at the key. *)
Lemma iter_Split_straddle r key i :
  valid_key key → iter_ok store n i → ContainsRange r (iter_Range i) = true →
  ContainsRange (mkRange (InclusiveMin r) key) (iter_Range i) = false →
  ContainsRange (mkRange key (ExclusiveMax r)) (iter_Range i) = false →
  iter_Split i key = Some (NewIterator (mkRange (InclusiveMin (iter_Range i)) key),
                           NewIterator (mkRange key (ExclusiveMax (iter_Range i)))) ∧
  InclusiveMin (iter_Range i) <k key ∧ key <k ExclusiveMax (iter_Range i).
Proof.
  intros Hv Hi [H1 H2]%ContainsRange_spec Hl Hr.
  rewrite <- not_true_iff_false, ContainsRange_spec in Hl, Hr. simpl in *.
  assert (Hlo : InclusiveMin (iter_Range i) <k key).
  { destruct (decide (InclusiveMin (iter_Range i) <k key)); [done|]. exfalso. by apply Hr. }
  assert (Hhi : key <k ExclusiveMax (iter_Range i)).
  { destruct (decide (key <k ExclusiveMax (iter_Range i))); [done|]. exfalso. by apply Hl. }
  split; [|done]. unfold iter_Split, iter_CanSplit.
  rewrite (proj2 (CanSplit_spec _ _ (iter_ok_wf i Hi))) by auto using key_lt_le.
  by rewrite (Split_total _ _ (iter_ok_wf i Hi)) by auto using key_lt_le.
Qed.

Lemma split_iterators_spec r key its :
  valid_key key → InclusiveMin r ≤k key → key ≤k ExclusiveMax r → iters_ok r its →
  ∃ ls rs,
    split_iterators (mkRange (InclusiveMin r) key) (mkRange key (ExclusiveMax r)) key its = Some (ls, rs) ∧
    iters_ok (mkRange (InclusiveMin r) key) ls ∧ iters_ok (mkRange key (ExclusiveMax r)) rs ∧
    within ls its ∧ within rs its ∧
    ∀ k, in_iters k its ↔ in_iters k ls ∨ in_iters k rs.
Proof.
  intros Hv Hlo Hhi. induction its as [|i its IH]; intros Hok.
  { exists [], []. split; [done|]. do 2 (split; [apply iters_ok_nil|]).
    do 2 (split; [intros j Hj; by apply not_elem_of_nil in Hj|]). intros k. rewrite !in_iters_nil. tauto. }
  apply iters_ok_cons in Hok as (Hok & Hi & Hc & Hb).
  destruct (IH Hok) as (ls & rs & E' & Hl & Hr & Hwl & Hwr & Hk). cbn [split_iterators].
  assert (Hbl := within_before i _ _ Hwl Hb). assert (Hbr := within_before i _ _ Hwr Hb).
  destruct (ContainsRange (mkRange (InclusiveMin r) key) (iter_Range i)) eqn:El;
    [|destruct (ContainsRange (mkRange key (ExclusiveMax r)) (iter_Range i)) eqn:Er].
  - rewrite E'. exists (i :: ls), rs. split; [done|].
    split; [by apply iters_ok_cons|]. split; [done|].
    split; [apply within_cons2; [apply ContainsRange_refl|done]|]. split; [by apply within_cons|].
    intros k. rewrite !in_iters_cons, Hk. tauto.
  - rewrite E'. exists ls, (i :: rs). split; [done|].
    split; [done|]. split; [by apply iters_ok_cons|]. split; [by apply within_cons|].
    split; [apply within_cons2; [apply ContainsRange_refl|done]|].
    intros k. rewrite !in_iters_cons, Hk. tauto.
  - destruct (iter_Split_straddle r key i Hv Hi Hc El Er) as (Es & H1 & H2). rewrite Es. cbn.
    rewrite E'. cbn. destruct Hi as [(V1 & V2 & V3) _]. apply ContainsRange_spec in Hc as [C1 C2].
    do 2 eexists. split; [done|].
    split; [|split]; [| |split; [|split]].
    + apply iters_ok_cons. split; [done|]. split; [apply NewIterator_ok; split_and!; try done; by apply key_lt_le|].
      split; [apply ContainsRange_spec; auto using key_le_refl|].
      eapply before_sub; [|exact Hbl]. auto using key_lt_le.
    + apply iters_ok_cons. split; [done|]. split; [apply NewIterator_ok; split_and!; try done; by apply key_lt_le|].
      split; [apply ContainsRange_spec; auto using key_le_refl|].
      eapply before_sub; [|exact Hbr]. apply key_le_refl.
    + apply within_cons2; [|done]. apply ContainsRange_spec. simpl. auto using key_le_refl, key_lt_le.
    + apply within_cons2; [|done]. apply ContainsRange_spec. simpl. auto using key_le_refl, key_lt_le.
    + intros k. rewrite !in_iters_cons, Hk. unfold in_range; simpl. unfold iter_Range in *. simpl.
      clear -H1 H2. destruct (decide (k <k key)); split; key_solve; tauto.
Qed.

(** ** Merging *)

Lemma iters_ok_snoc r its i :
  iters_ok r (its ++ [i]) ↔
  iters_ok r its ∧ iter_ok store n i ∧ ContainsRange r (iter_Range i) = true ∧
  ∀ j, j ∈ its → before j i.
Proof.
  induction its as [|a its IH]; simpl.
  - rewrite iters_ok_cons. split.
    + intros (H0 & ? & ? & _). split; [done|]. do 2 (split; [done|]). intros j Hj. by apply not_elem_of_nil in Hj.
    + intros (? & ? & ? & _). split; [apply iters_ok_nil|]. auto.
  - rewrite !iters_ok_cons, IH, Forall_app, Forall_singleton. setoid_rewrite elem_of_cons. naive_solver.
Qed.

(** What [appendIterator] relies on: the last iterator does not start after
    the one to append. *)
Definition last_before acc (k : Key) : Prop :=
  ∀ l, last acc = Some l → InclusiveMin (iter_Range l) ≤k k.

Lemma iter_Merge_spec r i j :
  iter_ok store n i → iter_ok store n j →
  ContainsRange r (iter_Range i) = true → ContainsRange r (iter_Range j) = true →
  InclusiveMin (iter_Range i) ≤k InclusiveMin (iter_Range j) → iter_CanMerge i j = true →
  ∃ m, iter_Merge i j = Some m ∧ iter_ok store n m ∧ ContainsRange r (iter_Range m) = true ∧
    InclusiveMin (iter_Range m) = InclusiveMin (iter_Range i) ∧
    ∀ k, in_range k (iter_Range m) ↔ in_range k (iter_Range i) ∨ in_range k (iter_Range j).
Proof.
  intros [(Vi1 & Vi2 & Wi) _] [(Vj1 & Vj2 & Wj) _] [Ci1 Ci2]%ContainsRange_spec
    [Cj1 Cj2]%ContainsRange_spec Hle Hc.
  unfold iter_Merge. rewrite Hc. unfold iter_CanMerge, iter_Range in *.
  rewrite (Merge_total _ _ Wi Wj Hc), MinKey_l by done. cbn. eexists. split; [done|].
  apply CanMerge_spec in Hc as [Hc1 Hc2]. unfold range_wf, in_range in *.
  destruct (key_le_total (ExclusiveMax (remainingRange i)) (ExclusiveMax (remainingRange j))) as [Hm|Hm];
    [rewrite (MaxKey_r _ _ Hm)|rewrite (MaxKey_l _ _ Hm)]; simpl;
    (split; [apply NewIterator_ok; split_and!; try done; unfold range_wf; simpl; eauto using key_le_trans|]);
    (split; [by apply ContainsRange_spec|]); (split; [done|]); intros k;
    destruct (remainingRange i), (remainingRange j); simpl in *; clear -Hle Hc1 Hc2 Hm Wi Wj; key_unfold; lia.
Qed.

Lemma appendIterator_spec r acc i :
  iters_ok r acc → iter_ok store n i → ContainsRange r (iter_Range i) = true →
  last_before acc (InclusiveMin (iter_Range i)) →
  ∃ acc', appendIterator acc i = Some acc' ∧ iters_ok r acc' ∧
    last_before acc' (InclusiveMin (iter_Range i)) ∧
    ∀ k, in_iters k acc' ↔ in_iters k acc ∨ in_range k (iter_Range i).
Proof.
  intros Hacc Hi Hc Hlast. unfold appendIterator.
  destruct (last acc) as [l|] eqn:El.
  - specialize (Hlast l El). apply last_Some in El as [a ->].
    pose proof Hacc as Hacc'. apply iters_ok_snoc in Hacc' as (Ha & Hl & Hcl & Hbl).
    destruct (iter_CanMerge l i) eqn:Ec.
    + destruct (iter_Merge_spec r l i Hl Hi Hcl Hc Hlast Ec) as (m & -> & Hm & Hcm & Emin & Hk).
      cbn. rewrite removelast_last. eexists. split; [done|]. split; [|split].
      * apply iters_ok_snoc. split; [done|]. do 2 (split; [done|]).
        intros j Hj. unfold before. rewrite Emin. by apply Hbl.
      * intros l' Hl'. rewrite last_snoc in Hl'. simplify_eq. by rewrite Emin.
      * intros k. rewrite !in_iters_app, !in_iters_cons, !in_iters_nil, Hk. tauto.
    + eexists. split; [done|].
      assert (Hb : before l i).
      { unfold iter_CanMerge in Ec. rewrite <- not_true_iff_false, CanMerge_spec in Ec.
        unfold before. destruct (decide (ExclusiveMax (iter_Range l) <k InclusiveMin (iter_Range i))) as [|Hn];
          [done|]. exfalso. apply Ec. split; [|done].
        eapply key_le_trans; [exact Hlast|]. apply (iter_ok_wf i Hi). }
      split; [|split].
      * apply iters_ok_snoc. split; [done|]. do 2 (split; [done|]).
        intros j [Hj| ->%list_elem_of_singleton]%elem_of_app; [|done].
        pose proof (Hbl j Hj) as Hjl. pose proof (iter_ok_wf l Hl) as Hwl.
        unfold before, range_wf in *. clear -Hjl Hwl Hb. key_solve.
      * intros l' Hl'. rewrite last_snoc in Hl'. simplify_eq. apply key_le_refl.
      * intros k. rewrite !in_iters_app, !in_iters_cons, !in_iters_nil. tauto.
  - apply last_None in El as ->. eexists. split; [done|]. split; [|split].
    + apply iters_ok_cons. split; [apply iters_ok_nil|]. auto.
    + intros l' [= ->]. apply key_le_refl.
    + intros k. rewrite in_iters_cons, in_iters_nil. tauto.
Qed.

Lemma last_before_mono acc k k' : last_before acc k → k ≤k k' → last_before acc k'.
Proof. intros Hl Hk l El. eauto using key_le_trans. Qed.

Lemma before_head i its j :
  iter_ok store n i → Forall (before i) its → j ∈ its →
  InclusiveMin (iter_Range i) ≤k InclusiveMin (iter_Range j).
Proof.
  intros Hi Hb Hj. rewrite Forall_forall in Hb. specialize (Hb j Hj).
  pose proof (iter_ok_wf i Hi) as Hw. unfold before, range_wf in *. clear -Hb Hw. key_solve.
Qed.

(** The result of appending [its] to [acc]. *)
Definition appended r acc its (res : option (list Iter)) : Prop :=
  ∃ acc', res = Some acc' ∧ iters_ok r acc' ∧ ∀ k, in_iters k acc' ↔ in_iters k acc ∨ in_iters k its.

Lemma append_iterators_spec r acc its :
  iters_ok r acc → iters_ok r its →
  (∀ i, i ∈ its → last_before acc (InclusiveMin (iter_Range i))) →
  appended r acc its (append_iterators acc its).
Proof.
  revert acc. induction its as [|i its IH]; intros acc Hacc Hok Hl; cbn [append_iterators].
  { exists acc. do 2 (split; [done|]). intros k. rewrite in_iters_nil. tauto. }
  apply iters_ok_cons in Hok as (Hok & Hi & Hc & Hb).
  destruct (appendIterator_spec r acc i Hacc Hi Hc (Hl i ltac:(left))) as (acc1 & -> & Hacc1 & Hl1 & Hk1).
  cbn. destruct (IH acc1 Hacc1 Hok) as (acc2 & -> & Hacc2 & Hk2).
  { intros j Hj. eapply last_before_mono; [done|]. by eapply before_head. }
  exists acc2. do 2 (split; [done|]). intros k. rewrite Hk2, Hk1, in_iters_cons. tauto.
Qed.

Lemma merge_iterators_loop_spec r cur inc acc :
  iters_ok r acc → iters_ok r cur → iters_ok r inc →
  (∀ i, i ∈ cur ++ inc → last_before acc (InclusiveMin (iter_Range i))) →
  appended r acc (cur ++ inc) (merge_iterators_loop cur inc acc).
Proof.
  revert inc acc. induction cur as [|i cur IHc]; intros inc acc Hacc Hcur Hinc Hl.
  { destruct inc; cbn; apply append_iterators_spec; auto. }
  revert acc Hacc Hinc Hl. induction inc as [|j inc IHi]; intros acc Hacc Hinc Hl.
  { rewrite app_nil_r in *. cbn [merge_iterators_loop].
    destruct (append_iterators_spec r acc (i :: cur)) as (acc' & -> & H1 & H2); [auto..|].
    by exists acc'. }
  pose proof Hcur as (Hcur' & Hi & Hci & Hbi)%iters_ok_cons.
  pose proof Hinc as (Hinc' & Hj & Hcj & Hbj)%iters_ok_cons.
  pose proof (before_head i cur) as Hhi. pose proof (before_head j inc) as Hhj.
  cbn [merge_iterators_loop]. cbn [merge_iterators_loop] in IHi.
  destruct (CompareTo _ _ <? 0)%Z eqn:Ecmp.
  - apply Z.ltb_lt, CompareTo_lt in Ecmp.
    destruct (appendIterator_spec r acc i Hacc Hi Hci) as (acc1 & -> & Hacc1 & Hl1 & Hk1).
    { apply Hl. left. }
    cbn. destruct (IHc (j :: inc) acc1) as (acc2 & -> & Hacc2 & Hk2); [done..| |].
    { intros l Hin. eapply last_before_mono; [exact Hl1|].
      apply elem_of_app in Hin as [Hin|[-> |Hin]%elem_of_cons].
      - by apply Hhi.
      - by apply key_lt_le.
      - eapply key_le_trans; [by apply key_lt_le|]. by apply Hhj. }
    exists acc2. do 2 (split; [done|]). intros k. rewrite Hk2, Hk1. cbn [app].
    rewrite in_iters_cons. tauto.
  - apply Z.ltb_ge, CompareTo_ge in Ecmp.
    destruct (appendIterator_spec r acc j Hacc Hj Hcj) as (acc1 & -> & Hacc1 & Hl1 & Hk1).
    { apply Hl. apply elem_of_app. right. left. }
    cbn [mbind option_bind]. destruct (IHi acc1) as (acc2 & -> & Hacc2 & Hk2); [done..| |].
    { intros l Hin. eapply last_before_mono; [exact Hl1|].
      apply elem_of_app in Hin as [[-> |Hin]%elem_of_cons|Hin]; [done| |by apply Hhj].
      eapply key_le_trans; [done|]. by apply Hhi. }
    exists acc2. do 2 (split; [done|]). intros k. rewrite Hk2, Hk1.
    rewrite !in_iters_app, !in_iters_cons. tauto.
Qed.

Lemma iters_validated its : StronglySorted before its → validateIteratorsOrderedDisjoint its = true.
Proof.
  induction 1 as [|i its Hs IH Hb]; [done|]. destruct its as [|j its]; [done|].
  cbn [validateIteratorsOrderedDisjoint]. apply Forall_cons in Hb as [Hb _].
  apply CompareTo_lt in Hb. destruct (_ >=? 0)%Z eqn:E'; [|done]. bool_to_prop. lia.
Qed.
End iterators.
