(* ===== verification/SliceSpec.v ===== *)
(** * What a slice promises

    The invariant of [SliceImpl] and the guarantee behind every reorganisation
    of a queue: splitting, merging, compacting, shrinking and clearing slices
    never panics on slices that satisfy the invariant and never loses a task
    that still has to run. *)
From S2P Require Import Prelude TaskKey TaskRange Predicates TaskPredicates TaskScope Monitor PagingIterator.
From S2P Require Import TaskIterator Tracker QueueWorld Slice SliceIterators.
Local Open Scope Z_scope.
Local Open Scope queue_scope.
Local Open Scope key_scope.

(** A predicate is tested on a raw task when it is loaded and on its executable
    afterwards; it is stable when the two always agree. *)
Definition stable (p : TaskPredicate) : Prop := ∀ e, Test p (as_task e) = Test p (ex_task e).

Definition scope_ok (sc : Scope) : Prop :=
  range_valid (ScopeRange sc) ∧ Predicates.wf (ScopePredicate sc) = true ∧ stable (ScopePredicate sc).

Lemma scope_ok_wf sc : scope_ok sc → scope_wf sc.
Proof. intros ((_ & _ & ?) & ? & _). by split. Qed.

Lemma Contains_as_task sc e :
  stable (ScopePredicate sc) → Contains sc (as_task e) = Contains sc (ex_task e).
Proof. intros Hs. unfold Contains. by rewrite Hs. Qed.

Lemma stable_And a b :
  Predicates.wf a = true → Predicates.wf b = true → stable a → stable b → stable (AndPredicates a b).
Proof.
  intros Ha Hb Sa Sb e. destruct (AndPredicates_spec a b Ha Hb) as [_ Ht]. by rewrite !Ht, Sa, Sb.
Qed.
Lemma stable_Or a b :
  Predicates.wf a = true → Predicates.wf b = true → stable a → stable b → stable (OrPredicates a b).
Proof.
  intros Ha Hb Sa Sb e. destruct (OrPredicates_spec a b Ha Hb) as [_ Ht]. by rewrite !Ht, Sa, Sb.
Qed.
Lemma stable_Not a : Predicates.wf a = true → stable a → stable (Not a).
Proof. intros Ha Sa e. destruct (Not_spec a Ha) as [_ Ht]. by rewrite !Ht, Sa. Qed.

Section spec.
Context {W E GK : Type} `{Countable GK} {G : Grouper GK} {GL : GrouperLaws GK}.
Context (provider : PaginationFnProvider (W := W) (E := E)).
Context (options : MonitorOptions) (maxPredicateSize EmptyPredicateProtoSize : Z).
Context (store : list Task) (n : nat).
Context (Hstore : store_sorted store).

Abbreviation SliceImpl := (@SliceImpl W E GK _ _).
Abbreviation ensurePredicateSizeLimit := (ensurePredicateSizeLimit maxPredicateSize EmptyPredicateProtoSize).
Abbreviation newSlice := (newSlice (W := W) (E := E) options maxPredicateSize EmptyPredicateProtoSize).
Abbreviation splitByRange := (splitByRange (W := W) (E := E) options maxPredicateSize EmptyPredicateProtoSize).
Implicit Types (s : SliceImpl) (t : Task).

(** ** The invariant *)

Definition tracker_ok (sc : Scope) (tr : executableTracker GK) : Prop :=
  covered tr ∧
  ∀ k e, pendingExecutables tr !! k = Some e →
    GetKey (ex_task e) = k ∧ ex_task e ∈ store ∧ Contains sc (ex_task e) = true.

Record slice_inv s : Prop := {
  inv_live : destroyed s = false;
  inv_scope : scope_ok (scope s);
  inv_iters : iters_ok store n (ScopeRange (scope s)) (iterators s);
  inv_tracker : ∃ tr, tracker s = Some tr ∧ tracker_ok (scope s) tr;
}.

(** A slice owes a task of its scope that an iterator has yet to read or that
    is tracked and not acked. *)
Definition owes s t : Prop :=
  Contains (scope s) t = true ∧
  (in_iters (GetKey t) (iterators s) ∨
   ∃ e, pending s !! GetKey t = Some e ∧ ex_task e = t ∧ ex_state e ≠ TaskStateAcked).

Definition acked s t : Prop :=
  ∃ e, pending s !! GetKey t = Some e ∧ ex_task e = t ∧ ex_state e = TaskStateAcked.

(** Replacing the slices [ss] by [ss'] is safe: whatever a slice of [ss] owed a
    slice of [ss'] owes, unless another of [ss] had seen it acked (two slices
    can hold the same task when a predicate has been widened); and no
    executable appears from nowhere. *)
Definition preserves (ss ss' : list SliceImpl) : Prop :=
  (∀ t, t ∈ store → (∃ s, s ∈ ss ∧ owes s t) →
     (∃ s, s ∈ ss' ∧ owes s t) ∨ (∃ s, s ∈ ss ∧ acked s t)) ∧
  (∀ s' k e, s' ∈ ss' → pending s' !! k = Some e → ∃ s, s ∈ ss ∧ pending s !! k = Some e).

#[global] Instance preserves_preorder : PreOrder preserves.
Proof.
  split.
  - intros ss. split; [by left|]. eauto.
  - intros a b c [H1 H2] [H3 H4]. split.
    + intros t Ht Ho. destruct (H1 t Ht Ho) as [Hb|]; [|by right].
      destruct (H3 t Ht Hb) as [|(s & Hs & e & He & Hr)]; [by left|right].
      destruct (H2 s _ e Hs He) as (s' & Hs' & He'). exists s'. split; [done|]. by exists e.
    + intros s k e Hs He. destruct (H4 s k e Hs He) as (s' & Hs' & He'). by apply (H2 s').
Qed.

Lemma preserves_app a a' b b' : preserves a a' → preserves b b' → preserves (a ++ b) (a' ++ b').
Proof.
  intros [H1 H2] [H3 H4]. split.
  - intros t Ht (s & [Hs|Hs]%elem_of_app & Ho).
    + destruct (H1 t Ht) as [(s' & ? & ?)|(s' & ? & ?)]; [by exists s|left|right];
        exists s'; (split; [apply elem_of_app; by left|done]).
    + destruct (H3 t Ht) as [(s' & ? & ?)|(s' & ? & ?)]; [by exists s|left|right];
        exists s'; (split; [apply elem_of_app; by right|done]).
  - intros s k e [Hs|Hs]%elem_of_app He.
    + destruct (H2 s k e Hs He) as (s' & ? & ?). exists s'. split; [apply elem_of_app; by left|done].
    + destruct (H4 s k e Hs He) as (s' & ? & ?). exists s'. split; [apply elem_of_app; by right|done].
Qed.

(** Dropping slices with an empty scope is safe. *)
Lemma owes_nonempty s t : slice_inv s → owes s t → IsEmpty (scope s) = false.
Proof.
  intros Hs [[Hc Ht]%Contains_spec _]. unfold IsEmpty.
  destruct (TaskRange.IsEmpty (ScopeRange (scope s))) eqn:E1.
  - pose proof (inv_scope s Hs) as ((_ & _ & Hwf) & _).
    exfalso. by apply (proj1 (IsEmpty_spec _ Hwf) E1 (GetKey t)).
  - by destruct (ScopePredicate (scope s)).
Qed.

Lemma preserves_drop s : slice_inv s → IsEmpty (scope s) = true → preserves [s] [].
Proof.
  intros Hs He. split.
  - intros t _ (s' & ->%list_elem_of_singleton & Ho). apply owes_nonempty in Ho; [congruence|done].
  - intros s' k e Hin. by apply not_elem_of_nil in Hin.
Qed.

(** Equal keys of the store are the same task. *)
Lemma store_key_inj t t' : t ∈ store → t' ∈ store → GetKey t = GetKey t' → t = t'.
Proof.
  destruct Hstore as [Hs _]. clear Hstore.
  induction Hs as [|a l _ IH Ha]; [by intros ?%not_elem_of_nil|].
  rewrite Forall_forall in Ha.
  intros [-> |H1]%elem_of_cons [-> |H2]%elem_of_cons Hk; [done| | |by apply IH].
  - specialize (Ha _ H2). rewrite Hk in Ha. by apply key_lt_irrefl in Ha.
  - specialize (Ha _ H1). rewrite Hk in Ha. by apply key_lt_irrefl in Ha.
Qed.

(** ** Making slices *)

Lemma ensure_range sc : ScopeRange (ensurePredicateSizeLimit sc) = ScopeRange sc.
Proof. unfold Slice.ensurePredicateSizeLimit. by destruct (_ && _). Qed.

Lemma ensure_ok sc : scope_ok sc → scope_ok (ensurePredicateSizeLimit sc).
Proof.
  unfold Slice.ensurePredicateSizeLimit. destruct (_ && _); [|done].
  intros (? & ? & ?). split; [done|]. by split.
Qed.

Lemma ensure_contains sc t : Contains sc t = true → Contains (ensurePredicateSizeLimit sc) t = true.
Proof.
  unfold Slice.ensurePredicateSizeLimit. destruct (_ && _); [|done].
  rewrite !Contains_spec. by intros [? _].
Qed.

Lemma make_inv id sc its tr :
  scope_ok sc → iters_ok store n (ScopeRange sc) its → tracker_ok sc tr →
  slice_inv (mkSlice id false (ensurePredicateSizeLimit sc) its (Some tr)).
Proof.
  intros Hsc Hits [Hcv Htr]. split; simpl; [done|by apply ensure_ok|by rewrite ensure_range|].
  exists tr. split; [done|]. split; [done|]. intros k e Hk. destruct (Htr k e Hk) as (? & ? & ?).
  split; [done|]. split; [done|]. by apply ensure_contains.
Qed.

(** Identities are allocated upwards and persistence is not touched. *)
Definition step (w w' : World W) : Prop :=
  (nextSliceID w ≤ nextSliceID w')%N ∧ now w' = now w ∧ persistence w' = persistence w.
#[global] Instance step_preorder : PreOrder step.
Proof. split; [by split|]. intros ? ? ? (? & ? & ?) (? & ? & ?). split; [lia|]. split; congruence. Qed.

Definition fresh (w : World W) s (w' : World W) : Prop :=
  (nextSliceID w ≤ slice_id s < nextSliceID w')%N.

Lemma fresh_mono w0 w w' w'' s : step w0 w → fresh w s w' → step w' w'' → fresh w0 s w''.
Proof. intros (? & _) [? ?] (? & _). unfold fresh. lia. Qed.

Lemma destroy_wp s w (Φ : SliceImpl → World W → Prop) :
  (∀ w' s', step w w' → Φ s' w') → wp (destroy s) Φ w.
Proof. intros HΦ. unfold destroy. wp_steps. apply HΦ. split; simpl; [lia|done]. Qed.

Lemma setPendingCount_wp s w (Φ : unit → World W → Prop) :
  (∀ w', step w w' → Φ tt w') → wp (setPendingCount options s) Φ w.
Proof. intros HΦ. unfold setPendingCount. wp_steps. apply HΦ. split; simpl; [lia|done]. Qed.

Lemma newSlice_wp sc its tr w (Φ : SliceImpl → World W → Prop) :
  (∀ id w', let s := mkSlice id false (ensurePredicateSizeLimit sc) its (Some tr) in
     step w w' → fresh w s w' → Φ s w') →
  wp (newSlice sc its tr) Φ w.
Proof.
  intros HΦ. unfold Slice.newSlice. wp_steps. apply setPendingCount_wp. intros w' (? & ? & ?). wp_steps.
  simpl in *. apply HΦ; [split; simpl; [lia|done]|]. unfold fresh. simpl. lia.
Qed.

Lemma make_owes_iter id sc its tr t :
  Contains sc t = true → in_iters (GetKey t) its →
  owes (mkSlice id false (ensurePredicateSizeLimit sc) its (Some tr)) t.
Proof. intros Hc Hi. split; [by apply ensure_contains|by left]. Qed.

Lemma make_owes_pending id sc its tr t e :
  tracker_ok sc tr → pendingExecutables tr !! GetKey t = Some e → ex_task e = t →
  ex_state e ≠ TaskStateAcked → owes (mkSlice id false (ensurePredicateSizeLimit sc) its (Some tr)) t.
Proof.
  intros [_ Htr] Hk He Hs. destruct (Htr _ _ Hk) as (_ & _ & Hc). rewrite He in Hc.
  split; [by apply ensure_contains|]. right. by exists e.
Qed.

Lemma pending_tracker s tr : tracker s = Some tr → pending s = pendingExecutables tr.
Proof. unfold pending. by intros ->. Qed.

Lemma stateSanityCheck_wp s w (Φ : unit → World W → Prop) :
  destroyed s = false → Φ tt w → wp (stateSanityCheck s) Φ w.
Proof. unfold stateSanityCheck. by intros ->. Qed.

Lemma slice_Scope_wp s w (Φ : Scope → World W → Prop) :
  slice_inv s → Φ (scope s) w → wp (slice_Scope s) Φ w.
Proof.
  intros Hs HΦ. unfold slice_Scope. wp_steps. apply stateSanityCheck_wp; [apply Hs|]. by wp_steps.
Qed.

Lemma slice_CanSplitByRange_wp s key w (Φ : bool → World W → Prop) :
  slice_inv s → Φ (CanSplitByRange (scope s) key) w → wp (slice_CanSplitByRange s key) Φ w.
Proof.
  intros Hs HΦ. unfold slice_CanSplitByRange. wp_steps. apply stateSanityCheck_wp; [apply Hs|]. by wp_steps.
Qed.

(** ** Splitting *)

Lemma tracker_split_ok sc sc1 sc2 tr :
  tracker_ok sc tr → stable (ScopePredicate sc1) → stable (ScopePredicate sc2) →
  (∀ t, Contains sc t = true → Contains sc1 t = true ∨ Contains sc2 t = true) →
  ∃ tr1 tr2, tracker_split tr sc1 sc2 = Some (tr1, tr2) ∧ tracker_ok sc1 tr1 ∧ tracker_ok sc2 tr2 ∧
    ∀ k e, pendingExecutables tr !! k = Some e ↔
           pendingExecutables tr1 !! k = Some e ∨ pendingExecutables tr2 !! k = Some e.
Proof.
  intros [Hcv Htr] S1 S2 Hsplit.
  destruct (tracker_split_total tr sc1 sc2) as [[tr1 tr2] Es].
  { intros k e Hk. destruct (Htr k e Hk) as (_ & _ & Hc). rewrite !Contains_as_task by done. auto. }
  exists tr1, tr2. split; [done|]. apply tracker_split_spec in Es as (E1 & E2 & H2 & _ & Hc).
  destruct (Hc Hcv) as [Hc1 Hc2].
  assert (L1 : ∀ k e, pendingExecutables tr1 !! k = Some e ↔
                      pendingExecutables tr !! k = Some e ∧ Contains sc1 (ex_task e) = true).
  { intros k e. rewrite E1, map_lookup_filter_Some. simpl. by rewrite Contains_as_task. }
  assert (L2 : ∀ k e, pendingExecutables tr2 !! k = Some e ↔
                      pendingExecutables tr !! k = Some e ∧ Contains sc1 (ex_task e) = false).
  { intros k e. rewrite E2, map_lookup_filter_Some. simpl. by rewrite Contains_as_task. }
  split; [|split].
  - split; [done|]. intros k e [Hk Hc']%L1. destruct (Htr k e Hk) as (? & ? & _). done.
  - split; [done|]. intros k e Hk. pose proof (H2 k e Hk) as Hc'. rewrite Contains_as_task in Hc' by done.
    apply L2 in Hk as [Hk _]. destruct (Htr k e Hk) as (? & ? & _). done.
  - intros k e. rewrite L1, L2. destruct (Contains sc1 (ex_task e)); naive_solver.
Qed.

(** Both ways of splitting a slice, for any pair of scopes that cover its
    scope and iterators that cover its iterators. *)
Lemma preserves_split s sc1 sc2 its1 its2 tr1 tr2 tr id1 id2 :
  slice_inv s → tracker s = Some tr → tracker_ok sc1 tr1 → tracker_ok sc2 tr2 →
  (∀ k e, pendingExecutables tr !! k = Some e ↔
          pendingExecutables tr1 !! k = Some e ∨ pendingExecutables tr2 !! k = Some e) →
  (∀ t, Contains (scope s) t = true → in_iters (GetKey t) (iterators s) →
     (Contains sc1 t = true ∧ in_iters (GetKey t) its1) ∨
     (Contains sc2 t = true ∧ in_iters (GetKey t) its2)) →
  preserves [s] [mkSlice id1 false (ensurePredicateSizeLimit sc1) its1 (Some tr1);
                 mkSlice id2 false (ensurePredicateSizeLimit sc2) its2 (Some tr2)].
Proof.
  intros Hs Etr H1 H2 Hp Hit. split.
  - intros t Ht (s' & ->%list_elem_of_singleton & Hc & Ho). left. destruct Ho as [Ho|(e & He & Hte & Ha)].
    + destruct (Hit t Hc Ho) as [[??]|[??]].
      * eexists. split; [left|by apply make_owes_iter].
      * eexists. split; [right; left|by apply make_owes_iter].
    + rewrite (pending_tracker _ _ Etr), Hp in He.
      destruct He as [He|He].
      * eexists. split; [left|by eapply make_owes_pending].
      * eexists. split; [right; left|by eapply make_owes_pending].
  - intros s' k e Hin He. exists s. split; [left|]. rewrite (pending_tracker _ _ Etr), Hp.
    apply elem_of_cons in Hin as [-> |[-> |Hin]%elem_of_cons]; [by left|by right|].
    by apply not_elem_of_nil in Hin.
Qed.

Lemma splitByRange_wp s key w (Φ : SliceImpl * SliceImpl → World W → Prop) :
  slice_inv s → valid_key key → CanSplitByRange (scope s) key = true →
  (∀ l r w', slice_inv l → slice_inv r →
     ScopeRange (scope l) = mkRange (InclusiveMin (ScopeRange (scope s))) key →
     ScopeRange (scope r) = mkRange key (ExclusiveMax (ScopeRange (scope s))) →
     preserves [s] [l; r] → step w w' → fresh w l w' → fresh w r w' → slice_id l ≠ slice_id r →
     Φ (l, r) w') →
  wp (splitByRange s key) Φ w.
Proof.
  intros Hs Hv Hcan HΦ. pose proof Hs as [_ (Hrv & Hwf & Hst) Hits (tr & Etr & Htr)].
  pose proof Hrv as (V1 & V2 & V3). unfold Slice.splitByRange.
  rewrite SplitByRange_total by done. wp_steps. rewrite Etr. wp_steps.
  apply CanSplit_spec in Hcan as [Hlo Hhi]; [|done].
  set (sc1 := NewScope (mkRange _ key) _). set (sc2 := NewScope (mkRange key _) _).
  assert (Hok1 : scope_ok sc1) by (split; [done|]; by split).
  assert (Hok2 : scope_ok sc2) by (split; [done|]; by split).
  assert (Hsplit : ∀ t, Contains (scope s) t = true → Contains sc1 t = true ∨ Contains sc2 t = true).
  { intros t [[Ha Hb] Ht]%Contains_spec. rewrite !Contains_spec. unfold in_range. simpl.
    destruct (decide (GetKey t <k key)); [left|right]; done. }
  destruct (tracker_split_ok _ sc1 sc2 tr Htr Hst Hst Hsplit) as (tr1 & tr2 & -> & T1 & T2 & Hp). wp_steps.
  destruct (split_iterators_spec store n _ key _ Hv Hlo Hhi Hits) as (ls & rs & EI & I1 & I2 & _ & _ & Hk).
  cbn [ScopeRange NewScope sc1 sc2]. rewrite EI. wp_steps.
  apply destroy_wp. intros w1 _ St1. apply wp_bind. apply newSlice_wp. intros id1 w2 s1 St2 F1.
  apply wp_bind. apply newSlice_wp. intros id2 w3 s2 St3 F2. wp_steps.
  apply HΦ; [by apply make_inv|by apply make_inv|apply ensure_range|apply ensure_range| | | | |].
  - apply (preserves_split s _ _ _ _ _ _ tr); [done..|]. intros t Hc Hi. apply Hk in Hi as [Hi|Hi]; [left|right];
      (split; [|done]); apply Contains_spec in Hc as [_ Hc]; apply Contains_spec; (split; [|done]).
    + by eapply in_iters_range in Hi.
    + by eapply in_iters_range in Hi.
  - by rewrite St1, St2.
  - by eapply fresh_mono.
  - eapply (fresh_mono w w2); [by rewrite St1|done|done].
  - unfold fresh in F1, F2. lia.
Qed.

Lemma Remaining_iters_ok r its : iters_ok store n r its → iters_ok (E := E) (W := W) store n r (map Remaining its).
Proof.
  induction its as [|i its IH]; [done|]. rewrite !iters_ok_cons. intros (Hok & [Hi _] & Hc & Hb). cbn [map].
  apply iters_ok_cons. split; [by apply IH|]. split; [by apply NewIterator_ok|]. split; [done|].
  rewrite Forall_forall in *. intros j (j' & <- & Hj')%list_elem_of_In%in_map_iff.
  apply (Hb j'). by apply list_elem_of_In.
Qed.

Lemma Remaining_in_iters k (its : list (@IteratorImpl W E)) : in_iters k (map Remaining its) ↔ in_iters k its.
Proof. induction its as [|i its IH]; [done|]. cbn [map]. by rewrite !in_iters_cons, IH. Qed.

Abbreviation slice_SplitByPredicate :=
  (slice_SplitByPredicate (W := W) (E := E) options maxPredicateSize EmptyPredicateProtoSize).

Lemma slice_SplitByPredicate_wp s predicate w (Φ : SliceImpl * SliceImpl → World W → Prop) :
  slice_inv s → Predicates.wf predicate = true → stable predicate →
  (∀ pass fail w', slice_inv pass → slice_inv fail →
     ScopeRange (scope pass) = ScopeRange (scope s) → ScopeRange (scope fail) = ScopeRange (scope s) →
     preserves [s] [pass; fail] → step w w' → fresh w pass w' → fresh w fail w' →
     slice_id pass ≠ slice_id fail → Φ (pass, fail) w') →
  wp (slice_SplitByPredicate s predicate) Φ w.
Proof.
  intros Hs Hpw Hps HΦ. pose proof Hs as [Hlive (Hrv & Hwf & Hst) Hits (tr & Etr & Htr)].
  unfold Slice.slice_SplitByPredicate, SplitByPredicate. wp_steps.
  apply stateSanityCheck_wp; [done|]. rewrite Etr. wp_steps.
  destruct (Not_spec predicate Hpw) as [Hnw Hnt].
  destruct (AndPredicates_spec _ _ Hwf Hpw) as [Hw1 Ht1].
  destruct (AndPredicates_spec _ _ Hwf Hnw) as [Hw2 Ht2].
  set (sc1 := NewScope _ (AndPredicates _ predicate)). set (sc2 := NewScope _ (AndPredicates _ (Not _))).
  assert (Hok1 : scope_ok sc1) by (split; [done|]; split; [done|by apply stable_And]).
  assert (Hok2 : scope_ok sc2) by (split; [done|]; split; [done|by apply stable_And, stable_Not]).
  assert (Hsplit : ∀ t, Contains (scope s) t = true → Contains sc1 t = true ∨ Contains sc2 t = true).
  { intros t [Hk Ht]%Contains_spec. rewrite !Contains_spec. simpl. rewrite Ht1, Ht2, Hnt, Ht.
    destruct (Test predicate t); auto. }
  destruct (tracker_split_ok _ sc1 sc2 tr Htr) as (tr1 & tr2 & -> & T1 & T2 & Hp);
    [apply Hok1|apply Hok2|done|]. wp_steps.
  apply destroy_wp. intros w1 _ St1. apply wp_bind. apply newSlice_wp. intros id1 w2 s1 St2 F1.
  apply wp_bind. apply newSlice_wp. intros id2 w3 s2 St3 F2. wp_steps.
  apply HΦ; [by apply make_inv|by apply make_inv; [|apply Remaining_iters_ok|]
    |apply (ensure_range sc1)|apply (ensure_range sc2)| | | | |].
  - apply (preserves_split s _ _ _ _ _ _ tr); [done..|]. intros t Hc Hi. rewrite Remaining_in_iters.
    destruct (Hsplit t Hc); [by left|by right].
  - by rewrite St1, St2.
  - by eapply fresh_mono.
  - eapply (fresh_mono w w2); [by rewrite St1|done|done].
  - unfold fresh in F1, F2. lia.
Qed.

(** ** Merging *)

Lemma tracker_merge_pending (tr1 tr2 : executableTracker GK) k e :
  pendingExecutables (tracker_merge tr1 tr2) !! k = Some e →
  pendingExecutables tr1 !! k = Some e ∨ pendingExecutables tr2 !! k = Some e.
Proof.
  rewrite tracker_merge_lookup. destruct (_ <? _)%nat; rewrite lookup_union_Some_raw; naive_solver.
Qed.

Lemma tracker_merge_has (tr1 tr2 : executableTracker GK) k e :
  pendingExecutables tr1 !! k = Some e ∨ pendingExecutables tr2 !! k = Some e →
  ∃ e', pendingExecutables (tracker_merge tr1 tr2) !! k = Some e'.
Proof.
  rewrite tracker_merge_lookup. intros Hk.
  destruct (_ <? _)%nat; rewrite lookup_union;
    destruct (pendingExecutables tr1 !! k), (pendingExecutables tr2 !! k); cbn; naive_solver.
Qed.

Lemma tracker_merge_ok sc sc1 sc2 tr1 tr2 :
  tracker_ok sc1 tr1 → tracker_ok sc2 tr2 →
  (∀ t, Contains sc1 t = true → Contains sc t = true) →
  (∀ t, Contains sc2 t = true → Contains sc t = true) →
  tracker_ok sc (tracker_merge tr1 tr2).
Proof.
  intros [C1 H1] [C2 H2] Hc1 Hc2. split; [by apply tracker_merge_covered|].
  intros k e [Hk|Hk]%tracker_merge_pending; [destruct (H1 k e Hk)|destruct (H2 k e Hk)]; naive_solver.
Qed.

Lemma mergeIterators_spec s i r :
  slice_inv s → slice_inv i →
  ContainsRange r (ScopeRange (scope s)) = true → ContainsRange r (ScopeRange (scope i)) = true →
  ∃ its, mergeIterators s i = Some its ∧ iters_ok store n r its ∧
    ∀ k, in_iters k its ↔ in_iters k (iterators s) ∨ in_iters k (iterators i).
Proof.
  intros Hs Hi Cs Ci. unfold mergeIterators.
  destruct (merge_iterators_loop_spec store n r (iterators s) (iterators i) []) as (its & -> & Hok & Hk).
  - apply iters_ok_nil.
  - apply (iters_ok_weaken _ _ (ScopeRange (scope s))); [done|apply Hs].
  - apply (iters_ok_weaken _ _ (ScopeRange (scope i))); [done|apply Hi].
  - intros j _ l. done.
  - cbn. rewrite iters_validated by apply Hok. exists its. do 2 (split; [done|]).
    intros k. rewrite Hk, in_iters_nil, in_iters_app. tauto.
Qed.

Lemma preserves_merge s i sc its id tr1 tr2 :
  slice_inv s → slice_inv i → tracker s = Some tr1 → tracker i = Some tr2 →
  tracker_ok sc (tracker_merge tr1 tr2) →
  (∀ t, Contains (scope s) t = true ∨ Contains (scope i) t = true → Contains sc t = true) →
  (∀ k, in_iters k its ↔ in_iters k (iterators s) ∨ in_iters k (iterators i)) →
  preserves [s; i] [mkSlice id false (ensurePredicateSizeLimit sc) its (Some (tracker_merge tr1 tr2))].
Proof.
  intros Hs Hi E1 E2 Htr Hc Hk.
  assert (Hpend : ∀ t e, t ∈ store →
    pendingExecutables tr1 !! GetKey t = Some e ∨ pendingExecutables tr2 !! GetKey t = Some e → ex_task e = t →
    (∃ s', s' ∈ [mkSlice id false (ensurePredicateSizeLimit sc) its (Some (tracker_merge tr1 tr2))] ∧ owes s' t) ∨
    (∃ s', s' ∈ [s; i] ∧ acked s' t)).
  { intros t e Ht Hp He. destruct (tracker_merge_has tr1 tr2 _ _ Hp) as [e' He'].
    pose proof (proj2 Htr _ _ He') as (Hk' & Hin' & _).
    assert (ex_task e' = t) by (apply store_key_inj; auto).
    destruct (decide (ex_state e' = TaskStateAcked)).
    - right. apply tracker_merge_pending in He' as [He'|He']; [exists s|exists i].
      + split; [left|]. exists e'. by rewrite (pending_tracker _ _ E1).
      + split; [right; left|]. exists e'. by rewrite (pending_tracker _ _ E2).
    - left. eexists. split; [left|]. by eapply make_owes_pending. }
  split.
  - intros t Ht (s' & Hin & Hct & [Ho|(e & He & Hte & _)]).
    + left. eexists. split; [left|].
      apply elem_of_cons in Hin as [-> | ->%list_elem_of_singleton]; apply make_owes_iter; auto; apply Hk; auto.
    + apply (Hpend t e); [done| |done].
      apply elem_of_cons in Hin as [-> | ->%list_elem_of_singleton];
        [rewrite (pending_tracker _ _ E1) in He|rewrite (pending_tracker _ _ E2) in He]; auto.
  - intros s' k e ->%list_elem_of_singleton He. apply tracker_merge_pending in He as [He|He].
    + exists s. rewrite (pending_tracker _ _ E1). split; [left|done].
    + exists i. rewrite (pending_tracker _ _ E2). split; [right; left|done].
Qed.

Abbreviation merge_slices := (merge_slices (W := W) (E := E) options maxPredicateSize EmptyPredicateProtoSize).

Lemma merge_slices_wp s i sc w (Φ : SliceImpl → World W → Prop) :
  slice_inv s → slice_inv i → scope_ok sc →
  ContainsRange (ScopeRange sc) (ScopeRange (scope s)) = true →
  ContainsRange (ScopeRange sc) (ScopeRange (scope i)) = true →
  (∀ t, Contains (scope s) t = true ∨ Contains (scope i) t = true → Contains sc t = true) →
  (∀ m w', slice_inv m → ScopeRange (scope m) = ScopeRange sc → preserves [s; i] [m] →
     step w w' → fresh w m w' → Φ m w') →
  wp (merge_slices s i (Some sc)) Φ w.
Proof.
  intros Hs Hi Hsc C1 C2 Hc HΦ. unfold Slice.merge_slices.
  pose proof Hs as [_ _ _ (tr1 & E1 & T1)]. pose proof Hi as [_ _ _ (tr2 & E2 & T2)].
  rewrite E1, E2. wp_steps.
  destruct (mergeIterators_spec s i (ScopeRange sc) Hs Hi C1 C2) as (its & -> & Hits & Hk). wp_steps.
  apply destroy_wp. intros w1 _ St1. apply wp_bind. apply destroy_wp. intros w2 _ St2. wp_steps.
  apply newSlice_wp. intros id w3 s' St3 F.
  assert (Htr : tracker_ok sc (tracker_merge tr1 tr2)) by (eapply tracker_merge_ok; eauto).
  apply HΦ; [by apply make_inv|apply ensure_range|by apply preserves_merge|by rewrite St1, St2|].
  eapply (fresh_mono w w2); [by rewrite St1|done|done].
Qed.

Lemma MergeByRange_ok (sc1 sc2 : Scope) :
  scope_ok sc1 → scope_ok sc2 → CanMergeByRange sc1 sc2 = true →
  ∃ sc, MergeByRange sc1 sc2 = Some sc ∧ scope_ok sc ∧
    ScopeRange sc = mkRange (MinKey (InclusiveMin (ScopeRange sc1)) (InclusiveMin (ScopeRange sc2)))
                            (MaxKey (ExclusiveMax (ScopeRange sc1)) (ExclusiveMax (ScopeRange sc2))) ∧
    ∀ t, Contains sc t = Contains sc1 t || Contains sc2 t.
Proof.
  intros Hs Hi Hc. destruct (MergeByRange sc1 sc2) as [sc|] eqn:Em.
  2: { apply MergeByRange_None in Em; [congruence|by apply scope_ok_wf..]. }
  destruct (MergeByRange_spec sc1 sc2 sc) as [[Hw1 Hw2] Ht]; [by apply scope_ok_wf..|done|].
  exists sc. split; [done|].
  pose proof Hs as ((V1 & V2 & V3) & Hwf & Hst). pose proof Hi as ((V1' & V2' & V3') & _).
  unfold MergeByRange in Em. rewrite Hc in Em. apply andb_true_iff in Hc as [Hc _].
  rewrite Merge_total in Em by done. injection Em as <-. simpl in *.
  split; [|done]. split; [|done]. split_and!; simpl; [| |done].
  - unfold MinKey. by destruct (_ <? _).
  - unfold MaxKey. by destruct (_ <? _).
Qed.

Lemma MergeByPredicate_ok (sc1 sc2 : Scope) :
  scope_ok sc1 → scope_ok sc2 → ScopeRange sc1 = ScopeRange sc2 →
  ∃ sc, MergeByPredicate sc1 sc2 = Some sc ∧ scope_ok sc ∧ ScopeRange sc = ScopeRange sc1 ∧
    ∀ t, Contains sc t = Contains sc1 t || Contains sc2 t.
Proof.
  intros Hs Hi Heq. unfold MergeByPredicate, CanMergeByPredicate.
  rewrite (proj2 (TaskRange.Equals_spec _ _) Heq). eexists. split; [done|].
  pose proof Hs as (Hrv & Hwf & Hst). pose proof Hi as (_ & Hwf' & Hst').
  destruct (OrPredicates_spec _ _ Hwf Hwf') as [Hw Ht]. split; [|split; [done|]].
  - split; [done|]. split; [done|]. by apply stable_Or.
  - intros t. unfold Contains; simpl. rewrite Ht, Heq. by destruct (ContainsKey _ _).
Qed.

Abbreviation mergeByRange := (mergeByRange (W := W) (E := E) options maxPredicateSize EmptyPredicateProtoSize).
Abbreviation mergeByPredicate := (mergeByPredicate (W := W) (E := E) options maxPredicateSize EmptyPredicateProtoSize).

Lemma MinMax_contains a b :
  ContainsRange (mkRange (MinKey (InclusiveMin a) (InclusiveMin b)) (MaxKey (ExclusiveMax a) (ExclusiveMax b))) a = true ∧
  ContainsRange (mkRange (MinKey (InclusiveMin a) (InclusiveMin b)) (MaxKey (ExclusiveMax a) (ExclusiveMax b))) b = true.
Proof. rewrite !ContainsRange_spec. destruct a, b. simpl. split; key_solve. Qed.

Lemma mergeByRange_wp s i w (Φ : SliceImpl → World W → Prop) :
  slice_inv s → slice_inv i → CanMergeByRange (scope s) (scope i) = true →
  (∀ m w', slice_inv m →
     ScopeRange (scope m) =
       mkRange (MinKey (InclusiveMin (ScopeRange (scope s))) (InclusiveMin (ScopeRange (scope i))))
               (MaxKey (ExclusiveMax (ScopeRange (scope s))) (ExclusiveMax (ScopeRange (scope i)))) →
     preserves [s; i] [m] → step w w' → fresh w m w' → Φ m w') →
  wp (mergeByRange s i) Φ w.
Proof.
  intros Hs Hi Hc HΦ. unfold Slice.mergeByRange.
  destruct (MergeByRange_ok (scope s) (scope i)) as (sc & -> & Hsc & Er & Ht); [apply Hs|apply Hi|done|].
  destruct (MinMax_contains (ScopeRange (scope s)) (ScopeRange (scope i))) as [C1 C2].
  apply merge_slices_wp; [done..|by rewrite Er|by rewrite Er| |].
  - intros t. by rewrite Ht, orb_true_iff.
  - rewrite Er. done.
Qed.

Lemma mergeByPredicate_wp s i w (Φ : SliceImpl → World W → Prop) :
  slice_inv s → slice_inv i → ScopeRange (scope s) = ScopeRange (scope i) →
  (∀ m w', slice_inv m → ScopeRange (scope m) = ScopeRange (scope s) →
     preserves [s; i] [m] → step w w' → fresh w m w' → Φ m w') →
  wp (mergeByPredicate s i) Φ w.
Proof.
  intros Hs Hi Heq HΦ. unfold Slice.mergeByPredicate.
  destruct (MergeByPredicate_ok (scope s) (scope i)) as (sc & -> & Hsc & Er & Ht); [apply Hs|apply Hi|done|].
  apply merge_slices_wp; [done..|rewrite Er; apply ContainsRange_refl|rewrite Er, Heq; apply ContainsRange_refl| |].
  - intros t. by rewrite Ht, orb_true_iff.
  - rewrite Er. done.
Qed.

(** Slices that are not empty, the ones [appendMergedSlice] keeps. *)
Definition kept (ss : list SliceImpl) : list SliceImpl := filter (λ s, IsEmpty (scope s) = false) ss.

Lemma preserves_kept ss : Forall slice_inv ss → preserves ss (kept ss).
Proof.
  induction 1 as [|s ss Hs _ IH]; [done|]. unfold kept. rewrite filter_cons. case_decide as He.
  - by apply (preserves_app [s] [s] ss (kept ss)).
  - apply (preserves_app [s] [] ss (kept ss)); [|done]. apply preserves_drop; [done|].
    by apply not_false_iff_true.
Qed.

Lemma appendMergedSlice_wp acc s w (Φ : list SliceImpl → World W → Prop) :
  (∀ w', step w w' → Φ (acc ++ kept [s]) w') → wp (appendMergedSlice acc s) Φ w.
Proof.
  intros HΦ. unfold appendMergedSlice, kept in *. rewrite filter_cons in HΦ.
  destruct (IsEmpty (scope s)).
  - wp_steps. apply destroy_wp. intros w1 _ St. wp_steps. rewrite decide_False, app_nil_r in HΦ by done. auto.
  - wp_steps. rewrite decide_True in HΦ by done. by apply HΦ.
Qed.

Abbreviation smin s := (InclusiveMin (ScopeRange (scope s))).
Abbreviation smax s := (ExclusiveMax (ScopeRange (scope s))).

(** In key order and without overlap. *)
Definition ordered (ss : list SliceImpl) : Prop := StronglySorted (λ a b, smax a ≤k smin b) ss.

(** What merging [i] into a slice [s] that starts no later gives. *)
Record merge_result s i (w w' : World W) (ms : list SliceImpl) : Prop := {
  mr_inv : Forall slice_inv ms;
  mr_ordered : ordered ms;
  mr_bounds : ∀ m, m ∈ ms →
    smin s ≤k smin m ∧ (smax m ≤k smax s ∨ smax m ≤k smax i) ∧
    (smin m ≤k smin i ∨ (smin m ≤k smax s ∧ smin m ≤k smax i));
  mr_preserves : preserves [s; i] ms;
  mr_step : step w w';
  mr_fresh : ∀ m, m ∈ ms → fresh w m w';
  mr_nodup : NoDup (slice_id <$> ms);
}.

Lemma CanMergeWithSlice_wp s i w (Φ : bool → World W → Prop) :
  slice_inv s → slice_inv i → slice_id s ≠ slice_id i →
  Φ (CanMerge (ScopeRange (scope s)) (ScopeRange (scope i))) w → wp (CanMergeWithSlice s i) Φ w.
Proof.
  intros Hs Hi Hid HΦ. unfold CanMergeWithSlice. wp_steps. apply stateSanityCheck_wp; [apply Hs|].
  apply N.eqb_neq in Hid as ->. wp_steps. apply slice_Scope_wp; [done|]. by wp_steps.
Qed.

Lemma slice_wf s : slice_inv s → smin s ≤k smax s.
Proof. by intros [_ ((_ & _ & ?) & _) _ _]. Qed.
Lemma slice_valid s : slice_inv s → valid_key (smin s) ∧ valid_key (smax s).
Proof. by intros [_ ((? & ? & _) & _) _ _]. Qed.

Lemma ordered_kept3 a b c : smax a ≤k smin b → smax b ≤k smin c → slice_inv b → ordered (kept [a; b; c]).
Proof.
  intros H1 H2 Hb%slice_wf. apply StronglySorted_filter. repeat constructor; [done|done|].
  eauto using key_le_trans.
Qed.

(** The kept ones of three slices that replace the two. *)
Lemma merge_result_kept s i a b c w w' :
  slice_inv s → slice_inv i → smin s ≤k smin i → smin i ≤k smax s →
  slice_inv a → slice_inv b → slice_inv c →
  smin a = smin s → smax a = smin i → smin b = smin i → smax b = smin c →
  smin c ≤k smax s → smin c ≤k smax i → (smax c = smax s ∨ smax c = smax i) →
  preserves [s; i] [a; b; c] → step w w' → fresh w a w' → fresh w b w' → fresh w c w' →
  slice_id a ≠ slice_id b → slice_id a ≠ slice_id c → slice_id b ≠ slice_id c →
  merge_result s i w w' (kept [a; b; c]).
Proof.
  intros Hs Hi H1 H2 Ha Hb Hc Ea Ea' Eb Eb' Hc1 Hc2 Ec Hp Hst Fa Fb Fc Nab Nac Nbc. pose proof (slice_wf b Hb) as Wb.
  assert (Hin : ∀ m, m ∈ kept [a; b; c] → m = a ∨ m = b ∨ m = c).
  { intros m [_ Hm]%list_elem_of_filter. set_solver. }
  split.
  - apply Forall_forall. intros m [-> |[-> | ->]]%Hin; done.
  - apply ordered_kept3; [rewrite Ea', Eb; apply key_le_refl|rewrite Eb'; apply key_le_refl|done].
  - intros m [-> |[-> | ->]]%Hin.
    + rewrite Ea, Ea'. split; [apply key_le_refl|]. auto.
    + rewrite Eb, Eb'. split; [done|]. split; [by left|]. left. apply key_le_refl.
    + split; [|split; [|by right]].
      * rewrite <- Eb'. eapply key_le_trans; [exact H1|]. by rewrite <- Eb.
      * destruct Ec as [-> | ->]; [left|right]; apply key_le_refl.
  - etrans; [exact Hp|]. apply preserves_kept. by rewrite !Forall_cons, Forall_nil.
  - done.
  - intros m [-> |[-> | ->]]%Hin; done.
  - unfold kept. rewrite !filter_cons, filter_nil.
    repeat case_decide; cbn; rewrite ?NoDup_cons, ?NoDup_nil; set_solver.
Qed.

Abbreviation merge_ordered := (merge_ordered (W := W) (E := E) options maxPredicateSize EmptyPredicateProtoSize).

Lemma kept_app a b : kept (a ++ b) = kept a ++ kept b.
Proof. apply filter_app. Qed.

Lemma merge_ordered_wp s i w (Φ : list SliceImpl → World W → Prop) :
  slice_inv s → slice_inv i → slice_id s ≠ slice_id i →
  CanMerge (ScopeRange (scope s)) (ScopeRange (scope i)) = true → smin s ≤k smin i →
  (∀ ms w', merge_result s i w w' ms → Φ ms w') →
  wp (merge_ordered s i) Φ w.
Proof.
  intros Hs Hi Hid Hc Hle HΦ. unfold Slice.merge_ordered. wp_steps.
  apply CanMergeWithSlice_wp; [done..|]. rewrite Hc. cbn [negb].
  pose proof Hc as [_ Htouch]%CanMerge_spec.
  destruct (slice_valid s Hs) as [Vs1 Vs2]. destruct (slice_valid i Hi) as [Vi1 Vi2].
  pose proof (slice_wf s Hs) as Ws. pose proof (slice_wf i Hi) as Wi.
  destruct (CanMergeByRange (scope s) (scope i)) eqn:Er.
  { wp_steps. apply mergeByRange_wp; [done..|]. intros m w1 Hm Em Hp St F. wp_steps. apply HΦ.
    assert (Hin : ∀ x, x ∈ [m] → x = m) by set_solver.
    split; [by apply Forall_singleton|by repeat constructor| |done|done|by intros x ->%Hin
      |apply NoDup_singleton].
    intros x ->%Hin. rewrite Em. simpl. rewrite MinKey_l by done.
    split; [apply key_le_refl|]. split; [|by left].
    destruct (key_le_total (smax s) (smax i)) as [Hm'|Hm'];
      [rewrite (MaxKey_r _ _ Hm'); right|rewrite (MaxKey_l _ _ Hm'); left]; apply key_le_refl. }
  wp_steps. apply slice_Scope_wp; [done|]. wp_steps.
  apply splitByRange_wp; [done|done|by apply CanSplit_spec|]. intros a b w1 Ha Hb Ea Eb Pab St1 Fa Fb _.
  wp_steps. apply appendMergedSlice_wp. intros w2 St2. wp_steps. apply slice_Scope_wp; [done|]. wp_steps.
  apply slice_CanSplitByRange_wp; [done|]. rewrite Eb. cbn [ExclusiveMax].
  destruct (CanSplitByRange (scope i) (smax s)) eqn:Ecs.
  - wp_steps. apply splitByRange_wp; [done..|]. intros c d w3 Hc' Hd Ec Ed Pcd St3 Fc Fd _. wp_steps.
    apply mergeByPredicate_wp; [done|done|by rewrite Eb, Ec|]. intros m w4 Hm Em Pm St4 Fm. wp_steps.
    apply appendMergedSlice_wp. intros w5 St5. apply appendMergedSlice_wp. intros w6 St6.
    cbn [app]. rewrite <- !kept_app. cbn [app]. apply HΦ.
    apply CanSplit_spec in Ecs as [_ Ecs]; [|apply slice_wf; done].
    apply merge_result_kept; try done; rewrite ?Ea, ?Em, ?Eb, ?Ed; cbn [InclusiveMin ExclusiveMax];
      auto using key_le_refl.
    + transitivity [a; b; c; d].
      { apply (preserves_app [s] [a; b] [i] [c; d]); done. }
      apply (preserves_app [a] [a]); [done|]. by apply (preserves_app [b; c] [m] [d] [d]).
    + by rewrite St1, St2, St3, St4, St5.
    + eapply (fresh_mono w w w1); [done|done|]. by rewrite St2, St3, St4, St5.
    + eapply (fresh_mono w w3 w4); [by rewrite St1, St2|done|]. by rewrite St5.
    + eapply (fresh_mono w w2 w3); [by rewrite St1|done|]. by rewrite St4, St5.
    + clear -Fa Fm St2 St3. destruct St2, St3. unfold fresh in *. lia.
    + clear -Fa Fd St2. destruct St2. unfold fresh in *. lia.
    + clear -Fm Fd. unfold fresh in *. lia.
  - assert (Hlt : smax i <k smax s).
    { destruct (decide (smax i <k smax s)) as [|Hn]; [done|]. unfold CanSplitByRange in Ecs.
      rewrite <- not_true_iff_false, CanSplit_spec in Ecs by (apply slice_wf; done). exfalso. by apply Ecs. }
    wp_steps. apply splitByRange_wp; [done|done|apply CanSplit_spec; [apply slice_wf; done|]|].
    { rewrite Eb. simpl. auto using key_lt_le. }
    intros c d w3 Hc' Hd Ec Ed Pcd St3 Fc Fd _. rewrite Eb in Ec, Ed. cbn [InclusiveMin ExclusiveMax] in Ec, Ed.
    wp_steps. apply mergeByPredicate_wp; [done|done|rewrite Ec; by destruct (ScopeRange (scope i))|].
    intros m w4 Hm Em Pm St4 Fm. wp_steps.
    apply appendMergedSlice_wp. intros w5 St5. apply appendMergedSlice_wp. intros w6 St6.
    cbn [app]. rewrite <- !kept_app. cbn [app]. apply HΦ.
    apply merge_result_kept; try done; rewrite ?Ea, ?Em, ?Ec, ?Ed; cbn [InclusiveMin ExclusiveMax];
      auto using key_le_refl, key_lt_le.
    + transitivity [a; b; i].
      { apply (preserves_app [s] [a; b] [i] [i]); done. }
      apply (preserves_app [a] [a]); [done|]. transitivity [c; d; i].
      { apply (preserves_app [b] [c; d] [i] [i]); done. }
      transitivity [c; i; d]; [|by apply (preserves_app [c; i] [m] [d] [d])].
      split; [intros t _ (x & Hx & ?); left; exists x|intros x k e Hx ?; exists x]; set_solver.
    + by rewrite St1, St2, St3, St4, St5.
    + eapply (fresh_mono w w w1); [done|done|]. by rewrite St2, St3, St4, St5.
    + eapply (fresh_mono w w3 w4); [by rewrite St1, St2|done|]. by rewrite St5.
    + eapply (fresh_mono w w2 w3); [by rewrite St1|done|]. by rewrite St4, St5.
    + clear -Fa Fm St2 St3. destruct St2, St3. unfold fresh in *. lia.
    + clear -Fa Fd St2. destruct St2. unfold fresh in *. lia.
    + clear -Fm Fd. unfold fresh in *. lia.
Qed.

Lemma preserves_perm ss ss' : ss ≡ₚ ss' → preserves ss ss'.
Proof.
  intros Hp. split.
  - intros t _ (s & Hs & Ho). left. exists s. by rewrite <- Hp.
  - intros s k e Hs He. exists s. by rewrite Hp.
Qed.

Abbreviation MergeWithSlice := (MergeWithSlice (W := W) (E := E) options maxPredicateSize EmptyPredicateProtoSize).

Lemma MergeWithSlice_wp s i w (Φ : list SliceImpl → World W → Prop) :
  slice_inv s → slice_inv i → slice_id s ≠ slice_id i →
  CanMerge (ScopeRange (scope s)) (ScopeRange (scope i)) = true →
  (∀ ms w', (smin s ≤k smin i → merge_result s i w w' ms) →
     (smin i ≤k smin s → Forall slice_inv ms ∧ ordered ms ∧ preserves [s; i] ms) → Φ ms w') →
  wp (MergeWithSlice s i) Φ w.
Proof.
  intros Hs Hi Hid Hc HΦ. unfold Slice.MergeWithSlice. wp_steps. apply slice_Scope_wp; [done|].
  destruct (CompareTo (smin s) (smin i) >? 0) eqn:E1.
  - apply Z.gtb_lt, CompareTo_gt in E1. wp_steps. apply stateSanityCheck_wp; [apply Hs|].
    apply merge_ordered_wp; [done|done|done|by rewrite CanMerge_sym|by apply key_lt_le|].
    intros ms w' Hr. apply HΦ; [done|]. intros _. split; [apply Hr|]. split; [apply Hr|].
    transitivity [i; s]; [|apply Hr]. apply preserves_perm. constructor.
  - rewrite Z.gtb_ltb in E1. apply Z.ltb_ge, CompareTo_le in E1.
    apply merge_ordered_wp; [done..|]. intros ms w' Hr. apply HΦ; [done|]. intros _.
    split; [apply Hr|]. split; apply Hr.
Qed.

Abbreviation CompactWithSlice := (CompactWithSlice (W := W) (E := E) options maxPredicateSize EmptyPredicateProtoSize).

Lemma CompactWithSlice_wp s i w (Φ : SliceImpl → World W → Prop) :
  slice_inv s → slice_inv i →
  (∀ m w', slice_inv m →
     ScopeRange (scope m) = mkRange (MinKey (smin s) (smin i)) (MaxKey (smax s) (smax i)) →
     preserves [s; i] [m] → step w w' → fresh w m w' → Φ m w') →
  wp (CompactWithSlice s i) Φ w.
Proof.
  intros Hs Hi HΦ. unfold Slice.CompactWithSlice. wp_steps. apply stateSanityCheck_wp; [apply Hs|].
  wp_steps. apply stateSanityCheck_wp; [apply Hi|].
  pose proof (inv_scope s Hs) as ((V1 & V2 & V3) & Hwf & Hst).
  pose proof (inv_scope i Hi) as ((V1' & V2' & V3') & Hwf' & Hst').
  assert (HR : MinKey (smin s) (smin i) ≤k MaxKey (smax s) (smax i)) by (unfold range_wf in *; clear -V3; key_solve).
  rewrite (proj2 (NewRange_Some _ _ _) (conj HR eq_refl)). cbn [mbind option_bind].
  destruct (OrPredicates_spec _ _ Hwf Hwf') as [Hw Ht].
  destruct (MinMax_contains (ScopeRange (scope s)) (ScopeRange (scope i))) as [C1 C2].
  apply merge_slices_wp; [done|done| |done|done| |done].
  - split; [|split; [done|by apply stable_Or]]. split_and!; simpl; [| |done].
    + unfold MinKey. by destruct (_ <? _).
    + unfold MaxKey. by destruct (_ <? _).
  - intros t. rewrite !Contains_spec. simpl. rewrite Ht.
    apply ContainsRange_spec in C1 as [A1 B1], C2 as [A2 B2]. simpl in *. unfold in_range; simpl.
    intros [[[L U] ->]|[[L U] ->]]; rewrite ?orb_true_r; (split; [|done]); (split; [eauto using key_le_trans|]).
    + clear -U B1. key_solve.
    + clear -U B2. key_solve.
Qed.
End spec.
