(* ===== verification/SliceLoad.v ===== *)
(** * Loading, shrinking and clearing a slice

    [SelectTasks] reads the tasks a slice owes in key order and tracks each one;
    [ShrinkScope] moves the lower bound of the scope up to the first task that
    is not finished; [Clear] gives everything unfinished back to persistence. *)
From S2P Require Import Prelude TaskKey TaskRange Predicates TaskPredicates TaskScope Monitor PagingIterator.
From S2P Require Import TaskIterator Tracker QueueWorld Slice SliceIterators SliceSpec.
Local Open Scope Z_scope.
Local Open Scope queue_scope.
Local Open Scope key_scope.

Section load.
Context {W E GK : Type} `{Countable GK} {G : Grouper GK} {GL : GrouperLaws GK}.
Context (provider : PaginationFnProvider (W := W) (E := E)).
Context (options : MonitorOptions) (maxPredicateSize EmptyPredicateProtoSize : Z).
Context (store : list Task) (n : nat).
Context (Hstore : store_sorted store).

Abbreviation SliceImpl := (@SliceImpl W E GK _ _).
Abbreviation ensurePredicateSizeLimit := (ensurePredicateSizeLimit maxPredicateSize EmptyPredicateProtoSize).
Abbreviation ShrinkScope := (ShrinkScope (W := W) (E := E) options maxPredicateSize EmptyPredicateProtoSize).
Abbreviation shrinkPredicate := (shrinkPredicate (W := W) (E := E) maxPredicateSize EmptyPredicateProtoSize).
Abbreviation Clear := (Clear (W := W) (E := E) options maxPredicateSize EmptyPredicateProtoSize).
Abbreviation slice_inv := (slice_inv (W := W) (E := E) (GK := GK) store n).
Abbreviation smin s := (InclusiveMin (ScopeRange (scope s))).
Abbreviation smax s := (ExclusiveMax (ScopeRange (scope s))).
Implicit Types (s : SliceImpl) (t : Task).

Lemma stable_Grouper keys : stable (Grouper_Predicate keys).
Proof.
  intros e. apply eq_iff_eq_true. by rewrite !Grouper_Predicate_spec, Grouper_Key_as_task.
Qed.

(** ** Shrinking *)

(** The new lower bound: at most every pending key and every iterator, at least
    the old one, and a valid key. *)
Lemma shrinkRange_spec sc its tr sc' tr' c :
  scope_ok sc → iters_ok store n (ScopeRange sc) its → tracker_ok store sc tr →
  shrinkRange (W := W) (E := E) sc its tr = (sc', tr', c) →
  scope_ok sc' ∧ iters_ok store n (ScopeRange sc') its ∧ tracker_ok store sc' tr' ∧
  ScopePredicate sc' = ScopePredicate sc ∧
  ExclusiveMax (ScopeRange sc') = ExclusiveMax (ScopeRange sc) ∧
  InclusiveMin (ScopeRange sc) ≤k InclusiveMin (ScopeRange sc') ∧
  pendingExecutables tr' = filter (λ kv, ex_state kv.2 ≠ TaskStateAcked) (pendingExecutables tr) ∧
  c = Z.of_nat (length (filter (λ kv, ex_state kv.2 = TaskStateAcked) (map_to_list (pendingExecutables tr)))) ∧
  (InclusiveMin (ScopeRange sc') = ExclusiveMax (ScopeRange sc) ∨
   is_Some (pendingExecutables tr' !! InclusiveMin (ScopeRange sc')) ∨
   ∃ i, head its = Some i ∧ InclusiveMin (ScopeRange sc') = InclusiveMin (iter_Range i)) ∧
  ∀ k e, pendingExecutables tr' !! k = Some e → is_Some (pendingPerKey tr' !! Grouper_Key (as_task e)).
Proof.
  intros ((V1 & V2 & V3) & Hwf & Hst) Hits [Hcv Htr] Esh. unfold shrinkRange in Esh.
  destruct (tracker_shrink tr) as [[tr1 minP] cnt] eqn:Et.
  apply tracker_shrink_spec in Et as (EP & Ec & Hmax & Hle & Hex & _ & Hc). destruct (Hc Hcv) as [Hcv1 Hg].
  set (minI := match its with [] => MaximumKey | i :: _ => InclusiveMin (iter_Range i) end) in *.
  injection Esh as <- <- <-. simpl.
  assert (Hsub : ∀ k e, pendingExecutables tr1 !! k = Some e → pendingExecutables tr !! k = Some e).
  { intros k e. rewrite EP, map_lookup_filter_Some. naive_solver. }
  assert (Hpk : ∀ k e, pendingExecutables tr1 !! k = Some e →
    valid_key k ∧ InclusiveMin (ScopeRange sc) ≤k k ∧ k <k ExclusiveMax (ScopeRange sc)).
  { intros k e Hk. destruct (Htr k e (Hsub _ _ Hk)) as (<- & Hin & [[??] _]%Contains_spec).
    split; [|done]. destruct Hstore as [_ Hv]. rewrite Forall_forall in Hv. auto. }
  assert (Hit : ∀ i, i ∈ its → valid_key (InclusiveMin (iter_Range i)) ∧ minI ≤k InclusiveMin (iter_Range i) ∧
    InclusiveMin (ScopeRange sc) ≤k InclusiveMin (iter_Range i) ∧
    InclusiveMin (iter_Range i) ≤k ExclusiveMax (ScopeRange sc)).
  { intros i Hi. destruct Hits as [Hss He]. destruct (He i Hi) as [Hok [C1 C2]%ContainsRange_spec].
    pose proof (iter_ok_wf _ _ _ Hok) as Hw. destruct Hok as [(? & ? & ?) _]. split; [done|].
    split; [|split; [done|eauto using key_le_trans]]. subst minI. destruct its as [|j its']; [by apply not_elem_of_nil in Hi|].
    apply elem_of_cons in Hi as [-> |Hi]; [apply key_le_refl|].
    apply StronglySorted_inv in Hss as [_ Hb]. destruct (He j ltac:(left)) as [Hj _].
    by eapply before_head. }
  assert (HminI : minI = MaximumKey ∨ ∃ i, head its = Some i ∧ i ∈ its ∧ minI = InclusiveMin (iter_Range i)).
  { subst minI. destruct its as [|i its']; [by left|right]. exists i. split; [done|]. split; [left|done]. }
  pose proof (valid_key_bounds _ V2) as [_ B2].
  set (m := if bool_decide (MinKey minP minI = MaximumKey) then ExclusiveMax (ScopeRange sc) else MinKey minP minI).
  assert (Hm1 : ∀ k, k ≤k ExclusiveMax (ScopeRange sc) → (minP ≤k k ∨ minI ≤k k) → m ≤k k).
  { intros k Hk1 Hk2. subst m. case_bool_decide as Em.
    - assert (MaximumKey ≤k k).
      { destruct Hk2 as [Hk2|Hk2]; (eapply key_le_trans; [|exact Hk2]); rewrite <- Em; clear; key_solve. }
      eauto using key_le_trans.
    - destruct Hk2 as [Hk2|Hk2]; (eapply key_le_trans; [|exact Hk2]); clear; key_solve. }
  assert (Hm2 : m = ExclusiveMax (ScopeRange sc) ∨ (∃ e, pendingExecutables tr1 !! m = Some e) ∨
                ∃ i, head its = Some i ∧ i ∈ its ∧ m = InclusiveMin (iter_Range i)).
  { subst m. case_bool_decide as Em; [by left|right].
    assert (Hor : (MinKey minP minI = minP ∧ minP ≠ MaximumKey) ∨ (MinKey minP minI = minI ∧ minI ≠ MaximumKey)).
    { destruct (key_le_total minP minI) as [Hk|Hk]; [rewrite (MinKey_l _ _ Hk) in Em|rewrite (MinKey_r _ _ Hk) in Em];
        [left; rewrite (MinKey_l _ _ Hk)|right; rewrite (MinKey_r _ _ Hk)]; done. }
    destruct Hor as [[-> Hn]|[-> Hn]]; [left|right].
    - by destruct Hex as [? |?].
    - by destruct HminI as [? |?]. }
  assert (Hmv : valid_key m ∧ InclusiveMin (ScopeRange sc) ≤k m ∧ m ≤k ExclusiveMax (ScopeRange sc)).
  { destruct Hm2 as [-> |[(e & He)|(i & _ & Hi & ->)]].
    - auto using key_le_refl.
    - destruct (Hpk _ _ He) as (? & ? & ?). auto using key_lt_le.
    - destruct (Hit i Hi) as (? & _ & ? & ?). auto. }
  destruct Hmv as (M1 & M2 & M3).
  split; [|split; [|split; [|do 4 (split; [done|])]]]; [| | |split; [done|split; [|done]]].
  - split; [done|]. by split.
  - destruct Hits as [Hss He]. split; [done|]. intros i Hi. destruct (He i Hi) as [? [C1 C2]%ContainsRange_spec].
    split; [done|]. apply ContainsRange_spec. simpl. split; [|done].
    destruct (Hit i Hi) as (_ & ? & _ & ?). auto.
  - split; [done|]. intros k e Hk. destruct (Htr k e (Hsub _ _ Hk)) as (Ek & Hin & [[??] Ht]%Contains_spec).
    split; [done|]. split; [done|]. apply Contains_spec. split; [|done]. split; [|done]. simpl.
    rewrite Ek. apply Hm1; [|left; by eapply Hle]. destruct (Hpk k e Hk) as (_ & _ & ?). by apply key_lt_le.
  - destruct Hm2 as [? |[?|(i & ? & _ & ?)]]; [by left|by right; left|right; right; by exists i].
Qed.

Lemma shrinkPredicate_spec sc its tr :
  scope_ok sc → tracker_ok store sc tr →
  (∀ k e, pendingExecutables tr !! k = Some e → is_Some (pendingPerKey tr !! Grouper_Key (as_task e))) →
  let sc' := shrinkPredicate sc its tr in
  scope_ok sc' ∧ tracker_ok store sc' tr ∧ ScopeRange sc' = ScopeRange sc ∧ (its ≠ [] → sc' = sc).
Proof.
  intros Hsc Htr Hg. unfold Slice.shrinkPredicate. cbn zeta.
  destruct its as [|i its]; [|by split_and!]. destruct (_ <? _)%nat; [by split_and!|].
  set (sc1 := mkScope (ScopeRange sc) (Grouper_Predicate _)).
  assert (H1 : scope_ok sc1).
  { destruct Hsc as (? & _ & _). split; [done|]. split; [apply Grouper_Predicate_wf|apply stable_Grouper]. }
  split; [by apply ensure_ok|]. split; [|split; [apply (ensure_range _ _ sc1)|done]].
  destruct Htr as [Hcv Htr]. split; [done|]. intros k e Hk.
  destruct (Htr k e Hk) as (? & ? & [Hr _]%Contains_spec). split; [done|]. split; [done|].
  apply ensure_contains, Contains_spec. split; [done|]. apply Grouper_Predicate_spec.
  rewrite <- Grouper_Key_as_task. destruct (Hg k e Hk) as [c Hc]. apply list_elem_of_In, in_map_iff.
  exists (Grouper_Key (as_task e), c). split; [done|]. by apply list_elem_of_In, elem_of_map_to_list.
Qed.

(** What [ShrinkScope] does. *)
Record shrunk s s' (c : Z) : Prop := {
  shrunk_inv : slice_inv s';
  shrunk_id : slice_id s' = slice_id s;
  shrunk_iterators : iterators s' = iterators s;
  shrunk_max : smax s' = smax s;
  shrunk_min : smin s ≤k smin s';
  shrunk_pending : pending s' = filter (λ kv, ex_state kv.2 ≠ TaskStateAcked) (pending s);
  shrunk_count :
    c = Z.of_nat (length (filter (λ kv, ex_state kv.2 = TaskStateAcked) (map_to_list (pending s))));
  shrunk_preserves : preserves store [s] [s'];
  shrunk_tight :
    smin s' = smax s ∨ is_Some (pending s' !! smin s') ∨
    ∃ i, head (iterators s) = Some i ∧ smin s' = InclusiveMin (iter_Range i);
}.

Lemma ShrinkScope_wp s w (Φ : SliceImpl * Z → World W → Prop) :
  slice_inv s → (∀ s' c w', shrunk s s' c → step w w' → Φ (s', c) w') → wp (ShrinkScope s) Φ w.
Proof.
  intros Hs HΦ. unfold Slice.ShrinkScope. wp_steps.
  apply stateSanityCheck_wp; [apply Hs|]. pose proof Hs as [Hlive Hsc Hits (tr & Etr & Htr)].
  rewrite Etr. wp_steps. destruct (shrinkRange (scope s) (iterators s) tr) as [[sc1 tr1] c] eqn:Es.
  apply shrinkRange_spec in Es as (Hsc1 & Hits1 & Htr1 & EP & EM & Hmin & Epend & Ec & Htight & Hg); [|done..].
  destruct (shrinkPredicate_spec sc1 (iterators s) tr1 Hsc1 Htr1 Hg) as (Hsc2 & Htr2 & ER & Hsame).
  wp_steps. apply setPendingCount_wp. intros w1 St. wp_steps. apply HΦ; [|done].
  set (sc2 := shrinkPredicate sc1 (iterators s) tr1) in *.
  split; simpl; [|done|done|by rewrite ER|by rewrite ER| | | |].
  - split; simpl; [done|done|by rewrite ER|]. by exists tr1.
  - by rewrite (pending_tracker _ _ Etr).
  - by rewrite (pending_tracker _ _ Etr).
  - assert (Hkeep : ∀ k e, pendingExecutables tr1 !! k = Some e ↔
              pendingExecutables tr !! k = Some e ∧ ex_state e ≠ TaskStateAcked).
    { intros k e. by rewrite Epend, map_lookup_filter_Some. }
    split.
    + intros t Ht (x & ->%list_elem_of_singleton & Hc & Ho). left. eexists. split; [left|].
      destruct Ho as [Ho|(e & He & Hte & Ha)].
      * assert (Hne : iterators s ≠ []) by (intros E0; rewrite E0 in Ho; by apply in_iters_nil in Ho).
        split; simpl; [|by left]. rewrite (Hsame Hne). apply Contains_spec. rewrite EP.
        apply Contains_spec in Hc as [_ Hc]. split; [|done]. by apply (in_iters_range store n _ _ (iterators s)).
      * rewrite (pending_tracker _ _ Etr) in He.
        assert (He1 : pendingExecutables tr1 !! GetKey t = Some e) by (by apply Hkeep).
        destruct (proj2 Htr2 _ _ He1) as (_ & _ & Hc2). rewrite Hte in Hc2. split; simpl; [done|].
        right. by exists e.
    + intros s' k e ->%list_elem_of_singleton He. exists s. split; [left|].
      rewrite (pending_tracker _ _ Etr). by apply Hkeep.
  - rewrite ER. exact Htight.
Qed.

(** ** Clearing *)

Lemma Clear_wp s w (Φ : SliceImpl → World W → Prop) :
  slice_inv s →
  (∀ s' w', slice_inv s' → slice_id s' = slice_id s → smax s' = smax s → smin s ≤k smin s' →
     pending s' = ∅ → preserves store [s] [s'] → step w w' → Φ s' w') →
  wp (Clear s) Φ w.
Proof.
  intros Hs HΦ. unfold Slice.Clear. wp_steps. apply stateSanityCheck_wp; [apply Hs|]. wp_steps.
  apply ShrinkScope_wp; [done|]. intros s1 c w1 Hsh St1.
  pose proof (shrunk_inv _ _ _ Hsh) as Hs1. pose proof Hs1 as [Hlive Hsc Hits (tr & Etr & Htr)].
  rewrite Etr. wp_steps. apply setPendingCount_wp. intros w2 St2. wp_steps.
  apply HΦ; simpl; [|apply Hsh|apply Hsh|apply Hsh|done| |by rewrite St1].
  - destruct Hsc as (Hrv & ? & ?). split; simpl; [done|by split_and!| |].
    + apply iters_ok_cons. split; [apply iters_ok_nil|]. split; [by apply NewIterator_ok|].
      split; [apply ContainsRange_refl|done].
    + eexists. split; [done|]. split; [apply covered_new|]. intros k e Hk. simpl in Hk; by rewrite lookup_empty in Hk.
  - etrans; [apply Hsh|]. split.
    + intros t Ht (x & ->%list_elem_of_singleton & Hc & _). left. eexists. split; [left|].
      split; simpl; [done|left]. apply in_iters_cons. left. by apply Contains_spec in Hc as [? _].
    + intros x k e ->%list_elem_of_singleton He. unfold pending in He. simpl in He.
      by rewrite lookup_empty in He.
Qed.

(** ** Loading *)

Section select.
Context (pageFuel : nat) (Hprov : provider_ok provider store n) (Hfuel : (n < pageFuel)%nat).
Abbreviation Iter := (@IteratorImpl W E).
Abbreviation select_loop := (select_loop provider pageFuel).
Abbreviation SelectTasks := (SelectTasks provider options pageFuel).

(** What the iterators of a slice will deliver, in order. *)
Definition todo_of (p : TaskPredicate) (its : list Iter) : list Task :=
  concat (map (λ i, filter (λ t, Test p t = true) (tasks_in store (iter_Range i))) its).
Definition todo s : list Task := todo_of (ScopePredicate (scope s)) (iterators s).

(** Turns the loop can take: one per task and one per iterator. *)
Definition turns (its : list Iter) : nat :=
  foldr (λ i acc, S (length (tasks_in store (iter_Range i)) + acc)) O its.

Definition track_all (m : gmap Key Executable) (es : list Executable) : gmap Key Executable :=
  fold_left (λ m e, <[GetKey (ex_task e) := e]> m) es m.

Lemma todo_elem s t :
  slice_inv s → t ∈ todo s ↔ t ∈ store ∧ Contains (scope s) t = true ∧ in_iters (GetKey t) (iterators s).
Proof.
  intros Hs. unfold todo, todo_of. rewrite list_elem_of_In, in_concat.
  setoid_rewrite in_map_iff. setoid_rewrite <- list_elem_of_In. split.
  - intros (l & (i & <- & Hi) & [Ht [Hr Hin]%tasks_in_elem]%list_elem_of_filter).
    assert (Hii : in_iters (GetKey t) (iterators s)) by (by exists i).
    split; [done|]. split; [|done]. apply Contains_spec. split; [|done].
    eapply in_iters_range; [apply Hs|done].
  - intros (Hin & [_ Ht]%Contains_spec & (i & Hi & Hr)). eexists. split; [by exists i|].
    apply list_elem_of_filter. split; [done|]. by apply tasks_in_elem.
Qed.

Lemma set_iterators_inv s its :
  slice_inv s → iters_ok store n (ScopeRange (scope s)) its → slice_inv (set_iterators s its).
Proof. intros [H1 H2 H3 H4] Hi. by split. Qed.

(** What a run of the loop from [acc] delivers. *)
Record selected s (acc : list Executable) (batchSize : Z) (r : E + list Executable) s' : Prop := {
  sel_inv : slice_inv s';
  sel_scope : scope s' = scope s;
  sel_id : slice_id s' = slice_id s;
  sel_result :
    match r with
    | inl _ => acc = [] ∧ todo s' = todo s ∧ pending s' = pending s
    | inr es =>
        ∃ new, es = acc ++ map NewExecutable new ∧ todo s = new ++ todo s' ∧
          pending s' = track_all (pending s) (map NewExecutable new) ∧
          (new = [] ∨ Z.of_nat (length es) ≤ batchSize) ∧
          (es = [] → iterators s' = [] ∨ batchSize ≤ 0)
    end;
}.

Definition same_ids (w w' : World W) : Prop := nextSliceID w' = nextSliceID w.

Lemma q_iter_wp {A} (f : W → outcome stuck (A * W * Iter)) a w1 i w (Φ : A * Iter → World W → Prop) :
  f (persistence w) = Ok (a, w1, i) →
  Φ (a, i) (mkWorld (nextSliceID w) (monitor w) (now w) w1) → wp (q_iter f) Φ w.
Proof. unfold wp, q_iter. by intros ->. Qed.

Lemma iters_replace r (i i' : Iter) its :
  iters_ok store n r (i :: its) → iter_ok store n i' →
  ContainsRange (iter_Range i) (iter_Range i') = true → iters_ok store n r (i' :: its).
Proof.
  rewrite !iters_ok_cons. intros (Hok & _ & Hc & Hb) Hi' Hcc. split; [done|]. split; [done|].
  apply ContainsRange_spec in Hc as [??]. pose proof Hcc as [??]%ContainsRange_spec. split.
  - apply ContainsRange_spec. eauto using key_le_trans.
  - by eapply before_sub.
Qed.

(** Tracking a task just read. *)
Lemma tracked_inv s i' its tr t :
  slice_inv s → iters_ok store n (ScopeRange (scope s)) (i' :: its) → tracker s = Some tr →
  t ∈ store → Contains (scope s) t = true →
  slice_inv (set_tracker (set_iterators s (i' :: its)) (tracker_add tr (NewExecutable t))).
Proof.
  intros [H1 H2 H3 (tr' & E1 & Hcv & Htr)] Hits Etr Hin Hc. rewrite Etr in E1. simplify_eq. split; [done..|].
  eexists. split; [done|]. split; [by apply tracker_add_covered|]. intros k e. simpl.
  rewrite lookup_insert_Some. intros [[<- <-]|[_ Hk]]; [done|]. by apply Htr.
Qed.

Lemma select_loop_wp fuel batchSize s acc w (Φ : (E + list Executable) * SliceImpl → World W → Prop) :
  slice_inv s → (turns (iterators s) < fuel)%nat →
  (∀ r s' w', selected s acc batchSize r s' → same_ids w w' → Φ (r, s') w') →
  wp (select_loop fuel batchSize s acc) Φ w.
Proof.
  revert s acc w. induction fuel as [|fuel IH]; intros s acc w Hs Hf HΦ; [lia|]. cbn [Slice.select_loop].
  assert (Hstop : ∀ es, es = acc → (acc = [] → iterators s = [] ∨ batchSize ≤ 0) → selected s acc batchSize (inr es) s).
  { intros es -> Hne. split; [done..|]. exists []. rewrite app_nil_r. split; [done|]. split; [done|].
    split; [done|]. split; [by left|done]. }
  destruct (Z.of_nat (length acc) <? batchSize) eqn:Eb; cbn [negb]; bool_to_prop.
  2: { wp_steps. apply HΦ; [|done]. apply Hstop; [done|]. intros ->. right. simpl in *. lia. }
  destruct (iterators s) as [|it its] eqn:Eits.
  { wp_steps. apply HΦ; [|done]. apply Hstop; [done|]. auto. }
  pose proof (inv_iters _ _ _ Hs) as Hits. rewrite Eits in Hits.
  pose proof Hits as (Hits' & Hit & Hc & Hb)%iters_ok_cons.
  destruct (HasNext_ok provider store n pageFuel (persistence w) it Hprov Hit Hfuel)
    as (b & w1 & it1 & EH & ER1 & Hit1 & Hb0 & Hb1).
  wp_steps. eapply q_iter_wp; [exact EH|]. wp_steps.
  destruct b; cbn [negb].
  2: { (* the iterator is exhausted *)
    apply IH; [by apply set_iterators_inv| |].
    - simpl in *. lia.
    - intros r s' w' Hsel Hid. apply HΦ; [|done]. destruct Hsel as [S1 S2 S3 S4]. split; [done..|].
      assert (Et : todo s = todo (set_iterators s its)).
      { unfold todo, todo_of. rewrite Eits. simpl. unfold iter_Range. by rewrite Hb0. }
      destruct r; rewrite Et; done. }
  destruct (Hb1 eq_refl) as (p & Ep & Hready). wp_steps.
  set (w1' := mkWorld _ _ _ w1).
  destruct (Next_ok provider store n pageFuel (persistence w1') it1 p Hstore Hprov Hit1 Hfuel Ep Hready)
    as [(err & w2 & it2 & EN & ER2)|(t & w2 & it2 & EN & Hit2 & HC2 & ET)];
    (eapply q_iter_wp; [exact EN|]); wp_steps.
  - (* the read failed *)
    assert (Hs2 : slice_inv (set_iterators s (Remaining it2 :: its))).
    { apply set_iterators_inv; [done|]. eapply iters_replace; [done| |].
      - apply NewIterator_ok. rewrite ER2, ER1. apply Hit.
      - unfold iter_Range. simpl. rewrite ER2, ER1. apply ContainsRange_refl. }
    assert (Et : todo (set_iterators s (Remaining it2 :: its)) = todo s).
    { unfold todo, todo_of, iter_Range. rewrite Eits. simpl. by rewrite ER2, ER1. }
    destruct acc as [|e acc]; wp_steps; (apply HΦ; [|done]); split; try done.
    exists []. rewrite app_nil_r, Et. split_and!; try done. by left.
  - (* a task was read *)
    assert (Hitt : t ∈ tasks_in store (iter_Range it)).
    { unfold iter_Range. rewrite <- ER1, ET. left. }
    apply tasks_in_elem in Hitt as [Hkr Hin].
    assert (Hrange : in_range (GetKey t) (ScopeRange (scope s))).
    { apply (in_iters_range store n _ _ (it :: its)); [done|]. apply in_iters_cons. by left. }
    assert (Hits2 : iters_ok store n (ScopeRange (scope s)) (it2 :: its)).
    { eapply iters_replace; [done..|]. unfold iter_Range. by rewrite <- ER1. }
    assert (Hturns : (turns (it2 :: its) < fuel)%nat).
    { simpl in *. unfold iter_Range in *. rewrite <- ER1, ET in Hf. simpl in Hf. lia. }
    cbn [scope set_iterators]. rewrite (proj2 (ContainsKey_spec _ _) Hrange). cbn [negb].
    assert (Et : todo s = (if Test (ScopePredicate (scope s)) t then [t] else []) ++
                          todo (set_iterators s (it2 :: its))).
    { unfold todo, todo_of, iter_Range. rewrite Eits. simpl. rewrite <- ER1, ET, filter_cons.
      by destruct (Test (ScopePredicate (scope s)) t). }
    destruct (Test (ScopePredicate (scope s)) t) eqn:Etest; cbn [negb].
    + pose proof (inv_tracker _ _ _ Hs) as (tr & Etr & _). cbn [tracker set_iterators]. rewrite Etr. wp_steps.
      apply IH; [|done|].
      * apply tracked_inv; [done..|]. by apply Contains_spec.
      * intros r s' w' [S1 S2 S3 S4] Hid. apply HΦ; [|done]. split; [done..|].
        destruct r as [err|es]; [by destruct S4 as [?%app_nil [_ _]]; naive_solver|].
        destruct S4 as (new & -> & Hn & Hp & Hl & He). exists (t :: new).
        split; [by rewrite <- app_assoc|]. split; [rewrite Et; cbn [app]; f_equal; exact Hn|].
        split; [rewrite Hp; unfold track_all; simpl; by rewrite (pending_tracker _ _ Etr)|].
        split; [right|intros He0; by apply He in He0].
        destruct Hl as [-> |?]; [|done]. simpl. rewrite !length_app. simpl. lia.
    + apply IH; [by apply set_iterators_inv|done|].
      intros r s' w' [S1 S2 S3 S4] Hid. apply HΦ; [|done]. split; [done..|].
      destruct r; rewrite Et; done.
Qed.

Lemma SelectTasks_wp fuel s batchSize w (Φ : (E + list Executable) * SliceImpl → World W → Prop) :
  slice_inv s → 0 ≤ batchSize → (turns (iterators s) < fuel)%nat →
  (∀ r s' w', selected s [] batchSize r s' → same_ids w w' → Φ (r, s') w') →
  wp (SelectTasks fuel s batchSize) Φ w.
Proof.
  intros Hs Hb Hf HΦ. unfold Slice.SelectTasks. wp_steps. apply stateSanityCheck_wp; [apply Hs|].
  destruct (iterators s) as [|i its] eqn:Ei.
  - wp_steps. apply HΦ; [|done]. split; [done..|]. exists []. split_and!; try done; by left.
  - rewrite (proj2 (Z.ltb_ge _ _) Hb). wp_steps. rewrite <- Ei in Hf. apply select_loop_wp; [done..|].
    intros r s' w' Hsel Hid. wp_steps. by apply HΦ.
Qed.

(** Loading hands tasks over from the iterators to the tracker; a task loaded
    again replaces what was tracked under its key. *)
Lemma track_all_spec m es k :
  (∃ e, e ∈ es ∧ GetKey (ex_task e) = k ∧ track_all m es !! k = Some e) ∨
  ((∀ e, e ∈ es → GetKey (ex_task e) ≠ k) ∧ track_all m es !! k = m !! k).
Proof.
  revert m. induction es as [|e0 es IH]; intros m; simpl.
  { right. split; [|done]. intros e He. by apply not_elem_of_nil in He. }
  destruct (IH (<[GetKey (ex_task e0) := e0]> m)) as [(e & He & Hk & El)|[Hne El]].
  - left. exists e. split; [by right|done].
  - rewrite El. destruct (decide (GetKey (ex_task e0) = k)) as [<-|Hk].
    + left. exists e0. split; [left|]. split; [done|]. apply lookup_insert_eq.
    + right. split; [intros e [-> |He]%elem_of_cons; auto|]. by rewrite lookup_insert_ne.
Qed.

Lemma selected_owes s batchSize r s' t :
  slice_inv s → selected s [] batchSize r s' → t ∈ store → owes s t → owes s' t.
Proof.
  intros Hs [Hs' Esc _ Hr] Ht [Hc Ho]. split; [by rewrite Esc|].
  assert (Htodo : t ∈ todo s' → in_iters (GetKey t) (iterators s')) by (intros (_ & _ & ?)%(todo_elem s'); done).
  destruct r as [err|es].
  - destruct Hr as (_ & Et & Ep). rewrite Ep. destruct Ho as [Ho|Ho]; [left|by right].
    apply Htodo. rewrite Et. by apply todo_elem.
  - destruct Hr as (new & -> & Et & Ep & _). cbn [app] in *.
    destruct (track_all_spec (pending s) (map NewExecutable new) (GetKey t)) as [(e & He & Hk & El)|[Hne El]];
      rewrite <- Ep in El.
    + right. exists e. split; [done|]. destruct (inv_tracker _ _ _ Hs') as (tr & Etr & _ & Htr).
      rewrite (pending_tracker _ _ Etr) in El. destruct (Htr _ _ El) as (_ & Hin & _).
      split; [by apply (store_key_inj store Hstore)|].
      by apply list_elem_of_In, in_map_iff in He as (t' & <- & _).
    + rewrite El. destruct Ho as [Ho|Ho]; [left|by right]. apply Htodo.
      assert (Hin : t ∈ todo s) by (by apply todo_elem). rewrite Et in Hin.
      apply elem_of_app in Hin as [Hin|?]; [|done]. exfalso. apply (Hne (NewExecutable t)); [|done].
      apply list_elem_of_In, in_map_iff. exists t. split; [done|]. by apply list_elem_of_In.
Qed.

(** What is tracked after loading is new and pending, or was tracked before. *)
Lemma selected_acked s batchSize r s' t :
  selected s [] batchSize r s' → acked s' t → acked s t.
Proof.
  intros [_ _ _ Hr] (e & He & Ht & Ha). destruct r as [err|es].
  - destruct Hr as (_ & _ & Ep). rewrite Ep in He. by exists e.
  - destruct Hr as (new & -> & _ & Ep & _). rewrite Ep in He. cbn [app] in He.
    destruct (track_all_spec (pending s) (map NewExecutable new) (GetKey t)) as [(e' & Hin & _ & El)|[_ El]].
    + rewrite El in He. simplify_eq. by apply list_elem_of_In, in_map_iff in Hin as (t' & <- & _).
    + rewrite El in He. by exists e.
Qed.
End select.
End load.
