(* ===== verification/SliceProps.v ===== *)
(** * Properties of slices

    The operations of [service/history/queues/slice.go] as the reader calls
    them: each returns (no panic is reachable and the loops terminate), keeps the
    invariant of the slices and loses no task. *)
From S2P Require Import Prelude TaskKey TaskRange Predicates TaskPredicates TaskScope Monitor PagingIterator.
From S2P Require Import TaskIterator Tracker QueueWorld Slice SliceIterators SliceSpec SliceLoad.
Local Open Scope Z_scope.
Local Open Scope queue_scope.
Local Open Scope key_scope.

Section props.
Context {W E GK : Type} `{Countable GK} {G : Grouper GK} {GL : GrouperLaws GK}.
Context (provider : PaginationFnProvider (W := W) (E := E)).
Context (options : MonitorOptions) (maxPredicateSize EmptyPredicateProtoSize : Z) (pageFuel : nat).
Context (store : list Task) (n : nat).

Abbreviation SliceImpl := (@SliceImpl W E GK _ _).
Abbreviation slice_inv := (slice_inv (W := W) (E := E) (GK := GK) store n).
Abbreviation preserves := (preserves (W := W) (E := E) (GK := GK) store).
Abbreviation smin s := (InclusiveMin (ScopeRange (scope s))).
Abbreviation smax s := (ExclusiveMax (ScopeRange (scope s))).
Implicit Types (s : SliceImpl) (t : Task).

Lemma NewSlice_wp sc w (Φ : SliceImpl → World W → Prop) :
  scope_ok sc →
  (∀ s w', slice_inv s → ScopeRange (scope s) = ScopeRange sc → pending s = ∅ → step w w' → fresh w s w' →
     (∀ t, Contains sc t = true → owes s t) → Φ s w') →
  wp (NewSlice maxPredicateSize EmptyPredicateProtoSize sc) Φ w.
Proof.
  intros Hsc HΦ. unfold NewSlice. wp_steps. pose proof Hsc as (Hrv & _).
  apply HΦ; [|apply ensure_range|done|split; simpl; [lia|done]|unfold fresh; simpl; lia|].
  - apply make_inv; [done| |].
    + apply iters_ok_cons. split; [apply iters_ok_nil|]. split; [by apply NewIterator_ok|].
      split; [apply ContainsRange_refl|done].
    + split; [apply covered_new|]. intros k e Hk. simpl in Hk. by rewrite lookup_empty in Hk.
  - intros t Hc. apply make_owes_iter; [done|]. apply in_iters_cons. left. by apply Contains_spec in Hc as [? _].
Qed.

(** Splitting a slice: [SplitByRange] panics exactly on a key its [CanSplitByRange] rejects; otherwise
    both ways of splitting return two slices that satisfy the invariant and between them owe
    every task the slice owed, whether it was still in persistence or already tracked, with no
    executable invented, even when the size limit widens a predicate. *)
Theorem slice_split_safe s key predicate w :
  slice_inv s → valid_key key → Predicates.wf predicate = true → stable predicate →
  (if CanSplitByRange (scope s) key then
     ∃ l r w', slice_SplitByRange options maxPredicateSize EmptyPredicateProtoSize s key w = Ok ((l, r), w') ∧
       slice_inv l ∧ slice_inv r ∧
       ScopeRange (scope l) = mkRange (smin s) key ∧ ScopeRange (scope r) = mkRange key (smax s) ∧
       preserves [s] [l; r]
   else slice_SplitByRange options maxPredicateSize EmptyPredicateProtoSize s key w = Panic) ∧
  ∃ pass fail w',
    slice_SplitByPredicate options maxPredicateSize EmptyPredicateProtoSize s predicate w = Ok ((pass, fail), w') ∧
    slice_inv pass ∧ slice_inv fail ∧ preserves [s] [pass; fail].
Proof.
  intros Hs Hv Hwf Hst. split.
  - unfold slice_SplitByRange, slice_CanSplitByRange, stateSanityCheck, qbind. rewrite (inv_live _ _ _ Hs). simpl.
    destruct (CanSplitByRange (scope s) key) eqn:Ec; [|done].
    cbn [negb]. wp_returns. eapply splitByRange_wp; [done..|].
    intros l r w' ? ? ? ? ? ? ? ? ? ?. by exists l, r, w'.
  - wp_returns. eapply slice_SplitByPredicate_wp; [done..|].
    intros pass fail w' ? ? ? ? ? ? ? ? ? ?. by exists pass, fail, w'.
Qed.

Context (Hstore : store_sorted store).

(** Merging two different live slices whose ranges overlap or touch never panics, whichever starts
    first and however the ranges nest: the result is a list of slices that satisfy the invariant, in key order
    without overlap, which owe every task either of the two owed (unless it was already acked) and hold only
    executables the two held. *)
Theorem slice_merge_safe s i w :
  slice_inv s → slice_inv i → slice_id s ≠ slice_id i →
  CanMerge (ScopeRange (scope s)) (ScopeRange (scope i)) = true →
  ∃ ms w', MergeWithSlice options maxPredicateSize EmptyPredicateProtoSize s i w = Ok (ms, w') ∧
    Forall slice_inv ms ∧ ordered ms ∧ preserves [s; i] ms.
Proof.
  intros Hs Hi Hid Hc. wp_returns. eapply (MergeWithSlice_wp _ _ _ _ _ Hstore); [done..|].
  intros ms w' H1 H2 EM. exists ms, w'. split; [exact EM|].
  destruct (key_le_total (smin s) (smin i)) as [Hle|Hle]; [|by apply H2].
  destruct (H1 Hle). done.
Qed.

(** Compacting two live slices, whatever their ranges, never panics (the merged iterators always
    pass [validateIteratorsOrderedDisjoint]); the result satisfies the invariant, spans both ranges and owes
    every task either of the two owed, unless it was already acked. *)
Theorem slice_compact_safe s i w :
  slice_inv s → slice_inv i →
  ∃ m w', CompactWithSlice options maxPredicateSize EmptyPredicateProtoSize s i w = Ok (m, w') ∧
    slice_inv m ∧ ContainsRange (ScopeRange (scope m)) (ScopeRange (scope s)) = true ∧
    ContainsRange (ScopeRange (scope m)) (ScopeRange (scope i)) = true ∧ preserves [s; i] [m].
Proof.
  intros Hs Hi. wp_returns. eapply (CompactWithSlice_wp _ _ _ _ _ Hstore); [done..|].
  intros m w' Hm Er Hp _ _ EC. exists m, w'. split; [exact EC|]. split; [done|]. rewrite Er.
  destruct (MinMax_contains (ScopeRange (scope s)) (ScopeRange (scope i))). done.
Qed.

(** [ShrinkScope] and [Clear] return and keep the invariant. Shrinking drops exactly the acked
    executables and counts them, never moves the lower bound of the scope back nor past a task the slice
    still owes, and moves it as far as it can: to the end of the range, to a pending task or to the first
    iterator. Clearing forgets the executables and leaves every unfinished task to be read again. *)
Theorem slice_shrink_clear_safe s w :
  slice_inv s →
  (∃ s' c w', ShrinkScope options maxPredicateSize EmptyPredicateProtoSize s w = Ok ((s', c), w') ∧
     slice_inv s' ∧ smax s' = smax s ∧ smin s ≤k smin s' ∧
     pending s' = filter (λ kv, ex_state kv.2 ≠ TaskStateAcked) (pending s) ∧
     c = Z.of_nat (length (filter (λ kv, ex_state kv.2 = TaskStateAcked) (map_to_list (pending s)))) ∧
     preserves [s] [s'] ∧
     (smin s' = smax s ∨ is_Some (pending s' !! smin s') ∨
      ∃ i, head (iterators s) = Some i ∧ smin s' = InclusiveMin (iter_Range i))) ∧
  (∃ s' w', Clear options maxPredicateSize EmptyPredicateProtoSize s w = Ok (s', w') ∧
     slice_inv s' ∧ pending s' = ∅ ∧ preserves [s] [s']).
Proof.
  intros Hs. split.
  - wp_returns. eapply (ShrinkScope_wp _ _ _ _ _ Hstore); [done..|]. intros s' c w' Hsh _ ES.
    exists s', c, w'. split; [exact ES|]. by destruct Hsh.
  - wp_returns. eapply (Clear_wp _ _ _ _ _ Hstore); [done..|]. intros s' w' ? ? ? ? ? ? ? EC.
    exists s', w'. by split.
Qed.

Context (Hprov : provider_ok provider store n) (Hfuel : (n < pageFuel)%nat).

(** C38 [SelectTasks] on a store that serves its tasks in key order, reads allowed to fail at any time,
    terminates without a panic and without skipping or reordering: what it returns is exactly the next tasks
    the slice had to load, at most [batchSize] of them, each tracked as pending; a read error loses nothing
    (the failed iterator restarts from what remains) and is reported only when no task was read; an empty
    result without error means nothing is left. *)
Theorem SelectTasks_correct fuel s batchSize w :
  slice_inv s → 0 ≤ batchSize → (turns store (iterators s) < fuel)%nat →
  ∃ r s' w', SelectTasks provider options pageFuel fuel s batchSize w = Ok ((r, s'), w') ∧
    slice_inv s' ∧ scope s' = scope s ∧
    (∀ t, t ∈ store → owes s t → owes s' t) ∧
    match r with
    | inl _ => todo store s' = todo store s ∧ pending s' = pending s
    | inr es =>
        ∃ new, es = map NewExecutable new ∧ todo store s = new ++ todo store s' ∧
          pending s' = track_all (pending s) es ∧
          Z.of_nat (length es) ≤ batchSize ∧ (es = [] → iterators s' = [] ∨ batchSize = 0)
    end.
Proof.
  intros Hs Hbs Hf. wp_returns. apply (SelectTasks_wp provider options store n Hstore pageFuel Hprov Hfuel); [done..|].
  intros r s' w' Hsel _ ES. exists r, s', w'. split; [exact ES|].
  split; [apply Hsel|]. split; [apply Hsel|]. split; [intros t Ht Ho; by eapply (selected_owes store n Hstore s)|].
  destruct Hsel as [_ _ _ Hr]. destruct r as [err|es]; [by destruct Hr as (_ & ? & ?)|].
  destruct Hr as (new & -> & Hn & Hp & Hl & He). exists new. split; [done|]. split; [done|]. split; [done|].
  split; [destruct Hl as [-> |?]; simpl in *; lia|]. intros He0. destruct (He He0); [by left|right; lia].
Qed.
End props.

(** ** Witnesses: a store of three tasks that fails a given number of reads *)

Definition sample_store : list Task := [sample_task 2 "n1"; sample_task 4 "n2"; sample_task 7 "n1"].

Definition sample_provider : PaginationFnProvider (W := nat) (E := string) :=
  λ r w tok, match w with
             | O => (O, inr (tasks_in sample_store r, []))
             | S w' => (w', inl "unavailable")
             end.

Lemma sample_provider_ok : provider_ok sample_provider sample_store 0.
Proof. intros r w. destruct w; simpl; [|done]. exists []. by rewrite app_nil_r. Qed.

Lemma sample_store_sorted : store_sorted sample_store.
Proof. split; repeat constructor; by_decide. Qed.

Definition sample_options : MonitorOptions := mkMonitorOptions 100 3 10.
Definition sample_world (failures : nat) : World nat := mkWorld 9 (newMonitor CategoryTypeImmediate) 0 failures.

Definition sample_slice (id : SliceID) (lo hi : Z) (ns : list string) : @SliceImpl nat string string _ _ :=
  mkSlice id false (mkScope (mkRange (mkKey 0 lo) (mkKey 0 hi)) (ns_pred ns))
    [NewIterator (mkRange (mkKey 0 lo) (mkKey 0 hi))] (Some newExecutableTracker).

Lemma ns_pred_stable ns : stable (ns_pred ns).
Proof. done. Qed.

Lemma sample_slice_inv id lo hi ns :
  0 ≤ lo ≤ hi → hi ≤ MaxInt64 → slice_inv sample_store 0 (sample_slice id lo hi ns).
Proof.
  intros Hlo Hhi. assert (Hrv : range_valid (mkRange (mkKey 0 lo) (mkKey 0 hi))).
  { unfold range_valid, valid_key, range_wf, key_le, key_lt. simpl. int_bounds. lia. }
  split; [done|by split_and!| |].
  - apply iters_ok_cons. split; [apply iters_ok_nil|]. split; [by apply NewIterator_ok|].
    split; [apply ContainsRange_refl|done].
  - eexists. split; [done|]. split; [apply covered_new|]. intros k e Hk. simpl in Hk. by rewrite lookup_empty in Hk.
Qed.

Lemma slice_split_safe_witness :
  let s := sample_slice 1 1 9 ["n1"; "n2"] in
  CanSplitByRange (scope s) (mkKey 0 4) = true ∧
  ∃ l r w', slice_SplitByRange sample_options 0 2 s (mkKey 0 4) (sample_world 0) = Ok ((l, r), w') ∧
    preserves sample_store [s] [l; r].
Proof.
  intros s. split; [reflexivity|].
  destruct (slice_split_safe sample_options 0 2 sample_store 0 s (mkKey 0 4) (ns_pred ["n1"]) (sample_world 0))
    as [(l & r & w' & E & _ & _ & _ & _ & Hp) _].
  - apply sample_slice_inv; [lia|int_bounds; lia].
  - by_decide.
  - reflexivity.
  - apply ns_pred_stable.
  - exact (ex_intro _ l (ex_intro _ r (ex_intro _ w' (conj E Hp)))).
Defined.

Lemma slice_merge_safe_witness :
  let s := sample_slice 1 1 5 ["n1"] in
  let i := sample_slice 2 3 9 ["n2"] in
  match MergeWithSlice sample_options 0 2 s i (sample_world 0) with
  | Ok (ms, _) => map (λ m, ScopeRange (scope m)) ms =
      [mkRange (mkKey 0 1) (mkKey 0 3); mkRange (mkKey 0 3) (mkKey 0 5); mkRange (mkKey 0 5) (mkKey 0 9)]
  | _ => False
  end ∧
  ∃ ms w', MergeWithSlice sample_options 0 2 s i (sample_world 0) = Ok (ms, w') ∧
    Forall (slice_inv sample_store 0) ms ∧ ordered ms ∧ preserves sample_store [s; i] ms.
Proof.
  intros s i. split; [vm_compute; reflexivity|].
  apply (slice_merge_safe sample_options 0 2 sample_store 0 sample_store_sorted s i (sample_world 0)).
  - apply sample_slice_inv; [lia|int_bounds; lia].
  - apply sample_slice_inv; [lia|int_bounds; lia].
  - done.
  - reflexivity.
Defined.

Lemma slice_compact_safe_witness :
  let s := sample_slice 1 1 3 ["n1"] in
  let i := sample_slice 2 6 9 ["n2"] in
  ∃ m w', CompactWithSlice sample_options 0 2 s i (sample_world 0) = Ok (m, w') ∧
    slice_inv sample_store 0 m ∧ ContainsRange (ScopeRange (scope m)) (ScopeRange (scope s)) = true ∧
    ContainsRange (ScopeRange (scope m)) (ScopeRange (scope i)) = true ∧ preserves sample_store [s; i] [m].
Proof.
  intros s i.
  apply (slice_compact_safe sample_options 0 2 sample_store 0 sample_store_sorted s i (sample_world 0)).
  - apply sample_slice_inv; [lia|int_bounds; lia].
  - apply sample_slice_inv; [lia|int_bounds; lia].
Defined.

Lemma SelectTasks_correct_witness :
  let s := sample_slice 1 1 9 ["n1"] in
  match SelectTasks sample_provider sample_options 1 10 s 5 (sample_world 0) with
  | Ok ((r, s'), _) =>
      r = inr (map NewExecutable [sample_task 2 "n1"; sample_task 7 "n1"]) ∧ iterators s' = []
  | _ => False
  end ∧
  match SelectTasks sample_provider sample_options 1 10 s 5 (sample_world 1) with
  | Ok ((r, s'), _) => r = inl "unavailable" ∧ todo sample_store s' = todo sample_store s
  | _ => False
  end ∧
  ∃ r s' w', SelectTasks sample_provider sample_options 1 10 s 5 (sample_world 1) = Ok ((r, s'), w') ∧
    slice_inv sample_store 0 s' ∧ ∀ t, t ∈ sample_store → owes s t → owes s' t.
Proof.
  intros s. split; [vm_compute; split; reflexivity|]. split; [vm_compute; split; reflexivity|].
  destruct (SelectTasks_correct sample_provider sample_options 1 sample_store 0 sample_store_sorted
    sample_provider_ok (le_n 1) 10 s 5 (sample_world 1)) as (r & s' & w' & E & Hi & _ & Ho & _).
  - apply sample_slice_inv; [lia|int_bounds; lia].
  - lia.
  - vm_compute. lia.
  - exact (ex_intro _ r (ex_intro _ s' (ex_intro _ w' (conj E (conj Hi Ho))))).
Defined.

Lemma slice_shrink_clear_safe_witness :
  let s := sample_slice 1 1 9 ["n1"] in
  ∃ s' w', Clear sample_options 0 2 s (sample_world 0) = Ok (s', w') ∧
    slice_inv sample_store 0 s' ∧ pending s' = ∅ ∧ preserves sample_store [s] [s'].
Proof.
  intros s. eapply (slice_shrink_clear_safe sample_options 0 2 sample_store 0 sample_store_sorted s (sample_world 0)).
  apply sample_slice_inv; [lia|int_bounds; lia].
Defined.
