(* ===== verification/Reader.v ===== *)
(** * Queue readers: [service/history/queues/reader.go]

    A reader keeps its slices in key order and loads them one after the other.
    Every operation holds the reader's lock, so an operation is one step.

    [nextReadSlice] is a [*list.Element]: it identifies a slice of the list, or an
    element [ShrinkSlices] has removed from it meanwhile, which has no successor. *)
From S2P Require Import Prelude TaskKey TaskRange Predicates TaskPredicates TaskScope Monitor PagingIterator.
From S2P Require Import TaskIterator Tracker QueueWorld Slice.
Local Open Scope Z_scope.
Local Open Scope queue_scope.

(** [persistence.ScheduledTaskMinPrecision], one millisecond. *)
Definition ScheduledTaskMinPrecision : Z := 1000000.

Section reader.
Context {W E GK : Type} `{Countable GK} {G : Grouper GK}.
Context (provider : PaginationFnProvider (W := W) (E := E)).
Context (options : MonitorOptions) (maxPredicateSize EmptyPredicateProtoSize : Z) (pageFuel : nat).

Abbreviation SliceImpl := (@SliceImpl W E GK _ _).
Abbreviation Q := (Q W).

Inductive element :=
  | InList (id : SliceID)
  | Removed (s : SliceImpl).

(** Where [submit] sends an executable. *)
Inductive route := AddToRescheduler (fireTime : time) | TrySubmit.

Record ReaderImpl := mkReader {
  readerID : ReaderID;
  slices : list SliceImpl;
  nextReadSlice : option element;
  (** A pending value in the channel [notifyCh] of capacity one. *)
  notified : bool;
  (** [throttleTimer] is running. *)
  throttled : bool;
  (** Calls of [completionFn] so far. *)
  completions : nat;
}.

Definition set_slices (r : ReaderImpl) (ss : list SliceImpl) : ReaderImpl :=
  mkReader (readerID r) ss (nextReadSlice r) (notified r) (throttled r) (completions r).
Definition set_next (r : ReaderImpl) (e : option element) : ReaderImpl :=
  mkReader (readerID r) (slices r) e (notified r) (throttled r) (completions r).
Definition notify (r : ReaderImpl) : ReaderImpl :=
  mkReader (readerID r) (slices r) (nextReadSlice r) true (throttled r) (completions r).
Definition complete (r : ReaderImpl) : ReaderImpl :=
  mkReader (readerID r) (slices r) (nextReadSlice r) (notified r) (throttled r) (S (completions r)).
Definition pauseLocked (r : ReaderImpl) : ReaderImpl :=
  mkReader (readerID r) (slices r) (nextReadSlice r) (notified r) true (completions r).
Definition unthrottle (r : ReaderImpl) : ReaderImpl :=
  mkReader (readerID r) (slices r) (nextReadSlice r) (notified r) false (completions r).

Definition setSliceCount (r : ReaderImpl) : Q unit :=
  with_monitor (λ now m, SetSliceCount options now m (readerID r) (Z.of_nat (length (slices r)))).

Definition NewReader (rid : ReaderID) (ss : list SliceImpl) : Q ReaderImpl :=
  let r := mkReader rid ss (InList ∘ slice_id <$> head ss) false false 0 in
  do* setSliceCount r in
  qret r.

Fixpoint Scopes_loop (ss : list SliceImpl) : Q (list Scope) :=
  match ss with
  | [] => qret []
  | s :: rest =>
      let* sc := slice_Scope s in
      let* scs := Scopes_loop rest in
      qret (sc :: scs)
  end.
Definition Scopes (r : ReaderImpl) : Q (list Scope) := Scopes_loop (slices r).

(** [WalkSlices] with an iterator that computes with an accumulator. *)
Fixpoint walk_loop {A} (iterator : A → SliceImpl → Q A) (ss : list SliceImpl) (a : A) : Q A :=
  match ss with
  | [] => qret a
  | s :: rest => let* a := iterator a s in walk_loop iterator rest a
  end.
Definition WalkSlices {A} (r : ReaderImpl) (iterator : A → SliceImpl → Q A) (a : A) : Q A :=
  walk_loop iterator (slices r) a.

Fixpoint first_with_tasks (ss : list SliceImpl) : Q (option element) :=
  match ss with
  | [] => qret None
  | s :: rest =>
      let* more := MoreTasks s in
      if more then qret (Some (InList (slice_id s))) else first_with_tasks rest
  end.

Definition resetNextReadSliceLocked (r : ReaderImpl) : Q ReaderImpl :=
  let* e := first_with_tasks (slices r) in
  let r := set_next r e in
  match e with
  | Some _ => qret (notify r)
  | None => qret (complete r)
  end.

(** The slices of a list whose scope is not empty, as the loops that push them
    back one by one keep them. *)
Fixpoint push_nonempty (acc ss : list SliceImpl) : Q (list SliceImpl) :=
  match ss with
  | [] => qret acc
  | s :: rest =>
      let* sc := slice_Scope s in
      push_nonempty (if IsEmpty sc then acc else acc ++ [s]) rest
  end.

(** A splitter may keep state of its own, here [A]: the slices it sets aside. *)
Definition SliceSplitter (A : Type) := A → SliceImpl → Q (list SliceImpl * bool * A).

Fixpoint split_slices_loop {A} (splitter : SliceSplitter A) (ss acc : list SliceImpl) (a : A)
    : Q (list SliceImpl * A) :=
  match ss with
  | [] => qret (acc, a)
  | slice :: rest =>
      let* (newSlices, split, a) := splitter a slice in
      if split then
        let* acc := push_nonempty acc newSlices in
        split_slices_loop splitter rest acc a
      else split_slices_loop splitter rest (acc ++ [slice]) a
  end.

Definition SplitSlices {A} (r : ReaderImpl) (splitter : SliceSplitter A) (a : A) : Q (ReaderImpl * A) :=
  let* (splitSlices, a) := split_slices_loop splitter (slices r) [] a in
  let* r := resetNextReadSliceLocked (set_slices r splitSlices) in
  do* setSliceCount r in
  qret (r, a).

Definition mergeOrAppendSlice (ss : list SliceImpl) (incomingSlice : SliceImpl) : Q (list SliceImpl) :=
  let* sc := slice_Scope incomingSlice in
  if IsEmpty sc then qret ss
  else match last ss with
  | None => qret [incomingSlice]
  | Some lastSlice =>
      let* can := CanMergeWithSlice lastSlice incomingSlice in
      if negb can then qret (ss ++ [incomingSlice])
      else
        let* mergedSlices :=
          MergeWithSlice options maxPredicateSize EmptyPredicateProtoSize lastSlice incomingSlice in
        qret (removelast ss ++ mergedSlices)
  end.

Fixpoint merge_or_append_all (acc ss : list SliceImpl) : Q (list SliceImpl) :=
  match ss with
  | [] => qret acc
  | s :: rest => let* acc := mergeOrAppendSlice acc s in merge_or_append_all acc rest
  end.

Fixpoint merge_slices_loop (current : list SliceImpl) : list SliceImpl → list SliceImpl → Q (list SliceImpl) :=
  fix inner (incoming acc : list SliceImpl) : Q (list SliceImpl) :=
    match current, incoming with
    | currentSlice :: cs, incomingSlice :: ins =>
        let* csc := slice_Scope currentSlice in
        let* isc := slice_Scope incomingSlice in
        if CompareTo (InclusiveMin (ScopeRange csc)) (InclusiveMin (ScopeRange isc)) <? 0 then
          let* acc := mergeOrAppendSlice acc currentSlice in merge_slices_loop cs incoming acc
        else
          let* acc := mergeOrAppendSlice acc incomingSlice in inner ins acc
    | _, _ =>
        let* acc := merge_or_append_all acc current in merge_or_append_all acc incoming
    end.

Fixpoint validateSlicesOrderedDisjoint (ss : list SliceImpl) : Q unit :=
  match ss with
  | s :: (s' :: _) as rest =>
      let* sc := slice_Scope s in
      let* sc' := slice_Scope s' in
      if CompareTo (ExclusiveMax (ScopeRange sc)) (InclusiveMin (ScopeRange sc')) >? 0 then qpanic
      else validateSlicesOrderedDisjoint rest
  | _ => qret tt
  end.

Definition MergeSlices (r : ReaderImpl) (incomingSlices : list SliceImpl) : Q ReaderImpl :=
  match incomingSlices with
  | [] => qret r
  | _ =>
      do* validateSlicesOrderedDisjoint incomingSlices in
      let* mergedSlices := merge_slices_loop (slices r) incomingSlices [] in
      let* r := resetNextReadSliceLocked (set_slices r mergedSlices) in
      do* setSliceCount r in
      qret r
  end.

Definition AppendSlices (r : ReaderImpl) (incomingSlices : list SliceImpl) : Q ReaderImpl :=
  match incomingSlices with
  | [] => qret r
  | firstIncoming :: _ =>
      do* validateSlicesOrderedDisjoint incomingSlices in
      do* match last (slices r) with
          | None => qret tt
          | Some back =>
              let* lastScope := slice_Scope back in
              let* firstScope := slice_Scope firstIncoming in
              if CompareTo (ExclusiveMax (ScopeRange lastScope)) (InclusiveMin (ScopeRange firstScope)) >? 0
              then qpanic else qret tt
          end in
      let* ss := push_nonempty (slices r) incomingSlices in
      let* r := resetNextReadSliceLocked (set_slices r ss) in
      do* setSliceCount r in
      qret r
  end.

Fixpoint clear_loop (predicate : SliceImpl → bool) (ss : list SliceImpl) : Q (list SliceImpl) :=
  match ss with
  | [] => qret []
  | s :: rest =>
      let* s := if predicate s then Clear options maxPredicateSize EmptyPredicateProtoSize s else qret s in
      let* rest := clear_loop predicate rest in
      qret (s :: rest)
  end.

Definition ClearSlices (r : ReaderImpl) (predicate : SliceImpl → bool) : Q ReaderImpl :=
  let* ss := clear_loop predicate (slices r) in
  resetNextReadSliceLocked (set_slices r ss).

(** [prev] is the element before the cursor; [acc] is what precedes it. *)
Fixpoint compact_loop (predicate : SliceImpl → bool) (acc : list SliceImpl) (prev : option SliceImpl)
    (ss : list SliceImpl) : Q (list SliceImpl) :=
  match ss with
  | [] => qret (acc ++ option_list prev)
  | slice :: rest =>
      match prev with
      | None => compact_loop predicate acc (Some slice) rest
      | Some p =>
          if negb (predicate slice) then compact_loop predicate (acc ++ [p]) (Some slice) rest
          else
            let* compacted := CompactWithSlice options maxPredicateSize EmptyPredicateProtoSize p slice in
            compact_loop predicate acc (Some compacted) rest
      end
  end.

Definition CompactSlices (r : ReaderImpl) (predicate : SliceImpl → bool) : Q ReaderImpl :=
  let* ss := compact_loop predicate [] None (slices r) in
  let* r := resetNextReadSliceLocked (set_slices r ss) in
  do* setSliceCount r in
  qret r.

(** Removing the element the cursor is at detaches the cursor. *)
Definition remove_element (e : option element) (s : SliceImpl) : option element :=
  match e with
  | Some (InList id) => if (id =? slice_id s)%N then Some (Removed s) else e
  | _ => e
  end.

Fixpoint shrink_slices_loop (ss : list SliceImpl) (e : option element) (tasksCompleted : Z)
    : Q (list SliceImpl * option element * Z) :=
  match ss with
  | [] => qret ([], e, tasksCompleted)
  | slice :: rest =>
      let* (slice, c) := ShrinkScope options maxPredicateSize EmptyPredicateProtoSize slice in
      let* sc := slice_Scope slice in
      if IsEmpty sc then
        do* with_monitor (λ _ m, RemoveSlice m (slice_id slice)) in
        shrink_slices_loop rest (remove_element e slice) (tasksCompleted + c)
      else
        let* (rest, e, total) := shrink_slices_loop rest e (tasksCompleted + c) in
        qret (slice :: rest, e, total)
  end.

Definition ShrinkSlices (r : ReaderImpl) : Q (ReaderImpl * Z) :=
  let* (ss, e, tasksCompleted) := shrink_slices_loop (slices r) (nextReadSlice r) 0 in
  let r := set_next (set_slices r ss) e in
  do* setSliceCount r in
  qret (r, tasksCompleted).

Definition Notify (r : ReaderImpl) : ReaderImpl := notify (unthrottle r).
Definition Pause (r : ReaderImpl) : ReaderImpl := pauseLocked r.
(** The function the throttle timer runs. *)
Definition throttle_timer_fires (r : ReaderImpl) : ReaderImpl := notify (unthrottle r).

Definition submit (now : time) (executable : Executable) : route :=
  let fireTime := FireTime (GetKey (ex_task executable)) + ScheduledTaskMinPrecision in
  if now <? fireTime then AddToRescheduler fireTime else TrySubmit.

(** The element after [id]. *)
Fixpoint next_element (id : SliceID) (ss : list SliceImpl) : option element :=
  match ss with
  | [] => None
  | s :: rest =>
      if (slice_id s =? id)%N then InList ∘ slice_id <$> head rest else next_element id rest
  end.
Definition element_next (ss : list SliceImpl) (e : element) : option element :=
  match e with InList id => next_element id ss | Removed _ => None end.

Definition find_slice (id : SliceID) (ss : list SliceImpl) : option SliceImpl :=
  find (λ s, (slice_id s =? id)%N) ss.
Definition element_value (ss : list SliceImpl) (e : element) : option SliceImpl :=
  match e with InList id => find_slice id ss | Removed s => Some s end.

Definition replace_slice (ss : list SliceImpl) (s : SliceImpl) : list SliceImpl :=
  map (λ s0, if (slice_id s0 =? slice_id s)%N then s else s0) ss.
(** The slice is shared by the list and the cursor: both see its new state. *)
Definition update_slice (r : ReaderImpl) (e : element) (s : SliceImpl) : ReaderImpl :=
  match e with
  | InList _ => set_slices r (replace_slice (slices r) s)
  | Removed _ => set_next r (Some (Removed s))
  end.

(** The body of the event loop once the rate limiter has let it through; the
    result lists where each loaded task was sent. *)
Definition loadAndSubmitTasks (fuel : nat) (r : ReaderImpl) (batchSize maxPendingTasksCount : Z)
    : Q (ReaderImpl * list (Executable * route)) :=
  λ w,
    let r := if totalPendingTaskCount (monitor w) <? maxPendingTasksCount then r else pauseLocked r in
    (if throttled r then qret (r, [])
     else match nextReadSlice r with
     | None => qret (complete r, [])
     | Some e =>
         let* loadSlice := qlift (element_value (slices r) e) in
         let* (res, loadSlice) := SelectTasks provider options pageFuel fuel loadSlice batchSize in
         let r := update_slice r e loadSlice in
         match res with
         | inl _ => qret (pauseLocked r, [])
         | inr tasks =>
             do* match last tasks with
                 | None => qret tt
                 | Some t => with_monitor (λ now m,
                               SetReaderWatermark options now m (readerID r) (GetKey (ex_task t)))
                 end in
             let submitted := map (λ t, (t, submit (now w) t)) tasks in
             let* more := MoreTasks loadSlice in
             if more then qret (notify r, submitted)
             else
               let next := element_next (slices r) e in
               let r := set_next r next in
               match next with
               | Some _ => qret (notify r, submitted)
               | None => qret (complete r, submitted)
               end
         end
     end) w.
End reader.
