(* ===== verification/ReaderSpec.v ===== *)
(** * What a reader promises

    The slices of a reader stay in key order without overlap, and every operation
    on them replaces slices by slices that owe the same tasks. *)
From S2P Require Import Prelude TaskKey TaskRange Predicates TaskPredicates TaskScope Monitor PagingIterator.
From S2P Require Import TaskIterator Tracker QueueWorld Slice SliceIterators SliceSpec SliceLoad Reader.
Local Open Scope Z_scope.
Local Open Scope queue_scope.
Local Open Scope key_scope.

Section reader_spec.
Context {W E GK : Type} `{Countable GK} {G : Grouper GK} {GL : GrouperLaws GK}.
Context (provider : PaginationFnProvider (W := W) (E := E)).
Context (options : MonitorOptions) (maxPredicateSize EmptyPredicateProtoSize : Z).
Context (store : list Task) (n : nat) (Hstore : store_sorted store).

Abbreviation SliceImpl := (@SliceImpl W E GK _ _).
Abbreviation slice_inv := (slice_inv (W := W) (E := E) (GK := GK) store n).
Abbreviation preserves := (preserves (W := W) (E := E) (GK := GK) store).
Abbreviation smin s := (InclusiveMin (ScopeRange (scope s))).
Abbreviation smax s := (ExclusiveMax (ScopeRange (scope s))).
Implicit Types (s i l : SliceImpl) (ss acc : list SliceImpl).

(** ** Identities *)

(** Distinct slices, all allocated. *)
Definition alloc_ok (w : World W) ss : Prop :=
  NoDup (slice_id <$> ss) ∧ ∀ s, s ∈ ss → (slice_id s < nextSliceID w)%N.

Lemma alloc_ok_perm w ss ss' : ss ≡ₚ ss' → alloc_ok w ss → alloc_ok w ss'.
Proof. intros Hp [H1 H2]. split; [by rewrite <- Hp|]. intros s Hs. apply H2. by rewrite Hp. Qed.

Lemma alloc_ok_app w ss ss' :
  alloc_ok w (ss ++ ss') ↔
  alloc_ok w ss ∧ alloc_ok w ss' ∧ ∀ s s', s ∈ ss → s' ∈ ss' → slice_id s ≠ slice_id s'.
Proof.
  unfold alloc_ok. rewrite fmap_app, NoDup_app. setoid_rewrite elem_of_app.
  setoid_rewrite list_elem_of_fmap. split.
  - intros [(N1 & Nd & N2) Hlt]. split; [|split].
    + split; [done|]. auto.
    + split; [done|]. auto.
    + intros s s' Hs Hs' Heq. apply (Nd (slice_id s)); [by exists s|]. by exists s'.
  - intros ([N1 L1] & [N2 L2] & Nd). split; [|intros s [?|?]; auto]. split; [done|]. split; [|done].
    intros x (s & -> & Hs) (s' & Heq & Hs'). by apply (Nd s s').
Qed.

(** Replacing slices: the new ones keep their identity or are fresh. *)
Definition ids_step (w w' : World W) ss ss' : Prop :=
  NoDup (slice_id <$> ss') ∧
  ∀ s', s' ∈ ss' → (∃ s, s ∈ ss ∧ slice_id s' = slice_id s) ∨ fresh w s' w'.

Lemma ids_step_alloc w w' ss ss' others :
  step w w' → ids_step w w' ss ss' → alloc_ok w (ss ++ others) → alloc_ok w' (ss' ++ others).
Proof.
  intros (Hn & _) [Hnd Hids] ((Nss & Lss) & (No & Lo) & Hd)%alloc_ok_app. apply alloc_ok_app. split_and!.
  - split; [done|]. intros s' Hs'. destruct (Hids s' Hs') as [(s & Hs & ->)|[_ ?]]; [|done].
    specialize (Lss s Hs). lia.
  - split; [done|]. intros s Hs. specialize (Lo s Hs). lia.
  - intros s' o Hs' Ho. destruct (Hids s' Hs') as [(s & Hs & ->)|[? _]]; [by apply Hd|].
    specialize (Lo o Ho). lia.
Qed.

Lemma ids_step_refl w w' ss : alloc_ok w ss → ids_step w w' ss ss.
Proof. intros [Hn _]. split; [done|]. intros s Hs. left. by exists s. Qed.

Lemma ids_step_trans w1 w2 w3 a b c :
  step w1 w2 → step w2 w3 → ids_step w1 w2 a b → ids_step w2 w3 b c → ids_step w1 w3 a c.
Proof.
  intros St1 St2 [_ H1] [Hn H2]. split; [done|]. intros s Hs. destruct (H2 s Hs) as [(s' & Hs' & Eid)|Hf].
  - destruct (H1 s' Hs') as [(s'' & ? & ?)|Hf]; [left; exists s''; by rewrite Eid|right].
    destruct Hf, St2. unfold fresh. rewrite Eid. lia.
  - right. by eapply fresh_mono.
Qed.

(** ** Ordered lists of slices *)

Lemma ordered_app ss ss' :
  ordered (ss ++ ss') ↔ ordered ss ∧ ordered ss' ∧ ∀ s s', s ∈ ss → s' ∈ ss' → smax s ≤k smin s'.
Proof.
  unfold ordered. induction ss as [|s ss IH]; simpl.
  - split; [|tauto]. intros Hs. split; [constructor|]. split; [done|]. intros a b Ha. by apply not_elem_of_nil in Ha.
  - split.
    + intros [Hs Hf]%StronglySorted_inv. apply IH in Hs as (H1 & H2 & H3).
      apply Forall_app in Hf as [Hf1 Hf2]. rewrite Forall_forall in Hf2.
      split; [by constructor|]. split; [done|]. intros a b [-> |Ha]%elem_of_cons Hb; auto.
    + intros ([H1 Hf1]%StronglySorted_inv & H2 & H3). constructor.
      * apply IH. split; [done|]. split; [done|]. intros a b Ha Hb. apply H3; [by right|done].
      * apply Forall_app. split; [done|]. apply Forall_forall. intros b Hb. apply H3; [left|done].
Qed.

(** No slice of [ss'] reaches below or above the slices of [ss]. *)
Definition spans ss ss' : Prop :=
  ∀ s', s' ∈ ss' → (∃ s, s ∈ ss ∧ smin s ≤k smin s') ∧ (∃ s, s ∈ ss ∧ smax s' ≤k smax s).

Lemma spans_sub ss ss' : (∀ s, s ∈ ss' → s ∈ ss) → spans ss ss'.
Proof. intros Hsub s Hs. split; exists s; (split; [auto|apply key_le_refl]). Qed.
Lemma spans_trans a b c : spans a b → spans b c → spans a c.
Proof.
  intros H1 H2 s Hs. destruct (H2 s Hs) as [(x & Hx & Lx) (y & Hy & Ly)].
  destruct (H1 x Hx) as [(x' & Hx' & Lx') _]. destruct (H1 y Hy) as [_ (y' & Hy' & Ly')].
  split; [exists x'|exists y']; eauto using key_le_trans.
Qed.
Lemma spans_app a a' b b' : spans a a' → spans b b' → spans (a ++ b) (a' ++ b').
Proof.
  intros H1 H2 s [Hs|Hs]%elem_of_app; [destruct (H1 s Hs) as [(x & ? & ?) (y & ? & ?)]
    |destruct (H2 s Hs) as [(x & ? & ?) (y & ? & ?)]]; (split; [exists x|exists y]);
    (split; [apply elem_of_app; auto|done]).
Qed.

(** ** The sweep of [MergeSlices]

    The slices of both lists arrive by increasing lower bound.  [A] and [B] are
    what is left of the two lists: nothing left starts before the last slice
    built so far, and that slice ends before what is left of one of them. *)
Definition sweep acc (A B : list SliceImpl) : Prop :=
  ∃ ma mb, (∀ x, x ∈ A → ma ≤k smin x) ∧ (∀ x, x ∈ B → mb ≤k smin x) ∧
    ∀ l, last acc = Some l → (smax l ≤k ma ∨ smax l ≤k mb) ∧ ∀ x, x ∈ A ++ B → smin l ≤k smin x.

Lemma sweep_sym acc A B : sweep acc A B → sweep acc B A.
Proof.
  intros (ma & mb & HA & HB & Hl). exists mb, ma. do 2 (split; [done|]). intros l El.
  destruct (Hl l El) as [Hm Hx]. split; [tauto|]. intros x Hx'. apply Hx. set_solver.
Qed.

(** Where the last slice after merging [i] can lie. *)
Definition last_after acc i acc' : Prop :=
  ∀ l', last acc' = Some l' →
    (smin l' ≤k smin i ∨ ∃ l, last acc = Some l ∧ smin l' ≤k smax l ∧ smin l' ≤k smax i) ∧
    (smax l' ≤k smax i ∨ ∃ l, last acc = Some l ∧ smax l' ≤k smax l).

Lemma sweep_step acc acc' i A B :
  slice_inv i → sweep acc (i :: A) B → last_after acc i acc' →
  (∀ x, x ∈ A → smax i ≤k smin x) → (∀ x, x ∈ B → smin i ≤k smin x) → sweep acc' A B.
Proof.
  intros Hi (ma & mb & HA & HB & Hl) Hla Hia Hib. pose proof (slice_wf _ _ i Hi) as Wi.
  assert (Hma : ma ≤k smin i) by (apply HA; left).
  exists (smax i), mb. do 2 (split; [done|]). intros l' El'. destruct (Hla l' El') as [Hmin Hmax]. split.
  - destruct Hmax as [?|(l & El & Hle)]; [by left|]. destruct (Hl l El) as [[Hm|Hm] _].
    + left. eauto using key_le_trans.
    + right. eauto using key_le_trans.
  - intros x Hx. assert (Hix : smin i ≤k smin x).
    { apply elem_of_app in Hx as [Hx|Hx]; [|auto]. eauto using key_le_trans. }
    destruct Hmin as [?|(l & El & H1 & H2)]; [eauto using key_le_trans|].
    destruct (Hl l El) as [[Hm|Hm] _].
    + eauto using key_le_trans.
    + apply elem_of_app in Hx as [Hx|Hx].
      * eapply key_le_trans; [exact H2|]. auto.
      * eapply key_le_trans; [exact H1|]. eapply key_le_trans; [exact Hm|]. auto.
Qed.

Abbreviation mergeOrAppendSlice :=
  (mergeOrAppendSlice (W := W) (E := E) (GK := GK) options maxPredicateSize EmptyPredicateProtoSize).

(** A part of a list of slices is replaced by fresh slices. *)
Lemma ids_step_fresh w w' a b ms :
  alloc_ok w (a ++ b) → NoDup (slice_id <$> ms) → (∀ m, m ∈ ms → fresh w m w') →
  ids_step w w' (a ++ b) (a ++ ms).
Proof.
  intros ([Na La] & _ & _)%alloc_ok_app Hnd Hf. split.
  - rewrite fmap_app, NoDup_app. split; [done|]. split; [|done].
    intros x (s & -> & Hs)%list_elem_of_fmap (m & Heq & Hm)%list_elem_of_fmap.
    specialize (La s Hs). destruct (Hf m Hm). lia.
  - intros s [Hs|Hs]%elem_of_app; [left; exists s; split; [apply elem_of_app; by left|done]|right; auto].
Qed.

Lemma merged_last a l i ms w w' :
  ordered (a ++ [l]) → slice_inv l → Forall slice_inv a → smin l ≤k smin i →
  merge_result store n l i w w' ms → last_after (a ++ [l]) i (a ++ ms).
Proof.
  intros (_ & _ & Hal)%ordered_app Hl Ha Hle Hr l' El'. rewrite last_app in El'.
  assert (Ell : last (a ++ [l]) = Some l) by apply last_snoc.
  destruct (last ms) as [m|] eqn:Em.
  - injection El' as ->. apply last_Some_elem_of in Em.
    destruct (mr_bounds _ _ _ _ _ _ _ Hr l' Em) as (_ & Hmax & Hmin). split.
    + destruct Hmin as [?|[??]]; [by left|right; by exists l].
    + destruct Hmax as [?|?]; [right; by exists l|by left].
  - apply last_Some_elem_of in El'. assert (Hx : smax l' ≤k smin l) by (apply Hal; [done|left]).
    rewrite Forall_forall in Ha. pose proof (slice_wf _ _ _ (Ha l' El')). pose proof (slice_wf _ _ _ Hl).
    split; [left|right; exists l; split; [done|]]; eauto using key_le_trans.
Qed.

Lemma mergeOrAppendSlice_wp acc i w (Φ : list SliceImpl → World W → Prop) :
  Forall slice_inv acc → ordered acc → slice_inv i → alloc_ok w (acc ++ [i]) →
  (∀ l, last acc = Some l → smin l ≤k smin i) →
  (∀ acc' w', Forall slice_inv acc' → ordered acc' → preserves (acc ++ [i]) acc' →
     step w w' → ids_step w w' (acc ++ [i]) acc' → spans (acc ++ [i]) acc' → last_after acc i acc' → Φ acc' w') →
  wp (mergeOrAppendSlice acc i) Φ w.
Proof.
  intros Hacc Hord Hi Hal Hle HΦ. pose proof Hal as (Ha1 & _ & Hne)%alloc_ok_app.
  unfold Reader.mergeOrAppendSlice. wp_steps. eapply slice_Scope_wp; [done|].
  destruct (IsEmpty (scope i)) eqn:Ee.
  { wp_steps. apply HΦ; [done|done| |done| |apply spans_sub; set_solver|].
    - rewrite <- (app_nil_r acc) at 2. apply preserves_app; [done|]. by eapply preserves_drop.
    - split; [apply Ha1|]. intros s Hs. left. exists s. split; [apply elem_of_app; by left|done].
    - intros l El. split; [left; auto|]. right. exists l. split; [done|]. apply key_le_refl. }
  destruct (last acc) as [l|] eqn:El.
  2: { apply last_None in El as ->. wp_steps. apply HΦ; [by apply Forall_singleton|by repeat constructor|done|done| |by apply spans_sub|].
       - by apply ids_step_refl.
       - intros l' [= <-]. split; left; apply key_le_refl. }
  specialize (Hle l eq_refl). apply last_Some in El as [a ->].
  apply Forall_app in Hacc as [Ha Hl]. rewrite Forall_singleton in Hl.
  wp_steps. eapply CanMergeWithSlice_wp; [done|done|apply Hne; set_solver|].
  pose proof Hord as (Hoa & _ & Hal')%ordered_app.
  destruct (CanMerge (ScopeRange (scope l)) (ScopeRange (scope i))) eqn:Ec; cbn [negb].
  - wp_steps. eapply (MergeWithSlice_wp _ _ _ _ _ Hstore); [done|done|apply Hne; set_solver|done|].
    intros ms w' Hr _. specialize (Hr Hle). wp_steps. rewrite removelast_last. apply HΦ.
    + apply Forall_app. split; [done|apply Hr].
    + apply ordered_app. split; [done|]. split; [apply Hr|]. intros x m Hx Hm.
      destruct (mr_bounds _ _ _ _ _ _ _ Hr m Hm) as (Hmin & _). eapply key_le_trans; [|exact Hmin].
      apply Hal'; [done|left].
    + rewrite <- app_assoc. apply preserves_app; [done|]. apply Hr.
    + apply Hr.
    + rewrite <- app_assoc in *. apply ids_step_fresh; [done|apply Hr|apply Hr].
    + rewrite <- app_assoc. apply spans_app; [by apply spans_sub|]. intros m Hm.
      destruct (mr_bounds _ _ _ _ _ _ _ Hr m Hm) as (Hmin & Hmax & _).
      split; [exists l; split; [left|done]|]. destruct Hmax; [exists l|exists i]; set_solver.
    + by eapply merged_last.
  - wp_steps. apply HΦ.
    + rewrite !Forall_app, !Forall_singleton. done.
    + apply ordered_app. split; [done|]. split; [by repeat constructor|].
      assert (Hli : smax l ≤k smin i).
      { rewrite <- not_true_iff_false, CanMerge_spec in Ec. pose proof (slice_wf _ _ _ Hi).
        destruct (decide (smin i ≤k smax l)) as [Hil|Hil]; [exfalso; apply Ec; split; eauto using key_le_trans|].
        destruct (key_le_total (smax l) (smin i)); done. }
      intros x y Hx ->%list_elem_of_singleton. apply elem_of_app in Hx as [Hx| ->%list_elem_of_singleton]; [|done].
      pose proof (Hal' x l Hx ltac:(left)). pose proof (slice_wf _ _ _ Hl). eauto using key_le_trans.
    + done.
    + done.
    + by apply ids_step_refl.
    + by apply spans_sub.
    + intros l' El'. rewrite last_snoc in El'. simplify_eq. split; left; apply key_le_refl.
Qed.

(** What every operation of a reader does to a list of slices. *)
Record chain (w w' : World W) ss ss' : Prop := {
  chain_preserves : preserves ss ss';
  chain_step : step w w';
  chain_ids : ids_step w w' ss ss';
  chain_spans : spans ss ss';
}.

Lemma chain_refl w ss : alloc_ok w ss → chain w w ss ss.
Proof. intros Hal. split; [done|done|by apply ids_step_refl|by apply spans_sub]. Qed.

Lemma chain_trans w1 w2 w3 a b c : chain w1 w2 a b → chain w2 w3 b c → chain w1 w3 a c.
Proof.
  intros [P1 S1 I1 B1] [P2 S2 I2 B2].
  split; [by etrans|by etrans|by eapply ids_step_trans|by eapply spans_trans].
Qed.

Lemma chain_alloc w w' ss ss' others :
  chain w w' ss ss' → alloc_ok w (ss ++ others) → alloc_ok w' (ss' ++ others).
Proof. intros [_ S1 I1 _]. by apply ids_step_alloc. Qed.

Lemma chain_frame w w' ss ss' others :
  alloc_ok w (ss ++ others) → chain w w' ss ss' → chain w w' (ss ++ others) (ss' ++ others).
Proof using Type.
  intros Hal Hc. pose proof (chain_alloc _ _ _ _ _ Hc Hal) as [Hn' _]. destruct Hc as [P1 S1 [_ I1] B1].
  split; [by apply preserves_app|done| |apply spans_app; [done|by apply spans_sub]]. split; [done|].
  intros s [Hs|Hs]%elem_of_app.
  - destruct (I1 s Hs) as [(s' & ? & ?)|?]; [left; exists s'; split; [apply elem_of_app; by left|done]|by right].
  - left. exists s. split; [apply elem_of_app; by right|done].
Qed.

Lemma chain_perm w w' a a' b b' : a ≡ₚ a' → b ≡ₚ b' → chain w w' a b → chain w w' a' b'.
Proof.
  intros Ha Hb [P1 S1 [N1 I1] B1]. split; [|done| |].
  - transitivity a; [by apply preserves_perm|]. transitivity b; [done|by apply preserves_perm].
  - split; [by rewrite <- Hb|]. intros s Hs. rewrite <- Hb in Hs.
    destruct (I1 s Hs) as [(s' & ? & ?)|?]; [left; exists s'; by rewrite <- Ha|by right].
  - intros s Hs. rewrite <- Hb in Hs. destruct (B1 s Hs) as [(x & ? & ?) (y & ? & ?)].
    split; [exists x|exists y]; by rewrite <- Ha.
Qed.

(** The state of the sweep. *)
Record mergeable (w : World W) acc (A B : list SliceImpl) : Prop := {
  mb_acc : Forall slice_inv acc;
  mb_A : Forall slice_inv A;
  mb_B : Forall slice_inv B;
  mb_oacc : ordered acc;
  mb_oA : ordered A;
  mb_oB : ordered B;
  mb_alloc : alloc_ok w (acc ++ A ++ B);
  mb_sweep : sweep acc A B;
}.

Lemma mergeable_sym w acc A B : mergeable w acc A B → mergeable w acc B A.
Proof.
  intros []. split; try done; [|by apply sweep_sym].
  eapply alloc_ok_perm; [|done]. by rewrite (Permutation_app_comm A B).
Qed.

Lemma ordered_cons s ss : ordered (s :: ss) ↔ ordered ss ∧ ∀ x, x ∈ ss → smax s ≤k smin x.
Proof.
  unfold ordered. split.
  - intros [? Hf]%StronglySorted_inv. by rewrite Forall_forall in Hf.
  - intros [? Hf]. constructor; [done|]. by apply Forall_forall.
Qed.

Lemma merge_head_wp acc i A B w (Φ : list SliceImpl → World W → Prop) :
  mergeable w acc (i :: A) B → (∀ x, x ∈ B → smin i ≤k smin x) →
  (∀ acc' w', mergeable w' acc' A B → chain w w' (acc ++ i :: A ++ B) (acc' ++ A ++ B) → Φ acc' w') →
  wp (mergeOrAppendSlice acc i) Φ w.
Proof.
  intros [H1 [Hi H2]%Forall_cons H3 H4 [H5 Hia]%ordered_cons H6 Hal Hsw] Hib HΦ.
  assert (Hal' : alloc_ok w ((acc ++ [i]) ++ A ++ B)) by (by rewrite <- app_assoc).
  pose proof Hal' as (Hal1 & _)%alloc_ok_app.
  apply mergeOrAppendSlice_wp; [done|done|done|done| |].
  - destruct Hsw as (ma & mb & _ & _ & Hl). intros l El. apply (Hl l El). left.
  - intros acc' w' G1 G2 G3 G4 G5 G6 G7. assert (Hch : chain w w' (acc ++ [i]) acc') by done.
    apply HΦ.
    + split; try done; [by eapply chain_alloc|by eapply sweep_step].
    + replace (acc ++ i :: A ++ B) with ((acc ++ [i]) ++ A ++ B) by (by rewrite <- app_assoc).
      by apply chain_frame.
Qed.

Abbreviation merge_or_append_all :=
  (merge_or_append_all (W := W) (E := E) (GK := GK) options maxPredicateSize EmptyPredicateProtoSize).

(** The outcome of a sweep from [acc] over [rest]. *)
Record swept (w w' : World W) ss acc' : Prop := {
  swept_inv : Forall slice_inv acc';
  swept_ordered : ordered acc';
  swept_chain : chain w w' ss acc';
}.

Lemma swept_trans w w1 w2 a b c : chain w w1 a b → swept w1 w2 b c → swept w w2 a c.
Proof. intros Hc []. split; [done|done|by eapply chain_trans]. Qed.

Lemma merge_or_append_all_wp A acc w (Φ : list SliceImpl → World W → Prop) :
  mergeable w acc A [] → (∀ acc' w', swept w w' (acc ++ A) acc' → Φ acc' w') →
  wp (merge_or_append_all acc A) Φ w.
Proof.
  revert acc w. induction A as [|i A IH]; intros acc w Hm HΦ; cbn [Reader.merge_or_append_all].
  { wp_steps. apply HΦ. destruct Hm. rewrite !app_nil_r in *. split; [done|done|by apply chain_refl]. }
  apply wp_bind. eapply merge_head_wp; [done|intros x Hx; by apply not_elem_of_nil in Hx|].
  intros acc1 w1 Hm1 Hc1. rewrite !app_nil_r in Hc1. apply IH; [done|].
  intros acc2 w2 Hs2. apply HΦ. by eapply swept_trans.
Qed.

Abbreviation merge_slices_loop :=
  (merge_slices_loop (W := W) (E := E) (GK := GK) options maxPredicateSize EmptyPredicateProtoSize).

Lemma merge_slices_loop_nil_l B acc : merge_slices_loop [] B acc = qbind (qret acc) (λ acc, merge_or_append_all acc B).
Proof. by destruct B. Qed.
Lemma merge_slices_loop_nil_r A acc :
  merge_slices_loop A [] acc = qbind (merge_or_append_all acc A) (λ acc, qret acc).
Proof. by destruct A. Qed.

Lemma merge_slices_loop_wp A B acc w (Φ : list SliceImpl → World W → Prop) :
  mergeable w acc A B → (∀ acc' w', swept w w' (acc ++ A ++ B) acc' → Φ acc' w') →
  wp (merge_slices_loop A B acc) Φ w.
Proof.
  revert B acc w. induction A as [|a A IHA]; intros B acc w.
  { intros Hm HΦ. rewrite merge_slices_loop_nil_l. wp_steps. apply merge_or_append_all_wp; [by apply mergeable_sym|done]. }
  revert acc w. induction B as [|b B IHB]; intros acc w Hm HΦ.
  { rewrite merge_slices_loop_nil_r. wp_steps. apply merge_or_append_all_wp; [done|].
    intros acc' w' Hs. wp_steps. apply HΦ. by rewrite app_nil_r. }
  cbn [Reader.merge_slices_loop]. cbn [Reader.merge_slices_loop] in IHB.
  pose proof (mb_A _ _ _ _ Hm) as [Ha _]%Forall_cons. pose proof (mb_B _ _ _ _ Hm) as [Hb _]%Forall_cons.
  wp_steps. eapply slice_Scope_wp; [done|]. wp_steps. eapply slice_Scope_wp; [done|].
  pose proof (mb_oA _ _ _ _ Hm) as [_ Hoa]%ordered_cons. pose proof (mb_oB _ _ _ _ Hm) as [_ Hob]%ordered_cons.
  pose proof (slice_wf _ _ _ Ha) as Wa. pose proof (slice_wf _ _ _ Hb) as Wb.
  destruct (CompareTo (smin a) (smin b) <? 0) eqn:Ecmp.
  - apply Z.ltb_lt, CompareTo_lt in Ecmp. wp_steps. eapply merge_head_wp; [done| |].
    { intros x [-> |Hx]%elem_of_cons; [by apply key_lt_le|]. apply key_lt_le in Ecmp. eauto using key_le_trans. }
    intros acc1 w1 Hm1 Hc1. apply IHA; [done|]. intros acc2 w2 Hs2. apply HΦ. by eapply swept_trans.
  - apply Z.ltb_ge, CompareTo_ge in Ecmp. wp_steps. eapply merge_head_wp; [by apply mergeable_sym| |].
    { intros x [-> |Hx]%elem_of_cons; [done|]. eauto using key_le_trans. }
    intros acc1 w1 Hm1%mergeable_sym Hc1. apply IHB; [done|]. intros acc2 w2 Hs2. apply HΦ.
    eapply swept_trans; [|exact Hs2]. eapply chain_perm; [| |exact Hc1].
    + cbn [app]. f_equiv. rewrite (Permutation_app_comm B (a :: A)). cbn [app].
      rewrite <- Permutation_middle. rewrite perm_swap. done.
    + f_equiv. apply Permutation_app_comm.
Qed.

(** ** The reader's invariant *)

Abbreviation ReaderImpl := (@ReaderImpl W E GK _ _).
Implicit Types r : ReaderImpl.

Record slices_ok (w : World W) ss : Prop := {
  so_inv : Forall slice_inv ss;
  so_ordered : ordered ss;
  so_alloc : alloc_ok w ss;
}.

(** The cursor is at a slice of the list, at one that was removed, or nowhere. *)
Definition cursor_ok (w : World W) r : Prop :=
  match nextReadSlice r with
  | None => True
  | Some (InList id) => ∃ s, s ∈ slices r ∧ slice_id s = id
  | Some (Removed s) => slice_inv s ∧ alloc_ok w (s :: slices r)
  end.

Record reader_inv (w : World W) r : Prop := {
  ri_slices : slices_ok w (slices r);
  ri_cursor : cursor_ok w r;
}.

Abbreviation element := (@element W E GK _ _).

Definition has_more s : bool := match iterators s with [] => false | _ => true end.

(** Where [resetNextReadSliceLocked] puts the cursor. *)
Definition first_more ss : option element := InList ∘ slice_id <$> find has_more ss.

Lemma MoreTasks_wp s w (Φ : bool → World W → Prop) :
  slice_inv s → Φ (has_more s) w → wp (MoreTasks s) Φ w.
Proof.
  intros Hs HΦ. unfold MoreTasks. wp_steps. eapply stateSanityCheck_wp; [apply Hs|]. by wp_steps.
Qed.

Lemma first_with_tasks_wp ss w (Φ : option element → World W → Prop) :
  Forall slice_inv ss → Φ (first_more ss) w → wp (first_with_tasks ss) Φ w.
Proof.
  induction 1 as [|s ss Hs _ IH]; intros HΦ; cbn [first_with_tasks]; [by wp_steps|].
  wp_steps. apply MoreTasks_wp; [done|]. unfold first_more in *. simpl in HΦ.
  destruct (has_more s); [by wp_steps|by apply IH].
Qed.

(** A reader whose slices were just replaced. *)
Record reset r ss r' : Prop := {
  reset_id : readerID r' = readerID r;
  reset_slices : slices r' = ss;
  reset_cursor : nextReadSlice r' = first_more ss;
  reset_signal :
    match first_more ss with
    | Some _ => notified r' = true
    | None => completions r' = S (completions r)
    end;
}.

Lemma resetNextReadSliceLocked_wp r ss w (Φ : ReaderImpl → World W → Prop) :
  Forall slice_inv ss → (∀ r', reset r ss r' → Φ r' w) →
  wp (resetNextReadSliceLocked (set_slices r ss)) Φ w.
Proof.
  intros Hs HΦ. unfold resetNextReadSliceLocked. wp_steps. apply first_with_tasks_wp; [done|]. cbn [slices set_slices].
  destruct (first_more ss) as [e|] eqn:Ef; wp_steps; apply HΦ; (split; [done..| |]); simpl; by rewrite Ef.
Qed.

Lemma reset_inv w r ss r' : slices_ok w ss → reset r ss r' → reader_inv w r'.
Proof.
  intros Hok [_ Es Ec _]. split; [by rewrite Es|]. unfold cursor_ok. rewrite Ec, Es. unfold first_more.
  destruct (find has_more ss) as [s|] eqn:Ef; [|done]. simpl. exists s. split; [|done].
  apply find_some in Ef as [Hin _]. by apply list_elem_of_In.
Qed.

Lemma step_monitor (w : World W) f : step w (mkWorld (nextSliceID w) f (now w) (persistence w)).
Proof. split; simpl; [lia|done]. Qed.

Lemma alloc_ok_step w w' ss : step w w' → alloc_ok w ss → alloc_ok w' ss.
Proof. intros (Hn & _) [H1 H2]. split; [done|]. intros s Hs. specialize (H2 s Hs). lia. Qed.

Lemma chain_step_r w w1 w2 a b : chain w w1 a b → step w1 w2 → chain w w2 a b.
Proof.
  intros [P1 S1 [N1 I1] B1] S2. split; [done|by etrans| |done]. split; [done|].
  intros s Hs. destruct (I1 s Hs) as [?|?]; [by left|right]. by apply (fresh_mono w w w1).
Qed.

(** The end of most operations: reset the cursor, tell the monitor. *)
Lemma finish_wp {A} r ss (a : A) w (Φ : ReaderImpl * A → World W → Prop) :
  Forall slice_inv ss → (∀ r' w', reset r ss r' → step w w' → Φ (r', a) w') →
  wp (qbind (resetNextReadSliceLocked (set_slices r ss))
        (λ r, qbind (setSliceCount options r) (λ _, qret (r, a)))) Φ w.
Proof.
  intros Hs HΦ. wp_steps. apply resetNextReadSliceLocked_wp; [done|]. intros r' Hr.
  unfold setSliceCount. wp_steps. apply HΦ; [done|apply step_monitor].
Qed.
Lemma finish_wp' r ss w (Φ : ReaderImpl → World W → Prop) :
  Forall slice_inv ss → (∀ r' w', reset r ss r' → step w w' → Φ r' w') →
  wp (qbind (resetNextReadSliceLocked (set_slices r ss))
        (λ r, qbind (setSliceCount options r) (λ _, qret r))) Φ w.
Proof.
  intros Hs HΦ. wp_steps. apply resetNextReadSliceLocked_wp; [done|]. intros r' Hr.
  unfold setSliceCount. wp_steps. apply HΦ; [done|apply step_monitor].
Qed.

Lemma validateSlicesOrderedDisjoint_wp ss w (Φ : unit → World W → Prop) :
  Forall slice_inv ss → ordered ss → Φ tt w → wp (validateSlicesOrderedDisjoint ss) Φ w.
Proof.
  intros Hs Ho HΦ. induction ss as [|a ss IH]; [by wp_steps|]. destruct ss as [|b ss]; [by wp_steps|].
  apply Forall_cons in Hs as [Ha Hs]. pose proof Hs as [Hb _]%Forall_cons. apply ordered_cons in Ho as [Ho Hab].
  cbn [validateSlicesOrderedDisjoint]. wp_steps. eapply slice_Scope_wp; [done|]. wp_steps.
  eapply slice_Scope_wp; [done|]. specialize (Hab b ltac:(left)). apply CompareTo_le in Hab.
  destruct (_ >? 0) eqn:Eg; [bool_to_prop; lia|]. by apply IH.
Qed.

Abbreviation MergeSlices :=
  (MergeSlices (W := W) (E := E) (GK := GK) options maxPredicateSize EmptyPredicateProtoSize).

(** What an operation that takes slices in and gives slices out does to a reader. *)
Record reader_step (w w' : World W) r ins r' outs : Prop := {
  rs_id : readerID r' = readerID r;
  rs_inv : reader_inv w' r';
  rs_chain : chain w w' (slices r ++ ins) (slices r' ++ outs);
}.

Lemma reset_step w w1 w2 r ins ss outs r' :
  chain w w1 (slices r ++ ins) (ss ++ outs) → Forall slice_inv ss → ordered ss →
  alloc_ok w (slices r ++ ins) → reset r ss r' → step w1 w2 → reader_step w w2 r ins r' outs.
Proof.
  intros Hc Hi Ho Hal Hr St. split; [apply Hr| |].
  - eapply reset_inv; [|done]. split; [done|done|]. eapply alloc_ok_step; [done|].
    pose proof (chain_alloc _ _ _ _ [] Hc) as Ha. rewrite !app_nil_r in Ha. by apply Ha, alloc_ok_app in Hal as [? _].
  - rewrite (reset_slices _ _ _ Hr). by eapply chain_step_r.
Qed.

Lemma MergeSlices_wp r ins w (Φ : ReaderImpl → World W → Prop) :
  reader_inv w r → Forall slice_inv ins → ordered ins → alloc_ok w (slices r ++ ins) →
  (∀ r' w', reader_step w w' r ins r' [] → (ins ≠ [] → nextReadSlice r' = first_more (slices r')) → Φ r' w') →
  wp (MergeSlices r ins) Φ w.
Proof.
  intros [[Hi Ho Ha] Hcur] Hins Hoi Hal HΦ. unfold Reader.MergeSlices. destruct ins as [|i0 ins0] eqn:Eins.
  { wp_steps. apply HΦ; [|done]. split; [done|by split|]. by apply chain_refl. }
  rewrite <- Eins in *. assert (ins ≠ []) by (by rewrite Eins). clear Eins. wp_steps.
  apply validateSlicesOrderedDisjoint_wp; [done..|]. wp_steps.
  apply merge_slices_loop_wp.
  { split; [by apply Forall_nil|done|done|constructor|done|done|done|].
    exists MinimumKey, MinimumKey. split_and!; [| |done].
    - intros x Hx. rewrite Forall_forall in Hi. destruct (slice_valid _ _ _ (Hi x Hx)) as [V _].
      by apply valid_key_bounds in V as [? _].
    - intros x Hx. rewrite Forall_forall in Hins. destruct (slice_valid _ _ _ (Hins x Hx)) as [V _].
      by apply valid_key_bounds in V as [? _]. }
  intros ss w1 [Hs1 Hs2 Hs3]. apply finish_wp'; [done|]. intros r' w2 Hr St. apply HΦ.
  - eapply reset_step; [|done..]. by rewrite app_nil_r.
  - intros _. rewrite (reset_slices _ _ _ Hr). apply Hr.
Qed.

Lemma push_nonempty_wp acc ss w (Φ : list SliceImpl → World W → Prop) :
  Forall slice_inv ss → Φ (acc ++ kept ss) w → wp (push_nonempty acc ss) Φ w.
Proof.
  intros Hs. revert acc. induction Hs as [|s ss Hs _ IH]; intros acc HΦ; cbn [push_nonempty].
  { wp_steps. by rewrite app_nil_r in HΦ. }
  wp_steps. eapply slice_Scope_wp; [done|]. apply IH. unfold kept in HΦ. rewrite filter_cons in HΦ.
  destruct (IsEmpty (scope s)); [done|]. rewrite decide_True in HΦ by done. by rewrite <- app_assoc.
Qed.

Lemma chain_kept w ss : Forall slice_inv ss → alloc_ok w ss → chain w w ss (kept ss).
Proof.
  intros Hs [Hn _]. split; [by eapply preserves_kept|done| |apply spans_sub; by intros s [_ ?]%list_elem_of_filter].
  split; [by apply NoDup_fmap_filter|].
  intros s [_ Hin]%list_elem_of_filter. left. by exists s.
Qed.

Lemma kept_inv ss : Forall slice_inv ss → Forall slice_inv (kept ss).
Proof.
  rewrite !Forall_forall. intros Hs s [_ ?]%list_elem_of_filter. auto.
Qed.
Lemma kept_ordered ss : ordered ss → ordered (kept ss).
Proof. apply StronglySorted_filter. Qed.
Lemma kept_elem s ss : s ∈ kept ss → s ∈ ss.
Proof. by intros [_ ?]%list_elem_of_filter. Qed.

Abbreviation AppendSlices := (AppendSlices (W := W) (E := E) (GK := GK) options).

Lemma AppendSlices_wp r ins w (Φ : ReaderImpl → World W → Prop) :
  reader_inv w r → Forall slice_inv ins → ordered (slices r ++ ins) → alloc_ok w (slices r ++ ins) →
  (∀ r' w', reader_step w w' r ins r' [] → (ins ≠ [] → nextReadSlice r' = first_more (slices r')) → Φ r' w') →
  wp (AppendSlices r ins) Φ w.
Proof.
  intros Hr0 Hins Ho Hal HΦ. pose proof Hr0 as [[Hi _ Ha] Hcur]. unfold Reader.AppendSlices.
  destruct ins as [|i0 ins0] eqn:Eins.
  { wp_steps. apply HΦ; [|done]. split; [done|done|]. by apply chain_refl. }
  rewrite <- Eins in *. assert (Hne : ins ≠ []) by (by rewrite Eins).
  pose proof Ho as (Ho1 & Ho2 & Hbetween)%ordered_app. pose proof Hal as (_ & Hal2 & _)%alloc_ok_app.
  wp_steps. apply validateSlicesOrderedDisjoint_wp; [done..|]. wp_steps.
  assert (Hrest : wp (qbind (push_nonempty (slices r) ins)
    (λ ss, qbind (resetNextReadSliceLocked (set_slices r ss))
      (λ r, qbind (setSliceCount options r) (λ _, qret r)))) Φ w).
  { wp_steps. apply push_nonempty_wp; [done|].
    assert (Hk : Forall slice_inv (slices r ++ kept ins)) by (apply Forall_app; split; [done|by apply kept_inv]).
    apply finish_wp'; [done|]. intros r' w2 Hr St. apply HΦ.
    - eapply reset_step; [|done| |done|done|done].
      + rewrite app_nil_r. apply (chain_perm _ _ (ins ++ slices r) _ (kept ins ++ slices r));
          [apply Permutation_app_comm..|].
        apply chain_frame; [by eapply alloc_ok_perm; [apply Permutation_app_comm|]|by apply chain_kept].
      + apply ordered_app. split; [done|]. split; [by apply kept_ordered|].
        intros a b Hin1 Hin2%kept_elem. by apply Hbetween.
    - intros _. rewrite (reset_slices _ _ _ Hr). apply Hr. }
  apply wp_bind_inv in Hrest.
  destruct (last (slices r)) as [back|] eqn:El; wp_steps; [|exact Hrest].
  apply last_Some_elem_of in El. rewrite Forall_forall in Hi.
  eapply slice_Scope_wp; [by apply Hi|]. wp_steps. subst ins. pose proof Hins as [Hi0 _]%Forall_cons.
  eapply slice_Scope_wp; [done|]. specialize (Hbetween back i0 El ltac:(left)). apply CompareTo_le in Hbetween.
  destruct (_ >? 0) eqn:Eg; [bool_to_prop; lia|]. wp_steps. exact Hrest.
Qed.

(** ** Operations on the slices in place *)

(** The slice keeps its identity and its upper bound. *)
Definition in_place s s' : Prop :=
  slice_inv s' ∧ slice_id s' = slice_id s ∧ smax s' = smax s ∧ smin s ≤k smin s' ∧ preserves [s] [s'].

Lemma in_place_refl s : slice_inv s → in_place s s.
Proof. intros Hs. split_and!; try done. apply key_le_refl. Qed.

Lemma in_place_chain w w' ss ss' :
  alloc_ok w ss → step w w' → Forall2 in_place ss ss' → chain w w' ss ss'.
Proof.
  intros [Hn _] St HF.
  assert (Hids : slice_id <$> ss' = slice_id <$> ss).
  { induction HF as [|? ? ? ? (_ & Hid & _) _ IH]; [done|]. rewrite !fmap_cons in *.
    apply NoDup_cons in Hn as [_ Hn]. by rewrite Hid, IH. }
  split; [|done| |].
  - clear Hn Hids. induction HF as [|s s' ss ss' (_ & _ & _ & _ & Hp) _ IH]; [done|].
    by apply (preserves_app _ [s] [s'] ss ss').
  - split; [by rewrite Hids|]. intros s' Hs'. left.
    assert (Hin : slice_id s' ∈ slice_id <$> ss) by (rewrite <- Hids; by apply list_elem_of_fmap_2).
    apply list_elem_of_fmap in Hin as (s & Heq & Hs). by exists s.
  - clear Hn Hids. induction HF as [|s s' ss ss' (_ & _ & Hmax & Hmin & _) _ IH]; [by apply spans_sub|].
    apply (spans_app [s] [s']); [|done]. intros x ->%list_elem_of_singleton.
    split; exists s; (split; [left|]); [done|rewrite Hmax; apply key_le_refl].
Qed.

Lemma in_place_inv ss ss' : Forall2 in_place ss ss' → Forall slice_inv ss'.
Proof. induction 1 as [|? ? ? ? (? & _) _ IH]; by constructor. Qed.

Lemma in_place_ordered ss ss' : ordered ss → Forall2 in_place ss ss' → ordered ss'.
Proof.
  intros Ho HF. induction HF as [|s s' ss ss' (_ & _ & Hmax & _) HF IH]; [done|].
  apply ordered_cons in Ho as [Ho Hx]. apply ordered_cons. split; [by apply IH|].
  intros x' Hx'. rewrite Hmax. clear -Hx HF Hx'. induction HF as [|y y' ys ys' (_ & _ & _ & Hm & _) _ IH].
  { by apply not_elem_of_nil in Hx'. }
  apply elem_of_cons in Hx' as [-> |Hx'].
  - eapply key_le_trans; [|exact Hm]. apply Hx. left.
  - apply IH; [|done]. intros z Hz. apply Hx. by right.
Qed.

Abbreviation clear_loop := (clear_loop (W := W) (E := E) (GK := GK) options maxPredicateSize EmptyPredicateProtoSize).
Abbreviation ClearSlices := (ClearSlices (W := W) (E := E) (GK := GK) options maxPredicateSize EmptyPredicateProtoSize).

Lemma clear_loop_wp pr ss w (Φ : list SliceImpl → World W → Prop) :
  Forall slice_inv ss → (∀ ss' w', Forall2 in_place ss ss' → step w w' → Φ ss' w') →
  wp (clear_loop pr ss) Φ w.
Proof.
  intros Hs. revert w Φ. induction Hs as [|s ss Hs _ IH]; intros w Φ HΦ; cbn [Reader.clear_loop].
  { wp_steps. by apply HΦ. }
  assert (Hc : ∀ (Ψ : SliceImpl → World W → Prop), (∀ s' w', in_place s s' → step w w' → Ψ s' w') →
    wp (if pr s then Clear options maxPredicateSize EmptyPredicateProtoSize s else qret s) Ψ w).
  { intros Ψ HΨ. destruct (pr s).
    - eapply (Clear_wp _ _ _ _ _ Hstore); [done|]. intros s' w' ? ? ? ? ? ? ?. by apply HΨ.
    - wp_steps. apply HΨ; [by apply in_place_refl|done]. }
  wp_steps. apply Hc. intros s' w1 Hin St1. wp_steps. apply IH. intros ss' w2 HF St2. wp_steps.
  apply HΦ; [by constructor|by rewrite St1].
Qed.

Lemma ClearSlices_wp r pr w (Φ : ReaderImpl → World W → Prop) :
  reader_inv w r →
  (∀ r' w', reader_step w w' r [] r' [] → nextReadSlice r' = first_more (slices r') → Φ r' w') →
  wp (ClearSlices r pr) Φ w.
Proof.
  intros [[Hi Ho Ha] _] HΦ. unfold Reader.ClearSlices. wp_steps. apply clear_loop_wp; [done|].
  intros ss w1 HF St1. apply resetNextReadSliceLocked_wp; [by eapply in_place_inv|]. intros r' Hr. apply HΦ.
  - eapply reset_step; [|by eapply in_place_inv|by eapply in_place_ordered| |done|done]; rewrite ?app_nil_r; [|done].
    by apply in_place_chain.
  - rewrite (reset_slices _ _ _ Hr). apply Hr.
Qed.

(** ** Compacting *)

Abbreviation compact_loop := (compact_loop (W := W) (E := E) (GK := GK) options maxPredicateSize EmptyPredicateProtoSize).
Abbreviation CompactSlices := (CompactSlices (W := W) (E := E) (GK := GK) options maxPredicateSize EmptyPredicateProtoSize).

Lemma slices_ok_chain w w' ss ss' :
  slices_ok w ss → chain w w' ss ss' → Forall slice_inv ss' → ordered ss' → slices_ok w' ss'.
Proof.
  intros [_ _ Ha] Hc Hi Ho. split; [done|done|].
  pose proof (chain_alloc _ _ _ _ [] Hc) as Hal. rewrite !app_nil_r in Hal. auto.
Qed.

Lemma compact_pair a p i m rest w w' :
  slices_ok w (a ++ p :: i :: rest) → slice_inv m →
  ScopeRange (scope m) = mkRange (MinKey (smin p) (smin i)) (MaxKey (smax p) (smax i)) →
  preserves [p; i] [m] → step w w' → fresh w m w' →
  slices_ok w' (a ++ m :: rest) ∧ chain w w' (a ++ p :: i :: rest) (a ++ m :: rest).
Proof.
  intros Hok Hm Er Hp St Hf. pose proof Hok as [Hi Ho Ha].
  rewrite !Forall_app, !Forall_cons in Hi. destruct Hi as (Hia & Hip & Hii & Hir).
  apply ordered_app in Ho as (Hoa & [[Hor Hir']%ordered_cons Hpx]%ordered_cons & Hax).
  pose proof (slice_wf _ _ _ Hip) as Wp. pose proof (slice_wf _ _ _ Hii) as Wi.
  assert (Hpi : smax p ≤k smin i) by (apply Hpx; left).
  rewrite MinKey_l in Er by eauto using key_le_trans. rewrite MaxKey_r in Er by eauto using key_le_trans.
  assert (Hc : chain w w' (a ++ p :: i :: rest) (a ++ m :: rest)).
  { assert (Hal : alloc_ok w ([p; i] ++ a ++ rest)).
    { eapply alloc_ok_perm; [|exact Ha]. cbn [app]. by rewrite <- !Permutation_middle. }
    apply (chain_perm _ _ ([p; i] ++ a ++ rest) _ ([m] ++ a ++ rest)).
    - cbn [app]. by rewrite <- !Permutation_middle.
    - cbn [app]. by rewrite <- !Permutation_middle.
    - apply chain_frame; [done|]. split; [done|done| |].
      + split; [apply NoDup_singleton|]. intros x ->%list_elem_of_singleton. by right.
      + intros x ->%list_elem_of_singleton. rewrite Er. simpl.
        split; [exists p|exists i]; (split; [set_solver|apply key_le_refl]). }
  split; [|done]. eapply slices_ok_chain; [done|done| |].
  - by rewrite Forall_app, Forall_cons.
  - apply ordered_app. split; [done|]. split.
    + apply ordered_cons. split; [done|]. intros x Hx. rewrite Er. simpl. by apply Hir'.
    + intros x y Hx [-> |Hy]%elem_of_cons; [rewrite Er; apply Hax; [done|left]|].
      apply Hax; [done|]. right. by right.
Qed.

Lemma compact_loop_wp pr ss acc prev w (Φ : list SliceImpl → World W → Prop) :
  slices_ok w (acc ++ option_list prev ++ ss) → (prev = None → acc = []) →
  (∀ ss' w', slices_ok w' ss' → chain w w' (acc ++ option_list prev ++ ss) ss' → Φ ss' w') →
  wp (compact_loop pr acc prev ss) Φ w.
Proof.
  revert acc prev w. induction ss as [|i ss IH]; intros acc prev w Hok Hp HΦ; cbn [Reader.compact_loop].
  { wp_steps. rewrite app_nil_r in *. apply HΦ; [done|]. by apply chain_refl, so_alloc. }
  destruct prev as [p|].
  - cbn [option_list app] in *. destruct (pr i); cbn [negb].
    + pose proof Hok as [(_ & Hip & Hii & _)%Forall_app_cons2 _ _]. wp_steps.
      eapply (CompactWithSlice_wp _ _ _ _ _ Hstore); [done|done|]. intros m w1 Hm Er Hpm St Hf.
      destruct (compact_pair acc p i m ss w w1 Hok Hm Er Hpm St Hf) as [Hok1 Hc1].
      apply IH; [done|done|]. intros ss' w' Hok' Hc'. apply HΦ; [done|]. by eapply chain_trans.
    + apply IH; cbn [option_list app]; rewrite <- ?app_assoc; [done|done|]. done.
  - rewrite (Hp eq_refl) in *. cbn [option_list app] in *. apply IH; [done|done|done].
Qed.

Lemma CompactSlices_wp r pr w (Φ : ReaderImpl → World W → Prop) :
  reader_inv w r →
  (∀ r' w', reader_step w w' r [] r' [] → nextReadSlice r' = first_more (slices r') → Φ r' w') →
  wp (CompactSlices r pr) Φ w.
Proof.
  intros [Hok _] HΦ. unfold Reader.CompactSlices. wp_steps. apply compact_loop_wp; [done|done|].
  intros ss w1 [Hs1 Hs2 Hs3] Hc. apply finish_wp'; [done|]. intros r' w2 Hr St. apply HΦ.
  - eapply reset_step; [|done|done| |done|done]; rewrite ?app_nil_r; [done|apply Hok].
  - rewrite (reset_slices _ _ _ Hr). apply Hr.
Qed.

(** ** Shrinking *)

Abbreviation shrink_slices_loop :=
  (shrink_slices_loop (W := W) (E := E) (GK := GK) options maxPredicateSize EmptyPredicateProtoSize).
Abbreviation ShrinkSlices := (ShrinkSlices (W := W) (E := E) (GK := GK) options maxPredicateSize EmptyPredicateProtoSize).

Definition detach (e : option element) ss : option element :=
  fold_left remove_element (filter (λ s, IsEmpty (scope s) = true) ss) e.

(** The number of acked executables the slices track. *)
Definition acked_count ss : Z :=
  foldr (λ s c, c + Z.of_nat (length (filter (λ kv, ex_state kv.2 = TaskStateAcked) (map_to_list (pending s))))) 0 ss.

Lemma shrink_slices_loop_wp ss e c w (Φ : list SliceImpl * option element * Z → World W → Prop) :
  Forall slice_inv ss →
  (∀ ss1 w', Forall2 in_place ss ss1 → step w w' →
     Forall (λ s, ∀ k x, pending s !! k = Some x → ex_state x ≠ TaskStateAcked) ss1 →
     Φ (kept ss1, detach e ss1, c + acked_count ss) w') →
  wp (shrink_slices_loop ss e c) Φ w.
Proof.
  intros Hs. revert e c w Φ. induction Hs as [|s ss Hs _ IH]; intros e c w Φ HΦ; cbn [Reader.shrink_slices_loop].
  { wp_steps. replace c with (c + acked_count []) by (simpl; lia). by apply (HΦ []). }
  wp_steps. eapply (ShrinkScope_wp _ _ _ _ _ Hstore); [done|]. intros s1 c1 w1 Hsh St1. wp_steps.
  eapply slice_Scope_wp; [apply Hsh|].
  assert (Hin : in_place s s1) by (by destruct Hsh).
  assert (Hna : ∀ k x, pending s1 !! k = Some x → ex_state x ≠ TaskStateAcked).
  { intros k x. rewrite (shrunk_pending _ _ _ _ _ Hsh), map_lookup_filter_Some. naive_solver. }
  assert (Hcount : ∀ d, c + c1 + d = c + (d + c1)) by lia.
  destruct (IsEmpty (scope s1)) eqn:Ee.
  - wp_steps. apply IH. intros ss1 w2 HF St2 Hna2.
    specialize (HΦ (s1 :: ss1) w2). unfold kept, detach in HΦ. rewrite !filter_cons in HΦ.
    rewrite decide_False in HΦ by congruence. rewrite decide_True in HΦ by done.
    rewrite Hcount. rewrite (shrunk_count _ _ _ _ _ Hsh). apply HΦ; [by constructor| |by constructor].
    rewrite St1. etrans; [|exact St2]. apply step_monitor.
  - wp_steps. apply IH. intros ss1 w2 HF St2 Hna2. wp_steps.
    specialize (HΦ (s1 :: ss1) w2). unfold kept, detach in HΦ. rewrite !filter_cons in HΦ.
    rewrite decide_True in HΦ by done. rewrite decide_False in HΦ by congruence.
    rewrite Hcount. rewrite (shrunk_count _ _ _ _ _ Hsh). apply HΦ; [by constructor| |by constructor].
    by rewrite St1.
Qed.

Lemma fold_remove_Removed (l : list SliceImpl) s : fold_left remove_element l (Some (Removed s)) = Some (Removed s).
Proof. induction l; done. Qed.
Lemma fold_remove_InList (l : list SliceImpl) id :
  fold_left remove_element l (Some (InList id)) =
    Some (from_option Removed (InList id) (find_slice id l)).
Proof.
  induction l as [|s l IH]; [done|]. simpl. rewrite (N.eqb_sym id (slice_id s)).
  destruct (slice_id s =? id)%N; [apply fold_remove_Removed|done].
Qed.

Lemma find_slice_Some id ss s : find_slice id ss = Some s → s ∈ ss ∧ slice_id s = id.
Proof. intros [Hin Hid%N.eqb_eq]%find_some. split; [by apply list_elem_of_In|done]. Qed.
Lemma find_slice_None id ss s : find_slice id ss = None → s ∈ ss → slice_id s ≠ id.
Proof.
  intros Hf Hin. apply list_elem_of_In in Hin. pose proof (find_none _ _ Hf _ Hin) as Hn. simpl in Hn.
  by apply N.eqb_neq.
Qed.

Lemma alloc_ok_cons w s ss :
  alloc_ok w (s :: ss) ↔ (slice_id s < nextSliceID w)%N ∧ alloc_ok w ss ∧ ∀ x, x ∈ ss → slice_id s ≠ slice_id x.
Proof.
  change (s :: ss) with ([s] ++ ss). rewrite alloc_ok_app. unfold alloc_ok at 1. split.
  - intros ([_ Hl] & Ha & Hne). split; [apply Hl; left|]. split; [done|]. intros x Hx. apply Hne; [left|done].
  - intros (Hl & Ha & Hne). split; [split; [apply NoDup_singleton|by intros x ->%list_elem_of_singleton]|].
    split; [done|]. intros x y ->%list_elem_of_singleton. auto.
Qed.

Lemma alloc_ok_kept w ss : alloc_ok w ss → alloc_ok w (kept ss).
Proof. intros [Hn Hl]. split; [by apply NoDup_fmap_filter|]. intros s Hs%kept_elem. auto. Qed.

Lemma shrunk_cursor w w' r ss1 :
  reader_inv w r → Forall2 in_place (slices r) ss1 → step w w' →
  cursor_ok w' (set_next (set_slices r (kept ss1)) (detach (nextReadSlice r) ss1)).
Proof.
  intros [[Hi Ho Ha] Hcur] HF St. unfold cursor_ok in *. cbn [nextReadSlice set_next set_slices slices].
  assert (Ha1 : alloc_ok w' ss1).
  { pose proof (in_place_chain _ _ _ _ Ha St HF) as Hc. pose proof (chain_alloc _ _ _ _ [] Hc) as Hal.
    rewrite !app_nil_r in Hal. auto. }
  assert (Hi1 := in_place_inv _ _ HF). rewrite Forall_forall in Hi1.
  assert (Hids : slice_id <$> ss1 = slice_id <$> slices r).
  { clear -HF. induction HF as [|? ? ? ? (_ & Hid & _) _ IH]; [done|]. by rewrite !fmap_cons, Hid, IH. }
  unfold detach. destruct (nextReadSlice r) as [[id|s]|] eqn:En.
  - destruct Hcur as (s & Hs & Hid). rewrite fold_remove_InList.
    destruct (find_slice id _) as [s1|] eqn:Ef; cbn [from_option].
    + apply find_slice_Some in Ef as [[He Hin]%list_elem_of_filter Hid1]. split; [by apply Hi1|].
      apply alloc_ok_cons. split; [by apply Ha1|]. split; [by apply alloc_ok_kept|].
      intros x [Hx Hinx]%list_elem_of_filter Heq.
      assert (s1 = x); [|congruence]. destruct Ha1 as [Hnd _].
      apply list_elem_of_lookup in Hin as [j Hj], Hinx as [j' Hj'].
      assert (j = j').
      { apply (NoDup_lookup _ j j' (slice_id s1) Hnd); rewrite list_lookup_fmap, ?Hj, ?Hj'; simpl; congruence. }
      congruence.
    + assert (Hin : id ∈ slice_id <$> ss1) by (rewrite Hids, <- Hid; by apply list_elem_of_fmap_2).
      apply list_elem_of_fmap in Hin as (s1 & Heq & Hin). exists s1. split; [|done].
      apply list_elem_of_filter. split; [|done]. destruct (IsEmpty (scope s1)) eqn:Ee; [|done].
      exfalso. eapply (find_slice_None id _ s1 Ef); [|done]. by apply list_elem_of_filter.
  - rewrite fold_remove_Removed. destruct Hcur as [Hs (Hl & _ & Hne)%alloc_ok_cons]. split; [done|].
    apply alloc_ok_cons. split; [destruct St; lia|]. split; [by apply alloc_ok_kept|].
    intros x Hx%kept_elem. assert (Hin : slice_id x ∈ slice_id <$> slices r).
    { rewrite <- Hids. by apply list_elem_of_fmap_2. }
    apply list_elem_of_fmap in Hin as (y & -> & Hy). auto.
  - assert (Hnone : ∀ l : list SliceImpl, fold_left remove_element l None = None) by (induction l; done).
    by rewrite Hnone.
Qed.

Lemma ShrinkSlices_wp r w (Φ : ReaderImpl * Z → World W → Prop) :
  reader_inv w r →
  (∀ r' w', reader_step w w' r [] r' [] →
     Forall (λ s, ∀ k x, pending s !! k = Some x → ex_state x ≠ TaskStateAcked) (slices r') →
     Forall (λ s, IsEmpty (scope s) = false) (slices r') →
     Φ (r', acked_count (slices r)) w') →
  wp (ShrinkSlices r) Φ w.
Proof.
  intros Hr HΦ. pose proof Hr as [[Hi Ho Ha] Hcur]. unfold Reader.ShrinkSlices. wp_steps.
  apply shrink_slices_loop_wp; [done|]. intros ss1 w1 HF St Hna. wp_steps. unfold setSliceCount. wp_steps.
  rewrite Z.add_0_l. pose proof (in_place_inv _ _ HF) as Hi1.
  assert (Ha1 : alloc_ok w1 ss1).
  { pose proof (chain_alloc _ _ _ _ [] (in_place_chain _ _ _ _ Ha St HF)) as Hal. rewrite !app_nil_r in Hal. auto. }
  assert (Hc : chain w w1 (slices r) (kept ss1)).
  { eapply chain_trans; [by apply in_place_chain|]. by apply chain_kept. }
  pose proof (step_monitor w1 (SetSliceCount options (now w1) (monitor w1) (readerID r) (Z.of_nat (length (kept ss1)))))
    as Stm.
  apply HΦ.
  - split; [done| |].
    + split; [|eapply shrunk_cursor; [done..|by rewrite St]].
      split; [by apply kept_inv|by apply kept_ordered, (in_place_ordered (slices r))|].
      eapply alloc_ok_step; [exact Stm|]. by apply alloc_ok_kept.
    + rewrite !app_nil_r. eapply chain_step_r; [exact Hc|exact Stm].
  - rewrite Forall_forall in *. intros s Hs%kept_elem. by apply Hna.
  - apply Forall_forall. by intros s [? _]%list_elem_of_filter.
Qed.

(** ** Splitting *)

(** Slices cut out of [s], in order. *)
Record cut_from s ss : Prop := {
  cut_inv : Forall slice_inv ss;
  cut_ordered : ordered ss;
  cut_in : ∀ x, x ∈ ss → smin s ≤k smin x ∧ smax x ≤k smax s;
}.

(** The contract of a splitter that sets slices aside: what stays and what it
    sets aside replace the slice, and both are cut out of it. *)
Definition splitter_ok {A} (aside : A → list SliceImpl) (splitter : @SliceSplitter W E GK _ _ A) : Prop :=
  ∀ a s w, slice_inv s → alloc_ok w [s] →
    wp (splitter a s) (λ '(ns, split, a') w',
      ∃ moved, aside a' = aside a ++ moved ∧
        cut_from s (if split then ns else [s]) ∧ cut_from s moved ∧
        chain w w' [s] ((if split then ns else [s] : list SliceImpl) ++ moved)) w.

Lemma cut_self s : slice_inv s → cut_from s [s].
Proof.
  intros Hs. split; [by apply Forall_singleton|by repeat constructor|].
  intros x ->%list_elem_of_singleton. split; apply key_le_refl.
Qed.
Lemma cut_nil s : cut_from s [].
Proof. split; [done|constructor|]. intros x Hx. by apply not_elem_of_nil in Hx. Qed.
Lemma cut_kept s ss : cut_from s ss → cut_from s (kept ss).
Proof.
  intros [H1 H2 H3]. split; [by apply kept_inv|by apply kept_ordered|]. intros x Hx%kept_elem. auto.
Qed.

(** The slices of [acc] all end before those of [ss] start. *)
Definition all_before acc ss : Prop := ∀ x y, x ∈ acc → y ∈ ss → smax x ≤k smin y.

Lemma cut_append acc s rest new :
  slice_inv s → ordered acc → all_before acc (s :: rest) → (∀ y, y ∈ rest → smax s ≤k smin y) → cut_from s new →
  ordered (acc ++ new) ∧ all_before (acc ++ new) rest.
Proof.
  intros Hs Ho Hb Hsr [C1 C2 C3]. split.
  - apply ordered_app. split; [done|]. split; [done|]. intros x y Hx Hy.
    destruct (C3 y Hy) as [? _]. eapply key_le_trans; [|done]. apply Hb; [done|left].
  - intros x y [Hx|Hx]%elem_of_app Hy; [apply Hb; [done|by right]|].
    destruct (C3 x Hx) as [_ ?]. eapply key_le_trans; [done|]. auto.
Qed.

Section split_slices.
Context {A : Type} (aside : A → list SliceImpl) (splitter : @SliceSplitter W E GK _ _ A).
Context (Hsp : splitter_ok aside splitter).

Lemma split_slices_loop_wp ss acc a w (Φ : list SliceImpl * A → World W → Prop) :
  Forall slice_inv ss → ordered ss → Forall slice_inv acc → ordered acc → all_before acc ss →
  Forall slice_inv (aside a) → ordered (aside a) → all_before (aside a) ss →
  alloc_ok w (acc ++ aside a ++ ss) →
  (∀ acc' a' w', Forall slice_inv acc' → ordered acc' → Forall slice_inv (aside a') → ordered (aside a') →
     chain w w' (acc ++ aside a ++ ss) (acc' ++ aside a') → Φ (acc', a') w') →
  wp (split_slices_loop splitter ss acc a) Φ w.
Proof.
  revert acc a w. induction ss as [|s ss IH]; intros acc a w Hi Ho Hia Hoa Hba Hid Hod Hbd Hal HΦ;
    cbn [split_slices_loop].
  { wp_steps. rewrite app_nil_r in *. apply HΦ; try done. by apply chain_refl. }
  apply Forall_cons in Hi as [Hs Hi]. apply ordered_cons in Ho as [Ho Hso].
  assert (Hal' : alloc_ok w ([s] ++ acc ++ aside a ++ ss)).
  { eapply alloc_ok_perm; [|exact Hal]. cbn [app]. by rewrite <- !Permutation_middle. }
  apply wp_bind. eapply wp_mono; [apply Hsp; [done|by apply alloc_ok_app in Hal' as [? _]]|].
  intros [[ns split] a1] w1 (moved & Ea & Hcut & Hcutm & Hc). cbn beta iota.
  (* in both branches the slices [new] stay *)
  assert (Hnext : ∀ new, cut_from s new → chain w w1 [s] (new ++ moved) →
    wp (split_slices_loop splitter ss (acc ++ new) a1) Φ w1).
  { intros new Hn Hc'. destruct (cut_append acc s ss new) as [Ho1 Hb1]; [done..|].
    destruct (cut_append (aside a) s ss moved) as [Ho2 Hb2]; [done..|].
    assert (Hch : chain w w1 (acc ++ aside a ++ s :: ss) ((acc ++ new) ++ aside a1 ++ ss)).
    { apply (chain_perm _ _ ([s] ++ acc ++ aside a ++ ss) _ ((new ++ moved) ++ acc ++ aside a ++ ss)).
      - cbn [app]. by rewrite <- !Permutation_middle.
      - rewrite Ea. clear. solve_Permutation.
      - by apply chain_frame. }
    apply IH; rewrite ?Ea; try done.
    - apply Forall_app. split; [done|apply Hn].
    - apply Forall_app. split; [done|apply Hcutm].
    - pose proof (chain_alloc _ _ _ _ [] Hch) as Hal1. rewrite !app_nil_r, Ea in Hal1. auto.
    - intros acc' a' w' ? ? ? ? Hc2. apply HΦ; try done. rewrite <- Ea in Hc2. by eapply chain_trans. }
  destruct split.
  - wp_steps. apply push_nonempty_wp; [apply Hcut|]. apply Hnext; [by apply cut_kept|].
    eapply chain_trans; [exact Hc|]. apply (chain_frame _ _ ns (kept ns) moved).
    + pose proof (chain_alloc _ _ _ _ [] Hc) as Hal1. rewrite !app_nil_r in Hal1.
      apply Hal1. by apply alloc_ok_app in Hal' as [? _].
    + apply chain_kept; [apply Hcut|]. pose proof (chain_alloc _ _ _ _ [] Hc) as Hal1. rewrite !app_nil_r in Hal1.
      apply alloc_ok_app in Hal' as [Hs1 _]. apply Hal1 in Hs1. apply alloc_ok_app in Hs1. tauto.
  - by apply Hnext.
Qed.

Lemma SplitSlices_wp r a w (Φ : ReaderImpl * A → World W → Prop) :
  reader_inv w r → aside a = [] →
  (∀ r' a' w', reader_step w w' r [] r' (aside a') → nextReadSlice r' = first_more (slices r') →
     Forall slice_inv (aside a') → ordered (aside a') → Φ (r', a') w') →
  wp (SplitSlices options r splitter a) Φ w.
Proof.
  intros [[Hi Ho Ha] _] Ea HΦ. unfold SplitSlices. wp_steps.
  apply split_slices_loop_wp; rewrite ?Ea; try done; try (by constructor).
  - intros x y Hx. by apply not_elem_of_nil in Hx.
  - intros x y Hx. by apply not_elem_of_nil in Hx.
  - intros acc' a' w1 H1 H2 H3 H4 Hc. apply finish_wp; [done|]. intros r' w2 Hr St. apply HΦ; try done.
    + apply (reset_step w w1 w2 r [] acc'); rewrite ?app_nil_r; done.
    + rewrite (reset_slices _ _ _ Hr). apply Hr.
Qed.
End split_slices.

(** ** Loading *)

Definition owed ss (t : Task) : Prop := ∃ s, s ∈ ss ∧ owes s t.

Section loading.
Context (pageFuel : nat) (Hprov : provider_ok provider store n) (Hfuel : (n < pageFuel)%nat).
Abbreviation loadAndSubmitTasks := (loadAndSubmitTasks provider options pageFuel).

Lemma replace_slice_elem ss s' x : x ∈ replace_slice ss s' → x = s' ∨ (x ∈ ss ∧ slice_id x ≠ slice_id s').
Proof.
  unfold replace_slice. intros (y & <- & Hy)%list_elem_of_In%in_map_iff. apply list_elem_of_In in Hy.
  destruct (slice_id y =? slice_id s')%N eqn:Eid; [by left|right]. split; [done|]. by apply N.eqb_neq.
Qed.

Lemma replace_slice_ids ss s' : slice_id <$> replace_slice ss s' = slice_id <$> ss.
Proof.
  unfold replace_slice. induction ss as [|x ss IH]; [done|]. cbn [map]. rewrite !fmap_cons, IH. f_equal.
  destruct (slice_id x =? slice_id s')%N eqn:Eid; [|done]. by apply N.eqb_eq in Eid.
Qed.

Lemma replace_slice_scopes ss s s' :
  s ∈ ss → NoDup (slice_id <$> ss) → slice_id s' = slice_id s → scope s' = scope s →
  scope <$> replace_slice ss s' = scope <$> ss.
Proof.
  intros Hs Hn Hid Hsc. unfold replace_slice. induction ss as [|x ss IH]; [done|]. cbn [map]. rewrite !fmap_cons in *.
  apply NoDup_cons in Hn as [Hx Hn]. destruct (decide (slice_id x = slice_id s')) as [He|Hne].
  - rewrite (proj2 (N.eqb_eq _ _) He). apply elem_of_cons in Hs as [-> |Hs].
    + rewrite Hsc. f_equal. rewrite <- (map_id ss) at 2. rewrite <- !list_fmap_compose.
      apply list_fmap_ext. intros j y Hy%list_elem_of_lookup_2. simpl. destruct (_ =? _)%N eqn:Ey; [|done].
      apply N.eqb_eq in Ey. exfalso. apply Hx. rewrite He, <- Ey. by apply list_elem_of_fmap_2.
    + exfalso. apply Hx. rewrite He, Hid. by apply list_elem_of_fmap_2.
  - rewrite (proj2 (N.eqb_neq _ _) Hne). f_equal. apply IH; [|done].
    apply elem_of_cons in Hs as [-> |?]; [congruence|done].
Qed.

Lemma ordered_scopes ss ss' : ordered ss → scope <$> ss' = scope <$> ss → ordered ss'.
Proof.
  intros Ho Hmap. unfold ordered in *. revert ss' Hmap.
  induction ss as [|x ss IH]; intros [|x' ss'] Hmap; [constructor|done|done|].
  rewrite !fmap_cons in Hmap. injection Hmap as Hx Hmap. apply StronglySorted_inv in Ho as [Ho Hf].
  constructor; [by apply IH|]. rewrite Hx. clear -Hf Hmap. revert ss' Hmap.
  induction Hf as [|y ss Hy _ IH]; intros [|y' ss'] Hmap; [constructor|done|done|].
  rewrite !fmap_cons in Hmap. injection Hmap as Hy' Hmap. constructor; [by rewrite Hy'|by apply IH].
Qed.

Record loaded (w w' : World W) r r' : Prop := {
  ld_id : readerID r' = readerID r;
  ld_inv : reader_inv w' r';
  ld_world : nextSliceID w' = nextSliceID w;
  ld_ids : slice_id <$> slices r' = slice_id <$> slices r;
  ld_scopes : scope <$> slices r' = scope <$> slices r;
  ld_owed : ∀ t, t ∈ store → owed (slices r) t → owed (slices r') t;
  ld_acked : ∀ s' t, s' ∈ slices r' → acked s' t → ∃ s, s ∈ slices r ∧ acked s t;
}.

(** Only the flags of the reader change. *)
Lemma loaded_flags w w' r r' :
  reader_inv w r → nextSliceID w' = nextSliceID w →
  readerID r' = readerID r → slices r' = slices r → nextReadSlice r' = nextReadSlice r → loaded w w' r r'.
Proof.
  intros [[Hi Ho [Hn Hl]] Hc] Hw Eid Es En. split; [done| |done|by rewrite Es|by rewrite Es|by rewrite Es|rewrite Es; eauto].
  split.
  - rewrite Es. split; [done|done|]. split; [done|]. rewrite Hw. done.
  - unfold cursor_ok in *. rewrite En, Es. destruct (nextReadSlice r) as [[|]|]; [done| |done].
    destruct Hc as [? [Hn' Hl']]. split; [done|]. split; [done|]. by rewrite Hw.
Qed.

Lemma next_element_ok id ss : match next_element id ss with
                              | Some (InList id') => ∃ s, s ∈ ss ∧ slice_id s = id'
                              | Some (Removed _) => False
                              | None => True
                              end.
Proof.
  induction ss as [|x ss IH]; [done|]. cbn [next_element].
  destruct (slice_id x =? id)%N.
  - destruct ss as [|y ss]; [done|]. exists y. split; [right; left|done].
  - destruct (next_element id ss) as [[id'|]|]; [|done|done].
    destruct IH as (s & ? & ?). exists s. split; [by right|done].
Qed.

(** A slice of the reader after a call of [SelectTasks] on it. *)
Lemma replace_loaded w w' r s s' (e : option element) b c d :
  reader_inv w r → s ∈ slices r → nextSliceID w' = nextSliceID w →
  slice_inv s' → slice_id s' = slice_id s → scope s' = scope s →
  (∀ t, t ∈ store → owes s t → owes s' t) → (∀ t, acked s' t → acked s t) →
  match e with Some (InList id) => id ∈ slice_id <$> slices r | Some (Removed _) => False | None => True end →
  loaded w w' r (mkReader (readerID r) (replace_slice (slices r) s') e b c d).
Proof.
  intros [[Hi Ho [Hn Hl]] _] Hs Hw Hs' Hid Hsc Hown Hack He.
  assert (Hids := replace_slice_ids (slices r) s').
  assert (Huniq : ∀ x, x ∈ slices r → slice_id x = slice_id s → x = s).
  { intros x Hx Heq. apply list_elem_of_lookup in Hx as [j Hj], Hs as [j' Hj'].
    assert (j = j').
    { apply (NoDup_lookup _ j j' (slice_id x) Hn); rewrite list_lookup_fmap, ?Hj, ?Hj'; simpl; congruence. }
    congruence. }
  assert (Hscs : scope <$> replace_slice (slices r) s' = scope <$> slices r) by (by eapply replace_slice_scopes).
  split; simpl; [done| |done|done|done| |].
  - split.
    + split; simpl.
      * rewrite Forall_forall in *. intros x [-> |[? _]]%replace_slice_elem; auto.
      * by eapply ordered_scopes.
      * split; [by rewrite Hids|]. intros x Hx. rewrite Hw.
        assert (Hin : slice_id x ∈ slice_id <$> slices r) by (rewrite <- Hids; by apply list_elem_of_fmap_2).
        apply list_elem_of_fmap in Hin as (y & -> & Hy). auto.
    + unfold cursor_ok. simpl. destruct e as [[id|]|]; [|done|done].
      rewrite <- Hids in He. apply list_elem_of_fmap in He as (y & -> & Hy). by exists y.
  - intros t Ht (x & Hx & Hox). destruct (decide (slice_id x = slice_id s)) as [Heq|Hne].
    + exists s'. rewrite (Huniq x Hx Heq) in Hox. split; [|auto].
      unfold replace_slice. apply list_elem_of_In, in_map_iff. exists s. rewrite Hid, N.eqb_refl. split; [done|].
      by apply list_elem_of_In.
    + exists x. split; [|done]. unfold replace_slice. apply list_elem_of_In, in_map_iff. exists x.
      rewrite (proj2 (N.eqb_neq _ _)) by congruence. split; [done|]. by apply list_elem_of_In.
  - intros x t [-> |[Hx _]]%replace_slice_elem Ha; [exists s|exists x]; auto.
Qed.

Lemma watermark_wp rid (tasks : list Executable) w (Φ : unit → World W → Prop) :
  (∀ w', nextSliceID w' = nextSliceID w → Φ tt w') →
  wp match last tasks with
     | None => qret tt
     | Some t => with_monitor (λ now m, SetReaderWatermark options now m rid (GetKey (ex_task t)))
     end Φ w.
Proof. intros HΦ. destruct (last tasks); wp_steps; by apply HΦ. Qed.

Lemma loadAndSubmitTasks_wp fuel r batchSize maxPending w
    (Φ : ReaderImpl * list (Executable * route) → World W → Prop) :
  reader_inv w r → 0 ≤ batchSize →
  (∀ s, s ∈ slices r ∨ nextReadSlice r = Some (Removed s) → (turns store (iterators s) < fuel)%nat) →
  (∀ r' subs w', loaded w w' r r' → Φ (r', subs) w') →
  wp (loadAndSubmitTasks fuel r batchSize maxPending) Φ w.
Proof.
  intros Hr Hb Hf HΦ. unfold Reader.loadAndSubmitTasks, wp.
  set (r0 := if _ <? _ then r else pauseLocked r).
  assert (Hr0 : readerID r0 = readerID r ∧ slices r0 = slices r ∧ nextReadSlice r0 = nextReadSlice r)
    by (subst r0; by destruct (_ <? _)).
  destruct Hr0 as (E0 & E1 & E2). destruct (throttled r0).
  { apply HΦ. by apply loaded_flags. }
  destruct (nextReadSlice r0) as [e|] eqn:En; [|apply HΦ; apply loaded_flags; simpl; congruence].
  pose proof (ri_cursor _ _ Hr) as Hcur. unfold cursor_ok in Hcur. rewrite <- E2, E1 in *.
  match goal with |- match ?m w with _ => _ end => change (wp m Φ w) end.
  destruct e as [id|s0].
  - destruct Hcur as (s & Hs & Hid). cbn [element_value].
    destruct (find_slice id (slices r)) as [s1|] eqn:Ef.
    2: { exfalso. by apply (find_slice_None _ _ _ Ef Hs). }
    apply find_slice_Some in Ef as [Hs1 Hid1]. wp_steps.
    pose proof (so_inv _ _ (ri_slices _ _ Hr)) as Hinv. rewrite Forall_forall in Hinv.
    eapply (SelectTasks_wp provider options store n Hstore pageFuel Hprov Hfuel); [by apply Hinv|done|apply Hf; by left|].
    intros res s2 w1 Hsel Hw1. cbn beta iota.
    assert (Hsel' := λ t, selected_owes store n Hstore s1 batchSize res s2 t (Hinv _ Hs1) Hsel).
    assert (Hack := λ t, selected_acked store n s1 batchSize res s2 t Hsel).
    destruct Hsel as [S1 S2 S3 _].
    assert (Hidin : id ∈ slice_id <$> slices r) by (rewrite <- Hid1; by apply list_elem_of_fmap_2).
    assert (Hld : ∀ w2 e b c d, nextSliceID w2 = nextSliceID w1 →
      match e with Some (InList id) => id ∈ slice_id <$> slices r | Some (Removed _) => False | None => True end →
      loaded w w2 r (mkReader (readerID r) (replace_slice (slices r) s2) e b c d)).
    { intros w2 e b c d Hw2 He. eapply (replace_loaded w w2 r s1 s2); [done|done|congruence|done..]. }
    unfold update_slice, set_slices. rewrite E0, E1.
    destruct res as [err|tasks]; [wp_steps; apply HΦ, Hld; [done|by rewrite En]|].
    wp_steps. apply watermark_wp. intros w2 Hw2. wp_steps. apply MoreTasks_wp; [done|].
    destruct (has_more s2); [wp_steps; apply HΦ, Hld; [done|by rewrite En]|]. cbn [element_next slices].
    pose proof (next_element_ok id (replace_slice (slices r) s2)) as Hne.
    destruct (next_element id _) as [[id'|]|]; [|done|]; wp_steps; (apply HΦ, Hld; [done|]); [|done].
    destruct Hne as (x & Hx & <-). rewrite <- (replace_slice_ids (slices r) s2). by apply list_elem_of_fmap_2.
  - destruct Hcur as [Hs0 Hal0]. cbn [element_value]. wp_steps.
    eapply (SelectTasks_wp provider options store n Hstore pageFuel Hprov Hfuel); [done|done|apply Hf; by right|].
    intros res s2 w1 [S1 S2 S3 _] Hw1. cbn beta iota.
    assert (Hld : ∀ w2 e b c d, nextSliceID w2 = nextSliceID w1 → (e = None ∨ e = Some (Removed s2)) →
      loaded w w2 r (mkReader (readerID r) (slices r) e b c d)).
    { intros w2 e b c d Hw2 He. assert (Hw : nextSliceID w2 = nextSliceID w) by congruence.
      destruct (loaded_flags w w2 r r Hr Hw) as [_ [Hso _] _ _ _ _ _]; [done..|].
      split; simpl; [done| |congruence|done|done|done|by eauto]. split; [done|]. unfold cursor_ok. simpl.
      destruct He as [-> | ->]; [done|]. split; [done|]. apply alloc_ok_cons in Hal0 as (Hl & Ha & Hne).
      apply alloc_ok_cons. rewrite S3, Hw. split; [done|]. split; [apply Hso|done]. }
    unfold update_slice, set_next. rewrite E0, E1.
    destruct res as [err|tasks]; [wp_steps; apply HΦ, Hld; [done|by right]|].
    wp_steps. apply watermark_wp. intros w2 Hw2. wp_steps. apply MoreTasks_wp; [done|].
    destruct (has_more s2); wp_steps; (apply HΦ, Hld; [done|]); [by right|by left].
Qed.
End loading.
End reader_spec.
