(* ===== verification/ReaderProps.v ===== *)
(** * Properties of readers *)
From S2P Require Import Prelude TaskKey TaskRange Predicates TaskPredicates TaskScope Monitor PagingIterator.
From S2P Require Import TaskIterator Tracker QueueWorld Slice SliceIterators SliceSpec SliceLoad SliceProps.
From S2P Require Import Reader ReaderSpec.
Local Open Scope Z_scope.
Local Open Scope queue_scope.
Local Open Scope key_scope.

(** The scheduler acks an executable through the pointer the tracker shares. *)
Definition ack_slice {W E GK : Type} `{Countable GK} (k : Key) (s : @SliceImpl W E GK _ _) : SliceImpl :=
  match tracker s with
  | None => s
  | Some t => set_tracker s (mkTracker (alter Ack k (pendingExecutables t)) (pendingPerKey t))
  end.

Section props.
Context {W E GK : Type} `{Countable GK} {G : Grouper GK} {GL : GrouperLaws GK}.
Context (provider : PaginationFnProvider (W := W) (E := E)).
Context (options : MonitorOptions) (maxPredicateSize EmptyPredicateProtoSize : Z) (pageFuel : nat).
Context (store : list Task) (n : nat) (Hstore : store_sorted store).

Abbreviation ReaderImpl := (@ReaderImpl W E GK _ _).
Abbreviation slice_inv := (slice_inv (W := W) (E := E) (GK := GK) store n).
Abbreviation reader_inv := (reader_inv (W := W) (E := E) (GK := GK) store n).
Implicit Types r : ReaderImpl.

(** The reader [r'] took over the slices of [r] and [ins]; its cursor is at the
    first slice that has something to read. *)
Definition reorganised (w w' : World W) r ins r' : Prop :=
  reader_inv w' r' ∧ preserves store (slices r ++ ins) (slices r') ∧
  nextReadSlice r' = first_more (slices r').

Lemma reorganised_step w w' r ins r' :
  reader_step store n w w' r ins r' [] → nextReadSlice r' = first_more (slices r') → reorganised w w' r ins r'.
Proof.
  intros [_ Hi [Hp _ _ _]] Hc. split; [done|]. split; [|done]. by rewrite app_nil_r in Hp.
Qed.

(** C37 The operations with which a queue reorganises a reader ([MergeSlices] with any ordered list of
    slices interleaved with the reader's own, [AppendSlices], [CompactSlices] and [ClearSlices] with any choice of
    slices) never panic on a reader that satisfies the invariant: the slices stay live, in key order, disjoint and
    distinct, every task owed before is owed after (unless acked), and the cursor is at the first slice with
    something left to read. *)
Theorem reader_reorganise_safe r ins pr w :
  reader_inv w r → Forall slice_inv ins → ordered ins → alloc_ok w (slices r ++ ins) → ins ≠ [] →
  (∃ r' w', MergeSlices options maxPredicateSize EmptyPredicateProtoSize r ins w = Ok (r', w') ∧
     reorganised w w' r ins r') ∧
  (ordered (slices r ++ ins) →
     ∃ r' w', AppendSlices options r ins w = Ok (r', w') ∧ reorganised w w' r ins r') ∧
  (∃ r' w', CompactSlices options maxPredicateSize EmptyPredicateProtoSize r pr w = Ok (r', w') ∧
     reorganised w w' r [] r') ∧
  (∃ r' w', ClearSlices options maxPredicateSize EmptyPredicateProtoSize r pr w = Ok (r', w') ∧
     reorganised w w' r [] r').
Proof.
  intros Hr Hi Ho Ha Hne. split; [|split; [|split]].
  - wp_returns. eapply (MergeSlices_wp _ _ _ _ _ Hstore); [done..|]. intros r' w' Hs Hc EQ.
    exists r', w'. split; [exact EQ|]. apply reorganised_step; auto.
  - intros Hall. wp_returns. eapply AppendSlices_wp; [done..|]. intros r' w' Hs Hc EQ.
    exists r', w'. split; [exact EQ|]. apply reorganised_step; auto.
  - wp_returns. eapply (CompactSlices_wp _ _ _ _ _ Hstore); [done..|]. intros r' w' Hs Hc EQ.
    exists r', w'. split; [exact EQ|]. by apply reorganised_step.
  - wp_returns. eapply (ClearSlices_wp _ _ _ _ _ Hstore); [done..|]. intros r' w' Hs Hc EQ.
    exists r', w'. split; [exact EQ|]. by apply reorganised_step.
Qed.

(** [ShrinkSlices] never panics, keeps the invariant, drops every acked executable and returns how
    many there were, drops every slice that became empty, and loses no task that is still owed. *)
Theorem ShrinkSlices_safe r w :
  reader_inv w r →
  ∃ r' w', ShrinkSlices options maxPredicateSize EmptyPredicateProtoSize r w = Ok ((r', acked_count (slices r)), w') ∧
    reader_inv w' r' ∧ preserves store (slices r) (slices r') ∧
    (∀ s, s ∈ slices r' → IsEmpty (scope s) = false ∧
       ∀ k x, pending s !! k = Some x → ex_state x ≠ TaskStateAcked).
Proof.
  intros Hr. wp_returns. eapply (ShrinkSlices_wp _ _ _ _ _ Hstore); [done|].
  intros r' w' [_ Hi [Hp _ _ _]] Hna He EQ. exists r', w'. split; [exact EQ|]. split; [done|].
  rewrite !app_nil_r in Hp. split; [done|]. rewrite Forall_forall in *. intros s Hs. split; [by apply He|by apply Hna].
Qed.

Context (Hprov : provider_ok provider store n) (Hfuel : (n < pageFuel)%nat).

(** One turn of the reader's loop ([loadAndSubmitTasks]), with reads allowed to fail, never panics,
    keeps the invariant and the identity of every slice, and every task the reader owed it still owes: what was
    read is tracked, what was not is still to be read. *)
Theorem loadAndSubmitTasks_safe fuel r batchSize maxPending w :
  reader_inv w r → 0 ≤ batchSize →
  (∀ s, s ∈ slices r ∨ nextReadSlice r = Some (Removed s) → (turns store (iterators s) < fuel)%nat) →
  ∃ r' subs w',
    loadAndSubmitTasks provider options pageFuel fuel r batchSize maxPending w = Ok ((r', subs), w') ∧
    reader_inv w' r' ∧ slice_id <$> slices r' = slice_id <$> slices r ∧
    ∀ t, t ∈ store → owed (slices r) t → owed (slices r') t.
Proof.
  intros Hr Hb Hf. wp_returns.
  eapply (loadAndSubmitTasks_wp provider options store n Hstore pageFuel Hprov Hfuel); [done..|].
  intros r' subs w' [] EQ. exists r', subs, w'. by split.
Qed.
End props.

(** ** Witnesses *)

Definition sample_reader (ss : list (@SliceImpl nat string string _ _)) : ReaderImpl :=
  mkReader 0 ss (first_more ss) true false 0.

Lemma sample_reader_inv ss w :
  slices_ok sample_store 0 w ss → reader_inv sample_store 0 w (sample_reader ss).
Proof.
  intros Hs. split; [done|]. unfold cursor_ok, sample_reader, first_more. simpl.
  destruct (find has_more ss) as [s|] eqn:Ef; [|done]. simpl. exists s.
  apply find_some in Ef as [Hin _]. split; [by apply list_elem_of_In|done].
Qed.

Lemma sample_two_slices w :
  (3 ≤ nextSliceID w)%N →
  slices_ok sample_store 0 w [sample_slice 1 1 3 ["n1"]; sample_slice 2 3 9 ["n1"]].
Proof.
  intros Hw. split.
  - repeat (apply Forall_cons; split; [apply sample_slice_inv; (lia || (int_bounds; lia))|]). by apply Forall_nil.
  - repeat constructor. by_decide.
  - split; [by_decide|]. intros s Hs. assert (slice_id s = 1 ∨ slice_id s = 2)%N by set_solver. lia.
Qed.

Lemma reader_reorganise_safe_witness :
  let r := sample_reader [sample_slice 1 1 3 ["n1"]; sample_slice 2 3 9 ["n1"]] in
  let ins := [sample_slice 3 2 5 ["n2"]] in
  match MergeSlices sample_options 0 2 r ins (sample_world 0) with
  | Ok (r', _) => map (λ s, (TaskID (InclusiveMin (ScopeRange (scope s))), TaskID (ExclusiveMax (ScopeRange (scope s)))))
                    (slices r') = [(1, 2); (2, 3); (3, 5); (5, 9)]
  | _ => False
  end ∧
  ∃ r' w', MergeSlices sample_options 0 2 r ins (sample_world 0) = Ok (r', w') ∧
    reorganised sample_store 0 (sample_world 0) w' r ins r'.
Proof.
  intros r ins. split; [vm_compute; reflexivity|].
  assert (Hr := sample_reader_inv _ _ (sample_two_slices (sample_world 0) ltac:(done))).
  apply (reader_reorganise_safe sample_options 0 2 sample_store 0 sample_store_sorted r ins
           (λ _, true) (sample_world 0) Hr).
  - repeat (apply Forall_cons; split; [apply sample_slice_inv; (lia || (int_bounds; lia))|]). by apply Forall_nil.
  - repeat constructor.
  - split; [by_decide|]. intros s Hs. assert (slice_id s = 1 ∨ slice_id s = 2 ∨ slice_id s = 3)%N by set_solver.
    simpl. lia.
  - done.
Defined.

Lemma ShrinkSlices_safe_witness :
  let r := sample_reader [sample_slice 1 1 3 ["n1"]; sample_slice 2 3 9 ["n1"]] in
  ∃ r' w', ShrinkSlices sample_options 0 2 r (sample_world 0) = Ok ((r', 0), w') ∧
    reader_inv sample_store 0 w' r'.
Proof.
  intros r.
  destruct (ShrinkSlices_safe sample_options 0 2 sample_store 0 sample_store_sorted r (sample_world 0)
    (sample_reader_inv _ _ (sample_two_slices (sample_world 0) ltac:(done)))) as (r' & w' & EQ & Hi & _).
  exact (ex_intro _ r' (ex_intro _ w' (conj EQ Hi))).
Defined.

Lemma loadAndSubmitTasks_safe_witness :
  let r := sample_reader [sample_slice 1 1 3 ["n1"]; sample_slice 2 3 9 ["n1"]] in
  ∃ r' subs w', loadAndSubmitTasks sample_provider sample_options 1 9 r 5 10 (sample_world 0) = Ok ((r', subs), w') ∧
    ∀ t, t ∈ sample_store → owed (slices r) t → owed (slices r') t.
Proof.
  intros r.
  destruct (loadAndSubmitTasks_safe sample_provider sample_options 1 sample_store 0 sample_store_sorted
    sample_provider_ok (le_n 1) 9 r 5 10 (sample_world 0)) as (r' & subs & w' & EQ & _ & _ & Ho).
  - exact (sample_reader_inv _ _ (sample_two_slices (sample_world 0) ltac:(done))).
  - lia.
  - intros s [Hs|Hs]; [|done]. unfold r, sample_reader in Hs. simpl in Hs.
    repeat (apply elem_of_cons in Hs as [-> |Hs]; [vm_compute; lia|]). by apply not_elem_of_nil in Hs.
  - exact (ex_intro _ r' (ex_intro _ subs (ex_intro _ w' (conj EQ Ho)))).
Defined.

(** ** A cursor left behind

    [ShrinkSlices] removes a slice whose scope is empty without moving
    [nextReadSlice], which may still be at it: a slice whose last task sits at the
    very end of its range still has a (drained) iterator after the batch that read
    it, so it counts as having more tasks.  The next turn of the loop then follows
    the removed element's successor, which is nil. *)
Definition stalled_run : option (ReaderImpl * ReaderImpl) :=
  let r0 := sample_reader [sample_slice 1 1 3 ["n1"]; sample_slice 2 3 9 ["n1"]] in
  match loadAndSubmitTasks sample_provider sample_options 1 9 r0 1 10 (sample_world 0) with
  | Ok ((r1, _), w1) =>
      let r1 := set_slices r1 (map (ack_slice (mkKey 0 2)) (slices r1)) in
      match ShrinkSlices sample_options 0 2 r1 w1 with
      | Ok ((r2, _), w2) =>
          match loadAndSubmitTasks sample_provider sample_options 1 9 r2 1 10 w2 with
          | Ok ((r3, _), _) => Some (r2, r3)
          | _ => None
          end
      | _ => None
      end
  | _ => None
  end.

(** A run from a reader with two slices, the first of range [1,3) holding one task at key 2: the task is
    loaded and acked, [ShrinkSlices] removes the finished slice, and the next turn of the loop ends with
    [nextReadSlice] nil and the completion callback called although the second slice still has a task to load:
    it is only found again when some later operation resets the cursor. *)
Theorem ShrinkSlices_can_strand_cursor :
  match stalled_run with
  | Some (r2, r3) =>
      map slice_id (slices r2) = [2%N] ∧ map has_more (slices r3) = [true] ∧
      todo sample_store <$> slices r3 = [[sample_task 7 "n1"]] ∧
      nextReadSlice r3 = None ∧ completions r3 = S (completions r2)
  | None => False
  end.
Proof. vm_compute. repeat split; reflexivity. Qed.
