(* ===== verification/Queue.v ===== *)
(** * The queue: [service/history/queues/queue_base.go] with the reader group
      ([reader_group.go]) and the actions that move slices between readers
      ([action_slice_predicate.go], [action_reader_stuck.go], [action_move_group.go])

    The queue's event loop runs [processNewRange], [checkpoint] and the actions one
    at a time; the readers load tasks in between. *)
From S2P Require Import Prelude TaskKey TaskRange Predicates TaskPredicates TaskScope Monitor PagingIterator.
From S2P Require Import TaskIterator Tracker Convert QueueWorld Slice Reader.
Local Open Scope Z_scope.
Local Open Scope queue_scope.

Definition forceNewSliceDuration : Z := 5 * 60 * Second.
Definition moveSliceDefaultReaderMinPendingTaskCount : Z := 50.
Definition moveSliceDefaultReaderMinSliceCount : Z := 3.

Section queue.
Context {W E GK : Type} `{Countable GK} {G : Grouper GK} {TS : Timestamppb}.
Context (options : MonitorOptions) (maxPredicateSize EmptyPredicateProtoSize : Z).

Abbreviation SliceImpl := (@SliceImpl W E GK _ _).
Abbreviation ReaderImpl := (@ReaderImpl W E GK _ _).
Abbreviation Q := (Q W).

(** ** The reader group *)

Abbreviation ReaderGroup := (gmap ReaderID ReaderImpl).

Definition ReaderByID (g : ReaderGroup) (readerID : ReaderID) : option ReaderImpl := g !! readerID.

(** The reader is built before its identifier is found to be taken. *)
Definition newReaderLocked (g : ReaderGroup) (readerID : ReaderID) (ss : list SliceImpl) : Q (ReaderGroup * ReaderImpl) :=
  let* reader := NewReader options readerID ss in
  match g !! readerID with
  | Some _ => qpanic
  | None => qret (<[readerID := reader]> g, reader)
  end.

Definition GetOrCreateReader (g : ReaderGroup) (readerID : ReaderID) : Q (ReaderGroup * ReaderImpl) :=
  match g !! readerID with
  | Some reader => qret (g, reader)
  | None => newReaderLocked g readerID []
  end.

(** Stopping a reader removes it from the monitor. *)
Definition RemoveReader (g : ReaderGroup) (readerID : ReaderID) : Q ReaderGroup :=
  match g !! readerID with
  | None => qret g
  | Some _ =>
      do* with_monitor (λ _ m, Monitor.RemoveReader m readerID) in
      qret (delete readerID g)
  end.

(** ** Actions *)

(** [nextReader := GetOrCreateReader(id); nextReader.MergeSlices(slices...)] *)
Definition merge_into (g : ReaderGroup) (readerID : ReaderID) (ss : list SliceImpl) : Q ReaderGroup :=
  let* (g, nextReader) := GetOrCreateReader g readerID in
  let* nextReader := MergeSlices options maxPredicateSize EmptyPredicateProtoSize nextReader ss in
  qret (<[readerID := nextReader]> g).

Definition predicate_splitter : SliceSplitter (list SliceImpl) := λ moveSlices s,
  let* sc := slice_Scope s in
  if IsUniverisalPredicate (ScopePredicate sc) then qret ([s], false, moveSlices)
  else qret ([], true, moveSlices ++ [s]).

Definition slicePredicateAction_Run (maxReaderCount : Z) (g : ReaderGroup) : Q (ReaderGroup * bool) :=
  match ReaderByID g DefaultReaderId with
  | None => qret (g, false)
  | Some reader =>
      if maxReaderCount <=? DefaultReaderId + 1 then qret (g, false)
      else
        λ w,
          (let sliceCount := GetSliceCount (monitor w) DefaultReaderId in
           let* (pendingTasks, hasNonUniversalPredicate) :=
             WalkSlices reader (λ '(n, b) s,
               let* sc := slice_Scope s in
               qret (n + GetSlicePendingTaskCount (monitor w) (slice_id s),
                     b || negb (IsUniverisalPredicate (ScopePredicate sc)))) (0, false) in
           if negb hasNonUniversalPredicate ||
              ((pendingTasks <? moveSliceDefaultReaderMinPendingTaskCount) &&
               (sliceCount <? moveSliceDefaultReaderMinSliceCount))
           then qret (g, false)
           else
             let* (reader, moveSlices) := SplitSlices options reader predicate_splitter [] in
             let g := <[DefaultReaderId := reader]> g in
             match moveSlices with
             | [] => qret (g, false)
             | _ =>
                 let* g := merge_into g (DefaultReaderId + 1) moveSlices in
                 qret (g, true)
             end) w
  end.

(** The two [if s.CanSplitByRange(..)] of the splitter: what is cut off joins
    [remaining], what is left is the slice to move. *)
Definition cut_below (key : Key) (s : SliceImpl) : Q (list SliceImpl * SliceImpl) :=
  let* can := slice_CanSplitByRange s key in
  if can then
    let* (l, r) := slice_SplitByRange options maxPredicateSize EmptyPredicateProtoSize s key in
    qret ([l], r)
  else qret ([], s).
Definition cut_above (key : Key) (remaining : list SliceImpl) (s : SliceImpl) : Q (list SliceImpl * SliceImpl) :=
  let* can := slice_CanSplitByRange s key in
  if can then
    let* (l, r) := slice_SplitByRange options maxPredicateSize EmptyPredicateProtoSize s key in
    qret (remaining ++ [r], l)
  else qret (remaining, s).

Definition stuck_splitter (stuckRange : Range) : SliceSplitter (list SliceImpl) := λ splitSlices s,
  let* sc := slice_Scope s in
  if ContainsRange stuckRange (ScopeRange sc) then qret ([], true, splitSlices ++ [s])
  else
    let* (remaining, s) := cut_below (InclusiveMin stuckRange) s in
    let* (remaining, s) := cut_above (ExclusiveMax stuckRange) remaining s in
    match remaining with
    | [] => qret ([], false, splitSlices)
    | _ => qret (remaining, true, splitSlices ++ [s])
    end.

Definition actionReaderStuck_Run (readerID : ReaderID) (CurrentWatermark : Key) (g : ReaderGroup)
    : Q (ReaderGroup * bool) :=
  match ReaderByID g readerID with
  | None => qret (g, false)
  | Some reader =>
      let* stuckRange := qlift (NewRange CurrentWatermark
        (NewKey (FireTime CurrentWatermark + monitorWatermarkPrecision) (TaskID CurrentWatermark))) in
      let* (reader, splitSlices) := SplitSlices options reader (stuck_splitter stuckRange) [] in
      let g := <[readerID := reader]> g in
      match splitSlices with
      | [] => qret (g, false)
      | _ =>
          let* g := merge_into g (readerID + 1) splitSlices in
          qret (g, true)
      end
  end.

Definition group_splitter (predicateForSplit : TaskPredicate) : SliceSplitter (list SliceImpl) := λ slicesToMove s,
  let* sc := slice_Scope s in
  if IsEmpty (SplitByPredicate sc predicateForSplit).1 then qret ([], false, slicesToMove)
  else
    let* (split, remain) :=
      slice_SplitByPredicate options maxPredicateSize EmptyPredicateProtoSize s predicateForSplit in
    qret ([remain], true, slicesToMove ++ [split]).

Definition add_counts (acc m : gmap GK Z) : gmap GK Z :=
  foldr (λ kv acc, map_add kv.1 kv.2 acc) acc (map_to_list m).

(** The body of the loop of [actionMoveGroup.Run] for one reader. *)
Definition move_group_of (g : ReaderGroup) (readerID : ReaderID) (moveGroupMinTaskCount : Z) : Q (ReaderGroup * bool) :=
  match ReaderByID g readerID with
  | None => qret (g, false)
  | Some reader =>
      let* pendingTaskPerGroup :=
        WalkSlices reader (λ acc s, let* stats := TaskStats s in qret (add_counts acc stats)) ∅ in
      match map fst (filter (λ kv, moveGroupMinTaskCount ≤ kv.2) (map_to_list pendingTaskPerGroup)) with
      | [] => qret (g, false)
      | groupsToMove =>
          let* (reader, slicesToMove) :=
            SplitSlices options reader (group_splitter (Grouper_Predicate groupsToMove)) [] in
          let* g := merge_into (<[readerID := reader]> g) (readerID + 1) slicesToMove in
          qret (g, true)
      end
  end.

(** [multiply] is [int(float64(x) * moveGroupTaskCountMultiplier)]; the fuel is
    the number of readers. *)
Fixpoint move_group_loop (fuel : nat) (multiply : Z → Z) (maxReaderCount : Z) (readerID : ReaderID)
    (moveGroupMinTaskCount : Z) (g : ReaderGroup) (moved : bool) : Q (ReaderGroup * bool) :=
  match fuel with
  | O => λ _, Err OutOfFuel
  | S fuel =>
      if readerID + 1 <? maxReaderCount then
        let threshold := if readerID =? DefaultReaderId then moveGroupMinTaskCount
                         else multiply moveGroupMinTaskCount in
        let* (g, b) := move_group_of g readerID threshold in
        move_group_loop fuel multiply maxReaderCount (readerID + 1) threshold g (moved || b)
      else qret (g, moved)
  end.

Definition actionMoveGroup_Run (multiply : Z → Z) (maxReaderCount moveGroupTaskCountBase : Z) (g : ReaderGroup)
    : Q (ReaderGroup * bool) :=
  move_group_loop (S (Z.to_nat maxReaderCount)) multiply maxReaderCount DefaultReaderId moveGroupTaskCountBase g false.

(** ** The queue *)

Record queueBase := mkQueue {
  queue_category : CategoryType;
  lastRangeID : Z;
  exclusiveDeletionHighWatermark : Key;
  nonReadableScope : Scope;
  readerGroup : ReaderGroup;
  nextForceNewSliceTime : time;
}.

Fixpoint new_slices (scopes : list Scope) : Q (list SliceImpl) :=
  match scopes with
  | [] => qret []
  | sc :: rest =>
      let* s := NewSlice maxPredicateSize EmptyPredicateProtoSize sc in
      let* ss := new_slices rest in
      qret (s :: ss)
  end.

Fixpoint new_readers (l : list (ReaderID * list Scope)) (g : ReaderGroup) (deletion : Key) : Q (ReaderGroup * Key) :=
  match l with
  | [] => qret (g, deletion)
  | (readerID, scopes) :: rest =>
      match scopes with
      | [] => new_readers rest g deletion
      | first :: _ =>
          let* ss := new_slices scopes in
          let* (g, _) := newReaderLocked g readerID ss in
          new_readers rest g (MinKey deletion (InclusiveMin (ScopeRange first)))
      end
  end.

(** [persisted] is what [shard.GetQueueState] has for the queue, if anything. *)
Definition newQueueBase (category : CategoryType) (persisted : option pb_QueueState) : Q queueBase :=
  let* (scopes, highWatermark) :=
    match persisted with
    | Some persistenceState =>
        let* q := qlift (FromPersistenceQueueState persistenceState) in
        qret (readerScopes q, exclusiveReaderHighWatermark q)
    | None =>
        let ackLevel := NewKey DefaultFireTime 0 in
        match category with
        | CategoryTypeImmediate => let* k := qlift (TaskKey.Next ackLevel) in qret (∅, k)
        | _ => qret (∅, ackLevel)
        end
    end in
  let* (g, deletion) := new_readers (map_to_list scopes) ∅ highWatermark in
  let* r := qlift (NewRange highWatermark MaximumKey) in
  qret (mkQueue category (-1) deletion (NewScope r UniversalImpl) g zeroTime).

(** [newMaxKey] is the shard's exclusive high read watermark. *)
Definition processNewRange (p : queueBase) (newMaxKey : Key) : Q queueBase :=
  let* (ss, nonReadable) :=
    if CanSplitByRange (nonReadableScope p) newMaxKey then
      let* (newReadScope, nonReadable) := qlift (SplitByRange (nonReadableScope p) newMaxKey) in
      let* s := NewSlice maxPredicateSize EmptyPredicateProtoSize newReadScope in
      qret ([s], nonReadable)
    else qret ([], nonReadableScope p) in
  let with_group g next :=
    mkQueue (queue_category p) (lastRangeID p) (exclusiveDeletionHighWatermark p) nonReadable g next in
  match ReaderByID (readerGroup p) DefaultReaderId with
  | None =>
      let* (g, _) := newReaderLocked (readerGroup p) DefaultReaderId ss in
      qret (with_group g (nextForceNewSliceTime p))
  | Some reader =>
      λ w,
        (if nextForceNewSliceTime p <? now w then
           let* reader := AppendSlices options reader ss in
           qret (with_group (<[DefaultReaderId := reader]> (readerGroup p)) (now w + forceNewSliceDuration))
         else
           let* reader := MergeSlices options maxPredicateSize EmptyPredicateProtoSize reader ss in
           qret (with_group (<[DefaultReaderId := reader]> (readerGroup p)) (nextForceNewSliceTime p))) w
  end.

(** [ForEach] with [ShrinkSlices]. *)
Fixpoint shrink_readers (ids : list ReaderID) (g : ReaderGroup) (tasksCompleted : Z) : Q (ReaderGroup * Z) :=
  match ids with
  | [] => qret (g, tasksCompleted)
  | readerID :: rest =>
      match g !! readerID with
      | None => shrink_readers rest g tasksCompleted
      | Some r =>
          let* (r, c) := ShrinkSlices options maxPredicateSize EmptyPredicateProtoSize r in
          shrink_readers rest (<[readerID := r]> g) (tasksCompleted + c)
      end
  end.

(** The loop that collects the scopes, removes empty readers and finds the lowest key. *)
Fixpoint collect_scopes (l : list (ReaderID * ReaderImpl)) (g : ReaderGroup)
    (scopes : gmap ReaderID (list Scope)) (watermark : Key) : Q (ReaderGroup * gmap ReaderID (list Scope) * Key) :=
  match l with
  | [] => qret (g, scopes, watermark)
  | (readerID, reader) :: rest =>
      let* scs := Scopes reader in
      match scs with
      | [] =>
          if negb (readerID =? DefaultReaderId) then
            let* g := RemoveReader g readerID in
            collect_scopes rest g scopes watermark
          else collect_scopes rest g (<[readerID := scs]> scopes) watermark
      | first :: _ =>
          collect_scopes rest g (<[readerID := scs]> scopes) (MinKey watermark (InclusiveMin (ScopeRange first)))
      end
  end.

(** What the shard answers: whether the deletion fails, and its range ID. *)
Record shard_answers := { rangeComplete_fails : bool; shardRangeID : Z }.

(** What [checkpoint] asks of the shard: a range of tasks to delete, and the
    number of completed tasks and the state to persist. *)
Record checkpoint_effects := mkEffects {
  deleting : option (Key * Key);
  persisting : option (Z * pb_QueueState);
}.

Definition rangeComplete_bounds (category : CategoryType) (old new : Key) : Key * Key :=
  match category with
  | CategoryTypeScheduled => (mkKey (FireTime old) 0, mkKey (FireTime new) 0)
  | _ => (old, new)
  end.

(** An error of [SetQueueState] only sets the timer of the next checkpoint. *)
Definition updateQueueState (p : queueBase) (tasksCompleted : Z) (scopes : gmap ReaderID (list Scope))
    : Z * pb_QueueState :=
  (tasksCompleted, ToPersistenceQueueState
    (mkQueueState (filter (λ kv, kv.2 ≠ []) scopes) (InclusiveMin (ScopeRange (nonReadableScope p))))).

Definition set_watermarks (p : queueBase) (g : ReaderGroup) (rangeID : Z) (deletion : Key) : queueBase :=
  mkQueue (queue_category p) rangeID deletion (nonReadableScope p) g (nextForceNewSliceTime p).

(** The second half of [checkpoint]: delete first, then persist.  [updateShardRangeID]
    runs only when the watermark has not moved. *)
Definition finish_checkpoint (p : queueBase) (tasksCompleted : Z) (g : ReaderGroup)
    (scopes : gmap ReaderID (list Scope)) (newWatermark : Key) (sh : shard_answers) : queueBase * checkpoint_effects :=
  let old := exclusiveDeletionHighWatermark p in
  let moved := CompareTo newWatermark old >? 0 in
  let rangeUpdated := negb moved && (lastRangeID p <? shardRangeID sh) in
  let rangeID := if rangeUpdated then shardRangeID sh else lastRangeID p in
  let persist p := Some (updateQueueState p tasksCompleted scopes) in
  if moved || (rangeUpdated && (CompareTo newWatermark MinimumKey >? 0)) then
    let bounds := rangeComplete_bounds (queue_category p) old newWatermark in
    if rangeComplete_fails sh then (set_watermarks p g rangeID old, mkEffects (Some bounds) None)
    else
      let p := set_watermarks p g rangeID newWatermark in
      (p, mkEffects (Some bounds) (persist p))
  else
    let p := set_watermarks p g rangeID old in
    (p, mkEffects None (persist p)).

(** [action] is the checkpoint action, run after the slices have shrunk. *)
Definition checkpoint (action : ReaderGroup → Q (ReaderGroup * bool)) (p : queueBase) (sh : shard_answers)
    : Q (queueBase * checkpoint_effects) :=
  let* (g, tasksCompleted) := shrink_readers (map fst (map_to_list (readerGroup p))) (readerGroup p) 0 in
  let* (g, _) := action g in
  let* (g, scopes, newWatermark) :=
    collect_scopes (map_to_list g) g ∅ (InclusiveMin (ScopeRange (nonReadableScope p))) in
  qret (finish_checkpoint p tasksCompleted g scopes newWatermark sh).

Definition checkpointAction (multiply : Z → Z) (maxReaderCount taskCountBase : Z)
    : ReaderGroup → Q (ReaderGroup * bool) :=
  if taskCountBase >? 0 then actionMoveGroup_Run multiply maxReaderCount taskCountBase
  else slicePredicateAction_Run maxReaderCount.
End queue.
