(* ===== verification/QueueSpec.v ===== *)
(** * What the queue promises

    Slices move between readers, new ranges become readable, tasks are loaded and
    acked: whatever the order of these steps, a task below the read watermark is
    owed by some slice of some reader until it has been acked. *)
From S2P Require Import Prelude TaskKey TaskRange Predicates TaskPredicates TaskScope Monitor PagingIterator.
From S2P Require Import TaskIterator Tracker QueueWorld Slice SliceIterators SliceSpec SliceLoad SliceProps.
From S2P Require Import Reader ReaderSpec ReaderProps Queue.
Local Open Scope Z_scope.
Local Open Scope queue_scope.
Local Open Scope key_scope.

Section queue_spec.
Context {W E GK : Type} `{Countable GK} {G : Grouper GK} {GL : GrouperLaws GK}.
Context (provider : PaginationFnProvider (W := W) (E := E)).
Context (options : MonitorOptions) (maxPredicateSize EmptyPredicateProtoSize : Z).
Context (store : list Task) (n : nat) (Hstore : store_sorted store).

Abbreviation SliceImpl := (@SliceImpl W E GK _ _).
Abbreviation ReaderImpl := (@ReaderImpl W E GK _ _).
Abbreviation ReaderGroup := (gmap ReaderID ReaderImpl).
Abbreviation slice_inv := (slice_inv (W := W) (E := E) (GK := GK) store n).
Abbreviation reader_inv := (reader_inv (W := W) (E := E) (GK := GK) store n).
Abbreviation reader_step := (reader_step (W := W) (E := E) (GK := GK) store n).
Abbreviation chain := (chain (W := W) (E := E) (GK := GK) store).
Abbreviation preserves := (preserves (W := W) (E := E) (GK := GK) store).
Abbreviation smin s := (InclusiveMin (ScopeRange (scope s))).
Abbreviation smax s := (ExclusiveMax (ScopeRange (scope s))).
Implicit Types (g : ReaderGroup) (r : ReaderImpl) (s : SliceImpl) (ss : list SliceImpl).

(** ** The slices of a reader group *)

Definition all_slices g : list SliceImpl := concat (map (λ kv, slices kv.2) (map_to_list g)).

Lemma all_slices_insert_fresh g rid r :
  g !! rid = None → all_slices (<[rid := r]> g) ≡ₚ slices r ++ all_slices g.
Proof. intros Hn. unfold all_slices. by rewrite map_to_list_insert. Qed.

Lemma all_slices_delete g rid r :
  g !! rid = Some r → all_slices g ≡ₚ slices r ++ all_slices (delete rid g).
Proof.
  intros Hr. rewrite <- (insert_id g rid r Hr) at 1. rewrite <- insert_delete_eq.
  apply all_slices_insert_fresh. apply lookup_delete_eq.
Qed.

Lemma all_slices_insert g rid r :
  all_slices (<[rid := r]> g) ≡ₚ slices r ++ all_slices (delete rid g).
Proof. rewrite <- insert_delete_eq. apply all_slices_insert_fresh. apply lookup_delete_eq. Qed.

Lemma all_slices_elem g s : s ∈ all_slices g ↔ ∃ rid r, g !! rid = Some r ∧ s ∈ slices r.
Proof.
  unfold all_slices. rewrite list_elem_of_In, in_concat. setoid_rewrite in_map_iff. split.
  - intros (l & ([rid r] & <- & Hin) & Hs). exists rid, r. split; [|by apply list_elem_of_In].
    by apply elem_of_map_to_list, list_elem_of_In.
  - intros (rid & r & Hr & Hs). exists (slices r). split; [|by apply list_elem_of_In].
    exists (rid, r). split; [done|]. by apply list_elem_of_In, elem_of_map_to_list.
Qed.

Definition readers_ok (w : World W) g : Prop := ∀ rid r, g !! rid = Some r → reader_inv w r.

Lemma reader_inv_step w w' r : step w w' → reader_inv w r → reader_inv w' r.
Proof.
  intros St [[Hi Ho Ha] Hc]. split.
  - split; [done|done|]. by eapply alloc_ok_step.
  - unfold cursor_ok in *. destruct (nextReadSlice r) as [[|]|]; [done| |done].
    destruct Hc as [? Ha']. split; [done|]. by eapply alloc_ok_step.
Qed.

Lemma readers_ok_step w w' g : step w w' → readers_ok w g → readers_ok w' g.
Proof. intros St Hg rid r Hr. eapply reader_inv_step; [done|]. by eapply Hg. Qed.

Lemma readers_ok_insert w g rid r : readers_ok w g → reader_inv w r → readers_ok w (<[rid := r]> g).
Proof.
  intros Hg Hr rid' r'. rewrite lookup_insert_Some. intros [[_ <-]|[_ ?]]; [done|by eapply Hg].
Qed.

Lemma all_slices_inv w g : readers_ok w g → Forall slice_inv (all_slices g).
Proof.
  intros Hg. apply Forall_forall. intros s (rid & r & Hr & Hs)%all_slices_elem.
  pose proof (so_inv _ _ _ _ (ri_slices _ _ _ _ (Hg rid r Hr))) as Hi. rewrite Forall_forall in Hi. auto.
Qed.

(** A group with slices [ss] on the way from one reader to another. *)
Record group_ok (w : World W) ss g : Prop := {
  go_readers : readers_ok w g;
  go_alloc : alloc_ok w (ss ++ all_slices g);
}.

(** One reader of the group changes and gives up the slices [outs]. *)
Lemma reader_step_group w w' g rid r r' outs :
  group_ok w [] g → g !! rid = Some r → reader_step w w' r [] r' outs →
  group_ok w' outs (<[rid := r']> g) ∧ chain w w' (all_slices g) (outs ++ all_slices (<[rid := r']> g)).
Proof.
  intros [Hg Ha] Hr [_ Hi Hc]. rewrite app_nil_r in Hc. cbn [app] in Ha.
  assert (Hch : chain w w' (all_slices g) (outs ++ all_slices (<[rid := r']> g))).
  { apply (chain_perm _ _ _ (slices r ++ all_slices (delete rid g)) _ ((slices r' ++ outs) ++ all_slices (delete rid g))).
    - by rewrite (all_slices_delete g rid r Hr).
    - rewrite all_slices_insert. clear. solve_Permutation.
    - apply chain_frame; [|done]. eapply alloc_ok_perm; [|exact Ha]. by apply all_slices_delete. }
  split; [|done]. split.
  - apply readers_ok_insert; [|done]. eapply readers_ok_step; [apply Hc|done].
  - pose proof (chain_alloc _ _ _ _ _ [] Hch) as Hal. rewrite !app_nil_r in Hal. auto.
Qed.

(** What a whole action does. *)
Definition regrouped (w w' : World W) g g' : Prop :=
  group_ok w' [] g' ∧ chain w w' (all_slices g) (all_slices g').

Lemma regrouped_refl w g : group_ok w [] g → regrouped w w g g.
Proof. intros Hg. split; [done|]. apply chain_refl, Hg. Qed.
Lemma regrouped_trans w1 w2 w3 a b c : regrouped w1 w2 a b → regrouped w2 w3 b c → regrouped w1 w3 a c.
Proof. intros [_ C1] [G2 C2]. split; [done|]. by eapply chain_trans. Qed.

Abbreviation merge_into := (merge_into (W := W) (E := E) (GK := GK) options maxPredicateSize EmptyPredicateProtoSize).

Lemma NewReader_wp rid ss w (Φ : ReaderImpl → World W → Prop) :
  slices_ok store n w ss → (∀ r w', reader_inv w' r → slices r = ss → step w w' → Φ r w') →
  wp (NewReader options rid ss) Φ w.
Proof.
  intros Hs HΦ. unfold NewReader, setSliceCount. wp_steps. apply HΦ; [|done|apply step_monitor].
  eapply reader_inv_step; [apply step_monitor|]. split; [done|].
  unfold cursor_ok. simpl. destruct ss as [|s ss]; [done|]. simpl. exists s. split; [left|done].
Qed.

Lemma merge_into_wp g rid ss w (Φ : ReaderGroup → World W → Prop) :
  group_ok w ss g → Forall slice_inv ss → ordered ss →
  (∀ g' w', group_ok w' [] g' → chain w w' (ss ++ all_slices g) (all_slices g') → Φ g' w') →
  wp (merge_into g rid ss) Φ w.
Proof.
  intros Hgo Hi Ho HΦ. unfold Queue.merge_into, GetOrCreateReader.
  (* the reader exists, or an empty one is made *)
  assert (Hmerge : ∀ g1 r w1, step w w1 → group_ok w1 ss g1 → g1 !! rid = Some r → all_slices g1 ≡ₚ all_slices g →
    wp (qbind (MergeSlices options maxPredicateSize EmptyPredicateProtoSize r ss) (λ nr, qret (<[rid := nr]> g1))) Φ w1).
  { intros g1 r w1 St [Hg1 Ha1] Hr Hp. wp_steps.
    assert (Hal : alloc_ok w1 ((slices r ++ ss) ++ all_slices (delete rid g1))).
    { eapply alloc_ok_perm; [|exact Ha1]. rewrite (all_slices_delete g1 rid r Hr). clear. solve_Permutation. }
    eapply (MergeSlices_wp _ _ _ _ _ Hstore); [by eapply Hg1|done|done|by apply alloc_ok_app in Hal as [? _]|].
    intros r' w2 [_ Hr' Hc] _. rewrite app_nil_r in Hc. wp_steps.
    assert (Hch : chain w w2 (ss ++ all_slices g) (all_slices (<[rid := r']> g1))).
    { apply (chain_perm _ _ _ ((slices r ++ ss) ++ all_slices (delete rid g1)) _ (slices r' ++ all_slices (delete rid g1))).
      - rewrite <- Hp, (all_slices_delete g1 rid r Hr). clear. solve_Permutation.
      - by rewrite all_slices_insert.
      - eapply chain_trans; [|by apply chain_frame].
        split; [done|done| |by apply spans_sub]. split; [apply Hal|]. intros x Hx. left. by exists x. }
    apply HΦ; [|done]. split.
    - apply readers_ok_insert; [|done]. eapply readers_ok_step; [apply Hc|done].
    - pose proof (chain_alloc _ _ _ _ _ [] Hch) as Hal'. rewrite !app_nil_r in Hal'. apply Hal', Hgo. }
  destruct (g !! rid) as [r|] eqn:Er.
  - wp_steps. by apply (wp_bind_inv _ _ Φ), Hmerge.
  - unfold newReaderLocked. wp_steps. apply NewReader_wp.
    { split; [done|constructor|]. split; [constructor|]. intros s Hs. by apply not_elem_of_nil in Hs. }
    intros r w1 Hr Es St. wp_steps. rewrite Er. wp_steps.
    assert (Hp : all_slices (<[rid := r]> g) ≡ₚ all_slices g) by (by rewrite all_slices_insert_fresh, Es).
    apply (wp_bind_inv _ _ Φ), Hmerge; [done| |apply lookup_insert_eq|done]. destruct Hgo as [Hg Ha]. split.
    + apply readers_ok_insert; [|done]. by eapply readers_ok_step.
    + eapply alloc_ok_step; [done|]. eapply alloc_ok_perm; [|exact Ha]. by rewrite Hp.
Qed.

(** ** The splitters of the actions *)

Lemma chain_two w w' s a b :
  preserves [s] [a; b] → step w w' → fresh w a w' → fresh w b w' → slice_id a ≠ slice_id b →
  smin s ≤k smin a → smin s ≤k smin b → smax a ≤k smax s → smax b ≤k smax s → chain w w' [s] [a; b].
Proof.
  intros Hp St Fa Fb Hne Ma Mb Xa Xb.
  assert (Hin : ∀ x, x ∈ [a; b] → x = a ∨ x = b).
  { intros x [-> |[-> |Hx]%elem_of_cons]%elem_of_cons; [by left|by right|by apply not_elem_of_nil in Hx]. }
  split; [done|done| |].
  - split; [|intros x [-> | ->]%Hin; by right]. cbn. apply NoDup_cons. split; [|apply NoDup_singleton].
    by intros ?%list_elem_of_singleton.
  - intros x [-> | ->]%Hin; split; exists s; (split; [left|done]).
Qed.

Lemma slice_SplitByRange_chain s key w (Φ : SliceImpl * SliceImpl → World W → Prop) :
  slice_inv s → valid_key key → CanSplitByRange (scope s) key = true →
  (∀ a b w', slice_inv a → slice_inv b →
     ScopeRange (scope a) = mkRange (smin s) key → ScopeRange (scope b) = mkRange key (smax s) →
     smin s ≤k key → key ≤k smax s → chain w w' [s] [a; b] → Φ (a, b) w') →
  wp (slice_SplitByRange options maxPredicateSize EmptyPredicateProtoSize s key) Φ w.
Proof.
  intros Hs Hv Hc HΦ. unfold slice_SplitByRange. wp_steps. eapply slice_CanSplitByRange_wp; [done|].
  rewrite Hc. cbn [negb]. eapply (splitByRange_wp _ _ _ store n); [done..|].
  intros a b w' Hl Hr El Er Hp St Fl Fr Hne.
  apply CanSplit_spec in Hc as [H1 H2]; [|by apply (slice_wf store n s)].
  apply HΦ; try done. apply chain_two; try done; rewrite ?El, ?Er; simpl; auto using key_le_refl.
Qed.

Lemma predicate_splitter_ok : splitter_ok (W := W) (E := E) (GK := GK) store n id predicate_splitter.
Proof.
  intros moved s w Hs Ha. unfold predicate_splitter. wp_steps. eapply slice_Scope_wp; [done|].
  destruct (IsUniverisalPredicate _); wp_steps.
  - exists []. rewrite app_nil_r. split; [done|]. split; [by apply cut_self|]. split; [apply cut_nil|].
    by apply chain_refl.
  - exists [s]. split; [done|]. split; [apply cut_nil|]. split; [by apply cut_self|]. by apply chain_refl.
Qed.

Lemma group_splitter_ok pr :
  Predicates.wf pr = true → stable pr →
  splitter_ok (W := W) (E := E) (GK := GK) store n id (group_splitter options maxPredicateSize EmptyPredicateProtoSize pr).
Proof.
  intros Hwf Hst moved s w Hs Ha. unfold group_splitter. wp_steps. eapply slice_Scope_wp; [done|].
  destruct (IsEmpty _); wp_steps.
  { exists []. rewrite app_nil_r. split; [done|]. split; [by apply cut_self|]. split; [apply cut_nil|].
    by apply chain_refl. }
  eapply (slice_SplitByPredicate_wp _ _ _ store n); [done..|].
  intros pass fail w' Hp Hf Ep Ef Hpr St Fp Ff Hne. wp_steps. exists [pass]. split; [done|].
  assert (Hcut : ∀ x, slice_inv x → ScopeRange (scope x) = ScopeRange (scope s) → cut_from store n s [x]).
  { intros x Hx Ex. split; [by apply Forall_singleton|by repeat constructor|].
    intros y ->%list_elem_of_singleton. rewrite Ex. split; apply key_le_refl. }
  split; [by apply Hcut|]. split; [by apply Hcut|]. cbn [app].
  apply chain_two; try done; rewrite ?Ep, ?Ef; try apply key_le_refl.
  etrans; [exact Hpr|]. apply preserves_perm. constructor.
Qed.

(** The parts of [s] to keep, and the part [s1] to move, in the middle. *)
Record middle s rem s1 : Prop := {
  mid_inv : slice_inv s1;
  mid_cut : cut_from store n s rem;
  mid_in : smin s ≤k smin s1 ∧ smax s1 ≤k smax s;
  mid_none : rem = [] → s1 = s;
}.

Lemma cut_one s x : slice_inv x → smin s ≤k smin x → smax x ≤k smax s → cut_from store n s [x].
Proof.
  intros Hx H1 H2. split; [by apply Forall_singleton|by repeat constructor|]. by intros y ->%list_elem_of_singleton.
Qed.

Lemma cut_below_wp s key w (Φ : list SliceImpl * SliceImpl → World W → Prop) :
  slice_inv s → alloc_ok w [s] → valid_key key →
  (∀ rem s1 w1, middle s rem s1 → (∀ x, x ∈ rem → smax x ≤k smin s1) → chain w w1 [s] (rem ++ [s1]) → Φ (rem, s1) w1) →
  wp (cut_below options maxPredicateSize EmptyPredicateProtoSize key s) Φ w.
Proof.
  intros Hs Ha V HΦ. unfold cut_below. wp_steps. eapply slice_CanSplitByRange_wp; [done|].
  destruct (CanSplitByRange (scope s) key) eqn:Ec.
  - wp_steps. apply slice_SplitByRange_chain; [done..|]. intros a b w1 Hl Hb Ea Eb Hlo Hhi Hc. wp_steps.
    apply HΦ; [|intros x ->%list_elem_of_singleton; rewrite Ea, Eb; apply key_le_refl|done].
    split; [done| |rewrite Eb; simpl; auto using key_le_refl|done].
    apply cut_one; [done|rewrite Ea; apply key_le_refl|by rewrite Ea].
  - wp_steps. apply HΦ; [|intros x Hx; by apply not_elem_of_nil in Hx|by apply chain_refl].
    split; [done|apply cut_nil|split; apply key_le_refl|done].
Qed.

Lemma cut_above_wp s rem s1 key w w0 (Φ : list SliceImpl * SliceImpl → World W → Prop) :
  middle s rem s1 → (∀ x, x ∈ rem → smax x ≤k smin s1) → alloc_ok w0 [s] → chain w0 w [s] (rem ++ [s1]) → valid_key key →
  (∀ rem' s2 w2, middle s rem' s2 → chain w0 w2 [s] (rem' ++ [s2]) → Φ (rem', s2) w2) →
  wp (cut_above options maxPredicateSize EmptyPredicateProtoSize key rem s1) Φ w.
Proof.
  intros [Hs1 Hcut [M1 M2] Hnone] Hbelow Ha Hc V HΦ. unfold cut_above. wp_steps.
  eapply slice_CanSplitByRange_wp; [done|].
  destruct (CanSplitByRange (scope s1) key) eqn:Ec.
  - wp_steps. apply slice_SplitByRange_chain; [done..|]. intros a b w2 Hl Hb Ea Eb Hlo Hhi Hc2. wp_steps. apply HΦ.
    + split; [done| |rewrite Ea; simpl; eauto using key_le_trans|intros Happ; by destruct rem].
      destruct Hcut as [C1 C2 C3]. split.
      * apply Forall_app. split; [done|by apply Forall_singleton].
      * apply ordered_app. split; [done|]. split; [by repeat constructor|].
        intros x y Hx ->%list_elem_of_singleton. rewrite Eb. simpl. eauto using key_le_trans.
      * intros x [Hx| ->%list_elem_of_singleton]%elem_of_app; [auto|]. rewrite Eb. simpl. eauto using key_le_trans.
    + eapply chain_trans; [exact Hc|].
      apply (chain_perm _ _ _ ([s1] ++ rem) _ ([a; b] ++ rem)); [clear; solve_Permutation..|].
      apply chain_frame; [|done]. pose proof (chain_alloc _ _ _ _ _ [] Hc) as Hal. rewrite !app_nil_r in Hal.
      eapply alloc_ok_perm; [|by apply Hal]. clear. solve_Permutation.
  - wp_steps. by apply HΦ.
Qed.

Lemma stuck_splitter_ok rg :
  valid_key (InclusiveMin rg) → valid_key (ExclusiveMax rg) →
  splitter_ok (W := W) (E := E) (GK := GK) store n id (stuck_splitter options maxPredicateSize EmptyPredicateProtoSize rg).
Proof.
  intros V1 V2 moved s w Hs Ha. unfold stuck_splitter. wp_steps. eapply slice_Scope_wp; [done|].
  destruct (ContainsRange rg (ScopeRange (scope s))).
  { wp_steps. exists [s]. split; [done|]. split; [apply cut_nil|]. split; [by apply cut_self|]. by apply chain_refl. }
  wp_steps. apply cut_below_wp; [done..|]. intros rem s1 w1 Hm Hb Hc. wp_steps.
  eapply cut_above_wp; [done..|]. intros rem' s2 w2 [Hs2 Hcut [M1 M2] Hnone] Hc2. wp_steps.
  destruct rem' as [|x rem']; wp_steps.
  - rewrite (Hnone eq_refl) in Hc2. exists []. rewrite app_nil_r. split; [done|].
    split; [by apply cut_self|]. split; [apply cut_nil|done].
  - exists [s2]. split; [done|]. split; [done|]. split; [by apply cut_one|done].
Qed.

(** ** The actions *)

(** Walking with an iterator that only reads. *)
Lemma walk_loop_wp {A} (it : A → SliceImpl → Q W A) ss a w (Φ : A → World W → Prop) :
  Forall slice_inv ss → (∀ a s, slice_inv s → wp (it a s) (λ _ w', w' = w) w) → (∀ a', Φ a' w) →
  wp (walk_loop it ss a) Φ w.
Proof.
  intros Hs Hit HΦ. revert a. induction Hs as [|s ss Hs _ IH]; intros a; cbn [walk_loop]; [by wp_steps|].
  apply wp_bind. eapply wp_mono; [by apply Hit|]. cbn beta. intros a' w' ->. apply IH.
Qed.

Lemma reader_slices_inv w g rid r : readers_ok w g → g !! rid = Some r → Forall slice_inv (slices r).
Proof. intros Hg Hr. apply (so_inv _ _ _ _ (ri_slices _ _ _ _ (Hg rid r Hr))). Qed.

(** The shared shape of the three actions: split the slices of a reader and
    merge what was set aside into the next one. *)
Lemma split_and_move_wp g rid r splitter to w
    (Φ : ReaderImpl * list SliceImpl → World W → Prop) :
  group_ok w [] g → g !! rid = Some r → splitter_ok store n id splitter →
  (∀ r' moved w1, group_ok w1 moved (<[rid := r']> g) →
     chain w w1 (all_slices g) (moved ++ all_slices (<[rid := r']> g)) →
     (∀ (Ψ : ReaderGroup → World W → Prop), (∀ g' w', regrouped w w' g g' → Ψ g' w') →
        wp (merge_into (<[rid := r']> g) to moved) Ψ w1) →
     (moved = [] → regrouped w w1 g (<[rid := r']> g)) → Φ (r', moved) w1) →
  wp (SplitSlices options r splitter []) Φ w.
Proof.
  intros Hg Hr Hsp HΦ. eapply (SplitSlices_wp _ _ _ id splitter Hsp); [by eapply Hg|done|].
  intros r' moved w1 Hs _ Hi Ho. destruct (reader_step_group w w1 g rid r r' moved Hg Hr Hs) as [Hg1 Hc1].
  apply HΦ; [done|done| |].
  - intros Ψ HΨ. apply merge_into_wp; [done..|]. intros g' w' Hg' Hc'. apply HΨ. split; [done|].
    by eapply chain_trans.
  - intros ->. by split.
Qed.

Lemma slicePredicateAction_wp maxReaderCount g w (Φ : ReaderGroup * bool → World W → Prop) :
  group_ok w [] g → (∀ g' b w', regrouped w w' g g' → Φ (g', b) w') →
  wp (slicePredicateAction_Run options maxPredicateSize EmptyPredicateProtoSize maxReaderCount g) Φ w.
Proof.
  intros Hg HΦ. pose proof (regrouped_refl w g Hg) as Hrefl. unfold slicePredicateAction_Run, ReaderByID.
  destruct (g !! DefaultReaderId) as [r|] eqn:Er; [|wp_steps; by apply HΦ].
  destruct (_ <=? _); [wp_steps; by apply HΦ|].
  match goal with |- wp (λ w, ?f w w) _ _ => change (wp (f w) Φ w) | |- _ => idtac end.
  unfold wp. match goal with |- match ?m w with _ => _ end => change (wp m Φ w) end.
  wp_steps. apply walk_loop_wp; [by eapply reader_slices_inv; [apply Hg|]| |].
  { intros [c b] s Hs. wp_steps. eapply slice_Scope_wp; [done|]. by wp_steps. }
  intros [c b]. destruct (_ || _); [wp_steps; by apply HΦ|]. wp_steps.
  eapply (split_and_move_wp g _ r); [done|done|apply predicate_splitter_ok|].
  intros r' moved w1 Hg1 Hc1 Hmove Hnil. wp_steps.
  destruct moved as [|x moved]; wp_steps; [apply HΦ; auto|]. apply Hmove. intros g' w' Hr'. wp_steps. by apply HΦ.
Qed.

Lemma actionReaderStuck_wp rid k g w (Φ : ReaderGroup * bool → World W → Prop) :
  group_ok w [] g → valid_key k → valid_key (mkKey (FireTime k + monitorWatermarkPrecision) (TaskID k)) →
  (∀ g' b w', regrouped w w' g g' → Φ (g', b) w') →
  wp (actionReaderStuck_Run options maxPredicateSize EmptyPredicateProtoSize rid k g) Φ w.
Proof.
  intros Hg V1 V2 HΦ. pose proof (regrouped_refl w g Hg) as Hrefl. unfold actionReaderStuck_Run, ReaderByID.
  destruct (g !! rid) as [r|] eqn:Er; [|wp_steps; by apply HΦ].
  assert (Hle : k ≤k NewKey (FireTime k + monitorWatermarkPrecision) (TaskID k)).
  { unfold key_le, key_lt, NewKey, monitorWatermarkPrecision, Second. simpl. lia. }
  rewrite (proj2 (NewRange_Some _ _ _) (conj Hle eq_refl)). wp_steps.
  eapply (split_and_move_wp g rid r); [done|done|by apply stuck_splitter_ok|].
  intros r' moved w1 Hg1 Hc1 Hmove Hnil. wp_steps.
  destruct moved as [|x moved]; wp_steps; [apply HΦ; auto|]. apply Hmove. intros g' w' Hr'. wp_steps. by apply HΦ.
Qed.

Lemma TaskStats_wp s w (Φ : gmap GK Z → World W → Prop) : slice_inv s → (∀ m, Φ m w) → wp (TaskStats s) Φ w.
Proof.
  intros [Hl _ _ (tr & Etr & _)] HΦ. unfold TaskStats. wp_steps. eapply stateSanityCheck_wp; [done|].
  wp_steps. rewrite Etr. by wp_steps.
Qed.

Lemma move_group_of_wp rid c g w (Φ : ReaderGroup * bool → World W → Prop) :
  group_ok w [] g → (∀ g' b w', regrouped w w' g g' → Φ (g', b) w') →
  wp (move_group_of options maxPredicateSize EmptyPredicateProtoSize g rid c) Φ w.
Proof.
  intros Hg HΦ. pose proof (regrouped_refl w g Hg) as Hrefl. unfold move_group_of, ReaderByID.
  destruct (g !! rid) as [r|] eqn:Er; [|wp_steps; by apply HΦ]. wp_steps.
  apply walk_loop_wp; [by eapply reader_slices_inv; [apply Hg|]| |].
  { intros m s Hs. wp_steps. apply TaskStats_wp; [done|]. intros m'. by wp_steps. }
  intros m. destruct (map fst _) as [|k ks]; [wp_steps; by apply HΦ|]. wp_steps.
  eapply (split_and_move_wp g rid r); [done|done|apply group_splitter_ok; [apply Grouper_Predicate_wf|apply stable_Grouper]|].
  intros r' moved w1 Hg1 Hc1 Hmove _. wp_steps. apply Hmove. intros g' w' Hr'. wp_steps. by apply HΦ.
Qed.

Lemma move_group_loop_wp fuel mul mx rid c g b w (Φ : ReaderGroup * bool → World W → Prop) :
  group_ok w [] g → (Z.to_nat (mx - rid) < fuel)%nat → (∀ g' b' w', regrouped w w' g g' → Φ (g', b') w') →
  wp (move_group_loop options maxPredicateSize EmptyPredicateProtoSize fuel mul mx rid c g b) Φ w.
Proof.
  revert rid c g b w. induction fuel as [|fuel IH]; intros rid c g b w Hg Hf HΦ; [lia|].
  cbn [move_group_loop]. destruct (rid + 1 <? mx) eqn:El; bool_to_prop; [|wp_steps; by apply HΦ, regrouped_refl].
  wp_steps. apply move_group_of_wp; [done|]. intros g1 b1 w1 Hr1. wp_steps. apply IH; [apply Hr1|lia|].
  intros g2 b2 w2 Hr2. apply HΦ. by eapply regrouped_trans.
Qed.

Lemma checkpointAction_wp mul mx base g w (Φ : ReaderGroup * bool → World W → Prop) :
  group_ok w [] g → (∀ g' b w', regrouped w w' g g' → Φ (g', b) w') →
  wp (checkpointAction options maxPredicateSize EmptyPredicateProtoSize mul mx base g) Φ w.
Proof.
  intros Hg HΦ. unfold checkpointAction. destruct (_ >? 0); [|by apply slicePredicateAction_wp].
  apply move_group_loop_wp; [done| |done]. unfold DefaultReaderId. lia.
Qed.

(** ** Checkpoints *)

Lemma shrink_readers_wp ids g c w (Φ : ReaderGroup * Z → World W → Prop) :
  group_ok w [] g → (∀ g' c' w', regrouped w w' g g' → Φ (g', c') w') →
  wp (shrink_readers options maxPredicateSize EmptyPredicateProtoSize ids g c) Φ w.
Proof.
  revert g c w. induction ids as [|rid ids IH]; intros g c w Hg HΦ; cbn [shrink_readers].
  { wp_steps. by apply HΦ, regrouped_refl. }
  destruct (g !! rid) as [r|] eqn:Er; [|by apply IH]. wp_steps.
  eapply (ShrinkSlices_wp _ _ _ _ _ Hstore); [by eapply Hg|]. intros r' w1 Hs _ _. wp_steps.
  destruct (reader_step_group w w1 g rid r r' [] Hg Er Hs) as [Hg1 Hc1].
  apply IH; [done|]. intros g' c' w' Hr'. apply HΦ. eapply regrouped_trans; [|exact Hr']. by split.
Qed.

Lemma Scopes_wp ss w (Φ : list Scope → World W → Prop) :
  Forall slice_inv ss → Φ (map scope ss) w → wp (Scopes_loop ss) Φ w.
Proof.
  intros Hs. revert Φ. induction Hs as [|s ss Hs _ IH]; intros Φ HΦ; cbn [Scopes_loop]; [by wp_steps|].
  wp_steps. eapply slice_Scope_wp; [done|]. wp_steps. apply IH. by wp_steps.
Qed.

(** Deleting a reader without slices leaves the same list of slices. *)
Lemma all_slices_delete_empty g rid r :
  g !! rid = Some r → slices r = [] → all_slices (delete rid g) ≡ₚ all_slices g.
Proof. intros Hr Hn. rewrite (all_slices_delete g rid r Hr). by rewrite Hn. Qed.

(** The scopes of the slices not in [l] are in the map already; the result has
    them all, and the lowest key is below every slice. *)
Definition collected (scopes : gmap ReaderID (list Scope)) (k : Key) ss : Prop :=
  ∀ s, s ∈ ss → k ≤k smin s ∧ ∃ rid scs, scopes !! rid = Some scs ∧ scope s ∈ scs.

Lemma collect_scopes_wp l g scopes k0 w (Φ : ReaderGroup * gmap ReaderID (list Scope) * Key → World W → Prop) :
  group_ok w [] g → (∀ rid r, (rid, r) ∈ l → g !! rid = Some r) → NoDup l.*1 →
  (∀ rid, is_Some (scopes !! rid) → rid ∉ l.*1) →
  (∀ g' scopes' k w', regrouped w w' g g' → k ≤k k0 →
     (∀ rid scs, scopes !! rid = Some scs → scopes' !! rid = Some scs) →
     (∀ rid r, (rid, r) ∈ l → collected scopes' k (slices r)) →
     (∀ rid scs, scopes' !! rid = Some scs → scopes !! rid = Some scs ∨ ∃ r, (rid, r) ∈ l ∧ scs = map scope (slices r)) →
     Φ (g', scopes', k) w') →
  wp (collect_scopes l g scopes k0) Φ w.
Proof.
  revert g scopes k0 w. induction l as [|[rid r] l IH]; intros g scopes k0 w Hg Hl Hn Hsc HΦ; cbn [collect_scopes].
  { wp_steps. apply HΦ; [by apply regrouped_refl|apply key_le_refl|done| |by left].
    intros rid r Hin. by apply not_elem_of_nil in Hin. }
  assert (Hprov : ∀ (scopes' : gmap ReaderID (list Scope)) v, v = map scope (slices r) →
    (∀ rid' scs, scopes' !! rid' = Some scs → <[rid := v]> scopes !! rid' = Some scs ∨
       ∃ r', (rid', r') ∈ l ∧ scs = map scope (slices r')) →
    ∀ rid' scs, scopes' !! rid' = Some scs → scopes !! rid' = Some scs ∨
       ∃ r', (rid', r') ∈ (rid, r) :: l ∧ scs = map scope (slices r')).
  { intros scopes' v Hv Hp rid' scs Hrid. destruct (Hp rid' scs Hrid) as [Hx|(r' & Hin & ?)].
    - apply lookup_insert_Some in Hx as [[<- <-]|[_ ?]]; [right; exists r; split; [left|done]|by left].
    - right. exists r'. split; [by right|done]. }
  apply NoDup_cons in Hn as [Hnr Hn].
  assert (Hr : g !! rid = Some r) by (apply Hl; left).
  pose proof (Hg.(go_readers _ _ _) rid r Hr) as [[Hi Ho Ha] _].
  wp_steps. apply Scopes_wp; [done|].
  assert (Hl' : ∀ rid' r', (rid', r') ∈ l → g !! rid' = Some r') by (intros; apply Hl; by right).
  assert (Hsc' : ∀ v rid', is_Some (<[rid := v]> scopes !! rid') → rid' ∉ l.*1).
  { intros v rid' [x Hx]. apply lookup_insert_Some in Hx as [[<- _]|[_ Hx]]; [done|].
    assert (Hnin := Hsc rid' (mk_is_Some _ _ Hx)). by apply not_elem_of_cons in Hnin as [_ ?]. }
  assert (Hkeep : ∀ v rid' scs, scopes !! rid' = Some scs → <[rid := v]> scopes !! rid' = Some scs).
  { intros v rid' scs Hx. rewrite lookup_insert_ne; [done|]. intros <-.
    apply (Hsc rid (mk_is_Some _ _ Hx)). left. }
  destruct (slices r) as [|first rest] eqn:Er; cbn [map].
  - assert (Hskip : ∀ g' scopes' k w', regrouped w w' g g' → k ≤k k0 →
      (∀ rid scs, scopes !! rid = Some scs → scopes' !! rid = Some scs) →
      (∀ rid' r', (rid', r') ∈ l → collected scopes' k (slices r')) →
      (∀ rid' scs, scopes' !! rid' = Some scs → scopes !! rid' = Some scs ∨
         ∃ r', (rid', r') ∈ (rid, r) :: l ∧ scs = map scope (slices r')) → Φ (g', scopes', k) w').
    { intros g' scopes' k w' H1 H2 H3 H4 H6. apply HΦ; try done.
      intros rid' r' [[= -> ->]|Hin]%elem_of_cons; [|by eapply H4]. rewrite Er. intros s Hs. by apply not_elem_of_nil in Hs. }
    destruct (rid =? DefaultReaderId) eqn:Ed; cbn [negb].
    + apply IH; [done|done|done|apply Hsc'|]. intros g' scopes' k w' H1 H2 H3 H4 H6.
      apply Hskip; try done; [by auto|]. eapply Hprov; [|exact H6]. by rewrite ?Er.
    + unfold RemoveReader. rewrite Hr. wp_steps.
      assert (Hp := all_slices_delete_empty g rid r Hr Er).
      set (w1 := mkWorld _ _ _ _). assert (St : step w w1) by apply step_monitor.
      assert (Hrg : regrouped w w1 g (delete rid g)).
      { destruct Hg as [Hg1 Hg2]. split.
        - split; [|eapply alloc_ok_step; [done|]; eapply alloc_ok_perm; [|exact Hg2]; by rewrite Hp].
          intros rid' r' [_ Hr']%lookup_delete_Some. eapply reader_inv_step; [done|]. by eapply Hg1.
        - eapply chain_perm; [reflexivity|symmetry; exact Hp|]. eapply chain_step_r; [|done]. by apply chain_refl. }
      apply IH; [apply Hrg| |done| |].
      * intros rid' r' Hin. rewrite lookup_delete_ne; [by apply Hl'|]. intros <-. apply Hnr.
        apply list_elem_of_fmap. by exists (rid, r').
      * intros rid' Hs. assert (Hnin := Hsc rid' Hs). by apply not_elem_of_cons in Hnin as [_ ?].
      * intros g' scopes' k w' H1 H2 H3 H4 H6. apply Hskip; try done; [by eapply regrouped_trans|].
        intros rid' scs Hrid. destruct (H6 rid' scs Hrid) as [?|(r' & Hin & ?)]; [by left|right].
        exists r'. split; [by right|done].
  - assert (Hfirst : ∀ s, s ∈ slices r → smin first ≤k smin s).
    { rewrite Er. intros s [-> |Hs]%elem_of_cons; [apply key_le_refl|].
      apply ordered_cons in Ho as [_ Ho]. apply Forall_cons in Hi as [Hf _].
      pose proof (slice_wf _ _ _ Hf). eauto using key_le_trans. }
    apply IH; [done|done|done|apply Hsc'|]. intros g' scopes' k w' H1 H2 H3 H4 H6.
    assert (Hmin : MinKey k0 (smin first) ≤k k0 ∧ MinKey k0 (smin first) ≤k smin first) by (split; clear; key_solve).
    destruct Hmin as [Hm1 Hm2]. apply HΦ; [done|eauto using key_le_trans|auto| |].
    + intros rid' r' [[= -> ->]|Hin]%elem_of_cons; [|by eapply H4]. intros s Hs. split.
      * eapply key_le_trans; [exact H2|]. eauto using key_le_trans.
      * exists rid, (map scope (slices r)). split; [|by apply list_elem_of_In, in_map, list_elem_of_In].
        apply H3. rewrite Er. by rewrite lookup_insert_eq.
    + eapply Hprov; [|exact H6]. by rewrite ?Er.
Qed.
End queue_spec.
