(* ===== verification/ActionSliceCount.v ===== *)
(** * The slice-count action: [service/history/queues/action_slice_count.go]

    Run when a queue has more slices than a critical count: the readers' slices
    are shrunk and then, in four stages, neighbouring slices are compacted,
    nearest first, until few enough are left.  The target load factor is a
    floating-point product, the parameter [load] of the model. *)
From S2P Require Import Prelude TaskKey TaskRange Predicates TaskPredicates TaskScope Monitor PagingIterator.
From S2P Require Import TaskIterator Tracker Convert QueueWorld Slice SliceIterators SliceSpec SliceLoad.
From S2P Require Import SliceProps Reader ReaderSpec ReaderProps Queue QueueSpec.
Local Open Scope Z_scope.
Local Open Scope queue_scope.
Local Open Scope key_scope.

Record compactCandidate := mkCandidate { candidate_slice : SliceID; candidate_distance : Key }.

(** [slices.SortFunc] by distance; the order of equal distances is open. *)
Definition closer (this that : compactCandidate) : Prop :=
  CompareTo (candidate_distance this) (candidate_distance that) ≤ 0.
#[export] Instance closer_dec this that : Decision (closer this that).
Proof. unfold closer. apply _. Defined.

(** [None] is the panic of the slice expression on a negative bound. *)
Definition pickCompactCandidates (candidates : list compactCandidate) (numSliceToCompact : Z) : option (gset SliceID) :=
  if numSliceToCompact <? 0 then None
  else Some (list_to_set (map candidate_slice (take (Z.to_nat numSliceToCompact) (merge_sort closer candidates)))).

Section action.
Context {W E GK : Type} `{Countable GK} {G : Grouper GK}.
Context (options : MonitorOptions) (maxPredicateSize EmptyPredicateProtoSize : Z).
Context (load : Z → Z).

Abbreviation SliceImpl := (@SliceImpl W E GK _ _).
Abbreviation ReaderImpl := (@ReaderImpl W E GK _ _).
Abbreviation ReaderGroup := (gmap ReaderID ReaderImpl).
Abbreviation Q := (Q W).

Definition isUniversalPredicate (s : SliceImpl) : Q bool :=
  let* sc := slice_Scope s in qret (IsUniverisalPredicate (ScopePredicate sc)).
Definition isNotUniversalPredicate (s : SliceImpl) : Q bool :=
  let* b := isUniversalPredicate s in qret (negb b).
Definition isDefaultReader (readerID : ReaderID) : bool := readerID =? DefaultReaderId.
Definition isNotDefaultReader (readerID : ReaderID) : bool := negb (isDefaultReader readerID).

(** What the closure keeps between slices: the range before, whether its slice
    was eligible, and the candidates so far. *)
Definition candidate_step (slicePredicate : SliceImpl → Q bool)
    (acc : option Range * bool * list compactCandidate) (s : SliceImpl) : Q (option Range * bool * list compactCandidate) :=
  let '(prevRange, prevEligible, candidates) := acc in
  let* sc := slice_Scope s in
  let currentRange := ScopeRange sc in
  let* currentEligible := slicePredicate s in
  match prevRange with
  | Some prev =>
      if prevEligible && currentEligible then
        let* distance := qlift (Sub (InclusiveMin currentRange) (ExclusiveMax prev)) in
        qret (Some currentRange, currentEligible, candidates ++ [mkCandidate (slice_id s) distance])
      else qret (Some currentRange, currentEligible, candidates)
  | None => qret (Some currentRange, currentEligible, candidates)
  end.

Definition appendCompactCandidatesForReader (candidates : list compactCandidate) (reader : ReaderImpl)
    (slicePredicate : SliceImpl → Q bool) : Q (list compactCandidate) :=
  let* (_, candidates) := WalkSlices reader (candidate_step slicePredicate) (None, false, candidates) in
  qret candidates.

(** The two loops over the readers of [findAndCompactLowSliceCount]. *)
Fixpoint gather_candidates (ids : list ReaderID) (g : ReaderGroup) (readerPredicate : ReaderID → bool)
    (slicePredicate : SliceImpl → Q bool) (candidates : list compactCandidate) : Q (list compactCandidate) :=
  match ids with
  | [] => qret candidates
  | readerID :: ids =>
      match g !! readerID with
      | Some reader =>
          if readerPredicate readerID then
            let* candidates := appendCompactCandidatesForReader candidates reader slicePredicate in
            gather_candidates ids g readerPredicate slicePredicate candidates
          else gather_candidates ids g readerPredicate slicePredicate candidates
      | None => gather_candidates ids g readerPredicate slicePredicate candidates
      end
  end.
Fixpoint compact_readers (ids : list ReaderID) (g : ReaderGroup) (readerPredicate : ReaderID → bool)
    (sliceToCompact : gset SliceID) : Q ReaderGroup :=
  match ids with
  | [] => qret g
  | readerID :: ids =>
      match g !! readerID with
      | Some reader =>
          if readerPredicate readerID then
            let* reader := CompactSlices options maxPredicateSize EmptyPredicateProtoSize reader
                             (λ s, bool_decide (slice_id s ∈ sliceToCompact)) in
            compact_readers ids (<[readerID := reader]> g) readerPredicate sliceToCompact
          else compact_readers ids g readerPredicate sliceToCompact
      | None => compact_readers ids g readerPredicate sliceToCompact
      end
  end.

Definition findAndCompactLowSliceCount (g : ReaderGroup) (readerPredicate : ReaderID → bool)
    (slicePredicate : SliceImpl → Q bool) (targetSliceCount : Z) : Q (ReaderGroup * bool) :=
  let ids := map fst (map_to_list g) in
  let* currentSliceCount := q_monitor GetTotalSliceCount in
  let* candidates := gather_candidates ids g readerPredicate slicePredicate [] in
  let* sliceToCompact := qlift (pickCompactCandidates candidates (currentSliceCount - targetSliceCount)) in
  let* g := compact_readers ids g readerPredicate sliceToCompact in
  let* total := q_monitor GetTotalSliceCount in
  qret (g, total <=? targetSliceCount).

Definition actionSliceCount_Run (CriticalSliceCount : Z) (g : ReaderGroup) : Q (ReaderGroup * bool) :=
  let* total := q_monitor GetTotalSliceCount in
  if total <=? CriticalSliceCount then qret (g, false)
  else
    let* (g, _) := shrink_readers options maxPredicateSize EmptyPredicateProtoSize (map fst (map_to_list g)) g 0 in
    let* currentSliceCount := q_monitor GetTotalSliceCount in
    if currentSliceCount <=? CriticalSliceCount then qret (g, false)
    else
      let preferredSliceCount := load CriticalSliceCount in
      let* (g, enough) :=
        findAndCompactLowSliceCount g isNotDefaultReader isNotUniversalPredicate preferredSliceCount in
      if enough then qret (g, true)
      else
        let* (g, enough) :=
          findAndCompactLowSliceCount g isDefaultReader isNotUniversalPredicate preferredSliceCount in
        if enough then qret (g, true)
        else
          let* (g, enough) :=
            findAndCompactLowSliceCount g isNotDefaultReader isUniversalPredicate CriticalSliceCount in
          if enough then qret (g, true)
          else
            let* (g, _) := findAndCompactLowSliceCount g isDefaultReader isUniversalPredicate CriticalSliceCount in
            qret (g, true).
End action.

Section safety.
Context {W E GK : Type} `{Countable GK} {G : Grouper GK} {GL : GrouperLaws GK}.
Context (options : MonitorOptions) (maxPredicateSize EmptyPredicateProtoSize : Z) (load : Z → Z).
Context (store : list Task) (n : nat) (Hstore : store_sorted store).

Abbreviation SliceImpl := (@SliceImpl W E GK _ _).
Abbreviation ReaderGroup := (gmap ReaderID (@ReaderImpl W E GK _ _)).
Abbreviation slice_inv := (slice_inv (W := W) (E := E) (GK := GK) store n).
Abbreviation group_ok := (group_ok (W := W) (E := E) (GK := GK) store n).
Abbreviation regrouped := (regrouped (W := W) (E := E) (GK := GK) store n).
Abbreviation findAndCompactLowSliceCount :=
  (findAndCompactLowSliceCount (W := W) (E := E) (GK := GK) options maxPredicateSize EmptyPredicateProtoSize).
Abbreviation smin s := (InclusiveMin (ScopeRange (scope s))).

(** A test on slices that only looks. *)
Definition pure_test (pr : SliceImpl → Q W bool) : Prop :=
  ∀ s w (Φ : bool → World W → Prop), slice_inv s → (∀ b, Φ b w) → wp (pr s) Φ w.

Lemma isUniversalPredicate_pure : pure_test isUniversalPredicate.
Proof. intros s w Φ Hs HΦ. unfold isUniversalPredicate. wp_steps. eapply slice_Scope_wp; [done|]. by wp_steps. Qed.
Lemma isNotUniversalPredicate_pure : pure_test isNotUniversalPredicate.
Proof.
  intros s w Φ Hs HΦ. unfold isNotUniversalPredicate. wp_steps.
  apply isUniversalPredicate_pure; [done|]. intros b. by wp_steps.
Qed.

(** The slices are in order, so no distance is negative. *)
Lemma candidates_wp pr ss prev e cs w Φ :
  pure_test pr → Forall slice_inv ss → ordered ss →
  (∀ r, prev = Some r → valid_key (ExclusiveMax r) ∧ ∀ s, s ∈ ss → ExclusiveMax r ≤k smin s) →
  (∀ a, Φ a w) → wp (walk_loop (candidate_step pr) ss (prev, e, cs)) Φ w.
Proof.
  intros Hpr Hs. revert prev e cs. induction Hs as [|s ss Hs _ IH]; intros prev e cs Ho Hprev HΦ; cbn [walk_loop]; [by wp_steps|].
  unfold candidate_step at 1. wp_steps. eapply slice_Scope_wp; [done|]. wp_steps.
  apply Hpr; [done|]. intros b.
  assert (Hv : range_valid (ScopeRange (scope s))) by apply Hs.
  destruct Hv as (V1 & V2 & _). apply ordered_cons in Ho as [Ho1 Ho2].
  assert (Hnext : ∀ cs', wp (walk_loop (candidate_step pr) ss (Some (ScopeRange (scope s)), b, cs')) Φ w).
  { intros cs'. apply IH; [done| |done]. intros r [= <-]. by split. }
  destruct prev as [r|]; [|by wp_steps]. destruct (e && b); [|by wp_steps]. wp_steps.
  destruct (Hprev r eq_refl) as [Hr1 Hr2].
  destruct (Sub_is_Some (smin s) (ExclusiveMax r)) as [d ->]; [done|done|apply Hr2; left|]. by wp_steps.
Qed.

Lemma gather_candidates_wp ids g rp pr cs w Φ :
  pure_test pr → group_ok w [] g → (∀ cs', Φ cs' w) → wp (gather_candidates ids g rp pr cs) Φ w.
Proof.
  intros Hpr Hg HΦ. revert cs. induction ids as [|rid ids IH]; intros cs; cbn [gather_candidates]; [by wp_steps|].
  destruct (g !! rid) as [r|] eqn:Er; [|done]. destruct (rp rid); [|done]. wp_steps.
  destruct (go_readers _ _ _ _ _ Hg rid r Er) as [[Hi Ho _] _].
  unfold appendCompactCandidatesForReader, WalkSlices. wp_steps.
  apply candidates_wp; [done..|]. intros [[a1 a2] a3]. by wp_steps.
Qed.

Lemma compact_readers_wp ids g rp cs w (Φ : ReaderGroup → World W → Prop) :
  group_ok w [] g → (∀ g' w', regrouped w w' g g' → Φ g' w') →
  wp (compact_readers options maxPredicateSize EmptyPredicateProtoSize ids g rp cs) Φ w.
Proof.
  revert g w. induction ids as [|rid ids IH]; intros g w Hg HΦ; cbn [compact_readers].
  { wp_steps. by apply HΦ, regrouped_refl. }
  destruct (g !! rid) as [r|] eqn:Er; [|by apply IH]. destruct (rp rid); [|by apply IH]. wp_steps.
  eapply (CompactSlices_wp _ _ _ _ _ Hstore); [by eapply Hg|]. intros r' w1 Hs _.
  destruct (reader_step_group _ _ w w1 g rid r r' [] Hg Er Hs) as [Hg1 Hc1].
  apply IH; [done|]. intros g' w' Hr'. apply HΦ. eapply regrouped_trans; [|exact Hr']. by split.
Qed.

(** A stage panics exactly when the slice count is below its target already;
    it reports whether the target is met. *)
Lemma findAndCompact_wlp g rp pr target w (Φ : ReaderGroup * bool → World W → Prop) (Ψ : Prop) :
  pure_test pr → group_ok w [] g →
  (∀ g' w', regrouped w w' g g' → Φ (g', GetTotalSliceCount (monitor w') <=? target) w') →
  (GetTotalSliceCount (monitor w) < target → Ψ) →
  wlp (findAndCompactLowSliceCount g rp pr target) Φ Ψ w.
Proof.
  intros Hpr Hg HΦ HΨ. unfold ActionSliceCount.findAndCompactLowSliceCount.
  apply wlp_bind, wlp_wp. wp_steps. apply wlp_bind, wlp_wp, gather_candidates_wp; [done..|]. intros cs.
  apply wlp_bind, wlp_lift; unfold pickCompactCandidates; destruct (_ <? 0) eqn:Eneg; try done; bool_to_prop.
  - intros picked _. apply wlp_wp. wp_steps.
    apply compact_readers_wp; [done|]. intros g' w' Hr. wp_steps. by apply HΦ.
  - intros _. apply HΨ. lia.
Qed.

(** The only stage that can panic is the third: its target is the critical
    count, while the second was only left because the preferred count was not met. *)
Lemma actionSliceCount_wlp critical g w (Φ : ReaderGroup * bool → World W → Prop) (Ψ : Prop) :
  load critical ≤ critical → group_ok w [] g → (∀ g' b w', regrouped w w' g g' → Φ (g', b) w') →
  (∀ g' w', regrouped w w' g g' →
     load critical < GetTotalSliceCount (monitor w') < critical → Ψ) →
  wlp (actionSliceCount_Run options maxPredicateSize EmptyPredicateProtoSize load critical g) Φ Ψ w.
Proof.
  intros Hload Hg HΦ HΨ. unfold actionSliceCount_Run. apply wlp_bind, wlp_wp. wp_steps.
  destruct (_ <=? _); [apply wlp_wp; wp_steps; by apply HΦ, regrouped_refl|].
  apply wlp_bind, wlp_wp. eapply (shrink_readers_wp _ _ _ _ _ Hstore); [done|]. intros g1 c1 w1 Hr1.
  apply wlp_bind, wlp_wp. wp_steps.
  destruct (_ <=? _) eqn:E1; [apply wlp_wp; wp_steps; by apply HΦ|]. apply Z.leb_gt in E1.
  assert (Hstage : ∀ g2 w2 rp pr target (k : ReaderGroup * bool → Q W (ReaderGroup * bool)),
    regrouped w w2 g g2 → pure_test pr → (GetTotalSliceCount (monitor w2) < target → Ψ) →
    (∀ g3 w3, regrouped w w3 g g3 → wlp (k (g3, GetTotalSliceCount (monitor w3) <=? target)) Φ Ψ w3) →
    wlp (qbind (findAndCompactLowSliceCount g2 rp pr target) k) Φ Ψ w2).
  { intros g2 w2 rp pr target k Hr2 Hpr Hlt Hk. apply wlp_bind, findAndCompact_wlp; [done|apply Hr2| |done].
    intros g3 w3 Hr3. apply Hk. by eapply regrouped_trans. }
  assert (Hret : ∀ g2 b w2, regrouped w w2 g g2 → wlp (qret (g2, b)) Φ Ψ w2) by (intros; by apply HΦ).
  apply Hstage; [done|apply isNotUniversalPredicate_pure|lia|]. intros g2 w2 Hr2.
  destruct (_ <=? _) eqn:E2; [by apply Hret|]. apply Z.leb_gt in E2.
  apply Hstage; [done|apply isNotUniversalPredicate_pure|lia|]. intros g3 w3 Hr3.
  destruct (_ <=? _) eqn:E3; [by apply Hret|]. apply Z.leb_gt in E3.
  apply Hstage; [done|apply isUniversalPredicate_pure|intros; by eapply HΨ|]. intros g4 w4 Hr4.
  destruct (_ <=? _) eqn:E4; [by apply Hret|]. apply Z.leb_gt in E4.
  apply Hstage; [done|apply isUniversalPredicate_pure|lia|]. intros g5 w5 Hr5. by apply Hret.
Qed.

(** On a reader group that satisfies its invariant the slice-count action, when it returns, leaves a group that
    satisfies it and loses no task: what a slice owed is still owed by one, or had been acked. It can panic, and
    then only after the shrinking and compacting so far have left the slice count strictly between the preferred
    and the critical count, where there was no reason left to compact. *)
Theorem actionSliceCount_safe critical g w :
  load critical ≤ critical → group_ok w [] g →
  match actionSliceCount_Run options maxPredicateSize EmptyPredicateProtoSize load critical g w with
  | Ok ((g', _), w') =>
      group_ok w' [] g' ∧
      ∀ t, t ∈ store → owed (all_slices g) t →
        owed (all_slices g') t ∨ ∃ s, s ∈ all_slices g ∧ acked s t
  | Panic => ∃ g' w', regrouped w w' g g' ∧ load critical < GetTotalSliceCount (monitor w') < critical
  | Err _ => False
  end.
Proof.
  intros Hload Hg.
  assert (Hrun : wlp (actionSliceCount_Run options maxPredicateSize EmptyPredicateProtoSize load critical g)
    (λ gb w', group_ok w' [] gb.1 ∧ ∀ t, t ∈ store → owed (all_slices g) t →
       owed (all_slices gb.1) t ∨ ∃ s, s ∈ all_slices g ∧ acked s t)
    (∃ g' w', regrouped w w' g g' ∧ load critical < GetTotalSliceCount (monitor w') < critical) w).
  { apply actionSliceCount_wlp; [done|done| |by eauto]. intros g1 b1 w1 [Hg1 [[Hp _] _ _ _]]. by split. }
  unfold wlp in Hrun. by destruct (actionSliceCount_Run _ _ _ _ _ _ _) as [[[g' b] w']|e|].
Qed.
End safety.

(** ** Witness and a run that panics *)

(** [int(float64(c) * 0.8)] on the counts used here. *)
Definition sample_load (c : Z) : Z := c * 4 / 5.

Definition sample_group : gmap ReaderID (@ReaderImpl nat string string _ _) :=
  {[ DefaultReaderId := sample_reader [sample_slice 1 1 3 ["n1"]; sample_slice 2 3 9 ["n1"]] ]}.

Definition counted_world : World nat :=
  mkWorld 9 (SetSliceCount sample_options 0 (newMonitor CategoryTypeImmediate) DefaultReaderId 2) 0 0%nat.

Lemma sample_group_ok : group_ok sample_store 0 counted_world [] sample_group.
Proof.
  assert (Hs := sample_two_slices counted_world ltac:(done)). split.
  - unfold sample_group. intros rid r [_ <-]%lookup_singleton_Some. by apply sample_reader_inv.
  - unfold all_slices, sample_group. rewrite map_to_list_singleton. apply Hs.
Qed.

Lemma actionSliceCount_safe_witness :
  match actionSliceCount_Run sample_options 0 2 sample_load 1 sample_group counted_world with
  | Ok ((g', b), w') => b = true ∧ length (all_slices g') = 1%nat ∧ GetTotalSliceCount (monitor w') = 1
  | _ => False
  end ∧
  sample_load 1 ≤ 1 ∧ group_ok sample_store 0 counted_world [] sample_group ∧
  match actionSliceCount_Run sample_options 0 2 sample_load 1 sample_group counted_world with
  | Ok ((g', _), w') =>
      group_ok sample_store 0 w' [] g' ∧
      ∀ t, t ∈ sample_store → owed (all_slices sample_group) t →
        owed (all_slices g') t ∨ ∃ s, s ∈ all_slices sample_group ∧ acked s t
  | Panic => ∃ g' w', regrouped sample_store 0 counted_world w' sample_group g' ∧
               sample_load 1 < GetTotalSliceCount (monitor w') < 1
  | Err _ => False
  end.
Proof.
  split; [vm_compute; repeat split; reflexivity|]. split; [by_decide|]. split; [exact sample_group_ok|].
  apply (actionSliceCount_safe sample_options 0 2 sample_load sample_store 0 sample_store_sorted 1 sample_group counted_world).
  - by_decide.
  - exact sample_group_ok.
Defined.

(** Eleven slices where ten are critical: three neighbours of one namespace and
    eight with the universal predicate. *)
Definition universal_slice (id : SliceID) (lo hi : Z) : @SliceImpl nat string string _ _ :=
  mkSlice id false (mkScope (mkRange (mkKey 0 lo) (mkKey 0 hi)) UniversalImpl)
    [NewIterator (mkRange (mkKey 0 lo) (mkKey 0 hi))] (Some newExecutableTracker).

Definition crowded_slices : list (@SliceImpl nat string string _ _) :=
  [sample_slice 1 10 11 ["n1"]; sample_slice 2 12 13 ["n1"]; sample_slice 3 14 15 ["n1"]] ++
  map (λ i : nat, universal_slice (N.of_nat (4 + i)) (20 + 2 * Z.of_nat i) (21 + 2 * Z.of_nat i)) (seq 0 8).

Definition crowded_run : option (outcome stuck unit * Z) :=
  match NewReader sample_options DefaultReaderId crowded_slices (mkWorld 20 (newMonitor CategoryTypeImmediate) 0 0%nat) with
  | Ok (r, w) =>
      Some (match actionSliceCount_Run sample_options 0 2 sample_load 10 {[ DefaultReaderId := r ]} w with
            | Ok _ => Ok tt
            | Err e => Err e
            | Panic => Panic
            end, GetTotalSliceCount (monitor w))
  | _ => None
  end.

(** The slice-count action can panic: with eleven slices in the default reader where ten are critical, three of them
    neighbours with the same namespace predicate, the second stage compacts those three into one; nine slices are more
    than the preferred eight, so the third stage runs with the critical count as its target, and [pickCompactCandidates]
    takes the first 9 - 10 of the candidates, a slice expression with a negative bound. *)
Theorem actionSliceCount_panics : crowded_run = Some (Panic, 11).
Proof. vm_compute. reflexivity. Qed.
