(* ===== verification/ActionPendingTask.v ===== *)
(** * The pending-task action: [service/history/queues/action_pending_task_count.go]

    Run when a queue holds more pending tasks in memory than a critical count:
    the readers' slices are shrunk, then task groups are picked, largest
    first and newest slices first, until few enough tasks would be left, and what
    was picked is split off, cleared and moved to the next reader.  The
    picking works on plain maps, the rest on the reader group.  The target load
    is the parameter [load]. *)
From S2P Require Import Prelude TaskKey TaskRange Predicates TaskPredicates TaskScope Monitor PagingIterator.
From S2P Require Import TaskIterator PriorityQueue Tracker Convert QueueWorld Slice SliceIterators SliceSpec.
From S2P Require Import SliceLoad SliceProps Reader ReaderSpec ReaderProps Queue QueueSpec ActionSliceCount.
Local Open Scope Z_scope.
Local Open Scope queue_scope.
Local Open Scope key_scope.

Section pick.
Context {GK : Type} `{Countable GK}.

(** The fields of the action used while it runs; a slice is its identity, and a
    list of slices also has where each starts. *)
Record actionState := mkActionState {
  tasksPerKey : gmap GK Z;
  pendingTasksPerKeyPerSlice : gmap SliceID (gmap GK Z);
  slicesPerKey : gmap GK (list (SliceID * Key));
  keysToClearPerSlice : gmap SliceID (list GK);
}.

Definition action_init : actionState := mkActionState ∅ ∅ ∅ ∅.

(** The body of the walk in [gatherStatistics] for one slice. *)
Definition gather_slice (a : actionState) (s : SliceID) (inclusiveMin : Key) (pendingPerKey : gmap GK Z) : actionState :=
  foldr (λ kv a, mkActionState (map_add kv.1 kv.2 (tasksPerKey a)) (pendingTasksPerKeyPerSlice a)
                   (<[kv.1 := default [] (slicesPerKey a !! kv.1) ++ [(s, inclusiveMin)]]> (slicesPerKey a))
                   (keysToClearPerSlice a))
    (mkActionState (tasksPerKey a) (<[s := pendingPerKey]> (pendingTasksPerKeyPerSlice a)) (slicesPerKey a)
       (keysToClearPerSlice a))
    (map_to_list pendingPerKey).

(** [slices.SortFunc], from the largest start to the smallest. *)
Definition newer (this that : SliceID * Key) : Prop := CompareTo that.2 this.2 ≤ 0.
#[global] Instance newer_dec this that : Decision (newer this that).
Proof. unfold newer. apply _. Defined.
Definition sort_slices (a : actionState) : actionState :=
  mkActionState (tasksPerKey a) (pendingTasksPerKeyPerSlice a) (merge_sort newer <$> slicesPerKey a) (keysToClearPerSlice a).

Definition tasks_of (a : actionState) (key : GK) : Z := default 0 (tasksPerKey a !! key).
(** The order of the priority queue: more pending tasks first. *)
Definition more_tasks (a : actionState) (this that : GK) : bool := tasks_of a that <? tasks_of a this.

(** One turn of the loop of [findSliceToClear] for [key], just removed from the
    queue: [None] is the panic on a key without slices. *)
Definition clear_one (a : actionState) (key : GK) : option (actionState * Z) :=
  match default [] (slicesPerKey a !! key) with
  | [] => None
  | (sliceToClear, _) :: sliceList =>
      let tasksCleared := default 0 (default ∅ (pendingTasksPerKeyPerSlice a !! sliceToClear) !! key) in
      Some (mkActionState (map_add key (- tasksCleared) (tasksPerKey a)) (pendingTasksPerKeyPerSlice a)
              (<[key := sliceList]> (slicesPerKey a))
              (<[sliceToClear := default [] (keysToClearPerSlice a !! sliceToClear) ++ [key]]> (keysToClearPerSlice a)),
            tasksCleared)
  end.

Fixpoint find_loop (fuel : nat) (a : actionState) (pq : list GK) (currentPendingTasks targetPendingTasks : Z)
    : outcome stuck actionState :=
  match fuel with
  | O => Err OutOfFuel
  | S fuel =>
      if (targetPendingTasks <? currentPendingTasks) && negb (PriorityQueue.IsEmpty pq) then
        match Remove (more_tasks a) pq with
        | None => Panic
        | Some (key, pq) =>
            match clear_one a key with
            | None => Panic
            | Some (a, tasksCleared) =>
                match (if 0 <? tasks_of a key then Add (more_tasks a) pq key else Some pq) with
                | None => Panic
                | Some pq => find_loop fuel a pq (currentPendingTasks - tasksCleared) targetPendingTasks
                end
            end
        end
      else Ok a
  end.

(** Every turn takes a slice off the list of a key. *)
Definition list_slices (a : actionState) : nat := Z.to_nat (msum (λ l, Z.of_nat (length l)) (slicesPerKey a)).

Definition findSliceToClear (a : actionState) (targetPendingTasks : Z) : outcome stuck actionState :=
  let currentPendingTasks := msum (λ c, c) (tasksPerKey a) in
  match NewPriorityQueueWithItems (more_tasks a) (map fst (map_to_list (tasksPerKey a))) with
  | None => Panic
  | Some pq => find_loop (S (list_slices a)) a pq currentPendingTasks targetPendingTasks
  end.
End pick.
Arguments actionState GK {_ _}.

Section action.
Context {W E GK : Type} `{Countable GK} {G : Grouper GK}.
Context (options : MonitorOptions) (maxPredicateSize EmptyPredicateProtoSize : Z).
Context (load : Z → Z).

Abbreviation SliceImpl := (@SliceImpl W E GK _ _).
Abbreviation ReaderImpl := (@ReaderImpl W E GK _ _).
Abbreviation ReaderGroup := (gmap ReaderID ReaderImpl).
Abbreviation Q := (Q W).

Definition gather_step (a : actionState GK) (s : SliceImpl) : Q (actionState GK) :=
  let* pendingPerKey := TaskStats s in
  let* sc := slice_Scope s in
  qret (gather_slice a (slice_id s) (InclusiveMin (ScopeRange sc)) pendingPerKey).

Fixpoint gather_readers (ids : list ReaderID) (g : ReaderGroup) (a : actionState GK) : Q (actionState GK) :=
  match ids with
  | [] => qret a
  | readerID :: ids =>
      match g !! readerID with
      | Some reader => let* a := WalkSlices reader gather_step a in gather_readers ids g a
      | None => gather_readers ids g a
      end
  end.

Definition gatherStatistics (ids : list ReaderID) (g : ReaderGroup) (a : actionState GK) : Q (actionState GK) :=
  let* a := gather_readers ids g a in
  qret (sort_slices a).

Definition run_outcome {A} (o : outcome stuck A) : Q A :=
  match o with Ok a => qret a | Err e => λ _, Err e | Panic => qpanic end.

Definition clear_splitter (keysToClear : gmap SliceID (list GK)) : SliceSplitter (list SliceImpl) := λ splitSlices s,
  match keysToClear !! slice_id s with
  | None => qret ([], false, splitSlices)
  | Some keys =>
      let* (split, remain) :=
        slice_SplitByPredicate options maxPredicateSize EmptyPredicateProtoSize s (Grouper_Predicate keys) in
      let* split := Clear options maxPredicateSize EmptyPredicateProtoSize split in
      qret ([remain], true, splitSlices ++ [split])
  end.

(** One reader of the loop of [splitAndClearSlice]. *)
Definition split_and_clear (maxReaderCount : Z) (keysToClear : gmap SliceID (list GK)) (readerID : ReaderID)
    (reader : ReaderImpl) (g : ReaderGroup) : Q ReaderGroup :=
  if readerID =? maxReaderCount - 1 then
    let picked s := bool_decide (is_Some (keysToClear !! slice_id s)) in
    let cleared := existsb picked (slices reader) in
    let* reader := ClearSlices options maxPredicateSize EmptyPredicateProtoSize reader picked in
    qret (<[readerID := if cleared then Pause reader else reader]> g)
  else
    let* (reader, splitSlices) := SplitSlices options reader (clear_splitter keysToClear) [] in
    let g := <[readerID := reader]> g in
    match splitSlices with
    | [] => qret g
    | _ =>
        let* g := merge_into options maxPredicateSize EmptyPredicateProtoSize g (readerID + 1) splitSlices in
        qret (alter Pause (readerID + 1) g)
    end.

Fixpoint splitAndClearSlice (maxReaderCount : Z) (keysToClear : gmap SliceID (list GK)) (ids : list ReaderID)
    (g : ReaderGroup) : Q ReaderGroup :=
  match ids with
  | [] => qret g
  | readerID :: ids =>
      match g !! readerID with
      | None => splitAndClearSlice maxReaderCount keysToClear ids g
      | Some reader =>
          let* g := split_and_clear maxReaderCount keysToClear readerID reader g in
          splitAndClearSlice maxReaderCount keysToClear ids g
      end
  end.

Definition actionQueuePendingTask_Run (CriticalPendingTaskCount maxReaderCount : Z) (g : ReaderGroup)
    : Q (ReaderGroup * bool) :=
  let* total := q_monitor totalPendingTaskCount in
  if total <=? CriticalPendingTaskCount then qret (g, false)
  else
    let ids := map fst (map_to_list g) in
    let* (g, _) := shrink_readers options maxPredicateSize EmptyPredicateProtoSize ids g 0 in
    let* total := q_monitor totalPendingTaskCount in
    if total <=? CriticalPendingTaskCount then qret (g, false)
    else
      let* a := gatherStatistics ids g action_init in
      let* a := run_outcome (findSliceToClear a (load CriticalPendingTaskCount)) in
      let* g := splitAndClearSlice maxReaderCount (keysToClearPerSlice a) ids g in
      qret (g, true).
End action.

(** ** Picking what to clear *)

Section picked.
Context {GK : Type} `{Countable GK}.
Implicit Types (a : actionState GK) (key : GK) (l : list (SliceID * Key)).

Definition slices_of a key : list (SliceID * Key) := default [] (slicesPerKey a !! key).
Definition count_of a key (s : SliceID) : Z := default 0 (default ∅ (pendingTasksPerKeyPerSlice a !! s) !! key).
Definition sum_counts a key l : Z := foldr (λ sk acc, acc + count_of a key sk.1) 0 l.

(** What [gatherStatistics] establishes: the tasks of a key are those of its slices. *)
Record gathered a : Prop := {
  ga_sum : ∀ key, tasks_of a key = sum_counts a key (slices_of a key);
  ga_ids : ∀ key s, s ∈ slices_of a key → is_Some (pendingTasksPerKeyPerSlice a !! s.1);
  ga_some : ∀ key, is_Some (tasksPerKey a !! key) → slices_of a key ≠ [];
}.

Lemma sum_counts_app a key l l' : sum_counts a key (l ++ l') = sum_counts a key l + sum_counts a key l'.
Proof. induction l as [|x l IH]; simpl; [done|]. rewrite IH. lia. Qed.
Lemma sum_counts_perm a key l l' : l ≡ₚ l' → sum_counts a key l = sum_counts a key l'.
Proof. induction 1; simpl; lia. Qed.
Lemma sum_counts_ext a a' key l :
  (∀ s, s ∈ l → count_of a key s.1 = count_of a' key s.1) → sum_counts a key l = sum_counts a' key l.
Proof.
  induction l as [|x l IH]; intros Hl; simpl; [done|]. rewrite IH by (intros; apply Hl; by right).
  by rewrite (Hl x) by left.
Qed.

Lemma gathered_init : gathered action_init.
Proof.
  split; [done|by intros key s ?%not_elem_of_nil|]. intros key [x Hx]. simpl in Hx. by rewrite lookup_empty in Hx.
Qed.

(** The fold of [gather_slice] over distinct keys. *)
Lemma gather_fold (s : SliceID) (k0 : Key) (kvs : list (GK * Z)) a0 :
  NoDup kvs.*1 →
  let a := foldr (λ kv a, mkActionState (map_add kv.1 kv.2 (tasksPerKey a)) (pendingTasksPerKeyPerSlice a)
                   (<[kv.1 := default [] (slicesPerKey a !! kv.1) ++ [(s, k0)]]> (slicesPerKey a))
                   (keysToClearPerSlice a)) a0 kvs in
  pendingTasksPerKeyPerSlice a = pendingTasksPerKeyPerSlice a0 ∧
  (∀ key, key ∉ kvs.*1 → tasksPerKey a !! key = tasksPerKey a0 !! key ∧ slices_of a key = slices_of a0 key) ∧
  (∀ key c, (key, c) ∈ kvs → tasks_of a key = tasks_of a0 key + c ∧ slices_of a key = slices_of a0 key ++ [(s, k0)]).
Proof.
  induction kvs as [|[k c] kvs IH]; simpl; intros Hnd.
  { split; [done|]. split; [done|]. by intros key c ?%not_elem_of_nil. }
  apply NoDup_cons in Hnd as [Hk Hnd]. destruct (IH Hnd) as (I1 & I2 & I3). clear IH.
  set (a := foldr _ a0 kvs) in *. destruct (I2 k Hk) as [I2a I2b].
  split; [done|]. split.
  - intros key [Hne Hnin]%not_elem_of_cons. destruct (I2 key Hnin) as [J1 J2].
    unfold slices_of, map_add in *. simpl. by rewrite !lookup_insert_ne.
  - intros key c' [[= -> ->]|Hin]%elem_of_cons.
    + unfold tasks_of, slices_of in *. simpl. rewrite map_add_lookup, decide_True, lookup_insert_eq by done. simpl.
      by rewrite I2a, I2b.
    + assert (k ≠ key). { intros ->. apply Hk, list_elem_of_fmap. by exists (key, c'). }
      destruct (I3 key c' Hin) as [J1 J2]. unfold tasks_of, slices_of in *. simpl.
      rewrite map_add_lookup, decide_False, lookup_insert_ne by done. split; [lia|done].
Qed.

Lemma gather_slice_gathered a s k0 m :
  gathered a → pendingTasksPerKeyPerSlice a !! s = None → gathered (gather_slice a s k0 m).
Proof.
  intros [G1 G2 G3] Hs. unfold gather_slice.
  set (a0 := mkActionState _ _ _ _).
  destruct (gather_fold s k0 (map_to_list m) a0 (NoDup_fst_map_to_list m)) as (F1 & F2 & F3).
  set (a' := foldr _ a0 _) in *. simpl in F1.
  assert (Hcount : ∀ key x, is_Some (pendingTasksPerKeyPerSlice a !! x) → count_of a' key x = count_of a key x).
  { intros key x [y Hy]. unfold count_of. rewrite F1, lookup_insert_ne by congruence. done. }
  assert (Hold : ∀ key, sum_counts a' key (slices_of a key) = tasks_of a key).
  { intros key. rewrite G1. apply sum_counts_ext. intros x Hx. by apply Hcount, (G2 key). }
  assert (Hcases : ∀ key, (∃ c, m !! key = Some c ∧ (key, c) ∈ map_to_list m) ∨ key ∉ (map_to_list m).*1).
  { intros key. destruct (m !! key) as [c|] eqn:E; [left; exists c; split; [done|by apply elem_of_map_to_list]|right].
    intros ([k c] & -> & Hin%elem_of_map_to_list)%list_elem_of_fmap. simpl in E. congruence. }
  split.
  - intros key. destruct (Hcases key) as [(c & Hc & Hin)|Hnin].
    + destruct (F3 key c Hin) as [-> ->]. rewrite sum_counts_app. change (slices_of a0 key) with (slices_of a key).
      rewrite Hold. simpl. unfold count_of. rewrite F1, lookup_insert_eq. simpl. rewrite Hc. done.
    + destruct (F2 key Hnin) as [E1 ->]. unfold tasks_of. rewrite E1. change (slices_of a0 key) with (slices_of a key).
      by rewrite Hold.
  - intros key x. rewrite F1. destruct (Hcases key) as [(c & _ & Hin)|Hnin].
    + destruct (F3 key c Hin) as [_ ->]. intros [Hx| ->%list_elem_of_singleton]%elem_of_app.
      * apply lookup_insert_is_Some'. right. by apply (G2 key).
      * by rewrite lookup_insert_eq.
    + destruct (F2 key Hnin) as [_ ->]. intros Hx. apply lookup_insert_is_Some'. right. by apply (G2 key).
  - intros key. destruct (Hcases key) as [(c & _ & Hin)|Hnin].
    + destruct (F3 key c Hin) as [_ ->]. intros _ Hnil. by apply app_nil in Hnil as [_ ?].
    + destruct (F2 key Hnin) as [-> ->]. apply G3.
Qed.

Lemma sort_slices_gathered a : gathered a → gathered (sort_slices a).
Proof.
  intros [G1 G2 G3].
  assert (Hs : ∀ key, slices_of (sort_slices a) key ≡ₚ slices_of a key).
  { intros key. unfold slices_of. simpl. rewrite lookup_fmap. destruct (slicesPerKey a !! key); simpl; [|done].
    apply merge_sort_Permutation. }
  split.
  - intros key. rewrite (sum_counts_perm _ _ _ _ (Hs key)). apply G1.
  - intros key s. rewrite Hs. apply G2.
  - intros key Hk Hnil. apply (G3 key Hk). apply Permutation_nil_r. by rewrite <- (Hs key), Hnil.
Qed.

#[global] Instance more_tasks_laws a : LessLaws (more_tasks a).
Proof.
  unfold more_tasks. split; [intros x y ?%Z.ltb_lt; apply Z.ltb_ge; lia|].
  intros x y z ?%Z.ltb_ge ?%Z.ltb_ge. apply Z.ltb_ge. lia.
Qed.

(** How many tasks the keys picked for each slice stand for. *)
Definition picked_tasks a (s : SliceID) (keys : list GK) : Z := foldr (λ key acc, acc + count_of a key s) 0 keys.
Definition cleared_total a : Z := map_fold (λ s keys acc, acc + picked_tasks a s keys) 0 (keysToClearPerSlice a).

Lemma cleared_fold_insert (f : SliceID → list GK → Z) (m : gmap SliceID (list GK)) s keys :
  map_fold (λ s keys acc, acc + f s keys) 0 (<[s := keys]> m) =
  map_fold (λ s keys acc, acc + f s keys) 0 m - from_option (f s) 0 (m !! s) + f s keys.
Proof.
  assert (Hfresh : ∀ m' : gmap SliceID (list GK), m' !! s = None →
    ∀ ks, map_fold (λ s keys acc, acc + f s keys) 0 (<[s := ks]> m') = map_fold (λ s keys acc, acc + f s keys) 0 m' + f s ks).
  { intros m' Hm' ks. rewrite map_fold_insert_L; [done|intros; lia|done]. }
  rewrite <- insert_delete_eq, Hfresh by apply lookup_delete_eq.
  destruct (m !! s) as [ks|] eqn:E; simpl.
  - rewrite <- (insert_id m s ks E) at 2. rewrite <- insert_delete_eq, Hfresh by apply lookup_delete_eq. lia.
  - rewrite delete_id by done. lia.
Qed.

Lemma picked_tasks_app a s ks key : picked_tasks a s (ks ++ [key]) = picked_tasks a s ks + count_of a key s.
Proof. induction ks as [|k ks IH]; simpl; [lia|]. rewrite IH. lia. Qed.

(** One slice fewer for [key], and exactly its tasks. *)
Record cleared_one a key a' (c : Z) : Prop := {
  co_pending : pendingTasksPerKeyPerSlice a' = pendingTasksPerKeyPerSlice a;
  co_other : ∀ k, k ≠ key → tasks_of a' k = tasks_of a k ∧ slices_of a' k = slices_of a k;
  co_sum : tasks_of a' key = sum_counts a' key (slices_of a' key);
  co_total : msum (λ c, c) (tasksPerKey a') = msum (λ c, c) (tasksPerKey a) - c;
  co_cleared : cleared_total a' = cleared_total a + c;
  co_fuel : S (list_slices a') = list_slices a;
}.

Lemma clear_one_spec a key :
  tasks_of a key = sum_counts a key (slices_of a key) → slices_of a key ≠ [] →
  ∃ a' c, clear_one a key = Some (a', c) ∧ cleared_one a key a' c.
Proof.
  intros Hsum Hne. unfold clear_one. fold (slices_of a key). destruct (slices_of a key) as [|[s k0] l] eqn:El; [done|].
  simpl in Hsum. fold (count_of a key s). set (c := count_of a key s). eexists _, c. split; [done|]. split; simpl.
  - done.
  - intros k Hk. unfold tasks_of, slices_of. simpl.
    rewrite map_add_lookup, decide_False, lookup_insert_ne by done. split; [lia|done].
  - unfold tasks_of, slices_of in *. simpl in *. rewrite map_add_lookup, decide_True, lookup_insert_eq by done. simpl.
    rewrite (sum_counts_ext _ a) by done. unfold c. lia.
  - unfold map_add. rewrite msum_insert. destruct (tasksPerKey a !! key); simpl; lia.
  - unfold cleared_total. simpl. rewrite cleared_fold_insert.
    change (picked_tasks (mkActionState _ _ _ _)) with (picked_tasks a).
    rewrite picked_tasks_app. destruct (keysToClearPerSlice a !! s); simpl; lia.
  - unfold list_slices. simpl. rewrite msum_insert. unfold slices_of in El.
    destruct (slicesPerKey a !! key) as [l'|] eqn:Es; simpl in *; [subst l'|done]. simpl.
    assert (0 ≤ msum (λ l, Z.of_nat (length l)) (delete key (slicesPerKey a))) by (apply msum_nonneg; lia).
    rewrite (msum_delete _ _ _ _ Es) in H0. simpl in H0. lia.
Qed.

Lemma is_heap_ext a a' (pq : list GK) :
  (∀ k, k ∈ pq → tasks_of a' k = tasks_of a k) → is_heap (more_tasks a) pq → is_heap (more_tasks a') pq.
Proof.
  intros Heq Hh k Hk Hp x y Hx Hy. unfold more_tasks.
  rewrite !Heq by (by eapply list_elem_of_lookup_2). by apply (Hh k).
Qed.

(** What holds before every turn: the queue holds every key that has tasks left. *)
Record turn_ok a (pq : list GK) : Prop := {
  tn_sum : ∀ key, tasks_of a key = sum_counts a key (slices_of a key);
  tn_nodup : NoDup pq;
  tn_heap : is_heap (more_tasks a) pq;
  tn_slices : ∀ key, key ∈ pq → slices_of a key ≠ [];
  tn_rest : ∀ key, key ∉ pq → tasks_of a key ≤ 0;
}.

Lemma turn_next a pq key pq' a' c :
  turn_ok a pq → pq ≡ₚ key :: pq' → is_heap (more_tasks a) pq' → cleared_one a key a' c →
  ∃ pq'', (if 0 <? tasks_of a' key then Add (more_tasks a') pq' key else Some pq') = Some pq'' ∧ turn_ok a' pq''.
Proof.
  intros [T1 T2 T3 T4 T5] Hp Hh [C1 C2 C3 C4 C5 C6]. rewrite Hp in T2. apply NoDup_cons in T2 as [Hnin Hnd].
  assert (Hne : ∀ k, k ∈ pq' → k ≠ key) by (by intros k Hk ->).
  assert (Hh' : is_heap (more_tasks a') pq').
  { eapply is_heap_ext; [|exact Hh]. intros k Hk. by apply C2, Hne. }
  assert (Hs : ∀ k, tasks_of a' k = sum_counts a' k (slices_of a' k)).
  { intros k. destruct (decide (k = key)) as [-> |Hk]; [done|]. destruct (C2 k Hk) as [-> ->]. rewrite T1.
    apply sum_counts_ext. intros. unfold count_of. by rewrite C1. }
  assert (Hsl : ∀ k, k ∈ pq' → slices_of a' k ≠ []).
  { intros k Hk. destruct (C2 k (Hne k Hk)) as [_ ->]. apply T4. rewrite Hp. by right. }
  assert (Hrest : ∀ k, k ∉ pq' → k ≠ key → tasks_of a' k ≤ 0).
  { intros k Hk Hkk. destruct (C2 k Hkk) as [-> _]. apply T5. rewrite Hp. by apply not_elem_of_cons. }
  destruct (Z.ltb_spec 0 (tasks_of a' key)) as [Hpos|Hneg].
  - destruct (Add_spec (more_tasks a') pq' key Hh') as (pq'' & -> & Hh'' & Hp''). exists pq''. split; [done|]. split.
    + done.
    + rewrite Hp''. by apply NoDup_cons.
    + done.
    + intros k. rewrite Hp''. intros [-> |Hk]%elem_of_cons; [|by apply Hsl].
      intros Hnil. rewrite Hs, Hnil in Hpos. simpl in Hpos. lia.
    + intros k. rewrite Hp''. intros [? ?]%not_elem_of_cons. by apply Hrest.
  - exists pq'. split; [done|]. split; [done|done|done|done|]. intros k Hk.
    destruct (decide (k = key)) as [-> |?]; [lia|by apply Hrest].
Qed.

Lemma find_loop_spec fuel a pq cur target :
  turn_ok a pq → cur = msum (λ c, c) (tasksPerKey a) → (list_slices a < fuel)%nat →
  ∃ a', find_loop fuel a pq cur target = Ok a' ∧ pendingTasksPerKeyPerSlice a' = pendingTasksPerKeyPerSlice a ∧
    msum (λ c, c) (tasksPerKey a') + cleared_total a' = msum (λ c, c) (tasksPerKey a) + cleared_total a ∧
    (msum (λ c, c) (tasksPerKey a') ≤ target ∨ ∀ key, tasks_of a' key ≤ 0).
Proof.
  revert a pq cur. induction fuel as [|fuel IH]; intros a pq cur Ht Hcur Hf; [lia|]. cbn [find_loop].
  destruct (Z.ltb_spec target cur) as [Hlt|Hle]; simpl.
  - pose proof (Remove_spec (more_tasks a) pq (tn_heap _ _ Ht)) as Hrem. unfold PriorityQueue.IsEmpty.
    destruct pq as [|k0 pq0] eqn:Epq; simpl.
    { exists a. do 3 (split; [done|]). right. intros key. apply (tn_rest _ _ Ht), not_elem_of_nil. }
    rewrite <- Epq in *. destruct (Remove (more_tasks a) pq) as [[key pq']|]; [|congruence].
    destruct Hrem as (_ & Hp & Hh & _).
    destruct (clear_one_spec a key) as (a' & c & -> & Hc).
    { apply Ht. }
    { apply (tn_slices _ _ Ht). rewrite Hp. by left. }
    destruct (turn_next a pq key pq' a' c Ht Hp Hh Hc) as (pq'' & -> & Ht').
    destruct (IH a' pq'' (cur - c)) as (a2 & -> & Hpend & Hsum & Henough); [done|rewrite (co_total _ _ _ _ Hc); lia| |].
    { pose proof (co_fuel _ _ _ _ Hc). lia. }
    exists a2. split; [done|]. split; [by rewrite Hpend, (co_pending _ _ _ _ Hc)|]. split; [|done]. rewrite Hsum, (co_total _ _ _ _ Hc), (co_cleared _ _ _ _ Hc). lia.
  - exists a. do 3 (split; [done|]). left. lia.
Qed.

Lemma findSliceToClear_spec a target :
  gathered a →
  ∃ a', findSliceToClear a target = Ok a' ∧ pendingTasksPerKeyPerSlice a' = pendingTasksPerKeyPerSlice a ∧
    msum (λ c, c) (tasksPerKey a') + cleared_total a' = msum (λ c, c) (tasksPerKey a) + cleared_total a ∧
    (msum (λ c, c) (tasksPerKey a') ≤ target ∨ ∀ key, tasks_of a' key ≤ 0).
Proof.
  intros [G1 G2 G3]. unfold findSliceToClear.
  destruct (NewPriorityQueueWithItems_spec (more_tasks a) (map fst (map_to_list (tasksPerKey a)))) as (pq & -> & Hh & Hp).
  apply find_loop_spec; [|done|lia].
  assert (Hin : ∀ key, key ∈ pq ↔ is_Some (tasksPerKey a !! key)).
  { intros key. rewrite Hp. change (map fst (map_to_list (tasksPerKey a))) with ((map_to_list (tasksPerKey a)).*1).
    rewrite list_elem_of_fmap. split.
    - intros ([k c] & -> & Hk%elem_of_map_to_list). by exists c.
    - intros [c Hc]. exists (key, c). split; [done|]. by apply elem_of_map_to_list. }
  split; [done|rewrite Hp; apply NoDup_fst_map_to_list|done| |].
  - intros key Hk%Hin. by apply G3.
  - intros key Hk. unfold tasks_of. destruct (tasksPerKey a !! key) as [c|] eqn:E; [|done].
    exfalso. apply Hk, Hin. by exists c.
Qed.
End picked.

(** ** Safety *)

Section safety.
Context {W E GK : Type} `{Countable GK} {G : Grouper GK} {GL : GrouperLaws GK}.
Context (options : MonitorOptions) (maxPredicateSize EmptyPredicateProtoSize : Z) (load : Z → Z).
Context (store : list Task) (n : nat) (Hstore : store_sorted store).

Abbreviation SliceImpl := (@SliceImpl W E GK _ _).
Abbreviation ReaderGroup := (gmap ReaderID (@ReaderImpl W E GK _ _)).
Abbreviation slice_inv := (slice_inv (W := W) (E := E) (GK := GK) store n).
Abbreviation group_ok := (group_ok (W := W) (E := E) (GK := GK) store n).
Abbreviation regrouped := (regrouped (W := W) (E := E) (GK := GK) store n).
Abbreviation smin s := (InclusiveMin (ScopeRange (scope s))).
Abbreviation smax s := (ExclusiveMax (ScopeRange (scope s))).

(** The statistics of a slice, and the slices of the readers [ids]. *)
Definition stats_of (s : SliceImpl) : gmap GK Z := from_option pendingPerKey ∅ (tracker s).
Definition visited (ids : list ReaderID) (g : ReaderGroup) : list SliceImpl :=
  concat (map (λ rid, from_option slices [] (g !! rid)) ids).
Definition gather_all (ss : list SliceImpl) (a : actionState GK) : actionState GK :=
  foldl (λ a s, gather_slice a (slice_id s) (smin s) (stats_of s)) a ss.

Lemma walk_gather_wp ss a w (Φ : actionState GK → World W → Prop) :
  Forall slice_inv ss → Φ (gather_all ss a) w → wp (walk_loop gather_step ss a) Φ w.
Proof.
  intros Hs. revert a. induction Hs as [|s ss Hs _ IH]; intros a HΦ; cbn [walk_loop]; [by wp_steps|].
  pose proof Hs as [Hl _ _ (tr & Etr & _)].
  unfold gather_step at 1, TaskStats. wp_steps. eapply stateSanityCheck_wp; [done|]. wp_steps. rewrite Etr. wp_steps.
  eapply slice_Scope_wp; [done|]. wp_steps. apply IH. unfold gather_all in *. simpl in HΦ.
  unfold stats_of in HΦ at 2. by rewrite Etr in HΦ.
Qed.

Lemma gather_readers_wp ids g a w (Φ : actionState GK → World W → Prop) :
  group_ok w [] g → Φ (gather_all (visited ids g) a) w → wp (gather_readers ids g a) Φ w.
Proof.
  intros Hg. revert a. induction ids as [|rid ids IH]; intros a HΦ; cbn [gather_readers]; [by wp_steps|].
  unfold visited in HΦ. simpl in HΦ. destruct (g !! rid) as [r|] eqn:Er; simpl in HΦ; [|by apply IH].
  wp_steps. unfold WalkSlices. apply walk_gather_wp; [by eapply (go_readers _ _ _ _ _ Hg rid)|]. apply IH.
  unfold gather_all in *. by rewrite foldl_app in HΦ.
Qed.

Lemma visited_distinct ids (g : ReaderGroup) : NoDup ids → ∃ rest, all_slices g ≡ₚ visited ids g ++ rest.
Proof.
  revert g. induction ids as [|rid ids IH]; intros g Hnd; [by exists (all_slices g)|].
  apply NoDup_cons in Hnd as [Hnin Hnd]. destruct (IH (delete rid g) Hnd) as [rest Hrest].
  assert (Hsame : visited ids (delete rid g) = visited ids g).
  { unfold visited. f_equal. apply map_ext_in. intros x Hx%list_elem_of_In. rewrite lookup_delete_ne; [done|]. by intros ->. }
  rewrite Hsame in Hrest. unfold visited in *. simpl. destruct (g !! rid) as [r|] eqn:Er; simpl.
  - exists rest. rewrite (all_slices_delete g rid r Er), Hrest. by rewrite app_assoc.
  - exists rest. by rewrite delete_id in Hrest.
Qed.

Lemma gather_all_gathered ss a :
  gathered a → NoDup (slice_id <$> ss) → (∀ s, s ∈ ss → pendingTasksPerKeyPerSlice a !! slice_id s = None) →
  gathered (gather_all ss a).
Proof.
  revert a. induction ss as [|s ss IH]; intros a Ha Hnd Hnew; [done|].
  rewrite fmap_cons in Hnd. apply NoDup_cons in Hnd as [Hnin Hnd].
  unfold gather_all. simpl. apply IH; [apply gather_slice_gathered; [done|by apply Hnew; left]|done|].
  intros x Hx. unfold gather_slice.
  destruct (gather_fold (slice_id s) (smin s) (map_to_list (stats_of s))
    (mkActionState (tasksPerKey a) (<[slice_id s := stats_of s]> (pendingTasksPerKeyPerSlice a)) (slicesPerKey a)
       (keysToClearPerSlice a)) (NoDup_fst_map_to_list _)) as (-> & _). simpl.
  rewrite lookup_insert_ne; [apply Hnew; by right|]. intros Heq. apply Hnin. rewrite Heq. by apply list_elem_of_fmap_2.
Qed.

Lemma clear_splitter_ok keysToClear :
  splitter_ok (W := W) (E := E) (GK := GK) store n id (clear_splitter options maxPredicateSize EmptyPredicateProtoSize keysToClear).
Proof.
  intros moved s w Hs Ha. unfold clear_splitter. destruct (keysToClear !! slice_id s) as [keys|].
  - wp_steps. eapply (slice_SplitByPredicate_wp _ _ _ store n); [done|apply Grouper_Predicate_wf|apply stable_Grouper|].
    intros pass fail w1 Hp Hf Ep Ef Hpr St Fp Ff Hne. wp_steps.
    eapply (Clear_wp _ _ _ store n Hstore); [done|]. intros pass' w2 Hp' Eid Emax Emin _ Hpr' St'. wp_steps.
    exists [pass']. split; [done|].
    assert (Hb : smin s ≤k smin pass' ∧ smax pass' ≤k smax s).
    { rewrite Emax, Ep. split; [|apply key_le_refl]. by rewrite <- Ep. }
    split; [apply cut_one; [done|rewrite Ef; apply key_le_refl..]|]. split; [by apply cut_one; [done|apply Hb..]|]. cbn [app].
    assert (Hpr2 : preserves store [s] [fail; pass']).
    { etrans; [exact Hpr|]. etrans; [apply preserves_perm, perm_swap|].
      apply (preserves_app store [fail] [fail] [pass] [pass']); [reflexivity|done]. }
    assert (Ff' : fresh w fail w2) by (destruct Ff, St'; split; lia).
    assert (Fp' : fresh w pass' w2) by (destruct Fp, St'; split; rewrite Eid; lia).
    assert (St2 : step w w2) by (by etrans).
    assert (Hne' : slice_id fail ≠ slice_id pass') by congruence.
    apply chain_two; [done..| | | |]; rewrite ?Ef; first [apply key_le_refl|apply Hb].
  - wp_steps. exists []. rewrite app_nil_r. split; [done|]. split; [by apply cut_self|]. split; [apply cut_nil|].
    by apply chain_refl.
Qed.

(** Pausing a reader changes no slice. *)
Lemma alter_some {A} (f : A → A) (g : gmap ReaderID A) rid r : g !! rid = Some r → alter f rid g = <[rid := f r]> g.
Proof.
  intros Hr. apply map_eq. intros k. destruct (decide (rid = k)) as [<-|?].
  - by rewrite lookup_alter_eq, lookup_insert_eq, Hr.
  - by rewrite lookup_alter_ne, lookup_insert_ne.
Qed.

Lemma regrouped_slices w g g' :
  readers_ok store n w g' → all_slices g' ≡ₚ all_slices g → group_ok w [] g → regrouped w w g g'.
Proof.
  intros Hr Hp Hg.
  assert (Hc : chain (W := W) (E := E) (GK := GK) store w w (all_slices g) (all_slices g')).
  { eapply chain_perm; [reflexivity|symmetry; exact Hp|]. apply chain_refl, Hg. }
  split; [|done]. split; [done|]. eapply alloc_ok_perm; [symmetry; exact Hp|apply Hg].
Qed.

Lemma regrouped_pause w g rid : group_ok w [] g → regrouped w w g (alter Pause rid g).
Proof.
  intros Hg. apply regrouped_slices; [| |done].
  - intros rid' r'. rewrite lookup_alter_Some. intros [(-> & r & Hr & ->)|[_ Hr]]; [|by eapply Hg].
    destruct (go_readers _ _ _ _ _ Hg rid' r Hr) as [H1 H2]. by split.
  - destruct (g !! rid) as [r|] eqn:Er.
    + rewrite (alter_some Pause g rid r Er). by rewrite all_slices_insert, (all_slices_delete g rid r Er).
    + replace (alter Pause rid g) with g; [done|]. apply map_eq. intros k.
      destruct (decide (rid = k)) as [<-|?]; [by rewrite lookup_alter_eq, Er|by rewrite lookup_alter_ne].
Qed.

Lemma split_and_clear_wp mx keys rid r g w (Φ : ReaderGroup → World W → Prop) :
  group_ok w [] g → g !! rid = Some r → (∀ g' w', regrouped w w' g g' → Φ g' w') →
  wp (split_and_clear options maxPredicateSize EmptyPredicateProtoSize mx keys rid r g) Φ w.
Proof.
  intros Hg Er HΦ. unfold split_and_clear. destruct (_ =? _).
  - wp_steps. eapply (ClearSlices_wp _ _ _ _ _ Hstore); [by eapply Hg|]. intros r' w1 Hs _. wp_steps.
    destruct (reader_step_group _ _ w w1 g rid r r' [] Hg Er Hs) as [Hg1 Hc1]. apply HΦ.
    destruct (existsb _ _); [|by split].
    eapply regrouped_trans; [by split|]. replace (<[rid := Pause r']> g) with (alter Pause rid (<[rid := r']> g)).
    { by apply regrouped_pause. }
    rewrite (alter_some Pause _ rid r') by apply lookup_insert_eq. apply insert_insert_eq.
  - wp_steps. eapply (split_and_move_wp _ _ _ _ _ Hstore g rid r); [done|done|apply clear_splitter_ok|].
    intros r' moved w1 Hg1 Hc1 Hmove Hnil. wp_steps. destruct moved as [|x moved]; wp_steps; [apply HΦ; auto|].
    apply Hmove. intros g' w' Hr'. wp_steps. apply HΦ. eapply regrouped_trans; [exact Hr'|]. apply regrouped_pause, Hr'.
Qed.

Lemma splitAndClearSlice_wp mx keys ids g w (Φ : ReaderGroup → World W → Prop) :
  group_ok w [] g → (∀ g' w', regrouped w w' g g' → Φ g' w') →
  wp (splitAndClearSlice options maxPredicateSize EmptyPredicateProtoSize mx keys ids g) Φ w.
Proof.
  revert g w. induction ids as [|rid ids IH]; intros g w Hg HΦ; cbn [splitAndClearSlice].
  { wp_steps. by apply HΦ, regrouped_refl. }
  destruct (g !! rid) as [r|] eqn:Er; [|by apply IH]. wp_steps.
  apply split_and_clear_wp; [done|done|]. intros g1 w1 Hr1. apply IH; [apply Hr1|].
  intros g' w' Hr'. apply HΦ. by eapply regrouped_trans.
Qed.

(** What all the slices have pending. *)
Definition pending_total (ss : list SliceImpl) : Z := foldr (λ s acc, acc + msum (λ c, c) (stats_of s)) 0 ss.

Lemma gather_slice_total (a : actionState GK) s k0 (m : gmap GK Z) :
  msum (λ c, c) (tasksPerKey (gather_slice a s k0 m)) = msum (λ c, c) (tasksPerKey a) + msum (λ c, c) m.
Proof.
  unfold gather_slice. rewrite (msum_to_list _ m). induction (map_to_list m) as [|[k c] l IH]; simpl; [lia|].
  unfold map_add at 1. rewrite msum_insert, IH. destruct (tasksPerKey _ !! k); simpl; lia.
Qed.

Lemma gather_all_total ss (a : actionState GK) :
  msum (λ c, c) (tasksPerKey (gather_all ss a)) = msum (λ c, c) (tasksPerKey a) + pending_total ss.
Proof.
  revert a. induction ss as [|s ss IH]; intros a; [simpl; lia|]. unfold gather_all in *. simpl.
  rewrite IH, gather_slice_total. lia.
Qed.

Lemma gather_all_clears ss (a : actionState GK) : keysToClearPerSlice (gather_all ss a) = keysToClearPerSlice a.
Proof.
  revert a. induction ss as [|s ss IH]; intros a; [done|]. unfold gather_all in *. simpl. rewrite IH.
  unfold gather_slice. by induction (map_to_list _) as [|kc l IHl].
Qed.

Lemma gatherStatistics_wp ids g w (Φ : actionState GK → World W → Prop) :
  group_ok w [] g → NoDup ids →
  (∀ a, gathered a → msum (λ c, c) (tasksPerKey a) = pending_total (visited ids g) → cleared_total a = 0 → Φ a w) →
  wp (gatherStatistics ids g action_init) Φ w.
Proof.
  intros Hg Hids HΦ. unfold gatherStatistics. wp_steps. apply gather_readers_wp; [done|]. wp_steps.
  apply HΦ; [|by apply gather_all_total|unfold cleared_total; simpl; by rewrite gather_all_clears].
  apply sort_slices_gathered, gather_all_gathered; [apply gathered_init| |intros; apply lookup_empty].
  destruct (visited_distinct ids g Hids) as [rest Hrest].
  destruct (go_alloc _ _ _ _ _ Hg) as [Hnd _]. cbn [app] in Hnd. rewrite Hrest, fmap_app in Hnd.
  by apply NoDup_app in Hnd as (? & _ & _).
Qed.

Lemma actionQueuePendingTask_wp critical mx g w (Φ : ReaderGroup * bool → World W → Prop) :
  group_ok w [] g → (∀ g' b w', regrouped w w' g g' → Φ (g', b) w') →
  wp (actionQueuePendingTask_Run options maxPredicateSize EmptyPredicateProtoSize load critical mx g) Φ w.
Proof.
  intros Hg HΦ. unfold actionQueuePendingTask_Run. wp_steps.
  destruct (_ <=? _); [wp_steps; by apply HΦ, regrouped_refl|]. wp_steps.
  eapply (shrink_readers_wp _ _ _ _ _ Hstore); [done|]. intros g1 c1 w1 Hr1. wp_steps.
  destruct (_ <=? _); [wp_steps; by apply HΦ|]. wp_steps.
  apply gatherStatistics_wp; [apply Hr1|apply NoDup_fst_map_to_list|]. intros a Ha _ _. wp_steps.
  destruct (findSliceToClear_spec a (load critical) Ha) as (a' & -> & _). cbn [run_outcome]. wp_steps.
  apply splitAndClearSlice_wp; [apply Hr1|]. intros g2 w2 Hr2. wp_steps. apply HΦ. by eapply regrouped_trans.
Qed.

(** On a reader group that satisfies its invariant the pending-task action returns, without a panic (no key of the
    priority queue is without a slice) and without running out of turns, whatever the target load, the critical count
    and the number of readers: it leaves a group that satisfies the invariant and loses no task, so that every task a
    slice owed is owed by a slice of some reader afterwards, or had been acked. *)
Theorem actionQueuePendingTask_safe critical mx g w :
  group_ok w [] g →
  ∃ g' b w',
    actionQueuePendingTask_Run options maxPredicateSize EmptyPredicateProtoSize load critical mx g w = Ok ((g', b), w') ∧
    group_ok w' [] g' ∧
    ∀ t, t ∈ store → owed (all_slices g) t →
      owed (all_slices g') t ∨ ∃ s, s ∈ all_slices g ∧ acked s t.
Proof.
  intros Hg. wp_returns. apply actionQueuePendingTask_wp; [done|].
  intros g' b w' [Hg' [[Hp _] _ _ _]] EQ. by exists g', b, w'.
Qed.

Lemma visited_all (g : ReaderGroup) : visited (map fst (map_to_list g)) g = all_slices g.
Proof.
  unfold visited, all_slices. f_equal. rewrite map_map. apply map_ext_in. intros [rid r] Hin%list_elem_of_In.
  apply elem_of_map_to_list in Hin. simpl. by rewrite Hin.
Qed.

Lemma nothing_left (a : actionState GK) : (∀ key, tasks_of a key ≤ 0) → msum (λ c, c) (tasksPerKey a) ≤ 0.
Proof.
  intros Ht. assert (Hm : ∀ m : gmap GK Z, (∀ k c, m !! k = Some c → c ≤ 0) → msum (λ c, c) m ≤ 0).
  { intros m. induction m as [|k c m Hk IH] using map_ind; intros Hc; [done|]. rewrite msum_fresh by done.
    pose proof (Hc k c (lookup_insert_eq _ _ _)). assert (msum (λ c, c) m ≤ 0); [|lia].
    apply IH. intros k' c' Hk'. apply (Hc k'). rewrite lookup_insert_ne; [done|congruence]. }
  apply Hm. intros k c Hk. specialize (Ht k). unfold tasks_of in Ht. by rewrite Hk in Ht.
Qed.

(** The statistics and the choice of what to clear, on a reader group that satisfies its invariant: gathering
    counts exactly what the trackers of all the slices have pending, and [findSliceToClear] then ends, and picks
    enough: the tasks of the keys picked for each slice account for everything except what is left, which is at most
    the target (or nothing, for a negative target), by the same per-slice counts. *)
Theorem findSliceToClear_enough g w target :
  group_ok w [] g →
  ∃ a a', gatherStatistics (map fst (map_to_list g)) g action_init w = Ok (a, w) ∧
    findSliceToClear a target = Ok a' ∧
    pendingTasksPerKeyPerSlice a' = pendingTasksPerKeyPerSlice a ∧
    msum (λ c, c) (tasksPerKey a') = pending_total (all_slices g) - cleared_total a' ∧
    msum (λ c, c) (tasksPerKey a') ≤ Z.max target 0.
Proof.
  intros Hg. apply (wp_elim (gatherStatistics (map fst (map_to_list g)) g action_init) w).
  pose proof (NoDup_fst_map_to_list g) as Hids.
  eapply gatherStatistics_wp; [done|done|]. intros a Ha Htot Hclr EQ.
  destruct (findSliceToClear_spec a target Ha) as (a' & Hrun & Hpend & Hsum & Hleft).
  exists a, a'. do 3 (split; [done|]). rewrite visited_all in Htot. split; [lia|].
  destruct Hleft as [?|?%nothing_left]; lia.
Qed.
End safety.

(** ** Witnesses: a slice whose three tasks, of two namespaces, have been loaded *)

Definition loading_run : outcome stuck ((@ReaderImpl nat string string _ _ * list (Executable * route)) * World nat) :=
  loadAndSubmitTasks sample_provider sample_options 1 9
    (sample_reader [sample_slice 1 1 9 ["n1"; "n2"]]) 5 10 (sample_world 0).
Definition loaded_group : gmap ReaderID (@ReaderImpl nat string string _ _) :=
  match loading_run with Ok ((r, _), _) => {[ DefaultReaderId := r ]} | _ => ∅ end.
Definition loaded_world : World nat := match loading_run with Ok (_, w) => w | _ => sample_world 0 end.

Lemma loaded_group_ok : group_ok sample_store 0 loaded_world [] loaded_group.
Proof.
  assert (Hs : slices_ok sample_store 0 (sample_world 0) [sample_slice 1 1 9 ["n1"; "n2"]]).
  { split; [apply Forall_singleton, sample_slice_inv; (lia || (int_bounds; lia))|repeat constructor|].
    split; [by_decide|]. intros s ->%list_elem_of_singleton. by_decide. }
  unfold loaded_group, loaded_world, loading_run.
  apply (wp_elim (loadAndSubmitTasks sample_provider sample_options 1 9
    (sample_reader [sample_slice 1 1 9 ["n1"; "n2"]]) 5 10) (sample_world 0)).
  eapply (loadAndSubmitTasks_wp sample_provider sample_options sample_store 0 sample_store_sorted 1
    sample_provider_ok (le_n 1)); [by apply sample_reader_inv|lia| |].
  - intros s [->%list_elem_of_singleton|Hs']; [vm_compute; lia|done].
  - intros r subs w Hl EQ. rewrite EQ. split.
    + intros rid r' [_ <-]%lookup_singleton_Some. apply Hl.
    + unfold all_slices. rewrite map_to_list_singleton. simpl. rewrite app_nil_r. apply Hl.
Qed.

Lemma actionQueuePendingTask_safe_witness :
  match actionQueuePendingTask_Run sample_options 0 2 sample_load 2 2 loaded_group loaded_world with
  | Ok ((g', b), w') =>
      b = true ∧ totalPendingTaskCount (monitor w') = 1 ∧
      (map (λ s, map fst (map_to_list (pending s))) ∘ slices) <$> g' !! 0 = Some [[mkKey 0 4]] ∧
      (map (todo sample_store) ∘ slices) <$> g' !! 1 = Some [[sample_task 2 "n1"; sample_task 7 "n1"]]
  | _ => False
  end ∧
  ∃ g' b w', actionQueuePendingTask_Run sample_options 0 2 sample_load 2 2 loaded_group loaded_world = Ok ((g', b), w') ∧
    group_ok sample_store 0 w' [] g' ∧
    ∀ t, t ∈ sample_store → owed (all_slices loaded_group) t →
      owed (all_slices g') t ∨ ∃ s, s ∈ all_slices loaded_group ∧ acked s t.
Proof.
  split; [vm_compute; repeat split; reflexivity|].
  exact (actionQueuePendingTask_safe sample_options 0 2 sample_load sample_store 0 sample_store_sorted 2 2
           loaded_group loaded_world loaded_group_ok).
Defined.

Lemma findSliceToClear_enough_witness :
  pending_total (all_slices loaded_group) = 3 ∧
  ∃ a a', gatherStatistics (map fst (map_to_list loaded_group)) loaded_group action_init loaded_world = Ok (a, loaded_world) ∧
    findSliceToClear a 1 = Ok a' ∧
    pendingTasksPerKeyPerSlice a' = pendingTasksPerKeyPerSlice a ∧
    msum (λ c, c) (tasksPerKey a') = pending_total (all_slices loaded_group) - cleared_total a' ∧
    msum (λ c, c) (tasksPerKey a') ≤ Z.max 1 0.
Proof.
  split; [vm_compute; reflexivity|].
  exact (findSliceToClear_enough sample_store 0 loaded_group loaded_world 1 loaded_group_ok).
Defined.
