(* ===== verification/Mitigator.v ===== *)
(** * Alerts handled: [service/history/queues/mitigator.go] and [queueBase.handleAlert]

    The monitor's alerts reach the queue's event loop one at a time; the
    mitigator runs the action for the kind of alert, and the queue takes a checkpoint
    and wakes its readers. *)
From S2P Require Import Prelude TaskKey TaskRange Predicates TaskPredicates TaskScope Monitor PagingIterator.
From S2P Require Import TaskIterator Tracker Convert QueueWorld Slice SliceIterators SliceSpec SliceLoad.
From S2P Require Import SliceProps Reader ReaderSpec ReaderProps Queue QueueSpec ActionSliceCount ActionPendingTask.
Local Open Scope Z_scope.
Local Open Scope queue_scope.
Local Open Scope key_scope.

Section mitigator.
Context {W E GK : Type} `{Countable GK} {G : Grouper GK} {TS : Timestamppb}.
Context (options : MonitorOptions) (maxPredicateSize EmptyPredicateProtoSize : Z).
Context (load : Z → Z).

Abbreviation ReaderImpl := (@ReaderImpl W E GK _ _).
Abbreviation ReaderGroup := (gmap ReaderID ReaderImpl).
Abbreviation queueBase := (@queueBase W E GK _ _).
Abbreviation Q := (Q W).

(** Also whether the action is counted in the metrics: when it returned false. *)
Definition runAction (action : ReaderGroup → Q (ReaderGroup * bool)) (g : ReaderGroup) : Q (ReaderGroup * bool) :=
  let* (g, run) := action g in
  qret (g, negb run).

(** The action for an alert.  An [Alert] has the attributes of its own type, so
    the branch for an unknown type does not arise. *)
Definition alert_action (maxReaderCount : Z) (alert : Alert) : ReaderGroup → Q (ReaderGroup * bool) :=
  match alert with
  | AlertAttributesQueuePendingTaskCount _ critical =>
      actionQueuePendingTask_Run options maxPredicateSize EmptyPredicateProtoSize load critical maxReaderCount
  | AlertAttributesReaderStuck readerID watermark =>
      actionReaderStuck_Run options maxPredicateSize EmptyPredicateProtoSize readerID watermark
  | AlertAttributesSlicesCount _ critical =>
      actionSliceCount_Run options maxPredicateSize EmptyPredicateProtoSize load critical
  end.

Definition Mitigate (maxReaderCount : Z) (alert : Alert) (g : ReaderGroup) : Q (ReaderGroup * bool) :=
  let* (g, counted) := runAction (alert_action maxReaderCount alert) g in
  do* with_monitor (λ _ m, ResolveAlert m (alert_type alert)) in
  qret (g, counted).

Definition set_group (p : queueBase) (g : ReaderGroup) : queueBase :=
  mkQueue (queue_category p) (lastRangeID p) (exclusiveDeletionHighWatermark p) (nonReadableScope p) g
    (nextForceNewSliceTime p).

Definition notifyReaders (p : queueBase) : queueBase := set_group p (Notify <$> readerGroup p).

(** [None] is the nil received from the closed channel of alerts. *)
Definition handleAlert (maxReaderCount : Z) (action : ReaderGroup → Q (ReaderGroup * bool)) (p : queueBase)
    (alert : option Alert) (sh : shard_answers) : Q (queueBase * checkpoint_effects) :=
  match alert with
  | None => qret (p, mkEffects None None)
  | Some alert =>
      let* (g, _) := Mitigate maxReaderCount alert (readerGroup p) in
      let* (p, eff) := checkpoint options maxPredicateSize EmptyPredicateProtoSize action (set_group p g) sh in
      qret (notifyReaders p, eff)
  end.
End mitigator.

Section safety.
Context {W E GK : Type} `{Countable GK} {G : Grouper GK} {GL : GrouperLaws GK}.
Context (options : MonitorOptions) (maxPredicateSize EmptyPredicateProtoSize : Z) (load : Z → Z).
Context (store : list Task) (n : nat) (Hstore : store_sorted store).

Abbreviation ReaderGroup := (gmap ReaderID (@ReaderImpl W E GK _ _)).
Abbreviation group_ok := (group_ok (W := W) (E := E) (GK := GK) store n).
Abbreviation regrouped := (regrouped (W := W) (E := E) (GK := GK) store n).
Abbreviation Mitigate := (Mitigate (W := W) (E := E) (GK := GK) options maxPredicateSize EmptyPredicateProtoSize load).

(** What the monitor puts in an alert: a reader's watermark is the key of a task. *)
Definition alert_ok (alert : Alert) : Prop :=
  match alert with
  | AlertAttributesQueuePendingTaskCount _ _ => True
  | AlertAttributesReaderStuck _ k =>
      valid_key k ∧ valid_key (mkKey (FireTime k + monitorWatermarkPrecision) (TaskID k))
  | AlertAttributesSlicesCount _ critical => load critical ≤ critical
  end.
Definition is_slice_alert (alert : Alert) : Prop := alert_type alert = AlertTypeSliceCount.

Lemma alert_action_wlp mx alert g w (Φ : ReaderGroup * bool → World W → Prop) :
  alert_ok alert → group_ok w [] g → (∀ g' b w', regrouped w w' g g' → Φ (g', b) w') →
  wlp (alert_action options maxPredicateSize EmptyPredicateProtoSize load mx alert g) Φ (is_slice_alert alert) w.
Proof.
  intros Ha Hg HΦ. destruct alert as [cur critical|rid k|cur critical]; cbn [alert_action].
  - apply wlp_wp, (actionQueuePendingTask_wp _ _ _ _ store n Hstore); [done|done].
  - destruct Ha as [V1 V2]. by apply wlp_wp, (actionReaderStuck_wp _ _ _ store n Hstore).
  - by apply (actionSliceCount_wlp _ _ _ _ store n Hstore).
Qed.

(** The monitor has the statistics of the group only, not the group. *)
Lemma regrouped_monitor w w' m g g' :
  regrouped w w' g g' → regrouped w (mkWorld (nextSliceID w') m (now w') (persistence w')) g g'.
Proof.
  intros [[Hr Ha] [C1 C2 C3 C4]]. assert (St : step w' (mkWorld (nextSliceID w') m (now w') (persistence w'))) by done.
  split; [split; [by eapply readers_ok_step|exact Ha]|]. split; [done|by etrans|done|done].
Qed.

Lemma Mitigate_wlp mx alert g w (Φ : ReaderGroup * bool → World W → Prop) :
  alert_ok alert → group_ok w [] g →
  (∀ g' b w', regrouped w w' g g' → alert_type alert ∉ pendingAlerts (monitor w') → Φ (g', b) w') →
  wlp (Mitigate mx alert g) Φ (is_slice_alert alert) w.
Proof.
  intros Ha Hg HΦ. unfold Mitigator.Mitigate, runAction. apply wlp_bind, wlp_bind, alert_action_wlp; [done..|].
  intros g' b w' Hr. apply wlp_wp. wp_steps. apply HΦ; [by apply regrouped_monitor|]. simpl. set_solver.
Qed.

(** Waking the readers changes no slice. *)
Lemma regrouped_notify w g : group_ok w [] g → regrouped w w g (Notify <$> g).
Proof.
  intros Hg. apply regrouped_slices; [| |done].
  - intros rid r. rewrite lookup_fmap. destruct (g !! rid) as [r0|] eqn:Er; simpl; [|done]. intros [= <-].
    destruct (go_readers _ _ _ _ _ Hg rid r0 Er) as [H1 H2]. by split.
  - unfold all_slices. rewrite map_to_list_fmap. apply reflexive_eq.
    induction (map_to_list g) as [|[rid r] l IH]; [done|]. rewrite fmap_cons. cbn [map concat]. by rewrite IH.
Qed.

(** Handling an alert: whatever the alert, a mitigation that returns leaves a reader group that satisfies its
    invariant, loses no task, and the alert is no longer pending, so that the monitor can raise it again; only the
    slice-count action can panic. *)
Theorem Mitigate_safe mx alert g w :
  alert_ok alert → group_ok w [] g →
  match Mitigate mx alert g w with
  | Ok ((g', _), w') =>
      group_ok w' [] g' ∧ alert_type alert ∉ pendingAlerts (monitor w') ∧
      ∀ t, t ∈ store → owed (all_slices g) t →
        owed (all_slices g') t ∨ ∃ s, s ∈ all_slices g ∧ acked s t
  | Panic => alert_type alert = AlertTypeSliceCount
  | Err _ => False
  end.
Proof.
  intros Ha Hg.
  pose proof (Mitigate_wlp mx alert g w (λ gb w', group_ok w' [] gb.1 ∧ alert_type alert ∉ pendingAlerts (monitor w') ∧
    ∀ t, t ∈ store → owed (all_slices g) t → owed (all_slices gb.1) t ∨ ∃ s, s ∈ all_slices g ∧ acked s t) Ha Hg) as Hrun.
  unfold wlp in Hrun. destruct (Mitigate mx alert g w) as [[[g' b] w']| |]; apply Hrun;
    intros g1 b1 w1 [Hg1 [[Hp _] _ _ _]] Hpend; by split_and!.
Qed.
End safety.

(** ** Witness: three tasks are pending where two are critical *)

Lemma Mitigate_safe_witness :
  let alert := AlertAttributesQueuePendingTaskCount 3 2 in
  match Mitigate sample_options 0 2 sample_load 2 alert loaded_group loaded_world with
  | Ok ((g', _), w') => totalPendingTaskCount (monitor w') = 1 ∧ size g' = 2%nat
  | _ => False
  end ∧
  match Mitigate sample_options 0 2 sample_load 2 alert loaded_group loaded_world with
  | Ok ((g', _), w') =>
      group_ok sample_store 0 w' [] g' ∧ alert_type alert ∉ pendingAlerts (monitor w') ∧
      ∀ t, t ∈ sample_store → owed (all_slices loaded_group) t →
        owed (all_slices g') t ∨ ∃ s, s ∈ all_slices loaded_group ∧ acked s t
  | Panic => alert_type alert = AlertTypeSliceCount
  | Err _ => False
  end.
Proof.
  split; [vm_compute; split; reflexivity|].
  exact (Mitigate_safe sample_options 0 2 sample_load sample_store 0 sample_store_sorted 2
           (AlertAttributesQueuePendingTaskCount 3 2) loaded_group loaded_world I loaded_group_ok).
Defined.
