(* ===== verification/QueueReload.v ===== *)
(** * Loading a queue from its persisted state

    What [newQueueBase] makes of the scopes it reads back: one slice per scope
    that owes every task of the scope, in readers that satisfy their invariant. *)
From S2P Require Import Prelude TaskKey TaskRange Predicates TaskPredicates TaskScope Monitor PagingIterator.
From S2P Require Import TaskIterator Tracker Convert QueueWorld Slice SliceIterators SliceSpec SliceLoad.
From S2P Require Import SliceProps Reader ReaderSpec ReaderProps Queue QueueSpec.
Local Open Scope Z_scope.
Local Open Scope queue_scope.
Local Open Scope key_scope.

(** The scopes of one reader: well-formed, in key order and without overlap. *)
Definition scopes_ok (scs : list Scope) : Prop :=
  Forall scope_ok scs ∧
  StronglySorted (λ a b, ExclusiveMax (ScopeRange a) ≤k InclusiveMin (ScopeRange b)) scs.

Section reload.
Context {W E GK : Type} `{Countable GK} {G : Grouper GK} {GL : GrouperLaws GK}.
Context (options : MonitorOptions) (maxPredicateSize EmptyPredicateProtoSize : Z).
Context (store : list Task) (n : nat).

Abbreviation SliceImpl := (@SliceImpl W E GK _ _).
Abbreviation ReaderImpl := (@ReaderImpl W E GK _ _).
Abbreviation ReaderGroup := (gmap ReaderID ReaderImpl).
Abbreviation slice_inv := (slice_inv (W := W) (E := E) (GK := GK) store n).
Abbreviation group_ok := (group_ok (W := W) (E := E) (GK := GK) store n).
Abbreviation smin s := (InclusiveMin (ScopeRange (scope s))).
Abbreviation smax s := (ExclusiveMax (ScopeRange (scope s))).
Implicit Types (s : SliceImpl) (ss : list SliceImpl) (g : ReaderGroup).

(** The slices made of the scopes [scs]. *)
Record made (w w' : World W) scs ss : Prop := {
  made_inv : Forall slice_inv ss;
  made_ranges : map (λ s, ScopeRange (scope s)) ss = map ScopeRange scs;
  made_empty : ∀ s, s ∈ ss → pending s = ∅;
  made_owes : ∀ sc t, sc ∈ scs → Contains sc t = true → owed ss t;
  made_step : step w w';
  made_fresh : ∀ s, s ∈ ss → fresh w s w';
  made_distinct : NoDup (slice_id <$> ss);
}.

Lemma made_nil w : made w w [] [].
Proof.
  split; [constructor|done| | |done| |constructor].
  - intros s Hs. by apply not_elem_of_nil in Hs.
  - intros sc t Hs. by apply not_elem_of_nil in Hs.
  - intros s Hs. by apply not_elem_of_nil in Hs.
Qed.

Lemma made_cons w w1 w2 sc scs s ss :
  slice_inv s → ScopeRange (scope s) = ScopeRange sc → pending s = ∅ → step w w1 → fresh w s w1 →
  (∀ t, Contains sc t = true → owes s t) → made w1 w2 scs ss → made w w2 (sc :: scs) (s :: ss).
Proof.
  intros Hi Hr Hp Hst Hf Ho [M1 M2 M3 M4 M5 M6 M7]. split.
  - by apply Forall_cons.
  - simpl. by rewrite Hr, M2.
  - intros x [-> |Hx]%elem_of_cons; auto.
  - intros x t [-> |Hx]%elem_of_cons Hc; [exists s; split; [left|auto]|].
    destruct (M4 x t Hx Hc) as (y & Hy & Hyo). exists y. split; [by right|done].
  - by etrans.
  - intros x [-> |Hx]%elem_of_cons.
    + by apply (fresh_mono w w w1 w2).
    + by apply (fresh_mono w w1 w2 w2); [done|apply M6|].
  - cbn. apply NoDup_cons. split; [|done]. intros (x & Hid & Hx)%list_elem_of_fmap.
    destruct Hf as [_ Hlt]. destruct (M6 x Hx) as [Hge _]. lia.
Qed.

Lemma new_slices_wp scs w (Φ : list SliceImpl → World W → Prop) :
  Forall scope_ok scs → (∀ ss w', made w w' scs ss → Φ ss w') →
  wp (new_slices maxPredicateSize EmptyPredicateProtoSize scs) Φ w.
Proof.
  revert w Φ. induction scs as [|sc scs IH]; intros w Φ Hok HΦ; cbn [new_slices].
  { wp_steps. apply HΦ, made_nil. }
  apply Forall_cons in Hok as [Hsc Hok]. wp_steps. apply (NewSlice_wp _ _ store n); [done|].
  intros s w1 H1 H2 H3 H4 H5 H6. wp_steps. apply IH; [done|]. intros ss w2 Hm. wp_steps.
  apply HΦ. by eapply made_cons.
Qed.

Lemma made_elem w w' scs ss s : made w w' scs ss → s ∈ ss → ∃ sc, sc ∈ scs ∧ ScopeRange (scope s) = ScopeRange sc.
Proof.
  intros Hm Hs. assert (Hin : ScopeRange (scope s) ∈ map ScopeRange scs).
  { rewrite <- (made_ranges _ _ _ _ Hm). by apply list_elem_of_In, (in_map (λ s, ScopeRange (scope s))), list_elem_of_In. }
  apply list_elem_of_In, in_map_iff in Hin as (sc & Heq & Hsc). exists sc. split; [by apply list_elem_of_In|done].
Qed.

Lemma sorted_ranges {A B} (f : A → Range) (h : B → Range) (l : list A) (l' : list B) :
  map f l = map h l' → StronglySorted (λ a b, ExclusiveMax (h a) ≤k InclusiveMin (h b)) l' →
  StronglySorted (λ a b, ExclusiveMax (f a) ≤k InclusiveMin (f b)) l.
Proof.
  revert l'. induction l as [|a l IH]; intros [|b l'] Hm Hs; try done; [constructor|].
  injection Hm as Hab Hm. apply StronglySorted_inv in Hs as [Hs Hf]. constructor; [by eapply IH|].
  rewrite Forall_forall in Hf. apply Forall_forall. intros x Hx%list_elem_of_In%(in_map f). rewrite Hm in Hx.
  apply in_map_iff in Hx as (y & Hy & Hin). rewrite Hab, <- Hy. by apply Hf, list_elem_of_In.
Qed.

Lemma made_slices_ok w w' scs ss : made w w' scs ss → scopes_ok scs → slices_ok store n w' ss.
Proof.
  intros Hm [_ Hs]. split; [apply Hm|by eapply sorted_ranges; [apply Hm|]|].
  split; [apply Hm|]. intros s Hin. by apply (made_fresh _ _ _ _ Hm).
Qed.

(** The readers made of the entries [l] join those of [g]; [k] is the lowest of
    [k0] and of the keys where the new readers start. *)
Record rebuilt (l : list (ReaderID * list Scope)) g k0 g' k : Prop := {
  rb_low : k ≤k k0;
  rb_new : ∀ s, s ∈ all_slices g' → s ∈ all_slices g ∨
    (k ≤k smin s ∧ pending s = ∅ ∧ ∃ rid scs sc, (rid, scs) ∈ l ∧ sc ∈ scs ∧ ScopeRange (scope s) = ScopeRange sc);
  rb_old : ∀ s, s ∈ all_slices g → s ∈ all_slices g';
  rb_owes : ∀ rid scs sc t, (rid, scs) ∈ l → sc ∈ scs → Contains sc t = true → owed (all_slices g') t;
}.

Lemma scopes_ok_low first scs sc :
  scopes_ok (first :: scs) → sc ∈ first :: scs → InclusiveMin (ScopeRange first) ≤k InclusiveMin (ScopeRange sc).
Proof.
  intros [Hok Hs] [-> |Hsc]%elem_of_cons; [apply key_le_refl|].
  apply StronglySorted_inv in Hs as [_ Hf]. rewrite Forall_forall in Hf.
  apply Forall_cons in Hok as [Hfirst _]. destruct (scope_ok_wf _ Hfirst) as [Hwf _].
  eapply key_le_trans; [exact Hwf|]. by apply Hf.
Qed.

Lemma rebuilt_cons rid first scs l g r g' k0 k w w' :
  scopes_ok (first :: scs) → made w w' (first :: scs) (slices r) → g !! rid = None →
  rebuilt l (<[rid := r]> g) (MinKey k0 (InclusiveMin (ScopeRange first))) g' k →
  rebuilt ((rid, first :: scs) :: l) g k0 g' k.
Proof.
  intros Hok Hm Hn [R1 R2 R3 R4].
  assert (Hmin : MinKey k0 (InclusiveMin (ScopeRange first)) ≤k k0 ∧
    MinKey k0 (InclusiveMin (ScopeRange first)) ≤k InclusiveMin (ScopeRange first)) by (split; clear; key_solve).
  destruct Hmin as [M1 M2]. assert (Hp := all_slices_insert_fresh g rid r Hn). split.
  - by eapply key_le_trans.
  - intros s Hs. destruct (R2 s Hs) as [Ho|(L1 & L2 & rid' & scs' & sc & L3 & L4)].
    + rewrite Hp in Ho. apply elem_of_app in Ho as [Ho|]; [right|by left].
      destruct (made_elem _ _ _ _ _ Hm Ho) as (sc & Hsc & Hr). split; [|split].
      * rewrite Hr. eapply key_le_trans; [exact R1|]. eapply key_le_trans; [exact M2|]. by eapply scopes_ok_low.
      * by apply (made_empty _ _ _ _ Hm).
      * exists rid, (first :: scs), sc. split; [left|done].
    + right. split; [done|]. split; [done|]. exists rid', scs', sc. split; [by right|done].
  - intros s Hs. apply R3. rewrite Hp. apply elem_of_app. by right.
  - intros rid' scs' sc t [[= -> ->]|Hin]%elem_of_cons Hsc Hc; [|by eapply R4].
    destruct (made_owes _ _ _ _ Hm sc t Hsc Hc) as (s & Hs & Ho). exists s. split; [|done].
    apply R3. rewrite Hp. apply elem_of_app. by left.
Qed.

Lemma new_readers_wp l g k0 w (Φ : ReaderGroup * Key → World W → Prop) :
  group_ok w [] g → NoDup l.*1 → (∀ rid, rid ∈ l.*1 → g !! rid = None) → (∀ rid scs, (rid, scs) ∈ l → scopes_ok scs) →
  (∀ g' k w', group_ok w' [] g' → rebuilt l g k0 g' k → Φ (g', k) w') →
  wp (new_readers options maxPredicateSize EmptyPredicateProtoSize l g k0) Φ w.
Proof.
  revert g k0 w. induction l as [|[rid scs] l IH]; intros g k0 w Hg Hnd Hnone Hok HΦ; cbn [new_readers].
  { wp_steps. apply HΦ; [done|]. split; [apply key_le_refl|by left|done|]. intros ? ? ? ? Hin. by apply not_elem_of_nil in Hin. }
  apply NoDup_cons in Hnd as [Hnin Hnd].
  assert (Hscs : scopes_ok scs) by (apply (Hok rid); left).
  assert (Hok' : ∀ rid' scs', (rid', scs') ∈ l → scopes_ok scs') by (intros ? ? ?; eapply Hok; by right).
  destruct scs as [|first scs].
  - apply IH; [done|done|intros; apply Hnone; by right|done|]. intros g' k w' Hg' [R1 R2 R3 R4]. apply HΦ; [done|].
    split; [done| |done|].
    + intros s Hs. destruct (R2 s Hs) as [?|(L1 & L2 & rid' & scs' & sc & L3 & L4)]; [by left|right].
      split; [done|]. split; [done|]. exists rid', scs', sc. split; [by right|done].
    + intros rid' scs' sc t [[= -> ->]|Hin]%elem_of_cons Hsc; [by apply not_elem_of_nil in Hsc|by eapply R4].
  - wp_steps. apply new_slices_wp; [apply Hscs|]. intros ss w1 Hm. unfold newReaderLocked. wp_steps.
    apply (NewReader_wp _ store n); [by eapply made_slices_ok|]. intros r w2 Hr Es St.
    assert (Hgn : g !! rid = None) by (apply Hnone; left). rewrite Hgn. wp_steps.
    assert (St2 : step w w2) by (etrans; [apply Hm|exact St]).
    apply IH; [| done | | done |].
    + destruct Hg as [G1 G2]. cbn [app] in G2. split.
      * apply readers_ok_insert; [by eapply readers_ok_step|done].
      * cbn [app]. eapply alloc_ok_perm; [symmetry; by apply all_slices_insert_fresh|]. apply alloc_ok_app.
        split; [apply Hr|]. split; [by eapply alloc_ok_step|]. intros s s' Hs Hs' Heq. rewrite Es in Hs.
        destruct (made_fresh _ _ _ _ Hm s Hs) as [Hge _]. destruct G2 as [_ Hlt]. specialize (Hlt s' Hs'). lia.
    + intros rid' Hin. rewrite lookup_insert_ne; [apply Hnone; by right|]. by intros <-.
    + intros g' k w' Hg' Hrb. apply HΦ; [done|]. rewrite <- Es in Hm. by eapply rebuilt_cons.
Qed.
End reload.
