(* ===== verification/QueueProps.v ===== *)
(** * Safety of the queue

    The invariant of [queueBase] over all interleavings of its steps, and what it
    gives: tasks are deleted only after they were acked, and the persisted state
    covers every task that was not. *)
From S2P Require Import Prelude TaskKey TaskRange Predicates TaskPredicates TaskScope Monitor PagingIterator.
From S2P Require Import TaskIterator Tracker Convert QueueWorld Slice SliceIterators SliceSpec SliceLoad.
From S2P Require Import SliceProps Reader ReaderSpec ReaderProps Queue QueueSpec ActionSliceCount.
From S2P Require Import ActionPendingTask Mitigator QueueReload.
Local Open Scope Z_scope.
Local Open Scope queue_scope.
Local Open Scope key_scope.

Section props.
Context {W E GK : Type} `{Countable GK} {G : Grouper GK} {GL : GrouperLaws GK}.
Context {TS : Timestamppb} {TL : TimestamppbLaws}.
Context (provider : PaginationFnProvider (W := W) (E := E)).
Context (options : MonitorOptions) (maxPredicateSize EmptyPredicateProtoSize : Z) (pageFuel : nat).
Context (multiply load : Z → Z) (maxReaderCount taskCountBase : Z).
Context (store : list Task) (n : nat) (Hstore : store_sorted store).
Context (Hprov : provider_ok provider store n) (Hfuel : (n < pageFuel)%nat).

Abbreviation SliceImpl := (@SliceImpl W E GK _ _).
Abbreviation queueBase := (@queueBase W E GK _ _).
Abbreviation chain := (chain (W := W) (E := E) (GK := GK) store).
Abbreviation group_ok := (group_ok (W := W) (E := E) (GK := GK) store n).
Abbreviation smin s := (InclusiveMin (ScopeRange (scope s))).
Abbreviation smax s := (ExclusiveMax (ScopeRange (scope s))).
Abbreviation hw p := (InclusiveMin (ScopeRange (nonReadableScope p))).
Abbreviation processNewRange := (processNewRange (W := W) (E := E) (GK := GK) options maxPredicateSize EmptyPredicateProtoSize).
Abbreviation action := (checkpointAction (W := W) (E := E) (GK := GK) options maxPredicateSize EmptyPredicateProtoSize
                          multiply maxReaderCount taskCountBase).
Abbreviation checkpoint := (checkpoint (W := W) (E := E) (GK := GK) options maxPredicateSize EmptyPredicateProtoSize action).
Implicit Types (p q : queueBase) (done : Task → Prop).

(** ** The invariant *)

(** The tasks with key below [k] are owed or done, and what is acked is done. *)
Record accounted done (k : Key) (ss : list SliceImpl) : Prop := {
  acc_tasks : ∀ t, t ∈ store → GetKey t <k k → owed ss t ∨ done t;
  acc_acked : ∀ s t, s ∈ ss → acked s t → done t;
}.

Lemma accounted_chain done k w w' ss ss' : accounted done k ss → chain w w' ss ss' → accounted done k ss'.
Proof.
  intros [H1 H2] [[P1 P2] _ _ _]. split.
  - intros t Ht Hk. destruct (H1 t Ht Hk) as [Ho|]; [|by right].
    destruct (P1 t Ht Ho) as [?|(s & Hs & Ha)]; [by left|right]. by eapply H2.
  - intros s t Hs (e & He & Ht & Ha). destruct (P2 s _ e Hs He) as (s' & Hs' & He').
    apply (H2 s'); [done|]. by exists e.
Qed.

Record queue_inv (w : World W) done p : Prop := {
  qi_group : group_ok w [] (readerGroup p);
  qi_scope : ∃ k, nonReadableScope p = mkScope (mkRange k MaximumKey) UniversalImpl ∧ valid_key k;
  qi_below : ∀ s, s ∈ all_slices (readerGroup p) → smax s ≤k hw p;
  qi_deletion : exclusiveDeletionHighWatermark p ≤k hw p ∧
                ∀ s, s ∈ all_slices (readerGroup p) → exclusiveDeletionHighWatermark p ≤k smin s;
  qi_tasks : accounted done (hw p) (all_slices (readerGroup p));
}.

(** A step that only reorganises the slices. *)
Lemma queue_inv_chain w w' done p g' c l f :
  queue_inv w done p → group_ok w' [] g' → chain w w' (all_slices (readerGroup p)) (all_slices g') →
  queue_inv w' done (mkQueue c l (exclusiveDeletionHighWatermark p) (nonReadableScope p) g' f).
Proof.
  intros [Hg Hsc Hb [Hd1 Hd2] Ht] Hg' Hc. split; simpl; [done|done| |split; [done|]|by eapply accounted_chain].
  - intros s Hs. destruct (chain_spans _ _ _ _ _ Hc s Hs) as [_ (x & Hx & Hle)]. eauto using key_le_trans.
  - intros s Hs. destruct (chain_spans _ _ _ _ _ Hc s Hs) as [(x & Hx & Hle) _]. eauto using key_le_trans.
Qed.

(** No slice owes a task below the deletion watermark. *)
Lemma deletion_safe w done p t :
  queue_inv w done p → t ∈ store → GetKey t <k exclusiveDeletionHighWatermark p → done t.
Proof.
  intros [Hg _ _ [Hd1 Hd2] [Ha _]] Ht Hk.
  destruct (Ha t Ht) as [(s & Hs & [[Hlo _] _]%Contains_spec & _)|]; [clear -Hk Hd1; key_solve| |done].
  specialize (Hd2 s Hs). clear -Hk Hlo Hd2. exfalso. key_solve.
Qed.

(** ** New ranges *)

Abbreviation ReaderGroup := (gmap ReaderID (@ReaderImpl W E GK _ _)).

(** The new slices go to the default reader, which is made, appended to or
    merged with. *)
Lemma add_slices_group w w' (g : ReaderGroup) r r' ss :
  group_ok w ss g → g !! DefaultReaderId = Some r → reader_step store n w w' r ss r' [] →
  group_ok w' [] (<[DefaultReaderId := r']> g) ∧
  chain w w' (ss ++ all_slices g) (all_slices (<[DefaultReaderId := r']> g)).
Proof.
  intros [Hg Ha] Hr [_ Hr' Hc]. rewrite app_nil_r in Hc.
  assert (Hch : chain w w' (ss ++ all_slices g) (all_slices (<[DefaultReaderId := r']> g))).
  { apply (chain_perm _ _ _ ((slices r ++ ss) ++ all_slices (delete DefaultReaderId g)) _
             (slices r' ++ all_slices (delete DefaultReaderId g))).
    - rewrite (all_slices_delete g _ r Hr). clear. solve_Permutation.
    - by rewrite all_slices_insert.
    - apply chain_frame; [|done]. eapply alloc_ok_perm; [|exact Ha].
      rewrite (all_slices_delete g _ r Hr). clear. solve_Permutation. }
  split; [|done]. split.
  - apply readers_ok_insert; [|done]. eapply readers_ok_step; [apply Hc|done].
  - pose proof (chain_alloc _ _ _ _ _ [] Hch) as Hal. rewrite !app_nil_r in Hal. auto.
Qed.

Lemma new_default_reader w w' (g : ReaderGroup) r ss :
  group_ok w ss g → g !! DefaultReaderId = None → reader_inv store n w' r → slices r = ss → step w w' →
  group_ok w' [] (<[DefaultReaderId := r]> g) ∧
  chain w w' (ss ++ all_slices g) (all_slices (<[DefaultReaderId := r]> g)).
Proof.
  intros [Hg Ha] Hn Hr Es St.
  assert (Hp : all_slices (<[DefaultReaderId := r]> g) ≡ₚ ss ++ all_slices g) by (by rewrite all_slices_insert_fresh, Es).
  split.
  - split; [apply readers_ok_insert; [by eapply readers_ok_step|done]|]. eapply alloc_ok_step; [done|].
    eapply alloc_ok_perm; [|exact Ha]. by rewrite Hp.
  - eapply chain_perm; [reflexivity|symmetry; exact Hp|]. eapply chain_step_r; [|done]. by apply chain_refl.
Qed.

(** The part of [processNewRange] after the new slices are made. *)
Lemma add_slices_wp p ss w mk (Φ : queueBase → World W → Prop) :
  group_ok w ss (readerGroup p) → Forall (slice_inv store n) ss → ordered ss →
  (∀ s x, s ∈ all_slices (readerGroup p) → x ∈ ss → smax s ≤k smin x) →
  (∀ g f w', group_ok w' [] g → chain w w' (ss ++ all_slices (readerGroup p)) (all_slices g) → Φ (mk g f) w') →
  wp match ReaderByID (readerGroup p) DefaultReaderId with
     | None =>
         let* (g, _) := newReaderLocked options (readerGroup p) DefaultReaderId ss in
         qret (mk g (nextForceNewSliceTime p))
     | Some reader =>
         λ w,
           (if nextForceNewSliceTime p <? now w then
              let* reader := AppendSlices options reader ss in
              qret (mk (<[DefaultReaderId := reader]> (readerGroup p)) (now w + forceNewSliceDuration))
            else
              let* reader := MergeSlices options maxPredicateSize EmptyPredicateProtoSize reader ss in
              qret (mk (<[DefaultReaderId := reader]> (readerGroup p)) (nextForceNewSliceTime p))) w
     end Φ w.
Proof.
  intros Hg Hi Ho Hb HΦ. unfold ReaderByID.
  destruct (readerGroup p !! DefaultReaderId) as [r|] eqn:Er.
  - unfold wp. match goal with |- match ?m w with _ => _ end => change (wp m Φ w) end.
    assert (Hr : reader_inv store n w r) by (by eapply Hg).
    assert (Hal : alloc_ok w (slices r ++ ss)).
    { destruct Hg as [_ Ha]. rewrite alloc_ok_app. apply alloc_ok_app in Ha as (A1 & A2 & A3).
      assert (Hsub : ∀ s, s ∈ slices r → s ∈ all_slices (readerGroup p)) by (intros; apply all_slices_elem; eauto).
      split; [apply Hr|]. split; [done|]. intros s s' Hs Hs' Heq. by apply (A3 s' s); auto. }
    destruct (_ <? _).
    + wp_steps. eapply AppendSlices_wp; [done..| |done|].
      * apply ordered_app. split; [apply Hr|]. split; [done|]. intros s x Hs Hx. apply Hb; [|done].
        apply all_slices_elem. eauto.
      * intros r' w' Hs _. wp_steps. destruct (add_slices_group _ _ _ _ _ _ Hg Er Hs). by apply HΦ.
    + wp_steps. eapply (MergeSlices_wp _ _ _ _ _ Hstore); [done..|]. intros r' w' Hs _. wp_steps.
      destruct (add_slices_group _ _ _ _ _ _ Hg Er Hs). by apply HΦ.
  - unfold newReaderLocked. wp_steps. eapply NewReader_wp.
    { split; [done|done|]. by destruct Hg as [_ [Ha _]%alloc_ok_app]. }
    intros r w1 Hr Es St. rewrite Er. wp_steps.
    destruct (new_default_reader _ _ _ _ _ Hg Er Hr Es St). by apply HΦ.
Qed.

Lemma processNewRange_wp done p k w (Φ : queueBase → World W → Prop) :
  queue_inv w done p → valid_key k →
  (∀ p' w', queue_inv w' done p' → exclusiveDeletionHighWatermark p' = exclusiveDeletionHighWatermark p →
     hw p' = (if CanSplitByRange (nonReadableScope p) k then k else hw p) → Φ p' w') →
  wp (processNewRange p k) Φ w.
Proof.
  intros Hq Hk HΦ. pose proof Hq as [Hg (k0 & Esc & Hk0) Hb [Hd1 Hd2] [Ht1 Ht2]].
  unfold Queue.processNewRange. destruct (CanSplitByRange (nonReadableScope p) k) eqn:Ec.
  - assert (Hwf : range_wf (ScopeRange (nonReadableScope p))).
    { rewrite Esc. unfold range_wf. simpl. by apply valid_key_bounds in Hk0 as [_ ?]. }
    rewrite SplitByRange_total by done. apply CanSplit_spec in Ec as [Hlo Hhi]; [|done].
    rewrite Esc in *. simpl in *. wp_steps. apply (NewSlice_wp _ _ store n).
    { split; [|by split]. by split_and!. }
    intros s w1 Hs Er Hpend St Hf Ho. simpl in Er. wp_steps.
    assert (Hg1 : group_ok w1 [s] (readerGroup p)).
    { destruct Hg as [G1 G2]. split; [by eapply readers_ok_step|]. apply alloc_ok_cons. destruct Hf as [F1 F2].
      split; [done|]. split; [by eapply alloc_ok_step|]. intros x Hx. destruct G2 as [_ Hlt]. specialize (Hlt x Hx). lia. }
    apply add_slices_wp; [done|by apply Forall_singleton|by repeat constructor| |].
    { intros x y Hx ->%list_elem_of_singleton. rewrite Er. simpl. auto. }
    intros g f w2 Hg2 Hc2. apply HΦ; simpl; [|done|done].
    assert (Hspan : ∀ x, x ∈ all_slices g → smax x ≤k k ∧ exclusiveDeletionHighWatermark p ≤k smin x).
    { intros x Hx. destruct (chain_spans _ _ _ _ _ Hc2 x Hx) as [(y & Hy & Ly) (z & Hz & Lz)]. split.
      - apply elem_of_app in Hz as [->%list_elem_of_singleton|Hz]; [by rewrite Er in Lz|]. eauto using key_le_trans.
      - apply elem_of_app in Hy as [->%list_elem_of_singleton|Hy]; [rewrite Er in Ly; simpl in Ly|]; eauto using key_le_trans. }
    split; simpl; [done|by exists k|intros x Hx; by apply Hspan|split; [by eauto using key_le_trans|intros x Hx; by apply Hspan]|].
    eapply accounted_chain; [|exact Hc2]. split.
    + intros t Ht Hlt. destruct (decide (GetKey t <k k0)) as [Hold|Hnew].
      * destruct (Ht1 t Ht Hold) as [(x & Hx & ?)|?]; [left; exists x; split; [apply elem_of_app; by right|done]|by right].
      * left. exists s. split; [left|]. apply Ho. apply Contains_spec. by split.
    + intros x t Hx Ha. apply elem_of_app in Hx as [->%list_elem_of_singleton|Hx]; [|by eapply Ht2].
      destruct Ha as (e & He & _). by rewrite Hpend, lookup_empty in He.
  - wp_steps. apply (add_slices_wp p []); [done|done|constructor| |].
    { intros s x _ Hx. by apply not_elem_of_nil in Hx. }
    intros g f w' Hg' Hc'. apply HΦ; simpl; [|done|done]. by apply (queue_inv_chain w w').
Qed.

(** ** Checkpoints *)

(** A persisted state: scopes a queue can be loaded from, which cover every task
    below the watermark that is not done. *)
Record state_ok done (st : queueState) : Prop := {
  st_valid : valid_key (exclusiveReaderHighWatermark st);
  st_scopes : ∀ rid scs, readerScopes st !! rid = Some scs → scopes_ok scs;
  st_below : ∀ rid scs sc, readerScopes st !! rid = Some scs → sc ∈ scs →
    ExclusiveMax (ScopeRange sc) ≤k exclusiveReaderHighWatermark st;
  st_tasks : ∀ t, t ∈ store → GetKey t <k exclusiveReaderHighWatermark st →
    done t ∨ ∃ rid scs sc, readerScopes st !! rid = Some scs ∧ sc ∈ scs ∧ Contains sc t = true;
}.

(** What the shard is asked to do is safe: only acked tasks are deleted, and
    the persisted scopes cover every other task below the persisted watermark. *)
Definition effects_safe done (eff : checkpoint_effects) : Prop :=
  (∀ lo hi, deleting eff = Some (lo, hi) → ∀ t, t ∈ store → GetKey t <k hi → done t) ∧
  (∀ c pb, persisting eff = Some (c, pb) → ∃ st, pb = ToPersistenceQueueState st ∧ state_ok done st).

(** The bounds of the deletion only exclude more tasks than the watermark. *)
Lemma rangeComplete_bounds_below c old new lo hi t :
  rangeComplete_bounds c old new = (lo, hi) → t ∈ store → GetKey t <k hi → GetKey t <k new.
Proof.
  intros Hb Ht. destruct Hstore as [_ Hv]. rewrite Forall_forall in Hv. destruct (Hv t Ht) as [_ ?].
  unfold rangeComplete_bounds in Hb. destruct c; injection Hb as <- <-; [done|]. unfold key_lt. simpl. lia.
Qed.

Lemma slices_scopes_ok w (r : @ReaderImpl W E GK _ _) : reader_inv store n w r → scopes_ok (map scope (slices r)).
Proof.
  intros [[Hi Ho _] _]. split.
  - apply Forall_forall. intros sc (s & <- & Hs)%list_elem_of_In%in_map_iff. rewrite Forall_forall in Hi.
    apply Hi. by apply list_elem_of_In.
  - clear Hi. induction Ho as [|s ss _ IH Hf]; [constructor|]. constructor; [done|]. rewrite Forall_forall in Hf.
    apply Forall_forall. intros sc (x & <- & Hx)%list_elem_of_In%in_map_iff. by apply Hf, list_elem_of_In.
Qed.

(** The scopes collected by a checkpoint are the scopes of the readers. *)
Definition from_group (g : ReaderGroup) (scopes : gmap ReaderID (list Scope)) : Prop :=
  ∀ rid scs, scopes !! rid = Some scs → ∃ r, g !! rid = Some r ∧ scs = map scope (slices r).

Lemma collected_state_ok w done p g scopes k :
  readers_ok store n w g → (∃ k, nonReadableScope p = mkScope (mkRange k MaximumKey) UniversalImpl ∧ valid_key k) →
  (∀ s, s ∈ all_slices g → smax s ≤k hw p) → accounted done (hw p) (all_slices g) →
  collected scopes k (all_slices g) → from_group g scopes →
  state_ok done (mkQueueState (filter (λ kv, kv.2 ≠ []) scopes) (hw p)).
Proof.
  intros Hg (k0 & Esc & Hk0) Hb [Ha _] Hcol Hfrom. split; simpl.
  - by rewrite Esc.
  - intros rid scs [Hr _]%map_lookup_filter_Some. destruct (Hfrom rid scs Hr) as (r & Hgr & ->).
    apply (slices_scopes_ok w). by eapply Hg.
  - intros rid scs sc [Hr _]%map_lookup_filter_Some Hsc. destruct (Hfrom rid scs Hr) as (r & Hgr & ->).
    apply list_elem_of_In, in_map_iff in Hsc as (s & <- & Hs). apply Hb, all_slices_elem. exists rid, r.
    split; [done|by apply list_elem_of_In].
  - intros t Ht Hlt. destruct (Ha t Ht Hlt) as [(x & Hx & Hcx & _)|]; [right|by left].
    destruct (Hcol x Hx) as [_ (rid & scs & Hrid & Hin)]. exists rid, scs, (scope x). split; [|done].
    apply map_lookup_filter_Some. split; [done|]. simpl. intros ->. by apply not_elem_of_nil in Hin.
Qed.

(** [g] are the readers whose scopes were collected, [g'] those that are left. *)
Lemma finish_checkpoint_safe w w' done p tc g g' scopes k sh :
  queue_inv w done p → chain w w' (all_slices (readerGroup p)) (all_slices g') →
  group_ok w' [] g' → accounted done (hw p) (all_slices g) → spans (all_slices g) (all_slices g') →
  k ≤k hw p → collected scopes k (all_slices g) →
  state_ok done (mkQueueState (filter (λ kv, kv.2 ≠ []) scopes) (hw p)) →
  let '(p', eff) := finish_checkpoint p tc g' scopes k sh in queue_inv w' done p' ∧ effects_safe done eff.
Proof.
  intros Hq Hc Hg' Hacc Hc2 Hk Hcol Hst.
  assert (Hlow : ∀ s, s ∈ all_slices g' → k ≤k smin s).
  { intros s Hs. destruct (Hc2 s Hs) as [(x & Hx & Lx) _]. destruct (Hcol x Hx). eauto using key_le_trans. }
  assert (Hdone : ∀ t, t ∈ store → GetKey t <k k → done t).
  { intros t Ht Hlt. destruct Hacc as [Ha _].
    destruct (Ha t Ht) as [(x & Hx & [[Hlo _] _]%Contains_spec & _)|]; [clear -Hlt Hk; key_solve| |done].
    destruct (Hcol x Hx) as [Hkx _]. clear -Hkx Hlo Hlt. exfalso. key_solve. }
  assert (Hdel : ∀ lo hi, Some (rangeComplete_bounds (queue_category p) (exclusiveDeletionHighWatermark p) k) = Some (lo, hi) →
    ∀ t, t ∈ store → GetKey t <k hi → done t).
  { intros lo hi [= Hb] t Ht Hlt. eapply Hdone; [done|]. by eapply rangeComplete_bounds_below. }
  assert (Hold : ∀ l f, queue_inv w' done (mkQueue (queue_category p) l (exclusiveDeletionHighWatermark p)
    (nonReadableScope p) g' f)) by (intros; by apply (queue_inv_chain w w')).
  assert (Hnew : ∀ l f, queue_inv w' done (mkQueue (queue_category p) l k (nonReadableScope p) g' f)).
  { intros l f. destruct (Hold l f) as [Q1 Q2 Q3 Q4 Q5]. by split. }
  assert (Hpers : ∀ p' c pb, hw p' = hw p → Some (updateQueueState p' tc scopes) = Some (c, pb) →
    ∃ st, pb = ToPersistenceQueueState st ∧ state_ok done st).
  { intros p' c pb Hp' [= _ <-]. rewrite Hp'. by eexists. }
  unfold finish_checkpoint.
  destruct (_ || _); [destruct (rangeComplete_fails sh)|]; (split; [apply Hold || apply Hnew|]); (split; [done|]);
    intros c pb Heq; [discriminate Heq|by eapply Hpers; [|exact Heq]..].
Qed.

Lemma checkpoint_wp done p sh w (Φ : queueBase * checkpoint_effects → World W → Prop) :
  queue_inv w done p →
  (∀ p' eff w', queue_inv w' done p' → effects_safe done eff → Φ (p', eff) w') → wp (checkpoint p sh) Φ w.
Proof.
  intros Hq HΦ. pose proof Hq as [Hg (k0 & Esc & Hk0) Hb Hd Ht]. unfold Queue.checkpoint. wp_steps.
  eapply (shrink_readers_wp _ _ _ store n Hstore); [done|]. intros g1 c1 w1 Hr1. wp_steps.
  eapply (checkpointAction_wp _ _ _ store n Hstore); [apply Hr1|]. intros g2 b2 w2 Hr2. wp_steps.
  assert (Hr12 : regrouped store n w w2 (readerGroup p) g2) by (by eapply regrouped_trans).
  destruct Hr12 as [Hg2 Hc2].
  eapply (collect_scopes_wp store n); [done|by intros rid r ?%elem_of_map_to_list|apply NoDup_fst_map_to_list| |].
  { intros rid [x Hx]. by rewrite lookup_empty in Hx. }
  intros g3 scopes k w3 [Hg3 Hc3] Hk _ Hcol Hfrom. wp_steps.
  assert (Hacc : accounted done (hw p) (all_slices g2)) by (by eapply accounted_chain).
  assert (Hall : collected scopes k (all_slices g2)).
  { intros s (rid & r & Hr & Hs)%all_slices_elem. eapply Hcol; [by apply elem_of_map_to_list|done]. }
  assert (Hst : state_ok done (mkQueueState (filter (λ kv, kv.2 ≠ []) scopes) (hw p))).
  { apply (collected_state_ok w2 done p g2 scopes k); [apply Hg2|by exists k0| |done|done|].
    - intros s Hs. destruct (chain_spans _ _ _ _ _ Hc2 s Hs) as [_ (x & Hx & Hle)]. eauto using key_le_trans.
    - intros rid scs Hrid. destruct (Hfrom rid scs Hrid) as [Hx|(r & Hin & ->)]; [by rewrite lookup_empty in Hx|].
      exists r. split; [by apply elem_of_map_to_list|done]. }
  pose proof (finish_checkpoint_safe w w3 done p c1 g2 g3 scopes k sh Hq) as Hfin.
  destruct (finish_checkpoint p c1 g3 scopes k sh) as [p' eff].
  destruct Hfin as [H1 H2]; [by eapply chain_trans|done|done|apply Hc3|done..|by apply HΦ].
Qed.

(** ** Loading the queue *)

Abbreviation newQueueBase := (newQueueBase (W := W) (E := E) (GK := GK) options maxPredicateSize EmptyPredicateProtoSize).

(** What the shard has persisted for the queue; before the first checkpoint
    there is nothing, and no task below the first readable key to run. *)
Definition persisted_ok done (pers : option pb_QueueState) : Prop :=
  match pers with
  | None => ∀ t, t ∈ store → GetKey t <k mkKey 0 1 → done t
  | Some pb => ∃ st, pb = ToPersistenceQueueState st ∧ state_ok done st
  end.

Lemma group_ok_empty w : group_ok w [] ∅.
Proof.
  split; [intros rid r Hr; by rewrite lookup_empty in Hr|]. split; [constructor|].
  intros s (rid & r & Hr & _)%all_slices_elem. by rewrite lookup_empty in Hr.
Qed.

Lemma rebuilt_queue_inv w done c l k0 k g f scopes :
  group_ok w [] g → state_ok done (mkQueueState scopes k0) → rebuilt (map_to_list scopes) ∅ k0 g k →
  queue_inv w done (mkQueue c l k (mkScope (mkRange k0 MaximumKey) UniversalImpl) g f).
Proof.
  intros Hg [S1 S2 S3 S4] [R1 R2 _ R4]. simpl in *.
  assert (Hnew : ∀ s, s ∈ all_slices g → k ≤k smin s ∧ pending s = ∅ ∧ smax s ≤k k0).
  { intros s Hs. destruct (R2 s Hs) as [(rid & r & Hr & _)%all_slices_elem|(L1 & L2 & rid & scs & sc & L3 & L4 & L5)];
      [by rewrite lookup_empty in Hr|]. split; [done|]. split; [done|]. rewrite L5.
    eapply S3; [by apply elem_of_map_to_list|done]. }
  split; simpl; [done|by exists k0|intros s Hs; by apply Hnew|split; [done|intros s Hs; by apply Hnew]|].
  split.
  - intros t Ht Hlt. destruct (S4 t Ht Hlt) as [?|(rid & scs & sc & Hr & Hsc & Hc)]; [by right|left].
    eapply R4; [by apply elem_of_map_to_list|done..].
  - intros s t Hs (e & He & _). destruct (Hnew s Hs) as (_ & Hp & _). by rewrite Hp, lookup_empty in He.
Qed.

(** Whatever was persisted, the queue is rebuilt in a state that satisfies the invariant. *)
Lemma newQueueBase_wp done c pers w (Φ : queueBase → World W → Prop) :
  persisted_ok done pers → (∀ p w', queue_inv w' done p → Φ p w') → wp (newQueueBase c pers) Φ w.
Proof.
  intros Hp HΦ.
  assert (Hload : ∀ scopes k0, state_ok done (mkQueueState scopes k0) →
    wp (let* (g, deletion) := new_readers options maxPredicateSize EmptyPredicateProtoSize (map_to_list scopes) ∅ k0 in
        let* r := qlift (NewRange k0 MaximumKey) in
        qret (mkQueue c (-1) deletion (NewScope r UniversalImpl) g zeroTime)) Φ w).
  { intros scopes k0 Hst. wp_steps. pose proof Hst as [S1 S2 _ _]. simpl in *.
    apply (new_readers_wp _ _ _ store n); [apply group_ok_empty|apply NoDup_fst_map_to_list|done| |].
    - intros rid scs Hin%elem_of_map_to_list. by eapply S2.
    - intros g k w' Hg Hrb. wp_steps. rewrite (proj2 (NewRange_Some k0 MaximumKey _) (conj (proj2 (valid_key_bounds _ S1)) eq_refl)).
      wp_steps. by eapply HΦ, rebuilt_queue_inv. }
  assert (Hfresh : ∀ k0, valid_key k0 → (∀ t, t ∈ store → GetKey t <k k0 → done t) → state_ok done (mkQueueState ∅ k0)).
  { intros k0 Hk Hd. split; simpl; [done|by intros ? ? ?%lookup_empty_Some|by intros ? ? ? ?%lookup_empty_Some|by left; auto]. }
  unfold Queue.newQueueBase. destruct pers as [pb|].
  - destruct Hp as (st & -> & Hst). rewrite state_roundtrip.
    + wp_steps. eapply wp_bind_inv, Hload. by destruct st.
    + intros rid scs sc Hr Hsc. destruct (st_scopes _ _ Hst rid scs Hr) as [Hok _]. rewrite Forall_forall in Hok.
      by apply scope_ok_wf, Hok.
  - destruct c; wp_steps; eapply wp_bind_inv, Hload, Hfresh; try by_decide; [done|].
    intros t Ht Hlt. apply Hp; [done|]. clear -Hlt. revert Hlt. unfold key_lt, NewKey, DefaultFireTime. simpl. lia.
Qed.

(** ** Steps of a single reader *)

Lemma alloc_ok_le w w' (ss : list SliceImpl) :
  nextSliceID w' = nextSliceID w → alloc_ok w ss → alloc_ok w' ss.
Proof. intros Hw [H1 H2]. split; [done|]. by rewrite Hw. Qed.

(** A reader changes without changing the identity or the scope of a slice. *)
Lemma queue_inv_update w w' done done' p rid r r' :
  queue_inv w done p → readerGroup p !! rid = Some r → reader_inv store n w' r' →
  nextSliceID w' = nextSliceID w → slice_id <$> slices r' = slice_id <$> slices r →
  scope <$> slices r' = scope <$> slices r → (∀ t, done t → done' t) →
  (∀ t, t ∈ store → owed (slices r) t → owed (slices r') t ∨ done' t) →
  (∀ s t, s ∈ slices r' → acked s t → done' t) →
  queue_inv w' done' (set_group p (<[rid := r']> (readerGroup p))).
Proof.
  intros [[Hg Ha] Hsc Hb [Hd1 Hd2] [Ht1 Ht2]] Hr Hr' Hw Hids Hscs Hdone Howed Hacked.
  set (g' := <[rid := r']> (readerGroup p)).
  assert (Hin : ∀ s, s ∈ all_slices g' → s ∈ slices r' ∨ s ∈ all_slices (readerGroup p)).
  { intros s (rid' & x & Hx & Hs)%all_slices_elem. apply lookup_insert_Some in Hx as [[_ <-]|[_ Hx]]; [by left|].
    right. apply all_slices_elem. eauto. }
  assert (Hscope : ∀ s, s ∈ all_slices g' → ∃ x, x ∈ all_slices (readerGroup p) ∧ scope x = scope s).
  { intros s Hs. destruct (Hin s Hs) as [Hs'|]; [|by exists s].
    assert (He : scope s ∈ scope <$> slices r) by (rewrite <- Hscs; by apply list_elem_of_fmap_2).
    apply list_elem_of_fmap in He as (x & -> & Hx). exists x. split; [|done]. apply all_slices_elem. eauto. }
  split; simpl; [|done| |split; [done|]|].
  - split.
    + intros rid' x Hx. apply lookup_insert_Some in Hx as [[_ <-]|[_ Hx]]; [done|].
      destruct (Hg rid' x Hx) as [[I1 I2 I3] I4]. split; [split; [done|done|by eapply alloc_ok_le]|].
      unfold cursor_ok in *. destruct (nextReadSlice x) as [[|]|]; [done| |done].
      destruct I4 as [? ?]. split; [done|]. by eapply alloc_ok_le.
    + cbn [app] in *. apply (alloc_ok_perm _ (slices r' ++ all_slices (delete rid (readerGroup p)))).
      { symmetry; apply all_slices_insert. }
      apply (alloc_ok_perm _ _ _ (all_slices_delete _ _ _ Hr)) in Ha. apply (alloc_ok_le w); [done|].
      apply alloc_ok_app in Ha as ([N1 L1] & A2 & A3).
      assert (Hid : ∀ s, s ∈ slices r' → ∃ x, x ∈ slices r ∧ slice_id s = slice_id x).
      { intros s Hs. assert (He : slice_id s ∈ slice_id <$> slices r) by (rewrite <- Hids; by apply list_elem_of_fmap_2).
        apply list_elem_of_fmap in He as (x & He & Hx). eauto. }
      apply alloc_ok_app. split; [split; [by rewrite Hids|]|split; [done|]].
      * intros s Hs. destruct (Hid s Hs) as (x & Hx & ->). auto.
      * intros s y Hs Hy. destruct (Hid s Hs) as (x & Hx & ->). auto.
  - intros s Hs. destruct (Hscope s Hs) as (x & Hx & <-). auto.
  - intros s Hs. destruct (Hscope s Hs) as (x & Hx & <-). auto.
  - split.
    + intros t Ht Hk. destruct (Ht1 t Ht Hk) as [(s & Hs & Ho)|?]; [|right; auto].
      apply all_slices_elem in Hs as (rid' & x & Hx & Hs). destruct (decide (rid = rid')) as [<-|Hne].
      * rewrite Hr in Hx. simplify_eq. destruct (Howed t Ht) as [(s' & Hs' & Ho')|?]; [by exists s| |by right].
        left. exists s'. split; [|done]. apply all_slices_elem. exists rid, r'. split; [apply lookup_insert_eq|done].
      * left. exists s. split; [|done]. apply all_slices_elem. exists rid', x. split; [by apply lookup_insert_Some; right|done].
    + intros s t Hs Hac. destruct (Hin s Hs) as [?|?]; [by eapply Hacked|]. apply Hdone. by eapply Ht2.
Qed.

(** ** Acks *)

(** The scheduler finishes the executable tracked under [k] by the slice [sid]. *)
Definition ack_reader (sid : SliceID) (k : Key) (r : @ReaderImpl W E GK _ _) : ReaderImpl :=
  set_slices r (map (λ s, if (slice_id s =? sid)%N then ack_slice k s else s) (slices r)).

Lemma Ack_task e : ex_task (Ack e) = ex_task e.
Proof. unfold Ack. by destruct (negb _). Qed.

Lemma alter_Ack_lookup (P : gmap Key Executable) k k' e :
  alter Ack k P !! k' = Some e → ∃ e0, P !! k' = Some e0 ∧ ex_task e0 = ex_task e ∧ (e = e0 ∨ (k' = k ∧ e = Ack e0)).
Proof.
  destruct (decide (k = k')) as [<-|Hne].
  - rewrite lookup_alter_eq. destruct (P !! k) as [e0|]; simpl; [|done]. intros [= <-].
    exists e0. split; [done|]. split; [by rewrite Ack_task|]. by right.
  - rewrite lookup_alter_ne by done. intros He. exists e. split; [done|]. split; [done|]. by left.
Qed.

Lemma in_group_Ack g (e : Executable) : in_group (GK := GK) g (Ack e) = in_group g e.
Proof. unfold in_group, as_task. by rewrite Ack_task. Qed.

Lemma msum_alter_Ack g (P : gmap Key Executable) k :
  msum (in_group (GK := GK) g) (alter Ack k P) = msum (in_group g) P.
Proof.
  destruct (P !! k) as [e|] eqn:Ek.
  - assert (Heq : alter Ack k P = <[k := Ack e]> P).
    { apply map_eq. intros j. destruct (decide (k = j)) as [<-|?].
      - by rewrite lookup_alter_eq, lookup_insert_eq, Ek.
      - by rewrite lookup_alter_ne, lookup_insert_ne. }
    rewrite Heq, msum_insert, Ek. simpl. rewrite in_group_Ack. lia.
  - f_equal. apply map_eq. intros j. destruct (decide (k = j)) as [<-|?]; [by rewrite lookup_alter_eq, Ek|].
    by rewrite lookup_alter_ne.
Qed.

Lemma ack_slice_inv k (s : SliceImpl) : slice_inv store n s → slice_inv store n (ack_slice k s).
Proof.
  intros [H1 H2 H3 (tr & Etr & Hcv & Htr)]. unfold ack_slice. rewrite Etr. split; [done..|].
  eexists. split; [done|]. split.
  - intros g. simpl. rewrite msum_alter_Ack. apply Hcv.
  - intros k' e He. simpl in He. apply alter_Ack_lookup in He as (e0 & He0 & Ht & _). rewrite <- Ht. by apply Htr.
Qed.

Lemma ack_slice_owes k (s : SliceImpl) t :
  owes s t → owes (ack_slice k s) t ∨ acked (ack_slice k s) t.
Proof.
  intros [Hc [Hi|(e & He & Ht & Ha)]]; unfold ack_slice; destruct (tracker s) as [tr|] eqn:Etr.
  - left. split; [done|]. by left.
  - left. split; [done|]. by left.
  - rewrite (pending_tracker _ _ Etr) in He. destruct (decide (GetKey t = k)) as [<-|Hne].
    + destruct (decide (ex_state (Ack e) = TaskStateAcked)) as [Hs|Hs]; [right|left; split; [done|right]];
        exists (Ack e); unfold pending; simpl; rewrite lookup_alter_eq, He, Ack_task; done.
    + left. split; [done|]. right. exists e. unfold pending. simpl. by rewrite lookup_alter_ne.
  - unfold pending in He. rewrite Etr in He. simpl in He. by rewrite lookup_empty in He.
Qed.

Lemma ack_slice_fields k (s : SliceImpl) : slice_id (ack_slice k s) = slice_id s ∧ scope (ack_slice k s) = scope s.
Proof. unfold ack_slice. by destruct (tracker s). Qed.

Lemma ack_reader_inv w sid k r : reader_inv store n w r → reader_inv store n w (ack_reader sid k r) ∧
  slice_id <$> slices (ack_reader sid k r) = slice_id <$> slices r ∧
  scope <$> slices (ack_reader sid k r) = scope <$> slices r.
Proof.
  intros [[Hi Ho [Hn Hl]] Hc]. unfold ack_reader. cbn [slices set_slices].
  set (f := λ s : SliceImpl, if (slice_id s =? sid)%N then ack_slice k s else s).
  assert (Hf : ∀ s, slice_id (f s) = slice_id s ∧ scope (f s) = scope s).
  { intros s. unfold f. destruct (_ =? _)%N; [apply ack_slice_fields|done]. }
  assert (Hid : slice_id <$> map f (slices r) = slice_id <$> slices r).
  { change (map f (slices r)) with (f <$> slices r). rewrite <- list_fmap_compose. apply list_fmap_ext.
    intros j s _. apply Hf. }
  assert (Hsc : scope <$> map f (slices r) = scope <$> slices r).
  { change (map f (slices r)) with (f <$> slices r). rewrite <- list_fmap_compose. apply list_fmap_ext.
    intros j s _. apply Hf. }
  assert (Hal : alloc_ok w (map f (slices r))).
  { split; [by rewrite Hid|]. intros s (x & <- & Hx)%list_elem_of_In%in_map_iff. rewrite (proj1 (Hf x)).
    by apply Hl, list_elem_of_In. }
  split; [|done]. split.
  - split; simpl; [|by eapply ordered_scopes|done].
    rewrite Forall_forall in *. intros s (x & <- & Hx)%list_elem_of_In%in_map_iff. apply list_elem_of_In in Hx.
    unfold f. destruct (_ =? _)%N; [by apply ack_slice_inv, Hi|by apply Hi].
  - unfold cursor_ok in *. simpl. destruct (nextReadSlice r) as [[id|x]|]; [| |done].
    + destruct Hc as (s & Hs & <-). exists (f s). split; [|apply Hf]. apply list_elem_of_In, in_map. by apply list_elem_of_In.
    + destruct Hc as [? (Hx & _ & Hne)%alloc_ok_cons]. split; [done|]. apply alloc_ok_cons. split; [done|]. split; [done|].
      intros s (y & <- & Hy)%list_elem_of_In%in_map_iff. rewrite (proj1 (Hf y)). by apply Hne, list_elem_of_In.
Qed.

(** ** The steps of the queue *)

(** The queue, the state it runs in, which tasks have been acked so far and
    what the shard has persisted for the queue. *)
Record config := mkConfig {
  cfg_queue : queueBase;
  cfg_world : World W;
  cfg_done : Task → Prop;
  cfg_persisted : option pb_QueueState;
}.

Definition cfg_inv (c : config) : Prop :=
  queue_inv (cfg_world c) (cfg_done c) (cfg_queue c) ∧ persisted_ok (cfg_done c) (cfg_persisted c).

Abbreviation loadAndSubmitTasks := (loadAndSubmitTasks provider options pageFuel).
Abbreviation handleAlert := (handleAlert (W := W) (E := E) (GK := GK) options maxPredicateSize EmptyPredicateProtoSize
                               load maxReaderCount action).

(** A request to persist may take effect or not, whatever the answer. *)
Definition persisted (pers : option pb_QueueState) (eff : checkpoint_effects) (pers' : option pb_QueueState) : Prop :=
  pers' = pers ∨ ∃ c pb, persisting eff = Some (c, pb) ∧ pers' = Some pb.

(** A reload starts from what was persisted with no memory of the old queue. *)
Inductive queue_step : config → config → Prop :=
  | qs_range p w done pers k p' w' :
      valid_key k → processNewRange p k w = Ok (p', w') →
      queue_step (mkConfig p w done pers) (mkConfig p' w' done pers)
  | qs_checkpoint p w done pers sh p' eff w' pers' :
      checkpoint p sh w = Ok ((p', eff), w') →
      persisted pers eff pers' →
      queue_step (mkConfig p w done pers) (mkConfig p' w' done pers')
  | qs_alert p w done pers alert sh p' eff w' pers' :
      (∀ a, alert = Some a → alert_ok load a) →
      handleAlert p alert sh w = Ok ((p', eff), w') →
      persisted pers eff pers' → queue_step (mkConfig p w done pers) (mkConfig p' w' done pers')
  | qs_load p w done pers rid r fuel batchSize maxPending r' subs w' :
      readerGroup p !! rid = Some r → 0 ≤ batchSize →
      (∀ s, s ∈ slices r ∨ nextReadSlice r = Some (Removed s) → (turns store (iterators s) < fuel)%nat) →
      loadAndSubmitTasks fuel r batchSize maxPending w = Ok ((r', subs), w') →
      queue_step (mkConfig p w done pers) (mkConfig (set_group p (<[rid := r']> (readerGroup p))) w' done pers)
  | qs_ack p w done pers rid r sid k :
      readerGroup p !! rid = Some r →
      queue_step (mkConfig p w done pers)
        (mkConfig (set_group p (<[rid := ack_reader sid k r]> (readerGroup p))) w
           (λ t, done t ∨ ∃ s, s ∈ slices (ack_reader sid k r) ∧ acked s t) pers)
  | qs_environment p w done pers m t x :
      queue_step (mkConfig p w done pers) (mkConfig p (mkWorld (nextSliceID w) m t x) done pers)
  | qs_reload p w done pers t x p' w' :
      newQueueBase (queue_category p) pers (mkWorld (nextSliceID w) (newMonitor (queue_category p)) t x) = Ok (p', w') →
      queue_step (mkConfig p w done pers) (mkConfig p' w' done pers).

Lemma wp_ok {A} (m : Q W A) Φ w a w' : wp m Φ w → m w = Ok (a, w') → Φ a w'.
Proof. unfold wp. intros Hwp EQ. by rewrite EQ in Hwp. Qed.

Lemma queue_inv_world w w' done p : nextSliceID w' = nextSliceID w → queue_inv w done p → queue_inv w' done p.
Proof.
  intros Hw [[Hg Ha] Hsc Hb Hd Ht]. split; [|done..]. split; [|by eapply alloc_ok_le].
  intros rid r Hr. destruct (Hg rid r Hr) as [[I1 I2 I3] I4]. split; [split; [done|done|by eapply alloc_ok_le]|].
  unfold cursor_ok in *. destruct (nextReadSlice r) as [[|]|]; [done| |done]. destruct I4. split; [done|]. by eapply alloc_ok_le.
Qed.

Lemma state_ok_mono (done done' : Task → Prop) st : (∀ t, done t → done' t) → state_ok done st → state_ok done' st.
Proof. intros Hd [S1 S2 S3 S4]. split; [done..|]. intros t Ht Hk. destruct (S4 t Ht Hk); [left; auto|by right]. Qed.
Lemma persisted_ok_mono (done done' : Task → Prop) pers :
  (∀ t, done t → done' t) → persisted_ok done pers → persisted_ok done' pers.
Proof.
  intros Hd. destruct pers as [pb|]; simpl; [|by auto]. intros (st & -> & Hst). exists st. split; [done|].
  by eapply state_ok_mono.
Qed.

(** The executable with key [k] of a slice is acked. *)
Lemma ack_step_inv p w done rid r sid k :
  queue_inv w done p → readerGroup p !! rid = Some r →
  queue_inv w (λ t, done t ∨ ∃ s, s ∈ slices (ack_reader sid k r) ∧ acked s t)
    (set_group p (<[rid := ack_reader sid k r]> (readerGroup p))).
Proof.
  intros Hq Hr. destruct (ack_reader_inv w sid k r) as (A1 & A2 & A3); [by eapply Hq|].
  eapply (queue_inv_update w w done); [done..|by left| |by eauto].
  intros t Ht (s & Hs & Ho). unfold ack_reader. cbn [slices set_slices].
  assert (Hin : (if (slice_id s =? sid)%N then ack_slice k s else s) ∈
    map (λ s, if (slice_id s =? sid)%N then ack_slice k s else s) (slices r)).
  { apply list_elem_of_In, in_map_iff. exists s. split; [done|]. by apply list_elem_of_In. }
  destruct (slice_id s =? sid)%N; [|left; by exists s].
  destruct (ack_slice_owes k s t Ho) as [?|?]; [left|right; right]; by eexists.
Qed.

Lemma load_step_inv p w done rid r fuel bs mp r' subs w' :
  queue_inv w done p → readerGroup p !! rid = Some r → 0 ≤ bs →
  (∀ s, s ∈ slices r ∨ nextReadSlice r = Some (Removed s) → (turns store (iterators s) < fuel)%nat) →
  loadAndSubmitTasks fuel r bs mp w = Ok ((r', subs), w') →
  queue_inv w' done (set_group p (<[rid := r']> (readerGroup p))).
Proof.
  intros Hq Hr Hb Hf EQ.
  refine (wp_ok _ (λ rs w', queue_inv w' done (set_group p (<[rid := rs.1]> (readerGroup p)))) _ _ _ _ EQ).
  eapply (loadAndSubmitTasks_wp provider options store n Hstore pageFuel Hprov Hfuel); [by eapply Hq|done|done|].
  intros r1 subs1 w1 [L1 L2 L3 L4 L5 L6 L7].
  apply (queue_inv_update w w1 done done p rid r r1); [done..|by auto|].
  intros s t Hs Ha. destruct (L7 s t Hs Ha) as (s0 & Hs0 & Ha0). destruct Hq as [_ _ _ _ [_ Hacked]].
  apply (Hacked s0); [|done]. apply all_slices_elem. eauto.
Qed.

(** An alert: the action, a checkpoint, and the readers are woken. *)
Lemma handleAlert_wlp done p alert sh w (Φ : queueBase * checkpoint_effects → World W → Prop) :
  (∀ a, alert = Some a → alert_ok load a) → queue_inv w done p →
  (∀ p' eff w', queue_inv w' done p' → effects_safe done eff → Φ (p', eff) w') →
  wlp (handleAlert p alert sh) Φ (∃ a, alert = Some a ∧ is_slice_alert a) w.
Proof.
  intros Ha Hq HΦ. destruct alert as [a|]; cbn [Mitigator.handleAlert]; [|apply wlp_wp; wp_steps; by apply HΦ].
  apply wlp_bind. apply (wlp_mono _ _ (is_slice_alert a)); [|intros Hs; by exists a].
  eapply (Mitigate_wlp _ _ _ _ store n Hstore); [by apply Ha|apply Hq|].
  intros g b w1 [Hg Hc] _. apply wlp_wp. wp_steps. eapply (checkpoint_wp done).
  { exact (queue_inv_chain w w1 done p g _ _ _ Hq Hg Hc). }
  intros p1 eff w2 Hq1 Heff. wp_steps. apply HΦ; [|done].
  destruct (regrouped_notify store n w2 (readerGroup p1) (qi_group _ _ _ Hq1)) as [Hg1 Hc1].
  exact (queue_inv_chain w2 w2 done p1 _ _ _ _ Hq1 Hg1 Hc1).
Qed.

Lemma persisted_ok_next done pers eff pers' :
  persisted_ok done pers → effects_safe done eff → persisted pers eff pers' → persisted_ok done pers'.
Proof. intros Hp [_ Heff] [-> |(c & pb & Hpb & ->)]; [done|]. by eapply Heff. Qed.

Lemma queue_step_inv c c' : queue_step c c' → cfg_inv c → cfg_inv c'.
Proof.
  unfold cfg_inv. intros Hst. destruct Hst as
    [p w done pers k p' w' Hk EQ|p w done pers sh p' eff w' pers' EQ Hp'|p w done pers alert sh p' eff w' pers' Ha EQ Hp'
    |p w done pers rid r fuel bs mp r' subs w' Hr Hb Hf EQ|p w done pers rid r sid k Hr|p w done pers m t x
    |p w done pers t x p' w' EQ]; simpl; intros [Hq Hp].
  - split; [|done]. refine (wp_ok _ (λ p w, queue_inv w done p) _ _ _ _ EQ). by eapply processNewRange_wp.
  - assert (Hck : queue_inv w' done p' ∧ effects_safe done eff).
    { refine (wp_ok _ (λ pe w', queue_inv w' done pe.1 ∧ effects_safe done pe.2) _ _ _ _ EQ). by eapply checkpoint_wp. }
    destruct Hck as [Hq' Heff]. split; [done|]. by eapply persisted_ok_next.
  - pose proof (handleAlert_wlp done p alert sh w
      (λ pe w', queue_inv w' done pe.1 ∧ effects_safe done pe.2) Ha Hq ltac:(by auto)) as Hrun.
    unfold wlp in Hrun. rewrite EQ in Hrun. destruct Hrun as [Hq' Heff]. split; [done|]. by eapply persisted_ok_next.
  - split; [|done]. by eapply load_step_inv.
  - split; [by apply ack_step_inv|]. eapply persisted_ok_mono; [|exact Hp]. by left.
  - split; [|done]. by apply (queue_inv_world w).
  - split; [|done]. refine (wp_ok _ (λ p w, queue_inv w done p) _ _ _ _ EQ). by eapply newQueueBase_wp.
Qed.

Lemma queue_steps_inv c c' : rtc queue_step c c' → cfg_inv c → cfg_inv c'.
Proof. induction 1 as [|c1 c2 c3 Hs _ IH]; [done|]. intros Hi. by apply IH, (queue_step_inv c1). Qed.

(** ** Properties *)

(** C1 Whatever new ranges become readable, batches are loaded (with read errors), executables are acked, slices
    are moved, cleared and compacted by the checkpoint actions and by the actions that answer the monitor's alerts (too many
    pending tasks, too many slices, a stuck reader), checkpoints are taken and fail, and the process crashes and reloads
    the queue from what it last persisted, in any order: a task below the deletion watermark has been acked, and a task
    below the read watermark that has not been acked is owed by a slice of some reader, whose lower bound is at or above the deletion watermark. No task is lost and no unfinished task is deleted. *)
Theorem queue_never_loses_tasks c c' :
  cfg_inv c → rtc queue_step c c' →
  ∀ t, t ∈ store →
    (GetKey t <k exclusiveDeletionHighWatermark (cfg_queue c') → cfg_done c' t) ∧
    (GetKey t <k hw (cfg_queue c') → ¬ cfg_done c' t →
       ∃ s, s ∈ all_slices (readerGroup (cfg_queue c')) ∧ owes s t ∧
            exclusiveDeletionHighWatermark (cfg_queue c') ≤k smin s).
Proof.
  intros Hi Hr. pose proof (queue_steps_inv _ _ Hr Hi) as [Hq _]. intros t Ht. split.
  - by apply (deletion_safe (cfg_world c')).
  - intros Hk Hnd. destruct Hq as [_ _ _ [_ Hd] [Ha _]].
    destruct (Ha t Ht Hk) as [(s & Hs & Ho)|]; [|done]. exists s. auto.
Qed.

(** C16 From every reachable state the queue's own steps return: [processNewRange] at any valid key,
    [checkpoint] whatever the shard answers (with either checkpoint action), [newQueueBase] on what was persisted and
    [handleAlert] on every alert but the one for the slice count never panic, so neither the overlap checks of the
    readers and iterators nor the sanity checks of destroyed slices can fire; and what a checkpoint, also one
    after an alert, asks of the shard is safe: every task in the range to delete has been acked, and the scopes to
    persist cover every task below the persisted watermark that has not. *)
Theorem queue_steps_return c c' :
  cfg_inv c → rtc queue_step c c' →
  (∀ k, valid_key k → is_ok (processNewRange (cfg_queue c') k (cfg_world c')) = true) ∧
  (∀ sh, ∃ p' eff w', checkpoint (cfg_queue c') sh (cfg_world c') = Ok ((p', eff), w') ∧
     effects_safe (cfg_done c') eff) ∧
  (∀ alert sh, (∀ a, alert = Some a → alert_ok load a) →
     match handleAlert (cfg_queue c') alert sh (cfg_world c') with
     | Ok ((_, eff), _) => effects_safe (cfg_done c') eff
     | Panic => ∃ a, alert = Some a ∧ is_slice_alert a
     | Err _ => False
     end) ∧
  (∀ category w, is_ok (newQueueBase category (cfg_persisted c') w) = true).
Proof.
  intros Hi Hr. pose proof (queue_steps_inv _ _ Hr Hi) as [Hq Hp].
  assert (Hret : ∀ A (m : Q W A) w, wp m (λ _ _, True) w → is_ok (m w) = true).
  { intros A m w (a & w' & -> & _)%wp_run. done. }
  split_and!.
  - intros k Hk. apply Hret. by eapply (processNewRange_wp (cfg_done c')).
  - intros sh. wp_returns. eapply checkpoint_wp; [done|]. intros p' eff w' _ Heff EQ. by exists p', eff, w'.
  - intros alert sh Ha.
    pose proof (handleAlert_wlp (cfg_done c') (cfg_queue c') alert sh (cfg_world c')
      (λ pe _, effects_safe (cfg_done c') pe.2) Ha Hq ltac:(by auto)) as Hrun.
    unfold wlp in Hrun. by destruct (handleAlert _ _ _ _) as [[[p' eff] w']| |].
  - intros category w. apply Hret. by eapply (newQueueBase_wp (cfg_done c')).
Qed.
End props.

(** ** Witnesses: a fresh queue over the sample store *)

#[local] Existing Instance seconds_nanos.
#[local] Existing Instance seconds_nanos_laws.

Definition fresh_queue (category : CategoryType) : option (@queueBase nat string string _ _ * World nat) :=
  match newQueueBase (E := string) (GK := string) sample_options 0 2 category None (sample_world 0) with
  | Ok r => Some r
  | _ => None
  end.

Definition sample_queue : @queueBase nat string string _ _ :=
  mkQueue CategoryTypeImmediate (-1) (mkKey 0 1) (mkScope (mkRange (mkKey 0 1) MaximumKey) UniversalImpl) ∅ zeroTime.

Example sample_queue_fresh : fresh_queue CategoryTypeImmediate = Some (sample_queue, sample_world 0).
Proof. vm_compute. reflexivity. Qed.

Definition sample_config : config := mkConfig sample_queue (sample_world 0) (λ _, False) None.

Lemma sample_store_above : ∀ t, t ∈ sample_store → ¬ GetKey t <k mkKey 0 1.
Proof.
  intros t Ht. unfold sample_store in Ht.
  repeat (apply elem_of_cons in Ht as [-> |Ht]; [by_decide|]). by apply not_elem_of_nil in Ht.
Qed.

Lemma sample_config_inv : cfg_inv sample_store 0 sample_config.
Proof.
  assert (Hnone : ∀ s : @SliceImpl nat string string _ _, s ∉ all_slices (readerGroup sample_queue))
    by (intros s; apply not_elem_of_nil).
  split; [|intros t Ht Hk; by apply sample_store_above in Hk].
  split; simpl.
  - apply group_ok_empty.
  - exists (mkKey 0 1). split; [done|]. by_decide.
  - intros s Hs. by apply Hnone in Hs.
  - split; [apply key_le_refl|]. intros s Hs. by apply Hnone in Hs.
  - split; [|intros s t Hs; by apply Hnone in Hs]. intros t Ht Hk. by apply sample_store_above in Hk.
Qed.

Abbreviation sample_step :=
  (queue_step sample_provider sample_options 0 2 1 (λ x, x) sample_load 3 0 sample_store).

(** A range is read, and a checkpoint persists the queue. *)
Definition sample_run : option (@queueBase nat string string _ _ * @queueBase nat string string _ _ * pb_QueueState * World nat) :=
  match processNewRange sample_options 0 2 sample_queue (mkKey 0 9) (sample_world 0) with
  | Ok (p1, w1) =>
      match checkpoint sample_options 0 2 (checkpointAction sample_options 0 2 (λ x, x) 3 0) p1
              {| rangeComplete_fails := false; shardRangeID := 1 |} w1 with
      | Ok ((p2, eff), w2) =>
          match persisting eff with
          | Some (_, pb) =>
              match newQueueBase sample_options 0 2 (queue_category p2) (Some pb)
                      (mkWorld (nextSliceID w2) (newMonitor (queue_category p2)) 0 0%nat) with
              | Ok (p3, w3) => Some (p1, p3, pb, w3)
              | _ => None
              end
          | None => None
          end
      | _ => None
      end
  | _ => None
  end.

Lemma sample_run_watermark :
  match sample_run with
  | Some (_, p3, _, _) => InclusiveMin (ScopeRange (nonReadableScope p3)) = mkKey 0 9
  | None => False
  end.
Proof. vm_compute. reflexivity. Qed.

Lemma sample_run_steps p1 p3 pb w3 :
  sample_run = Some (p1, p3, pb, w3) → rtc sample_step sample_config (mkConfig p3 w3 (λ _, False) (Some pb)).
Proof.
  unfold sample_run.
  destruct (processNewRange _ _ _ _ _ _) as [[q1 w1]| |] eqn:E1; [|discriminate..].
  destruct (checkpoint _ _ _ _ _ _ _) as [[[q2 eff] w2]| |] eqn:E2; [|discriminate..].
  destruct (persisting eff) as [[c pb']|] eqn:E3; [|discriminate].
  destruct (newQueueBase _ _ _ _ _ _) as [[q3 w3']| |] eqn:E4; [|discriminate..].
  intros [= <- <- <- <-].
  eapply rtc_l; [refine (qs_range _ _ _ _ _ _ _ _ _ _ sample_queue (sample_world 0) (λ _, False) None (mkKey 0 9) q1 w1 _ E1); by_decide|].
  eapply rtc_l; [refine (qs_checkpoint _ _ _ _ _ _ _ _ _ _ q1 w1 (λ _, False) None _ q2 eff w2 (Some pb') E2 _); right; by exists c, pb'|].
  apply rtc_once. exact (qs_reload _ _ _ _ _ _ _ _ _ _ q2 w2 (λ _, False) (Some pb') _ _ q3 w3' E4).
Qed.

(** Across a checkpoint and a reload no task of the store is forgotten. *)
Lemma queue_never_loses_tasks_witness :
  ∃ c', rtc sample_step sample_config c' ∧
    InclusiveMin (ScopeRange (nonReadableScope (cfg_queue c'))) = mkKey 0 9 ∧
    ∀ t, t ∈ sample_store → ∃ s, s ∈ all_slices (readerGroup (cfg_queue c')) ∧ owes s t.
Proof.
  pose proof sample_run_watermark as Hhw.
  destruct sample_run as [[[[p1 p3] pb] w3]|] eqn:EQ; [|destruct Hhw].
  exists (mkConfig p3 w3 (λ _, False) (Some pb)).
  pose proof (sample_run_steps _ _ _ _ EQ) as Hr.
  split; [exact Hr|]. split; [exact Hhw|]. intros t Ht.
  destruct (queue_never_loses_tasks sample_provider sample_options 0 2 1 (λ x, x) sample_load 3 0 sample_store 0 sample_store_sorted
    sample_provider_ok (le_n 1) sample_config _ sample_config_inv Hr t Ht) as [_ Hex].
  destruct Hex as (s & Hs & Ho & _); [|intros []|exact (ex_intro _ s (conj Hs Ho))].
  simpl. rewrite Hhw. unfold sample_store in Ht.
  repeat (apply elem_of_cons in Ht as [-> |Ht]; [by_decide|]). by apply not_elem_of_nil in Ht.
Defined.

Lemma queue_steps_return_witness :
  cfg_inv sample_store 0 sample_config ∧
  ∃ p' eff w',
    checkpoint sample_options 0 2 (checkpointAction sample_options 0 2 (λ x, x) 3 0) (cfg_queue sample_config)
      {| rangeComplete_fails := false; shardRangeID := 1 |} (cfg_world sample_config)
      = Ok ((p', eff), w') ∧ effects_safe sample_store (cfg_done sample_config) eff.
Proof.
  split; [exact sample_config_inv|].
  exact (proj1 (proj2 (queue_steps_return sample_provider sample_options 0 2 1 (λ x, x) sample_load 3 0 sample_store 0 sample_store_sorted
    sample_provider_ok (le_n 1) sample_config sample_config sample_config_inv (rtc_refl _ _))) _).
Defined.
