(* ===== verification/ShardKeys.v ===== *)
(** * Task keys of a shard: [service/history/shard/task_key_generator.go],
    [task_key_manager.go], [task_request_tracker.go]

    A shard gives every task it writes a key and remembers which writes are not
    known to have ended.  From both it derives how far the queues may read: no task
    may appear later below the watermark.  The operations run under the
    shard's lock, except for the completion of a write. *)
From S2P Require Import Prelude TaskKey Monitor.
Local Open Scope Z_scope.

(** ** Categories and tasks *)

Record Category := mkCategory { category_id : Z; cType : CategoryType; category_name : string }.

#[export] Instance Category_eq_dec : EqDecision Category.
Proof. solve_decision. Defined.
#[export] Instance Category_countable : Countable Category.
Proof.
  refine (inj_countable'
    (λ c, (category_id c, match cType c with CategoryTypeImmediate => true | CategoryTypeScheduled => false end, category_name c))
    (λ p, mkCategory p.1.1 (if p.1.2 : bool then CategoryTypeImmediate else CategoryTypeScheduled) p.2) _).
  by intros [? [] ?].
Defined.

(** A task before and after it has its key; [task_body] is everything else in it. *)
Record HistoryTask := mkHistoryTask { GetTaskID : Z; GetVisibilityTime : time; task_body : nat }.

Definition task_GetKey (c : Category) (t : HistoryTask) : Key :=
  match cType c with
  | CategoryTypeImmediate => NewImmediateKey (GetTaskID t)
  | CategoryTypeScheduled => NewKey (GetVisibilityTime t) (GetTaskID t)
  end.

(** The arguments of a write: some maps, each given by its entries in the order
    in which Go happens to visit them. *)
Definition taskMap := list (Category * list HistoryTask).

(** ** Errors of persistence ([common/persistence/error_type.go]) *)

Inductive persistence_error :=
  | CurrentWorkflowConditionFailedError
  | WorkflowConditionFailedError
  | ConditionFailedError
  | ShardOwnershipLostError
  | InvalidPersistenceRequestError
  | TransactionSizeLimitError
  | AppendHistoryTimeoutError
  | ResourceExhausted
  | NotFound
  | NamespaceNotFound
  | OtherError (code : Z).

Definition OperationPossiblySucceeded (err : option persistence_error) : bool :=
  match err with
  | Some (OtherError _) | None => true
  | Some _ => false
  end.

(** ** The tracker of requests *)

Record taskRequestTracker := mkRequestTracker {
  pendingTaskKeys : gmap Category (gset Key);
  inflightRequestCount : Z;
  waitChannels : nat;
}.

Definition newTaskRequestTracker (registry : list Category) : taskRequestTracker :=
  mkRequestTracker (list_to_map (map (λ c, (c, ∅)) registry)) 0 0.

Definition min_of_tasks (c : Category) (ts : list HistoryTask) : Key :=
  foldl (λ minKey t, if CompareTo (task_GetKey c t) minKey <? 0 then task_GetKey c t else minKey) MaximumKey ts.

Definition add_min (acc : gmap Category Key) (e : Category * list HistoryTask) : gmap Category Key :=
  let '(category, ts) := e in
  let minKey := min_of_tasks category ts in
  if CompareTo minKey MaximumKey =? 0 then acc
  else match acc !! category with
       | None => <[category := minKey]> acc
       | Some k => <[category := MinKey k minKey]> acc
       end.
Definition minKeyByCategory (taskMaps : list taskMap) : gmap Category Key := foldl add_min ∅ (concat taskMaps).

(** [None] is the panic of a write to the nil map of a category that is not
    registered. *)
Fixpoint add_pending (l : list (Category * Key)) (p : gmap Category (gset Key)) : option (gmap Category (gset Key)) :=
  match l with
  | [] => Some p
  | (category, minKey) :: rest =>
      match p !! category with
      | None => None
      | Some ks => add_pending rest (<[category := {[minKey]} ∪ ks]> p)
      end
  end.

(** Also what the completion function remembers. *)
Definition track (t : taskRequestTracker) (taskMaps : list taskMap) : option (taskRequestTracker * gmap Category Key) :=
  let minKeys := minKeyByCategory taskMaps in
  p ← add_pending (map_to_list minKeys) (pendingTaskKeys t);
  Some (mkRequestTracker p (inflightRequestCount t + 1) (waitChannels t), minKeys).

Definition closeWaitChannelsLocked (t : taskRequestTracker) : taskRequestTracker :=
  mkRequestTracker (pendingTaskKeys t) (inflightRequestCount t) 0.

Definition remove_pending (minKeys : gmap Category Key) (p : gmap Category (gset Key)) : gmap Category (gset Key) :=
  foldr (λ ck p, alter (λ ks, ks ∖ {[ck.2]}) ck.1 p) p (map_to_list minKeys).

(** The [taskRequestCompletionFn] of a request. *)
Definition complete_request (t : taskRequestTracker) (minKeys : gmap Category Key) (writeErr : option persistence_error)
    : taskRequestTracker :=
  let p := if bool_decide (writeErr = None) || negb (OperationPossiblySucceeded writeErr)
           then remove_pending minKeys (pendingTaskKeys t) else pendingTaskKeys t in
  let t := mkRequestTracker p (inflightRequestCount t - 1) (waitChannels t) in
  if inflightRequestCount t =? 0 then closeWaitChannelsLocked t else t.

Definition minTaskKey (t : taskRequestTracker) (category : Category) : Key * bool :=
  let pendingTasksForCategory := default ∅ (pendingTaskKeys t !! category) in
  if bool_decide (pendingTasksForCategory = ∅) then (MinimumKey, false)
  else (foldl (λ minKey taskKey, if CompareTo taskKey minKey <? 0 then taskKey else minKey) MaximumKey
          (elements pendingTasksForCategory), true).

(** Whether the caller has to wait; it is then woken by [closeWaitChannelsLocked]. *)
Definition drain (t : taskRequestTracker) : taskRequestTracker * bool :=
  if inflightRequestCount t =? 0 then (t, false)
  else (mkRequestTracker (pendingTaskKeys t) (inflightRequestCount t) (S (waitChannels t)), true).

Definition clear (t : taskRequestTracker) : taskRequestTracker :=
  closeWaitChannelsLocked (mkRequestTracker ((λ _, ∅) <$> pendingTaskKeys t) 0 (waitChannels t)).

(** ** The generator *)

Definition taskIDUninitialized : Z := -1.
(** [persistence.ScheduledTaskMinPrecision], one millisecond. *)
Definition taskPrecision : Z := 1000000.

Record taskKeyGenerator := mkGenerator {
  nextTaskID : Z;
  exclusiveMaxTaskID : Z;
  taskMinScheduledTime : time;
  rangeSizeBits : Z;
}.

Definition newTaskKeyGenerator (bits : Z) : taskKeyGenerator :=
  mkGenerator taskIDUninitialized taskIDUninitialized zeroTime bits.

Definition peekTaskKey (g : taskKeyGenerator) (category : Category) : Key :=
  match cType category with
  | CategoryTypeImmediate => NewImmediateKey (nextTaskID g)
  | CategoryTypeScheduled => NewKey (taskMinScheduledTime g) (nextTaskID g)
  end.

Definition gen_setRangeID (g : taskKeyGenerator) (rangeID : Z) : taskKeyGenerator :=
  mkGenerator (wrap64 (Z.shiftl rangeID (rangeSizeBits g))) (wrap64 (Z.shiftl (wrap64 (rangeID + 1)) (rangeSizeBits g)))
    (taskMinScheduledTime g) (rangeSizeBits g).

Definition MaxTime (a b : time) : time := if b <? a then a else b.
Definition setTaskMinScheduledTime (g : taskKeyGenerator) (t : time) : taskKeyGenerator :=
  mkGenerator (nextTaskID g) (exclusiveMaxTaskID g) (MaxTime (taskMinScheduledTime g) t) (rangeSizeBits g).

(** ** The shard: both parts and the range ID it holds *)

Record ContextImpl := mkContext {
  generator : taskKeyGenerator;
  tracker : taskRequestTracker;
  RangeId : Z;
}.
Definition set_generator (s : ContextImpl) (g : taskKeyGenerator) : ContextImpl := mkContext g (tracker s) (RangeId s).
Definition set_tracker (s : ContextImpl) (t : taskRequestTracker) : ContextImpl := mkContext (generator s) t (RangeId s).

Definition newContext (registry : list Category) (bits rangeID : Z) : ContextImpl :=
  mkContext (newTaskKeyGenerator bits) (newTaskRequestTracker registry) rangeID.

(** [taskKeyManager.setRangeID]. *)
Definition setRangeID (s : ContextImpl) (rangeID : Z) : ContextImpl :=
  mkContext (gen_setRangeID (generator s) rangeID) (clear (tracker s)) rangeID.

(** A call on the shard: the state it leaves and how it ended.  [Waiting] is a
    call that has not returned, because requests are still in flight. *)
Inductive shard_error := Waiting | WriteFailed (e : persistence_error).
Definition Shard (A : Type) : Type := ContextImpl → ContextImpl * outcome shard_error A.
Definition sret {A} (a : A) : Shard A := λ s, (s, Ok a).
Definition sbind {A B} (m : Shard A) (f : A → Shard B) : Shard B := λ s,
  match m s with
  | (s, Ok a) => f a s
  | (s, Err e) => (s, Err e)
  | (s, Panic) => (s, Panic)
  end.

Declare Scope shard_scope.
Delimit Scope shard_scope with shard.
Notation "'let&' x ':=' c 'in' k" := (sbind c (fun x => k))
  (at level 10, x pattern, c at level 100, k at level 200) : shard_scope.
Local Open Scope shard_scope.

Section shard.
(** The answer of [UpdateShard] to a request for a range ID. *)
Context (UpdateShard : Z → option persistence_error).

Definition renewRangeLocked : Shard unit := λ s,
  let '(t, waits) := drain (tracker s) in
  if waits : bool then (set_tracker s t, Err Waiting)
  else
    let rangeID := wrap64 (RangeId s + 1) in
    match UpdateShard rangeID with
    | Some err => (set_tracker s t, Err (WriteFailed err))
    | None => (setRangeID (set_tracker s t) rangeID, Ok tt)
    end.

Definition exhausted (s : ContextImpl) : bool := nextTaskID (generator s) =? exclusiveMaxTaskID (generator s).

Definition take_id : Shard Z := λ s,
  let g := generator s in
  (set_generator s (mkGenerator (wrap64 (nextTaskID g + 1)) (exclusiveMaxTaskID g) (taskMinScheduledTime g) (rangeSizeBits g)),
   Ok (nextTaskID g)).

Definition generateTaskID : Shard Z := λ s,
  if nextTaskID (generator s) =? taskIDUninitialized then (s, Panic)
  else if exhausted s then
    (let& _ := renewRangeLocked in
     λ s, if exhausted s then (s, Panic) else take_id s) s
  else take_id s.

Definition generateTaskKey (category : Category) : Shard Key :=
  let& id := generateTaskID in
  λ s, (s, Ok match cType category with
              | CategoryTypeImmediate => NewImmediateKey id
              | CategoryTypeScheduled => NewKey (taskMinScheduledTime (generator s)) id
              end).

(** When a task is to fire: now, or the requested time rounded up to what
    persistence keeps, but not before the queues have read. *)
Definition scheduled_time (g : taskKeyGenerator) (category : Category) (now : time) (task : HistoryTask) : time :=
  match cType category with
  | CategoryTypeImmediate => now
  | CategoryTypeScheduled =>
      let t := Truncate (GetVisibilityTime task + taskPrecision) taskPrecision in
      if t <? taskMinScheduledTime g then taskMinScheduledTime g + taskPrecision else t
  end.

Definition set_key (now : time) (category : Category) (task : HistoryTask) : Shard HistoryTask :=
  let& id := generateTaskID in
  λ s, (s, Ok (mkHistoryTask id (scheduled_time (generator s) category now task) (task_body task))).

Fixpoint set_keys (now : time) (category : Category) (ts : list HistoryTask) : Shard (list HistoryTask) :=
  match ts with
  | [] => sret []
  | t :: ts =>
      let& t := set_key now category t in
      let& ts := set_keys now category ts in
      sret (t :: ts)
  end.
Fixpoint set_map_keys (now : time) (m : taskMap) : Shard taskMap :=
  match m with
  | [] => sret []
  | (category, ts) :: m =>
      let& ts := set_keys now category ts in
      let& m := set_map_keys now m in
      sret ((category, ts) :: m)
  end.
Fixpoint set_maps_keys (now : time) (ms : list taskMap) : Shard (list taskMap) :=
  match ms with
  | [] => sret []
  | m :: ms =>
      let& m := set_map_keys now m in
      let& ms := set_maps_keys now ms in
      sret (m :: ms)
  end.

Definition setTaskKeys (now : time) (taskMaps : list taskMap) : Shard (list taskMap) := λ s,
  set_maps_keys now taskMaps (set_generator s (setTaskMinScheduledTime (generator s) (Truncate now taskPrecision))).

(** The tasks with their keys, and what the completion function needs. *)
Definition setAndTrackTaskKeys (now : time) (taskMaps : list taskMap) : Shard (list taskMap * gmap Category Key) :=
  let& taskMaps := setTaskKeys now taskMaps in
  λ s, match track (tracker s) taskMaps with
       | None => (s, Panic)
       | Some (t, minKeys) => (set_tracker s t, Ok (taskMaps, minKeys))
       end.
End shard.

(** [maxTimeShift] is [TimerProcessorMaxTimeShift]. *)
Definition getExclusiveReaderHighWatermark (maxTimeShift : Z) (now : time) (category : Category) (s : ContextImpl)
    : ContextImpl * Key :=
  let minKey := let '(k, ok) := minTaskKey (tracker s) category in if ok : bool then k else MaximumKey in
  let g := setTaskMinScheduledTime (generator s) (Truncate (now + maxTimeShift) taskPrecision) in
  let watermark := MinKey minKey (peekTaskKey g category) in
  (set_generator s g,
   match cType category with
   | CategoryTypeScheduled => mkKey (Truncate (FireTime watermark) taskPrecision) 0
   | CategoryTypeImmediate => watermark
   end).
