(* ===== verification/ShardSafety.v ===== *)
(** * No task appears below a watermark

    The shard as a step relation: writes begin, may take effect in the database
    at any time while their range ID is the one stored there, and end with or
    without a known result; the range is renewed or stolen; watermarks are
    handed out. *)
From S2P Require Import Prelude TaskKey Monitor ShardKeys.
Local Open Scope Z_scope.
Local Open Scope key_scope.

(** ** Writes and steps *)

Inductive request_state := InFlight | Unknown | Done.
#[export] Instance request_state_eq_dec : EqDecision request_state.
Proof. solve_decision. Defined.

(** A write: its tasks, the range ID it is conditioned on, what its completion
    remembers, and whether it has taken effect. *)
Record request := mkRequest {
  rq_tasks : list (Category * HistoryTask);
  rq_range : Z;
  rq_minKeys : gmap Category Key;
  rq_state : request_state;
  rq_written : bool;
}.
Definition set_written (r : request) : request :=
  mkRequest (rq_tasks r) (rq_range r) (rq_minKeys r) (rq_state r) true.
Definition set_state (r : request) (st : request_state) : request :=
  mkRequest (rq_tasks r) (rq_range r) (rq_minKeys r) st (rq_written r).

Record shard := mkShard {
  context : ContextImpl;
  db_range : Z;
  db_tasks : list (Category * HistoryTask);
  requests : list request;
}.

Definition flatten (ms : list taskMap) : list (Category * HistoryTask) :=
  concat (map (λ e, (λ t, (e.1, t)) <$> e.2) (concat ms)).

(** The end of a write as the database allows it: a success has been written, an
    error that rules the write out has not. *)
Definition answer_ok (r : request) (err : option persistence_error) : Prop :=
  match err with
  | None => rq_written r = true
  | Some e => OperationPossiblySucceeded (Some e) = false → rq_written r = false
  end.
Definition state_after (err : option persistence_error) : request_state :=
  match err with
  | Some e => if OperationPossiblySucceeded (Some e) then Unknown else Done
  | None => Done
  end.

(** The database's range ID after a call that moved the shard's from [a] to
    [b]: a renewal succeeds only on a matching range, and one without an answer may
    have happened; another owner may have taken over since. *)
Definition db_follows (a b d d' : Z) : Prop := d ≤ d' ∧ b ≤ d' ∧ (a < b → d = a).

(** The task IDs of a range fit in 64 bits, and the database grants no other range. *)
Definition range_fits (bits rangeID : Z) : Prop := 0 ≤ rangeID ∧ (rangeID + 1) * 2 ^ bits ≤ MaxInt64.
Definition grants_fit (s : ContextImpl) (UpdateShard : Z → option persistence_error) : Prop :=
  ∀ r, UpdateShard r = None → range_fits (rangeSizeBits (generator s)) r.

Section steps.
Context (maxTimeShift : Z).

Inductive shard_step : shard → shard → Prop :=
  | sh_begin U s d db rqs now ms s' d' ms' minKeys :
      setAndTrackTaskKeys U now ms s = (s', Ok (ms', minKeys)) →
      grants_fit s U → db_follows (RangeId s) (RangeId s') d d' →
      shard_step (mkShard s d db rqs)
        (mkShard s' d' db (mkRequest (flatten ms') (RangeId s') minKeys InFlight false :: rqs))
  | sh_begin_fails U s d db rqs now ms s' d' e :
      setAndTrackTaskKeys U now ms s = (s', Err e) →
      grants_fit s U → db_follows (RangeId s) (RangeId s') d d' →
      shard_step (mkShard s d db rqs) (mkShard s' d' db rqs)
  | sh_generate U s d db rqs c s' d' o :
      generateTaskKey U c s = (s', o) → o ≠ Panic →
      grants_fit s U → db_follows (RangeId s) (RangeId s') d d' →
      shard_step (mkShard s d db rqs) (mkShard s' d' db rqs)
  | sh_renew U s d db rqs s' d' o :
      renewRangeLocked U s = (s', o) →
      grants_fit s U → db_follows (RangeId s) (RangeId s') d d' →
      shard_step (mkShard s d db rqs) (mkShard s' d' db rqs)
  | sh_write s d db rqs1 r rqs2 :
      rq_state r ≠ Done → rq_written r = false → rq_range r = d →
      shard_step (mkShard s d db (rqs1 ++ r :: rqs2))
        (mkShard s d (db ++ rq_tasks r) (rqs1 ++ set_written r :: rqs2))
  | sh_complete s d db rqs1 r rqs2 err :
      rq_state r = InFlight → answer_ok r err →
      shard_step (mkShard s d db (rqs1 ++ r :: rqs2))
        (mkShard (set_tracker s (complete_request (tracker s) (rq_minKeys r) err)) d db
           (rqs1 ++ set_state r (state_after err) :: rqs2))
  | sh_min_time s d db rqs t :
      shard_step (mkShard s d db rqs) (mkShard (set_generator s (setTaskMinScheduledTime (generator s) t)) d db rqs)
  | sh_watermark s d db rqs now c s' k :
      getExclusiveReaderHighWatermark maxTimeShift now c s = (s', k) →
      shard_step (mkShard s d db rqs) (mkShard s' d db rqs)
  | sh_stolen s d db rqs d' :
      d ≤ d' → shard_step (mkShard s d db rqs) (mkShard s d' db rqs).
End steps.

(** ** The generator and the range *)

Definition pend (t : taskRequestTracker) (c : Category) : gset Key := default ∅ (pendingTaskKeys t !! c).

Record gen_inv (s : ContextImpl) : Prop := {
  gi_bits : 0 ≤ rangeSizeBits (generator s);
  gi_range : range_fits (rangeSizeBits (generator s)) (RangeId s);
  gi_ids : (nextTaskID (generator s) = -1 ∧ exclusiveMaxTaskID (generator s) = -1) ∨
           (0 ≤ nextTaskID (generator s) ≤ exclusiveMaxTaskID (generator s) ∧
            exclusiveMaxTaskID (generator s) = (RangeId s + 1) * 2 ^ rangeSizeBits (generator s));
}.

(** What a call that assigns keys does to the shard. *)
Record advances (s s' : ContextImpl) : Prop := {
  ad_bits : rangeSizeBits (generator s') = rangeSizeBits (generator s);
  ad_min : taskMinScheduledTime (generator s) ≤ taskMinScheduledTime (generator s');
  ad_next : nextTaskID (generator s) ≤ nextTaskID (generator s');
  ad_range : (RangeId s' = RangeId s ∧ pendingTaskKeys (tracker s') = pendingTaskKeys (tracker s) ∧
              inflightRequestCount (tracker s') = inflightRequestCount (tracker s)) ∨
             (RangeId s < RangeId s' ∧ inflightRequestCount (tracker s) = 0 ∧ inflightRequestCount (tracker s') = 0 ∧
              ∀ c, pend (tracker s') c = ∅);
}.

#[export] Instance advances_preorder : PreOrder advances.
Proof.
  split.
  - intros s. split; [done|lia|lia|by left].
  - intros s1 s2 s3 [B1 M1 N1 R1] [B2 M2 N2 R2]. split; [congruence|lia|lia|]. unfold pend in *.
    destruct R1 as [(R1 & P1 & I1)|(R1 & I1 & I1' & P1)], R2 as [(R2 & P2 & I2)|(R2 & I2 & I2' & P2)].
    + left. split_and!; congruence.
    + right. split_and!; [lia|lia|lia|done].
    + right. split_and!; [lia|lia|lia|]. intros c. rewrite P2. apply P1.
    + right. split_and!; [lia|lia|lia|done].
Qed.

(** A call that returns [a] has done [R a]. *)
Definition runs {A} (m : Shard A) (R : A → ContextImpl → ContextImpl → Prop) (U : Z → option persistence_error) : Prop :=
  ∀ s s' o, gen_inv s → grants_fit s U → m s = (s', o) → advances s s' ∧ gen_inv s' ∧ ∀ a, o = Ok a → R a s s'.

Lemma grants_fit_adv s s' U : advances s s' → grants_fit s U → grants_fit s' U.
Proof. intros [B _ _ _] Hg r Hr. rewrite B. by apply Hg. Qed.

Lemma runs_bind {A B} (m : Shard A) (f : A → Shard B) U R1 R2 R :
  runs m R1 U → (∀ a, runs (f a) (R2 a) U) →
  (∀ a b s s1 s', advances s s1 → advances s1 s' → R1 a s s1 → R2 a b s1 s' → R b s s') →
  runs (sbind m f) R U.
Proof.
  intros Hm Hf HR s s' o Hi Hg EQ. unfold sbind in EQ. destruct (m s) as [s1 [a|e|]] eqn:Em.
  - destruct (Hm _ _ _ Hi Hg Em) as (A1 & I1 & H1).
    destruct (Hf a _ _ _ I1 (grants_fit_adv _ _ _ A1 Hg) EQ) as (A2 & I2 & H2).
    split; [by etrans|]. split; [done|]. intros b Hb. eapply HR; eauto.
  - injection EQ as -> <-. destruct (Hm _ _ _ Hi Hg Em) as (A1 & I1 & _). done.
  - injection EQ as -> <-. destruct (Hm _ _ _ Hi Hg Em) as (A1 & I1 & _). done.
Qed.

Lemma runs_ret {A} (a : A) U (R : A → ContextImpl → ContextImpl → Prop) : (∀ s, R a s s) → runs (sret a) R U.
Proof. intros HR s s' o Hi _ [= <- <-]. split; [done|]. split; [done|]. by intros ? [= <-]. Qed.

Lemma range_fits_wrap bits r : 0 ≤ bits → range_fits bits r → wrap64 (r + 1) = r + 1.
Proof.
  intros Hb [H0 H1]. apply wrap64_id. int_bounds. assert (1 ≤ 2 ^ bits) by (apply (Z.pow_le_mono_r 2 0 bits); lia). nia.
Qed.

Lemma gen_setRangeID_ids g r :
  0 ≤ rangeSizeBits g → range_fits (rangeSizeBits g) r →
  nextTaskID (gen_setRangeID g r) = r * 2 ^ rangeSizeBits g ∧
  exclusiveMaxTaskID (gen_setRangeID g r) = (r + 1) * 2 ^ rangeSizeBits g.
Proof.
  intros Hb Hr. unfold gen_setRangeID. simpl. rewrite (range_fits_wrap _ _ Hb Hr), !Z.shiftl_mul_pow2 by done.
  destruct Hr as [H0 H1]. assert (1 ≤ 2 ^ rangeSizeBits g) by (apply (Z.pow_le_mono_r 2 0); lia).
  set (p := 2 ^ rangeSizeBits g) in *. assert (0 ≤ r * p) by (apply Z.mul_nonneg_nonneg; lia).
  assert ((r + 1) * p = r * p + p) by lia. split; apply wrap64_id; int_bounds; lia.
Qed.

Lemma renewRangeLocked_runs U :
  runs (renewRangeLocked U) (λ _ _ s', nextTaskID (generator s') < exclusiveMaxTaskID (generator s')) U.
Proof.
  intros s s' o [B R I] Hg EQ. unfold renewRangeLocked, drain in EQ.
  destruct (inflightRequestCount (tracker s) =? 0) eqn:E0; simpl in EQ.
  2: { injection EQ as <- <-. split; [split; simpl; [done|lia|lia|by left]|]. split; [by split|done]. }
  apply Z.eqb_eq in E0. rewrite (range_fits_wrap _ _ B R) in EQ. destruct (U (RangeId s + 1)) as [e|] eqn:EU; injection EQ as <- <-.
  { split; [split; simpl; [done|lia|lia|by left]|]. split; [by split|done]. }
  pose proof (Hg _ EU) as Hfit. destruct (gen_setRangeID_ids (generator s) (RangeId s + 1) B Hfit) as [En Em].
  assert (Hp : 1 ≤ 2 ^ rangeSizeBits (generator s)) by (apply (Z.pow_le_mono_r 2 0); lia).
  destruct R as [R0 R1]. split; [|split].
  - split; [done|simpl; lia| |].
    + cbn [generator setRangeID set_tracker]. rewrite En. destruct I as [[? _]|[? ?]]; nia.
    + right. cbn [RangeId setRangeID tracker set_tracker]. split; [lia|]. split; [done|]. split; [done|].
      intros c. unfold pend. simpl. rewrite lookup_fmap. by destruct (pendingTaskKeys (tracker s) !! c).
  - split; [done|done|]. right. cbn [generator setRangeID set_tracker RangeId]. rewrite En, Em. simpl.
    split; [|done]. nia.
  - intros [] _. cbn [generator setRangeID set_tracker]. rewrite En, Em. nia.
Qed.

(** An ID is new, and a scheduled task fires no earlier than the queues have read. *)
Definition keyed (s s' : ContextImpl) (c : Category) (t : HistoryTask) : Prop :=
  0 ≤ GetTaskID t ∧ nextTaskID (generator s) ≤ GetTaskID t < nextTaskID (generator s') ∧
  (cType c = CategoryTypeScheduled → taskMinScheduledTime (generator s) ≤ GetVisibilityTime t).

Lemma keyed_mono s0 s s' s'' c t : advances s0 s → advances s' s'' → keyed s s' c t → keyed s0 s'' c t.
Proof. intros [_ M1 N1 _] [_ _ N2 _] (K1 & K2 & K3). split; [done|]. split; [lia|]. intros Hc. specialize (K3 Hc). lia. Qed.

Lemma keyed_l s0 s s' c t : advances s0 s → keyed s s' c t → keyed s0 s' c t.
Proof. intros A. by apply keyed_mono. Qed.
Lemma keyed_r s s' s'' c t : advances s' s'' → keyed s s' c t → keyed s s'' c t.
Proof. intros A. by apply keyed_mono. Qed.

Lemma take_id_runs U s s' o :
  gen_inv s → nextTaskID (generator s) ≠ -1 → nextTaskID (generator s) < exclusiveMaxTaskID (generator s) → grants_fit s U →
  take_id s = (s', o) →
  advances s s' ∧ gen_inv s' ∧ ∀ id, o = Ok id → 0 ≤ id ∧ nextTaskID (generator s) ≤ id < nextTaskID (generator s').
Proof.
  intros [B R I] Hn Hlt _ EQ. unfold take_id in EQ. injection EQ as <- <-.
  destruct I as [[? _]|[I1 I2]]; [done|].
  assert (Hw : wrap64 (nextTaskID (generator s) + 1) = nextTaskID (generator s) + 1).
  { apply wrap64_id. destruct R. int_bounds. lia. }
  split; [split; simpl; [done|lia|lia|by left]|]. split.
  - split; simpl; [done|done|]. right. rewrite Hw. split; [lia|done].
  - intros id [= <-]. simpl. rewrite Hw. lia.
Qed.

Lemma generateTaskID_runs U :
  runs (generateTaskID U) (λ id s s', 0 ≤ id ∧ nextTaskID (generator s) ≤ id < nextTaskID (generator s')) U.
Proof.
  intros s s' o Hi Hg EQ. unfold generateTaskID in EQ.
  destruct (nextTaskID (generator s) =? taskIDUninitialized) eqn:E1; bool_to_prop.
  { injection EQ as <- <-. by split. }
  unfold taskIDUninitialized in E1. destruct (exhausted s) eqn:E2.
  - unfold sbind in EQ. destruct (renewRangeLocked U s) as [s1 [[]|e|]] eqn:Er;
      destruct (renewRangeLocked_runs U _ _ _ Hi Hg Er) as (A1 & I1 & H1); [|injection EQ as <- <-; by split..].
    specialize (H1 () eq_refl). simpl in H1. unfold exhausted in EQ.
    replace (nextTaskID (generator s1) =? exclusiveMaxTaskID (generator s1)) with false in EQ by (symmetry; apply Z.eqb_neq; lia).
    destruct (take_id_runs U s1 s' o I1) as (A2 & I2 & H2); [|lia|by eapply grants_fit_adv|done|].
    { destruct A1 as [_ _ N1 _]. destruct Hi as [_ _ [[? _]|?]]; lia. }
    split; [by etrans|]. split; [done|]. intros id Hid. destruct (H2 id Hid). destruct A1 as [_ _ N1 _]. lia.
  - unfold exhausted in E2. apply Z.eqb_neq in E2. eapply (take_id_runs U); try done.
    destruct Hi as [_ _ [[? _]|?]]; lia.
Qed.

Lemma generateTaskKey_runs U c : runs (generateTaskKey U c) (λ _ _ _, True) U.
Proof.
  eapply runs_bind; [apply generateTaskID_runs| |done]. intros id s s' o Hi _ [= <- <-]. split; [done|].
  split; [done|]. instantiate (1 := λ _ _ _ _, True). done.
Qed.

Lemma Truncate_le t d : 0 < d → Truncate t d ≤ t.
Proof. intros Hd. unfold Truncate. pose proof (Z.mod_pos_bound t d Hd). lia. Qed.
Lemma Truncate_ge t d k : 0 < d → k mod d = 0 → k ≤ t → k ≤ Truncate t d.
Proof.
  intros Hd Hk Hle. unfold Truncate. pose proof (Z.div_mod t d ltac:(lia)). pose proof (Z.div_mod k d ltac:(lia)).
  assert (k / d ≤ t / d) by (apply Z.div_le_mono; lia). nia.
Qed.
Lemma Truncate_mod t d : 0 < d → Truncate t d mod d = 0.
Proof. intros Hd. unfold Truncate. rewrite Zminus_mod, Z.mod_mod, Z.sub_diag by lia. apply Z.mod_0_l. lia. Qed.

Lemma scheduled_time_min g c now t :
  cType c = CategoryTypeScheduled → taskMinScheduledTime g ≤ scheduled_time g c now t.
Proof. intros Hc. unfold scheduled_time. rewrite Hc. unfold taskPrecision. split_ifs; bool_to_prop; lia. Qed.

Lemma set_key_runs U now c t : runs (set_key U now c t) (λ t' s s', keyed s s' c t') U.
Proof.
  eapply (runs_bind _ _ _ _ (λ id t' s s', s' = s ∧ t' = mkHistoryTask id (scheduled_time (generator s) c now t) (task_body t)));
    [apply generateTaskID_runs| |].
  - intros id s s' o Hi _ [= <- <-]. split; [done|]. split; [done|]. by intros ? [= <-].
  - intros id t' s s1 s' A1 _ [H1 H2] [-> ->]. split; [done|]. split; [done|]. intros Hc. simpl.
    pose proof (scheduled_time_min (generator s1) c now t Hc). destruct A1. lia.
Qed.

(** A loop that collects [g x] for what the calls return; [P] holds of each. *)
Lemma runs_cons {A B} (g : A → B) (P : ContextImpl → ContextImpl → B → Prop) (m : Shard A) (ms : Shard (list B)) U :
  (∀ s0 s s' x, advances s0 s → P s s' x → P s0 s' x) → (∀ s s' s'' x, advances s' s'' → P s s' x → P s s'' x) →
  runs m (λ x s s', P s s' (g x)) U → runs ms (λ xs s s', Forall (P s s') xs) U →
  runs (sbind m (λ x, sbind ms (λ xs, sret (g x :: xs)))) (λ xs s s', Forall (P s s') xs) U.
Proof.
  intros Hl Hr Hm Hms.
  eapply (runs_bind _ _ _ _ (λ x xs s s', ∃ xs', xs = g x :: xs' ∧ Forall (P s s') xs')); [exact Hm| |].
  - intros x. eapply (runs_bind _ _ _ _ (λ xs' xs _ _, xs = g x :: xs')); [exact Hms|intros; by apply runs_ret|].
    intros xs' xs s s1 s' A1 A2 HF ->. exists xs'. split; [done|]. eapply Forall_impl; [exact HF|]. intros y. by apply Hr.
  - intros x xs s s1 s' A1 A2 Hk (xs' & -> & HF). constructor; [by eapply Hr|].
    eapply Forall_impl; [exact HF|]. intros y. by apply Hl.
Qed.

Definition entry_keyed (s s' : ContextImpl) (e : Category * list HistoryTask) : Prop := Forall (keyed s s' e.1) e.2.

Lemma entry_keyed_l s0 s s' e : advances s0 s → entry_keyed s s' e → entry_keyed s0 s' e.
Proof. intros A HF. eapply Forall_impl; [exact HF|]. intros t. by apply keyed_l. Qed.
Lemma entry_keyed_r s s' s'' e : advances s' s'' → entry_keyed s s' e → entry_keyed s s'' e.
Proof. intros A HF. eapply Forall_impl; [exact HF|]. intros t. by apply keyed_r. Qed.

Lemma set_keys_runs U now c ts : runs (set_keys U now c ts) (λ ts' s s', Forall (keyed s s' c) ts') U.
Proof.
  induction ts as [|t ts IH]; cbn [set_keys]; [apply runs_ret; by constructor|].
  apply (runs_cons id (λ s s', keyed s s' c)); [intros; by eapply keyed_l|intros; by eapply keyed_r|apply set_key_runs|done].
Qed.

Lemma set_map_keys_runs U now m : runs (set_map_keys U now m) (λ m' s s', Forall (entry_keyed s s') m') U.
Proof.
  induction m as [|[c ts] m IH]; cbn [set_map_keys]; [apply runs_ret; by constructor|].
  apply (runs_cons (λ ts, (c, ts)) entry_keyed); [apply entry_keyed_l|apply entry_keyed_r|apply set_keys_runs|done].
Qed.

Lemma set_maps_keys_runs U now ms :
  runs (set_maps_keys U now ms) (λ ms' s s', Forall (λ m, Forall (entry_keyed s s') m) ms') U.
Proof.
  induction ms as [|m ms IH]; cbn [set_maps_keys]; [apply runs_ret; by constructor|].
  apply (runs_cons id (λ s s' m, Forall (entry_keyed s s') m)); [| |apply set_map_keys_runs|done];
    intros ? ? ? ? A HF; (eapply Forall_impl; [exact HF|]); intros e; [by apply entry_keyed_l|by apply entry_keyed_r].
Qed.

Lemma flatten_elem ms c t : (c, t) ∈ flatten ms ↔ ∃ m ts, m ∈ ms ∧ (c, ts) ∈ m ∧ t ∈ ts.
Proof.
  unfold flatten. rewrite list_elem_of_In, in_concat. setoid_rewrite in_map_iff. split.
  - intros (l & ([c' ts] & <- & Hin) & Ht). apply list_elem_of_In, list_elem_of_fmap in Ht as (t' & [= -> ->] & Ht).
    apply in_concat in Hin as (m & Hm & Hin). apply list_elem_of_In in Hm, Hin. by exists m, ts.
  - intros (m & ts & Hm & Hin & Ht). exists ((λ t, (c, t)) <$> ts). split; [|apply list_elem_of_In; by apply list_elem_of_fmap_2].
    exists (c, ts). split; [done|]. apply in_concat. exists m. by split; apply list_elem_of_In.
Qed.

Lemma setTaskKeys_runs U now ms :
  runs (setTaskKeys U now ms) (λ ms' s s', ∀ c t, (c, t) ∈ flatten ms' → keyed s s' c t) U.
Proof.
  intros s s' o Hi Hg EQ. unfold setTaskKeys in EQ. set (s1 := set_generator s _) in EQ.
  assert (A1 : advances s s1).
  { split; [done| |done|by left]. simpl. unfold MaxTime. split_ifs; bool_to_prop; lia. }
  assert (I1 : gen_inv s1) by (by destruct Hi).
  destruct (set_maps_keys_runs U now ms s1 s' o I1 Hg EQ) as (A2 & I2 & HF).
  split; [by etrans|]. split; [done|]. intros ms' -> c t (m & ts & Hm & Hin & Ht)%flatten_elem.
  specialize (HF ms' eq_refl). rewrite Forall_forall in HF. specialize (HF m Hm). rewrite Forall_forall in HF.
  specialize (HF _ Hin). unfold entry_keyed in HF. rewrite Forall_forall in HF. eapply keyed_l; [exact A1|]. by apply HF.
Qed.

(** ** The tracker *)

Lemma MaxKey_or_below k : (CompareTo k MaximumKey =? 0) = true → k = MaximumKey.
Proof. intros ?%Z.eqb_eq. by apply CompareTo_eq. Qed.

(** The least of some keys, or [MaximumKey]. *)
Lemma fold_min (l : list Key) k0 :
  let k := foldl (λ m x, if CompareTo x m <? 0 then x else m) k0 l in
  k ≤k k0 ∧ (∀ x, x ∈ l → k ≤k x) ∧ (k = k0 ∨ k ∈ l).
Proof.
  revert k0. induction l as [|x l IH]; intros k0; simpl.
  { split; [apply key_le_refl|]. split; [by intros y ?%not_elem_of_nil|by left]. }
  destruct (IH (if CompareTo x k0 <? 0 then x else k0)) as (I1 & I2 & I3).
  set (k1 := if CompareTo x k0 <? 0 then x else k0) in *.
  assert (Hk1 : k1 ≤k k0 ∧ k1 ≤k x ∧ (k1 = k0 ∨ k1 = x)).
  { subst k1. destruct (CompareTo x k0 <? 0) eqn:E; bool_to_prop.
    - apply CompareTo_lt in E. split; [by apply key_lt_le|]. split; [apply key_le_refl|by right].
    - apply CompareTo_ge in E. split; [apply key_le_refl|]. split; [done|by left]. }
  destruct Hk1 as (K1 & K2 & K3). split; [by eapply key_le_trans|]. split.
  - intros y [-> |Hy]%elem_of_cons; [by eapply key_le_trans|by apply I2].
  - destruct I3 as [-> |I3]; [destruct K3 as [-> | ->]|]; [by left|right; left|right; by right].
Qed.

Lemma min_of_tasks_spec c ts :
  min_of_tasks c ts ≤k MaximumKey ∧ (∀ t, t ∈ ts → min_of_tasks c ts ≤k task_GetKey c t) ∧
  (min_of_tasks c ts = MaximumKey ∨ ∃ t, t ∈ ts ∧ min_of_tasks c ts = task_GetKey c t).
Proof.
  assert (E : min_of_tasks c ts = foldl (λ m x, if CompareTo x m <? 0 then x else m) MaximumKey (task_GetKey c <$> ts)).
  { unfold min_of_tasks. generalize MaximumKey. induction ts as [|t ts IH]; intros k; [done|]. rewrite fmap_cons. simpl. apply IH. }
  destruct (fold_min (task_GetKey c <$> ts) MaximumKey) as (F1 & F2 & F3). rewrite <- E in *. split; [done|]. split.
  - intros t Ht. apply F2. by apply list_elem_of_fmap_2.
  - destruct F3 as [?|(t & ? & ?)%list_elem_of_fmap]; [by left|right; by exists t].
Qed.

(** What [minKeyByCategory] collects from the entries [l] on top of [acc]. *)
Lemma add_mins_spec (l : taskMap) acc :
  let res := foldl add_min acc l in
  (∀ c k, res !! c = Some k → acc !! c = Some k ∨ ∃ ts t, (c, ts) ∈ l ∧ t ∈ ts ∧ k = task_GetKey c t) ∧
  (∀ c k, acc !! c = Some k → ∃ k', res !! c = Some k' ∧ k' ≤k k) ∧
  (∀ c ts t, (c, ts) ∈ l → t ∈ ts → MaximumKey ≤k task_GetKey c t ∨ ∃ k', res !! c = Some k' ∧ k' ≤k task_GetKey c t).
Proof.
  revert acc. induction l as [|[c0 ts0] l IH]; intros acc; cbn [foldl].
  { split; [by left|]. split; [intros c k Hk; exists k; split; [done|apply key_le_refl]|]. by intros c ts t ?%not_elem_of_nil. }
  destruct (IH (add_min acc (c0, ts0))) as (I1 & I2 & I3). clear IH.
  set (res := foldl add_min (add_min acc (c0, ts0)) l) in *.
  destruct (min_of_tasks_spec c0 ts0) as (M1 & M2 & M3). cbn [add_min] in *.
  set (mk := min_of_tasks c0 ts0) in *.
  destruct (CompareTo mk MaximumKey =? 0) eqn:Emax.
  { apply MaxKey_or_below in Emax. split; [|split].
    - intros c k Hk. destruct (I1 c k Hk) as [?|(ts & t & ? & ?)]; [by left|right]. exists ts, t. split; [by right|done].
    - done.
    - intros c ts t [[= -> ->]|Hin]%elem_of_cons Ht; [left; rewrite <- Emax; by apply M2|by eapply I3]. }
  assert (Hmk : ∃ t, t ∈ ts0 ∧ mk = task_GetKey c0 t).
  { destruct M3 as [E|?]; [|done]. exfalso. apply Z.eqb_neq in Emax. apply Emax. by apply CompareTo_eq. }
  destruct Hmk as (t0 & Ht0 & Emk). clearbody mk.
  assert (Hnew : ∃ k0, <[c0 := k0]> acc = match acc !! c0 with None => <[c0 := mk]> acc | Some k => <[c0 := MinKey k mk]> acc end ∧
    k0 ≤k mk ∧ (∀ k, acc !! c0 = Some k → k0 ≤k k) ∧ (acc !! c0 = Some k0 ∨ k0 = mk)).
  { destruct (acc !! c0) as [k|]; [|exists mk; split; [done|]; split; [apply key_le_refl|]; split; [done|by right]].
    exists (MinKey k mk). split; [done|]. destruct (key_le_total k mk) as [Hle|Hle].
    - rewrite MinKey_l by done. split; [done|]. split; [intros ? [= ->]; apply key_le_refl|by left].
    - rewrite MinKey_r by done. split; [apply key_le_refl|]. split; [by intros ? [= ->]|by right]. }
  destruct Hnew as (k0 & Heq & K1 & K2 & K3). rewrite <- Heq in *. clear Heq. split; [|split].
  - intros c k Hk. destruct (I1 c k Hk) as [[(-> & ->)|(Hne & ?)]%lookup_insert_Some|(ts & t & ? & ?)].
    + destruct K3 as [?| ->]; [by left|right]. exists ts0, t0. split; [left|done].
    + by left.
    + right. exists ts, t. split; [by right|done].
  - intros c k Hk. destruct (decide (c = c0)) as [-> |Hne].
    + destruct (I2 c0 k0) as (k' & Hk' & Hle); [by rewrite lookup_insert_eq|]. exists k'. split; [done|].
      eapply key_le_trans; [exact Hle|]. by apply K2.
    + apply I2. by rewrite lookup_insert_ne.
  - intros c ts t [[= -> ->]|Hin]%elem_of_cons Ht; [|by eapply I3]. right.
    destruct (I2 c0 k0) as (k' & Hk' & Hle); [by rewrite lookup_insert_eq|]. exists k'. split; [done|].
    eapply key_le_trans; [exact Hle|]. eapply key_le_trans; [exact K1|]. by apply M2.
Qed.

Lemma minKeyByCategory_spec ms :
  (∀ c k, minKeyByCategory ms !! c = Some k → ∃ t, (c, t) ∈ flatten ms ∧ k = task_GetKey c t) ∧
  (∀ c t, (c, t) ∈ flatten ms →
     (∃ k, minKeyByCategory ms !! c = Some k ∧ k ≤k task_GetKey c t) ∨ MaximumKey ≤k task_GetKey c t).
Proof.
  destruct (add_mins_spec (concat ms) ∅) as (S1 & _ & S3). fold (minKeyByCategory ms) in *.
  assert (Hc : ∀ e, e ∈ concat ms ↔ ∃ m, m ∈ ms ∧ e ∈ m).
  { intros e. rewrite list_elem_of_In, in_concat. by setoid_rewrite list_elem_of_In. }
  split.
  - intros c k Hk. destruct (S1 c k Hk) as [Hk'|(ts & t & (m & Hm & Hin)%Hc & Ht & ->)]; [by rewrite lookup_empty in Hk'|].
    exists t. split; [|done]. apply flatten_elem. by exists m, ts.
  - intros c t (m & ts & Hm & Hin & Ht)%flatten_elem. destruct (S3 c ts t) as [?|?]; [apply Hc; by exists m|done|by right|by left].
Qed.

Lemma add_pending_spec l (p p' : gmap Category (gset Key)) :
  add_pending l p = Some p' →
  ∀ c k, k ∈ (default ∅ (p' !! c) : gset Key) ↔ k ∈ (default ∅ (p !! c) : gset Key) ∨ (c, k) ∈ l.
Proof.
  revert p. induction l as [|[c0 k0] l IH]; cbn [add_pending]; intros p EQ c k.
  { injection EQ as ->. rewrite elem_of_nil. tauto. }
  destruct (p !! c0) as [ks|] eqn:E; [|done]. rewrite (IH _ EQ c k), elem_of_cons.
  destruct (decide (c = c0)) as [-> |Hne]; [rewrite lookup_insert_eq, E|rewrite lookup_insert_ne by done]; simpl; set_solver.
Qed.

Lemma remove_pending_spec m (p : gmap Category (gset Key)) c k :
  k ∈ (default ∅ (remove_pending m p !! c) : gset Key) ↔ k ∈ (default ∅ (p !! c) : gset Key) ∧ m !! c ≠ Some k.
Proof.
  unfold remove_pending. assert (Hm : m !! c = Some k ↔ (c, k) ∈ map_to_list m) by (by rewrite elem_of_map_to_list).
  rewrite Hm. clear Hm. induction (map_to_list m) as [|[c0 k0] l IH]; simpl.
  { rewrite elem_of_nil. tauto. }
  rewrite elem_of_cons. destruct (decide (c = c0)) as [-> |Hne].
  - rewrite lookup_alter_eq. destruct (foldr _ p l !! c0) as [ks|]; simpl in *; [|set_solver].
    rewrite elem_of_difference, elem_of_singleton, IH. naive_solver.
  - rewrite lookup_alter_ne by done. rewrite IH. naive_solver.
Qed.

Lemma minTaskKey_spec t c :
  let k := (let '(k, ok) := minTaskKey t c in if ok : bool then k else MaximumKey) in
  k ≤k MaximumKey ∧ (∀ x, x ∈ pend t c → k ≤k x) ∧ (k = MaximumKey ∨ k ∈ pend t c).
Proof.
  unfold minTaskKey. fold (pend t c). destruct (decide (pend t c = ∅)) as [E|E].
  - rewrite bool_decide_eq_true_2 by done. split; [apply key_le_refl|]. split; [rewrite E; set_solver|by left].
  - rewrite bool_decide_eq_false_2 by done. destruct (fold_min (elements (pend t c)) MaximumKey) as (F1 & F2 & F3).
    split; [done|]. split.
    + intros x Hx. apply F2. by apply elem_of_elements.
    + destruct F3 as [?|?%elem_of_elements]; [by left|by right].
Qed.

(** ** The invariant of the shard *)

Record req_inv (s : ContextImpl) (r : request) : Prop := {
  ri_range : rq_range r ≤ RangeId s;
  ri_ids : ∀ c t, (c, t) ∈ rq_tasks r → 0 ≤ GetTaskID t < nextTaskID (generator s);
  ri_min : ∀ c t, (c, t) ∈ rq_tasks r →
             (∃ k, rq_minKeys r !! c = Some k ∧ k ≤k task_GetKey c t) ∨ MaximumKey ≤k task_GetKey c t;
  ri_from : ∀ c k, rq_minKeys r !! c = Some k → ∃ t, (c, t) ∈ rq_tasks r ∧ k = task_GetKey c t;
  ri_pending : rq_state r ≠ Done → rq_range r = RangeId s →
               ∀ c k, rq_minKeys r !! c = Some k → k ∈ pend (tracker s) c;
}.

Definition is_inflight (r : request) : Z := if bool_decide (rq_state r = InFlight) then 1 else 0.
Definition inflight (rqs : list request) : Z := foldr (λ r acc, acc + is_inflight r) 0 rqs.
Definition ids_apart (r1 r2 : request) : Prop :=
  ∀ c1 t1 c2 t2, (c1, t1) ∈ rq_tasks r1 → (c2, t2) ∈ rq_tasks r2 → GetTaskID t1 ≠ GetTaskID t2.

Record shard_inv (S : shard) : Prop := {
  si_gen : gen_inv (context S);
  si_db : RangeId (context S) ≤ db_range S;
  si_inflight : inflightRequestCount (tracker (context S)) = inflight (requests S);
  si_reqs : Forall (req_inv (context S)) (requests S);
  si_apart : ForallOrdPairs ids_apart (requests S);
  si_pending : ∀ c k, k ∈ pend (tracker (context S)) c → 0 ≤ TaskID k;
}.

Lemma ids_apart_keys r1 r2 c k k' :
  ids_apart r1 r2 → (∃ t, (c, t) ∈ rq_tasks r1 ∧ k = task_GetKey c t) → (∃ t, (c, t) ∈ rq_tasks r2 ∧ k' = task_GetKey c t) →
  k ≠ k'.
Proof.
  intros Ha (t1 & H1 & ->) (t2 & H2 & ->) Heq. apply (Ha _ _ _ _ H1 H2). unfold task_GetKey in Heq.
  destruct (cType c); by injection Heq.
Qed.

Lemma inflight_app l l' : inflight (l ++ l') = inflight l + inflight l'.
Proof. induction l as [|r l IH]; simpl; [done|]. rewrite IH. lia. Qed.
Lemma inflight_nonneg l : 0 ≤ inflight l.
Proof. induction l as [|r l IH]; simpl; [done|]. unfold is_inflight. case_bool_decide; lia. Qed.

(** A request does not notice that the shard went on. *)
Lemma req_inv_advances s s' r : advances s s' → req_inv s r → req_inv s' r.
Proof.
  intros [_ _ N R] [R1 R2 R3 R4 R5]. split; [| |done|done|].
  - destruct R as [(-> & _)|(? & _)]; lia.
  - intros c t Ht. specialize (R2 c t Ht). lia.
  - intros Hst Hr c k Hk. destruct R as [(E1 & E2 & _)|(? & _)]; [|lia].
    unfold pend. rewrite E2. apply R5; [done|lia|done].
Qed.

Lemma shard_inv_advances s s' d d' db rqs :
  shard_inv (mkShard s d db rqs) → advances s s' → gen_inv s' → db_follows (RangeId s) (RangeId s') d d' →
  shard_inv (mkShard s' d' db rqs).
Proof.
  intros [G D I R A P] Had Hg (D1 & D2 & _). simpl in *. split; simpl; [done|done| | |done|].
  - destruct (ad_range _ _ Had) as [(_ & _ & ->)|(_ & E1 & -> & _)]; [done|]. by rewrite <- I.
  - eapply Forall_impl; [exact R|]. intros r. by apply req_inv_advances.
  - intros c k. destruct (ad_range _ _ Had) as [(_ & E & _)|(_ & _ & _ & ->)]; [|set_solver].
    unfold pend. rewrite E. apply P.
Qed.

Lemma apart_replace l1 r r' l2 :
  rq_tasks r' = rq_tasks r → ForallOrdPairs ids_apart (l1 ++ r :: l2) → ForallOrdPairs ids_apart (l1 ++ r' :: l2).
Proof.
  intros Ht. rewrite !ForallOrdPairs_app. intros (H1 & H2 & H3). split; [done|]. split.
  - inversion H2 as [|? ? F1 F2]; subst. constructor; [|done]. rewrite List.Forall_forall in *.
    intros x Hx. unfold ids_apart. rewrite Ht. by apply F1.
  - intros x y Hx [-> |Hy]%elem_of_cons; [|apply H3; [done|by right]]. unfold ids_apart. rewrite Ht. apply (H3 x r); [done|left].
Qed.

Lemma apart_other l1 r l2 r' :
  ForallOrdPairs ids_apart (l1 ++ r :: l2) → r' ∈ l1 ∨ r' ∈ l2 → ids_apart r r'.
Proof.
  rewrite ForallOrdPairs_app. intros (_ & H2 & H3) [Hr|Hr].
  - intros c1 t1 c2 t2 Ht1 Ht2 Heq. by apply (H3 r' r Hr ltac:(left) c2 t2 c1 t1 Ht2 Ht1).
  - inversion H2 as [|? ? F1 _]; subst. rewrite List.Forall_forall in F1. apply F1. by apply list_elem_of_In.
Qed.

(** A new request has IDs of its own and its least keys are pending. *)
Lemma begin_inv U s d db rqs now ms s' d' ms' mk :
  shard_inv (mkShard s d db rqs) → setAndTrackTaskKeys U now ms s = (s', Ok (ms', mk)) → grants_fit s U →
  db_follows (RangeId s) (RangeId s') d d' →
  shard_inv (mkShard s' d' db (mkRequest (flatten ms') (RangeId s') mk InFlight false :: rqs)).
Proof.
  intros Hi EQ Hg Hd. unfold setAndTrackTaskKeys, sbind in EQ.
  destruct (setTaskKeys U now ms s) as [s1 [ms1|e|]] eqn:Ek; [|discriminate..].
  destruct (setTaskKeys_runs U now ms s s1 _ (si_gen _ Hi) Hg Ek) as (A1 & I1 & Hk). specialize (Hk ms1 eq_refl).
  destruct (track (tracker s1) ms1) as [[t mk']|] eqn:Et; [|discriminate]. injection EQ as <- -> ->.
  unfold track in Et. destruct (add_pending _ _) as [p|] eqn:Ep; [|discriminate]. injection Et as <- <-.
  pose proof (add_pending_spec _ _ _ Ep) as Hp. destruct (minKeyByCategory_spec ms') as [Hfrom Hmin].
  destruct (shard_inv_advances _ _ _ _ _ _ Hi A1 I1 Hd) as [G D I R A P]. simpl in *.
  split; simpl; [by destruct G|done|unfold is_inflight; simpl; lia| | |].
  - constructor.
    + split; simpl; [lia| |done|done|].
      * intros c t Ht. destruct (Hk c t Ht) as (K1 & K2 & _). lia.
      * intros _ _ c k Hck. unfold pend. simpl. apply Hp. right. by apply elem_of_map_to_list.
    + eapply Forall_impl; [exact R|]. intros r [R1 R2 R3 R4 R5]. split; [done|done|done|done|].
      intros Hst Hr c k Hck. unfold pend. simpl. apply Hp. left. by apply R5.
  - constructor; [|done]. destruct Hi as [_ _ _ R0 _]. rewrite List.Forall_forall. rewrite Forall_forall in R0.
    intros r Hr%list_elem_of_In c1 t1 c2 t2 Ht1 Ht2. simpl in *. destruct (Hk c1 t1 Ht1) as (_ & K2 & _).
    pose proof (ri_ids _ _ (R0 r Hr) c2 t2 Ht2). lia.
  - intros c k. unfold pend. simpl. rewrite (Hp c k). intros [Hin|(t & Ht & ->)%elem_of_map_to_list%Hfrom]; [by apply (P c)|].
    destruct (Hk c t Ht) as (K1 & _). unfold task_GetKey. by destruct (cType c).
Qed.

Lemma write_inv s d db rqs1 r rqs2 :
  shard_inv (mkShard s d db (rqs1 ++ r :: rqs2)) →
  shard_inv (mkShard s d (db ++ rq_tasks r) (rqs1 ++ set_written r :: rqs2)).
Proof.
  intros [G D I R A P]. simpl in *. split; simpl; [done|done| | |by apply (apart_replace _ r)|done].
  - rewrite I, !inflight_app. done.
  - apply Forall_app in R as [Ra Rb]. apply Forall_cons in Rb as [Rr Rb]. apply Forall_app. split; [done|].
    constructor; [|done]. by destruct Rr.
Qed.

Lemma complete_pend t mk err c k :
  k ∈ pend (complete_request t mk err) c ↔
  k ∈ pend t c ∧ (bool_decide (err = None) || negb (OperationPossiblySucceeded err) = true → mk !! c ≠ Some k).
Proof.
  unfold complete_request, pend. simpl. split_ifs; simpl; rewrite ?remove_pending_spec; naive_solver.
Qed.

Lemma complete_inv s d db rqs1 r rqs2 err :
  shard_inv (mkShard s d db (rqs1 ++ r :: rqs2)) → rq_state r = InFlight →
  shard_inv (mkShard (set_tracker s (complete_request (tracker s) (rq_minKeys r) err)) d db
               (rqs1 ++ set_state r (state_after err) :: rqs2)).
Proof.
  intros [G D I R A P] Hst. simpl in *. apply Forall_app in R as [Ra Rb]. apply Forall_cons in Rb as [Rr Rb].
  split; simpl; [by destruct G|done| | |by apply (apart_replace _ r)|intros c k [Hk _]%complete_pend; by apply (P c)].
  - rewrite inflight_app in *. simpl in *. unfold is_inflight in *. simpl. rewrite Hst in I.
    assert (bool_decide (state_after err = InFlight) = false) as -> by (destruct err as [[]|]; done).
    simpl in I. unfold complete_request. split_ifs; simpl; lia.
  - assert (Hother : ∀ r', r' ∈ rqs1 ∨ r' ∈ rqs2 → req_inv s r' →
      req_inv (set_tracker s (complete_request (tracker s) (rq_minKeys r) err)) r').
    { intros r' Hin [R1 R2 R3 R4 R5]. split; [done|done|done|done|]. intros Hs Hr c k Hk. apply complete_pend.
      split; [by apply R5|]. intros _ Hk'.
      apply (ids_apart_keys r r' c k k (apart_other _ _ _ _ A Hin)); [by apply Rr|by apply R4|done]. }
    rewrite Forall_app, Forall_cons, !Forall_forall in *. split; [intros x Hx; apply Hother; [by left|by apply Ra]|].
    split; [|intros x Hx; apply Hother; [by right|by apply Rb]]. destruct Rr as [R1 R2 R3 R4 R5]. split; [done|done|done|done|]. simpl.
    intros Hs Hr c k Hk. apply complete_pend. split; [apply R5; [by rewrite Hst|done|done]|].
    destruct err as [[]|]; simpl in *; done.
Qed.

Lemma shard_step_inv shift S S' : shard_step shift S S' → shard_inv S → shard_inv S'.
Proof.
  intros Hst Hi. destruct Hst as [U s d db rqs now ms s' d' ms' mk EQ Hg Hd|U s d db rqs now ms s' d' e EQ Hg Hd
    |U s d db rqs c s' d' o EQ _ Hg Hd|U s d db rqs s' d' o EQ Hg Hd|s d db rqs1 r rqs2 Hs Hw Hr
    |s d db rqs1 r rqs2 err Hs Ha|s d db rqs t|s d db rqs now c s' k EQ|s d db rqs d' Hd].
  - by eapply begin_inv.
  - unfold setAndTrackTaskKeys, sbind in EQ. destruct (setTaskKeys U now ms s) as [s1 [ms1|e1|]] eqn:Ek.
    + by destruct (track _ _) as [[? ?]|].
    + injection EQ as -> _. destruct (setTaskKeys_runs U now ms s s' _ (si_gen _ Hi) Hg Ek) as (A1 & I1 & _).
      by eapply shard_inv_advances.
    + done.
  - destruct (generateTaskKey_runs U c s s' o (si_gen _ Hi) Hg EQ) as (A1 & I1 & _). by eapply shard_inv_advances.
  - destruct (renewRangeLocked_runs U s s' o (si_gen _ Hi) Hg EQ) as (A1 & I1 & _). by eapply shard_inv_advances.
  - by apply write_inv.
  - by apply complete_inv.
  - destruct Hi as [G D I R A P]. split; try done; simpl in *; [by destruct G|].
    eapply Forall_impl; [exact R|]. intros r []. by split.
  - unfold getExclusiveReaderHighWatermark in EQ. injection EQ as <- _.
    destruct Hi as [G D I R A P]. split; try done; simpl in *; [by destruct G|].
    eapply Forall_impl; [exact R|]. intros r []. by split.
  - destruct Hi as [G D I R A P]. split; try done. simpl in *. lia.
Qed.

(** ** The watermark *)

Definition floor_key (s : ContextImpl) (c : Category) : Key :=
  match cType c with
  | CategoryTypeImmediate => NewImmediateKey (nextTaskID (generator s))
  | CategoryTypeScheduled => NewKey (taskMinScheduledTime (generator s)) 0
  end.

(** Nothing that can still be written has a key below [k]. *)
Record stays_above (c : Category) (k : Key) (s : ContextImpl) : Prop := {
  sa_floor : k ≤k floor_key s c;
  sa_pending : ∀ x, x ∈ pend (tracker s) c → k ≤k x;
  sa_max : k ≤k MaximumKey;
  sa_round : cType c = CategoryTypeScheduled → TaskID k = 0 ∧ FireTime k mod taskPrecision = 0;
}.

Lemma floor_advances s s' c : advances s s' → floor_key s c ≤k floor_key s' c.
Proof.
  intros [_ M N _]. unfold floor_key, key_le, key_lt, NewImmediateKey, NewKey. destruct (cType c); simpl; lia.
Qed.

Lemma keyed_floor s s' c t : keyed s s' c t → floor_key s c ≤k task_GetKey c t.
Proof.
  intros (K1 & K2 & K3). unfold floor_key, task_GetKey, key_le, key_lt, NewImmediateKey, NewKey.
  destruct (cType c) eqn:Ec; simpl; [lia|]. specialize (K3 eq_refl). lia.
Qed.

Lemma above_advances c k s s' : advances s s' → stays_above c k s → stays_above c k s'.
Proof.
  intros A [F P M R]. split; [eapply key_le_trans; [exact F|by apply floor_advances]| |done|done].
  intros x. destruct (ad_range _ _ A) as [(_ & E & _)|(_ & _ & _ & ->)]; [|set_solver]. unfold pend. rewrite E. apply P.
Qed.

Lemma above_live c k S r t :
  shard_inv S → stays_above c k (context S) → r ∈ requests S → rq_state r ≠ Done →
  rq_range r = RangeId (context S) → (c, t) ∈ rq_tasks r → k ≤k task_GetKey c t.
Proof.
  intros Hi [F P M R] Hr Hst Hrg Ht. pose proof (si_reqs _ Hi) as Hrs. rewrite Forall_forall in Hrs.
  destruct (Hrs r Hr) as [_ _ R3 _ R5]. destruct (R3 c t Ht) as [(m & Hm & Hle)|Hle]; eapply key_le_trans; [|exact Hle| |exact Hle].
  - apply P. by eapply R5.
  - done.
Qed.

Lemma shard_step_above shift c k S S' :
  shard_step shift S S' → shard_inv S → stays_above c k (context S) →
  stays_above c k (context S') ∧
  ∃ new, db_tasks S' = db_tasks S ++ new ∧ ∀ t, (c, t) ∈ new → k ≤k task_GetKey c t.
Proof.
  intros Hst Hi Ha.
  assert (Hsame : ∀ db : list (Category * HistoryTask),
    ∃ new, db = db ++ new ∧ ∀ t, (c, t) ∈ new → k ≤k task_GetKey c t).
  { intros db. exists []. split; [by rewrite app_nil_r|]. by intros t ?%not_elem_of_nil. }
  destruct Hst as [U s d db rqs now ms s' d' ms' mk EQ Hg Hd|U s d db rqs now ms s' d' e EQ Hg Hd
    |U s d db rqs c0 s' d' o EQ _ Hg Hd|U s d db rqs s' d' o EQ Hg Hd|s d db rqs1 r rqs2 Hs Hw Hr
    |s d db rqs1 r rqs2 err Hs Hok|s d db rqs t|s d db rqs now c0 s' k0 EQ|s d db rqs d' Hd];
    cbn [context db_tasks] in *; (split; [|try apply Hsame]).
  - unfold setAndTrackTaskKeys, sbind in EQ. destruct (setTaskKeys U now ms s) as [s1 [ms1|e|]] eqn:Ek; [|discriminate..].
    destruct (setTaskKeys_runs U now ms s s1 _ (si_gen _ Hi) Hg Ek) as (A1 & _ & Hk). specialize (Hk ms1 eq_refl).
    destruct (track (tracker s1) ms1) as [[t mk']|] eqn:Et; [|discriminate]. injection EQ as <- -> ->.
    unfold track in Et. destruct (add_pending _ _) as [p|] eqn:Ep; [|discriminate]. injection Et as <- <-.
    destruct (above_advances c k s s1 A1 Ha) as [F P M R]. split; [done| |done|done]. intros x. unfold pend. simpl.
    rewrite (add_pending_spec _ _ _ Ep c x).
    intros [?|(t & Ht & ->)%elem_of_map_to_list%(proj1 (minKeyByCategory_spec ms'))]; [by apply P|].
    eapply key_le_trans; [apply (sa_floor _ _ _ Ha)|]. by eapply keyed_floor, Hk.
  - unfold setAndTrackTaskKeys, sbind in EQ. destruct (setTaskKeys U now ms s) as [s1 [ms1|e1|]] eqn:Ek.
    + by destruct (track _ _) as [[? ?]|].
    + injection EQ as -> _. destruct (setTaskKeys_runs U now ms s s' _ (si_gen _ Hi) Hg Ek) as (A1 & _).
      by eapply above_advances.
    + done.
  - destruct (generateTaskKey_runs U c0 s s' o (si_gen _ Hi) Hg EQ) as (A1 & _). by eapply above_advances.
  - destruct (renewRangeLocked_runs U s s' o (si_gen _ Hi) Hg EQ) as (A1 & _). by eapply above_advances.
  - done.
  - exists (rq_tasks r). split; [done|]. intros t Ht.
    assert (Hin : r ∈ rqs1 ++ r :: rqs2) by (apply elem_of_app; right; left).
    eapply (above_live c k _ r t Hi); [done|done|done| |done]. simpl.
    pose proof (si_reqs _ Hi) as Hrs. rewrite Forall_forall in Hrs. pose proof (ri_range _ _ (Hrs r Hin)).
    pose proof (si_db _ Hi). simpl in *. lia.
  - destruct Ha as [F P M R]. split; [done| |done|done]. intros x [Hx _]%complete_pend. by apply P.
  - eapply above_advances; [|exact Ha]. split; simpl; [done| |done|by left]. unfold MaxTime. split_ifs; bool_to_prop; lia.
  - unfold getExclusiveReaderHighWatermark in EQ. injection EQ as <- _.
    eapply above_advances; [|exact Ha]. split; simpl; [done| |done|by left]. unfold MaxTime. split_ifs; bool_to_prop; lia.
  - done.
Qed.

Lemma MinKey_spec a b : MinKey a b ≤k a ∧ MinKey a b ≤k b ∧ (MinKey a b = a ∨ MinKey a b = b).
Proof.
  destruct (key_le_total a b) as [Hle|Hle]; [rewrite MinKey_l by done|rewrite MinKey_r by done];
    (split; [|split]); auto using key_le_refl.
Qed.

Lemma fire_le a b : a ≤k b → FireTime a ≤ FireTime b.
Proof. unfold key_le, key_lt. lia. Qed.

(** Handing out a watermark: everything written later is at or above it. *)
Lemma watermark_above shift now c s s' k :
  getExclusiveReaderHighWatermark shift now c s = (s', k) → (∀ x, x ∈ pend (tracker s) c → 0 ≤ TaskID x) →
  stays_above c k s'.
Proof.
  intros EQ Hid. unfold getExclusiveReaderHighWatermark in EQ. injection EQ as <- Ek.
  destruct (minTaskKey_spec (tracker s) c) as (M1 & M2 & _). set (mk := let '(k, ok) := _ in _) in *.
  set (g := setTaskMinScheduledTime _ _) in *.
  destruct (MinKey_spec mk (peekTaskKey g c)) as (W1 & W2 & _). set (w := MinKey mk _) in *. clearbody w g mk.
  unfold peekTaskKey in W2. destruct (cType c) eqn:Ec; subst k.
  - split; [unfold floor_key; rewrite Ec; exact W2| |exact (key_le_trans _ _ _ W1 M1)|by rewrite Ec].
    intros x Hx. eapply key_le_trans; [exact W1|]. by apply M2.
  - pose proof (Truncate_le (FireTime w) taskPrecision ltac:(done)) as Htr. apply fire_le in W2. simpl in W2. split.
    + unfold floor_key. rewrite Ec. unfold key_le, key_lt. simpl. lia.
    + intros x Hx. pose proof (fire_le _ _ (key_le_trans _ _ _ W1 (M2 x Hx))). specialize (Hid x Hx).
      unfold key_le, key_lt. simpl. lia.
    + pose proof (fire_le _ _ (key_le_trans _ _ _ W1 M1)). unfold key_le, key_lt, MaximumKey in *. simpl in *.
      assert (0 ≤ MaxInt64) by done. lia.
    + intros _. split; [done|]. by apply Truncate_mod.
Qed.

(** Watermarks do not go back. *)
Lemma watermark_monotone shift now c k s :
  stays_above c k s → k ≤k (getExclusiveReaderHighWatermark shift now c s).2.
Proof.
  intros [F P M R]. unfold getExclusiveReaderHighWatermark. simpl.
  destruct (minTaskKey_spec (tracker s) c) as (_ & _ & M3). set (mk := let '(k, ok) := _ in _) in *.
  assert (Hmk : k ≤k mk) by (destruct M3 as [-> |?]; auto). clearbody mk.
  set (t := Truncate _ _). unfold floor_key in F. unfold peekTaskKey. cbn [setTaskMinScheduledTime nextTaskID taskMinScheduledTime].
  destruct (cType c) eqn:Ec.
  - destruct (MinKey_spec mk (NewImmediateKey (nextTaskID (generator s)))) as (_ & _ & [-> | ->]); done.
  - destruct (R eq_refl) as [R1 R2].
    assert (Hf : FireTime k ≤ FireTime (MinKey mk (NewKey (MaxTime (taskMinScheduledTime (generator s)) t) (nextTaskID (generator s))))).
    { destruct (MinKey_spec mk (NewKey (MaxTime (taskMinScheduledTime (generator s)) t) (nextTaskID (generator s)))) as (_ & _ & [-> | ->]).
      - by apply fire_le.
      - apply fire_le in F. simpl in *. unfold MaxTime. split_ifs; bool_to_prop; lia. }
    apply (Truncate_ge _ taskPrecision) in Hf; [|done|done]. unfold key_le, key_lt. simpl. lia.
Qed.

Lemma shard_steps_above shift c k S S' :
  rtc (shard_step shift) S S' → shard_inv S → stays_above c k (context S) →
  stays_above c k (context S') ∧
  ∃ new, db_tasks S' = db_tasks S ++ new ∧ ∀ t, (c, t) ∈ new → k ≤k task_GetKey c t.
Proof.
  induction 1 as [S|S1 S2 S3 Hst _ IH]; intros Hi Ha.
  { split; [done|]. exists []. split; [by rewrite app_nil_r|]. by intros t ?%not_elem_of_nil. }
  destruct (shard_step_above _ c k _ _ Hst Hi Ha) as (Ha2 & new1 & E1 & N1).
  destruct (IH (shard_step_inv _ _ _ Hst Hi) Ha2) as (Ha3 & new2 & E2 & N2). split; [done|].
  exists (new1 ++ new2). split; [by rewrite E2, E1, app_assoc|]. intros t [?|?]%elem_of_app; auto.
Qed.

Lemma shard_steps_inv shift S S' : rtc (shard_step shift) S S' → shard_inv S → shard_inv S'.
Proof. induction 1 as [|S1 S2 S3 Hst _ IH]; [done|]. intros Hi. by apply IH, (shard_step_inv shift S1). Qed.

Lemma new_shard_inv registry bits rangeID d db :
  0 ≤ bits → range_fits bits rangeID → rangeID ≤ d → shard_inv (mkShard (newContext registry bits rangeID) d db []).
Proof.
  intros Hb Hr Hd. split; simpl; [|done|done|done|constructor|].
  - split; [done|done|by left].
  - intros c k. unfold pend, newTaskRequestTracker. simpl. intros Hk. exfalso.
    destruct (list_to_map (map (λ c, (c, ∅)) registry) !! c) as [ks|] eqn:E; simpl in *; [|set_solver].
    apply elem_of_list_to_map_2, list_elem_of_In, in_map_iff in E as (? & [= _ <-] & _). set_solver.
Qed.

(** C4 A shard that hands out a read watermark for a category never lets a task of that category appear below it
    afterwards: whatever writes begin, take effect late or end without a known result, and however often the range is
    renewed or stolen, the tasks stored later have keys at or above the watermark, so a range below it has the same
    tasks for good; and later watermarks are never lower. *)
Theorem no_task_below_watermark shift registry bits rangeID d db S1 now c s' k S2 :
  0 ≤ bits → range_fits bits rangeID → rangeID ≤ d →
  rtc (shard_step shift) (mkShard (newContext registry bits rangeID) d db []) S1 →
  getExclusiveReaderHighWatermark shift now c (context S1) = (s', k) →
  rtc (shard_step shift) (mkShard s' (db_range S1) (db_tasks S1) (requests S1)) S2 →
  (∃ new, db_tasks S2 = db_tasks S1 ++ new ∧ ∀ t, (c, t) ∈ new → k ≤k task_GetKey c t) ∧
  (∀ now', k ≤k (getExclusiveReaderHighWatermark shift now' c (context S2)).2).
Proof.
  intros Hb Hr Hd H1 EQ H2. pose proof (shard_steps_inv _ _ _ H1 (new_shard_inv registry bits rangeID d db Hb Hr Hd)) as Hi.
  assert (Hst : shard_step shift S1 (mkShard s' (db_range S1) (db_tasks S1) (requests S1))).
  { destruct S1. by eapply sh_watermark. }
  pose proof (shard_step_inv _ _ _ Hst Hi) as Hi'.
  pose proof (watermark_above shift now c _ _ _ EQ (si_pending _ Hi c)) as Ha.
  destruct (shard_steps_above _ c k _ _ H2 Hi' Ha) as [Ha2 Hnew]. split; [done|]. intros now'. by apply watermark_monotone.
Qed.

(** ** Witness: a write that takes effect after the watermark was handed out *)

Definition CategoryTransfer : Category := mkCategory 1 CategoryTypeImmediate "transfer".
Definition CategoryTimer : Category := mkCategory 2 CategoryTypeScheduled "timer".

Definition sample_grant : Z → option persistence_error := λ r, if bool_decide (r = 4) then None else Some NotFound.
Definition sample_maps : list taskMap :=
  [[(CategoryTransfer, [mkHistoryTask 0 0 1; mkHistoryTask 0 0 2]); (CategoryTimer, [mkHistoryTask 0 5000000 3])]].
Definition shard0 : shard := mkShard (newContext [CategoryTransfer; CategoryTimer] 20 3) 3 [] [].
Definition context1 : ContextImpl := (renewRangeLocked sample_grant (context shard0)).1.
Definition shard1 : shard := mkShard context1 4 [] [].
Definition begun : ContextImpl * outcome shard_error (list taskMap * gmap Category Key) :=
  setAndTrackTaskKeys sample_grant 7000000 sample_maps context1.
Definition sample_result : list taskMap * gmap Category Key := match begun.2 with Ok r => r | _ => ([], ∅) end.
Definition sample_request : request :=
  mkRequest (flatten sample_result.1) (RangeId begun.1) sample_result.2 InFlight false.
Definition shard2 : shard := mkShard begun.1 4 [] [sample_request].
Definition sample_watermark : ContextImpl * Key := getExclusiveReaderHighWatermark 0 9000000 CategoryTimer (context shard2).
Definition shard3 : shard := mkShard sample_watermark.1 4 [] [sample_request].
Definition shard4 : shard := mkShard sample_watermark.1 4 (rq_tasks sample_request) [set_written sample_request].

Lemma pair_with {A B} (p : A * B) (b : B) : p.2 = b → p = (p.1, b).
Proof. intros <-. apply surjective_pairing. Qed.

Lemma sample_shard_steps : rtc (shard_step 0) shard0 shard2.
Proof.
  assert (Hfit : ∀ s, rangeSizeBits (generator s) = 20 → grants_fit s sample_grant).
  { intros s Hs r. unfold sample_grant. rewrite Hs. case_bool_decide; [intros _; subst; by_decide|done]. }
  eapply rtc_l; [|apply rtc_once].
  - apply (sh_renew 0 sample_grant (context shard0) 3 [] [] context1 4 (Ok tt)).
    + apply pair_with. vm_compute. reflexivity.
    + by apply Hfit.
    + split; [lia|]. split; [by_decide|done].
  - apply (sh_begin 0 sample_grant context1 4 [] [] 7000000 sample_maps begun.1 4 sample_result.1 sample_result.2).
    + apply pair_with. fold begun. rewrite <- surjective_pairing. unfold sample_result.
      assert (Hok : is_ok begun.2 = true) by (vm_compute; reflexivity). by destruct begun.2.
    + by apply Hfit.
    + split; [lia|]. split; [by_decide|]. vm_compute. done.
Qed.

Lemma no_task_below_watermark_witness :
  sample_watermark.2 = mkKey 8000000 0 ∧
  ((λ e, task_GetKey e.1 e.2) <$> db_tasks shard4) =
    [mkKey 0 4194304; mkKey 0 4194305; mkKey 8000000 4194306] ∧
  (∃ new, db_tasks shard4 = db_tasks shard2 ++ new ∧
     ∀ t, (CategoryTimer, t) ∈ new → sample_watermark.2 ≤k task_GetKey CategoryTimer t) ∧
  (∀ now', sample_watermark.2 ≤k (getExclusiveReaderHighWatermark 0 now' CategoryTimer (context shard4)).2).
Proof.
  split; [vm_compute; reflexivity|]. split; [vm_compute; reflexivity|].
  apply (no_task_below_watermark 0 [CategoryTransfer; CategoryTimer] 20 3 3 [] shard2 9000000 CategoryTimer sample_watermark.1
           sample_watermark.2 shard4).
  - lia.
  - by_decide.
  - lia.
  - exact sample_shard_steps.
  - symmetry. apply surjective_pairing.
  - apply rtc_once. apply (sh_write 0 sample_watermark.1 4 [] [] sample_request []); vm_compute; done.
Defined.
