(* ===== verification/ShardState.v ===== *)
(** * The life cycle of a shard: [service/history/shard/context_impl.go]

    [transition] moves a shard between its five states on request.  While the
    shard is being acquired a goroutine, [acquireShard], retries until it holds a
    range ID, makes the engine and reports back; the controller and failed
    writes make requests at any time.  An engine is a number, drawn in order of
    creation. *)
From S2P Require Import Prelude TaskKey Monitor ShardKeys.
Local Open Scope Z_scope.

Inductive contextState :=
  | contextStateInitialized
  | contextStateAcquiring
  | contextStateAcquired
  | contextStateStopping
  | contextStateStopped.
Inductive stopReason := stopReasonUnspecified | stopReasonOwnershipLost.

#[export] Instance contextState_eq_dec : EqDecision contextState.
Proof. solve_decision. Defined.
#[export] Instance stopReason_eq_dec : EqDecision stopReason.
Proof. solve_decision. Defined.

Inductive contextRequest :=
  | contextRequestAcquire
  | contextRequestAcquired (engine : option nat)
  | contextRequestLost
  | contextRequestStop (reason : stopReason)
  | contextRequestFinishStop.

(** Where a running [acquireShard] is: about to try, with so many retries left; past the check that the shard is valid,
    and loading the shard or renewing its range; holding the range ID, with the engine it has just made if there was none;
    about to report that it gave up. *)
Inductive phase := Attempt (retries : nat) | Renewing (retries : nat) | Holding (engine : option nat) (retries : nat) | GaveUp (reason : stopReason).

Record lifecycle := mkLifecycle {
  state : contextState;
  stop_reason : stopReason;
  engineFuture : option nat;
  cancelled : bool;
  acquirers : list phase;
  engines : nat;
  stopped : gset nat;
}.

Section transition.
(** How many retries the policy of [acquireShard] allows. *)
Context (retryBudget : nat).

Definition setStateAcquiring (s : lifecycle) : lifecycle :=
  mkLifecycle contextStateAcquiring (stop_reason s) (engineFuture s) (cancelled s) (Attempt retryBudget :: acquirers s)
    (engines s) (stopped s).
Definition setStateStopping (s : lifecycle) (reason : stopReason) : lifecycle :=
  mkLifecycle contextStateStopping reason (engineFuture s) true (acquirers s) (engines s) (stopped s).
Definition setStateStopped (s : lifecycle) : lifecycle :=
  mkLifecycle contextStateStopped (stop_reason s) (engineFuture s) true (acquirers s) (engines s) (stopped s).
Definition setStateAcquired (s : lifecycle) (engine : option nat) : lifecycle :=
  mkLifecycle contextStateAcquired (stop_reason s) engine (cancelled s) (acquirers s) (engines s) (stopped s).

(** Also whether the request was valid. *)
Definition transition (s : lifecycle) (request : contextRequest) : lifecycle * bool :=
  match state s with
  | contextStateInitialized =>
      match request with
      | contextRequestAcquire => (setStateAcquiring s, true)
      | contextRequestStop reason => (setStateStopping s reason, true)
      | contextRequestFinishStop => (setStateStopped s, true)
      | _ => (s, false)
      end
  | contextStateAcquiring =>
      match request with
      | contextRequestAcquire => (s, true)
      | contextRequestAcquired engine =>
          match engine, engineFuture s with
          | Some _, Some _ => (setStateAcquired s (engineFuture s), false)
          | Some e, None => (setStateAcquired s (Some e), true)
          | None, Some _ => (setStateAcquired s (engineFuture s), true)
          | None, None => (setStateAcquired s None, false)
          end
      | contextRequestLost => (s, true)
      | contextRequestStop reason => (setStateStopping s reason, true)
      | contextRequestFinishStop => (setStateStopped s, true)
      end
  | contextStateAcquired =>
      match request with
      | contextRequestAcquire => (s, true)
      | contextRequestLost => (setStateAcquiring s, true)
      | contextRequestStop reason => (setStateStopping s reason, true)
      | contextRequestFinishStop => (setStateStopped s, true)
      | contextRequestAcquired _ => (s, false)
      end
  | contextStateStopping =>
      match request with
      | contextRequestStop _ => (s, true)
      | contextRequestFinishStop => (setStateStopped s, true)
      | _ => (s, false)
      end
  | contextStateStopped =>
      match request with
      | contextRequestStop _ | contextRequestFinishStop => (s, true)
      | _ => (s, false)
      end
  end.

(** ** What makes requests *)

Definition IsValid (s : lifecycle) : bool :=
  match state s with contextStateStopping | contextStateStopped => false | _ => true end.

Inductive state_error := ErrShardStatusUnknown | ShardClosed.
Definition errorByState (s : lifecycle) : option state_error :=
  match state s with
  | contextStateInitialized | contextStateAcquiring => Some ErrShardStatusUnknown
  | contextStateAcquired => None
  | contextStateStopping | contextStateStopped => Some ShardClosed
  end.

Definition start (s : lifecycle) : lifecycle := (transition s contextRequestAcquire).1.
Definition UnloadForOwnershipLost (s : lifecycle) : lifecycle :=
  (transition s (contextRequestStop stopReasonOwnershipLost)).1.

Definition stop_engine (s : lifecycle) (e : nat) : lifecycle :=
  mkLifecycle (state s) (stop_reason s) (engineFuture s) (cancelled s) (acquirers s) (engines s) ({[e]} ∪ stopped s).

Definition FinishStop (s : lifecycle) : lifecycle :=
  let s := (transition s contextRequestFinishStop).1 in
  match engineFuture s with Some engine => stop_engine s engine | None => s end.

Definition handleWriteErrorLocked (s : lifecycle) (requestRangeID rangeID : Z) (err : option persistence_error) : lifecycle :=
  if negb (requestRangeID =? rangeID) then s
  else if negb (IsValid s) then s
  else match err with
       | None => s
       | Some ShardOwnershipLostError => (transition s (contextRequestStop stopReasonOwnershipLost)).1
       | Some (OtherError _) => (transition s contextRequestLost).1
       | Some _ => s
       end.

Definition handleReadError (s : lifecycle) (err : option persistence_error) : lifecycle :=
  match err with
  | Some ShardOwnershipLostError => (transition s (contextRequestStop stopReasonOwnershipLost)).1
  | _ => s
  end.

(** ** [acquireShard] *)

Definition set_acquirers (s : lifecycle) (l : list phase) : lifecycle :=
  mkLifecycle (state s) (stop_reason s) (engineFuture s) (cancelled s) l (engines s) (stopped s).
Definition create_engine (s : lifecycle) : lifecycle :=
  mkLifecycle (state s) (stop_reason s) (engineFuture s) (cancelled s) (acquirers s) (S (engines s)) (stopped s).

(** After a failed attempt: another one, or the end of the retries. *)
Inductive retry : nat → phase → Prop :=
  | retry_again n : retry (S n) (Attempt n)
  | retry_not n reason : retry n (GaveUp reason).

(** One move of a running [acquireShard], at position [length l1].  The shard may be stopped between any two of them; only
    the first looks whether it is valid.  An attempt that cannot load the shard fails without [handleWriteErrorLocked], which
    a range other than that of the request stands for. *)
Inductive acquirer_step : lifecycle → lifecycle → Prop :=
  | aq_valid s l1 n l2 :
      acquirers s = l1 ++ Attempt n :: l2 → IsValid s = true → acquirer_step s (set_acquirers s (l1 ++ Renewing n :: l2))
  | aq_closed s l1 n l2 p :
      acquirers s = l1 ++ Attempt n :: l2 → IsValid s = false → retry n p → acquirer_step s (set_acquirers s (l1 ++ p :: l2))
  | aq_fails s l1 n l2 requestRange range err p :
      acquirers s = l1 ++ Renewing n :: l2 → retry n p →
      acquirer_step s (handleWriteErrorLocked (set_acquirers s (l1 ++ p :: l2)) requestRange range err)
  | aq_renewed s l1 n l2 e :
      acquirers s = l1 ++ Renewing n :: l2 → engineFuture s = Some e →
      acquirer_step s (set_acquirers s (l1 ++ Holding None n :: l2))
  | aq_renewed_first s l1 n l2 :
      acquirers s = l1 ++ Renewing n :: l2 → engineFuture s = None →
      acquirer_step s (create_engine (set_acquirers s (l1 ++ Holding (Some (engines s)) n :: l2)))
  | aq_acquired s l1 e n l2 s' :
      acquirers s = l1 ++ Holding e n :: l2 →
      transition (set_acquirers s (l1 ++ l2)) (contextRequestAcquired e) = (s', true) → acquirer_step s s'
  | aq_not_acquired s l1 e n l2 s' p :
      acquirers s = l1 ++ Holding e n :: l2 → retry n p →
      transition (set_acquirers s (l1 ++ p :: l2)) (contextRequestAcquired e) = (s', false) →
      acquirer_step s (match e with Some e => stop_engine s' e | None => s' end)
  | aq_gave_up s l1 reason l2 :
      acquirers s = l1 ++ GaveUp reason :: l2 →
      acquirer_step s (transition (set_acquirers s (l1 ++ l2)) (contextRequestStop reason)).1.

Inductive lifecycle_step : lifecycle → lifecycle → Prop :=
  | ls_start s : lifecycle_step s (start s)
  | ls_unload s : lifecycle_step s (UnloadForOwnershipLost s)
  | ls_finish_stop s : lifecycle_step s (FinishStop s)
  | ls_write_error s r r' err : lifecycle_step s (handleWriteErrorLocked s r r' err)
  | ls_read_error s err : lifecycle_step s (handleReadError s err)
  | ls_acquirer s s' : acquirer_step s s' → lifecycle_step s s'.

Definition new_lifecycle : lifecycle := mkLifecycle contextStateInitialized stopReasonUnspecified None false [] 0 ∅.
End transition.

(** ** The invariant *)

Section invariant.
Context (retryBudget : nat).
Implicit Types s : lifecycle.

Record life_inv s : Prop := {
  li_count : match state s with
             | contextStateInitialized | contextStateAcquired => acquirers s = []
             | contextStateAcquiring => ∃ p, acquirers s = [p]
             | _ => acquirers s = [] ∨ ∃ p, acquirers s = [p]
             end;
  li_init : state s = contextStateInitialized → engineFuture s = None;
  li_engine : state s = contextStateAcquired → is_Some (engineFuture s);
  li_holding : ∀ e n, Holding e n ∈ acquirers s →
               match e with None => is_Some (engineFuture s) | Some i => engineFuture s = None ∧ i ∉ stopped s end;
  li_cancelled : cancelled s = negb (IsValid s);
  li_engines : ∀ i, (i < engines s)%nat ↔ i ∈ stopped s ∨ engineFuture s = Some i ∨ ∃ n, Holding (Some i) n ∈ acquirers s;
  li_running : ∀ i, engineFuture s = Some i → (i ∈ stopped s ↔ state s = contextStateStopped);
}.

Lemma new_lifecycle_inv : life_inv new_lifecycle.
Proof.
  split; simpl; try done; [by intros e n ?%not_elem_of_nil|]. intros i. split; [lia|].
  intros [?|[?|[n ?%not_elem_of_nil]]]; [set_solver|done|done].
Qed.

(** What the acquirers add to the invariant. *)
Definition holding_ok s (l : list phase) : Prop :=
  ∀ e n, Holding e n ∈ l →
    match e with None => is_Some (engineFuture s) | Some i => engineFuture s = None ∧ i ∉ stopped s end.

Lemma stopping_inv s reason : life_inv s → IsValid s = true → life_inv (setStateStopping s reason).
Proof.
  intros [I1 I2 I3 I4 I5 I6 I7] Hv. unfold IsValid in Hv.
  split; simpl; [|done|done|done|done|done|intros i Hi; rewrite (I7 i Hi); by destruct (state s)].
  destruct (state s); try done; [by left|by right|by left].
Qed.

Lemma stopped_inv s :
  life_inv s → life_inv (match engineFuture s with Some e => stop_engine (setStateStopped s) e | None => setStateStopped s end).
Proof.
  intros [I1 I2 I3 I4 I5 I6 I7].
  assert (Hc : acquirers s = [] ∨ ∃ p, acquirers s = [p]) by (destruct (state s); auto).
  destruct (engineFuture s) as [e|] eqn:Ee; split; simpl; try done.
  - intros [e'|] n Hin; specialize (I4 _ n Hin); simpl in I4; rewrite Ee; [by destruct I4|done].
  - intros i. rewrite I6, Ee. set_solver.
  - intros i Hi. split; [done|]. intros _. rewrite Ee in Hi. set_solver.
  - intros [e'|] n Hin; specialize (I4 _ n Hin); simpl in I4; by rewrite Ee in *.
  - intros i. by rewrite I6, Ee.
  - by rewrite Ee.
Qed.

Lemma acquiring_inv s :
  life_inv s → state s = contextStateInitialized ∨ state s = contextStateAcquired → life_inv (setStateAcquiring retryBudget s).
Proof.
  intros [I1 I2 I3 I4 I5 I6 I7] Hst.
  assert (Hn : acquirers s = []) by (by destruct Hst as [Hst|Hst]; rewrite Hst in I1).
  rewrite Hn in *. split; simpl; rewrite ?Hn; try done.
  - by eexists.
  - by intros e n ?%list_elem_of_singleton.
  - rewrite I5. unfold IsValid. simpl. by destruct Hst as [-> | ->].
  - intros i. rewrite I6. split; intros [?|[?|[n Hin]]]; auto; right; right.
    + by apply not_elem_of_nil in Hin.
    + by apply list_elem_of_singleton in Hin.
  - intros i Hi. rewrite (I7 i Hi). by destruct Hst as [-> | ->].
Qed.

(** Every request but the report of an acquirer. *)
Lemma transition_inv s request :
  life_inv s → (∀ e, request ≠ contextRequestAcquired e) → request ≠ contextRequestFinishStop →
  life_inv (transition retryBudget s request).1.
Proof.
  intros Hi Hq Hf. unfold transition. destruct (state s) eqn:Es, request; simpl; try done;
    solve [by apply acquiring_inv; auto | apply stopping_inv; [done|by unfold IsValid; rewrite Es] | exfalso; by eapply Hq].
Qed.

Lemma FinishStop_inv s : life_inv s → life_inv (FinishStop retryBudget s).
Proof.
  intros Hi. unfold FinishStop, transition.
  assert (Hst : state s ≠ contextStateStopped → life_inv (let s := setStateStopped s in
    match engineFuture s with Some engine => stop_engine s engine | None => s end)) by (intros _; exact (stopped_inv s Hi)).
  destruct (state s) eqn:Es; simpl; try (by apply Hst).
  destruct Hi as [I1 I2 I3 I4 I5 I6 I7]. destruct (engineFuture s) as [e|] eqn:Ee; [|by split; rewrite ?Ee].
  assert (He : e ∈ stopped s) by (by apply (I7 e)).
  replace (stop_engine s e) with s; [by split; rewrite ?Ee|].
  unfold stop_engine. destruct s; simpl in *. f_equal. set_solver.
Qed.

Lemma handleWriteErrorLocked_inv s r r' err : life_inv s → life_inv (handleWriteErrorLocked retryBudget s r r' err).
Proof.
  intros Hi. unfold handleWriteErrorLocked. destruct (negb _); [done|]. destruct (negb _); [done|].
  destruct err as [[]|]; try done; by apply transition_inv.
Qed.
Lemma handleReadError_inv s err : life_inv s → life_inv (handleReadError retryBudget s err).
Proof. intros Hi. unfold handleReadError. destruct err as [[]|]; try done; by apply transition_inv. Qed.

(** The only acquirer is replaced by another phase of it. *)
Lemma single_split (l l1 l2 : list phase) p :
  l = [] ∨ (∃ q, l = [q]) → l = l1 ++ p :: l2 → l1 = [] ∧ l2 = [] ∧ l = [p].
Proof.
  intros [-> |[q ->]] Heq; [by destruct l1|]. destruct l1 as [|x l1]; [by destruct l2|]. by destruct l1.
Qed.
Lemma acquirers_single s : life_inv s → acquirers s = [] ∨ ∃ q, acquirers s = [q].
Proof. intros [I1 _ _ _ _ _ _]. destruct (state s); auto. Qed.

Lemma set_phase_inv s p p' :
  life_inv s → acquirers s = [p] → (∀ e n, p ≠ Holding (Some e) n) → (∀ e n, p' = Holding e n → e = None ∧ is_Some (engineFuture s)) →
  life_inv (set_acquirers s [p']).
Proof.
  intros [I1 I2 I3 I4 I5 I6 I7] Hp Hp1 Hp2. split; simpl; try done.
  - destruct (state s); rewrite ?Hp in I1; try done; by eauto.
  - intros e n Hin%list_elem_of_singleton. by destruct (Hp2 e n (eq_sym Hin)) as [-> ?].
  - intros i. rewrite I6, Hp. split; intros [?|[?|[n Hin%list_elem_of_singleton]]]; auto; exfalso.
    + by apply (Hp1 i n).
    + destruct (Hp2 (Some i) n (eq_sym Hin)) as [? _]. done.
Qed.

Lemma first_engine_inv s n :
  life_inv s → acquirers s = [Renewing n] → engineFuture s = None →
  life_inv (create_engine (set_acquirers s [Holding (Some (engines s)) n])).
Proof.
  intros [I1 I2 I3 I4 I5 I6 I7] Ea He. rewrite Ea in I1.
  assert (Hne : engines s ∉ stopped s) by (intros Hin; assert (engines s < engines s)%nat; [apply I6; by left|lia]).
  split; simpl; try done.
  - destruct (state s); try done; by eauto.
  - by intros e n' [= -> ->]%list_elem_of_singleton.
  - intros i. split.
    + intros Hlt. destruct (decide (i = engines s)) as [-> |?]; [right; right; exists n; left|].
      assert (Hlt' : (i < engines s)%nat) by lia. apply I6 in Hlt' as [?|[?|[n' Hin]]]; [by left|right; by left|].
      rewrite Ea in Hin. by apply list_elem_of_singleton in Hin.
    + intros [Hin|[Hin|[n' [= -> ->]%list_elem_of_singleton]]]; [|congruence|lia].
      assert (i < engines s)%nat; [apply I6; by left|lia].
Qed.

(** The report of an acquirer to a shard that is still being acquired is valid:
    neither check of the engine in [transition] can fail. *)
Lemma acquired_inv s e n :
  life_inv s → acquirers s = [Holding e n] → state s = contextStateAcquiring →
  ∃ s', transition retryBudget (set_acquirers s []) (contextRequestAcquired e) = (s', true) ∧ life_inv s'.
Proof.
  intros [I1 I2 I3 I4 I5 I6 I7] Ea Es. specialize (I4 e n). rewrite Ea in I4. specialize (I4 ltac:(left)).
  set (f := match e with Some e => Some e | None => engineFuture s end).
  exists (setStateAcquired (set_acquirers s []) f).
  assert (Hf : is_Some f) by (subst f; destruct e; [by eexists|done]). split.
  { unfold transition, f. simpl. rewrite Es. destruct e as [e|]; [by destruct I4 as [-> _]|]. by destruct I4 as [x ->]. }
  split; simpl; try done.
  - by intros e' n' ?%not_elem_of_nil.
  - rewrite I5. unfold IsValid. simpl. by rewrite Es.
  - intros i. rewrite I6, Ea. unfold f. split.
    + intros [?|[?|[n' [= <- <-]%list_elem_of_singleton]]]; [by left| |right; by left].
      right. left. destruct e; [|done]. destruct I4. congruence.
    + intros [?|[Hi|[n' ?%not_elem_of_nil]]]; [by left| |done]. destruct e as [e|]; [|right; by left].
      injection Hi as ->. right. right. exists n. left.
  - intros i. unfold f. intros Hi. split; [|done]. intros Hin. destruct e as [e|].
    + injection Hi as ->. by destruct I4.
    + apply (I7 i Hi) in Hin. congruence.
Qed.

Lemma not_acquired_inv s e n p :
  life_inv s → acquirers s = [Holding e n] → IsValid s = false → retry n p →
  life_inv (match e with Some e => stop_engine (set_acquirers s [p]) e | None => set_acquirers s [p] end).
Proof.
  intros [I1 I2 I3 I4 I5 I6 I7] Ea Hv Hp. specialize (I4 e n). rewrite Ea in I4. specialize (I4 ltac:(left)).
  assert (Hnp : ∀ e n, p ≠ Holding e n) by (intros ? ? ->; inversion Hp).
  assert (Hh : ∀ e' n', Holding e' n' ∉ [p]) by (intros e' n' Hin%list_elem_of_singleton; by destruct (Hnp e' n')).
  assert (Hcount : match state s with
           | contextStateInitialized | contextStateAcquired => [p] = []
           | contextStateAcquiring => ∃ q, [p] = [q]
           | _ => [p] = [] ∨ ∃ q, [p] = [q]
           end) by (unfold IsValid in Hv; destruct (state s); try done; right; by eexists).
  destruct e as [e|]; split; simpl; try done.
  - intros e' n' Hin. by destruct (Hh e' n').
  - intros i. rewrite I6, Ea. split.
    + intros [?|[?|[n' [= <- <-]%list_elem_of_singleton]]]; [left; set_solver|right; by left|left; set_solver].
    + intros [[->%elem_of_singleton|?]%elem_of_union|[?|[n' Hin]]]; [right; right; exists n; left|by left|right; by left|].
      by destruct (Hh (Some i) n').
  - intros i Hi. destruct I4 as [I4 _]. congruence.
  - intros e' n' Hin. by destruct (Hh e' n').
  - intros i. rewrite I6, Ea. split; intros [?|[?|[n' Hin]]]; auto; [by apply list_elem_of_singleton in Hin|by destruct (Hh (Some i) n')].
Qed.

Lemma gave_up_inv s reason :
  life_inv s → acquirers s = [GaveUp reason] →
  life_inv (transition retryBudget (set_acquirers s []) (contextRequestStop reason)).1.
Proof.
  intros Hi Ea.
  assert (Hrest : ∀ i, (i < engines s)%nat ↔ i ∈ stopped s ∨ engineFuture s = Some i ∨ ∃ n, Holding (Some i) n ∈ @nil phase).
  { intros i. rewrite (li_engines _ Hi i), Ea. split; intros [?|[?|[n Hin]]]; auto.
    - by apply list_elem_of_singleton in Hin.
    - by apply not_elem_of_nil in Hin. }
  destruct (decide (state s = contextStateAcquiring)) as [Es|Es].
  - unfold transition. simpl. rewrite Es. simpl. destruct Hi as [I1 I2 I3 I4 I5 I6 I7]. split; simpl; try done.
    + by left.
    + by intros e n ?%not_elem_of_nil.
    + intros i Hi. rewrite (I7 i Hi), Es. done.
  - apply transition_inv; [|done|done]. destruct Hi as [I1 I2 I3 I4 I5 I6 I7]. split; simpl; try done.
    + destruct (state s); try done; by left.
    + by intros e n ?%not_elem_of_nil.
Qed.

Lemma acquirer_step_inv s s' : acquirer_step retryBudget s s' → life_inv s → life_inv s'.
Proof.
  intros Hst Hi. pose proof (acquirers_single s Hi) as Hone.
  destruct Hst as [s l1 n l2 Ha Hv|s l1 n l2 p Ha Hv Hp|s l1 n l2 r r' err p Ha Hp|s l1 n l2 e Ha He|s l1 n l2 Ha He|s l1 e n l2 s' Ha Ht|s l1 e n l2 s' p Ha Hp Ht
    |s l1 reason l2 Ha]; destruct (single_split _ _ _ _ Hone Ha) as (-> & -> & Ea); clear Ha; cbn [app] in *.
  - eapply set_phase_inv; [done|exact Ea|done|done].
  - eapply set_phase_inv; [done|exact Ea|done|]. intros e n' ->. by inversion Hp.
  - apply handleWriteErrorLocked_inv. eapply set_phase_inv; [done|exact Ea|done|]. intros e n' ->. by inversion Hp.
  - eapply set_phase_inv; [done|exact Ea|done|]. intros e' n' [= <- <-]. by rewrite He.
  - by apply first_engine_inv.
  - destruct (decide (state s = contextStateAcquiring)) as [Es|Es].
    + destruct (acquired_inv s e n Hi Ea Es) as (s1 & EQ & Hs1). by rewrite EQ in Ht; simplify_eq.
    + unfold transition in Ht. simpl in Ht. by destruct (state s).
  - assert (Hv : IsValid s = false ∧ s' = set_acquirers s [p]).
    { pose proof (li_count _ Hi) as Hc. rewrite Ea in Hc. unfold transition in Ht. simpl in Ht. unfold IsValid.
      destruct (state s) eqn:Es; try done; try by simplify_eq.
      destruct (acquired_inv s e n Hi Ea Es) as (s1 & EQ & _). unfold transition in EQ. simpl in EQ. rewrite Es in EQ.
      destruct e as [e|], (engineFuture s); simplify_eq. }
    destruct Hv as [Hv ->]. by eapply not_acquired_inv.
  - by apply gave_up_inv.
Qed.

Lemma lifecycle_step_inv s s' : lifecycle_step retryBudget s s' → life_inv s → life_inv s'.
Proof.
  intros Hst Hi. destruct Hst as [s|s|s|s r r' err|s err|s s' Ha].
  - by apply transition_inv.
  - by apply transition_inv.
  - by apply FinishStop_inv.
  - by apply handleWriteErrorLocked_inv.
  - by apply handleReadError_inv.
  - by eapply acquirer_step_inv.
Qed.

(** Once stopping, a shard only goes on to stopped. *)
Lemma transition_invalid s request :
  IsValid s = false →
  IsValid (transition retryBudget s request).1 = false ∧
  (state s = contextStateStopped → state (transition retryBudget s request).1 = contextStateStopped).
Proof. unfold IsValid, transition. intros Hv. destruct (state s) eqn:Es; try done; destruct request; simpl; by rewrite ?Es. Qed.

Lemma stopping_for_good s s' :
  IsValid s = false → lifecycle_step retryBudget s s' →
  IsValid s' = false ∧ (state s = contextStateStopped → state s' = contextStateStopped).
Proof.
  intros Hv Hst.
  assert (Hw : ∀ s0 r r' err, IsValid s0 = false → handleWriteErrorLocked retryBudget s0 r r' err = s0).
  { intros s0 r r' err Hv0. unfold handleWriteErrorLocked. rewrite Hv0. by destruct (negb _). }
  destruct Hst as [s|s|s|s r r' err|s err|s s' Ha]; try by apply transition_invalid.
  - pose proof (transition_invalid s contextRequestFinishStop Hv) as Ht. unfold FinishStop.
    by destruct (engineFuture (transition retryBudget s contextRequestFinishStop).1).
  - by rewrite Hw.
  - unfold handleReadError. destruct err as [[]|]; try done; by apply transition_invalid.
  - destruct Ha as [s l1 n l2 _ Hv'|s l1 n l2 p _ _ _|s l1 n l2 r r' err p _ _|s l1 n l2 e _ _|s l1 n l2 _ _|s l1 e n l2 s' _ Ht|s l1 e n l2 s' p _ _ Ht
      |s l1 reason l2 _]; try congruence; try (split; [exact Hv|done]).
    + by rewrite Hw.
    + pose proof (transition_invalid (set_acquirers s (l1 ++ l2)) (contextRequestAcquired e) Hv) as Hs. by rewrite Ht in Hs.
    + pose proof (transition_invalid (set_acquirers s (l1 ++ p :: l2)) (contextRequestAcquired e) Hv) as Hs.
      rewrite Ht in Hs. by destruct e.
    + by apply (transition_invalid (set_acquirers s (l1 ++ l2))).
Qed.

Lemma lifecycle_steps_inv s s' : rtc (lifecycle_step retryBudget) s s' → life_inv s → life_inv s'.
Proof. induction 1 as [|s1 s2 s3 Hst _ IH]; [done|]. intros Hi. by apply IH, (lifecycle_step_inv s1). Qed.

(** ** Progress of [acquireShard] *)

Definition phase_measure (p : phase) : nat :=
  match p with Attempt n => 3 * n + 4 | Renewing n => 3 * n + 3 | Holding _ n => 3 * n + 2 | GaveUp _ => 1 end.
Definition measure s : nat := sum_list_with phase_measure (acquirers s).

Lemma retry_measure n p : retry n p → (phase_measure p ≤ 3 * n + 1)%nat.
Proof. intros [m|m reason]; simpl; lia. Qed.

Lemma handleWriteErrorLocked_acquirers s r r' err :
  state s ≠ contextStateAcquired → acquirers (handleWriteErrorLocked retryBudget s r r' err) = acquirers s.
Proof.
  intros Hs. unfold handleWriteErrorLocked, transition. destruct (negb _); [done|]. destruct (negb _); [done|].
  destruct err as [[]|]; try done; by destruct (state s).
Qed.

Lemma acquirer_step_measure s s' : life_inv s → acquirer_step retryBudget s s' → (measure s' < measure s)%nat.
Proof.
  intros Hi Hst. pose proof (acquirers_single s Hi) as Hone. pose proof (li_count _ Hi) as Hc. unfold measure.
  destruct Hst as [s l1 n l2 Ha Hv|s l1 n l2 p Ha Hv Hp|s l1 n l2 r r' err p Ha Hp|s l1 n l2 e Ha He|s l1 n l2 Ha He|s l1 e n l2 s' Ha Ht|s l1 e n l2 s' p Ha Hp Ht
    |s l1 reason l2 Ha]; destruct (single_split _ _ _ _ Hone Ha) as (-> & -> & Ea); clear Ha; cbn [app] in *; rewrite Ea in *.
  - simpl. lia.
  - apply retry_measure in Hp. simpl. lia.
  - rewrite handleWriteErrorLocked_acquirers by (simpl; intros Es; by rewrite Es in Hc).
    apply retry_measure in Hp. simpl. lia.
  - simpl. lia.
  - simpl. lia.
  - assert (acquirers s' = []) as ->.
    { unfold transition in Ht. simpl in Ht. destruct (state s), e, (engineFuture s); by simplify_eq/=. }
    simpl. lia.
  - apply retry_measure in Hp. assert (Hs' : acquirers s' = [p]).
    { unfold transition in Ht. simpl in Ht. destruct (state s), e, (engineFuture s); by simplify_eq/=. }
    destruct e; simpl; rewrite Hs'; simpl; lia.
  - assert (acquirers (transition retryBudget (set_acquirers s []) (contextRequestStop reason)).1 = []) as ->.
    { unfold transition. simpl. by destruct (state s). }
    simpl. lia.
Qed.

Lemma acquirer_enabled s : life_inv s → state s = contextStateAcquiring → ∃ s', acquirer_step retryBudget s s'.
Proof.
  intros Hi Es. pose proof (li_count _ Hi) as Hc. rewrite Es in Hc. destruct Hc as [[n|n|e n|reason] Ea].
  - eexists. eapply (aq_valid _ s [] n []); [done|by unfold IsValid; rewrite Es].
  - eexists. eapply (aq_fails _ s [] n [] 0 0 None (GaveUp stopReasonUnspecified)); [done|constructor].
  - destruct (acquired_inv s e n Hi Ea Es) as (s1 & EQ & _). exists s1. by eapply (aq_acquired _ s [] e n []).
  - eexists. by eapply (aq_gave_up _ s [] reason []).
Qed.

(** C29 Whatever requests the controller and failed reads and writes make, in any order: a shard that is being acquired
    has exactly one [acquireShard] running, and its report is accepted (the engine is neither missing nor set twice);
    a shard that accepts writes has a running engine; once a shard is stopping it never becomes valid again, its
    context is cancelled, and once it is stopped it stays so; and when a stopped shard's [acquireShard] has ended,
    every engine ever made has been stopped. *)
Theorem shard_lifecycle_safe s :
  rtc (lifecycle_step retryBudget) new_lifecycle s →
  (state s = contextStateAcquiring → ∃ p, acquirers s = [p] ∧
     ∀ e n, p = Holding e n → (transition retryBudget (set_acquirers s []) (contextRequestAcquired e)).2 = true) ∧
  (errorByState s = None → ∃ e, engineFuture s = Some e ∧ e ∉ stopped s) ∧
  (IsValid s = false → cancelled s = true ∧ ∀ s', lifecycle_step retryBudget s s' →
     IsValid s' = false ∧ (state s = contextStateStopped → state s' = contextStateStopped)) ∧
  (state s = contextStateStopped → acquirers s = [] → ∀ i, (i < engines s)%nat → i ∈ stopped s).
Proof.
  intros Hr. pose proof (lifecycle_steps_inv _ _ Hr new_lifecycle_inv) as Hi. split_and!.
  - intros Es. pose proof (li_count _ Hi) as Hc. rewrite Es in Hc. destruct Hc as [p Hp]. exists p. split; [done|].
    intros e n ->. by destruct (acquired_inv s e n Hi Hp Es) as (s1 & -> & _).
  - intros He. assert (Es : state s = contextStateAcquired) by (unfold errorByState in He; by destruct (state s)).
    destruct (li_engine _ Hi Es) as [e Hf]. exists e. split; [done|]. rewrite (li_running _ Hi e Hf), Es. done.
  - intros Hv. split; [by rewrite (li_cancelled _ Hi), Hv|].
    intros s' Hst. by apply stopping_for_good.
  - intros Es Ha i Hlt. apply (li_engines _ Hi) in Hlt as [?|[Hf|[n Hin]]]; [done|by apply (li_running _ Hi i Hf)|].
    rewrite Ha in Hin. by apply not_elem_of_nil in Hin.
Qed.

(** C30 A shard does not stay in the acquiring state by itself: from any reachable state the steps of [acquireShard] are
    bounded by what is left of its retries, whether attempts fail, ranges are renewed or reports are refused, and as
    long as the shard is acquiring such a step is possible. *)
Theorem acquire_ends s m s' :
  rtc (lifecycle_step retryBudget) new_lifecycle s → nsteps (acquirer_step retryBudget) m s s' →
  (m ≤ measure s)%nat ∧ ((∃ s'', acquirer_step retryBudget s' s'') ∨ state s' ≠ contextStateAcquiring).
Proof.
  intros Hr. pose proof (lifecycle_steps_inv _ _ Hr new_lifecycle_inv) as Hi. clear Hr. intros Hn.
  induction Hn as [s|m s1 s2 s3 Hst _ IH].
  - split; [lia|]. destruct (decide (state s = contextStateAcquiring)) as [Es|]; [left; by apply acquirer_enabled|by right].
  - destruct IH as [IH1 IH2]; [by eapply acquirer_step_inv|]. split; [|done].
    pose proof (acquirer_step_measure _ _ Hi Hst). lia.
Qed.
End invariant.

(** ** Witnesses: a shard is acquired, loses track of a write, and is acquired again *)

Definition acquired_once : lifecycle :=
  mkLifecycle contextStateAcquired stopReasonUnspecified (Some 0%nat) false [] 1 ∅.
Definition reacquiring : lifecycle :=
  mkLifecycle contextStateAcquiring stopReasonUnspecified (Some 0%nat) false [Attempt 2] 1 ∅.

Lemma reacquiring_reachable : rtc (lifecycle_step 2) new_lifecycle reacquiring.
Proof.
  eapply rtc_l; [apply ls_start|]. cbn.
  eapply rtc_l; [apply ls_acquirer; by eapply (aq_valid 2 _ [] 2 [])|]. cbn.
  eapply rtc_l; [apply ls_acquirer; by eapply (aq_renewed_first 2 _ [] 2 [])|]. cbn.
  eapply rtc_l; [apply ls_acquirer; by eapply (aq_acquired 2 _ [] (Some 0%nat) 2 [])|].
  apply rtc_once. exact (ls_write_error 2 acquired_once 5 5 (Some (OtherError 1))).
Qed.

Lemma shard_lifecycle_safe_witness :
  rtc (lifecycle_step 2) new_lifecycle reacquiring ∧
  (state reacquiring = contextStateAcquiring → ∃ p, acquirers reacquiring = [p] ∧
     ∀ e n, p = Holding e n → (transition 2 (set_acquirers reacquiring []) (contextRequestAcquired e)).2 = true).
Proof.
  split; [exact reacquiring_reachable|].
  exact (proj1 (shard_lifecycle_safe 2 reacquiring reacquiring_reachable)).
Defined.

Lemma acquire_ends_witness :
  nsteps (acquirer_step 2) 3 reacquiring acquired_once ∧ measure reacquiring = 10%nat ∧ (3 ≤ measure reacquiring)%nat ∧
  ((∃ s'', acquirer_step 2 acquired_once s'') ∨ state acquired_once ≠ contextStateAcquiring).
Proof.
  assert (Hs : nsteps (acquirer_step 2) 3 reacquiring acquired_once).
  { eapply nsteps_l; [by eapply (aq_valid 2 _ [] 2 [])|]. eapply nsteps_l; [by eapply (aq_renewed 2 _ [] 2 [] 0%nat)|]. apply nsteps_once. by eapply (aq_acquired 2 _ [] None 2 []). }
  split; [exact Hs|]. split; [reflexivity|]. exact (acquire_ends 2 reacquiring 3 acquired_once reacquiring_reachable Hs).
Defined.
