(* ===== verification/VersionHistory.v ===== *)
(** * Version histories: [common/persistence/versionhistory]

    A version history says by which failover version each event of a workflow's
    history was written, as a list of items: up to event so and so, version so and
    so.  Replication compares such histories to find where two branches part.  The
    abstract view is the [log], the list of the versions of all events. *)
From S2P Require Import Prelude.
Local Open Scope Z_scope.
Local Open Scope go_scope.

Record VersionHistoryItem := mkItem { EventId : Z; Version : Z }.
Record VersionHistory := mkVersionHistory { BranchToken : list Z; Items : list VersionHistoryItem }.
Record VersionHistories := mkVersionHistories { CurrentVersionHistoryIndex : Z; Histories : list VersionHistory }.

#[export] Instance VersionHistoryItem_eq_dec : EqDecision VersionHistoryItem.
Proof. solve_decision. Defined.

Inductive vh_error :=
  | LowerVersion | LowerEventId | EmptyHistory | NoJointPoint | LCAItemNotFound | EventIdOutOfRange
  | IndexOutOfRange | NilHistory | FirstItemMismatch | ItemNotContained.
Abbreviation vh := (outcome vh_error).

Definition FirstEventID : Z := 1.

(** ** Items ([version_history_item.go]) *)

Definition NewVersionHistoryItem (eventID version : Z) : vh VersionHistoryItem :=
  if (eventID <? 0) || (version <? 0) then Panic else Ok (mkItem eventID version).
Definition CopyVersionHistoryItem (item : VersionHistoryItem) : vh VersionHistoryItem :=
  NewVersionHistoryItem (EventId item) (Version item).
Definition IsEqualVersionHistoryItem (item1 item2 : VersionHistoryItem) : bool :=
  (EventId item1 =? EventId item2) && (Version item1 =? Version item2).
Fixpoint IsEqualVersionHistoryItems (items1 items2 : list VersionHistoryItem) : bool :=
  match items1, items2 with
  | [], [] => true
  | x :: xs, y :: ys => IsEqualVersionHistoryItem x y && IsEqualVersionHistoryItems xs ys
  | _, _ => false
  end.
Definition CompareVersionHistoryItem (item1 item2 : VersionHistoryItem) : Z :=
  if Version item1 <? Version item2 then -1
  else if Version item1 >? Version item2 then 1
  else if EventId item1 <? EventId item2 then -1
  else if EventId item1 >? EventId item2 then 1
  else 0.

(** ** Histories ([version_history.go]) *)

Definition NewVersionHistory (branchToken : list Z) (items : list VersionHistoryItem) : VersionHistory :=
  mkVersionHistory branchToken items.
Fixpoint CopyVersionHistoryItems (items : list VersionHistoryItem) : vh (list VersionHistoryItem) :=
  match items with
  | [] => Ok []
  | item :: items =>
      let! item := CopyVersionHistoryItem item in
      let! items := CopyVersionHistoryItems items in
      Ok (item :: items)
  end.
Definition CopyVersionHistory (v : VersionHistory) : vh VersionHistory :=
  let! items := CopyVersionHistoryItems (Items v) in
  Ok (NewVersionHistory (BranchToken v) items).
Definition SetVersionHistoryBranchToken (v : VersionHistory) (branchToken : list Z) : VersionHistory :=
  mkVersionHistory branchToken (Items v).

(** The last item and what is before it. *)
Definition AddOrUpdateVersionHistoryItem (v : VersionHistory) (item : VersionHistoryItem) : vh VersionHistory :=
  match last (Items v) with
  | None => let! item := CopyVersionHistoryItem item in Ok (mkVersionHistory (BranchToken v) [item])
  | Some lastItem =>
      if Version item <? Version lastItem then Err LowerVersion
      else if EventId item <=? EventId lastItem then Err LowerEventId
      else if Version item >? Version lastItem then
        let! item := CopyVersionHistoryItem item in Ok (mkVersionHistory (BranchToken v) (Items v ++ [item]))
      else Ok (mkVersionHistory (BranchToken v) (removelast (Items v) ++ [mkItem (EventId item) (Version lastItem)]))
  end.

Fixpoint copy_until (items : list VersionHistoryItem) (lcaItem : VersionHistoryItem) (versionHistory : VersionHistory)
    : vh VersionHistory :=
  match items with
  | [] => Err LCAItemNotFound
  | item :: items =>
      if Version item <? Version lcaItem then
        let! versionHistory := AddOrUpdateVersionHistoryItem versionHistory item in
        copy_until items lcaItem versionHistory
      else if Version item =? Version lcaItem then
        if EventId lcaItem >? EventId item then Err LCAItemNotFound
        else AddOrUpdateVersionHistoryItem versionHistory lcaItem
      else Err LCAItemNotFound
  end.
Definition CopyVersionHistoryUntilLCAVersionHistoryItem (v : VersionHistory) (lcaItem : VersionHistoryItem)
    : vh VersionHistory := copy_until (Items v) lcaItem (mkVersionHistory [] []).

Fixpoint contains_from (prevEventID : Z) (items : list VersionHistoryItem) (item : VersionHistoryItem) : bool :=
  match items with
  | [] => false
  | currentItem :: items =>
      if Version item =? Version currentItem then
        if (prevEventID <? EventId item) && (EventId item <=? EventId currentItem) then true
        else contains_from (EventId currentItem) items item
      else if Version item <? Version currentItem then false
      else contains_from (EventId currentItem) items item
  end.
Definition ContainsVersionHistoryItem (v : VersionHistory) (item : VersionHistoryItem) : bool :=
  contains_from (FirstEventID - 1) (Items v) item.

(** The loop from the ends of both lists, here given in reverse. *)
Fixpoint find_lca (ra : list VersionHistoryItem) : list VersionHistoryItem → vh VersionHistoryItem :=
  fix inner (rb : list VersionHistoryItem) : vh VersionHistoryItem :=
    match ra, rb with
    | aItem :: ra', bItem :: rb' =>
        if Version aItem =? Version bItem then
          if EventId aItem >? EventId bItem then CopyVersionHistoryItem bItem else Ok aItem
        else if Version aItem >? Version bItem then find_lca ra' rb
        else inner rb'
    | _, _ => Err NoJointPoint
    end.
Definition FindLCAVersionHistoryItemFromItemSlice (itemsA itemsB : list VersionHistoryItem) : vh VersionHistoryItem :=
  find_lca (reverse itemsA) (reverse itemsB).
Definition FindLCAVersionHistoryItem (v remote : VersionHistory) : vh VersionHistoryItem :=
  FindLCAVersionHistoryItemFromItemSlice (Items v) (Items remote).

Definition getLastVersionHistoryItem (v : list VersionHistoryItem) : vh VersionHistoryItem :=
  match last v with None => Err EmptyHistory | Some item => CopyVersionHistoryItem item end.
Definition GetLastVersionHistoryItem (v : VersionHistory) : vh VersionHistoryItem := getLastVersionHistoryItem (Items v).
Definition GetFirstVersionHistoryItem (v : VersionHistory) : vh VersionHistoryItem :=
  match head (Items v) with None => Err EmptyHistory | Some item => CopyVersionHistoryItem item end.

Definition int32_len {A} (l : list A) : Z := wrap32 (Z.of_nat (length l)).

(** The best index so far with its item and length; [None] before the first. *)
Fixpoint best_lca (index : Z) (locals : list (list VersionHistoryItem)) (incoming : list VersionHistoryItem)
    (best : option (VersionHistoryItem * Z * Z)) : vh (option (VersionHistoryItem * Z * Z)) :=
  match locals with
  | [] => Ok best
  | localHistory :: locals =>
      let! item := FindLCAVersionHistoryItemFromItemSlice localHistory incoming in
      let better :=
        match best with
        | None => true
        | Some (bestItem, _, bestLength) =>
            (EventId item >? EventId bestItem) ||
            ((EventId item =? EventId bestItem) && (int32_len localHistory <? bestLength))
        end in
      best_lca (index + 1) locals incoming
        (if better then Some (item, wrap32 index, int32_len localHistory) else best)
  end.
(** With no history at all the copied item is nil: a panic. *)
Definition FindLCAVersionHistoryItemFromItems (itemsA : list (list VersionHistoryItem)) (itemsB : list VersionHistoryItem)
    : vh (VersionHistoryItem * Z) :=
  let! best := best_lca 0 itemsA itemsB None in
  match best with
  | None => Panic
  | Some (item, index, _) => let! item := CopyVersionHistoryItem item in Ok (item, index)
  end.

Definition IsVersionHistoryItemsInSameBranch (itemsA itemsB : list VersionHistoryItem) : vh bool :=
  match FindLCAVersionHistoryItemFromItemSlice itemsA itemsB with
  | Err _ => Ok false
  | Panic => Panic
  | Ok lca =>
      match getLastVersionHistoryItem itemsA, getLastVersionHistoryItem itemsB with
      | Panic, _ | Ok _, Panic => Panic
      | Err _, _ | Ok _, Err _ => Ok false
      | Ok a, Ok b => Ok (IsEqualVersionHistoryItem lca a || IsEqualVersionHistoryItem lca b)
      end
  end.

(** The number of items up to the last one of the local cluster. *)
Fixpoint local_items (items : list VersionHistoryItem) (initialFailoverVersion failoverVersionIncrement : Z) : nat :=
  match items with
  | [] => 0
  | item :: items =>
      match local_items items initialFailoverVersion failoverVersionIncrement with
      | O => if Z.rem (Version item) failoverVersionIncrement =? initialFailoverVersion then 1 else 0
      | S n => S (S n)
      end
  end.
Definition SplitVersionHistoryByLastLocalGeneratedItem (items : list VersionHistoryItem)
    (initialFailoverVersion failoverVersionIncrement : Z) : vh (list VersionHistoryItem * list VersionHistoryItem) :=
  if (failoverVersionIncrement =? 0) && negb (bool_decide (items = [])) then Panic
  else
    let n := local_items items initialFailoverVersion failoverVersionIncrement in
    Ok (take n items, drop n items).

(** [None] is a nil [lcaItem]. *)
Definition IsLCAVersionHistoryItemAppendable (v : VersionHistory) (lcaItem : option VersionHistoryItem) : vh bool :=
  match last (Items v), lcaItem with
  | Some item, Some lca => Ok (IsEqualVersionHistoryItem item lca)
  | _, _ => Panic
  end.

Fixpoint event_version (items : list VersionHistoryItem) (eventID : Z) : vh Z :=
  match items with
  | [] => Err EventIdOutOfRange
  | currentItem :: items => if eventID <=? EventId currentItem then Ok (Version currentItem) else event_version items eventID
  end.
Definition GetVersionHistoryEventVersion (v : VersionHistory) (eventID : Z) : vh Z :=
  let! lastItem := GetLastVersionHistoryItem v in
  if (eventID <? FirstEventID) || (eventID >? EventId lastItem) then Err EventIdOutOfRange
  else event_version (Items v) eventID.

Definition IsEmptyVersionHistory (v : VersionHistory) : bool := (length (Items v) =? 0)%nat.
Definition CompareVersionHistory (v1 v2 : VersionHistory) : vh Z :=
  let! lastItem1 := GetLastVersionHistoryItem v1 in
  let! lastItem2 := GetLastVersionHistoryItem v2 in
  Ok (CompareVersionHistoryItem lastItem1 lastItem2).

(** ** Sets of histories ([version_histories.go]) *)

Definition NewVersionHistories (versionHistory : option VersionHistory) : vh VersionHistories :=
  match versionHistory with None => Panic | Some v => Ok (mkVersionHistories 0 [v]) end.
Fixpoint copy_histories (l : list VersionHistory) : vh (list VersionHistory) :=
  match l with
  | [] => Ok []
  | v :: l => let! v := CopyVersionHistory v in let! l := copy_histories l in Ok (v :: l)
  end.
Definition CopyVersionHistories (h : VersionHistories) : vh VersionHistories :=
  let! l := copy_histories (Histories h) in Ok (mkVersionHistories (CurrentVersionHistoryIndex h) l).

Definition GetVersionHistory (h : VersionHistories) (index : Z) : vh VersionHistory :=
  if (index <? 0) || (int32_len (Histories h) <=? index) then Err IndexOutOfRange
  else match Histories h !! Z.to_nat index with Some v => Ok v | None => Panic end.

Fixpoint first_empty (index : nat) (l : list VersionHistory) : option nat :=
  match l with
  | [] => None
  | v :: l => if IsEmptyVersionHistory v then Some index else first_empty (S index) l
  end.
Definition AddEmptyVersionHistory (h : VersionHistories) : VersionHistories * Z :=
  match first_empty 0 (Histories h) with
  | Some idx => (h, wrap32 (Z.of_nat idx))
  | None =>
      let h := mkVersionHistories (CurrentVersionHistoryIndex h) (Histories h ++ [mkVersionHistory [] []]) in
      (h, wrap32 (int32_len (Histories h) - 1))
  end.

Definition AddVersionHistory (h : VersionHistories) (v : option VersionHistory) : vh (VersionHistories * Z) :=
  match v with
  | None => Err NilHistory
  | Some v =>
      let! incomingFirstItem := GetFirstVersionHistoryItem v in
      let! currentVersionHistory := GetVersionHistory h (CurrentVersionHistoryIndex h) in
      let! currentFirstItem := GetFirstVersionHistoryItem currentVersionHistory in
      if negb (Version incomingFirstItem =? Version currentFirstItem) then Err FirstItemMismatch
      else
        let! newVersionHistory := CopyVersionHistory v in
        let h := mkVersionHistories (CurrentVersionHistoryIndex h) (Histories h ++ [newVersionHistory]) in
        Ok (h, wrap32 (int32_len (Histories h) - 1))
  end.

Definition AddAndSwitchVersionHistory (h : VersionHistories) (v : option VersionHistory) : vh (VersionHistories * bool * Z) :=
  let! (h, newVersionHistoryIndex) := AddVersionHistory h v in
  let! newLastItem := match v with Some v => GetLastVersionHistoryItem v | None => Panic end in
  let! currentVersionHistory := GetVersionHistory h (CurrentVersionHistoryIndex h) in
  let! currentLastItem := GetLastVersionHistoryItem currentVersionHistory in
  if Version newLastItem >? Version currentLastItem
  then Ok (mkVersionHistories newVersionHistoryIndex (Histories h), true, newVersionHistoryIndex)
  else Ok (h, false, newVersionHistoryIndex).

Definition FindLCAVersionHistoryItemAndIndex (h : VersionHistories) (incomingHistory : VersionHistory)
    : vh (VersionHistoryItem * Z) :=
  FindLCAVersionHistoryItemFromItems (map Items (Histories h)) (Items incomingHistory).

Fixpoint first_containing (index : nat) (l : list VersionHistory) (item : VersionHistoryItem) : option nat :=
  match l with
  | [] => None
  | v :: l => if ContainsVersionHistoryItem v item then Some index else first_containing (S index) l item
  end.
Definition FindFirstVersionHistoryIndexByVersionHistoryItem (h : VersionHistories) (item : VersionHistoryItem) : vh Z :=
  match first_containing 0 (Histories h) item with
  | Some i => Ok (wrap32 (Z.of_nat i))
  | None => Err ItemNotContained
  end.

Definition SetCurrentVersionHistoryIndex (h : VersionHistories) (index : Z) : vh VersionHistories :=
  if (index <? 0) || (int32_len (Histories h) <=? index) then Err IndexOutOfRange
  else Ok (mkVersionHistories index (Histories h)).
Definition GetCurrentVersionHistory (h : VersionHistories) : vh VersionHistory :=
  GetVersionHistory h (CurrentVersionHistoryIndex h).
Definition IsCurrentVersionHistoryEmpty (h : VersionHistories) : vh bool :=
  let! currentVersionHistory := GetCurrentVersionHistory h in
  Ok (IsEmptyVersionHistory currentVersionHistory).
