(* ===== verification/VersionHistoryProps.v ===== *)
(** * Version histories refine the log of event versions

    The abstract view of a version history is its [log]: the failover version of every
    event, in the order of the events.  The operations on the compressed list of items
    are the plain ones on that list (append, lookup, prefix, last), and the item that
    [FindLCAVersionHistoryItem] answers is the end of the longest common prefix. *)
From S2P Require Import Prelude VersionHistory.
Local Open Scope Z_scope.
Local Open Scope go_scope.

(** ** The abstraction *)

(** The versions of the events after [prev]. *)
Fixpoint log_from (prev : Z) (items : list VersionHistoryItem) : list Z :=
  match items with
  | [] => []
  | item :: items => replicate (Z.to_nat (EventId item - prev)) (Version item) ++ log_from (EventId item) items
  end.
Definition log (v : VersionHistory) : list Z := log_from 0 (Items v).

(** Event ids and versions increase from item to item. *)
Fixpoint wf_items (prev ver : Z) (items : list VersionHistoryItem) : Prop :=
  match items with
  | [] => True
  | item :: items => prev < EventId item ∧ ver < Version item ∧ wf_items (EventId item) (Version item) items
  end.
Definition wf (v : VersionHistory) : Prop := wf_items 0 (-1) (Items v).

Definition wf_item (item : VersionHistoryItem) : Prop := FirstEventID ≤ EventId item ∧ 0 ≤ Version item.

(** Extending the log up to an event id, or refusing to. *)
Definition log_add (l : list Z) (item : VersionHistoryItem) : vh (list Z) :=
  if match last l with Some ver => Version item <? ver | None => false end then Err LowerVersion
  else if EventId item <=? Z.of_nat (length l) then Err LowerEventId
  else Ok (l ++ replicate (Z.to_nat (EventId item - Z.of_nat (length l))) (Version item)).

(** Event [e], counted from 1, was written by version [ver]. *)
Definition at_event (l : list Z) (e ver : Z) : Prop := 1 ≤ e ∧ l !! Z.to_nat (e - 1) = Some ver.

(** ** Items and the log *)

Definition last_event (prev : Z) (items : list VersionHistoryItem) : Z := from_option EventId prev (last items).

Lemma last_event_cons prev item items : last_event prev (item :: items) = last_event (EventId item) items.
Proof. unfold last_event. destruct items as [|i l]; [done|]. rewrite last_cons_cons. by destruct (last (i :: l)) eqn:E; [|rewrite last_None in E]. Qed.

Lemma wf_items_last_event prev ver items : wf_items prev ver items → prev ≤ last_event prev items.
Proof.
  revert prev ver. induction items as [|item items IH]; intros prev ver; [simpl; unfold last_event; simpl; lia|].
  intros (? & ? & W). rewrite last_event_cons. specialize (IH _ _ W). lia.
Qed.

Lemma length_log prev ver items :
  wf_items prev ver items → Z.of_nat (length (log_from prev items)) = last_event prev items - prev.
Proof.
  revert prev ver. induction items as [|item items IH]; intros prev ver; [unfold last_event; simpl; lia|].
  intros (? & ? & W). rewrite last_event_cons. simpl. rewrite length_app, length_replicate.
  specialize (IH _ _ W). lia.
Qed.

(** The version the code's lookup loop finds is the log's. *)
Lemma lookup_log prev ver items e :
  wf_items prev ver items → prev < e →
  log_from prev items !! Z.to_nat (e - prev - 1)
  = match event_version items e with Ok v => Some v | _ => None end.
Proof.
  revert prev ver. induction items as [|item items IH]; intros prev ver; [done|].
  intros (? & ? & W) ?. simpl. destruct (Z.leb_spec e (EventId item)).
  - rewrite lookup_app_l by (rewrite length_replicate; lia).
    rewrite lookup_replicate_2 by lia. done.
  - rewrite lookup_app_r by (rewrite length_replicate; lia). rewrite length_replicate.
    rewrite <- (IH _ _ W) by lia. f_equal. lia.
Qed.

Lemma event_version_above prev ver items e v :
  wf_items prev ver items → event_version items e = Ok v → ver < v.
Proof.
  revert prev ver. induction items as [|item items IH]; intros prev ver; [done|].
  intros (? & ? & W). simpl. case_match; [intros [= <-]; lia|].
  intros E. specialize (IH _ _ W E). lia.
Qed.

Lemma event_version_range prev ver items e :
  wf_items prev ver items →
  if decide (e ≤ last_event prev items) then items = [] ∨ ∃ v, event_version items e = Ok v
  else event_version items e = Err EventIdOutOfRange.
Proof.
  revert prev ver. induction items as [|item items IH]; intros prev ver.
  - intros _. by case_decide; [left|].
  - intros (? & ? & W). rewrite last_event_cons. simpl. specialize (IH _ _ W).
    destruct (Z.leb_spec e (EventId item)).
    + pose proof (wf_items_last_event _ _ _ W). rewrite decide_True by lia. eauto.
    + case_decide; [|done]. destruct IH as [-> | ?]; [|by right].
      unfold last_event in *. simpl in *. lia.
Qed.

Lemma contains_from_spec prev ver items item :
  wf_items prev ver items →
  contains_from prev items item = true ↔ prev < EventId item ∧ event_version items (EventId item) = Ok (Version item).
Proof.
  revert prev ver. induction items as [|cur items IH]; intros prev ver; [simpl; naive_solver|].
  intros (? & ? & W). simpl.
  pose proof (IH _ _ W) as IHc.
  pose proof (event_version_above _ _ _ (EventId item) (Version item) W) as Hab.
  destruct (Z.eqb_spec (Version item) (Version cur)) as [E|E].
  - destruct (Z.ltb_spec prev (EventId item)), (Z.leb_spec (EventId item) (EventId cur)); simpl;
      rewrite ?IHc, ?E in *; split; intros; repeat split; try lia; try done; naive_solver lia.
  - destruct (Z.ltb_spec (Version item) (Version cur)); [|rewrite IHc];
      destruct (Z.leb_spec (EventId item) (EventId cur)); split; intros; repeat split; try done; naive_solver lia.
Qed.

Lemma at_event_version v e ver :
  wf v → at_event (log v) e ver ↔ 1 ≤ e ∧ event_version (Items v) e = Ok ver.
Proof.
  intros W. unfold at_event, log. split; intros [? L]; (split; [done|]).
  - replace (e - 1) with (e - 0 - 1) in L by lia. rewrite (lookup_log _ _ _ _ W) in L by lia. by case_match; simplify_eq.
  - replace (e - 1) with (e - 0 - 1) by lia. rewrite (lookup_log _ _ _ _ W) by lia. by rewrite L.
Qed.

(** *** Adding at the end *)

Definition last_version (ver : Z) (items : list VersionHistoryItem) : Z := from_option Version ver (last items).

Lemma last_version_cons ver item items : last_version ver (item :: items) = last_version (Version item) items.
Proof. unfold last_version. destruct items as [|i l]; [done|]. rewrite last_cons_cons. by destruct (last (i :: l)) eqn:E; [|rewrite last_None in E]. Qed.

Lemma wf_items_snoc prev ver items item :
  wf_items prev ver (items ++ [item]) ↔
  wf_items prev ver items ∧ last_event prev items < EventId item ∧ last_version ver items < Version item.
Proof.
  revert prev ver. induction items as [|i items IH]; intros prev ver; simpl.
  - unfold last_event, last_version; simpl. tauto.
  - rewrite IH, last_event_cons, last_version_cons. tauto.
Qed.

Lemma log_from_snoc prev items item :
  log_from prev (items ++ [item])
  = log_from prev items ++ replicate (Z.to_nat (EventId item - last_event prev items)) (Version item).
Proof.
  revert prev. induction items as [|i items IH]; intros prev; simpl; [by rewrite app_nil_r|].
  rewrite IH, last_event_cons, <- app_assoc. done.
Qed.

Lemma last_replicate_pos {A} n (x : A) : (0 < n)%nat → last (replicate n x) = Some x.
Proof.
  intros. rewrite last_lookup, length_replicate. apply lookup_replicate_2. lia.
Qed.

Lemma wf_last prev ver items lastItem :
  wf_items prev ver items → last items = Some lastItem →
  last (log_from prev items) = Some (Version lastItem) ∧
  Z.of_nat (length (log_from prev items)) = EventId lastItem - prev ∧
  ver < Version lastItem ∧ prev < EventId lastItem.
Proof.
  intros W L. rewrite (length_log _ _ _ W).
  apply last_Some in L as [l ->]. pose proof W as W'. apply wf_items_snoc in W as (W & HE & HV).
  rewrite log_from_snoc, last_app, last_replicate_pos by lia.
  pose proof (wf_items_last_event _ _ _ W). unfold last_event at 1. rewrite last_snoc. simpl.
  repeat split; try lia. clear -W HV. revert prev ver W HV.
  induction l as [|i l IH]; intros prev ver; [done|]. intros (? & ? & W). rewrite last_version_cons.
  intros HV. specialize (IH _ _ W HV). lia.
Qed.

Lemma copy_item item : wf_item item → CopyVersionHistoryItem item = Ok item.
Proof.
  intros [? ?]. unfold CopyVersionHistoryItem, NewVersionHistoryItem, FirstEventID in *.
  rewrite (proj2 (Z.ltb_ge _ _)), (proj2 (Z.ltb_ge (Version item) _)) by lia. by destruct item.
Qed.

Lemma wf_items_wf_item prev ver items item :
  wf_items prev ver items → 0 ≤ prev → -1 ≤ ver → item ∈ items → wf_item item.
Proof.
  revert prev ver. induction items as [|i items IH]; intros prev ver; [by rewrite elem_of_nil|].
  intros (? & ? & W) ? ?. rewrite elem_of_cons. unfold wf_item, FirstEventID in *. intros [->|?]; [lia|].
  eapply IH; [apply W| | |done]; lia.
Qed.

Lemma removelast_snoc {A} (l : list A) x : removelast (l ++ [x]) = l.
Proof. rewrite removelast_app by done. simpl. by rewrite app_nil_r. Qed.

(** The two views of extending a history fail together, with the same error, and
    agree on the result. *)
Definition same_add (r : vh VersionHistory) (l : vh (list Z)) : Prop :=
  match r, l with
  | Ok v, Ok l => wf v ∧ log v = l
  | Err e, Err e' => e = e'
  | _, _ => False
  end.

Lemma add_or_update_log v item :
  wf v → wf_item item → same_add (AddOrUpdateVersionHistoryItem v item) (log_add (log v) item).
Proof.
  intros W Hi. unfold AddOrUpdateVersionHistoryItem, log_add. rewrite copy_item by done.
  unfold wf_item, FirstEventID in *. destruct (last (Items v)) as [lastItem|] eqn:L.
  - destruct (wf_last _ _ _ _ W L) as (HL & Hlen & Hv & He). unfold log. rewrite HL.
    case_match; [done|]. rewrite Z.sub_0_r in Hlen. rewrite Hlen. case_match; [done|].
    unfold wf in W. apply last_Some in L as [l E]. unfold same_add, wf, log.
    destruct (Version item >? Version lastItem) eqn:G; bool_to_prop; simpl.
    + rewrite wf_items_snoc, log_from_snoc, E. rewrite E in W. unfold last_event, last_version. rewrite !last_snoc. simpl.
      repeat split; try done; lia.
    + rewrite E, removelast_snoc, wf_items_snoc, !log_from_snoc. rewrite E in W. apply wf_items_snoc in W as (W & ? & ?). simpl.
      assert (Version lastItem = Version item) as -> by lia.
      rewrite <- app_assoc, <- replicate_add. split; [repeat split; try done; lia|]. f_equal. f_equal. lia.
  - apply last_None in L. unfold log. rewrite L. simpl.
    rewrite (proj2 (Z.leb_gt _ _)) by lia. unfold same_add, wf, log. simpl. rewrite app_nil_r. repeat split; lia.
Qed.

(** *** Prefixes *)

Lemma add_snoc items item :
  wf_items 0 (-1) (items ++ [item]) →
  AddOrUpdateVersionHistoryItem (mkVersionHistory [] items) item = Ok (mkVersionHistory [] (items ++ [item])).
Proof.
  intros W. unfold AddOrUpdateVersionHistoryItem. simpl.
  rewrite copy_item by (eapply wf_items_wf_item; [apply W | lia | lia | set_solver]).
  destruct (last items) as [lastItem|] eqn:L; [|apply last_None in L as ->; done].
  apply wf_items_snoc in W as (_ & He & Hv). unfold last_event, last_version in *. rewrite L in *. simpl in *.
  rewrite (proj2 (Z.ltb_ge _ _)), (proj2 (Z.leb_gt _ _)), (proj2 (Z.gtb_lt _ _)) by lia. done.
Qed.

Lemma wf_items_app prev ver l1 l2 :
  wf_items prev ver (l1 ++ l2) ↔ wf_items prev ver l1 ∧ wf_items (last_event prev l1) (last_version ver l1) l2.
Proof.
  revert prev ver. induction l1 as [|i l1 IH]; intros prev ver; simpl; [unfold last_event, last_version; simpl; tauto|].
  rewrite IH, last_event_cons, last_version_cons. tauto.
Qed.

Lemma log_from_app prev l1 l2 : log_from prev (l1 ++ l2) = log_from prev l1 ++ log_from (last_event prev l1) l2.
Proof.
  revert prev. induction l1 as [|i l1 IH]; intros prev; simpl; [done|].
  by rewrite IH, last_event_cons, <- app_assoc.
Qed.

(** The last round of the loop: the copied prefix ends inside the item. *)
Lemma copy_last_item done_ cur rest lca :
  wf_items 0 (-1) (done_ ++ cur :: rest) → wf_item lca →
  Version lca = Version cur → EventId lca ≤ EventId cur → last_event 0 done_ < EventId lca →
  ∃ v, AddOrUpdateVersionHistoryItem (mkVersionHistory [] done_) lca = Ok v ∧ wf v ∧
       log v = take (Z.to_nat (EventId lca)) (log_from 0 (done_ ++ cur :: rest)).
Proof.
  intros W Hl HV HE Hp. apply wf_items_app in W as [W1 (? & ? & W2)].
  eexists. rewrite add_snoc; [split; [done|]|]; rewrite ?wf_items_snoc; [|repeat split; try done; lia].
  split; [unfold wf; simpl; rewrite wf_items_snoc; repeat split; try done; lia|].
  unfold log. simpl. rewrite log_from_snoc, log_from_app. simpl. rewrite app_assoc.
  pose proof (length_log _ _ _ W1). pose proof (wf_items_last_event _ _ _ W1).
  rewrite take_app_le by (rewrite length_app, length_replicate; lia).
  rewrite take_app, take_ge by lia. f_equal. rewrite take_replicate, HV. f_equal. lia.
Qed.

Lemma copy_until_log lca items done_ :
  wf_items 0 (-1) (done_ ++ items) → wf_item lca →
  match copy_until items lca (mkVersionHistory [] done_) with
  | Ok v' => last_event 0 done_ < EventId lca ∧ event_version items (EventId lca) = Ok (Version lca) ∧
             wf v' ∧ log v' = take (Z.to_nat (EventId lca)) (log_from 0 (done_ ++ items))
  | Err _ => ¬ (last_event 0 done_ < EventId lca ∧ event_version items (EventId lca) = Ok (Version lca))
  | Panic => False
  end.
Proof.
  revert done_. induction items as [|cur rest IH]; intros done_ W Hl; simpl; [naive_solver|].
  pose proof W as W0. apply wf_items_app in W as [W1 (? & ? & W2)].
  destruct (Z.ltb_spec (Version cur) (Version lca)).
  - rewrite add_snoc by (rewrite wf_items_snoc; done). simpl.
    specialize (IH (done_ ++ [cur])). rewrite <- app_assoc in IH. specialize (IH W0 Hl).
    unfold last_event in IH at 1 2. rewrite last_snoc in IH. simpl in IH.
    destruct (copy_until rest lca _); [|intros [? E]; apply IH; revert E|done];
      destruct (Z.leb_spec (EventId lca) (EventId cur)); [lia|split_and!; naive_solver lia|naive_solver lia|naive_solver lia].
  - destruct (Z.eqb_spec (Version cur) (Version lca)).
    + destruct (Z.gtb_spec (EventId lca) (EventId cur)).
      * rewrite (proj2 (Z.leb_gt _ _)) by lia. intros [_ E]. apply (event_version_above _ _ _ _ _ W2) in E. lia.
      * rewrite (proj2 (Z.leb_le _ _)) by lia.
        destruct (decide (last_event 0 done_ < EventId lca)).
        -- destruct (copy_last_item done_ cur rest lca) as (v & -> & ? & ?); try done; try lia.
           split_and!; try done. by f_equal.
        -- unfold AddOrUpdateVersionHistoryItem. simpl. unfold last_event in *.
           destruct Hl. unfold FirstEventID in *.
           destruct (last done_) as [lastItem|]; simpl in *; [|lia].
           rewrite (proj2 (Z.leb_le _ (EventId lastItem))) by lia. destruct (Version lca <? Version lastItem); naive_solver.
    + intros [_ E]. destruct (EventId lca <=? EventId cur); [naive_solver lia|].
      apply (event_version_above _ _ _ _ _ W2) in E. lia.
Qed.

(** *** The log determines the items *)

Lemma log_head_le prev ver ver' i1 l1 i2 l2 :
  wf_items prev ver (i1 :: l1) → wf_items prev ver' (i2 :: l2) →
  log_from prev (i1 :: l1) = log_from prev (i2 :: l2) →
  Version i1 = Version i2 ∧ EventId i2 ≤ EventId i1.
Proof.
  intros W1 W2 E. assert (Version i1 = Version i2) as HV.
  { apply (f_equal head) in E. destruct W1 as (? & _), W2 as (? & _). simpl in E.
    destruct (Z.to_nat (EventId i1 - prev)) eqn:?, (Z.to_nat (EventId i2 - prev)) eqn:?; try lia. by simplify_eq/=. }
  split; [done|]. apply Z.nlt_ge. intros L.
  pose proof (lookup_log _ _ _ (EventId i1 + 1) W1) as E1. pose proof (lookup_log _ _ _ (EventId i1 + 1) W2) as E2.
  destruct W1 as (? & ? & W1). rewrite E, E2 in E1 by lia. simpl in E1.
  rewrite (proj2 (Z.leb_le (EventId i1 + 1) _)), (proj2 (Z.leb_gt (EventId i1 + 1) _)) in E1 by lia.
  specialize (E1 ltac:(lia)). destruct (event_version l1 _) eqn:E'; try done.
  apply (event_version_above _ _ _ _ _ W1) in E'. simplify_eq. lia.
Qed.

Lemma log_from_inj prev ver ver' l1 l2 :
  wf_items prev ver l1 → wf_items prev ver' l2 → log_from prev l1 = log_from prev l2 → l1 = l2.
Proof.
  revert prev ver ver' l2. induction l1 as [|i1 l1 IH]; intros prev ver ver' [|i2 l2] W1 W2 E; [done| | |].
  1, 2: apply (f_equal length) in E; simpl in E; rewrite length_app, length_replicate in E; simpl in *; lia.
  destruct (log_head_le _ _ _ _ _ _ _ W1 W2 E) as [HV H1], (log_head_le _ _ _ _ _ _ _ W2 W1 (eq_sym E)) as [_ H2].
  destruct i1 as [e1 v1], i2 as [e2 v2]. simpl in HV, H1, H2. subst v2. assert (e1 = e2) as <- by lia.
  f_equal. simpl in E. apply app_inv_head in E. destruct W1 as (_ & _ & W1), W2 as (_ & _ & W2). eauto.
Qed.

Lemma IsEqualVersionHistoryItems_eq l1 l2 : IsEqualVersionHistoryItems l1 l2 = true ↔ l1 = l2.
Proof.
  revert l2. induction l1 as [|[e1 v1] l1 IH]; intros [|[e2 v2] l2]; simpl; try done.
  unfold IsEqualVersionHistoryItem. rewrite !andb_true_iff, !Z.eqb_eq, IH. simpl. naive_solver.
Qed.

Lemma equal_log a b : wf a → wf b → IsEqualVersionHistoryItems (Items a) (Items b) = true ↔ log a = log b.
Proof.
  intros Wa Wb. rewrite IsEqualVersionHistoryItems_eq. unfold log. split; [by intros ->|]. by apply log_from_inj with (-1) (-1).
Qed.

(** *** Ends *)

Lemma last_item_log v :
  wf v →
  match GetLastVersionHistoryItem v with
  | Ok item => wf_item item ∧ last (Items v) = Some item ∧
               EventId item = Z.of_nat (length (log v)) ∧ last (log v) = Some (Version item)
  | Err _ => log v = [] ∧ Items v = []
  | Panic => False
  end.
Proof.
  intros W. unfold GetLastVersionHistoryItem, getLastVersionHistoryItem. destruct (last (Items v)) as [item|] eqn:L.
  - assert (wf_item item). { eapply wf_items_wf_item; [apply W|lia|lia|]. apply last_Some in L as [l ->]. set_solver. }
    rewrite copy_item by done. destruct (wf_last _ _ _ _ W L) as (? & ? & _). unfold log. split_and!; try done. lia.
  - apply last_None in L. unfold log. by rewrite L.
Qed.

Lemma event_version_log v e :
  wf v →
  match GetVersionHistoryEventVersion v e with
  | Ok ver => at_event (log v) e ver
  | Err _ => ∀ ver, ¬ at_event (log v) e ver
  | Panic => False
  end.
Proof.
  intros W. unfold GetVersionHistoryEventVersion. pose proof (last_item_log v W) as HL.
  destruct (GetLastVersionHistoryItem v) as [item|err|]; simpl; [|by destruct HL as [-> _]; intros ver []|done].
  destruct HL as (_ & HL & He & _). unfold FirstEventID.
  destruct (Z.ltb_spec e 1) as [|H1]; simpl; [intros ver [? _]; lia|].
  destruct (Z.gtb_spec e (EventId item)) as [H2|H2].
  - intros ver [_ Hl]. apply lookup_lt_Some in Hl. lia.
  - pose proof (event_version_range _ _ _ e W) as R. unfold last_event in R. rewrite HL in R. simpl in R.
    rewrite decide_True in R by lia. destruct R as [R | [ver R]]; [by rewrite R in HL|].
    rewrite R. apply at_event_version; done.
Qed.

(** C25 A version history refines the log of the versions of its events.  Adding an item
    extends the log with copies of the version up to the event id, and refuses exactly
    what the log refuses: a version lower than the last, an event id that is not new.
    Membership and the version of an event are lookups, a copy up to an item is a prefix
    of the log and fails exactly when the item is not in the history, and two histories
    are equal exactly when their logs are.  No call panics and well-formedness is kept. *)
Theorem version_history_refines_log v item (W : wf v) (Hi : wf_item item) :
  same_add (AddOrUpdateVersionHistoryItem v item) (log_add (log v) item) ∧
  (ContainsVersionHistoryItem v item = true ↔ at_event (log v) (EventId item) (Version item)) ∧
  (∀ e, match GetVersionHistoryEventVersion v e with
        | Ok ver => at_event (log v) e ver
        | Err _ => ∀ ver, ¬ at_event (log v) e ver
        | Panic => False
        end) ∧
  match CopyVersionHistoryUntilLCAVersionHistoryItem v item with
  | Ok v' => at_event (log v) (EventId item) (Version item) ∧ wf v' ∧ log v' = take (Z.to_nat (EventId item)) (log v)
  | Err _ => ¬ at_event (log v) (EventId item) (Version item)
  | Panic => False
  end ∧
  (∀ v', wf v' → IsEqualVersionHistoryItems (Items v) (Items v') = true ↔ log v = log v').
Proof.
  assert (1 ≤ EventId item) by apply Hi. split_and!.
  - by apply add_or_update_log.
  - rewrite at_event_version by done. unfold ContainsVersionHistoryItem, FirstEventID.
    rewrite (contains_from_spec _ _ _ _ W). naive_solver lia.
  - intros e. by apply event_version_log.
  - pose proof (copy_until_log item (Items v) [] W Hi) as C.
    unfold CopyVersionHistoryUntilLCAVersionHistoryItem. change (last_event 0 []) with 0 in C. simpl in C.
    destruct (copy_until _ _ _); rewrite ?at_event_version by done; naive_solver lia.
  - intros v' W'. by apply equal_log.
Qed.

Lemma version_history_refines_log_witness :
  let v := mkVersionHistory [] [mkItem 3 1; mkItem 7 5] in
  wf v ∧ log v = [1; 1; 1; 5; 5; 5; 5] ∧
  same_add (AddOrUpdateVersionHistoryItem v (mkItem 9 5)) (Ok [1; 1; 1; 5; 5; 5; 5; 5; 5]).
Proof.
  simpl. assert (wf (mkVersionHistory [] [mkItem 3 1; mkItem 7 5])) as W by (unfold wf; simpl; lia).
  split; [exact W|]. split; [reflexivity|].
  apply (version_history_refines_log _ (mkItem 9 5) W). unfold wf_item, FirstEventID. simpl. lia.
Defined.
