(* ===== verification/VersionHistoryLCA.v ===== *)
(** * The lowest common ancestor of two version histories

    [FindLCAVersionHistoryItem] walks both lists of items from their ends to the last
    version they share.  On the logs of the histories, when the histories are branches of
    one tree, that is the end of their longest common prefix. *)
From S2P Require Import Prelude VersionHistory VersionHistoryProps.
Local Open Scope Z_scope.
Local Open Scope go_scope.

(** ** What the loop finds *)

(** Versions decrease along a reversed list of items. *)
Definition descending (l : list VersionHistoryItem) : Prop :=
  StronglySorted (λ x y, Version y < Version x) l.

Definition no_common (a b : list VersionHistoryItem) : Prop :=
  ∀ x y, x ∈ a → y ∈ b → Version x ≠ Version y.

(** The greatest version of both lists, at the smaller of its two event ids. *)
Definition last_common (a b : list VersionHistoryItem) (item : VersionHistoryItem) : Prop :=
  ∃ x y, x ∈ a ∧ y ∈ b ∧ Version x = Version item ∧ Version y = Version item ∧
    EventId item = Z.min (EventId x) (EventId y) ∧
    ∀ x' y', x' ∈ a → y' ∈ b → Version x' = Version y' → Version x' ≤ Version item.

Lemma last_common_cons_l a b x item :
  (∀ y, y ∈ b → Version y < Version x) → last_common a b item → last_common (x :: a) b item.
Proof.
  intros H (xa & y & Hx & Hy & ? & ? & ? & M). exists xa, y. split_and!; try done; [by right|].
  intros x' y' [->|?]%elem_of_cons Hy' E; [specialize (H y' Hy'); lia | eauto].
Qed.

Lemma last_common_cons_r a b y item :
  (∀ x, x ∈ a → Version x < Version y) → last_common a b item → last_common a (y :: b) item.
Proof.
  intros H (x & yb & Hx & Hy & ? & ? & ? & M). exists x, yb. split_and!; try done; [by right|].
  intros x' y' Hx' [->|?]%elem_of_cons E; [specialize (H x' Hx'); lia | eauto].
Qed.

Lemma descending_head x l y : descending (x :: l) → y ∈ x :: l → Version y ≤ Version x.
Proof.
  intros [_ H]%StronglySorted_inv [->|Hy]%elem_of_cons; [lia|]. rewrite Forall_forall in H. specialize (H _ Hy). simpl in H. lia.
Qed.

Definition lca_found (a b : list VersionHistoryItem) (r : vh VersionHistoryItem) : Prop :=
  match r with
  | Ok item => last_common a b item
  | Err _ => no_common a b
  | Panic => False
  end.

Lemma lca_found_cons_l a b x r :
  (∀ y, y ∈ b → Version y < Version x) → lca_found a b r → lca_found (x :: a) b r.
Proof.
  intros H. destruct r; simpl; [by apply last_common_cons_l| |done].
  intros N x' y [->|?]%elem_of_cons Hy; [specialize (H y Hy); lia | eauto].
Qed.

Lemma lca_found_cons_r a b y r :
  (∀ x, x ∈ a → Version x < Version y) → lca_found a b r → lca_found a (y :: b) r.
Proof.
  intros H. destruct r; simpl; [by apply last_common_cons_r| |done].
  intros N x y' Hx [->|?]%elem_of_cons; [specialize (H x Hx); lia | eauto].
Qed.

Lemma find_lca_found ra rb :
  descending ra → descending rb → Forall wf_item rb → lca_found ra rb (find_lca ra rb).
Proof.
  revert rb. induction ra as [|x ra IHa]; intros rb Da Db Wb.
  - destruct rb; intros ? ? []%elem_of_nil.
  - induction rb as [|y rb IHb]; [intros ? ? ? []%elem_of_nil|].
    pose proof (λ z, descending_head _ _ z Da) as Ha. pose proof (λ z, descending_head _ _ z Db) as Hb.
    pose proof (StronglySorted_inv Da) as [Da' _]. pose proof (StronglySorted_inv Db) as [Db' _].
    apply Forall_cons in Wb as [Wy Wb]. simpl.
    destruct (Z.eqb_spec (Version x) (Version y)) as [E|E].
    + assert (∀ x' y', x' ∈ x :: ra → y' ∈ y :: rb → Version x' = Version y' → Version x' ≤ Version x).
      { intros x' y' Hx _ _. by apply Ha. }
      destruct (Z.gtb_spec (EventId x) (EventId y)); [rewrite copy_item by done|]; exists x, y;
        split_and!; try (by left); try lia; intros; simpl; rewrite <- ?E; eauto.
    + destruct (Z.gtb_spec (Version x) (Version y)).
      * apply lca_found_cons_l; [|by apply IHa; [..|by constructor]]. intros z Hz. specialize (Hb z Hz). lia.
      * apply lca_found_cons_r; [|by apply IHb]. intros z Hz. specialize (Ha z Hz). lia.
Qed.

Lemma wf_items_versions prev ver items : wf_items prev ver items → Forall (λ i, ver < Version i) items.
Proof.
  revert prev ver. induction items as [|i items IH]; intros prev ver; [constructor|].
  intros (? & ? & W). constructor; [done|]. eapply Forall_impl; [by eapply IH|]. simpl. lia.
Qed.

Lemma descending_snoc l x : descending l → Forall (λ i, Version x < Version i) l → descending (l ++ [x]).
Proof.
  induction 1 as [|y l S IH F]; intros H; [repeat constructor|].
  apply Forall_cons in H as [? H]. simpl. constructor; [by apply IH|]. apply Forall_app; split; [done|by constructor].
Qed.

Lemma wf_items_descending prev ver items : wf_items prev ver items → descending (reverse items).
Proof.
  revert prev ver. induction items as [|i items IH]; intros prev ver; [constructor|].
  intros (? & ? & W). rewrite reverse_cons. apply descending_snoc; [by eapply IH|].
  apply Forall_reverse. by eapply wf_items_versions.
Qed.

Lemma FindLCA_found a b : wf a → wf b → lca_found (Items a) (Items b) (FindLCAVersionHistoryItem a b).
Proof.
  intros Wa Wb. unfold FindLCAVersionHistoryItem, FindLCAVersionHistoryItemFromItemSlice.
  assert (lca_found (reverse (Items a)) (reverse (Items b)) (find_lca (reverse (Items a)) (reverse (Items b)))) as F.
  { apply find_lca_found; [by eapply wf_items_descending..|]. apply Forall_reverse, Forall_forall. intros i.
    eapply wf_items_wf_item; [apply Wb|lia..]. }
  destruct (find_lca _ _) as [item|err|]; simpl in *; [|by intros x y ? ?; apply F; apply elem_of_reverse|done].
  destruct F as (x & y & Hx & Hy & ? & ? & ? & M). exists x, y.
  rewrite elem_of_reverse in Hx, Hy. split_and!; try done. intros x' y' ? ?. apply M; by apply elem_of_reverse.
Qed.

(** ** Items and runs of the log *)

Lemma event_version_item items e v : event_version items e = Ok v → ∃ x, x ∈ items ∧ Version x = v ∧ e ≤ EventId x.
Proof.
  induction items as [|i items IH]; simpl; [done|].
  destruct (Z.leb_spec e (EventId i)); [intros [= <-]; exists i; set_solver|].
  intros (x & ? & ? & ?)%IH. exists x. set_solver.
Qed.

(** An item's version is that of its last event, and the events after it have greater ones. *)
Lemma item_event_version prev ver items x e :
  wf_items prev ver items → x ∈ items →
  (event_version items (EventId x) = Ok (Version x)) ∧
  (e ≤ EventId x → ∀ v, event_version items e = Ok v → v ≤ Version x) ∧
  (EventId x < e → ∀ v, event_version items e = Ok v → Version x < v).
Proof.
  revert prev ver. induction items as [|i items IH]; intros prev ver; [by intros _ []%elem_of_nil|].
  intros (? & ? & W) [->|Hx]%elem_of_cons; simpl.
  - rewrite Z.leb_refl. split_and!; [done| |].
    + intros. rewrite (proj2 (Z.leb_le _ _)) in * by done. by simplify_eq.
    + intros ? v. rewrite (proj2 (Z.leb_gt _ _)) by done. by apply event_version_above with (EventId i).
  - destruct (IH _ _ W Hx) as (IH1 & IH2 & IH3).
    assert (EventId i < EventId x ∧ Version i < Version x) as [? ?].
    { split; [|by eapply (Forall_forall (λ i0, Version i < Version i0)); [eapply wf_items_versions|]].
      clear -W Hx. revert W. generalize (EventId i) (Version i). induction items as [|j l IH]; [by apply elem_of_nil in Hx|].
      intros p q (? & ? & W). apply elem_of_cons in Hx as [->|Hx]; [done|]. specialize (IH Hx _ _ W). lia. }
    rewrite (proj2 (Z.leb_gt (EventId x) _)) by done. split_and!; [done| |].
    + intros ? v. case_match; [intros [= <-]; lia | by apply IH2].
    + intros ? v. rewrite (proj2 (Z.leb_gt _ _)) by lia. by apply IH3.
Qed.

(** ** The longest common prefix *)

(** Branches of one tree: where both logs have a version, they have it after the same
    events (a failover version is given out once, at one point of one history). *)
Definition same_tree (l1 l2 : list Z) : Prop :=
  ∀ ver, ver ∈ l1 → ver ∈ l2 → ∃ n, take n l1 = take n l2 ∧ ver ∈ take n l1.

(** The events two logs have in common. *)
Definition common_prefix (l1 l2 : list Z) : list Z := (max_prefix l1 l2).2.

Lemma common_prefix_l l1 l2 : common_prefix l1 l2 `prefix_of` l1.
Proof. unfold common_prefix. apply max_prefix_fst_prefix. Qed.
Lemma common_prefix_r l1 l2 : common_prefix l1 l2 `prefix_of` l2.
Proof. unfold common_prefix. apply max_prefix_snd_prefix. Qed.

(** A common prefix after which the logs do not agree is the longest. *)
Lemma common_prefix_eq l1 l2 k :
  k `prefix_of` l1 → k `prefix_of` l2 →
  (∀ w, l1 !! length k = Some w → l2 !! length k = Some w → False) →
  common_prefix l1 l2 = k.
Proof.
  intros H1 H2 D.
  assert (k `prefix_of` common_prefix l1 l2) as [r E] by (by apply max_prefix_max).
  destruct r as [|w r]; [by rewrite E, app_nil_r|]. exfalso.
  assert (common_prefix l1 l2 !! length k = Some w) as L by (rewrite E; by apply list_lookup_middle).
  apply (D w); eapply prefix_lookup_Some; try exact L; [apply common_prefix_l | apply common_prefix_r].
Qed.

Lemma lookup_event v i ver :
  wf v → log v !! i = Some ver ↔ event_version (Items v) (Z.of_nat i + 1) = Ok ver.
Proof.
  intros W. pose proof (at_event_version v (Z.of_nat i + 1) ver W) as H. unfold at_event in H.
  replace (Z.to_nat (Z.of_nat i + 1 - 1)) with i in H by lia. naive_solver lia.
Qed.

Lemma log_sorted v i j wi wj : wf v → (i ≤ j)%nat → log v !! i = Some wi → log v !! j = Some wj → wi ≤ wj.
Proof.
  intros W L. rewrite !lookup_event by done. intros Hi Hj.
  apply event_version_item in Hj as (x & Hx & <- & Hle).
  destruct (item_event_version _ _ _ _ (Z.of_nat i + 1) W Hx) as (_ & H & _). apply H; [lia|done].
Qed.

Section OneItem.
Context (v : VersionHistory) (x : VersionHistoryItem) (W : wf v) (Hx : x ∈ Items v).

Lemma item_last_lookup : log v !! Z.to_nat (EventId x - 1) = Some (Version x).
Proof.
  assert (wf_item x) as [? _] by (eapply wf_items_wf_item; [apply W|lia|lia|done]). unfold FirstEventID in *.
  rewrite lookup_event by done. destruct (item_event_version _ _ _ _ 0 W Hx) as (E & _).
  rewrite <- E. f_equal. lia.
Qed.

Lemma item_after_lookup i w : EventId x ≤ Z.of_nat i → log v !! i = Some w → Version x < w.
Proof.
  intros L. rewrite lookup_event by done. destruct (item_event_version _ _ _ _ (Z.of_nat i + 1) W Hx) as (_ & _ & H).
  apply H. lia.
Qed.

(** From one of its events to its last, an item's version is the log's. *)
Lemma item_run_lookup k i :
  log v !! k = Some (Version x) → (k ≤ i)%nat → Z.of_nat i < EventId x → log v !! i = Some (Version x).
Proof.
  intros Hk L Hi. pose proof item_last_lookup as He.
  destruct (lookup_lt_is_Some_2 (log v) i) as [w Hw]; [apply lookup_lt_Some in He; lia|].
  pose proof (log_sorted _ _ _ _ _ W L Hk Hw). assert (i ≤ Z.to_nat (EventId x - 1))%nat as L' by lia.
  pose proof (log_sorted _ _ _ _ _ W L' Hw He). rewrite Hw. f_equal. lia.
Qed.
End OneItem.

(** A version of both histories puts the shorter of its two runs into the common prefix. *)
Lemma shared_version_prefix a b x y :
  wf a → wf b → same_tree (log a) (log b) → x ∈ Items a → y ∈ Items b → Version x = Version y →
  take (Z.to_nat (Z.min (EventId x) (EventId y))) (log a) = take (Z.to_nat (Z.min (EventId x) (EventId y))) (log b).
Proof.
  intros Wa Wb T Hx Hy E.
  destruct (T (Version x)) as (n & Hn & Hin).
  { eapply list_elem_of_lookup_2, item_last_lookup; eauto. }
  { rewrite E. eapply list_elem_of_lookup_2, item_last_lookup; eauto. }
  apply list_elem_of_lookup in Hin as [k Hk]. pose proof Hk as Hk'. rewrite Hn in Hk'.
  apply lookup_take_Some in Hk as [Hk ?], Hk' as [Hk' _].
  apply list_eq. intros i. destruct (decide (i < Z.to_nat (Z.min (EventId x) (EventId y)))%nat) as [L|L].
  - rewrite !lookup_take_lt by done. destruct (decide (i < n)%nat).
    + rewrite <- (lookup_take_lt (log a) n), <- (lookup_take_lt (log b) n) by done. by rewrite Hn.
    + rewrite (item_run_lookup a x Wa Hx k i), E by (done || lia). rewrite E in Hk'.
      by rewrite (item_run_lookup b y Wb Hy k i) by (done || lia).
  - by rewrite !lookup_take_ge by lia.
Qed.

Lemma log_item v i w : wf v → log v !! i = Some w → ∃ x, x ∈ Items v ∧ Version x = w.
Proof. intros W. rewrite lookup_event by done. intros (x & ? & ? & _)%event_version_item. eauto. Qed.

Definition lca_is_end (k : list Z) (r : vh VersionHistoryItem) : Prop :=
  match r with
  | Ok item => EventId item = Z.of_nat (length k) ∧ last k = Some (Version item)
  | Err _ => k = []
  | Panic => False
  end.

Lemma lca_common_prefix a b :
  wf a → wf b → same_tree (log a) (log b) →
  lca_is_end (common_prefix (log a) (log b)) (FindLCAVersionHistoryItem a b).
Proof.
  intros Wa Wb T. pose proof (FindLCA_found a b Wa Wb) as F.
  destruct (FindLCAVersionHistoryItem a b) as [item|err|]; simpl in *; [| |done].
  - destruct F as (x & y & Hx & Hy & Ex & Ey & Em & M).
    pose proof (shared_version_prefix a b x y Wa Wb T Hx Hy ltac:(congruence)) as P. rewrite <- Em in P.
    pose proof (item_last_lookup a x Wa Hx) as La. pose proof (item_last_lookup b y Wb Hy) as Lb.
    assert (wf_item x) as [? _] by (eapply wf_items_wf_item; [apply Wa|lia|lia|done]).
    assert (wf_item y) as [? _] by (eapply wf_items_wf_item; [apply Wb|lia|lia|done]). unfold FirstEventID in *.
    assert (length (take (Z.to_nat (EventId item)) (log a)) = Z.to_nat (EventId item)) as Hlen.
    { rewrite length_take. apply lookup_lt_Some in La. lia. }
    rewrite (common_prefix_eq _ _ (take (Z.to_nat (EventId item)) (log a))).
    + split; [rewrite Hlen; lia|]. rewrite last_lookup, Hlen.
      destruct (Z.min_spec (EventId x) (EventId y)) as [[? Hm]|[? Hm]]; [|rewrite P];
        rewrite lookup_take_lt by lia;
        replace (pred (Z.to_nat (EventId item))) with (Z.to_nat (EventId item - 1)) by lia;
        rewrite Em, Hm; congruence.
    + apply prefix_take.
    + rewrite P. apply prefix_take.
    + rewrite Hlen. intros w Hwa Hwb.
      destruct (log_item a _ w Wa Hwa) as (x' & Hx' & Ex'), (log_item b _ w Wb Hwb) as (y' & Hy' & Ey').
      specialize (M x' y' Hx' Hy' ltac:(congruence)).
      destruct (Z.min_spec (EventId x) (EventId y)) as [[? Hm]|[? Hm]].
      * pose proof (item_after_lookup a x Wa Hx (Z.to_nat (EventId item)) w ltac:(lia) Hwa). lia.
      * pose proof (item_after_lookup b y Wb Hy (Z.to_nat (EventId item)) w ltac:(lia) Hwb). lia.
  - destruct (common_prefix (log a) (log b)) as [|w k] eqn:E; [done|]. exfalso.
    destruct (log_item a 0 w Wa) as (x & Hx & Ex).
    { eapply prefix_lookup_Some; [|apply common_prefix_l]. by rewrite E. }
    destruct (log_item b 0 w Wb) as (y & Hy & Ey).
    { eapply prefix_lookup_Some; [|apply common_prefix_r]. by rewrite E. }
    apply (F x y Hx Hy). congruence.
Qed.

(** An item at the end of the common prefix is the last one of a history exactly when the
    common prefix is all of it. *)
Lemma lca_is_last k v item lastItem :
  wf v → k `prefix_of` log v → lca_is_end k (Ok item) → last (Items v) = Some lastItem →
  IsEqualVersionHistoryItem lastItem item = true ↔ k = log v.
Proof.
  intros W P [He Hl] L. destruct (wf_last _ _ _ _ W L) as (HL & Hlen & _).
  unfold IsEqualVersionHistoryItem. rewrite andb_true_iff, !Z.eqb_eq. split.
  - intros [E _]. apply prefix_length_eq; [done|]. unfold log in *. lia.
  - intros ->. unfold log in *. split; [lia|]. congruence.
Qed.

Lemma lca_nonempty k v item : k `prefix_of` log v → lca_is_end k (Ok item) → log v ≠ [].
Proof. intros P [_ L] E. rewrite E in P. apply prefix_nil_inv in P. by rewrite P in L. Qed.

Lemma prefix_common l1 l2 : common_prefix l1 l2 = l1 ↔ l1 `prefix_of` l2.
Proof.
  split; [intros <-; apply common_prefix_r|]. intros P. apply common_prefix_eq; [done|done|].
  intros w L _. apply lookup_lt_Some in L. lia.
Qed.
Lemma prefix_common_r l1 l2 : common_prefix l1 l2 = l2 ↔ l2 `prefix_of` l1.
Proof.
  split; [intros <-; apply common_prefix_l|]. intros P. apply common_prefix_eq; [done|done|].
  intros w _ L. apply lookup_lt_Some in L. lia.
Qed.

Lemma equal_item_sym x y : IsEqualVersionHistoryItem x y = IsEqualVersionHistoryItem y x.
Proof. unfold IsEqualVersionHistoryItem. by rewrite (Z.eqb_sym (EventId x)), (Z.eqb_sym (Version x)). Qed.

Lemma same_branch_prefix a b :
  wf a → wf b → same_tree (log a) (log b) →
  ∃ r, IsVersionHistoryItemsInSameBranch (Items a) (Items b) = Ok r ∧
    (r = true ↔ log a ≠ [] ∧ log b ≠ [] ∧ (log a `prefix_of` log b ∨ log b `prefix_of` log a)).
Proof.
  intros Wa Wb T. pose proof (lca_common_prefix a b Wa Wb T) as F. unfold FindLCAVersionHistoryItem in F.
  pose proof (last_item_log a Wa) as La. pose proof (last_item_log b Wb) as Lb.
  unfold IsVersionHistoryItemsInSameBranch, GetLastVersionHistoryItem in *.
  destruct (FindLCAVersionHistoryItemFromItemSlice _ _) as [lca|err|]; [| |done].
  - destruct (getLastVersionHistoryItem (Items a)) as [x|?|]; [| |done].
    2: { by destruct (lca_nonempty _ _ _ (common_prefix_l _ _) F), La. }
    destruct (getLastVersionHistoryItem (Items b)) as [y|?|]; [| |done].
    2: { by destruct (lca_nonempty _ _ _ (common_prefix_r _ _) F), Lb. }
    destruct La as (_ & La & _ & Na), Lb as (_ & Lb & _ & Nb). eexists; split; [done|].
    rewrite orb_true_iff, !(equal_item_sym lca).
    rewrite (lca_is_last _ _ _ _ Wa (common_prefix_l _ _) F La), (lca_is_last _ _ _ _ Wb (common_prefix_r _ _) F Lb).
    rewrite prefix_common, prefix_common_r. assert (log a ≠ [] ∧ log b ≠ []); [|tauto].
    split; intros E; [by rewrite E in Na | by rewrite E in Nb].
  - exists false. split; [done|]. split; [done|]. intros (Na & Nb & H). simpl in F.
    rewrite <- prefix_common, <- prefix_common_r, F in H. destruct H; congruence.
Qed.

(** C23 For two branches of one tree of histories, the lowest common ancestor the code
    computes on the compressed items is the end of the longest common prefix of the two
    logs, computed on the logs themselves, and there is none exactly when the logs share
    no event.  [IsVersionHistoryItemsInSameBranch] then answers whether one log is a prefix
    of the other, and [IsLCAVersionHistoryItemAppendable] whether the local log is the
    common prefix, so that incoming events extend it. *)
Theorem lca_is_longest_common_prefix a b (Wa : wf a) (Wb : wf b) (T : same_tree (log a) (log b)) :
  lca_is_end (common_prefix (log a) (log b)) (FindLCAVersionHistoryItem a b) ∧
  (∃ r, IsVersionHistoryItemsInSameBranch (Items a) (Items b) = Ok r ∧
     (r = true ↔ log a ≠ [] ∧ log b ≠ [] ∧ (log a `prefix_of` log b ∨ log b `prefix_of` log a))) ∧
  (∀ lca, FindLCAVersionHistoryItem a b = Ok lca →
     ∃ r, IsLCAVersionHistoryItemAppendable a (Some lca) = Ok r ∧ (r = true ↔ log a `prefix_of` log b)).
Proof.
  pose proof (lca_common_prefix a b Wa Wb T) as F.
  split_and!; [done | by apply same_branch_prefix |]. intros lca E. rewrite E in F.
  unfold IsLCAVersionHistoryItemAppendable. destruct (last (Items a)) as [x|] eqn:L.
  - eexists; split; [done|]. rewrite (lca_is_last _ _ _ _ Wa (common_prefix_l _ _) F L). apply prefix_common.
  - apply last_None in L. destruct (lca_nonempty _ a _ (common_prefix_l _ _) F). unfold log. by rewrite L.
Qed.

Lemma lca_is_longest_common_prefix_witness :
  let a := mkVersionHistory [] [mkItem 3 1; mkItem 7 5] in
  let b := mkVersionHistory [] [mkItem 3 1; mkItem 5 5; mkItem 6 8] in
  wf a ∧ wf b ∧ same_tree (log a) (log b) ∧ log a ≠ [] ∧
  lca_is_end (common_prefix (log a) (log b)) (Ok (mkItem 5 5)).
Proof.
  simpl. set (a := mkVersionHistory [] [mkItem 3 1; mkItem 7 5]).
  set (b := mkVersionHistory [] [mkItem 3 1; mkItem 5 5; mkItem 6 8]).
  assert (wf a) as Wa by (unfold wf; simpl; lia). assert (wf b) as Wb by (unfold wf; simpl; lia).
  assert (same_tree (log a) (log b)) as T.
  { intros ver Ha Hb. exists 5%nat. split; [reflexivity|].
    change (log a) with [1; 1; 1; 5; 5; 5; 5] in Ha. change (take 5 (log a)) with [1; 1; 1; 5; 5]. set_solver. }
  split; [exact Wa|]. split; [exact Wb|]. split; [exact T|]. split; [discriminate|].
  exact (proj1 (lca_is_longest_common_prefix a b Wa Wb T)).
Defined.
