(* ===== verification/VersionHistories.v ===== *)
(** * Sets of version histories

    Which of the local branches an incoming history is compared with
    ([FindLCAVersionHistoryItemAndIndex]), and that the branch with the highest version
    stays the current one as branches are added ([AddAndSwitchVersionHistory]). *)
From S2P Require Import Prelude VersionHistory VersionHistoryProps VersionHistoryLCA.
Local Open Scope Z_scope.
Local Open Scope go_scope.

Definition wf_histories (h : VersionHistories) : Prop := Forall wf (Histories h).

(** The lengths the code converts to [int32] fit. *)
Definition histories_fit (h : VersionHistories) : Prop :=
  Z.of_nat (length (Histories h)) < MaxInt32 ∧
  Forall (λ v, Z.of_nat (length (Items v)) ≤ MaxInt32) (Histories h).

Lemma int32_len_id {A} (l : list A) : Z.of_nat (length l) ≤ MaxInt32 → int32_len l = Z.of_nat (length l).
Proof. intros. unfold int32_len. apply wrap32_id. int_bounds. lia. Qed.

(** ** The branch an incoming history is compared with *)

(** Events in common with the incoming history, and items of the branch itself. *)
Definition shared (incoming v : VersionHistory) : Z := Z.of_nat (length (common_prefix (log v) (log incoming))).
Definition items_len (v : VersionHistory) : Z := Z.of_nat (length (Items v)).

(** [v] is at least as good a choice as [w]: it shares more events, or as many with no more items. *)
Definition as_good (incoming v w : VersionHistory) : Prop :=
  shared incoming w < shared incoming v ∨
  shared incoming w = shared incoming v ∧ items_len v ≤ items_len w.

(** A candidate: the branch, its index, and what the loop keeps of it. *)
Definition candidate (incoming : VersionHistory) (l : list VersionHistory) (v : VersionHistory)
    (best : VersionHistoryItem * Z * Z) : Prop :=
  let '(item, i, len) := best in
  0 ≤ i ∧ l !! Z.to_nat i = Some v ∧ len = items_len v ∧
  wf_item item ∧ lca_is_end (common_prefix (log v) (log incoming)) (Ok item).

Definition is_best (incoming : VersionHistory) (l : list VersionHistory) (best : VersionHistoryItem * Z * Z) : Prop :=
  ∃ v, candidate incoming l v best ∧ ∀ w, w ∈ l → as_good incoming v w.

Lemma as_good_trans incoming v w u : as_good incoming v w → as_good incoming w u → as_good incoming v u.
Proof. unfold as_good. lia. Qed.

Lemma candidate_app incoming l l' v best : candidate incoming l v best → candidate incoming (l ++ l') v best.
Proof.
  destruct best as [[item i] len]. intros (? & L & R). split; [done|]. split; [by apply lookup_app_l_Some | done].
Qed.

Lemma lca_wf_item a b item : wf a → wf b → lca_is_end (common_prefix (log a) (log b)) (Ok item) → wf_item item.
Proof.
  intros Wa Wb [He Hl]. split.
  - destruct (common_prefix (log a) (log b)); [done|]. simpl in He. unfold FirstEventID. lia.
  - apply last_Some in Hl as [k E].
    assert (log a !! length k = Some (Version item)) as L.
    { eapply prefix_lookup_Some; [|apply (common_prefix_l _ (log b))]. rewrite E. by apply list_lookup_middle. }
    destruct (log_item a _ _ Wa L) as (x & Hx & <-). eapply wf_items_wf_item; [apply Wa|lia|lia|done].
Qed.

Section Choice.
Context (incoming : VersionHistory) (Wi : wf incoming).

(** What the loop has after the branches [before]. *)
Definition best_so_far (before : list VersionHistory) (best : option (VersionHistoryItem * Z * Z)) : Prop :=
  match best with None => before = [] | Some best => is_best incoming before best end.

(** What one round of the loop does with the item it found. *)
Definition replace_best (item : VersionHistoryItem) (i len : Z) (best : option (VersionHistoryItem * Z * Z)) :=
  if match best with
     | None => true
     | Some (bestItem, _, bestLength) =>
         (EventId item >? EventId bestItem) || ((EventId item =? EventId bestItem) && (len <? bestLength))
     end
  then Some (item, i, len) else best.

Lemma replace_best_ok before v item best :
  wf v → lca_is_end (common_prefix (log v) (log incoming)) (Ok item) → best_so_far before best →
  best_so_far (before ++ [v]) (replace_best item (Z.of_nat (length before)) (items_len v) best).
Proof.
  intros Wv Hlca H.
  assert (candidate incoming (before ++ [v]) v (item, Z.of_nat (length before), items_len v)) as C.
  { split; [lia|]. rewrite Nat2Z.id. split; [by apply list_lookup_middle|].
    split; [done|]. split; [exact (lca_wf_item _ _ _ Wv Wi Hlca) | done]. }
  assert (as_good incoming v v) as Hr by (right; lia).
  assert (EventId item = shared incoming v) as Hs by apply Hlca.
  unfold replace_best. destruct best as [[[bi i] len]|]; simpl in H.
  - destruct H as (v0 & C0 & G). pose proof C0 as (_ & _ & -> & _ & Hs0 & _).
    assert (EventId bi = shared incoming v0) as Hs0' by apply Hs0.
    case_match eqn:B; simpl.
    + exists v. split; [done|]. intros w [Hw|Hw%list_elem_of_singleton]%elem_of_app; [|by subst].
      apply as_good_trans with v0; [|by apply G]. unfold as_good.
      apply orb_true_iff in B as [B|B]; bool_to_prop; lia.
    + exists v0. split; [by apply candidate_app|]. intros w [Hw|Hw%list_elem_of_singleton]%elem_of_app; [by apply G|subst w].
      apply orb_false_iff in B as [B1 B2]. apply andb_false_iff in B2. unfold as_good. destruct B2; bool_to_prop; lia.
  - subst before. exists v. split; [done|]. intros w Hw. apply list_elem_of_singleton in Hw as ->. done.
Qed.

(** A branch without an event in common ends the search with an error. *)
Lemma best_lca_ok before after best :
  Forall (λ v, wf v ∧ same_tree (log v) (log incoming) ∧ Z.of_nat (length (Items v)) ≤ MaxInt32) after →
  Z.of_nat (length (before ++ after)) < MaxInt32 → best_so_far before best →
  match best_lca (Z.of_nat (length before)) (map Items after) (Items incoming) best with
  | Ok best' => best_so_far (before ++ after) best' ∧ Forall (λ v, shared incoming v ≠ 0) after
  | Err _ => ¬ Forall (λ v, shared incoming v ≠ 0) after
  | Panic => False
  end.
Proof.
  revert before best. induction after as [|v after IH]; intros before best F L H; simpl; [by rewrite app_nil_r|].
  apply Forall_cons in F as [(Wv & T & Hf) F]. pose proof (lca_common_prefix v incoming Wv Wi T) as E.
  unfold FindLCAVersionHistoryItem in E. destruct (FindLCAVersionHistoryItemFromItemSlice _ _) as [item|err|]; simpl; [| |done].
  - rewrite length_app in L. simpl in L. rewrite int32_len_id, wrap32_id by (try done; int_bounds; lia).
    specialize (IH (before ++ [v]) (replace_best item (Z.of_nat (length before)) (items_len v) best) F).
    rewrite <- app_assoc in IH. simpl in IH.
    replace (Z.of_nat (length (before ++ [v]))) with (Z.of_nat (length before) + 1) in IH by (rewrite length_app; simpl; lia).
    specialize (IH ltac:(rewrite length_app; simpl; lia) (replace_best_ok _ _ _ _ Wv E H)).
    assert (shared incoming v ≠ 0). { unfold shared. destruct E as [_ E]. destruct (common_prefix _ _); simpl; [done|lia]. }
    unfold replace_best, items_len in *. destruct (best_lca _ _ _ _); [|rewrite Forall_cons; tauto|done].
    split; [apply IH|constructor; [done|apply IH]].
  - rewrite Forall_cons. unfold shared. simpl in E. rewrite E. simpl. tauto.
Qed.

End Choice.

(** An incoming history is compared with the branch that shares the most events with it
    and, among those that share as many, with one of the fewest items: the index the
    code answers is that branch's and the item is the end of what is shared.  The search
    fails exactly when some branch shares no event at all, and panics only on a set
    without branches. *)
Theorem FindLCAVersionHistoryItemAndIndex_best h incoming
    (Wh : wf_histories h) (Hf : histories_fit h) (Wi : wf incoming)
    (T : Forall (λ v, same_tree (log v) (log incoming)) (Histories h)) :
  match FindLCAVersionHistoryItemAndIndex h incoming with
  | Ok (item, i) =>
      ∃ v, 0 ≤ i ∧ Histories h !! Z.to_nat i = Some v ∧
        lca_is_end (common_prefix (log v) (log incoming)) (Ok item) ∧
        (∀ w, w ∈ Histories h → as_good incoming v w) ∧ Forall (λ w, shared incoming w ≠ 0) (Histories h)
  | Err _ => ¬ Forall (λ w, shared incoming w ≠ 0) (Histories h)
  | Panic => Histories h = []
  end.
Proof.
  unfold FindLCAVersionHistoryItemAndIndex, FindLCAVersionHistoryItemFromItems.
  assert (Forall (λ v, wf v ∧ same_tree (log v) (log incoming) ∧ Z.of_nat (length (Items v)) ≤ MaxInt32) (Histories h)) as F.
  { unfold wf_histories, histories_fit in *. rewrite Forall_forall in *. naive_solver. }
  pose proof (best_lca_ok incoming Wi [] (Histories h) None F (proj1 Hf) eq_refl) as B. simpl in B.
  destruct (best_lca _ _ _ _) as [[[[item i] len]|]|err|]; simpl in *; [| |done|done].
  - destruct B as [(v & (? & ? & ? & Hw & ?) & G) ?]. rewrite copy_item by done. exists v. done.
  - by destruct B.
Qed.

Definition best_witness_histories : VersionHistories :=
  mkVersionHistories 0
    [mkVersionHistory [] [mkItem 4 1]; mkVersionHistory [] [mkItem 3 1; mkItem 7 5]].

Lemma FindLCAVersionHistoryItemAndIndex_best_witness :
  let incoming := mkVersionHistory [] [mkItem 3 1; mkItem 5 5; mkItem 6 8] in
  FindLCAVersionHistoryItemAndIndex best_witness_histories incoming = Ok (mkItem 5 5, 1) ∧
  ∃ v, Histories best_witness_histories !! 1%nat = Some v ∧ shared incoming v = 5 ∧
    ∀ w, w ∈ Histories best_witness_histories → as_good incoming v w.
Proof.
  simpl. set (incoming := mkVersionHistory [] [mkItem 3 1; mkItem 5 5; mkItem 6 8]).
  split; [reflexivity|]. pose proof (FindLCAVersionHistoryItemAndIndex_best best_witness_histories incoming) as H.
  destruct (FindLCAVersionHistoryItemAndIndex best_witness_histories incoming) as [[item i]|err|] eqn:E;
    [|discriminate E|discriminate E].
  injection E as <- <-. destruct H as (v & _ & Hv & [Hl _] & G & _).
  - repeat constructor; unfold wf; simpl; lia.
  - split; [simpl; int_bounds; lia | repeat constructor; simpl; int_bounds; lia].
  - unfold wf; simpl; lia.
  - repeat constructor; intros ver Ha Hb.
    + exists 3%nat. split; [reflexivity|]. unfold log in *. simpl in *. set_solver.
    + exists 5%nat. split; [reflexivity|]. unfold log in *. simpl in *. set_solver.
  - exists v. split; [exact Hv|]. split; [unfold shared; rewrite <- Hl; reflexivity | exact G].
Defined.

(** ** The current branch *)

Definition head_version (v : VersionHistory) : Z := from_option Version (-1) (head (Items v)).
Definition top_version (v : VersionHistory) : Z := last_version (-1) (Items v).

(** The current branch is a branch with events, and none has a higher version. *)
Definition current_highest (h : VersionHistories) : Prop :=
  ∃ c, 0 ≤ CurrentVersionHistoryIndex h ∧
    Histories h !! Z.to_nat (CurrentVersionHistoryIndex h) = Some c ∧ Items c ≠ [] ∧
    ∀ v, v ∈ Histories h → top_version v ≤ top_version c.

Lemma copy_items prev ver items :
  wf_items prev ver items → 0 ≤ prev → -1 ≤ ver → CopyVersionHistoryItems items = Ok items.
Proof.
  intros W Hp Hv. assert (Forall wf_item items) as F by (apply Forall_forall; intros; by eapply wf_items_wf_item).
  clear -F. induction F as [|i items Hi F IH]; simpl; [done|]. by rewrite copy_item, IH.
Qed.

Lemma copy_history v : wf v → CopyVersionHistory v = Ok v.
Proof. intros W. unfold CopyVersionHistory. rewrite (copy_items _ _ _ W) by lia. by destruct v. Qed.

Lemma first_item v :
  wf v → Items v ≠ [] → ∃ x, GetFirstVersionHistoryItem v = Ok x ∧ Version x = head_version v.
Proof.
  intros W N. unfold GetFirstVersionHistoryItem, head_version. destruct (Items v) as [|x l] eqn:E; [done|]. simpl.
  exists x. split; [|done]. apply copy_item. eapply wf_items_wf_item; [apply W|lia|lia|]. rewrite E. by left.
Qed.

Lemma top_item v :
  wf v → Items v ≠ [] → ∃ x, GetLastVersionHistoryItem v = Ok x ∧ Version x = top_version v.
Proof.
  intros W N. pose proof (last_item_log v W) as H. destruct (GetLastVersionHistoryItem v) as [x|?|]; [|by destruct H|done].
  destruct H as (_ & L & _). exists x. split; [done|]. unfold top_version, last_version. by rewrite L.
Qed.

Lemma get_history h i v :
  Z.of_nat (length (Histories h)) ≤ MaxInt32 → 0 ≤ i → Histories h !! Z.to_nat i = Some v → GetVersionHistory h i = Ok v.
Proof.
  intros Hf Hi L. unfold GetVersionHistory. rewrite int32_len_id by done. pose proof (lookup_lt_Some _ _ _ L).
  rewrite (proj2 (Z.ltb_ge _ _)), (proj2 (Z.leb_gt _ _)) by lia. simpl. by rewrite L.
Qed.

Lemma add_version_history h v c :
  wf_histories h → histories_fit h → wf v → 0 ≤ CurrentVersionHistoryIndex h →
  Histories h !! Z.to_nat (CurrentVersionHistoryIndex h) = Some c → Items c ≠ [] →
  AddVersionHistory h (Some v)
  = if decide (Items v = []) then Err EmptyHistory
    else if decide (head_version v = head_version c)
    then Ok (mkVersionHistories (CurrentVersionHistoryIndex h) (Histories h ++ [v]), Z.of_nat (length (Histories h)))
    else Err FirstItemMismatch.
Proof.
  intros Wh [Hf _] Wv Hi L Nc. unfold AddVersionHistory.
  case_decide as Nv; [unfold GetFirstVersionHistoryItem; by rewrite Nv|].
  destruct (first_item v Wv Nv) as (x & -> & Ex).
  assert (wf c) as Wc by (eapply Forall_lookup_1; [apply Wh|done]).
  destruct (first_item c Wc Nc) as (y & Ey & Ey'). rewrite (get_history _ _ c) by (done || lia). simpl.
  rewrite Ey. simpl. rewrite Ex, Ey'. destruct (Z.eqb_spec (head_version v) (head_version c)).
  - rewrite decide_True by done. simpl. rewrite copy_history by done. simpl. do 2 f_equal.
    rewrite int32_len_id by (rewrite length_app; simpl; lia). rewrite length_app. simpl.
    rewrite wrap32_id by (int_bounds; lia). lia.
  - by rewrite decide_False.
Qed.

(** Adding branches keeps the branch of the highest version current.  A branch is
    refused when it has no event or does not start with the current branch's first
    version; otherwise it is added at the end, at the index answered, and it becomes the
    current one exactly when its last version is above the current one's.  The current
    index stays in range and nothing panics. *)
Theorem AddAndSwitchVersionHistory_current_highest h v
    (Wh : wf_histories h) (Hf : histories_fit h) (Wv : wf v) (Hc : current_highest h) :
  match AddAndSwitchVersionHistory h (Some v) with
  | Ok (h', switched, i) =>
      Histories h' = Histories h ++ [v] ∧ i = Z.of_nat (length (Histories h)) ∧
      wf_histories h' ∧ current_highest h' ∧
      CurrentVersionHistoryIndex h' = (if switched then i else CurrentVersionHistoryIndex h) ∧
      (switched = true ↔ ∀ w, w ∈ Histories h → top_version w < top_version v)
  | Err e => e = EmptyHistory ∧ Items v = [] ∨
             e = FirstItemMismatch ∧ (∀ c, GetCurrentVersionHistory h = Ok c → head_version v ≠ head_version c)
  | Panic => False
  end.
Proof.
  destruct Hc as (c & Hi & L & Nc & M). unfold AddAndSwitchVersionHistory.
  assert (Z.of_nat (length (Histories h)) < MaxInt32) as Hlen by apply Hf.
  rewrite (add_version_history h v c) by done. case_decide as Nv; [simpl; by left|].
  case_decide as Hh; simpl; [|right].
  2: { split; [done|]. intros c'. unfold GetCurrentVersionHistory. rewrite (get_history _ _ c) by (done || lia).
       by intros [= <-]. }
  destruct (top_item v Wv Nv) as (x & -> & Ex). simpl.
  assert (wf c) as Wc by (eapply Forall_lookup_1; [apply Wh|done]).
  rewrite (get_history _ _ c) by (simpl; rewrite ?length_app; simpl; try lia; by apply lookup_app_l_Some). simpl.
  destruct (top_item c Wc Nc) as (y & -> & Ey). simpl. rewrite Ex, Ey.
  assert (wf_histories (mkVersionHistories 0 (Histories h ++ [v]))) as Wh' by (apply Forall_app; split; [done|by constructor]).
  destruct (Z.gtb_spec (top_version v) (top_version c)).
  - split_and!; try done.
    + exists v. simpl. split_and!; [lia|rewrite Nat2Z.id; by apply list_lookup_middle|done|].
      intros w [Hw|Hw%list_elem_of_singleton]%elem_of_app; [specialize (M w Hw); lia | by subst].
    + split; [|done]. intros _ w Hw. specialize (M w Hw). lia.
  - split_and!; try done.
    + exists c. simpl. split_and!; [done|by apply lookup_app_l_Some|done|].
      intros w [Hw|Hw%list_elem_of_singleton]%elem_of_app; [by apply M | by subst].
    + split; [done|]. intros H'. specialize (H' c (list_elem_of_lookup_2 _ _ _ L)). lia.
Qed.

Lemma AddAndSwitchVersionHistory_current_highest_witness :
  let h := mkVersionHistories 0 [mkVersionHistory [] [mkItem 3 1; mkItem 7 5]] in
  let v := mkVersionHistory [] [mkItem 3 1; mkItem 5 5; mkItem 6 8] in
  ∃ h', AddAndSwitchVersionHistory h (Some v) = Ok (h', true, 1) ∧ current_highest h'.
Proof.
  intros h v. eexists. split; [reflexivity|].
  assert (wf_histories h) as Wh by (repeat constructor; unfold wf; simpl; lia).
  assert (histories_fit h) as Hf by (split; [simpl; int_bounds; lia | repeat constructor; simpl; int_bounds; lia]).
  assert (wf v) as Wv by (unfold wf; simpl; lia).
  assert (current_highest h) as Hc.
  { exists (mkVersionHistory [] [mkItem 3 1; mkItem 7 5]). split; [reflexivity|]. split; [reflexivity|].
    split; [discriminate|]. intros w Hw. apply list_elem_of_singleton in Hw as ->. reflexivity. }
  exact (proj1 (proj2 (proj2 (proj2 (AddAndSwitchVersionHistory_current_highest h v Wh Hf Wv Hc))))).
Defined.
