(* ===== verification/HistoryStore.v ===== *)
(** * The history tables: [common/persistence/sql/history_store.go] and the queries of
    [sql/sqlplugin/mysql/events.go] (those of the other plugins are the same)

    A workflow's events are kept in batches, one row of [history_node] per batch, under
    the branch that wrote it; [history_tree] has a row for every branch.  All queries
    name one shard and one tree, so the tables here are those of one tree. *)
From S2P Require Import Prelude.
Local Open Scope Z_scope.
Local Open Scope go_scope.

(** ** Events and their serialisation *)

Record HistoryEvent := mkEvent { EventId : Z; Version : Z; Attributes : nat }.

(** The serializer of event batches is generated code: what it promises. *)
Class EventSerializer := {
  DataBlob : Type;
  SerializeEvents : list HistoryEvent → option DataBlob;
  DeserializeEvents : DataBlob → option (list HistoryEvent);
  blob_size : DataBlob → Z;
  deserialize_serialize events blob : SerializeEvents events = Some blob → DeserializeEvents blob = Some events
}.

(** ** Sorting *)

Section order_by.
Context {A : Type} (R : A → A → Prop) `{!RelDecision R}.

Fixpoint insert_by (x : A) (l : list A) : list A :=
  match l with
  | [] => [x]
  | y :: l => if decide (R x y) then x :: y :: l else y :: insert_by x l
  end.
Definition order_by (l : list A) : list A := foldr insert_by [] l.
End order_by.

(** ** Branches *)

(** Branch ids are UUIDs; the nodes of a range are those from [BeginNodeId] on below [EndNodeId]. *)
Record HistoryBranchRange := mkBranchRange { rangeBranchId : Z; BeginNodeId : Z; EndNodeId : Z }.
Record HistoryBranch := mkBranch { BranchId : Z; Ancestors : list HistoryBranchRange }.

Inductive history_error :=
  | InvalidPersistenceRequestError
  | TransactionSizeLimitError
  | HistoryNotFound
  | SerializationError
  | DataLoss
  | InternalError
  | LoopsForever.
Abbreviation hist := (outcome history_error).

Definition FirstEventID : Z := 1.
Definition EmptyEventID : Z := 0.
Definition LastEventID : Z := MaxInt64.
Definition EndEventID : Z := MaxInt64.

Definition GetBeginNodeID (bi : HistoryBranch) : Z :=
  match last (Ancestors bi) with None => 1 | Some br => EndNodeId br end.

Section store.
Context `{EventSerializer}.

(** ** Rows *)

(** [TxnID] is the transaction id with the sign changed in the table. *)
Record HistoryNodeRow := mkRow { rowBranchID : Z; rowNodeID : Z; PrevTxnID : Z; TxnID : Z; Data : DataBlob }.

Record tables := mkTables { history_node : list HistoryNodeRow; history_tree : list HistoryBranch }.

(** [-x] of an [int64]. *)
Definition neg64 (z : Z) : Z := wrap64 (- z).

Definition same_key (r1 r2 : HistoryNodeRow) : bool :=
  (rowBranchID r1 =? rowBranchID r2) && (rowNodeID r1 =? rowNodeID r2) && (TxnID r1 =? TxnID r2).

(** ** The queries *)

(** [INSERT .. ON DUPLICATE KEY UPDATE]. *)
Definition InsertIntoHistoryNode (t : tables) (row : HistoryNodeRow) : tables :=
  let row := mkRow (rowBranchID row) (rowNodeID row) (PrevTxnID row) (neg64 (TxnID row)) (Data row) in
  mkTables (row :: base.filter (λ r, same_key row r = false) (history_node t)) (history_tree t).
Definition DeleteFromHistoryNode (t : tables) (branchID nodeID txnID : Z) : tables :=
  mkTables
    (base.filter (λ r, (rowBranchID r =? branchID) && (rowNodeID r =? nodeID) && (TxnID r =? neg64 txnID) = false) (history_node t))
    (history_tree t).
Definition RangeDeleteFromHistoryNode (t : tables) (branchID minNodeID : Z) : tables :=
  mkTables (base.filter (λ r, (rowBranchID r =? branchID) && (minNodeID <=? rowNodeID r) = false) (history_node t)) (history_tree t).
Definition InsertIntoHistoryTree (t : tables) (branch : HistoryBranch) : tables :=
  mkTables (history_node t) (branch :: base.filter (λ b, BranchId b ≠ BranchId branch) (history_tree t)).
Definition DeleteFromHistoryTree (t : tables) (branchID : Z) : tables :=
  mkTables (history_node t) (base.filter (λ b, BranchId b ≠ branchID) (history_tree t)).

Record HistoryNodeSelectFilter := mkSelect {
  selBranchID : Z; MinNodeID : Z; selMinTxnID : Z; MaxNodeID : Z; selMaxTxnID : Z; selPageSize : Z;
  MetadataOnly : bool; ReverseOrder : bool
}.

(** [ORDER BY node_id, txn_id], and the other way round. *)
Definition row_le (r1 r2 : HistoryNodeRow) : Prop :=
  rowNodeID r1 < rowNodeID r2 ∨ rowNodeID r1 = rowNodeID r2 ∧ TxnID r1 ≤ TxnID r2.
Definition row_ge (r1 r2 : HistoryNodeRow) : Prop := row_le r2 r1.
#[export] Instance row_le_dec : RelDecision row_le.
Proof. intros r1 r2. unfold row_le. apply _. Defined.
#[export] Instance row_ge_dec : RelDecision row_ge.
Proof. intros r1 r2. unfold row_ge. apply _. Defined.

Definition where_forward (f : HistoryNodeSelectFilter) (r : HistoryNodeRow) : bool :=
  (rowBranchID r =? selBranchID f) &&
  (((rowNodeID r =? MinNodeID f) && (TxnID r >? neg64 (selMinTxnID f))) || (rowNodeID r >? MinNodeID f)) &&
  (rowNodeID r <? MaxNodeID f).
(** The query compares [node_id] with the transaction id it is given, not with the node id. *)
Definition where_reverse (f : HistoryNodeSelectFilter) (r : HistoryNodeRow) : bool :=
  (rowBranchID r =? selBranchID f) && (MinNodeID f <=? rowNodeID r) &&
  (((rowNodeID r =? selMaxTxnID f) && (TxnID r <? neg64 (selMaxTxnID f))) || (rowNodeID r <? MaxNodeID f)).

Definition restore_sign (r : HistoryNodeRow) : HistoryNodeRow :=
  mkRow (rowBranchID r) (rowNodeID r) (PrevTxnID r) (neg64 (TxnID r)) (Data r).

(** No caller reads metadata in reverse order, which would give the forward query the
    arguments of the reverse one. *)
Definition RangeSelectFromHistoryNode (t : tables) (f : HistoryNodeSelectFilter) : list HistoryNodeRow :=
  let rows :=
    if ReverseOrder f && negb (MetadataOnly f)
    then order_by row_ge (base.filter (λ r, where_reverse f r = true) (history_node t))
    else order_by row_le (base.filter (λ r, where_forward f r = true) (history_node t)) in
  map restore_sign (take (Z.to_nat (selPageSize f)) rows).

(** ** The store *)

Definition MinTxnID : Z := MaxInt64.
Definition MaxTxnID : Z := MinInt64 + 1.

(** [None] is the nil blob of a node read without its data. *)
Record InternalHistoryNode := mkNode { NodeID : Z; Events : option DataBlob; PrevTransactionID : Z; TransactionID : Z }.

Definition AppendHistoryNodes_store (t : tables) (IsNewBranch : bool) (BranchInfo : HistoryBranch) (node : InternalHistoryNode)
    : hist tables :=
  match Events node with
  | None => Panic
  | Some data =>
      let nodeRow := mkRow (BranchId BranchInfo) (NodeID node) (PrevTransactionID node) (TransactionID node) data in
      let t := InsertIntoHistoryNode t nodeRow in
      Ok (if IsNewBranch then InsertIntoHistoryTree t BranchInfo else t)
  end.

Definition DeleteHistoryNodes_store (t : tables) (branchInfo : HistoryBranch) (nodeID txnID : Z) : hist tables :=
  if nodeID <? GetBeginNodeID branchInfo then Err InvalidPersistenceRequestError
  else Ok (DeleteFromHistoryNode t (BranchId branchInfo) nodeID txnID).

(** The JSON page token as the record it encodes; [None] is the empty one. *)
Record historyNodePaginationToken := mkNodeToken { tokenLastNodeID : Z; tokenLastTxnID : Z }.

Record InternalReadHistoryBranchRequest := mkInternalRead {
  reqBranchID : Z; reqMinNodeID : Z; reqMaxNodeID : Z; reqNextPageToken : option historyNodePaginationToken;
  reqPageSize : Z; reqMetadataOnly : bool; reqReverseOrder : bool
}.

Definition node_of_row (metadataOnly : bool) (r : HistoryNodeRow) : InternalHistoryNode :=
  mkNode (rowNodeID r) (if metadataOnly then None else Some (Data r)) (PrevTxnID r) (TxnID r).

Definition ReadHistoryBranch_store (t : tables) (request : InternalReadHistoryBranchRequest)
    : hist (list InternalHistoryNode * option historyNodePaginationToken) :=
  let token :=
    match reqNextPageToken request with
    | None => if reqReverseOrder request then mkNodeToken (reqMaxNodeID request) MaxTxnID
              else mkNodeToken (reqMinNodeID request) MinTxnID
    | Some token => token
    end in
  let '(minNodeId, minTxnId, maxNodeId, maxTxnId) :=
    if reqReverseOrder request
    then (reqMinNodeID request, MinTxnID, tokenLastNodeID token, tokenLastTxnID token)
    else (tokenLastNodeID token, tokenLastTxnID token, reqMaxNodeID request, MaxTxnID) in
  let rows := RangeSelectFromHistoryNode t
    (mkSelect (reqBranchID request) minNodeId minTxnId maxNodeId maxTxnId (reqPageSize request)
       (reqMetadataOnly request) (reqReverseOrder request)) in
  let nodes := map (node_of_row (reqMetadataOnly request)) rows in
  if Z.of_nat (length rows) <? reqPageSize request then Ok (nodes, None)
  else match last rows with
       | None => Panic
       | Some lastRow => Ok (nodes, Some (mkNodeToken (rowNodeID lastRow) (TxnID lastRow)))
       end.

Definition ForkHistoryBranch_store (t : tables) (newBranch : HistoryBranch) : tables := InsertIntoHistoryTree t newBranch.

Record DeleteRange := mkDeleteRange { delBranchId : Z; delBeginNodeId : Z }.
Definition delete_ranges (t : tables) (ranges : list DeleteRange) : tables :=
  foldl (λ t br, RangeDeleteFromHistoryNode t (delBranchId br) (delBeginNodeId br)) t ranges.
Definition DeleteHistoryBranch_store (t : tables) (branchID : Z) (ranges : list DeleteRange) : tables :=
  delete_ranges (DeleteFromHistoryTree t branchID) ranges.

Definition GetHistoryTreeContainingBranch_store (t : tables) : list HistoryBranch := history_tree t.
End store.
