(* ===== verification/HistoryManager.v ===== *)
(** * History branches: [common/persistence/history_manager.go], [history_manager_util.go],
    [history_node_util.go]

    Appending batches of events to a branch, forking, reading page by page (forward and in
    reverse), deleting and trimming branches, over the tables of [HistoryStore].  Branch
    tokens are given parsed, and so are the JSON page tokens. *)
From S2P Require Import Prelude HistoryStore.
Local Open Scope Z_scope.
Local Open Scope go_scope.

(** ** Branch ranges *)

Definition range_end_le (b1 b2 : HistoryBranchRange) : Prop := EndNodeId b1 ≤ EndNodeId b2.
#[export] Instance range_end_le_dec : RelDecision range_end_le.
Proof. intros b1 b2. unfold range_end_le. apply _. Defined.

Fixpoint set_begins (begin : Z) (ans : list HistoryBranchRange) : list HistoryBranchRange :=
  match ans with
  | [] => []
  | br :: ans => mkBranchRange (rangeBranchId br) begin (EndNodeId br) :: set_begins (EndNodeId br) ans
  end.
Definition sortAncestors (ans : list HistoryBranchRange) : list HistoryBranchRange :=
  set_begins 1 (order_by range_end_le ans).

(** The ancestors with the branch itself as the last range. *)
Definition all_ranges (branch : HistoryBranch) (maxNodeID : Z) : list HistoryBranchRange :=
  let beginNodeID := match last (Ancestors branch) with None => FirstEventID | Some br => EndNodeId br end in
  Ancestors branch ++ [mkBranchRange (BranchId branch) beginNodeID maxNodeID].

(** ** Forking *)

Fixpoint cut_ancestors (ans : list HistoryBranchRange) (forkNodeID : Z) : list HistoryBranchRange :=
  match ans with
  | [] => []
  | br :: ans =>
      if EndNodeId br >=? forkNodeID then [mkBranchRange (rangeBranchId br) (BeginNodeId br) forkNodeID]
      else br :: cut_ancestors ans forkNodeID
  end.

(** [newID] is the fresh UUID. *)
Definition fork_branch (forkBranch : HistoryBranch) (forkNodeID newID : Z) : HistoryBranch :=
  let beginNodeID := GetBeginNodeID forkBranch in
  mkBranch newID
    (if beginNodeID >=? forkNodeID then cut_ancestors (Ancestors forkBranch) forkNodeID
     else Ancestors forkBranch ++ [mkBranchRange (BranchId forkBranch) beginNodeID forkNodeID]).

Section manager.
Context `{EventSerializer}.

Definition ForkHistoryBranch (t : tables) (forkBranch : HistoryBranch) (forkNodeID newID : Z) : hist (tables * HistoryBranch) :=
  if forkNodeID <=? 1 then Err InvalidPersistenceRequestError
  else
    let newBranch := fork_branch forkBranch forkNodeID newID in
    Ok (ForkHistoryBranch_store t newBranch, newBranch).

(** ** Deleting *)

Definition use_ancestor (used : gmap Z Z) (ancestor : HistoryBranchRange) : gmap Z Z :=
  if match used !! rangeBranchId ancestor with None => true | Some curr => curr <? EndNodeId ancestor end
  then <[rangeBranchId ancestor := EndNodeId ancestor]> used else used.
Definition use_branch (branchID : Z) (used : gmap Z Z) (branchInfo : HistoryBranch) : gmap Z Z :=
  if BranchId branchInfo =? branchID then used
  else foldl use_ancestor (<[BranchId branchInfo := LastEventID]> used) (Ancestors branchInfo).
Definition usedBranches (branchID : Z) (branchInfos : list HistoryBranch) : gmap Z Z :=
  foldl (use_branch branchID) ∅ branchInfos.

(** The loop from the last range up, here over the reversed list. *)
Fixpoint findDeleteRanges (used : gmap Z Z) (brs : list HistoryBranchRange) : list DeleteRange :=
  match brs with
  | [] => []
  | br :: brs =>
      match used !! rangeBranchId br with
      | Some maxEndNode => if maxEndNode =? LastEventID then [] else [mkDeleteRange (rangeBranchId br) maxEndNode]
      | None => mkDeleteRange (rangeBranchId br) (BeginNodeId br) :: findDeleteRanges used brs
      end
  end.
(** The end of the branch's own range is not set. *)
Definition brsToDelete (branch : HistoryBranch) : list HistoryBranchRange :=
  Ancestors branch ++ [mkBranchRange (BranchId branch) (GetBeginNodeID branch) 0].
Definition DeleteHistoryBranch (t : tables) (branch : HistoryBranch) : tables :=
  let used := usedBranches (BranchId branch) (GetHistoryTreeContainingBranch_store t) in
  DeleteHistoryBranch_store t (BranchId branch) (findDeleteRanges used (reverse (brsToDelete branch))).

(** ** Appending *)

(** The batch has one version and contiguous ids from [lastID + 1] on. *)
Fixpoint check_batch (version lastID : Z) (events : list HistoryEvent) : bool :=
  match events with
  | [] => true
  | e :: events => (Version e =? version) && (EventId e =? lastID + 1) && check_batch version (lastID + 1) events
  end.

Record AppendRequest := mkAppend {
  appBranch : HistoryBranch; IsNewBranch : bool; appEvents : list HistoryEvent;
  appPrevTransactionID : Z; appTransactionID : Z
}.

Definition serializeAppendHistoryNodesRequest (transactionSizeLimit : Z) (request : AppendRequest)
    : hist (HistoryBranch * InternalHistoryNode) :=
  match appEvents request with
  | [] => Err InvalidPersistenceRequestError
  | first :: _ =>
      let branch := mkBranch (BranchId (appBranch request)) (sortAncestors (Ancestors (appBranch request))) in
      let version := Version first in
      let nodeID := EventId first in
      if nodeID <=? 0 then Err InvalidPersistenceRequestError
      else if negb (check_batch version (nodeID - 1) (appEvents request)) then Err InvalidPersistenceRequestError
      else match SerializeEvents (appEvents request) with
           | None => Err SerializationError
           | Some blob =>
               if blob_size blob >? transactionSizeLimit then Err TransactionSizeLimitError
               else if nodeID <? GetBeginNodeID branch then Err InvalidPersistenceRequestError
               else Ok (branch, mkNode nodeID (Some blob) (appPrevTransactionID request) (appTransactionID request))
           end
  end.
Definition AppendHistoryNodes (transactionSizeLimit : Z) (t : tables) (request : AppendRequest) : hist tables :=
  let! (branch, node) := serializeAppendHistoryNodesRequest transactionSizeLimit request in
  AppendHistoryNodes_store t (IsNewBranch request) branch node.

(** A batch that comes serialised, as in replication; [data] is [None] when it is empty. *)
Definition serializeAppendRawHistoryNodesRequest (transactionSizeLimit : Z) (appBranch : HistoryBranch)
    (nodeID : Z) (data : option DataBlob) (prevTransactionID transactionID : Z) : hist (HistoryBranch * InternalHistoryNode) :=
  match data with
  | None => Err InvalidPersistenceRequestError
  | Some blob =>
      let branch := mkBranch (BranchId appBranch) (sortAncestors (Ancestors appBranch)) in
      if nodeID <=? 0 then Err InvalidPersistenceRequestError
      else if blob_size blob >? transactionSizeLimit then Err TransactionSizeLimitError
      else if nodeID <? GetBeginNodeID branch then Err InvalidPersistenceRequestError
      else Ok (branch, mkNode nodeID (Some blob) prevTransactionID transactionID)
  end.
Definition AppendRawHistoryNodes (transactionSizeLimit : Z) (t : tables) (appBranch : HistoryBranch) (isNewBranch : bool)
    (nodeID : Z) (data : option DataBlob) (prevTransactionID transactionID : Z) : hist tables :=
  let! (branch, node) :=
    serializeAppendRawHistoryNodesRequest transactionSizeLimit appBranch nodeID data prevTransactionID transactionID in
  AppendHistoryNodes_store t isNewBranch branch node.

(** ** Reading *)

Record historyPagingToken := mkPagingToken {
  tkLastEventID : Z; StoreToken : option historyNodePaginationToken;
  CurrentRangeIndex : Z; FinalRangeIndex : Z; LastNodeID : Z; LastTransactionID : Z
}.
Definition notStartedIndex : Z := -1.
Definition defaultLastNodeID : Z := FirstEventID - 1.
Definition defaultLastTransactionID : Z := 0.

Definition deserializeToken (token : option historyPagingToken) (defaultLastEventID lastTransactionId : Z) : historyPagingToken :=
  match token with
  | None => mkPagingToken defaultLastEventID None notStartedIndex 0 defaultLastNodeID lastTransactionId
  | Some token => token
  end.
Definition set_ranges (token : historyPagingToken) (current final : Z) : historyPagingToken :=
  mkPagingToken (tkLastEventID token) (StoreToken token) current final (LastNodeID token) (LastTransactionID token).
Definition set_store_token (token : historyPagingToken) (st : option historyNodePaginationToken) : historyPagingToken :=
  mkPagingToken (tkLastEventID token) st (CurrentRangeIndex token) (FinalRangeIndex token) (LastNodeID token) (LastTransactionID token).
Definition set_last_node (token : historyPagingToken) (nodeID txnID : Z) : historyPagingToken :=
  mkPagingToken (tkLastEventID token) (StoreToken token) (CurrentRangeIndex token) (FinalRangeIndex token) nodeID txnID.
Definition set_last_event (token : historyPagingToken) (eventID : Z) : historyPagingToken :=
  mkPagingToken eventID (StoreToken token) (CurrentRangeIndex token) (FinalRangeIndex token) (LastNodeID token) (LastTransactionID token).

Definition serializeToken (token : historyPagingToken) (reverseOrder : bool) : option historyPagingToken :=
  match StoreToken token with
  | None =>
      if CurrentRangeIndex token =? FinalRangeIndex token then None
      else if reverseOrder then Some (set_ranges token (CurrentRangeIndex token - 1) (FinalRangeIndex token))
      else Some (set_ranges token (CurrentRangeIndex token + 1) (FinalRangeIndex token))
  | Some _ => Some token
  end.

(** The first and the last index of the ranges that can have nodes of the request. *)
Fixpoint find_ranges (idx : Z) (brs : list HistoryBranchRange) (minNodeID maxNodeID current final : Z) : Z * Z :=
  match brs with
  | [] => (current, final)
  | br :: brs =>
      if minNodeID >=? EndNodeId br then find_ranges (idx + 1) brs minNodeID maxNodeID current final
      else if maxNodeID <=? BeginNodeId br then (current, final)
      else find_ranges (idx + 1) brs minNodeID maxNodeID (if current =? notStartedIndex then idx else current) idx
  end.
(** The same from the last range down; [brs] is reversed and [idx] the index of its head. *)
Fixpoint find_ranges_reverse (idx : Z) (brs : list HistoryBranchRange) (minNodeID maxNodeID current final : Z) : Z * Z :=
  match brs with
  | [] => (current, final)
  | br :: brs =>
      if maxNodeID <=? BeginNodeId br then find_ranges_reverse (idx - 1) brs minNodeID maxNodeID current final
      else if minNodeID >=? EndNodeId br then (current, final)
      else find_ranges_reverse (idx - 1) brs minNodeID maxNodeID (if current =? notStartedIndex then idx else current) idx
  end.

Definition start_token (reverseOrder : bool) (branchAncestors : list HistoryBranchRange) (minNodeID maxNodeID : Z)
    (token : historyPagingToken) : hist historyPagingToken :=
  if CurrentRangeIndex token =? notStartedIndex then
    let '(current, final) :=
      if reverseOrder
      then find_ranges_reverse (Z.of_nat (length branchAncestors) - 1) (reverse branchAncestors) minNodeID maxNodeID
             notStartedIndex (FinalRangeIndex token)
      else find_ranges 0 branchAncestors minNodeID maxNodeID notStartedIndex (FinalRangeIndex token) in
    if current =? notStartedIndex then Err DataLoss else Ok (set_ranges token current final)
  else Ok token.

(** [readRawHistoryBranch] and [readRawHistoryBranchReverse]. *)
Definition readRawHistoryBranch (reverseOrder : bool) (t : tables) (branchAncestors : list HistoryBranchRange)
    (minNodeID maxNodeID : Z) (token : historyPagingToken) (pageSize : Z) (metadataOnly : bool)
    : hist (list InternalHistoryNode * historyPagingToken) :=
  let! token := start_token reverseOrder branchAncestors minNodeID maxNodeID token in
  match branchAncestors !! Z.to_nat (CurrentRangeIndex token) with
  | None => Panic
  | Some currentBranch =>
      let maxNodeID := if EndNodeId currentBranch <? maxNodeID then EndNodeId currentBranch else maxNodeID in
      let! (nodes, nextPageToken) := ReadHistoryBranch_store t
        (mkInternalRead (rangeBranchId currentBranch) minNodeID maxNodeID (StoreToken token) pageSize metadataOnly reverseOrder) in
      Ok (nodes, set_store_token token nextPageToken)
  end.

Fixpoint filterHistoryNodes (lastNodeID lastTransactionID : Z) (nodes : list InternalHistoryNode)
    : hist (list InternalHistoryNode) :=
  match nodes with
  | [] => Ok []
  | node :: nodes =>
      if TransactionID node <? lastTransactionID then filterHistoryNodes lastNodeID lastTransactionID nodes
      else if NodeID node <=? lastNodeID then Err DataLoss
      else
        let! result := filterHistoryNodes (NodeID node) (TransactionID node) nodes in
        Ok (node :: result)
  end.

Fixpoint filterHistoryNodesReverse (lastNodeID lastTransactionID : Z) (nodes : list InternalHistoryNode)
    : hist (list InternalHistoryNode) :=
  match nodes with
  | [] => Ok []
  | node :: nodes =>
      let lastNodeID := if lastNodeID =? defaultLastNodeID then NodeID node else lastNodeID in
      if negb (lastTransactionID =? 0) && negb (TransactionID node =? lastTransactionID)
      then filterHistoryNodesReverse lastNodeID lastTransactionID nodes
      else if NodeID node >? lastNodeID then Err DataLoss
      else
        let! result := filterHistoryNodesReverse (NodeID node) (PrevTransactionID node) nodes in
        Ok (node :: result)
  end.

Record ReadRequest := mkRead {
  rdBranch : HistoryBranch; MinEventID : Z; MaxEventID : Z; PageSize : Z; NextPageToken : option historyPagingToken
}.

(** The blobs of the nodes; a node without events is lost data. *)
Fixpoint node_blobs (nodes : list InternalHistoryNode) : hist (list DataBlob) :=
  match nodes with
  | [] => Ok []
  | node :: nodes =>
      match Events node with
      | None => Err DataLoss
      | Some blob => let! blobs := node_blobs nodes in Ok (blob :: blobs)
      end
  end.

Definition is_first_page (token : option historyPagingToken) : bool := match token with None => true | Some _ => false end.

Definition readRawHistoryBranchAndFilter (t : tables) (request : ReadRequest)
    : hist (list DataBlob * list InternalHistoryNode * historyPagingToken) :=
  let token := deserializeToken (NextPageToken request) (MinEventID request - 1) defaultLastTransactionID in
  let! (nodes, token) := readRawHistoryBranch false t (all_ranges (rdBranch request) (MaxEventID request))
    (MinEventID request) (MaxEventID request) token (PageSize request) false in
  if (Z.of_nat (length nodes) =? 0) && is_first_page (NextPageToken request) then Err HistoryNotFound
  else
    let! nodes := filterHistoryNodes (LastNodeID token) (LastTransactionID token) nodes in
    let! dataBlobs := node_blobs nodes in
    Ok (dataBlobs, nodes,
        match last nodes with
        | None => token
        | Some lastNode => set_last_node token (NodeID lastNode) (TransactionID lastNode)
        end).

Definition ReadRawHistoryBranch (t : tables) (request : ReadRequest)
    : hist (list DataBlob * list Z * option historyPagingToken) :=
  let! (dataBlobs, nodes, token) := readRawHistoryBranchAndFilter t request in
  Ok (dataBlobs, map NodeID nodes, serializeToken token false).

(** The checks of a batch, and the events of all batches with the id of the last. *)
Definition batch_ok (events : list HistoryEvent) : bool :=
  match head events, last events with
  | Some firstEvent, Some lastEvent =>
      (Version firstEvent =? Version lastEvent) &&
      (EventId firstEvent + (Z.of_nat (length events) - 1) =? EventId lastEvent)
  | _, _ => false
  end.
Definition first_event_id (events : list HistoryEvent) : Z := from_option EventId 0 (head events).
Definition last_event_id (events : list HistoryEvent) : Z := from_option EventId 0 (last events).

Fixpoint read_batches (lastEventID : Z) (batches : list DataBlob) : hist (list (list HistoryEvent) * Z) :=
  match batches with
  | [] => Ok ([], lastEventID)
  | batch :: batches =>
      match DeserializeEvents batch with
      | None => Err SerializationError
      | Some events =>
          if negb (batch_ok events) then Err DataLoss
          else if negb (first_event_id events =? lastEventID + 1) then Err DataLoss
          else
            let! (rest, lastEventID) := read_batches (last_event_id events) batches in
            Ok (events :: rest, lastEventID)
      end
  end.

Record ReadResponse := mkResponse {
  HistoryBatches : list (list HistoryEvent); TransactionIDs : list Z; respNextPageToken : option historyPagingToken; Size : Z
}.
Definition HistoryEvents (r : ReadResponse) : list HistoryEvent := concat (HistoryBatches r).

Definition sum_sizes (blobs : list DataBlob) : Z := foldr (λ b acc, blob_size b + acc) 0 blobs.

(** [readHistoryBranch], of which [ReadHistoryBranch] gives the events and
    [ReadHistoryBranchByBatch] the batches. *)
Definition ReadHistoryBranch (t : tables) (request : ReadRequest) : hist ReadResponse :=
  let! (dataBlobs, nodes, token) := readRawHistoryBranchAndFilter t request in
  let! (batches, lastEventID) := read_batches (tkLastEventID token) dataBlobs in
  let token := set_last_event token lastEventID in
  Ok (mkResponse batches (map TransactionID nodes) (serializeToken token false) (sum_sizes dataBlobs)).

(** [LastFirstTransactionID] says which node is the last of the chain. *)
Record ReverseRequest := mkReverse {
  rvBranch : HistoryBranch; rvMaxEventID : Z; rvPageSize : Z; LastFirstTransactionID : Z; rvNextPageToken : option historyPagingToken
}.

Definition readRawHistoryBranchReverseAndFilter (t : tables) (request : ReverseRequest)
    : hist (list DataBlob * list InternalHistoryNode * historyPagingToken) :=
  let minNodeID := FirstEventID in
  let maxNodeID := if rvMaxEventID request =? EmptyEventID then EndEventID else wrap64 (rvMaxEventID request + 1) in
  let token := deserializeToken (rvNextPageToken request) (rvMaxEventID request) (LastFirstTransactionID request) in
  let! (nodes, token) := readRawHistoryBranch true t (all_ranges (rvBranch request) maxNodeID)
    minNodeID maxNodeID token (rvPageSize request) false in
  if (Z.of_nat (length nodes) =? 0) && is_first_page (rvNextPageToken request) then Err HistoryNotFound
  else
    let! nodes := filterHistoryNodesReverse (LastNodeID token) (LastTransactionID token) nodes in
    match node_blobs nodes with
    | Ok dataBlobs =>
        Ok (dataBlobs, nodes,
            match last nodes with
            | None => token
            | Some lastNode => set_last_node token (NodeID lastNode) (PrevTransactionID lastNode)
            end)
    | _ => Panic
    end.

Fixpoint read_batches_reverse (lastEventID : Z) (batches : list DataBlob) : hist (list HistoryEvent * Z) :=
  match batches with
  | [] => Ok ([], lastEventID)
  | batch :: batches =>
      match DeserializeEvents batch with
      | None => Err SerializationError
      | Some events =>
          if negb (batch_ok events) then Err DataLoss
          else if negb (lastEventID =? EmptyEventID) && negb (last_event_id events =? lastEventID - 1) then Err DataLoss
          else
            let! (rest, lastEventID) := read_batches_reverse (first_event_id events) batches in
            Ok (reverse events ++ rest, lastEventID)
      end
  end.

Definition ReadHistoryBranchReverse (t : tables) (request : ReverseRequest)
    : hist (list HistoryEvent * option historyPagingToken) :=
  let! (dataBlobs, _, token) := readRawHistoryBranchReverseAndFilter t request in
  let! (events, lastEventID) := read_batches_reverse (tkLastEventID token) dataBlobs in
  Ok (events, serializeToken (set_last_event token lastEventID) true).

(** *** Whole pages *)

Definition next_request (request : ReadRequest) (token : option historyPagingToken) : ReadRequest :=
  mkRead (rdBranch request) (MinEventID request) (MaxEventID request) (PageSize request) token.

(** [historyEvents] is what the loop has so far. *)
Fixpoint ReadFullPageEvents (fuel : nat) (t : tables) (request : ReadRequest) (historyEvents : list HistoryEvent)
    : hist (list HistoryEvent * option historyPagingToken) :=
  match fuel with
  | O => Err LoopsForever
  | S fuel =>
      let! response := ReadHistoryBranch t request in
      let historyEvents := historyEvents ++ HistoryEvents response in
      if (PageSize request <=? Z.of_nat (length historyEvents)) || is_first_page (respNextPageToken response)
      then Ok (historyEvents, respNextPageToken response)
      else ReadFullPageEvents fuel t (next_request request (respNextPageToken response)) historyEvents
  end.

(** ** Trimming *)

Record historyNodeMetadata := mkMetadata {
  branchInfo : HistoryBranch; nodeID : Z; transactionID : Z; prevTransactionID : Z
}.

Definition insert_nodes (branch : HistoryBranch) (nodes : list InternalHistoryNode) (m : gmap Z historyNodeMetadata)
    : gmap Z historyNodeMetadata :=
  foldl (λ m node, <[TransactionID node := mkMetadata branch (NodeID node) (TransactionID node) (PrevTransactionID node)]> m) m nodes.

(** Reads all nodes of the branch up to the tail; one turn per page. *)
Fixpoint collect_nodes (fuel : nat) (t : tables) (branchAncestors : list HistoryBranchRange) (maxNodeID pageSize : Z)
    (pageToken : option historyPagingToken) (transactionIDToNode : gmap Z historyNodeMetadata)
    : hist (gmap Z historyNodeMetadata) :=
  match fuel with
  | O => Err LoopsForever
  | S fuel =>
      let token := deserializeToken pageToken (FirstEventID - 1) defaultLastTransactionID in
      let! (nodes, token) := readRawHistoryBranch false t branchAncestors FirstEventID maxNodeID token pageSize true in
      match branchAncestors !! Z.to_nat (CurrentRangeIndex token) with
      | None => Panic
      | Some br =>
          let branch := mkBranch (rangeBranchId br) (take (Z.to_nat (CurrentRangeIndex token)) branchAncestors) in
          let transactionIDToNode := insert_nodes branch nodes transactionIDToNode in
          match serializeToken token false with
          | None => Ok transactionIDToNode
          | pageToken => collect_nodes fuel t branchAncestors maxNodeID pageSize pageToken transactionIDToNode
          end
      end
  end.

Definition txn_ge (n1 n2 : historyNodeMetadata) : Prop := transactionID n2 ≤ transactionID n1.
#[export] Instance txn_ge_dec : RelDecision txn_ge.
Proof. intros n1 n2. unfold txn_ge. apply _. Defined.

(** The nodes of one node id, the largest transaction id first. *)
Definition nodes_of (m : gmap Z historyNodeMetadata) (id : Z) : list historyNodeMetadata :=
  order_by txn_ge (base.filter (λ n, nodeID n = id) (map snd (map_to_list m))).

(** Following the previous transaction ids: one step of fuel per node. *)
Fixpoint link_back (fuel : nat) (m : gmap Z historyNodeMetadata) (node : historyNodeMetadata) : hist (list historyNodeMetadata) :=
  match fuel with
  | O => Err LoopsForever
  | S fuel =>
      if nodeID node >? FirstEventID then
        match m !! prevTransactionID node with
        | None => Err InternalError
        | Some prevNode => let! nodes := link_back fuel m prevNode in Ok (node :: nodes)
        end
      else if negb (nodeID node =? FirstEventID) || negb (prevTransactionID node =? 0) then Err InternalError
      else Ok [node]
  end.
Definition reverselyLinkNode (fuel : nat) (tailNodeID tailTransactionID : Z) (m : gmap Z historyNodeMetadata)
    : hist (list historyNodeMetadata) :=
  match m !! tailTransactionID with
  | None => Err InternalError
  | Some node => if negb (nodeID node =? tailNodeID) then Err InternalError else link_back fuel m node
  end.

Fixpoint take_larger (txnID : Z) (nodes : list historyNodeMetadata) : list historyNodeMetadata :=
  match nodes with
  | [] => []
  | node :: nodes => if transactionID node <=? txnID then [] else node :: take_larger txnID nodes
  end.
Definition trimNodes (m : gmap Z historyNodeMetadata) (nodeChain : list historyNodeMetadata) : list historyNodeMetadata :=
  concat (map (λ validNode, take_larger (transactionID validNode) (nodes_of m (nodeID validNode))) nodeChain).
Definition validateNodeChainAndTrim (fuel : nat) (tailNodeID tailTransactionID : Z) (m : gmap Z historyNodeMetadata)
    : hist (list historyNodeMetadata) :=
  let! nodeChain := reverselyLinkNode fuel tailNodeID tailTransactionID m in
  Ok (trimNodes m nodeChain).

Fixpoint delete_nodes (t : tables) (nodes : list historyNodeMetadata) : hist tables :=
  match nodes with
  | [] => Ok t
  | node :: nodes =>
      let! t := DeleteHistoryNodes_store t (branchInfo node) (nodeID node) (transactionID node) in
      delete_nodes t nodes
  end.

Definition trimHistoryBranchPageSize : Z := 1000.

(** A chain that cannot be followed leaves the tables alone. *)
Definition TrimHistoryBranch (fuel : nat) (t : tables) (branch : HistoryBranch) (NodeID TransactionID : Z) : hist tables :=
  let maxNodeID := wrap64 (NodeID + 1) in
  let! transactionIDToNode := collect_nodes fuel t (all_ranges branch maxNodeID) maxNodeID trimHistoryBranchPageSize None ∅ in
  match validateNodeChainAndTrim fuel NodeID TransactionID transactionIDToNode with
  | Err LoopsForever => Err LoopsForever
  | Err _ => Ok t
  | Panic => Panic
  | Ok nodesToTrim => delete_nodes t nodesToTrim
  end.
End manager.
