(* ===== verification/HistoryRead.v ===== *)
(** * Reading a branch page by page

    The committed history of a branch is a chain of batches; next to it the tables may
    have rows of writes that were never committed.  When every such row is superseded by
    the batch of the chain that has its events, paging through the branch gives exactly
    the events of the chain, across the ranges the branch inherits from its ancestors and
    whatever the page size. *)
From S2P Require Import Prelude HistoryStore HistoryManager.
Local Open Scope Z_scope.
Local Open Scope go_scope.

(** ** [ORDER BY] *)

Section order_by.
Context {A : Type} (R : A → A → Prop) `{!RelDecision R}.

Lemma elem_of_insert_by x y l : y ∈ insert_by R x l ↔ y = x ∨ y ∈ l.
Proof. induction l as [|z l IH]; simpl; [set_solver|]. case_decide; set_solver. Qed.

Lemma elem_of_order_by y l : y ∈ order_by R l ↔ y ∈ l.
Proof. induction l as [|x l IH]; [done|]. simpl. rewrite elem_of_insert_by, IH. set_solver. Qed.

Lemma insert_by_perm x l : insert_by R x l ≡ₚ x :: l.
Proof. induction l as [|y l IH]; simpl; [done|]. case_decide; [done|]. rewrite IH. constructor. Qed.

Lemma order_by_perm l : order_by R l ≡ₚ l.
Proof. induction l as [|x l IH]; [done|]. simpl. by rewrite insert_by_perm, IH. Qed.

Context `{!Transitive R} (Htot : ∀ x y, ¬ R x y → R y x).

Lemma insert_by_sorted x l : StronglySorted R l → StronglySorted R (insert_by R x l).
Proof.
  induction 1 as [|y l S IH F]; simpl; [repeat constructor|]. case_decide as D.
  - constructor; [by constructor|]. constructor; [done|]. eapply Forall_impl; [exact F|]. simpl. intros. by transitivity y.
  - constructor; [done|]. rewrite Forall_forall in *. intros z [->|]%elem_of_insert_by; eauto.
Qed.

Lemma order_by_sorted l : StronglySorted R (order_by R l).
Proof. induction l; simpl; [constructor|]. by apply insert_by_sorted. Qed.

Lemma filter_insert_by (P : A → Prop) `{∀ x, Decision (P x)} x l :
  StronglySorted R l →
  base.filter P (insert_by R x l) = if decide (P x) then insert_by R x (base.filter P l) else base.filter P l.
Proof.
  induction 1 as [|y l S IH F]; simpl; [rewrite filter_cons; by case_decide|].
  destruct (decide (R x y)) as [D|D].
  - rewrite (filter_cons _ x). case_decide; [|done].
    assert (Forall (R x) (base.filter P (y :: l))) as Fx.
    { apply Forall_forall. intros z [_ [->|Hz]%elem_of_cons]%list_elem_of_filter; [done|]. rewrite Forall_forall in F. transitivity y; eauto. }
    destruct (base.filter P (y :: l)) as [|z l']; simpl; [done|].
    apply Forall_cons in Fx as [? _]. by rewrite decide_True.
  - rewrite !filter_cons, IH. destruct (decide (P y)), (decide (P x)); simpl; rewrite ?decide_False by done; done.
Qed.

(** Selecting before sorting is selecting from the sorted table. *)
Lemma filter_order_by (P : A → Prop) `{∀ x, Decision (P x)} l :
  order_by R (base.filter P l) = base.filter P (order_by R l).
Proof.
  induction l as [|x l IH]; [done|]. simpl. rewrite filter_insert_by by apply order_by_sorted.
  rewrite filter_cons. case_decide; simpl; by rewrite IH.
Qed.
End order_by.

Section read.
Context `{EventSerializer}.

#[export] Instance row_le_trans : Transitive row_le.
Proof. intros x y z. unfold row_le. lia. Qed.
Lemma row_le_total x y : ¬ row_le x y → row_le y x.
Proof. unfold row_le. lia. Qed.

(** The strict order. *)
Definition row_lt (r1 r2 : HistoryNodeRow) : Prop :=
  rowNodeID r1 < rowNodeID r2 ∨ rowNodeID r1 = rowNodeID r2 ∧ TxnID r1 < TxnID r2.

(** ** The tables *)

(** The transaction id of a row; ids are positive and below the ids the queries use as bounds. *)
Definition txn (r : HistoryNodeRow) : Z := - TxnID r.
Definition keys_unique (l : list HistoryNodeRow) : Prop :=
  NoDup (map (λ r, (rowBranchID r, rowNodeID r, TxnID r)) l).
Record tables_ok (t : tables) : Prop := {
  ok_keys : keys_unique (history_node t);
  ok_txns : ∀ r, r ∈ history_node t → 0 < txn r < MaxInt64
}.

Lemma neg64_id z : MinInt64 < z ≤ MaxInt64 → neg64 z = - z.
Proof. intros. unfold neg64. apply wrap64_id. int_bounds. lia. Qed.

Lemma row_le_antisym l r1 r2 :
  keys_unique l → r1 ∈ l → r2 ∈ l → rowBranchID r1 = rowBranchID r2 → row_le r1 r2 → r1 ≠ r2 → row_lt r1 r2.
Proof.
  intros U H1 H2 E L N. unfold row_le, row_lt in *. destruct L as [|[? ?]]; [by left|]. right. split; [done|].
  destruct (decide (TxnID r1 = TxnID r2)); [|lia]. exfalso. apply N.
  apply list_elem_of_lookup in H1 as [i Hi], H2 as [j Hj].
  assert (i = j) as ->; [|congruence].
  eapply NoDup_lookup; [apply U| |]; rewrite list_lookup_fmap; [by rewrite Hi|rewrite Hj; simpl; congruence].
Qed.

(** The rows of one branch are strictly sorted. *)
Lemma branch_rows_sorted t (P : HistoryNodeRow → Prop) `{∀ r, Decision (P r)} :
  tables_ok t → (∀ r1 r2, P r1 → P r2 → rowBranchID r1 = rowBranchID r2) →
  StronglySorted row_lt (base.filter P (order_by row_le (history_node t))).
Proof.
  intros [U _] HP.
  pose proof (order_by_sorted row_le row_le_total (history_node t)) as S.
  assert (NoDup (order_by row_le (history_node t))) as N.
  { rewrite order_by_perm. eapply NoDup_fmap_1. apply U. }
  assert (∀ r, r ∈ order_by row_le (history_node t) → r ∈ history_node t) as Hin by (intros r Hr; by apply elem_of_order_by in Hr).
  induction S as [|r l S IH F]; simpl; [constructor|]. apply NoDup_cons in N as [Nr N].
  rewrite filter_cons. case_decide as Pr; [|by apply IH; [|set_solver]].
  constructor; [by apply IH; [|set_solver]|]. apply Forall_forall. intros r' [Pr' Hr']%list_elem_of_filter.
  rewrite Forall_forall in F. eapply row_le_antisym; [exact U|apply Hin; by left|apply Hin; by right|by apply HP|by apply F|].
  by intros ->.
Qed.

(** ** One page of the store *)

Definition in_page (b m M : Z) (r : HistoryNodeRow) : Prop := rowBranchID r = b ∧ m ≤ rowNodeID r < M.
#[export] Instance in_page_dec b m M r : Decision (in_page b m M r).
Proof. unfold in_page. apply _. Defined.

(** All rows of a range in the order of the query, and a row as the store gives it. *)
Definition range_rows (t : tables) (b m M : Z) : list HistoryNodeRow :=
  base.filter (in_page b m M) (order_by row_le (history_node t)).
Definition to_node (md : bool) (r : HistoryNodeRow) : InternalHistoryNode := node_of_row md (restore_sign r).

(** The store's page token after the rows [P] of a range. *)
Definition token_of (P : list HistoryNodeRow) : option historyNodePaginationToken :=
  match last P with None => None | Some r => Some (mkNodeToken (rowNodeID r) (txn r)) end.

Lemma range_rows_in t b m M r : r ∈ range_rows t b m M ↔ in_page b m M r ∧ r ∈ history_node t.
Proof. unfold range_rows. by rewrite list_elem_of_filter, elem_of_order_by. Qed.

Lemma range_rows_sorted t b m M : tables_ok t → StronglySorted row_lt (range_rows t b m M).
Proof. intros Ht. apply branch_rows_sorted; [done|]. by intros r1 r2 [-> _] [-> _]. Qed.

Lemma filter_none {A} (P : A → Prop) `{∀ x, Decision (P x)} (l : list A) : (∀ x, x ∈ l → ¬ P x) → base.filter P l = [].
Proof.
  induction l as [|x l IH]; [done|]. intros HP. rewrite filter_cons, decide_False by (apply HP; by left).
  apply IH. intros. apply HP. by right.
Qed.

Lemma filter_ext_in {A} (P Q : A → Prop) `{∀ x, Decision (P x), ∀ x, Decision (Q x)} (l : list A) :
  (∀ x, x ∈ l → P x ↔ Q x) → base.filter P l = base.filter Q l.
Proof.
  induction l as [|x l IH]; [done|]. intros HP. rewrite !filter_cons, IH by set_solver.
  destruct (HP x); [by left|]. by repeat case_decide; naive_solver.
Qed.

(** What the query with the token after [P] selects is what follows [P]. *)
Lemma select_after t b m M ps md P R :
  tables_ok t → range_rows t b m M = P ++ R →
  let token := default (mkNodeToken m MinTxnID) (token_of P) in
  RangeSelectFromHistoryNode t (mkSelect b (tokenLastNodeID token) (tokenLastTxnID token) M MaxTxnID ps md false)
  = map restore_sign (take (Z.to_nat ps) R).
Proof.
  intros Ht E token. unfold RangeSelectFromHistoryNode. simpl. do 2 f_equal.
  rewrite filter_order_by by (apply row_le_total || apply _).
  pose proof (range_rows_sorted t b m M Ht) as S. rewrite E in S.
  pose proof (ok_txns _ Ht) as Htx.
  destruct (last P) as [x|] eqn:L.
  - unfold token, token_of. rewrite L. simpl.
    assert (x ∈ P) as Hx by (apply last_Some in L as [? ->]; set_solver).
    assert (x ∈ range_rows t b m M) as [(Hb & Hm & HM) Hxt]%range_rows_in by (rewrite E; set_solver).
    specialize (Htx x Hxt) as Hxx. unfold txn in Hxx.
    assert (neg64 (txn x) = TxnID x) as Hneg by (unfold txn; rewrite neg64_id; int_bounds; lia).
    transitivity (base.filter (λ r, row_lt x r ∧ in_page b m M r) (order_by row_le (history_node t))).
    { apply filter_ext_in. intros r _. unfold where_forward, in_page, row_lt. simpl. rewrite Hneg.
      rewrite !andb_true_iff, orb_true_iff, andb_true_iff, !Z.eqb_eq, !Z.gtb_lt, Z.ltb_lt. lia. }
    rewrite <- list_filter_filter. fold (range_rows t b m M). rewrite E, filter_app.
    rewrite (filter_none _ P), (filter_all _ R); [done| |].
    + intros r Hr. by eapply StronglySorted_app_1_elem_of.
    + intros r Hr Hlt. apply last_Some in L as [P' ->].
      apply elem_of_app in Hr as [Hr | ->%list_elem_of_singleton]; [|unfold row_lt in Hlt; lia].
      rewrite <- app_assoc in S. pose proof (StronglySorted_app_1_elem_of _ _ _ r x S Hr ltac:(set_solver)).
      unfold row_lt in *. lia.
  - apply last_None in L as ->. unfold token. simpl. simpl in E. rewrite <- E. apply filter_ext_in.
    intros r Hr%elem_of_order_by. specialize (Htx r Hr). unfold txn in Htx.
    unfold where_forward, in_page. simpl. unfold MinTxnID. rewrite neg64_id by (int_bounds; lia).
    rewrite !andb_true_iff, orb_true_iff, andb_true_iff, !Z.eqb_eq, !Z.gtb_lt, Z.ltb_lt. lia.
Qed.

Lemma read_page t b m M ps md P R :
  tables_ok t → 0 < ps → range_rows t b m M = P ++ R →
  ReadHistoryBranch_store t (mkInternalRead b m M (token_of P) ps md false)
  = Ok (map (to_node md) (take (Z.to_nat ps) R),
        if decide (Z.of_nat (length R) < ps) then None else token_of (P ++ take (Z.to_nat ps) R)).
Proof.
  intros Ht Hps E. unfold ReadHistoryBranch_store. simpl.
  pose proof (select_after t b m M ps md P R Ht E) as Hsel. simpl in Hsel.
  replace (match token_of P with Some token => token | None => mkNodeToken m MinTxnID end)
    with (default (mkNodeToken m MinTxnID) (token_of P)) by (by destruct (token_of P)).
  rewrite Hsel, length_map, length_take, map_map. case_decide as D.
  - by rewrite (proj2 (Z.ltb_lt _ _)) by lia.
  - rewrite (proj2 (Z.ltb_ge _ _)) by lia. change (map restore_sign) with (fmap (M := list) restore_sign).
    rewrite fmap_last. unfold token_of. rewrite last_app.
    destruct (last (take (Z.to_nat ps) R)) as [x|] eqn:L; simpl.
    + do 3 f_equal. assert (x ∈ R) as Hx by (apply last_Some in L as [l L]; rewrite <- (take_drop (Z.to_nat ps) R), L; set_solver).
      assert (x ∈ range_rows t b m M) as [_ Hxt]%range_rows_in by (rewrite E; set_solver).
      pose proof (ok_txns _ Ht x Hxt). unfold txn in *. f_equal. apply neg64_id. int_bounds. lia.
    + exfalso. apply last_None, (f_equal length) in L. rewrite length_take in L. simpl in L. lia.
Qed.

(** ** The committed chain *)

Definition row_events (r : HistoryNodeRow) : list HistoryEvent := default [] (DeserializeEvents (Data r)).
Definition row_end (r : HistoryNodeRow) : Z := rowNodeID r + Z.of_nat (length (row_events r)).

(** A batch as [AppendHistoryNodes] writes it. *)
Definition good_batch (r : HistoryNodeRow) : Prop :=
  DeserializeEvents (Data r) = Some (row_events r) ∧ batch_ok (row_events r) = true ∧
  first_event_id (row_events r) = rowNodeID r.

Fixpoint contiguous (start : Z) (chain : list HistoryNodeRow) : Prop :=
  match chain with
  | [] => True
  | r :: chain => rowNodeID r = start ∧ good_batch r ∧ contiguous (row_end r) chain
  end.
Definition chain_end (start : Z) (chain : list HistoryNodeRow) : Z := from_option row_end start (last chain).
Definition chain_events (chain : list HistoryNodeRow) : list HistoryEvent := concat (map row_events chain).

(** Later batches of a chain have later transactions. *)
Definition chain_lt (r1 r2 : HistoryNodeRow) : Prop := rowNodeID r1 < rowNodeID r2 ∧ txn r1 ≤ txn r2.

Lemma to_node_txn md r : 0 < txn r < MaxInt64 → TransactionID (to_node md r) = txn r.
Proof. intros. unfold txn in *. simpl. apply neg64_id. int_bounds. lia. Qed.

(** Filtering keeps the chain: what is not on it is superseded by a batch before it. *)
Lemma filter_chain R C ln lt :
  StronglySorted row_lt R → StronglySorted chain_lt C →
  (∀ c, c ∈ C → c ∈ R ∧ ln < rowNodeID c ∧ lt ≤ txn c) → (∀ r, r ∈ R → 0 < txn r < MaxInt64) →
  (∀ r, r ∈ R → r ∈ C ∨ txn r < lt ∨ ∃ c, c ∈ C ∧ rowNodeID c ≤ rowNodeID r ∧ txn r < txn c) →
  filterHistoryNodes ln lt (map (to_node false) R) = Ok (map (to_node false) C).
Proof.
  intros SR. revert C ln lt. induction SR as [|r R SR IH F]; intros C ln lt SC HC Htx HR; cbn [map filterHistoryNodes].
  - destruct C as [|c C]; [done|]. destruct (HC c) as [[]%elem_of_nil _]. by left.
  - rewrite Forall_forall in F. rewrite to_node_txn by (apply Htx; by left).
    assert (∀ x, x ∈ C → x ∈ R → row_lt r x) as Hafter by auto.
    destruct (HR r ltac:(by left)) as [Hr|Hr].
    + (* the first row of the chain *)
      destruct C as [|c C]; [by apply elem_of_nil in Hr|]. apply StronglySorted_inv in SC as [SC Fc].
      rewrite Forall_forall in Fc.
      assert (r = c) as <-.
      { apply elem_of_cons in Hr as [->|Hr]; [done|]. destruct (Fc r Hr) as [? _].
        destruct (HC c ltac:(by left)) as [[->|Hc]%elem_of_cons _]; [done|]. specialize (F c Hc). unfold row_lt in F. lia. }
      destruct (HC r ltac:(by left)) as (_ & ? & ?).
      rewrite (proj2 (Z.ltb_ge _ _)), (proj2 (Z.leb_gt _ _)) by (simpl; lia).
      rewrite (IH C); [done|done| |by intros; apply Htx; right|].
      * intros c Hc. destruct (HC c ltac:(by right)) as ([->|HcR]%elem_of_cons & _); [|destruct (Fc c Hc); done].
        destruct (Fc r Hc). lia.
      * intros x Hx. destruct (HR x ltac:(by right)) as [[->|Hc]%elem_of_cons|[Hc|(c & [->|Hc]%elem_of_cons & ? & ?)]].
        -- specialize (F r Hx). unfold row_lt in F. lia.
        -- by left.
        -- right; left. lia.
        -- right; left. done.
        -- right; right. eauto.
    + (* a superseded row *)
      assert (r ∉ C) as Hn.
      { intros Hc. destruct Hr as [Hr|(c & Hc' & ? & ?)]; [destruct (HC r Hc); lia|].
        destruct (HC c Hc') as ([->|HcR]%elem_of_cons & _); [lia|]. specialize (F c HcR). unfold row_lt, txn in *. lia. }
      assert (txn r < lt) as Hlt.
      { destruct Hr as [Hr|(c & Hc & ? & ?)]; [done|]. exfalso.
        destruct (HC c Hc) as ([->|HcR]%elem_of_cons & _); [done|]. specialize (F c HcR). unfold row_lt, txn in *. lia. }
      rewrite (proj2 (Z.ltb_lt _ _)) by done. apply IH; [done| |by intros; apply Htx; right|by intros; apply HR; right].
      intros c Hc. destruct (HC c Hc) as ([->|HcR]%elem_of_cons & ? & ?); done.
Qed.

(** Filtering in two parts: the second continues where the first ended. *)
Definition after_node (ln : Z) (C : list InternalHistoryNode) : Z := from_option NodeID ln (last C).
Definition after_txn (lt : Z) (C : list InternalHistoryNode) : Z := from_option TransactionID lt (last C).

Lemma after_cons ln lt node C :
  after_node ln (node :: C) = after_node (NodeID node) C ∧ after_txn lt (node :: C) = after_txn (TransactionID node) C.
Proof. unfold after_node, after_txn. destruct C as [|y C]; [done|]. rewrite last_cons_cons. by destruct (last (y :: C)) eqn:E; [|rewrite last_None in E]. Qed.

Lemma filter_nodes_app ln lt N1 N2 C :
  filterHistoryNodes ln lt (N1 ++ N2) = Ok C →
  ∃ C1 C2, C = C1 ++ C2 ∧ filterHistoryNodes ln lt N1 = Ok C1 ∧
    filterHistoryNodes (after_node ln C1) (after_txn lt C1) N2 = Ok C2.
Proof.
  revert ln lt C. induction N1 as [|n N1 IH]; intros ln lt C; simpl; [intros; by exists [], C|].
  case_match; [by intros (C1 & C2 & ? & ? & ?)%IH; exists C1, C2|]. case_match; [done|].
  intros (C' & E & [= <-])%obind_ok. apply IH in E as (C1 & C2 & -> & -> & E2).
  exists (n :: C1), C2. destruct (after_cons ln lt n C1) as [-> ->]. done.
Qed.

(** ** Batches *)

Lemma node_blobs_rows C : node_blobs (map (to_node false) C) = Ok (map Data C).
Proof. induction C as [|r C IH]; [done|]. simpl. by rewrite IH. Qed.

Lemma chain_end_cons start r chain : chain_end start (r :: chain) = chain_end (row_end r) chain.
Proof. unfold chain_end. destruct chain as [|y c]; [done|]. rewrite last_cons_cons. by destruct (last (y :: c)) eqn:E; [|rewrite last_None in E]. Qed.

Lemma contiguous_app start c1 c2 : contiguous start (c1 ++ c2) ↔ contiguous start c1 ∧ contiguous (chain_end start c1) c2.
Proof.
  revert start. induction c1 as [|r c1 IH]; intros start; simpl; [tauto|]. rewrite IH, chain_end_cons. tauto.
Qed.

Lemma good_batch_last r : good_batch r → last_event_id (row_events r) = row_end r - 1 ∧ 0 < row_end r - rowNodeID r.
Proof.
  intros (_ & B & F). unfold batch_ok, row_end, last_event_id, first_event_id in *.
  destruct (row_events r) as [|e l]; [done|]. destruct (last (e :: l)); [|done]. simpl in *. bool_to_prop. lia.
Qed.

Lemma read_batches_rows e C :
  contiguous (e + 1) C → read_batches e (map Data C) = Ok (map row_events C, chain_end (e + 1) C - 1).
Proof.
  revert e. induction C as [|r C IH]; intros e; simpl; [intros _; unfold chain_end; simpl; do 2 f_equal; lia|].
  intros (Hn & G & HC). destruct (good_batch_last r G) as [HL _]. destruct G as (Hd & B & F).
  rewrite Hd, B, F, Hn, Z.eqb_refl. simpl. rewrite HL, chain_end_cons, IH.
  - simpl. do 3 f_equal. f_equal. lia.
  - by replace (row_end r - 1 + 1) with (row_end r) by lia.
Qed.

(** ** Pages *)

Section pages.
Context (t : tables) (Ht : tables_ok t) (branch : HistoryBranch) (m M ps : Z) (Hps : 0 < ps).

Definition rows_of (br : HistoryBranchRange) : list HistoryNodeRow :=
  range_rows t (rangeBranchId br) m (Z.min (EndNodeId br) M).

Definition request (token : option historyPagingToken) : ReadRequest := mkRead branch m M ps token.

(** A token between two pages: the rows up to it are read, and what is left to return is [C].
    [n] bounds the pages that can follow. *)
Definition position (n : nat) (tk : historyPagingToken) (C : list HistoryNodeRow) : Prop :=
  ∃ B1 br B2 B3 P R,
    all_ranges branch M = B1 ++ br :: B2 ++ B3 ∧
    CurrentRangeIndex tk = Z.of_nat (length B1) ∧ FinalRangeIndex tk = Z.of_nat (length B1 + length B2) ∧
    rows_of br = P ++ R ∧ StoreToken tk = token_of P ∧
    n = (length R + length (concat (map rows_of B2)) + length B2)%nat ∧
    filterHistoryNodes (LastNodeID tk) (LastTransactionID tk) (map (to_node false) (R ++ concat (map rows_of B2)))
    = Ok (map (to_node false) C) ∧
    contiguous (tkLastEventID tk + 1) C.

Lemma start_token_position n tk C : position n tk C → start_token false (all_ranges branch M) m M tk = Ok tk.
Proof.
  intros (B1 & br & B2 & B3 & P & R & _ & Hc & _). unfold start_token, notStartedIndex.
  by rewrite (proj2 (Z.eqb_neq _ _)) by lia.
Qed.

(** What the response of a page and the rest of the chain are. *)
Definition page_result (n : nat) (C : list HistoryNodeRow) (r : hist ReadResponse) : Prop :=
  ∃ resp C1 C2, r = Ok resp ∧ C = C1 ++ C2 ∧ HistoryBatches resp = map row_events C1 ∧
    match respNextPageToken resp with
    | None => C2 = []
    | Some tk => ∃ n', (n' < n)%nat ∧ position n' tk C2
    end.

Lemma map_to_node_app C N1 N2 :
  map (to_node false) C = N1 ++ N2 → ∃ C1 C2, C = C1 ++ C2 ∧ N1 = map (to_node false) C1 ∧ N2 = map (to_node false) C2.
Proof. intros (C1 & C2 & -> & <- & <-)%map_eq_app. eauto. Qed.

(** The token after the rows [R1] of a page, of which [C1] are on the chain. *)
Definition after_page (tk : historyPagingToken) (st : option historyNodePaginationToken) (C1 : list HistoryNodeRow) : historyPagingToken :=
  mkPagingToken (chain_end (tkLastEventID tk + 1) C1 - 1) st (CurrentRangeIndex tk) (FinalRangeIndex tk)
    (after_node (LastNodeID tk) (map (to_node false) C1)) (after_txn (LastTransactionID tk) (map (to_node false) C1)).

Lemma read_one_page token tk B1 br B2 B3 P R C1 :
  start_token false (all_ranges branch M) m M (deserializeToken token (m - 1) defaultLastTransactionID) = Ok tk →
  all_ranges branch M = B1 ++ br :: B2 ++ B3 → CurrentRangeIndex tk = Z.of_nat (length B1) →
  rows_of br = P ++ R → StoreToken tk = token_of P →
  filterHistoryNodes (LastNodeID tk) (LastTransactionID tk) (map (to_node false) (take (Z.to_nat ps) R)) = Ok (map (to_node false) C1) →
  contiguous (tkLastEventID tk + 1) C1 → (token = None → R ≠ []) →
  ∃ resp, ReadHistoryBranch t (request token) = Ok resp ∧ HistoryBatches resp = map row_events C1 ∧
    respNextPageToken resp
    = serializeToken (after_page tk (if decide (Z.of_nat (length R) < ps) then None else token_of (P ++ take (Z.to_nat ps) R)) C1) false.
Proof.
  intros Hs Hb Hc HR Hst HF HC Hne.
  unfold ReadHistoryBranch, readRawHistoryBranchAndFilter, readRawHistoryBranch. simpl.
  rewrite Hs. simpl. rewrite Hc, Nat2Z.id, Hb, list_lookup_middle by done.
  replace (if EndNodeId br <? M then EndNodeId br else M) with (Z.min (EndNodeId br) M)
    by (destruct (Z.ltb_spec (EndNodeId br) M); lia).
  rewrite Hst, (read_page t _ _ _ _ _ P R Ht Hps HR). simpl.
  rewrite length_map, length_take.
  replace ((Z.of_nat (Z.to_nat ps `min` length R) =? 0) && is_first_page token) with false.
  2: { symmetry. apply andb_false_iff. destruct token; [by right|left]. apply Z.eqb_neq.
       specialize (Hne eq_refl). destruct R; simpl in *; [done|lia]. }
  simpl. rewrite HF. simpl. rewrite node_blobs_rows. simpl.
  assert (∀ tk', tkLastEventID tk' = tkLastEventID tk → read_batches (tkLastEventID tk') (map Data C1)
    = Ok (map row_events C1, chain_end (tkLastEventID tk + 1) C1 - 1)) as HB by (intros tk' ->; by apply read_batches_rows).
  rewrite HB by (destruct (last _); done). simpl. eexists. split; [done|]. split; [done|]. simpl. f_equal.
  unfold after_page, after_node, after_txn, set_last_event. by destruct (last (map (to_node false) C1)).
Qed.

Lemma page_step token tk n C :
  start_token false (all_ranges branch M) m M (deserializeToken token (m - 1) defaultLastTransactionID) = Ok tk →
  position n tk C → (token = None → StoreToken tk = None ∧ C ≠ [] ∧
    ∀ br, all_ranges branch M !! Z.to_nat (CurrentRangeIndex tk) = Some br → rows_of br ≠ []) →
  page_result n C (ReadHistoryBranch t (request token)).
Proof.
  intros Hs (B1 & br & B2 & B3 & P & R & Hb & Hc & Hf & HR & Hst & -> & HF & HC) Hfirst.
  rewrite <- (take_drop (Z.to_nat ps) R), <- app_assoc, map_app in HF.
  apply filter_nodes_app in HF as (N1 & N2 & E & F1 & F2).
  apply map_to_node_app in E as (C1 & C2 & -> & -> & ->). apply contiguous_app in HC as [HC1 HC2].
  destruct (read_one_page token tk B1 br B2 B3 P R C1) as (resp & Hr & Hbatch & Htok); try done.
  { intros ->. destruct (Hfirst eq_refl) as (Hnone & _ & Hrows). intros ->.
    apply (Hrows br); [by rewrite Hc, Nat2Z.id, Hb, list_lookup_middle|].
    rewrite HR, app_nil_r. rewrite Hst in Hnone. unfold token_of in Hnone.
    destruct (last P) eqn:L; [done|]. by apply last_None in L. }
  exists resp, C1, C2. split_and!; try done. rewrite Htok. unfold serializeToken. simpl.
  replace (chain_end (tkLastEventID tk + 1) C1 - 1 + 1) with (chain_end (tkLastEventID tk + 1) C1) in * by lia.
  case_decide as D.
  - (* the range is read to its end *)
    rewrite drop_ge in F2 by lia. simpl in F2. rewrite Hc, Hf. destruct B2 as [|br' B2].
    + rewrite (proj2 (Z.eqb_eq _ _)) by (simpl; lia). simpl in F2. destruct C2; [done|by simpl in F2; simplify_eq].
    + rewrite (proj2 (Z.eqb_neq _ _)) by (simpl; lia). eexists. split; [|].
      2: { exists (B1 ++ [br]), br', B2, B3, [], (rows_of br'). rewrite <- app_assoc, length_app. simpl.
           replace (chain_end (tkLastEventID tk + 1) C1 - 1 + 1) with (chain_end (tkLastEventID tk + 1) C1) by lia.
           split_and!; try done; lia. }
      simpl. rewrite length_app. lia.
  - (* a full page *)
    assert (token_of (P ++ take (Z.to_nat ps) R) ≠ None) as Hn.
    { unfold token_of. rewrite last_app. destruct (last (take (Z.to_nat ps) R)) eqn:L; [done|].
      apply last_None, (f_equal length) in L. rewrite length_take in L. simpl in L. lia. }
    destruct (token_of (P ++ take (Z.to_nat ps) R)) as [st|] eqn:Est; [|done].
    eexists. split; [|].
    2: { exists B1, br, B2, B3, (P ++ take (Z.to_nat ps) R), (drop (Z.to_nat ps) R). rewrite <- app_assoc, take_drop. simpl.
         replace (chain_end (tkLastEventID tk + 1) C1 - 1 + 1) with (chain_end (tkLastEventID tk + 1) C1) by lia.
         split_and!; try done. }
    rewrite length_drop. lia.
Qed.

Lemma next_page tk n C : position n tk C → page_result n C (ReadHistoryBranch t (request (Some tk))).
Proof. intros Hp. eapply page_step; [by eapply start_token_position|done|done]. Qed.

(** ** Whole pages and the whole branch *)

(** What the callers do: the next page until there is no token. *)
Fixpoint read_all (fuel : nat) (token : option historyPagingToken) : hist (list HistoryEvent) :=
  match fuel with
  | O => Err LoopsForever
  | S fuel' =>
      let! (events, token) := ReadFullPageEvents fuel t (request token) [] in
      match token with
      | None => Ok events
      | Some _ => let! rest := read_all fuel' token in Ok (events ++ rest)
      end
  end.

Definition full_result (n : nat) (C : list HistoryNodeRow) (acc : list HistoryEvent)
    (r : hist (list HistoryEvent * option historyPagingToken)) : Prop :=
  ∃ C1 C2 token, r = Ok (acc ++ chain_events C1, token) ∧ C = C1 ++ C2 ∧
    match token with
    | None => C2 = []
    | Some tk => (∃ n', (n' < n)%nat ∧ position n' tk C2) ∧ ps ≤ Z.of_nat (length (acc ++ chain_events C1))
    end.

Lemma full_page_step token n C acc fuel :
  page_result n C (ReadHistoryBranch t (request token)) →
  (∀ tk n' C' acc', (n' < n)%nat → position n' tk C' →
     full_result n' C' acc' (ReadFullPageEvents fuel t (request (Some tk)) acc')) →
  full_result n C acc (ReadFullPageEvents (S fuel) t (request token) acc).
Proof.
  intros (resp & C1 & C2 & Hr & -> & Hb & Hn) IH. cbn [ReadFullPageEvents]. rewrite Hr. simpl.
  unfold HistoryEvents. rewrite Hb. fold (chain_events C1).
  destruct (respNextPageToken resp) as [tk|] eqn:Et.
  - destruct Hn as (n' & Hlt & Hp). rewrite orb_false_r. destruct (Z.leb_spec ps (Z.of_nat (length (acc ++ chain_events C1)))).
    + exists C1, C2, (Some tk). split_and!; [done|done| |done]. by exists n'.
    + unfold next_request. simpl. fold (request (Some tk)).
      destruct (IH tk n' C2 (acc ++ chain_events C1) Hlt Hp) as (D1 & D2 & token' & -> & -> & Hrest).
      exists (C1 ++ D1), D2, token'. unfold chain_events in *. rewrite map_app, concat_app, <- !app_assoc. split_and!; try done.
      destruct token'; [|done]. destruct Hrest as [(n'' & ? & ?) ?]. split; [exists n''; split; [lia|done]|].
      by rewrite <- app_assoc in *.
  - rewrite orb_true_r. exists C1, C2, None. done.
Qed.

Lemma full_page fuel n tk C acc :
  (n < fuel)%nat → position n tk C → full_result n C acc (ReadFullPageEvents fuel t (request (Some tk)) acc).
Proof.
  revert n tk C acc. induction fuel as [|fuel IH]; intros n tk C acc Hf Hp; [lia|].
  apply full_page_step; [by apply next_page|]. intros. apply IH; [lia|done].
Qed.

Lemma read_rest fuel n tk C : (n < fuel)%nat → position n tk C → read_all fuel (Some tk) = Ok (chain_events C).
Proof.
  revert n tk C. induction fuel as [|fuel IH]; intros n tk C Hf Hp; [lia|].
  destruct (full_page (S fuel) n tk C [] Hf Hp) as (C1 & C2 & token & E & -> & Hn).
  cbn [read_all]. rewrite E. simpl. destruct token as [tk'|].
  - destruct Hn as [(n' & ? & Hp') _]. rewrite (IH n' tk' C2) by (done || lia). simpl.
    unfold chain_events. by rewrite map_app, concat_app.
  - subst C2. by rewrite app_nil_r.
Qed.
End pages.
End read.
