(* ===== verification/HistoryChain.v ===== *)
(** * What a branch holds

    [holds t branch chain]: in the tables [t] the committed history of [branch] is [chain].
    Reading the branch gives the chain's events ([read_branch_complete]); reading it in
    reverse can lose them ([reverse_read_loses_events]). *)
From S2P Require Import Prelude HistoryStore HistoryManager HistoryRead.
Local Open Scope Z_scope.
Local Open Scope go_scope.

(** ** Ranges *)

(** Ranges that follow one another from [b] on. *)
Fixpoint ranges_from (b : Z) (brs : list HistoryBranchRange) : Prop :=
  match brs with
  | [] => True
  | br :: brs => BeginNodeId br = b ∧ b < EndNodeId br ∧ ranges_from (EndNodeId br) brs
  end.
Definition ranges_end (b : Z) (brs : list HistoryBranchRange) : Z := from_option EndNodeId b (last brs).

Lemma ranges_end_cons b br brs : ranges_end b (br :: brs) = ranges_end (EndNodeId br) brs.
Proof. unfold ranges_end. destruct brs as [|y l]; [done|]. rewrite last_cons_cons. by destruct (last (y :: l)) eqn:E; [|rewrite last_None in E]. Qed.

Lemma all_ranges_eq branch M :
  all_ranges branch M = Ancestors branch ++ [mkBranchRange (BranchId branch) (GetBeginNodeID branch) M].
Proof. done. Qed.
Lemma GetBeginNodeID_end branch : GetBeginNodeID branch = ranges_end 1 (Ancestors branch).
Proof. unfold GetBeginNodeID, ranges_end. by destruct (last (Ancestors branch)). Qed.

Lemma ranges_from_bounds b brs br :
  ranges_from b brs → br ∈ brs → b ≤ BeginNodeId br ∧ BeginNodeId br < EndNodeId br ∧ EndNodeId br ≤ ranges_end b brs.
Proof.
  revert b. induction brs as [|x brs IH]; intros b; [by intros _ []%elem_of_nil|].
  intros (E & L & F). rewrite ranges_end_cons. intros [->|Hbr]%elem_of_cons.
  - split_and!; [lia|lia|]. clear IH E L. revert F. generalize (EndNodeId x). induction brs as [|y brs IH]; intros z; [done|].
    intros (? & ? & F). rewrite ranges_end_cons. specialize (IH _ F). lia.
  - destruct (IH _ F Hbr). lia.
Qed.

Definition range_before (b1 b2 : HistoryBranchRange) : Prop := EndNodeId b1 ≤ BeginNodeId b2 ∧ BeginNodeId b1 ≤ BeginNodeId b2.

Lemma all_ranges_sorted branch M : ranges_from 1 (Ancestors branch) → StronglySorted range_before (all_ranges branch M).
Proof.
  rewrite all_ranges_eq, GetBeginNodeID_end. generalize 1. induction (Ancestors branch) as [|x brs IH]; intros b; simpl.
  - intros _. repeat constructor.
  - intros (E & L & F). rewrite ranges_end_cons. constructor; [by apply IH|].
    apply Forall_forall. intros y [Hy | ->%list_elem_of_singleton]%elem_of_app; unfold range_before; simpl.
    + destruct (ranges_from_bounds _ _ _ F Hy). lia.
    + destruct (decide (brs = [])) as [->|N]; [unfold ranges_end; simpl; lia|].
      destruct brs as [|z brs]; [done|]. destruct (ranges_from_bounds _ _ z F ltac:(by left)). destruct F as (? & ? & ?). lia.
Qed.

(** ** Which ranges a read visits *)

Section find.
Context (m M : Z).

(** A range without a node of the request. *)
Definition dead (br : HistoryBranchRange) : Prop := EndNodeId br ≤ m ∨ M ≤ BeginNodeId br.

Lemma dead_after br brs : StronglySorted range_before (br :: brs) → M ≤ BeginNodeId br → Forall dead (br :: brs).
Proof.
  intros [_ F]%StronglySorted_inv L. constructor; [by right|]. eapply Forall_impl; [exact F|].
  intros x [_ ?]. right. lia.
Qed.

Lemma find_ranges_started idx brs cur fin :
  cur ≠ notStartedIndex → StronglySorted range_before brs →
  ∃ f, find_ranges idx brs m M cur fin = (cur, f) ∧
    (f = fin ∧ Forall dead brs ∨ ∃ B2 br B3, brs = B2 ++ br :: B3 ∧ f = idx + Z.of_nat (length B2) ∧ Forall dead B3).
Proof.
  intros Hc. revert idx fin. induction brs as [|br brs IH]; intros idx fin S; simpl; [eauto|].
  pose proof (StronglySorted_inv S) as [S' _].
  destruct (Z.geb_spec m (EndNodeId br)).
  - destruct (IH (idx + 1) fin S') as (f & -> & [[-> F]|(B2 & br' & B3 & -> & -> & F)]); eexists; (split; [done|]).
    + left. split; [done|]. constructor; [by left|done].
    + right. exists (br :: B2), br', B3. split_and!; try done. simpl. lia.
  - destruct (Z.leb_spec M (BeginNodeId br)); [eexists; split; [done|]; left; split; [done|]; by apply dead_after|].
    rewrite (proj2 (Z.eqb_neq cur notStartedIndex)) by done.
    destruct (IH (idx + 1) idx S') as (f & -> & [[-> F]|(B2 & br' & B3 & -> & -> & F)]); eexists; (split; [done|]); right.
    + exists [], br, brs. split_and!; try done. simpl. lia.
    + exists (br :: B2), br', B3. split_and!; try done. simpl. lia.
Qed.

Lemma find_ranges_fresh idx brs fin :
  0 ≤ idx → StronglySorted range_before brs → ¬ Forall dead brs →
  ∃ B1 br B2 B3, brs = B1 ++ br :: B2 ++ B3 ∧
    find_ranges idx brs m M notStartedIndex fin
    = (idx + Z.of_nat (length B1), idx + Z.of_nat (length B1) + Z.of_nat (length B2)) ∧
    Forall dead B1 ∧ Forall dead B3 ∧ ¬ dead br.
Proof.
  revert idx fin. induction brs as [|br brs IH]; intros idx fin Hi S N; [by destruct N|]. simpl.
  pose proof (StronglySorted_inv S) as [S' _].
  destruct (Z.geb_spec m (EndNodeId br)).
  - destruct (IH (idx + 1) fin) as (B1 & b & B2 & B3 & -> & -> & F1 & F3 & Hb); [lia|done| |].
    { intros F. apply N. constructor; [by left|done]. }
    exists (br :: B1), b, B2, B3. split_and!; try done; [simpl; f_equal; lia|]. constructor; [by left|done].
  - destruct (Z.leb_spec M (BeginNodeId br)); [by destruct N; apply dead_after|].
    assert (¬ dead br) by (unfold dead; lia).
    destruct (find_ranges_started (idx + 1) brs idx idx) as (f & -> & [[-> F]|(B2 & br' & B3 & -> & -> & F)]);
      [unfold notStartedIndex; lia|done| |].
    + exists [], br, [], brs. split_and!; try done. simpl. f_equal; lia.
    + exists [], br, (B2 ++ [br']), B3. rewrite <- app_assoc, length_app. split_and!; try done. simpl. f_equal; lia.
Qed.
End find.

Section holds.
Context `{EventSerializer}.

(** ** The committed history *)

(** The row is one of the branch: in the part of an ancestor it inherits, or its own. *)
Definition owned (branch : HistoryBranch) (r : HistoryNodeRow) : Prop :=
  (∃ br, br ∈ Ancestors branch ∧ rowBranchID r = rangeBranchId br ∧ BeginNodeId br ≤ rowNodeID r < EndNodeId br) ∨
  rowBranchID r = BranchId branch ∧ GetBeginNodeID branch ≤ rowNodeID r.

(** No branch has a row before its first node. *)
Definition rows_above (t : tables) (branch : HistoryBranch) : Prop :=
  ∀ r, r ∈ history_node t →
    (∀ br, br ∈ Ancestors branch → rowBranchID r = rangeBranchId br → BeginNodeId br ≤ rowNodeID r) ∧
    (rowBranchID r = BranchId branch → GetBeginNodeID branch ≤ rowNodeID r).

(** A row that was written but never committed: a batch of the chain has its events and is newer. *)
Definition superseded (chain : list HistoryNodeRow) (r : HistoryNodeRow) : Prop :=
  ∃ c, c ∈ chain ∧ rowNodeID c ≤ rowNodeID r < row_end c ∧ txn r < txn c.

Record holds (t : tables) (branch : HistoryBranch) (chain : list HistoryNodeRow) : Prop := {
  h_ranges : ranges_from 1 (Ancestors branch);
  h_above : rows_above t branch;
  h_chain : contiguous 1 chain;
  h_txns : StronglySorted chain_lt chain;
  h_in c : c ∈ chain → c ∈ history_node t ∧ owned branch c;
  h_rest r : r ∈ history_node t → owned branch r →
    r ∈ chain ∨ chain_end 1 chain ≤ rowNodeID r ∨ superseded chain r
}.

(** *** Chains *)

Lemma contiguous_nodes s c r : contiguous s c → r ∈ c → s ≤ rowNodeID r ∧ rowNodeID r < row_end r ∧ row_end r ≤ chain_end s c.
Proof.
  revert s. induction c as [|x c IH]; intros s; [by intros _ []%elem_of_nil|]. intros (E & G & F). rewrite chain_end_cons.
  destruct (good_batch_last x G) as [_ ?].
  assert (row_end x ≤ chain_end (row_end x) c) as Hle.
  { clear -F. revert F. generalize (row_end x). induction c as [|y c IH]; intros z; [unfold chain_end; simpl; lia|].
    intros (? & G & F). destruct (good_batch_last y G) as [_ ?]. rewrite chain_end_cons. specialize (IH _ F). lia. }
  intros [->|Hr]%elem_of_cons; [lia|]. destruct (IH _ F Hr). lia.
Qed.

Lemma contiguous_filter s c M : contiguous s c → contiguous s (base.filter (λ r, rowNodeID r < M) c).
Proof.
  revert s. induction c as [|x c IH]; intros s; [done|]. intros (E & G & F). rewrite filter_cons. case_decide as D.
  - simpl. split_and!; try done. by apply IH.
  - rewrite filter_none; [done|]. intros r Hr. destruct (contiguous_nodes _ _ _ F Hr). destruct (good_batch_last x G). lia.
Qed.

Lemma row_lt_NoDup l : StronglySorted row_lt l → NoDup l.
Proof.
  induction 1 as [|x l S IH F]; [constructor|]. constructor; [|done]. intros Hx.
  rewrite Forall_forall in F. specialize (F x Hx). unfold row_lt in F. lia.
Qed.

(** ** Reading a branch *)

Section reading.
Context (t : tables) (branch : HistoryBranch) (chain : list HistoryNodeRow).
Context (Ht : tables_ok t) (Hh : holds t branch chain) (m M : Z).

Lemma rows_of_in br r :
  r ∈ rows_of t m M br ↔ rowBranchID r = rangeBranchId br ∧ m ≤ rowNodeID r < Z.min (EndNodeId br) M ∧ r ∈ history_node t.
Proof. unfold rows_of. rewrite range_rows_in. unfold in_page. tauto. Qed.

Lemma range_rows_above br r :
  br ∈ all_ranges branch M → r ∈ rows_of t m M br → BeginNodeId br ≤ rowNodeID r.
Proof.
  rewrite all_ranges_eq. intros Hbr (Hid & _ & Hr)%rows_of_in. destruct (h_above _ _ _ Hh r Hr) as [Ha Ho].
  apply elem_of_app in Hbr as [Hbr | ->%list_elem_of_singleton]; [by apply Ha | by apply Ho].
Qed.

Lemma rows_of_dead br : br ∈ all_ranges branch M → dead m M br → rows_of t m M br = [].
Proof.
  intros Hbr D. destruct (rows_of t m M br) as [|r l] eqn:E; [done|]. exfalso.
  assert (r ∈ rows_of t m M br) as Hr by (rewrite E; by left).
  pose proof (range_rows_above _ _ Hbr Hr). apply rows_of_in in Hr. destruct D; lia.
Qed.

Lemma concat_dead brs : Forall (dead m M) brs → (∀ br, br ∈ brs → br ∈ all_ranges branch M) → concat (map (rows_of t m M) brs) = [].
Proof.
  induction 1 as [|br brs D F IH]; [done|]. intros Hin. simpl. rewrite rows_of_dead, IH by set_solver. done.
Qed.

Lemma concat_rows_in r :
  r ∈ concat (map (rows_of t m M) (all_ranges branch M)) ↔ r ∈ history_node t ∧ owned branch r ∧ m ≤ rowNodeID r < M.
Proof.
  rewrite list_elem_of_In, in_concat. setoid_rewrite in_map_iff. setoid_rewrite <- list_elem_of_In. split.
  - intros (l & (br & <- & Hbr) & Hr). pose proof (range_rows_above _ _ Hbr Hr) as Hb.
    apply rows_of_in in Hr as (? & ? & ?). split_and!; [done| |lia..]. rewrite all_ranges_eq in Hbr.
    apply elem_of_app in Hbr as [Hbr | ->%list_elem_of_singleton]; [left; exists br; split_and!; try done; lia|].
    right. split; [done|exact Hb].
  - intros (Hr & Ho & ? & ?). destruct Ho as [(br & Hbr & ? & ? & ?)|[? ?]].
    + exists (rows_of t m M br). split; [exists br; split; [done|]; rewrite all_ranges_eq; set_solver|].
      apply rows_of_in. split_and!; try done; lia.
    + exists (rows_of t m M (mkBranchRange (BranchId branch) (GetBeginNodeID branch) M)).
      split; [eexists; split; [done|]; rewrite all_ranges_eq; set_solver|].
      apply rows_of_in. simpl. split_and!; try done; lia.
Qed.

Lemma concat_rows_sorted brs :
  StronglySorted range_before brs → (∀ br, br ∈ brs → br ∈ all_ranges branch M) →
  StronglySorted row_lt (concat (map (rows_of t m M) brs)).
Proof.
  induction 1 as [|br brs S IH F]; intros Hin; [constructor|]. simpl. apply StronglySorted_app_2.
  - intros x y Hx Hy. apply list_elem_of_In, in_concat in Hy as (l & Hl & Hy). apply in_map_iff in Hl as (br' & <- & Hbr').
    apply list_elem_of_In in Hy, Hbr'. rewrite Forall_forall in F. destruct (F br' Hbr') as [? _].
    pose proof (range_rows_above br' y ltac:(set_solver) Hy). apply rows_of_in in Hx as (_ & ? & _). left. lia.
  - apply range_rows_sorted, Ht.
  - apply IH. set_solver.
Qed.

(** The batches of the chain a read from [m] below [M] returns. *)
Definition selected : list HistoryNodeRow := base.filter (λ r, m ≤ rowNodeID r < M) chain.

(** [m] is where a batch of the chain starts, and [M] is not after the chain's end. *)
Context (C0 C1 : list HistoryNodeRow) (HC : chain = C0 ++ C1) (HC1 : C1 ≠ []) (Hm : m = chain_end 1 C0).
Context (HM : m < M ≤ chain_end 1 chain).

Lemma selected_eq : selected = base.filter (λ r, rowNodeID r < M) C1.
Proof.
  pose proof (h_chain _ _ _ Hh) as Hc. rewrite HC in Hc. apply contiguous_app in Hc as [H0 H1]. rewrite <- Hm in H1.
  unfold selected. rewrite HC, filter_app, (filter_none _ C0).
  - apply filter_ext_in. intros x Hx. destruct (contiguous_nodes _ _ _ H1 Hx). lia.
  - intros x Hx. destruct (contiguous_nodes _ _ _ H0 Hx). lia.
Qed.

Lemma selected_contiguous : contiguous m selected.
Proof.
  pose proof (h_chain _ _ _ Hh) as Hc. rewrite HC in Hc. apply contiguous_app in Hc as [H0 H1]. rewrite <- Hm in H1.
  rewrite selected_eq. by apply contiguous_filter.
Qed.

Lemma first_selected : ∃ c, c ∈ selected ∧ rowNodeID c = m.
Proof.
  pose proof (h_chain _ _ _ Hh) as Hc. rewrite HC in Hc. apply contiguous_app in Hc as [H0 H1]. rewrite <- Hm in H1.
  destruct C1 as [|c l]; [done|]. destruct H1 as (E & _). exists c. split; [|done].
  apply list_elem_of_filter. split; [lia|]. rewrite HC. set_solver.
Qed.

Lemma filter_all_rows :
  filterHistoryNodes defaultLastNodeID defaultLastTransactionID
    (map (to_node false) (concat (map (rows_of t m M) (all_ranges branch M)))) = Ok (map (to_node false) selected).
Proof.
  apply filter_chain.
  - apply concat_rows_sorted; [apply all_ranges_sorted, Hh|done].
  - apply StronglySorted_filter, Hh.
  - intros c [? Hc]%list_elem_of_filter. destruct (h_in _ _ _ Hh c Hc) as [Hct Ho].
    pose proof (ok_txns _ Ht c Hct). destruct (contiguous_nodes _ _ _ (h_chain _ _ _ Hh) Hc).
    rewrite concat_rows_in. unfold defaultLastNodeID, defaultLastTransactionID, FirstEventID. split_and!; try done; lia.
  - intros r (Hr & _)%concat_rows_in. by apply Ht.
  - intros r (Hr & Ho & ?)%concat_rows_in. destruct (h_rest _ _ _ Hh r Hr Ho) as [Hc|[Hc|(c & Hc & ? & ?)]].
    + left. by apply list_elem_of_filter.
    + lia.
    + right; right. exists c. split_and!; try lia. apply list_elem_of_filter. split; [|done]. split; [|lia].
      apply Z.nlt_ge. intros L. rewrite HC in Hc. pose proof (h_chain _ _ _ Hh) as Hch. rewrite HC in Hch.
      apply contiguous_app in Hch as [Hc0 Hc1]. apply elem_of_app in Hc as [Hc|Hc].
      * destruct (contiguous_nodes _ _ _ Hc0 Hc). lia.
      * destruct (contiguous_nodes _ _ _ Hc1 Hc). lia.
Qed.

Lemma first_position :
  ∃ tk n, start_token false (all_ranges branch M) m M (deserializeToken None (m - 1) defaultLastTransactionID) = Ok tk ∧
    position t branch m M n tk selected ∧ StoreToken tk = None ∧
    (∀ br, all_ranges branch M !! Z.to_nat (CurrentRangeIndex tk) = Some br → rows_of t m M br ≠ []) ∧
    (n ≤ length (history_node t) + length (Ancestors branch))%nat.
Proof.
  destruct first_selected as (c & Hc & Hcm). apply list_elem_of_filter in Hc as [_ Hc].
  destruct (h_in _ _ _ Hh c Hc) as [Hct Hco].
  assert (c ∈ concat (map (rows_of t m M) (all_ranges branch M))) as Hcc by (apply concat_rows_in; split_and!; try done; lia).
  destruct (find_ranges_fresh m M 0 (all_ranges branch M) 0) as (B1 & br & B2 & B3 & Hb & Hfind & D1 & D3 & Hlive); [done| | |].
  { apply all_ranges_sorted, Hh. }
  { intros F. rewrite concat_dead in Hcc by done. by apply elem_of_nil in Hcc. }
  assert (concat (map (rows_of t m M) (all_ranges branch M)) = rows_of t m M br ++ concat (map (rows_of t m M) B2)) as Hrows.
  { assert (∀ x, x ∈ B1 ∨ x ∈ B3 → x ∈ all_ranges branch M) as Hin by (rewrite Hb; set_solver).
    rewrite Hb, map_app, concat_app. simpl. rewrite map_app, concat_app.
    rewrite (concat_dead B1), (concat_dead B3) by (done || naive_solver). by rewrite app_nil_r. }
  exists (mkPagingToken (m - 1) None (Z.of_nat (length B1)) (Z.of_nat (length B1 + length B2)) defaultLastNodeID defaultLastTransactionID).
  exists (length (rows_of t m M br) + length (concat (map (rows_of t m M) B2)) + length B2)%nat.
  split_and!.
  - unfold start_token. simpl. rewrite Hfind. simpl. rewrite (proj2 (Z.eqb_neq _ _)) by (unfold notStartedIndex; lia).
    unfold set_ranges. simpl. repeat f_equal. lia.
  - exists B1, br, B2, B3, [], (rows_of t m M br). split_and!; try done.
    + simpl. rewrite <- Hrows. apply filter_all_rows.
    + simpl. replace (m - 1 + 1) with m by lia. apply selected_contiguous.
  - done.
  - simpl. rewrite Nat2Z.id, Hb, list_lookup_middle by done. intros ? [= <-] E.
    rewrite Hrows, E in Hcc. simpl in Hcc. apply list_elem_of_In, in_concat in Hcc as (l & Hl & Hcl).
    apply in_map_iff in Hl as (br' & <- & Hbr'). apply list_elem_of_In in Hcl, Hbr'.
    pose proof (all_ranges_sorted branch M (h_ranges _ _ _ Hh)) as S. rewrite Hb in S.
    apply StronglySorted_app_1_r, StronglySorted_inv in S as [_ F]. rewrite Forall_forall in F.
    destruct (F br' ltac:(set_solver)) as [? _].
    pose proof (range_rows_above br' c ltac:(rewrite Hb; set_solver) Hcl). unfold dead in Hlive. lia.
  - assert (length (concat (map (rows_of t m M) (all_ranges branch M))) ≤ length (history_node t))%nat as Hlen.
    { apply submseteq_length, NoDup_submseteq; [|intros r (? & _)%concat_rows_in; done].
      apply row_lt_NoDup, concat_rows_sorted; [apply all_ranges_sorted, Hh|done]. }
    rewrite Hrows, length_app in Hlen. apply (f_equal length) in Hb. rewrite all_ranges_eq in Hb.
    rewrite !length_app in Hb. simpl in Hb. rewrite length_app in Hb. lia.
Qed.

Lemma first_page ps fuel :
  0 < ps → (length (history_node t) + length (Ancestors branch) < fuel)%nat →
  ∃ n, (n < fuel)%nat ∧ full_result t branch m M ps n selected [] (ReadFullPageEvents fuel t (request branch m M ps None) []).
Proof.
  intros Hps Hf. destruct first_position as (tk & n & Hs & Hp & Hst & Hrows & Hn).
  exists n. split; [lia|]. destruct fuel as [|fuel]; [lia|].
  apply full_page_step.
  - eapply page_step; try done. intros _. split_and!; try done.
    destruct first_selected as (c & Hc & _). by intros E; rewrite E in Hc; apply elem_of_nil in Hc.
  - intros tk' n' C' acc' ? ?. apply full_page; [done|done|lia|done].
Qed.

Lemma read_all_selected ps fuel :
  0 < ps → (length (history_node t) + length (Ancestors branch) < fuel)%nat →
  read_all t branch m M ps fuel None = Ok (chain_events selected).
Proof.
  intros Hps Hf. destruct (first_page ps fuel Hps Hf) as (n & Hn & C2 & C3 & token & E & -> & Hrest).
  destruct fuel as [|fuel]; [lia|]. cbn [read_all]. rewrite E. simpl. destruct token as [tk|].
  - destruct Hrest as [(n' & ? & Hp) _]. rewrite (read_rest _ Ht _ _ _ _ Hps fuel n' tk C3) by (done || lia). simpl.
    unfold chain_events. by rewrite map_app, concat_app.
  - subst. by rewrite app_nil_r.
Qed.
End reading.

(** Reading a branch page by page returns the committed history and nothing else.  From
    the start of any batch of the chain, below any bound not after its end and with any
    positive page size, the pages together have exactly the events of the chain's batches
    in that interval, in order, across the ranges inherited from ancestors, while rows of
    writes that were not committed are skipped.  Every page but the last has at least the
    page size of events, and one call per row and range is enough. *)
Lemma read_branch_complete t branch C0 C1 M ps fuel
    (Ht : tables_ok t) (Hh : holds t branch (C0 ++ C1)) (HC : C1 ≠ [])
    (HM : chain_end 1 C0 < M ≤ chain_end 1 (C0 ++ C1)) (Hps : 0 < ps)
    (Hf : (length (history_node t) + length (Ancestors branch) < fuel)%nat) :
  let m := chain_end 1 C0 in
  let events := chain_events (base.filter (λ r, rowNodeID r < M) C1) in
  read_all t branch m M ps fuel None = Ok events ∧
  ∃ page token, ReadFullPageEvents fuel t (mkRead branch m M ps None) [] = Ok (page, token) ∧
    page `prefix_of` events ∧ (token = None ∧ page = events ∨ ps ≤ Z.of_nat (length page)).
Proof.
  intros m events. unfold events.
  rewrite <- (selected_eq t branch (C0 ++ C1) Hh m M C0 C1 eq_refl eq_refl).
  split; [by apply (read_all_selected t branch (C0 ++ C1) Ht Hh m M C0 C1)|].
  destruct (first_page t branch (C0 ++ C1) Ht Hh m M C0 C1 eq_refl HC eq_refl HM ps fuel Hps Hf)
    as (n & _ & D1 & D2 & token & E & Hsel & Hrest).
  exists (chain_events D1), token. split; [exact E|]. rewrite Hsel. unfold chain_events in *. rewrite map_app, concat_app.
  split; [by apply prefix_app_r|]. destruct token as [tk|]; [right; apply Hrest|left]. subst D2. by rewrite app_nil_r.
Qed.
End holds.

(** ** Examples *)

(** A serializer that keeps the events as they are. *)
Definition plain_serializer : EventSerializer := {|
  DataBlob := list HistoryEvent;
  SerializeEvents events := Some events;
  DeserializeEvents blob := Some blob;
  blob_size blob := Z.of_nat (length blob);
  deserialize_serialize events blob H := eq_sym H
|}.
#[local] Existing Instance plain_serializer.

Definition sample_event (id : Z) : HistoryEvent := mkEvent id 1 0.
Definition sample_row (b n prev tx : Z) (ids : list Z) : HistoryNodeRow := mkRow b n prev (- tx) (map sample_event ids).

(** The root branch alone, with one write that was not committed. *)
Definition root_branch : HistoryBranch := mkBranch 1 [].
Definition root_tables : tables :=
  mkTables
    [sample_row 1 5 30 40 [5]; sample_row 1 3 10 30 [3; 4]; sample_row 1 3 10 20 [3; 4]; sample_row 1 1 0 10 [1; 2]]
    [root_branch].
Definition root_chain : list HistoryNodeRow :=
  [sample_row 1 1 0 10 [1; 2]; sample_row 1 3 10 30 [3; 4]; sample_row 1 5 30 40 [5]].

Ltac in_list := repeat first [apply list_elem_of_here | apply list_elem_of_further].
Ltac each_row H := repeat (apply elem_of_cons in H as [->|H]); try (by apply elem_of_nil in H).

Lemma root_holds : tables_ok root_tables ∧ holds root_tables root_branch root_chain.
Proof.
  split; split.
  - by_decide.
  - intros r Hr. unfold root_tables in Hr. simpl in Hr. each_row Hr; unfold txn; simpl; int_bounds; lia.
  - done.
  - intros r Hr. split; [by intros br []%elem_of_nil|]. unfold root_tables in Hr. simpl in Hr.
    each_row Hr; unfold GetBeginNodeID; simpl; lia.
  - simpl. unfold good_batch, row_end; simpl. split_and!; reflexivity || done.
  - repeat constructor; unfold txn; simpl; lia.
  - intros c Hc. each_row Hc; (split; [unfold root_tables; simpl; in_list|]); right; unfold GetBeginNodeID; simpl; lia.
  - intros r Hr Ho. unfold root_tables in Hr. simpl in Hr. unfold root_chain. each_row Hr; try (left; solve [in_list]).
    right; right. exists (sample_row 1 3 10 30 [3; 4]). unfold row_end, txn; simpl. split_and!; [in_list|lia..].
Qed.

(** C39 Reading in reverse can silently lose history.  A branch holds five committed events
    and one row of a write that was not committed; read in reverse two rows at a time, the
    first page ends between the two rows of one node.  The query for the next page compares
    the node id with a transaction id, so it misses the committed row of that node: the
    second page is empty, without an error and without a further page, and four of the five
    events are never returned. *)
Theorem reverse_read_loses_events :
  holds root_tables root_branch root_chain ∧ chain_events root_chain = map sample_event [1; 2; 3; 4; 5] ∧
  ∃ token,
    ReadHistoryBranchReverse root_tables (mkReverse root_branch EmptyEventID 2 40 None) = Ok ([sample_event 5], Some token) ∧
    ReadHistoryBranchReverse root_tables (mkReverse root_branch EmptyEventID 2 40 (Some token)) = Ok ([], None).
Proof.
  split; [apply root_holds|]. split; [reflexivity|].
  exists (mkPagingToken 5 (Some (mkNodeToken 3 20)) 0 0 5 30). split; vm_compute; reflexivity.
Qed.
