(* ===== verification/HistoryTree.v ===== *)
(** * The tree of branches

    How a branch's committed history survives what happens to the tree: appends to any
    branch, commits, forks and the deletion of other branches. *)
From S2P Require Import Prelude HistoryStore HistoryManager HistoryRead HistoryChain.
Local Open Scope Z_scope.
Local Open Scope go_scope.

(** ** Ancestors *)

(** The ranges of a branch, its own last. *)
Definition path (b : HistoryBranch) : list HistoryBranchRange := brsToDelete b.

(** Branches that share a range share everything before it. *)
Definition consistent (b1 b2 : HistoryBranch) : Prop :=
  ∀ l1 br1 k1 l2 br2 k2, path b1 = l1 ++ br1 :: k1 → path b2 = l2 ++ br2 :: k2 →
    rangeBranchId br1 = rangeBranchId br2 → l1 = l2 ∧ BeginNodeId br1 = BeginNodeId br2.

Lemma sortAncestors_id ans : ranges_from 1 ans → sortAncestors ans = ans.
Proof.
  intros F. unfold sortAncestors. assert (order_by range_end_le ans = ans) as ->.
  { revert F. generalize 1. induction ans as [|br ans IH]; intros b; [done|]. intros (E & L & F). simpl. rewrite (IH _ F).
    destruct ans as [|br' ans]; [done|]. simpl. destruct F as (? & ? & _). rewrite decide_True; [done|]. unfold range_end_le. lia. }
  revert F. generalize 1. induction ans as [|[id b e] ans IH]; intros b'; [done|]. intros (E & L & F). simpl in *. subst b'.
  f_equal. by apply IH.
Qed.

(** The node is in one of the ranges, under the id of the range. *)
Definition in_ranges (ans : list HistoryBranchRange) (id n : Z) : Prop :=
  ∃ br, br ∈ ans ∧ id = rangeBranchId br ∧ BeginNodeId br ≤ n < EndNodeId br.

Lemma in_ranges_cons br ans id n :
  in_ranges (br :: ans) id n ↔ (id = rangeBranchId br ∧ BeginNodeId br ≤ n < EndNodeId br) ∨ in_ranges ans id n.
Proof.
  unfold in_ranges. split.
  - intros (x & [->|Hx]%elem_of_cons & ? & ?); [by left|]. right. eauto.
  - intros [[? ?]|(x & ? & ? & ?)]; [exists br | exists x]; set_solver.
Qed.

Lemma ranges_from_end b ans : ranges_from b ans → b ≤ ranges_end b ans.
Proof.
  revert b. induction ans as [|br ans IH]; intros b; [unfold ranges_end; simpl; lia|].
  intros (? & ? & F). rewrite ranges_end_cons. specialize (IH _ F). lia.
Qed.

Lemma in_ranges_bounds b ans id n : ranges_from b ans → in_ranges ans id n → b ≤ n < ranges_end b ans.
Proof. intros F (br & Hbr & _ & ?). destruct (ranges_from_bounds _ _ _ F Hbr). lia. Qed.

(** Cutting ranges at a node keeps them up to it. *)
Lemma cut_ranges b ans n :
  ranges_from b ans → b < n ≤ ranges_end b ans →
  ranges_from b (cut_ancestors ans n) ∧ ranges_end b (cut_ancestors ans n) = n ∧
  ∀ id x, in_ranges (cut_ancestors ans n) id x ↔ in_ranges ans id x ∧ x < n.
Proof.
  revert b. induction ans as [|br ans IH]; intros b; [unfold ranges_end; simpl; lia|].
  intros (E & L & F) Hn. rewrite ranges_end_cons in Hn. simpl. destruct (Z.geb_spec (EndNodeId br) n) as [G|G].
  - simpl. split_and!; [done|lia|done|done|]. intros id x. rewrite !in_ranges_cons. simpl. split.
    + intros [?|(y & []%elem_of_nil & _)]. split; [left|]; lia.
    + intros [[?|Hx] ?]; [left; lia|]. pose proof (in_ranges_bounds _ _ _ _ F Hx). lia.
  - destruct (IH _ F) as (F' & E' & Hiff); [lia|]. rewrite ranges_end_cons. simpl. split_and!; try done.
    intros id x. rewrite !in_ranges_cons, Hiff. split; [|tauto]. intros [?|?]; [split; [by left|lia]|tauto].
Qed.

Lemma cut_ancestors_split ans n l br k :
  cut_ancestors ans n = l ++ br :: k →
  ∃ br' k', ans = l ++ br' :: k' ∧ rangeBranchId br' = rangeBranchId br ∧ BeginNodeId br' = BeginNodeId br.
Proof.
  revert l. induction ans as [|x ans IH]; intros l; simpl; [by destruct l|]. case_match.
  - destruct l as [|y [|]]; simpl; intros [= <- ?]; [|done..]. by exists x, ans.
  - destruct l as [|y l]; simpl; intros [= -> E]; [by exists br, ans|].
    destruct (IH _ E) as (br' & k' & -> & ? & ?). by exists br', k'.
Qed.

Section tree.
Context `{EventSerializer}.

Lemma owned_in_ranges b r :
  owned b r ↔ in_ranges (Ancestors b) (rowBranchID r) (rowNodeID r) ∨
              rowBranchID r = BranchId b ∧ GetBeginNodeID b ≤ rowNodeID r.
Proof. done. Qed.

(** ** Forking *)

Section fork.
Context (b : HistoryBranch) (n newID : Z) (F : ranges_from 1 (Ancestors b)) (Hn : 1 < n).

Lemma fork_ranges :
  ranges_from 1 (Ancestors (fork_branch b n newID)) ∧ GetBeginNodeID (fork_branch b n newID) = n ∧
  ∀ id x, in_ranges (Ancestors (fork_branch b n newID)) id x ↔
    (in_ranges (Ancestors b) id x ∨ id = BranchId b ∧ GetBeginNodeID b ≤ x) ∧ x < n.
Proof.
  rewrite (GetBeginNodeID_end (fork_branch b n newID)). unfold fork_branch. simpl.
  pose proof (GetBeginNodeID_end b) as Hb. destruct (Z.geb_spec (GetBeginNodeID b) n) as [G|G].
  - destruct (cut_ranges 1 (Ancestors b) n F) as (F' & E & Hiff); [lia|]. split_and!; try done.
    intros id x. rewrite Hiff. split; [tauto|]. intros [[?|?] ?]; [tauto|lia].
  - assert (ranges_from 1 (Ancestors b ++ [mkBranchRange (BranchId b) (GetBeginNodeID b) n])) as F'.
    { rewrite Hb. rewrite Hb in G. revert G. clear Hn Hb. revert F. generalize 1.
      induction (Ancestors b) as [|br ans IH]; intros z; [unfold ranges_end; simpl; intros; lia|].
      intros (? & ? & F0). rewrite ranges_end_cons. intros. simpl. split_and!; try done. by apply IH. }
    split_and!; [done|unfold ranges_end; by rewrite last_snoc|].
    intros id x. unfold in_ranges. split.
    + intros (br & [Hbr | ->%list_elem_of_singleton]%elem_of_app & ? & ?); simpl in *.
      * destruct (ranges_from_bounds _ _ _ F Hbr). split; [left; eauto|lia].
      * split; [right|]; lia.
    + intros [[(br & Hbr & ? & ?)|[? ?]] ?].
      * exists br. set_solver.
      * exists (mkBranchRange (BranchId b) (GetBeginNodeID b) n). simpl. split_and!; [set_solver|done|lia|lia].
Qed.

Lemma fork_owned r : rowBranchID r ≠ newID → owned (fork_branch b n newID) r ↔ owned b r ∧ rowNodeID r < n.
Proof.
  intros Hid. rewrite !owned_in_ranges. destruct fork_ranges as (_ & _ & Hiff). rewrite Hiff.
  split; [intros [?|[? _]]; [done|by destruct Hid]|]. by left.
Qed.

(** A fork shares ranges only with what its parent shares. *)
Lemma fork_path_split l br k :
  path (fork_branch b n newID) = l ++ br :: k → rangeBranchId br ≠ newID →
  ∃ br' k', path b = l ++ br' :: k' ∧ rangeBranchId br' = rangeBranchId br ∧ BeginNodeId br' = BeginNodeId br.
Proof.
  unfold path, brsToDelete. intros E Hid.
  assert (∃ k', Ancestors (fork_branch b n newID) = l ++ br :: k') as [k' E'].
  { destruct (decide (k = [])) as [->|N].
    - apply app_inj_tail in E as [_ <-]. by destruct Hid.
    - destruct (exists_last N) as (k' & y & ->). exists k'. rewrite app_comm_cons, app_assoc in E.
      by apply app_inj_tail in E as [-> _]. }
  unfold fork_branch in E'. simpl in E'. case_match.
  - apply cut_ancestors_split in E' as (br' & k'' & -> & ? & ?).
    exists br', (k'' ++ [mkBranchRange (BranchId b) (GetBeginNodeID b) 0]). rewrite <- app_assoc. done.
  - destruct (decide (k' = [])) as [->|N].
    + apply app_inj_tail in E' as [<- <-]. by eexists _, [].
    + destruct (exists_last N) as (k'' & y & ->). rewrite app_comm_cons, app_assoc in E'.
      apply app_inj_tail in E' as [-> _]. eexists br, _. rewrite <- app_assoc. done.
Qed.
End fork.

Lemma fork_holds t t' b C0 C1 newID :
  holds t b (C0 ++ C1) → C0 ≠ [] → history_node t' = history_node t →
  (∀ r, r ∈ history_node t → rowBranchID r ≠ newID) →
  holds t' (fork_branch b (chain_end 1 C0) newID) C0.
Proof.
  intros Hh N0 Et Hfresh. set (n := chain_end 1 C0).
  pose proof (h_chain _ _ _ Hh) as Hc. apply contiguous_app in Hc as [Hc0 Hc1]. fold n in Hc1.
  assert (1 < n) as Hn.
  { destruct C0 as [|c C0]; [done|]. destruct (contiguous_nodes _ _ c Hc0 ltac:(by left)). unfold n. lia. }
  assert (n ≤ chain_end 1 (C0 ++ C1)) as Hle.
  { destruct C1 as [|c C1]; [by rewrite app_nil_r|].
    destruct (contiguous_nodes _ _ c (h_chain _ _ _ Hh) ltac:(set_solver)). destruct Hc1 as (? & _). lia. }
  assert (∀ c, c ∈ C0 ++ C1 → rowNodeID c < n → c ∈ C0) as Hin.
  { intros c [Hc|Hc]%elem_of_app L; [done|]. destruct (contiguous_nodes _ _ _ Hc1 Hc). lia. }
  destruct (fork_ranges b n newID (h_ranges _ _ _ Hh) Hn) as (F & E & Hiff).
  split; rewrite ?Et; try done.
  - intros r Hr. rewrite Et in Hr. split; [|intros Hid; by destruct (Hfresh r Hr)].
    intros br Hbr Hid. destruct (list_elem_of_split _ _ Hbr) as (l & k & Ea).
    destruct (fork_path_split b n newID l br (k ++ [mkBranchRange newID n 0])) as (br' & k' & Ep & Hid' & <-).
    { unfold path, brsToDelete. rewrite E, Ea, <- app_assoc. done. }
    { rewrite <- Hid. by apply Hfresh. }
    destruct (h_above _ _ _ Hh r Hr) as [Ha Ho].
    assert (br' ∈ path b) as Hp by (rewrite Ep; set_solver).
    unfold path, brsToDelete in Hp. apply elem_of_app in Hp as [Hp | ->%list_elem_of_singleton].
    + apply Ha; [done|congruence].
    + simpl in *. apply Ho. congruence.
  - pose proof (h_txns _ _ _ Hh) as S. by apply StronglySorted_app_1_l in S.
  - intros c Hc. destruct (h_in _ _ _ Hh c ltac:(set_solver)) as [Hct Hco]. split; [done|].
    apply fork_owned; [apply Hh|done|by apply Hfresh|]. split; [done|]. destruct (contiguous_nodes _ _ _ Hc0 Hc). unfold n. lia.
  - intros r Hr Ho. apply fork_owned in Ho as [Ho L]; [|apply Hh|done|by apply Hfresh].
    destruct (h_rest _ _ _ Hh r Hr Ho) as [?|[?|(c & Hc & ? & ?)]]; [left; by apply Hin|lia|].
    right; right. exists c. split_and!; try lia. apply Hin; [done|lia].
Qed.

(** ** Rows that come and go *)

Lemma holds_insert t t' b chain row :
  holds t b chain → (∀ r, r ∈ history_node t' ↔ r = row ∨ r ∈ history_node t) →
  ((∀ br, br ∈ Ancestors b → rowBranchID row = rangeBranchId br → BeginNodeId br ≤ rowNodeID row) ∧
   (rowBranchID row = BranchId b → GetBeginNodeID b ≤ rowNodeID row)) →
  (owned b row → chain_end 1 chain ≤ rowNodeID row ∨ superseded chain row) →
  holds t' b chain.
Proof.
  intros Hh Hin Ha Hs. split; try apply Hh.
  - intros r [->|Hr]%Hin; [done|]. by apply (h_above _ _ _ Hh).
  - intros c Hc. destruct (h_in _ _ _ Hh c Hc). split; [apply Hin; by right|done].
  - intros r [->|Hr]%Hin Ho; [right; by apply Hs|]. by apply (h_rest _ _ _ Hh).
Qed.

Lemma holds_remove t t' b chain :
  holds t b chain → (∀ r, r ∈ history_node t' → r ∈ history_node t) → (∀ c, c ∈ chain → c ∈ history_node t') →
  holds t' b chain.
Proof.
  intros Hh Hsub Hc. split; try apply Hh.
  - intros r Hr. by apply (h_above _ _ _ Hh), Hsub.
  - intros c Hcc. split; [by apply Hc | by apply (h_in _ _ _ Hh)].
  - intros r Hr Ho. by apply (h_rest _ _ _ Hh); [apply Hsub|].
Qed.

(** The newest row at the end of the chain becomes part of it. *)
Definition can_commit (t : tables) (b : HistoryBranch) (chain : list HistoryNodeRow) (row : HistoryNodeRow) : Prop :=
  row ∈ history_node t ∧ rowBranchID row = BranchId b ∧ rowNodeID row = chain_end 1 chain ∧
  (∀ c, c ∈ chain → txn c ≤ txn row) ∧
  (∀ r, r ∈ history_node t → owned b r → rowNodeID row ≤ rowNodeID r → r = row ∨ txn r < txn row).

Lemma holds_commit t b chain row :
  holds t b chain → good_batch row → can_commit t b chain row → holds t b (chain ++ [row]).
Proof.
  intros Hh G (Hr & Hid & En & Htx & Hnew).
  assert (chain_end 1 (chain ++ [row]) = row_end row) as Ee by (unfold chain_end; by rewrite last_snoc).
  assert (owned b row) as Ho by (right; split; [done|]; by apply (h_above _ _ _ Hh)).
  split; try apply Hh.
  - apply contiguous_app. split; [apply Hh|]. simpl. done.
  - apply StronglySorted_app_2; [|apply Hh|repeat constructor].
    intros c x Hc ->%list_elem_of_singleton. split; [|by apply Htx].
    destruct (contiguous_nodes _ _ _ (h_chain _ _ _ Hh) Hc). lia.
  - intros c [Hc | ->%list_elem_of_singleton]%elem_of_app; [by apply (h_in _ _ _ Hh)|done].
  - intros r Hrt Hro. rewrite Ee. destruct (h_rest _ _ _ Hh r Hrt Hro) as [?|[?|(c & Hc & ? & ?)]].
    + left. set_solver.
    + destruct (Hnew r Hrt Hro ltac:(lia)) as [->|?]; [left; set_solver|]. right.
      destruct (decide (row_end row ≤ rowNodeID r)); [by left|]. right. exists row. split_and!; [set_solver|lia..].
    + right; right. exists c. split_and!; [set_solver|lia..].
Qed.

(** ** Deleting *)

(** Later maps know at least as much use. *)
Definition used_le (u u' : gmap Z Z) : Prop := ∀ x e, u !! x = Some e → ∃ e', u' !! x = Some e' ∧ e ≤ e'.

#[export] Instance used_le_preorder : PreOrder used_le.
Proof.
  split; [intros u x e; exists e; split; [done|lia]|]. intros u v w Huv Hvw x e Hx.
  destruct (Huv x e Hx) as (e' & He' & ?), (Hvw x e' He') as (e'' & ? & ?). exists e''. split; [done|lia].
Qed.

Lemma use_ancestor_spec u a :
  used_le u (use_ancestor u a) ∧ (∃ e, use_ancestor u a !! rangeBranchId a = Some e ∧ EndNodeId a ≤ e) ∧
  ∀ x e, use_ancestor u a !! x = Some e → u !! x = Some e ∨ x = rangeBranchId a ∧ e = EndNodeId a.
Proof.
  assert (∀ cur, u !! rangeBranchId a = Some cur → EndNodeId a ≤ cur → use_ancestor u a = u) as Hsame.
  { intros cur E L. unfold use_ancestor. rewrite E. by rewrite (proj2 (Z.ltb_ge _ _)). }
  assert ((∀ cur, u !! rangeBranchId a = Some cur → cur < EndNodeId a) →
    use_ancestor u a = <[rangeBranchId a := EndNodeId a]> u) as Hnew.
  { intros L. unfold use_ancestor. destruct (u !! rangeBranchId a) as [cur|]; [|done]. by rewrite (proj2 (Z.ltb_lt _ _)) by auto. }
  assert ((∃ cur, u !! rangeBranchId a = Some cur ∧ EndNodeId a ≤ cur) ∨
          ¬ ∃ cur, u !! rangeBranchId a = Some cur ∧ EndNodeId a ≤ cur) as [(cur & E & L)|N].
  { destruct (u !! rangeBranchId a) as [cur|]; [|by right; intros (? & ? & _)].
    destruct (decide (EndNodeId a ≤ cur)); [by left; eauto|]. right. intros (? & [= <-] & ?). lia. }
  - rewrite (Hsame cur E L). split_and!; [done|eauto|by left].
  - rewrite Hnew by (intros cur E; apply Z.nle_gt; intros ?; apply N; eauto). split_and!.
    + intros x e Hx. destruct (decide (rangeBranchId a = x)) as [<-|]; simplify_map_eq; [|eauto with lia].
      exists (EndNodeId a). split; [done|]. apply Z.nlt_ge. intros ?. apply N. exists e. split; [done|lia].
    + exists (EndNodeId a). rewrite lookup_insert_eq. done.
    + intros x e. destruct (decide (rangeBranchId a = x)) as [<-|]; intros; simplify_map_eq; [by right|by left].
Qed.

Lemma use_ancestors_spec u ans :
  let u' := foldl use_ancestor u ans in
  used_le u u' ∧ (∀ a, a ∈ ans → ∃ e, u' !! rangeBranchId a = Some e ∧ EndNodeId a ≤ e) ∧
  ∀ x e, u' !! x = Some e → u !! x = Some e ∨ ∃ a, a ∈ ans ∧ x = rangeBranchId a ∧ e = EndNodeId a.
Proof.
  revert u. induction ans as [|a ans IH]; intros u; simpl.
  - split_and!; [done|by intros ? []%elem_of_nil|by left].
  - destruct (use_ancestor_spec u a) as (L1 & (e & He & ?) & O1), (IH (use_ancestor u a)) as (L2 & A2 & O2). split_and!.
    + by etrans.
    + intros x [->|Hx]%elem_of_cons; [|by apply A2]. destruct (L2 _ _ He) as (e' & ? & ?). exists e'. split; [done|lia].
    + intros x e' [Hx|(y & ? & ? & ?)]%O2; [|right; exists y; set_solver].
      destruct (O1 x e' Hx) as [?|?]; [by left|]. right. exists a. set_solver.
Qed.

Section used.
Context (id : Z) (infos : list HistoryBranch).
Context (Hends : ∀ o br, o ∈ infos → br ∈ Ancestors o → EndNodeId br ≤ LastEventID).

Record used_spec (done_ : list HistoryBranch) (u : gmap Z Z) : Prop := {
  us_own o : o ∈ done_ → BranchId o ≠ id → u !! BranchId o = Some LastEventID;
  us_anc o br : o ∈ done_ → BranchId o ≠ id → br ∈ Ancestors o → ∃ e, u !! rangeBranchId br = Some e ∧ EndNodeId br ≤ e;
  us_only x e : u !! x = Some e → e ≤ LastEventID ∧ ∃ o, o ∈ done_ ∧ BranchId o ≠ id ∧
    (BranchId o = x ∧ e = LastEventID ∨ ∃ br, br ∈ Ancestors o ∧ rangeBranchId br = x ∧ e = EndNodeId br)
}.

Lemma use_branch_spec done_ u o :
  (∀ x, x ∈ done_ ++ [o] → x ∈ infos) → used_spec done_ u → used_spec (done_ ++ [o]) (use_branch id u o).
Proof.
  intros Hin [O A U]. unfold use_branch. destruct (Z.eqb_spec (BranchId o) id) as [E|E].
  { split; [intros x [?|Hx%list_elem_of_singleton]%elem_of_app ?; [by apply O|by subst]
           |intros x br [?|Hx%list_elem_of_singleton]%elem_of_app ?; [by apply A|by subst]|].
    intros x e Hx. destruct (U x e Hx) as (? & y & ? & ? & ?). split; [done|]. exists y. set_solver. }
  set (u0 := <[BranchId o := LastEventID]> u).
  assert (∀ x e, u !! x = Some e → ∃ e', u0 !! x = Some e' ∧ e ≤ e') as L0.
  { intros x e Hx. unfold u0. destruct (decide (BranchId o = x)) as [<-|]; simplify_map_eq; [|eexists; split; [done|lia]].
    eexists. split; [done|]. apply (U _ _ Hx). }
  destruct (use_ancestors_spec u0 (Ancestors o)) as (L1 & A1 & O1). set (u1 := foldl use_ancestor u0 (Ancestors o)) in *.
  assert (used_le u u1) as L by (transitivity u0; done).
  assert (∀ x e, u1 !! x = Some e → e ≤ LastEventID ∧ ∃ o', o' ∈ done_ ++ [o] ∧ BranchId o' ≠ id ∧
    (BranchId o' = x ∧ e = LastEventID ∨ ∃ br, br ∈ Ancestors o' ∧ rangeBranchId br = x ∧ e = EndNodeId br)) as Hu.
  { intros x e [Hx|(a & ? & -> & ->)]%O1.
    - unfold u0 in Hx. destruct (decide (BranchId o = x)) as [<-|]; simplify_map_eq.
      + split; [done|]. exists o. set_solver.
      + destruct (U x e Hx) as (? & y & ? & ? & ?). split; [done|]. exists y. set_solver.
    - split; [apply (Hends o); [apply Hin; set_solver|done]|]. exists o. split_and!; [set_solver|done|]. right. eauto. }
  split; [| |exact Hu].
  - intros x Hx Hid. assert (∃ e, u1 !! BranchId x = Some e ∧ LastEventID ≤ e) as (e & He & ?).
    { apply elem_of_app in Hx as [Hx | ->%list_elem_of_singleton]; [by apply L, O|]. apply L1. unfold u0. by rewrite lookup_insert_eq. }
    rewrite He. f_equal. destruct (Hu _ _ He). lia.
  - intros x br Hx Hid Hbr. apply elem_of_app in Hx as [Hx | ->%list_elem_of_singleton]; [|by apply A1].
    destruct (A x br Hx Hid Hbr) as (e & He & ?), (L _ _ He) as (e' & ? & ?). exists e'. split; [done|lia].
Qed.

Lemma usedBranches_spec : used_spec infos (usedBranches id infos).
Proof.
  unfold usedBranches. assert (∀ done_ rest u, infos = done_ ++ rest → used_spec done_ u → used_spec infos (foldl (use_branch id) u rest)) as Hg.
  { intros done_ rest. revert done_. induction rest as [|o rest IH]; intros done_ u E Hu; [by rewrite E, app_nil_r|]. simpl.
    apply (IH (done_ ++ [o])); [by rewrite <- app_assoc|]. apply use_branch_spec; [|done]. rewrite E. set_solver. }
  apply (Hg []); [done|]. split; [by intros ? []%elem_of_nil|by intros ? ? []%elem_of_nil|by intros ? ? ?%lookup_empty_Some].
Qed.
End used.

(** A delete range removes a row of the branch from its first node on. *)
Definition removes (d : DeleteRange) (id n : Z) : Prop := id = delBranchId d ∧ delBeginNodeId d ≤ n.

Lemma range_delete_in t b n r :
  r ∈ history_node (RangeDeleteFromHistoryNode t b n) ↔ r ∈ history_node t ∧ ¬ (rowBranchID r = b ∧ n ≤ rowNodeID r).
Proof.
  unfold RangeDeleteFromHistoryNode. simpl. rewrite list_elem_of_filter, andb_false_iff, Z.eqb_neq, Z.leb_gt.
  split; intros [? ?]; (split; [|lia || done]); [done|]. destruct (decide (rowBranchID r = b)); [right|by left]. lia.
Qed.

Lemma delete_ranges_in t ranges r :
  r ∈ history_node (delete_ranges t ranges) ↔
  r ∈ history_node t ∧ ∀ d, d ∈ ranges → ¬ removes d (rowBranchID r) (rowNodeID r).
Proof.
  unfold delete_ranges, removes. revert t. induction ranges as [|d ranges IH]; intros t; simpl.
  - split; [|by intros []]. intros. split; [done|by intros ? []%elem_of_nil].
  - rewrite IH, range_delete_in. split.
    + intros [[? ?] Hd]. split; [done|]. intros x [->|Hx]%elem_of_cons; [done|by apply Hd].
    + intros [? Hd]. split_and!; [done|apply Hd; by left|]. intros x Hx. apply Hd. by right.
Qed.

Lemma delete_ranges_tree t ranges : history_tree (delete_ranges t ranges) = history_tree t.
Proof. unfold delete_ranges. revert t. induction ranges as [|d ranges IH]; intros t; simpl; [done|]. by rewrite IH. Qed.

(** Only what no other branch uses is removed. *)
Lemma delete_only_unused used L d id n :
  d ∈ findDeleteRanges used L → removes d id n →
  used !! id = None ∨ ∃ e, used !! id = Some e ∧ e ≤ n ∧ e ≠ LastEventID.
Proof.
  induction L as [|br L IH]; simpl; [by intros []%elem_of_nil|].
  destruct (used !! rangeBranchId br) as [e|] eqn:E.
  - destruct (Z.eqb_spec e LastEventID); [by intros []%elem_of_nil|]. intros ->%list_elem_of_singleton [-> ?]. simpl in *. right. eauto.
  - intros [->|Hd]%elem_of_cons; [intros [-> _]; by left | by apply IH].
Qed.

(** What is left of a range is at, or above, the first range another branch uses. *)
Lemma delete_leaves used L br n :
  br ∈ L → BeginNodeId br ≤ n → (∀ d, d ∈ findDeleteRanges used L → ¬ removes d (rangeBranchId br) n) →
  ∃ L1 s L2 e, L = L1 ++ s :: L2 ∧ used !! rangeBranchId s = Some e ∧ (br ∈ L2 ∨ br = s ∧ (e = LastEventID ∨ n < e)).
Proof.
  unfold removes. induction L as [|x L IH]; [by intros []%elem_of_nil|]. intros Hbr Hb. simpl.
  destruct (used !! rangeBranchId x) as [e|] eqn:E.
  - intros Hd. exists [], x, L, e. split_and!; [done|done|]. apply elem_of_cons in Hbr as [->|Hbr]; [right|by left].
    split; [done|]. destruct (Z.eqb_spec e LastEventID) as [|Ne]; [by left|right].
    apply Z.nle_gt. intros L'. apply (Hd (mkDeleteRange (rangeBranchId x) e)); [by left|done].
  - intros Hd. apply elem_of_cons in Hbr as [->|Hbr].
    + exfalso. apply (Hd (mkDeleteRange (rangeBranchId x) (BeginNodeId x))); [by left|done].
    + destruct (IH Hbr Hb) as (L1 & s & L2 & e & -> & ? & ?); [intros d Hd'; apply Hd; by right|].
      by exists (x :: L1), s, L2, e.
Qed.

Lemma path_ancestor o l s k : path o = l ++ s :: k → ∀ br, br ∈ l → br ∈ Ancestors o.
Proof.
  unfold path, brsToDelete. intros E br Hbr. destruct (decide (k = [])) as [->|N].
  - by apply app_inj_tail in E as [-> _].
  - destruct (exists_last N) as (k' & y & ->). rewrite app_comm_cons, app_assoc in E. apply app_inj_tail in E as [-> _]. set_solver.
Qed.

Section delete.
Context (t : tables) (b : HistoryBranch).
Context (Hends : ∀ o br, o ∈ history_tree t → br ∈ Ancestors o → EndNodeId br ≤ LastEventID).

Lemma delete_tree o : o ∈ history_tree (DeleteHistoryBranch t b) ↔ o ∈ history_tree t ∧ BranchId o ≠ BranchId b.
Proof.
  unfold DeleteHistoryBranch, DeleteHistoryBranch_store. rewrite delete_ranges_tree. simpl. rewrite list_elem_of_filter. tauto.
Qed.

Lemma delete_subset r : r ∈ history_node (DeleteHistoryBranch t b) → r ∈ history_node t.
Proof. unfold DeleteHistoryBranch, DeleteHistoryBranch_store. by intros [? _]%delete_ranges_in. Qed.

(** A row that another branch has is not deleted. *)
Lemma delete_keeps o r :
  o ∈ history_tree t → BranchId o ≠ BranchId b → r ∈ history_node t → owned o r →
  r ∈ history_node (DeleteHistoryBranch t b).
Proof.
  intros Ho Hid Hr Hown. unfold DeleteHistoryBranch, DeleteHistoryBranch_store. apply delete_ranges_in. split; [done|].
  intros d Hd Hrm. pose proof (usedBranches_spec (BranchId b) (history_tree t) Hends) as U.
  pose proof (delete_only_unused _ _ _ _ _ Hd Hrm) as Hun. unfold GetHistoryTreeContainingBranch_store in Hun.
  destruct Hown as [(br & Hbr & Eid & ?)|[Eid ?]].
  - destruct (us_anc _ _ _ U o br Ho Hid Hbr) as (e & He & ?). rewrite Eid, He in Hun.
    destruct Hun as [|(e' & [= <-] & ? & _)]; [done|lia].
  - rewrite Eid, (us_own _ _ _ U o Ho Hid) in Hun. by destruct Hun as [|(e' & [= <-] & ? & ?)].
Qed.

(** A row of the deleted branch that is still there is one of another branch. *)
Lemma delete_no_garbage r :
  ranges_from 1 (Ancestors b) → (∀ o, o ∈ history_tree t → consistent b o) →
  r ∈ history_node (DeleteHistoryBranch t b) → owned b r → rowNodeID r < LastEventID →
  ∃ o, o ∈ history_tree (DeleteHistoryBranch t b) ∧ owned o r.
Proof.
  intros F Hcons Hr Hown Hlast. unfold DeleteHistoryBranch, DeleteHistoryBranch_store in Hr. apply delete_ranges_in in Hr as [Hr Hd].
  assert (∃ br, br ∈ path b ∧ rowBranchID r = rangeBranchId br ∧ BeginNodeId br ≤ rowNodeID r ∧
    (br ∈ Ancestors b → rowNodeID r < EndNodeId br)) as (br & Hbr & Eid & Hbeg & Hend).
  { unfold path, brsToDelete. destruct Hown as [(br & Hbr & ? & ?)|[? ?]]; [exists br; set_solver by lia|].
    eexists. split; [apply elem_of_app; right; by left|]. simpl. split_and!; try done.
    intros Hin. destruct (ranges_from_bounds _ _ _ F Hin) as (_ & ? & ?). rewrite <- GetBeginNodeID_end in *. simpl in *. lia. }
  rewrite Eid in Hd. destruct (delete_leaves _ _ br _ ltac:(by apply elem_of_reverse) Hbeg Hd) as (L1 & s & L2 & e & EL & He & Hpos).
  apply (f_equal reverse) in EL. rewrite reverse_involutive, reverse_app, reverse_cons, <- app_assoc in EL. simpl in EL.
  destruct (us_only _ _ _ (usedBranches_spec (BranchId b) (history_tree t) Hends) _ _ He) as (_ & o & Ho & Hid & Huse).
  exists o. split; [by apply delete_tree|].
  assert (∃ l s' k, path o = l ++ s' :: k ∧ rangeBranchId s' = rangeBranchId s ∧
    (s' ∈ Ancestors o ∧ e = EndNodeId s' ∨ BranchId o = rangeBranchId s ∧ BeginNodeId s' = GetBeginNodeID o)) as (l & s' & k & Ep & Es & Hs').
  { destruct Huse as [[E1 E2]|(br' & Hbr' & E1 & E2)].
    - exists (Ancestors o), (mkBranchRange (BranchId o) (GetBeginNodeID o) 0), []. simpl. split_and!; try done. by right.
    - destruct (list_elem_of_split _ _ Hbr') as (l & k & El).
      exists l, br', (k ++ [mkBranchRange (BranchId o) (GetBeginNodeID o) 0]). unfold path, brsToDelete. rewrite El, <- app_assoc.
      split_and!; try done. left. split; [by rewrite <- El|done]. }
  destruct (Hcons o Ho _ _ _ _ _ _ EL Ep ltac:(done)) as [El Eb].
  destruct Hpos as [Hin|[-> Hpos]].
  - left. exists br. assert (br ∈ l) by (rewrite <- El; by apply elem_of_reverse). split_and!; [by eapply path_ancestor|done|done|].
    apply Hend. eapply (path_ancestor b); [exact EL|]. by rewrite El.
  - destruct Hs' as [[Hs' ->]|[E1 E2]]; [left|right].
    + exists s'. split_and!; [done|congruence|lia|]. destruct Hpos; lia.
    + split; [congruence|lia].
Qed.
End delete.
End tree.
