(* ===== verification/HistoryRefine.v ===== *)
(** * The history store refines a map of committed histories

    The abstract state has the committed chain of every branch.  Whatever sequence of
    creations, appends, commits, forks and deletions the store has seen, reading a branch
    gives exactly its abstract history. *)
From S2P Require Import Prelude HistoryStore HistoryManager HistoryRead HistoryChain HistoryTree.
Local Open Scope Z_scope.
Local Open Scope go_scope.

Section refine.
Context `{EventSerializer} (transactionSizeLimit : Z).

(** ** Appending *)

Lemma check_batch_spec version lastID events :
  check_batch version lastID events = true → events ≠ [] →
  first_event_id events = lastID + 1 ∧ from_option Version 0 (head events) = version ∧
  from_option Version 0 (last events) = version ∧ last_event_id events = lastID + Z.of_nat (length events).
Proof.
  unfold first_event_id, last_event_id. revert lastID. induction events as [|e events IH]; intros lastID Hc N; [done|].
  simpl in Hc. bool_to_prop. destruct events as [|e' events]; [simpl in *; lia|].
  destruct (IH (lastID + 1)) as (? & ? & Hv & Hl); [done..|]. rewrite last_cons_cons.
  split_and!; simpl in *; try lia.
Qed.

(** The row an append writes. *)
Definition appended (b : HistoryBranch) (request : AppendRequest) (row : HistoryNodeRow) : Prop :=
  good_batch row ∧ rowBranchID row = BranchId b ∧ rowNodeID row = first_event_id (appEvents request) ∧
  TxnID row = neg64 (appTransactionID request) ∧ row_events row = appEvents request ∧
  1 ≤ rowNodeID row ∧ GetBeginNodeID b ≤ rowNodeID row.

Lemma append_row t request t' :
  ranges_from 1 (Ancestors (appBranch request)) → AppendHistoryNodes transactionSizeLimit t request = Ok t' →
  ∃ row, appended (appBranch request) request row ∧
    history_node t' = row :: base.filter (λ r, same_key row r = false) (history_node t) ∧
    history_tree t' = if IsNewBranch request
      then appBranch request :: base.filter (λ b, BranchId b ≠ BranchId (appBranch request)) (history_tree t) else history_tree t.
Proof.
  intros F. unfold AppendHistoryNodes, serializeAppendHistoryNodesRequest. rewrite (sortAncestors_id _ F).
  destruct (appEvents request) as [|e events] eqn:Ee; [done|].
  destruct (Z.leb_spec (EventId e) 0) as [|Hpos]; [done|].
  destruct (check_batch (Version e) (EventId e - 1) (e :: events)) eqn:Ec; [|done].
  destruct (check_batch_spec _ _ _ Ec ltac:(done)) as (Hf & _ & Hv & Hl). cbn [negb].
  destruct (SerializeEvents (e :: events)) as [blob|] eqn:Es; [|done].
  destruct (blob_size blob >? transactionSizeLimit); [done|].
  replace (mkBranch (BranchId (appBranch request)) (Ancestors (appBranch request))) with (appBranch request) by (by destruct (appBranch request)).
  destruct (Z.ltb_spec (EventId e) (GetBeginNodeID (appBranch request))) as [|Hbeg]; [done|].
  intros [= <-]. pose proof (deserialize_serialize _ _ Es) as Hd.
  eexists. split; [|split; [by destruct (IsNewBranch request)|by destruct (IsNewBranch request)]].
  unfold appended, good_batch, row_events. simpl. rewrite Hd, Ee. simpl. split_and!; try done; try lia.
  unfold batch_ok, last_event_id in *. simpl in Hv, Hl. destruct (last (e :: events)) as [x|] eqn:El; [|by apply last_None in El].
  simpl in *. rewrite andb_true_iff, !Z.eqb_eq. lia.
Qed.

Lemma same_key_false row (l : list HistoryNodeRow) :
  (∀ r, r ∈ l → txn r ≠ txn row) → base.filter (λ r, same_key row r = false) l = l.
Proof.
  intros Hn. apply filter_all. intros r Hr. specialize (Hn r Hr). unfold same_key, txn in *.
  apply andb_false_iff. right. apply Z.eqb_neq. lia.
Qed.

(** ** States and steps *)

(** The tables, and the committed chain of every branch by its id. *)
Record hstate := mkHState { tabs : tables; chains : gmap Z (list HistoryNodeRow) }.

(** The id names no branch of the tree, nor a row, nor an ancestor of a branch. *)
Definition fresh_branch (t : tables) (id : Z) : Prop :=
  (∀ r, r ∈ history_node t → rowBranchID r ≠ id) ∧
  (∀ b, b ∈ history_tree t → BranchId b ≠ id ∧ ∀ br, br ∈ Ancestors b → rangeBranchId br ≠ id).

(** Transaction ids are task ids of the shard: each write has its own. *)
Definition fresh_txn (t : tables) (x : Z) : Prop := 0 < x < MaxInt64 ∧ ∀ r, r ∈ history_node t → txn r ≠ x.

Inductive history_step : hstate → hstate → Prop :=
  (* a new workflow *)
  | hs_create s id request t' row :
      fresh_branch (tabs s) id → fresh_txn (tabs s) (appTransactionID request) →
      appBranch request = mkBranch id [] → IsNewBranch request = true →
      first_event_id (appEvents request) = FirstEventID →
      AppendHistoryNodes transactionSizeLimit (tabs s) request = Ok t' → history_node t' = row :: history_node (tabs s) →
      history_step s (mkHState t' (<[id := [row]]> (chains s)))
  (* a batch is written, at the end of the branch or, by a late writer, where the branch
     already has newer events; it is not committed *)
  | hs_append s b request t' chain :
      b ∈ history_tree (tabs s) → chains s !! BranchId b = Some chain → fresh_txn (tabs s) (appTransactionID request) →
      appBranch request = b → IsNewBranch request = false →
      first_event_id (appEvents request) < LastEventID →
      (chain_end 1 chain ≤ first_event_id (appEvents request) ∨
       ∃ c, c ∈ chain ∧ rowNodeID c ≤ first_event_id (appEvents request) < row_end c ∧ appTransactionID request < txn c) →
      AppendHistoryNodes transactionSizeLimit (tabs s) request = Ok t' →
      history_step s (mkHState t' (chains s))
  (* the newest batch at the end of the branch is committed *)
  | hs_commit s b chain row :
      b ∈ history_tree (tabs s) → chains s !! BranchId b = Some chain → can_commit (tabs s) b chain row →
      history_step s (mkHState (tabs s) (<[BranchId b := chain ++ [row]]> (chains s)))
  (* a fork at the start of a batch *)
  | hs_fork s b C0 C1 newID t' newBranch :
      b ∈ history_tree (tabs s) → chains s !! BranchId b = Some (C0 ++ C1) → C0 ≠ [] → chain_end 1 C0 ≤ LastEventID →
      fresh_branch (tabs s) newID →
      ForkHistoryBranch (tabs s) b (chain_end 1 C0) newID = Ok (t', newBranch) →
      history_step s (mkHState t' (<[newID := C0]> (chains s)))
  | hs_delete s b :
      b ∈ history_tree (tabs s) →
      history_step s (mkHState (DeleteHistoryBranch (tabs s) b) (delete (BranchId b) (chains s))).

Definition empty_history : hstate := mkHState (mkTables [] []) ∅.

(** ** The invariant *)

(** [o] has what [b] has committed below the end of its range of [b]. *)
Definition inherits (ch : gmap Z (list HistoryNodeRow)) (o b : HistoryBranch) (br : HistoryBranchRange) : Prop :=
  ∀ c co, ch !! BranchId b = Some c → ch !! BranchId o = Some co →
    EndNodeId br ≤ chain_end 1 c ∧ ∀ x, x ∈ c → rowNodeID x < EndNodeId br → x ∈ co.

Record tree_inv (s : hstate) : Prop := {
  ti_tables : tables_ok (tabs s);
  ti_rows r : r ∈ history_node (tabs s) → good_batch r ∧ rowNodeID r < LastEventID;
  ti_holds b : b ∈ history_tree (tabs s) → ∃ chain, chains s !! BranchId b = Some chain ∧ holds (tabs s) b chain;
  ti_ends b br : b ∈ history_tree (tabs s) → br ∈ Ancestors b → EndNodeId br ≤ LastEventID;
  ti_consistent b1 b2 : b1 ∈ history_tree (tabs s) → b2 ∈ history_tree (tabs s) → consistent b1 b2;
  ti_inherits o b br : o ∈ history_tree (tabs s) → b ∈ history_tree (tabs s) → br ∈ Ancestors o →
    rangeBranchId br = BranchId b → inherits (chains s) o b br
}.

Lemma consistent_ids b1 b2 : consistent b1 b2 → BranchId b1 = BranchId b2 → b1 = b2.
Proof.
  intros C E. destruct (C (Ancestors b1) (mkBranchRange (BranchId b1) (GetBeginNodeID b1) 0) []
    (Ancestors b2) (mkBranchRange (BranchId b2) (GetBeginNodeID b2) 0) []) as [Ea _]; try done.
  destruct b1, b2. simpl in *. congruence.
Qed.

(** An ancestor that is still in the tree starts where the range does. *)
Lemma consistent_begin o b br :
  consistent o b → br ∈ Ancestors o → rangeBranchId br = BranchId b → BeginNodeId br = GetBeginNodeID b.
Proof.
  intros C Hbr E. destruct (list_elem_of_split _ _ Hbr) as (l & k & El).
  destruct (C l br (k ++ [mkBranchRange (BranchId o) (GetBeginNodeID o) 0]) (Ancestors b)
    (mkBranchRange (BranchId b) (GetBeginNodeID b) 0) []) as [_ ?]; try done.
  unfold path, brsToDelete. by rewrite El, <- app_assoc.
Qed.

(** ** Every step keeps it *)

Lemma tables_ok_cons t t' row :
  tables_ok t → history_node t' = row :: history_node t → 0 < txn row < MaxInt64 →
  (∀ r, r ∈ history_node t → txn r ≠ txn row) → tables_ok t'.
Proof.
  intros [U T] E Hx Hf. split; rewrite E.
  - unfold keys_unique. simpl. constructor; [|exact U]. intros (r & Er & Hr)%list_elem_of_fmap.
    apply (Hf r Hr). unfold txn. simplify_eq. congruence.
  - intros r [->|Hr]%elem_of_cons; [done|by apply T].
Qed.

Lemma fresh_txn_row t request b row :
  fresh_txn t (appTransactionID request) → appended b request row →
  txn row = appTransactionID request ∧ 0 < txn row < MaxInt64 ∧ ∀ r, r ∈ history_node t → txn r ≠ txn row.
Proof.
  intros [Hx Hf] (_ & _ & _ & Ht & _). assert (txn row = appTransactionID request) as E.
  { unfold txn. rewrite Ht, neg64_id by (int_bounds; lia). lia. }
  rewrite E. done.
Qed.

Lemma inv_append s b request t' chain :
  tree_inv s → b ∈ history_tree (tabs s) → chains s !! BranchId b = Some chain → fresh_txn (tabs s) (appTransactionID request) →
  appBranch request = b → IsNewBranch request = false → first_event_id (appEvents request) < LastEventID →
  (chain_end 1 chain ≤ first_event_id (appEvents request) ∨
   ∃ c, c ∈ chain ∧ rowNodeID c ≤ first_event_id (appEvents request) < row_end c ∧ appTransactionID request < txn c) →
  AppendHistoryNodes transactionSizeLimit (tabs s) request = Ok t' →
  tree_inv (mkHState t' (chains s)).
Proof.
  intros I Hb Hch Hfr Eb En Hlast Hpl Happ. destruct (ti_holds _ I b Hb) as (chain' & Hch' & Hh).
  rewrite Hch in Hch'. injection Hch' as <-.
  destruct (append_row _ _ _ ltac:(rewrite Eb; apply Hh) Happ) as (row & Hrow & Hnodes & Htree).
  destruct (fresh_txn_row _ _ _ _ Hfr Hrow) as (Etx & Hx & Hnew). rewrite same_key_false in Hnodes by done. rewrite En in Htree.
  rewrite Eb in Hrow. destruct Hrow as (Hg & Hid & Hn & _ & _ & _ & Hbeg).
  split; simpl; rewrite ?Hnodes, ?Htree; try apply I.
  - by apply (tables_ok_cons (tabs s) t' row); [apply I|..].
  - intros r [->|Hr]%elem_of_cons; [by rewrite Hn|by apply I].
  - intros o Ho. destruct (ti_holds _ I o Ho) as (co & Hco & Hho). exists co. split; [done|].
    pose proof (ti_consistent _ I o b Ho Hb) as Hcons.
    apply (holds_insert (tabs s) _ _ _ row); [done|intros r; rewrite Hnodes; set_solver| |].
    + split.
      * intros br Hbr E. rewrite (consistent_begin o b br Hcons Hbr) by congruence. done.
      * intros E. by rewrite (consistent_ids o b Hcons) by congruence.
    + intros [(br & Hbr & E & ? & ?)|[E _]].
      * destruct (ti_inherits _ I o b br Ho Hb Hbr ltac:(congruence) chain co Hch Hco) as [? Hin].
        destruct Hpl as [?|(c & Hc & ? & ?)]; [lia|]. right. exists c. split_and!; try lia. apply Hin; [done|lia].
      * rewrite (consistent_ids o b Hcons) in Hco by congruence. rewrite Hch in Hco. injection Hco as <-.
        destruct Hpl as [?|(c & Hc & ? & ?)]; [left; lia|]. right. exists c. split_and!; try done; lia.
Qed.

Lemma inv_create s id request t' row :
  tree_inv s → fresh_branch (tabs s) id → fresh_txn (tabs s) (appTransactionID request) →
  appBranch request = mkBranch id [] → IsNewBranch request = true → first_event_id (appEvents request) = FirstEventID →
  AppendHistoryNodes transactionSizeLimit (tabs s) request = Ok t' → history_node t' = row :: history_node (tabs s) →
  tree_inv (mkHState t' (<[id := [row]]> (chains s))).
Proof.
  intros I [Hfr Hft] Hfx Eb En Hfirst Happ Hnodes.
  destruct (append_row _ _ _ ltac:(by rewrite Eb) Happ) as (row' & Hrow & Hnodes' & Htree).
  destruct (fresh_txn_row _ _ _ _ Hfx Hrow) as (_ & Hx & Hnew). rewrite same_key_false, Hnodes in Hnodes' by done.
  injection Hnodes' as <-. rewrite Eb in *. destruct Hrow as (Hg & Hid & Hn & _ & _ & _ & _). simpl in Hid.
  rewrite Hfirst in Hn. rewrite En in Htree.
  assert (∀ o, o ∈ history_tree t' ↔ o = mkBranch id [] ∨ o ∈ history_tree (tabs s)) as Hin.
  { intros o. rewrite Htree. rewrite elem_of_cons, list_elem_of_filter. simpl. split; [tauto|].
    intros [?|Ho]; [by left|]. right. split; [|done]. by apply Hft. }
  assert (path (mkBranch id []) = [mkBranchRange id 1 0]) as Hpath by done.
  assert (∀ o br, o ∈ history_tree (tabs s) → br ∈ path o → rangeBranchId br ≠ id) as Hother.
  { intros o br Ho. unfold path, brsToDelete. destruct (Hft o Ho) as [? Ha].
    intros [Hbr | ->%list_elem_of_singleton]%elem_of_app; [by apply Ha|done]. }
  split; simpl; rewrite ?Hnodes.
  - by apply (tables_ok_cons (tabs s) t' row); [apply I|..].
  - intros r [->|Hr]%elem_of_cons; [|by apply I]. split; [done|]. rewrite Hn. unfold LastEventID, FirstEventID. int_bounds. lia.
  - intros o [->|Ho]%Hin.
    + exists [row]. split; [apply lookup_insert_eq|]. unfold FirstEventID in Hn. split; simpl; rewrite ?Hnodes; try done.
      * intros r Hr. split; [by intros ? []%elem_of_nil|]. rewrite Hnodes in Hr. intros E. unfold GetBeginNodeID. simpl.
        apply elem_of_cons in Hr as [->|Hr]; [lia|]. by destruct (Hfr r Hr).
      * repeat constructor.
      * intros c ->%list_elem_of_singleton. split; [by left|]. right. unfold GetBeginNodeID. simpl. lia.
      * intros r [->|Hr]%elem_of_cons Ho; [left; by left|]. destruct Ho as [(? & []%elem_of_nil & _)|[E _]]. by destruct (Hfr r Hr).
    + destruct (ti_holds _ I o Ho) as (co & Hco & Hho). exists co. destruct (Hft o Ho) as [Hoid Hoa].
      rewrite lookup_insert_ne by done. split; [done|].
      apply (holds_insert (tabs s) _ _ _ row); [done|intros r; rewrite Hnodes; set_solver| |].
      * split; [intros br Hbr E; by destruct (Hoa br Hbr); congruence|intros E; congruence].
      * intros [(br & Hbr & E & _)|[E _]]; [by destruct (Hoa br Hbr); congruence|congruence].
  - intros o br [->|Ho]%Hin Hbr; [by apply elem_of_nil in Hbr|by apply (ti_ends _ I o)].
  - intros o1 o2 H1%Hin H2%Hin l1 br1 k1 l2 br2 k2 E1 E2 E.
    assert (br1 ∈ path o1 ∧ br2 ∈ path o2) as [B1 B2] by (rewrite E1, E2; set_solver).
    destruct H1 as [->|H1], H2 as [->|H2].
    + rewrite Hpath in E1, E2. destruct l1 as [|? []], l2 as [|? []]; by simplify_eq/=.
    + rewrite Hpath in B1. apply list_elem_of_singleton in B1 as ->. by destruct (Hother o2 br2 H2 B2).
    + rewrite Hpath in B2. apply list_elem_of_singleton in B2 as ->. by destruct (Hother o1 br1 H1 B1).
    + by apply (ti_consistent _ I o1 o2 H1 H2 l1 br1 k1 l2 br2 k2).
  - intros o b br [->|Ho]%Hin Hb Hbr E; [by apply elem_of_nil in Hbr|]. destruct (Hft o Ho) as [Hoid Hoa].
    apply Hin in Hb as [->|Hb]; [by destruct (Hoa br Hbr)|]. destruct (Hft b Hb) as [Hbid _].
    intros c co. rewrite !lookup_insert_ne by done. by apply (ti_inherits _ I).
Qed.

Lemma inv_commit s b chain row :
  tree_inv s → b ∈ history_tree (tabs s) → chains s !! BranchId b = Some chain → can_commit (tabs s) b chain row →
  tree_inv (mkHState (tabs s) (<[BranchId b := chain ++ [row]]> (chains s))).
Proof.
  intros I Hb Hch Hcm. pose proof Hcm as (Hr & _ & En & _). destruct (ti_rows _ I row Hr) as [Hg _].
  assert (∀ o, o ∈ history_tree (tabs s) → BranchId o = BranchId b → o = b) as Hsame.
  { intros o Ho. apply consistent_ids. by apply I. }
  split; simpl; try apply I.
  - intros o Ho. destruct (ti_holds _ I o Ho) as (co & Hco & Hho). destruct (decide (BranchId b = BranchId o)) as [E|N].
    + rewrite <- E, lookup_insert_eq. rewrite (Hsame o Ho (eq_sym E)) in *. rewrite Hch in Hco. injection Hco as <-.
      exists (chain ++ [row]). split; [done|]. by apply holds_commit.
    + rewrite lookup_insert_ne by done. eauto.
  - intros o b' br Ho Hb' Hbr E c co Hc Hco.
    destruct (ti_holds _ I o Ho) as (co0 & Hco0 & _), (ti_holds _ I b' Hb') as (c0 & Hc0 & Hh0).
    destruct (ti_inherits _ I o b' br Ho Hb' Hbr E c0 co0 Hc0 Hco0) as [Hend Hin].
    assert (∀ x, x ∈ co0 → x ∈ co) as Hgrow.
    { intros x Hx. destruct (decide (BranchId b = BranchId o)) as [E'|N].
      - rewrite <- E', lookup_insert_eq in Hco. rewrite <- E', Hch in Hco0. simplify_eq. set_solver.
      - rewrite lookup_insert_ne in Hco by done. simplify_eq. done. }
    destruct (decide (BranchId b = BranchId b')) as [E'|N].
    + rewrite <- E', lookup_insert_eq in Hc. rewrite <- E', Hch in Hc0. simplify_eq.
      unfold chain_end at 1. rewrite last_snoc. simpl. destruct (good_batch_last row Hg) as [_ ?]. split; [lia|].
      intros x [Hx | ->%list_elem_of_singleton]%elem_of_app L; [by apply Hgrow, Hin|lia].
    + rewrite lookup_insert_ne in Hc by done. simplify_eq. split; [done|]. intros x Hx L. by apply Hgrow, Hin.
Qed.

Lemma cut_ancestor_of ans n br :
  br ∈ cut_ancestors ans n → ∃ br0, br0 ∈ ans ∧ rangeBranchId br0 = rangeBranchId br ∧ EndNodeId br ≤ EndNodeId br0.
Proof.
  induction ans as [|x ans IH]; simpl; [by intros []%elem_of_nil|]. destruct (Z.geb_spec (EndNodeId x) n).
  - intros ->%list_elem_of_singleton. exists x. simpl. split_and!; [by left|done|lia].
  - intros [->|Hbr]%elem_of_cons; [exists x; split_and!; [by left|done|lia]|].
    destruct (IH Hbr) as (br0 & ? & ? & ?). exists br0. split_and!; [by right|done|done].
Qed.

Lemma fork_ancestor_of b n newID br :
  ranges_from 1 (Ancestors b) → 1 < n → br ∈ Ancestors (fork_branch b n newID) →
  EndNodeId br ≤ n ∧
  ((∃ br0, br0 ∈ Ancestors b ∧ rangeBranchId br0 = rangeBranchId br ∧ EndNodeId br ≤ EndNodeId br0) ∨
   rangeBranchId br = BranchId b).
Proof.
  intros F Hn Hbr. destruct (fork_ranges b n newID F Hn) as (F' & E & _). split.
  - destruct (ranges_from_bounds _ _ _ F' Hbr) as (_ & _ & ?). by rewrite <- GetBeginNodeID_end, E in *.
  - unfold fork_branch in Hbr. simpl in Hbr. case_match; [left; by eapply cut_ancestor_of|].
    apply elem_of_app in Hbr as [Hbr | ->%list_elem_of_singleton]; [|by right]. left. exists br. split_and!; [done|done|lia].
Qed.

Lemma fork_consistent t b n newID o :
  b ∈ history_tree t → (∀ x, x ∈ history_tree t → consistent b x) → fresh_branch t newID →
  (o ∈ history_tree t ∨ o = fork_branch b n newID) → consistent (fork_branch b n newID) o.
Proof.
  intros Hb Hc [_ Hfr] Ho l1 br1 k1 l2 br2 k2 E1 E2 E.
  assert (∀ x br, x ∈ history_tree t → br ∈ path x → rangeBranchId br ≠ newID) as Hold.
  { intros x br Hx. destruct (Hfr x Hx) as [? Ha]. unfold path, brsToDelete.
    intros [Hbr | ->%list_elem_of_singleton]%elem_of_app; [by apply Ha|done]. }
  assert (∀ l br k, path (fork_branch b n newID) = l ++ br :: k → rangeBranchId br = newID →
    l = Ancestors (fork_branch b n newID) ∧ br = mkBranchRange newID (GetBeginNodeID (fork_branch b n newID)) 0) as Hown.
  { intros l br k Ep Eid. unfold path, brsToDelete in Ep. destruct (decide (k = [])) as [->|N].
    - apply app_inj_tail in Ep as [-> <-]. done.
    - exfalso. destruct (exists_last N) as (k' & y & ->).
      assert (Ancestors (fork_branch b n newID) = l ++ br :: k') as Ea.
      { rewrite app_comm_cons, app_assoc in Ep. by apply app_inj_tail in Ep as [-> _]. }
      assert (br ∈ Ancestors (fork_branch b n newID)) as Hin by (rewrite Ea; set_solver).
      unfold fork_branch in Hin. simpl in Hin. case_match.
      + apply cut_ancestor_of in Hin as (br0 & Hbr0 & E0 & _). destruct (Hfr b Hb) as [_ Ha]. apply (Ha br0 Hbr0). congruence.
      + apply elem_of_app in Hin as [Hin | ->%list_elem_of_singleton]; [by destruct (Hfr b Hb) as [_ Ha]; apply (Ha br)|].
        simpl in Eid. by destruct (Hfr b Hb). }
  destruct (decide (rangeBranchId br1 = newID)) as [E'|N].
  - destruct (Hown _ _ _ E1 E') as [-> ->]. destruct Ho as [Ho| ->].
    + exfalso. apply (Hold o br2 Ho); [rewrite E2; set_solver|congruence].
    + destruct (Hown _ _ _ E2 ltac:(congruence)) as [-> ->]. done.
  - destruct (fork_path_split b n newID l1 br1 k1 E1 N) as (br1' & k1' & Ep1 & Eid1 & <-).
    destruct Ho as [Ho| ->]; [apply (Hc o Ho l1 br1' k1' l2 br2 k2); congruence|].
    destruct (fork_path_split b n newID l2 br2 k2 E2 ltac:(congruence)) as (br2' & k2' & Ep2 & Eid2 & <-).
    apply (Hc b Hb l1 br1' k1' l2 br2' k2'); congruence.
Qed.

Lemma consistent_sym b1 b2 : consistent b1 b2 → consistent b2 b1.
Proof. intros C l1 br1 k1 l2 br2 k2 E1 E2 E. destruct (C l2 br2 k2 l1 br1 k1 E2 E1 (eq_sym E)). done. Qed.

Lemma inv_fork s b C0 C1 newID t' newBranch :
  tree_inv s → b ∈ history_tree (tabs s) → chains s !! BranchId b = Some (C0 ++ C1) → C0 ≠ [] → chain_end 1 C0 ≤ LastEventID →
  fresh_branch (tabs s) newID → ForkHistoryBranch (tabs s) b (chain_end 1 C0) newID = Ok (t', newBranch) →
  tree_inv (mkHState t' (<[newID := C0]> (chains s))).
Proof.
  intros I Hb Hch N0 Hlast Hfr Hfork. destruct (ti_holds _ I b Hb) as (c & Hc & Hh). rewrite Hch in Hc. injection Hc as <-.
  unfold ForkHistoryBranch in Hfork. destruct (Z.leb_spec (chain_end 1 C0) 1) as [|Hn]; [done|]. injection Hfork as <- <-.
  set (n := chain_end 1 C0) in *. set (nb := fork_branch b n newID).
  pose proof (h_ranges _ _ _ Hh) as F. destruct Hfr as [Hfr1 Hfr2].
  assert (∀ o, o ∈ history_tree (ForkHistoryBranch_store (tabs s) nb) ↔ o = nb ∨ o ∈ history_tree (tabs s)) as Hin.
  { intros o. simpl. rewrite elem_of_cons, list_elem_of_filter. split; [tauto|].
    intros [?|Ho]; [by left|]. right. split; [|done]. by apply Hfr2. }
  assert (∀ br, br ∈ Ancestors nb → rangeBranchId br ≠ newID) as Hnb.
  { intros br Hbr. destruct (fork_ancestor_of b n newID br F Hn Hbr) as [_ [(br0 & Hbr0 & <- & _)| ->]]; by apply (Hfr2 b Hb). }
  split; cbn [tabs chains].
  - split; [apply (ti_tables _ I)|]. apply (ti_tables _ I).
  - apply (ti_rows _ I).
  - intros o [->|Ho]%Hin.
    + exists C0. split; [apply lookup_insert_eq|]. by apply (fork_holds (tabs s) _ b C0 C1).
    + destruct (ti_holds _ I o Ho) as (co & Hco & Hho). exists co. destruct (Hfr2 o Ho).
      rewrite lookup_insert_ne by done. split; [done|]. apply (holds_remove (tabs s)); [done|done|]. apply Hho.
  - intros o br [->|Ho]%Hin Hbr; [|by apply (ti_ends _ I o)].
    destruct (fork_ancestor_of b n newID br F Hn Hbr) as [? _]. lia.
  - assert (∀ o, o ∈ history_tree (tabs s) ∨ o = nb → consistent nb o) as Hcn.
    { intros o Ho. apply (fork_consistent (tabs s)); [done|intros; by apply I|done|done]. }
    intros o1 o2 [->|H1]%Hin [->|H2]%Hin; [by apply Hcn; right|by apply Hcn; left| |by apply I].
    apply consistent_sym, Hcn. by left.
  - intros o b' br [->|Ho]%Hin [->|Hb']%Hin Hbr E.
    + by destruct (Hnb br Hbr).
    + intros c co Hc Hco. destruct (Hfr2 b' Hb') as [? _]. rewrite lookup_insert_ne in Hc by done.
      simpl in Hco. rewrite lookup_insert_eq in Hco. injection Hco as <-.
      assert (∀ x, x ∈ C0 ++ C1 → rowNodeID x < n → x ∈ C0) as Hpre.
      { pose proof (h_chain _ _ _ Hh) as Hcc. apply contiguous_app in Hcc as [_ Hc1].
        intros x [Hx|Hx]%elem_of_app L; [done|]. destruct (contiguous_nodes _ _ _ Hc1 Hx). unfold n in L. lia. }
      destruct (fork_ancestor_of b n newID br F Hn Hbr) as [Hend [(br0 & Hbr0 & E0 & L0)|E0]].
      * destruct (ti_inherits _ I b b' br0 Hb Hb' Hbr0 ltac:(congruence) c (C0 ++ C1) Hc Hch) as [? Hsub].
        split; [lia|]. intros x Hx L. apply Hpre; [apply Hsub; [done|lia]|lia].
      * rewrite (consistent_ids b' b) in Hc by (congruence || by apply I). rewrite Hch in Hc. injection Hc as <-.
        split; [|intros x Hx L; apply Hpre; [done|lia]].
        pose proof (h_chain _ _ _ Hh) as Hcc. pose proof Hcc as Hcc'. apply contiguous_app in Hcc' as [_ Hc1].
        destruct C1 as [|y C1]; [rewrite app_nil_r; unfold n in Hend; lia|].
        destruct (contiguous_nodes _ _ y Hcc ltac:(set_solver)). destruct Hc1 as (? & _). unfold n in Hend. lia.
    + destruct (Hfr2 o Ho) as [_ Ha]. by destruct (Ha br Hbr).
    + intros c co. destruct (Hfr2 o Ho), (Hfr2 b' Hb'). rewrite !lookup_insert_ne by done. by apply (ti_inherits _ I).
Qed.

Lemma tables_ok_remove t b n : tables_ok t → tables_ok (RangeDeleteFromHistoryNode t b n).
Proof.
  intros [U T]. split.
  - unfold keys_unique, RangeDeleteFromHistoryNode in *. simpl. eapply sublist_NoDup; [exact U|].
    apply (fmap_sublist (λ r, (rowBranchID r, rowNodeID r, TxnID r))), sublist_filter.
  - intros r [? _]%range_delete_in. by apply T.
Qed.

Lemma inv_delete s b :
  tree_inv s → b ∈ history_tree (tabs s) → tree_inv (mkHState (DeleteHistoryBranch (tabs s) b) (delete (BranchId b) (chains s))).
Proof.
  intros I Hb. pose proof (ti_ends _ I) as Hends. split; cbn [tabs chains].
  - unfold DeleteHistoryBranch, DeleteHistoryBranch_store, delete_ranges.
    assert (tables_ok (DeleteFromHistoryTree (tabs s) (BranchId b))) as Hok by (destruct (ti_tables _ I); by split).
    revert Hok. generalize (DeleteFromHistoryTree (tabs s) (BranchId b)).
    induction (findDeleteRanges _ _) as [|d ds IH]; intros t Hok; [done|]. simpl. apply IH. by apply tables_ok_remove.
  - intros r Hr%delete_subset. by apply I.
  - intros o [Ho Hid]%delete_tree. destruct (ti_holds _ I o Ho) as (co & Hco & Hho). exists co.
    rewrite lookup_delete_ne by done. split; [done|]. apply (holds_remove (tabs s)); [done|apply delete_subset|].
    intros c Hc. destruct (h_in _ _ _ Hho c Hc). by apply (delete_keeps (tabs s) b Hends o).
  - intros o br [Ho _]%delete_tree. by apply Hends.
  - intros o1 o2 [H1 _]%delete_tree [H2 _]%delete_tree. by apply I.
  - intros o b' br [Ho Hid]%delete_tree [Hb' Hid']%delete_tree Hbr E c co. rewrite !lookup_delete_ne by done.
    by apply (ti_inherits _ I).
Qed.

Lemma inv_empty : tree_inv empty_history.
Proof.
  split; simpl.
  - split; [constructor|by intros ? []%elem_of_nil].
  - by intros ? []%elem_of_nil.
  - by intros ? []%elem_of_nil.
  - by intros ? ? []%elem_of_nil.
  - by intros ? ? []%elem_of_nil.
  - by intros ? ? ? []%elem_of_nil.
Qed.

Lemma inv_step s s' : history_step s s' → tree_inv s → tree_inv s'.
Proof. intros St I. destruct St; eauto using inv_create, inv_append, inv_commit, inv_fork, inv_delete. Qed.

Lemma inv_reachable s : rtc history_step empty_history s → tree_inv s.
Proof.
  intros R. assert (∀ a, rtc history_step a s → tree_inv a → tree_inv s) as Hg; [|by eapply Hg, inv_empty].
  clear R. intros a R. induction R as [|x y z St R IH]; [done|]. intros I. apply IH. by eapply inv_step.
Qed.


(** C10 Deleting a branch deletes exactly what is no longer needed.  In every reachable
    state, deleting one branch of the tree takes it out of the tree, keeps every other
    branch with all its rows and its committed history, and every row of the deleted branch
    that remains belongs to another branch of the tree. *)
Theorem delete_branch_exact s b (R : rtc history_step empty_history s) (Hb : b ∈ history_tree (tabs s)) :
  let t' := DeleteHistoryBranch (tabs s) b in
  b ∉ history_tree t' ∧
  (∀ o, o ∈ history_tree (tabs s) → o ≠ b →
     o ∈ history_tree t' ∧ (∀ r, r ∈ history_node (tabs s) → owned o r → r ∈ history_node t') ∧
     ∃ chain, chains s !! BranchId o = Some chain ∧ holds t' o chain) ∧
  (∀ r, r ∈ history_node t' → owned b r → ∃ o, o ∈ history_tree t' ∧ owned o r).
Proof.
  pose proof (inv_reachable s R) as I. intros t'. pose proof (inv_delete s b I Hb) as I'. split_and!.
  - by intros [_ ?]%delete_tree.
  - intros o Ho N. assert (BranchId o ≠ BranchId b) as Hid.
    { intros E. apply N. apply consistent_ids; [by apply I|done]. }
    split_and!; [by apply delete_tree| |].
    + intros r Hr Hown. apply (delete_keeps (tabs s) b (ti_ends _ I) o); done.
    + destruct (ti_holds _ I' o) as (chain & Hc & Hh); [by apply delete_tree|]. exists chain. split; [|done].
      simpl in Hc. by rewrite lookup_delete_ne in Hc.
  - intros r Hr Hown. destruct (ti_holds _ I b Hb) as (chain & _ & Hh).
    apply (delete_no_garbage (tabs s) b (ti_ends _ I)); try done; [apply Hh|intros; by apply I|].
    apply delete_subset in Hr. by apply I.
Qed.
End refine.

(** ** Examples *)

#[local] Existing Instance plain_serializer.

Definition sample_append (b : HistoryBranch) (new : bool) (ids : list Z) (prev tx : Z) : AppendRequest :=
  mkAppend b new (map sample_event ids) prev tx.

(** A workflow is started; a batch is written twice, and the second write is committed; then
    a branch is forked from the committed history. *)
Definition rows1 : list HistoryNodeRow := [sample_row 1 1 0 10 [1; 2]].
Definition rows2 : list HistoryNodeRow := sample_row 1 3 10 20 [3; 4] :: rows1.
Definition rows3 : list HistoryNodeRow := sample_row 1 3 10 30 [3; 4] :: rows2.
Definition state1 : hstate := mkHState (mkTables rows1 [root_branch]) (<[1 := rows1]> ∅).
Definition state2 : hstate := mkHState (mkTables rows2 [root_branch]) (chains state1).
Definition state3 : hstate := mkHState (mkTables rows3 [root_branch]) (chains state1).
Definition state4 : hstate := mkHState (tabs state3) (<[1 := rows1 ++ [sample_row 1 3 10 30 [3; 4]]]> (chains state3)).
Definition state5 : hstate :=
  mkHState (mkTables rows3 [fork_branch root_branch 3 2; root_branch]) (<[2 := rows1]> (chains state4)).

Lemma sample_run4 : rtc (history_step 100) empty_history state4.
Proof.
  apply (rtc_l _ _ state1).
  { apply (hs_create 100 empty_history 1 (sample_append root_branch true [1; 2] 0 10)); try reflexivity.
    - split; [by intros ? []%elem_of_nil|by intros ? []%elem_of_nil].
    - split; [simpl; int_bounds; lia|by intros ? []%elem_of_nil]. }
  apply (rtc_l _ _ state2).
  { apply (hs_append 100 state1 root_branch (sample_append root_branch false [3; 4] 10 20) _ rows1); try reflexivity.
    - by left.
    - split; [simpl; int_bounds; lia|]. intros r Hr. simpl in Hr. each_row Hr. done.
    - left. vm_compute. discriminate. }
  apply (rtc_l _ _ state3).
  { apply (hs_append 100 state2 root_branch (sample_append root_branch false [3; 4] 10 30) _ rows1); try reflexivity.
    - by left.
    - split; [simpl; int_bounds; lia|]. intros r Hr. simpl in Hr. each_row Hr; done.
    - left. vm_compute. discriminate. }
  apply rtc_once. apply (hs_commit 100 state3 root_branch rows1 (sample_row 1 3 10 30 [3; 4])); [by left|reflexivity|].
  split_and!; [by left|done|done| |].
  - intros c Hc. each_row Hc. unfold txn. simpl. lia.
  - intros r Hr _. simpl in Hr. each_row Hr; unfold txn; simpl; lia || by left.
Qed.

Lemma sample_run5 : rtc (history_step 100) empty_history state5.
Proof.
  eapply rtc_r; [apply sample_run4|].
  apply (hs_fork 100 state4 root_branch rows1 [sample_row 1 3 10 30 [3; 4]] 2 _ (fork_branch root_branch 3 2)).
  - by left.
  - reflexivity.
  - discriminate.
  - vm_compute. discriminate.
  - split; [intros r Hr; simpl in Hr; each_row Hr; done|]. intros b Hb. simpl in Hb. each_row Hb. split; [done|by intros ? []%elem_of_nil].
  - reflexivity.
Qed.


Lemma delete_branch_exact_witness :
  let t' := DeleteHistoryBranch (tabs state5) root_branch in
  map rowNodeID (history_node t') = [1] ∧ ∃ chain, chains state5 !! 2 = Some chain ∧ holds t' (fork_branch root_branch 3 2) chain.
Proof.
  intros t'. split; [vm_compute; reflexivity|].
  destruct (delete_branch_exact 100 state5 root_branch sample_run5) as (_ & H & _); [by right; left|].
  apply (H (fork_branch root_branch 3 2)); [by left|discriminate].
Defined.
