(* ===== verification/HistoryTrim.v ===== *)
(** * Trimming a branch

    A write that was not committed may have a newer transaction than the committed batch
    at the same node, and would then be read in its place.  [TrimHistoryBranch] follows the
    chain back from its committed end and deletes such rows. *)
From S2P Require Import Prelude HistoryStore HistoryManager HistoryRead HistoryChain HistoryTree.
Local Open Scope Z_scope.
Local Open Scope go_scope.

Section trim.
Context `{EventSerializer} (t : tables) (Ht : tables_ok t) (branch : HistoryBranch).
Context (F : ranges_from 1 (Ancestors branch)) (Habove : rows_above t branch).
(** No two rows have the same transaction. *)
Context (Huniq : ∀ r1 r2, r1 ∈ history_node t → r2 ∈ history_node t → txn r1 = txn r2 → r1 = r2).
Context (M ps : Z) (Hps : 0 < ps).

Abbreviation rows := (rows_of t 1 M).

(** What reading needs of the branch. *)
Lemma holds_nothing : holds t branch [].
Proof.
  split; try done; [constructor|by intros ? []%elem_of_nil|]. intros r Hr Ho. right; left. unfold chain_end. simpl.
  destruct Ho as [(br & Hbr & _ & ? & _)|[_ ?]].
  - destruct (ranges_from_bounds _ _ _ F Hbr). lia.
  - rewrite GetBeginNodeID_end in *. pose proof (ranges_from_end 1 (Ancestors branch) F). lia.
Qed.

(** ** Collecting the nodes *)

(** The metadata of a row of range [br], which comes after the ranges [pre]. *)
Definition meta (pre : list HistoryBranchRange) (br : HistoryBranchRange) (r : HistoryNodeRow) : historyNodeMetadata :=
  mkMetadata (mkBranch (rangeBranchId br) pre) (rowNodeID r) (txn r) (PrevTxnID r).
Fixpoint metas (pre brs : list HistoryBranchRange) : list historyNodeMetadata :=
  match brs with
  | [] => []
  | br :: brs => map (meta pre br) (rows br) ++ metas (pre ++ [br]) brs
  end.
Definition insert_meta (m : gmap Z historyNodeMetadata) (n : historyNodeMetadata) : gmap Z historyNodeMetadata :=
  <[transactionID n := n]> m.

Lemma insert_nodes_meta pre br rs m :
  (∀ r, r ∈ rs → r ∈ history_node t) →
  insert_nodes (mkBranch (rangeBranchId br) pre) (map (to_node true) rs) m = foldl insert_meta m (map (meta pre br) rs).
Proof.
  unfold insert_nodes. revert m. induction rs as [|r rs IH]; intros m Hin; [done|]. cbn [map foldl].
  rewrite to_node_txn by (apply Ht, Hin; by left). rewrite IH by (intros; apply Hin; by right). done.
Qed.

(** A token between two pages, with the metadata still to be read. *)
Definition collecting (n : nat) (tk : historyPagingToken) (ms : list historyNodeMetadata) : Prop :=
  ∃ B1 br B2 B3 P R,
    all_ranges branch M = B1 ++ br :: B2 ++ B3 ∧
    CurrentRangeIndex tk = Z.of_nat (length B1) ∧ FinalRangeIndex tk = Z.of_nat (length B1 + length B2) ∧
    rows br = P ++ R ∧ StoreToken tk = token_of P ∧
    n = (length R + length (concat (map rows B2)) + length B2)%nat ∧
    ms = map (meta B1 br) R ++ metas (B1 ++ [br]) B2.

(** One page, whether it is the first or a later one. *)
Lemma collect_page fuel token tk n ms m :
  start_token false (all_ranges branch M) 1 M (deserializeToken token 0 defaultLastTransactionID) = Ok tk →
  collecting n tk ms →
  ∃ ms1 ms2, ms = ms1 ++ ms2 ∧
    (ms2 = [] ∧ collect_nodes (S fuel) t (all_ranges branch M) M ps token m = Ok (foldl insert_meta m ms1) ∨
     ∃ tk' n', (n' < n)%nat ∧ collecting n' tk' ms2 ∧
       collect_nodes (S fuel) t (all_ranges branch M) M ps token m
       = collect_nodes fuel t (all_ranges branch M) M ps (Some tk') (foldl insert_meta m ms1)).
Proof.
  intros Hs (B1 & br & B2 & B3 & P & R & Hb & Hc & Hf & HR & Hst & -> & ->).
  assert (∀ r, r ∈ R → r ∈ history_node t) as Hin.
  { intros r Hr. assert (r ∈ rows br) as (_ & _ & ?)%rows_of_in by (rewrite HR; set_solver). done. }
  cbn [collect_nodes]. unfold FirstEventID. replace (1 - 1) with 0 by lia. unfold readRawHistoryBranch. rewrite Hs. simpl.
  rewrite Hc, Nat2Z.id, Hb, list_lookup_middle by done.
  replace (if EndNodeId br <? M then EndNodeId br else M) with (Z.min (EndNodeId br) M)
    by (destruct (Z.ltb_spec (EndNodeId br) M); lia).
  rewrite Hst, (read_page t _ _ _ _ _ P R Ht Hps HR). simpl. rewrite Hc, Nat2Z.id, list_lookup_middle by done.
  rewrite take_app_length. rewrite (insert_nodes_meta B1 br (take (Z.to_nat ps) R)).
  2: { intros r Hr. apply Hin. rewrite <- (take_drop (Z.to_nat ps) R). set_solver. }
  exists (map (meta B1 br) (take (Z.to_nat ps) R)), (map (meta B1 br) (drop (Z.to_nat ps) R) ++ metas (B1 ++ [br]) B2).
  split; [by rewrite app_assoc, <- map_app, take_drop|]. unfold serializeToken. simpl. case_decide as D.
  - rewrite drop_ge by lia. simpl. rewrite Hc, Hf. destruct B2 as [|br' B2].
    + left. split; [done|]. by rewrite (proj2 (Z.eqb_eq _ _)) by (simpl; lia).
    + right. rewrite (proj2 (Z.eqb_neq _ _)) by (simpl; lia). eexists _, _. split; [|split; [|done]].
      2: { exists (B1 ++ [br]), br', B2, B3, [], (rows br'). rewrite <- app_assoc, length_app. simpl. split_and!; try done; lia. }
      simpl. rewrite length_app. lia.
  - right. assert (token_of (P ++ take (Z.to_nat ps) R) ≠ None) as Hn.
    { unfold token_of. rewrite last_app. destruct (last (take (Z.to_nat ps) R)) eqn:L; [done|].
      apply last_None, (f_equal length) in L. rewrite length_take in L. simpl in L. lia. }
    destruct (token_of (P ++ take (Z.to_nat ps) R)) as [st|] eqn:Est; [|done].
    eexists _, _. split; [|split; [|done]].
    2: { exists B1, br, B2, B3, (P ++ take (Z.to_nat ps) R), (drop (Z.to_nat ps) R). rewrite <- app_assoc, take_drop. simpl.
         split_and!; try done. }
    rewrite length_drop. lia.
Qed.

Lemma collect_rest fuel n tk ms m :
  (n < fuel)%nat → collecting n tk ms →
  collect_nodes fuel t (all_ranges branch M) M ps (Some tk) m = Ok (foldl insert_meta m ms).
Proof.
  revert n tk ms m. induction fuel as [|fuel IH]; intros n tk ms m Hf Hc; [lia|].
  assert (start_token false (all_ranges branch M) 1 M (deserializeToken (Some tk) 0 defaultLastTransactionID) = Ok tk) as Hs.
  { destruct Hc as (B1 & br & B2 & B3 & P & R & _ & Hc & _). unfold start_token, notStartedIndex. simpl.
    by rewrite (proj2 (Z.eqb_neq _ _)) by lia. }
  destruct (collect_page fuel (Some tk) tk n ms m Hs Hc) as (ms1 & ms2 & -> & [[-> ->]|(tk' & n' & ? & Hc' & ->)]);
    [by rewrite app_nil_r|].
  rewrite (IH n' tk' ms2) by (done || lia). by rewrite foldl_app.
Qed.

Lemma metas_app pre l1 l2 : metas pre (l1 ++ l2) = metas pre l1 ++ metas (pre ++ l1) l2.
Proof.
  revert pre. induction l1 as [|br l1 IH]; intros pre; simpl; [by rewrite app_nil_r|]. by rewrite IH, <- !app_assoc.
Qed.

Lemma metas_in pre brs n :
  n ∈ metas pre brs ↔ ∃ l br k r, brs = l ++ br :: k ∧ r ∈ rows br ∧ n = meta (pre ++ l) br r.
Proof.
  revert pre. induction brs as [|x brs IH]; intros pre; simpl.
  - split; [by intros []%elem_of_nil|]. by intros ([] & ? & ? & ? & ? & _).
  - rewrite elem_of_app, IH, list_elem_of_fmap. split.
    + intros [(r & -> & Hr)|(l & br & k & r & -> & Hr & ->)].
      * exists [], x, brs, r. by rewrite app_nil_r.
      * exists (x :: l), br, k, r. by rewrite <- app_assoc.
    + intros ([|y l] & br & k & r & E & Hr & ->); simplify_eq/=; [left; exists r; by rewrite app_nil_r|].
      right. exists l, br, k, r. by rewrite <- app_assoc.
Qed.

Lemma metas_dead pre brs :
  Forall (dead 1 M) brs → (∀ br, br ∈ brs → br ∈ all_ranges branch M) → metas pre brs = [].
Proof.
  intros D. revert pre. induction D as [|br brs D F' IH]; intros pre Hin; [done|]. simpl.
  rewrite (rows_of_dead t branch [] holds_nothing 1 M br) by (done || set_solver). apply IH. set_solver.
Qed.

Lemma collect_all fuel r :
  r ∈ history_node t → owned branch r → 1 ≤ rowNodeID r < M →
  (length (history_node t) + length (Ancestors branch) < fuel)%nat →
  collect_nodes fuel t (all_ranges branch M) M ps None ∅ = Ok (foldl insert_meta ∅ (metas [] (all_ranges branch M))).
Proof.
  intros Hr Ho Hn Hf.
  assert (r ∈ concat (map rows (all_ranges branch M))) as Hcc by (by apply (concat_rows_in t branch [] Ht holds_nothing)).
  destruct (find_ranges_fresh 1 M 0 (all_ranges branch M) 0) as (B1 & br & B2 & B3 & Hb & Hfind & D1 & D3 & _); [done| | |].
  { by apply all_ranges_sorted. }
  { intros D. rewrite (concat_dead t branch [] Ht holds_nothing) in Hcc by done. by apply elem_of_nil in Hcc. }
  assert (∀ x, x ∈ B1 ∨ x ∈ B3 → x ∈ all_ranges branch M) as Hin by (rewrite Hb; set_solver).
  assert (metas [] (all_ranges branch M) = map (meta B1 br) (rows br) ++ metas (B1 ++ [br]) B2) as Hm.
  { rewrite Hb, metas_app. simpl. rewrite metas_app, (metas_dead _ B1), (metas_dead _ B3) by (done || naive_solver).
    by rewrite app_nil_r. }
  set (tk := mkPagingToken 0 None (Z.of_nat (length B1)) (Z.of_nat (length B1 + length B2)) defaultLastNodeID defaultLastTransactionID).
  set (n := (length (rows br) + length (concat (map rows B2)) + length B2)%nat).
  assert (n < fuel)%nat as Hnf.
  { assert (length (concat (map rows (all_ranges branch M))) ≤ length (history_node t))%nat as Hlen.
    { apply submseteq_length, NoDup_submseteq; [|by intros x (? & _)%(concat_rows_in t branch [] Ht holds_nothing)].
      by apply row_lt_NoDup, (concat_rows_sorted t branch [] Ht holds_nothing); [apply all_ranges_sorted|]. }
    rewrite Hb, map_app, concat_app in Hlen. simpl in Hlen. rewrite map_app, concat_app, !length_app in Hlen.
    apply (f_equal length) in Hb. rewrite all_ranges_eq, !length_app in Hb. simpl in Hb. rewrite length_app in Hb. unfold n. lia. }
  destruct fuel as [|fuel]; [lia|].
  destruct (collect_page fuel None tk n (metas [] (all_ranges branch M)) ∅) as (ms1 & ms2 & E & Hres).
  - unfold start_token. simpl. rewrite Hfind. simpl. rewrite (proj2 (Z.eqb_neq _ _)) by (unfold notStartedIndex; lia).
    unfold set_ranges. simpl. unfold tk. repeat f_equal. lia.
  - exists B1, br, B2, B3, [], (rows br). split_and!; done.
  - rewrite E. destruct Hres as [[-> ->]|(tk' & n' & ? & Hc & ->)]; [by rewrite app_nil_r|].
    rewrite (collect_rest fuel n' tk' ms2) by (done || lia). by rewrite foldl_app.
Qed.

(** *** The map of the collected nodes *)

Definition collected : gmap Z historyNodeMetadata := foldl insert_meta ∅ (metas [] (all_ranges branch M)).

Lemma metas_row n :
  n ∈ metas [] (all_ranges branch M) →
  ∃ l br k r, all_ranges branch M = l ++ br :: k ∧ r ∈ rows br ∧ n = meta l br r ∧ r ∈ history_node t ∧ owned branch r ∧ 1 ≤ rowNodeID r < M.
Proof.
  intros (l & br & k & r & E & Hr & ->)%metas_in. simpl. exists l, br, k, r. split_and!; try done;
    apply (concat_rows_in t branch [] Ht holds_nothing 1 M); apply list_elem_of_In, in_concat; exists (rows br);
    (split; [apply in_map, list_elem_of_In; rewrite E; set_solver|by apply list_elem_of_In]).
Qed.

(** Metadata with the same transaction is the same. *)
Lemma metas_inj n1 n2 :
  n1 ∈ metas [] (all_ranges branch M) → n2 ∈ metas [] (all_ranges branch M) → transactionID n1 = transactionID n2 → n1 = n2.
Proof.
  intros (l1 & br1 & k1 & r1 & E1 & Hr1 & -> & T1 & _ & _)%metas_row (l2 & br2 & k2 & r2 & E2 & Hr2 & -> & T2 & _ & _)%metas_row E.
  pose proof (Huniq r1 r2 T1 T2 E) as <-. clear E T2.
  pose proof (all_ranges_sorted branch M F) as S.
  assert (br1 ∈ all_ranges branch M ∧ br2 ∈ all_ranges branch M) as [B1 B2] by (split; [rewrite E1|rewrite E2]; set_solver).
  pose proof (range_rows_above t branch [] holds_nothing 1 M br1 r1 B1 Hr1).
  pose proof (range_rows_above t branch [] holds_nothing 1 M br2 r1 B2 Hr2).
  apply rows_of_in in Hr1 as (_ & ? & _), Hr2 as (_ & ? & _).
  assert (∀ (la lb ka kb : list HistoryBranchRange) xa xb, la ++ xa :: ka = lb ++ xb :: kb → (length la < length lb)%nat → xa ∈ lb) as Hpos.
  { intros la lb ka kb xa xb E L. apply (f_equal (.!! length la)) in E. rewrite list_lookup_middle, lookup_app_l in E by done.
    by apply (list_elem_of_lookup_2 lb (length la)). }
  rewrite E1 in E2. destruct (lt_eq_lt_dec (length l1) (length l2)) as [[L|L]|L].
  - pose proof (Hpos _ _ _ _ _ _ E2 L) as Hin. rewrite E1, E2 in S.
    destruct (StronglySorted_app_1_elem_of _ _ _ br1 br2 S Hin ltac:(by left)). lia.
  - apply app_inj_1 in E2 as [-> [= -> _]]; done.
  - pose proof (Hpos _ _ _ _ _ _ (eq_sym E2) L) as Hin. rewrite E1 in S.
    destruct (StronglySorted_app_1_elem_of _ _ _ br2 br1 S Hin ltac:(by left)). lia.
Qed.

Lemma collected_lookup x n : collected !! x = Some n ↔ n ∈ metas [] (all_ranges branch M) ∧ transactionID n = x.
Proof.
  unfold collected. assert (∀ ms m, (∀ n1 n2, n1 ∈ ms → n2 ∈ ms → transactionID n1 = transactionID n2 → n1 = n2) →
    foldl insert_meta m ms !! x = Some n ↔ (n ∈ ms ∧ transactionID n = x) ∨ m !! x = Some n ∧ ∀ k, k ∈ ms → transactionID k ≠ x) as Hg.
  { induction ms as [|k ms IH]; intros m Hinj; simpl.
    - split; [intros; right; split; [done|by intros ? []%elem_of_nil]|]. by intros [[[]%elem_of_nil _]|[? _]].
    - rewrite IH by (intros; apply Hinj; set_solver). unfold insert_meta. split.
      + intros [[? ?]|[L N]]; [left; set_solver|]. destruct (decide (transactionID k = x)) as [E|E].
        * subst x. rewrite lookup_insert_eq in L. injection L as <-. left. set_solver.
        * rewrite lookup_insert_ne in L by done. right. split; [done|]. intros k' [->|?]%elem_of_cons; [done|by apply N].
      + intros [[[->|Hn]%elem_of_cons E]|[L N]]; [|by left|].
        * destruct (decide (Exists (λ k', transactionID k' = x) ms)) as [(k' & Hk' & E')%Exists_exists|N].
          -- left. rewrite (Hinj k k') by (set_solver || congruence). done.
          -- right. subst x. rewrite lookup_insert_eq. split; [done|]. intros k' Hk' E'. apply N, Exists_exists. eauto.
        * right. rewrite lookup_insert_ne by (apply N; by left). split; [done|]. intros; apply N; by right. }
  rewrite Hg by apply metas_inj. split; [by intros [?|[?%lookup_empty_Some _]]|by left].
Qed.

(** ** Following the chain back *)

Definition represents (n : historyNodeMetadata) (r : HistoryNodeRow) : Prop :=
  nodeID n = rowNodeID r ∧ transactionID n = txn r ∧ prevTransactionID n = PrevTxnID r.

(** The rows of the branch up to the bound. *)
Definition visible (r : HistoryNodeRow) : Prop := r ∈ history_node t ∧ owned branch r ∧ 1 ≤ rowNodeID r < M.

Lemma visible_split r : visible r → ∃ l br k, all_ranges branch M = l ++ br :: k ∧ r ∈ rows br.
Proof.
  intros (Hr & Ho & Hn). assert (r ∈ concat (map rows (all_ranges branch M))) as Hc by (by apply (concat_rows_in t branch [] Ht holds_nothing)).
  apply list_elem_of_In, in_concat in Hc as (l & Hl & Hrl). apply in_map_iff in Hl as (br & <- & Hbr).
  apply list_elem_of_In in Hrl, Hbr. destruct (list_elem_of_split _ _ Hbr) as (l & k & ->). by exists l, br, k.
Qed.

Lemma collected_row r : visible r → ∃ n, collected !! txn r = Some n ∧ represents n r.
Proof.
  intros Hv. destruct (visible_split r Hv) as (l & br & k & E & Hr). exists (meta l br r). split; [|done].
  apply collected_lookup. split; [|done]. apply metas_in. by exists l, br, k, r.
Qed.

(** Each batch names the transaction of the one before it. *)
Fixpoint linked (prev : Z) (chain : list HistoryNodeRow) : Prop :=
  match chain with [] => True | r :: chain => PrevTxnID r = prev ∧ linked (txn r) chain end.

Lemma linked_snoc prev chain r :
  linked prev (chain ++ [r]) ↔ linked prev chain ∧ PrevTxnID r = from_option txn prev (last chain).
Proof.
  revert prev. induction chain as [|x chain IH]; intros prev; simpl; [tauto|]. rewrite IH.
  destruct chain as [|y chain]; [simpl; tauto|]. rewrite last_cons_cons.
  destruct (last (y :: chain)) eqn:E; [|by apply last_None in E]. simpl. tauto.
Qed.

Lemma link_chain chain r n fuel :
  contiguous 1 (chain ++ [r]) → linked 0 (chain ++ [r]) → (∀ c, c ∈ chain ++ [r] → visible c) →
  represents n r → (length chain < fuel)%nat →
  ∃ ns, link_back fuel collected n = Ok ns ∧ Forall2 represents ns (reverse (chain ++ [r])).
Proof.
  revert r n fuel. induction chain as [|q chain IH] using rev_ind; intros r n fuel Hc Hl Hv (En & Et & Ep) Hf;
    (destruct fuel as [|fuel]; [lia|]); simpl; rewrite En.
  - destruct Hc as (-> & _). destruct Hl as (Hp & _). simpl. rewrite Ep, Hp. simpl. exists [n]. split; [done|].
    rewrite reverse_singleton. by repeat constructor.
  - apply contiguous_app in Hc as [Hc Hr]. simpl in Hr. destruct Hr as (Hr & _).
    apply linked_snoc in Hl as [Hl Hp]. rewrite last_snoc in Hp. simpl in Hp.
    destruct (contiguous_nodes _ _ q Hc ltac:(set_solver)) as (? & ? & ?).
    rewrite (proj2 (Z.gtb_lt _ _)) by (unfold FirstEventID; lia). rewrite Ep, Hp.
    destruct (collected_row q) as (nq & -> & Hq); [apply Hv; set_solver|]. rewrite length_app in Hf. simpl in Hf.
    destruct (IH q nq fuel Hc Hl) as (ns & -> & Hns); [intros; apply Hv; set_solver|done|lia|].
    simpl. exists (n :: ns). split; [done|]. rewrite (reverse_snoc (chain ++ [q])). by constructor.
Qed.

(** ** The nodes to trim *)

Lemma take_larger_in x l n :
  StronglySorted txn_ge l → n ∈ take_larger x l ↔ n ∈ l ∧ x < transactionID n.
Proof.
  induction 1 as [|y l S IH Fl]; simpl; [split; [by intros []%elem_of_nil|by intros [[]%elem_of_nil _]]|].
  rewrite Forall_forall in Fl. destruct (Z.leb_spec (transactionID y) x).
  - split; [by intros []%elem_of_nil|]. intros [[->|Hn]%elem_of_cons ?]; [lia|]. specialize (Fl n Hn). unfold txn_ge in Fl. lia.
  - rewrite !elem_of_cons, IH. naive_solver.
Qed.

#[local] Instance txn_ge_trans : Transitive txn_ge.
Proof. intros x y z. unfold txn_ge. lia. Qed.

Lemma nodes_of_in id n : n ∈ nodes_of collected id ↔ n ∈ metas [] (all_ranges branch M) ∧ nodeID n = id.
Proof.
  unfold nodes_of. rewrite elem_of_order_by, list_elem_of_filter, list_elem_of_fmap. split.
  - intros [? ([x n'] & -> & Hx%elem_of_map_to_list)]. apply collected_lookup in Hx as [? _]. done.
  - intros [Hn ?]. split; [done|]. exists (transactionID n, n). split; [done|]. apply elem_of_map_to_list, collected_lookup. done.
Qed.

Lemma trim_in ns chain n :
  Forall2 represents ns chain →
  n ∈ trimNodes collected ns ↔ n ∈ metas [] (all_ranges branch M) ∧ ∃ c, c ∈ chain ∧ nodeID n = rowNodeID c ∧ txn c < transactionID n.
Proof.
  unfold trimNodes. induction 1 as [|v c ns chain (En & Et & _) Hns IH]; simpl.
  - split; [by intros []%elem_of_nil|by intros [_ (? & []%elem_of_nil & _)]].
  - rewrite elem_of_app, IH, take_larger_in, nodes_of_in, En, Et by (apply order_by_sorted; [apply _|unfold txn_ge; lia]).
    setoid_rewrite elem_of_cons. naive_solver.
Qed.

Lemma delete_nodes_ok t0 ns :
  (∀ n, n ∈ ns → GetBeginNodeID (branchInfo n) ≤ nodeID n) →
  ∃ t', delete_nodes t0 ns = Ok t' ∧ history_tree t' = history_tree t0 ∧
    ∀ r, r ∈ history_node t' ↔ r ∈ history_node t0 ∧
      ∀ n, n ∈ ns → ¬ (rowBranchID r = BranchId (branchInfo n) ∧ rowNodeID r = nodeID n ∧ TxnID r = neg64 (transactionID n)).
Proof.
  revert t0. induction ns as [|n ns IH]; intros t0 Hb; simpl.
  - exists t0. split_and!; try done. intros r. split; [intros; split; [done|by intros ? []%elem_of_nil]|by intros []].
  - unfold DeleteHistoryNodes_store. rewrite (proj2 (Z.ltb_ge _ _)) by (apply Hb; by left). simpl.
    destruct (IH (DeleteFromHistoryNode t0 (BranchId (branchInfo n)) (nodeID n) (transactionID n))) as (t' & -> & Htree & Hin);
      [intros; apply Hb; by right|].
    exists t'. split_and!; [done|done|]. intros r. rewrite Hin. unfold DeleteFromHistoryNode. simpl.
    rewrite list_elem_of_filter. rewrite !andb_false_iff, !Z.eqb_neq. split.
    + intros [[Hne Hr] Hns]. split; [done|]. intros n' [->|Hn']%elem_of_cons; [naive_solver|by apply Hns].
    + intros [Hr Hns]. split_and!; [|done|intros; apply Hns; by right]. specialize (Hns n ltac:(by left)).
      destruct (decide (rowBranchID r = BranchId (branchInfo n))), (decide (rowNodeID r = nodeID n)),
        (decide (TxnID r = neg64 (transactionID n))); naive_solver.
Qed.

Lemma all_ranges_begin l br k : all_ranges branch M = l ++ br :: k → BeginNodeId br = ranges_end 1 l.
Proof.
  rewrite all_ranges_eq, GetBeginNodeID_end. revert F. generalize 1. generalize (Ancestors branch). intros ans z. revert ans z.
  induction l as [|x l IH]; intros [|a ans] z Fz E; simplify_eq/=; try done; [by destruct Fz|by destruct l|].
  rewrite ranges_end_cons in *. apply (IH ans); [apply Fz|done].
Qed.

(** A row that would be read in the place of a batch of the chain. *)
Definition newer (chain : list HistoryNodeRow) (r : HistoryNodeRow) : Prop :=
  owned branch r ∧ ∃ c, c ∈ chain ∧ rowNodeID r = rowNodeID c ∧ txn c < txn r.

Lemma trim_nodes_delete ns chain :
  Forall2 represents ns chain → (∀ c, c ∈ chain → 1 ≤ rowNodeID c < M) →
  ∃ t', delete_nodes t (trimNodes collected ns) = Ok t' ∧ history_tree t' = history_tree t ∧
    ∀ r, r ∈ history_node t' ↔ r ∈ history_node t ∧ ¬ newer chain r.
Proof.
  intros Hns Hch. destruct (delete_nodes_ok t (trimNodes collected ns)) as (t' & Hd & Htree & Hin).
  { intros n [Hn _]%(trim_in ns chain n Hns). apply metas_row in Hn as (l & br & k & r & E & Hr & -> & _ & _ & _). simpl.
    rewrite GetBeginNodeID_end. simpl. rewrite <- (all_ranges_begin l br k E).
    apply (range_rows_above t branch [] holds_nothing 1 M br r); [rewrite E; set_solver|done]. }
  exists t'. split_and!; [done|done|]. intros r. rewrite Hin. split; intros [Hr Hn]; (split; [done|]).
  - intros (Ho & c & Hc & En & Hlt). specialize (Hch c Hc).
    destruct (visible_split r) as (l & br & k & E & Hrb); [split; [done|split; [done|by rewrite En]]|].
    apply (Hn (meta l br r)).
    + apply (trim_in ns chain _ Hns). split; [apply metas_in; by exists l, br, k, r|]. by exists c.
    + apply rows_of_in in Hrb as (? & _ & _). simpl. split_and!; [done|done|].
      pose proof (ok_txns _ Ht r Hr). unfold txn in *. rewrite neg64_id by (int_bounds; lia). lia.
  - intros n Hnt (Eb & En & Et). apply (trim_in ns chain n Hns) in Hnt as [Hm (c & Hc & Ec & Hlt)].
    apply metas_row in Hm as (l & br & k & r' & E & Hr' & -> & Hrt & Ho & _). simpl in *.
    assert (r = r') as ->; [|apply Hn; split; [done|]; exists c; split_and!; congruence || lia].
    apply Huniq; [done|done|]. pose proof (ok_txns _ Ht r' Hrt). unfold txn in *. rewrite neg64_id in Et by (int_bounds; lia). lia.
Qed.
End trim.

Lemma chain_lt_NoDup `{EventSerializer} l : StronglySorted chain_lt l → NoDup l.
Proof.
  induction 1 as [|x l S IH F]; [constructor|]. constructor; [|done]. intros Hx.
  rewrite Forall_forall in F. specialize (F x Hx). unfold chain_lt in F. lia.
Qed.

Lemma chain_node_inj `{EventSerializer} l c c' :
  StronglySorted chain_lt l → c ∈ l → c' ∈ l → rowNodeID c = rowNodeID c' → c = c'.
Proof.
  induction 1 as [|x l S IH F]; [by intros []%elem_of_nil|]. rewrite Forall_forall in F.
  intros [->|Hc]%elem_of_cons [->|Hc']%elem_of_cons E; [done| | |by apply IH].
  - destruct (F c' Hc'). lia.
  - destruct (F c Hc). lia.
Qed.

(** C17 Trimming keeps the committed chain and deletes exactly what hides it.  In tables where no
    two rows have the same transaction, and given a chain of contiguous batches, each naming
    the transaction of the one before it, trimming from its last batch ends without an error
    or a panic, deletes of the branch's rows exactly those that are newer than the batch of
    the chain at their node, and nothing else.  If the branch's other rows below the end of
    the chain start where batches of the chain start, the branch holds the chain from then
    on, so that it is what reading it returns. *)
Theorem trim_restores_chain `{EventSerializer} t branch chain tail fuel
    (Ht : tables_ok t) (F : ranges_from 1 (Ancestors branch)) (Habove : rows_above t branch)
    (Huniq : ∀ r1 r2, r1 ∈ history_node t → r2 ∈ history_node t → txn r1 = txn r2 → r1 = r2)
    (Hc : contiguous 1 (chain ++ [tail])) (Hl : linked 0 (chain ++ [tail])) (Hs : StronglySorted chain_lt (chain ++ [tail]))
    (Hin : ∀ c, c ∈ chain ++ [tail] → c ∈ history_node t ∧ owned branch c) (HN : rowNodeID tail < MaxInt64)
    (Hf : (length (history_node t) + length (Ancestors branch) < fuel)%nat) :
  ∃ t', TrimHistoryBranch fuel t branch (rowNodeID tail) (txn tail) = Ok t' ∧ history_tree t' = history_tree t ∧
    (∀ r, r ∈ history_node t' ↔ r ∈ history_node t ∧ ¬ newer branch (chain ++ [tail]) r) ∧
    ((∀ r, r ∈ history_node t → owned branch r → rowNodeID r < chain_end 1 (chain ++ [tail]) →
        ∃ c, c ∈ chain ++ [tail] ∧ rowNodeID r = rowNodeID c) →
     holds t' branch (chain ++ [tail])).
Proof.
  set (M := rowNodeID tail + 1). assert (0 < trimHistoryBranchPageSize) as Hps by done.
  assert (∀ c, c ∈ chain ++ [tail] → 1 ≤ rowNodeID c < M) as Hnodes.
  { intros c Hcc. destruct (contiguous_nodes _ _ _ Hc Hcc) as (? & _ & _). split; [done|]. unfold M.
    apply elem_of_app in Hcc as [Hcc | ->%list_elem_of_singleton]; [|lia].
    pose proof (StronglySorted_app_1_elem_of _ _ _ c tail Hs Hcc ltac:(by left)) as [? _]. lia. }
  assert (∀ c, c ∈ chain ++ [tail] → visible t branch M c) as Hv by (intros c Hcc; destruct (Hin c Hcc); split; [done|split; [done|by apply Hnodes]]).
  destruct (Hv tail ltac:(set_solver)) as (Htt & Hto & Htn).
  assert (length (chain ++ [tail]) ≤ length (history_node t))%nat as Hlen.
  { apply submseteq_length, NoDup_submseteq; [by apply chain_lt_NoDup|]. intros c Hcc. by apply Hin. }
  rewrite length_app in Hlen. simpl in Hlen.
  destruct (collected_row t Ht branch F Habove Huniq M _ Hps tail (Hv tail ltac:(set_solver))) as (n & Hn & Hrep).
  destruct (link_chain t Ht branch F Habove Huniq M _ Hps chain tail n fuel Hc Hl Hv Hrep ltac:(lia)) as (ns & Hlink & Hns).
  destruct (trim_nodes_delete t Ht branch F Habove Huniq M _ Hps ns (reverse (chain ++ [tail])) Hns) as (t' & Hd & Htree & Hrows).
  { intros c Hcc. rewrite elem_of_reverse in Hcc. by apply Hnodes. }
  assert (∀ r, newer branch (reverse (chain ++ [tail])) r ↔ newer branch (chain ++ [tail]) r) as Hnew.
  { intros r. unfold newer. by setoid_rewrite elem_of_reverse. }
  exists t'. split_and!; [|done|intros r; by rewrite Hrows, Hnew|].
  - unfold TrimHistoryBranch. rewrite wrap64_id by (int_bounds; lia). fold M.
    rewrite (collect_all t Ht branch F Habove Huniq M _ Hps fuel tail Htt Hto Htn Hf). simpl.
    fold (collected t branch M). unfold validateNodeChainAndTrim, reverselyLinkNode. rewrite Hn.
    destruct Hrep as (-> & _ & _). rewrite Z.eqb_refl. simpl. rewrite Hlink. simpl. done.
  - intros Hal. split; try done.
    + intros r [Hr _]%Hrows. by apply Habove.
    + intros c Hcc. destruct (Hin c Hcc) as [Hct Hco]. split; [|done]. apply Hrows. split; [done|].
      rewrite Hnew. intros (_ & c' & Hc' & En & Hlt).
      rewrite (chain_node_inj _ c c' Hs Hcc Hc' En) in Hlt. lia.
    + intros r [Hr Hnn]%Hrows Ho. rewrite Hnew in Hnn.
      destruct (decide (chain_end 1 (chain ++ [tail]) ≤ rowNodeID r)); [by right; left|].
      destruct (Hal r Hr Ho ltac:(lia)) as (c & Hcc & En). destruct (Z.lt_trichotomy (txn r) (txn c)) as [L|[E|L]].
      * right; right. exists c. destruct (contiguous_nodes _ _ _ Hc Hcc) as (_ & ? & _). split_and!; [done|lia..].
      * left. rewrite (Huniq r c Hr) by (done || by apply Hin). done.
      * exfalso. apply Hnn. split; [done|]. by exists c.
Qed.

(** A branch whose last batch was written twice, the newer write not being committed. *)
#[local] Existing Instance plain_serializer.
Definition hidden_tables : tables :=
  mkTables [sample_row 1 3 10 40 [3; 4; 5]; sample_row 1 3 10 30 [3; 4]; sample_row 1 1 0 10 [1; 2]] [root_branch].
Definition hidden_chain : list HistoryNodeRow := [sample_row 1 1 0 10 [1; 2]; sample_row 1 3 10 30 [3; 4]].

Lemma trim_restores_chain_witness :
  ∃ t', TrimHistoryBranch 9 hidden_tables root_branch 3 30 = Ok t' ∧ holds t' root_branch hidden_chain.
Proof.
  destruct (trim_restores_chain hidden_tables root_branch [sample_row 1 1 0 10 [1; 2]] (sample_row 1 3 10 30 [3; 4]) 9)
    as (t' & Et & _ & _ & Hh).
  - split; [by_decide|]. intros r Hr. simpl in Hr. each_row Hr; unfold txn; simpl; int_bounds; lia.
  - done.
  - intros r Hr. split; [by intros br []%elem_of_nil|]. simpl in Hr. each_row Hr; unfold GetBeginNodeID; simpl; lia.
  - intros r1 r2 H1 H2. simpl in H1, H2. each_row H1; each_row H2; unfold txn; simpl; lia || done.
  - simpl. unfold good_batch, row_end; simpl. split_and!; reflexivity || done.
  - simpl. done.
  - repeat constructor; unfold txn; simpl; lia.
  - intros c Hc. simpl in Hc. each_row Hc; (split; [simpl; in_list|]); right; unfold GetBeginNodeID; simpl; lia.
  - simpl. int_bounds. lia.
  - simpl. lia.
  - exists t'. split; [exact Et|]. apply Hh. intros r Hr _ _. simpl in Hr.
    each_row Hr; first [exists (sample_row 1 3 10 30 [3; 4]); split; [by in_list|reflexivity]
                       |exists (sample_row 1 1 0 10 [1; 2]); split; [by in_list|reflexivity]].
Defined.
