(* ===== verification/FairLevel.v ===== *)
(** * Levels of fair tasks: [service/matching/fair_level.go], [backlog_age_tracker.go]

    A fair task queue orders its tasks by a pair of a pass and a task id.  The file has the
    levels with their order, the ordered map of the [gods] library as far as the reader
    uses it (a finite map listed in the order of its keys), the tasks themselves and the
    tracker of the age of a backlog. *)
From S2P Require Import Prelude.
Local Open Scope Z_scope.

Record fairLevel := mkLevel { pass : Z; lid : Z }.

#[export] Instance fairLevel_eq_dec : EqDecision fairLevel.
Proof. solve_decision. Defined.
#[export] Instance fairLevel_countable : Countable fairLevel.
Proof.
  refine (inj_countable' (λ a, (pass a, lid a)) (λ p, mkLevel p.1 p.2) _).
  by intros [].
Defined.

Definition zeroLevel : fairLevel := mkLevel 0 0.
Definition less (a b : fairLevel) : bool := (pass a <? pass b) || ((pass a =? pass b) && (lid a <? lid b)).
Definition level_max (a b : fairLevel) : fairLevel := if less a b then b else a.
Definition inc (a : fairLevel) : fairLevel := mkLevel (pass a) (lid a + 1).

(** [None] is the nil message. *)
Definition fairLevelFromProto (l : option fairLevel) : fairLevel := default zeroLevel l.
Definition toProto (a : fairLevel) : option fairLevel := if bool_decide (a = zeroLevel) then None else Some a.

(** ** Tasks *)

(** The parts of an [AllocatedTaskInfo] the backlog looks at; times are in nanoseconds and
    [None] where the message has none. [task_data] is the rest. *)
Record AllocatedTaskInfo := mkTask {
  TaskPass : Z; TaskId : Z; CreateTime : option Z; ExpiryTime : option Z; task_data : nat }.

#[export] Instance AllocatedTaskInfo_eq_dec : EqDecision AllocatedTaskInfo.
Proof. solve_decision. Defined.

Definition fairLevelFromAllocatedTask (t : AllocatedTaskInfo) : fairLevel := mkLevel (TaskPass t) (TaskId t).

(** [expiry.Unix() > 0] in whole seconds; a missing expiry is the zero time, before the epoch. *)
Definition IsTaskExpired (now : Z) (t : AllocatedTaskInfo) : bool :=
  match ExpiryTime t with
  | None => false
  | Some expiry => (expiry / 1000000000 >? 0) && (expiry <? now)
  end.

(** ** The ordered map *)

Definition level_ord {V} (p q : fairLevel * V) : Prop := less q.1 p.1 = false.
#[export] Instance level_ord_dec {V} : RelDecision (@level_ord V).
Proof. intros p q. unfold level_ord. apply _. Defined.

Definition tree_list {V} (m : gmap fairLevel V) : list (fairLevel * V) := merge_sort level_ord (map_to_list m).
Definition tree_Min {V} (m : gmap fairLevel V) : option (fairLevel * V) := head (tree_list m).

(** ** The age of the backlog *)

Definition backlogAgeTracker := gmap Z Z.

(** A count never goes below zero, and a time without tasks is not kept. *)
Definition record (b : backlogAgeTracker) (ts : option Z) (delta : Z) : backlogAgeTracker :=
  match ts with
  | None => b
  | Some createTime =>
      let count := Z.max 0 (delta + default 0 (b !! createTime)) in
      if count =? 0 then delete createTime b else <[createTime := count]> b
  end.

(** [None] is the zero time. *)
Definition oldestTime (b : backlogAgeTracker) : option Z :=
  match map_to_list b with
  | [] => None
  | (t, _) :: l => Some (foldl (λ m p, Z.min m p.1) t l)
  end.

(** ** The order *)

Definition level_lt (a b : fairLevel) : Prop := pass a < pass b ∨ pass a = pass b ∧ lid a < lid b.
Definition level_le (a b : fairLevel) : Prop := pass a < pass b ∨ pass a = pass b ∧ lid a ≤ lid b.
Declare Scope level_scope.
Delimit Scope level_scope with level.
Infix "<l" := level_lt (at level 70) : level_scope.
Infix "≤l" := level_le (at level 70) : level_scope.
Open Scope level_scope.

Ltac level_lia := unfold level_lt, level_le in *; simpl in *; lia.

Lemma less_spec a b : less a b = true ↔ a <l b.
Proof. unfold less, level_lt. rewrite orb_true_iff, andb_true_iff, !Z.ltb_lt, Z.eqb_eq. done. Qed.
Lemma less_false a b : less a b = false ↔ b ≤l a.
Proof. rewrite <- not_true_iff_false, less_spec. level_lia. Qed.
Lemma level_le_antisym a b : a ≤l b → b ≤l a → a = b.
Proof. destruct a, b. intros. f_equal; level_lia. Qed.
Lemma level_le_eq a b : a ≤l b ↔ a <l b ∨ a = b.
Proof.
  split; [|intros [?| ->]; level_lia]. intros H. destruct (less a b) eqn:E; [left; by apply less_spec|].
  right. apply level_le_antisym; [done|]. by apply less_false.
Qed.
Lemma level_max_spec a b : level_max a b = b ∧ a <l b ∨ level_max a b = a ∧ b ≤l a.
Proof. unfold level_max. destruct (less a b) eqn:E; [apply less_spec in E; by left|apply less_false in E; by right]. Qed.
Lemma proto_roundtrip a : fairLevelFromProto (toProto a) = a.
Proof. unfold toProto. by case_bool_decide as E. Qed.

(** ** Laws of the ordered map *)

Section tree.
Context {V : Type}.
Implicit Types m : gmap fairLevel V.
Definition keys_lt (p q : fairLevel * V) : Prop := p.1 <l q.1.

Lemma elem_of_tree_list m k v : (k, v) ∈ tree_list m ↔ m !! k = Some v.
Proof. unfold tree_list. by rewrite merge_sort_Permutation, elem_of_map_to_list. Qed.

Lemma tree_list_sorted m : StronglySorted keys_lt (tree_list m).
Proof.
  assert (StronglySorted level_ord (tree_list m)) as S.
  { apply Sorted_StronglySorted; [intros x y z; unfold level_ord; rewrite !less_false; level_lia|].
    apply Sorted_merge_sort. intros x y. unfold level_ord. rewrite !less_false. level_lia. }
  assert (NoDup (fst <$> tree_list m)) as N.
  { unfold tree_list. rewrite merge_sort_Permutation. apply NoDup_fst_map_to_list. }
  induction S as [|p l S IH F]; [constructor|]. rewrite fmap_cons, NoDup_cons in N. destruct N as [Np N].
  constructor; [by apply IH|]. rewrite Forall_forall in *. intros q Hq. specialize (F q Hq).
  unfold level_ord in F. apply less_false, level_le_eq in F as [?|E]; [done|].
  exfalso. apply Np. rewrite E. by apply list_elem_of_fmap_2.
Qed.

Lemma tree_Min_spec m k v : tree_Min m = Some (k, v) → m !! k = Some v ∧ ∀ k' v', m !! k' = Some v' → k ≤l k'.
Proof.
  unfold tree_Min. pose proof (tree_list_sorted m) as S. destruct (tree_list m) as [|p l] eqn:E; [done|].
  intros [= ->]. split; [apply elem_of_tree_list; rewrite E; by left|].
  intros k' v' Hk. apply elem_of_tree_list in Hk. rewrite E in Hk.
  apply StronglySorted_inv in S as [_ F]. rewrite Forall_forall in F.
  apply elem_of_cons in Hk as [[= -> ->]|Hk]; [level_lia|]. apply F in Hk. unfold keys_lt in Hk. level_lia.
Qed.
Lemma tree_Min_None m : tree_Min m = None ↔ m = ∅.
Proof.
  unfold tree_Min. split.
  - intros E. apply map_empty. intros k. destruct (m !! k) as [v|] eqn:Ek; [|done].
    apply elem_of_tree_list in Ek. destruct (tree_list m); [by apply not_elem_of_nil in Ek|done].
  - intros ->. unfold tree_list. by rewrite map_to_list_empty.
Qed.

(** Cutting the listing at a length cuts the map at a level. *)
Lemma tree_list_cut m n :
  let kept := take n (tree_list m) in let rest := drop n (tree_list m) in
  ∀ p q, p ∈ kept → q ∈ rest → p.1 <l q.1.
Proof.
  simpl. pose proof (tree_list_sorted m) as S. rewrite <- (take_drop n (tree_list m)) in S.
  intros p q Hp Hq. apply (StronglySorted_app_1_elem_of keys_lt _ _ p q S Hp Hq).
Qed.
Lemma tree_list_last m n p q : last (take n (tree_list m)) = Some p → q ∈ take n (tree_list m) → q.1 ≤l p.1.
Proof.
  pose proof (tree_list_sorted m) as S. rewrite <- (take_drop n (tree_list m)) in S. apply StronglySorted_app_1_l in S.
  intros (l & E)%last_Some. rewrite E in *. intros [Hq|Hq%list_elem_of_singleton]%elem_of_app; [|subst; level_lia].
  pose proof (StronglySorted_app_1_elem_of keys_lt l [p] q p S Hq) as Hlt.
  assert (keys_lt q p) as K by (apply Hlt; by left). unfold keys_lt in K. level_lia.
Qed.
End tree.
