(* ===== verification/FairCounter.v ===== *)
(** * Pass counters: [service/matching/counter]

    The writer of a fair task queue gives each task a pass: for tasks of one fairness key the
    passes are at least a stride apart, and no pass is below the base it asks for.
    [Counter] is what it relies on; the three counters of the package are its instances: a
    map, a count-min sketch, and a map that turns into a sketch when it has too many keys.

    The hash of a key ([maphash.String] of Go's library) and the source of seeds are
    parameters, and so are the two results of floating-point arithmetic, whether the skip
    rate is below its threshold and the scaled width. *)
From S2P Require Import Prelude.
Local Open Scope Z_scope.

(** ** The interface ([counter.go]) *)

(** [None] is a panic.  [counter_ok] is what a counter keeps true between calls. *)
Class Counter (C : Type) := {
  GetPass : C → string → Z → Z → option (Z * C);
  counter_ok : C → Prop;
  GetPass_ok : ∀ c key base inc, counter_ok c →
    ∃ p c', GetPass c key base inc = Some (p, c') ∧ base ≤ p ∧ counter_ok c' }.

(** ** The map ([map.go]) *)

Definition mapCounter := gmap string Z.

Definition map_GetPass (m : mapCounter) (key : string) (base inc : Z) : option (Z * mapCounter) :=
  let c := Z.max base (wrap64 (default 0 (m !! key) + inc)) in
  Some (c, <[key := c]> m).

(** ** The sketch ([cmsketch.go]) *)

Definition uint32 (z : Z) : Z := z mod 2 ^ 32.
Definition uint64 (z : Z) : Z := z mod 2 ^ 64.

(** Go's [bits.RotateLeft64]. *)
Definition RotateLeft64 (x k : Z) : Z :=
  let s := Z.land k 63 in uint64 (Z.lor (Z.shiftl x s) (Z.shiftr x (64 - s))).

Definition mix (x y : Z) : Z :=
  let result := uint32 (0xca01f9dd * x - 0x4973f715 * y) in
  Z.lxor result (Z.shiftr result 16).

Record cmSketch := mkSketch {
  sketchW : Z; sketchD : nat; seed0 : Z; seeds : list Z; cells : list Z; skips : Z; incs : Z }.

Definition hash_index (w h0 : Z) (i : nat) (seed : Z) : Z :=
  let h1 := RotateLeft64 h0 (Z.of_nat i * 39) in
  let h2l := mix (uint32 h1) (uint32 seed) in
  let h2h := mix (uint32 (Z.shiftr h1 32)) (uint32 (Z.shiftr seed 32)) in
  let h3 := mix h2l h2h in
  Z.of_nat i * w + Z.shiftr (uint64 (h3 * w)) 32.

Definition getByIndexes (cells : list Z) (indexes : list Z) : option Z :=
  foldl (λ acc idx, minVal ← acc; v ← cells !! Z.to_nat idx; Some (Z.min minVal v)) (Some MaxInt64) indexes.

Definition ensure_one (target : Z) (acc : option (list Z * Z)) (idx : Z) : option (list Z * Z) :=
  '(cells, skips) ← acc; v ← cells !! Z.to_nat idx;
  if v <? target then Some (<[Z.to_nat idx := target]> cells, skips) else Some (cells, skips + 1).
Definition ensureByIndexes (cells : list Z) (indexes : list Z) (target : Z) : option (list Z * Z) :=
  foldl (ensure_one target) (Some (cells, 0)) indexes.

Section counters.
(** [threshold0], [ratio0]: whether the growth parameters are zero. *)
Context (maphash : Z → string → Z) (nextSeed : Z → Z) (skipRateDecay maxW : Z) (threshold0 ratio0 : bool)
  (skipRateBelow : Z → Z → nat → bool) (scaledW : Z → Z).

Definition NewCMSketchCounter (w : Z) (d : nat) (seed : Z) (src : nat → Z) : cmSketch :=
  let d := Nat.max 2 d in let w := Z.max 2 w in
  mkSketch w d seed (map src (seq 0 d)) (replicate (Z.to_nat w * d) 0) 0 0.

Definition fillIndexes (s : cmSketch) (k : string) : list Z :=
  imap (hash_index (sketchW s) (maphash (seed0 s) k)) (seeds s).

Definition maybeGrow (s : cmSketch) : cmSketch :=
  if threshold0 || ratio0 || (sketchW s >=? maxW) || skipRateBelow (skips s) (incs s) (sketchD s) then s
  else let w := Z.min (scaledW (sketchW s)) maxW in
       mkSketch w (sketchD s) (nextSeed (seed0 s)) (seeds s) (replicate (Z.to_nat w * sketchD s) 0) 0 0.

Definition cms_GetPass (s : cmSketch) (key : string) (base inc : Z) : option (Z * cmSketch) :=
  if inc <? 0 then Some (base, s)
  else
    let indexes := fillIndexes s key in
    current ← getByIndexes (cells s) indexes;
    let p := Z.max base (wrap64 (current + inc)) in
    '(cs, skipped) ← ensureByIndexes (cells s) indexes p;
    let s := mkSketch (sketchW s) (sketchD s) (seed0 s) (seeds s) cs (skips s + skipped) (incs s + 1) in
    let s := if incs s >? Z.max 1000 skipRateDecay
             then let s := maybeGrow s in
                  mkSketch (sketchW s) (sketchD s) (seed0 s) (seeds s) (cells s) (Z.shiftr (skips s) 1) (Z.shiftr (incs s) 1)
             else s in
    Some (p, s).

(** ** The hybrid ([hybrid.go]) *)

Context (mapLimit cmsW : Z) (cmsD : nat) (makeSeed : Z) (src : nat → Z).

Inductive hybridCounter := HMap (m : mapCounter) | HSketch (s : cmSketch).

(** Go visits the map in an order of its own; no law below depends on it. *)
Definition migrateToCMS (m : mapCounter) : option cmSketch :=
  foldl (λ acc kv, cms ← acc; '(_, cms) ← cms_GetPass cms kv.1 kv.2 0; Some cms)
    (Some (NewCMSketchCounter cmsW cmsD makeSeed src)) (map_to_list m).

Definition hybrid_GetPass (h : hybridCounter) (key : string) (base inc : Z) : option (Z * hybridCounter) :=
  match h with
  | HMap m =>
      '(p, m) ← map_GetPass m key base inc;
      if Z.of_nat (size m) >? mapLimit then s ← migrateToCMS m; Some (p, HSketch s) else Some (p, HMap m)
  | HSketch s => '(p, s) ← cms_GetPass s key base inc; Some (p, HSketch s)
  end.
Definition NewHybridCounter : hybridCounter := HMap ∅.

(** ** Laws of the sketch *)

Lemma mix_range x y : 0 ≤ mix x y < 2 ^ 32.
Proof.
  unfold mix. pose proof (Z.mod_pos_bound (0xca01f9dd * x - 0x4973f715 * y) (2 ^ 32)) as B.
  fold (uint32 (0xca01f9dd * x - 0x4973f715 * y)) in B. set (r := uint32 _) in *.
  assert (0 ≤ Z.shiftr r 16 < 2 ^ 32) as B2.
  { rewrite Z.shiftr_div_pow2 by lia. split; [apply Z.div_pos; lia|]. apply Z.div_lt_upper_bound; lia. }
  split; [apply Z.lxor_nonneg; lia|].
  destruct (Z.eq_dec (Z.lxor r (Z.shiftr r 16)) 0) as [->|N]; [lia|].
  assert (0 ≤ Z.lxor r (Z.shiftr r 16)) by (apply Z.lxor_nonneg; lia).
  apply Z.log2_lt_pow2; [lia|]. eapply Z.le_lt_trans; [apply Z.log2_lxor; lia|].
  assert (∀ z, 0 ≤ z < 2 ^ 32 → Z.log2 z < 32) as L.
  { intros z Hz. destruct (Z.eq_dec z 0) as [->|]; [done|]. apply Z.log2_lt_pow2; lia. }
  apply Z.max_lub_lt; apply L; lia.
Qed.

Definition sketch_ok (s : cmSketch) : Prop :=
  0 < sketchW s ∧ length (seeds s) = sketchD s ∧ length (cells s) = (Z.to_nat (sketchW s) * sketchD s)%nat.

Lemma hash_index_range w h0 i seed d : 0 < w → (i < d)%nat → 0 ≤ hash_index w h0 i seed < w * Z.of_nat d.
Proof.
  intros Hw Hi. unfold hash_index. set (h3 := mix _ (mix _ _)). pose proof (mix_range (mix (uint32 (RotateLeft64 h0 (Z.of_nat i * 39)))
    (uint32 seed)) (mix (uint32 (Z.shiftr (RotateLeft64 h0 (Z.of_nat i * 39)) 32)) (uint32 (Z.shiftr seed 32)))) as B. fold h3 in B.
  assert (0 ≤ Z.shiftr (uint64 (h3 * w)) 32 < w) as R.
  { unfold uint64. pose proof (Z.mod_pos_bound (h3 * w) (2 ^ 64)). pose proof (Z.mod_le (h3 * w) (2 ^ 64)).
    rewrite Z.shiftr_div_pow2 by lia. split; [apply Z.div_pos; lia|]. apply Z.div_lt_upper_bound; nia. }
  nia.
Qed.

Definition in_cells (cs : list Z) (idx : Z) : Prop := (Z.to_nat idx < length cs)%nat.

Lemma fillIndexes_in s k : sketch_ok s → Forall (in_cells (cells s)) (fillIndexes s k).
Proof.
  intros (Hw & Hd & Hc). apply Forall_forall. intros idx. unfold fillIndexes.
  rewrite elem_of_lookup_imap. intros (i & seed & -> & Hi). apply lookup_lt_Some in Hi.
  pose proof (hash_index_range (sketchW s) (maphash (seed0 s) k) i seed (sketchD s) Hw) as R. unfold in_cells. rewrite Hc. lia.
Qed.

(** The minimum of the cells of the indexes, as a greatest lower bound. *)
Lemma getByIndexes_glb cs idxs v0 :
  Forall (in_cells cs) idxs →
  ∃ v, foldl (λ acc idx, minVal ← acc; v ← cs !! Z.to_nat idx; Some (Z.min minVal v)) (Some v0) idxs = Some v ∧
    ∀ b, b ≤ v ↔ b ≤ v0 ∧ ∀ idx c, idx ∈ idxs → cs !! Z.to_nat idx = Some c → b ≤ c.
Proof.
  revert v0. induction idxs as [|i idxs IH]; intros v0 F.
  - exists v0. split; [done|]. intros b. split; [|by intros [? _]]. split; [done|]. intros ? ? Hx. by apply not_elem_of_nil in Hx.
  - apply Forall_cons in F as [Hi F]. destruct (lookup_lt_is_Some_2 cs (Z.to_nat i) Hi) as [c Ec].
    destruct (IH (Z.min v0 c) F) as (v & E & G). exists v. simpl. rewrite Ec. split; [exact E|].
    intros b. rewrite G. split.
    + intros [? H]. split; [lia|]. intros idx c' [->|Hx]%elem_of_cons Ec'; [|by eapply H]. rewrite Ec in Ec'. injection Ec' as <-. lia.
    + intros [? H]. split; [|intros; eapply H; [by right|done]]. pose proof (H i c ltac:(by left) Ec). lia.
Qed.

Lemma ensureByIndexes_raise cs idxs target n :
  Forall (in_cells cs) idxs →
  ∃ cs' n', foldl (ensure_one target) (Some (cs, n)) idxs = Some (cs', n') ∧ length cs' = length cs ∧
    ∀ j c, cs !! j = Some c → ∃ c', cs' !! j = Some c' ∧ c ≤ c' ≤ Z.max c target ∧
      ((∃ idx, idx ∈ idxs ∧ Z.to_nat idx = j) → target ≤ c').
Proof.
  revert cs n. induction idxs as [|i idxs IH]; intros cs n F.
  - exists cs, n. split_and!; [done..|]. intros j c E. exists c. split_and!; [done|lia|lia|].
    intros (? & Hx & _). by apply not_elem_of_nil in Hx.
  - apply Forall_cons in F as [Hi F]. destruct (lookup_lt_is_Some_2 cs (Z.to_nat i) Hi) as [c0 Ec].
    set (cs1 := if c0 <? target then <[Z.to_nat i := target]> cs else cs).
    assert (length cs1 = length cs) as L1 by (unfold cs1; case_match; [apply length_insert|done]).
    assert (Forall (in_cells cs1) idxs) as F1 by (eapply Forall_impl; [exact F|]; unfold in_cells; simpl; by rewrite L1).
    assert (∃ n1, ensure_one target (Some (cs, n)) i = Some (cs1, n1)) as [n1 E1].
    { unfold ensure_one, cs1. simpl. rewrite Ec. simpl. case_match; eauto. }
    cbn [foldl]. rewrite E1. clear E1.
    destruct (IH cs1 n1 F1) as (cs' & n' & E & L & H). exists cs', n'. split; [exact E|]. split; [lia|].
    intros j c Ej. assert (∃ c1, cs1 !! j = Some c1 ∧ c ≤ c1 ≤ Z.max c target ∧ (Z.to_nat i = j → target ≤ c1)) as (c1 & E1 & B1 & T1).
    { unfold cs1. destruct (Z.ltb_spec c0 target).
      - destruct (decide (Z.to_nat i = j)) as [<-|N].
        + rewrite Ec in Ej. injection Ej as ->. exists target. rewrite list_lookup_insert_eq by done. split_and!; [done|lia..].
        + exists c. rewrite list_lookup_insert_ne by done. split_and!; [done|lia..].
      - exists c. split_and!; [done|lia..|]. intros <-. rewrite Ec in Ej. injection Ej as ->. lia. }
    destruct (H j c1 E1) as (c' & E' & B' & T'). exists c'. split_and!; [done|lia|lia|].
    intros (idx & [->|Hx]%elem_of_cons & Ej'); [specialize (T1 Ej'); lia|]. apply T'. eauto.
Qed.

(** ** What a counter holds for a key *)

Definition sketch_estimate (s : cmSketch) (k : string) : Z := default 0 (getByIndexes (cells s) (fillIndexes s k)).
Definition estimate (h : hybridCounter) (k : string) : Z :=
  match h with HMap m => default 0 (m !! k) | HSketch s => sketch_estimate s k end.
Definition sketch_within (T : Z) (s : cmSketch) : Prop := sketch_ok s ∧ (2 ≤ sketchD s)%nat ∧ Forall (λ c, 0 ≤ c ≤ T) (cells s).
Definition within (T : Z) (h : hybridCounter) : Prop :=
  match h with HMap m => map_Forall (λ _ c, 0 ≤ c ≤ T) m | HSketch s => sketch_within T s end.

Lemma sketch_estimate_glb s k : sketch_ok s →
  getByIndexes (cells s) (fillIndexes s k) = Some (sketch_estimate s k) ∧
  ∀ b, b ≤ sketch_estimate s k ↔
    b ≤ MaxInt64 ∧ ∀ idx c, idx ∈ fillIndexes s k → cells s !! Z.to_nat idx = Some c → b ≤ c.
Proof.
  intros Hs. unfold sketch_estimate, getByIndexes.
  destruct (getByIndexes_glb (cells s) (fillIndexes s k) MaxInt64 (fillIndexes_in s k Hs)) as (v & -> & G). done.
Qed.

Lemma sketch_estimate_range T s k : sketch_within T s → 0 ≤ sketch_estimate s k ≤ T.
Proof.
  intros (Hs & Hd & F). destruct (sketch_estimate_glb s k Hs) as [_ G]. rewrite Forall_lookup in F. split.
  - apply G. split; [by int_bounds|]. intros idx c _ Ec. by apply (F _ _ Ec).
  - pose proof (fillIndexes_in s k Hs) as I. destruct Hs as (_ & Hl & _).
    destruct (seeds s) as [|seed rest] eqn:E; [simpl in Hl; lia|].
    assert (hash_index (sketchW s) (maphash (seed0 s) k) 0 seed ∈ fillIndexes s k) as Hin.
    { unfold fillIndexes. rewrite E. by left. }
    rewrite Forall_forall in I. destruct (lookup_lt_is_Some_2 _ _ (I _ Hin)) as [c Ec].
    pose proof (proj1 (G (sketch_estimate s k)) (Z.le_refl _)) as [_ H]. pose proof (H _ c Hin Ec) as Hle. destruct (F _ _ Ec) as [_ HT]. clear -Hle HT. lia.
Qed.

(** The counting state after a call, before the skip rate is looked at. *)
Lemma cms_count s key base inc : sketch_ok s → 0 ≤ inc →
  let p := Z.max base (wrap64 (sketch_estimate s key + inc)) in
  ∃ cs n, cms_GetPass s key base inc = Some (p,
      let s := mkSketch (sketchW s) (sketchD s) (seed0 s) (seeds s) cs n (incs s + 1) in
      if incs s >? Z.max 1000 skipRateDecay
      then let s := maybeGrow s in
           mkSketch (sketchW s) (sketchD s) (seed0 s) (seeds s) (cells s) (Z.shiftr (skips s) 1) (Z.shiftr (incs s) 1)
      else s) ∧
    length cs = length (cells s) ∧
    ∀ j c, cells s !! j = Some c → ∃ c', cs !! j = Some c' ∧ c ≤ c' ≤ Z.max c p ∧
      ((∃ idx, idx ∈ fillIndexes s key ∧ Z.to_nat idx = j) → p ≤ c').
Proof.
  intros Hs Hi p. destruct (ensureByIndexes_raise (cells s) (fillIndexes s key) p 0 (fillIndexes_in s key Hs)) as (cs & n & E & L & H).
  exists cs, (skips s + n). split; [|done]. unfold cms_GetPass. destruct (Z.ltb_spec inc 0); [lia|].
  rewrite (proj1 (sketch_estimate_glb s key Hs)). simpl. fold p. unfold ensureByIndexes. by rewrite E.
Qed.

Lemma maybeGrow_ok s : (∀ w, 0 < w → 0 < scaledW w) → sketch_ok s → sketch_ok (maybeGrow s).
Proof.
  intros Hg (Hw & Hd & Hc). unfold maybeGrow. case_match eqn:E; [done|].
  rewrite !orb_false_iff in E. destruct E as [[_ E] _]. specialize (Hg _ Hw). unfold sketch_ok. simpl.
  rewrite length_replicate. split_and!; [|done|done]. bool_to_prop. lia.
Qed.

Lemma cms_GetPass_ok s key base inc : (∀ w, 0 < w → 0 < scaledW w) → sketch_ok s →
  ∃ p s', cms_GetPass s key base inc = Some (p, s') ∧ base ≤ p ∧ sketch_ok s'.
Proof.
  intros Hg Hs. destruct (Z.ltb_spec inc 0) as [Hi|Hi].
  - exists base, s. unfold cms_GetPass. rewrite (proj2 (Z.ltb_lt inc 0) Hi). split_and!; [done|lia|done].
  - destruct (cms_count s key base inc Hs Hi) as (cs & n & -> & L & _). eexists _, _. split_and!; [done|lia|].
    set (s1 := mkSketch _ _ _ _ _ _ _). assert (sketch_ok s1) as H1.
    { destruct Hs as (Hw & Hd & Hc). unfold s1, sketch_ok. simpl. split_and!; [done..|]. by rewrite L. }
    simpl. case_match; [|done]. destruct (maybeGrow_ok s1 Hg H1) as (? & ? & ?). by unfold sketch_ok.
Qed.

(** One call of a counter that does not grow: what it answers and what it then holds. *)
Definition counts {C} (est : C → string → Z) (inv : Z → C → Prop) (get : C → string → Z → Z → option (Z * C)) : Prop :=
  ∀ T c key base inc, 0 ≤ T → inv T c → 0 ≤ inc → base ≤ T → T + inc ≤ MaxInt64 →
    ∃ p c', get c key base inc = Some (p, c') ∧ base ≤ p ≤ T + inc ∧ inv (T + inc) c' ∧
      est c key + inc ≤ p ≤ est c' key ∧ ∀ k, est c k ≤ est c' k.

Lemma map_counts : counts (λ m k, default 0 (m !! k)) (λ T, map_Forall (λ _ c, 0 ≤ c ≤ T)) map_GetPass.
Proof.
  intros T m key base inc HT F Hi Hb Ho. unfold map_GetPass. set (v := default 0 (m !! key)).
  assert (0 ≤ v ≤ T) as B by (unfold v; destruct (m !! key) eqn:E; [apply (F _ _ E)|simpl; lia]).
  rewrite wrap64_id by (int_bounds; lia). eexists _, _. split_and!; [done|lia|lia| |by fold v; lia|cbn beta; unfold mapCounter; by rewrite lookup_insert_eq|].
  - apply map_Forall_insert_2; [lia|]. eapply map_Forall_impl; [exact F|]. simpl. lia.
  - intros k. cbn beta. unfold mapCounter. destruct (decide (k = key)) as [->|N]; [|by rewrite lookup_insert_ne].
    rewrite lookup_insert_eq. change (v ≤ Z.max base (v + inc)). lia.
Qed.

Section no_growth.
Context (Hth : threshold0 = true).

Lemma cms_counts : counts sketch_estimate sketch_within cms_GetPass.
Proof.
  intros T s key base inc HT Hin Hi Hb Ho. pose proof (sketch_estimate_range T s key Hin) as R.
  destruct Hin as (Hs & Hd & F). destruct (cms_count s key base inc Hs Hi) as (cs & n & E & L & H). cbv zeta in E, H. rewrite E. clear E.
  set (p := Z.max base (wrap64 (sketch_estimate s key + inc))) in *.
  assert (p = Z.max base (sketch_estimate s key + inc)) as Ep by (unfold p; rewrite wrap64_id; [done|int_bounds; lia]).
  exists p. eexists. split; [reflexivity|]. set (s1 := mkSketch _ _ _ _ cs _ _).
  assert (maybeGrow s1 = s1) as -> by (unfold maybeGrow; by rewrite Hth).
  match goal with |- context [if ?b then _ else s1] => set (s' := if b then _ else s1) end. assert (cells s' = cs ∧ sketchW s' = sketchW s ∧ sketchD s' = sketchD s ∧
    seeds s' = seeds s ∧ seed0 s' = seed0 s) as (Ec & Ew & Ed & Es & E0) by (unfold s'; case_match; done).
  assert (∀ k, fillIndexes s' k = fillIndexes s k) as EI by (intros k; unfold fillIndexes; by rewrite Ew, Es, E0).
  assert (sketch_ok s') as Hs'.
  { destruct Hs as (? & ? & ?). unfold sketch_ok. rewrite Ec, Ew, Ed, Es, L. done. }
  assert (∀ idx c', cs !! idx = Some c' → ∃ c, cells s !! idx = Some c) as Hback.
  { intros idx c' E. apply lookup_lt_Some in E. rewrite L in E. by apply lookup_lt_is_Some_2 in E. }
  assert (∀ k, sketch_estimate s k ≤ sketch_estimate s' k) as Mono.
  { intros k. apply (proj2 (sketch_estimate_glb s' k Hs')). rewrite Ec, EI.
    pose proof (proj1 (proj2 (sketch_estimate_glb s k Hs) _) (Z.le_refl (sketch_estimate s k))) as [M G].
    split; [done|]. intros idx c' Hx E'. destruct (Hback _ _ E') as [c E].
    destruct (H _ _ E) as (c2 & E2 & [? _] & _). rewrite E' in E2. injection E2 as <-. specialize (G _ _ Hx E). lia. }
  split_and!; [lia|lia| |lia| |done].
  - split_and!; [done|by rewrite Ed|]. rewrite Ec. rewrite Forall_lookup in *. intros idx c' E'.
    destruct (Hback _ _ E') as [c E]. destruct (H _ _ E) as (c2 & E2 & ? & _). rewrite E' in E2. injection E2 as <-.
    pose proof (F _ _ E) as B. simpl in B. lia.
  - apply (proj2 (sketch_estimate_glb s' key Hs')). rewrite Ec, EI. split; [lia|]. intros idx c' Hx E'.
    destruct (Hback _ _ E') as [c E]. destruct (H _ _ E) as (c2 & E2 & _ & G). rewrite E' in E2. injection E2 as <-. apply G. eauto.
Qed.

Lemma new_sketch_within seed : sketch_within 0 (NewCMSketchCounter cmsW cmsD seed src).
Proof.
  unfold sketch_within, sketch_ok, NewCMSketchCounter. cbn [sketchW sketchD seeds cells].
  rewrite length_map, length_seq, length_replicate. split_and!; [lia|done|done|lia|].
  apply Forall_replicate. lia.
Qed.

Lemma sketch_within_mono T T' s : T ≤ T' → sketch_within T s → sketch_within T' s.
Proof. intros ? (? & ? & F). split_and!; [done..|]. eapply Forall_impl; [exact F|]. simpl. lia. Qed.

(** Every count of the map is carried over. *)
Lemma migrate_counts T m : 0 ≤ T ≤ MaxInt64 → map_Forall (λ _ c, 0 ≤ c ≤ T) m →
  ∃ s, migrateToCMS m = Some s ∧ sketch_within T s ∧ ∀ k, default 0 (m !! k) ≤ sketch_estimate s k.
Proof.
  intros HT F. unfold migrateToCMS.
  assert (∀ l s0, sketch_within T s0 → Forall (λ kv : string * Z, 0 ≤ kv.2 ≤ T) l →
    ∃ s, foldl (λ acc kv, cms ← acc; '(_, cms) ← cms_GetPass cms kv.1 kv.2 0; Some cms) (Some s0) l = Some s ∧
      sketch_within T s ∧ (∀ k, sketch_estimate s0 k ≤ sketch_estimate s k) ∧ ∀ k c, (k, c) ∈ l → c ≤ sketch_estimate s k) as Hl.
  { induction l as [|[k c] l IH]; intros s0 H0 Fl.
    - exists s0. split_and!; [done..|]. intros ? ? Hx. by apply not_elem_of_nil in Hx.
    - apply Forall_cons in Fl as [Hc Fl]. simpl in Hc.
      destruct (cms_counts T s0 k c 0) as (p & s1 & E & B & W1 & P1 & M1); [lia|done|lia..|].
      rewrite Z.add_0_r in W1. destruct (IH s1 W1 Fl) as (s & Es & W & M & P). exists s. simpl. rewrite E. simpl.
      split_and!; [done|done| |].
      + intros k'. specialize (M1 k'). specialize (M k'). lia.
      + intros k' c' [[= -> ->]|Hx]%elem_of_cons; [specialize (M k); lia|by apply P]. }
  destruct (Hl (map_to_list m) (NewCMSketchCounter cmsW cmsD makeSeed src)) as (s & E & W & _ & P).
  - apply (sketch_within_mono 0); [lia|apply new_sketch_within].
  - apply Forall_forall. intros [k c] Hk%elem_of_map_to_list. apply (F _ _ Hk).
  - exists s. split_and!; [done|done|]. intros k. destruct (m !! k) as [c|] eqn:Ek; simpl.
    + by apply P, elem_of_map_to_list.
    + apply (sketch_estimate_range T s k W).
Qed.

Lemma hybrid_counts : counts estimate within hybrid_GetPass.
Proof.
  intros T [m|s] key base inc HT Hin Hi Hb Ho; simpl in Hin.
  - destruct (map_counts T m key base inc) as (p & m' & E & B & W & P & M); [done..|].
    unfold hybrid_GetPass. rewrite E. simpl. case_match.
    + destruct (migrate_counts (T + inc) m') as (s & -> & Ws & Ms); [lia|done|]. exists p, (HSketch s). simpl.
      split_and!; [done|lia|lia|done|simpl in P; lia| |].
      * pose proof (Ms key). simpl in *. lia.
      * intros k. specialize (M k). specialize (Ms k). simpl in *. lia.
    + exists p, (HMap m'). split_and!; try done; simpl in *; lia.
  - destruct (cms_counts T s key base inc) as (p & s' & E & B & W & P & M); [done..|].
    exists p, (HSketch s'). simpl. rewrite E. split_and!; try done; simpl; lia.
Qed.

(** ** Sequences of calls *)

Record pass_call := mkCall { call_key : string; call_base : Z; call_inc : Z }.

Fixpoint run_calls (h : hybridCounter) (calls : list pass_call) : option (list Z) :=
  match calls with
  | [] => Some []
  | c :: calls =>
      '(p, h) ← hybrid_GetPass h (call_key c) (call_base c) (call_inc c);
      ps ← run_calls h calls; Some (p :: ps)
  end.

Definition total_inc (calls : list pass_call) : Z := foldr (λ c acc, call_inc c + acc) 0 calls.

Lemma total_inc_nonneg calls : Forall (λ c, 0 ≤ call_inc c) calls → 0 ≤ total_inc calls.
Proof. induction 1; simpl; lia. Qed.

Lemma run_calls_spec B T h calls :
  0 ≤ B ≤ T → within T h → Forall (λ c, call_base c ≤ B) calls → Forall (λ c, 0 ≤ call_inc c) calls →
  T + total_inc calls ≤ MaxInt64 →
  ∃ ps, run_calls h calls = Some ps ∧
    Forall2 (λ c p, Z.max (call_base c) (estimate h (call_key c) + call_inc c) ≤ p ≤ T + total_inc calls) calls ps ∧
    ∀ i j c d p q, (i < j)%nat → calls !! i = Some c → calls !! j = Some d → ps !! i = Some p → ps !! j = Some q →
      call_key c = call_key d → p + call_inc d ≤ q.
Proof.
  revert T h. induction calls as [|c calls IH]; intros T h HB Hin Fb Fi Ho.
  { exists []. split_and!; [done|constructor|]. intros i j. by intros. }
  apply Forall_cons in Fb as [Hb Fb]. apply Forall_cons in Fi as [Hi Fi]. simpl in Ho.
  pose proof (total_inc_nonneg calls Fi) as Hn.
  destruct (hybrid_counts T h (call_key c) (call_base c) (call_inc c)) as (p & h' & E & Bp & W & P & M); [lia|done|lia..|].
  destruct (IH (T + call_inc c) h') as (ps & Er & F2 & S); [lia|done|done|done|lia|].
  exists (p :: ps). simpl. rewrite E. simpl. rewrite Er. split_and!; [done| |].
  - constructor; [lia|]. eapply Forall2_impl; [exact F2|]. simpl. intros d q. specialize (M (call_key d)). lia.
  - intros [|i] [|j] c1 d p1 q Hij; simpl; intros; [lia| |lia|by eapply (S i j); [lia|..]].
    simplify_eq. destruct (Forall2_lookup_lr _ _ _ _ _ _ F2 ltac:(eassumption) ltac:(eassumption)) as [Hq _].
    match goal with H : call_key _ = call_key _ |- _ => rewrite H in P end. lia.
Qed.

(** C36 Passes never go below the base that was asked for, and the passes of one fairness key
    are spaced by its strides: over any sequence of calls of a new counter that does not
    grow, through the change from the map to the sketch and whatever keys collide in it, no
    call panics, and a later call for a key answers at least an earlier answer for that key
    plus the later call's stride.  The answers stay below the highest base plus all strides,
    so nothing overflows while that fits in an [int64]. *)
Theorem counter_strides B calls :
  0 ≤ B → Forall (λ c, call_base c ≤ B) calls → Forall (λ c, 0 ≤ call_inc c) calls → B + total_inc calls ≤ MaxInt64 →
  ∃ ps, run_calls NewHybridCounter calls = Some ps ∧
    Forall2 (λ c p, call_base c ≤ p ≤ B + total_inc calls) calls ps ∧
    ∀ i j c d p q, (i < j)%nat → calls !! i = Some c → calls !! j = Some d → ps !! i = Some p → ps !! j = Some q →
      call_key c = call_key d → p + call_inc d ≤ q.
Proof.
  intros HB Fb Fi Ho. destruct (run_calls_spec B B NewHybridCounter calls) as (ps & E & F2 & S); [lia|by intros ? ?|done..|].
  exists ps. split_and!; [done| |done]. eapply Forall2_impl; [exact F2|]. simpl. lia.
Qed.
End no_growth.

(** ** The counters discharge the interface *)

Section instances.
Context (Hg : ∀ w, 0 < w → 0 < scaledW w).

#[export, refine] Instance sketch_Counter : Counter cmSketch := {| GetPass := cms_GetPass; counter_ok := sketch_ok |}.
Proof. intros. by apply cms_GetPass_ok. Defined.

Lemma migrate_ok m : ∃ s, migrateToCMS m = Some s ∧ sketch_ok s.
Proof.
  unfold migrateToCMS. assert (sketch_ok (NewCMSketchCounter cmsW cmsD makeSeed src)) as H0.
  { apply (new_sketch_within makeSeed). }
  revert H0. generalize (NewCMSketchCounter cmsW cmsD makeSeed src). induction (map_to_list m) as [|[k c] l IH]; intros s0 H0.
  - by exists s0.
  - simpl. destruct (cms_GetPass_ok s0 k c 0 Hg H0) as (p & s1 & -> & _ & H1). by apply IH.
Qed.

#[export, refine] Instance hybrid_Counter : Counter hybridCounter :=
  {| GetPass := hybrid_GetPass; counter_ok := λ h, match h with HMap _ => True | HSketch s => sketch_ok s end |}.
Proof.
  intros [m|s] key base i H; simpl.
  - case_match; [|eexists _, _; split_and!; [done|lia|done]].
    destruct (migrate_ok (<[key := Z.max base (wrap64 (default 0 (m !! key) + i))]> m)) as (s & -> & Hs).
    eexists _, _. split_and!; [done|lia|done].
  - destruct (cms_GetPass_ok s key base i Hg H) as (p & s' & -> & ? & ?). by exists p, (HSketch s').
Defined.
End instances.
End counters.

#[export, refine] Instance map_Counter : Counter mapCounter := {| GetPass := map_GetPass; counter_ok := λ _, True |}.
Proof. intros. eexists _, _. split_and!; [done|lia|done]. Defined.

Lemma counter_strides_witness :
  let hash := λ (seed : Z) (k : string), Z.of_nat (String.length k) * 0x9e3779b97f4a7c15 in
  let calls := [mkCall "a" 0 1000; mkCall "bb" 0 1000; mkCall "a" 0 500; mkCall "bb" 5000 10; mkCall "a" 0 500] in
  run_calls hash id 1000 0 true true (λ _ _ _, false) id 1 4 2 7 Z.of_nat NewHybridCounter calls = Some [1000; 1000; 1500; 5000; 2000] ∧
  1000 + 500 ≤ 1500.
Proof.
  intros hash calls. destruct (counter_strides hash id 1000 0 true true (λ _ _ _, false) id 1 4 2 7 Z.of_nat eq_refl 5000 calls)
    as (ps & E & _ & S); [lia|by_decide|by_decide|by_decide|].
  assert (run_calls hash id 1000 0 true true (λ _ _ _, false) id 1 4 2 7 Z.of_nat NewHybridCounter calls
    = Some [1000; 1000; 1500; 5000; 2000]) as E' by (vm_compute; reflexivity).
  rewrite E' in E. injection E as <-. split; [exact E'|].
  exact (S 0%nat 2%nat (mkCall "a" 0 1000) (mkCall "a" 0 500) 1000 1500 ltac:(lia) eq_refl eq_refl eq_refl eq_refl eq_refl).
Defined.
