(* ===== verification/FairStore.v ===== *)
(** * The store of a fair task queue: [common/persistence/sql/task_v2.go] with the MySQL
    queries, and the state [service/matching/db.go] keeps per subqueue

    The rows of one subqueue are a map from levels to tasks, which is what the primary key
    makes of the table. *)
From S2P Require Import Prelude FairLevel.
Local Open Scope Z_scope.
Local Open Scope go_scope.

Inductive fair_error := InvalidRequest | InvalidToken | InvalidLimit | DuplicateKey | NonContiguousBlocks | RenewFailed | Unavailable.

(** ** Queries ([sqlplugin/mysql/task_v2.go]) *)

Notation fairRows := (gmap fairLevel AllocatedTaskInfo).

Definition rows_from (rows : fairRows) (minLevel : fairLevel) : list AllocatedTaskInfo :=
  map snd (base.filter (λ p, less p.1 minLevel = false) (tree_list rows)).
(** A row as the query returns it: the columns of its level with the task it encodes.  The query
    does not select the column of the pass, which stays zero. *)
Record TasksRowV2 := mkRow { row_level : fairLevel; row_task : AllocatedTaskInfo }.
Definition selected_row (t : AllocatedTaskInfo) : TasksRowV2 := mkRow (mkLevel 0 (TaskId t)) t.
(** A negative [LIMIT] is refused by the database. *)
Definition SelectFromTasksV2 (rows : fairRows) (minLevel : fairLevel) (pageSize : Z) : outcome fair_error (list TasksRowV2) :=
  if pageSize <? 0 then Err InvalidLimit else Ok (map selected_row (take (Z.to_nat pageSize) (rows_from rows minLevel))).

Definition insert_row (rows : fairRows) (t : AllocatedTaskInfo) : fairRows := <[fairLevelFromAllocatedTask t := t]> rows.
Definition InsertIntoTasksV2 (rows : fairRows) (tasks : list AllocatedTaskInfo) : outcome fair_error fairRows :=
  if bool_decide (Forall (λ t, rows !! fairLevelFromAllocatedTask t = None) tasks) &&
     bool_decide (NoDup (map fairLevelFromAllocatedTask tasks))
  then Ok (foldl insert_row rows tasks) else Err DuplicateKey.

Definition rows_below (rows : fairRows) (maxLevel : fairLevel) : list fairLevel :=
  base.filter (λ l, less l maxLevel = true) (map fst (tree_list rows)).
(** The rows that are left and the number of rows deleted. *)
Definition DeleteFromTasksV2 (rows : fairRows) (maxLevel : fairLevel) (limit : Z) : outcome fair_error (fairRows * Z) :=
  if limit =? 0 then Err InvalidLimit
  else if limit <? 0 then Err InvalidLimit
  else let doomed := take (Z.to_nat limit) (rows_below rows maxLevel) in
       Ok (foldl (λ rows l, delete l rows) rows doomed, Z.of_nat (length doomed)).

(** ** Operations ([task_v2.go]) *)

(** A token of the next page is a level.  A page of size zero reads the row before the first. *)
Definition page_start (inclusiveMin : fairLevel) (token : option fairLevel) : outcome fair_error fairLevel :=
  match token with
  | None => Ok inclusiveMin
  | Some token => if pass token <? 1 then Err InvalidToken else Ok token
  end.
Definition GetTasks (rows : fairRows) (inclusiveMin : fairLevel) (token : option fairLevel) (pageSize : Z)
    : outcome fair_error (list AllocatedTaskInfo * option fairLevel) :=
  if pass inclusiveMin <? 1 then Err InvalidRequest
  else
    let! minLevel := page_start inclusiveMin token in
    let! selected := SelectFromTasksV2 rows minLevel pageSize in
    if Z.of_nat (length selected) =? pageSize then
      match last selected with
      | None => Panic
      | Some row => Ok (map row_task selected, Some (inc (row_level row)))
      end
    else Ok (map row_task selected, None).
Definition CompleteTasksLessThan (rows : fairRows) (exclusiveMax : fairLevel) (limit : Z) : outcome fair_error (fairRows * Z) :=
  if pass exclusiveMax <? 1 then Err InvalidRequest else DeleteFromTasksV2 rows exclusiveMax limit.

(** ** The state of a subqueue ([db.go]) *)

(** What the reader asks for: the first page. *)
Definition GetFairTasks (rows : fairRows) (inclusiveMinLevel : fairLevel) (batchSize : Z) : outcome fair_error (list AllocatedTaskInfo) :=
  let! (tasks, _) := GetTasks rows inclusiveMinLevel None batchSize in Ok tasks.

Record dbSubqueue := mkSubqueue {
  FairAckLevel : option fairLevel; ApproximateBacklogCount : Z; FairMaxReadLevel : option fairLevel; sub_oldestTime : option Z }.

Definition updateBacklogStatsLocked (sub : dbSubqueue) (countDelta : Z) (oldest : option Z) : dbSubqueue :=
  let count := ApproximateBacklogCount sub in
  mkSubqueue (FairAckLevel sub) (if count + countDelta <? 0 then 0 else count + countDelta) (FairMaxReadLevel sub) oldest.

(** An ack level that moves backwards is only reported. *)
Definition updateFairAckLevel (sub : dbSubqueue) (newAckLevel : fairLevel) (countDelta knownCount : Z) (oldest : option Z) : dbSubqueue :=
  let sub := mkSubqueue (toProto newAckLevel) (ApproximateBacklogCount sub) (FairMaxReadLevel sub) (sub_oldestTime sub) in
  if knownCount >=? 0 then mkSubqueue (FairAckLevel sub) knownCount (FairMaxReadLevel sub) oldest
  else if negb (countDelta =? 0) then updateBacklogStatsLocked sub countDelta oldest else sub.

Definition setKnownFairBacklogCount (sub : dbSubqueue) (count : Z) : dbSubqueue :=
  if ApproximateBacklogCount sub =? count then sub
  else mkSubqueue (FairAckLevel sub) count (FairMaxReadLevel sub) (if count =? 0 then None else sub_oldestTime sub).

(** What the store answers to a batch of inserts: done, refused because the lease is lost, or
    an error after which the rows may be there, now or later, or not. *)
Inductive create_result := CreateOk | CreateConditionFailed | CreateOtherError (applied : bool).

Definition add_count (sub : dbSubqueue) (n : Z) : dbSubqueue :=
  mkSubqueue (FairAckLevel sub) (ApproximateBacklogCount sub + n) (FairMaxReadLevel sub) (sub_oldestTime sub).
Definition raise_max (sub : dbSubqueue) (tasks : list AllocatedTaskInfo) : dbSubqueue :=
  let level := foldl (λ l t, level_max l (fairLevelFromAllocatedTask t)) zeroLevel tasks in
  mkSubqueue (FairAckLevel sub) (ApproximateBacklogCount sub)
    (toProto (level_max (fairLevelFromProto (FairMaxReadLevel sub)) level)) (sub_oldestTime sub).

(** The tasks of one subqueue, with the levels their requests were given. *)
Definition CreateFairTasks (sub : dbSubqueue) (rows : fairRows) (tasks : list AllocatedTaskInfo) (result : create_result)
    : dbSubqueue * fairRows * option create_result :=
  match tasks with
  | [] => (sub, rows, None)
  | _ =>
      let n := Z.of_nat (length tasks) in
      let sub := raise_max (add_count sub n) tasks in
      match result with
      | CreateOk =>
          match InsertIntoTasksV2 rows tasks with
          | Ok rows => (sub, rows, None)
          | _ => (sub, rows, Some (CreateOtherError false))
          end
      | CreateConditionFailed => (add_count sub (- n), rows, Some CreateConditionFailed)
      | CreateOtherError applied =>
          (sub, if applied then foldl insert_row rows tasks else rows, Some (CreateOtherError applied))
      end
  end.

(** ** Laws *)

Lemma insert_rows_lookup rows tasks l t :
  foldl insert_row rows tasks !! l = Some t → rows !! l = Some t ∨ t ∈ tasks ∧ fairLevelFromAllocatedTask t = l.
Proof.
  revert rows. induction tasks as [|u tasks IH]; intros rows H; [by left|]. simpl in H.
  destruct (IH _ H) as [E|[? ?]]; [|right; split; [by right|done]]. unfold insert_row in E.
  apply lookup_insert_Some in E as [[<- <-]|[_ ?]]; [right; split; [by left|done]|by left].
Qed.
Lemma insert_rows_keep rows tasks l : is_Some (rows !! l) → is_Some (foldl insert_row rows tasks !! l).
Proof.
  revert rows. induction tasks as [|u tasks IH]; intros rows H; [done|]. simpl. apply IH. unfold insert_row.
  apply lookup_insert_is_Some'. by right.
Qed.
Lemma insert_rows_new rows tasks t : t ∈ tasks → is_Some (foldl insert_row rows tasks !! fairLevelFromAllocatedTask t).
Proof.
  revert rows. induction tasks as [|u tasks IH]; intros rows H; [by apply not_elem_of_nil in H|]. simpl.
  apply elem_of_cons in H as [->|H]; [|by apply IH]. apply insert_rows_keep. unfold insert_row.
  by rewrite lookup_insert_eq.
Qed.

Lemma delete_rows_lookup (rows : fairRows) ls l t :
  foldl (λ rows l, delete l rows) rows ls !! l = Some t ↔ rows !! l = Some t ∧ l ∉ ls.
Proof.
  revert rows. induction ls as [|k ls IH]; intros rows; simpl; [set_solver|].
  rewrite IH, lookup_delete_Some, not_elem_of_cons. naive_solver.
Qed.

(** Deleting removes only rows below the level it is given. *)
Lemma CompleteTasksLessThan_below rows max limit rows' n l t :
  CompleteTasksLessThan rows max limit = Ok (rows', n) →
  (rows' !! l = Some t → rows !! l = Some t) ∧ (rows !! l = Some t → max ≤l l → rows' !! l = Some t).
Proof.
  unfold CompleteTasksLessThan, DeleteFromTasksV2. intros H. repeat (case_match; [done|]). injection H as <- _.
  rewrite delete_rows_lookup. split; [by intros [? _]|]. intros E L. split; [done|].
  intros Hl%subseteq_take. unfold rows_below in Hl. apply list_elem_of_filter in Hl as [Hl _]. apply less_spec in Hl. level_lia.
Qed.

(** Every row is kept under its own level, and levels start at pass one and id one. *)
Definition positive (l : fairLevel) : Prop := 1 ≤ pass l ∧ 1 ≤ lid l.
Definition rows_ok (rows : fairRows) : Prop :=
  map_Forall (λ l t, fairLevelFromAllocatedTask t = l ∧ positive l) rows.

Definition task_lt (t u : AllocatedTaskInfo) : Prop := fairLevelFromAllocatedTask t <l fairLevelFromAllocatedTask u.

Lemma rows_from_sorted rows min : rows_ok rows → StronglySorted task_lt (rows_from rows min).
Proof.
  intros Hok. unfold rows_from.
  assert (StronglySorted keys_lt (base.filter (λ p, less p.1 min = false) (tree_list rows))) as S
    by apply StronglySorted_filter, tree_list_sorted.
  assert (Forall (λ p, fairLevelFromAllocatedTask p.2 = p.1) (base.filter (λ p, less p.1 min = false) (tree_list rows))) as F.
  { apply Forall_forall. intros [l t] [_ Hp]%list_elem_of_filter. apply elem_of_tree_list in Hp. apply (Hok _ _ Hp). }
  induction S as [|p l _ IH Fp]; [constructor|]. apply Forall_cons in F as [Ep F]. simpl. constructor; [by apply IH|].
  apply Forall_forall. intros t Ht. apply list_elem_of_fmap in Ht as (q & -> & Hq). rewrite Forall_forall in F, Fp.
  unfold task_lt. rewrite Ep, (F q Hq). by apply Fp.
Qed.

Lemma elem_of_rows_from rows min t : rows_ok rows →
  t ∈ rows_from rows min ↔ rows !! fairLevelFromAllocatedTask t = Some t ∧ min ≤l fairLevelFromAllocatedTask t.
Proof.
  intros Hok. unfold rows_from. setoid_rewrite (list_elem_of_fmap snd _ t). split.
  - intros ([l u] & -> & [Hl Hp]%list_elem_of_filter). apply elem_of_tree_list in Hp. simpl in *.
    destruct (Hok _ _ Hp) as [-> _]. by apply less_false in Hl.
  - intros [E L]. exists (fairLevelFromAllocatedTask t, t). split; [done|]. apply list_elem_of_filter.
    split; [by apply less_false|by apply elem_of_tree_list].
Qed.

(** A token the store hands out is refused when it comes back: the pass of the last row was not
    selected. *)
Lemma next_page_refused rows min n tasks token min' n' :
  GetTasks rows min None n = Ok (tasks, Some token) → 1 ≤ pass min' → GetTasks rows min' (Some token) n' = Err InvalidToken.
Proof.
  unfold GetTasks at 1, SelectFromTasksV2. intros E Hm. case_match; [done|]. simpl in E. case_match; [done|]. simpl in E.
  case_match; [|done]. destruct (last _) as [row|] eqn:El; [|done]. injection E as _ <-.
  apply last_Some_elem_of, list_elem_of_fmap in El as (t & -> & _). unfold GetTasks. by destruct (Z.ltb_spec (pass min') 1); [lia|].
Qed.

Lemma GetFairTasks_ok rows min n tasks :
  GetFairTasks rows min n = Ok tasks → 0 ≤ n ∧ tasks = take (Z.to_nat n) (rows_from rows min).
Proof.
  unfold GetFairTasks, GetTasks, SelectFromTasksV2. intros E. assert (∀ l, map row_task (map selected_row l) = l) as Hm.
  { intros l. rewrite map_map. apply map_id. }
  repeat (case_match; simplify_eq/=); rewrite Hm; split; try done; lia.
Qed.

(** A read after a level returns rows above it, and misses one only if it is full and the
    row is above all it returns. *)
Lemma GetFairTasks_after rows R n tasks : rows_ok rows → GetFairTasks rows (inc (level_max R (mkLevel 1 0))) n = Ok tasks →
  Forall (λ t, rows !! fairLevelFromAllocatedTask t = Some t ∧ R <l fairLevelFromAllocatedTask t) tasks ∧
  ∀ l t, rows !! l = Some t → R <l l →
    t ∈ tasks ∨ n ≤ Z.of_nat (length tasks) ∧ Forall (λ u, fairLevelFromAllocatedTask u <l l) tasks.
Proof.
  intros Hok [Hn ->]%GetFairTasks_ok.
  pose proof (rows_from_sorted rows (inc (level_max R (mkLevel 1 0))) Hok) as S.
  set (all := rows_from rows _) in *. rewrite <- (take_drop (Z.to_nat n) all) in S. split.
  - apply Forall_forall. intros t Ht%subseteq_take. apply elem_of_rows_from in Ht as [E L]; [|done]. split; [done|].
    destruct (level_max_spec R (mkLevel 1 0)) as [[Em ?]|[Em ?]]; rewrite Em in L; level_lia.
  - intros l t E HR. destruct (Hok _ _ E) as [El Pl]. assert (t ∈ all) as Ht.
    { apply elem_of_rows_from; [done|]. rewrite El. split; [done|]. unfold positive in Pl.
      destruct (level_max_spec R (mkLevel 1 0)) as [[-> ?]|[-> ?]]; level_lia. }
    rewrite <- (take_drop (Z.to_nat n) all) in Ht. apply elem_of_app in Ht as [?|Ht]; [by left|]. right.
    apply list_elem_of_lookup in Ht as [i Hi]. apply lookup_lt_Some in Hi as Hlen. rewrite length_drop in Hlen.
    rewrite length_take. bool_to_prop. split; [lia|]. apply Forall_forall. intros u Hu. rewrite <- El.
    apply (StronglySorted_app_1_elem_of _ _ _ u t S Hu). by apply list_elem_of_lookup_2 with i.
Qed.
