(* ===== verification/FairReader.v ===== *)
(** * The reader of a fair task queue: [service/matching/fair_task_reader.go]

    The reader keeps a window of the backlog in memory: the tasks it has handed to the matcher,
    and those acked since, between the ack level and the read level.  Every operation below
    is one section of code under the reader's lock; a goroutine that is started is a value
    in the state, [readPending] for the read loop and [inGC], with the level it deletes up
    to, for the collector. *)
From S2P Require Import Prelude FairLevel FairStore.
Local Open Scope Z_scope.
Local Open Scope go_scope.

(** An outstanding level is [Some t] while the task is unacked and [None] once it is acked,
    Go's nil. *)
Record fairTaskReader := mkReader {
  readPending : bool; backoffTimer : bool; backlogAge : backlogAgeTracker;
  outstandingTasks : gmap fairLevel (option AllocatedTaskInfo); loadedTasks : Z;
  readLevel : fairLevel; ackLevel : fairLevel; atEnd : bool;
  newlyWrittenTasks : list AllocatedTaskInfo; ackLevelPinnedByWriter : bool;
  inGC : option fairLevel; numToGC : Z }.

Inductive mergeMode := mergeReadMiddle | mergeReadToEnd | mergeWrite.
#[export] Instance mergeMode_eq_dec : EqDecision mergeMode.
Proof. solve_decision. Defined.

(** The reader with what it shares: the subqueue's state in [taskQueueDB], and whether the
    context of the task queue is done. *)
Record backlog := mkBacklog { tr : fairTaskReader; sub : dbSubqueue; ctxDone : bool }.

Definition set_tr (b : backlog) (t : fairTaskReader) : backlog := mkBacklog t (sub b) (ctxDone b).
Definition set_sub (b : backlog) (s : dbSubqueue) : backlog := mkBacklog (tr b) s (ctxDone b).

Definition set_pending (t : fairTaskReader) (p : bool) : fairTaskReader :=
  mkReader p (backoffTimer t) (backlogAge t) (outstandingTasks t) (loadedTasks t) (readLevel t) (ackLevel t) (atEnd t)
    (newlyWrittenTasks t) (ackLevelPinnedByWriter t) (inGC t) (numToGC t).
Definition set_timer (t : fairTaskReader) (p : bool) : fairTaskReader :=
  mkReader (readPending t) p (backlogAge t) (outstandingTasks t) (loadedTasks t) (readLevel t) (ackLevel t) (atEnd t)
    (newlyWrittenTasks t) (ackLevelPinnedByWriter t) (inGC t) (numToGC t).
Definition set_window (t : fairTaskReader) (age : backlogAgeTracker) (o : gmap fairLevel (option AllocatedTaskInfo)) (n : Z)
    : fairTaskReader :=
  mkReader (readPending t) (backoffTimer t) age o n (readLevel t) (ackLevel t) (atEnd t)
    (newlyWrittenTasks t) (ackLevelPinnedByWriter t) (inGC t) (numToGC t).
Definition set_read (t : fairTaskReader) (l : fairLevel) (e : bool) : fairTaskReader :=
  mkReader (readPending t) (backoffTimer t) (backlogAge t) (outstandingTasks t) (loadedTasks t) l (ackLevel t) e
    (newlyWrittenTasks t) (ackLevelPinnedByWriter t) (inGC t) (numToGC t).
Definition set_ack (t : fairTaskReader) (l : fairLevel) : fairTaskReader :=
  mkReader (readPending t) (backoffTimer t) (backlogAge t) (outstandingTasks t) (loadedTasks t) (readLevel t) l (atEnd t)
    (newlyWrittenTasks t) (ackLevelPinnedByWriter t) (inGC t) (numToGC t).
Definition set_held (t : fairTaskReader) (l : list AllocatedTaskInfo) : fairTaskReader :=
  mkReader (readPending t) (backoffTimer t) (backlogAge t) (outstandingTasks t) (loadedTasks t) (readLevel t) (ackLevel t) (atEnd t)
    l (ackLevelPinnedByWriter t) (inGC t) (numToGC t).
Definition set_pin (t : fairTaskReader) (p : bool) : fairTaskReader :=
  mkReader (readPending t) (backoffTimer t) (backlogAge t) (outstandingTasks t) (loadedTasks t) (readLevel t) (ackLevel t) (atEnd t)
    (newlyWrittenTasks t) p (inGC t) (numToGC t).
Definition set_gc (t : fairTaskReader) (g : option fairLevel) (n : Z) : fairTaskReader :=
  mkReader (readPending t) (backoffTimer t) (backlogAge t) (outstandingTasks t) (loadedTasks t) (readLevel t) (ackLevel t) (atEnd t)
    (newlyWrittenTasks t) (ackLevelPinnedByWriter t) g n.

Definition newFairTaskReader (initialAckLevel : fairLevel) : fairTaskReader :=
  mkReader false false ∅ ∅ 0 initialAckLevel initialAckLevel false [] false None 0.

Section reader.
(** [GetTasksBatchSize], [GetTasksReloadAt], [MaxTaskDeleteBatchSize]. *)
Context (batchSize reloadAt maxTaskDeleteBatchSize : Z).

(** ** Reading more *)

Definition shouldReadMoreLocked (t : fairTaskReader) : bool :=
  if atEnd t then false else if loadedTasks t >? reloadAt then false else true.
Definition maybeReadTasksLocked (b : backlog) : backlog :=
  if readPending (tr b) || negb (shouldReadMoreLocked (tr b)) || backoffTimer (tr b) || ctxDone b then b
  else set_tr b (set_pending (tr b) true).
Definition Start (b : backlog) : backlog := maybeReadTasksLocked b.

(** ** The ack level and the collector *)

Definition knownCountLocked (t : fairTaskReader) : Z := if atEnd t then loadedTasks t else -1.
Definition ackLevelPinnedLocked (t : fairTaskReader) : bool :=
  ackLevelPinnedByWriter t || (0 <? Z.of_nat (length (newlyWrittenTasks t))).

(** [due] is [time.Since(tr.lastGCTime) > TaskDeleteInterval()]. *)
Definition shouldGCLocked (due : bool) (t : fairTaskReader) : bool :=
  if bool_decide (is_Some (inGC t)) || (numToGC t =? 0) then false
  else (numToGC t >=? maxTaskDeleteBatchSize) || due.
Definition maybeGCLocked (due : bool) (t : fairTaskReader) : fairTaskReader :=
  if shouldGCLocked due t then set_gc t (Some (ackLevel t)) (numToGC t) else t.

(** Each turn takes a level out of the map, so its size is enough fuel. *)
Fixpoint advance_loop (fuel : nat) (o : gmap fairLevel (option AllocatedTaskInfo)) (ack : fairLevel) (numAcked : Z)
    : gmap fairLevel (option AllocatedTaskInfo) * fairLevel * Z :=
  match fuel with
  | O => (o, ack, numAcked)
  | S fuel =>
      match tree_Min o with
      | Some (minLevel, None) => advance_loop fuel (delete minLevel o) minLevel (numAcked + 1)
      | _ => (o, ack, numAcked)
      end
  end.
Definition advanceAckLevelLocked (due : bool) (b : backlog) : backlog :=
  let t := tr b in
  if ackLevelPinnedLocked t then b
  else
    let '(o, ack, numAcked) := advance_loop (size (outstandingTasks t)) (outstandingTasks t) (ackLevel t) 0 in
    let t := set_ack (set_window t (backlogAge t) o (loadedTasks t)) ack in
    if numAcked >? 0 then
      let t := maybeGCLocked due (set_gc t (inGC t) (numToGC t + numAcked)) in
      mkBacklog t (updateFairAckLevel (sub b) (ackLevel t) (- numAcked) (knownCountLocked t) (oldestTime (backlogAge t))) (ctxDone b)
    else set_tr b t.

(** ** Completing a task *)

Definition completeTaskLocked (due : bool) (b : backlog) (task : AllocatedTaskInfo) : backlog :=
  let t := tr b in
  let t := set_window t (record (backlogAge t) (CreateTime task) (-1))
             (<[fairLevelFromAllocatedTask task := None]> (outstandingTasks t)) (loadedTasks t - 1) in
  maybeReadTasksLocked (advanceAckLevelLocked due (set_tr b t)).

(** The error of the response: none, one that is retried in the matcher, or another. *)
Inductive task_response := ResponseOk | ResponseTransient | ResponseOther.
(** What is left to do after the first locked part: nothing, hand the task to the matcher
    again, or write it again and then complete it. *)
Inductive complete_next := CompleteDone | CompleteRetry | CompleteRespool.

Definition completeTask (due : bool) (b : backlog) (task : AllocatedTaskInfo) (res : task_response) : backlog * complete_next :=
  match outstandingTasks (tr b) !! fairLevelFromAllocatedTask task with
  | None | Some None => (b, CompleteDone)
  | Some (Some _) =>
      match res with
      | ResponseOk => (completeTaskLocked due b task, CompleteDone)
      | ResponseTransient => (b, CompleteRetry)
      | ResponseOther => (b, CompleteRespool)
      end
  end.

(** ** Merging *)

(** The values of the merged map: tasks in the matcher and tasks just read or written. *)
Inductive merge_entry := InMatcher (t : AllocatedTaskInfo) | Incoming (t : AllocatedTaskInfo).

Definition add_incoming (t : fairTaskReader) (mode : mergeMode) (merged : gmap fairLevel merge_entry) (task : AllocatedTaskInfo)
    : gmap fairLevel merge_entry :=
  let level := fairLevelFromAllocatedTask task in
  if negb (less (ackLevel t) level) then merged
  else if bool_decide (mode = mergeWrite) && negb (atEnd t) && less (readLevel t) level then merged
  else match outstandingTasks t !! level with
       | Some _ => merged
       | None => <[level := Incoming task]> merged
       end.
Definition merged_tasks (t : fairTaskReader) (mode : mergeMode) (tasks : list AllocatedTaskInfo) : gmap fairLevel merge_entry :=
  foldl (add_incoming t mode) (omap (λ v, InMatcher <$> v) (outstandingTasks t)) tasks.

Definition incoming (l : list (fairLevel * merge_entry)) : list AllocatedTaskInfo :=
  omap (λ p, match p.2 with Incoming t => Some t | InMatcher _ => None end) l.

(** A task that no longer fits is taken out of the matcher. *)
Definition evict_one (t : fairTaskReader) (p : fairLevel * merge_entry) : fairTaskReader :=
  match p.2 with
  | InMatcher task => set_window t (record (backlogAge t) (CreateTime task) (-1)) (delete p.1 (outstandingTasks t)) (loadedTasks t - 1)
  | Incoming _ => t
  end.
Definition acked_above (t : fairTaskReader) : list fairLevel :=
  map fst (base.filter (λ p, p.2 = None ∧ less (readLevel t) p.1 = true) (tree_list (outstandingTasks t))).
Definition drop_acked (t : fairTaskReader) (l : fairLevel) : fairTaskReader :=
  set_window t (backlogAge t) (delete l (outstandingTasks t)) (loadedTasks t).
Definition load_one (t : fairTaskReader) (task : AllocatedTaskInfo) : fairTaskReader :=
  set_window t (record (backlogAge t) (CreateTime task) 1)
    (<[fairLevelFromAllocatedTask task := Some task]> (outstandingTasks t)) (loadedTasks t + 1).

(** The tasks returned are those to hand to the matcher. *)
Definition mergeTasksLocked (b : backlog) (tasks : list AllocatedTaskInfo) (mode : mergeMode) : backlog * list AllocatedTaskInfo :=
  let t := tr b in
  let all := tree_list (merged_tasks t mode tasks) in
  let kept := take (Z.to_nat batchSize) all in
  let rest := drop (Z.to_nat batchSize) all in
  let highestLevel := match last kept with Some p => p.1 | None => zeroLevel end in
  let t := set_read t (if negb (lid highestLevel =? 0) then highestLevel else ackLevel t) (atEnd t) in
  let t := foldl evict_one t rest in
  let acked := acked_above t in
  let evictedAnyTasks := negb (bool_decide (rest = [])) || negb (bool_decide (acked = [])) in
  let t := foldl drop_acked t acked in
  let newTasks := incoming kept in
  let t := foldl load_one t newTasks in
  let t := if bool_decide (mode = mergeReadMiddle) || evictedAnyTasks then set_read t (readLevel t) false
           else if bool_decide (mode = mergeReadToEnd) then set_read t (readLevel t) true
           else t in
  let count := knownCountLocked t in
  (mkBacklog t (if count >=? 0 then setKnownFairBacklogCount (sub b) count else sub b) (ctxDone b), newTasks).

(** A write during a read is held until the read is over. *)
Definition mergeTasks (b : backlog) (tasks : list AllocatedTaskInfo) (mode : mergeMode) : backlog * list AllocatedTaskInfo :=
  if bool_decide (mode = mergeWrite) && readPending (tr b)
  then (set_tr b (set_held (tr b) (newlyWrittenTasks (tr b) ++ tasks)), [])
  else mergeTasksLocked b tasks mode.
Definition wroteNewTasks (b : backlog) (tasks : list AllocatedTaskInfo) : backlog * list AllocatedTaskInfo :=
  mergeTasks b tasks mergeWrite.

(** ** The read loop *)

(** The top of the loop of [readTasksImpl]: the next batch to read, or the end of the loop
    with the tasks written meanwhile. *)
Inductive read_next := ReadBatch (level : fairLevel) (loaded : Z) | ReadEnd (newTasks : list AllocatedTaskInfo).
Definition readTasksImpl (due : bool) (b : backlog) (lastErr : bool) : backlog * read_next :=
  if lastErr || negb (shouldReadMoreLocked (tr b)) then
    let b := set_tr b (set_pending (tr b) false) in
    match newlyWrittenTasks (tr b) with
    | [] => (b, ReadEnd [])
    | held =>
        let '(b, newTasks) := mergeTasksLocked b held mergeWrite in
        let b := advanceAckLevelLocked due (set_tr b (set_held (tr b) [])) in
        (b, ReadEnd newTasks)
    end
  else (b, ReadBatch (readLevel (tr b)) (loadedTasks (tr b))).

Definition retryReadAfter (b : backlog) : backlog :=
  if backoffTimer (tr b) then b else set_tr b (set_timer (tr b) true).
Definition backoff_fires (b : backlog) : backlog := maybeReadTasksLocked (set_tr b (set_timer (tr b) false)).

(** [readTaskBatch], cut where it does not hold the lock: the query, and what follows it. *)
Definition read_query (rows : fairRows) (level : fairLevel) (loaded : Z) : outcome fair_error (list AllocatedTaskInfo) :=
  GetFairTasks rows (inc (level_max level (mkLevel 1 0))) (batchSize - loaded).
(** [retry]: the error is neither fatal nor the end of the context. *)
Definition read_failed (b : backlog) (retry : bool) : backlog := if retry then retryReadAfter b else b.
Definition read_result (now : Z) (b : backlog) (loaded : Z) (tasks : list AllocatedTaskInfo) : backlog * list AllocatedTaskInfo :=
  let mode := if Z.of_nat (length tasks) <? batchSize - loaded then mergeReadToEnd else mergeReadMiddle in
  mergeTasks b (base.filter (λ t, IsTaskExpired now t = false) tasks) mode.

(** ** Writers *)

Definition getAndPinAckLevel (b : backlog) : backlog * fairLevel := (set_tr b (set_pin (tr b) true), ackLevel (tr b)).
Definition unpinAckLevel (due : bool) (b : backlog) (writeErr : bool) : backlog :=
  let b := if writeErr then maybeReadTasksLocked (set_tr b (set_read (tr b) (readLevel (tr b)) false)) else b in
  advanceAckLevelLocked due (set_tr b (set_pin (tr b) false)).

(** ** Collecting *)

(** How [CompleteFairTasksLessThan] ended: with an error, without telling how many rows it
    deleted (Cassandra), or with their number. *)
Inductive gc_result := GCFailed | GCUnknown | GCDeleted (n : Z).
(** The end of [doGC]. *)
Definition doGC_end (b : backlog) (res : gc_result) : backlog :=
  let t := tr b in
  set_tr b (set_gc t None
    (match res with GCFailed => numToGC t | GCUnknown => 0 | GCDeleted n => Z.max 0 (numToGC t - n) end)).
End reader.
