(* ===== verification/FairWriter.v ===== *)
(** * The writer of a fair task queue: [service/matching/fair_task_writer.go]

    Task ids come from blocks that belong to the range of the lease; passes come from a
    counter, asked with the pass of the ack level as its base.  One subqueue is modelled, so
    the writer has one counter. *)
From S2P Require Import Prelude FairLevel FairCounter FairStore.
Local Open Scope Z_scope.
Local Open Scope go_scope.

(** [req_stride] is [int64(strideFactor/weight)], the result of a floating-point division. *)
Record writeTaskRequest := mkRequest {
  req_key : string; req_stride : Z; req_create : option Z; req_expiry : option Z; req_data : nat; req_level : fairLevel }.

Definition set_id (r : writeTaskRequest) (i : Z) : writeTaskRequest :=
  mkRequest (req_key r) (req_stride r) (req_create r) (req_expiry r) (req_data r) (mkLevel (pass (req_level r)) i).
Definition set_pass (r : writeTaskRequest) (p : Z) : writeTaskRequest :=
  mkRequest (req_key r) (req_stride r) (req_create r) (req_expiry r) (req_data r) (mkLevel p (lid (req_level r))).
Definition request_task (r : writeTaskRequest) : AllocatedTaskInfo :=
  mkTask (pass (req_level r)) (lid (req_level r)) (req_create r) (req_expiry r) (req_data r).

Record taskIDBlock := mkBlock { block_start : Z; block_end : Z }.

(** ** Task ids *)

Section ids.
(** [renew] tells whether the lease of a range is renewed. *)
Context (rangeSize : Z) (renew : Z → bool).

Definition rangeIDToTaskIDBlock (rangeID : Z) : taskIDBlock := mkBlock ((rangeID - 1) * rangeSize + 1) (rangeID * rangeSize).

Definition allocTaskIDBlock (rangeID prevBlockEnd : Z) : outcome fair_error (taskIDBlock * Z) :=
  let currBlock := rangeIDToTaskIDBlock rangeID in
  if negb (block_end currBlock =? prevBlockEnd) then Err NonContiguousBlocks
  else if renew rangeID then Ok (rangeIDToTaskIDBlock (rangeID + 1), rangeID + 1) else Err RenewFailed.

(** The block and the range after the call, also when it fails, and the requests with ids. *)
Fixpoint allocTaskIDs (block : taskIDBlock) (rangeID : Z) (reqs : list writeTaskRequest)
    : taskIDBlock * Z * outcome fair_error (list writeTaskRequest) :=
  match reqs with
  | [] => (block, rangeID, Ok [])
  | r :: reqs =>
      match (if block_start block >? block_end block then allocTaskIDBlock rangeID (block_end block) else Ok (block, rangeID)) with
      | Ok (block, rangeID) =>
          let '(block', rangeID, res) := allocTaskIDs (mkBlock (block_start block + 1) (block_end block)) rangeID reqs in
          (block', rangeID, let! reqs := res in Ok (set_id r (block_start block) :: reqs))
      | Err e => (block, rangeID, Err e)
      | Panic => (block, rangeID, Panic)
      end
  end.

(** The block belongs to the range, and what is left of it is within it. *)
Definition block_ok (block : taskIDBlock) (rangeID : Z) : Prop :=
  1 ≤ rangeID ∧ block_end block = rangeID * rangeSize ∧ (rangeID - 1) * rangeSize + 1 ≤ block_start block ≤ rangeID * rangeSize + 1.

(** Ids go up, never come back, and the block stays that of the range; with a block of the
    range there is no [errNonContiguousBlocks]. *)
Lemma allocTaskIDs_spec block rangeID reqs block' rangeID' res :
  1 ≤ rangeSize → block_ok block rangeID → allocTaskIDs block rangeID reqs = (block', rangeID', res) →
  block_ok block' rangeID' ∧ block_start block ≤ block_start block' ∧ rangeID ≤ rangeID' ∧
  match res with
  | Ok reqs' =>
      StronglySorted (λ r s, lid (req_level r) < lid (req_level s)) reqs' ∧
      Forall (λ r, block_start block ≤ lid (req_level r) < block_start block') reqs'
  | Err e => e = RenewFailed
  | Panic => False
  end.
Proof.
  intros Hr. revert block rangeID block' rangeID' res. induction reqs as [|r reqs IH]; intros block rangeID block' rangeID' res Hb E.
  { simpl in E. injection E as <- <- <-. split; [exact Hb|]. split_and!; [lia|lia|constructor|constructor]. }
  simpl in E. destruct Hb as (H1 & H2 & H3).
  assert (∀ b rid, block_ok b rid → block_start block ≤ block_start b ≤ rid * rangeSize → rangeID ≤ rid →
    (let '(b', rid', res') := allocTaskIDs (mkBlock (block_start b + 1) (block_end b)) rid reqs in
     (b', rid', let! reqs := res' in Ok (set_id r (block_start b) :: reqs))) = (block', rangeID', res) →
    block_ok block' rangeID' ∧ block_start block ≤ block_start block' ∧ rangeID ≤ rangeID' ∧
    match res with
    | Ok reqs' => StronglySorted (λ r s, lid (req_level r) < lid (req_level s)) reqs' ∧
        Forall (λ r, block_start block ≤ lid (req_level r) < block_start block') reqs'
    | Err e => e = RenewFailed
    | Panic => False
    end) as Step.
  { intros b rid (B1 & B2 & B3) Hs Hle E'. destruct (allocTaskIDs _ rid reqs) as [[b1 rid1] res1] eqn:E1. injection E' as <- <- <-.
    destruct (IH (mkBlock (block_start b + 1) (block_end b)) rid b1 rid1 res1 ltac:(unfold block_ok; simpl; lia) E1) as (O & S1 & R1 & P). simpl in S1. split; [exact O|]. split_and!; [lia|lia|].
    destruct res1 as [reqs1|e|]; simpl; [|done|done]. destruct P as [S F]. simpl in F. split.
    - constructor; [done|]. eapply Forall_impl; [exact F|]. simpl. lia.
    - constructor; [simpl; lia|]. eapply Forall_impl; [exact F|]. simpl. lia. }
  destruct (Z.gtb_spec (block_start block) (block_end block)) as [G|G].
  - unfold allocTaskIDBlock in E. simpl in E. rewrite (proj2 (Z.eqb_eq _ _) (eq_sym H2)) in E. simpl in E. destruct (renew rangeID).
    + apply (Step _ _) in E; [done|unfold block_ok; simpl; nia|simpl; nia|lia].
    + injection E as <- <- <-. split; [by unfold block_ok|]. split_and!; [lia|lia|done].
  - apply (Step _ _) in E; [done|done|lia|lia].
Qed.
End ids.

(** ** Passes *)

Section passes.
Context {C : Type} `{Counter C}.

Fixpoint pickPasses (tasks : list writeTaskRequest) (base : fairLevel) (cntr : C) : option (list writeTaskRequest * C) :=
  match tasks with
  | [] => Some ([], cntr)
  | task :: tasks =>
      '(p, cntr) ← GetPass cntr (req_key task) (pass base) (Z.max 1 (req_stride task));
      '(tasks, cntr) ← pickPasses tasks base cntr;
      Some (set_pass task p :: tasks, cntr)
  end.

Lemma pickPasses_spec tasks base cntr : counter_ok cntr →
  ∃ tasks' cntr', pickPasses tasks base cntr = Some (tasks', cntr') ∧ counter_ok cntr' ∧
    Forall2 (λ t t', pass base ≤ pass (req_level t') ∧ lid (req_level t') = lid (req_level t)) tasks tasks'.
Proof.
  revert cntr. induction tasks as [|t tasks IH]; intros cntr Hc; simpl; [eauto|].
  destruct (GetPass_ok cntr (req_key t) (pass base) (Z.max 1 (req_stride t)) Hc) as (p & c1 & -> & Hp & Hc1).
  destruct (IH c1 Hc1) as (ts & c2 & E & Hc2 & F). simpl. rewrite E. simpl. eexists _, _. split_and!; [done|done|]. by constructor.
Qed.
End passes.
