(* ===== verification/FairMerge.v ===== *)
(** * Laws of the fair reader

    The window of the reader: its levels are above the ack level and not above the read
    level, acked entries are of finished tasks, and the counters are exact.  What merging
    tasks into it does, and how far the ack level moves. *)
From S2P Require Import Prelude FairLevel FairStore FairReader.
Local Open Scope Z_scope.

(** ** Counting what is loaded *)

Notation window := (gmap fairLevel (option AllocatedTaskInfo)).

Definition total (w : AllocatedTaskInfo → Z) (o : window) : Z := msum (from_option w 0) o.
Definition created_at (c : Z) (t : AllocatedTaskInfo) : Z := if bool_decide (CreateTime t = Some c) then 1 else 0.

(** The number of loaded tasks, and for each creation time how many of them have it. *)
Definition tallied (age : backlogAgeTracker) (o : window) (n : Z) : Prop :=
  n = total (λ _, 1) o ∧ (∀ c, default 0 (age !! c) = total (created_at c) o) ∧ map_Forall (λ _ k, 0 < k) age.

Lemma record_lookup age ts delta c :
  map_Forall (λ _ k, 0 < k) age →
  default 0 (record age ts delta !! c) = (if bool_decide (ts = Some c) then Z.max 0 (delta + default 0 (age !! c)) else default 0 (age !! c)) ∧
  map_Forall (λ _ k, 0 < k) (record age ts delta).
Proof.
  intros F. unfold record, backlogAgeTracker in *. destruct ts as [c'|]; [|done].
  destruct (Z.eqb_spec (Z.max 0 (delta + default 0 (age !! c'))) 0) as [E|E]; split.
  - case_bool_decide as D; [injection D as ->; by rewrite lookup_delete_eq, E|]. rewrite lookup_delete_ne; congruence.
  - by apply map_Forall_delete.
  - case_bool_decide as D; [injection D as ->; by rewrite lookup_insert_eq|]. rewrite lookup_insert_ne; congruence.
  - apply map_Forall_insert_2; [lia|done].
Qed.

Lemma total_created_nonneg c o : 0 ≤ total (created_at c) o.
Proof. apply msum_nonneg. intros [t|]; simpl; [unfold created_at; case_bool_decide; lia|lia]. Qed.

Lemma tallied_change age (o o' : window) n ts d :
  tallied age o n →
  total (λ _, 1) o' = total (λ _, 1) o + d →
  (∀ c, total (created_at c) o' = total (created_at c) o + (if bool_decide (ts = Some c) then d else 0)) →
  tallied (record age ts d) o' (n + d).
Proof.
  intros (En & Ea & F) Hn Hc. split; [lia|]. split; [|by apply record_lookup].
  intros c. destruct (record_lookup age ts d c F) as [-> _]. rewrite Hc, Ea.
  pose proof (total_created_nonneg c o') as P. rewrite Hc in P. case_bool_decide; lia.
Qed.

Lemma total_delete w (o : window) l v : o !! l = Some v → total w (delete l o) = total w o - from_option w 0 v.
Proof. intros E. unfold total. by rewrite (msum_delete _ o l v E). Qed.
Lemma total_insert w (o : window) l v :
  total w (<[l := v]> o) = total w o - from_option (from_option w 0) 0 (o !! l) + from_option w 0 v.
Proof. apply msum_insert. Qed.

Lemma tallied_remove age o n l t : tallied age o n → o !! l = Some (Some t) →
  tallied (record age (CreateTime t) (-1)) (delete l o) (n - 1).
Proof.
  intros T E. apply (tallied_change age o _ n (CreateTime t) (-1) T).
  - rewrite (total_delete _ _ _ _ E). simpl. lia.
  - intros c. rewrite (total_delete _ _ _ _ E). simpl. unfold created_at. case_bool_decide; lia.
Qed.
Lemma tallied_ack age o n l t : tallied age o n → o !! l = Some (Some t) →
  tallied (record age (CreateTime t) (-1)) (<[l := None]> o) (n - 1).
Proof.
  intros T E. apply (tallied_change age o _ n (CreateTime t) (-1) T).
  - rewrite total_insert, E. simpl. lia.
  - intros c. rewrite total_insert, E. simpl. unfold created_at. case_bool_decide; lia.
Qed.
Lemma tallied_add age o n l t : tallied age o n → o !! l = None →
  tallied (record age (CreateTime t) 1) (<[l := Some t]> o) (n + 1).
Proof.
  intros T E. apply (tallied_change age o _ n (CreateTime t) 1 T).
  - rewrite total_insert, E. simpl. lia.
  - intros c. rewrite total_insert, E. simpl. unfold created_at. case_bool_decide; lia.
Qed.
Lemma tallied_drop age o n l : tallied age o n → o !! l = Some None → tallied age (delete l o) n.
Proof.
  intros (En & Ea & F) E. split_and!; [|intros c|done]; rewrite (total_delete _ _ _ _ E); simpl; [lia|].
  rewrite Ea. lia.
Qed.

(** ** The invariant *)

Definition loaded (o : window) (l : fairLevel) : Prop := ∃ t, o !! l = Some (Some t).

Record reader_inv (fin : gset fairLevel) (t : fairTaskReader) : Prop := {
  ri_window : ∀ l v, outstandingTasks t !! l = Some v → ackLevel t <l l ∧ l ≤l readLevel t ∧ positive l;
  ri_level : ∀ l task, outstandingTasks t !! l = Some (Some task) → fairLevelFromAllocatedTask task = l;
  ri_acked : ∀ l, outstandingTasks t !! l = Some None → l ∈ fin;
  ri_tallied : tallied (backlogAge t) (outstandingTasks t) (loadedTasks t);
  ri_order : ackLevel t ≤l readLevel t }.

Lemma reader_inv_ext fin fin' t t' :
  fin ⊆ fin' → outstandingTasks t' = outstandingTasks t → backlogAge t' = backlogAge t → loadedTasks t' = loadedTasks t →
  readLevel t' = readLevel t → ackLevel t' = ackLevel t → reader_inv fin t → reader_inv fin' t'.
Proof. intros Hf E1 E2 E3 E4 E5 [I1 I2 I3 I4 I5]. constructor; rewrite ?E1, ?E2, ?E3, ?E4, ?E5; try done. intros l El. apply Hf. by apply I3. Qed.

(** ** The merged map *)

Definition accepted (t : fairTaskReader) (mode : mergeMode) (task : AllocatedTaskInfo) : Prop :=
  let l := fairLevelFromAllocatedTask task in
  ackLevel t <l l ∧ ¬ (mode = mergeWrite ∧ atEnd t = false ∧ readLevel t <l l) ∧ outstandingTasks t !! l = None.

Definition merged_ok (t : fairTaskReader) (mode : mergeMode) (tasks : list AllocatedTaskInfo) (m : gmap fairLevel merge_entry) : Prop :=
  (∀ l e, m !! l = Some e →
     match e with
     | InMatcher task => outstandingTasks t !! l = Some (Some task)
     | Incoming task => task ∈ tasks ∧ fairLevelFromAllocatedTask task = l ∧ accepted t mode task
     end) ∧
  (∀ l task, outstandingTasks t !! l = Some (Some task) → m !! l = Some (InMatcher task)) ∧
  (∀ task, task ∈ tasks → accepted t mode task → ∃ task', m !! fairLevelFromAllocatedTask task = Some (Incoming task')).

Lemma add_incoming_cases t mode m task :
  add_incoming t mode m task = m ∧ ¬ accepted t mode task ∨
  add_incoming t mode m task = <[fairLevelFromAllocatedTask task := Incoming task]> m ∧ accepted t mode task.
Proof.
  unfold add_incoming, accepted. destruct (less (ackLevel t) _) eqn:E1; simpl; [|apply less_false in E1; left; split; [done|]; intros [? _]; level_lia].
  apply less_spec in E1. case_match eqn:E2.
  - left. split; [done|]. intros (_ & N & _). apply N. rewrite !andb_true_iff, negb_true_iff, less_spec in E2.
    destruct E2 as [[E2%bool_decide_eq_true ?] ?]. done.
  - assert (¬ (mode = mergeWrite ∧ atEnd t = false ∧ readLevel t <l fairLevelFromAllocatedTask task)) as N.
    { intros (-> & Ea & L%less_spec). rewrite Ea, L in E2. by rewrite bool_decide_true in E2. }
    case_match; [left|right]; (split; [done|]); [intros (_ & _ & ?); congruence|done].
Qed.

Lemma merged_tasks_ok t mode tasks : merged_ok t mode tasks (merged_tasks t mode tasks).
Proof.
  unfold merged_tasks.
  assert (∀ done_ m rest, merged_ok t mode done_ m → merged_ok t mode (done_ ++ rest) (foldl (add_incoming t mode) m rest)) as H.
  { intros done_ m rest. revert done_ m. induction rest as [|task rest IH]; intros done_ m (A & B & D); [by rewrite app_nil_r|].
    simpl. rewrite cons_middle, app_assoc. apply IH.
    destruct (add_incoming_cases t mode m task) as [[-> N]|[-> Y]]; split_and!.
    - intros l [u|u] E; specialize (A l _ E); simpl in A; [done|]. set_solver.
    - done.
    - intros u [Hu|Hu%list_elem_of_singleton]%elem_of_app Yu; [by apply D|by subst].
    - intros l e [[<- <-]|[_ E]]%lookup_insert_Some; [set_solver|]. specialize (A l e E). destruct e; [done|set_solver].
    - intros l u E. specialize (B l u E). rewrite lookup_insert_ne; [done|]. intros <-. destruct Y as (_ & _ & Y). congruence.
    - intros u Hu Yu. destruct (decide (fairLevelFromAllocatedTask u = fairLevelFromAllocatedTask task)) as [->|Ne].
      + rewrite lookup_insert_eq. eauto.
      + rewrite lookup_insert_ne by done. apply D; [|done]. apply elem_of_app in Hu as [?|Hu%list_elem_of_singleton]; [done|by subst]. }
  apply (H []). split_and!.
  - intros l e. rewrite lookup_omap. destruct (outstandingTasks t !! l) as [[u|]|]; simpl; [|done..]. by intros [= <-].
  - intros l u E. by rewrite lookup_omap, E.
  - intros u Hu. by apply not_elem_of_nil in Hu.
Qed.

(** ** The three loops of a merge *)

Lemma evict_fold rest t :
  NoDup rest.*1 → (∀ l task, (l, InMatcher task) ∈ rest → outstandingTasks t !! l = Some (Some task)) →
  tallied (backlogAge t) (outstandingTasks t) (loadedTasks t) →
  ∃ age o n, foldl evict_one t rest = set_window t age o n ∧ tallied age o n ∧
    (∀ l task, (l, InMatcher task) ∈ rest → o !! l = None) ∧
    (∀ l, (∀ task, (l, InMatcher task) ∉ rest) → o !! l = outstandingTasks t !! l).
Proof.
  revert t. induction rest as [|[k e] rest IH]; intros t Hn Hin T.
  { exists (backlogAge t), (outstandingTasks t), (loadedTasks t). split_and!; [by destruct t|done| |done].
    intros ? ? Hx. by apply not_elem_of_nil in Hx. }
  rewrite fmap_cons, NoDup_cons in Hn. destruct Hn as [Hk Hn]. simpl in Hk. destruct e as [u|u].
  - assert (outstandingTasks t !! k = Some (Some u)) as Ek by (apply Hin; by left).
    destruct (IH (evict_one t (k, InMatcher u))) as (age & o & n & E & T' & Hd & Hs); [done| |by apply tallied_remove|].
    { intros l task Hl. simpl. rewrite lookup_delete_ne; [apply Hin; by right|]. intros <-. apply Hk.
      apply list_elem_of_fmap. by exists (k, InMatcher task). }
    exists age, o, n. simpl in *. split_and!; [by rewrite E|done| |].
    + intros l task [[= -> ->]|Hl]%elem_of_cons; [|by eapply Hd]. rewrite Hs; [apply lookup_delete_eq|].
      intros v Hv. apply Hk, list_elem_of_fmap. by exists (k, InMatcher v).
    + intros l Hl. rewrite Hs; [|intros v Hv; apply (Hl v); by right]. apply lookup_delete_ne. intros <-. apply (Hl u). by left.
  - destruct (IH t) as (age & o & n & E & T' & Hd & Hs); [done|intros; apply Hin; by right|done|].
    exists age, o, n. simpl in *. split_and!; [done|done| |].
    + intros l task [?|Hl]%elem_of_cons; [done|by eapply Hd].
    + intros l Hl. apply Hs. intros v Hv. apply (Hl v). by right.
Qed.

Lemma drop_fold ls t :
  NoDup ls → (∀ l, l ∈ ls → outstandingTasks t !! l = Some None) →
  tallied (backlogAge t) (outstandingTasks t) (loadedTasks t) →
  ∃ o, foldl drop_acked t ls = set_window t (backlogAge t) o (loadedTasks t) ∧ tallied (backlogAge t) o (loadedTasks t) ∧
    ∀ l, o !! l = if bool_decide (l ∈ ls) then None else outstandingTasks t !! l.
Proof.
  revert t. induction ls as [|k ls IH]; intros t Hn Hin T.
  { exists (outstandingTasks t). split_and!; [by destruct t|done|]. intros l. by rewrite bool_decide_false by set_solver. }
  apply NoDup_cons in Hn as [Hk Hn].
  destruct (IH (drop_acked t k)) as (o & E & T' & Hs); [done| |apply tallied_drop; [done|apply Hin; by left]|].
  { intros l Hl. simpl. rewrite lookup_delete_ne; [apply Hin; by right|]. by intros <-. }
  exists o. simpl in *. split_and!; [by rewrite E|done|]. intros l. rewrite Hs.
  destruct (decide (l = k)) as [->|N]; [rewrite bool_decide_false by done|rewrite lookup_delete_ne by done].
  - rewrite lookup_delete_eq. by rewrite bool_decide_true by (by left).
  - case_bool_decide; case_bool_decide; set_solver.
Qed.

Lemma load_fold tasks t :
  NoDup (fairLevelFromAllocatedTask <$> tasks) → (∀ u, u ∈ tasks → outstandingTasks t !! fairLevelFromAllocatedTask u = None) →
  tallied (backlogAge t) (outstandingTasks t) (loadedTasks t) →
  ∃ age o n, foldl load_one t tasks = set_window t age o n ∧ tallied age o n ∧
    (∀ u, u ∈ tasks → o !! fairLevelFromAllocatedTask u = Some (Some u)) ∧
    ∀ l, (∀ u, u ∈ tasks → fairLevelFromAllocatedTask u ≠ l) → o !! l = outstandingTasks t !! l.
Proof.
  revert t. induction tasks as [|u tasks IH]; intros t Hn Hin T.
  { exists (backlogAge t), (outstandingTasks t), (loadedTasks t). split_and!; [by destruct t|done| |done].
    intros ? Hx. by apply not_elem_of_nil in Hx. }
  rewrite fmap_cons, NoDup_cons in Hn. destruct Hn as [Hk Hn].
  assert (∀ v, v ∈ tasks → fairLevelFromAllocatedTask v ≠ fairLevelFromAllocatedTask u) as Ne.
  { intros v Hv E. apply Hk. rewrite <- E. by apply list_elem_of_fmap_2. }
  destruct (IH (load_one t u)) as (age & o & n & E & T' & Hd & Hs); [done| |apply tallied_add; [done|apply Hin; by left]|].
  { intros v Hv. simpl. rewrite lookup_insert_ne by (by apply not_eq_sym, Ne). apply Hin. by right. }
  exists age, o, n. simpl in *. split_and!; [by rewrite E|done| |].
  - intros v [->|Hv]%elem_of_cons; [|by apply Hd]. rewrite Hs by apply Ne. apply lookup_insert_eq.
  - intros l Hl. rewrite Hs; [|intros v Hv; apply Hl; by right]. apply lookup_insert_ne. apply Hl. by left.
Qed.

Lemma acked_above_spec t : NoDup (acked_above t) ∧
  ∀ l, l ∈ acked_above t ↔ outstandingTasks t !! l = Some None ∧ readLevel t <l l.
Proof.
  unfold acked_above. split.
  - apply (NoDup_fmap_filter fst). pose proof (tree_list_sorted (outstandingTasks t)) as S.
    induction S as [|p l _ IH F]; [constructor|]. rewrite fmap_cons, NoDup_cons. split; [|done].
    intros (q & E & Hq)%list_elem_of_fmap. rewrite Forall_forall in F. specialize (F q Hq). unfold keys_lt in F. rewrite E in F. level_lia.
  - intros l. setoid_rewrite (list_elem_of_fmap fst _ l). split.
    + intros ([k v] & -> & [[Ev L] Hp]%list_elem_of_filter). simpl in *. subst v. apply elem_of_tree_list in Hp. by apply less_spec in L.
    + intros [E L]. exists (l, None). split; [done|]. apply list_elem_of_filter. split; [|by apply elem_of_tree_list].
      split; [done|by apply less_spec].
Qed.

(** ** Merging *)

Section merge.
Context (fin : gset fairLevel) (batchSize : Z).

(** Where the merged tasks are cut: at the read level. *)
Lemma merge_cut t mode tasks : reader_inv fin t → Forall (λ u, positive (fairLevelFromAllocatedTask u)) tasks →
  let all := tree_list (merged_tasks t mode tasks) in
  let kept := take (Z.to_nat batchSize) all in let rest := drop (Z.to_nat batchSize) all in
  let highest := match last kept with Some p => p.1 | None => zeroLevel end in
  let R := if negb (lid highest =? 0) then highest else ackLevel t in
  NoDup all.*1 ∧ (∀ p, p ∈ kept → p.1 ≤l R) ∧ (∀ p, p ∈ rest → R <l p.1) ∧ ackLevel t ≤l R ∧
  (R = ackLevel t ∨ ∃ e, (R, e) ∈ kept).
Proof.
  intros I P all kept rest highest R. destruct (merged_tasks_ok t mode tasks) as (A & _ & _).
  assert (∀ p, p ∈ all → ackLevel t <l p.1 ∧ positive p.1) as Pos.
  { intros [l e] Hp. apply elem_of_tree_list in Hp. specialize (A _ _ Hp). destruct e as [u|u].
    - destruct (ri_window _ _ I _ _ A) as (? & _ & ?). done.
    - destruct A as (Hu & <- & (? & _)). rewrite Forall_forall in P. split; [done|by apply P]. }
  assert (StronglySorted keys_lt all) as S by apply tree_list_sorted.
  assert (NoDup all.*1) as N.
  { clear -S. induction S as [|p l _ IH F]; [constructor|]. rewrite fmap_cons, NoDup_cons. split; [|done].
    intros (q & E & Hq)%list_elem_of_fmap. rewrite Forall_forall in F. specialize (F q Hq). unfold keys_lt in F. rewrite E in F. level_lia. }
  split; [done|]. unfold R, highest. destruct (last kept) as [p|] eqn:El.
  - assert (p ∈ kept) as Hp. { apply last_Some in El as [l' ->]. apply elem_of_app. right. by left. }
    destruct (Pos p) as [La [_ Li]]; [by eapply subseteq_take|].
    destruct (Z.eqb_spec (lid p.1) 0) as [|_]; [lia|]. simpl. split_and!.
    + intros q Hq. by apply (tree_list_last (merged_tasks t mode tasks) (Z.to_nat batchSize) p q).
    + intros q Hq. by apply (tree_list_cut (merged_tasks t mode tasks) (Z.to_nat batchSize) p q).
    + level_lia.
    + right. exists p.2. by destruct p.
  - apply last_None in El. simpl. split_and!.
    + intros q Hq. rewrite El in Hq. by apply not_elem_of_nil in Hq.
    + intros q Hq. apply Pos. rewrite <- (take_drop (Z.to_nat batchSize) all). apply elem_of_app. by right.
    + level_lia.
    + by left.
Qed.

Record merge_result (t : fairTaskReader) (tasks : list AllocatedTaskInfo) (mode : mergeMode) (new : list AllocatedTaskInfo)
    (t' : fairTaskReader) : Prop := {
  mr_frame : ∃ age o n, t' = set_read (set_window t age o n) (readLevel t') (atEnd t');
  mr_inv : reader_inv fin t';
  mr_from : ∀ l u, outstandingTasks t' !! l = Some (Some u) →
    outstandingTasks t !! l = Some (Some u) ∨ u ∈ tasks;
  mr_loaded : ∀ l, loaded (outstandingTasks t) l →
    loaded (outstandingTasks t') l ∨ readLevel t' <l l ∧ atEnd t' = false;
  mr_accepted : ∀ u, u ∈ tasks → accepted t mode u →
    loaded (outstandingTasks t') (fairLevelFromAllocatedTask u) ∨ readLevel t' <l fairLevelFromAllocatedTask u ∧ atEnd t' = false;
  mr_read : readLevel t' ≤l readLevel t ∨ ∃ u, u ∈ tasks ∧ accepted t mode u ∧ fairLevelFromAllocatedTask u = readLevel t';
  mr_middle : mode = mergeReadMiddle → atEnd t' = false;
  mr_write : mode = mergeWrite → atEnd t = false → atEnd t' = false;
  mr_new : ∀ u, u ∈ new → u ∈ tasks ∧ accepted t mode u }.

Lemma elem_of_incoming l u : u ∈ incoming l ↔ ∃ k, (k, Incoming u) ∈ l.
Proof.
  unfold incoming. rewrite list_elem_of_omap. split.
  - intros ([k [v|v]] & Hp & E); simpl in E; [done|]. injection E as ->. eauto.
  - intros [k Hk]. by exists (k, Incoming u).
Qed.

Lemma incoming_NoDup l : NoDup l.*1 → (∀ k u, (k, Incoming u) ∈ l → fairLevelFromAllocatedTask u = k) →
  NoDup (fairLevelFromAllocatedTask <$> incoming l).
Proof.
  induction l as [|[k e] l IH]; intros N H; [constructor|]. rewrite fmap_cons, NoDup_cons in N. destruct N as [Nk N].
  assert (NoDup (fairLevelFromAllocatedTask <$> incoming l)) as Nl by (apply IH; [done|]; intros; apply H; by right).
  destruct e as [u|u]; [done|]. change (incoming ((k, Incoming u) :: l)) with (u :: incoming l).
  rewrite fmap_cons, NoDup_cons. split; [|done]. rewrite (H k u) by (by left).
  intros (v & E & [k' Hv]%elem_of_incoming)%list_elem_of_fmap. apply Nk, list_elem_of_fmap. exists (k', Incoming v).
  split; [|done]. simpl. rewrite E. apply H. by right.
Qed.

(** The window after the three loops. *)
Lemma merge_window t tasks mode R :
  let all := tree_list (merged_tasks t mode tasks) in
  let kept := take (Z.to_nat batchSize) all in let rest := drop (Z.to_nat batchSize) all in
  reader_inv fin t → NoDup all.*1 → (∀ p, p ∈ kept → p.1 ≤l R) → (∀ p, p ∈ rest → R <l p.1) →
  let t1 := foldl evict_one (set_read t R (atEnd t)) rest in
  let t3 := foldl load_one (foldl drop_acked t1 (acked_above t1)) (incoming kept) in
  ∃ age o n, t3 = set_read (set_window t age o n) R (atEnd t) ∧ tallied age o n ∧
    (∀ l v, o !! l = Some v → l ≤l R ∧
       match v with
       | None => outstandingTasks t !! l = Some None
       | Some u => outstandingTasks t !! l = Some (Some u) ∨ (l, Incoming u) ∈ kept
       end) ∧
    (∀ l u, outstandingTasks t !! l = Some (Some u) → o !! l = Some (Some u) ∨ R <l l ∧ rest ≠ []) ∧
    (∀ l u, (l, Incoming u) ∈ kept → o !! l = Some (Some u)).
Proof.
  intros all kept rest I N Hle Hgt. destruct (merged_tasks_ok t mode tasks) as (A & B & _).
  assert (∀ p, p ∈ all ↔ p ∈ kept ∨ p ∈ rest) as Hall.
  { intros p. rewrite <- (take_drop (Z.to_nat batchSize) all), elem_of_app. done. }
  assert (∀ l e, (l, e) ∈ all ↔ merged_tasks t mode tasks !! l = Some e) as Hm by (intros; apply elem_of_tree_list).
  assert (∀ l u, (l, Incoming u) ∈ kept → fairLevelFromAllocatedTask u = l ∧ outstandingTasks t !! l = None) as Hinc.
  { intros l u Hk. destruct (A l (Incoming u)) as (_ & El & (_ & _ & No)); [apply Hm, Hall; by left|]. by rewrite <- El. }
  assert (NoDup rest.*1 ∧ NoDup kept.*1) as [Nr Nk].
  { rewrite <- (take_drop (Z.to_nat batchSize) all), fmap_app in N. apply NoDup_app in N as (? & _ & ?). done. }
  destruct (evict_fold rest (set_read t R (atEnd t))) as (age1 & o1 & n1 & E1 & T1 & D1 & S1);
    [done|intros l u Hr; apply (A l (InMatcher u)), Hm, Hall; by right|apply I|].
  cbv zeta. rewrite E1. destruct (acked_above_spec (set_window (set_read t R (atEnd t)) age1 o1 n1)) as [Na Ha]. simpl in Ha.
  set (ls := acked_above _) in *.
  destruct (drop_fold ls (set_window (set_read t R (atEnd t)) age1 o1 n1)) as (o2 & E2 & T2 & S2); [done|intros l Hl; by apply Ha|done|].
  change (foldl drop_acked (set_window (set_read t R (atEnd t)) age1 o1 n1) ls = set_window (set_read t R (atEnd t)) age1 o2 n1) in E2.
  rewrite E2. simpl in S1, S2, T2.
  assert (∀ l v, o1 !! l = Some v → outstandingTasks t !! l = Some v) as Back1.
  { intros l v E. destruct (outstandingTasks t !! l) as [v'|] eqn:Eo.
    - rewrite S1, Eo in E; [done|]. intros u Hu. apply D1 in Hu. congruence.
    - rewrite S1, Eo in E; [done|]. intros u Hu. apply D1 in Hu. congruence. }
  destruct (load_fold (incoming kept) (set_window (set_read t R (atEnd t)) age1 o2 n1)) as (age3 & o3 & n3 & E3 & T3 & D3 & S3);
    [apply incoming_NoDup; [done|intros k u Hk; by apply Hinc]| |done|].
  { intros u [k Hk]%elem_of_incoming. destruct (Hinc _ _ Hk) as [Ek No]. rewrite Ek. simpl. rewrite S2. case_bool_decide; [done|].
    destruct (o1 !! k) as [v|] eqn:E; [|done]. apply Back1 in E. congruence. }
  exists age3, o3, n3. rewrite E3. simpl in S3. split; [done|]. split; [done|]. split_and!.
  - intros l v E. destruct (decide (l ∈ fairLevelFromAllocatedTask <$> incoming kept)) as [Hl|Hl].
    + apply list_elem_of_fmap in Hl as (u & -> & Hu). rewrite (D3 u Hu) in E. injection E as <-.
      apply elem_of_incoming in Hu as [k Hk]. destruct (Hinc _ _ Hk) as [Ek _]. rewrite Ek. split; [by apply (Hle _ Hk)|by right].
    + rewrite S3 in E; [|intros u Hu <-; apply Hl; by apply list_elem_of_fmap_2].
      rewrite S2 in E. case_bool_decide as Dl; [done|]. pose proof (Back1 _ _ E) as Eo. destruct v as [u|].
      * split; [|by left]. pose proof (B _ _ Eo) as Em. apply Hm, Hall in Em as [Hk|Hr]; [by apply (Hle _ Hk)|].
        apply D1 in Hr. congruence.
      * split; [|done]. destruct (less R l) eqn:L; [|by apply less_false]. apply less_spec in L. exfalso. apply Dl, Ha. done.
  - intros l u Eo. pose proof (B _ _ Eo) as Em. apply Hm, Hall in Em as [Hk|Hr].
    + left. rewrite S3; [|intros v [k Hv]%elem_of_incoming <-; destruct (Hinc _ _ Hv) as [<- ?]; congruence].
      rewrite S2. assert (o1 !! l = Some (Some u)) as E.
      { rewrite S1; [done|]. intros v Hv. pose proof (Hgt _ Hv) as G. pose proof (Hle _ Hk). simpl in *. level_lia. }
      rewrite bool_decide_false; [done|]. intros [Hl _]%Ha. congruence.
    + right. split; [by apply (Hgt _ Hr)|]. intros Er. rewrite Er in Hr. by apply not_elem_of_nil in Hr.
  - intros l u Hk. destruct (Hinc _ _ Hk) as [<- _]. apply D3, elem_of_incoming. eauto.
Qed.

Lemma known_count_ack s n : FairAckLevel (setKnownFairBacklogCount s n) = FairAckLevel s.
Proof. unfold setKnownFairBacklogCount. by case_match. Qed.

Lemma merge_spec b tasks mode b' new :
  reader_inv fin (tr b) → Forall (λ u, positive (fairLevelFromAllocatedTask u)) tasks →
  mergeTasksLocked batchSize b tasks mode = (b', new) →
  merge_result (tr b) tasks mode new (tr b') ∧ ctxDone b' = ctxDone b ∧ FairAckLevel (sub b') = FairAckLevel (sub b).
Proof.
  intros I P E. destruct (merge_cut (tr b) mode tasks I P) as (N & Hle & Hgt & HA & HR). cbv zeta in *.
  destruct (merged_tasks_ok (tr b) mode tasks) as (A & _ & D).
  unfold mergeTasksLocked in E. cbv zeta in E. set (t := tr b) in *. set (all := tree_list (merged_tasks t mode tasks)) in *.
  set (kept := take (Z.to_nat batchSize) all) in *. set (rest := drop (Z.to_nat batchSize) all) in *.
  set (R := if negb (lid (match last kept with Some p => p.1 | None => zeroLevel end) =? 0) then _ else ackLevel t) in *.
  destruct (merge_window t tasks mode R I N Hle Hgt) as (age & o & n & E3 & T & Back & Keep & Load). cbv zeta in E3.
  fold all kept rest in E3, Back, Keep, Load. rewrite E3 in E. clear E3. injection E as <- <-. simpl.
  split; [|split; [done|]]; [|match goal with |- context [if ?c >=? 0 then _ else _] => destruct (c >=? 0) end; [apply known_count_ack|done]].
  set (ev := negb (bool_decide (rest = [])) || _).
  set (t' := if bool_decide (mode = mergeReadMiddle) || ev then _ else _).
  assert (∃ e, t' = set_read (set_window t age o n) R e ∧ (rest ≠ [] → e = false) ∧ (mode = mergeReadMiddle → e = false) ∧
    (mode = mergeWrite → atEnd t = false → e = false)) as (e & Et & He1 & He2 & He3).
  { exists (if bool_decide (mode = mergeReadMiddle) || ev then false else if bool_decide (mode = mergeReadToEnd) then true else atEnd t).
    split_and!; [unfold t'; repeat case_match; done|..].
    - intros Hr. assert (ev = true) as -> by (unfold ev; by rewrite bool_decide_false). by rewrite orb_true_r.
    - intros ->. by rewrite bool_decide_true.
    - intros -> Ea. case_match; [done|]. by rewrite bool_decide_false. }
  clearbody t'. subst t'. assert (∀ l e, (l, e) ∈ all ↔ merged_tasks t mode tasks !! l = Some e) as Hm by (intros; apply elem_of_tree_list).
  assert (∀ l u, (l, Incoming u) ∈ kept → u ∈ tasks ∧ fairLevelFromAllocatedTask u = l ∧ accepted t mode u) as Hinc.
  { intros l u Hk. apply (A l (Incoming u)), Hm. by eapply subseteq_take. }
  constructor; simpl.
  - by exists age, o, n.
  - constructor; simpl; [| | |done|done].
    + intros l v El. destruct (Back _ _ El) as [L Hv]. destruct v as [u|].
      * destruct Hv as [Eo|Hk]; [destruct (ri_window _ _ I _ _ Eo) as (? & _ & ?); done|].
        destruct (Hinc _ _ Hk) as (Hu & <- & (? & _)). rewrite Forall_forall in P. split_and!; [done|done|by apply P].
      * destruct (ri_window _ _ I _ _ Hv) as (? & _ & ?). done.
    + intros l u El. destruct (Back _ _ El) as [_ [Eo|Hk]]; [by apply (ri_level _ _ I)|by apply (Hinc _ _ Hk)].
    + intros l El. destruct (Back _ _ El) as [_ Eo]. by apply (ri_acked _ _ I).
  - intros l u El. destruct (Back _ _ El) as [_ [Eo|Hk]]; [by left|right; by apply (Hinc _ _ Hk)].
  - intros l [u Eo]. destruct (Keep _ _ Eo) as [?|[? ?]]; [left; by exists u|right; auto].
  - intros u Hu Ac. destruct (D u Hu Ac) as [u' Em]. apply Hm in Em. rewrite <- (take_drop (Z.to_nat batchSize) all) in Em.
    apply elem_of_app in Em as [Hk|Hr]; [left; exists u'; by apply Load|]. right. split; [by apply (Hgt _ Hr)|].
    apply He1. intros Er. fold rest in Hr. rewrite Er in Hr. by apply not_elem_of_nil in Hr.
  - destruct HR as [->|[x Hk]]; [left; apply I|]. destruct x as [u|u].
    + left. assert (merged_tasks t mode tasks !! R = Some (InMatcher u)) as Em by (apply Hm; by eapply subseteq_take).
      apply A in Em. apply (ri_window _ _ I _ _ Em).
    + right. destruct (Hinc _ _ Hk) as (? & ? & ?). eauto.
  - done.
  - done.
  - intros u [k Hk]%elem_of_incoming. destruct (Hinc _ _ Hk) as (? & _ & ?). done.
Qed.
End merge.

(** ** Moving the ack level *)

Lemma advance_loop_spec fuel o ack n age k o' ack' n' :
  tallied age o k → (∀ l v, o !! l = Some v → ack <l l) → advance_loop fuel o ack n = (o', ack', n') →
  tallied age o' k ∧ (∀ l v, o' !! l = Some v → o !! l = Some v ∧ ack' <l l) ∧ (∀ l, loaded o l → loaded o' l) ∧
  (n' = n ∧ ack' = ack ∧ o' = o ∨ n < n' ∧ ack <l ack' ∧ o !! ack' = Some None) ∧
  ((size o ≤ fuel)%nat → ∀ l, tree_Min o' ≠ Some (l, None)).
Proof.
  revert o ack n. induction fuel as [|fuel IH]; intros o ack n T Hk E; simpl in E.
  { injection E as <- <- <-. split_and!; [apply T..|by split; [|by eapply Hk]|done|by left|].
    intros Hs l. assert (size o = 0%nat) as ->%map_size_empty_inv by lia. by rewrite (proj2 (tree_Min_None ∅) eq_refl). }
  destruct (tree_Min o) as [[l [u|]]|] eqn:M.
  - injection E as <- <- <-. split_and!; [apply T..|by split; [|by eapply Hk]|done|by left|by rewrite M].
  - apply tree_Min_spec in M as [El Hmin]. destruct (IH (delete l o) l (n + 1)) as (T' & B & L & C & S); [by apply tallied_drop| |done|].
    { intros m v [Ne Em]%lookup_delete_Some. specialize (Hmin _ _ Em). apply level_le_eq in Hmin as [?|?]; done. }
    split_and!; [apply T'..| | | |].
    + intros m v Em. destruct (B _ _ Em) as [[_ ?]%lookup_delete_Some ?]. done.
    + intros m [u Em]. apply L. exists u. rewrite lookup_delete_ne; [done|]. intros <-. congruence.
    + right. pose proof (Hk _ _ El). destruct C as [(-> & -> & _)|(? & ? & [_ ?]%lookup_delete_Some)]; split_and!; try lia; try done; level_lia.
    + intros Hs. apply S. rewrite map_size_delete_Some by (by exists None). lia.
  - injection E as <- <- <-. split_and!; [apply T..|by split; [|by eapply Hk]|done|by left|by rewrite M].
Qed.

Record ack_result (b b' : backlog) : Prop := {
  ar_frame : readPending (tr b') = readPending (tr b) ∧ backoffTimer (tr b') = backoffTimer (tr b) ∧
    readLevel (tr b') = readLevel (tr b) ∧ atEnd (tr b') = atEnd (tr b) ∧ newlyWrittenTasks (tr b') = newlyWrittenTasks (tr b) ∧
    ackLevelPinnedByWriter (tr b') = ackLevelPinnedByWriter (tr b) ∧ ctxDone b' = ctxDone b ∧ loadedTasks (tr b') = loadedTasks (tr b);
  ar_loaded : ∀ l t, outstandingTasks (tr b') !! l = Some (Some t) ↔ outstandingTasks (tr b) !! l = Some (Some t);
  ar_level : ackLevel (tr b') = ackLevel (tr b) ∨
    ackLevelPinnedLocked (tr b) = false ∧ ackLevel (tr b) <l ackLevel (tr b') ∧ outstandingTasks (tr b) !! ackLevel (tr b') = Some None;
  ar_gc : inGC (tr b') = inGC (tr b) ∨ inGC (tr b') = Some (ackLevel (tr b')) ∧ ackLevel (tr b') ≠ ackLevel (tr b);
  ar_sub : FairAckLevel (sub b') = FairAckLevel (sub b) ∨ fairLevelFromProto (FairAckLevel (sub b')) = ackLevel (tr b') }.

Lemma advance_spec maxDelete fin due b :
  reader_inv fin (tr b) →
  reader_inv fin (tr (advanceAckLevelLocked maxDelete due b)) ∧ ack_result b (advanceAckLevelLocked maxDelete due b).
Proof.
  intros I. unfold advanceAckLevelLocked. destruct (ackLevelPinnedLocked (tr b)) eqn:Pin.
  { split; [done|]. constructor; [by split_and!|done|by left|by left|by left]. }
  destruct (advance_loop _ _ _ _) as [[o' ack'] n'] eqn:E.
  destruct (advance_loop_spec _ _ _ _ _ _ _ _ _ (ri_tallied _ _ I) (λ l v El, proj1 (ri_window _ _ I l v El)) E) as (T & B & L & C & _).
  assert (ackLevel (tr b) ≤l ack' ∧ ack' ≤l readLevel (tr b)) as [Hlo Hhi].
  { pose proof (ri_order _ _ I). destruct C as [(_ & -> & _)|(_ & ? & Ea)]; [split; level_lia|].
    destruct (ri_window _ _ I _ _ Ea) as (_ & ? & _). split; level_lia. }
  assert (∀ l u, o' !! l = Some (Some u) ↔ outstandingTasks (tr b) !! l = Some (Some u)) as Hl.
  { intros l u. split; [apply B|]. intros E'. destruct (L l (ex_intro _ u E')) as [u' Eu]. destruct (B _ _ Eu) as [Eo _]. congruence. }
  assert (∀ t, outstandingTasks t = o' → backlogAge t = backlogAge (tr b) → loadedTasks t = loadedTasks (tr b) → ackLevel t = ack' →
    readLevel t = readLevel (tr b) → reader_inv fin t) as Inv.
  { intros t Ho Eg En Ea Er. constructor; rewrite ?Ho, ?Ea, ?Er, ?Eg, ?En.
    - intros l v Ev. destruct (B _ _ Ev) as [Eo ?]. destruct (ri_window _ _ I _ _ Eo) as (_ & ? & ?). done.
    - intros l u Eu. apply (ri_level _ _ I). by apply B.
    - intros l Eu. apply (ri_acked _ _ I). by apply B.
    - done.
    - done. }
  destruct (Z.gtb_spec n' 0) as [G|G].
  - destruct C as [(-> & _ & _)|(_ & Lt & Ea)]; [lia|]. cbv zeta. unfold maybeGCLocked. set (g := shouldGCLocked _ _ _).
    split; [apply Inv; simpl; by destruct g|]. constructor.
    + simpl. by destruct g.
    + simpl. by destruct g.
    + right. simpl. by destruct g.
    + simpl. destruct g; [right|by left]. split; [done|]. simpl. intros Eq. rewrite Eq in Lt. level_lia.
    + right. simpl. unfold updateFairAckLevel. destruct g; simpl; repeat case_match; simpl; apply proto_roundtrip.
  - destruct C as [(-> & -> & ->)|(? & _ & _)]; [|lia]. split; [by apply Inv|].
    constructor; simpl; [by split_and!|done|by left|by left|by left].
Qed.
