(* ===== verification/FairBacklog.v ===== *)
(** * The backlog of a fair task queue: reader, writer and store together
    ([fair_task_reader.go], [fair_task_writer.go], [fair_backlog_manager.go], [db.go])

    One subqueue with everything that runs on it: the writer's loop, the read loop, the
    collector, the matcher that completes tasks, writes whose outcome is not known, and owners
    that come and go.  A step is a section under a lock or a call of the store. *)
From S2P Require Import Prelude FairLevel FairCounter FairStore FairReader FairWriter FairMerge.
Local Open Scope Z_scope.

(** Where the writer and the read loop are between their steps. *)
Inductive write_phase :=
  | WIdle | WCreating (tasks : list AllocatedTaskInfo) | WCreated (tasks : list AllocatedTaskInfo) | WEnding (err : bool).
Inductive read_phase :=
  | RIdle | RTop (lastErr : bool) | RReading (level : fairLevel) (loaded : Z) | RGot (loaded : Z) (tasks : list AllocatedTaskInfo).

Definition levels (tasks : list AllocatedTaskInfo) : gset fairLevel := list_to_set (map fairLevelFromAllocatedTask tasks).

Section backlog.
Context {C : Type} `{Counter C}.
Context (batchSize reloadAt maxDelete rangeSize : Z).

(** [limbo] has the tasks of failed writes that may still appear, [old_gcs] the deletions that
    owners before sent and may still take effect, [dispatched] what the reader handed to
    the matcher and [respooling] what is being written again after an error.  [spooled] and
    [finished] are for the statements: the levels whose write was confirmed, and those that are
    done with, completed, written again or found expired. *)
Record fairQueue := mkQueue {
  bl : backlog; rd : read_phase; wr : write_phase; block : taskIDBlock; rangeID : Z; cntr : C;
  rows : fairRows; limbo : list AllocatedTaskInfo; old_gcs : list fairLevel; persisted : dbSubqueue;
  dispatched : list AllocatedTaskInfo; respooling : list AllocatedTaskInfo;
  spooled : gset fairLevel; finished : gset fairLevel }.

Definition set_bl (s : fairQueue) (b : backlog) (new : list AllocatedTaskInfo) : fairQueue :=
  mkQueue b (match rd s with RIdle => if readPending (tr b) then RTop false else RIdle | r => r end) (wr s) (block s) (rangeID s)
    (cntr s) (rows s) (limbo s) (old_gcs s) (persisted s) (dispatched s ++ new) (respooling s) (spooled s) (finished s).
Definition set_rd (s : fairQueue) (r : read_phase) : fairQueue :=
  mkQueue (bl s) r (wr s) (block s) (rangeID s) (cntr s) (rows s) (limbo s) (old_gcs s) (persisted s) (dispatched s) (respooling s)
    (spooled s) (finished s).
Definition set_wr (s : fairQueue) (w : write_phase) : fairQueue :=
  mkQueue (bl s) (rd s) w (block s) (rangeID s) (cntr s) (rows s) (limbo s) (old_gcs s) (persisted s) (dispatched s) (respooling s)
    (spooled s) (finished s).
Definition set_ids (s : fairQueue) (bk : taskIDBlock) (r : Z) (c : C) : fairQueue :=
  mkQueue (bl s) (rd s) (wr s) bk r c (rows s) (limbo s) (old_gcs s) (persisted s) (dispatched s) (respooling s)
    (spooled s) (finished s).
Definition set_rows (s : fairQueue) (r : fairRows) (l : list AllocatedTaskInfo) : fairQueue :=
  mkQueue (bl s) (rd s) (wr s) (block s) (rangeID s) (cntr s) r l (old_gcs s) (persisted s) (dispatched s) (respooling s)
    (spooled s) (finished s).
Definition set_done (s : fairQueue) (sp fin : gset fairLevel) : fairQueue :=
  mkQueue (bl s) (rd s) (wr s) (block s) (rangeID s) (cntr s) (rows s) (limbo s) (old_gcs s) (persisted s) (dispatched s) (respooling s)
    sp fin.
Definition set_respooling (s : fairQueue) (l : list AllocatedTaskInfo) : fairQueue :=
  mkQueue (bl s) (rd s) (wr s) (block s) (rangeID s) (cntr s) (rows s) (limbo s) (old_gcs s) (persisted s) (dispatched s) l
    (spooled s) (finished s).
Definition set_persisted (s : fairQueue) (p : dbSubqueue) : fairQueue :=
  mkQueue (bl s) (rd s) (wr s) (block s) (rangeID s) (cntr s) (rows s) (limbo s) (old_gcs s) p (dispatched s) (respooling s)
    (spooled s) (finished s).

(** A new owner: its reader starts at the ack level that was last written, with a new range.
    What the owner before was writing may still appear. *)
Definition reload (s : fairQueue) (r : Z) (c : C) : fairQueue :=
  let b := Start reloadAt (mkBacklog (newFairTaskReader (fairLevelFromProto (FairAckLevel (persisted s)))) (persisted s) false) in
  mkQueue b (if readPending (tr b) then RTop false else RIdle) WIdle (rangeIDToTaskIDBlock rangeSize r) r c (rows s)
    (limbo s ++ match wr s with WCreating tasks => tasks | _ => [] end)
    (old_gcs s ++ match inGC (tr (bl s)) with Some l => [l] | None => [] end) (persisted s) [] [] (spooled s) (finished s).

Definition finish_levels (s : fairQueue) (ls : gset fairLevel) : fairQueue := set_done s (spooled s) (finished s ∪ ls).

(** The steps of the program: [fair_step] with [late_respool] and [late_gc] true.  Two of them are races in which the program
    loses tasks, and each can be left out: the end of [completeTask] after a task was written again, which does not look
    whether the window still has the task; and a deletion of an owner before that takes effect late, since the query has no
    condition on the lease.  The theorems say which steps they allow. *)
Context (late_respool late_gc : Prop).
Inductive fair_step : fairQueue → fairQueue → Prop :=
  (* the writer's loop: ids, then the pin and the passes *)
  | fs_no_ids s reqs renew bk r e :
      wr s = WIdle → allocTaskIDs rangeSize renew (block s) (rangeID s) reqs = (bk, r, Err e) →
      fair_step s (set_ids s bk r (cntr s))
  | fs_pin s reqs renew bk r reqs1 b base reqs2 c :
      wr s = WIdle → allocTaskIDs rangeSize renew (block s) (rangeID s) reqs = (bk, r, Ok reqs1) →
      getAndPinAckLevel (bl s) = (b, base) → pickPasses reqs1 base (cntr s) = Some (reqs2, c) →
      Forall (λ q, 1 ≤ pass (req_level q)) reqs2 →
      fair_step s (set_wr (set_ids (set_bl s b []) bk r c) (WCreating (map request_task reqs2)))
  (* the store: confirmed, failed, or a batch without tasks for this subqueue *)
  | fs_created s tasks sub' rows' :
      wr s = WCreating tasks → tasks ≠ [] → CreateFairTasks (sub (bl s)) (rows s) tasks CreateOk = (sub', rows', None) →
      fair_step s (set_done (set_wr (set_rows (set_bl s (set_sub (bl s) sub') []) rows' (limbo s)) (WCreated tasks))
        (spooled s ∪ levels tasks) (finished s))
  | fs_create_failed s tasks res sub' rows' e :
      wr s = WCreating tasks → CreateFairTasks (sub (bl s)) (rows s) tasks res = (sub', rows', Some e) →
      fair_step s (set_wr (set_rows (set_bl s (set_sub (bl s) sub') []) rows'
        (limbo s ++ match e with CreateOtherError _ => tasks | _ => [] end)) (WEnding true))
  | fs_no_tasks s err : wr s = WCreating [] → fair_step s (set_wr s (WEnding err))
  | fs_wrote s tasks b new :
      wr s = WCreated tasks → wroteNewTasks batchSize (bl s) tasks = (b, new) →
      fair_step s (set_wr (set_bl s b new) (WEnding false))
  | fs_unpin s err due :
      wr s = WEnding err →
      fair_step s (set_wr (set_bl s (unpinAckLevel reloadAt maxDelete due (bl s) err) []) WIdle)
  | fs_lands s l1 t l2 :
      limbo s = l1 ++ t :: l2 → fair_step s (set_rows s (insert_row (rows s) t) (l1 ++ l2))
  (* the read loop *)
  | fs_read_batch s e due b l n :
      rd s = RTop e → readTasksImpl batchSize reloadAt maxDelete due (bl s) e = (b, ReadBatch l n) →
      fair_step s (set_rd (set_bl s b []) (RReading l n))
  | fs_read_end s e due b new :
      rd s = RTop e → readTasksImpl batchSize reloadAt maxDelete due (bl s) e = (b, ReadEnd new) →
      fair_step s (set_rd (set_bl s b new) RIdle)
  | fs_query s l n tasks :
      rd s = RReading l n → read_query batchSize (rows s) l n = Ok tasks → fair_step s (set_rd s (RGot n tasks))
  | fs_query_failed s l n retry :
      rd s = RReading l n → fair_step s (set_rd (set_bl s (read_failed (bl s) retry) []) (RTop true))
  | fs_read_result s n tasks now b new :
      rd s = RGot n tasks → read_result batchSize now (bl s) n tasks = (b, new) →
      fair_step s (finish_levels (set_rd (set_bl s b new) (RTop false)) (levels (base.filter (λ t, IsTaskExpired now t = true) tasks)))
  | fs_timer s : backoffTimer (tr (bl s)) = true → fair_step s (set_bl s (backoff_fires reloadAt (bl s)) [])
  (* tasks come back from the matcher *)
  | fs_complete s task due b next :
      task ∈ dispatched s → completeTask reloadAt maxDelete due (bl s) task ResponseOk = (b, next) →
      fair_step s (finish_levels (set_bl s b []) {[fairLevelFromAllocatedTask task]})
  | fs_fail s task due res b next :
      task ∈ dispatched s → res ≠ ResponseOk → completeTask reloadAt maxDelete due (bl s) task res = (b, next) →
      fair_step s (set_respooling (set_bl s b []) (match next with CompleteRespool => task :: respooling s | _ => respooling s end))
  | fs_respooled s l1 task l2 due :
      respooling s = l1 ++ task :: l2 → loaded (outstandingTasks (tr (bl s))) (fairLevelFromAllocatedTask task) ∨ late_respool →
      fair_step s (finish_levels (set_respooling (set_bl s (completeTaskLocked reloadAt maxDelete due (bl s) task) []) (l1 ++ l2))
        {[fairLevelFromAllocatedTask task]})
  (* the collector, the metadata, and the owner *)
  | fs_gc s l rows' n :
      inGC (tr (bl s)) = Some l → CompleteTasksLessThan (rows s) (inc l) maxDelete = Ok (rows', n) →
      fair_step s (set_rows (set_bl s (doGC_end (bl s) (GCDeleted n)) []) rows' (limbo s))
  | fs_gc_failed s l rows' n (applied : bool) :
      inGC (tr (bl s)) = Some l → CompleteTasksLessThan (rows s) (inc l) maxDelete = Ok (rows', n) →
      fair_step s (set_rows (set_bl s (doGC_end (bl s) GCFailed) []) (if applied then rows' else rows s) (limbo s))
  | fs_old_gc s l rows' n :
      late_gc → l ∈ old_gcs s → CompleteTasksLessThan (rows s) (inc l) maxDelete = Ok (rows', n) →
      fair_step s (set_rows s rows' (limbo s))
  | fs_sync s : fair_step s (set_persisted s (sub (bl s)))
  | fs_stop s : fair_step s (set_bl s (mkBacklog (tr (bl s)) (sub (bl s)) true) [])
  | fs_reload s r c : rangeID s < r → counter_ok c → fair_step s (reload s r c).

(** A new task queue, as its first owner creates it. *)
Definition empty_subqueue : dbSubqueue := mkSubqueue None 0 None None.
Definition new_queue (c : C) : fairQueue :=
  let b := Start reloadAt (mkBacklog (newFairTaskReader zeroLevel) empty_subqueue false) in
  mkQueue b (if readPending (tr b) then RTop false else RIdle) WIdle
    (rangeIDToTaskIDBlock rangeSize 1) 1 c ∅ [] [] empty_subqueue [] [] ∅ ∅.
End backlog.
