(* ===== verification/FairSafety.v ===== *)
(** * The fair backlog loses nothing

    The invariant of the backlog and its preservation by every step; the theorems are in
    [FairProps]. *)
From S2P Require Import Prelude FairLevel FairCounter FairStore FairReader FairWriter FairMerge FairBacklog.
Local Open Scope Z_scope.

Lemma elem_of_levels l tasks : l ∈ levels tasks ↔ ∃ t, t ∈ tasks ∧ fairLevelFromAllocatedTask t = l.
Proof.
  unfold levels. rewrite elem_of_list_to_set. setoid_rewrite (list_elem_of_fmap fairLevelFromAllocatedTask tasks l). naive_solver.
Qed.

Section safety.
Context {C : Type} `{Counter C}.
Context (batchSize reloadAt maxDelete rangeSize : Z).
Implicit Types s : fairQueue (C := C).
Notation step := (fair_step batchSize reloadAt maxDelete rangeSize False False).

(** ** The invariant *)

(** A confirmed task that is not done with. *)
Definition owed s (l : fairLevel) : Prop := l ∈ spooled s ∧ l ∉ finished s.

(** Written, and not yet merged into the window. *)
Definition waiting s (l : fairLevel) : Prop :=
  l ∈ levels (newlyWrittenTasks (tr (bl s))) ∨ match wr s with WCreated tasks => l ∈ levels tasks | _ => False end.

Definition covered (t : fairTaskReader) (w : Prop) (l : fairLevel) : Prop :=
  loaded (outstandingTasks t) l ∨ w ∨ readLevel t <l l ∧ atEnd t = false.

Definition write_tasks (w : write_phase) : list AllocatedTaskInfo := match w with WCreating ts | WCreated ts => ts | _ => [] end.
Definition read_tasks (r : read_phase) : list AllocatedTaskInfo := match r with RGot _ ts => ts | _ => [] end.

(** [U] has every task there ever was, by its level. *)
Definition known (U : fairRows) (t : AllocatedTaskInfo) : Prop := U !! fairLevelFromAllocatedTask t = Some t.

Record static_inv (U : fairRows) s : Prop := {
  si_universe : map_Forall (λ l t, fairLevelFromAllocatedTask t = l ∧ positive l ∧ lid l < block_start (block s)) U;
  si_block : block_ok rangeSize (block s) (rangeID s);
  si_counter : counter_ok (cntr s);
  si_lists : Forall (known U) (limbo s ++ dispatched s ++ respooling s ++ newlyWrittenTasks (tr (bl s)) ++ write_tasks (wr s) ++ read_tasks (rd s));
  si_rows : ∀ l t, rows s !! l = Some t → U !! l = Some t;
  si_window : ∀ l t, outstandingTasks (tr (bl s)) !! l = Some (Some t) → U !! l = Some t;
  si_done : spooled s ∪ finished s ⊆ dom U;
  si_ack : lid (ackLevel (tr (bl s))) < block_start (block s);
  si_persisted : lid (fairLevelFromProto (FairAckLevel (persisted s))) < block_start (block s);
  si_sub : lid (fairLevelFromProto (FairAckLevel (sub (bl s)))) < block_start (block s) }.

Definition snapshot_ok s (n : Z) (tasks : list AllocatedTaskInfo) : Prop :=
  Forall (λ u, readLevel (tr (bl s)) <l fairLevelFromAllocatedTask u) tasks ∧
  ∀ l, owed s l → readLevel (tr (bl s)) <l l →
    l ∈ levels tasks ∨ waiting s l ∨
    batchSize - n ≤ Z.of_nat (length tasks) ∧ Forall (λ u, fairLevelFromAllocatedTask u <l l) tasks.

Record dynamic_inv s : Prop := {
  di_reader : reader_inv (finished s) (tr (bl s));
  di_persisted : fairLevelFromProto (FairAckLevel (persisted s)) ≤l ackLevel (tr (bl s));
  di_sub : fairLevelFromProto (FairAckLevel (sub (bl s))) ≤l ackLevel (tr (bl s));
  di_gc : ∀ g, inGC (tr (bl s)) = Some g → g ≤l ackLevel (tr (bl s));
  di_rows : ∀ l, owed s l → is_Some (rows s !! l);
  di_above : ∀ l, owed s l → ackLevel (tr (bl s)) <l l;
  di_covered : ∀ l, owed s l → covered (tr (bl s)) (waiting s l) l;
  di_creating : ∀ tasks, wr s = WCreating tasks → Forall (λ t, ackLevel (tr (bl s)) <l fairLevelFromAllocatedTask t) tasks;
  di_pin : ackLevelPinnedByWriter (tr (bl s)) = true ↔ wr s ≠ WIdle;
  di_pending : readPending (tr (bl s)) = true ↔ rd s ≠ RIdle;
  di_read : match rd s with
            | RReading l _ => l = readLevel (tr (bl s))
            | RGot n tasks => snapshot_ok s n tasks
            | _ => True
            end }.

Definition queue_inv (U : fairRows) s : Prop := static_inv U s ∧ dynamic_inv s.

Lemma not_pinned_not_waiting s l : dynamic_inv s → ackLevelPinnedLocked (tr (bl s)) = false → ¬ waiting s l ∧ ∀ ts, wr s ≠ WCreating ts.
Proof.
  intros D P. unfold ackLevelPinnedLocked in P. apply orb_false_iff in P as [P1 P2].
  assert (wr s = WIdle) as Ew.
  { destruct (di_pin s D) as [_ Hp]. destruct (wr s); [done|..]; exfalso; rewrite Hp in P1; done. }
  assert (newlyWrittenTasks (tr (bl s)) = []) as Eh by (destruct (newlyWrittenTasks _); [done|apply Z.ltb_ge in P2; simpl in P2; lia]).
  unfold waiting. rewrite Ew, Eh. split; [|done]. intros [Hl|Hl]; [|done]. by apply elem_of_levels in Hl as (? & ?%not_elem_of_nil & _).
Qed.

(** ** Parts of steps *)

Lemma set_bl_phase s b new : rd (set_bl s b new) = match rd s with RIdle => if readPending (tr b) then RTop false else RIdle | r => r end.
Proof. done. Qed.

Lemma level_id_bound U s l : static_inv U s → l ∈ dom U → lid l < block_start (block s).
Proof. intros St [t E]%elem_of_dom. apply (si_universe U s St _ _ E). Qed.

Lemma loaded_ext (o o' : window) l : (∀ t, o' !! l = Some (Some t) ↔ o !! l = Some (Some t)) → loaded o' l ↔ loaded o l.
Proof. intros E. unfold loaded. by setoid_rewrite E. Qed.

Lemma inv_advance U s due : queue_inv U s → queue_inv U (set_bl s (advanceAckLevelLocked maxDelete due (bl s)) []).
Proof.
  intros [St D]. destruct (advance_spec maxDelete (finished s) due (bl s) (di_reader s D)) as [I R].
  set (b := advanceAckLevelLocked maxDelete due (bl s)) in *. destruct (ar_frame _ _ R) as (F1 & F2 & F3 & F4 & F5 & F6 & F7 & F8).
  assert (rd (set_bl s b []) = rd s) as Erd.
  { rewrite set_bl_phase, F1. pose proof (di_pending s D) as P. destruct (rd s); [|done..]. destruct (readPending (tr (bl s))); [|done].
    exfalso. by apply P. }
  assert (ackLevel (tr (bl s)) ≤l ackLevel (tr b)) as Hle by (destruct (ar_level _ _ R) as [->|(_ & ? & _)]; level_lia).
  assert (∀ l, waiting (set_bl s b []) l ↔ waiting s l) as Ew by (intros l; unfold waiting; simpl; by rewrite F5).
  assert (∀ l, owed s l → ackLevel (tr b) <l l) as Hab.
  { intros l Ho. destruct (ar_level _ _ R) as [->|(P & _ & E)]; [by apply (di_above s D)|].
    destruct (not_pinned_not_waiting s l D P) as [Nw _]. destruct (di_covered s D l Ho) as [[t Et]|[?|[Hr _]]]; [|done|].
    - apply (ar_loaded _ _ R) in Et. apply (ri_window _ _ I _ _ Et).
    - pose proof (ri_order _ _ I) as O. rewrite F3 in O. level_lia. }
  assert (lid (ackLevel (tr b)) < block_start (block s)) as Hid.
  { destruct (ar_level _ _ R) as [->|(_ & _ & E)]; [apply St|]. apply (ri_acked _ _ (di_reader s D)) in E.
    apply (level_id_bound U s _ St). pose proof (si_done U s St). set_solver. }
  split.
  - destruct St as [S1 S2 S3 S4 S5 S6 S7 S8 S9 S10]. constructor; simpl; try done.
    + rewrite app_nil_r, F5. simpl in Erd. by rewrite Erd.
    + intros l t E%(ar_loaded _ _ R). by apply S6.
    + destruct (ar_sub _ _ R) as [-> | ->]; done.
  - destruct D as [D1 D2 D3 D4 D5 D6 D7 D8 D9 D10 D11]. simpl in Erd. constructor; simpl; rewrite ?Erd; try done.
    + level_lia.
    + destruct (ar_sub _ _ R) as [-> | ->]; level_lia.
    + intros g. destruct (ar_gc _ _ R) as [Eq|[Eq _]]; rewrite Eq; [intros Eg; specialize (D4 g Eg); level_lia|intros [= <-]; level_lia].
    + intros l Ho. unfold covered. rewrite Ew, F3, F4, (loaded_ext _ _ _ (ar_loaded _ _ R l)). by apply D7.
    + intros ts Ets. destruct (ar_level _ _ R) as [->|(P & _ & _)]; [by apply D8|].
      destruct (not_pinned_not_waiting s zeroLevel ltac:(by constructor) P) as [_ N]. by apply N in Ets.
    + by rewrite F6.
    + by rewrite F1.
    + destruct (rd s); [done|done|by rewrite F3|]. unfold snapshot_ok in *. simpl. rewrite F3. setoid_rewrite Ew. done.
Qed.

Lemma inv_maybe_read U s : queue_inv U s → queue_inv U (set_bl s (maybeReadTasksLocked reloadAt (bl s)) []).
Proof.
  intros [St D]. unfold maybeReadTasksLocked. case_match eqn:E.
  - assert (set_bl s (bl s) [] = s) as ->; [|done]. destruct s. unfold set_bl. simpl in *. rewrite app_nil_r. f_equal.
    destruct (di_pending _ D) as [P _]. simpl in P. destruct rd; [|done..]. destruct (readPending (tr bl)); [|done]. exfalso. by apply P.
  - apply orb_false_iff in E as [[[E _]%orb_false_iff _]%orb_false_iff _].
    assert (rd s = RIdle) as Er.
    { destruct (di_pending s D) as [_ P]. destruct (rd s); [done|..]; rewrite P in E; done. }
    split.
    + destruct St as [S1 S2 S3 S4 S5 S6 S7 S8 S9 S10]. constructor; simpl; try done. rewrite Er, (app_nil_r (dispatched s)). by rewrite Er in S4.
    + destruct D as [D1 D2 D3 D4 D5 D6 D7 D8 D9 D10 D11]. constructor; simpl; rewrite ?Er; try done.
      by eapply reader_inv_ext, D1.
Qed.

Lemma set_bl_id s : dynamic_inv s → set_bl s (bl s) [] = s.
Proof.
  intros D. destruct s. unfold set_bl. simpl in *. rewrite app_nil_r. f_equal.
  destruct (di_pending _ D) as [P _]. simpl in P. destruct rd; [|done..]. destruct (readPending (tr bl)); [|done]. exfalso. by apply P.
Qed.

Lemma set_bl_set_bl s b1 n1 b2 n2 : (readPending (tr b1) = true → readPending (tr b2) = true) →
  set_bl (set_bl s b1 n1) b2 n2 = set_bl s b2 (n1 ++ n2).
Proof.
  intros Hp. unfold set_bl. simpl. rewrite app_assoc. f_equal. destruct (rd s); [|done..].
  destruct (readPending (tr b1)); [by rewrite Hp|done].
Qed.

Lemma maybe_read_pending b : readPending (tr b) = true → readPending (tr (maybeReadTasksLocked reloadAt b)) = true.
Proof. intros E. unfold maybeReadTasksLocked. by rewrite E. Qed.

Lemma owed_finish s ls l : owed (finish_levels s ls) l → owed s l ∧ l ∉ ls.
Proof. unfold owed. simpl. set_solver. Qed.

Lemma inv_finish U s ls : ls ⊆ dom U → queue_inv U s → queue_inv U (finish_levels s ls).
Proof.
  intros Hs [St D]. split.
  - destruct St as [S1 S2 S3 S4 S5 S6 S7 S8 S9 S10]. constructor; simpl; try done. set_solver.
  - destruct D as [D1 D2 D3 D4 D5 D6 D7 D8 D9 D10 D11]. constructor; simpl; try done.
    + eapply reader_inv_ext, D1; try done. set_solver.
    + intros l [Ho _]%owed_finish. by apply D5.
    + intros l [Ho _]%owed_finish. by apply D6.
    + intros l [Ho _]%owed_finish. by apply D7.
    + destruct (rd s); try done. destruct D11 as [F Hl]. split; [done|]. intros l [Ho _]%owed_finish. by apply Hl.
Qed.

Definition acked_window (t : fairTaskReader) (task : AllocatedTaskInfo) : fairTaskReader :=
  set_window t (record (backlogAge t) (CreateTime task) (-1)) (<[fairLevelFromAllocatedTask task := None]> (outstandingTasks t))
    (loadedTasks t - 1).

Lemma inv_acked U s task : queue_inv U s → known U task → loaded (outstandingTasks (tr (bl s))) (fairLevelFromAllocatedTask task) →
  queue_inv U (finish_levels (set_bl s (set_tr (bl s) (acked_window (tr (bl s)) task)) []) {[fairLevelFromAllocatedTask task]}).
Proof.
  intros [St D] Hk [u Eu]. set (l0 := fairLevelFromAllocatedTask task) in *.
  assert (u = task) as -> by (pose proof (si_window U s St _ _ Eu); unfold known in Hk; fold l0 in Hk; congruence).
  assert (∀ l, l ≠ l0 → loaded (<[l0 := None]> (outstandingTasks (tr (bl s)))) l ↔ loaded (outstandingTasks (tr (bl s))) l) as Hl.
  { intros l N. apply loaded_ext. intros t. by rewrite lookup_insert_ne by done. }
  pose proof (f_equal rd (set_bl_id s D)) as Erd. rewrite set_bl_phase in Erd. split.
  - destruct St as [S1 S2 S3 S4 S5 S6 S7 S8 S9 S10]. constructor; simpl; try done.
    + rewrite app_nil_r. by rewrite Erd.
    + intros l t E. apply S6. destruct (decide (l = l0)) as [->|N]; [by rewrite lookup_insert_eq in E|by rewrite lookup_insert_ne in E].
    + assert (l0 ∈ dom U) by (apply elem_of_dom; by exists task). set_solver.
  - destruct D as [D1 D2 D3 D4 D5 D6 D7 D8 D9 D10 D11]. constructor; simpl; rewrite ?Erd; try done.
    + destruct D1 as [I1 I2 I3 I4 I5]. constructor; simpl; [| | |by apply tallied_ack|done].
      * intros l v [[<- <-]|[_ E]]%lookup_insert_Some; [by apply (I1 _ _ Eu)|by apply (I1 _ _ E)].
      * intros l t [[_ ?]|[_ E]]%lookup_insert_Some; [done|by apply I2].
      * intros l [[<- _]|[_ E]]%lookup_insert_Some; [set_solver|]. apply I3 in E. set_solver.
    + intros l [Ho _]%owed_finish. by apply D5.
    + intros l [Ho _]%owed_finish. by apply D6.
    + intros l [Ho N]%owed_finish. destruct (D7 l Ho) as [L|?]; [left|by right]. apply Hl; [set_solver|done].
    + destruct (rd s); try done. destruct D11 as [F Hs]. split; [done|]. intros l [Ho _]%owed_finish. by apply Hs.
Qed.

Lemma inv_complete_locked U s task due : queue_inv U s → known U task →
  loaded (outstandingTasks (tr (bl s))) (fairLevelFromAllocatedTask task) →
  queue_inv U (finish_levels (set_bl s (completeTaskLocked reloadAt maxDelete due (bl s) task) []) {[fairLevelFromAllocatedTask task]}).
Proof.
  intros Q Hk L. pose proof (inv_acked U s task Q Hk L) as Q1. apply (inv_advance U _ due) in Q1. apply inv_maybe_read in Q1.
  unfold completeTaskLocked. fold (acked_window (tr (bl s)) task). cbn [bl set_bl finish_levels set_done] in Q1.
  set (b1 := set_tr (bl s) _) in *. set (b2 := advanceAckLevelLocked maxDelete due b1) in *.
  assert (readPending (tr b2) = readPending (tr b1)) as E2.
  { destruct (advance_spec maxDelete (finished s ∪ {[fairLevelFromAllocatedTask task]}) due b1) as [_ R]; [|apply R].
    by destruct (inv_acked U s task Q Hk L) as [_ [D1 _ _ _ _ _ _ _ _ _ _]]. }
  change (finish_levels (set_bl s (maybeReadTasksLocked reloadAt b2) []) {[fairLevelFromAllocatedTask task]})
    with (set_bl (finish_levels s {[fairLevelFromAllocatedTask task]}) (maybeReadTasksLocked reloadAt b2) []).
  change (queue_inv U (set_bl (set_bl (set_bl (finish_levels s {[fairLevelFromAllocatedTask task]}) b1 []) b2 [])
    (maybeReadTasksLocked reloadAt b2) [])) in Q1.
  rewrite (set_bl_set_bl _ b1) in Q1 by (by rewrite E2). rewrite set_bl_set_bl in Q1; [done|apply maybe_read_pending].
Qed.

(** ** Merges *)

Lemma known_positive U s t : static_inv U s → known U t → positive (fairLevelFromAllocatedTask t).
Proof. intros St Hk. apply (si_universe U s St _ _ Hk). Qed.

Lemma merge_frame fin t tasks mode new t' : merge_result fin t tasks mode new t' →
  ackLevel t' = ackLevel t ∧ readPending t' = readPending t ∧ newlyWrittenTasks t' = newlyWrittenTasks t ∧
  ackLevelPinnedByWriter t' = ackLevelPinnedByWriter t ∧ inGC t' = inGC t ∧ backoffTimer t' = backoffTimer t.
Proof. intros M. destruct (mr_frame _ _ _ _ _ _ M) as (age & o & n & ->). done. Qed.

(** Above the old read level of a reader that is not at the end, a write changes nothing. *)
Lemma write_above fin t tasks new t' l : merge_result fin t tasks mergeWrite new t' →
  atEnd t = false → readLevel t <l l → readLevel t' <l l ∧ atEnd t' = false.
Proof.
  intros M Ea Hr. split; [|by apply (mr_write _ _ _ _ _ _ M)].
  destruct (mr_read _ _ _ _ _ _ M) as [?|(u & _ & (_ & N & _) & <-)]; [level_lia|].
  destruct (less (readLevel t) (fairLevelFromAllocatedTask u)) eqn:L; [apply less_spec in L; exfalso; by apply N|].
  apply less_false in L. level_lia.
Qed.

Lemma write_covers U s tasks new t' w l :
  queue_inv U s → merge_result (finished s) (tr (bl s)) tasks mergeWrite new t' →
  owed s l → l ∈ levels tasks ∨ covered (tr (bl s)) w l → covered t' w l.
Proof.
  intros [St D] M Ho Hl. destruct Hl as [Hl|[Hl|[Hl|[Hr Ea]]]].
  - apply elem_of_levels in Hl as (u & Hu & El). destruct (outstandingTasks (tr (bl s)) !! l) as [[v|]|] eqn:Eo.
    + destruct (mr_loaded _ _ _ _ _ _ M l (ex_intro _ v Eo)) as [?|?]; [by left|by right; right].
    + apply (ri_acked _ _ (di_reader s D)) in Eo. by destruct Ho.
    + destruct (decide (atEnd (tr (bl s)) = false ∧ readLevel (tr (bl s)) <l l)) as [[Ea Hr]|N].
      * right. right. by apply (write_above _ _ _ _ _ l M).
      * assert (accepted (tr (bl s)) mergeWrite u) as Ac.
        { split_and!; rewrite ?El; [by apply (di_above s D)|naive_solver|done]. }
        destruct (mr_accepted _ _ _ _ _ _ M u Hu Ac) as [?|?]; rewrite El in *; [by left|by right; right].
  - destruct (mr_loaded _ _ _ _ _ _ M l Hl) as [?|?]; [by left|by right; right].
  - by right; left.
  - right. right. by apply (write_above _ _ _ _ _ l M).
Qed.

Lemma inv_merge_write U s tasks b' new h' w' :
  queue_inv U s → rd s = RIdle → Forall (known U) tasks → Forall (known U) h' → Forall (known U) (write_tasks w') →
  (w' = wr s ∨ (∃ ts, wr s = WCreated ts) ∧ w' = WEnding false) →
  (∀ l, waiting s l → l ∈ levels tasks ∨ l ∈ levels h' ∨ match w' with WCreated ts => l ∈ levels ts | _ => False end) →
  mergeTasksLocked batchSize (bl s) tasks mergeWrite = (b', new) →
  queue_inv U (set_wr (set_bl s (set_tr b' (set_held (tr b') h')) new) w').
Proof.
  intros Q Er Kt Kh Kw Hw Hwait E. pose proof Q as [St D].
  destruct (merge_spec (finished s) batchSize (bl s) tasks mergeWrite b' new (di_reader s D)) as (M & Ec & Es); [|done|].
  { eapply Forall_impl; [exact Kt|]. intros t. by apply (known_positive U s). }
  destruct (merge_frame _ _ _ _ _ _ M) as (Fa & Fp & Fn & Fw & Fg & Ft).
  assert (readPending (tr (bl s)) = false) as Ep.
  { destruct (readPending (tr (bl s))) eqn:Ep; [|done]. apply (di_pending s D) in Ep. by rewrite Er in Ep. }
  split.
  - destruct St as [S1 S2 S3 S4 S5 S6 S7 S8 S9 S10]. constructor; simpl; rewrite ?Es; try done.
    + rewrite !Forall_app in *. destruct S4 as (? & ? & ? & ? & ? & ?). rewrite Er, Fp, Ep. split_and!; try done.
      apply Forall_forall. intros u Hu. rewrite Forall_forall in Kt. apply Kt, (mr_new _ _ _ _ _ _ M u Hu).
    + intros l t El. destruct (mr_from _ _ _ _ _ _ M _ _ El) as [?|Hu]; [by apply S6|].
      rewrite Forall_forall in Kt. specialize (Kt _ Hu). unfold known in Kt. by rewrite (ri_level _ _ (mr_inv _ _ _ _ _ _ M) _ _ El) in Kt.
    + by rewrite Fa.
  - pose proof D as [D1 D2 D3 D4 D5 D6 D7 D8 D9 D10 D11]. constructor; simpl; rewrite ?Fa, ?Fg, ?Es; try done.
    + eapply reader_inv_ext, (mr_inv _ _ _ _ _ _ M); done.
    + intros l Ho. assert (owed s l) as Ho' by done.
      eapply (write_covers U s tasks new (tr b') _ l Q M Ho'). unfold waiting at 1. simpl.
      destruct (D7 l Ho') as [?|[W|?]]; [right; by left|destruct (Hwait l W) as [?|?]; [by left|right; right; by left]|right; right; by right].
    + intros ts Ets. destruct Hw as [->|[_ ->]]; [by apply D8|done].
    + rewrite Fw, D9. destruct Hw as [->|[[ts ->] ->]]; done.
    + rewrite Er, Fp, Ep. done.
    + by rewrite Er, Fp, Ep.
Qed.

Lemma inv_read_result U s n tasks now b' new :
  queue_inv U s → rd s = RGot n tasks → read_result batchSize now (bl s) n tasks = (b', new) →
  queue_inv U (finish_levels (set_rd (set_bl s b' new) (RTop false)) (levels (base.filter (λ t, IsTaskExpired now t = true) tasks))).
Proof.
  intros Q0 Er E. set (ex := levels _). pose proof Q0 as [St0 D0].
  assert (Forall (known U) tasks) as Kt.
  { pose proof (si_lists U s St0) as Sl. rewrite !Forall_app, Er in Sl. apply Sl. }
  assert (queue_inv U (finish_levels s ex)) as Q.
  { apply inv_finish; [|done]. intros l (t & [_ Ht]%list_elem_of_filter & <-)%elem_of_levels. rewrite Forall_forall in Kt.
    apply elem_of_dom. exists t. by apply Kt. }
  change (queue_inv U (set_rd (set_bl (finish_levels s ex) b' new) (RTop false))).
  assert (∀ u, u ∈ tasks → fairLevelFromAllocatedTask u ∉ finished (finish_levels s ex) → IsTaskExpired now u = false) as Hex.
  { intros u Hu N. destruct (IsTaskExpired now u) eqn:Ex; [|done]. exfalso. apply N. simpl. apply elem_of_union. right.
    apply elem_of_levels. exists u. split; [by apply list_elem_of_filter|done]. }
  assert (rd (finish_levels s ex) = RGot n tasks) as Er1 by done.
  change (read_result batchSize now (bl (finish_levels s ex)) n tasks = (b', new)) in E.
  revert Q Hex Er1 E. generalize (finish_levels s ex). clear s Q0 Er St0 D0 ex. intros s Q Hex Er E.
  pose proof Q as [St D]. unfold read_result, mergeTasks in E. set (mode := if _ <? _ then mergeReadToEnd else mergeReadMiddle) in *.
  assert (mode ≠ mergeWrite) as Nm by (unfold mode; by destruct (_ <? _)).
  rewrite (bool_decide_false (mode = mergeWrite)) in E by done. simpl in E.
  set (live := base.filter _ tasks) in *.
  destruct (merge_spec (finished s) batchSize (bl s) live mode b' new (di_reader s D)) as (M & Ec & Es); [|done|].
  { apply Forall_forall. intros t [_ Ht]%list_elem_of_filter. rewrite Forall_forall in Kt. apply (known_positive U s); auto. }
  destruct (merge_frame _ _ _ _ _ _ M) as (Fa & Fp & Fn & Fw & Fg & Ft).
  assert (readPending (tr b') = true) as Ep by (rewrite Fp; apply (di_pending s D); by rewrite Er).
  assert (∀ u, u ∈ live → u ∈ tasks) as Hlive by (by intros u [_ ?]%list_elem_of_filter).
  split.
  - destruct St as [S1 S2 S3 S4 S5 S6 S7 S8 S9 S10]. constructor; simpl; rewrite ?Es; try done.
    + rewrite !Forall_app in *. destruct S4 as (? & ? & ? & ? & ? & ?). rewrite Fn. split_and!; try done.
      apply Forall_forall. intros u Hu. rewrite Forall_forall in Kt. apply Kt, Hlive, (mr_new _ _ _ _ _ _ M u Hu).
    + intros l t El. destruct (mr_from _ _ _ _ _ _ M _ _ El) as [?|Hu]; [by apply S6|].
      rewrite Forall_forall in Kt. specialize (Kt _ (Hlive _ Hu)). unfold known in Kt.
      by rewrite (ri_level _ _ (mr_inv _ _ _ _ _ _ M) _ _ El) in Kt.
    + by rewrite Fa.
  - pose proof D as [D1 D2 D3 D4 D5 D6 D7 D8 D9 D10 D11]. rewrite Er in D11. destruct D11 as [Fr Hs].
    constructor; simpl; rewrite ?Fa, ?Fg, ?Es, ?Fw, ?Fn; try done.
    + by apply (mr_inv _ _ _ _ _ _ M).
    + intros l Ho. assert (owed s l) as Ho' by done. unfold waiting. simpl. rewrite Fn. fold (waiting s l).
      destruct (D7 l Ho') as [L|[W|[Hr Ea]]]; [destruct (mr_loaded _ _ _ _ _ _ M l L) as [?|?]; [by left|by right; right]|by right; left|].
      destruct (Hs l Ho' Hr) as [Hl|[W|[Hn Hall]]]; [|by right; left|].
      * apply elem_of_levels in Hl as (u & Hu & El). assert (u ∈ live) as Hu'.
        { apply list_elem_of_filter. split; [|done]. apply Hex; [done|]. rewrite El. apply Ho'. }
        assert (accepted (tr (bl s)) mode u) as Ac.
        { split_and!; rewrite ?El; [by apply D6|by intros [? _]|].
          destruct (outstandingTasks (tr (bl s)) !! l) as [v|] eqn:Eo; [|done]. destruct (ri_window _ _ D1 _ _ Eo) as (_ & ? & _). level_lia. }
        destruct (mr_accepted _ _ _ _ _ _ M u Hu' Ac) as [?|?]; rewrite El in *; [by left|by right; right].
      * right. right. assert (mode = mergeReadMiddle) as Em by (unfold mode; destruct (Z.ltb_spec (Z.of_nat (length tasks)) (batchSize - n)); [lia|done]).
        split; [|by apply (mr_middle _ _ _ _ _ _ M)]. destruct (mr_read _ _ _ _ _ _ M) as [?|(u & Hu & _ & <-)]; [level_lia|].
        rewrite Forall_forall in Hall. apply Hall, Hlive, Hu.
Qed.

(** ** The writer's steps *)

Lemma inv_ids U s bk r c : block_ok rangeSize bk r → block_start (block s) ≤ block_start bk → counter_ok c →
  queue_inv U s → queue_inv U (set_ids s bk r c).
Proof.
  intros Hb Hs Hc [[S1 S2 S3 S4 S5 S6 S7 S8 S9 S10] [D1 D2 D3 D4 D5 D6 D7 D8 D9 D10 D11]].
  split; constructor; simpl; try done; try lia. eapply map_Forall_impl; [exact S1|]. simpl. intros l t (? & ? & ?). split_and!; [done|done|lia].
Qed.

Lemma insert_rows_out (U : fairRows) tasks l :
  l ∉ fairLevelFromAllocatedTask <$> tasks → foldl insert_row U tasks !! l = U !! l.
Proof.
  revert U. induction tasks as [|v tasks IH]; intros U Hl; [done|]. rewrite fmap_cons, not_elem_of_cons in Hl. destruct Hl as [? ?].
  simpl. rewrite IH by done. unfold insert_row. by rewrite lookup_insert_ne.
Qed.
Lemma insert_rows_in (U : fairRows) tasks t :
  NoDup (fairLevelFromAllocatedTask <$> tasks) → t ∈ tasks → foldl insert_row U tasks !! fairLevelFromAllocatedTask t = Some t.
Proof.
  revert U. induction tasks as [|u tasks IH]; intros U N Ht; [by apply not_elem_of_nil in Ht|].
  rewrite fmap_cons, NoDup_cons in N. destruct N as [Nu N]. simpl.
  apply elem_of_cons in Ht as [->|Ht]; [|by apply IH]. rewrite insert_rows_out by done. apply lookup_insert_eq.
Qed.

(** Enlarging the universe. *)
Lemma static_mono U U' s :
  U ⊆ U' → map_Forall (λ l t, fairLevelFromAllocatedTask t = l ∧ positive l ∧ lid l < block_start (block s)) U' →
  static_inv U s → static_inv U' s.
Proof.
  intros Hu HU [S1 S2 S3 S4 S5 S6 S7 S8 S9 S10]. constructor; try done.
  - eapply Forall_impl; [exact S4|]. intros t. unfold known. intros E. by eapply lookup_weaken.
  - intros l t E. by eapply lookup_weaken, Hu; apply S5.
  - intros l t E. by eapply lookup_weaken, Hu; apply S6.
  - apply subseteq_dom in Hu. set_solver.
Qed.

Lemma inv_pin U s reqs renew bk r reqs1 b base reqs2 c :
  1 ≤ rangeSize → queue_inv U s → wr s = WIdle → allocTaskIDs rangeSize renew (block s) (rangeID s) reqs = (bk, r, Ok reqs1) →
  getAndPinAckLevel (bl s) = (b, base) → pickPasses reqs1 base (cntr s) = Some (reqs2, c) →
  Forall (λ q, 1 ≤ pass (req_level q)) reqs2 →
  ∃ U', U ⊆ U' ∧ queue_inv U' (set_wr (set_ids (set_bl s b []) bk r c) (WCreating (map request_task reqs2))).
Proof.
  intros Hrs Q Ew Ea Ep Epp Fp. pose proof Q as [St D]. unfold getAndPinAckLevel in Ep. injection Ep as <- <-.
  destruct (allocTaskIDs_spec rangeSize renew _ _ _ _ _ _ Hrs (si_block U s St) Ea) as (Hb & Hs & _ & Srt & Fi).
  destruct (pickPasses_spec reqs1 (ackLevel (tr (bl s))) (cntr s) (si_counter U s St)) as (reqs' & c' & Epp' & Hc & F2).
  rewrite Epp in Epp'. injection Epp' as <- <-. set (tasks := map request_task reqs2).
  assert (∀ t, t ∈ tasks → block_start (block s) ≤ TaskId t < block_start bk ∧ pass (ackLevel (tr (bl s))) ≤ TaskPass t ∧ 1 ≤ TaskPass t) as Hid.
  { intros t (q & -> & Hq)%list_elem_of_fmap. apply list_elem_of_lookup in Hq as [i Hi].
    destruct (Forall2_lookup_r _ _ _ _ _ F2 Hi) as (q1 & Hi1 & Hps & El). rewrite Forall_forall in Fi, Fp.
    specialize (Fi q1 (list_elem_of_lookup_2 _ _ _ Hi1)). specialize (Fp q (list_elem_of_lookup_2 _ _ _ Hi)). simpl in *. lia. }
  assert (NoDup (fairLevelFromAllocatedTask <$> tasks)) as Nd.
  { assert (StronglySorted (λ q q', lid (req_level q) < lid (req_level q')) reqs2) as S2.
    { clear -F2 Srt. revert Srt. induction F2 as [|q q' l l' [_ E] F2 IH]; intros S; [constructor|].
      apply StronglySorted_inv in S as [S Fq]. constructor; [by apply IH|]. clear IH S. induction F2 as [|p p' l l' [_ E'] F2 IH]; [constructor|].
      apply Forall_cons in Fq as [? Fq]. constructor; [lia|by apply IH]. }
    unfold tasks. clear -S2. induction S2 as [|q l _ IH F]; [constructor|]. simpl. constructor; [|done].
    intros (t & E & (q' & -> & Hq')%list_elem_of_fmap)%list_elem_of_fmap. rewrite Forall_forall in F. specialize (F q' Hq').
    unfold fairLevelFromAllocatedTask in E. simpl in E. injection E as _ E. simpl in F. lia. }
  assert (∀ t, t ∈ tasks → U !! fairLevelFromAllocatedTask t = None) as Fresh.
  { intros t Ht. destruct (U !! fairLevelFromAllocatedTask t) as [u|] eqn:E; [|done]. apply (si_universe U s St) in E as (_ & _ & E).
    apply Hid in Ht. simpl in E. lia. }
  exists (foldl insert_row U tasks).
  assert (U ⊆ foldl insert_row U tasks) as Sub.
  { apply map_subseteq_spec. intros l t E. rewrite insert_rows_out; [done|].
    intros (u & -> & Hu)%list_elem_of_fmap. by rewrite Fresh in E. }
  split; [done|]. pose proof (f_equal rd (set_bl_id s D)) as Erd. rewrite set_bl_phase in Erd. split.
  - assert (static_inv (foldl insert_row U tasks) (set_ids s bk r c)) as [S1 S2 S3 S4 S5 S6 S7 S8 S9 S10].
    { apply (static_mono U); [done| |by apply inv_ids]. intros l t E. simpl. apply insert_rows_lookup in E as [E|[Ht <-]].
      - destruct (si_universe U s St _ _ E) as (? & ? & ?). split_and!; [done|done|lia].
      - split; [done|]. apply Hid in Ht. unfold positive. pose proof (si_block U s St) as (? & ? & ?). simpl. nia. }
    constructor; simpl; try done. simpl in S4. rewrite !Forall_app in *. destruct S4 as (? & ? & ? & ? & ? & ?).
    rewrite Erd. split_and!; try done. apply Forall_forall. intros t Ht. by apply insert_rows_in.
  - destruct D as [D1 D2 D3 D4 D5 D6 D7 D8 D9 D10 D11].
    assert (∀ l, waiting (set_wr (set_ids (set_bl s (set_tr (bl s) (set_pin (tr (bl s)) true)) []) bk r c) (WCreating tasks)) l ↔ waiting s l) as Hw.
    { intros l. unfold waiting. simpl. by rewrite Ew. }
    constructor; simpl; rewrite ?Erd; try done.
    + by eapply reader_inv_ext, D1.
    + intros l Ho. unfold covered. rewrite Hw. by apply D7.
    + intros ts [= <-]. apply Forall_forall. intros t Ht. apply Hid in Ht. pose proof (si_ack U s St). level_lia.
    + destruct (rd s); try done. unfold snapshot_ok in *. simpl. setoid_rewrite Hw. done.
Qed.

Lemma create_cases sub rows tasks res sub' rows' e : CreateFairTasks sub rows tasks res = (sub', rows', e) →
  FairAckLevel sub' = FairAckLevel sub ∧ (rows' = rows ∨ rows' = foldl insert_row rows tasks) ∧
  (tasks ≠ [] → e = None → rows' = foldl insert_row rows tasks).
Proof.
  unfold CreateFairTasks. destruct tasks as [|t tasks]; [intros [= <- <- <-]; naive_solver|]. destruct res.
  - destruct (InsertIntoTasksV2 rows (t :: tasks)) as [r| |] eqn:E; intros [= <- <- <-].
    + unfold InsertIntoTasksV2 in E. case_match; [|done]. injection E as <-. naive_solver.
    + naive_solver.
    + naive_solver.
  - intros [= <- <- <-]. naive_solver.
  - intros [= <- <- <-]. destruct applied; naive_solver.
Qed.

(** Rows of known tasks appear, and a batch leaves the writer without being confirmed. *)
Lemma inv_rows U s sub' rows' lim w' :
  queue_inv U s → FairAckLevel sub' = FairAckLevel (sub (bl s)) → Forall (known U) lim → Forall (known U) (write_tasks w') →
  (∀ l t, rows' !! l = Some t → U !! l = Some t) → (∀ l, owed s l → is_Some (rows' !! l)) →
  (w' = wr s ∨ (∃ ts, wr s = WCreating ts) ∧ ∃ e, w' = WEnding e) →
  queue_inv U (set_wr (set_rows (set_bl s (set_sub (bl s) sub') []) rows' lim) w').
Proof.
  intros [St D] Es Kl Kw Hr Ho Hw. pose proof (f_equal rd (set_bl_id s D)) as Erd. rewrite set_bl_phase in Erd.
  set (s' := set_wr _ _). assert (∀ l, waiting s' l ↔ waiting s l) as Ew.
  { intros l. unfold waiting. simpl. destruct Hw as [->|[[ts ->] [e ->]]]; done. }
  split.
  - destruct St as [S1 S2 S3 S4 S5 S6 S7 S8 S9 S10]. constructor; simpl; rewrite ?Es; try done.
    rewrite !Forall_app in *. rewrite Erd. destruct S4 as (? & ? & ? & ? & ? & ?). split_and!; done.
  - destruct D as [D1 D2 D3 D4 D5 D6 D7 D8 D9 D10 D11]. constructor; simpl; rewrite ?Erd, ?Es; try done.
    + intros l Hl. unfold covered. rewrite Ew. by apply D7.
    + intros ts Ets. destruct Hw as [->|[_ [e ->]]]; [by apply D8|done].
    + destruct Hw as [->|[[ts E] [e ->]]]; [done|]. rewrite D9, E. done.
    + destruct (rd s); try done. unfold snapshot_ok in *. simpl. setoid_rewrite Ew. done.
Qed.

Lemma write_known U s tasks : static_inv U s → write_tasks (wr s) = tasks → Forall (known U) tasks.
Proof. intros St <-. pose proof (si_lists U s St) as S. rewrite !Forall_app in S. apply S. Qed.

Lemma rows_known U s tasks l t : static_inv U s → Forall (known U) tasks →
  foldl insert_row (rows s) tasks !! l = Some t → U !! l = Some t.
Proof.
  intros St K E. apply insert_rows_lookup in E as [E|[Ht <-]]; [by apply (si_rows U s St)|]. rewrite Forall_forall in K. by apply K.
Qed.

Lemma inv_created U s tasks sub' rows' :
  queue_inv U s → wr s = WCreating tasks → tasks ≠ [] → CreateFairTasks (sub (bl s)) (rows s) tasks CreateOk = (sub', rows', None) →
  queue_inv U (set_done (set_wr (set_rows (set_bl s (set_sub (bl s) sub') []) rows' (limbo s)) (WCreated tasks))
    (spooled s ∪ levels tasks) (finished s)).
Proof.
  intros Q Ew Ne E. pose proof Q as [St D]. destruct (create_cases _ _ _ _ _ _ _ E) as (Es & _ & Er). rewrite (Er Ne eq_refl) in *.
  pose proof (write_known U s tasks St ltac:(by rewrite Ew)) as Kt. pose proof (di_creating s D tasks Ew) as Above.
  pose proof (f_equal rd (set_bl_id s D)) as Erd. rewrite set_bl_phase in Erd. set (s' := set_done _ _ _).
  assert (∀ l, owed s' l → owed s l ∨ l ∈ levels tasks) as Ho by (intros l; unfold owed; simpl; set_solver).
  assert (∀ l, waiting s' l ↔ waiting s l ∨ l ∈ levels tasks) as Hwt by (intros l; unfold waiting; simpl; rewrite Ew; tauto).
  split.
  - destruct St as [S1 S2 S3 S4 S5 S6 S7 S8 S9 S10]. constructor; simpl; rewrite ?Es; try done.
    + rewrite !Forall_app in *. rewrite Erd. rewrite Ew in S4. destruct S4 as (? & ? & ? & ? & ? & ?). split_and!; done.
    + intros l t. by apply (rows_known U s).
    + assert (levels tasks ⊆ dom U); [|set_solver]. intros l (t & Ht & <-)%elem_of_levels. rewrite Forall_forall in Kt.
      apply elem_of_dom. exists t. by apply Kt.
  - destruct D as [D1 D2 D3 D4 D5 D6 D7 D8 D9 D10 D11]. constructor; simpl; rewrite ?Erd, ?Es; try done.
    + intros l [Hl|(t & Ht & <-)%elem_of_levels]%Ho; [by apply insert_rows_keep, D5|by apply insert_rows_new].
    + intros l [Hl|(t & Ht & <-)%elem_of_levels]%Ho; [by apply D6|]. rewrite Forall_forall in Above. by apply Above.
    + intros l [Hl|Hl]%Ho; [|right; left; apply Hwt; by right]. destruct (D7 l Hl) as [?|[?|?]];
        [by left|right; left; apply Hwt; by left|by right; right].
    + rewrite D9, Ew. done.
    + destruct (rd s); try done. destruct D11 as [F Hs]. split; [done|]. intros l Hl Hr.
      apply Ho in Hl as [Hl|Hl]; [|right; left; apply Hwt; by right]. destruct (Hs l Hl Hr) as [?|[?|?]];
        [by left|right; left; apply Hwt; by left|by right; right].
Qed.

Lemma inv_wrote U s tasks b new :
  queue_inv U s → wr s = WCreated tasks → wroteNewTasks batchSize (bl s) tasks = (b, new) →
  queue_inv U (set_wr (set_bl s b new) (WEnding false)).
Proof.
  intros Q Ew E. pose proof Q as [St D]. pose proof (write_known U s tasks St ltac:(by rewrite Ew)) as Kt.
  assert (Forall (known U) (newlyWrittenTasks (tr (bl s)))) as Kh.
  { pose proof (si_lists U s St) as Sl. rewrite !Forall_app in Sl. apply Sl. }
  unfold wroteNewTasks, mergeTasks in E. simpl in E. destruct (readPending (tr (bl s))) eqn:Ep.
  - injection E as <- <-. set (s' := set_wr _ _). pose proof (f_equal rd (set_bl_id s D)) as Erd. rewrite set_bl_phase in Erd.
    assert (∀ l, waiting s' l ↔ waiting s l) as Hw.
    { intros l. unfold waiting. simpl. rewrite Ew, !elem_of_levels. setoid_rewrite elem_of_app. naive_solver. }
    split.
    + destruct St as [S1 S2 S3 S4 S5 S6 S7 S8 S9 S10]. constructor; simpl; try done.
      rewrite !Forall_app in *. rewrite Erd. destruct S4 as (? & ? & ? & ? & ? & ?). split_and!; done.
    + destruct D as [D1 D2 D3 D4 D5 D6 D7 D8 D9 D10 D11]. constructor; simpl; rewrite ?Erd; try done.
      * by eapply reader_inv_ext, D1.
      * intros l Hl. unfold covered. rewrite Hw. by apply D7.
      * rewrite D9, Ew. done.
      * destruct (rd s); try done. unfold snapshot_ok in *. simpl. setoid_rewrite Hw. done.
  - assert (rd s = RIdle) as Er by (destruct (di_pending s D) as [_ P]; destruct (rd s); [done|..]; by rewrite P in Ep).
    pose proof (inv_merge_write U s tasks b new (newlyWrittenTasks (tr (bl s))) (WEnding false) Q Er Kt Kh) as Hm.
    destruct (merge_spec (finished s) batchSize (bl s) tasks mergeWrite b new (di_reader s D)) as (M & _ & _); [|done|].
    { eapply Forall_impl; [exact Kt|]. intros t. by apply (known_positive U s). }
    destruct (merge_frame _ _ _ _ _ _ M) as (_ & _ & Fn & _).
    assert (set_tr b (set_held (tr b) (newlyWrittenTasks (tr (bl s)))) = b) as Eb.
    { rewrite <- Fn. destruct b as [t sb cx]. by destruct t. }
    rewrite Eb in Hm. apply Hm; [by constructor|right; eauto| |done].
    intros l [?|Hl]; [by right; left|]. rewrite Ew in Hl. by left.
Qed.

(** ** Small changes of the reader *)

(** Changes that touch neither the window nor what it promises: timers, the collector's
    counters, the end flag being given up. *)
Lemma inv_quiet U s b :
  queue_inv U s →
  outstandingTasks (tr b) = outstandingTasks (tr (bl s)) → backlogAge (tr b) = backlogAge (tr (bl s)) →
  loadedTasks (tr b) = loadedTasks (tr (bl s)) → readLevel (tr b) = readLevel (tr (bl s)) → ackLevel (tr b) = ackLevel (tr (bl s)) →
  newlyWrittenTasks (tr b) = newlyWrittenTasks (tr (bl s)) → ackLevelPinnedByWriter (tr b) = ackLevelPinnedByWriter (tr (bl s)) →
  readPending (tr b) = readPending (tr (bl s)) → (atEnd (tr b) = atEnd (tr (bl s)) ∨ atEnd (tr b) = false) →
  (inGC (tr b) = inGC (tr (bl s)) ∨ inGC (tr b) = None) → FairAckLevel (sub b) = FairAckLevel (sub (bl s)) →
  queue_inv U (set_bl s b []).
Proof.
  intros [St D] E1 E2 E3 E4 E5 E6 E7 E8 E9 E10 E11. pose proof (f_equal rd (set_bl_id s D)) as Erd. rewrite set_bl_phase in Erd.
  assert (∀ l, waiting (set_bl s b []) l ↔ waiting s l) as Hw by (intros l; unfold waiting; simpl; by rewrite E6).
  split.
  - destruct St as [S1 S2 S3 S4 S5 S6 S7 S8 S9 S10]. constructor; simpl; rewrite ?E1, ?E5, ?E6, ?E11; try done.
    rewrite E8, Erd, app_nil_r. done.
  - destruct D as [D1 D2 D3 D4 D5 D6 D7 D8 D9 D10 D11]. constructor; simpl; rewrite ?E1, ?E5, ?E7, ?E8, ?E11, ?Erd; try done.
    + by eapply reader_inv_ext, D1.
    + intros g. destruct E10 as [-> | ->]; [by apply D4|done].
    + intros l Ho. unfold covered. rewrite Hw, E1, E4. destruct (D7 l Ho) as [?|[?|[? ?]]]; [by left|by right; left|right; right].
      split; [done|]. destruct E9 as [-> | ->]; done.
    + destruct (rd s); try done; [by rewrite E4|]. unfold snapshot_ok in *. simpl. rewrite E4. setoid_rewrite Hw. done.
Qed.

Lemma inv_unpin U s err due : queue_inv U s → wr s = WEnding err →
  queue_inv U (set_wr (set_bl s (unpinAckLevel reloadAt maxDelete due (bl s) err) []) WIdle).
Proof.
  intros Q Ew. set (b1 := if err then maybeReadTasksLocked reloadAt (set_tr (bl s) (set_read (tr (bl s)) (readLevel (tr (bl s))) false)) else bl s).
  assert (queue_inv U (set_bl s b1 [])) as Q1.
  { unfold b1. destruct err; [|rewrite set_bl_id by apply Q; done].
    assert (queue_inv U (set_bl s (set_tr (bl s) (set_read (tr (bl s)) (readLevel (tr (bl s))) false)) [])) as Q0 by (apply inv_quiet; auto).
    apply inv_maybe_read in Q0. rewrite set_bl_set_bl in Q0; [done|apply maybe_read_pending]. }
  set (s2 := set_wr (set_bl s (set_tr b1 (set_pin (tr b1) false)) []) WIdle).
  assert (queue_inv U s2) as Q2.
  { destruct Q1 as [[S1 S2 S3 S4 S5 S6 S7 S8 S9 S10] [D1 D2 D3 D4 D5 D6 D7 D8 D9 D10 D11]].
    assert (∀ l, waiting s2 l ↔ waiting (set_bl s b1 []) l) as Hw by (intros l; unfold waiting; simpl; by rewrite Ew).
    split; constructor; simpl in *; try done.
    - rewrite Ew in S4. done.
    - by eapply reader_inv_ext, D1.
    - intros l Ho. unfold covered. rewrite Hw. by apply D7.
    - destruct (rd s); try done; [by destruct (readPending (tr b1))|]. unfold snapshot_ok in *. simpl in *. setoid_rewrite Hw. done. }
  apply (inv_advance U _ due) in Q2. unfold unpinAckLevel. fold b1. cbn [bl s2 set_wr set_bl] in Q2.
  set (b2 := set_tr b1 (set_pin (tr b1) false)) in *. set (b3 := advanceAckLevelLocked maxDelete due b2) in *.
  change (set_bl s2 b3 []) with (set_wr (set_bl (set_bl s b2 []) b3 []) WIdle) in Q2. rewrite set_bl_set_bl in Q2; [done|].
  destruct (advance_spec maxDelete (finished s) due b2) as [_ R]; [|unfold b3; by rewrite (proj1 (ar_frame _ _ R))].
  destruct Q1 as [_ [D1 _ _ _ _ _ _ _ _ _ _]]. by eapply reader_inv_ext, D1.
Qed.

Lemma inv_read_end U s e due b new : queue_inv U s → rd s = RTop e →
  readTasksImpl batchSize reloadAt maxDelete due (bl s) e = (b, ReadEnd new) → queue_inv U (set_rd (set_bl s b new) RIdle).
Proof.
  intros Q Er E. unfold readTasksImpl in E. case_match; [|done]. set (b0 := set_tr (bl s) (set_pending (tr (bl s)) false)) in *.
  set (s0 := set_rd (set_bl s b0 []) RIdle).
  assert (queue_inv U s0) as Q0.
  { destruct Q as [[S1 S2 S3 S4 S5 S6 S7 S8 S9 S10] [D1 D2 D3 D4 D5 D6 D7 D8 D9 D10 D11]].
    assert (∀ l, waiting s0 l ↔ waiting s l) as Hw by done.
    split; constructor; simpl; try done.
    - rewrite Er in S4. rewrite app_nil_r. done.
    - by eapply reader_inv_ext, D1. }
  change (newlyWrittenTasks (tr b0)) with (newlyWrittenTasks (tr (bl s))) in E.
  destruct (newlyWrittenTasks (tr (bl s))) as [|h0 held0] eqn:Eh; [injection E as <- <-; exact Q0|].
  rewrite <- Eh in E. set (held := newlyWrittenTasks (tr (bl s))) in *.
  destruct (mergeTasksLocked batchSize b0 held mergeWrite) as [b1 new1] eqn:Em. injection E as <- <-.
  assert (Forall (known U) held) as Kh.
  { pose proof (si_lists U s0 (proj1 Q0)) as Sl. rewrite !Forall_app in Sl. apply Sl. }
  assert (queue_inv U (set_wr (set_bl s0 (set_tr b1 (set_held (tr b1) [])) new1) (wr s0))) as Q1.
  { apply (inv_merge_write U s0 held); [done|done|done|by constructor| |by left| |done].
    - by apply (write_known U s0); [apply Q0|].
    - intros l [?|Hl]; [by left|]. right. right. by destruct (wr s0). }
  assert (readPending (tr b1) = false) as Ep.
  { destruct (merge_spec (finished s0) batchSize (bl s0) held mergeWrite b1 new1 (di_reader s0 (proj2 Q0))) as (M & _ & _); [|done|].
    - eapply Forall_impl; [exact Kh|]. intros t. by apply (known_positive U s0), Q0.
    - destruct (merge_frame _ _ _ _ _ _ M) as (_ & -> & _). done. }
  pose proof (di_reader _ (proj2 Q1)) as I2. apply (inv_advance U _ due) in Q1. cbn [bl set_wr set_bl] in Q1, I2.
  set (b2 := set_tr b1 (set_held (tr b1) [])) in *. destruct (advance_spec maxDelete (finished s) due b2 I2) as [_ R].
  assert (readPending (tr (advanceAckLevelLocked maxDelete due b2)) = false) as Ep3 by (rewrite (proj1 (ar_frame _ _ R)); done).
  assert (set_bl (set_wr (set_bl s0 b2 new1) (wr s0)) (advanceAckLevelLocked maxDelete due b2) []
    = set_rd (set_bl s (advanceAckLevelLocked maxDelete due b2) new1) RIdle) as <-; [|done].
  unfold set_bl, set_wr, set_rd, s0. simpl. rewrite Ep, Ep3, !app_nil_r. done.
Qed.

(** ** Every step *)

Lemma dispatched_known U s task : static_inv U s → task ∈ dispatched s ++ respooling s → known U task.
Proof.
  intros St Ht. pose proof (si_lists U s St) as S. rewrite !Forall_app in S. destruct S as (_ & S1 & S2 & _). rewrite Forall_forall in S1, S2.
  apply elem_of_app in Ht as [?|?]; auto.
Qed.

Lemma inv_respooling U s l : Forall (known U) l → queue_inv U s → queue_inv U (set_respooling s l).
Proof.
  intros K [[S1 S2 S3 S4 S5 S6 S7 S8 S9 S10] [D1 D2 D3 D4 D5 D6 D7 D8 D9 D10 D11]]. split; constructor; simpl; try done.
  rewrite !Forall_app in *. destruct S4 as (? & ? & ? & ? & ? & ?). split_and!; done.
Qed.

Lemma inv_gc U s l rows' n res (applied : bool) : queue_inv U s → inGC (tr (bl s)) = Some l →
  CompleteTasksLessThan (rows s) (inc l) maxDelete = Ok (rows', n) →
  queue_inv U (set_rows (set_bl s (doGC_end (bl s) res) []) (if applied then rows' else rows s) (limbo s)).
Proof.
  intros Q Eg E. pose proof Q as [St D]. assert (queue_inv U (set_bl s (doGC_end (bl s) res) [])) as Q1 by (apply inv_quiet; auto).
  assert (∀ k t, (if applied then rows' else rows s) !! k = Some t → rows s !! k = Some t) as Hsub.
  { intros k t. destruct applied; [|done]. apply (CompleteTasksLessThan_below _ _ _ _ _ k t E). }
  destruct Q1 as [[S1 S2 S3 S4 S5 S6 S7 S8 S9 S10] [D1 D2 D3 D4 D5 D6 D7 D8 D9 D10 D11]]. split; constructor; simpl in *; try done.
  - intros k t Ek%Hsub. by apply S5.
  - intros k Ho. destruct (D5 k Ho) as [t Et]. destruct applied; [|by exists t]. exists t.
    apply (CompleteTasksLessThan_below _ _ _ _ _ k t E); [done|].
    pose proof (di_gc s D l Eg) as Hg. pose proof (D6 k Ho) as Ha. unfold inc. level_lia.
Qed.

Lemma inv_query U s l n tasks : queue_inv U s → rd s = RReading l n → read_query batchSize (rows s) l n = Ok tasks →
  queue_inv U (set_rd s (RGot n tasks)).
Proof.
  intros [[S1 S2 S3 S4 S5 S6 S7 S8 S9 S10] [D1 D2 D3 D4 D5 D6 D7 D8 D9 D10 D11]] Er E. rewrite Er in D11. subst l.
  assert (rows_ok (rows s)) as Hok.
  { intros k t Ek. apply S5, S1 in Ek as (? & ? & _). done. }
  destruct (GetFairTasks_after _ _ _ _ Hok E) as [F Hs].
  split; constructor; simpl; try done.
  - rewrite !Forall_app in *. destruct S4 as (? & ? & ? & ? & ? & _). split_and!; try done.
    eapply Forall_impl; [exact F|]. simpl. intros t [Et _]. unfold known. by apply S5.
  - rewrite D10, Er. done.
  - split; [eapply Forall_impl; [exact F|]; by intros t [_ ?]|]. intros k Ho Hk. destruct (D5 k Ho) as [t Et].
    destruct (Hs k t Et Hk) as [Ht|?]; [left|by right; right]. apply elem_of_levels. exists t. split; [done|].
    apply S5, S1 in Et. apply Et.
Qed.

Lemma inv_reload U s r c : 1 ≤ rangeSize → rangeID s < r → counter_ok c → queue_inv U s →
  queue_inv U (reload reloadAt rangeSize s r c).
Proof.
  intros Hrs Hr Hc [St D]. pose proof (si_block U s St) as (B1 & B2 & B3).
  set (lvl := fairLevelFromProto (FairAckLevel (persisted s))). set (t0 := newFairTaskReader lvl).
  assert (block_start (block s) ≤ (r - 1) * rangeSize + 1) as Hst by nia.
  assert (lid lvl < (r - 1) * rangeSize + 1) as Hid by (pose proof (si_persisted U s St) as Hp; fold lvl in Hp; lia).
  assert (∃ p, Start reloadAt (mkBacklog t0 (persisted s) false) = mkBacklog (set_pending t0 p) (persisted s) false) as [p Es].
  { unfold Start, maybeReadTasksLocked. case_match; [by exists false|by exists true]. }
  unfold reload. fold lvl t0. cbv zeta. rewrite Es. simpl.
  assert (reader_inv (finished s) (set_pending t0 p)) as I.
  { constructor; simpl; [by intros l v|by intros l v|by intros l| |level_lia]. split_and!; [done|done|by intros ? ?]. }
  split.
  - destruct St as [S1 S2 S3 S4 S5 S6 S7 S8 S9 S10]. constructor; simpl; try done.
    + eapply map_Forall_impl; [exact S1|]. simpl. intros l t (? & ? & ?). split_and!; [done|done|lia].
    + unfold block_ok. simpl. nia.
    + rewrite !Forall_app in *. destruct S4 as (? & _ & _ & _ & Hw & _). split_and!; try done; [by destruct (wr s)|by destruct p].
  - destruct D as [D1 D2 D3 D4 D5 D6 D7 D8 D9 D10 D11]. constructor; simpl; try done.
    + fold lvl. level_lia.
    + fold lvl. level_lia.
    + intros l Ho. specialize (D6 l Ho). fold lvl in D2. level_lia.
    + intros l Ho. right. right. split; [|done]. simpl. specialize (D6 l Ho). fold lvl in D2. level_lia.
    + by destruct p.
    + by destruct p.
Qed.

Lemma inv_phase U s r : queue_inv U s → rd s ≠ RIdle → r ≠ RIdle →
  match r with RReading l _ => l = readLevel (tr (bl s)) | RGot _ _ => False | _ => True end → queue_inv U (set_rd s r).
Proof.
  intros [[S1 S2 S3 S4 S5 S6 S7 S8 S9 S10] [D1 D2 D3 D4 D5 D6 D7 D8 D9 D10 D11]] N Nr Hr. split; constructor; simpl; try done.
  - rewrite !Forall_app in *. destruct S4 as (? & ? & ? & ? & ? & _). split_and!; try done. by destruct r.
  - by rewrite D10.
  - by destruct r.
Qed.

Lemma inv_complete U s task due b next : queue_inv U s → known U task →
  completeTask reloadAt maxDelete due (bl s) task ResponseOk = (b, next) →
  queue_inv U (finish_levels (set_bl s b []) {[fairLevelFromAllocatedTask task]}).
Proof.
  intros Q Hk E. unfold completeTask in E. destruct (outstandingTasks (tr (bl s)) !! fairLevelFromAllocatedTask task) as [[u|]|] eqn:Eo.
  - injection E as <- _. apply inv_complete_locked; [done|done|by exists u].
  - injection E as <- _. rewrite set_bl_id by apply Q. apply inv_finish; [|done]. apply singleton_subseteq_l, elem_of_dom. by exists task.
  - injection E as <- _. rewrite set_bl_id by apply Q. apply inv_finish; [|done]. apply singleton_subseteq_l, elem_of_dom. by exists task.
Qed.

Lemma fair_inv_step U s s' : 1 ≤ rangeSize → queue_inv U s → step s s' → ∃ U', U ⊆ U' ∧ queue_inv U' s'.
Proof.
  intros Hrs Q St. pose proof Q as [Si Di].
  assert ((∃ U', U ⊆ U' ∧ queue_inv U' s') ∨ queue_inv U s') as [?|?]; [|done|by exists U].
  destruct St as [s reqs renew bk r e Ew Ea|s reqs renew bk r reqs1 b base reqs2 c Ew Ea Ep Epp Fp|s tasks sub' rows' Ew Ne E
    |s tasks res sub' rows' e Ew E|s err Ew|s tasks b new Ew E|s err due Ew|s l1 t l2 El|s e due b l n Er E|s e due b new Er E
    |s l n tasks Er E|s l n retry Er|s n tasks now b new Er E|s Et|s task due b next Hd E|s task due res b next Hd Nr E
    |s l1 task l2 due Es [L|[]]|s l rows' n Eg E|s l rows' n applied Eg E|s l rows' n []|s|s|s r c Hr Hc].
  - right. destruct (allocTaskIDs_spec rangeSize renew _ _ _ _ _ _ Hrs (si_block U s Si) Ea) as (? & ? & _).
    apply inv_ids; try done. apply Si.
  - left. by eapply inv_pin.
  - right. by eapply inv_created.
  - right. destruct (create_cases _ _ _ _ _ _ _ E) as (Es & Er & _).
    pose proof (write_known U s tasks Si ltac:(by rewrite Ew)) as Kt. apply inv_rows; try done; [| | |right; eauto].
    + apply Forall_app. split; [|by destruct e]. pose proof (si_lists U s Si) as Sl. rewrite !Forall_app in Sl. apply Sl.
    + intros l t. destruct Er as [-> | ->]; [apply Si|by apply (rows_known U s)].
    + intros l Ho. pose proof (di_rows s Di l Ho). destruct Er as [-> | ->]; [done|by apply insert_rows_keep].
  - right. pose proof (inv_rows U s (sub (bl s)) (rows s) (limbo s) (WEnding err) Q eq_refl) as Hi.
    assert (set_sub (bl s) (sub (bl s)) = bl s) as Eb by (by destruct (bl s)). rewrite Eb, (set_bl_id s Di) in Hi.
    assert (set_rows s (rows s) (limbo s) = s) as Es by (by destruct s). rewrite Es in Hi. apply Hi; [|by constructor|apply Si|apply Di|right; eauto].
    pose proof (si_lists U s Si) as Sl. rewrite !Forall_app in Sl. apply Sl.
  - right. by eapply inv_wrote.
  - right. by apply inv_unpin.
  - right. pose proof (si_lists U s Si) as Sl. rewrite El in Sl. rewrite !Forall_app, Forall_cons in Sl. destruct Sl as ((? & Kt & ?) & _).
    pose proof (inv_rows U s (sub (bl s)) (insert_row (rows s) t) (l1 ++ l2) (wr s) Q eq_refl) as Hi.
    assert (set_sub (bl s) (sub (bl s)) = bl s) as Eb by (by destruct (bl s)). rewrite Eb, (set_bl_id s Di) in Hi.
    assert (set_wr (set_rows s (insert_row (rows s) t) (l1 ++ l2)) (wr s) = set_rows s (insert_row (rows s) t) (l1 ++ l2)) as Es by (by destruct s).
    rewrite Es in Hi. apply Hi; [by apply Forall_app|by apply (write_known U s)| | |by left].
    + intros l u. apply (rows_known U s [t]); [done|by constructor].
    + intros l Ho. apply (insert_rows_keep (rows s) [t]). by apply Di.
  - right. unfold readTasksImpl in E. case_match; [repeat case_match; done|]. injection E as <- <- <-. rewrite (set_bl_id s Di).
    apply inv_phase; [done|by rewrite Er|done|done].
  - right. by eapply inv_read_end.
  - right. by eapply inv_query.
  - right. assert (queue_inv U (set_bl s (read_failed (bl s) retry) [])) as Q1.
    { unfold read_failed, retryReadAfter. apply inv_quiet; try done; repeat case_match; auto. }
    apply inv_phase; [done|simpl; by rewrite Er|done|done].
  - right. by eapply inv_read_result.
  - right. assert (queue_inv U (set_bl s (set_tr (bl s) (set_timer (tr (bl s)) false)) [])) as Q1 by (apply inv_quiet; auto).
    apply inv_maybe_read in Q1. rewrite set_bl_set_bl in Q1; [done|apply maybe_read_pending].
  - right. eapply inv_complete; [done| |done]. apply (dispatched_known U s); [done|]. apply elem_of_app. by left.
  - right. assert (b = bl s) as ->.
    { unfold completeTask in E. repeat case_match; simplify_eq; done. }
    rewrite (set_bl_id s Di). apply inv_respooling; [|done]. pose proof (si_lists U s Si) as Sl. rewrite !Forall_app in Sl.
    destruct Sl as (_ & K & Kr & _). destruct next; [done|done|]. constructor; [|done]. rewrite Forall_forall in K. by apply K.
  - right. pose proof (si_lists U s Si) as Sl. rewrite Es in Sl. rewrite !Forall_app, Forall_cons in Sl.
    destruct Sl as (_ & _ & (K1 & Kt & K2) & _).
    apply (inv_complete_locked U s task due Q Kt) in L. apply (inv_respooling U _ (l1 ++ l2)) in L; [done|by apply Forall_app].
  - right. by apply (inv_gc U s l rows' n (GCDeleted n) true).
  - right. by apply (inv_gc U s l rows' n GCFailed applied).
  - right. destruct Si, Di. split; constructor; simpl; done.
  - right. apply inv_quiet; auto.
  - right. by apply inv_reload.
Qed.

Lemma inv_new c : 1 ≤ rangeSize → counter_ok c → queue_inv ∅ (new_queue reloadAt rangeSize c).
Proof.
  intros Hrs Hc. assert (∃ p, Start reloadAt (mkBacklog (newFairTaskReader zeroLevel) empty_subqueue false)
    = mkBacklog (set_pending (newFairTaskReader zeroLevel) p) empty_subqueue false) as [p Es].
  { unfold Start, maybeReadTasksLocked. case_match; [by exists false|by exists true]. }
  unfold new_queue. cbv zeta. rewrite Es. split; constructor; simpl; try done; try (by destruct p); try lia; try (level_lia);
    try (by intros l [Hl _]).
  - unfold block_ok. simpl. lia.
  - constructor; simpl; [by intros l v|by intros l v|by intros l| |level_lia]. split_and!; [done|done|by intros ? ?].
Qed.

Lemma fair_inv_reachable c s : 1 ≤ rangeSize → counter_ok c → rtc step (new_queue reloadAt rangeSize c) s → ∃ U, queue_inv U s.
Proof.
  intros Hrs Hc R. assert (∀ U s0, rtc step s0 s → queue_inv U s0 → ∃ U', queue_inv U' s) as Hr.
  { intros U s0 R0. revert U. induction R0 as [|a b d Hab _ IH]; intros U Q; [eauto|].
    destruct (fair_inv_step U a b Hrs Q Hab) as (U' & _ & Q'). by eapply IH. }
  by eapply Hr, inv_new.
Qed.
End safety.
