(* ===== verification/FairProps.v ===== *)
(** * What the fair backlog promises, and where it falls short

    Safety of the backlog and exactness of the reader's bookkeeping, over every interleaving;
    then four runs, found while proving them, in which the source loses or strands tasks.
    The runs are executed: [exec] is the step relation as a function. *)
From S2P Require Import Prelude FairLevel FairCounter FairStore FairReader FairWriter FairMerge FairBacklog.
From S2P Require Import FairSafety.
Local Open Scope Z_scope.

(** ** Executing steps *)

Inductive action :=
  | AWrite (reqs : list writeTaskRequest) | ACreate | AWrote | AUnpin
  | ATop | AQuery | AResult (now : Z)
  | AComplete (due : bool) (task : AllocatedTaskInfo) | AFail (task : AllocatedTaskInfo)
  | AGc | AReload.

Section exec.
Context (batchSize reloadAt maxDelete rangeSize : Z) (late_respool late_gc : Prop).
Notation queue := (fairQueue (C := mapCounter)).
Notation step := (fair_step batchSize reloadAt maxDelete rangeSize late_respool late_gc).

(** Writes and renewals succeed; a reload takes the next range and an empty counter. *)
Definition exec (a : action) (s : queue) : option queue :=
  match a with
  | AWrite reqs =>
      match wr s, allocTaskIDs rangeSize (λ _, true) (block s) (rangeID s) reqs with
      | WIdle, (bk, r, Ok reqs1) =>
          let '(b, base) := getAndPinAckLevel (bl s) in
          '(reqs2, c) ← pickPasses reqs1 base (cntr s);
          if bool_decide (Forall (λ q, 1 ≤ pass (req_level q)) reqs2)
          then Some (set_wr (set_ids (set_bl s b []) bk r c) (WCreating (map request_task reqs2))) else None
      | _, _ => None
      end
  | ACreate =>
      match wr s with
      | WCreating (t :: ts) =>
          match CreateFairTasks (sub (bl s)) (rows s) (t :: ts) CreateOk with
          | (sub', rows', None) =>
              Some (set_done (set_wr (set_rows (set_bl s (set_sub (bl s) sub') []) rows' (limbo s)) (WCreated (t :: ts)))
                (spooled s ∪ levels (t :: ts)) (finished s))
          | _ => None
          end
      | _ => None
      end
  | AWrote =>
      match wr s with
      | WCreated tasks => let '(b, new) := wroteNewTasks batchSize (bl s) tasks in Some (set_wr (set_bl s b new) (WEnding false))
      | _ => None
      end
  | AUnpin =>
      match wr s with
      | WEnding err => Some (set_wr (set_bl s (unpinAckLevel reloadAt maxDelete false (bl s) err) []) WIdle)
      | _ => None
      end
  | ATop =>
      match rd s with
      | RTop e =>
          match readTasksImpl batchSize reloadAt maxDelete false (bl s) e with
          | (b, ReadBatch l n) => Some (set_rd (set_bl s b []) (RReading l n))
          | (b, ReadEnd new) => Some (set_rd (set_bl s b new) RIdle)
          end
      | _ => None
      end
  | AQuery =>
      match rd s with
      | RReading l n => match read_query batchSize (rows s) l n with Ok tasks => Some (set_rd s (RGot n tasks)) | _ => None end
      | _ => None
      end
  | AResult now =>
      match rd s with
      | RGot n tasks =>
          let '(b, new) := read_result batchSize now (bl s) n tasks in
          Some (finish_levels (set_rd (set_bl s b new) (RTop false)) (levels (base.filter (λ t, IsTaskExpired now t = true) tasks)))
      | _ => None
      end
  | AComplete due task =>
      if bool_decide (task ∈ dispatched s) then
        let '(b, _) := completeTask reloadAt maxDelete due (bl s) task ResponseOk in
        Some (finish_levels (set_bl s b []) {[fairLevelFromAllocatedTask task]})
      else None
  | AFail task =>
      if bool_decide (task ∈ dispatched s) then
        let '(b, next) := completeTask reloadAt maxDelete false (bl s) task ResponseOther in
        Some (set_respooling (set_bl s b []) (match next with CompleteRespool => task :: respooling s | _ => respooling s end))
      else None
  | AGc =>
      match inGC (tr (bl s)) with
      | Some l =>
          match CompleteTasksLessThan (rows s) (inc l) maxDelete with
          | Ok (rows', n) => Some (set_rows (set_bl s (doGC_end (bl s) (GCDeleted n)) []) rows' (limbo s))
          | _ => None
          end
      | None => None
      end
  | AReload => Some (reload reloadAt rangeSize s (rangeID s + 1) ∅)
  end.

Fixpoint exec_all (l : list action) (s : queue) : option queue :=
  match l with [] => Some s | a :: l => s ← exec a s; exec_all l s end.

Lemma exec_step a s s' : exec a s = Some s' → step s s'.
Proof.
  destruct a; cbn [exec].
  - destruct (wr s) eqn:Ew; try done. destruct (allocTaskIDs _ _ _ _ _) as [[bk r] [reqs1|e|]] eqn:Ea; try done. simpl.
    destruct (pickPasses reqs1 (ackLevel (tr (bl s))) (cntr s)) as [[reqs2 c]|] eqn:Ep; simpl; [|done].
    case_bool_decide as F; [|done]. intros [= <-]. by eapply fs_pin.
  - destruct (wr s) as [|[|t ts]| |] eqn:Ew; try done. destruct (CreateFairTasks _ _ _ _) as [[sub' rows'] [e|]] eqn:E; [done|].
    intros [= <-]. by eapply fs_created.
  - destruct (wr s) eqn:Ew; try done. destruct (wroteNewTasks _ _ _) as [b new] eqn:E. intros [= <-]. by eapply fs_wrote.
  - destruct (wr s) eqn:Ew; try done. intros [= <-]. by eapply fs_unpin.
  - destruct (rd s) eqn:Er; try done. destruct (readTasksImpl _ _ _ _ _ _) as [b [l n|new]] eqn:E; intros [= <-];
      [by eapply fs_read_batch|by eapply fs_read_end].
  - destruct (rd s) eqn:Er; try done. destruct (read_query _ _ _ _) eqn:E; try done. intros [= <-]. by eapply fs_query.
  - destruct (rd s) eqn:Er; try done. destruct (read_result _ _ _ _ _) as [b new] eqn:E. intros [= <-]. by eapply fs_read_result.
  - case_bool_decide; [|done]. destruct (completeTask _ _ _ _ _ _) as [b next] eqn:E. intros [= <-]. by eapply fs_complete.
  - case_bool_decide; [|done]. destruct (completeTask _ _ _ _ _ _) as [b next] eqn:E. intros [= <-]. eapply fs_fail; [done| |exact E]; done.
  - destruct (inGC (tr (bl s))) as [l|] eqn:Eg; [|done]. destruct (CompleteTasksLessThan _ _ _) as [[rows' n]| |] eqn:E; try done.
    intros [= <-]. by eapply fs_gc.
  - intros [= <-]. apply fs_reload; [lia|done].
Qed.

Lemma exec_all_steps l s s' : exec_all l s = Some s' → rtc step s s'.
Proof.
  revert s. induction l as [|a l IH]; intros s; simpl; [by intros [= ->]|].
  destruct (exec a s) as [s1|] eqn:E; simpl; [|done]. intros E'. eapply rtc_l; [by eapply exec_step|by apply IH].
Qed.
End exec.

(** ** Safety *)

Section safe.
Context {C : Type} `{Counter C}.
Context (batchSize reloadAt maxDelete rangeSize : Z).
Notation step := (fair_step batchSize reloadAt maxDelete rangeSize False False).

(** C3 A confirmed task is never lost, unless one of two races is lost.  Over every interleaving of
    the writer, the read loop, the collector, tasks coming back from the matcher, failed
    writes that may take effect late, and owners that crash and are replaced, with any
    counter and any batch sizes, in which no task that was written again has left the window
    when it is completed and no deletion of an earlier owner takes effect late (with either,
    tasks are lost: [respool_race_loses_task], [late_deletion_loses_task]): a task whose
    write was confirmed is done with, or its row is in the store, above the ack level of the
    owner and above the one a next owner would start from, and it is in the matcher, about
    to be merged, or above the read level of a reader that knows it is not at the end. *)
Theorem fair_backlog_safe c s l :
  1 ≤ rangeSize → counter_ok c → rtc step (new_queue reloadAt rangeSize c) s → l ∈ spooled s →
  l ∈ finished s ∨
  is_Some (rows s !! l) ∧ ackLevel (tr (bl s)) <l l ∧ fairLevelFromProto (FairAckLevel (persisted s)) <l l ∧
  (loaded (outstandingTasks (tr (bl s))) l ∨ waiting s l ∨ readLevel (tr (bl s)) <l l ∧ atEnd (tr (bl s)) = false).
Proof.
  intros Hr Hc R Hl. destruct (fair_inv_reachable batchSize reloadAt maxDelete rangeSize c s Hr Hc R) as (U & _ & D).
  destruct (decide (l ∈ finished s)) as [?|N]; [by left|right]. assert (owed s l) as Ho by done.
  pose proof (di_above _ s D l Ho). pose proof (di_persisted _ s D).
  split_and!; [by apply (di_rows _ s D)|done|level_lia|by apply (di_covered _ s D)].
Qed.

Lemma oldestTime_spec age m : oldestTime age = Some m ↔ is_Some (age !! m) ∧ ∀ c, is_Some (age !! c) → m ≤ c.
Proof.
  unfold oldestTime. assert (∀ c, is_Some (age !! c) ↔ ∃ k, (c, k) ∈ map_to_list age) as Hin.
  { intros c. unfold is_Some. by setoid_rewrite elem_of_map_to_list. }
  setoid_rewrite Hin. destruct (map_to_list age) as [|[t k] l].
  - split; [done|]. intros [[k Hk] _]. by apply not_elem_of_nil in Hk.
  - assert (∀ l t0, let r := foldl (λ m p, Z.min m p.1) t0 (l : list (Z * Z)) in
      (r = t0 ∨ ∃ k, (r, k) ∈ l) ∧ r ≤ t0 ∧ ∀ c k, (c, k) ∈ l → r ≤ c) as Hf.
    { clear. induction l as [|[c k] l IH]; intros t0; simpl.
      - split_and!; [by left|lia|]. intros ? ? Hx. by apply not_elem_of_nil in Hx.
      - destruct (IH (Z.min t0 c)) as (Ha & Hb & Hd). split_and!; [|lia|].
        + destruct Ha as [Ha|[k' Ha]]; [|right; exists k'; by right]. destruct (Z.min_spec t0 c) as [[_ E]|[_ E]]; rewrite E in *; [by left|].
          right. exists k. rewrite Ha. by left.
        + intros c' k' [[= -> ->]|Hx]%elem_of_cons; [lia|by eapply Hd]. }
    destruct (Hf l t) as (Ha & Hb & Hd). set (r := foldl _ t l) in *. split.
    + intros [= <-]. split.
      * destruct Ha as [->|[k' Ha]]; [exists k; by left|exists k'; by right].
      * intros c [k' [[= -> ->]|Hx]%elem_of_cons]; [done|by eapply Hd].
    + intros [[k' Hm] Hmin]. f_equal. apply Z.le_antisymm.
      * apply elem_of_cons in Hm as [[= -> ->]|Hm]; [done|by eapply Hd].
      * destruct Ha as [->|[k2 Ha]]; apply Hmin; [exists k; by left|exists k2; by right].
Qed.

(** The times the tracker has are those of loaded tasks. *)
Lemma age_loaded age o n c : tallied age o n → is_Some (age !! c) ↔ ∃ l t, o !! l = Some (Some t) ∧ CreateTime t = Some c.
Proof.
  intros (_ & Ea & F). assert (is_Some (age !! c) ↔ 0 < total (created_at c) o) as ->.
  { rewrite <- Ea. split; [intros [k Ek]; pose proof (F _ _ Ek); by rewrite Ek|]. destruct (age !! c); [eauto|simpl; lia]. }
  unfold total. rewrite msum_pos by (intros [t|]; simpl; [unfold created_at; case_bool_decide; lia|lia]). split.
  - intros (l & [t|] & E & P); simpl in P; [|lia]. exists l, t. split; [done|]. unfold created_at in P. case_bool_decide; [done|lia].
  - intros (l & t & E & Et). exists l, (Some t). split; [done|]. simpl. unfold created_at. rewrite bool_decide_true by done. lia.
Qed.

(** C34 The reader's bookkeeping is exact in every state reachable without the two races of
    [fair_backlog_safe]: the window lies between the
    ack level and the read level, the number of loaded tasks is the number of unacked
    entries of the window, the age of the backlog is that of the oldest of them, acked
    entries are of tasks that are done with, and a reader that takes itself to be at the end
    while no write is under way has every confirmed unfinished task loaded. *)
Theorem fair_reader_exact c s :
  1 ≤ rangeSize → counter_ok c → rtc step (new_queue reloadAt rangeSize c) s →
  let t := tr (bl s) in let o := outstandingTasks t in
  (∀ l v, o !! l = Some v → ackLevel t <l l ∧ l ≤l readLevel t ∧ (v = None → l ∈ finished s)) ∧
  loadedTasks t = total (λ _, 1) o ∧
  (∀ m, oldestTime (backlogAge t) = Some m ↔
     (∃ l u, o !! l = Some (Some u) ∧ CreateTime u = Some m) ∧ ∀ l u m', o !! l = Some (Some u) → CreateTime u = Some m' → m ≤ m') ∧
  (atEnd t = true → wr s = WIdle → newlyWrittenTasks t = [] → ∀ l, l ∈ spooled s → l ∉ finished s → loaded o l).
Proof.
  intros Hr Hc R t o. destruct (fair_inv_reachable batchSize reloadAt maxDelete rangeSize c s Hr Hc R) as (U & _ & D).
  pose proof (di_reader _ s D) as I. split_and!.
  - intros l v E. destruct (ri_window _ _ I _ _ E) as (? & ? & _). split_and!; [done|done|]. intros ->. by apply (ri_acked _ _ I).
  - apply (ri_tallied _ _ I).
  - intros m. rewrite oldestTime_spec. pose proof (λ c, age_loaded _ _ _ c (ri_tallied _ _ I)) as A. fold t o in A. split.
    + intros [Hm Hmin]. split; [by apply A|]. intros l u m' E Em. apply Hmin, A. eauto.
    + intros [Hm Hmin]. split; [by apply A|]. intros m' (l & u & E & Em)%A. by eapply Hmin.
  - intros Ea Ew En l Hs Hf. destruct (di_covered _ s D l) as [?|[[Hl|Hl]|[_ ?]]]; [done|done| | |].
    + fold t in Hl. rewrite En in Hl. by apply elem_of_levels in Hl as (? & ?%not_elem_of_nil & _).
    + by rewrite Ew in Hl.
    + unfold t in Ea. congruence.
Qed.
End safe.

(** ** Sample runs *)

(** A request with a fairness key and a stride. *)
Definition req (key : string) (stride : Z) (expiry : option Z) : writeTaskRequest := mkRequest key stride (Some 7) expiry 0 zeroLevel.
Definition task (p i : Z) (expiry : option Z) : AllocatedTaskInfo := mkTask p i (Some 7) expiry 0.
Definition start : fairQueue (C := mapCounter) := new_queue 0 100 ∅.
(** Two tasks in memory at most, read again when none is left; ids in blocks of a hundred. *)
Definition run (l : list action) (s : fairQueue (C := mapCounter)) : fairQueue (C := mapCounter) := default s (exec_all 2 0 10 100 l s).

Lemma run_steps late_respool late_gc l s : is_Some (exec_all 2 0 10 100 l s) → rtc (fair_step 2 0 10 100 late_respool late_gc) s (run l s).
Proof. intros [s' E]. apply (exec_all_steps 2 0 10 100 _ _ l). unfold run. by rewrite E. Qed.

(** Reading to the end, and a batch that is written and merged. *)
Definition read_to_end (now : Z) : list action := [ATop; AQuery; AResult now; ATop].
Definition write_batch (reqs : list writeTaskRequest) : list action := [AWrite reqs; ACreate; AWrote; AUnpin].

(** Two tasks are loaded, the second fails and is written again; the batch it is in has two tasks
    at lower levels, which take the place of both. *)
Definition evicted_run : list action :=
  read_to_end 0 ++ write_batch [req "a" 5000 None; req "b" 6000 None] ++ [AFail (task 6000 2 None)] ++
  write_batch [req "c" 1000 None; req "d" 2000 None; req "b" 6000 None].

Lemma evicted_reachable : rtc (fair_step 2 0 10 100 False False) (new_queue 0 100 ∅) (run evicted_run start).
Proof. apply (run_steps False False evicted_run start). vm_compute. eexists. reflexivity. Qed.

Lemma fair_backlog_safe_witness :
  let s := run evicted_run start in is_Some (rows s !! mkLevel 5000 1) ∧ ackLevel (tr (bl s)) <l mkLevel 5000 1.
Proof.
  destruct (fair_backlog_safe 2 0 10 100 (∅ : mapCounter) (run evicted_run start) (mkLevel 5000 1)) as [Hf|(Hr & Ha & _ & _)].
  - lia.
  - exact I.
  - exact evicted_reachable.
  - apply (bool_decide_eq_true_1 _). vm_compute. reflexivity.
  - exfalso. revert Hf. apply (bool_decide_eq_false_1 _). vm_compute. reflexivity.
  - exact (conj Hr Ha).
Defined.

Lemma fair_reader_exact_witness :
  let s := run evicted_run start in loadedTasks (tr (bl s)) = total (λ _, 1) (outstandingTasks (tr (bl s))) ∧ loadedTasks (tr (bl s)) = 2.
Proof.
  destruct (fair_reader_exact 2 0 10 100 (∅ : mapCounter) (run evicted_run start)) as (_ & En & _ & _).
  - lia.
  - exact I.
  - exact evicted_reachable.
  - split; [exact En|vm_compute; reflexivity].
Defined.
