(* ===== verification/FairFailures.v ===== *)
(** * Runs of the fair backlog that lose or strand tasks

    Four runs of the source that the proof of safety rules out or that safety does not speak of: a task
    written again after an error, a deletion of a previous owner, a write the reader sees
    before it is told of it, and a batch of expired tasks. *)
From S2P Require Import Prelude FairLevel FairCounter FairStore FairReader FairWriter FairMerge FairBacklog.
From S2P Require Import FairSafety FairProps.
Local Open Scope Z_scope.

Notation sample_step := (fair_step (C := mapCounter) 2 0 10 100).
Notation orderly_step := (sample_step False False).

(** A run, one more step, and a run. *)
Lemma run_late_run late_respool late_gc l1 s2 l2 :
  is_Some (exec_all 2 0 10 100 l1 start) → sample_step late_respool late_gc (run l1 start) s2 → is_Some (exec_all 2 0 10 100 l2 s2) →
  rtc (sample_step late_respool late_gc) (new_queue 0 100 ∅) (run l2 s2).
Proof. intros E1 L E2. etrans; [apply (run_steps _ _ l1 start E1)|]. eapply rtc_l; [exact L|]. by apply run_steps. Qed.

(** ** A task that is written again *)

(** The task that failed is completed after it was evicted: its level comes back, acked, above
    everything the reader has. *)
Definition respooled (s : fairQueue (C := mapCounter)) (t : AllocatedTaskInfo) : fairQueue (C := mapCounter) :=
  finish_levels (set_respooling (set_bl s (completeTaskLocked 0 10 false (bl s) t) []) []) {[fairLevelFromAllocatedTask t]}.
Definition lost_run : list action := [AComplete false (task 1000 3 None); AComplete true (task 2000 4 None); AGc].
Definition lost_state : fairQueue (C := mapCounter) := run lost_run (respooled (run evicted_run start) (task 6000 2 None)).

(** C32 A task can be lost when another is written again after an error.  The end of [completeTask]
    does not look whether the task it completes is still in the window.  Here the task and another
    were evicted meanwhile by tasks of lower levels, the stale ack lets the ack level jump
    over the other one, and the collector deletes it: its write was confirmed, nobody
    completed it, and it is neither in the store nor in memory. *)
Theorem respool_race_loses_task :
  ∃ s l, rtc (sample_step True False) (new_queue 0 100 ∅) s ∧
    l ∈ spooled s ∧ l ∉ finished s ∧ rows s !! l = None ∧ ¬ loaded (outstandingTasks (tr (bl s))) l.
Proof.
  exists lost_state, (mkLevel 5000 1). split_and!.
  - apply (run_late_run _ _ evicted_run _ lost_run); [by_decide| |by_decide].
    apply (fs_respooled 2 0 10 100 True False (run evicted_run start) [] (task 6000 2 None) [] false); [vm_compute; reflexivity|by right].
  - by_decide.
  - apply (bool_decide_eq_false_1 _). vm_compute. reflexivity.
  - vm_compute. reflexivity.
  - intros [t E]. revert E. vm_compute. discriminate.
Qed.

(** ** A deletion of an owner before *)

(** An owner acks a task at a high level and starts to collect; the next one starts from the ack
    level written before that and gives a new task a lower level. *)
Definition takeover_run : list action :=
  read_to_end 0 ++ write_batch [req "a" 5000 None] ++ [AComplete true (task 5000 1 None); AReload] ++ read_to_end 0 ++
  write_batch [req "z" 10 None].
Definition after_late_gc (s : fairQueue (C := mapCounter)) : fairQueue (C := mapCounter) :=
  match CompleteTasksLessThan (rows s) (inc (mkLevel 5000 1)) 10 with
  | Ok (rows', _) => set_rows s rows' (limbo s)
  | _ => s
  end.

(** A task can be lost when a task queue changes its owner.  Deleting acked tasks has no
    condition on the lease, and in a fair queue new tasks may be below levels that were acked
    before: a deletion the previous owner sent and that takes effect after the new owner has
    written a task removes that task; the new owner's successor will not find it. *)
Theorem late_deletion_loses_task :
  ∃ s l, rtc (sample_step False True) (new_queue 0 100 ∅) s ∧
    l ∈ spooled s ∧ l ∉ finished s ∧ rows s !! l = None ∧ ¬ loaded (outstandingTasks (tr (bl s))) l.
Proof.
  exists (run [AReload] (after_late_gc (run takeover_run start))), (mkLevel 10 101). split_and!.
  - apply (run_late_run _ _ takeover_run _ [AReload]); [by_decide| |eexists; reflexivity].
    assert (∃ r, CompleteTasksLessThan (rows (run takeover_run start)) (inc (mkLevel 5000 1)) 10 = Ok r) as [[rows' n] E] by (vm_compute; by eexists).
    unfold after_late_gc. rewrite E. refine (fs_old_gc 2 0 10 100 False True (run takeover_run start) (mkLevel 5000 1) rows' n I _ E). by_decide.
  - by_decide.
  - apply (bool_decide_eq_false_1 _). vm_compute. reflexivity.
  - vm_compute. reflexivity.
  - intros [t E]. revert E. vm_compute. discriminate.
Qed.

(** ** A write that is read before it is merged *)

Section stall.
Context {C : Type} `{Counter C}.
Context (batchSize reloadAt maxDelete rangeSize : Z).
Implicit Types s : fairQueue (C := C).
Notation orderly := (fair_step batchSize reloadAt maxDelete rangeSize False False).
Notation step := (fair_step batchSize reloadAt maxDelete rangeSize True True).

(** Nothing is loaded, no read is under way or due, and the reader is not at the end; no race can happen. *)
Definition stalled s : Prop :=
  let t := tr (bl s) in
  outstandingTasks t = ∅ ∧ atEnd t = false ∧ rd s = RIdle ∧ readPending t = false ∧ backoffTimer t = false ∧
  newlyWrittenTasks t = [] ∧ readLevel t = ackLevel t ∧ Forall (λ u, ackLevel t <l fairLevelFromAllocatedTask u) (write_tasks (wr s)) ∧ respooling s = [] ∧ old_gcs s = [].

(** Steps as long as no write fails and the owner stays. *)
Definition undisturbed s s' : Prop := step s s' ∧ wr s ≠ WEnding true ∧ ∀ r c, s' ≠ reload reloadAt rangeSize s r c.

Lemma merge_nothing b tasks mode :
  outstandingTasks (tr b) = ∅ → atEnd (tr b) = false → readLevel (tr b) = ackLevel (tr b) → mode ≠ mergeReadToEnd →
  Forall (λ u, ackLevel (tr b) <l fairLevelFromAllocatedTask u) tasks → (mode = mergeWrite ∨ tasks = []) →
  mergeTasksLocked batchSize b tasks mode = (b, []).
Proof.
  intros Eo Ea Er Nm F Hm. assert (merged_tasks (tr b) mode tasks = ∅) as Em.
  { unfold merged_tasks. rewrite Eo, omap_empty. destruct Hm as [-> | ->]; [|done]. induction F as [|u tasks Hu _ IH]; [done|]. simpl.
    destruct (add_incoming_cases (tr b) mergeWrite ∅ u) as [[-> _]|[_ (_ & N & _)]]; [done|].
    exfalso. apply N. by rewrite Er. }
  assert (∀ V, tree_list (∅ : gmap fairLevel V) = []) as Et by (intros; unfold tree_list; by rewrite map_to_list_empty).
  unfold mergeTasksLocked. rewrite Em, Et, take_nil, drop_nil. simpl. unfold acked_above. simpl. rewrite Eo, Et. simpl.
  rewrite (bool_decide_false (mode = mergeReadToEnd)) by done. destruct b as [t sb cx], t. simpl in *. subst.
  by destruct mode.
Qed.

Lemma advance_nothing due b : outstandingTasks (tr b) = ∅ → advanceAckLevelLocked maxDelete due b = b.
Proof.
  intros Eo. unfold advanceAckLevelLocked. case_match; [done|]. rewrite Eo, map_size_empty. simpl. destruct b as [t sb cx]. destruct t.
  simpl in *. by subst.
Qed.

Lemma stalled_orderly s s' : stalled s → step s s' → orderly s s'.
Proof.
  intros (_ & _ & _ & _ & _ & _ & _ & _ & Er & Eg) St.
  destruct St; match goal with
    | Hx : respooling _ = _ |- _ => rewrite Er in Hx; by destruct l1
    | Hx : _ ∈ old_gcs _ |- _ => rewrite Eg in Hx; by apply not_elem_of_nil in Hx
    | _ => idtac
    end; solve [econstructor; eauto].
Qed.
Lemma stalled_step U s s' : 1 ≤ rangeSize → queue_inv batchSize rangeSize U s → stalled s → undisturbed s s' →
  stalled s' ∧ dispatched s' = dispatched s.
Proof.
  intros Hrs Q Sd (St & Nw & Nr). apply stalled_orderly in St; [|done]. destruct Sd as (Eo & Ea & Er & Ep & Eb & En & El & Fw & Es0 & Eg0).
  destruct (fair_inv_step batchSize reloadAt maxDelete rangeSize U s s' Hrs Q St) as (U' & _ & _ & D').
  unfold stalled. destruct St as [s reqs renew bk r e Ew Eal|s reqs renew bk r reqs1 b base reqs2 c Ew Eal Epin Epp Fp|s tasks sub' rows' Ew Ne E
    |s tasks res sub' rows' e Ew E|s err Ew|s tasks b new Ew E|s err due Ew|s l1 t l2 Eli|s e due b l n Erd E|s e due b new Erd E
    |s l n tasks Erd E|s l n retry Erd|s n tasks now b new Erd E|s Et|s task due b next Hd E|s task due res b next Hd Nres E
    |s l1 task l2 due Es _|s l rows' n Eg E|s l rows' n applied Eg E|s l rows' n []|s|s|s r c Hr Hc]; try congruence.
  - done.
  - unfold getAndPinAckLevel in Epin. injection Epin as <- <-. simpl in *. rewrite Er, Ep, app_nil_r. split_and!; try done.
    by apply (di_creating _ _ D').
  - simpl in *. rewrite Er, Ep, app_nil_r. rewrite Ew in Fw. done.
  - simpl in *. rewrite Er, Ep, app_nil_r. split_and!; try done.
  - simpl. split_and!; try done.
  - unfold wroteNewTasks, mergeTasks in E. rewrite Ep in E. simpl in E. rewrite Ew in Fw. simpl in Fw.
    rewrite merge_nothing in E by (done || by left). injection E as <- <-. simpl. rewrite Er, Ep, app_nil_r. split_and!; try done.
  - destruct err; [done|]. unfold unpinAckLevel. rewrite advance_nothing by done. simpl. rewrite Er, Ep, app_nil_r. split_and!; try done.
  - done.
  - assert (b = bl s) as ->; [|simpl; rewrite Er, Ep, app_nil_r; split_and!; done].
    unfold completeTask in E. rewrite Eo, lookup_empty in E. by injection E as <- _.
  - assert (b = bl s ∧ next = CompleteDone) as [-> ->]; [|simpl; rewrite Er, Ep, app_nil_r; split_and!; done].
    unfold completeTask in E. rewrite Eo, lookup_empty in E. by injection E as <- <-.
  - rewrite Es0 in Es. by destruct l1.
  - simpl. rewrite Er, Ep, app_nil_r. split_and!; done.
  - simpl. rewrite Er, Ep, app_nil_r. split_and!; done.
  - done.
  - simpl. rewrite Er, Ep, app_nil_r. split_and!; done.
Qed.

Lemma stalled_forever U s s' : 1 ≤ rangeSize → queue_inv batchSize rangeSize U s → stalled s → rtc undisturbed s s' →
  stalled s' ∧ dispatched s' = dispatched s.
Proof.
  intros Hrs Q St R. revert U Q St. induction R as [|s s1 s' Hs R IH]; intros U Q St; [done|].
  destruct (stalled_step U s s1 Hrs Q St Hs) as [St1 <-].
  destruct (fair_inv_step batchSize reloadAt maxDelete rangeSize U s s1 Hrs Q) as (U' & _ & Q1); [by eapply stalled_orderly, Hs|]. by apply (IH U' Q1).
Qed.
End stall.

(** A run in which no write fails and the reader stays idle, as a reload does not leave it. *)
Fixpoint calm (l : list action) (s : fairQueue (C := mapCounter)) : bool :=
  match l with
  | [] => true
  | a :: l =>
      match exec 2 0 10 100 a s with
      | Some s' => match wr s, rd s' with WEnding true, _ => false | _, RIdle => calm l s' | _, _ => false end
      | None => false
      end
  end.
Lemma calm_undisturbed l s : calm l s = true → rtc (undisturbed 2 0 10 100) s (run l s).
Proof.
  revert s. induction l as [|a l IH]; intros s E; [apply rtc_refl|]. simpl in E. destruct (exec 2 0 10 100 a s) as [s1|] eqn:Ex; [|done].
  assert (wr s ≠ WEnding true ∧ rd s1 = RIdle ∧ calm l s1 = true) as (Nw & Er & Ec) by (repeat case_match; done).
  eapply rtc_l.
  - split; [by eapply exec_step|]. split; [done|]. intros r c ->. revert Er. done.
  - specialize (IH s1 Ec). unfold run in *. simpl. rewrite Ex. simpl. destruct (exec_all 2 0 10 100 l s1) eqn:El; [done|].
    exfalso. revert Ec El. clear. revert s1. induction l as [|a l IH]; intros s1; [done|]. simpl.
    destruct (exec 2 0 10 100 a s1) as [s2|]; simpl; [|done]. intros E. apply IH. by repeat case_match.
Qed.

(** The first task is written while the reader starts: the read finds it and the matcher completes it
    before the writer hands it to the reader. *)
Definition stall_run : list action :=
  [ATop; AWrite [req "a" 1000 None]; ACreate; AQuery; AResult 0; ATop; AComplete false (task 1000 1 None); AWrote; AUnpin].

Lemma stalled_for_good s : rtc orderly_step (new_queue 0 100 ∅) s → stalled s →
  ∀ s', rtc (undisturbed 2 0 10 100) s s' → dispatched s' = dispatched s ∧ outstandingTasks (tr (bl s')) = ∅.
Proof.
  intros R St s' Rs. destruct (fair_inv_reachable 2 0 10 100 (∅ : mapCounter) s) as [U Q]; [lia|exact I|done|].
  destruct (stalled_forever 2 0 10 100 U s s' ltac:(lia) Q St Rs) as [(Eo & _) Ed]. done.
Qed.

(** C31 The reader can stop for good.  A write the read loop sees before the writer reports it makes
    the report find only an acked entry, which is dropped and takes the end flag with it, with
    nothing loaded and without starting a read.  From then on, whatever happens as long as no
    write fails and the owner stays, no task is ever handed to the matcher, while writes go
    on being confirmed. *)
Theorem reader_can_stall :
  ∃ s, rtc orderly_step (new_queue 0 100 ∅) s ∧
    (∀ s', rtc (undisturbed 2 0 10 100) s s' → dispatched s' = dispatched s ∧ outstandingTasks (tr (bl s')) = ∅) ∧
    ∃ s' l, rtc (undisturbed 2 0 10 100) s s' ∧ l ∈ spooled s' ∧ l ∉ finished s'.
Proof.
  assert (rtc orderly_step (new_queue 0 100 ∅) (run stall_run start)) as R by (apply (run_steps _ _ stall_run start); by_decide).
  exists (run stall_run start). split; [exact R|]. split.
  - apply (stalled_for_good _ R). unfold stalled. split_and!; vm_compute; try reflexivity. constructor.
  - exists (run (write_batch [req "b" 1000 None]) (run stall_run start)), (mkLevel 1000 2). split_and!.
    + apply calm_undisturbed. vm_compute. reflexivity.
    + by_decide.
    + apply (bool_decide_eq_false_1 _). vm_compute. reflexivity.
Qed.

(** ** A batch of expired tasks *)

Definition read_pass (now : Z) : list action := [ATop; AQuery; AResult now].

Section wedge.
Context (batchSize reloadAt maxDelete rangeSize : Z).
Implicit Types s : fairQueue (C := mapCounter).
Notation exec_all := (exec_all batchSize reloadAt maxDelete rangeSize).

(** Nothing is loaded, and the next batch is full and has expired by [T]. *)
Definition wedged (T : Z) s : Prop :=
  let t := tr (bl s) in
  rd s = RTop false ∧ outstandingTasks t = ∅ ∧ loadedTasks t = 0 ∧ atEnd t = false ∧ readLevel t = ackLevel t ∧
  ∃ tasks, read_query batchSize (rows s) (readLevel t) 0 = Ok tasks ∧ Z.of_nat (length tasks) = batchSize ∧
    Forall (λ u, ∀ now, T ≤ now → IsTaskExpired now u = true) tasks.

(** A pass of the read loop finds the batch expired and leaves the reader as it was. *)
Lemma wedged_pass T s now : 0 ≤ reloadAt → wedged T s → T ≤ now →
  ∃ s', exec_all (read_pass now) s = Some s' ∧ wedged T s' ∧ bl s' = bl s ∧ rows s' = rows s ∧ dispatched s' = dispatched s.
Proof.
  intros Hra (Er & Eo & En & Ea & El & tasks & Eq & Hlen & F) Hnow.
  exists (finish_levels s (levels (base.filter (λ t, IsTaskExpired now t = true) tasks))). split; [|by split; [split_and!; eauto|]].
  assert (readTasksImpl batchSize reloadAt maxDelete false (bl s) false = (bl s, ReadBatch (readLevel (tr (bl s))) 0)) as Et.
  { unfold readTasksImpl, shouldReadMoreLocked. rewrite Ea, En. destruct (Z.gtb_spec 0 reloadAt); [lia|]. done. }
  assert (base.filter (λ t, IsTaskExpired now t = false) tasks = []) as Ef.
  { clear -F Hnow. induction F as [|u tasks Hu _ IH]; [done|]. rewrite filter_cons, decide_False; [done|]. by rewrite Hu. }
  assert (read_result batchSize now (bl s) 0 tasks = (bl s, [])) as Eres.
  { unfold read_result. rewrite Ef. destruct (Z.ltb_spec (Z.of_nat (length tasks)) (batchSize - 0)); [lia|]. unfold mergeTasks. simpl.
    apply merge_nothing; try done. by right. }
  assert (set_bl s (bl s) [] = s) as Es by (unfold set_bl; rewrite Er, app_nil_r; rewrite <- Er; by destruct s).
  unfold read_pass. simpl. rewrite Er, Et. simpl. rewrite Es. simpl. rewrite Eq. simpl. rewrite Eres. f_equal.
  unfold finish_levels, set_done, set_rd, set_bl. simpl. rewrite app_nil_r, <- Er. by destruct s.
Qed.

Lemma exec_all_app l1 l2 s : exec_all (l1 ++ l2) s = (s1 ← exec_all l1 s; exec_all l2 s1).
Proof. revert s. induction l1 as [|a l1 IH]; intros s; simpl; [done|]. destruct (exec _ _ _ _ a s); simpl; [apply IH|done]. Qed.

Lemma wedged_passes T nows s : 0 ≤ reloadAt → wedged T s → Forall (λ now, T ≤ now) nows →
  ∃ s', exec_all (concat (map read_pass nows)) s = Some s' ∧ wedged T s' ∧ bl s' = bl s ∧ rows s' = rows s ∧ dispatched s' = dispatched s.
Proof.
  intros Hra W F. revert s W. induction F as [|now nows Hn _ IH]; intros s W; [by exists s|].
  destruct (wedged_pass T s now Hra W Hn) as (s1 & E1 & W1 & B1 & R1 & D1). destruct (IH s1 W1) as (s2 & E2 & W2 & B2 & R2 & D2).
  exists s2. cbn [map concat]. rewrite exec_all_app, E1. simpl. rewrite E2. split_and!; [done|done|congruence..].
Qed.
End wedge.

(** Two tasks that expire at second one and one that does not; the next owner starts with the first two
    as its batch. *)
Definition wedge_run : list action :=
  read_to_end 0 ++ write_batch [req "a" 1000 (Some 1000000000); req "b" 2000 (Some 1000000000); req "c" 3000 None] ++ [AReload].

(** A full batch of expired tasks stops the reader from reaching the tasks behind it.  Expired tasks
    are left out of what is merged, so that the read level does not move: however often
    the read loop runs, it reads the same batch again and leaves the reader as it was, and a
    confirmed task behind the batch that never expires is not read. *)
Theorem expired_batch_wedges :
  ∃ s l t, rtc orderly_step (new_queue 0 100 ∅) s ∧ l ∈ spooled s ∧ l ∉ finished s ∧ rows s !! l = Some t ∧ ExpiryTime t = None ∧
    ∀ nows, Forall (λ now, 2000000000 ≤ now) nows →
      ∃ s', exec_all 2 0 10 100 (concat (map read_pass nows)) s = Some s' ∧
        bl s' = bl s ∧ rd s' = RTop false ∧ rows s' = rows s ∧ dispatched s' = dispatched s.
Proof.
  assert (wedged 2 2000000000 (run wedge_run start)) as W.
  { unfold wedged. split_and!; [vm_compute; reflexivity..|]. exists [task 1000 1 (Some 1000000000); task 2000 2 (Some 1000000000)].
    split_and!; [vm_compute; reflexivity..|]. apply Forall_cons; split; [|apply Forall_cons; split; [|constructor]]; intros now Hn;
      (apply andb_true_iff; split; [reflexivity|apply Z.ltb_lt; lia]). }
  exists (run wedge_run start), (mkLevel 3000 3), (task 3000 3 None). split; [apply (run_steps _ _ wedge_run start); by_decide|].
  split; [by_decide|]. split; [apply (bool_decide_eq_false_1 _); vm_compute; reflexivity|]. split; [vm_compute; reflexivity|].
  split; [reflexivity|]. intros nows F.
  destruct (wedged_passes 2 0 10 100 2000000000 nows (run wedge_run start) ltac:(lia) W F) as (s' & E & (Er & _) & B & R & D).
  exists s'. split; [exact E|]. split; [exact B|]. split; [exact Er|]. split; [exact R|exact D].
Qed.
