(* ===== verification/UpdateState.v ===== *)
(** * Workflow updates: states, futures and effects
    ([service/history/workflow/update]: [state.go], [abort_reason.go], [validation.go], [status.go],
    and the data of [update.go]; [common/effect]; [common/future/future_impl.go])

    An update is a request a client sends to a running workflow; the worker accepts or rejects it and
    later completes it.  Its state machine runs ahead of the database: an operation puts
    the update into a provisional state and registers what to do once the transaction has been
    committed, and what to do if it is rolled back.  The closures the source registers are
    the constructors of [commit] and [rollback] here, with the variables they capture as
    arguments. *)
From S2P Require Import Prelude.
Local Open Scope Z_scope.

(** ** States ([state.go]) *)

Inductive state :=
  | stateCreated | stateProvisionallyAdmitted | stateAdmitted | stateSent | stateProvisionallyAccepted | stateAccepted
  | stateProvisionallyCompleted | stateProvisionallyCompletedAfterAccepted | stateCompleted | stateProvisionallyAborted | stateAborted.
#[export] Instance state_eq_dec : EqDecision state.
Proof. solve_decision. Defined.

(** [1 << iota]. *)
Definition state_bit (s : state) : Z :=
  Z.shiftl 1 match s with
  | stateCreated => 0 | stateProvisionallyAdmitted => 1 | stateAdmitted => 2 | stateSent => 3 | stateProvisionallyAccepted => 4
  | stateAccepted => 5 | stateProvisionallyCompleted => 6 | stateProvisionallyCompletedAfterAccepted => 7 | stateCompleted => 8
  | stateProvisionallyAborted => 9 | stateAborted => 10 end.
Definition stateSet (ss : list state) : Z := foldl (λ m s, Z.lor m (state_bit s)) 0 ss.
Definition Matches (s : state) (mask : Z) : bool := Z.land (state_bit s) mask =? state_bit s.

(** ** Failures and errors ([errors_failures.go]) *)

Inductive Failure := unprocessedUpdateFailure | acceptedUpdateCompletedWorkflowFailure | WorkerFailure (n : nat).
#[export] Instance Failure_eq_dec : EqDecision Failure.
Proof. solve_decision. Defined.

(** The value of a [updatepb.Outcome]; a failure message may be missing. *)
Inductive Outcome := OutcomeSuccess (payload : nat) | OutcomeFailure (f : option Failure).
#[export] Instance Outcome_eq_dec : EqDecision Outcome.
Proof. solve_decision. Defined.

Inductive upd_error :=
  | registryClearedErr | AbortedByServerErr | AbortedByWorkflowClosingErr | ErrWorkflowClosing | workflowTaskFailErr
  | InvalidArgument | ResourceExhausted | FailedPrecondition | ErrWorkflowFinished | NotFound | UpdateNotCompleted
  | EventCacheErr | DeadlineExceeded | Canceled
  | ErrWorkflowExecutionNotFound | ErrWorkflowCompleted | WorkflowNotReady | PayloadTooLarge.
#[export] Instance upd_error_eq_dec : EqDecision upd_error.
Proof. solve_decision. Defined.

(** ** Reasons to abort ([abort_reason.go]) *)

Inductive AbortReason :=
  AbortReasonRegistryCleared | AbortReasonWorkflowCompleted | AbortReasonWorkflowContinuing | AbortReasonWorkflowTaskFailed.

(** [reasonStateMatrix]: the matrix has an entry for every pair, so the panic of the source is not reached. *)
Definition FailureError (r : AbortReason) (st : state) : option Failure * option upd_error :=
  match r, st with
  | _, (stateCompleted | stateProvisionallyAborted | stateAborted) => (None, None)
  | AbortReasonRegistryCleared, _ => (None, Some registryClearedErr)
  | AbortReasonWorkflowCompleted, (stateCreated | stateProvisionallyAdmitted | stateAdmitted | stateSent) =>
      (None, Some AbortedByWorkflowClosingErr)
  | AbortReasonWorkflowContinuing, (stateCreated | stateProvisionallyAdmitted | stateAdmitted | stateSent) =>
      (None, Some ErrWorkflowClosing)
  | (AbortReasonWorkflowCompleted | AbortReasonWorkflowContinuing), _ => (Some acceptedUpdateCompletedWorkflowFailure, None)
  | AbortReasonWorkflowTaskFailed, (stateCreated | stateProvisionallyAdmitted | stateAdmitted) => (None, Some registryClearedErr)
  | AbortReasonWorkflowTaskFailed, stateSent => (None, Some workflowTaskFailErr)
  | AbortReasonWorkflowTaskFailed, _ => (None, None)
  end.

(** ** Futures ([future_impl.go]) *)

(** [None] is pending; a future that is ready has a value and an error. *)
Definition future (T : Type) := option (T * option upd_error).
Definition Ready {T} (f : future T) : bool := match f with Some _ => true | None => false end.
(** [None] is the panic of a future that is completed twice. *)
Definition future_Set {T} (f : future T) (value : T) (err : option upd_error) : option (future T) :=
  match f with None => Some (Some (value, err)) | Some _ => None end.

(** ** Messages and their validation ([validation.go]) *)

(** A request has its update id in its metadata and its name in its input, if it has them. *)
Record Request := mkRequest { req_meta : option string; req_input : option string; req_data : nat }.
Inductive body :=
  | Acceptance (sequencingEventId : Z) (messageId : string) (acceptedRequest : option Request)
  | Rejection (failure : option Failure) (rejectedRequest : option Request)
  | Response (meta : option string) (outcome : option Outcome)
  | OtherBody
  | Malformed.
Record Message := mkMessage { ProtocolInstanceId : string; Body : option body }.

Definition invalid (ok : bool) : option upd_error := if ok then None else Some InvalidArgument.
Definition validateRequestMsg (updateID : string) (r : Request) : option upd_error :=
  invalid match req_meta r, req_input r with
    | Some i, Some name => negb (bool_decide (i = "")) && bool_decide (i = updateID) && negb (bool_decide (name = ""))
    | _, _ => false
    end.
Definition validateAcceptanceMsg (sequencingEventId : Z) (messageId : string) : option upd_error :=
  invalid (negb (sequencingEventId =? 0) && negb (bool_decide (messageId = ""))).
Definition validateResponseMsg (updateID : string) (meta : option string) (outcome : option Outcome) : option upd_error :=
  invalid match meta, outcome with
    | Some i, Some _ => negb (bool_decide (i = "")) && bool_decide (i = updateID)
    | _, _ => false
    end.
(** Only the body itself is looked at, not whether it has a failure. *)
Definition validateRejectionMsg : option upd_error := None.

(** ** Updates ([update.go]) *)

(** What [checkLimits] is: nil, the default, or the size limit of the registry. *)
Inductive limiter := LimiterNil | LimiterNone | LimiterRegistry.

(** [onComplete] is the registry whose remover is called, by the number of the registry. *)
Record Update := mkUpdate {
  id : string; ustate : state; request : option Request; acceptedEventID : Z; admittedTime : Z;
  onComplete : option nat; checkLimits : limiter;
  accepted : future (option Failure); outcome : future (option Outcome) }.

Definition set_state (u : Update) (s : state) : Update :=
  mkUpdate (id u) s (request u) (acceptedEventID u) (admittedTime u) (onComplete u) (checkLimits u) (accepted u) (outcome u).
Definition set_request (u : Update) (r : option Request) : Update :=
  mkUpdate (id u) (ustate u) r (acceptedEventID u) (admittedTime u) (onComplete u) (checkLimits u) (accepted u) (outcome u).
Definition set_acceptedEventID (u : Update) (e : Z) : Update :=
  mkUpdate (id u) (ustate u) (request u) e (admittedTime u) (onComplete u) (checkLimits u) (accepted u) (outcome u).
Definition set_admittedTime (u : Update) (t : Z) : Update :=
  mkUpdate (id u) (ustate u) (request u) (acceptedEventID u) t (onComplete u) (checkLimits u) (accepted u) (outcome u).
Definition set_accepted (u : Update) (f : future (option Failure)) : Update :=
  mkUpdate (id u) (ustate u) (request u) (acceptedEventID u) (admittedTime u) (onComplete u) (checkLimits u) f (outcome u).
Definition set_outcome (u : Update) (f : future (option Outcome)) : Update :=
  mkUpdate (id u) (ustate u) (request u) (acceptedEventID u) (admittedTime u) (onComplete u) (checkLimits u) (accepted u) f.

Definition New (i : string) (reg : option nat) (lim : limiter) : Update :=
  mkUpdate i stateCreated None 0 0 reg lim None None.
Definition newAdmitted (i : string) (r : option Request) (reg : option nat) (now : Z) : Update :=
  mkUpdate i stateAdmitted r 0 now reg LimiterNil None None.
Definition newAccepted (i : string) (eventID : Z) (reg : option nat) : Update :=
  mkUpdate i stateAccepted None eventID 0 reg LimiterNil (Some (None, None)) None.
Definition newCompleted (i : string) (value : option Outcome) (err : option upd_error) : Update :=
  mkUpdate i stateCompleted None 0 0 None LimiterNil (Some (None, None)) (Some (value, err)).

(** ** Effects *)

(** The closures given to [OnAfterCommit], with what they capture. *)
Inductive commit :=
  | CAdmit | CAccept | CReject (f : option Failure) | CRespond (o : option Outcome)
  | CAbort (prevState : state) (f : option Failure) (err : option upd_error).
(** The closures given to [OnAfterRollback]. *)
Inductive rollback :=
  | RAdmit (prevState : state) | RAccept (prevState : state) | RReject (prevState : state) | RRespond (prevState : state)
  | RAbort (prevState : state).

(** The order in which futures are completed, which is what a goroutine that waits can see. *)
Inductive fut_event := FAccepted (v : option Failure) (err : option upd_error) | FOutcome (v : option Outcome) (err : option upd_error).

Definition Set_accepted (u : Update) (v : option Failure) (err : option upd_error) : option (Update * list fut_event) :=
  f ← future_Set (accepted u) v err; Some (set_accepted u f, [FAccepted v err]).
Definition Set_outcome (u : Update) (v : option Outcome) (err : option upd_error) : option (Update * list fut_event) :=
  f ← future_Set (outcome u) v err; Some (set_outcome u f, [FOutcome v err]).

Definition preAcceptedStates : Z :=
  stateSet [stateCreated; stateProvisionallyAdmitted; stateAdmitted; stateSent; stateProvisionallyAccepted].

(** The body of a closure run after the commit: the update, the futures completed in order, and whether [onComplete] is called.
    [None] is a panic. *)
Definition commit_admit (now : Z) (u : Update) : option (Update * list fut_event * bool) :=
  if negb (bool_decide (ustate u = stateProvisionallyAdmitted)) then Some (u, [], false)
  else Some (set_admittedTime (set_state u stateAdmitted) now, [], false).
Definition commit_accept (u : Update) : option (Update * list fut_event * bool) :=
  if negb (Matches (ustate u) (stateSet [stateProvisionallyAccepted; stateProvisionallyCompleted; stateProvisionallyAborted]))
  then Some (u, [], false)
  else
    let u := set_request u None in
    if bool_decide (ustate u = stateProvisionallyCompleted) then Some (set_state u stateProvisionallyCompletedAfterAccepted, [], false)
    else if bool_decide (ustate u = stateProvisionallyAborted) then Some (set_state u stateProvisionallyCompletedAfterAccepted, [], false)
    else '(u, l) ← Set_accepted (set_state u stateAccepted) None None; Some (u, l, false).
Definition commit_reject (f : option Failure) (u : Update) : option (Update * list fut_event * bool) :=
  if negb (bool_decide (ustate u = stateProvisionallyCompleted)) then Some (u, [], false)
  else
    '(u, l1) ← Set_accepted (set_state (set_request u None) stateCompleted) f None;
    '(u, l2) ← Set_outcome u (Some (OutcomeFailure f)) None;
    Some (u, l1 ++ l2, true).
Definition commit_respond (o : option Outcome) (u : Update) : option (Update * list fut_event * bool) :=
  if negb (Matches (ustate u) (stateSet [stateProvisionallyCompleted; stateProvisionallyCompletedAfterAccepted]))
  then Some (u, [], false)
  else
    let beforeCommitState := ustate u in
    '(u, l1) ← Set_outcome (set_state u stateCompleted) o None;
    if bool_decide (beforeCommitState = stateProvisionallyCompletedAfterAccepted)
    then '(u, l2) ← Set_accepted u None None; Some (u, l1 ++ l2, true)
    else Some (u, l1, true).
Definition commit_abort (prevState : state) (f : option Failure) (err : option upd_error) (u : Update) : option (Update * list fut_event * bool) :=
  if negb (Matches (ustate u) (stateSet [stateProvisionallyAborted; stateProvisionallyCompletedAfterAccepted]))
  then Some (u, [], false)
  else
    let beforeCommitState := ustate u in
    '(u, l1) ← Set_outcome (set_state u stateAborted) ((λ x, OutcomeFailure (Some x)) <$> f) err;
    if bool_decide (beforeCommitState = stateProvisionallyCompletedAfterAccepted)
    then '(u, l2) ← Set_accepted u None None; Some (u, l1 ++ l2, false)
    else if Matches prevState preAcceptedStates
    then '(u, l2) ← Set_accepted u f err; Some (u, l1 ++ l2, false)
    else Some (u, l1, false).
Definition run_commit (now : Z) (c : commit) : Update → option (Update * list fut_event * bool) :=
  match c with
  | CAdmit => commit_admit now | CAccept => commit_accept | CReject f => commit_reject f | CRespond o => commit_respond o
  | CAbort prevState f err => commit_abort prevState f err
  end.

(** The body of a closure run after a rollback. *)
Definition rollback_admit (prevState : state) (u : Update) : Update :=
  if negb (bool_decide (ustate u = stateProvisionallyAdmitted)) then u else set_admittedTime (set_state u prevState) 0.
Definition rollback_accept (prevState : state) (u : Update) : Update :=
  if negb (bool_decide (ustate u = stateProvisionallyAccepted)) then u else set_state (set_acceptedEventID u 0) prevState.
Definition rollback_reject (prevState : state) (u : Update) : Update :=
  if negb (bool_decide (ustate u = stateProvisionallyCompleted)) then u else set_state u prevState.
Definition rollback_respond (prevState : state) (u : Update) : Update :=
  if negb (bool_decide (ustate u = stateProvisionallyCompleted)) then u else set_state u prevState.
Definition rollback_abort (prevState : state) (u : Update) : Update :=
  if negb (bool_decide (ustate u = stateProvisionallyAborted)) then u else set_state u prevState.
Definition run_rollback (r : rollback) : Update → Update :=
  match r with
  | RAdmit s => rollback_admit s | RAccept s => rollback_accept s | RReject s => rollback_reject s | RRespond s => rollback_respond s
  | RAbort s => rollback_abort s
  end.

(** ** Waiting ([WaitLifecycleStage], [status.go]) *)

Inductive Stage := StageUnspecified | StageAdmitted | StageAccepted | StageCompleted.
#[export] Instance Stage_eq_dec : EqDecision Stage.
Proof. solve_decision. Defined.
Record Status := mkStatus { status_stage : Stage; status_outcome : option Outcome }.

Definition statusAdmitted : Status := mkStatus StageAdmitted None.
Definition statusAccepted : Status := mkStatus StageAccepted None.
Definition statusRejected (rejection : Failure) : Status := mkStatus StageCompleted (Some (OutcomeFailure (Some rejection))).
Definition statusCompleted (o : option Outcome) : Status := mkStatus StageCompleted o.

(** The two contexts when a call of [Get] returns: the caller's, and the one with the soft timeout, which is done whenever the
    caller's is. *)
Record contexts := mkContexts { ctxErr : option upd_error; stCtxErr : option upd_error }.
(** [errors.Is(err, ctx.Err())], false where the context is not done. *)
Definition is_err (err : upd_error) (ctx : option upd_error) : bool := bool_decide (Some err = ctx).
(** [Get] of a future: one that stays pending returns the error of the context. *)
Definition future_Get {T} (f : future (option T)) (c : contexts) : option T * option upd_error :=
  match f with Some v => v | None => (None, stCtxErr c) end.

(** The futures are read up to three times while other goroutines run: [o1] and [o2] are the outcome future and [a] the accepted
    future between them as these reads find them, [c1] and [c2] the contexts when the first two reads return. *)
Definition after_accepted (err : option upd_error) : Status + upd_error :=
  if bool_decide (err = Some registryClearedErr) then inr AbortedByServerErr
  else inl statusAdmitted.
Definition wait_accepted (waitStage : Stage) (err : option upd_error) (a : future (option Failure)) (o2 : future (option Outcome)) (c2 : contexts)
    : Status + upd_error :=
  if Ready a || bool_decide (waitStage = StageAccepted) then
    match future_Get a c2 with
    | (Some rejection, None) => inl (statusRejected rejection)
    | (None, None) =>
        match o2 with
        | Some (value, None) => inl (statusCompleted value)
        | _ => inl statusAccepted
        end
    | (_, Some e) =>
        if is_err e (ctxErr c2) then inr e
        else if negb (is_err e (stCtxErr c2)) && negb (bool_decide (e = registryClearedErr)) then inr e
        else after_accepted (Some e)
    end
  else after_accepted err.
Definition WaitLifecycleStage (waitStage : Stage) (o1 : future (option Outcome)) (c1 : contexts) (a : future (option Failure))
    (o2 : future (option Outcome)) (c2 : contexts) : Status + upd_error :=
  if Ready o1 || bool_decide (waitStage = StageCompleted) then
    match future_Get o1 c1 with
    | (value, None) => inl (statusCompleted value)
    | (_, Some e) =>
        if is_err e (ctxErr c1) then inr e
        else if negb (is_err e (stCtxErr c1)) && negb (bool_decide (e = registryClearedErr)) then inr e
        else wait_accepted waitStage (Some e) a o2 c2
    end
  else wait_accepted waitStage None a o2 c2.
