(* ===== verification/UpdateMachine.v ===== *)
(** * Workflow updates: operations on an update and the registry of a workflow
    ([service/history/workflow/update]: [update.go], [registry.go]; [common/effect]; the update events of
    [service/history/workflow/mutable_state_impl.go])

    Everything happens under the lock of the workflow, on one [world]: the updates that exist (a registry and buffered closures refer
    to them by pointer), the registry, the effect buffer of the transaction, and the mutable
    state in memory and as it was last persisted.  [None] is a panic. *)
From S2P Require Import Prelude UpdateState.
Local Open Scope Z_scope.

(** ** Mutable state *)

(** An event pointer per update: to its admission, acceptance or completion. *)
Inductive UpdateInfo := Admission (eventID : Z) | AcceptanceInfo (eventID : Z) | Completion (eventID : Z).

(** [completions] has the outcomes of the completion events. *)
Record mutableState := mkMS {
  UpdateInfos : gmap string UpdateInfo; running : bool; nextEventID : Z; completions : gmap Z Outcome }.

Definition IsWorkflowExecutionRunning (m : mutableState) : bool := running m.
Definition CanAddEvent (m : mutableState) : bool := IsWorkflowExecutionRunning m.

(** The event gets the next event id. *)
Definition AddWorkflowExecutionUpdateAcceptedEvent (m : mutableState) (updateID : string) : upd_error + Z * mutableState :=
  if negb (running m) then inl ErrWorkflowFinished
  else inr (nextEventID m,
         mkMS (<[updateID := AcceptanceInfo (nextEventID m)]> (UpdateInfos m)) (running m) (nextEventID m + 1) (completions m)).
Definition AddWorkflowExecutionUpdateCompletedEvent (m : mutableState) (updateID : string) (o : Outcome) : upd_error + mutableState :=
  if negb (running m) then inl ErrWorkflowFinished
  else match UpdateInfos m !! updateID with
       | None => inl InvalidArgument
       | Some _ => inr (mkMS (<[updateID := Completion (nextEventID m)]> (UpdateInfos m)) (running m) (nextEventID m + 1)
                          (<[nextEventID m := o]> (completions m)))
       end.
(** [cacheErr]: an error of the events cache other than that there is no such event. *)
Definition GetUpdateOutcome (m : mutableState) (updateID : string) (cacheErr : bool) : option Outcome * option upd_error :=
  match UpdateInfos m !! updateID with
  | None => (None, Some NotFound)
  | Some (Completion e) =>
      if cacheErr then (None, Some EventCacheErr)
      else match completions m !! e with Some o => (Some o, None) | None => (None, Some NotFound) end
  | Some _ => (None, Some UpdateNotCompleted)
  end.
Definition info_event (i : UpdateInfo) : Z := match i with Admission e | AcceptanceInfo e | Completion e => e end.
Definition info_le (p q : string * UpdateInfo) : Prop := info_event p.2 ≤ info_event q.2.
#[export] Instance info_le_dec : RelDecision info_le.
Proof. intros p q. unfold info_le. apply _. Defined.
Definition VisitUpdates (m : mutableState) : list (string * UpdateInfo) := merge_sort info_le (map_to_list (UpdateInfos m)).

(** ** The world *)

(** [updates] is [None] once it is nil.  Registries are numbered; when a registry is replaced the one before
    was cleared. *)
Record registry := mkRegistry { reg_no : nat; updates : option (gmap string nat); completedCount : Z }.

Inductive controller := Buffered | Immediate.

Record world := mkWorld {
  heap : gmap nat Update; next : nat; reg : registry; effects : list (nat * commit); cancels : list (nat * rollback);
  ms : mutableState; saved : mutableState; now : Z; log : list (nat * fut_event) }.

Definition set_heap (w : world) (h : gmap nat Update) : world :=
  mkWorld h (next w) (reg w) (effects w) (cancels w) (ms w) (saved w) (now w) (log w).
Definition set_reg (w : world) (r : registry) : world :=
  mkWorld (heap w) (next w) r (effects w) (cancels w) (ms w) (saved w) (now w) (log w).
Definition set_buffer (w : world) (e : list (nat * commit)) (c : list (nat * rollback)) : world :=
  mkWorld (heap w) (next w) (reg w) e c (ms w) (saved w) (now w) (log w).
Definition set_ms (w : world) (m : mutableState) : world :=
  mkWorld (heap w) (next w) (reg w) (effects w) (cancels w) m (saved w) (now w) (log w).
Definition set_saved (w : world) (m : mutableState) : world :=
  mkWorld (heap w) (next w) (reg w) (effects w) (cancels w) (ms w) m (now w) (log w).
Definition set_now (w : world) (t : Z) : world :=
  mkWorld (heap w) (next w) (reg w) (effects w) (cancels w) (ms w) (saved w) t (log w).
Definition add_log (w : world) (p : nat) (l : list fut_event) : world :=
  mkWorld (heap w) (next w) (reg w) (effects w) (cancels w) (ms w) (saved w) (now w) (log w ++ map (pair p) l).

(** Computations on the world. *)
Definition W (A : Type) := world → option (A * world).
Definition wret {A} (a : A) : W A := λ w, Some (a, w).
Definition wbind {A B} (m : W A) (f : A → W B) : W B := λ w, '(a, w) ← m w; f a w.
Notation "'let*' x ':=' c 'in' k" := (wbind c (λ x, k)) (at level 10, x pattern, c at level 100, k at level 200).
Notation "c ';;*' k" := (wbind c (λ _, k)) (at level 100, right associativity).
Definition wget : W world := λ w, Some (w, w).
Definition wmod (f : world → world) : W () := λ w, Some ((), f w).
Fixpoint wfor {A} (l : list A) (f : A → W ()) : W () :=
  match l with [] => wret () | x :: l => f x ;;* wfor l f end.

Definition deref (p : nat) : W Update := λ w, u ← heap w !! p; Some (u, w).
Definition write (p : nat) (u : Update) : W () := wmod (λ w, set_heap w (<[p := u]> (heap w))).
(** The futures a new update is made with are ready from its first moment on. *)
Definition ready_events (u : Update) : list fut_event :=
  match outcome u with Some (v, e) => [FOutcome v e] | None => [] end ++
  match accepted u with Some (v, e) => [FAccepted v e] | None => [] end.
Definition alloc (u : Update) : W nat := λ w,
  Some (next w, add_log (mkWorld (<[next w := u]> (heap w)) (S (next w)) (reg w) (effects w) (cancels w) (ms w) (saved w) (now w) (log w))
                  (next w) (ready_events u)).

(** ** The remover of a registry ([remover]) *)

Definition remover (no : nat) (i : string) : W () :=
  let* w := wget in
  let r := reg w in
  if negb (bool_decide (no = reg_no r)) then wret () else
  match updates r with
  | None => wret ()
  | Some m =>
      let counted := match m !! i ≫= (heap w !!.) with Some u => negb (acceptedEventID u =? 0) | None => false end in
      wmod (λ w, set_reg w (mkRegistry (reg_no r) (Some (delete i m)) (if counted then completedCount r + 1 else completedCount r)))
  end.
Definition call_onComplete (u : Update) : W () :=
  match onComplete u with Some no => remover no (id u) | None => wret () end.

(** ** Effects ([common/effect]) *)

Definition do_commit (pc : nat * commit) : W () :=
  let '(p, c) := pc in
  let* u := deref p in
  let* w := wget in
  match run_commit (now w) c u with
  | None => λ _, None
  | Some (u, l, completed) =>
      write p u ;;* wmod (λ w, add_log w p l) ;;* if completed : bool then call_onComplete u else wret ()
  end.
Definition do_rollback (pr : nat * rollback) : W () :=
  let '(p, r) := pr in let* u := deref p in write p (run_rollback r u).

Definition OnAfterCommit (ctl : controller) (p : nat) (c : commit) : W () :=
  match ctl with
  | Buffered => wmod (λ w, set_buffer w (effects w ++ [(p, c)]) (cancels w))
  | Immediate => do_commit (p, c)
  end.
Definition OnAfterRollback (ctl : controller) (p : nat) (r : rollback) : W () :=
  match ctl with
  | Buffered => wmod (λ w, set_buffer w (effects w) (cancels w ++ [(p, r)]))
  | Immediate => wret ()
  end.
Definition Apply : W () :=
  let* w := wget in
  wmod (λ w, set_buffer w (effects w) []) ;;* wfor (effects w) do_commit ;;* wmod (λ w, set_buffer w [] (cancels w)).
Definition Cancel : W () :=
  let* w := wget in
  wmod (λ w, set_buffer w [] (cancels w)) ;;* wfor (rev (cancels w)) do_rollback ;;* wmod (λ w, set_buffer w (effects w) []).

(** ** Operations on an update ([update.go]) *)

Definition setState (p : nat) (newState : state) : W state :=
  let* u := deref p in write p (set_state u newState) ;;* wret (ustate u).

Definition abort (p : nat) (reason : AbortReason) (ctl : controller) : W () :=
  let* u := deref p in
  match FailureError reason (ustate u) with
  | (None, None) => wret ()
  | (abortFailure, abortErr) =>
      let* prevState := setState p stateProvisionallyAborted in
      OnAfterCommit ctl p (CAbort prevState abortFailure abortErr) ;;*
      OnAfterRollback ctl p (RAbort prevState)
  end.

Section machine.
(** Sizes of messages in bytes. *)
Context (requestSize : Request → Z) (failureSize : Failure → Z) (outcomeSize : Outcome → Z).
(** [maxTotal], [maxInFlightUpdateCount], [maxInFlightUpdateSize], [maxTotalSuggestContinueAsNew]. *)
Context (maxTotal maxInFlightUpdateCount maxInFlightUpdateSize maxTotalSuggestContinueAsNew : Z).

Definition opt_size {A} (f : A → Z) (x : option A) : Z := match x with Some x => f x | None => 0 end.
Definition update_GetSize (u : Update) : Z :=
  Z.of_nat (String.length (id u)) + opt_size requestSize (request u) +
  match accepted u with Some (res, _) => opt_size failureSize res | None => 0 end +
  match outcome u with Some (res, _) => opt_size outcomeSize res | None => 0 end.

Definition registry_map (r : registry) : gmap string nat := default ∅ (updates r).
(** Some order, as Go's loop over a map has. *)
Definition in_registry (w : world) : list (string * nat) := map_to_list (registry_map (reg w)).
Definition registry_GetSize (w : world) : Z :=
  foldl (λ size ip, size + match heap w !! ip.2 with
    | Some u => Z.of_nat (String.length ip.1) + update_GetSize u | None => 0 end) 0 (in_registry w).

Definition payloadSizeLimiter (req : Request) : W (option upd_error) :=
  let* w := wget in
  wret (if maxInFlightUpdateSize =? 0 then None
        else if registry_GetSize w + requestSize req >=? maxInFlightUpdateSize then Some ResourceExhausted else None).
Definition run_checkLimits (l : limiter) (req : Request) : W (option upd_error) :=
  match l with LimiterNil => λ _, None | LimiterNone => wret None | LimiterRegistry => payloadSizeLimiter req end.

Definition Admit (p : nat) (req : Request) (ctl : controller) : W (option upd_error) :=
  let* u := deref p in
  if negb (bool_decide (ustate u = stateCreated)) then wret None else
  let* limitErr := run_checkLimits (checkLimits u) req in
  match limitErr with
  | Some err => call_onComplete u ;;* wret (Some err)
  | None =>
      match validateRequestMsg (id u) req with
      | Some err => wret (Some err)
      | None =>
          let* w := wget in
          if negb (CanAddEvent (ms w)) then
            abort p AbortReasonWorkflowCompleted ctl ;;* wret (FailureError AbortReasonWorkflowCompleted stateCreated).2
          else
            write p (set_request u (Some req)) ;;*
            let* prevState := setState p stateProvisionallyAdmitted in
            OnAfterCommit ctl p CAdmit ;;* OnAfterRollback ctl p (RAdmit prevState) ;;* wret None
      end
  end.

Definition needToSend (u : Update) (includeAlreadySent : bool) : bool :=
  if includeAlreadySent then Matches (ustate u) (stateSet [stateAdmitted; stateSent]) else Matches (ustate u) (stateSet [stateAdmitted]).
Definition outgoingMessageID (u : Update) : string := id u +:+ "/request".
(** The message: its protocol instance, id, sequencing id and request. *)
Record Outgoing := mkOutgoing { out_instance : string; out_id : string; out_sequencing : Z; out_request : Request }.
Definition Send (p : nat) (includeAlreadySent : bool) (sequencingID : Z) : W (option Outgoing) :=
  let* u := deref p in
  if negb (needToSend u includeAlreadySent) then wret None else
  (if bool_decide (ustate u = stateAdmitted) then setState p stateSent else wret (ustate u)) ;;*
  match request u with
  | None => wret None
  | Some r => wret (Some (mkOutgoing (id u) (outgoingMessageID u) sequencingID r))
  end.
Definition isSent (u : Update) : bool := Matches (ustate u) (stateSet [stateSent]).

Definition checkStateSet (u : Update) (allowed : Z) : option upd_error :=
  if Matches (ustate u) allowed then None else Some InvalidArgument.

Definition onAcceptanceMsg (p : nat) (sequencingEventId : Z) (messageId : string) (ctl : controller) : W (option upd_error) :=
  let* u := deref p in
  match checkStateSet u (stateSet [stateSent; stateAdmitted]) with
  | Some err => wret (Some err)
  | None =>
      match validateAcceptanceMsg sequencingEventId messageId with
      | Some err => wret (Some err)
      | None =>
          let* w := wget in
          match AddWorkflowExecutionUpdateAcceptedEvent (ms w) (id u) with
          | inl err => wret (Some err)
          | inr (eventId, m) =>
              wmod (λ w, set_ms w m) ;;* write p (set_acceptedEventID u eventId) ;;*
              let* prevState := setState p stateProvisionallyAccepted in
              OnAfterCommit ctl p CAccept ;;* OnAfterRollback ctl p (RAccept prevState) ;;* wret None
          end
      end
  end.

Definition reject (p : nat) (rejectionFailure : option Failure) (ctl : controller) : W (option upd_error) :=
  let* prevState := setState p stateProvisionallyCompleted in
  OnAfterCommit ctl p (CReject rejectionFailure) ;;* OnAfterRollback ctl p (RReject prevState) ;;* wret None.
Definition onRejectionMsg (p : nat) (failure : option Failure) (ctl : controller) : W (option upd_error) :=
  let* u := deref p in
  match checkStateSet u (stateSet [stateSent; stateAdmitted]) with
  | Some err => wret (Some err)
  | None => match validateRejectionMsg with Some err => wret (Some err) | None => reject p failure ctl end
  end.

Definition onResponseMsg (p : nat) (meta : option string) (res : option Outcome) (ctl : controller) : W (option upd_error) :=
  let* u := deref p in
  match checkStateSet u (stateSet [stateProvisionallyAccepted; stateAccepted]) with
  | Some err => wret (Some err)
  | None =>
      match validateResponseMsg (id u) meta res, res with
      | None, Some o =>
          let* w := wget in
          match AddWorkflowExecutionUpdateCompletedEvent (ms w) (default "" meta) o with
          | inl err => wret (Some err)
          | inr m =>
              wmod (λ w, set_ms w m) ;;*
              let* prevState := setState p stateProvisionallyCompleted in
              OnAfterCommit ctl p (CRespond (Some o)) ;;* OnAfterRollback ctl p (RRespond prevState) ;;* wret None
          end
      | _, _ => wret (Some InvalidArgument)
      end
  end.

Definition OnProtocolMessage (p : nat) (msg : Message) (ctl : controller) : W (option upd_error) :=
  match Body msg with
  | None | Some Malformed => wret (Some InvalidArgument)
  | Some b =>
      let* w := wget in
      let isRejection := match b with Rejection _ _ => true | _ => false end in
      if negb (CanAddEvent (ms w) || isRejection) then abort p AbortReasonWorkflowCompleted ctl ;;* wret None
      else match b with
           | Acceptance s i _ => onAcceptanceMsg p s i ctl
           | Rejection f _ => onRejectionMsg p f ctl
           | Response meta res => onResponseMsg p meta res ctl
           | _ => wret (Some InvalidArgument)
           end
  end.

(** ** The registry ([registry.go]) *)

(** Writing to a nil map panics. *)
Definition put (i : string) (p : nat) : W () := λ w,
  m ← updates (reg w); Some ((), set_reg w (mkRegistry (reg_no (reg w)) (Some (<[i := p]> m)) (completedCount (reg w)))).

Definition visit (v : string * UpdateInfo) : W () :=
  let* w := wget in
  let no := Some (reg_no (reg w)) in
  match v.2 with
  | Admission _ => let* p := alloc (newAdmitted v.1 None no (now w)) in put v.1 p
  | AcceptanceInfo e =>
      let* p := alloc (newAccepted v.1 e no) in
      (if negb (IsWorkflowExecutionRunning (ms w)) then abort p AbortReasonWorkflowCompleted Immediate else wret ()) ;;*
      put v.1 p
  | Completion _ => wmod (λ w, set_reg w (mkRegistry (reg_no (reg w)) (updates (reg w)) (completedCount (reg w) + 1)))
  end.
Definition NewRegistry : W () :=
  wmod (λ w, set_reg w (mkRegistry (S (reg_no (reg w))) (Some ∅) 0)) ;;*
  let* w := wget in wfor (VisitUpdates (ms w)) visit.

Definition inFlightCount (w : world) : Z := Z.of_nat (size (registry_map (reg w))).
Definition checkInFlightLimit (w : world) : option upd_error :=
  if maxInFlightUpdateCount =? 0 then None
  else if inFlightCount w >=? maxInFlightUpdateCount then Some ResourceExhausted else None.
Definition checkTotalLimit (w : world) : option upd_error :=
  if maxTotal =? 0 then None
  else if inFlightCount w + completedCount (reg w) >=? maxTotal then Some FailedPrecondition else None.
Definition registry_checkLimits (w : world) : option upd_error :=
  match checkInFlightLimit w with Some err => Some err | None => checkTotalLimit w end.
Definition SuggestContinueAsNew (w : world) : bool :=
  if maxTotalSuggestContinueAsNew =? 0 then false
  else inFlightCount w + completedCount (reg w) >=? maxTotalSuggestContinueAsNew.

Definition Find (i : string) (cacheErr : bool) : W (option nat) :=
  let* w := wget in
  match registry_map (reg w) !! i with
  | Some p => wret (Some p)
  | None =>
      match GetUpdateOutcome (ms w) i cacheErr with
      | (_, Some NotFound) => wret None
      | (updOutcome, err) => let* p := alloc (newCompleted i updOutcome err) in wret (Some p)
      end
  end.
Definition FindOrCreate (i : string) (cacheErr : bool) : W (upd_error + nat * bool) :=
  let* found := Find i cacheErr in
  match found with
  | Some p => wret (inr (p, true))
  | None =>
      let* w := wget in
      match registry_checkLimits w with
      | Some err => wret (inl err)
      | None =>
          let* p := alloc (New i (Some (reg_no (reg w))) LimiterRegistry) in
          put i p ;;* wret (inr (p, false))
      end
  end.
Definition TryResurrect (msg : Message) : W (upd_error + option nat) :=
  match Body msg with
  | None => wret (inr None)
  | Some b =>
      let* w := wget in
      match checkTotalLimit w with
      | Some err => wret (inl err)
      | None =>
          match b with
          | Malformed => wret (inl InvalidArgument)
          | Acceptance _ _ (Some r) | Rejection _ (Some r) =>
              let* p := alloc (newAdmitted (ProtocolInstanceId msg) (Some r) (Some (reg_no (reg w))) (now w)) in
              put (ProtocolInstanceId msg) p ;;* wret (inr (Some p))
          | _ => wret (inr None)
          end
      end
  end.

Definition Abort (reason : AbortReason) : W () :=
  let* w := wget in wfor (in_registry w) (λ ip, abort ip.2 reason Immediate).
Definition AbortAccepted (reason : AbortReason) (ctl : controller) : W () :=
  let* w := wget in
  wfor (in_registry w) (λ ip, let* u := deref ip.2 in
    if Matches (ustate u) (stateSet [stateProvisionallyAccepted; stateAccepted]) then abort ip.2 reason ctl else wret ()).
(** [reject] never returns an error. *)
Definition RejectUnprocessed (ctl : controller) : W () :=
  let* w := wget in
  let updatesToReject := base.filter (λ ip, default false (isSent <$> heap w !! ip.2) = true) (in_registry w) in
  wfor updatesToReject (λ ip, let* _ := reject ip.2 (Some unprocessedUpdateFailure) ctl in wret ()).
Definition HasOutgoingMessages (w : world) (includeAlreadySent : bool) : bool :=
  existsb (λ ip, match heap w !! ip.2 with Some u => needToSend u includeAlreadySent | None => false end) (in_registry w).
Definition admitted_le (p q : nat * Z) : Prop := p.2 ≤ q.2.
#[export] Instance admitted_le_dec : RelDecision admitted_le.
Proof. intros p q. unfold admitted_le. apply _. Defined.
Definition sortedUpdates (w : world) : list (nat * Z) :=
  merge_sort admitted_le (map (λ ip, (ip.2, match heap w !! ip.2 with Some u => admittedTime u | None => 0 end)) (in_registry w)).
Fixpoint send_all (l : list (nat * Z)) (includeAlreadySent : bool) (sequencingEventID : Z) : W (list Outgoing) :=
  match l with
  | [] => wret []
  | p :: l =>
      let* out := Send p.1 includeAlreadySent sequencingEventID in
      let* outs := send_all l includeAlreadySent sequencingEventID in wret (match out with Some m => m :: outs | None => outs end)
  end.
Definition registry_Send (includeAlreadySent : bool) (workflowTaskStartedEventID : Z) : W (list Outgoing) :=
  let* w := wget in send_all (sortedUpdates w) includeAlreadySent (workflowTaskStartedEventID - 1).
Definition Clear : W () :=
  Abort AbortReasonRegistryCleared ;;*
  wmod (λ w, set_reg w (mkRegistry (reg_no (reg w)) None 0)).

(** ** A workflow and its transactions *)

(** What a client's request meets besides the registry: a first run of another id was asked for, the workflow task keeps failing, the
    workflow is about to close. *)
Record request_checks := mkChecks { otherFirstRun : bool; taskKeepsFailing : bool; closeAttempted : bool }.
(** A client's request ([Updater.ApplyRequest] of [api/updateworkflow]) up to the scheduling of a workflow task. *)
Definition ApplyRequest (k : request_checks) (i : string) (req : Request) (cacheErr : bool) : W (option upd_error) :=
  if otherFirstRun k then wret (Some ErrWorkflowExecutionNotFound) else
  let* w := wget in
  if negb (IsWorkflowExecutionRunning (ms w)) then
    let* found := Find i cacheErr in wret (match found with Some _ => None | None => Some ErrWorkflowCompleted end)
  else if taskKeepsFailing k then wret (Some WorkflowNotReady)
  else if closeAttempted k then wret (Some ErrWorkflowClosing)
  else
    let* res := FindOrCreate i cacheErr in
    match res with inl err => wret (Some err) | inr (p, _) => Admit p req Immediate end.

(** What becomes of a message: it is handled, it fails the workflow task (and may terminate the workflow), or the request fails. *)
Inductive message_result := Handled | FailTask (cause : upd_error) (terminates : bool) | HandlerErr (err : upd_error).
Definition failWorkflowTaskOnInvalidArgument (err : upd_error) : message_result :=
  if bool_decide (err = InvalidArgument) then FailTask err false else HandlerErr err.
(** A message of the worker ([handleMessage] of [api/respondworkflowtaskcompleted]).  [isUpdate] is the protocol [protocol.Identify] finds,
    if any, [tooLarge] what the size check finds. *)
Definition handleMessage (msg : Message) (isUpdate : option bool) (tooLarge cacheErr : bool) : W message_result :=
  match Body msg, isUpdate with
  | None, _ | _, None => wret (HandlerErr InvalidArgument)
  | Some _, Some isUpdate =>
      if tooLarge then wret (FailTask PayloadTooLarge true)
      else if negb isUpdate then wret (FailTask InvalidArgument false) else
      let* found := Find (ProtocolInstanceId msg) cacheErr in
      let* res := match found with Some p => wret (inr (Some p)) | None => TryResurrect msg end in
      match res with
      | inl err => wret (failWorkflowTaskOnInvalidArgument err)
      | inr None => wret (FailTask NotFound false)
      | inr (Some p) =>
          let* err := OnProtocolMessage p msg Buffered in
          wret (match err with Some err => failWorkflowTaskOnInvalidArgument err | None => Handled end)
      end
  end.
(** The context is loaded again after it was cleared. *)
Definition reload : W () := wmod (λ w, set_ms w (saved w)) ;;* NewRegistry.

(** What happens to the updates of a workflow, each under its lock.  The transaction of a workflow task consists of messages, of
    [RejectUnprocessed] and [AbortAccepted], and of the commands that close the workflow; it
    is then persisted and its effects applied, or its effects are cancelled and the
    context cleared.  When persisting fails the context clears itself before the effects
    are cancelled, and what was written may have become durable nevertheless. *)
Inductive uop :=
  | ORequest (k : request_checks) (i : string) (req : Request) (cacheErr : bool) | OFind (i : string) (cacheErr : bool)
  | OMessage (msg : Message) (isUpdate : option bool) (tooLarge cacheErr : bool) | ORejectUnprocessed | OAbortAccepted | OSend (again : bool) (startedEventID : Z)
  | OAbort (reason : AbortReason) | OClose | OCommit | OTaskFailed | OPersistFailed (applied : bool) | OClear | OTick (t : Z).
Definition close (m : mutableState) : mutableState := mkMS (UpdateInfos m) false (nextEventID m) (completions m).
Definition persist : W () := wmod (λ w, set_saved w (ms w)).
Definition exec (o : uop) : W () :=
  match o with
  | ORequest k i req e => let* _ := ApplyRequest k i req e in wret ()
  | OFind i e => let* _ := Find i e in wret ()
  | OMessage msg u l e => let* _ := handleMessage msg u l e in wret ()
  | ORejectUnprocessed => RejectUnprocessed Buffered
  | OAbortAccepted => AbortAccepted AbortReasonWorkflowCompleted Buffered
  | OSend again n => let* _ := registry_Send again n in wret ()
  | OAbort reason => Abort reason
  | OClose => wmod (λ w, set_ms w (close (ms w)))
  | OCommit => persist ;;* Apply
  | OTaskFailed => Cancel ;;* Abort AbortReasonWorkflowTaskFailed ;;* Clear ;;* reload
  | OPersistFailed applied => (if applied : bool then persist else wret ()) ;;* Clear ;;* Cancel ;;* reload
  | OClear => Cancel ;;* Clear ;;* reload
  | OTick t => wmod (λ w, set_now w t)
  end.

(** A workflow as it is loaded from the database. *)
Definition load (m : mutableState) : option world :=
  snd <$> NewRegistry (mkWorld ∅ 0 (mkRegistry 0 (Some ∅) 0) [] [] m m 0 []).
(** Any sequence of these. *)
Inductive update_run (m : mutableState) : world → Prop :=
  | ur_load w : load m = Some w → update_run m w
  | ur_step w o w' : update_run m w → exec o w = Some ((), w') → update_run m w'.
End machine.
