(* ===== verification/UpdateScript.v ===== *)
(** * Workflow updates: what a transaction has registered for one update

    A transaction leaves a list of closures for each update it touched.  [cfg] lists the shapes these lists can have together
    with the state of the update; running the lists, forward after a commit and backward
    after a rollback, leads to a stable state again. *)
From S2P Require Import Prelude UpdateState UpdateMachine.
Local Open Scope Z_scope.

(** The entries of one pointer. *)
Definition proj {A} (p : nat) (l : list (nat * A)) : list A := omap (λ x, if decide (x.1 = p) then Some x.2 else None) l.
Arguments proj {A} p l : simpl never.

Lemma proj_app {A} p (l1 l2 : list (nat * A)) : proj p (l1 ++ l2) = proj p l1 ++ proj p l2.
Proof. apply omap_app. Qed.
Lemma proj_same {A} p (x : A) : proj p [(p, x)] = [x].
Proof. unfold proj. simpl. by rewrite decide_True. Qed.
Lemma proj_other {A} p q (x : A) : q ≠ p → proj p [(q, x)] = [].
Proof. intros. unfold proj. simpl. by rewrite decide_False. Qed.
Lemma proj_map_same {A} p (l : list A) : proj p (map (pair p) l) = l.
Proof. induction l as [|x l IH]; [done|]. unfold proj in *. simpl. rewrite decide_True by done. by f_equal. Qed.
Lemma proj_map_other {A} p q (l : list A) : q ≠ p → proj p (map (pair q) l) = [].
Proof. intros N. induction l as [|x l IH]; [done|]. unfold proj in *. simpl. by rewrite decide_False. Qed.
Lemma proj_cons {A} p q (x : A) l : proj p ((q, x) :: l) = if decide (q = p) then x :: proj p l else proj p l.
Proof. unfold proj. simpl. by case_decide. Qed.
Lemma proj_rev {A} p (l : list (nat * A)) : proj p (rev l) = rev (proj p l).
Proof.
  induction l as [|[q x] l IH]; [done|]. simpl. rewrite proj_app, IH, !proj_cons. case_decide; simpl; [done|]. by rewrite app_nil_r.
Qed.
Lemma proj_nil_notin {A} p (l : list (nat * A)) : (∀ x, (p, x) ∉ l) → proj p l = [].
Proof.
  induction l as [|[q x] l IH]; intros H; [done|]. rewrite proj_cons, decide_False.
  - apply IH. intros y Hy. apply (H y). by right.
  - intros ->. apply (H x). by left.
Qed.
Lemma elem_of_proj {A} p (x : A) l : x ∈ proj p l ↔ (p, x) ∈ l.
Proof.
  unfold proj. rewrite list_elem_of_omap. split.
  - intros ([q y] & Hin & E). simpl in E. case_decide; [|done]. simplify_eq. done.
  - intros Hin. exists (p, x). split; [done|]. simpl. by rewrite decide_True.
Qed.

(** ** Shapes *)

Definition terminal (s : state) : bool := bool_decide (s = stateCompleted ∨ s = stateAborted).

(** Between transactions: the state, and which futures are ready. *)
Inductive stable : state → bool → bool → Prop :=
  | st_created : stable stateCreated false false
  | st_admitted : stable stateAdmitted false false
  | st_sent : stable stateSent false false
  | st_accepted : stable stateAccepted true false
  | st_completed : stable stateCompleted true true
  | st_aborted a : stable stateAborted a true.

(** The state, the futures, the closures in the order they were registered, and the state before the transaction. *)
Inductive cfg : state → bool → bool → list commit → list rollback → state → Prop :=
  | cfg_stable s a o : stable s a o → cfg s a o [] [] s
  | cfg_dead a cs rs : cfg stateAborted a true cs rs stateAborted
  | cfg_accept s : s = stateSent ∨ s = stateAdmitted → cfg stateProvisionallyAccepted false false [CAccept] [RAccept s] s
  | cfg_accept_respond s o : s = stateSent ∨ s = stateAdmitted →
      cfg stateProvisionallyCompleted false false [CAccept; CRespond o] [RAccept s; RRespond stateProvisionallyAccepted] s
  | cfg_respond o : cfg stateProvisionallyCompleted true false [CRespond o] [RRespond stateAccepted] stateAccepted
  | cfg_reject s f : s = stateSent ∨ s = stateAdmitted → cfg stateProvisionallyCompleted false false [CReject f] [RReject s] s
  | cfg_abort s a cs rs b f e : cfg s a false cs rs b → s ≠ stateProvisionallyAborted → (is_Some f ∨ is_Some e) →
      cfg stateProvisionallyAborted a false (cs ++ [CAbort s f e]) (rs ++ [RAbort s]) b.

(** The state before the transaction, read off the first closure. *)
Definition base (s : state) (rs : list rollback) : state :=
  if terminal s then s
  else match rs with
       | (RAdmit b | RAccept b | RReject b | RRespond b | RAbort b) :: _ => b
       | [] => s
       end.
Lemma cfg_base s a o cs rs b : cfg s a o cs rs b → b = base s rs.
Proof.
  induction 1 as [s a o H| | | | | |s a cs rs b f e H IH Hs Hf]; try done.
  - unfold base. by case_match.
  - by inversion H; subst.
Qed.

(** ** Running the closures *)

Fixpoint commit_script (now : Z) (cs : list commit) (u : Update) : option (Update * list fut_event * bool) :=
  match cs with
  | [] => Some (u, [], false)
  | c :: cs =>
      '(u, l1, b1) ← run_commit now c u; '(u, l2, b2) ← commit_script now cs u; Some (u, l1 ++ l2, b1 || b2)
  end.
Definition rollback_script (rs : list rollback) (u : Update) : Update := foldr run_rollback u rs.

(** Stages an update goes through: the documented life cycle. *)
Inductive life : state → state → Prop :=
  | life_admit : life stateCreated stateAdmitted
  | life_send : life stateAdmitted stateSent
  | life_accept s : s = stateSent ∨ s = stateAdmitted → life s stateAccepted
  | life_reject s : s = stateSent ∨ s = stateAdmitted → life s stateCompleted
  | life_complete : life stateAccepted stateCompleted
  | life_abort s : terminal s = false → life s stateAborted.

(** What does not change, and futures that are completed at most once and never with [UpdateNotCompleted], which only an update loaded
    with it has. *)
Record cell_le (u u' : Update) : Prop := {
  cl_id : id u' = id u;
  cl_onComplete : onComplete u' = onComplete u;
  cl_limits : checkLimits u' = checkLimits u;
  cl_accepted : accepted u' = accepted u ∨ accepted u = None;
  cl_outcome : outcome u' = outcome u ∨ outcome u = None ∧ ∀ v, outcome u' ≠ Some (v, Some UpdateNotCompleted);
  cl_aborted : ustate u = stateAborted → ustate u' = stateAborted ∧ accepted u' = accepted u ∧ outcome u' = outcome u }.
#[export] Instance cell_le_preorder : PreOrder cell_le.
Proof.
  split.
  - intros u. constructor; auto.
  - intros u v x [] []. constructor; try congruence.
    + destruct cl_accepted0, cl_accepted1; intuition congruence.
    + destruct cl_outcome0 as [E0|[? H0]], cl_outcome1 as [E1|[? H1]]; [left|right|right|right]; split_and?; try congruence.
    + intros Ha. destruct (cl_aborted0 Ha) as (Hb & ? & ?). destruct (cl_aborted1 Hb) as (? & ? & ?). split_and!; congruence.
Qed.

(** The futures as the log of completions shows them; the first completion counts. *)
Definition obs_step (f : future (option Failure) * future (option Outcome)) (e : fut_event) : future (option Failure) * future (option Outcome) :=
  match e with
  | FAccepted v err => (match f.1 with None => Some (v, err) | x => x end, f.2)
  | FOutcome v err => (f.1, match f.2 with None => Some (v, err) | x => x end)
  end.
Definition observed (l : list fut_event) : future (option Failure) * future (option Outcome) := foldl obs_step (None, None) l.
Definition futures (u : Update) : future (option Failure) * future (option Outcome) := (accepted u, outcome u).

(** A promise of acceptance is not given before a result of the same transaction (a rejection without a failure is the exception). *)
Definition in_order (l : list fut_event) : Prop :=
  ∀ l1 l2, l = l1 ++ FAccepted None None :: l2 → ∀ v e, FOutcome v e ∈ l2 → v = Some (OutcomeFailure None).

(** ** What the futures tell, and what is durable *)

Definition durable_accepted (m : mutableState) (i : string) : Prop :=
  ∃ e, UpdateInfos m !! i = Some (AcceptanceInfo e) ∨ UpdateInfos m !! i = Some (Completion e).
Definition durable_completed (m : mutableState) (i : string) (o : Outcome) : Prop :=
  ∃ e, UpdateInfos m !! i = Some (Completion e) ∧ completions m !! e = Some o.

Record told (m : mutableState) (u : Update) : Prop := {
  told_accepted : accepted u = Some (None, None) →
    durable_accepted m (id u) ∨ outcome u = Some (Some (OutcomeFailure None), None) ∨ ∃ v, outcome u = Some (v, Some UpdateNotCompleted);
  told_rejected : ∀ f, accepted u = Some (Some f, None) → outcome u = Some (Some (OutcomeFailure (Some f)), None);
  told_outcome : ∀ v, outcome u = Some (v, None) → ∃ o, v = Some o ∧
    (durable_completed m (id u) o ∨ (∃ f, accepted u = Some (f, None) ∧ o = OutcomeFailure f) ∨
     ustate u = stateAborted ∧ o = OutcomeFailure (Some acceptedUpdateCompletedWorkflowFailure)) }.

Definition has_accept (cs : list commit) : bool := existsb (λ c, match c with CAccept => true | _ => false end) cs.
Fixpoint responds (cs : list commit) : option (option Outcome) :=
  match cs with [] => None | CRespond o :: _ => Some o | _ :: cs => responds cs end.
(** What the mutable state has for an update, by its closures and whether it was accepted before. *)
Definition linked (m : mutableState) (i : string) (cs : list commit) (acc : bool) : Prop :=
  match responds cs with
  | Some o => ∃ o', o = Some o' ∧ durable_completed m i o'
  | None => if has_accept cs || acc then ∃ e, UpdateInfos m !! i = Some (AcceptanceInfo e)
            else match UpdateInfos m !! i with None | Some (Admission _) => True | _ => False end
  end.

(** The abort closures of one update carry the pair the matrix gives. *)
Definition abort_pair (f : option Failure) (e : option upd_error) : Prop :=
  (f = None ∧ ∃ x, e = Some x ∧ x ≠ UpdateNotCompleted) ∨ f = Some acceptedUpdateCompletedWorkflowFailure ∧ e = None.
Definition aborts_ok (cs : list commit) : Prop := ∀ s f e, CAbort s f e ∈ cs → abort_pair f e.
Lemma FailureError_pair r s f e : FailureError r s = (f, e) → (f = None ∧ e = None) ∨ abort_pair f e.
Proof. unfold abort_pair. destruct r, s; simpl; intros [= <- <-]; auto; right; left; eauto. Qed.

(** ** After a commit and after a rollback *)

Lemma run_commit_aborted now c u : ustate u = stateAborted → run_commit now c u = Some (u, [], false).
Proof. intros E. destruct c; simpl; unfold commit_admit, commit_accept, commit_reject, commit_respond, commit_abort; by rewrite E. Qed.
Lemma commit_script_aborted now cs u : ustate u = stateAborted → commit_script now cs u = Some (u, [], false).
Proof. intros E. induction cs as [|c cs IH]; [done|]. simpl. rewrite run_commit_aborted by done. simpl. by rewrite IH. Qed.
Lemma rollback_script_aborted rs u : ustate u = stateAborted → rollback_script rs u = u.
Proof. intros E. induction rs as [|r rs IH]; [done|]. simpl. rewrite IH.
  destruct r; simpl; unfold rollback_admit, rollback_accept, rollback_reject, rollback_respond, rollback_abort; by rewrite E.
Qed.

Lemma in_order_no_accept l : FAccepted None None ∉ l → in_order l.
Proof. intros H l1 l2 ->. exfalso. apply H. set_solver. Qed.
Lemma in_order_single e : in_order [e].
Proof. intros [|? [|]] l2 [=] v err Hin; subst; by apply not_elem_of_nil in Hin. Qed.
Lemma in_order_outcome_accepted v e : in_order [FOutcome v e; FAccepted None None].
Proof. intros [|? [|? [|]]] l2 [=] v' err Hin; subst; by apply not_elem_of_nil in Hin. Qed.
Lemma in_order_reject f : in_order [FAccepted f None; FOutcome (Some (OutcomeFailure f)) None].
Proof. intros [|? [|? [|]]] l2 [=] v' err Hin; subst. by apply list_elem_of_singleton in Hin as [= -> ->]. Qed.

(** What is known of an update after the commit of a transaction. *)
Record committed (m : mutableState) (u : Update) (cs : list commit) (b : state) (u' : Update) (l : list fut_event) (k : bool) : Prop := {
  cm_stable : stable (ustate u') (Ready (accepted u')) (Ready (outcome u'));
  cm_told : told m u';
  cm_le : cell_le u u';
  cm_life : rtc life b (ustate u');
  cm_log : foldl obs_step (futures u) l = futures u';
  cm_order : in_order l;
  cm_completed : k = true ↔ ustate u' = stateCompleted ∧ ustate u ≠ stateCompleted;
  cm_linked : linked m (id u) cs (Ready (accepted u)) → terminal (ustate u') = false → linked m (id u) [] (Ready (accepted u')) }.

Lemma committed_nothing m u cs b : stable (ustate u) (Ready (accepted u)) (Ready (outcome u)) → told m u → b = ustate u →
  (cs = [] ∨ ustate u = stateAborted) → committed m u cs b u [] false.
Proof.
  intros S T -> H. constructor; try done.
  - apply in_order_no_accept, not_elem_of_nil.
  - split; [done|]. intros [? ?]. done.
  - destruct H as [->|E]; [done|]. by rewrite E.
Qed.

Ltac cell_facts := repeat match goal with
  | H : Ready ?f = false |- _ => destruct f; [done|clear H]
  | H : Ready ?f = true |- _ => destruct f as [[? ?]|] eqn:?; [clear H|done]
  | H : false = Ready ?f |- _ => symmetry in H
  | H : true = Ready ?f |- _ => symmetry in H
  end.

Lemma life_rtc_abort s : terminal s = false → rtc life s stateAborted.
Proof. intros. by apply rtc_once, life_abort. Qed.
Lemma life_created s : rtc life s stateCreated → s = stateCreated.
Proof. intros H. remember stateCreated as t eqn:Et. induction H as [|x y z H _ IH]; [done|]. specialize (IH Et). subst. inversion H. Qed.

Lemma durable_completed_accepted m i o : durable_completed m i o → durable_accepted m i.
Proof. intros (e & E & _). exists e. by right. Qed.

(** An update whose accepted future is set to [f] and whose outcome is a failure or an error. *)
Lemma told_aborted m u f e : ustate u = stateAborted → abort_pair f e →
  outcome u = Some ((λ x, OutcomeFailure (Some x)) <$> f, e) →
  (accepted u = Some (f, e) ∨ accepted u = None ∨ accepted u = Some (None, None) ∧ durable_accepted m (id u)) → told m u.
Proof.
  intros Es P Eo Ha. destruct P as [[-> (x & -> & Nx)]|[-> ->]]; simpl in Eo.
  - constructor; rewrite ?Eo; [|intros f ?|done].
    + intros E. destruct Ha as [Ha|[Ha|[_ ?]]]; [congruence..|by left].
    + destruct Ha as [Ha|[Ha|[? ?]]]; congruence.
  - constructor; rewrite ?Eo.
    + intros E. destruct Ha as [Ha|[Ha|[_ ?]]]; [congruence..|by left].
    + intros f E. destruct Ha as [Ha|[Ha|[? ?]]]; congruence.
    + intros v [= <-]. eexists. split; [done|]. right; right. done.
Qed.
(** The accepted future is as it was. *)
Lemma told_aborted_kept m u0 u f e : ustate u = stateAborted → abort_pair f e →
  outcome u = Some ((λ x, OutcomeFailure (Some x)) <$> f, e) →
  told m u0 → outcome u0 = None → accepted u = accepted u0 → id u = id u0 → told m u.
Proof.
  intros Es P Eo T E0 Ea Ei. constructor.
  - rewrite Ea, Ei. intros E. left. destruct (told_accepted _ _ T E) as [?|[?|[? ?]]]; [done|congruence..].
  - intros g. rewrite Ea. intros E. pose proof (told_rejected _ _ T g E). congruence.
  - rewrite Eo. intros v [= <- ->]. destruct P as [[-> (x & ? & _)]|[-> _]]; [done|]. eexists. split; [done|]. auto.
Qed.
Lemma abort_pair_outcome f e v : abort_pair f e → Some ((λ x, OutcomeFailure (Some x)) <$> f, e) ≠ Some (v, Some UpdateNotCompleted).
Proof. intros [[-> (x & -> & ?)]|[-> ->]] [=]; congruence. Qed.

Ltac committed_cell :=
  eexists _, _, _; split; [reflexivity|]; split; simpl;
  [ once constructor
  |
  | split; simpl; auto; try done; right; (split; [done|]); intros ?; first [congruence | by apply abort_pair_outcome]
  |
  | reflexivity
  | first [apply in_order_single | apply in_order_outcome_accepted | apply in_order_reject | apply in_order_no_accept; set_solver]
  | naive_solver
  | ].

Lemma commit_cell now m u cs rs b :
  cfg (ustate u) (Ready (accepted u)) (Ready (outcome u)) cs rs b → aborts_ok cs → told m u →
  (cs = [] ∨ ustate u = stateAborted ∨ linked m (id u) cs (Ready (accepted u))) →
  ∃ u' l k, commit_script now cs u = Some (u', l, k) ∧ committed m u cs b u' l k.
Proof.
  destruct u as [i st rq eid at_ oc lim acc out]. simpl. intros C A T L.
  inversion C as [s a o S|a cs' rs'|s Hs|s o Hs|o|s f Hs|s a cs1 rs1 b1 f e C1 Ns Hf]; subst; simpl in *; cell_facts; simplify_eq.
  - eexists _, _, _. split; [done|]. apply committed_nothing; auto.
  - eexists _, _, _. split; [by apply commit_script_aborted|]. apply committed_nothing; auto. constructor.
  - destruct L as [?|[?|(e & L)]]; [done..|]. committed_cell.
    + constructor; simpl; [|done|done]. intros _. left. exists e. by left.
    + by apply rtc_once, life_accept.
    + intros _ _. by exists e.
  - destruct L as [?|[?|(o' & -> & L)]]; [done..|]. committed_cell.
    + constructor; simpl; [|done|].
      * intros _. left. by eapply durable_completed_accepted.
      * intros v [= <-]. eauto.
    + by apply rtc_once, life_reject.
    + done.
  - destruct L as [?|[?|(o' & -> & L)]]; [done..|]. committed_cell.
    + constructor; simpl.
      * intros _. left. by eapply durable_completed_accepted.
      * intros g E. pose proof (told_rejected _ _ T g) as H. simpl in H. by specialize (H E).
      * intros v [= <-]. eauto.
    + by apply rtc_once, life_complete.
    + done.
  - committed_cell.
    + constructor; simpl.
      * intros [= ->]. auto.
      * by intros g [= ->].
      * intros v [= <-]. eexists. split; [done|]. eauto.
    + by apply rtc_once, life_reject.
    + done.
  - inversion C1 as [s1 a1 o1 S1|a1 cs1' rs1'|s1 Hs1|s1 o1 Hs1|o1|s1 f1 Hs1|]; subst; simpl in *; cell_facts; simplify_eq.
    all: assert (abort_pair f e) as P by (eapply A; repeat first [by apply list_elem_of_here | apply list_elem_of_further]).
    + inversion S1; subst; simpl in *; cell_facts; simplify_eq.
      all: committed_cell; [ | by apply life_rtc_abort | done].
      all: try (eapply (told_aborted _ _ f e); simpl; by auto).
      by eapply (told_aborted_kept _ _ _ f e).
    + destruct L as [?|[?|(e1 & L)]]; [done..|]. committed_cell; [|by destruct Hs1 as [-> | ->]; apply life_rtc_abort|done].
      eapply (told_aborted _ _ f e); simpl; auto. right; right. split; [done|]. exists e1. by left.
    + destruct L as [?|[?|(o' & -> & L)]]; [done..|]. committed_cell; [|by apply rtc_once, life_reject|done].
      constructor; simpl; [|done|].
      * intros _. left. by eapply durable_completed_accepted.
      * intros v [= <-]. eauto.
    + destruct L as [?|[?|(o' & -> & L)]]; [done..|]. committed_cell; [|by apply life_rtc_abort|done].
      by eapply (told_aborted_kept _ _ _ f e).
    + committed_cell; [|by destruct Hs1 as [-> | ->]; apply life_rtc_abort|done].
      eapply (told_aborted _ _ f e); simpl; auto.
Qed.

(** What is known of an update after a rollback: it is as it was before the transaction. *)
Record rolled_back (m : mutableState) (u : Update) (b : state) (u' : Update) : Prop := {
  rb_state : ustate u' = b;
  rb_stable : stable b (Ready (accepted u')) (Ready (outcome u'));
  rb_futures : futures u' = futures u;
  rb_told : told m u';
  rb_le : cell_le u u' }.

Lemma told_state m u u' : told m u → id u' = id u → futures u' = futures u → (ustate u = stateAborted → ustate u' = stateAborted) → told m u'.
Proof.
  unfold futures. intros [T1 T2 T3] Ei [= Ea Eo] Hs. constructor; rewrite ?Ei, ?Ea, ?Eo; [done|done|].
  intros v E. destruct (T3 v E) as (o & -> & H). exists o. split; [done|]. naive_solver.
Qed.

Ltac rolled Ht := constructor; [done| |done|by apply Ht|by constructor; simpl; auto].
Lemma rollback_cell m u cs rs b :
  cfg (ustate u) (Ready (accepted u)) (Ready (outcome u)) cs rs b → told m u → rolled_back m u b (rollback_script rs u).
Proof.
  intros C T. assert (∀ s, (ustate u = stateAborted → s = stateAborted) → ∀ r eid at_,
    told m (mkUpdate (id u) s r eid at_ (onComplete u) (checkLimits u) (accepted u) (outcome u))) as Ht
    by (intros; by eapply told_state).
  destruct u as [i st rq eid at_ oc lim acc out]. simpl in *.
  inversion C as [s a o S|a cs' rs'|s Hs|s o Hs|o|s f Hs|s a cs1 rs1 b1 f e C1 Ns Hf]; subst; simpl in *; cell_facts; simplify_eq.
  - by constructor.
  - rewrite rollback_script_aborted by done. constructor; try done. constructor.
  - rolled Ht. destruct Hs as [-> | ->]; constructor.
  - rolled Ht. destruct Hs as [-> | ->]; constructor.
  - rolled Ht. constructor.
  - rolled Ht. destruct Hs as [-> | ->]; constructor.
  - inversion C1 as [s1 a1 o1 S1|a1 cs1' rs1'|s1 Hs1|s1 o1 Hs1|o1|s1 f1 Hs1|]; subst; simpl in *; cell_facts; simplify_eq.
    + by rolled Ht.
    + rolled Ht. destruct Hs1 as [-> | ->]; constructor.
    + rolled Ht. destruct Hs1 as [-> | ->]; constructor.
    + rolled Ht. constructor.
    + rolled Ht. destruct Hs1 as [-> | ->]; constructor.
Qed.
