(* ===== verification/UpdateInv.v ===== *)
(** * Workflow updates: the invariant of a workflow's updates

    [uinv] holds between any two operations, [evolves] relates the updates before and after one. *)
From S2P Require Import Prelude UpdateState UpdateMachine UpdateScript.
Local Open Scope Z_scope.

(** ** Total correctness of computations on the world *)

Definition wp {A} (m : W A) (w : world) (Q : A → world → Prop) : Prop := ∃ a w', m w = Some (a, w') ∧ Q a w'.

Lemma uwp_ret {A} (a : A) w (Q : A → world → Prop) : Q a w → wp (wret a) w Q.
Proof. intros H. by exists a, w. Qed.
Lemma uwp_bind {A B} (m : W A) (f : A → W B) w Q : wp m w (λ a w', wp (f a) w' Q) → wp (wbind m f) w Q.
Proof. intros (a & w1 & E & b & w2 & E2 & H). exists b, w2. split; [|done]. unfold wbind. by rewrite E. Qed.
Lemma uwp_get w (Q : world → world → Prop) : Q w w → wp wget w Q.
Proof. intros H. by exists w, w. Qed.
Lemma uwp_mod f w (Q : () → world → Prop) : Q () (f w) → wp (wmod f) w Q.
Proof. intros H. by exists (), (f w). Qed.
Lemma uwp_deref p u w (Q : Update → world → Prop) : heap w !! p = Some u → Q u w → wp (deref p) w Q.
Proof. intros E H. exists u, w. split; [|done]. unfold deref. by rewrite E. Qed.
Lemma uwp_mono {A} (m : W A) w (Q Q' : A → world → Prop) : wp m w Q → (∀ a w', Q a w' → Q' a w') → wp m w Q'.
Proof. intros (a & w' & E & H) HQ. exists a, w'. auto. Qed.
Lemma uwp_some {A} (m : W A) w (Q : A → world → Prop) a w' : m w = Some (a, w') → wp m w Q → Q a w'.
Proof. intros E (a1 & w1 & E1 & H). congruence. Qed.

(** A loop keeps what each turn keeps. *)
Lemma uwp_for {A} (I : world → Prop) (l : list A) (f : A → W ()) w :
  I w → (∀ x w, x ∈ l → I w → wp (f x) w (λ _, I)) → wp (wfor l f) w (λ _, I).
Proof.
  revert w. induction l as [|x l IH]; intros w Hw Hf; simpl; [by apply uwp_ret|].
  apply uwp_bind. eapply uwp_mono; [apply Hf; [by left|done]|]. intros [] w' Hw'. apply IH; [done|]. intros y w2 Hy. apply Hf. by right.
Qed.

Ltac wstep := repeat first
  [ apply uwp_bind | apply uwp_get | apply uwp_mod | eapply uwp_deref; [eassumption|] | apply uwp_ret ]; cbn beta.

(** ** The mutable state *)

Record ms_ok (m : mutableState) : Prop := {
  mo_next : ∀ e o, completions m !! e = Some o → e < nextEventID m;
  mo_completed : ∀ i e, UpdateInfos m !! i = Some (Completion e) → is_Some (completions m !! e) }.

(** What is durable stays so. *)
Record extends (m m' : mutableState) : Prop := {
  ex_accepted : ∀ i, durable_accepted m i → durable_accepted m' i;
  ex_completed : ∀ i o, durable_completed m i o → durable_completed m' i o }.
#[export] Instance extends_preorder : PreOrder extends.
Proof. split; [by constructor|]. intros a b c [] []. constructor; auto. Qed.

Lemma told_extends m m' u : extends m m' → told m u → told m' u.
Proof.
  intros [X1 X2] [T1 T2 T3]. constructor; [|done|].
  - intros E. destruct (T1 E) as [?|?]; [left; auto|by right].
  - intros v E. destruct (T3 v E) as (o & -> & H). exists o. split; [done|]. destruct H as [?|H]; [left; auto|by right].
Qed.

Lemma add_accepted_spec m i e m' : ms_ok m → AddWorkflowExecutionUpdateAcceptedEvent m i = inr (e, m') →
  linked m i [] false → extends m m' ∧ ms_ok m' ∧ linked m' i [CAccept] false ∧ running m' = running m ∧
  ∀ j, j ≠ i → UpdateInfos m' !! j = UpdateInfos m !! j ∧ completions m' = completions m.
Proof.
  intros [M1 M2] E L. unfold AddWorkflowExecutionUpdateAcceptedEvent in E. case_match; [done|]. injection E as <- <-.
  unfold linked in L. simpl in L. split_and!; try done.
  - constructor.
    + intros j [e0 He]. unfold durable_accepted. simpl. destruct (decide (i = j)) as [->|N].
      * exists (nextEventID m). left. by rewrite lookup_insert_eq.
      * exists e0. by rewrite lookup_insert_ne.
    + intros j o (e0 & He & Ho). exists e0. simpl. destruct (decide (i = j)) as [->|N]; [by rewrite He in L|]. by rewrite lookup_insert_ne.
  - constructor; simpl; [intros e0 o Ho; specialize (M1 _ _ Ho); lia|]. intros j e0. rewrite lookup_insert_Some. intros [[_ ?]|[_ ?]]; [done|by eapply M2].
  - unfold linked. simpl. exists (nextEventID m). by rewrite lookup_insert_eq.
  - intros j N. simpl. by rewrite lookup_insert_ne.
Qed.

Lemma add_completed_spec m i o m' : ms_ok m → AddWorkflowExecutionUpdateCompletedEvent m i o = inr m' →
  (∃ e, UpdateInfos m !! i = Some (AcceptanceInfo e)) → extends m m' ∧ ms_ok m' ∧ durable_completed m' i o ∧ running m' = running m ∧
  ∀ j, j ≠ i → UpdateInfos m' !! j = UpdateInfos m !! j ∧ ∀ e, UpdateInfos m !! j = Some (Completion e) → completions m' !! e = completions m !! e.
Proof.
  intros [M1 M2] E [e L]. unfold AddWorkflowExecutionUpdateCompletedEvent in E. case_match; [done|]. rewrite L in E. injection E as <-.
  assert (∀ e0, is_Some (completions m !! e0) → e0 ≠ nextEventID m) as Fr by (intros e0 [o0 H0]; specialize (M1 _ _ H0); lia).
  split_and!; try done.
  - constructor.
    + intros j [e0 He]. unfold durable_accepted. simpl. destruct (decide (i = j)) as [->|N].
      * exists (nextEventID m). right. by rewrite lookup_insert_eq.
      * exists e0. by rewrite lookup_insert_ne.
    + intros j o0 (e0 & He & Ho). exists e0. simpl. destruct (decide (i = j)) as [->|N]; [congruence|]. rewrite lookup_insert_ne by done.
      split; [done|]. rewrite lookup_insert_ne; [done|]. symmetry. apply Fr. eauto.
  - constructor; simpl.
    + intros e0 o0. rewrite lookup_insert_Some. intros [[<- _]|[_ Ho]]; [lia|]. specialize (M1 _ _ Ho). lia.
    + intros j e0. rewrite lookup_insert_Some. intros [[_ [= <-]]|[_ Hj]]; [rewrite lookup_insert_eq; eauto|].
      rewrite lookup_insert_ne; [by eapply M2|]. symmetry. apply Fr. by eapply M2.
  - exists (nextEventID m). simpl. by rewrite !lookup_insert_eq.
  - intros j N. simpl. rewrite lookup_insert_ne by done. split; [done|]. intros e0 He0. rewrite lookup_insert_ne; [done|].
    symmetry. apply Fr. by eapply M2.
Qed.

(** An update that is not touched keeps its link. *)
Lemma linked_other m m' i cs acc : UpdateInfos m' !! i = UpdateInfos m !! i →
  (∀ e, UpdateInfos m !! i = Some (Completion e) → completions m' !! e = completions m !! e) → linked m i cs acc → linked m' i cs acc.
Proof.
  intros Ei Ec. unfold linked, durable_completed. rewrite Ei. case_match; [|done].
  intros (o' & -> & e & He & Ho). exists o'. split; [done|]. exists e. by rewrite Ec.
Qed.

(** ** The invariant *)

(** The stage of an update: where it was before the transaction. *)
Definition base_of (w : world) (p : nat) (u : Update) : state := base (ustate u) (proj p (cancels w)).

(** An update, by itself and its closures. *)
Record cell_ok (w : world) (p : nat) (u : Update) : Prop := {
  ck_cfg : ∃ b, cfg (ustate u) (Ready (accepted u)) (Ready (outcome u)) (proj p (effects w)) (proj p (cancels w)) b;
  ck_aborts : aborts_ok (proj p (effects w));
  ck_told : told (saved w) u;
  ck_log : observed (proj p (log w)) = futures u;
  ck_limits : checkLimits u = LimiterNil → base_of w p u ≠ stateCreated }.

Record map_ok (w : world) (i : string) (u : Update) : Prop := {
  mk_id : id u = i;
  mk_no : onComplete u = Some (reg_no (reg w));
  mk_state : ustate u ≠ stateCompleted }.

(** What holds at any time. *)
Record uinv (w : world) : Prop := {
  ui_cells : ∀ p u, heap w !! p = Some u → cell_ok w p u;
  ui_map : ∀ i p, registry_map (reg w) !! i = Some p → ∃ u, heap w !! p = Some u ∧ map_ok w i u;
  ui_fresh : ∀ p, is_Some (heap w !! p) → (p < next w)%nat;
  ui_effects : ∀ p c, (p, c) ∈ effects w → is_Some (heap w !! p);
  ui_cancels : ∀ p r, (p, r) ∈ cancels w → is_Some (heap w !! p);
  ui_log : ∀ p e, (p, e) ∈ log w → is_Some (heap w !! p);
  ui_saved : ms_ok (saved w) }.

(** What holds besides while the mutable state in memory and the registry belong together, which they do except between a
    rollback and the moment the workflow is loaded again. *)
Record live (w : world) : Prop := {
  lv_updates : is_Some (updates (reg w));
  lv_registered : ∀ p u, heap w !! p = Some u → proj p (effects w) ≠ [] → ustate u = stateAborted ∨ registry_map (reg w) !! id u = Some p;
  lv_linked : ∀ i p u, registry_map (reg w) !! i = Some p → heap w !! p = Some u →
    ustate u = stateAborted ∨ linked (ms w) i (proj p (effects w)) (Ready (accepted u));
  lv_missing : ∀ i o, registry_map (reg w) !! i = None → durable_completed (ms w) i o → durable_completed (saved w) i o;
  lv_extends : extends (saved w) (ms w);
  lv_ms : ms_ok (ms w) }.

(** Every update that existed stays, its futures are completed at most once, and its stage follows the life cycle; and acceptance is not
    announced to those who wait. *)
Record evolves (w w' : world) : Prop := {
  ev_cells : ∀ p u, heap w !! p = Some u → ∃ u', heap w' !! p = Some u' ∧ cell_le u u' ∧ rtc life (base_of w p u) (base_of w' p u');
  ev_log : ∃ l, log w' = log w ++ l ∧ ∀ p u, heap w !! p = Some u → FAccepted None None ∉ proj p l }.
#[export] Instance evolves_preorder : PreOrder evolves.
Proof.
  split.
  - intros w. constructor; [intros p u E; by exists u|]. exists []. rewrite app_nil_r. split; [done|]. intros. apply not_elem_of_nil.
  - intros w1 w2 w3 [C1 (l1 & E1 & L1)] [C2 (l2 & E2 & L2)]. constructor.
    + intros p u E. destruct (C1 p u E) as (u2 & H2 & Le & R). destruct (C2 p u2 H2) as (u3 & H3 & Le3 & R3).
      exists u3. split_and!; [done|by etrans|by etrans].
    + exists (l1 ++ l2). rewrite E2, E1, app_assoc. split; [done|]. intros p u E. rewrite proj_app, not_elem_of_app.
      split; [by eapply L1|]. destruct (C1 p u E) as (u2 & H2 & _). by eapply L2.
Qed.

(** Nothing but the updates and the log changes. *)
Record frame (w w' : world) : Prop := {
  fr_next : next w' = next w; fr_reg : reg w' = reg w; fr_effects : effects w' = effects w; fr_cancels : cancels w' = cancels w;
  fr_ms : ms w' = ms w; fr_saved : saved w' = saved w; fr_now : now w' = now w }.
#[export] Instance frame_preorder : PreOrder frame.
Proof. split; [by constructor|]. intros a b c [] []. constructor; congruence. Qed.

(** The stage of no update changes, and nothing is announced. *)
Record quiet (w w' : world) : Prop := {
  qu_cells : ∀ p u, heap w !! p = Some u → ∃ u', heap w' !! p = Some u' ∧ cell_le u u' ∧ base_of w' p u' = base_of w p u;
  qu_log : ∃ l, log w' = log w ++ l ∧ ∀ p u, heap w !! p = Some u → proj p l = [] }.
#[export] Instance quiet_preorder : PreOrder quiet.
Proof.
  split.
  - intros w. constructor; [intros p u E; by exists u|]. exists []. by rewrite app_nil_r.
  - intros w1 w2 w3 [C1 (l1 & E1 & L1)] [C2 (l2 & E2 & L2)]. constructor.
    + intros p u E. destruct (C1 p u E) as (u2 & H2 & Le & R). destruct (C2 p u2 H2) as (u3 & H3 & Le3 & R3).
      exists u3. split_and!; [done|by etrans|congruence].
    + exists (l1 ++ l2). rewrite E2, E1, app_assoc. split; [done|]. intros p u E. rewrite proj_app.
      destruct (C1 p u E) as (u2 & H2 & _). by rewrite (L1 p u), (L2 p u2).
Qed.
Lemma quiet_same w w' : heap w' = heap w → cancels w' = cancels w → log w' = log w → quiet w w'.
Proof.
  intros Eh Ec El. constructor; [|exists []; by rewrite app_nil_r]. intros p u E. exists u. rewrite Eh. split_and!; [done..|].
  unfold base_of. by rewrite Ec.
Qed.
Lemma quiet_evolves w w' : quiet w w' → evolves w w'.
Proof.
  intros [C (l & E & L)]. constructor.
  - intros p u H. destruct (C p u H) as (u' & H' & Le & Eb). exists u'. rewrite Eb. done.
  - exists l. split; [done|]. intros p u H. rewrite (L p u H). apply not_elem_of_nil.
Qed.

Lemma cfg_outcome s a o cs rs b : cfg s a o cs rs b → terminal s = false → o = false.
Proof. inversion 1 as [? ? ? S| | | | | |]; subst; try done. by inversion S; subst. Qed.
Lemma cfg_accepted s a o cs rs b : cfg s a o cs rs b → Matches s preAcceptedStates = true → a = false.
Proof. inversion 1 as [? ? ? S| | | | | |]; subst; try done. by inversion S; subst. Qed.
Lemma cfg_base_open s a o cs rs b : cfg s a o cs rs b → terminal s = false → terminal b = false.
Proof. induction 1 as [| |? [-> | ->]|? ? [-> | ->]| |? ? [-> | ->]|? ? ? ? ? ? ? H IH]; try done. intros _. apply IH. by inversion H as [? ? ? S| | | | | |]; subst; try inversion S; subst. Qed.
Lemma observed_app l1 l2 u u' : observed l1 = futures u → foldl obs_step (futures u) l2 = futures u' → observed (l1 ++ l2) = futures u'.
Proof. intros E1 E2. unfold observed. rewrite foldl_app. fold (observed l1). by rewrite E1. Qed.

(** One update is changed at once. *)
Definition put_cell (w : world) (p : nat) (u : Update) (l : list fut_event) : world :=
  mkWorld (<[p := u]> (heap w)) (next w) (reg w) (effects w) (cancels w) (ms w) (saved w) (now w) (log w ++ map (pair p) l).

Lemma inv_put_cell w p u u' l : uinv w → heap w !! p = Some u → cell_le u u' →
  (∃ b, cfg (ustate u') (Ready (accepted u')) (Ready (outcome u')) (proj p (effects w)) (proj p (cancels w)) b) →
  rtc life (base_of w p u) (base_of w p u') → told (saved w) u' → foldl obs_step (futures u) l = futures u' → FAccepted None None ∉ l →
  ustate u' ≠ stateCompleted →
  uinv (put_cell w p u' l) ∧ evolves w (put_cell w p u' l) ∧ frame w (put_cell w p u' l).
Proof.
  intros I E Le C R T Lg Na Hl. pose proof (ui_cells w I p u E) as K.
  assert (∀ q, is_Some (heap (put_cell w p u' l) !! q) ↔ is_Some (heap w !! q)) as Dom.
  { intros q. simpl. destruct (decide (p = q)) as [->|N]; [rewrite lookup_insert_eq, E; by split; eauto|by rewrite lookup_insert_ne]. }
  split_and!; [|constructor|by constructor].
  - constructor; try apply I.
    + intros q v Hq. simpl in Hq. destruct (decide (p = q)) as [<-|N].
      * rewrite lookup_insert_eq in Hq. injection Hq as <-. constructor; simpl; try done.
        -- apply K.
        -- rewrite proj_app, proj_map_same. by eapply observed_app; [apply K|].
        -- rewrite (cl_limits _ _ Le). intros Hn Hs. apply (ck_limits _ _ _ K Hn), life_created. rewrite <- Hs. exact R.
      * rewrite lookup_insert_ne in Hq by done. destruct (ui_cells w I q v Hq). constructor; try done. simpl.
        by rewrite proj_app, proj_map_other, app_nil_r.
    + intros i q Hq. simpl in Hq. destruct (ui_map w I i q Hq) as (v & Hv & [Mi Mn Ms]). destruct (decide (p = q)) as [<-|N].
      * rewrite E in Hv. injection Hv as <-. exists u'. split; [apply lookup_insert_eq|].
        constructor; simpl; rewrite ?(cl_id _ _ Le), ?(cl_onComplete _ _ Le); done.
      * exists v. split; [simpl; by rewrite lookup_insert_ne|done].
    + intros q Hq%Dom. by apply (ui_fresh w I).
    + intros q c Hq. apply Dom. by apply (ui_effects w I q c).
    + intros q c Hq. apply Dom. by apply (ui_cancels w I q c).
    + intros q e Hq. apply Dom. simpl in Hq. apply elem_of_app in Hq as [Hq|Hq]; [by apply (ui_log w I q e)|].
      apply list_elem_of_fmap in Hq as (x & [= -> ->] & _). eauto.
  - intros q v Hv. simpl. destruct (decide (p = q)) as [<-|N].
    + rewrite E in Hv. injection Hv as <-. exists u'. by rewrite lookup_insert_eq.
    + exists v. by rewrite lookup_insert_ne.
  - exists (map (pair p) l). split; [done|]. intros q v Hv. destruct (decide (p = q)) as [<-|N].
    + by rewrite proj_map_same.
    + rewrite proj_map_other by done. apply not_elem_of_nil.
Qed.
Lemma live_put_cell w p u u' l : live w → heap w !! p = Some u → id u' = id u →
  (ustate u' = stateAborted ∨ accepted u' = accepted u ∧ ustate u ≠ stateAborted) → live (put_cell w p u' l).
Proof.
  intros L E Ei Hs. constructor; try apply L; simpl.
  - intros q v Hv Hp. destruct (decide (p = q)) as [<-|N].
    + rewrite lookup_insert_eq in Hv. injection Hv as <-. rewrite Ei. destruct Hs as [?|[_ ?]]; [by left|].
      destruct (lv_registered w L p u E Hp) as [?|?]; [done|by right].
    + rewrite lookup_insert_ne in Hv by done. by apply (lv_registered w L q v).
  - intros i q v Hq Hv. destruct (decide (p = q)) as [<-|N].
    + rewrite lookup_insert_eq in Hv. injection Hv as <-. destruct Hs as [?|[-> ?]]; [by left|].
      destruct (lv_linked w L i p u Hq E) as [?|?]; [done|by right].
    + rewrite lookup_insert_ne in Hv by done. by apply (lv_linked w L i q v).
Qed.

(** ** Aborting at once *)

Definition aborted_now (u : Update) (f : option Failure) (e : option upd_error) : Update :=
  mkUpdate (id u) stateAborted (request u) (acceptedEventID u) (admittedTime u) (onComplete u) (checkLimits u)
    (if Matches (ustate u) preAcceptedStates then Some (f, e) else accepted u) (Some ((λ x, OutcomeFailure (Some x)) <$> f, e)).
Definition aborted_events (u : Update) (f : option Failure) (e : option upd_error) : list fut_event :=
  FOutcome ((λ x, OutcomeFailure (Some x)) <$> f) e :: (if Matches (ustate u) preAcceptedStates then [FAccepted f e] else []).

Lemma FailureError_terminal r s f e : FailureError r s = (f, e) → f ≠ None ∨ e ≠ None → terminal s = false ∧ s ≠ stateProvisionallyAborted.
Proof. destruct r, s; simpl; intros [= <- <-] [?|?]; done. Qed.

Lemma abort_immediate_eq w p u r f e : uinv w → heap w !! p = Some u → FailureError r (ustate u) = (f, e) → f ≠ None ∨ e ≠ None →
  abort p r Immediate w = Some ((), put_cell w p (aborted_now u f e) (aborted_events u f e)).
Proof.
  intros I E Ef Hn. destruct (FailureError_terminal _ _ _ _ Ef Hn) as [Ht Np].
  destruct (ck_cfg _ _ _ (ui_cells w I p u E)) as [b C].
  assert (outcome u = None) as Eo. { pose proof (cfg_outcome _ _ _ _ _ _ C Ht) as H. by destruct (outcome u). }
  assert (Matches (ustate u) preAcceptedStates = true → accepted u = None) as Ea.
  { intros Hm. pose proof (cfg_accepted _ _ _ _ _ _ C Hm) as H. by destruct (accepted u). }
  unfold abort, wbind at 1, deref at 1. rewrite E. cbn [mbind option_bind]. rewrite Ef.
  assert (∀ A (x y : A), match f, e with None, None => x | _, _ => y end = y) as Em
    by (intros; destruct f, e; try done; by destruct Hn). rewrite Em. clear Em.
  unfold setState, wbind, deref, write, wmod, wret, OnAfterCommit, OnAfterRollback, do_commit, wget. rewrite E. simpl.
  unfold wbind, deref, write, wmod, wret. simpl. rewrite lookup_insert_eq. simpl. unfold commit_abort, Set_outcome, Set_accepted. simpl. rewrite Eo. simpl. unfold put_cell, aborted_now, aborted_events.
  destruct (Matches (ustate u) preAcceptedStates) eqn:Hm; simpl.
  - rewrite Ea by done. simpl. unfold set_heap, add_log. simpl. by rewrite insert_insert_eq.
  - unfold set_heap, add_log. simpl. by rewrite insert_insert_eq.
Qed.

(** How an update looks after [abort] with immediate effects. *)
Definition abort_result (r : AbortReason) (u u' : Update) : Prop :=
  u' = u ∧ FailureError r (ustate u) = (None, None) ∨
  ∃ f e, FailureError r (ustate u) = (f, e) ∧ abort_pair f e ∧ u' = aborted_now u f e.

Lemma abort_immediate_spec w p u r : uinv w → heap w !! p = Some u →
  wp (abort p r Immediate) w (λ _ w', uinv w' ∧ evolves w w' ∧ frame w w' ∧ (live w → live w') ∧
    (∃ u', heap w' !! p = Some u' ∧ abort_result r u u') ∧ ∀ q, q ≠ p → heap w' !! q = heap w !! q).
Proof.
  intros I E. pose proof (ui_cells w I p u E) as K. destruct (FailureError r (ustate u)) as [f e] eqn:Ef.
  destruct (FailureError_pair _ _ _ _ Ef) as [[-> ->]|P].
  { exists (), w. split; [|split_and!; [done..| |done]]; [|exists u; split; [done|left; done]].
    unfold abort, wbind, deref. rewrite E. simpl. by rewrite Ef. }
  assert (f ≠ None ∨ e ≠ None) as Hn by (destruct P as [[-> (x & -> & _)]|[-> ->]]; auto).
  destruct (FailureError_terminal _ _ _ _ Ef Hn) as [Ht Np]. destruct (ck_cfg _ _ _ K) as [b C].
  assert (outcome u = None) as Eo by (pose proof (cfg_outcome _ _ _ _ _ _ C Ht) as H; by destruct (outcome u)).
  assert (Matches (ustate u) preAcceptedStates = true → accepted u = None) as Ea.
  { intros Hm. pose proof (cfg_accepted _ _ _ _ _ _ C Hm) as H. by destruct (accepted u). }
  eexists _, _. split; [by eapply abort_immediate_eq|].
  destruct (inv_put_cell w p u (aborted_now u f e) (aborted_events u f e)) as (I' & Ev & F); auto.
  - constructor; simpl; auto.
    + destruct (Matches (ustate u) preAcceptedStates) eqn:Hm; [right; by apply Ea|by left].
    + right. split; [done|]. intros v. by apply abort_pair_outcome.
    + intros Ha. by rewrite Ha in Ht.
  - exists stateAborted. simpl. constructor.
  - unfold base_of. rewrite <- (cfg_base _ _ _ _ _ _ C). unfold base at 1. simpl. apply life_rtc_abort. by eapply cfg_base_open.
  - destruct (Matches (ustate u) preAcceptedStates) eqn:Hm.
    + eapply (told_aborted _ _ f e); simpl; try done. rewrite Hm. by left.
    + eapply (told_aborted_kept _ u _ f e); simpl; try done; [apply K|]. by rewrite Hm.
  - unfold futures, aborted_events. simpl. rewrite Eo. destruct (Matches (ustate u) preAcceptedStates) eqn:Hm; simpl; [by rewrite Ea|done].
  - unfold aborted_events. case_match; [|set_solver]. destruct P as [[-> (x & -> & _)]|[-> ->]]; set_solver.
  - split_and!; [done..| | |].
    + intros L. eapply live_put_cell; [done..|by left].
    + exists (aborted_now u f e). split; [apply lookup_insert_eq|]. right. eauto.
    + intros q N. simpl. by rewrite lookup_insert_ne.
Qed.
