(* ===== verification/UpdateTxn.v ===== *)
(** * Workflow updates: their steps, registry operations, requests, commits and rollbacks keep the invariant *)
From S2P Require Import Prelude UpdateState UpdateMachine UpdateScript UpdateInv.
Local Open Scope Z_scope.

(** ** Registering closures *)

(** One update gets a new provisional state, and its closures are registered. *)
Definition push (w : world) (p : nat) (u : Update) (c : commit) (r : rollback) (m : mutableState) : world :=
  mkWorld (<[p := u]> (heap w)) (next w) (reg w) (effects w ++ [(p, c)]) (cancels w ++ [(p, r)]) m (saved w) (now w) (log w).

(** The mutable state has changed at most what it knows of one update. *)
Definition ms_only (i : string) (m m' : mutableState) : Prop :=
  ∀ j, j ≠ i → UpdateInfos m' !! j = UpdateInfos m !! j ∧ ∀ e, UpdateInfos m !! j = Some (Completion e) → completions m' !! e = completions m !! e.

(** What an operation with buffered effects does. *)
Record buffers (w w' : world) : Prop := { bf_inv : uinv w'; bf_live : live w'; bf_quiet : quiet w w'; bf_reg : reg w' = reg w }.
#[export] Instance buffers_trans : Transitive buffers.
Proof. intros a b c [] []. constructor; try done; [by etrans|congruence]. Qed.
Lemma buffers_refl w : uinv w → live w → buffers w w.
Proof. by constructor. Qed.

Section push.
Context (w : world) (p : nat) (u u' : Update) (c : commit) (r : rollback) (m : mutableState).
Context (I : uinv w) (E : heap w !! p = Some u) (Ei : registry_map (reg w) !! id u = Some p) (Le : cell_le u u') (Ef : futures u' = futures u).
Context (C : cfg (ustate u') (Ready (accepted u')) (Ready (outcome u')) (proj p (effects w) ++ [c]) (proj p (cancels w) ++ [r]) (base_of w p u)).
Context (A : aborts_ok [c]) (Na : ustate u ≠ stateAborted) (Nc : ustate u' ≠ stateCreated) (Nd : ustate u' ≠ stateCompleted).

Lemma push_dom q : is_Some (heap (push w p u' c r m) !! q) ↔ is_Some (heap w !! q).
Proof using All. simpl. destruct (decide (p = q)) as [->|N]; [rewrite lookup_insert_eq, E; by split; eauto|by rewrite lookup_insert_ne]. Qed.

Lemma inv_push : uinv (push w p u' c r m).
Proof using All.
  pose proof (ui_cells w I p u E) as K. constructor; try apply I.
  - intros q v Hq. simpl in Hq. destruct (decide (p = q)) as [<-|N].
    + rewrite lookup_insert_eq in Hq. injection Hq as <-. constructor; simpl; rewrite ?proj_app, ?proj_same; try done.
      * by exists (base_of w p u).
      * intros s f e [Hin|Hin]%elem_of_app; [by eapply K|by eapply A].
      * eapply told_state; [apply K|apply Le|done|done].
      * rewrite Ef. apply K.
      * unfold base_of. simpl. rewrite proj_app, proj_same, <- (cfg_base _ _ _ _ _ _ C), (cl_limits _ _ Le). apply K.
    + rewrite lookup_insert_ne in Hq by done. destruct (ui_cells w I q v Hq).
      constructor; unfold base_of; simpl; rewrite ?proj_app, ?proj_other, ?app_nil_r by done; done.
  - intros i q Hq. simpl in Hq. destruct (ui_map w I i q Hq) as (v & Hv & [Mi Mn Ms]). destruct (decide (p = q)) as [<-|N].
    + rewrite E in Hv. injection Hv as <-. exists u'. split; [apply lookup_insert_eq|].
      constructor; simpl; rewrite ?(cl_id _ _ Le), ?(cl_onComplete _ _ Le); done.
    + exists v. split; [simpl; by rewrite lookup_insert_ne|done].
  - intros q Hq%push_dom. by apply (ui_fresh w I).
  - intros q x Hq. apply push_dom. simpl in Hq. apply elem_of_app in Hq as [Hq|[= -> ->]%list_elem_of_singleton]; [by apply (ui_effects w I q x)|eauto].
  - intros q x Hq. apply push_dom. simpl in Hq. apply elem_of_app in Hq as [Hq|[= -> ->]%list_elem_of_singleton]; [by apply (ui_cancels w I q x)|eauto].
  - intros q x Hq. apply push_dom. by apply (ui_log w I q x).
Qed.

Lemma quiet_push : quiet w (push w p u' c r m).
Proof using All.
  constructor.
  - intros q v Hv. simpl. destruct (decide (p = q)) as [<-|N].
    + rewrite E in Hv. injection Hv as <-. exists u'. rewrite lookup_insert_eq. split_and!; [done..|]. unfold base_of. simpl.
      rewrite proj_app, proj_same. symmetry. by apply (cfg_base _ _ _ _ _ _ C).
    + exists v. rewrite lookup_insert_ne by done. split_and!; [done..|]. unfold base_of. simpl. by rewrite proj_app, proj_other, app_nil_r.
  - exists []. simpl. by rewrite app_nil_r.
Qed.

Lemma live_push : live w → extends (ms w) m → ms_ok m → ms_only (id u) (ms w) m →
  linked m (id u) (proj p (effects w) ++ [c]) (Ready (accepted u)) → live (push w p u' c r m).
Proof using All.
  intros L X M O K. injection Ef as Ea Eo. constructor; simpl; try apply L.
  - intros q v Hv Hp. destruct (decide (p = q)) as [<-|N].
    + rewrite lookup_insert_eq in Hv. injection Hv as <-. right. by rewrite (cl_id _ _ Le).
    + rewrite lookup_insert_ne in Hv by done. rewrite proj_app, proj_other, app_nil_r in Hp by done. by apply (lv_registered w L q v).
  - intros i q v Hq Hv. destruct (decide (i = id u)) as [->|Ni].
    + rewrite Ei in Hq. injection Hq as <-. rewrite lookup_insert_eq in Hv. injection Hv as <-. right. rewrite proj_app, proj_same. by rewrite Ea.
    + assert (p ≠ q) as N. { intros <-. destruct (ui_map w I i p Hq) as (v' & Hv' & [Mi _ _]). congruence. }
      rewrite lookup_insert_ne in Hv by done. rewrite proj_app, proj_other, app_nil_r by done.
      destruct (lv_linked w L i q v Hq Hv) as [?|?]; [by left|right]. destruct (O i Ni). by eapply linked_other.
  - intros i o Hi (e & He & Ho). apply (lv_missing w L i o Hi). destruct (decide (i = id u)) as [->|Ni]; [congruence|].
    destruct (O i Ni) as [O1 O2]. exists e. rewrite O1 in He. split; [done|]. by rewrite <- O2.
  - etrans; [apply L|done].
  - done.
Qed.

Lemma push_spec : live w → extends (ms w) m → ms_ok m → ms_only (id u) (ms w) m →
  linked m (id u) (proj p (effects w) ++ [c]) (Ready (accepted u)) → buffers w (push w p u' c r m).
Proof using All. intros. constructor; [apply inv_push|by apply live_push|apply quiet_push|done]. Qed.
End push.

Lemma ms_only_refl i m : ms_only i m m.
Proof. by intros j _. Qed.

(** ** Operations with buffered effects *)

(** An update a message can reach: in the registry, or loaded as completed. *)
Definition reachable_update (w : world) (p : nat) (u : Update) : Prop := ustate u = stateCompleted ∨ registry_map (reg w) !! id u = Some p.

Lemma responds_app cs c : responds (cs ++ [c]) = match responds cs with Some o => Some o | None => responds [c] end.
Proof. induction cs as [|x cs IH]; [done|]. simpl. rewrite IH. by destruct x. Qed.
Lemma has_accept_app cs c : has_accept (cs ++ [c]) = has_accept cs || has_accept [c].
Proof. apply existsb_app. Qed.
Lemma linked_closure m i cs c acc : (match c with CAccept | CRespond _ => false | _ => true end = true) →
  linked m i cs acc → linked m i (cs ++ [c]) acc.
Proof. intros H. unfold linked. rewrite responds_app, has_accept_app. destruct c; try done; simpl; rewrite orb_false_r; by destruct (responds cs). Qed.

Lemma abort_buffered_spec w p u r : uinv w → live w → heap w !! p = Some u → reachable_update w p u →
  wp (abort p r Buffered) w (λ _, buffers w).
Proof.
  intros I L E R. pose proof (ui_cells w I p u E) as K. destruct (FailureError r (ustate u)) as [f e] eqn:Ef.
  destruct (FailureError_pair _ _ _ _ Ef) as [[-> ->]|P].
  { exists (), w. split; [|by apply buffers_refl]. unfold abort, wbind, deref. rewrite E. simpl. by rewrite Ef. }
  assert (f ≠ None ∨ e ≠ None) as Hn by (destruct P as [[-> (x & -> & _)]|[-> ->]]; auto).
  destruct (FailureError_terminal _ _ _ _ Ef Hn) as [Ht Np]. destruct (ck_cfg _ _ _ K) as [b C].
  destruct R as [R|R]; [by rewrite R in Ht|]. assert (ustate u ≠ stateAborted) as Na by (intros Ha; by rewrite Ha in Ht).
  exists (), (push w p (set_state u stateProvisionallyAborted) (CAbort (ustate u) f e) (RAbort (ustate u)) (ms w)). split.
  { unfold abort, wbind at 1, deref at 1. rewrite E. cbn [mbind option_bind]. rewrite Ef.
    assert (∀ A (x y : A), match f, e with None, None => x | _, _ => y end = y) as Em
      by (intros; destruct f, e; try done; by destruct Hn). rewrite Em. clear Em.
    unfold setState, wbind, deref. rewrite E. done. }
  assert (cfg stateProvisionallyAborted (Ready (accepted u)) (Ready (outcome u)) (proj p (effects w) ++ [CAbort (ustate u) f e])
    (proj p (cancels w) ++ [RAbort (ustate u)]) (base_of w p u)) as C'.
  { pose proof (cfg_outcome _ _ _ _ _ _ C Ht) as Eo. rewrite Eo in *. rewrite (cfg_base _ _ _ _ _ _ C) in C. apply cfg_abort; [done..|].
    destruct Hn as [?|?]; [left|right]; by apply not_eq_None_Some. }
  apply (push_spec w p u); try done; [by constructor; auto| |apply L|].
  - by intros s f' e' [= -> -> ->]%list_elem_of_singleton.
  - apply linked_closure; [done|]. by destruct (lv_linked w L _ _ _ R E).
Qed.

Lemma not_abort_ok c : (∀ s f e, c ≠ CAbort s f e) → aborts_ok [c].
Proof. intros H s f e Hin%list_elem_of_singleton. by destruct (H s f e). Qed.

(** An update that waits for the worker's answer has no closures. *)
Lemma cfg_waiting s a o cs rs b : cfg s a o cs rs b → s = stateSent ∨ s = stateAdmitted ∨ s = stateCreated →
  a = false ∧ o = false ∧ cs = [] ∧ rs = [] ∧ b = s.
Proof. inversion 1 as [? ? ? S| | | | | |]; subst; try naive_solver. intros. inversion S; subst; naive_solver. Qed.

Lemma reject_spec w p u f : uinv w → live w → heap w !! p = Some u → registry_map (reg w) !! id u = Some p →
  ustate u = stateSent ∨ ustate u = stateAdmitted → wp (reject p f Buffered) w (λ _ w', buffers w w' ∧ ∀ q, q ≠ p → heap w' !! q = heap w !! q).
Proof.
  intros I L E R Hs. destruct (ck_cfg _ _ _ (ui_cells w I p u E)) as [b C]. destruct (cfg_waiting _ _ _ _ _ _ C) as (Ea & Eo & Ec & Er & ->); [naive_solver|].
  exists None, (push w p (set_state u stateProvisionallyCompleted) (CReject f) (RReject (ustate u)) (ms w)). split.
  { unfold reject, setState, wbind, deref. rewrite E. done. }
  split; [|intros q N; simpl; by rewrite lookup_insert_ne].
  assert (ustate u ≠ stateAborted) as Na by (intros Ha; rewrite Ha in Hs; by destruct Hs).
  apply (push_spec w p u); try done; [by constructor; auto| | |apply L|].
  - simpl. rewrite Ea, Eo, Ec, Er. rewrite <- (cfg_base _ _ _ _ _ _ C : ustate u = base_of w p u). by constructor.
  - by apply not_abort_ok.
  - apply linked_closure; [done|]. destruct (lv_linked w L _ _ _ R E) as [Ha|?]; [rewrite Ha in Hs; naive_solver|done].
Qed.

Lemma buffers_err {A} (a : A) w : uinv w → live w → wp (wret a) w (λ _, buffers w).
Proof. intros. by apply uwp_ret, buffers_refl. Qed.
#[local] Hint Resolve buffers_err : core.

Lemma onAcceptanceMsg_spec w p u s i : uinv w → live w → heap w !! p = Some u → reachable_update w p u →
  wp (onAcceptanceMsg p s i Buffered) w (λ _, buffers w).
Proof.
  intros I L E R. apply uwp_bind. eapply uwp_deref; [done|]. destruct (checkStateSet u _) eqn:Ec; [auto|]. case_match; [auto|].
  assert (ustate u = stateSent ∨ ustate u = stateAdmitted) as Hs by (unfold checkStateSet in Ec; destruct (ustate u); naive_solver).
  destruct R as [R|R]; [by rewrite R in Hs; destruct Hs|]. destruct (ck_cfg _ _ _ (ui_cells w I p u E)) as [b C].
  destruct (cfg_waiting _ _ _ _ _ _ C) as (Ea & Eo & Ecs & Er & ->); [tauto|].
  assert (ustate u ≠ stateAborted) as Na by (intros Ha; rewrite Ha in Hs; by destruct Hs).
  apply uwp_bind, uwp_get. destruct (AddWorkflowExecutionUpdateAcceptedEvent (ms w) (id u)) as [|[e m]] eqn:Em; [auto|].
  destruct (lv_linked w L _ _ _ R E) as [?|Lk]; [done|]. rewrite Ecs, Ea in Lk.
  destruct (add_accepted_spec _ _ _ _ (lv_ms w L) Em Lk) as (X & M & Lk' & _ & O).
  exists None, (push w p (set_state (set_acceptedEventID u e) stateProvisionallyAccepted) CAccept (RAccept (ustate u)) m). split.
  { unfold write, setState, wbind, wmod, deref, wret. simpl. rewrite lookup_insert_eq. simpl. unfold set_heap, set_buffer, push. simpl.
    by rewrite insert_insert_eq. }
  apply (push_spec w p u); try done.
  - by constructor; auto.
  - simpl. rewrite Ea, Eo, Ecs, Er. rewrite <- (cfg_base _ _ _ _ _ _ C : ustate u = base_of w p u). by constructor.
  - by apply not_abort_ok.
  - intros j N. destruct (O j N) as [-> ->]. done.
  - by rewrite Ecs, Ea.
Qed.

(** What an update has registered when its response can come. *)
Lemma cfg_accepting s a o cs rs b : cfg s a o cs rs b → s = stateProvisionallyAccepted ∨ s = stateAccepted → has_accept cs || a = true ∧ responds cs = None ∧
  ∀ x, cfg stateProvisionallyCompleted a o (cs ++ [CRespond x]) (rs ++ [RRespond s]) b.
Proof.
  inversion 1 as [? ? ? S|? ? ?|? Hs| | | |]; subst; intros [?|?]; try done; subst; try (by inversion S).
  - inversion S; subst. split_and!; [done..|]. intros. constructor.
  - split_and!; [done..|]. intros. by constructor.
Qed.

Lemma onResponseMsg_spec w p u meta res : uinv w → live w → heap w !! p = Some u → reachable_update w p u →
  wp (onResponseMsg p meta res Buffered) w (λ _, buffers w).
Proof.
  intros I L E R. apply uwp_bind. eapply uwp_deref; [done|]. destruct (checkStateSet u _) eqn:Ec; [auto|].
  destruct (validateResponseMsg (id u) meta res) eqn:Hv; [auto|]. destruct res as [o|]; [|auto].
  assert (ustate u = stateProvisionallyAccepted ∨ ustate u = stateAccepted) as Hs by (unfold checkStateSet in Ec; destruct (ustate u); naive_solver).
  assert (meta = Some (id u)) as ->.
  { unfold validateResponseMsg, invalid in Hv. repeat case_match; simplify_eq.
    match goal with H : _ && _ = true |- _ => apply andb_true_iff in H as [_ H]; apply bool_decide_eq_true in H; by subst end. }
  destruct R as [R|R]; [by rewrite R in Hs; destruct Hs|]. destruct (ck_cfg _ _ _ (ui_cells w I p u E)) as [b C].
  assert (ustate u ≠ stateAborted) as Na by (intros Ha; rewrite Ha in Hs; by destruct Hs).
  destruct (cfg_accepting _ _ _ _ _ _ C Hs) as (Hacc & Hr & C').
  apply uwp_bind, uwp_get. simpl. destruct (AddWorkflowExecutionUpdateCompletedEvent (ms w) (id u) o) as [|m] eqn:Em; [auto|].
  destruct (lv_linked w L _ _ _ R E) as [?|Lk]; [done|]. unfold linked in Lk. rewrite Hr, Hacc in Lk.
  destruct (add_completed_spec _ _ _ _ (lv_ms w L) Em Lk) as (X & M & Dc & _ & O).
  exists None, (push w p (set_state u stateProvisionallyCompleted) (CRespond (Some o)) (RRespond (ustate u)) m). split.
  { unfold setState, wbind, wmod, deref, wret. simpl. rewrite E. done. }
  apply (push_spec w p u); try done.
  - by constructor; auto.
  - rewrite (cfg_base _ _ _ _ _ _ C) in C'. apply C'.
  - by apply not_abort_ok.
  - unfold linked. rewrite responds_app, Hr. simpl. by exists o.
Qed.

Lemma OnProtocolMessage_spec w p u msg : uinv w → live w → heap w !! p = Some u → reachable_update w p u →
  wp (OnProtocolMessage p msg Buffered) w (λ _, buffers w).
Proof.
  intros I L E R. unfold OnProtocolMessage. destruct (Body msg) as [b|]; [|auto].
  assert (∀ X : W (option upd_error), wp X w (λ _, buffers w) →
    wp (let* w := wget in if negb (CanAddEvent (ms w) || match b with Rejection _ _ => true | _ => false end)
        then abort p AbortReasonWorkflowCompleted Buffered ;;* wret None else X) w (λ _, buffers w)) as Guard.
  { intros X HX. apply uwp_bind, uwp_get. case_match; [|done]. apply uwp_bind. eapply uwp_mono; [by eapply abort_buffered_spec|].
    intros x w' B. by apply uwp_ret. }
  destruct b; try apply Guard; auto.
  - by eapply onAcceptanceMsg_spec.
  - apply uwp_bind. eapply uwp_deref; [done|]. destruct (checkStateSet u _) eqn:Ec; [auto|].
    assert (ustate u = stateSent ∨ ustate u = stateAdmitted) as Hs by (unfold checkStateSet in Ec; destruct (ustate u); naive_solver).
    destruct R as [R|R]; [by rewrite R in Hs; destruct Hs|]. eapply uwp_mono; [by eapply reject_spec|]. by intros ? ? [? _].
  - by eapply onResponseMsg_spec.
Qed.

(** ** Loops with buffered effects *)

Lemma in_registry_elem w i p : (i, p) ∈ in_registry w ↔ registry_map (reg w) !! i = Some p.
Proof. apply elem_of_map_to_list. Qed.

(** What is left of a loop over a list without duplicates is not touched by the turns before. *)
Lemma uwp_for_each {A} (I : world → Prop) (P : A → world → Prop) (l : list A) (f : A → W ()) w : NoDup l → I w → (∀ x, x ∈ l → P x w) →
  (∀ x w, x ∈ l → I w → P x w → wp (f x) w (λ _ w', I w' ∧ ∀ y, y ∈ l → y ≠ x → P y w → P y w')) → wp (wfor l f) w (λ _, I).
Proof.
  intros D. revert w. induction D as [|x l Nx D IH]; intros w Hw HP Hf; simpl; [by apply uwp_ret|].
  apply uwp_bind. eapply uwp_mono; [apply Hf; [by left|done|apply HP; by left]|]. intros [] w' [Hw' HP']. apply IH; [done| |].
  - intros y Hy. apply HP'; [by right|by intros -> |]. apply HP. by right.
  - intros y w2 Hy Hw2 HPy. eapply uwp_mono; [apply Hf; [by right|done..]|]. intros [] w3 [? H3]. split; [done|]. intros z Hz. apply H3. by right.
Qed.

Lemma AbortAccepted_spec w r : uinv w → live w → wp (AbortAccepted r Buffered) w (λ _, buffers w).
Proof.
  intros I L. apply uwp_bind, uwp_get. apply uwp_for; [by apply buffers_refl|]. intros [i p] w1 Hin%in_registry_elem B. simpl.
  rewrite <- (bf_reg _ _ B) in Hin. destruct (ui_map w1 (bf_inv _ _ B) i p Hin) as (u & E & [<- _ _]).
  apply uwp_bind. eapply uwp_deref; [done|]. case_match; [|by apply uwp_ret].
  eapply uwp_mono; [eapply abort_buffered_spec; [apply B|apply B|done|by right]|]. intros ? w2 B2. by etrans.
Qed.

Lemma RejectUnprocessed_spec w : uinv w → live w → wp (RejectUnprocessed Buffered) w (λ _, buffers w).
Proof.
  intros I L. apply uwp_bind, uwp_get.
  apply (uwp_for_each _ (λ ip w', ∃ u, heap w' !! ip.2 = Some u ∧ id u = ip.1 ∧ ustate u = stateSent)).
  - apply NoDup_filter, NoDup_map_to_list.
  - by apply buffers_refl.
  - intros [i p] [Hs Hin%in_registry_elem]%list_elem_of_filter. destruct (ui_map w I i p Hin) as (u & E & [Ei _ _]). simpl in *.
    exists u. split_and!; [done..|]. rewrite E in Hs. simpl in Hs. unfold isSent in Hs. by destruct (ustate u).
  - intros [i p] w1 [_ Hin%in_registry_elem]%list_elem_of_filter B (u & E & Ei & Hs). simpl in *. subst i.
    rewrite <- (bf_reg _ _ B) in Hin. apply uwp_bind.
    eapply uwp_mono; [eapply reject_spec; [apply B|apply B|done|done|by left]|]. intros ? w2 [B2 Ho]. apply uwp_ret. split; [by etrans|].
    intros [j q] [_ Hq%in_registry_elem]%list_elem_of_filter N (v & Ev & Ej & Hv). simpl in *. exists v. rewrite Ho; [done|].
    intros ->. apply N. by simplify_eq.
Qed.

(** ** Workflow updates: registry operations, requests, commits and rollbacks keep the invariant *)

(** ** Making updates *)

Definition alloced (w : world) (u : Update) : world :=
  add_log (mkWorld (<[next w := u]> (heap w)) (S (next w)) (reg w) (effects w) (cancels w) (ms w) (saved w) (now w) (log w)) (next w) (ready_events u).

Lemma proj_fresh {A} (w : world) (l : list (nat * A)) : uinv w → (∀ p x, (p, x) ∈ l → is_Some (heap w !! p)) → proj (next w) l = [].
Proof. intros I H. apply proj_nil_notin. intros x Hx. specialize (H _ _ Hx). specialize (ui_fresh w I _ H). lia. Qed.
Lemma heap_fresh w : uinv w → heap w !! next w = None.
Proof. intros I. apply eq_None_not_Some. intros H. specialize (ui_fresh w I _ H). lia. Qed.
Lemma observed_ready u : observed (ready_events u) = futures u.
Proof. unfold observed, ready_events, futures. by destruct (outcome u) as [[]|], (accepted u) as [[]|]. Qed.

Lemma inv_alloc w u : uinv w → stable (ustate u) (Ready (accepted u)) (Ready (outcome u)) → told (saved w) u →
  (checkLimits u = LimiterNil → ustate u ≠ stateCreated) → uinv (alloced w u) ∧ quiet w (alloced w u) ∧ (live w → live (alloced w u)).
Proof.
  intros I S T Hl. pose proof (heap_fresh w I) as Nx.
  pose proof (proj_fresh w (effects w) I (ui_effects w I)) as Pe. pose proof (proj_fresh w (cancels w) I (ui_cancels w I)) as Pc.
  pose proof (proj_fresh w (log w) I (ui_log w I)) as Pl.
  assert (∀ p v, heap w !! p = Some v → next w ≠ p) as Ne by (intros p v H Ep; rewrite Ep in Nx; congruence).
  split_and!.
  - constructor; simpl; try apply I.
    + intros p v [[<- <-]|[N Hv]]%lookup_insert_Some.
      * constructor; unfold base_of; simpl; rewrite ?Pe, ?Pc; try done; [by eexists; constructor|intros ? ? ? []%not_elem_of_nil| |].
        { rewrite proj_app, Pl, proj_map_same. apply observed_ready. }
        unfold base. by case_match.
      * destruct (ui_cells w I p v Hv). constructor; simpl; try done. by rewrite proj_app, proj_map_other, app_nil_r.
    + intros i p Hp. destruct (ui_map w I i p Hp) as (v & Hv & []). exists v. by rewrite lookup_insert_ne by eauto.
    + intros p [v [[<- _]|[N Hv]]%lookup_insert_Some]; [lia|]. assert (p < next w)%nat by (apply (ui_fresh w I); eauto). lia.
    + intros p c Hin. rewrite lookup_insert_is_Some'. right. by eapply ui_effects.
    + intros p c Hin. rewrite lookup_insert_is_Some'. right. by eapply ui_cancels.
    + intros p e [Hin|Hin]%elem_of_app; rewrite lookup_insert_is_Some'; [right; by eapply ui_log|left].
      by apply list_elem_of_fmap in Hin as (x & [= -> ->] & _).
  - constructor; simpl.
    + intros p v Hv. exists v. by rewrite lookup_insert_ne by eauto.
    + eexists. split; [done|]. intros p v Hv. rewrite proj_map_other; [done|eauto].
  - intros L. constructor; simpl; try apply L.
    + intros p v [[<- <-]|[N Hv]]%lookup_insert_Some Hp; [done|by apply (lv_registered w L)].
    + intros i p v Hp [[<- <-]|[N Hv]]%lookup_insert_Some; [|by apply (lv_linked w L i p)].
      destruct (ui_map w I i _ Hp) as (v & Hv & _). congruence.
Qed.

(** An update becomes part of the registry. *)
Definition put_reg (w : world) (m : gmap string nat) (i : string) (p : nat) : world :=
  set_reg w (mkRegistry (reg_no (reg w)) (Some (<[i := p]> m)) (completedCount (reg w))).
Lemma inv_put w m i p u : uinv w → updates (reg w) = Some m → heap w !! p = Some u → map_ok w i u → uinv (put_reg w m i p) ∧ quiet w (put_reg w m i p).
Proof.
  intros I Em E M. split.
  - constructor; simpl; try apply I.
    + intros q v Hv. by destruct (ui_cells w I q v Hv).
    + unfold registry_map. simpl. intros j q [[<- <-]|[N Hq]]%lookup_insert_Some; [by exists u; destruct M|].
      destruct (ui_map w I j q) as (v & Hv & []); [unfold registry_map; by rewrite Em|]. by exists v.
  - by apply quiet_same.
Qed.
Lemma live_put w m i p u : live w → updates (reg w) = Some m → m !! i = None → heap w !! p = Some u → proj p (effects w) = [] →
  linked (ms w) i [] (Ready (accepted u)) ∨ ustate u = stateAborted → live (put_reg w m i p).
Proof.
  intros L Em Ni E Pe Lk. assert (registry_map (reg w) = m) as Er by (unfold registry_map; by rewrite Em).
  constructor; simpl; try apply L; unfold registry_map; simpl.
  - by eexists.
  - intros q v Hv Hq. destruct (lv_registered w L q v Hv Hq) as [?|H]; [by left|right]. rewrite lookup_insert_ne; [by rewrite <- Er|]. congruence.
  - intros j q v [[<- <-]|[N Hq]]%lookup_insert_Some Hv; [|apply (lv_linked w L j q v); by rewrite ?Er].
    rewrite Pe. simplify_eq. by destruct Lk; [right|left].
  - intros j o [N1 N2]%lookup_insert_None. apply (lv_missing w L). by rewrite Er.
Qed.

(** ** Looking updates up *)

Lemma told_new w u : accepted u = None → outcome u = None → told (saved w) u.
Proof. intros Ea Eo. constructor; congruence. Qed.

Lemma told_newCompleted w i ce v err : live w → registry_map (reg w) !! i = None → GetUpdateOutcome (ms w) i ce = (v, err) → err ≠ Some NotFound →
  told (saved w) (newCompleted i v err).
Proof.
  intros L Ni Eg Nf. unfold GetUpdateOutcome in Eg. destruct (UpdateInfos (ms w) !! i) as [x|] eqn:Ei; [|congruence].
  assert (∀ e, x = Completion e → ∃ o, completions (ms w) !! e = Some o ∧ durable_completed (saved w) i o) as Hc.
  { intros e ->. destruct (mo_completed _ (lv_ms w L) _ _ Ei) as [o Ho]. exists o. split; [done|]. apply (lv_missing w L); [done|]. by exists e. }
  destruct x as [e|e|e]; [injection Eg as <- <-..|].
  1, 2: constructor; simpl; [right; right; eauto|done|done].
  destruct (Hc e) as (o & Ho & D); [done|]. rewrite Ho in Eg. constructor; simpl.
  - intros _. left. by eapply durable_completed_accepted.
  - done.
  - intros v' Ev'. destruct ce; simplify_eq. eauto.
Qed.

(** What [Find] gives. *)
Definition found (w : world) (i : string) (r : option nat) : Prop :=
  match r with
  | Some p => ∃ u, heap w !! p = Some u ∧ reachable_update w p u
  | None => registry_map (reg w) !! i = None ∧ linked (ms w) i [] false
  end.

Lemma Find_spec w i ce : uinv w → live w → wp (Find i ce) w (λ r w', buffers w w' ∧ found w' i r).
Proof.
  intros I L. apply uwp_bind, uwp_get. destruct (registry_map (reg w) !! i) as [p|] eqn:Ei.
  { apply uwp_ret. split; [by apply buffers_refl|]. destruct (ui_map w I i p Ei) as (u & E & [<- _ _]). exists u. split; [done|by right]. }
  destruct (GetUpdateOutcome (ms w) i ce) as [v err] eqn:Eg.
  assert (err = Some NotFound → linked (ms w) i [] false) as Hl.
  { intros ->. unfold GetUpdateOutcome in Eg. unfold linked. simpl. destruct (UpdateInfos (ms w) !! i) as [[e|e|e]|] eqn:Ex; try done.
    destruct (mo_completed _ (lv_ms w L) _ _ Ex) as [o Ho]. rewrite Ho in Eg. by destruct ce. }
  assert (err ≠ Some NotFound → wp (let* p := alloc (newCompleted i v err) in wret (Some p)) w (λ r w', buffers w w' ∧ found w' i r)) as Ha.
  { intros Nf. destruct (inv_alloc w (newCompleted i v err)) as (I' & Q & L'); [done|constructor|by eapply told_newCompleted|done|].
    eexists _, (alloced w (newCompleted i v err)). split; [done|]. split; [constructor; try done; by apply L'|].
    exists (newCompleted i v err). split; [apply lookup_insert_eq|by left]. }
  destruct err as [[]|]; try by apply Ha. apply uwp_ret. split; [by apply buffers_refl|]. split; [done|by apply Hl].
Qed.

(** Making an update and adding it to the registry. *)
Lemma create_spec {A} (k : nat → A) w u i : uinv w → live w → registry_map (reg w) !! i = None → linked (ms w) i [] false →
  stable (ustate u) false false → accepted u = None → outcome u = None → (checkLimits u = LimiterNil → ustate u ≠ stateCreated) →
  id u = i → onComplete u = Some (reg_no (reg w)) → ustate u ≠ stateCompleted →
  wp (let* p := alloc u in put i p ;;* wret (k p)) w (λ a w', uinv w' ∧ live w' ∧ quiet w w' ∧
    ∃ p, a = k p ∧ heap w' !! p = Some u ∧ registry_map (reg w') !! i = Some p).
Proof.
  intros I L Ni Lk S Ea Eo Hl Ei En Nc. destruct (inv_alloc w u) as (I' & Q & L'); [done|by rewrite Ea, Eo|by apply told_new|done|].
  destruct (lv_updates w L) as [m Em]. assert (heap (alloced w u) !! next w = Some u) as Hp by apply lookup_insert_eq.
  destruct (inv_put (alloced w u) m i (next w) u) as [I2 Q2]; [done..|].
  exists (k (next w)), (put_reg (alloced w u) m i (next w)). split.
  { unfold wbind, alloc, put. simpl. rewrite Em. done. }
  split_and!; [done| |by etrans|].
  - eapply live_put; [by apply L'|done| |done| |left; simpl; by rewrite Ea].
    + unfold registry_map in Ni. by rewrite Em in Ni.
    + apply (proj_fresh w _ I), I.
  - exists (next w). split_and!; [done..|]. unfold registry_map. simpl. apply lookup_insert_eq.
Qed.

Section machine.
Context (requestSize : Request → Z) (failureSize : Failure → Z) (outcomeSize : Outcome → Z).
Context (maxTotal maxInFlightUpdateCount maxInFlightUpdateSize : Z).

(** Like [found], for a lookup that makes what it does not find. *)
Definition result (w : world) (p : nat) : Prop := ∃ u, heap w !! p = Some u ∧ reachable_update w p u.
Lemma FindOrCreate_spec w i ce : uinv w → live w →
  wp (FindOrCreate maxTotal maxInFlightUpdateCount i ce) w (λ r w', uinv w' ∧ live w' ∧ quiet w w' ∧
    match r with inl _ => True | inr (p, _) => result w' p end).
Proof.
  intros I L. apply uwp_bind. eapply uwp_mono; [by apply Find_spec|]. intros [p|] w1 [[I1 L1 Q1 R1] F]; [by apply uwp_ret|].
  apply uwp_bind, uwp_get. destruct (registry_checkLimits _ _ w1); [by apply uwp_ret|]. destruct F as [Ni Lk].
  eapply uwp_mono; [apply (create_spec (λ p, inr (p, false)))|]; try done; [constructor|].
  intros a w2 (I2 & L2 & Q2 & p & -> & Hp & Rp). split_and!; [done..|by etrans|]. eexists. split; [done|by right].
Qed.
Definition resurrected (w : world) (r : upd_error + option nat) : Prop := match r with inr (Some p) => result w p | _ => True end.
Lemma TryResurrect_spec w msg : uinv w → live w → found w (ProtocolInstanceId msg) None →
  wp (TryResurrect maxTotal msg) w (λ r w', uinv w' ∧ live w' ∧ quiet w w' ∧ resurrected w' r).
Proof.
  intros I L [Ni Lk]. unfold TryResurrect. assert (∀ r, resurrected w r → wp (wret r) w (λ r w', uinv w' ∧ live w' ∧ quiet w w' ∧ resurrected w' r)) as Hr by (intros; by apply uwp_ret).
  destruct (Body msg) as [b|]; [|by apply Hr]. apply uwp_bind, uwp_get. case_match; [by apply Hr|].
  assert (∀ q, wp (let* p := alloc (newAdmitted (ProtocolInstanceId msg) (Some q) (Some (reg_no (reg w))) (now w)) in
      put (ProtocolInstanceId msg) p ;;* wret (inr (Some p))) w (λ r w', uinv w' ∧ live w' ∧ quiet w w' ∧ resurrected w' r)) as Hc.
  { intros q. eapply uwp_mono; [apply (create_spec (λ p, inr (Some p)))|]; try done; [constructor|].
    intros a w2 (I2 & L2 & Q2 & p & -> & Hp & Rp). split_and!; [done..|]. eexists. split; [done|by right]. }
  destruct b as [? ? [q|]|? [q|]| | |]; first [apply Hc | by apply Hr].
Qed.

Lemma handleMessage_spec w msg upd large ce : uinv w → live w →
  wp (handleMessage maxTotal msg upd large ce) w (λ _ w', uinv w' ∧ live w' ∧ quiet w w').
Proof.
  intros I L. unfold handleMessage. destruct (Body msg); [|by apply uwp_ret]. destruct upd as [[]|]; [|by destruct large; apply uwp_ret|by apply uwp_ret].
  destruct large; [by apply uwp_ret|]. apply uwp_bind. eapply uwp_mono; [by apply Find_spec|]. intros r w1 [[I1 L1 Q1 R1] F]. apply uwp_bind.
  eapply (uwp_mono _ _ (λ r w', uinv w' ∧ live w' ∧ quiet w1 w' ∧ resurrected w' r)).
  { destruct r as [p|]; [by apply uwp_ret|by apply TryResurrect_spec]. }
  intros [|[p|]] w2 (I2 & L2 & Q2 & Hp); [apply uwp_ret; split_and!; try done; by etrans| |apply uwp_ret; split_and!; try done; by etrans].
  destruct Hp as (u & E & R). apply uwp_bind. eapply uwp_mono; [by eapply OnProtocolMessage_spec|]. intros ? w3 []. apply uwp_ret.
  split_and!; try done. etrans; [done|]. by etrans.
Qed.
End machine.

(** ** Workflow updates: requests, commits and rollbacks keep the invariant *)

Record moves (w w' : world) : Prop := { mv_inv : uinv w'; mv_live : live w'; mv_evolves : evolves w w' }.
Lemma moves_quiet w w' : uinv w' → live w' → quiet w w' → moves w w'.
Proof. constructor; [done..|by apply quiet_evolves]. Qed.
Lemma moves_refl w : uinv w → live w → moves w w.
Proof. by constructor. Qed.
#[export] Instance moves_trans : Transitive moves.
Proof. intros a b c [] []. constructor; try done. by etrans. Qed.

(** ** Requests *)

(** An update that is not yet admitted leaves the registry. *)
Lemma inv_unlink w m i n : uinv w → updates (reg w) = Some m → uinv (set_reg w (mkRegistry (reg_no (reg w)) (Some (delete i m)) n)).
Proof.
  intros I Em. constructor; simpl; try apply I.
  - intros q v Hv. by destruct (ui_cells w I q v Hv).
  - unfold registry_map. simpl. intros j q [N Hq]%lookup_delete_Some.
    destruct (ui_map w I j q) as (v & Hv & []); [unfold registry_map; by rewrite Em|]. by exists v.
Qed.
Lemma live_unlink w m i p u n : live w → updates (reg w) = Some m → m !! i = Some p → heap w !! p = Some u → id u = i → proj p (effects w) = [] →
  linked (ms w) i [] false → live (set_reg w (mkRegistry (reg_no (reg w)) (Some (delete i m)) n)).
Proof.
  intros L Em Hi E Ei Pe Lk. assert (registry_map (reg w) = m) as Er by (unfold registry_map; by rewrite Em).
  constructor; simpl; try apply L; unfold registry_map; simpl.
  - by eexists.
  - intros q v Hv Hq. destruct (lv_registered w L q v Hv Hq) as [?|H]; [by left|right]. rewrite lookup_delete_ne; [by rewrite <- Er|].
    intros En. rewrite Er in H. assert (p = q) as <- by congruence. done.
  - intros j q v [N Hq]%lookup_delete_Some Hv. apply (lv_linked w L j q v); by rewrite ?Er.
  - intros j o Hj. destruct (decide (i = j)) as [<-|N].
    + intros (e & He & _). unfold linked in Lk. simpl in Lk. by rewrite He in Lk.
    + rewrite lookup_delete_ne in Hj by done. apply (lv_missing w L). by rewrite Er.
Qed.

Lemma remover_eq w i m : updates (reg w) = Some m → ∃ n,
  remover (reg_no (reg w)) i w = Some ((), set_reg w (mkRegistry (reg_no (reg w)) (Some (delete i m)) n)).
Proof. intros Em. eexists. unfold remover, wbind, wget. simpl. rewrite bool_decide_true by done. simpl. by rewrite Em. Qed.

Section machine.
Context (requestSize : Request → Z) (failureSize : Failure → Z) (outcomeSize : Outcome → Z).
Context (maxTotal maxInFlightUpdateCount maxInFlightUpdateSize : Z).

Lemma checkLimits_spec l req w : l ≠ LimiterNil → ∃ r,
  run_checkLimits requestSize failureSize outcomeSize maxInFlightUpdateSize l req w = Some (r, w).
Proof. destruct l; [done| |]; intros _; by eexists. Qed.

Lemma Admit_spec w p u req : uinv w → live w → heap w !! p = Some u → reachable_update w p u →
  wp (Admit requestSize failureSize outcomeSize maxInFlightUpdateSize p req Immediate) w (λ _, moves w).
Proof.
  intros I L E R. pose proof (ui_cells w I p u E) as K. apply uwp_bind. eapply uwp_deref; [done|].
  case_bool_decide as Es; simpl; [|by apply uwp_ret, moves_refl]. destruct R as [R|R]; [congruence|].
  destruct (ck_cfg _ _ _ K) as [b C]. rewrite Es in C. destruct (cfg_waiting _ _ _ _ _ _ C) as (Ea & Eo & Ec & Er & ->); [tauto|].
  destruct (lv_linked w L _ _ _ R E) as [?|Lk]; [congruence|]. rewrite Ec, Ea in Lk.
  destruct (lv_updates w L) as [m Em]. assert (m !! id u = Some p) as Hm by (unfold registry_map in R; by rewrite Em in R).
  destruct (checkLimits_spec (checkLimits u) req w) as [r Hr]. { intros Hn. apply (ck_limits _ _ _ K Hn). unfold base_of. by rewrite Es, Er. }
  apply uwp_bind. exists r, w. split; [done|]. destruct r as [err|].
  - destruct (ui_map w I _ _ R) as (v & Hv & [_ Mn _]). assert (v = u) as -> by congruence.
    unfold call_onComplete. rewrite Mn. destruct (remover_eq w (id u) m Em) as [n Hn]. apply uwp_bind. eexists _, _. split; [done|]. apply uwp_ret.
    apply moves_quiet; [by apply inv_unlink|by eapply live_unlink|].
    by apply quiet_same.
  - destruct (validateRequestMsg (id u) req); [by apply uwp_ret, moves_refl|]. apply uwp_bind, uwp_get. case_match.
    + apply uwp_bind. eapply uwp_mono; [by eapply abort_immediate_spec|]. intros [] w' (I' & Ev & F & L' & _). apply uwp_ret.
      constructor; auto.
    + set (u' := set_admittedTime (set_state (set_request u (Some req)) stateAdmitted) (now w)).
      exists None, (put_cell w p u' []). split.
      { unfold write, setState, wbind, wmod, deref, wret. simpl. rewrite lookup_insert_eq. simpl.
        unfold do_commit, wbind, deref, wget, write, wmod, wret. simpl. rewrite !lookup_insert_eq. simpl.
        unfold set_heap, add_log, put_cell, u'. simpl. by rewrite !insert_insert_eq. }
      destruct (inv_put_cell w p u u' []) as (I' & Ev & F); try done.
      * by constructor; auto; rewrite Es.
      * exists stateAdmitted. simpl. rewrite Ea, Eo, Ec, Er. constructor. constructor.
      * unfold base_of. rewrite Er. unfold u'. simpl. rewrite Es. simpl. apply rtc_once. constructor.
      * apply told_new; simpl; [by destruct (accepted u)|by destruct (outcome u)].
      * apply not_elem_of_nil.
      * constructor; [done| |done]. eapply live_put_cell; [done..|]. right. split; [done|congruence].
Qed.

Lemma ApplyRequest_spec w k i req ce : uinv w → live w →
  wp (ApplyRequest requestSize failureSize outcomeSize maxTotal maxInFlightUpdateCount maxInFlightUpdateSize k i req ce) w (λ _, moves w).
Proof.
  intros I L. unfold ApplyRequest. case_match; [by apply uwp_ret, moves_refl|]. apply uwp_bind, uwp_get. case_match.
  - apply uwp_bind. eapply uwp_mono; [by apply Find_spec|]. intros r w1 [[] _]. apply uwp_ret. by apply moves_quiet.
  - repeat (case_match; [by apply uwp_ret, moves_refl|]). apply uwp_bind. eapply uwp_mono; [by apply FindOrCreate_spec|]. intros [e|[p b]] w1 (I1 & L1 & Q1 & Hp); [by apply uwp_ret, moves_quiet|].
    destruct Hp as (u & E & R). eapply uwp_mono; [by eapply Admit_spec|]. intros ? w2 M2. etrans; [by apply moves_quiet|done].
Qed.
End machine.

(** ** Changes at once, without closures *)

Record steady (w w' : world) : Prop := { sd_inv : uinv w'; sd_evolves : evolves w w'; sd_frame : frame w w'; sd_live : live w → live w' }.
#[export] Instance steady_trans : Transitive steady.
Proof. intros a b c [] []. constructor; try done; [by etrans|by etrans|auto]. Qed.
Lemma steady_refl w : uinv w → steady w w.
Proof. by constructor. Qed.
Lemma steady_moves w w' : live w → steady w w' → moves w w'.
Proof. intros L []. constructor; auto. Qed.
Lemma steady_dom w w' p : steady w w' → is_Some (heap w !! p) → is_Some (heap w' !! p).
Proof. intros S [u E]. destruct (ev_cells _ _ (sd_evolves _ _ S) p u E) as (u' & E' & _). eauto. Qed.

Lemma Send_spec w p again n : uinv w → is_Some (heap w !! p) → wp (Send p again n) w (λ _, steady w).
Proof.
  intros I [u E]. apply uwp_bind. eapply uwp_deref; [done|]. case_match; [by apply uwp_ret, steady_refl|].
  assert (∀ w', steady w w' → wp (match request u with None => wret None
    | Some r => wret (Some (mkOutgoing (id u) (outgoingMessageID u) n r)) end) w' (λ _, steady w)) as Hk
    by (intros w' S; case_match; by apply uwp_ret).
  apply uwp_bind. case_bool_decide as Es; [|apply uwp_ret, Hk; by apply steady_refl].
  pose proof (ui_cells w I p u E) as K. destruct (ck_cfg _ _ _ K) as [b C]. rewrite Es in C.
  destruct (cfg_waiting _ _ _ _ _ _ C) as (Ea & Eo & Ec & Er & ->); [tauto|].
  exists stateAdmitted, (put_cell w p (set_state u stateSent) []). split.
  { unfold setState, wbind, deref, write, wmod, wret. rewrite E. simpl. rewrite Es. unfold put_cell, set_heap. simpl. by rewrite app_nil_r. }
  apply Hk. destruct (inv_put_cell w p u (set_state u stateSent) []) as (I' & Ev & F); try done.
  - by constructor; auto; rewrite Es.
  - exists stateSent. simpl. rewrite Ea, Eo, Ec, Er. constructor. constructor.
  - unfold base_of. rewrite Er. simpl. rewrite Es. apply rtc_once. constructor.
  - apply told_new; simpl; [by destruct (accepted u)|by destruct (outcome u)].
  - apply not_elem_of_nil.
  - constructor; try done. intros L. eapply live_put_cell; [done..|]. right. split; [done|congruence].
Qed.

Lemma registry_Send_spec w again n : uinv w → wp (registry_Send again n) w (λ _, steady w).
Proof.
  intros I. apply uwp_bind, uwp_get. assert (∀ p, p ∈ sortedUpdates w → is_Some (heap w !! p.1)) as Hd.
  { intros p. unfold sortedUpdates. rewrite merge_sort_Permutation. intros ([i q] & -> & Hq%in_registry_elem)%list_elem_of_fmap. simpl.
    destruct (ui_map w I i q Hq) as (u & E & _). eauto. }
  revert Hd. generalize (sortedUpdates w). intros l. revert w I. induction l as [|p l IH]; intros w I Hd; [by apply uwp_ret, steady_refl|].
  apply uwp_bind. eapply uwp_mono; [apply Send_spec; [done|apply Hd; by left]|]. intros out w1 S1. apply uwp_bind.
  eapply uwp_mono; [apply IH; [apply S1|]|].
  - intros q Hq. eapply steady_dom; [exact S1|]. apply Hd. by right.
  - intros outs w2 S2. apply uwp_ret. etrans; [exact S1|exact S2].
Qed.

(** [Abort] ends every update of the registry it can end and leaves the others alone. *)
Definition ended (r : AbortReason) (ps : list nat) (w w' : world) : Prop :=
  ∀ p u, heap w !! p = Some u → ∃ u', heap w' !! p = Some u' ∧ (p ∈ ps → abort_result r u u') ∧ (p ∉ ps → u' = u).

Lemma abort_all_spec r (l : list (string * nat)) w : NoDup l.*2 → (∀ p, p ∈ l.*2 → is_Some (heap w !! p)) → uinv w →
  wp (wfor l (λ ip, abort ip.2 r Immediate)) w (λ _ w', steady w w' ∧ ended r l.*2 w w').
Proof.
  revert w. induction l as [|[i p] l IH]; intros w D Hd I.
  { apply uwp_ret. split; [by apply steady_refl|]. intros p u E. exists u. split_and!; [done| |done]. by intros ?%not_elem_of_nil. }
  simpl in D. apply NoDup_cons in D as [Np D]. destruct (Hd p) as [u E]; [by left|]. apply uwp_bind.
  eapply uwp_mono; [by eapply abort_immediate_spec|]. intros [] w1 (I1 & Ev & F & L1 & (u1 & E1 & A1) & O1).
  assert (steady w w1) as S1 by done. eapply uwp_mono; [apply IH; [done| |done]|].
  { intros q Hq. eapply steady_dom; [done|]. apply Hd. by right. }
  intros [] w2 [S2 En]. split; [by etrans|]. intros q v Hv. destruct (decide (q = p)) as [->|N].
  - assert (v = u) as -> by congruence. destruct (En p u1 E1) as (u2 & E2 & _ & Hn). rewrite (Hn Np) in E2. exists u1. split_and!; [done..|].
    intros []. by left.
  - rewrite <- (O1 q N) in Hv. destruct (En q v Hv) as (v' & Hv' & Y & X). exists v'. split_and!; [done| |].
    + by intros [->|?]%elem_of_cons; [|apply Y].
    + intros Nq. apply X. intros ?. apply Nq. by right.
Qed.

Definition registered (w : world) : list nat := (in_registry w).*2.
Lemma elem_of_registered w p : p ∈ registered w ↔ ∃ i, registry_map (reg w) !! i = Some p.
Proof.
  unfold registered. rewrite list_elem_of_fmap. split.
  - intros ([i q] & -> & H%in_registry_elem). eauto.
  - intros [i H]. exists (i, p). by rewrite in_registry_elem.
Qed.
Lemma registered_NoDup w : uinv w → NoDup (registered w).
Proof.
  intros I. apply NoDup_fmap_2_strong; [|apply NoDup_map_to_list]. intros [i p] [j q] Hp%in_registry_elem Hq%in_registry_elem Eq. simpl in Eq. subst q.
  destruct (ui_map w I i p Hp) as (u & E & [<- _ _]), (ui_map w I j p Hq) as (v & E' & [<- _ _]). congruence.
Qed.
Lemma Abort_spec w r : uinv w → wp (Abort r) w (λ _ w', steady w w' ∧ ended r (registered w) w w').
Proof.
  intros I. apply uwp_bind, uwp_get. apply abort_all_spec; [by apply registered_NoDup| |done].
  intros p [i Hp]%elem_of_registered. destruct (ui_map w I i p Hp) as (u & E & _). eauto.
Qed.
