(* ===== verification/UpdateCommit.v ===== *)
(** * Workflow updates: commit, rollback and loading keep the invariant *)
From S2P Require Import Prelude UpdateState UpdateMachine UpdateScript UpdateInv UpdateTxn.
Local Open Scope Z_scope.

(** ** Rollback *)

Lemma foldl_rev {A B} (f : A → B → B) u l : foldl (λ b a, f a b) u (rev l) = foldr f u l.
Proof. induction l as [|x l IH]; [done|]. simpl. by rewrite foldl_app, IH. Qed.

Lemma rollbacks_spec l w : (∀ p r, (p, r) ∈ l → is_Some (heap w !! p)) →
  wp (wfor l do_rollback) w (λ _ w', w' = set_heap w (heap w') ∧
    ∀ p, heap w' !! p = (λ u, foldl (λ u r, run_rollback r u) u (proj p l)) <$> heap w !! p).
Proof.
  revert w. induction l as [|[p r] l IH]; intros w Hd.
  { apply uwp_ret. split; [by destruct w|]. intros p. simpl. by destruct (heap w !! p). }
  destruct (Hd p r) as [u E]; [by left|]. simpl. apply uwp_bind.
  exists (), (set_heap w (<[p := run_rollback r u]> (heap w))). split.
  { unfold wbind, deref. by rewrite E. }
  eapply uwp_mono; [apply IH|].
  - intros q x Hq. simpl. rewrite lookup_insert_is_Some'. right. eapply Hd. by right.
  - intros [] w' [Ew Hw]. split; [by rewrite Ew at 1|]. intros q. specialize (Hw q). rewrite Hw. simpl. destruct (decide (p = q)) as [<-|N].
    + rewrite lookup_insert_eq, E. simpl. by rewrite proj_cons, decide_True.
    + rewrite lookup_insert_ne by done. destruct (heap w !! q); [|done]. simpl. by rewrite proj_cons, decide_False.
Qed.

Definition cancelled (w w' : world) : Prop :=
  w' = mkWorld (heap w') (next w) (reg w) [] [] (ms w) (saved w) (now w) (log w) ∧
  ∀ p, heap w' !! p = (λ u, rollback_script (proj p (cancels w)) u) <$> heap w !! p.

Lemma cancelled_cell w w' p u' : uinv w → cancelled w w' → heap w' !! p = Some u' → ∃ u, heap w !! p = Some u ∧
  rolled_back (saved w) u (base_of w p u) u'.
Proof.
  intros I [_ H] E. rewrite H in E. apply fmap_Some in E as (u & E & ->). exists u. split; [done|]. pose proof (ui_cells w I p u E) as K.
  destruct (ck_cfg _ _ _ K) as [b C]. unfold base_of. rewrite <- (cfg_base _ _ _ _ _ _ C). by eapply rollback_cell; [|apply K].
Qed.

Lemma base_open w p u : uinv w → heap w !! p = Some u → ustate u ≠ stateCompleted → base_of w p u ≠ stateCompleted.
Proof.
  intros I E N Hb. destruct (ck_cfg _ _ _ (ui_cells w I p u E)) as [b C]. pose proof (cfg_base _ _ _ _ _ _ C) as Eb.
  destruct (terminal (ustate u)) eqn:Ht.
  - unfold base_of, base in Hb. rewrite Ht in Hb. done.
  - pose proof (cfg_base_open _ _ _ _ _ _ C Ht) as Hb'. unfold base_of in Hb. rewrite <- Eb in Hb. by rewrite Hb in Hb'.
Qed.

Lemma Cancel_spec w : uinv w → wp Cancel w (λ _ w', cancelled w w' ∧ uinv w' ∧ quiet w w').
Proof.
  intros I. apply (uwp_mono _ _ (λ _, cancelled w)).
  { apply uwp_bind, uwp_get. apply uwp_bind, uwp_mod. apply uwp_bind. eapply uwp_mono; [apply rollbacks_spec|].
    - intros p r Hin. apply list_elem_of_In, in_rev, list_elem_of_In in Hin. by apply (ui_cancels w I p r).
    - intros [] w1 [E1 H1]. apply uwp_mod. split; [rewrite E1; done|]. intros p. rewrite E1. simpl. rewrite H1. simpl.
      rewrite proj_rev. destruct (heap w !! p) as [u|]; [|done]. simpl. f_equal. apply foldl_rev. }
  intros [] w' Cw. split; [done|]. pose proof (λ p u', cancelled_cell w w' p u' I Cw) as Hc. destruct Cw as [Ew Hw].
  assert (∀ p, is_Some (heap w' !! p) ↔ is_Some (heap w !! p)) as Dom by (intros p; rewrite Hw; by rewrite fmap_is_Some).
  split.
  - rewrite Ew. constructor; simpl.
    + intros p u' E'. destruct (Hc p u' E') as (u & E & R). destruct (ui_cells w I p u E). constructor; simpl.
      * exists (ustate u'). rewrite (rb_state _ _ _ _ R). constructor. apply R.
      * by intros ? ? ? ?%not_elem_of_nil.
      * apply R.
      * by rewrite (rb_futures _ _ _ _ R).
      * unfold base_of. simpl. rewrite (cl_limits _ _ (rb_le _ _ _ _ R)). unfold base. rewrite (rb_state _ _ _ _ R).
        by case_match.
    + intros i p Hp. destruct (ui_map w I i p Hp) as (u & E & [Mi Mn Ms]). destruct (heap w' !! p) as [u'|] eqn:E'.
      2: { rewrite Hw, E in E'. done. }
      destruct (Hc p u' E') as (v & Ev & R). assert (v = u) as -> by congruence. exists u'. split; [done|]. destruct (rb_le _ _ _ _ R).
      constructor; [congruence|simpl; congruence|]. rewrite (rb_state _ _ _ _ R). by apply base_open.
    + intros p Hp%Dom. by apply (ui_fresh w I).
    + by intros ? ? ?%not_elem_of_nil.
    + by intros ? ? ?%not_elem_of_nil.
    + intros p e Hp. apply Dom. by apply (ui_log w I p e).
    + apply I.
  - constructor; [|exists []; rewrite app_nil_r; by rewrite Ew]. intros p u E.
    destruct (heap w' !! p) as [u'|] eqn:E'; [|rewrite Hw, E in E'; done]. destruct (Hc p u' E') as (v & Ev & R).
    assert (v = u) as -> by congruence. exists u'. split_and!; [done|apply R|]. rewrite Ew. unfold base_of at 1, base. simpl.
    rewrite (rb_state _ _ _ _ R). by case_match.
Qed.

(** ** Commit *)

Lemma run_commit_kept n c u u' l k : run_commit n c u = Some (u', l, k) → id u' = id u ∧ onComplete u' = onComplete u.
Proof.
  destruct u as [i st rq eid at_ oc lim acc out]. unfold run_commit, commit_admit, commit_accept, commit_reject, commit_respond, commit_abort, Set_accepted, Set_outcome. simpl.
  destruct c; repeat (case_match; simpl); intros Hr; destruct acc, out; simpl in Hr; by simplify_eq.
Qed.

(** The ids whose updates are completed by the closures in [l]. *)
Definition completes (w : world) (l : list (nat * commit)) (i : string) : Prop :=
  ∃ p u u' ev, heap w !! p = Some u ∧ id u = i ∧ commit_script (now w) (proj p l) u = Some (u', ev, true).

Record applied (l : list (nat * commit)) (w w' : world) (m m' : gmap string nat) (L : list (nat * fut_event)) : Prop := {
  ap_frame : ∃ n, w' = mkWorld (heap w') (next w) (mkRegistry (reg_no (reg w)) (Some m') n) (effects w) (cancels w) (ms w) (saved w) (now w) (log w ++ L);
  ap_cells : ∀ p u, heap w !! p = Some u → ∃ u' k, commit_script (now w) (proj p l) u = Some (u', proj p L, k) ∧ heap w' !! p = Some u';
  ap_dom : ∀ p, is_Some (heap w' !! p) → is_Some (heap w !! p);
  ap_log : ∀ p e, (p, e) ∈ L → is_Some (heap w !! p);
  ap_map : ∀ i q, m' !! i = Some q ↔ m !! i = Some q ∧ ¬ completes w l i }.

(** What the loop needs of the closures that are left. *)
Record applicable (l : list (nat * commit)) (w : world) : Prop := {
  al_dom : ∀ p c, (p, c) ∈ l → is_Some (heap w !! p);
  al_runs : ∀ p u, heap w !! p = Some u → ∃ u' ev k, commit_script (now w) (proj p l) u = Some (u', ev, k) ∧
    (k = true → onComplete u = Some (reg_no (reg w))) }.

(** One closure. *)
Definition committed_world (w : world) (p : nat) (u : Update) (l : list fut_event) (m : gmap string nat) (n : Z) : world :=
  mkWorld (<[p := u]> (heap w)) (next w) (mkRegistry (reg_no (reg w)) (Some m) n) (effects w) (cancels w) (ms w) (saved w) (now w) (log w ++ map (pair p) l).
Lemma do_commit_eq w p c u u' l k m : heap w !! p = Some u → updates (reg w) = Some m → run_commit (now w) c u = Some (u', l, k) →
  (k = true → onComplete u' = Some (reg_no (reg w))) →
  ∃ n, do_commit (p, c) w = Some ((), committed_world w p u' l (if k : bool then delete (id u') m else m) n).
Proof.
  intros E Em Er Hk. unfold do_commit, wbind at 1, deref. rewrite E. simpl. unfold wbind at 1, wget. simpl. rewrite Er.
  unfold wbind, write, wmod. simpl. destruct k.
  - unfold call_onComplete. rewrite Hk by done. edestruct (remover_eq (add_log (set_heap w (<[p := u']> (heap w))) p l) (id u') m) as [n Hn]; [done|].
    exists n. exact Hn.
  - exists (completedCount (reg w)). unfold committed_world, wret, add_log, set_heap. simpl. destruct w as [? ? [? ? ?]]. simpl in *. by subst.
Qed.

Lemma completes_cons w p c l u u1 l1 k1 m n i : heap w !! p = Some u → run_commit (now w) c u = Some (u1, l1, k1) →
  (∃ x, commit_script (now w) (proj p l) u1 = Some x) →
  completes w ((p, c) :: l) i ↔ k1 = true ∧ id u = i ∨ completes (committed_world w p u1 l1 m n) l i.
Proof.
  intros E E1 [[[u2 l2] k2] E2]. destruct (run_commit_kept _ _ _ _ _ _ E1) as [Hid _].
  assert (commit_script (now w) (proj p ((p, c) :: l)) u = Some (u2, l1 ++ l2, k1 || k2)) as Es.
  { rewrite proj_cons, decide_True by done. simpl. rewrite E1. simpl. by rewrite E2. }
  split.
  - intros (q & v & v' & ev & Hv & Hi & Hs). destruct (decide (p = q)) as [<-|N].
    + assert (v = u) as -> by congruence. rewrite Es in Hs. destruct k1; [by left|right]. simpl in Hs. simplify_eq.
      exists p, u1, v', l2. simpl. rewrite lookup_insert_eq. done.
    + right. exists q, v, v', ev. simpl. rewrite lookup_insert_ne by done. by rewrite proj_cons, decide_False in Hs.
  - intros [[-> <-]|(q & v & v' & ev & Hv & Hi & Hs)]; [by eexists p, u, _, _|]. simpl in Hv, Hs.
    apply lookup_insert_Some in Hv as [[<- <-]|[N Hv]].
    + rewrite E2 in Hs. simplify_eq. eexists p, u, _, _. split_and!; [done|done|]. rewrite Es. by rewrite orb_true_r.
    + exists q, v, v', ev. split_and!; [done..|]. by rewrite proj_cons, decide_False.
Qed.

Lemma apply_all l w m : updates (reg w) = Some m → applicable l w → wp (wfor l do_commit) w (λ _ w', ∃ m' L, applied l w w' m m' L).
Proof.
  revert w m. induction l as [|[p c] l IH]; intros w m Em A.
  { apply uwp_ret. exists m, []. constructor.
    - exists (completedCount (reg w)). rewrite app_nil_r. destruct w as [? ? [? ? ?]]. simpl in *. by subst.
    - intros p u E. by exists u, false.
    - done.
    - by intros ? ? ?%not_elem_of_nil.
    - intros i q. split; [|tauto]. intros. split; [done|]. by intros (? & ? & ? & ? & ? & ? & ?). }
  destruct (al_dom _ _ A p c) as [u E]; [by left|]. destruct (al_runs _ _ A p u E) as (u2 & ev & k & Hs & Hk).
  rewrite proj_cons, decide_True in Hs by done. simpl in Hs.
  destruct (run_commit (now w) c u) as [[[u1 l1] k1]|] eqn:E1; [simpl in Hs|done].
  destruct (commit_script (now w) (proj p l) u1) as [[[u2' l2] k2]|] eqn:E2; [simpl in Hs|done]. simplify_eq.
  destruct (run_commit_kept _ _ _ _ _ _ E1) as [Hid Hoc].
  destruct (do_commit_eq w p c u u1 l1 k1 m E Em E1) as [n Hn]. { intros ->. rewrite Hoc. by apply Hk. }
  simpl. apply uwp_bind. eexists _, _. split; [done|].
  set (m1 := if k1 then delete (id u1) m else m) in *. set (w1 := committed_world w p u1 l1 m1 n) in *.
  eapply uwp_mono; [apply (IH w1 m1); [done|]|].
  - constructor.
    + intros q x Hq. simpl. rewrite lookup_insert_is_Some'. right. apply (al_dom _ _ A q x). by right.
    + intros q v Hv. simpl in Hv. apply lookup_insert_Some in Hv as [[<- <-]|[N Hv]].
      * eexists _, _, _. split; [exact E2|]. intros ->. simpl. rewrite Hoc. apply Hk. by rewrite orb_true_r.
      * destruct (al_runs _ _ A q v Hv) as (v' & ev & k & Hvs & Hvk). rewrite proj_cons, decide_False in Hvs by done. eauto.
  - intros [] w' (m' & L & [[n' F] C D G M]). exists m', (map (pair p) l1 ++ L). constructor.
    + exists n'. rewrite F at 1. simpl. by rewrite app_assoc.
    + intros q v Hv. destruct (decide (p = q)) as [<-|N].
      * assert (v = u) as -> by congruence. destruct (C p u1) as (u' & k & Hu' & Hw'); [apply lookup_insert_eq|].
        exists u', (k1 || k). split; [|done]. simpl in Hu'. rewrite proj_cons, decide_True by done. simpl. rewrite E1. simpl. rewrite Hu'. simpl.
        by rewrite proj_app, proj_map_same.
      * destruct (C q v) as (v' & k & Hv' & Hw'); [simpl; by rewrite lookup_insert_ne|]. exists v', k. split; [|done].
        by rewrite proj_cons, decide_False, proj_app, proj_map_other by done.
    + intros q Hq%D. simpl in Hq. apply lookup_insert_is_Some' in Hq as [<-|?]; [eauto|done].
    + intros q e [Hq|Hq%G]%elem_of_app; [apply list_elem_of_fmap in Hq as (x & [= -> ->] & _); eauto|].
      simpl in Hq. apply lookup_insert_is_Some' in Hq as [<-|?]; [eauto|done].
    + intros i q. rewrite M, (completes_cons w p c l u u1 l1 k1 m1 n i E E1) by eauto. unfold m1. destruct k1; [|naive_solver].
      rewrite lookup_delete_Some, Hid. naive_solver.
Qed.

(** What any step does to the updates that exist: futures are completed at most once and an acceptance never ahead of a result, and the
    stage follows the life cycle. *)
Record advances (w w' : world) : Prop := {
  ad_cells : ∀ p u, heap w !! p = Some u → ∃ u', heap w' !! p = Some u' ∧ cell_le u u' ∧ rtc life (base_of w p u) (base_of w' p u');
  ad_log : ∃ l, log w' = log w ++ l ∧ ∀ p u, heap w !! p = Some u → in_order (proj p l) }.
Lemma evolves_advances w w' : evolves w w' → advances w w'.
Proof. intros [C (l & E & H)]. constructor; [done|]. exists l. split; [done|]. intros. by eapply in_order_no_accept, H. Qed.

Lemma inv_persist w : uinv w → live w → uinv (set_saved w (ms w)) ∧ live (set_saved w (ms w)).
Proof.
  intros I L. split.
  - constructor; simpl; try apply I; [| |apply L].
    + intros p u E. destruct (ui_cells w I p u E). constructor; try done. simpl. by eapply told_extends; [apply L|].
    + intros i p Hp. destruct (ui_map w I i p Hp) as (u & E & []). by exists u.
  - by destruct L.
Qed.

(** Where the closures of an update find it. *)
Lemma commit_cell_at w p u : uinv w → live w → saved w = ms w → heap w !! p = Some u → ∃ u' l k,
  commit_script (now w) (proj p (effects w)) u = Some (u', l, k) ∧ committed (ms w) u (proj p (effects w)) (base_of w p u) u' l k ∧
  (k = true → onComplete u = Some (reg_no (reg w))).
Proof.
  intros I L Es E. pose proof (ui_cells w I p u E) as K. destruct (ck_cfg _ _ _ K) as [b C].
  assert (proj p (effects w) = [] ∨ ustate u = stateAborted ∨ registry_map (reg w) !! id u = Some p) as Hr.
  { destruct (proj p (effects w)) eqn:Ep; [by left|right]. apply (lv_registered w L); [done|congruence]. }
  destruct (commit_cell (now w) (ms w) u (proj p (effects w)) (proj p (cancels w)) b) as (u' & l & k & Hs & Hc).
  - done.
  - apply K.
  - rewrite <- Es. apply K.
  - destruct Hr as [?|[?|R]]; [by left|by right; left|right]. by eapply lv_linked.
  - exists u', l, k. split_and!; [done| |].
    + rewrite (cfg_base _ _ _ _ _ _ C) in Hc. exact Hc.
    + intros ->. destruct Hr as [Ep|[Ha|R]].
      * rewrite Ep in Hs. done.
      * by rewrite commit_script_aborted in Hs.
      * destruct (ui_map w I _ _ R) as (v & Hv & [_ Mn _]). congruence.
Qed.

Lemma Apply_applied w : uinv w → live w → saved w = ms w →
  wp Apply w (λ _ w', ∃ m m' L w1, updates (reg w) = Some m ∧ applied (effects w) (set_buffer w (effects w) []) w1 m m' L ∧ w' = set_buffer w1 [] (cancels w1)).
Proof.
  intros I L Es. destruct (lv_updates w L) as [m Em]. apply uwp_bind, uwp_get. apply uwp_bind, uwp_mod. apply uwp_bind.
  eapply uwp_mono; [apply (apply_all _ _ m); [done|]|].
  - constructor; [apply I|]. intros p u E. destruct (commit_cell_at w p u I L Es E) as (u' & l & k & Hs & _ & Hk). by exists u', l, k.
  - intros [] w1 (m' & Lg & A). apply uwp_mod. by exists m, m', Lg, w1.
Qed.

(** The world after all closures ran. *)
Section after.
Context (w w1 : world) (m m' : gmap string nat) (Lg : list (nat * fut_event)).
Context (I : uinv w) (L : live w) (Es : saved w = ms w) (Em : updates (reg w) = Some m).
Context (A : applied (effects w) (set_buffer w (effects w) []) w1 m m' Lg).
Let w' := set_buffer w1 [] (cancels w1).

Lemma applied_cell p u u' : heap w !! p = Some u → heap w1 !! p = Some u' →
  ∃ k, committed (ms w) u (proj p (effects w)) (base_of w p u) u' (proj p Lg) k ∧
  (k = true → completes (set_buffer w (effects w) []) (effects w) (id u)) ∧ (ustate u = stateAborted → u' = u).
Proof using All.
  intros E E'. destruct (commit_cell_at w p u I L Es E) as (v & l & k & Hs & Hc & _).
  destruct (ap_cells _ _ _ _ _ _ A p u E) as (v' & k' & Hs' & Hv'). simpl in Hs'. simplify_eq. exists k. split_and!; [done| |].
  - intros ->. by eexists p, u, _, _.
  - intros Ha. rewrite commit_script_aborted in Hs by done. by simplify_eq.
Qed.
Lemma applied_dom p : is_Some (heap w !! p) → is_Some (heap w1 !! p).
Proof using All. intros [u E]. destruct (ap_cells _ _ _ _ _ _ A p u E) as (u' & k & _ & ?). eauto. Qed.
Lemma applied_before p u' : heap w1 !! p = Some u' → is_Some (heap w !! p).
Proof using All. intros E'. apply (ap_dom _ _ _ _ _ _ A). eauto. Qed.
Lemma applied_map : registry_map (reg w) = m.
Proof using All. unfold registry_map. by rewrite Em. Qed.

Lemma applied_registered i p : m' !! i = Some p → ∃ u u', heap w !! p = Some u ∧ heap w1 !! p = Some u' ∧ map_ok w i u ∧ cell_le u u' ∧
  ustate u' ≠ stateCompleted ∧ (ustate u' = stateAborted ∨ linked (ms w) i [] (Ready (accepted u'))).
Proof using All.
  intros [Hi Nc]%(ap_map _ _ _ _ _ _ A). assert (registry_map (reg w) !! i = Some p) as Hr by (by rewrite applied_map).
  destruct (ui_map w I i p Hr) as (u & E & Mo). destruct (applied_dom p) as [u' E']; [eauto|]. exists u, u'.
  destruct (applied_cell p u u' E E') as (k & K & Hk & Ha). destruct Mo as [Mi Mn Ms]. subst i.
  assert (ustate u' ≠ stateCompleted) as Nu. { intros Hu. apply Nc, Hk. by apply K. }
  split_and!; [done..|apply K|done|]. destruct (lv_linked w L _ _ _ Hr E) as [Hu|Lk]; [left; by rewrite Ha|].
  destruct (terminal (ustate u')) eqn:Ht; [left|right; by apply K]. apply bool_decide_eq_true in Ht as [?|?]; done.
Qed.

Lemma inv_applied : uinv w'.
Proof using All.
  destruct (ap_frame _ _ _ _ _ _ A) as [n F]. unfold w'. rewrite F. constructor; simpl.
  - intros p u' E'. destruct (applied_before p u' E') as [u E]. destruct (applied_cell p u u' E E') as (k & K & _).
    pose proof (ui_cells w I p u E) as Ko. constructor; simpl.
    + exists (ustate u'). constructor. apply K.
    + by intros ? ? ? ?%not_elem_of_nil.
    + rewrite Es. apply K.
    + rewrite proj_app. eapply observed_app; [apply Ko|apply K].
    + unfold base_of. simpl. rewrite (cl_limits _ _ (cm_le _ _ _ _ _ _ _ K)). intros Hn Hb. apply (ck_limits _ _ _ Ko Hn), life_created.
      unfold base in Hb. replace stateCreated with (ustate u') by (by case_match). apply K.
  - unfold registry_map. simpl. intros i p Hi. destruct (applied_registered i p Hi) as (u & u' & E & E' & [Mi Mn Ms] & Le & Nc & _). exists u'.
    split; [done|]. constructor; simpl; rewrite ?(cl_onComplete _ _ Le), ?(cl_id _ _ Le); done.
  - intros p [u' E']. by eapply (ui_fresh w I), applied_before.
  - by intros ? ? ?%not_elem_of_nil.
  - by intros ? ? ?%not_elem_of_nil.
  - intros p e [Hp|Hp]%elem_of_app; apply applied_dom; [by apply (ui_log w I p e)|by eapply (ap_log _ _ _ _ _ _ A)].
  - apply I.
Qed.
Lemma live_applied : live w'.
Proof using All.
  destruct (ap_frame _ _ _ _ _ _ A) as [n F]. unfold w'. rewrite F. constructor; simpl; try apply L.
  - by eexists.
  - done.
  - unfold registry_map. simpl. intros i p u' Hi E'. destruct (applied_registered i p Hi) as (u & v & _ & Ev & _ & _ & _ & ?). by simplify_eq.
  - by rewrite Es.
Qed.
Lemma advances_applied : advances w w'.
Proof using All.
  destruct (ap_frame _ _ _ _ _ _ A) as [n F]. unfold w'. rewrite F. constructor; simpl.
  - intros p u E. destruct (applied_dom p) as [u' E']; [eauto|]. destruct (applied_cell p u u' E E') as (k & K & _).
    exists u'. split_and!; [done|apply K|]. unfold base_of at 2, base. simpl.
    replace (if terminal (ustate u') then ustate u' else ustate u') with (ustate u') by (by case_match). apply K.
  - exists Lg. split; [done|]. intros p u E. destruct (applied_dom p) as [u' E']; [eauto|]. destruct (applied_cell p u u' E E') as (k & K & _). apply K.
Qed.
End after.

Lemma Apply_spec w : uinv w → live w → saved w = ms w → wp Apply w (λ _ w', uinv w' ∧ live w' ∧ advances w w').
Proof.
  intros I L Es. eapply uwp_mono; [by apply Apply_applied|]. intros [] w' (m & m' & Lg & w1 & Em & A & ->).
  split_and!; [by eapply inv_applied|by eapply live_applied|by eapply advances_applied].
Qed.

(** ** Workflow updates: loading a workflow, and every step keeps the invariant *)

(** ** A fresh registry *)

(** What the loop over the stored updates keeps. *)
Record loading (w0 w : world) : Prop := {
  ld_moves : moves w0 w;
  ld_ms : ms w = ms w0;
  ld_saved : saved w = ms w0;
  ld_effects : effects w = [] }.
Lemma loading_trans w0 w1 w2 : loading w0 w1 → moves w1 w2 → ms w2 = ms w1 → saved w2 = saved w1 → effects w2 = effects w1 → loading w0 w2.
Proof. intros [] M E1 E2 E3. constructor; [by etrans|congruence..]. Qed.

Lemma count_spec w n : uinv w → live w → moves w (set_reg w (mkRegistry (reg_no (reg w)) (updates (reg w)) n)).
Proof.
  intros I L. apply moves_quiet.
  - constructor; simpl; try apply I.
    + intros p u E. by destruct (ui_cells w I p u E).
    + intros i p Hp. destruct (ui_map w I i p Hp) as (u & E & []). by exists u.
  - by destruct L.
  - by apply quiet_same.
Qed.

(** An accepted update that is loaded, and aborted if the workflow is closed. *)
Lemma load_accepted_spec w i e : uinv w → live w → effects w = [] → saved w = ms w → registry_map (reg w) !! i = None →
  UpdateInfos (ms w) !! i = Some (AcceptanceInfo e) →
  wp (let* p := alloc (newAccepted i e (Some (reg_no (reg w)))) in
      (if negb (IsWorkflowExecutionRunning (ms w)) then abort p AbortReasonWorkflowCompleted Immediate else wret ()) ;;* put i p) w
    (λ _ w', moves w w' ∧ ms w' = ms w ∧ saved w' = saved w ∧ effects w' = effects w ∧
      ∀ j, j ≠ i → registry_map (reg w') !! j = registry_map (reg w) !! j).
Proof.
  intros I L Ee Es Ni Hi. set (u := newAccepted i e (Some (reg_no (reg w)))).
  destruct (inv_alloc w u) as (I1 & Q1 & L1); [done|constructor| |done|].
  { constructor; simpl; [|done|done]. intros _. left. exists e. rewrite Es. by left. }
  specialize (L1 L). apply uwp_bind. exists (next w), (alloced w u). split; [done|]. apply uwp_bind.
  assert (heap (alloced w u) !! next w = Some u) as Hp by apply lookup_insert_eq.
  apply (uwp_mono _ _ (λ _ w', steady (alloced w u) w' ∧ ∃ u', heap w' !! next w = Some u' ∧ id u' = i ∧ onComplete u' = onComplete u ∧
    ustate u' ≠ stateCompleted ∧ (ustate u' = stateAborted ∨ Ready (accepted u') = true))).
  { case_match; [|apply uwp_ret; split; [by apply steady_refl|by exists u; split_and!; try done; right]].
    eapply uwp_mono; [by eapply abort_immediate_spec|]. intros [] w2 (I2 & Ev & F & L2 & (u' & E' & A) & _). split; [done|]. exists u'.
    split; [done|]. destruct A as [[-> Hf]|(f & er & Hf & _ & ->)]; split_and!; simpl; auto. }
  intros [] w2 [S2 (u' & E' & Hid & Hoc & Nc & Hl)]. destruct (sd_frame _ _ S2). simpl in *.
  pose proof (sd_live _ _ S2 L1) as L2. destruct (lv_updates w2 L2) as [m Em].
  exists (), (put_reg w2 m i (next w)). split; [unfold put; rewrite Em; done|].
  destruct (inv_put w2 m i (next w) u') as [I3 Q3]; [apply S2|done..|constructor; [done|rewrite Hoc, fr_reg; done|done]|].
  assert (registry_map (reg w) = m) as Er by (unfold registry_map; rewrite <- fr_reg, Em; done).
  split_and!; simpl; try done.
  - etrans; [by apply (moves_quiet _ (alloced w u))|]. etrans; [by eapply (steady_moves _ w2)|]. apply moves_quiet; [done| |done].
    eapply live_put; [done..|by rewrite <- Er|done|by rewrite fr_effects, Ee|]. destruct Hl as [?| ->]; [by right|left].
    unfold linked. simpl. rewrite fr_ms. eauto.
  - intros j N. rewrite Er. unfold registry_map. simpl. by rewrite lookup_insert_ne.
Qed.

Lemma visit_spec w0 w x : loading w0 w → registry_map (reg w) !! x.1 = None → UpdateInfos (ms w0) !! x.1 = Some x.2 →
  wp (visit x) w (λ _ w', loading w0 w' ∧ ∀ j, j ≠ x.1 → registry_map (reg w') !! j = registry_map (reg w) !! j).
Proof.
  intros Ld Ni Hi. destruct x as [i [e|e|e]]; simpl in *; pose proof (ld_moves _ _ Ld) as [I L _]; apply uwp_bind, uwp_get; simpl.
  - set (u := newAdmitted i None (Some (reg_no (reg w))) (now w)).
    destruct (inv_alloc w u) as (I1 & Q1 & L1); [done|constructor|by apply told_new|done|]. specialize (L1 L).
    destruct (lv_updates w L) as [m Em]. apply uwp_bind. exists (next w), (alloced w u). split; [done|].
    exists (), (put_reg (alloced w u) m i (next w)). split; [unfold put; simpl; by rewrite Em|].
    assert (heap (alloced w u) !! next w = Some u) as Hp by apply lookup_insert_eq.
    destruct (inv_put (alloced w u) m i (next w) u) as [I2 Q2]; [done..|].
    assert (registry_map (reg w) = m) as Er by (unfold registry_map; by rewrite Em). split.
    + eapply loading_trans; [done| |done..]. etrans; [by apply (moves_quiet _ (alloced w u))|]. apply moves_quiet; [done| |done].
      eapply live_put; [done..|by rewrite <- Er|done|simpl; by rewrite (ld_effects _ _ Ld)|]. left. unfold linked. simpl.
      by rewrite (ld_ms _ _ Ld), Hi.
    + intros j N. rewrite Er. unfold registry_map. simpl. by rewrite lookup_insert_ne.
  - eapply uwp_mono; [apply load_accepted_spec|]; try done.
    + apply Ld.
    + by rewrite (ld_saved _ _ Ld), (ld_ms _ _ Ld).
    + by rewrite (ld_ms _ _ Ld).
    + intros [] w' (M & E1 & E2 & E3 & Hj). split; [by eapply loading_trans|done].
  - apply uwp_mod. split; [|done]. eapply loading_trans; [done|by apply count_spec|done..].
Qed.

Lemma NewRegistry_spec w : uinv w → effects w = [] → cancels w = [] → saved w = ms w →
  wp NewRegistry w (λ _ w', uinv w' ∧ live w' ∧ evolves w w').
Proof.
  intros I Ee Ec Es. apply uwp_bind, uwp_mod. set (w0 := set_reg w (mkRegistry (S (reg_no (reg w))) (Some ∅) 0)).
  assert (uinv w0) as I0.
  { constructor; simpl; try apply I.
    - intros p u E. by destruct (ui_cells w I p u E).
    - unfold registry_map. simpl. intros i p Hi. by rewrite lookup_empty in Hi. }
  assert (live w0) as L0.
  { constructor; simpl; rewrite ?Ee, ?Es; try done. rewrite <- Es. apply I. }
  assert (evolves w w0) as V0.
  { by apply quiet_evolves, quiet_same. }
  apply uwp_bind, uwp_get. eapply (uwp_mono _ _ (λ _, loading w0)).
  - apply (uwp_for_each _ (λ x w, registry_map (reg w) !! x.1 = None)).
    + unfold VisitUpdates. rewrite merge_sort_Permutation. apply NoDup_map_to_list.
    + by constructor.
    + intros x _. unfold registry_map. simpl. apply lookup_empty.
    + intros x w1 Hx Ld Nx. unfold VisitUpdates in *. rewrite merge_sort_Permutation in Hx. destruct x as [i v]. apply elem_of_map_to_list in Hx.
      eapply uwp_mono; [by apply (visit_spec w0)|]. intros [] w2 [Ld2 Hj]. split; [done|]. intros [j v'] Hy N Ny.
      rewrite merge_sort_Permutation in Hy. apply elem_of_map_to_list in Hy. rewrite Hj; [done|]. simpl. intros ->. congruence.
  - intros [] w' [[I' L' V'] _ _ _]. split_and!; [done..|by etrans].
Qed.

(** ** Leaving a transaction *)

Record leaves (w w' : world) : Prop := {
  lf_inv : uinv w'; lf_evolves : evolves w w'; lf_effects : effects w' = effects w; lf_cancels : cancels w' = cancels w; lf_saved : saved w' = saved w }.
Lemma steady_leaves w w' : steady w w' → leaves w w'.
Proof. intros [I V F _]. destruct F. by constructor. Qed.

Lemma Clear_spec w : uinv w → wp Clear w (λ _ w', leaves w w' ∧ ended AbortReasonRegistryCleared (registered w) w w').
Proof.
  intros I. apply uwp_bind. eapply uwp_mono; [by apply Abort_spec|]. intros [] w1 [S En]. apply uwp_mod.
  destruct (steady_leaves _ _ S) as [I1 V1 E1 E2 E3]. split; [|done]. constructor; try done.
  - constructor; simpl; try apply I1.
    + intros p u E. by destruct (ui_cells w1 I1 p u E).
    + unfold registry_map. simpl. intros i p Hi. by rewrite lookup_empty in Hi.
  - etrans; [done|]. by apply quiet_evolves, quiet_same.
Qed.

Lemma reload_spec w : uinv w → effects w = [] → cancels w = [] → wp reload w (λ _ w', uinv w' ∧ live w' ∧ evolves w w').
Proof.
  intros I Ee Ec. apply uwp_bind, uwp_mod. set (w1 := set_ms w (saved w)).
  assert (uinv w1) as I1.
  { constructor; simpl; try apply I.
    - intros p u E. by destruct (ui_cells w I p u E).
    - intros i p Hp. destruct (ui_map w I i p Hp) as (u & E & []). by exists u. }
  eapply uwp_mono; [by apply NewRegistry_spec|]. intros [] w2 (I2 & L2 & V2). split_and!; [done..|].
  etrans; [|done]. by apply quiet_evolves, quiet_same.
Qed.

(** Every path that gives a transaction up ends with [reload]. *)
Lemma leave_spec w w1 : evolves w w1 → uinv w1 → effects w1 = [] → cancels w1 = [] → wp reload w1 (λ _ w', uinv w' ∧ live w' ∧ advances w w').
Proof.
  intros V I Ee Ec. eapply uwp_mono; [by apply reload_spec|]. intros [] w' (I' & L' & V'). split_and!; [done..|].
  apply evolves_advances. by etrans.
Qed.
Lemma cancelled_buffers w w' : cancelled w w' → effects w' = [] ∧ cancels w' = [].
Proof. intros [-> _]. done. Qed.

Lemma same_updates w w' : heap w' = heap w → next w' = next w → reg w' = reg w → effects w' = effects w → cancels w' = cancels w →
  saved w' = saved w → log w' = log w → UpdateInfos (ms w') = UpdateInfos (ms w) → completions (ms w') = completions (ms w) →
  nextEventID (ms w') = nextEventID (ms w) → uinv w → live w → moves w w'.
Proof.
  destruct w as [h n r e c [x y z t] sv nw lg], w' as [h' n' r' e' c' [x' y' z' t'] sv' nw' lg']. simpl. intros. subst.
  rename select (uinv _) into I. rename select (live _) into L. apply moves_quiet.
  - constructor; simpl; try apply I; simpl.
    + intros p u E. by destruct (ui_cells _ I p u E).
    + intros i p Hp. destruct (ui_map _ I i p Hp) as (u & E & []). by exists u.
  - destruct L as [L1 L2 L3 L4 [L5 L5'] [L6 L6']]. constructor; try done; by constructor.
  - by apply quiet_same.
Qed.

Section machine.
Context (requestSize : Request → Z) (failureSize : Failure → Z) (outcomeSize : Outcome → Z).
Context (maxTotal maxInFlightUpdateCount maxInFlightUpdateSize : Z).
Notation exec := (exec requestSize failureSize outcomeSize maxTotal maxInFlightUpdateCount maxInFlightUpdateSize).

(** Every operation returns and keeps the invariant. *)
Lemma exec_spec w o : uinv w → live w → wp (exec o) w (λ _ w', uinv w' ∧ live w' ∧ advances w w').
Proof.
  intros I L.
  assert (∀ w', moves w w' → uinv w' ∧ live w' ∧ advances w w') as Hm by (intros w' []; split_and!; [done..|by apply evolves_advances]).
  assert (∀ w', buffers w w' → uinv w' ∧ live w' ∧ advances w w') as Hb by (intros w' []; by apply Hm, moves_quiet).
  assert (∀ w1, leaves w w1 → effects w1 = [] → cancels w1 = [] → wp reload w1 (λ _ w', uinv w' ∧ live w' ∧ advances w w')) as Hr
    by (intros w1 []; by apply leave_spec).
  destruct o; simpl.
  - apply uwp_bind. eapply uwp_mono; [by apply ApplyRequest_spec|]. intros ? w1 H. by apply uwp_ret, Hm.
  - apply uwp_bind. eapply uwp_mono; [by apply Find_spec|]. intros ? w1 [H _]. by apply uwp_ret, Hb.
  - apply uwp_bind. eapply uwp_mono; [by apply handleMessage_spec|]. intros ? w1 (? & ? & ?). by apply uwp_ret, Hm, moves_quiet.
  - eapply uwp_mono; [by apply RejectUnprocessed_spec|]. intros ? w1. apply Hb.
  - eapply uwp_mono; [by apply AbortAccepted_spec|]. intros ? w1. apply Hb.
  - apply uwp_bind. eapply uwp_mono; [by apply registry_Send_spec|]. intros ? w1 H. apply uwp_ret, Hm. by apply steady_moves.
  - eapply uwp_mono; [by apply Abort_spec|]. intros ? w1 [H _]. apply Hm. by apply steady_moves.
  - apply uwp_mod, Hm. by apply same_updates.
  - apply uwp_bind, uwp_mod. destruct (inv_persist w I L) as [I1 L1]. eapply uwp_mono; [by apply Apply_spec|].
    intros ? w1 (? & ? & []). done.
  - apply uwp_bind. eapply uwp_mono; [by apply Cancel_spec|]. intros [] w1 (C1%cancelled_buffers & I1 & Q1%quiet_evolves). apply uwp_bind.
    eapply uwp_mono; [by apply Abort_spec|]. intros [] w2 [S2%steady_leaves _]. apply uwp_bind.
    eapply uwp_mono; [apply Clear_spec, S2|]. intros [] w3 [L3 _]. apply leave_spec; destruct C1, S2, L3; try congruence.
    etrans; [done|]. by etrans.
  - assert (∀ w0, uinv w0 → evolves w w0 → wp (Clear ;;* Cancel ;;* reload) w0 (λ _ w', uinv w' ∧ live w' ∧ advances w w')) as Hc.
    { intros w0 I0 V0. apply uwp_bind. eapply uwp_mono; [by apply Clear_spec|]. intros [] w1 [L1 _]. apply uwp_bind.
      eapply uwp_mono; [apply Cancel_spec, L1|]. intros [] w2 (C2%cancelled_buffers & I2 & Q2%quiet_evolves).
      apply leave_spec; destruct C2, L1; try done. etrans; [done|]. by etrans. }
    apply uwp_bind. match goal with b : bool |- _ => destruct b end.
    + apply uwp_mod. destruct (inv_persist w I L) as [I1 L1]. apply Hc; [done|]. by apply quiet_evolves, quiet_same.
    + apply uwp_ret. by apply Hc.
  - apply uwp_bind. eapply uwp_mono; [by apply Cancel_spec|]. intros [] w1 (C1%cancelled_buffers & I1 & Q1%quiet_evolves). apply uwp_bind.
    eapply uwp_mono; [by apply Clear_spec|]. intros [] w3 [L3 _]. apply leave_spec; destruct C1, L3; try congruence. by etrans.
  - apply uwp_mod, Hm. by apply same_updates.
Qed.
End machine.
