(* ===== verification/UpdateProps.v ===== *)
(** * Workflow updates: what a client can rely on *)
From S2P Require Import Prelude UpdateState UpdateMachine UpdateScript UpdateInv UpdateTxn UpdateCommit.
Local Open Scope Z_scope.

Section machine.
Context (requestSize : Request → Z) (failureSize : Failure → Z) (outcomeSize : Outcome → Z).
Context (maxTotal maxInFlightUpdateCount maxInFlightUpdateSize : Z).
Notation exec := (exec requestSize failureSize outcomeSize maxTotal maxInFlightUpdateCount maxInFlightUpdateSize).
Notation update_run := (update_run requestSize failureSize outcomeSize maxTotal maxInFlightUpdateCount maxInFlightUpdateSize).

(** ** Runs *)

Lemma load_spec m : ms_ok m → ∃ w, load m = Some w ∧ uinv w ∧ live w.
Proof.
  intros M. set (w0 := mkWorld ∅ 0 (mkRegistry 0 (Some ∅) 0) [] [] m m 0 []).
  assert (uinv w0) as I0 by (constructor; simpl; try done; try (by intros ? ? ?%not_elem_of_nil); by intros p [u E]).
  destruct (NewRegistry_spec w0) as ([] & w & E & I & L & _); [done..|]. exists w. split_and!; [|done..]. unfold load. fold w0. by rewrite E.
Qed.
Lemma run_inv m w : ms_ok m → update_run m w → uinv w ∧ live w.
Proof.
  intros M. induction 1 as [w E|w o w' R [I L] E].
  - destruct (load_spec m M) as (w1 & E1 & ? & ?). by simplify_eq.
  - by destruct (uwp_some _ _ _ _ _ E (exec_spec _ _ _ _ _ _ w o I L)) as (? & ? & _).
Qed.

Definition step (w w' : world) : Prop := ∃ o, exec o w = Some ((), w').

Lemma steps_run m w w' : update_run m w → rtc step w w' → update_run m w'.
Proof. intros R. induction 1 as [|w w1 w2 [o E] _ IH]; [done|]. apply IH. by eapply ur_step. Qed.
Lemma step_advances m w w' : ms_ok m → update_run m w → step w w' → advances w w'.
Proof. intros M R [o E]. destruct (run_inv m w M R) as [I L]. by destruct (uwp_some _ _ _ _ _ E (exec_spec _ _ _ _ _ _ w o I L)) as (_ & _ & ?). Qed.

(** Over many steps: updates stay, and the log only grows. *)
Lemma steps_cells m w w' : ms_ok m → update_run m w → rtc step w w' →
  (∀ p u, heap w !! p = Some u → ∃ u', heap w' !! p = Some u' ∧ cell_le u u') ∧ log w `prefix_of` log w'.
Proof.
  intros M R. induction 1 as [w|w w1 w2 S _ IH]; [split; [intros p u E; by exists u|done]|].
  destruct (step_advances m w w1 M R S) as [C (l & E & _)]. destruct IH as [IC IL].
  { destruct S as [o S]. by eapply ur_step. }
  split.
  - intros p u Eu. destruct (C p u Eu) as (u1 & E1 & Le1 & _). destruct (IC p u1 E1) as (u2 & E2 & Le2). exists u2. split; [done|by etrans].
  - etrans; [|done]. exists l. done.
Qed.

(** ** What a waiter reads *)

Lemma obs_kept l f : (∀ x, f.1 = Some x → (foldl obs_step f l).1 = Some x) ∧ (∀ x, f.2 = Some x → (foldl obs_step f l).2 = Some x).
Proof.
  revert f. induction l as [|e l IH]; intros f; [done|]. simpl. destruct (IH (obs_step f e)) as [H1 H2].
  destruct f as [a o], e; simpl in *; split; intros x ->; auto.
Qed.
Lemma observed_prefix p (L1 L2 : list (nat * fut_event)) : L1 `prefix_of` L2 →
  (∀ x, (observed (proj p L1)).1 = Some x → (observed (proj p L2)).1 = Some x) ∧ (∀ x, (observed (proj p L1)).2 = Some x → (observed (proj p L2)).2 = Some x).
Proof. intros [k ->]. rewrite proj_app. unfold observed. rewrite foldl_app. apply obs_kept. Qed.

(** A goroutine that got an update in [w0] and waits: what it reads at three moments, the last of them during the step to [w] or
    before. *)
Record waiter (m : mutableState) (w0 w : world) (p : nat) (o1 : future (option Outcome)) (a : future (option Failure)) (o2 : future (option Outcome)) : Prop := {
  wt_run : update_run m w0;
  wt_steps : rtc step w0 w;
  wt_got : is_Some (heap w0 !! p);
  wt_reads : ∃ L1 L2 L3, log w0 `prefix_of` L1 ∧ L1 `prefix_of` L2 ∧ L2 `prefix_of` L3 ∧ L3 `prefix_of` log w ∧
    o1 = (observed (proj p L1)).2 ∧ a = (observed (proj p L2)).1 ∧ o2 = (observed (proj p L3)).2 }.

(** A read of a pending future returns once the context is done; contexts have errors of their own. *)
Definition context_done {T} (f : future T) (c : contexts) : Prop := f = None → is_Some (stCtxErr c).
Definition context_errors (c : contexts) : Prop := ctxErr c ≠ Some UpdateNotCompleted ∧ stCtxErr c ≠ Some UpdateNotCompleted.

(** What is behind an answer. *)
Definition justified (m : mutableState) (u : Update) (s : Status) : Prop :=
  match status_stage s with
  | StageAdmitted => True
  | StageAccepted => durable_accepted m (id u) ∨ outcome u = Some (Some (OutcomeFailure None), None)
  | StageCompleted => ∃ o, status_outcome s = Some o ∧
      (durable_completed m (id u) o ∨ (∃ f, accepted u = Some (f, None) ∧ o = OutcomeFailure f) ∨
       ustate u = stateAborted ∧ o = OutcomeFailure (Some acceptedUpdateCompletedWorkflowFailure))
  | StageUnspecified => False
  end.

Lemma wait_accepted_told m u waitStage err a o2 c2 s : told m u → (∀ x, a = Some x → accepted u = Some x) → (∀ x, o2 = Some x → outcome u = Some x) →
  (∀ v, outcome u ≠ Some (v, Some UpdateNotCompleted)) → context_done a c2 →
  wait_accepted waitStage err a o2 c2 = inl s → justified m u s.
Proof.
  intros T Ha Ho Nu Hd. unfold wait_accepted.
  assert (∀ e, after_accepted e = inl s → justified m u s) as Hk by (intros e; unfold after_accepted; case_match; by intros [= <-]).
  case_match; [|apply Hk]. unfold future_Get. destruct a as [[f e]|].
  - specialize (Ha _ eq_refl). destruct e as [e|]; [destruct f; repeat (case_match; try done); apply Hk|]. destruct f as [f|].
    + intros [= <-]. exists (OutcomeFailure (Some f)). split; [done|]. right; left. by exists (Some f).
    + assert (justified m u statusAccepted) as J by (destruct (told_accepted _ _ T Ha) as [?|[?|[v ?]]]; [by left|by right|by destruct (Nu v)]).
      destruct o2 as [[v [e2|]]|]; intros [= <-]; [done| |done]. destruct (told_outcome _ _ T v) as (o & -> & Ht); [by apply Ho|]. by exists o.
  - destruct (Hd eq_refl) as [e ->]. repeat (case_match; try done); apply Hk.
Qed.

(** C8 No sequence of requests, worker messages, commits, rollbacks, failed writes and reloads makes the update code panic: a workflow can be
    loaded, and from every state it can get into every operation returns.  In particular no future is completed twice, nothing is
    written to the nil map of a cleared registry, and the limit check of an update that has none is not
    called. *)
Theorem updates_never_panic m (M : ms_ok m) : (∃ w, load m = Some w) ∧ ∀ w o, update_run m w → ∃ w', exec o w = Some ((), w').
Proof.
  split.
  - destruct (load_spec m M) as (w & E & _). by exists w.
  - intros w o R. destruct (run_inv m w M R) as [I L]. destruct (exec_spec requestSize failureSize outcomeSize maxTotal maxInFlightUpdateCount
      maxInFlightUpdateSize w o I L) as ([] & w' & E & _). by exists w'.
Qed.

(** C7 What [WaitLifecycleStage] answers is backed by the database, however its reads of the two futures interleave with commits, aborts and
    reloads: an answer that the update is accepted means that the acceptance is durable (or that it was rejected without a
    failure); an outcome is the durable one, the failure it was rejected with, or the failure that
    tells that the workflow completed first. *)
Theorem update_wait_sound m w0 w p o1 c1 a o2 c2 waitStage s (M : ms_ok m) : waiter m w0 w p o1 a o2 →
  context_done o1 c1 → context_done a c2 → context_errors c1 →
  WaitLifecycleStage waitStage o1 c1 a o2 c2 = inl s → ∃ u, heap w !! p = Some u ∧ justified (saved w) u s.
Proof.
  intros [R S [u0 E0] (L1 & L2 & L3 & P0 & P1 & P2 & P3 & -> & -> & ->)] D1 D2 [N1 N2] H.
  destruct (steps_cells m w0 w M R S) as [C _]. destruct (C p u0 E0) as (u & E & Le).
  destruct (run_inv m w M (steps_run m w0 w R S)) as [I _]. destruct (run_inv m w0 M R) as [I0 _].
  pose proof (ui_cells w I p u E) as K. pose proof (ck_log _ _ _ K) as Kl. pose proof (ck_log _ _ _ (ui_cells w0 I0 p u0 E0)) as Kl0.
  exists u. split; [done|].
  assert (∀ x, (observed (proj p L3)).2 = Some x → outcome u = Some x) as Ho3 by (intros x Hx%(observed_prefix p L3 (log w)); [by rewrite Kl in Hx|done]).
  assert (∀ x, (observed (proj p L2)).1 = Some x → accepted u = Some x) as Ha by (intros x Hx%(observed_prefix p L2 (log w)); [by rewrite Kl in Hx|by etrans]).
  assert (∀ x, (observed (proj p L1)).2 = Some x → outcome u = Some x) as Ho1.
  { intros x Hx%(observed_prefix p L1 (log w)); [by rewrite Kl in Hx|]. etrans; [done|]. by etrans. }
  assert (∀ v, outcome u = Some (v, Some UpdateNotCompleted) → (observed (proj p L1)).2 = Some (v, Some UpdateNotCompleted)) as Hn.
  { intros v Hv. apply (observed_prefix p (log w0) L1 P0). rewrite Kl0. simpl. destruct (cl_outcome _ _ Le) as [?|[_ Hx]]; [congruence|by destruct (Hx v)]. }
  unfold WaitLifecycleStage in H. destruct (observed (proj p L1)).2 as [[v e]|] eqn:Eo1.
  - simpl in H. destruct e as [e|].
    + assert (∀ v, outcome u ≠ Some (v, Some UpdateNotCompleted)) as Nu.
      { intros v' Hv'. specialize (Hn _ Hv'). simplify_eq. unfold is_err in H. rewrite !bool_decide_false in H by congruence. done. }
      repeat (case_match; try done). exact (wait_accepted_told _ _ _ _ _ _ _ _ (ck_told _ _ _ K) Ha Ho3 Nu D2 H).
    + injection H as <-. destruct (told_outcome _ _ (ck_told _ _ _ K) v) as (o & -> & Ht); [by apply Ho1|]. by exists o.
  - assert (∀ v, outcome u ≠ Some (v, Some UpdateNotCompleted)) as Nu by (intros v Hv; by specialize (Hn v Hv)).
    simpl in H. destruct (D1 eq_refl) as [e He]. rewrite He in H.
    repeat (case_match; try done); exact (wait_accepted_told _ _ _ _ _ _ _ _ (ck_told _ _ _ K) Ha Ho3 Nu D2 H).
Qed.

(** C24 Every step moves every update along the documented life cycle (created, admitted, sent, accepted, completed; rejected; aborted), seen
    as the stage outside of the running transaction; its identity and its completed futures do not change; and where
    one step completes both futures, the acceptance is not announced before the outcome, except by a rejection without a failure
    (see [rejection_without_failure_accepts]). *)
Theorem update_life_cycle m w o w' (M : ms_ok m) : update_run m w → exec o w = Some ((), w') →
  (∀ p u, heap w !! p = Some u → ∃ u', heap w' !! p = Some u' ∧ rtc life (base_of w p u) (base_of w' p u') ∧ cell_le u u') ∧
  ∃ l, log w' = log w ++ l ∧ ∀ p u, heap w !! p = Some u → in_order (proj p l).
Proof.
  intros R E. destruct (step_advances m w w' M R) as [C L]; [by exists o|]. split; [|done].
  intros p u Eu. destruct (C p u Eu) as (u' & E' & Le & Hl). by exists u'.
Qed.

(** ** Transactions *)

(** What happens inside of a transaction, before it is committed or given up. *)
Definition in_transaction (o : uop) : bool :=
  match o with OFind _ _ | OMessage _ _ _ _ | ORejectUnprocessed | OAbortAccepted | OClose | OTick _ => true | _ => false end.

Lemma exec_quiet w o : uinv w → live w → in_transaction o = true → wp (exec o) w (λ _ w', uinv w' ∧ live w' ∧ quiet w w').
Proof.
  intros I L. assert (∀ w', buffers w w' → uinv w' ∧ live w' ∧ quiet w w') as Hb by (by intros w' []).
  destruct o; try done; intros _; simpl.
  - apply uwp_bind. eapply uwp_mono; [by apply Find_spec|]. intros ? w1 [H _]. by apply uwp_ret, Hb.
  - apply uwp_bind. eapply uwp_mono; [by apply handleMessage_spec|]. intros ? w1 H. by apply uwp_ret.
  - eapply uwp_mono; [by apply RejectUnprocessed_spec|]. intros ? w1. apply Hb.
  - eapply uwp_mono; [by apply AbortAccepted_spec|]. intros ? w1. apply Hb.
  - apply uwp_mod. destruct (same_updates w (set_ms w (close (ms w)))) as [I1 L1 _]; [done..|]. split_and!; [done..|by apply quiet_same].
  - apply uwp_mod. destruct (same_updates w (set_now w t)) as [I1 L1 _]; [done..|]. split_and!; [done..|by apply quiet_same].
Qed.
Lemma execs_quiet os w : uinv w → live w → forallb in_transaction os = true → wp (wfor os exec) w (λ _ w', uinv w' ∧ quiet w w').
Proof.
  revert w. induction os as [|o os IH]; intros w I L H; [by apply uwp_ret|]. simpl in H. apply andb_true_iff in H as [Ho H].
  simpl. apply uwp_bind. eapply uwp_mono; [by apply exec_quiet|]. intros [] w1 (I1 & L1 & Q1). eapply uwp_mono; [by apply IH|].
  intros [] w2 [I2 Q2]. split; [done|by etrans].
Qed.
Lemma quiet_futures w w' p u : uinv w → uinv w' → quiet w w' → heap w !! p = Some u → ∃ u', heap w' !! p = Some u' ∧ cell_le u u' ∧
  futures u' = futures u ∧ base_of w' p u' = base_of w p u.
Proof.
  intros I I' [C (l & El & Hl)] E. destruct (C p u E) as (u' & E' & Le & Eb). exists u'. split_and!; [done..| |done].
  rewrite <- (ck_log _ _ _ (ui_cells w' I' p u' E')), <- (ck_log _ _ _ (ui_cells w I p u E)), El, proj_app, (Hl p u E). by rewrite app_nil_r.
Qed.

(** C35 A transaction is invisible until it is committed, and cancelling it undoes it: whatever messages, rejections, aborts and closing
    of the workflow are processed, no waiter on an update that existed before learns anything and no such update leaves its
    stage; and when the effects are cancelled, every such update is again in the state it had, with the
    futures it had. *)
Theorem update_transaction_undone m w os (M : ms_ok m) : update_run m w → cancels w = [] → forallb in_transaction os = true →
  ∃ w1 w2, wfor os exec w = Some ((), w1) ∧ Cancel w1 = Some ((), w2) ∧ ∀ p u, heap w !! p = Some u →
    (∃ u1, heap w1 !! p = Some u1 ∧ futures u1 = futures u ∧ base_of w1 p u1 = ustate u) ∧
    (∃ u2, heap w2 !! p = Some u2 ∧ futures u2 = futures u ∧ ustate u2 = ustate u ∧ id u2 = id u).
Proof.
  intros R Ec H. destruct (run_inv m w M R) as [I L]. destruct (execs_quiet os w I L H) as ([] & w1 & E1 & I1 & Q1).
  destruct (Cancel_spec w1 I1) as ([] & w2 & E2 & C2 & I2 & Q2). exists w1, w2. split_and!; [done..|]. intros p u E.
  destruct (quiet_futures w w1 p u I I1 Q1 E) as (u1 & Eu1 & Le1 & F1 & B1).
  assert (base_of w p u = ustate u) as B0 by (unfold base_of, base; rewrite Ec; by case_match). rewrite B0 in B1.
  split; [by exists u1|]. destruct (quiet_futures w1 w2 p u1 I1 I2 Q2 Eu1) as (u2 & Eu2 & Le2 & F2 & _). exists u2.
  destruct (cancelled_cell w1 w2 p u2 I1 C2 Eu2) as (v & Ev & Rb). assert (v = u1) as -> by congruence.
  split_and!; [done|congruence| |by rewrite (cl_id _ _ Le2), (cl_id _ _ Le1)]. by rewrite (rb_state _ _ _ _ Rb).
Qed.

(** ** Waiters when a transaction fails *)

Lemma evolves_cell w w' p u : evolves w w' → heap w !! p = Some u → ustate u = stateAborted → ∃ u', heap w' !! p = Some u' ∧ ustate u' = stateAborted ∧ futures u' = futures u.
Proof.
  intros V E Ha. destruct (ev_cells _ _ V p u E) as (u' & E' & Le & _). exists u'. destruct (cl_aborted _ _ Le Ha) as (? & Ea & Eo).
  split_and!; [done..|]. unfold futures. by rewrite Ea, Eo.
Qed.

(** The registry is cleared: the updates in it are aborted, with the reason that it was cleared. *)
Lemma cleared_cell w w1 w' p u : uinv w → p ∈ registered w → heap w !! p = Some u → terminal (ustate u) = false → ustate u ≠ stateProvisionallyAborted →
  ended AbortReasonRegistryCleared (registered w) w w1 → evolves w1 w' → ∃ u', heap w' !! p = Some u' ∧ ustate u' = stateAborted ∧
  outcome u' = Some (None, Some registryClearedErr) ∧
  accepted u' = if Matches (ustate u) preAcceptedStates then Some (None, Some registryClearedErr) else accepted u.
Proof.
  intros I Hp E Ht Np En V. destruct (En p u E) as (u1 & E1 & Hr & _). specialize (Hr Hp).
  assert (FailureError AbortReasonRegistryCleared (ustate u) = (None, Some registryClearedErr)) as Hf by (by destruct (ustate u)).
  destruct Hr as [[_ Hr]|(f & e & He & _ & ->)]; [congruence|]. rewrite Hf in He. injection He as <- <-.
  destruct (evolves_cell w1 w' p _ V E1) as (u' & E' & Ha & [= Fa Fo]); [done|]. exists u'. split_and!; [done..|by rewrite Fo|by rewrite Fa].
Qed.

Lemma persist_failed_spec w b : uinv w → live w →
  wp (exec (OPersistFailed b)) w (λ _ w', ∃ w1, ended AbortReasonRegistryCleared (registered w) w w1 ∧ evolves w1 w').
Proof.
  intros I L. simpl. assert (∀ w0, uinv w0 → registered w0 = registered w → heap w0 = heap w → wp (Clear ;;* Cancel ;;* reload) w0
    (λ _ w', ∃ w1, ended AbortReasonRegistryCleared (registered w) w w1 ∧ evolves w1 w')) as Hc.
  { intros w0 I0 Er Eh. apply uwp_bind. eapply uwp_mono; [by apply Clear_spec|]. intros [] w1 [L1 En]. apply uwp_bind.
    eapply uwp_mono; [apply Cancel_spec, L1|]. intros [] w2 (C2%cancelled_buffers & I2 & Q2%quiet_evolves). destruct C2.
    eapply uwp_mono; [by apply reload_spec|]. intros [] w3 (_ & _ & V3). exists w1. split; [|by etrans].
    rewrite Er in En. unfold ended in *. by rewrite Eh in En. }
  apply uwp_bind. destruct b; [apply uwp_mod|apply uwp_ret; by apply Hc]. destruct (inv_persist w I L) as [I1 _]. by apply Hc.
Qed.

(** A write to the database that fails strands the waiters of an update that was accepted and completed in the same workflow task: the
    registry is cleared before the effects are cancelled, so the update is aborted out of [stateProvisionallyCompleted], which
    is not among the states for which the abort completes the accepted future.  Whatever happens
    afterwards that future stays pending; who waits for acceptance gets no error, but after
    the soft timeout the answer that the update is admitted. *)
Theorem persist_failure_strands m w b p u (M : ms_ok m) : update_run m w → p ∈ registered w → heap w !! p = Some u →
  ustate u = stateProvisionallyCompleted → accepted u = None →
  ∃ w', exec (OPersistFailed b) w = Some ((), w') ∧ ∀ w2, rtc step w' w2 → ∃ u2, heap w2 !! p = Some u2 ∧
    outcome u2 = Some (None, Some registryClearedErr) ∧ accepted u2 = None ∧
    ∀ c, ctxErr c = None → stCtxErr c = Some DeadlineExceeded → WaitLifecycleStage StageAccepted None c (accepted u2) (outcome u2) c = inl statusAdmitted.
Proof.
  intros R Hp E Hs Ha. destruct (run_inv m w M R) as [I L]. destruct (persist_failed_spec w b I L) as ([] & w' & Ew & w1 & En & V).
  exists w'. split; [done|]. intros w2 S2. destruct (cleared_cell w w1 w' p u I Hp E) as (u' & E' & Hu & Ho & Hac); [by rewrite Hs..|done|done|].
  rewrite Hs in Hac. destruct (steps_cells m w' w2 M) as [C _]; [by eapply ur_step|done|]. destruct (C p u' E') as (u2 & E2 & Le).
  destruct (cl_aborted _ _ Le Hu) as (_ & Ea2 & Eo2). exists u2. rewrite Ea2, Eo2, Hac, Ho, Ha. split_and!; [done..|].
  intros [x y]; simpl. intros -> ->. done.
Qed.

(** An update in a stable state that is aborted at once leaves nobody waiting. *)
Definition awake (u : Update) : Prop := ustate u = stateAborted ∧ Ready (accepted u) = true ∧ Ready (outcome u) = true.
Lemma abort_wakes r u u' : stable (ustate u) (Ready (accepted u)) (Ready (outcome u)) → ustate u ≠ stateCompleted → abort_result r u u' →
  u' = u ∨ awake u'.
Proof.
  intros S Nc [[-> _]|(f & e & Hf & P & ->)]; [by left|right]. unfold awake. simpl. split_and!; [done| |done].
  destruct (Matches (ustate u) preAcceptedStates) eqn:Hm; [done|]. inversion S as [Hs|Hs|Hs|Hs|Hs|? Hs]; rewrite <- Hs in *; try done.
  exfalso. destruct P as [[-> (x & -> & _)]|[-> ->]]; by destruct r.
Qed.
Lemma awake_evolves w w' p u : evolves w w' → heap w !! p = Some u → awake u → ∃ u', heap w' !! p = Some u' ∧ awake u'.
Proof.
  intros V E (Ha & Hb & Hc). destruct (evolves_cell w w' p u V E Ha) as (u' & E' & Ha' & [= Fa Fo]). exists u'. split; [done|].
  unfold awake. by rewrite Fa, Fo.
Qed.

(** After the effects are cancelled, an update that is not ended is in a stable state. *)
Lemma cancelled_stable w w1 p u : uinv w → cancelled w w1 → p ∈ registered w → heap w !! p = Some u → ustate u ≠ stateAborted →
  ∃ u1, heap w1 !! p = Some u1 ∧ stable (ustate u1) (Ready (accepted u1)) (Ready (outcome u1)) ∧ terminal (ustate u1) = false.
Proof.
  intros I C [i Hi]%elem_of_registered E Na. destruct (ui_map w I i p Hi) as (v & Ev & [_ _ Nc]). assert (v = u) as -> by congruence.
  assert (∃ u1, heap w1 !! p = Some u1) as [u1 E1] by (destruct C as [_ C]; rewrite C, E; by eexists).
  destruct (cancelled_cell w w1 p u1 I C E1) as (v & Ev' & [R1 R2 _ _ _]). assert (v = u) as -> by congruence. exists u1.
  split_and!; [done|by rewrite R1|]. rewrite R1. destruct (ck_cfg _ _ _ (ui_cells w I p u E)) as [b Cf].
  unfold base_of. rewrite <- (cfg_base _ _ _ _ _ _ Cf). eapply cfg_base_open; [done|]. apply bool_decide_eq_false. naive_solver.
Qed.

(** Clearing the registry when all of its updates are in stable states wakes everybody. *)
Lemma clear_wakes w w1 w2 p u : uinv w → leaves w w1 → ended AbortReasonRegistryCleared (registered w) w w1 → evolves w1 w2 → p ∈ registered w →
  heap w !! p = Some u → (stable (ustate u) (Ready (accepted u)) (Ready (outcome u)) ∧ terminal (ustate u) = false) ∨ awake u →
  ∃ u', heap w2 !! p = Some u' ∧ awake u'.
Proof.
  intros I L En V Hp E [[S Ht]|Aw].
  - destruct (En p u E) as (u1 & E1 & Hr & _). destruct (abort_wakes AbortReasonRegistryCleared u u1 S) as [->|Aw]; [|by apply Hr| |].
    + intros Hc. by rewrite Hc in Ht.
    + exfalso. destruct (Hr Hp) as [[_ Hf]|(f & e & Hf & P & Hu)]; [by inversion S as [Hs|Hs|Hs|Hs|Hs|? Hs]; rewrite <- Hs in *|].
      apply (f_equal ustate) in Hu. simpl in Hu. by rewrite Hu in Ht.
    + by eapply awake_evolves.
  - destruct (awake_evolves w w1 p u (lf_evolves _ _ L) E Aw) as (u1 & E1 & Aw1). by eapply awake_evolves.
Qed.

(** When a transaction is given up and the registry cleared in the right order, nobody is left waiting: every update of the registry that
    was not already aborted ends with both of its futures completed. *)
Theorem clear_wakes_waiters m w o p u (M : ms_ok m) : update_run m w → o = OClear ∨ o = OTaskFailed → p ∈ registered w → heap w !! p = Some u →
  ustate u ≠ stateAborted → ∃ w' u', exec o w = Some ((), w') ∧ heap w' !! p = Some u' ∧ Ready (accepted u') = true ∧ Ready (outcome u') = true.
Proof.
  intros R Ho Hp E Na. destruct (run_inv m w M R) as [I L].
  cut (wp (exec o) w (λ _ w', ∃ u', heap w' !! p = Some u' ∧ awake u')).
  { intros ([] & w' & Ew & u' & E' & _ & H1 & H2). by exists w', u'. }
  destruct Ho as [-> | ->]; simpl; apply uwp_bind; (eapply uwp_mono; [by apply Cancel_spec|]); intros [] w1 (C1 & I1 & Q1);
    destruct (cancelled_stable w w1 p u I C1 Hp E Na) as (u1 & E1 & S1 & T1); destruct (cancelled_buffers _ _ C1) as [B1 B2];
    (assert (p ∈ registered w1) as Hp1 by (destruct C1 as [-> _]; done)); apply uwp_bind.
  - eapply uwp_mono; [by apply Clear_spec|]. intros [] w2 [L2 En2]. destruct (L2) as [I2 _ B3 B4 _].
    eapply uwp_mono; [apply reload_spec; [done|congruence..]|]. intros [] w3 (_ & _ & V3). eapply (clear_wakes w1 w2 w3 p u1); try done. by left.
  - eapply uwp_mono; [by apply Abort_spec|]. intros [] w2 [S2 En2]. apply uwp_bind. destruct (steady_leaves _ _ S2) as [I2 V2 B3 B4 _].
    assert (registered w2 = registered w1) as Er by (unfold registered, in_registry; by rewrite (fr_reg _ _ (sd_frame _ _ S2))).
    destruct (En2 p u1 E1) as (u2 & E2 & Hr & _).
    eapply uwp_mono; [by apply Clear_spec|]. intros [] w3 [L3 En3]. destruct (L3) as [I3 _ B5 B6 _].
    eapply uwp_mono; [apply reload_spec; [done|congruence..]|]. intros [] w4 (_ & _ & V4).
    eapply (clear_wakes w2 w3 w4 p u2); try done; [by rewrite Er|].
    destruct (abort_wakes AbortReasonWorkflowTaskFailed u1 u2) as [->|Aw]; [done| |by apply Hr|by left|by right].
    intros Hc. by rewrite Hc in T1.
Qed.
End machine.

(** ** Concrete runs *)

Definition ex_ms : mutableState := mkMS ∅ true 5 ∅.
Lemma ex_ms_ok : ms_ok ex_ms.
Proof. constructor; intros ? ? H; simpl in H; by rewrite lookup_empty in H. Qed.
Definition ex_exec : uop → W () := exec (λ _, 1) (λ _, 1) (λ _, 1) 0 0 0.
Definition ex_run : mutableState → world → Prop := update_run (λ _, 1) (λ _, 1) (λ _, 1) 0 0 0.
Definition ex_world (os : list uop) : option world := w ← load ex_ms; snd <$> wfor os ex_exec w.
Definition ex_after (os : list uop) : world := default (mkWorld ∅ 0 (mkRegistry 0 None 0) [] [] ex_ms ex_ms 0 []) (ex_world os).

Lemma ops_steps os w w' : wfor os ex_exec w = Some ((), w') → rtc (step (λ _, 1) (λ _, 1) (λ _, 1) 0 0 0) w w'.
Proof.
  revert w. induction os as [|o os IH]; intros w E; [by injection E as <-|]. simpl in E. unfold wbind in E.
  destruct (ex_exec o w) as [[[] w1]|] eqn:E1; [|done]. simpl in E. eapply rtc_l; [by exists o|by apply IH].
Qed.
Lemma ex_after_run os : is_Some (ex_world os) → ex_run ex_ms (ex_after os).
Proof.
  intros [w E]. unfold ex_after. rewrite E. simpl. unfold ex_world in E. destruct (load ex_ms) as [w0|] eqn:E0; [|done]. simpl in E.
  destruct (wfor os ex_exec w0) as [[[] w1]|] eqn:E1; [|done]. injection E as <-. eapply steps_run; [by apply ur_load|by eapply ops_steps].
Qed.

Definition ex_request : Request := mkRequest (Some "u") (Some "name") 7.
Definition ex_accept : uop := OMessage (mkMessage "u" (Some (Acceptance 3 "u/request" None))) (Some true) false false.
Definition ex_respond : uop := OMessage (mkMessage "u" (Some (Response (Some "u") (Some (OutcomeSuccess 9))))) (Some true) false false.
Definition ex_reject (f : option Failure) : uop := OMessage (mkMessage "u" (Some (Rejection f None))) (Some true) false false.
Definition ex_sent : list uop := [ORequest (mkChecks false false false) "u" ex_request false; OSend false 3].

(** The contexts of a caller that has not given up, before and after the soft timeout. *)
Definition ex_waiting : contexts := mkContexts None None.
Definition ex_timeout : contexts := mkContexts None (Some DeadlineExceeded).

Lemma updates_never_panic_witness : ∃ w, load ex_ms = Some w.
Proof. exact (proj1 (updates_never_panic (λ _, 1) (λ _, 1) (λ _, 1) 0 0 0 ex_ms ex_ms_ok)). Defined.

Lemma update_life_cycle_witness : ∃ l, log (ex_after (ex_sent ++ [ex_accept; ex_respond; OCommit])) = log (ex_after (ex_sent ++ [ex_accept; ex_respond])) ++ l ∧
  in_order (proj 0 l).
Proof.
  destruct (update_life_cycle (λ _, 1) (λ _, 1) (λ _, 1) 0 0 0 ex_ms (ex_after (ex_sent ++ [ex_accept; ex_respond])) OCommit
    (ex_after (ex_sent ++ [ex_accept; ex_respond; OCommit])) ex_ms_ok) as [_ (l & E & H)].
  - apply ex_after_run. vm_compute. by eexists.
  - vm_compute. reflexivity.
  - exists l. split; [exact E|]. eapply (H 0%nat). vm_compute. reflexivity.
Defined.

Lemma update_transaction_undone_witness : ∃ w1 w2, wfor [ex_accept; ex_respond] ex_exec (ex_after ex_sent) = Some ((), w1) ∧ Cancel w1 = Some ((), w2) ∧
  ustate <$> heap w1 !! 0%nat = Some stateProvisionallyCompleted ∧ ustate <$> heap w2 !! 0%nat = Some stateSent.
Proof.
  destruct (update_transaction_undone (λ _, 1) (λ _, 1) (λ _, 1) 0 0 0 ex_ms (ex_after ex_sent) [ex_accept; ex_respond] ex_ms_ok)
    as (w1 & w2 & E1 & E2 & H).
  - apply ex_after_run. vm_compute. by eexists.
  - vm_compute. reflexivity.
  - reflexivity.
  - exists w1, w2. destruct (heap (ex_after ex_sent) !! 0%nat) as [u|] eqn:Eu; [|vm_compute in Eu; discriminate].
    destruct (H 0%nat u Eu) as [_ (u2 & Eu2 & _ & Hs & _)]. rewrite Eu2. simpl. rewrite Hs. vm_compute in Eu. injection Eu as <-.
    split; [exact E1|]. split; [exact E2|]. vm_compute in E1. injection E1 as <-. split; vm_compute; reflexivity.
Defined.

Lemma persist_failure_strands_witness : ∃ w', ex_exec (OPersistFailed false) (ex_after (ex_sent ++ [ex_accept; ex_respond])) = Some ((), w') ∧
  ∃ u, heap w' !! 0%nat = Some u ∧ accepted u = None.
Proof.
  destruct (heap (ex_after (ex_sent ++ [ex_accept; ex_respond])) !! 0%nat) as [u|] eqn:Eu; [|vm_compute in Eu; discriminate].
  destruct (persist_failure_strands (λ _, 1) (λ _, 1) (λ _, 1) 0 0 0 ex_ms (ex_after (ex_sent ++ [ex_accept; ex_respond])) false 0%nat u ex_ms_ok)
    as (w' & E & H).
  - apply ex_after_run. vm_compute. by eexists.
  - apply elem_of_registered. exists "u". vm_compute. reflexivity.
  - exact Eu.
  - vm_compute in Eu. injection Eu as <-. reflexivity.
  - vm_compute in Eu. injection Eu as <-. reflexivity.
  - exists w'. split; [exact E|]. destruct (H w' (rtc_refl _ _)) as (u2 & E2 & _ & Ha & _). exists u2. split; [exact E2|exact Ha].
Defined.

Lemma clear_wakes_waiters_witness : ∃ w' u', ex_exec OTaskFailed (ex_after (ex_sent ++ [ex_accept; ex_respond])) = Some ((), w') ∧
  heap w' !! 0%nat = Some u' ∧ Ready (accepted u') = true.
Proof.
  destruct (heap (ex_after (ex_sent ++ [ex_accept; ex_respond])) !! 0%nat) as [u|] eqn:Eu; [|vm_compute in Eu; discriminate].
  destruct (clear_wakes_waiters (λ _, 1) (λ _, 1) (λ _, 1) 0 0 0 ex_ms (ex_after (ex_sent ++ [ex_accept; ex_respond])) OTaskFailed 0%nat u ex_ms_ok)
    as (w' & u' & E & E' & H & _).
  - apply ex_after_run. vm_compute. by eexists.
  - by right.
  - apply elem_of_registered. exists "u". vm_compute. reflexivity.
  - exact Eu.
  - vm_compute in Eu. injection Eu as <-. discriminate.
  - exists w', u'. split; [exact E|]. split; [exact E'|exact H].
Defined.

Lemma update_wait_sound_witness : ∃ u, heap (ex_after (ex_sent ++ [ex_accept; OCommit])) !! 0%nat = Some u ∧
  justified (saved (ex_after (ex_sent ++ [ex_accept; OCommit]))) u statusAccepted.
Proof.
  apply (update_wait_sound (λ _, 1) (λ _, 1) (λ _, 1) 0 0 0 ex_ms (ex_after ex_sent) (ex_after (ex_sent ++ [ex_accept; OCommit])) 0%nat
    None ex_timeout (Some (None, None)) None ex_timeout StageAccepted statusAccepted ex_ms_ok).
  - constructor.
    + apply ex_after_run. vm_compute. by eexists.
    + apply (ops_steps [ex_accept; OCommit]). vm_compute. reflexivity.
    + vm_compute. by eexists.
    + eexists (log (ex_after ex_sent)), _, _. split_and!; [reflexivity| |reflexivity|reflexivity|vm_compute; reflexivity..].
      vm_compute. apply prefix_nil.
  - intros _. by eexists.
  - discriminate.
  - split; discriminate.
  - reflexivity.
Defined.

(** A rejection that carries no failure passes the validation of messages and is announced as an acceptance: between the moments when the
    two futures are completed, a client that waits for acceptance is told that the update is accepted, although nothing of it
    is in the database and its outcome is a failure. *)
Theorem rejection_without_failure_accepts : ∃ w0 w p u,
  waiter (λ _, 1) (λ _, 1) (λ _, 1) 0 0 0 ex_ms w0 w p None (Some (None, None)) None ∧ heap w !! p = Some u ∧ id u = "u" ∧
  WaitLifecycleStage StageAccepted None ex_waiting (Some (None, None)) None ex_waiting = inl statusAccepted ∧
  outcome u = Some (Some (OutcomeFailure None), None) ∧ UpdateInfos (saved w) !! id u = None.
Proof.
  set (w := ex_after (ex_sent ++ [ex_reject None; OCommit])).
  destruct (heap w !! 0%nat) as [u|] eqn:Eu; [|vm_compute in Eu; discriminate]. exists (ex_after ex_sent), w, 0%nat, u.
  split; [|vm_compute in Eu; injection Eu as <-; split_and!; vm_compute; reflexivity]. constructor.
  - apply ex_after_run. vm_compute. by eexists.
  - apply (ops_steps [ex_reject None; OCommit]). vm_compute. reflexivity.
  - vm_compute. by eexists.
  - exists (log (ex_after ex_sent)), [(0%nat, FAccepted None None)], [(0%nat, FAccepted None None)].
    split_and!; [reflexivity|vm_compute; apply prefix_nil|reflexivity| |vm_compute; reflexivity..]. vm_compute. by eexists [_].
Qed.

(** The response of an update is forgotten when another message for the update comes after the workflow was closed in the same task: the
    database has the success, the client is told that the workflow completed first. *)
Example response_overtaken : ∃ u, heap (ex_after (ex_sent ++ [ex_accept; OCommit; ex_respond; OClose; ex_respond; OCommit])) !! 0%nat = Some u ∧
  durable_completed (saved (ex_after (ex_sent ++ [ex_accept; OCommit; ex_respond; OClose; ex_respond; OCommit]))) "u" (OutcomeSuccess 9) ∧
  outcome u = Some (Some (OutcomeFailure (Some acceptedUpdateCompletedWorkflowFailure)), None).
Proof. vm_compute. eexists. split_and!; [reflexivity| |reflexivity]. exists 6. split; reflexivity. Qed.
