(* ===== verification/SchedTime.v ===== *)
(** * Schedules: dates, times of day and time zones

    What the schedule code uses of Go's [time] package, with instants in seconds since 1970-01-01T00:00:00Z, and [isLeapYear] and
    [daysInMonth] of [service/worker/scheduler/calendar.go]. *)
From S2P Require Import Prelude.
Local Open Scope Z_scope.

(** ** The Gregorian calendar *)

Definition isLeapYear (y : Z) : bool := (Z.rem y 4 =? 0) && (negb (Z.rem y 100 =? 0) || (Z.rem y 400 =? 0)).
Definition February : Z := 2.
Definition December : Z := 12.
(** [0b1010110101010]. *)
Definition month_bits : Z := 5546.
Definition daysInMonth (m y : Z) : Z :=
  if m =? February then if isLeapYear y then 29 else 28
  else 30 + Z.land (Z.shiftr month_bits m) 1.

(** Days from 0001-01-01 to the first of January of [y], and within [y] to the first of month [mo] (1 to 13). *)
Definition days_before_year (y : Z) : Z := 365 * (y - 1) + (y - 1) / 4 - (y - 1) / 100 + (y - 1) / 400.
Definition days_before_month (mo y : Z) : Z :=
  match mo with
  | 1 => 0 | 2 => 31 | 3 => 59 | 4 => 90 | 5 => 120 | 6 => 151 | 7 => 181 | 8 => 212 | 9 => 243 | 10 => 273 | 11 => 304 | 12 => 334 | _ => 365
  end + (if (2 <? mo) && isLeapYear y then 1 else 0).
Definition epoch_days : Z := 719162.

(** Days from 1970-01-01 to a date; the month may be out of range, as in [time.Date]. *)
Definition day_number (y mo d : Z) : Z :=
  let y := y + (mo - 1) / 12 in
  let mo := (mo - 1) mod 12 + 1 in
  days_before_year y + days_before_month mo y + (d - 1) - epoch_days.

(** The date of a day: the year is guessed by the average length of years and is off by one at most. *)
Definition year_of (n : Z) : Z :=
  let y := 400 * n / 146097 + 1 in
  if n <? days_before_year y then y - 1 else if days_before_year (y + 1) <=? n then y + 1 else y.
Definition month_of (r y : Z) : Z :=
  if r <? days_before_month 2 y then 1 else if r <? days_before_month 3 y then 2 else if r <? days_before_month 4 y then 3
  else if r <? days_before_month 5 y then 4 else if r <? days_before_month 6 y then 5 else if r <? days_before_month 7 y then 6
  else if r <? days_before_month 8 y then 7 else if r <? days_before_month 9 y then 8 else if r <? days_before_month 10 y then 9
  else if r <? days_before_month 11 y then 10 else if r <? days_before_month 12 y then 11 else 12.
Definition date_of_day (n : Z) : Z * Z * Z :=
  let n := n + epoch_days in
  let y := year_of n in
  let r := n - days_before_year y in
  let mo := month_of r y in
  (y, mo, r - days_before_month mo y + 1).

(** ** Laws of the calendar *)

Lemma isLeapYear_mod y : isLeapYear y = (y mod 4 =? 0) && (negb (y mod 100 =? 0) || (y mod 400 =? 0)).
Proof.
  unfold isLeapYear. assert (∀ k, 0 < k → (Z.rem y k =? 0) = (y mod k =? 0)) as H.
  { intros k Hk. apply eq_true_iff_eq. rewrite !Z.eqb_eq. rewrite Z.rem_divide, Z.mod_divide by lia. done. }
  by rewrite !H by lia.
Qed.

Lemma days_before_year_step y : days_before_year (y + 1) = days_before_year y + (if isLeapYear y then 366 else 365).
Proof.
  rewrite isLeapYear_mod. unfold days_before_year. replace (y + 1 - 1) with y by lia.
  destruct (Z.eqb_spec (y mod 4) 0), (Z.eqb_spec (y mod 100) 0), (Z.eqb_spec (y mod 400) 0); simpl; Z.div_mod_to_equations; lia.
Qed.
Lemma days_before_year_mono y1 y2 : y1 ≤ y2 → days_before_year y1 ≤ days_before_year y2.
Proof. intros. unfold days_before_year. Z.div_mod_to_equations. lia. Qed.
Lemma year_of_spec n : days_before_year (year_of n) ≤ n < days_before_year (year_of n + 1).
Proof.
  unfold year_of. cbn zeta. destruct (Z.ltb_spec n (days_before_year (400 * n / 146097 + 1))) as [H|H];
    [|destruct (Z.leb_spec (days_before_year (400 * n / 146097 + 1 + 1)) n) as [H'|H']; [|lia]].
  all: unfold days_before_year in *; Z.div_mod_to_equations; lia.
Qed.
Lemma year_of_unique n y : days_before_year y ≤ n < days_before_year (y + 1) → year_of n = y.
Proof.
  intros H. pose proof (year_of_spec n) as S. destruct (Z.lt_trichotomy (year_of n) y) as [L|[E|L]]; [|done|].
  - pose proof (days_before_year_mono (year_of n + 1) y). lia.
  - pose proof (days_before_year_mono (y + 1) (year_of n)). lia.
Qed.

(** The twelve months. *)
Lemma month_cases mo : 1 ≤ mo ≤ 12 → mo ∈ [1; 2; 3; 4; 5; 6; 7; 8; 9; 10; 11; 12].
Proof.
  intros. assert (mo = 1 ∨ mo = 2 ∨ mo = 3 ∨ mo = 4 ∨ mo = 5 ∨ mo = 6 ∨ mo = 7 ∨ mo = 8 ∨ mo = 9 ∨ mo = 10 ∨ mo = 11 ∨ mo = 12) as C by lia.
  repeat destruct C as [->|C]; try (by repeat (first [by apply list_elem_of_here | apply list_elem_of_further])). subst. set_solver.
Qed.
Ltac each_month H := apply month_cases in H; repeat (apply elem_of_cons in H as [->|H]); [..|by apply not_elem_of_nil in H].

Ltac month_lengths := repeat match goal with
  |- context [Z.land (Z.shiftr 5546 ?m) 1] => let v := eval vm_compute in (Z.land (Z.shiftr 5546 m) 1) in change (Z.land (Z.shiftr 5546 m) 1) with v end.

Lemma days_before_month_step mo y : 1 ≤ mo ≤ 12 → days_before_month (mo + 1) y = days_before_month mo y + daysInMonth mo y.
Proof. intros H. unfold days_before_month, daysInMonth. each_month H; simpl; by destruct (isLeapYear y). Qed.
Lemma days_in_month_range mo y : 1 ≤ mo ≤ 12 → 28 ≤ daysInMonth mo y ≤ 31.
Proof. intros H. unfold daysInMonth. each_month H; simpl; try destruct (isLeapYear y); vm_compute; done. Qed.
Lemma days_before_last y : days_before_month 13 y = if isLeapYear y then 366 else 365.
Proof. unfold days_before_month. by destruct (isLeapYear y). Qed.
Lemma month_of_unique r mo y : 1 ≤ mo ≤ 12 → days_before_month mo y ≤ r < days_before_month (mo + 1) y → month_of r y = mo.
Proof.
  intros H. unfold month_of, days_before_month. each_month H; simpl; destruct (isLeapYear y); intros Hr;
    repeat match goal with |- context [?a <? ?b] => destruct (Z.ltb_spec a b); [try lia|try lia] end; lia.
Qed.

Definition valid_date (y mo d : Z) : Prop := 1 ≤ mo ≤ 12 ∧ 1 ≤ d ≤ daysInMonth mo y.

Lemma day_number_valid y mo d : 1 ≤ mo ≤ 12 → day_number y mo d = days_before_year y + days_before_month mo y + (d - 1) - epoch_days.
Proof.
  intros. unfold day_number. assert ((mo - 1) / 12 = 0) as -> by (apply Z.div_small; lia).
  rewrite (Z.mod_small (mo - 1)) by lia. cbn zeta. rewrite Z.add_0_r. by replace (mo - 1 + 1) with mo by lia.
Qed.
(** The first day of the month after [mo]. *)
Lemma day_number_next_month y mo : 1 ≤ mo ≤ 12 → day_number y (mo + 1) 1 = day_number y mo 1 + daysInMonth mo y.
Proof.
  intros H. rewrite (day_number_valid y mo) by done. destruct (decide (mo = 12)) as [->|N].
  - pose proof (days_before_month_step 12 y) as S. pose proof (days_before_last y) as E. pose proof (days_before_year_step y) as Y.
    change (day_number y (12 + 1) 1) with (days_before_year (y + 1) + days_before_month 1 (y + 1) + (1 - 1) - epoch_days).
    change (12 + 1) with 13 in S. rewrite E in S. specialize (S ltac:(lia)). change (days_before_month 1 (y + 1)) with 0. destruct (isLeapYear y); lia.
  - rewrite day_number_valid, days_before_month_step by lia. lia.
Qed.
Lemma day_number_next_year y : day_number y 13 1 = day_number (y + 1) 1 1.
Proof. unfold day_number. change ((13 - 1) / 12) with 1. change ((1 - 1) / 12) with 0. rewrite !Z.add_0_r. reflexivity. Qed.
Lemma day_number_day y mo d : day_number y mo d = day_number y mo 1 + (d - 1).
Proof. unfold day_number. lia. Qed.
Lemma day_number_month_mono y mo : 1 ≤ mo ≤ 12 → day_number y 1 1 ≤ day_number y mo 1 ∧ day_number y (mo + 1) 1 ≤ day_number (y + 1) 1 1.
Proof.
  intros H. rewrite <- day_number_next_year. change 13 with (12 + 1). rewrite !day_number_next_month by lia. rewrite !day_number_valid by lia.
  unfold days_before_month, daysInMonth, month_bits. each_month H; simpl; month_lengths; destruct (isLeapYear y); lia.
Qed.

Lemma date_of_day_number y mo d : valid_date y mo d → date_of_day (day_number y mo d) = (y, mo, d).
Proof.
  intros [Hm Hd]. pose proof (day_number_month_mono y mo Hm) as [M1 M2]. rewrite day_number_next_month in M2 by done.
  unfold date_of_day. rewrite (day_number_valid y mo d) by done.
  assert (year_of (days_before_year y + days_before_month mo y + (d - 1) - epoch_days + epoch_days) = y) as Ey.
  { apply year_of_unique. rewrite !day_number_valid in M1, M2 by lia. change (days_before_month 1 y) with 0 in M1.
    change (days_before_month 1 (y + 1)) with 0 in M2. lia. }
  cbn zeta. rewrite Ey.
  assert (month_of (days_before_year y + days_before_month mo y + (d - 1) - epoch_days + epoch_days - days_before_year y) y = mo) as Em.
  { apply month_of_unique; [done|]. rewrite days_before_month_step by done. lia. }
  rewrite Em. f_equal; lia.
Qed.

Lemma month_of_spec r y : 0 ≤ r < (if isLeapYear y then 366 else 365) →
  1 ≤ month_of r y ≤ 12 ∧ days_before_month (month_of r y) y ≤ r < days_before_month (month_of r y + 1) y.
Proof.
  intros Hr. rewrite <- days_before_last in Hr. unfold month_of.
  repeat match goal with |- context [?a <? ?b] => destruct (Z.ltb_spec a b) end; (split; [lia|]);
    match goal with |- context [days_before_month (?a + 1) y] => let v := eval vm_compute in (a + 1) in change (a + 1) with v end;
    try (change (days_before_month 1 y) with 0 in *); lia.
Qed.
Lemma day_number_date_of n : ∃ y mo d, date_of_day n = (y, mo, d) ∧ valid_date y mo d ∧ day_number y mo d = n.
Proof.
  unfold date_of_day. cbn zeta. set (k := n + epoch_days). pose proof (year_of_spec k) as Hy. set (y := year_of k) in *.
  pose proof (month_of_spec (k - days_before_year y) y) as M. rewrite days_before_year_step in Hy.
  destruct M as [M1 M2]; [lia|]. set (mo := month_of (k - days_before_year y) y) in *.
  exists y, mo, (k - days_before_year y - days_before_month mo y + 1). split; [done|]. rewrite days_before_month_step in M2 by done.
  split; [split; [done|lia]|]. rewrite day_number_valid by done. lia.
Qed.
Lemma date_of_day_iff n y mo d : date_of_day n = (y, mo, d) ↔ valid_date y mo d ∧ day_number y mo d = n.
Proof.
  split.
  - intros E. destruct (day_number_date_of n) as (y' & mo' & d' & E' & V & N). rewrite E in E'. injection E' as -> -> ->. done.
  - intros [V <-]. by apply date_of_day_number.
Qed.

(** ** Time zones ([time.Location]) *)

(** A zone is the offset before its first transition, and the transitions with the offsets they lead to, in order. *)
Record Location := mkLocation { firstOffset : Z; transitions : list (Z * Z) }.
Definition alpha : Z := - 2 ^ 63.
Definition omega : Z := 2 ^ 63 - 1.

(** The offset in use at an instant, and the interval in which it is. *)
Fixpoint lookup_from (offset start : Z) (tx : list (Z * Z)) (sec : Z) : Z * Z * Z :=
  match tx with
  | [] => (offset, start, omega)
  | (when, off) :: tx => if sec <? when then (offset, start, when) else lookup_from off when tx sec
  end.
Definition lookup (l : Location) (sec : Z) : Z * Z * Z := lookup_from (firstOffset l) alpha (transitions l) sec.
Definition offset_at (l : Location) (sec : Z) : Z := (lookup l sec).1.1.

(** The fields of an instant in a zone. *)
Definition local (l : Location) (t : Z) : Z := t + offset_at l t.
Definition Date (l : Location) (t : Z) : Z * Z * Z := date_of_day (local l t / 86400).
Definition Year (l : Location) (t : Z) : Z := (Date l t).1.1.
Definition Hour (l : Location) (t : Z) : Z := local l t mod 86400 / 3600.
Definition Minute (l : Location) (t : Z) : Z := local l t mod 3600 / 60.
Definition Second (l : Location) (t : Z) : Z := local l t mod 60.
Definition Clock (l : Location) (t : Z) : Z * Z * Z := (Hour l t, Minute l t, Second l t).
(** Sunday is 0; 1970-01-01 was a Thursday. *)
Definition Weekday (l : Location) (t : Z) : Z := (local l t / 86400 + 4) mod 7.

(** [time.Date]: the fields may be out of range.  The offset is looked up as if the fields were in UTC, and once more where that
    leads to another interval. *)
Definition MakeDate (l : Location) (y mo d h m s : Z) : Z :=
  let unix := day_number y mo d * 86400 + h * 3600 + m * 60 + s in
  let '(offset, start, end_) := lookup l unix in
  if offset =? 0 then unix
  else
    let utc := unix - offset in
    if (utc <? start) || (end_ <=? utc) then unix - offset_at l utc else utc.

(** A zone without transitions. *)
Definition fixed_zone (offset : Z) : Location := mkLocation offset [].

Lemma offset_fixed o t : offset_at (fixed_zone o) t = o.
Proof. done. Qed.
Lemma MakeDate_fixed o y mo d h m s : MakeDate (fixed_zone o) y mo d h m s = day_number y mo d * 86400 + h * 3600 + m * 60 + s - o.
Proof.
  unfold MakeDate. change (lookup (fixed_zone o) (day_number y mo d * 86400 + h * 3600 + m * 60 + s)) with (o, alpha, omega).
  cbn zeta iota. destruct (Z.eqb_spec o 0) as [->|]; [lia|]. rewrite offset_fixed. by destruct (_ || _).
Qed.
