(* ===== verification/SchedText.v ===== *)
(** * Schedules: the text functions the parsers use (Go's [strings] and [strconv])

    The strings of a protobuf message are valid UTF-8, so a string is the list of its code points; the separators the parsers look for are
    all ASCII. *)
From S2P Require Import Prelude.
Local Open Scope Z_scope.

Notation text := (list Z).
Definition lit (s : string) : text := map (λ a, Z.of_N (Ascii.N_of_ascii a)) (String.list_ascii_of_string s).

(** [len(s)] counts bytes. *)
Definition rune_len (r : Z) : Z := if r <? 128 then 1 else if r <? 2048 then 2 else if r <? 65536 then 3 else 4.
Definition byte_len (s : text) : Z := foldr (λ r n, rune_len r + n) 0 s.

(** [unicode.IsSpace]. *)
Definition IsSpace (r : Z) : bool :=
  ((9 <=? r) && (r <=? 13)) || (r =? 32) || (r =? 133) || (r =? 160) || (r =? 5760) || ((8192 <=? r) && (r <=? 8202)) ||
  (r =? 8232) || (r =? 8233) || (r =? 8239) || (r =? 8287) || (r =? 12288).
Fixpoint trim_left (s : text) : text :=
  match s with [] => [] | r :: s' => if IsSpace r then trim_left s' else s end.
Definition TrimSpace (s : text) : text := reverse (trim_left (reverse (trim_left s))).

Fixpoint HasPrefix (s prefix : text) : bool :=
  match prefix, s with
  | [], _ => true
  | p :: prefix, r :: s => (r =? p) && HasPrefix s prefix
  | _, [] => false
  end.
(** [strings.Count] and [strings.Contains] of one character. *)
Definition Count (s : text) (c : Z) : nat := length (filter (λ r, r = c) s).
Definition Contains (s : text) (c : Z) : bool := existsb (Z.eqb c) s.
(** [strings.Cut]: before and after the separator, and whether it is there. *)
Fixpoint Cut (s : text) (c : Z) : text * text * bool :=
  match s with
  | [] => ([], [], false)
  | r :: s => if r =? c then ([], s, true) else let '(b, a, found) := Cut s c in (r :: b, a, found)
  end.
Fixpoint Split (s : text) (c : Z) : list text :=
  match s with
  | [] => [[]]
  | r :: s => if r =? c then [] :: Split s c
              else match Split s c with p :: ps => (r :: p) :: ps | [] => [[r]] end
  end.
(** [strings.Fields]: [word] is the field being read. *)
Fixpoint fields_from (word s : text) : list text :=
  match s with
  | [] => if bool_decide (word = []) then [] else [reverse word]
  | r :: s => if IsSpace r then (if bool_decide (word = []) then [] else [reverse word]) ++ fields_from [] s
              else fields_from (r :: word) s
  end.
Definition Fields (s : text) : list text := fields_from [] s.

(** [unicode.ToLower] where it yields an ASCII character: the letters, U+0130 and the Kelvin sign. *)
Definition ToLower_rune (r : Z) : Z :=
  if (65 <=? r) && (r <=? 90) then r + 32 else if r =? 304 then 105 else if r =? 8490 then 107 else r.
Definition ToLower (s : text) : text := map ToLower_rune s.

(** [strconv.Atoi]: a sign and decimal digits, in the range of an int64. *)
Definition is_digit (r : Z) : bool := (48 <=? r) && (r <=? 57).
Definition number (s : text) : Z := foldl (λ n r, n * 10 + (r - 48)) 0 s.
Definition Atoi (s : text) : option Z :=
  let '(neg, ds) := match s with 43 :: s => (false, s) | 45 :: s => (true, s) | _ => (false, s) end in
  if bool_decide (ds = []) || negb (forallb is_digit ds) then None
  else let n := if neg : bool then - number ds else number ds in
       if bool_decide (in_int64 n) then Some n else None.

(** ** Laws *)

Definition join (c : Z) (parts : list text) : text :=
  match parts with [] => [] | p :: ps => p ++ concat (map (cons c) ps) end.

Lemma Split_nonempty s c : Split s c ≠ [].
Proof. destruct s as [|r s]; simpl; [done|]. destruct (r =? c); [done|]. by destruct (Split s c). Qed.
Lemma Split_join s c : join c (Split s c) = s.
Proof.
  induction s as [|r s IH]; [done|]. simpl. destruct (Z.eqb_spec r c) as [->|N].
  - simpl. pose proof (Split_nonempty s c). destruct (Split s c) as [|p ps]; [done|]. simpl in *. by rewrite IH.
  - pose proof (Split_nonempty s c). destruct (Split s c) as [|p ps]; [done|]. simpl in *. by rewrite IH.
Qed.
Lemma Split_clean s c p : p ∈ Split s c → c ∉ p.
Proof.
  revert p. induction s as [|r s IH]; intros p; simpl.
  - intros ->%list_elem_of_singleton. apply not_elem_of_nil.
  - destruct (Z.eqb_spec r c) as [->|N].
    + intros [->|H]%elem_of_cons; [apply not_elem_of_nil|by apply IH].
    + pose proof (Split_nonempty s c). destruct (Split s c) as [|q qs]; [done|]. intros [->|H']%elem_of_cons.
      * apply not_elem_of_cons. split; [congruence|]. apply IH. by left.
      * apply IH. by right.
Qed.
Lemma Split_one p c : c ∉ p → Split p c = [p].
Proof.
  induction p as [|r p IH]; [done|]. rewrite not_elem_of_cons. intros [N H]. simpl. rewrite (proj2 (Z.eqb_neq r c)), IH by (done || congruence). done.
Qed.
Lemma Split_app p c s : c ∉ p → Split (p ++ c :: s) c = p :: Split s c.
Proof.
  induction p as [|r p IH]; simpl; [by rewrite Z.eqb_refl|]. rewrite not_elem_of_cons. intros [N H].
  rewrite (proj2 (Z.eqb_neq r c)), IH by (done || congruence). done.
Qed.
Lemma join_Split parts c : parts ≠ [] → Forall (λ p, c ∉ p) parts → Split (join c parts) c = parts.
Proof.
  destruct parts as [|p ps]; [done|]. intros _. revert p. induction ps as [|q qs IH]; intros p H; apply Forall_cons in H as [Hp H]; simpl.
  - rewrite app_nil_r. by apply Split_one.
  - rewrite Split_app by done. f_equal. by apply (IH q).
Qed.

Lemma Cut_found b a c : c ∉ b → Cut (b ++ c :: a) c = (b, a, true).
Proof.
  induction b as [|r b IH]; simpl; [by rewrite Z.eqb_refl|]. rewrite not_elem_of_cons. intros [N H].
  rewrite (proj2 (Z.eqb_neq r c)), IH by (done || congruence). done.
Qed.
Lemma Cut_spec s c b a : Cut s c = (b, a, true) → s = b ++ c :: a ∧ c ∉ b.
Proof.
  revert b a. induction s as [|r s IH]; intros b a; simpl; [done|]. destruct (Z.eqb_spec r c) as [->|N].
  - intros [= <- <-]. split; [done|apply not_elem_of_nil].
  - destruct (Cut s c) as [[b' a'] f] eqn:E. intros [= <- <- ->]. destruct (IH _ _ eq_refl) as [-> H]. split; [done|].
    apply not_elem_of_cons. split; [congruence|done].
Qed.
Lemma Cut_missing s c b a : Cut s c = (b, a, false) → b = s ∧ a = [] ∧ c ∉ s.
Proof.
  revert b a. induction s as [|r s IH]; intros b a; simpl; [intros [= <- <-]; split_and!; try done; apply not_elem_of_nil|].
  destruct (Z.eqb_spec r c) as [->|N]; [done|]. destruct (Cut s c) as [[b' a'] f] eqn:E. intros [= <- <- ->].
  destruct (IH _ _ eq_refl) as (-> & -> & H). split_and!; try done. apply not_elem_of_cons. split; [congruence|done].
Qed.
Lemma Count_nil c : Count [] c = 0%nat.
Proof. done. Qed.
Lemma Count_app s t c : Count (s ++ t) c = (Count s c + Count t c)%nat.
Proof. unfold Count. by rewrite filter_app, length_app. Qed.
Lemma Count_cons r s c : Count (r :: s) c = ((if decide (r = c) then 1 else 0) + Count s c)%nat.
Proof. unfold Count. rewrite filter_cons. by destruct (decide (r = c)). Qed.
Lemma Count_zero s c : Count s c = 0%nat ↔ c ∉ s.
Proof.
  unfold Count. rewrite length_zero_iff_nil. split.
  - intros E H. assert (c ∈ filter (λ r, r = c) s) as H' by by apply list_elem_of_filter. rewrite E in H'. by apply not_elem_of_nil in H'.
  - intros H. apply elem_of_nil_inv. intros x [-> Hx]%list_elem_of_filter. done.
Qed.
Lemma text_contains_spec s c : Contains s c = true ↔ c ∈ s.
Proof. unfold Contains. rewrite existsb_spec. split; [intros (x & H & ->%Z.eqb_eq); done|]. intros H. exists c. by rewrite Z.eqb_refl. Qed.

Lemma trim_left_id s : (∀ r s', s = r :: s' → IsSpace r = false) → trim_left s = s.
Proof. destruct s as [|r s]; [done|]. intros H. simpl. by rewrite (H r s). Qed.
Lemma TrimSpace_id s : Forall (λ r, IsSpace r = false) s → TrimSpace s = s.
Proof.
  intros H. unfold TrimSpace. rewrite (trim_left_id s). 2: { intros r s' ->. by apply Forall_cons in H as [? _]. }
  rewrite trim_left_id; [apply reverse_involutive|]. intros r s' E. rewrite Forall_forall in H. apply H. apply elem_of_reverse. rewrite E. by left.
Qed.

Lemma Atoi_range s n : Atoi s = Some n → in_int64 n.
Proof.
  unfold Atoi. destruct (match s with 43 :: s => (false, s) | 45 :: s => (true, s) | _ => (false, s) end) as [neg ds].
  destruct (_ || _); [done|]. case_bool_decide; [|done]. by intros [= <-].
Qed.
