(* ===== verification/SchedCalendar.v ===== *)
(** * Schedules: compiled calendars ([service/worker/scheduler/calendar.go])

    A calendar is compiled to one matcher per field; [next] finds the first time after a given one that matches them all.  A zero
    [time.Time] is [None]. *)
From S2P Require Import Prelude SchedTime SchedText.
Local Open Scope Z_scope.
Local Open Scope go_scope.

Definition minCalendarYear : Z := 2000.
Definition maxCalendarYear : Z := 2100.
Definition maxCommentLen : Z := 200.

(** The fields of a calendar, as the error messages name them. *)
Inductive cal_field := InSecond | InMinute | InHour | InDayOfMonth | InMonth | InYear | InDayOfWeek.

(** The errors, one constructor per message; [LoopsForever] is a loop that does not end. *)
Inductive sched_error :=
  | LoopsForever
  | errOutOfRange | errConflictingTimezoneNames | errAtoi
  | errTooManySlashes (f : cal_field) | errMissingStep (f : cal_field) | errInvalidStep (f : cal_field) | errTooManyDashes (f : cal_field)
  | errStart (f : cal_field) | errEnd (f : cal_field) | errValue (f : cal_field)
  | errJoined (errs : list sched_error) | errInvalidCalendar (errs : list sched_error) | errCommentTooLong
  | errTimezoneOnly | errFieldCount | errNoInterval | errParseDuration
  | errIntervalTooSmall | errPhaseNegative | errPhaseTooLarge | errLoadLocation.
Notation result := (outcome sched_error).

(** A loop that runs at most [p] times: [inl] goes on, [inr] leaves. *)
Fixpoint ploop {S R} (p : positive) (step : S → S + R) (s : S) : S + R :=
  match p with
  | xH => step s
  | xO p => match ploop p step s with inl s => ploop p step s | inr r => inr r end
  | xI p => match step s with
            | inl s => match ploop p step s with inl s => ploop p step s | inr r => inr r end
            | inr r => inr r
            end
  end.
(** What one turn keeps, if a measure grows with each. *)
Lemma ploop_spec {S R} (step : S → S + R) (I : S → Prop) (Fin : R → Prop) (rank : S → Z) p s :
  (∀ s, I s → match step s with inl s' => I s' ∧ rank s < rank s' | inr r => Fin r end) → I s →
  match ploop p step s with inl s' => I s' ∧ rank s + Z.pos p ≤ rank s' | inr r => Fin r end.
Proof.
  intros H. revert s. induction p as [p IH|p IH|]; intros s Hs; simpl.
  - pose proof (H s Hs) as H1. destruct (step s) as [s1|]; [|done]. destruct H1 as [H1 R1].
    pose proof (IH s1 H1) as H2. destruct (ploop p step s1) as [s2|]; [|done]. destruct H2 as [H2 R2].
    pose proof (IH s2 H2) as H3. destruct (ploop p step s2); [|done]. destruct H3. split; [done|lia].
  - pose proof (IH s Hs) as H2. destruct (ploop p step s) as [s2|]; [|done]. destruct H2 as [H2 R2].
    pose proof (IH s2 H2) as H3. destruct (ploop p step s2); [|done]. destruct H3. split; [done|lia].
  - pose proof (H s Hs) as H1. destruct (step s); [|done]. destruct H1. split; [done|lia].
Qed.

(** ** Ranges and matchers *)

(** [schedulepb.Range]: three int32. *)
Record Range := mkRange { Start : Z; End : Z; Step : Z }.
Record StructuredCalendarSpec := mkStructured {
  sSecond : list Range; sMinute : list Range; sHour : list Range; sDayOfMonth : list Range; sMonth : list Range; sYear : list Range;
  sDayOfWeek : list Range; sComment : text }.

(** The inner loop of [iterateRanges]: with a negative step it ends only when [f] panics, which the fuel is enough for. *)
Fixpoint iterate {A} (fuel : nat) (f : A → Z → result A) (acc : A) (start end_ step : Z) : result A :=
  if start <=? end_ then
    match fuel with
    | O => Err LoopsForever
    | S fuel => let! acc := f acc start in iterate fuel f acc (start + step) end_ step
    end
  else Ok acc.
Definition range_fuel (r : Range) : nat := Z.to_nat (Z.abs (Start r) + Z.abs (End r) + 2).
Fixpoint iterateRanges {A} (ranges : list Range) (f : A → Z → result A) (acc : A) : result A :=
  match ranges with
  | [] => Ok acc
  | r :: ranges =>
      let step := if Step r =? 0 then 1 else Step r in
      let end_ := if End r <? Start r then Start r else End r in
      let! acc := iterate (range_fuel r) f acc (Start r) end_ step in iterateRanges ranges f acc
  end.

(** [1 << i] of a uint64; shifting by a negative number panics. *)
Definition uint64_bit (i : Z) : Z := if i <? 64 then Z.shiftl 1 i else 0.
Definition add_bit (bits i : Z) : result Z := if i <? 0 then Panic else Ok (Z.lor bits (uint64_bit i)).
Definition makeBitMatcher (ranges : list Range) : result Z := iterateRanges ranges add_bit 0.
Definition bit_match (bits v : Z) : bool := negb (Z.land (uint64_bit v) bits =? 0).

Definition wrap16 (z : Z) : Z := (z + 2 ^ 15) mod 2 ^ 16 - 2 ^ 15.
(** [None] matches every year. *)
Definition makeYearMatcher (ranges : list Range) : result (option (list Z)) :=
  match ranges with
  | [] => Ok None
  | _ => let! values := iterateRanges ranges (λ values i, Ok (values ++ [wrap16 i])) [] in Ok (Some values)
  end.
Definition year_match (values : option (list Z)) (v : Z) : bool :=
  match values with None => true | Some values => existsb (Z.eqb v) values end.

Record compiledCalendar := mkCompiled {
  tz : Location; year : option (list Z); month : Z; dayOfMonth : Z; dayOfWeek : Z; hour : Z; minute : Z; second : Z }.
Definition newCompiledCalendar (cal : StructuredCalendarSpec) (l : Location) : result compiledCalendar :=
  let! y := makeYearMatcher (sYear cal) in let! mo := makeBitMatcher (sMonth cal) in
  let! d := makeBitMatcher (sDayOfMonth cal) in let! w := makeBitMatcher (sDayOfWeek cal) in
  let! h := makeBitMatcher (sHour cal) in let! m := makeBitMatcher (sMinute cal) in
  let! s := makeBitMatcher (sSecond cal) in Ok (mkCompiled l y mo d w h m s).

Definition matches (cc : compiledCalendar) (ts : Z) : bool :=
  let '(y, mo, d) := Date (tz cc) ts in
  let '(h, m, s) := Clock (tz cc) ts in
  year_match (year cc) y && bit_match (month cc) mo && bit_match (dayOfMonth cc) d && bit_match (dayOfWeek cc) (Weekday (tz cc) ts) &&
  bit_match (hour cc) h && bit_match (minute cc) m && bit_match (second cc) s.

(** ** The next matching time *)

(** The variables of [next]; [dst] is whether [dstoffset] is an hour. *)
Record fields := mkFields { fy : Z; fmo : Z; fd : Z; fh : Z; fm : Z; fs : Z; dst : bool }.
(** A turn of the outer loop goes on, or returns a time or none. *)
Notation next_result := (fields + option Z)%type.
Notation Continue st := (inl st) (only parsing).
Notation Found ts := (inr (Some ts)) (only parsing).
Notation NoMore := (inr None) (only parsing).

Definition time_of (cc : compiledCalendar) (st : fields) : Z := MakeDate (tz cc) (fy st) (fmo st) (fd st) (fh st) (fm st) (fs st).

Definition carry_second (st : fields) : fields :=
  if 60 <=? fs st then mkFields (fy st) (fmo st) (fd st) (fh st) (fm st + 1) 0 (dst st) else st.
Definition carry_minute (cc : compiledCalendar) (st : fields) : fields :=
  if 60 <=? fm st then
    let prev := MakeDate (tz cc) (fy st) (fmo st) (fd st) (fh st) 0 0 in
    let next := MakeDate (tz cc) (fy st) (fmo st) (fd st) (fh st + 1) 0 0 in
    if negb (dst st) && (3600 <? next - prev) then mkFields (fy st) (fmo st) (fd st) (fh st) 0 (fs st) true
    else mkFields (fy st) (fmo st) (fd st) (fh st + 1) 0 (fs st) false
  else st.
Definition carry_hour (st : fields) : fields :=
  if 24 <=? fh st then mkFields (fy st) (fmo st) (fd st + 1) 0 (fm st) (fs st) (dst st) else st.
Definition carry_day (st : fields) : fields :=
  if daysInMonth (fmo st) (fy st) <? fd st then mkFields (fy st) (fmo st + 1) 1 (fh st) (fm st) (fs st) (dst st) else st.
Definition carry_month (st : fields) : fields :=
  if December <? fmo st then mkFields (fy st + 1) 1 (fd st) (fh st) (fm st) (fs st) (dst st) else st.
Definition normalize (cc : compiledCalendar) (st : fields) : fields :=
  carry_month (carry_day (carry_hour (carry_minute cc (carry_second st)))).

Definition next_year (st : fields) : fields := mkFields (fy st + 1) 1 1 0 0 0 false.
Definition next_month (st : fields) : fields := mkFields (fy st) (fmo st + 1) 1 0 0 0 false.
Definition next_day (st : fields) : fields := mkFields (fy st) (fmo st) (fd st + 1) 0 0 0 false.
Definition next_hour (st : fields) : fields := mkFields (fy st) (fmo st) (fd st) (fh st + 1) 0 0 false.
Definition next_minute (st : fields) : fields := mkFields (fy st) (fmo st) (fd st) (fh st) (fm st + 1) 0 (dst st).
Definition next_second (st : fields) : fields := mkFields (fy st) (fmo st) (fd st) (fh st) (fm st) (fs st + 1) (dst st).

Definition day_match (cc : compiledCalendar) (st : fields) : bool :=
  bit_match (dayOfMonth cc) (fd st) && bit_match (dayOfWeek cc) (Weekday (tz cc) (time_of cc st)).

(** One of the inner loops: [inl] continues the outer loop, [inr] goes on to the next field.  [n] is how often [bump] can be called before
    [over]. *)
Fixpoint search (n : nat) (test : fields → bool) (bump : fields → fields) (over : fields → bool) (st : fields) : fields + fields :=
  match n with
  | O => inl st
  | S n => if test st then inr st else let st := bump st in if over st then inl st else search n test bump over st
  end.
Definition month_loop (cc : compiledCalendar) (st : fields) : fields + fields :=
  search (Z.to_nat (13 - fmo st)) (λ st, bit_match (month cc) (fmo st)) next_month (λ st, December <? fmo st) st.
Definition day_loop (cc : compiledCalendar) (st : fields) : fields + fields :=
  search (Z.to_nat (daysInMonth (fmo st) (fy st) + 1 - fd st)) (day_match cc) next_day (λ st, daysInMonth (fmo st) (fy st) <? fd st) st.
Definition hour_loop (cc : compiledCalendar) (st : fields) : fields + fields :=
  search (Z.to_nat (24 - fh st)) (λ st, bit_match (hour cc) (fh st)) next_hour (λ st, 24 <=? fh st) st.
Definition minute_loop (cc : compiledCalendar) (st : fields) : fields + fields :=
  search (Z.to_nat (60 - fm st)) (λ st, bit_match (minute cc) (fm st)) next_minute (λ st, 60 <=? fm st) st.
Definition second_loop (cc : compiledCalendar) (st : fields) : fields + fields :=
  search (Z.to_nat (60 - fs st)) (λ st, bit_match (second cc) (fs st)) next_second (λ st, 60 <=? fs st) st.

Definition sbind (r : fields + fields) (k : fields → next_result) : next_result :=
  match r with inl st => Continue st | inr st => k st end.

(** The body of the outer loop. *)
Definition next_step (cc : compiledCalendar) (st : fields) : next_result :=
  let st := normalize cc st in
  if maxCalendarYear <? fy st then NoMore
  else if negb (year_match (year cc) (fy st)) then Continue (next_year st)
  else
    sbind (month_loop cc st) (λ st, sbind (day_loop cc st) (λ st, sbind (hour_loop cc st) (λ st,
    sbind (minute_loop cc st) (λ st, sbind (second_loop cc st) (λ st,
      let nextTs := time_of cc st in
      if negb (Hour (tz cc) nextTs =? fh st) then Continue (mkFields (fy st) (fmo st) (fd st) (fh st + 1) 0 0 (dst st))
      else Found (nextTs + (if dst st then 3600 else 0))))))).

(** Every turn raises the fields, read as digits. *)
Definition rank (st : fields) : Z := ((((fy st * 14 + fmo st) * 34 + fd st) * 52 + (2 * fh st + if dst st then 1 else 0)) * 64 + fm st) * 64 + fs st.
Definition next_fuel (st : fields) : positive := Z.to_pos ((maxCalendarYear + 2) * 14 * 34 * 52 * 64 * 64 - rank st + 1).

Definition next (cc : compiledCalendar) (ts : Z) : result (option Z) :=
  let '(y, mo, d) := Date (tz cc) ts in
  let '(h, m, s) := Clock (tz cc) ts in
  let st := mkFields y mo d h m (s + 1) (Hour (tz cc) (ts - 3600) =? h) in
  match ploop (next_fuel st) (next_step cc) st with inl _ => Err LoopsForever | inr r => Ok r end.
