(* ===== verification/SchedNext.v ===== *)
(** * Schedules: [next] returns, and in a zone without transitions finds the earliest matching time *)
From S2P Require Import Prelude SchedTime SchedCalendar.
Local Open Scope Z_scope.
Local Open Scope go_scope.

(** ** Fields *)

(** In range. *)
Record normal (st : fields) : Prop := {
  nm_mo : 1 ≤ fmo st ≤ 12;
  nm_d : 1 ≤ fd st ≤ daysInMonth (fmo st) (fy st);
  nm_h : 0 ≤ fh st < 24;
  nm_m : 0 ≤ fm st < 60;
  nm_s : 0 ≤ fs st < 60 }.

(** In range but for one carry. *)
Inductive carrying (st : fields) : Prop :=
  | cy_none : normal st → carrying st
  | cy_second : normal (mkFields (fy st) (fmo st) (fd st) (fh st) (fm st) 0 (dst st)) → fs st = 60 → carrying st
  | cy_minute : normal (mkFields (fy st) (fmo st) (fd st) (fh st) 0 0 (dst st)) → fm st = 60 → fs st = 0 → carrying st
  | cy_hour : normal (mkFields (fy st) (fmo st) (fd st) 0 0 0 (dst st)) → fh st = 24 → fm st = 0 → fs st = 0 → carrying st
  | cy_day : normal (mkFields (fy st) (fmo st) 1 0 0 0 (dst st)) → fd st = daysInMonth (fmo st) (fy st) + 1 → fh st = 0 → fm st = 0 → fs st = 0 → carrying st
  | cy_month : fmo st = 13 → fd st = 1 → fh st = 0 → fm st = 0 → fs st = 0 → carrying st.

(** The fields as seconds, read as if in UTC. *)
Definition value (st : fields) : Z := day_number (fy st) (fmo st) (fd st) * 86400 + fh st * 3600 + fm st * 60 + fs st.

Lemma first_normal y mo : 1 ≤ mo ≤ 12 → normal (mkFields y mo 1 0 0 0 false).
Proof. intros. pose proof (days_in_month_range mo y). constructor; simpl; lia. Qed.


Ltac fields_tac := simpl in *; repeat match goal with
  | H : normal _ |- _ => destruct H; simpl in *
  end; subst; simpl in *.

Lemma rank_carry y mo d k m s y' mo' d' k' m' s' :
  0 ≤ s < 64 → 0 ≤ s' → 0 ≤ m < 64 → 0 ≤ m' → 0 ≤ k < 52 → 0 ≤ k' → 0 ≤ d < 34 → 0 ≤ d' → 0 ≤ mo ≤ 14 → 1 ≤ mo' →
  (y < y' ∨ y = y' ∧ (mo < mo' ∨ mo = mo' ∧ (d < d' ∨ d = d' ∧ (k < k' ∨ k = k' ∧ (m < m' ∨ m = m' ∧ s < s'))))) →
  ((((y * 14 + mo) * 34 + d) * 52 + k) * 64 + m) * 64 + s < ((((y' * 14 + mo') * 34 + d') * 52 + k') * 64 + m') * 64 + s'.
Proof. intros. intuition lia. Qed.

Lemma carry_second_spec st : carrying st → carrying (carry_second st) ∧ fs (carry_second st) < 60 ∧ rank st ≤ rank (carry_second st) ∧
  value (carry_second st) = value st ∧ dst (carry_second st) = dst st.
Proof.
  destruct st as [y mo d h m s b]. unfold carry_second, rank, value. simpl. intros C.
  destruct C as [N|N E|N E1 E2|N E1 E2 E3|N E1 E2 E3 E4|E1 E2 E3 E4 E5]; simpl in *.
  1: { pose proof (nm_s _ N); simpl in *. rewrite (proj2 (Z.leb_gt 60 s)) by lia. split_and!; simpl; try lia; try done. by apply cy_none. }
  1: { subst s. simpl. destruct (decide (m = 59)) as [->|Nm]; destruct N; simpl in *.
       - split_and!; try lia; try done. apply cy_minute; simpl; [by constructor|done..].
       - split_and!; try lia; try done. apply cy_none. constructor; simpl; lia. }
  all: subst; simpl; split_and!; try lia; try done.
  - by apply cy_minute.
  - by apply cy_hour.
  - by apply cy_day.
  - by apply cy_month.
Qed.
Ltac carry_cases C := destruct C as [N|N E|N E1 E2|N E1 E2 E3|N E1 E2 E3 E4|E1 E2 E3 E4 E5]; simpl in *.
Ltac carry_done := split_and!; simpl; try lia; try done.

Lemma carry_minute_spec cc st : carrying st → fs st < 60 → carrying (carry_minute cc st) ∧ fs (carry_minute cc st) < 60 ∧ fm (carry_minute cc st) < 60 ∧
  rank st ≤ rank (carry_minute cc st) ∧ (value (carry_minute cc st) = value st ∨ dst st = false ∧ dst (carry_minute cc st) = true) ∧
  (dst (carry_minute cc st) = true → dst st = true ∨ 3600 <
    MakeDate (tz cc) (fy st) (fmo st) (fd st) (fh st + 1) 0 0 - MakeDate (tz cc) (fy st) (fmo st) (fd st) (fh st) 0 0).
Proof.
  destruct st as [y mo d h m s b]. unfold carry_minute, rank, value. simpl. intros C Hs.
  destruct (Z.leb_spec 60 m) as [Hm|Hm].
  - carry_cases C; try (first [lia|destruct N; simpl in *; lia]). subst m s. destruct N; simpl in *.
    set (D := MakeDate (tz cc) y mo d (h + 1) 0 0 - MakeDate (tz cc) y mo d h 0 0).
    destruct (negb b && (3600 <? D)) eqn:Hb; simpl.
    + apply andb_true_iff in Hb as [Hb Hd]. apply negb_true_iff in Hb. subst b. apply Z.ltb_lt in Hd. carry_done; try by right.
      apply cy_none. by constructor.
    + assert (carrying (mkFields y mo d (h + 1) 0 0 false)) as C'.
      { destruct (decide (h = 23)) as [->|Nh]; [apply cy_hour|apply cy_none]; try done; constructor; simpl; lia. }
      destruct b; carry_done; left; lia.
  - carry_done; by left.
Qed.
Lemma carry_hour_spec st : carrying st → fs st < 60 → fm st < 60 → carrying (carry_hour st) ∧ fs (carry_hour st) < 60 ∧ fm (carry_hour st) < 60 ∧
  fh (carry_hour st) < 24 ∧ rank st ≤ rank (carry_hour st) ∧ value (carry_hour st) = value st ∧ dst (carry_hour st) = dst st.
Proof.
  destruct st as [y mo d h m s b]. unfold carry_hour, rank, value. simpl. intros C Hs Hm. destruct (Z.leb_spec 24 h) as [Hh|Hh]; [|carry_done].
  carry_cases C; try (first [lia|destruct N; simpl in *; lia]). subst h m s. destruct N; simpl in *. pose proof (day_number_day y mo d). pose proof (day_number_day y mo (d + 1)).
  pose proof (days_in_month_range mo y). carry_done. destruct (decide (d = daysInMonth mo y)) as [->|Nd]; [apply cy_day|apply cy_none]; try done; constructor; simpl; lia.
Qed.
Lemma carry_day_spec st : carrying st → fs st < 60 → fm st < 60 → fh st < 24 → (normal (carry_day st) ∨ carrying (carry_day st) ∧ fmo (carry_day st) = 13) ∧
  rank st ≤ rank (carry_day st) ∧ value (carry_day st) = value st ∧ dst (carry_day st) = dst st.
Proof.
  destruct st as [y mo d h m s b]. unfold carry_day, rank, value. simpl. intros C Hs Hm Hh. carry_cases C.
  2-4: exfalso; lia.
  - destruct N as [N1 N2 N3 N4 N5]; simpl in *. rewrite (proj2 (Z.ltb_ge (daysInMonth mo y) d)) by lia. carry_done. left. by constructor.
  - subst. destruct N as [N1 N2 N3 N4 N5]; simpl in *. rewrite (proj2 (Z.ltb_lt (daysInMonth mo y) (daysInMonth mo y + 1))) by lia.
    pose proof (day_number_next_month y mo N1). pose proof (day_number_day y mo (daysInMonth mo y + 1)). pose proof (days_in_month_range mo y N1).
    carry_done. destruct (decide (mo = 12)) as [->|Nm]; [right|left].
    + split; [|done]. by apply cy_month.
    + pose proof (days_in_month_range (mo + 1) y). constructor; simpl; lia.
  - subst. assert (daysInMonth 13 y = 30) as E by done. rewrite E. simpl. carry_done. right. split; [|done]. by apply cy_month.
Qed.
Lemma carry_month_spec st : normal st ∨ carrying st ∧ fmo st = 13 → normal (carry_month st) ∧ rank st ≤ rank (carry_month st) ∧
  value (carry_month st) = value st ∧ dst (carry_month st) = dst st.
Proof.
  destruct st as [y mo d h m s b]. unfold carry_month, rank, value, December. simpl. intros [N|[C ->]].
  - pose proof (nm_mo _ N); simpl in *. rewrite (proj2 (Z.ltb_ge 12 mo)) by lia. done.
  - carry_cases C; try (first [lia|destruct N; simpl in *; lia]). subst. pose proof (day_number_next_year y).
    pose proof (days_in_month_range 1 (y + 1)). carry_done; by constructor.
Qed.

(** The carries at the head of the loop. *)
Lemma normalize_spec cc st : carrying st → normal (normalize cc st) ∧ rank st ≤ rank (normalize cc st).
Proof.
  intros C. unfold normalize. destruct (carry_second_spec st C) as (C1 & S1 & R1 & _). destruct (carry_minute_spec cc _ C1 S1) as (C2 & S2 & M2 & R2 & _).
  destruct (carry_hour_spec _ C2 S2 M2) as (C3 & S3 & M3 & H3 & R3 & _). destruct (carry_day_spec _ C3 S3 M3 H3) as (C4 & R4 & _).
  destruct (carry_month_spec _ C4) as (N5 & R5 & _). split; [done|lia].
Qed.

(** ** The loops *)

(** An inner loop keeps [P] until its test succeeds, which gives [Q], or reaches [R]. *)
Lemma search_spec (P Q R : fields → Prop) (room : fields → Z) test bump over st :
  (∀ st, P st → test st = false → over (bump st) = true → R (bump st)) →
  (∀ st, P st → test st = false → over (bump st) = false → P (bump st) ∧ room (bump st) = room st - 1) →
  (∀ st, P st → 1 ≤ room st) → (∀ st, P st → test st = true → Q st) → P st →
  match search (Z.to_nat (room st)) test bump over st with inl st' => R st' | inr st' => Q st' end.
Proof.
  intros HR HP Hr HQ. remember (Z.to_nat (room st)) as n eqn:En. revert st En. induction n as [|n IH]; intros st En H; simpl.
  - specialize (Hr _ H). lia.
  - destruct (test st) eqn:Ht; [by apply HQ|]. destruct (over (bump st)) eqn:Ho; [by apply HR|].
    destruct (HP st H Ht Ho) as [HP' Er]. apply IH; [|done]. lia.
Qed.

Section step.
Context (cc : compiledCalendar).
(** [J] is kept by the carries and holds at each turn of an inner loop; [K] holds when a turn moved on. *)
Context (J K : fields → Prop).
Context (KJ : ∀ st, K st → J st).
Context (Jn : ∀ st, carrying st → J st → J (normalize cc st)).
Context (Ky : ∀ st, normal st → fy st ≤ maxCalendarYear → J st → year_match (year cc) (fy st) = false → K (next_year st)).
Context (Kmo : ∀ st, normal st → fy st ≤ maxCalendarYear → J st → bit_match (month cc) (fmo st) = false → K (next_month st)).
Context (Kd : ∀ st, normal st → fy st ≤ maxCalendarYear → J st → day_match cc st = false → K (next_day st)).
Context (Kh : ∀ st, normal st → fy st ≤ maxCalendarYear → J st → bit_match (hour cc) (fh st) = false → K (next_hour st)).
Context (Km : ∀ st, normal st → fy st ≤ maxCalendarYear → J st → bit_match (minute cc) (fm st) = false → K (next_minute st)).
Context (Ks : ∀ st, normal st → fy st ≤ maxCalendarYear → J st → bit_match (second cc) (fs st) = false → K (next_second st)).
Context (Kg : ∀ st, normal st → fy st ≤ maxCalendarYear → J st → Hour (tz cc) (time_of cc st) ≠ fh st → K (mkFields (fy st) (fmo st) (fd st) (fh st + 1) 0 0 (dst st))).

(** The day of week was looked up at some time of the day. *)
Definition day_seen (st : fields) : Prop := bit_match (dayOfMonth cc) (fd st) = true ∧ ∃ h m s, 0 ≤ h < 24 ∧ 0 ≤ m < 60 ∧ 0 ≤ s < 60 ∧
  bit_match (dayOfWeek cc) (Weekday (tz cc) (MakeDate (tz cc) (fy st) (fmo st) (fd st) h m s)) = true.

(** What a turn of the loop ends in. *)
Definition turned (r : next_result) : Prop :=
  match r with
  | Continue st => carrying st ∧ K st
  | Found ts => ∃ st, normal st ∧ J st ∧ fy st ≤ maxCalendarYear ∧ year_match (year cc) (fy st) = true ∧ bit_match (month cc) (fmo st) = true ∧
      day_seen st ∧ bit_match (hour cc) (fh st) = true ∧ bit_match (minute cc) (fm st) = true ∧ bit_match (second cc) (fs st) = true ∧
      Hour (tz cc) (time_of cc st) = fh st ∧ ts = time_of cc st + (if dst st then 3600 else 0)
  | NoMore => ∃ st, normal st ∧ J st ∧ maxCalendarYear < fy st
  end.

Lemma normal_next_month st : normal st → (December <? fmo st + 1) = false → normal (next_month st).
Proof. intros [] H%Z.ltb_ge. unfold December in H. pose proof (days_in_month_range (fmo st + 1) (fy st)). constructor; simpl; lia. Qed.
Lemma normal_next_day st : normal st → (daysInMonth (fmo st) (fy st) <? fd st + 1) = false → normal (next_day st).
Proof. intros [] H%Z.ltb_ge. constructor; simpl; lia. Qed.
Lemma normal_next_hour st : normal st → (24 <=? fh st + 1) = false → normal (next_hour st).
Proof. intros [] H%Z.leb_gt. constructor; simpl; lia. Qed.
Lemma normal_next_minute st : normal st → (60 <=? fm st + 1) = false → normal (next_minute st).
Proof. intros [] H%Z.leb_gt. constructor; simpl; lia. Qed.
Lemma normal_next_second st : normal st → (60 <=? fs st + 1) = false → normal (next_second st).
Proof. intros [] H%Z.leb_gt. constructor; simpl; lia. Qed.

Lemma carrying_next_month st : normal st → (December <? fmo st + 1) = true → carrying (next_month st).
Proof. intros [] H%Z.ltb_lt. unfold December in H. apply cy_month; simpl; lia. Qed.
Lemma carrying_next_day st : normal st → (daysInMonth (fmo st) (fy st) <? fd st + 1) = true → carrying (next_day st).
Proof. intros [] H%Z.ltb_lt. apply cy_day; simpl; try lia. by apply first_normal. Qed.
Lemma carrying_next_hour st : normal st → (24 <=? fh st + 1) = true → carrying (next_hour st).
Proof. intros [] H%Z.leb_le. apply cy_hour; simpl; try lia. constructor; simpl; lia. Qed.
Lemma carrying_next_minute st : normal st → (60 <=? fm st + 1) = true → carrying (next_minute st).
Proof. intros [] H%Z.leb_le. apply cy_minute; simpl; try lia. constructor; simpl; lia. Qed.
Lemma carrying_next_second st : normal st → (60 <=? fs st + 1) = true → carrying (next_second st).
Proof. intros [] H%Z.leb_le. apply cy_second; simpl; try lia. constructor; simpl; lia. Qed.

(** The fields outside of a loop keep their matches. *)
Record outer (n : nat) (st : fields) : Prop := {
  ou_normal : normal st; ou_J : J st; ou_max : fy st ≤ maxCalendarYear;
  ou_year : year_match (year cc) (fy st) = true;
  ou_month : (1 ≤ n)%nat → bit_match (month cc) (fmo st) = true;
  ou_day : (2 ≤ n)%nat → day_seen st;
  ou_hour : (3 ≤ n)%nat → bit_match (hour cc) (fh st) = true;
  ou_minute : (4 ≤ n)%nat → bit_match (minute cc) (fm st) = true }.
Definition moved (st : fields) : Prop := carrying st ∧ K st.

Lemma month_loop_spec st : outer 0 st → match month_loop cc st with inl st' => moved st' | inr st' => outer 1 st' end.
Proof using KJ Kmo.
  intros O. apply (search_spec (outer 0) (outer 1) moved (λ st, 13 - fmo st)); [| | | |done].
  - intros s [] Ht Ho. split; [by apply carrying_next_month|by apply Kmo].
  - intros s [] Ht Ho. split; [|simpl; lia]. constructor; simpl; try done; try lia; [by apply normal_next_month|by apply KJ, Kmo].
  - intros s [[] _ _ _ _ _ _ _]. lia.
  - intros s [] Ht. constructor; try done; lia.
Qed.
Lemma day_loop_spec st : outer 1 st → match day_loop cc st with inl st' => moved st' | inr st' => outer 2 st' end.
Proof using KJ Kd.
  intros O. apply (search_spec (outer 1) (outer 2) moved (λ st, daysInMonth (fmo st) (fy st) + 1 - fd st)); [| | | |done].
  - intros s [] Ht Ho. split; [by apply carrying_next_day|by apply Kd].
  - intros s [] Ht Ho. split; [|simpl; lia]. constructor; simpl; try done; try lia; [by apply normal_next_day|by apply KJ, Kd].
  - intros s [[] _ _ _ _ _ _ _]. lia.
  - intros s [] Ht. constructor; try done; try lia; [by intros _; apply ou_month0; lia|]. intros _.
    unfold day_match in Ht. apply andb_true_iff in Ht as [Hd Hw]. split; [done|]. destruct ou_normal0. by exists (fh s), (fm s), (fs s).
Qed.
Lemma hour_loop_spec st : outer 2 st → match hour_loop cc st with inl st' => moved st' | inr st' => outer 3 st' end.
Proof using KJ Kh.
  intros O. apply (search_spec (outer 2) (outer 3) moved (λ st, 24 - fh st)); [| | | |done].
  - intros s [] Ht Ho. split; [by apply carrying_next_hour|by apply Kh].
  - intros s [] Ht Ho. split; [|simpl; lia]. constructor; simpl; try done; try lia; [by apply normal_next_hour|by apply KJ, Kh].
  - intros s [[] _ _ _ _ _ _ _]. lia.
  - intros s [] Ht. constructor; try done; try lia; intros _; auto with lia.
Qed.
Lemma minute_loop_spec st : outer 3 st → match minute_loop cc st with inl st' => moved st' | inr st' => outer 4 st' end.
Proof using KJ Km.
  intros O. apply (search_spec (outer 3) (outer 4) moved (λ st, 60 - fm st)); [| | | |done].
  - intros s [] Ht Ho. split; [by apply carrying_next_minute|by apply Km].
  - intros s [] Ht Ho. split; [|simpl; lia]. constructor; simpl; try done; try lia; [by apply normal_next_minute|by apply KJ, Km].
  - intros s [[] _ _ _ _ _ _ _]. lia.
  - intros s [] Ht. constructor; try done; try lia; intros _; auto with lia.
Qed.
Lemma second_loop_spec st : outer 4 st → match second_loop cc st with inl st' => moved st' | inr st' => outer 4 st' ∧ bit_match (second cc) (fs st') = true end.
Proof using KJ Ks.
  intros O. apply (search_spec (outer 4) (λ st, outer 4 st ∧ bit_match (second cc) (fs st) = true) moved (λ st, 60 - fs st)); [| | | |done].
  - intros s [] Ht Ho. split; [by apply carrying_next_second|by apply Ks].
  - intros s [] Ht Ho. split; [|simpl; lia]. constructor; simpl; try done; try lia; [by apply normal_next_second|by apply KJ, Ks].
  - intros s [[] _ _ _ _ _ _ _]. lia.
  - done.
Qed.

(** One turn of the outer loop. *)
Lemma next_step_spec st : carrying st → J st → turned (next_step cc st).
Proof using All.
  intros C HJ. unfold next_step. cbn zeta. pose proof (Jn st C HJ) as HJ1. destruct (normalize_spec cc st C) as [N1 _].
  revert HJ1 N1. generalize (normalize cc st). clear st C HJ. intros st HJ N.
  destruct (Z.ltb_spec maxCalendarYear (fy st)); [by exists st|]. destruct (year_match (year cc) (fy st)) eqn:Ey; simpl.
  2: { split; [apply cy_none; by apply (first_normal (fy st + 1) 1)|by apply Ky]. }
  assert (outer 0 st) as O by (constructor; try done; lia). pose proof (month_loop_spec st O) as S. destruct (month_loop cc st) as [s|s]; [done|]. simpl.
  clear st HJ N H Ey O. pose proof (day_loop_spec s S) as S1. destruct (day_loop cc s) as [s1|s1]; [done|]. simpl. clear s S.
  pose proof (hour_loop_spec s1 S1) as S2. destruct (hour_loop cc s1) as [s2|s2]; [done|]. simpl. clear s1 S1.
  pose proof (minute_loop_spec s2 S2) as S3. destruct (minute_loop cc s2) as [s3|s3]; [done|]. simpl. clear s2 S2.
  pose proof (second_loop_spec s3 S3) as S4. destruct (second_loop cc s3) as [s4|s4]; [done|]. simpl. clear s3 S3. destruct S4 as [[] Hs].
  destruct (Z.eqb_spec (Hour (tz cc) (time_of cc s4)) (fh s4)) as [Eh|Nh]; simpl.
  - exists s4. split_and!; auto.
  - split; [|by apply Kg]. destruct ou_normal0. destruct (decide (fh s4 = 23)) as [E|N]; [apply cy_hour|apply cy_none]; simpl; try lia; constructor; simpl; lia.
Qed.
End step.

(** ** [next] returns *)

Lemma rank_bound st : carrying st → fy st ≤ maxCalendarYear + 1 → rank st < (maxCalendarYear + 2) * 14 * 34 * 52 * 64 * 64.
Proof.
  destruct st as [y mo d h m s b]. unfold rank, maxCalendarYear. simpl. intros C Hy.
  assert (0 ≤ mo ≤ 13 ∧ 0 ≤ d ≤ 32 ∧ 0 ≤ h ≤ 24 ∧ 0 ≤ m ≤ 60 ∧ 0 ≤ s ≤ 60) as B.
  { carry_cases C; try (destruct N as [N1 N2 N3 N4 N5]; simpl in *; pose proof (days_in_month_range mo y N1)); lia. }
  destruct b; lia.
Qed.

Ltac rank_bump st N := destruct N; pose proof (days_in_month_range (fmo st) (fy st)); unfold rank; simpl; apply rank_carry; destruct (dst st); lia.
Section bump.
Context (st : fields) (N : normal st).
Lemma rank_next_year : rank st < rank (next_year st).
Proof using N. rank_bump st N. Qed.
Lemma rank_next_month : rank st < rank (next_month st).
Proof using N. rank_bump st N. Qed.
Lemma rank_next_day : rank st < rank (next_day st).
Proof using N. rank_bump st N. Qed.
Lemma rank_next_hour : rank st < rank (next_hour st).
Proof using N. rank_bump st N. Qed.
Lemma rank_next_minute : rank st < rank (next_minute st).
Proof using N. rank_bump st N. Qed.
Lemma rank_next_second : rank st < rank (next_second st).
Proof using N. rank_bump st N. Qed.
Lemma rank_skip_hour : rank st < rank (mkFields (fy st) (fmo st) (fd st) (fh st + 1) 0 0 (dst st)).
Proof using N. rank_bump st N. Qed.
End bump.

Section loop.
Context (cc : compiledCalendar) (J : fields → Prop).
Context (Jn : ∀ st, carrying st → J st → J (normalize cc st)).
Context (Jy : ∀ st, normal st → J st → year_match (year cc) (fy st) = false → J (next_year st)).
Context (Jmo : ∀ st, normal st → J st → bit_match (month cc) (fmo st) = false → J (next_month st)).
Context (Jd : ∀ st, normal st → J st → day_match cc st = false → J (next_day st)).
Context (Jh : ∀ st, normal st → J st → bit_match (hour cc) (fh st) = false → J (next_hour st)).
Context (Jm : ∀ st, normal st → J st → bit_match (minute cc) (fm st) = false → J (next_minute st)).
Context (Js : ∀ st, normal st → J st → bit_match (second cc) (fs st) = false → J (next_second st)).
Context (Jg : ∀ st, normal st → J st → Hour (tz cc) (time_of cc st) ≠ fh st → J (mkFields (fy st) (fmo st) (fd st) (fh st + 1) 0 0 (dst st))).

Definition going (st : fields) : Prop := carrying st ∧ J st ∧ fy st ≤ maxCalendarYear + 1.
Definition ended (r : next_result) : Prop := turned cc J J r.

Lemma step_going st0 : carrying st0 → J st0 → match next_step cc st0 with inl st' => going st' ∧ rank st0 < rank st' | inr r => ended (inr r) end.
Proof using All.
  intros C HJ. pose proof (next_step_spec cc (λ st, J st ∧ rank st0 ≤ rank st) (λ st, J st ∧ rank st0 < rank st ∧ fy st ≤ maxCalendarYear + 1)) as S.
  assert (turned cc (λ st, J st ∧ rank st0 ≤ rank st) (λ st, J st ∧ rank st0 < rank st ∧ fy st ≤ maxCalendarYear + 1) (next_step cc st0)) as T.
  { apply S; [..|done|done].
    - intros st (? & ? & ?). split; [done|lia].
    - intros st Cs [? ?]. split; [by apply Jn|]. destruct (normalize_spec cc st Cs). lia.
    - intros st Ns Hy [? ?] Ht. pose proof (rank_next_year st Ns). split_and!; [by apply Jy|lia|simpl; lia].
    - intros st Ns Hy [? ?] Ht. pose proof (rank_next_month st Ns). split_and!; [by apply Jmo|lia|simpl; lia].
    - intros st Ns Hy [? ?] Ht. pose proof (rank_next_day st Ns). split_and!; [by apply Jd|lia|simpl; lia].
    - intros st Ns Hy [? ?] Ht. pose proof (rank_next_hour st Ns). split_and!; [by apply Jh|lia|simpl; lia].
    - intros st Ns Hy [? ?] Ht. pose proof (rank_next_minute st Ns). split_and!; [by apply Jm|lia|simpl; lia].
    - intros st Ns Hy [? ?] Ht. pose proof (rank_next_second st Ns). split_and!; [by apply Js|lia|simpl; lia].
    - intros st Ns Hy [? ?] Ht. pose proof (rank_skip_hour st Ns). split_and!; [by apply Jg|lia|simpl; lia]. }
  destruct (next_step cc st0) as [st|[t|]].
  - destruct T as (? & ? & ? & ?). by repeat split.
  - destruct T as (st & ? & [? _] & ?). by exists st.
  - destruct T as (st & ? & [? _] & ?). by exists st.
Qed.

Definition first_fields (ts : Z) : fields :=
  mkFields (Date (tz cc) ts).1.1 (Date (tz cc) ts).1.2 (Date (tz cc) ts).2 (Hour (tz cc) ts) (Minute (tz cc) ts) (Second (tz cc) ts + 1)
    (Hour (tz cc) (ts - 3600) =? Hour (tz cc) ts).
Lemma clock_range l t : 0 ≤ Hour l t < 24 ∧ 0 ≤ Minute l t < 60 ∧ 0 ≤ Second l t < 60.
Proof using. unfold Hour, Minute, Second. Z.div_mod_to_equations. lia. Qed.
Lemma first_carrying ts : carrying (first_fields ts).
Proof using.
  destruct (Date (tz cc) ts) as [[y mo] d] eqn:Ed. pose proof Ed as E. apply date_of_day_iff in E as [[V1 V2] _].
  pose proof (clock_range (tz cc) ts). unfold first_fields. rewrite Ed. simpl.
  destruct (decide (Second (tz cc) ts = 59)) as [->|N]; [apply cy_second|apply cy_none]; try done; constructor; simpl; lia.
Qed.

(** [next] returns, with a time or without. *)
Lemma next_ends ts : J (first_fields ts) → ∃ r, next cc ts = Ok r ∧ match r with Some t => ended (Found t) | None => ended NoMore end.
Proof using All.
  intros HJ. unfold next. destruct (Date (tz cc) ts) as [[y mo] d] eqn:Ed. unfold Clock.
  assert (mkFields y mo d (Hour (tz cc) ts) (Minute (tz cc) ts) (Second (tz cc) ts + 1) (Hour (tz cc) (ts - 3600) =? Hour (tz cc) ts) = first_fields ts) as ->
    by (unfold first_fields; by rewrite Ed).
  pose proof (first_carrying ts) as C. set (st := first_fields ts) in *.
  pose proof (ploop_spec (next_step cc) (λ s, s = st ∨ going s) (λ r, ended (inr r)) rank (next_fuel st) st) as T.
  assert (∀ s, s = st ∨ going s → match next_step cc s with inl s' => (s' = st ∨ going s') ∧ rank s < rank s' | inr r => ended (inr r) end) as G.
  { intros s Hs. assert (carrying s ∧ J s) as [Cs Js'] by (destruct Hs as [->|(? & ? & ?)]; done).
    pose proof (step_going s Cs Js') as G. destruct (next_step cc s); [|done..]. destruct G. auto. }
  specialize (T G (or_introl eq_refl)). destruct (ploop (next_fuel st) (next_step cc) st) as [s|r]; [|by exists r; split; [|destruct r]].
  exfalso. destruct T as [[->|(Cs & _ & Hy)] R]; [lia|]. pose proof (rank_bound s Cs Hy). unfold next_fuel in R. lia.
Qed.
End loop.
