(* ===== verification/SchedExact.v ===== *)
(** * Schedules: [next] in a zone without transitions is the earliest matching time; a compiled calendar matches what its ranges cover *)
From S2P Require Import Prelude SchedTime SchedText SchedCalendar SchedNext.
Local Open Scope Z_scope.
Local Open Scope go_scope.

(** The carries keep the time the fields stand for. *)
Lemma normalize_value cc o st : tz cc = fixed_zone o → carrying st → dst st = false →
  value (normalize cc st) = value st ∧ dst (normalize cc st) = false.
Proof.
  intros Hz C Hd. unfold normalize. destruct (carry_second_spec st C) as (C1 & S1 & _ & V1 & D1).
  destruct (carry_minute_spec cc _ C1 S1) as (C2 & S2 & M2 & _ & V2 & D2).
  destruct (carry_hour_spec _ C2 S2 M2) as (C3 & S3 & M3 & H3 & _ & V3 & D3). destruct (carry_day_spec _ C3 S3 M3 H3) as (C4 & _ & V4 & D4).
  destruct (carry_month_spec _ C4) as (_ & _ & V5 & D5). rewrite V5, V4, V3, D5, D4, D3.
  assert (dst (carry_minute cc (carry_second st)) = false) as E.
  { apply not_true_is_false. intros E. destruct (D2 E) as [X|X]; [congruence|]. rewrite Hz, !MakeDate_fixed in X. lia. }
  split; [|done]. destruct V2 as [->|[_ X]]; [done|congruence].
Qed.

(** A day within a year, and within a month. *)
Lemma date_in_year n y : day_number y 1 1 ≤ n < day_number (y + 1) 1 1 → (date_of_day n).1.1 = y.
Proof.
  rewrite !day_number_valid by lia. change (days_before_month 1 y) with 0. change (days_before_month 1 (y + 1)) with 0. intros.
  unfold date_of_day. simpl. apply year_of_unique. lia.
Qed.
Lemma year_le_iff n y : (date_of_day n).1.1 ≤ y ↔ n < day_number (y + 1) 1 1.
Proof.
  pose proof (year_of_spec (n + epoch_days)) as S. rewrite day_number_valid by lia. change (days_before_month 1 (y + 1)) with 0.
  unfold date_of_day. simpl. split; intros H.
  - pose proof (days_before_year_mono (year_of (n + epoch_days) + 1) (y + 1)). lia.
  - destruct (Z.le_gt_cases (year_of (n + epoch_days)) y) as [|G]; [done|]. pose proof (days_before_year_mono (y + 1) (year_of (n + epoch_days))). lia.
Qed.
Lemma date_in_month n y mo : 1 ≤ mo ≤ 12 → day_number y mo 1 ≤ n < day_number y (mo + 1) 1 → date_of_day n = (y, mo, n - day_number y mo 1 + 1).
Proof.
  intros Hm. rewrite day_number_next_month by done. intros Hn. apply date_of_day_iff. split; [split; [done|lia]|].
  rewrite day_number_day. lia.
Qed.
Lemma date_of_normal st : normal st → date_of_day (day_number (fy st) (fmo st) (fd st)) = (fy st, fmo st, fd st).
Proof. intros []. by apply date_of_day_number. Qed.

(** A time in the seconds that a field of [st] covers. *)
Lemma day_span n r : 0 ≤ r < 86400 → (n * 86400 + r) / 86400 = n ∧ (n * 86400 + r) mod 86400 = r.
Proof. intros. Z.div_mod_to_equations. lia. Qed.
Lemma within_day n w : n * 86400 ≤ w < (n + 1) * 86400 → w / 86400 = n.
Proof. intros. Z.div_mod_to_equations. lia. Qed.
Lemma value_day st : normal st → value st / 86400 = day_number (fy st) (fmo st) (fd st).
Proof. intros []. apply within_day. unfold value. lia. Qed.

Section fixed.
Context (cc : compiledCalendar) (o : Z) (Hz : tz cc = fixed_zone o).

(** The fields of the second [w] of local time. *)
Definition local_match (w : Z) : bool :=
  let '(y, mo, d) := date_of_day (w / 86400) in
  year_match (year cc) y && bit_match (month cc) mo && bit_match (dayOfMonth cc) d && bit_match (dayOfWeek cc) ((w / 86400 + 4) mod 7) &&
  bit_match (hour cc) (w mod 86400 / 3600) && bit_match (minute cc) (w mod 3600 / 60) && bit_match (second cc) (w mod 60).
Lemma matches_local t : matches cc t = local_match (t + o).
Proof using Hz. unfold matches, local_match, Clock, Date, Weekday, Hour, Minute, Second, local. by rewrite Hz, offset_fixed. Qed.
Lemma time_of_fixed st : time_of cc st = value st - o.
Proof using Hz. unfold time_of, value. rewrite Hz, MakeDate_fixed. lia. Qed.

(** The search has passed only times that do not match. *)
Context (ts : Z).
Definition passed (st : fields) : Prop := dst st = false ∧ ts + o < value st ∧ ∀ w, ts + o < w < value st → local_match w = false.

Lemma passed_to st st' : passed st → dst st' = false → value st < value st' → (∀ w, value st ≤ w < value st' → local_match w = false) → passed st'.
Proof using.
  intros (_ & H1 & H2) Hd Hv Hw. split_and!; [done|lia|]. intros w Hw'. destruct (Z.lt_ge_cases w (value st)); [apply H2|apply Hw]; lia.
Qed.

Lemma passed_year st : normal st → passed st → year_match (year cc) (fy st) = false → passed (next_year st).
Proof using.
  intros N P E. destruct (day_number_month_mono (fy st) (fmo st) (nm_mo _ N)) as [M1 M2]. rewrite day_number_next_month in M2 by apply (nm_mo _ N).
  destruct N. pose proof (day_number_day (fy st) (fmo st) (fd st)). apply (passed_to st); [done..| |].
  - unfold value; simpl. lia.
  - intros w. unfold value; simpl. intros Hw. unfold local_match. destruct (date_of_day (w / 86400)) as [[y mo] d] eqn:Ed.
    pose proof (date_in_year (w / 86400) (fy st)) as Y. rewrite Ed in Y. simpl in Y. rewrite Y, E; [done|]. Z.div_mod_to_equations. lia.
Qed.
Lemma passed_month st : normal st → passed st → bit_match (month cc) (fmo st) = false → passed (next_month st).
Proof using.
  intros N P E. pose proof (day_number_next_month (fy st) (fmo st) (nm_mo _ N)) as M.
  destruct N. pose proof (day_number_day (fy st) (fmo st) (fd st)). apply (passed_to st); [done..| |].
  - unfold value; simpl. lia.
  - intros w. unfold value; simpl. intros Hw. unfold local_match. rewrite (date_in_month _ (fy st) (fmo st)), E, andb_false_r; [done|done|].
    Z.div_mod_to_equations. lia.
Qed.
Lemma in_day st w : normal st → value st ≤ w < value (next_day st) → w / 86400 = day_number (fy st) (fmo st) (fd st).
Proof using.
  intros [] Hw. apply within_day. unfold value in Hw; simpl in Hw. pose proof (day_number_day (fy st) (fmo st) (fd st)).
  pose proof (day_number_day (fy st) (fmo st) (fd st + 1)). lia.
Qed.
Lemma passed_day st : normal st → passed st → day_match cc st = false → passed (next_day st).
Proof using Hz.
  intros N P E. apply (passed_to st); [done..| |].
  - destruct N. unfold value; simpl. rewrite !(day_number_day _ _ (fd st)), (day_number_day _ _ (fd st + 1)). lia.
  - intros w Hw. unfold local_match. rewrite (in_day st w), date_of_normal by done. unfold day_match, Weekday, local in E.
    rewrite Hz, offset_fixed, time_of_fixed, Z.sub_add, value_day in E by done.
    apply andb_false_iff in E as [->| ->]; rewrite ?andb_false_r; done.
Qed.
Lemma in_hour st w : normal st → value st ≤ w < value (next_hour st) → w mod 86400 / 3600 = fh st.
Proof using. intros [] Hw. unfold value in Hw; simpl in Hw. Z.div_mod_to_equations. lia. Qed.
Lemma passed_hour st : normal st → passed st → bit_match (hour cc) (fh st) = false → passed (next_hour st).
Proof using.
  intros N P E. apply (passed_to st); [done..| |].
  - destruct N. unfold value; simpl. lia.
  - intros w Hw. unfold local_match. destruct (date_of_day _) as [[??]?]. by rewrite (in_hour st w), E, !andb_false_r.
Qed.
Lemma passed_minute st : normal st → passed st → bit_match (minute cc) (fm st) = false → passed (next_minute st).
Proof using.
  intros N P E. apply (passed_to st); [done|apply P| |].
  - destruct N. unfold value; simpl. lia.
  - intros w Hw. unfold local_match. destruct (date_of_day _) as [[??]?]. assert (w mod 3600 / 60 = fm st) as ->; [|by rewrite E, !andb_false_r].
    destruct N. unfold value in Hw; simpl in Hw. Z.div_mod_to_equations. lia.
Qed.
Lemma passed_second st : normal st → passed st → bit_match (second cc) (fs st) = false → passed (next_second st).
Proof using.
  intros N P E. apply (passed_to st); [done|apply P| |].
  - destruct N. unfold value; simpl. lia.
  - intros w Hw. unfold local_match. destruct (date_of_day _) as [[??]?]. assert (w mod 60 = fs st) as ->; [|by rewrite E, !andb_false_r].
    destruct N. unfold value in Hw; simpl in Hw. Z.div_mod_to_equations. lia.
Qed.
Lemma hour_of_normal st : normal st → Hour (tz cc) (time_of cc st) = fh st.
Proof using Hz.
  intros N. unfold Hour, local. rewrite Hz, offset_fixed, time_of_fixed, Z.sub_add. apply in_hour; [done|]. destruct N. unfold value; simpl. lia.
Qed.
Lemma passed_normalize st : carrying st → passed st → passed (normalize cc st).
Proof using Hz. intros C (H1 & H2 & H3). destruct (normalize_value cc o st Hz C H1) as [V D]. unfold passed. by rewrite V. Qed.
Lemma passed_first : passed (first_fields cc ts).
Proof using Hz.
  destruct (Date (tz cc) ts) as [[y mo] d] eqn:Ed. assert (value (first_fields cc ts) = ts + o + 1) as V.
  { unfold value, first_fields. rewrite Ed. simpl. unfold Date, Hour, Minute, Second, local in *. rewrite Hz, offset_fixed in *.
    apply date_of_day_iff in Ed as [_ ->]. Z.div_mod_to_equations. lia. }
  unfold passed. rewrite V. split_and!; [|lia|intros; lia]. unfold first_fields. rewrite Hz. simpl. apply Z.eqb_neq. unfold Hour, local. rewrite !offset_fixed.
  Z.div_mod_to_equations. lia.
Qed.

(** The fields found match. *)
Lemma found_match st h m s : normal st → 0 ≤ h < 24 → 0 ≤ m < 60 → 0 ≤ s < 60 → year_match (year cc) (fy st) = true → bit_match (month cc) (fmo st) = true →
  bit_match (dayOfMonth cc) (fd st) = true → bit_match (dayOfWeek cc) (Weekday (tz cc) (MakeDate (tz cc) (fy st) (fmo st) (fd st) h m s)) = true →
  bit_match (hour cc) (fh st) = true → bit_match (minute cc) (fm st) = true → bit_match (second cc) (fs st) = true → local_match (value st) = true.
Proof using Hz.
  intros N Hh Hm Hs E1 E2 E3 E4 E5 E6 E7. unfold local_match. rewrite value_day, date_of_normal by done.
  rewrite E1, E2, E3. unfold Weekday, local in E4. rewrite Hz, offset_fixed, MakeDate_fixed, Z.sub_add in E4.
  rewrite (within_day (day_number (fy st) (fmo st) (fd st))) in E4 by lia. rewrite E4.
  assert (value st mod 86400 / 3600 = fh st ∧ value st mod 3600 / 60 = fm st ∧ value st mod 60 = fs st) as (-> & -> & ->).
  { destruct N. unfold value. Z.div_mod_to_equations. lia. }
  by rewrite E5, E6, E7.
Qed.
Lemma next_fixed : ∃ r, next cc ts = Ok r ∧ match r with
  | Some t => ts < t ∧ Year (tz cc) t ≤ maxCalendarYear ∧ matches cc t = true ∧ ∀ t', ts < t' < t → matches cc t' = false
  | None => ∀ t, ts < t → Year (tz cc) t ≤ maxCalendarYear → matches cc t = false
  end.
Proof using Hz.
  destruct (next_ends cc passed) with (ts := ts) as (r & Er & H); eauto using passed_normalize, passed_year, passed_month, passed_day, passed_hour,
    passed_minute, passed_second, passed_first.
  { intros st N P E. by rewrite hour_of_normal in E. }
  exists r. split; [done|]. destruct r as [t|]; destruct H as (st & N & (D & P1 & P2) & H).
  - destruct H as (Hy & E1 & E2 & (E3 & h & m & s & Hh & Hm & Hs & E4) & E5 & E6 & E7 & _ & ->). rewrite D, time_of_fixed.
    split_and!; [lia| | |].
    + unfold Year, Date, local. rewrite Hz, offset_fixed. replace (value st - o + 0 + o) with (value st) by lia. by rewrite value_day, date_of_normal.
    + rewrite matches_local. replace (value st - o + 0 + o) with (value st) by lia. by apply (found_match st h m s).
    + intros t' Ht. rewrite matches_local. apply P2. lia.
  - intros t Ht Hy. rewrite matches_local. apply P2. split; [lia|]. unfold Year, Date, local in Hy. rewrite Hz, offset_fixed in Hy.
    assert (fy st - 1 + 1 = fy st) as E by lia. pose proof (proj1 (year_le_iff ((t + o) / 86400) (fy st - 1)) ltac:(lia)) as L. rewrite E in L.
    destruct (day_number_month_mono (fy st) (fmo st) (nm_mo _ N)) as [M _]. destruct N. pose proof (day_number_day (fy st) (fmo st) (fd st)).
    unfold value. Z.div_mod_to_equations. lia.
Qed.
End fixed.

(** ** Schedules: a compiled calendar matches what its ranges cover *)

(** ** Ranges *)

(** A range covers every step-th value from its start to its end; a zero step is one, and the end is at least the start. *)
Definition covers (r : Range) (v : Z) : bool :=
  (Start r <=? v) && (v <=? Z.max (Start r) (End r)) && ((v - Start r) mod (if Step r =? 0 then 1 else Step r) =? 0).
Definition in_ranges (rs : list Range) (v : Z) : bool := existsb (λ r, covers r v) rs.

(** The values [iterate] visits. *)
Fixpoint steps (fuel : nat) (start end_ step : Z) : list Z :=
  if start <=? end_ then match fuel with O => [] | S fuel => start :: steps fuel (start + step) end_ step end else [].
Definition range_list (r : Range) : list Z := steps (range_fuel r) (Start r) (Z.max (Start r) (End r)) (if Step r =? 0 then 1 else Step r).
Definition range_lists (rs : list Range) : list Z := concat (map range_list rs).

Lemma elem_steps fuel start end_ step v : 1 ≤ step → end_ - start + 1 ≤ Z.of_nat fuel →
  v ∈ steps fuel start end_ step ↔ start ≤ v ≤ end_ ∧ (v - start) mod step = 0.
Proof.
  intros Hs. revert start. induction fuel as [|fuel IH]; intros start Hf; simpl.
  - rewrite (proj2 (Z.leb_gt start end_)) by lia. split; [by intros ?%not_elem_of_nil|lia].
  - destruct (Z.leb_spec start end_) as [L|L]; [|split; [by intros ?%not_elem_of_nil|lia]]. rewrite elem_of_cons, IH by lia. split.
    + intros [->|[H1 H2]]; [split; [lia|]; by rewrite Z.sub_diag|]. split; [lia|].
      replace (v - start) with (v - (start + step) + 1 * step) by lia. by rewrite Z_mod_plus_full.
    + intros [H1 H2]. destruct (decide (v = start)) as [->|N]; [by left|right]. apply Z.mod_divide in H2; [|lia]. destruct H2 as [k Hk].
      assert (1 ≤ k) by nia. split; [nia|]. replace (v - (start + step)) with ((k - 1) * step) by lia. apply Z_mod_mult.
Qed.
Lemma elem_range_list r v : 0 ≤ Step r → v ∈ range_list r ↔ covers r v = true.
Proof.
  intros H. unfold range_list, covers, range_fuel. rewrite elem_steps, !andb_true_iff, !Z.leb_le, Z.eqb_eq; [tauto| |lia].
  destruct (Z.eqb_spec (Step r) 0); lia.
Qed.
Lemma elem_range_lists rs v : Forall (λ r, 0 ≤ Step r) rs → v ∈ range_lists rs ↔ in_ranges rs v = true.
Proof.
  intros H. unfold range_lists, in_ranges. rewrite existsb_spec. induction H as [|r rs Hr _ IH]; simpl.
  - split; [by intros ?%not_elem_of_nil|]. intros (x & ?%not_elem_of_nil & _). done.
  - rewrite elem_of_app, IH, elem_range_list by done. setoid_rewrite elem_of_cons. naive_solver.
Qed.

Lemma iterate_ok {A} (f : A → Z → result A) g acc fuel start end_ step :
  1 ≤ step → end_ - start + 1 ≤ Z.of_nat fuel → (∀ acc i, start ≤ i → f acc i = Ok (g acc i)) →
  iterate fuel f acc start end_ step = Ok (foldl g acc (steps fuel start end_ step)).
Proof.
  intros Hs. revert acc start. induction fuel as [|fuel IH]; intros acc start Hf H; simpl.
  - by rewrite (proj2 (Z.leb_gt start end_)) by lia.
  - destruct (start <=? end_); [|done]. rewrite H by lia. simpl. apply IH; [lia|]. intros acc' i Hi. apply H. lia.
Qed.
Lemma iterateRanges_ok {A} (f : A → Z → result A) g rs acc :
  Forall (λ r, 0 ≤ Step r ∧ ∀ acc i, Start r ≤ i → f acc i = Ok (g acc i)) rs → iterateRanges rs f acc = Ok (foldl g acc (range_lists rs)).
Proof.
  intros H. revert acc. induction H as [|r rs [H1 H2] _ IH]; intros acc; [done|]. simpl. unfold range_lists. simpl. rewrite foldl_app.
  rewrite (iterate_ok f g); [simpl; unfold range_list| | |done].
  - rewrite IH. do 3 f_equal. unfold range_list. f_equal. destruct (Z.ltb_spec (End r) (Start r)); lia.
  - destruct (Z.eqb_spec (Step r) 0); lia.
  - unfold range_fuel. destruct (End r <? Start r) eqn:E; bool_to_prop; lia.
Qed.

(** ** Matchers *)

Lemma bit_match_testbit bits v : 0 ≤ v < 64 → bit_match bits v = Z.testbit bits v.
Proof.
  intros H. unfold bit_match, uint64_bit. rewrite (proj2 (Z.ltb_lt v 64)) by lia. destruct (Z.testbit bits v) eqn:E.
  - apply negb_true_iff, Z.eqb_neq. intros X. apply (f_equal (λ z, Z.testbit z v)) in X. rewrite Z.land_spec, Z.shiftl_spec, Z.sub_diag, E, Z.bits_0 in X by lia. done.
  - apply negb_false_iff, Z.eqb_eq, Z.bits_inj'. intros n Hn. rewrite Z.land_spec, Z.bits_0, Z.shiftl_spec by lia.
    destruct (decide (n = v)) as [->|N]; [by rewrite E, andb_false_r|]. change 1 with (2 ^ 0). rewrite Z.pow2_bits_false by lia. done.
Qed.
Lemma foldl_bits l bits v : Forall (λ i, 0 ≤ i) l → 0 ≤ v < 64 →
  Z.testbit (foldl (λ b i, Z.lor b (uint64_bit i)) bits l) v = Z.testbit bits v || existsb (Z.eqb v) l.
Proof.
  intros H Hv. revert bits. induction H as [|i l Hi _ IH]; intros bits; simpl; [by rewrite orb_false_r|]. rewrite IH, Z.lor_spec, <- orb_assoc. do 2 f_equal.
  unfold uint64_bit. destruct (Z.ltb_spec i 64).
  - rewrite Z.shiftl_spec by lia. destruct (Z.eqb_spec v i) as [->|N]; [by rewrite Z.sub_diag|]. change 1 with (2 ^ 0). by rewrite Z.pow2_bits_false by lia.
  - rewrite Z.bits_0. symmetry. apply Z.eqb_neq. lia.
Qed.

Lemma range_lists_from rs lo : Forall (λ r, lo ≤ Start r ∧ 0 ≤ Step r) rs → Forall (λ i, lo ≤ i) (range_lists rs).
Proof.
  intros H. apply Forall_forall. intros v Hv. apply elem_range_lists in Hv; [|by eapply Forall_impl; [apply H|naive_solver]].
  apply existsb_spec in Hv as (r & Hr & Hc). rewrite Forall_forall in H. specialize (H r Hr). unfold covers in Hc. bool_to_prop. lia.
Qed.
Lemma in_range_lists rs v : Forall (λ r, 0 ≤ Step r) rs → existsb (Z.eqb v) (range_lists rs) = in_ranges rs v.
Proof.
  intros H. apply eq_true_iff_eq. rewrite <- elem_range_lists, existsb_spec by done. split; [by intros (x & Hx & ->%Z.eqb_eq)|].
  intros Hv. exists v. by rewrite Z.eqb_refl.
Qed.

(** The bit matcher of ranges that start at zero or later. *)
Lemma makeBitMatcher_spec rs : Forall (λ r, 0 ≤ Start r ∧ 0 ≤ Step r) rs →
  ∃ bits, makeBitMatcher rs = Ok bits ∧ ∀ v, 0 ≤ v < 64 → bit_match bits v = in_ranges rs v.
Proof.
  intros H. unfold makeBitMatcher. rewrite (iterateRanges_ok add_bit (λ b i, Z.lor b (uint64_bit i))).
  2: { eapply Forall_impl; [apply H|]. intros r [H1 H2]. split; [done|]. intros acc i Hi. unfold add_bit. by rewrite (proj2 (Z.ltb_ge i 0)) by lia. }
  eexists. split; [done|]. intros v Hv. rewrite bit_match_testbit, foldl_bits, Z.bits_0 by (done || by apply (range_lists_from rs 0)). simpl.
  apply in_range_lists. eapply Forall_impl; [apply H|naive_solver].
Qed.

Lemma wrap16_id z : - 2 ^ 15 ≤ z < 2 ^ 15 → wrap16 z = z.
Proof. intros. unfold wrap16. rewrite Z.mod_small; lia. Qed.
Lemma foldl_snoc (l acc : list Z) : foldl (λ acc i, acc ++ [wrap16 i]) acc l = acc ++ map wrap16 l.
Proof. revert acc. induction l as [|i l IH]; intros acc; simpl; [by rewrite app_nil_r|]. rewrite IH, <- app_assoc. done. Qed.

(** The year matcher; an empty list matches every year. *)
Lemma makeYearMatcher_spec rs : Forall (λ r, 0 ≤ Start r ∧ Z.max (Start r) (End r) < 2 ^ 15 ∧ 0 ≤ Step r) rs →
  ∃ values, makeYearMatcher rs = Ok values ∧ ∀ v, year_match values v = match rs with [] => true | _ => in_ranges rs v end.
Proof.
  intros H. destruct rs as [|r rs]; [by exists None|]. unfold makeYearMatcher. set (l := r :: rs) in *.
  rewrite (iterateRanges_ok _ (λ acc i, acc ++ [wrap16 i])) by (eapply Forall_impl; [apply H|naive_solver]). simpl.
  eexists. split; [done|]. intros v. unfold year_match. rewrite foldl_snoc, app_nil_l. transitivity (in_ranges l v); [|done]. rewrite <- (in_range_lists l) by (eapply Forall_impl; [apply H|naive_solver]).
  assert (map wrap16 (range_lists l) = range_lists l) as ->; [|done]. rewrite <- (map_id (range_lists l)) at 2. apply map_ext_in.
  intros i Hi%list_elem_of_In. apply wrap16_id. apply elem_range_lists in Hi; [|by eapply Forall_impl; [apply H|naive_solver]].
  apply existsb_spec in Hi as (r' & Hr & Hc). rewrite Forall_forall in H. specialize (H r' Hr). unfold covers in Hc. bool_to_prop. lia.
Qed.
