(* ===== verification/SchedParse.v ===== *)
(** * Schedules: parsing ([service/worker/scheduler/calendar.go]) *)
From S2P Require Import Prelude SchedTime SchedText SchedCalendar.
Local Open Scope Z_scope.
Local Open Scope go_scope.

Inductive parseMode := parseModeInt | parseModeYear | parseModeMonth | parseModeDow.
#[export] Instance parseMode_eq_dec : EqDecision parseMode.
Proof. solve_decision. Defined.

Definition monthStrings : list text := map lit
  ["january"; "february"; "march"; "april"; "may"; "june"; "july"; "august"; "september"; "october"; "november"; "december"].
Definition dowStrings : list text := map lit ["sunday"; "monday"; "tuesday"; "wednesday"; "thursday"; "friday"; "saturday"].
Definition slash : Z := 47.
Definition dash : Z := 45.
Definition comma : Z := 44.
Definition space : Z := 32.
Definition hash : Z := 35.
Definition equals : Z := 61.
Definition star : text := lit "*".

(** ** Values and ranges *)

Definition in_bounds (i min max : Z) : result Z := if (i <? min) || (max <? i) then Err errOutOfRange else Ok i.
(** The loop over the names: the index of the first that has the prefix. *)
Fixpoint find_name (names : list text) (s : text) (i : Z) : option Z :=
  match names with [] => None | name :: names => if HasPrefix name s then Some i else find_name names s (i + 1) end.
Definition parse_int (s : text) (min max : Z) : result Z :=
  match Atoi s with None => Err errAtoi | Some i => in_bounds i min max end.
Definition parseValue (s : text) (min max : Z) (mode : parseMode) : result Z :=
  match mode with
  | parseModeMonth =>
      if 3 <=? byte_len s then
        let s := ToLower s in
        match find_name monthStrings s 0 with Some i => in_bounds (i + 1) min max | None => parse_int s min max end
      else parse_int s min max
  | parseModeDow =>
      if 2 <=? byte_len s then
        let s := ToLower s in
        match find_name dowStrings s 0 with Some i => in_bounds i min max | None => parse_int s min max end
      else parse_int s min max
  | _ => parse_int s min max
  end.

(** The step of one part, and what is left of the part. *)
Definition parse_step (field : cal_field) (part : text) : result (text * Z * bool) :=
  match Count part slash with
  | O => Ok (part, 1, false)
  | 1%nat =>
      let '(part, s, _) := Cut part slash in
      if bool_decide (s = []) then Err (errMissingStep field)
      else match Atoi s with
           | None => Err errAtoi
           | Some step => if step <? 1 then Err (errInvalidStep field) else Ok (part, step, true)
           end
  | _ => Err (errTooManySlashes field)
  end.
(** [err != nil] of a call whose own error is replaced. *)
Definition or_err {A} (r : result A) (e : sched_error) : result A := match r with Err _ => Err e | r => r end.
Definition parse_bounds (field : cal_field) (part : text) (hasStep : bool) (minVal maxVal : Z) (mode : parseMode) : result (Z * Z) :=
  if bool_decide (part = star) then Ok (minVal, maxVal)
  else if Contains part dash then
    if (1 <? Count part dash)%nat then Err (errTooManyDashes field)
    else
      let '(from, to, _) := Cut part dash in
      let! start := or_err (parseValue from minVal maxVal mode) (errStart field) in
      let! end_ := or_err (parseValue to start maxVal mode) (errEnd field) in
      Ok (start, end_)
  else
    let! start := or_err (parseValue part minVal maxVal mode) (errValue field) in
    Ok (start, if hasStep then maxVal else start).
(** The ranges one part is turned into; seven stands for Sunday. *)
Definition plain_range (start end_ step : Z) : Range :=
  mkRange (wrap32 start) (wrap32 (if start =? end_ then 0 else end_)) (wrap32 (if step =? 1 then 0 else step)).
Definition part_ranges (start end_ step : Z) (mode : parseMode) : list Range :=
  if bool_decide (mode = parseModeDow) && (end_ =? 7) then
    if (Z.rem (7 - start) step =? 0) && ((1 <? step) || (step =? 1) && (1 <? start)) then
      mkRange 0 0 0 :: (if start =? 7 then [] else [plain_range start 6 step])
    else [plain_range start 6 step]
  else [plain_range start end_ step].
Definition parse_part (field : cal_field) (minVal maxVal : Z) (mode : parseMode) (part : text) : result (list Range) :=
  let! (part, step, hasStep) := parse_step field part in
  let! (start, end_) := parse_bounds field part hasStep minVal maxVal mode in
  Ok (part_ranges start end_ step mode).
Fixpoint parse_parts (field : cal_field) (minVal maxVal : Z) (mode : parseMode) (parts : list text) (ranges : list Range) : result (list Range) :=
  match parts with
  | [] => Ok ranges
  | part :: parts => let! rs := parse_part field minVal maxVal mode part in parse_parts field minVal maxVal mode parts (ranges ++ rs)
  end.
Definition makeRange (s : text) (field : cal_field) (def : text) (minVal maxVal : Z) (mode : parseMode) : result (list Range) :=
  let s := TrimSpace s in
  let s := if bool_decide (s = []) then def else s in
  if bool_decide (s = star) && bool_decide (mode = parseModeYear) then Ok []
  else parse_parts field minVal maxVal mode (Split s comma) [].

(** ** Calendars *)

(** [schedulepb.CalendarSpec]. *)
Record CalendarSpec := mkCalendar {
  cSecond : text; cMinute : text; cHour : text; cDayOfMonth : text; cMonth : text; cYear : text; cDayOfWeek : text; cComment : text }.

(** The errors of the fields are collected: a field that fails leaves no ranges. *)
Definition errs_of {A} (r : result A) : list sched_error := match r with Err e => [e] | _ => [] end.
Definition ranges_of (r : result (list Range)) : list Range := match r with Ok rs => rs | _ => [] end.
Definition parseCalendarToStructured (cal : CalendarSpec) : result StructuredCalendarSpec :=
  let s := makeRange (cSecond cal) InSecond (lit "0") 0 59 parseModeInt in
  let m := makeRange (cMinute cal) InMinute (lit "0") 0 59 parseModeInt in
  let h := makeRange (cHour cal) InHour (lit "0") 0 23 parseModeInt in
  let w := makeRange (cDayOfWeek cal) InDayOfWeek star 0 7 parseModeDow in
  let d := makeRange (cDayOfMonth cal) InDayOfMonth star 1 31 parseModeInt in
  let mo := makeRange (cMonth cal) InMonth star 1 12 parseModeMonth in
  let y := makeRange (cYear cal) InYear star minCalendarYear maxCalendarYear parseModeYear in
  match errs_of s ++ errs_of m ++ errs_of h ++ errs_of w ++ errs_of d ++ errs_of mo ++ errs_of y with
  | [] => Ok (mkStructured (ranges_of s) (ranges_of m) (ranges_of h) (ranges_of d) (ranges_of mo) (ranges_of y) (ranges_of w) (cComment cal))
  | errs => Err (errJoined errs)
  end.

(** ** Cron strings *)

(** [schedulepb.IntervalSpec], its durations in nanoseconds (zero when unset). *)
Record IntervalSpec := mkInterval { Interval : Z; Phase : Z }.

Definition handlePredefinedCronStrings (c : text) : text :=
  if bool_decide (c = lit "@yearly") || bool_decide (c = lit "@annually") then lit "0 0 1 1 *"
  else if bool_decide (c = lit "@monthly") then lit "0 0 1 * *"
  else if bool_decide (c = lit "@weekly") then lit "0 0 * * 0"
  else if bool_decide (c = lit "@daily") || bool_decide (c = lit "@midnight") then lit "0 0 * * *"
  else if bool_decide (c = lit "@hourly") then lit "0 * * * *"
  else c.

(** The fields of a cron string, by their number. *)
Definition cron_calendar (toks : list text) (comment : text) : option CalendarSpec :=
  match toks with
  | [m; h; d; mo; w] => Some (mkCalendar [] m h d mo [] w comment)
  | [m; h; d; mo; w; y] => Some (mkCalendar [] m h d mo y w comment)
  | [s; m; h; d; mo; w; y] => Some (mkCalendar s m h d mo y w comment)
  | _ => None
  end.

Section cron.
(** [timestamp.ParseDuration]: [time.ParseDuration] after the days are turned to hours through a float64. *)
Context (ParseDuration : text → option Z).

Definition parseCronStringInterval (c : text) : result IntervalSpec :=
  let '(_, interval, found) := Cut c space in
  if negb found then Err errNoInterval
  else
    let '(interval, phase, _) := Cut interval slash in
    match ParseDuration interval with
    | None => Err errParseDuration
    | Some iv =>
        if bool_decide (phase = []) then Ok (mkInterval iv 0)
        else match ParseDuration phase with None => Err errParseDuration | Some ph => Ok (mkInterval iv ph) end
    end.
Definition cut_timezone (c : text) : result (text * text) :=
  if HasPrefix c (lit "TZ=") || HasPrefix c (lit "CRON_TZ=") then
    let '(tz, rest, found) := Cut c space in
    if negb found then Err errTimezoneOnly else Ok (rest, (Cut tz equals).1.2)
  else Ok (c, []).
(** A cron string is a calendar or, with [@every], an interval. *)
Definition parseCronString (c : text) : result (StructuredCalendarSpec + IntervalSpec) * text :=
  let c := TrimSpace c in
  match cut_timezone c with
  | Err e => (Err e, [])
  | Panic => (Panic, [])
  | Ok (c, tzName) =>
      let '(c, comment, _) := Cut c hash in
      let c := TrimSpace c in
      let comment := TrimSpace comment in
      if HasPrefix c (lit "@every") then (let! iv := parseCronStringInterval c in Ok (inr iv), [])
      else
        match cron_calendar (Fields (handlePredefinedCronStrings c)) comment with
        | None => (Err errFieldCount, [])
        | Some cal =>
            match parseCalendarToStructured cal with
            | Ok ss => (Ok (inl ss), tzName)
            | Err e => (Err e, [])
            | Panic => (Panic, [])
            end
        end
  end.
End cron.
