(* ===== verification/SchedGrammar.v ===== *)
(** * Schedules: the language of [makeRange]

    The comment of [makeRange] describes a list of values, ranges and stars with optional steps.  An [item] is one of them; [makeRange]
    accepts the lists of items, and the ranges it returns cover what the items denote. *)
From S2P Require Import Prelude SchedTime SchedText SchedCalendar SchedExact SchedParse.
Local Open Scope Z_scope.
Local Open Scope go_scope.

(** ** Items *)

Inductive shape := Any | One (a : text) | Span (a b : text).
Record item := mkItem { ishape : shape; istep : option text }.

Definition render_shape (sh : shape) : text := match sh with Any => star | One a => a | Span a b => a ++ dash :: b end.
Definition render_step (s : option text) : text := match s with None => [] | Some s => slash :: s end.
Definition render (it : item) : text := render_shape (ishape it) ++ render_step (istep it).

Section language.
Context (minVal maxVal : Z) (mode : parseMode).

Definition value_of (s : text) (lo : Z) : option Z := match parseValue s lo maxVal mode with Ok v => Some v | _ => None end.
Definition step_of (s : option text) : option Z :=
  match s with None => Some 1 | Some s => match Atoi s with Some n => if n <? 1 then None else Some n | None => None end end.
(** The first and the last value; a single value with a step goes on to the end. *)
Definition bounds_of (sh : shape) (hasStep : bool) : option (Z * Z) :=
  match sh with
  | Any => Some (minVal, maxVal)
  | One a => x ← value_of a minVal; Some (x, if hasStep then maxVal else x)
  | Span a b => x ← value_of a minVal; y ← value_of b x; Some (x, y)
  end.
Definition has_step (it : item) : bool := match istep it with Some _ => true | None => false end.

(** The tokens hold no separators. *)
Definition token (s : text) : Prop := comma ∉ s ∧ slash ∉ s ∧ dash ∉ s.
Definition clean_shape (sh : shape) : Prop := match sh with Any => True | One a => token a | Span a b => token a ∧ token b end.
Record reads_as (it : item) (lo hi step : Z) : Prop := {
  ra_shape : clean_shape (ishape it);
  ra_step : match istep it with Some s => comma ∉ s ∧ slash ∉ s | None => True end;
  ra_bounds : bounds_of (ishape it) (has_step it) = Some (lo, hi);
  ra_stride : step_of (istep it) = Some step }.

(** ** One part *)

Lemma star_not_value lo hi : parseValue star lo hi mode = Err errAtoi.
Proof using. by destruct mode. Qed.
Lemma shape_clean c sh : clean_shape sh → (c = comma ∨ c = slash) → c ∉ render_shape sh.
Proof using.
  intros H Hc. destruct sh as [|a|a b]; simpl in *.
  - destruct Hc as [-> | ->]; by_decide.
  - destruct H as (? & ? & ?). by destruct Hc as [-> | ->].
  - destruct H as [(? & ? & ?) (? & ? & ?)]. rewrite elem_of_app, elem_of_cons. destruct Hc as [-> | ->]; naive_solver.
Qed.

Lemma parse_step_sound f p p' st has : parse_step f p = Ok (p', st, has) →
  ∃ s, p = p' ++ render_step s ∧ slash ∉ p' ∧ match s with Some s => slash ∉ s | None => True end ∧ step_of s = Some st ∧ has = match s with Some _ => true | None => false end.
Proof using.
  unfold parse_step. destruct (Count p slash) as [|[|n]] eqn:Ec; [..|done].
  - intros [= <- <- <-]. exists None. simpl. rewrite app_nil_r. split_and!; try done. by apply Count_zero.
  - destruct (Cut p slash) as [[b a] fd] eqn:E. case_bool_decide as Ha; [done|]. destruct (Atoi a) as [n|] eqn:Ea; [|done].
    destruct (n <? 1) eqn:En; [done|]. intros [= <- <- <-]. destruct fd.
    2: { apply Cut_missing in E as (_ & -> & _). done. }
    apply Cut_spec in E as [-> Hb]. exists (Some a). simpl. rewrite Ea, En. split_and!; try done.
    rewrite Count_app, Count_cons, decide_True in Ec by done. apply Count_zero. lia.
Qed.
Lemma parse_step_complete f p' s st : slash ∉ p' → match s with Some s => slash ∉ s | None => True end → step_of s = Some st →
  parse_step f (p' ++ render_step s) = Ok (p', st, match s with Some _ => true | None => false end).
Proof using.
  intros Hp Hs E. unfold parse_step. destruct s as [s|]; simpl in *.
  - rewrite Count_app, Count_cons, decide_True by done. apply Count_zero in Hp as Hp'. apply Count_zero in Hs as Hs'. rewrite Hp', Hs'. simpl.
    rewrite Cut_found by done. destruct (Atoi s) as [n|] eqn:En; [|done]. rewrite bool_decide_eq_false_2 by (by intros ->).
    destruct (n <? 1) eqn:E1; [done|]. by injection E as ->.
  - rewrite app_nil_r. apply Count_zero in Hp. rewrite Hp. by injection E as <-.
Qed.

Lemma value_of_ok s lo e x : or_err (parseValue s lo maxVal mode) e = Ok x ↔ value_of s lo = Some x.
Proof using. unfold value_of. destruct (parseValue s lo maxVal mode); simpl; naive_solver. Qed.
Lemma parse_bounds_sound f p has lo hi : comma ∉ p → slash ∉ p → parse_bounds f p has minVal maxVal mode = Ok (lo, hi) →
  ∃ sh, p = render_shape sh ∧ clean_shape sh ∧ bounds_of sh has = Some (lo, hi).
Proof using.
  intros Hc Hs. unfold parse_bounds. case_bool_decide as Ep; [intros [= <- <-]; by exists Any|].
  destruct (Contains p dash) eqn:Ed.
  - destruct (1 <? Count p dash)%nat eqn:E1; [done|]. apply Nat.ltb_ge in E1. apply text_contains_spec in Ed.
    destruct (Cut p dash) as [[b a] fd] eqn:E. destruct fd; [|by apply Cut_missing in E as (_ & _ & ?)].
    intros (x & Ex & (y & Ey & [= <- <-])%obind_ok)%obind_ok. apply Cut_spec in E as [-> Hb]. rewrite Count_app, Count_cons, decide_True in E1 by done.
    assert (dash ∉ a) by (apply Count_zero; lia). rewrite elem_of_app, elem_of_cons in Hc, Hs. exists (Span b a). split; [done|].
    split; [unfold clean_shape, token; naive_solver|]. apply value_of_ok in Ex, Ey. simpl. rewrite Ex. simpl. by rewrite Ey.
  - intros (x & Ex & [= <- <-])%obind_ok. apply not_true_iff_false in Ed. rewrite text_contains_spec in Ed. exists (One p).
    apply value_of_ok in Ex. simpl. rewrite Ex. by split_and!.
Qed.
Lemma parse_bounds_complete f sh has lo hi : clean_shape sh → bounds_of sh has = Some (lo, hi) →
  parse_bounds f (render_shape sh) has minVal maxVal mode = Ok (lo, hi).
Proof using.
  intros H E. unfold parse_bounds. destruct sh as [|a|a b]; simpl in *.
  - by injection E as <- <-.
  - destruct (value_of a minVal) as [x|] eqn:Ex; [|done]. injection E as <- <-. rewrite bool_decide_eq_false_2.
    2: { intros ->. unfold value_of in Ex. by rewrite star_not_value in Ex. }
    destruct (Contains a dash) eqn:Ed; [by apply text_contains_spec in Ed; destruct H as (_ & _ & ?)|].
    apply (value_of_ok a minVal (errValue f)) in Ex. by rewrite Ex.
  - destruct (value_of a minVal) as [x|] eqn:Ex; [|done]. simpl in E. destruct (value_of b x) as [y|] eqn:Ey; [|done]. injection E as <- <-.
    destruct H as [(_ & _ & Ha) (_ & _ & Hb)]. rewrite bool_decide_eq_false_2.
    2: { intros X. assert (dash ∈ star) as Y by (rewrite <- X; set_solver). revert Y. by_decide. }
    rewrite (proj2 (text_contains_spec _ _)) by set_solver. rewrite Count_app, Count_cons, decide_True by done.
    apply Count_zero in Ha as Ha'. apply Count_zero in Hb. rewrite Ha', Hb. simpl. rewrite Cut_found by done.
    apply (value_of_ok a minVal (errStart f)) in Ex. apply (value_of_ok b x (errEnd f)) in Ey. rewrite Ex. simpl. by rewrite Ey.
Qed.
Lemma parse_part_sound f p rs : comma ∉ p → parse_part f minVal maxVal mode p = Ok rs → ∃ it lo hi st, p = render it ∧ reads_as it lo hi st.
Proof using.
  intros Hp. unfold parse_part. intros ([[p' st] has] & E1 & ([lo hi] & E2 & _)%obind_ok)%obind_ok.
  apply parse_step_sound in E1 as (s & -> & H1 & H2 & H3 & ->). rewrite elem_of_app in Hp.
  apply parse_bounds_sound in E2 as (sh & -> & H4 & H5); [|naive_solver|done]. exists (mkItem sh s), lo, hi, st. split; [done|]. split; simpl; try done.
  destruct s; [|done]. split; [|done]. intros H. apply Hp. right. by right.
Qed.
Lemma parse_part_complete f it lo hi st : reads_as it lo hi st → parse_part f minVal maxVal mode (render it) = Ok (part_ranges lo hi st mode).
Proof using.
  intros [H1 H2 H3 H4]. unfold parse_part, render. rewrite (parse_step_complete f _ _ st).
  - simpl. change (match istep it with Some _ => true | None => false end) with (has_step it). by rewrite (parse_bounds_complete f _ _ lo hi).
  - apply shape_clean; [done|by right].
  - destruct (istep it); [|done]. by destruct H2.
  - done.
Qed.

(** Every part, and the list of parts. *)
Definition reads (s : text) (items : list item) : Prop :=
  items ≠ [] ∧ s = join comma (map render items) ∧ Forall (λ it, ∃ lo hi st, reads_as it lo hi st) items.
Lemma render_clean it lo hi st : reads_as it lo hi st → comma ∉ render it.
Proof using.
  intros [H1 H2 _ _]. unfold render. rewrite elem_of_app. intros [H|H]; [by apply (shape_clean comma) in H; [|done|left]|].
  destruct (istep it) as [s|]; simpl in H; [|by apply not_elem_of_nil in H]. apply elem_of_cons in H as [H|H]; [done|]. by destruct H2.
Qed.
Lemma reads_parts s items : reads s items → Split s comma = map render items.
Proof using.
  intros (H1 & -> & H2). apply join_Split; [by destruct items|]. apply Forall_forall. intros p (it & -> & Hi)%list_elem_of_fmap.
  rewrite Forall_forall in H2. destruct (H2 it Hi) as (lo & hi & st & H). by eapply render_clean.
Qed.
Lemma parse_parts_ok f parts acc rs : parse_parts f minVal maxVal mode parts acc = Ok rs →
  ∃ rss, Forall2 (λ p r, parse_part f minVal maxVal mode p = Ok r) parts rss ∧ rs = acc ++ concat rss.
Proof using.
  revert acc. induction parts as [|p parts IH]; intros acc; simpl.
  - intros [= <-]. exists []. by rewrite app_nil_r.
  - intros (r & E & (rss & F & ->)%IH)%obind_ok. exists (r :: rss). split; [by constructor|]. simpl. by rewrite app_assoc.
Qed.
Lemma parse_parts_total f parts acc : Forall (λ p, ∃ r, parse_part f minVal maxVal mode p = Ok r) parts →
  ∃ rs, parse_parts f minVal maxVal mode parts acc = Ok rs.
Proof using.
  intros H. revert acc. induction H as [|p parts [r E] _ IH]; intros acc; simpl; [by eexists|]. rewrite E. simpl. apply IH.
Qed.
Lemma parse_parts_iff f s : (∃ rs, parse_parts f minVal maxVal mode (Split s comma) [] = Ok rs) ↔ ∃ items, reads s items.
Proof using.
  split.
  - intros [rs (rss & F & _)%parse_parts_ok]. pose proof (Split_join s comma) as J. pose proof (Split_nonempty s comma) as N.
    assert (∀ p, p ∈ Split s comma → comma ∉ p) as C by apply Split_clean. revert F J N C. generalize (Split s comma). intros parts F <- N C.
    assert (∃ items, parts = map render items ∧ Forall (λ it, ∃ lo hi st, reads_as it lo hi st) items) as (items & -> & H).
    { clear N. induction F as [|p r parts rss E _ IH]; [by exists []|]. destruct IH as (items & -> & H); [intros q Hq; apply C; by right|].
      destruct (parse_part_sound f p r) as (it & lo & hi & st & -> & Hr); [apply C; by left|done|]. exists (it :: items). split; [done|].
      constructor; [|done]. by exists lo, hi, st. }
    exists items. split_and!; [by intros ->|done|done].
  - intros (items & H). rewrite (reads_parts s items H). destruct H as (_ & _ & H). apply parse_parts_total. apply Forall_forall.
    intros p (it & -> & Hi)%list_elem_of_fmap. rewrite Forall_forall in H. destruct (H it Hi) as (lo & hi & st & Hr). eexists. by apply parse_part_complete.
Qed.

(** ** What the ranges cover *)

(** The values from [lo] to [hi] by steps. *)
Definition progression (lo hi st v : Z) : Prop := lo ≤ v ≤ hi ∧ (v - lo) mod st = 0.
(** Seven is Sunday, which is day zero; a plain range from one to seven does not include it. *)
Definition denotes (lo hi st v : Z) : Prop :=
  match mode with
  | parseModeDow => progression lo hi st v ∧ v ≠ 7 ∨ v = 0 ∧ progression lo hi st 7 ∧ ¬ (lo = 1 ∧ st = 1)
  | _ => progression lo hi st v
  end.

Lemma plain_covers lo hi st v : 0 ≤ lo → lo ≤ hi < 2 ^ 31 → 1 ≤ st < 2 ^ 31 → covers (plain_range lo hi st) v = true ↔ progression lo hi st v.
Proof using.
  intros H1 H2 H3. unfold covers, plain_range, progression. simpl. rewrite !andb_true_iff, !Z.leb_le, Z.eqb_eq.
  rewrite (wrap32_id lo) by (int_bounds; lia). rewrite (wrap32_id (if lo =? hi then 0 else hi)) by (int_bounds; destruct (lo =? hi); lia).
  rewrite (wrap32_id (if st =? 1 then 0 else st)) by (int_bounds; destruct (st =? 1); lia).
  assert ((if (if st =? 1 then 0 else st) =? 0 then 1 else if st =? 1 then 0 else st) = st) as ->.
  { destruct (Z.eqb_spec st 1) as [->|N]; [done|]. by rewrite (proj2 (Z.eqb_neq st 0)) by lia. }
  destruct (Z.eqb_spec lo hi); split; intros; intuition lia.
Qed.
Lemma part_covers lo hi st v : 0 ≤ lo → lo ≤ hi < 2 ^ 31 → 1 ≤ st < 2 ^ 31 → (mode = parseModeDow → hi ≤ 7) →
  in_ranges (part_ranges lo hi st mode) v = true ↔ denotes lo hi st v.
Proof using.
  intros H1 H2 H3 H4. unfold part_ranges, denotes, in_ranges. case_bool_decide as Em; simpl.
  2: { rewrite orb_false_r, plain_covers by done. by destruct mode. }
  rewrite Em. destruct (Z.eqb_spec hi 7) as [->|Nh].
  2: { simpl. rewrite orb_false_r, plain_covers by done. specialize (H4 Em). unfold progression. split; [intros; left; lia|]. intros [?|?]; lia. }
  assert (Z.rem (7 - lo) st = (7 - lo) mod st) as -> by (apply Z.rem_mod_nonneg; lia).
  assert (covers (mkRange 0 0 0) v = true ↔ v = 0) as H0.
  { unfold covers. simpl. rewrite !andb_true_iff, !Z.leb_le, Z.eqb_eq, Z.mod_1_r. lia. }
  assert (lo ≠ 7 → covers (plain_range lo 6 st) v = true ↔ progression lo 6 st v) as Hp by (intros; apply plain_covers; lia).
  assert (∀ l, existsb (λ r, covers r v) (mkRange 0 0 0 :: l) = true ↔ v = 0 ∨ existsb (λ r, covers r v) l = true) as Hc.
  { intros l. simpl. by rewrite orb_true_iff, H0. }
  unfold progression in *.
  destruct (Z.eqb_spec ((7 - lo) mod st) 0) as [E7|N7], (Z.ltb_spec 1 st), (Z.eqb_spec st 1), (Z.ltb_spec 1 lo); try lia; simpl negb; cbn [andb orb].
  all: try (rewrite Hc; destruct (Z.eqb_spec lo 7) as [->|N]; simpl; [split; [intros [?|?]; [right; intuition lia|done]|intros [?|?]; intuition lia]|]).
  all: rewrite ?orb_false_r; simpl; rewrite ?orb_false_r, ?Hp by lia.
  all: try (split; [intros X; destruct (decide (v = 0)); intuition lia|]; intros [X|X]; intuition lia).
  1: subst st; rewrite !Z.mod_1_r; split; [intros X; left; lia|]; intros [X|X]; lia.
  all: assert (lo ≠ 7) by (intros ->; apply N7; by rewrite Z.sub_diag, Z.mod_0_l by lia); rewrite Hp by done.
  all: split; [intros X; left; intuition lia|]; intros [X|X]; intuition lia.
Qed.

Lemma in_bounds_ok i lo hi v : in_bounds i lo hi = Ok v → lo ≤ v ≤ hi.
Proof using. unfold in_bounds. destruct (_ || _) eqn:E; [done|]. intros [= <-]. bool_to_prop. lia. Qed.
Lemma value_range s lo x : value_of s lo = Some x → lo ≤ x ≤ maxVal.
Proof using.
  unfold value_of. destruct (parseValue s lo maxVal mode) as [v| |] eqn:E; [|done..]. intros [= <-].
  assert (∀ s', parse_int s' lo maxVal = Ok v → lo ≤ v ≤ maxVal) as P.
  { intros s'. unfold parse_int. destruct (Atoi s'); [|done]. apply in_bounds_ok. }
  unfold parseValue in E. destruct mode; [by eapply P..| |].
  all: destruct (_ <=? _); [|by eapply P]; destruct (find_name _ _ _); [by apply in_bounds_ok in E|by eapply P].
Qed.
Lemma reads_range it lo hi st : minVal ≤ maxVal → reads_as it lo hi st → minVal ≤ lo ∧ lo ≤ hi ≤ maxVal ∧ 1 ≤ st.
Proof using.
  intros Hm [_ _ Hb Hs]. assert (1 ≤ st) as H1.
  { unfold step_of in Hs. destruct (istep it) as [s|]; [|injection Hs; lia]. destruct (Atoi s) as [n|]; [|done]. destruct (n <? 1) eqn:E; [done|].
    injection Hs as <-. bool_to_prop. lia. }
  destruct (ishape it) as [|a|a b]; simpl in Hb.
  - injection Hb as <- <-. lia.
  - destruct (value_of a minVal) as [x|] eqn:Ex; [|done]. simpl in Hb. injection Hb as <- <-. apply value_range in Ex. destruct (has_step it); lia.
  - destruct (value_of a minVal) as [x|] eqn:Ex; [|done]. simpl in Hb. destruct (value_of b x) as [y|] eqn:Ey; [|done]. injection Hb as <- <-.
    apply value_range in Ex, Ey. lia.
Qed.
Lemma parts_cover f items rss v : 0 ≤ minVal → minVal ≤ maxVal < 2 ^ 31 → (mode = parseModeDow → maxVal ≤ 7) →
  Forall (λ it, ∃ lo hi st, reads_as it lo hi st ∧ st < 2 ^ 31) items → Forall2 (λ p r, parse_part f minVal maxVal mode p = Ok r) (map render items) rss →
  in_ranges (concat rss) v = true ↔ ∃ it lo hi st, it ∈ items ∧ reads_as it lo hi st ∧ denotes lo hi st v.
Proof using.
  intros H1 H2 H3 HF. revert rss. induction HF as [|it items (lo & hi & st & Hr & Hs) _ IH]; intros rss F; simpl in F.
  - apply Forall2_nil_inv_l in F as ->. simpl. split; [done|]. intros (? & ? & ? & ? & ?%not_elem_of_nil & _). done.
  - apply Forall2_cons_inv_l in F as (r & rss' & E & F & ->). simpl. unfold in_ranges. rewrite existsb_app, orb_true_iff. fold (in_ranges (concat rss')).
    fold (in_ranges r v). rewrite (IH _ F). rewrite (parse_part_complete f it lo hi st Hr) in E. injection E as <-.
    destruct (reads_range it lo hi st) as (B1 & B2 & B3); [lia|done|]. rewrite part_covers by (done || lia || (intros X; specialize (H3 X); lia)). split.
    + intros [D|(it' & lo' & hi' & st' & Hi & Hr' & D)]; [exists it, lo, hi, st; split_and!; [by left|done..]|].
      exists it', lo', hi', st'. split_and!; [by right|done..].
    + intros (it' & lo' & hi' & st' & [->|Hi]%elem_of_cons & Hr' & D); [left|right; by exists it', lo', hi', st'].
      destruct Hr as [_ _ Hb Hst], Hr' as [_ _ Hb' Hst']. rewrite Hb in Hb'. rewrite Hst in Hst'. by simplify_eq.
Qed.
End language.

(** What [makeRange] reads: its argument, or the default of the field. *)
Definition range_text (s def : text) : text := if bool_decide (TrimSpace s = []) then def else TrimSpace s.

(** C20 The language of [makeRange]: but for the star of a year, it accepts a text exactly when it reads as a list of items, and the ranges
    it returns cover a value exactly when an item denotes it - every step-th value of its range, with seven for Sunday in a day of the
    week (the range from one to seven excepted, which loses its Sunday), when the steps fit in 32 bits. *)
Theorem makeRange_grammar s field def minVal maxVal mode :
  0 ≤ minVal → minVal ≤ maxVal < 2 ^ 31 → (mode = parseModeDow → maxVal ≤ 7) → ¬ (range_text s def = star ∧ mode = parseModeYear) →
  ((∃ ranges, makeRange s field def minVal maxVal mode = Ok ranges) ↔ ∃ items, reads minVal maxVal mode (range_text s def) items) ∧
  ∀ ranges items v, makeRange s field def minVal maxVal mode = Ok ranges → reads minVal maxVal mode (range_text s def) items →
    Forall (λ it, ∀ st, step_of (istep it) = Some st → st < 2 ^ 31) items →
    in_ranges ranges v = true ↔ ∃ it lo hi st, it ∈ items ∧ reads_as minVal maxVal mode it lo hi st ∧ denotes mode lo hi st v.
Proof.
  intros H1 H2 H3 H4. assert (makeRange s field def minVal maxVal mode = parse_parts field minVal maxVal mode (Split (range_text s def) comma) []) as E.
  { unfold makeRange. fold (range_text s def). case_bool_decide; [|done]. case_bool_decide; [|done]. by destruct H4. }
  rewrite E. split; [apply parse_parts_iff|]. intros ranges items v Hp Hr Hs. rewrite (reads_parts _ _ _ _ _ Hr) in Hp.
  apply parse_parts_ok in Hp as (rss & F & ->). simpl. apply (parts_cover minVal maxVal mode field items); try done.
  destruct Hr as (_ & _ & Hr). apply Forall_forall. intros it Hi. rewrite Forall_forall in Hr, Hs. destruct (Hr it Hi) as (lo & hi & st & R).
  exists lo, hi, st. split; [done|]. apply (Hs it Hi). apply R.
Qed.

Lemma makeRange_grammar_witness : ∃ ranges, makeRange (lit " 1-5/2,Sat ") InDayOfWeek star 0 7 parseModeDow = Ok ranges ∧
  (in_ranges ranges 6 = true ↔ ∃ it lo hi st, it ∈ [mkItem (Span (lit "1") (lit "5")) (Some (lit "2")); mkItem (One (lit "Sat")) None] ∧
    reads_as 0 7 parseModeDow it lo hi st ∧ denotes parseModeDow lo hi st 6).
Proof.
  set (items := [mkItem (Span (lit "1") (lit "5")) (Some (lit "2")); mkItem (One (lit "Sat")) None]).
  assert (reads 0 7 parseModeDow (range_text (lit " 1-5/2,Sat ") star) items) as Hr.
  { split_and!; [done|by vm_compute|]. constructor; [exists 1, 5, 2|constructor; [exists 6, 6, 1|constructor]]; constructor; try done; by_decide. }
  destruct (makeRange_grammar (lit " 1-5/2,Sat ") InDayOfWeek star 0 7 parseModeDow) as [H1 H2]; [lia|lia|lia|by intros [_ ?]|].
  eexists. split; [vm_compute; reflexivity|]. apply (H2 _ items); [vm_compute; reflexivity|done|].
  apply Forall_cons. split; [intros st E; vm_compute in E; injection E as <-; lia|]. apply Forall_cons. split; [intros st E; vm_compute in E; injection E as <-; lia|apply Forall_nil_2].
Defined.
