(* ===== verification/SchedSpec.v ===== *)
(** * Schedules: specs ([service/worker/scheduler/spec.go])

    Instants of a spec are in nanoseconds; those its calendars and intervals compute are in seconds. *)
From S2P Require Import Prelude SchedTime SchedText SchedCalendar SchedParse.
Local Open Scope Z_scope.
Local Open Scope go_scope.

Definition second_ns : Z := 10 ^ 9.

(** [schedulepb.ScheduleSpec]; a duration is zero when unset. *)
Record ScheduleSpec := mkSpec {
  StructuredCalendar : list StructuredCalendarSpec; CronString : list text; Calendar : list CalendarSpec; Intervals : list IntervalSpec;
  ExcludeCalendar : list CalendarSpec; ExcludeStructuredCalendar : list StructuredCalendarSpec;
  StartTime : option Z; EndTime : option Z; Jitter : Z; TimezoneName : text; TimezoneData : option text }.

(** ** Validation *)

Definition check_range (field : cal_field) (minVal maxVal : Z) (r : Range) : list sched_error :=
  (if (Start r <? minVal) || (maxVal <? Start r) then [errStart field] else []) ++
  (if negb (End r =? 0) && ((End r <? Start r) || (maxVal <? End r)) then [errEnd field] else []) ++
  (if Step r <? 0 then [errInvalidStep field] else []).
Definition checkRanges (ranges : list Range) (field : cal_field) (minVal maxVal : Z) : list sched_error :=
  concat (map (check_range field minVal maxVal) ranges).
Definition validateStructuredCalendar (scs : StructuredCalendarSpec) : result unit :=
  match checkRanges (sSecond scs) InSecond 0 59 ++ checkRanges (sMinute scs) InMinute 0 59 ++ checkRanges (sHour scs) InHour 0 23 ++
        checkRanges (sDayOfMonth scs) InDayOfMonth 1 31 ++ checkRanges (sMonth scs) InMonth 1 12 ++
        checkRanges (sYear scs) InYear minCalendarYear maxCalendarYear ++ checkRanges (sDayOfWeek scs) InDayOfWeek 0 6 ++
        (if maxCommentLen <? byte_len (sComment scs) then [errCommentTooLong] else []) with
  | [] => Ok tt
  | errs => Err (errInvalidCalendar errs)
  end.
Definition validateInterval (i : IntervalSpec) : result unit :=
  if Interval i <? second_ns then Err errIntervalTooSmall
  else if Phase i <? 0 then Err errPhaseNegative
  else if Interval i <=? Phase i then Err errPhaseTooLarge
  else Ok tt.

(** ** The canonical form *)

Fixpoint mapM {A B} (f : A → result B) (l : list A) : result (list B) :=
  match l with [] => Ok [] | a :: l => let! b := f a in let! bs := mapM f l in Ok (b :: bs) end.
Fixpoint each {A} (f : A → result unit) (l : list A) : result unit :=
  match l with [] => Ok tt | a :: l => let! _ := f a in each f l end.

Section builder.
Context (ParseDuration : text → option Z).

Definition unset : text := lit "__unset__".
(** The loop over the cron strings, which must agree on the time zone. *)
Fixpoint parse_crons (crons : list text) (cronTZ : text) (cals : list StructuredCalendarSpec) (ivs : list IntervalSpec) :
    result (text * list StructuredCalendarSpec * list IntervalSpec) :=
  match crons with
  | [] => Ok (cronTZ, cals, ivs)
  | cs :: crons =>
      let '(r, tz) := parseCronString ParseDuration cs in
      let! parsed := r in
      if negb (bool_decide (cronTZ = unset)) && negb (bool_decide (tz = cronTZ)) then Err errConflictingTimezoneNames
      else match parsed with
           | inl structured => parse_crons crons tz (cals ++ [structured]) ivs
           | inr interval => parse_crons crons tz cals (ivs ++ [interval])
           end
  end.
(** The time zone of the cron strings is copied unless it conflicts. *)
Definition merge_timezone (spec : ScheduleSpec) (cronTZ : text) : result text :=
  if bool_decide (cronTZ = unset) || bool_decide (cronTZ = []) then Ok (TimezoneName spec)
  else if negb (bool_decide (TimezoneName spec = [])) && negb (bool_decide (TimezoneName spec = cronTZ)) || bool_decide (is_Some (TimezoneData spec))
  then Err errConflictingTimezoneNames
  else Ok (if bool_decide (TimezoneName spec = []) then cronTZ else TimezoneName spec).
Definition canonicalizeSpec (spec : ScheduleSpec) : result ScheduleSpec :=
  let! cals := mapM parseCalendarToStructured (Calendar spec) in
  let! excludes := mapM parseCalendarToStructured (ExcludeCalendar spec) in
  let! (cronTZ, structured, intervals) := parse_crons (CronString spec) unset (StructuredCalendar spec ++ cals) (Intervals spec) in
  let! name := merge_timezone spec cronTZ in
  let! _ := each validateStructuredCalendar structured in
  let! _ := each validateInterval intervals in
  Ok (mkSpec structured [] [] intervals [] (ExcludeStructuredCalendar spec ++ excludes) (StartTime spec) (EndTime spec) (Jitter spec)
        name (TimezoneData spec)).

(** [CleanSpec]: the defaults of a range are written out. *)
Definition clean_range (r : Range) : Range :=
  mkRange (Start r) (if End r <? Start r then Start r else End r) (if Step r =? 0 then 1 else Step r).
Definition cleanCal (s : StructuredCalendarSpec) : StructuredCalendarSpec :=
  mkStructured (map clean_range (sSecond s)) (map clean_range (sMinute s)) (map clean_range (sHour s)) (map clean_range (sDayOfMonth s))
    (map clean_range (sMonth s)) (map clean_range (sYear s)) (map clean_range (sDayOfWeek s)) (sComment s).
Definition CleanSpec (spec : ScheduleSpec) : ScheduleSpec :=
  mkSpec (map cleanCal (StructuredCalendar spec)) (CronString spec) (Calendar spec) (Intervals spec) (ExcludeCalendar spec)
    (map cleanCal (ExcludeStructuredCalendar spec)) (StartTime spec) (EndTime spec) (Jitter spec) (TimezoneName spec) (TimezoneData spec).

(** ** Compilation *)

(** [time.LoadLocation] and [time.LoadLocationFromTZData]. *)
Context (LoadLocation : text → option Location) (LoadLocationFromTZData : text → text → option Location).

Record CompiledSpec := mkCompiledSpec {
  cspec : ScheduleSpec; ctz : Location; ccalendar : list compiledCalendar; cexcludes : list compiledCalendar }.

Definition location_result (r : option Location) : result Location := match r with Some l => Ok l | None => Err errLoadLocation end.
(** [cached] is what the cache of the builder holds for the name, the failures included; the second component is what is put there. *)
Definition loadTimezone (cached : option (option Location)) (spec : ScheduleSpec) : result Location * option (option Location) :=
  match TimezoneData spec with
  | Some data => (location_result (LoadLocationFromTZData (TimezoneName spec) data), None)
  | None =>
      match cached with
      | Some r => (location_result r, None)
      | None => let r := LoadLocation (TimezoneName spec) in (location_result r, Some r)
      end
  end.
(** [cache name] is the entry of the cache. *)
Definition NewCompiledSpec (cache : text → option (option Location)) (spec : ScheduleSpec) : result CompiledSpec :=
  let! spec := canonicalizeSpec spec in
  let! l := (loadTimezone (cache (TimezoneName spec)) spec).1 in
  let! ccs := mapM (λ s, newCompiledCalendar s l) (StructuredCalendar spec) in
  let! excludes := mapM (λ s, newCompiledCalendar s l) (ExcludeStructuredCalendar spec) in
  Ok (mkCompiledSpec spec l ccs excludes).

(** ** The next time *)

(** The division truncates towards zero. *)
Definition interval_seconds (iv : IntervalSpec) : Z := let i := Z.quot (Interval iv) second_ns in if i <? 1 then 1 else i.
Definition phase_seconds (iv : IntervalSpec) : Z := let p := Z.quot (Phase iv) second_ns in if p <? 0 then 0 else p.
Definition nextIntervalTime (iv : IntervalSpec) (ts : Z) : Z :=
  (Z.quot (ts - phase_seconds iv) (interval_seconds iv) + 1) * interval_seconds iv + phase_seconds iv.

Fixpoint min_calendars (ccs : list compiledCalendar) (after minTimestamp : Z) : result Z :=
  match ccs with
  | [] => Ok minTimestamp
  | cal :: ccs =>
      let! next := next cal after in
      min_calendars ccs after match next with Some t => if t <? minTimestamp then t else minTimestamp | None => minTimestamp end
  end.
Definition min_intervals (ivs : list IntervalSpec) (after minTimestamp : Z) : Z :=
  foldl (λ m iv, let next := nextIntervalTime iv after in if next <? m then next else m) minTimestamp ivs.
Definition rawNextTime (cs : CompiledSpec) (after : Z) : result (option Z) :=
  let! m := min_calendars (ccalendar cs) after MaxInt64 in
  let m := min_intervals (Intervals (cspec cs)) after m in
  Ok (if m =? MaxInt64 then None else Some m).

Definition excluded (cs : CompiledSpec) (nominal : Z) : bool := existsb (λ excal, matches excal nominal) (cexcludes cs).
Definition UTC : Location := fixed_zone 0.
Definition pastEndTime (cs : CompiledSpec) (t : Z) : bool :=
  match EndTime (cspec cs) with Some e => e <? t * second_ns | None => false end || (maxCalendarYear <? Year UTC t).

(** A turn of the loop of [GetNextTime]. *)
Definition get_step (cs : CompiledSpec) (after : Z) : Z + result (option Z) :=
  match rawNextTime cs after with
  | Ok (Some nominal) =>
      if pastEndTime cs nominal then inr (Ok None) else if excluded cs nominal then inl nominal else inr (Ok (Some nominal))
  | Ok None => inr (Ok None)
  | Err e => inr (Err e)
  | Panic => inr Panic
  end.
(** The first second past the years of calendars; each turn moves on by a second at least. *)
Definition last_second : Z := day_number (maxCalendarYear + 1) 1 1 * 86400.
Definition get_fuel (after : Z) : positive := Z.to_pos (Z.max 2 (last_second - after + 1)).

(** [farm.Fingerprint32] of the marshalled nominal time and the seed. *)
Context (Fingerprint32 : Z → text → Z).
Definition addJitter (seed : text) (nominal maxJitter : Z) : Z :=
  let maxJitter := if maxJitter <? 0 then 0 else maxJitter in
  let fp := Fingerprint32 nominal seed in
  let ms := maxJitter / 10 ^ 6 in
  let ms := if 2 ^ 32 - 1 <? ms then 2 ^ 32 - 1 else ms in
  let jitter := Z.shiftr (fp * ms mod 2 ^ 64) 32 * 10 ^ 6 in
  nominal * second_ns + jitter.

(** The second before the time range of the schedule. *)
Definition start_after (cs : CompiledSpec) (after : Z) : Z := Z.max after (default 0 (StartTime (cspec cs)) - second_ns).
(** The nominal time in seconds, the time with the jitter in nanoseconds.  [Time.Sub] saturates. *)
Definition GetNextTime (cs : CompiledSpec) (jitterSeed : text) (after : Z) : result (option (Z * Z)) :=
  let after := start_after cs after / second_ns in
  match ploop (get_fuel after) (get_step cs) after with
  | inl _ => Err LoopsForever
  | inr r =>
      let! nominal := r in
      match nominal with
      | None => Ok None
      | Some nominal =>
          let! following := rawNextTime cs nominal in
          let maxJitter := match following with
            | Some f => Z.min (Jitter (cspec cs)) (Z.min MaxInt64 ((f - nominal) * second_ns))
            | None => Jitter (cspec cs) end in
          Ok (Some (nominal, addJitter jitterSeed nominal maxJitter))
      end
  end.
End builder.
