(* ===== verification/SchedNextTime.v ===== *)
(** * Schedules: what a spec promises, that its compiled form keeps it, and that [GetNextTime] finds the first time that is due and not excluded *)
From S2P Require Import Prelude SchedTime SchedText SchedCalendar SchedNext SchedExact SchedParse.
From S2P Require Import SchedSpec.
Local Open Scope Z_scope.
Local Open Scope go_scope.

(** ** When a calendar and an interval are due *)

Definition cal_due (l : Location) (s : StructuredCalendarSpec) (t : Z) : bool :=
  let '(y, mo, d) := Date l t in
  match sYear s with [] => true | _ => in_ranges (sYear s) y end && in_ranges (sMonth s) mo && in_ranges (sDayOfMonth s) d &&
  in_ranges (sDayOfWeek s) (Weekday l t) && in_ranges (sHour s) (Hour l t) && in_ranges (sMinute s) (Minute l t) && in_ranges (sSecond s) (Second l t).
Definition interval_due (iv : IntervalSpec) (t : Z) : bool := (t - phase_seconds iv) mod interval_seconds iv =? 0.

(** ** Validated calendars compile *)

Lemma app_nil_inv {A} (l k : list A) : l ++ k = [] → l = [] ∧ k = [].
Proof. destruct l; [done|]. done. Qed.
Definition valid_range (lo hi : Z) (r : Range) : Prop := lo ≤ Start r ∧ Z.max (Start r) (End r) ≤ hi ∧ 0 ≤ Step r.
Lemma checkRanges_valid rs f lo hi : 0 ≤ hi → checkRanges rs f lo hi = [] → Forall (valid_range lo hi) rs.
Proof.
  intros Hh. unfold checkRanges. induction rs as [|r rs IH]; simpl; [constructor|]. intros [H1 H2]%app_nil_inv. constructor; [|by apply IH].
  unfold check_range in H1. apply app_nil_inv in H1 as [H3 [H4 H5]%app_nil_inv].
  destruct (Z.ltb_spec (Start r) lo), (Z.ltb_spec hi (Start r)), (Z.eqb_spec (End r) 0), (Z.ltb_spec (End r) (Start r)), (Z.ltb_spec hi (End r)),
    (Z.ltb_spec (Step r) 0); try done; split; lia.
Qed.
Lemma bit_valid rs lo hi : 0 ≤ lo → Forall (valid_range lo hi) rs →
  ∃ bits, makeBitMatcher rs = Ok bits ∧ ∀ v, 0 ≤ v < 64 → bit_match bits v = in_ranges rs v.
Proof. intros Hlo H. apply makeBitMatcher_spec. eapply Forall_impl; [apply H|]. intros r (? & ? & ?). lia. Qed.

Record valid_calendar (s : StructuredCalendarSpec) : Prop := {
  vc_second : Forall (valid_range 0 59) (sSecond s); vc_minute : Forall (valid_range 0 59) (sMinute s);
  vc_hour : Forall (valid_range 0 23) (sHour s); vc_day : Forall (valid_range 1 31) (sDayOfMonth s);
  vc_month : Forall (valid_range 1 12) (sMonth s); vc_year : Forall (valid_range minCalendarYear maxCalendarYear) (sYear s);
  vc_dow : Forall (valid_range 0 6) (sDayOfWeek s) }.
Lemma validate_valid s : validateStructuredCalendar s = Ok tt → valid_calendar s.
Proof.
  unfold validateStructuredCalendar. destruct (_ ++ _) eqn:E; [|done]. intros _.
  repeat (apply app_nil_inv in E as [?E E]). constructor; eapply checkRanges_valid; eauto; done.
Qed.

Lemma date_range l t y mo d : Date l t = (y, mo, d) → 1 ≤ mo ≤ 12 ∧ 1 ≤ d ≤ 31.
Proof. intros E. apply date_of_day_iff in E as [[H1 H2] _]. pose proof (days_in_month_range mo y H1). lia. Qed.
Lemma weekday_range l t : 0 ≤ Weekday l t < 7.
Proof. unfold Weekday. apply Z.mod_pos_bound. lia. Qed.

Lemma compile_valid s l : valid_calendar s → ∃ cc, newCompiledCalendar s l = Ok cc ∧ tz cc = l ∧ ∀ t, matches cc t = cal_due l s t.
Proof.
  intros []. unfold newCompiledCalendar.
  destruct (makeYearMatcher_spec (sYear s)) as (y & -> & Hy). { eapply Forall_impl; [done|]. intros r (? & ? & ?). unfold minCalendarYear, maxCalendarYear in *. lia. }
  destruct (bit_valid (sMonth s) 1 12) as (mo & -> & Hmo); [lia|done|]. destruct (bit_valid (sDayOfMonth s) 1 31) as (d & -> & Hd); [lia|done|].
  destruct (bit_valid (sDayOfWeek s) 0 6) as (w & -> & Hw); [lia|done|]. destruct (bit_valid (sHour s) 0 23) as (h & -> & Hh); [lia|done|].
  destruct (bit_valid (sMinute s) 0 59) as (m & -> & Hm); [lia|done|]. destruct (bit_valid (sSecond s) 0 59) as (sec & -> & Hs); [lia|done|].
  eexists. split; [done|]. split; [done|]. intros t. unfold matches, cal_due, Clock. cbn [tz year month dayOfMonth dayOfWeek hour minute second]. destruct (Date l t) as [[y' mo'] d'] eqn:Ed.
  pose proof (date_range _ _ _ _ _ Ed). pose proof (weekday_range l t). pose proof (clock_range l t).
  by rewrite Hy, Hmo, Hd, Hw, Hh, Hm, Hs by lia.
Qed.

(** ** The laws of [next] that a spec relies on *)

Class NextLaws (cc : compiledCalendar) : Prop := next_laws : ∀ ts, ∃ r, next cc ts = Ok r ∧ match r with
  | Some t => ts < t < MaxInt64 ∧ Year (tz cc) t ≤ maxCalendarYear ∧ matches cc t = true ∧ ∀ t', ts < t' < t → matches cc t' = false
  | None => ∀ t, ts < t → Year (tz cc) t ≤ maxCalendarYear → matches cc t = false
  end.
(** The offset of a zone without transitions, and that no offset of a zone is that large. *)
Lemma fixed_laws cc o : tz cc = fixed_zone o → - 2 ^ 60 < o → NextLaws cc.
Proof.
  intros Hz Ho ts. destruct (next_fixed cc o Hz ts) as (r & E & H). exists r. split; [done|]. destruct r as [t|]; [|done].
  destruct H as (H1 & H2 & H3). split; [|done]. split; [done|]. unfold Year, Date, local in H2. rewrite Hz, offset_fixed in H2.
  apply year_le_iff in H2. change (day_number (maxCalendarYear + 1) 1 1) with 47847 in H2. int_bounds. Z.div_mod_to_equations. lia.
Qed.

(** [m] is the first time after [ts] at which [P] holds, or [MaxInt64]. *)
Definition first_after (P : Z → bool) (ts m : Z) : Prop :=
  (∀ t, ts < t < m → P t = false) ∧ (m = MaxInt64 ∨ ts < m < MaxInt64 ∧ P m = true).
Lemma first_after_or P Q ts m n : first_after P ts m → first_after Q ts n → first_after (λ t, P t || Q t) ts (if n <? m then n else m).
Proof.
  intros [P1 P2] [Q1 Q2]. destruct (Z.ltb_spec n m).
  - split; [intros t Ht; rewrite P1, Q1 by lia; done|]. destruct Q2 as [->|[? Q2]]; [by left|right]. split; [done|]. by rewrite Q2, orb_true_r.
  - split; [intros t Ht; rewrite P1, Q1 by lia; done|]. destruct P2 as [->|[? P2]]; [by left|right]. split; [done|]. by rewrite P2.
Qed.
Lemma first_after_ext P Q ts m : (∀ t, P t = Q t) → first_after P ts m → first_after Q ts m.
Proof. intros H [P1 P2]. split; [intros; rewrite <- H; auto|]. by rewrite <- H. Qed.

(** Calendars recognise no year after [maxCalendarYear]. *)
Definition recognised (cc : compiledCalendar) (t : Z) : bool := matches cc t && (Year (tz cc) t <=? maxCalendarYear).
Lemma next_first cc ts m P : NextLaws cc → first_after P ts m → ∃ r, next cc ts = Ok r ∧
  first_after (λ t, P t || recognised cc t) ts match r with Some t => if t <? m then t else m | None => m end.
Proof.
  intros L HP. destruct (L ts) as (r & E & H). exists r. split; [done|]. destruct r as [t|].
  - apply first_after_or; [done|]. destruct H as (H1 & H2 & H3 & H4). split; [intros t' Ht; unfold recognised; by rewrite H4|]. right. split; [done|].
    unfold recognised. rewrite H3. by apply Z.leb_le.
  - destruct HP as [P1 P2]. assert (∀ t, ts < t → recognised cc t = false) as Hn.
    { intros t Ht. unfold recognised. destruct (Z.leb_spec (Year (tz cc) t) maxCalendarYear); [by rewrite H|by rewrite andb_false_r]. }
    split; [intros t Ht; rewrite P1, Hn by lia; done|]. destruct P2 as [->|[? P2]]; [by left|right]. split; [done|]. by rewrite P2.
Qed.
Lemma min_calendars_spec ccs ts m P : Forall NextLaws ccs → first_after P ts m → ∃ m', min_calendars ccs ts m = Ok m' ∧
  first_after (λ t, P t || existsb (λ cc, recognised cc t) ccs) ts m'.
Proof.
  intros H. revert m P. induction H as [|cc ccs L _ IH]; intros m P HP; simpl.
  - exists m. split; [done|]. eapply first_after_ext; [|done]. intros t. by rewrite orb_false_r.
  - destruct (next_first cc ts m P L HP) as (r & -> & HP'). simpl. destruct (IH _ _ HP') as (m' & -> & HP''). exists m'. split; [done|].
    eapply first_after_ext; [|done]. intros t. simpl. by rewrite orb_assoc.
Qed.

(** An interval, from its phase on. *)
Definition interval_ok (ts : Z) (iv : IntervalSpec) : Prop := Interval iv ≤ MaxInt64 ∧ phase_seconds iv ≤ ts.
Lemma interval_seconds_range iv : Interval iv ≤ MaxInt64 → 1 ≤ interval_seconds iv < 2 ^ 60.
Proof.
  intros H. unfold interval_seconds. destruct (Z.ltb_spec (Z.quot (Interval iv) second_ns) 1); [lia|]. split; [lia|].
  assert (0 ≤ Interval iv). { destruct (Z.le_gt_cases 0 (Interval iv)); [done|]. assert (Z.quot (Interval iv) second_ns ≤ 0); [|lia].
    rewrite <- (Z.opp_involutive (Interval iv)), Z.quot_opp_l by done. assert (0 ≤ Z.quot (- Interval iv) second_ns); [|lia]. apply Z.quot_pos; [lia|done]. }
  rewrite Z.quot_div_nonneg by (done || lia). apply Z.div_lt_upper_bound; [done|]. unfold second_ns. int_bounds. lia.
Qed.
Lemma nextIntervalTime_spec iv ts : interval_ok ts iv → ts < 2 ^ 61 → first_after (interval_due iv) ts (nextIntervalTime iv ts).
Proof.
  intros [H1 H2] Ht. pose proof (interval_seconds_range iv H1) as Hi. assert (0 ≤ phase_seconds iv) as Hp.
  { unfold phase_seconds. destruct (Z.ltb_spec (Z.quot (Phase iv) second_ns) 0); lia. }
  unfold nextIntervalTime, interval_due. rewrite Z.quot_div_nonneg by lia. set (p := phase_seconds iv) in *. set (i := interval_seconds iv) in *.
  pose proof (Z.div_mod (ts - p) i ltac:(lia)) as D. pose proof (Z.mod_pos_bound (ts - p) i ltac:(lia)) as B. split.
  - intros t [L1 L2]. apply Z.eqb_neq. intros M. apply Z.mod_divide in M; [|lia]. destruct M as [k Hk]. assert (k ≤ (ts - p) / i) by nia. nia.
  - right. split; [int_bounds; nia|]. apply Z.eqb_eq. replace (((ts - p) / i + 1) * i + p - p) with (((ts - p) / i + 1) * i) by lia. apply Z_mod_mult.
Qed.
Lemma min_intervals_spec ivs ts m P : Forall (interval_ok ts) ivs → ts < 2 ^ 61 → first_after P ts m →
  first_after (λ t, P t || existsb (λ iv, interval_due iv t) ivs) ts (min_intervals ivs ts m).
Proof.
  intros H Ht. revert m P. induction H as [|iv ivs Hi _ IH]; intros m P HP.
  - eapply first_after_ext; [|done]. intros t. simpl. by rewrite orb_false_r.
  - unfold min_intervals. simpl. fold (min_intervals ivs ts). eapply first_after_ext; [|apply IH, first_after_or, nextIntervalTime_spec; done].
    intros t. simpl. by rewrite orb_assoc.
Qed.

(** ** Schedules: [GetNextTime] finds the first time that is due and not excluded *)

(** ** The raw times *)

Section compiled.
Context (cs : CompiledSpec) (start : Z).
Context (Hcal : Forall NextLaws (ccalendar cs)) (Hiv : Forall (interval_ok start) (Intervals (cspec cs))).

Definition raw_due (t : Z) : bool := existsb (λ cc, recognised cc t) (ccalendar cs) || existsb (λ iv, interval_due iv t) (Intervals (cspec cs)).
Lemma rawNextTime_spec ts : start ≤ ts < 2 ^ 61 → ∃ r, rawNextTime cs ts = Ok r ∧ match r with
  | Some t => ts < t ∧ raw_due t = true ∧ ∀ t', ts < t' < t → raw_due t' = false
  | None => ∀ t, ts < t < MaxInt64 → raw_due t = false
  end.
Proof using All.
  intros Ht. unfold rawNextTime. destruct (min_calendars_spec (ccalendar cs) ts MaxInt64 (λ _, false) Hcal) as (m & -> & Hm); [by split; [|left]|]. simpl.
  eapply min_intervals_spec in Hm; [|eapply Forall_impl; [apply Hiv|]; intros iv [? ?]; split; [done|lia]|lia]. destruct Hm as [H1 H2].
  simpl in *. eexists. split; [done|]. destruct (Z.eqb_spec (min_intervals (Intervals (cspec cs)) ts m) MaxInt64) as [E|N].
  - intros t L. apply H1. by rewrite E.
  - destruct H2 as [?|[? ?]]; [done|]. split_and!; [lia|done|done].
Qed.

(** ** The loop *)

Definition due (t : Z) : bool := raw_due t && negb (excluded cs t).
Lemma year_utc t : Year UTC t ≤ maxCalendarYear ↔ t < last_second.
Proof using.
  unfold Year, Date, local, UTC. rewrite offset_fixed, Z.add_0_r, year_le_iff. unfold last_second.
  generalize (day_number (maxCalendarYear + 1) 1 1). intros n. Z.div_mod_to_equations. lia.
Qed.
Lemma past_mono t t' : t ≤ t' → pastEndTime cs t = true → pastEndTime cs t' = true.
Proof using.
  unfold pastEndTime. intros L. rewrite !orb_true_iff, !Z.ltb_lt. intros [H|H].
  - left. destruct (EndTime (cspec cs)) as [e|]; [|done]. apply Z.ltb_lt in H. apply Z.ltb_lt. unfold second_ns in *. lia.
  - right. pose proof (year_utc t). pose proof (year_utc t'). lia.
Qed.
Lemma not_past t : pastEndTime cs t = false → t < last_second.
Proof using. unfold pastEndTime. rewrite orb_false_iff, Z.ltb_ge. intros [_ H]. by apply year_utc. Qed.

Definition no_due (t : Z) : Prop := ∀ t', start < t' ≤ t → due t' = false.
Lemma past_late t : 2 ^ 60 ≤ t → pastEndTime cs t = true.
Proof using.
  intros H. destruct (pastEndTime cs t) eqn:E; [done|]. apply not_past in E. change last_second with 4133980800 in E. lia.
Qed.
Lemma get_step_spec s : no_due s → (s = start ∨ start < s < last_second) → start < 2 ^ 60 → match get_step cs s with
  | inl n => (no_due n ∧ (n = start ∨ start < n < last_second)) ∧ s < n
  | inr r => ∃ a, r = Ok a ∧ match a with
      | Some t => start < t ∧ pastEndTime cs t = false ∧ due t = true ∧ ∀ t', start < t' < t → due t' = false
      | None => ∀ t, start < t → pastEndTime cs t = false → due t = false
      end
  end.
Proof using All.
  intros Hn Hs Hb. assert (start ≤ s < 2 ^ 60) as B by (destruct Hs as [->|H]; [lia|change last_second with 4133980800 in H; lia]).
  unfold get_step. destruct (rawNextTime_spec s) as (r & -> & H); [lia|]. destruct r as [n|].
  - destruct H as (L & Hr & Hb'). assert (∀ t', start < t' < n → due t' = false) as Hbefore.
    { intros t' Ht. destruct (Z.le_gt_cases t' s); [apply Hn; lia|]. unfold due. rewrite Hb' by lia. done. }
    destruct (pastEndTime cs n) eqn:Ep; [|destruct (excluded cs n) eqn:Ex].
    + exists None. split; [done|]. intros t Ht Hp. apply Hbefore. split; [done|]. destruct (Z.lt_ge_cases t n); [done|].
      rewrite (past_mono n t) in Hp by done. done.
    + split; [|done]. split; [|right; split; [lia|by apply not_past]]. intros t' Ht. destruct (decide (t' = n)) as [->|N]; [|apply Hbefore; lia].
      unfold due. by rewrite Ex, andb_false_r.
    + exists (Some n). split; [done|]. split_and!; [lia|done| |done]. unfold due. by rewrite Hr, Ex.
  - exists None. split; [done|]. intros t Ht Hp. destruct (Z.le_gt_cases t s); [apply Hn; lia|]. unfold due. rewrite H; [done|].
    split; [lia|]. destruct (Z.lt_ge_cases t MaxInt64); [done|]. rewrite past_late in Hp; [done|]. int_bounds. lia.
Qed.
Lemma get_loop_spec : start < 2 ^ 60 → ∃ a, ploop (get_fuel start) (get_step cs) start = inr (Ok a) ∧ match a with
  | Some t => start < t ∧ pastEndTime cs t = false ∧ due t = true ∧ ∀ t', start < t' < t → due t' = false
  | None => ∀ t, start < t → pastEndTime cs t = false → due t = false
  end.
Proof using All.
  intros Hb.
  pose proof (ploop_spec (get_step cs) (λ s, no_due s ∧ (s = start ∨ start < s < last_second)) (λ r, ∃ a, r = Ok a ∧ match a with
      | Some t => start < t ∧ pastEndTime cs t = false ∧ due t = true ∧ ∀ t', start < t' < t → due t' = false
      | None => ∀ t, start < t → pastEndTime cs t = false → due t = false end) (λ s, s) (get_fuel start) start) as T.
  specialize (T (λ s H, get_step_spec s (proj1 H) (proj2 H) Hb)). assert (no_due start) as H0 by (intros t ?; lia).
  specialize (T (conj H0 (or_introl eq_refl))). destruct (ploop _ _ _) as [s|r].
  - destruct T as [[_ Hs] Hp]. unfold get_fuel in Hp. lia.
  - destruct T as (a & -> & Ha). by exists a.
Qed.

(** ** Jitter *)

Context (Fingerprint32 : Z → text → Z) (Hfp : ∀ n seed, 0 ≤ Fingerprint32 n seed < 2 ^ 32).
Lemma jitter_range fp ms : 0 ≤ fp < 2 ^ 32 → 0 ≤ ms < 2 ^ 32 →
  0 ≤ Z.shiftr (fp * ms mod 2 ^ 64) 32 ∧ (Z.shiftr (fp * ms mod 2 ^ 64) 32 = 0 ∨ Z.shiftr (fp * ms mod 2 ^ 64) 32 < ms).
Proof using.
  intros Hf Hm. rewrite Z.shiftr_div_pow2 by lia. rewrite Z.mod_small by nia. split; [apply Z.div_pos; nia|].
  destruct (decide (ms = 0)) as [->|N]; [left; by rewrite Z.mul_0_r|right]. apply Z.div_lt_upper_bound; [lia|]. nia.
Qed.
Lemma addJitter_range seed n maxJitter : n * second_ns ≤ addJitter Fingerprint32 seed n maxJitter ∧
  (addJitter Fingerprint32 seed n maxJitter = n * second_ns ∨ addJitter Fingerprint32 seed n maxJitter < n * second_ns + maxJitter).
Proof using Hfp.
  unfold addJitter. set (j := if maxJitter <? 0 then 0 else maxJitter). assert (0 ≤ j ∧ (j = 0 ∨ j = maxJitter)) as [Hj Hj'].
  { unfold j. destruct (Z.ltb_spec maxJitter 0); lia. }
  set (ms := if 2 ^ 32 - 1 <? j / 10 ^ 6 then 2 ^ 32 - 1 else j / 10 ^ 6). pose proof (Z.div_pos j (10 ^ 6) Hj ltac:(lia)).
  pose proof (Z.mul_div_le j (10 ^ 6) ltac:(lia)). assert (0 ≤ ms < 2 ^ 32 ∧ ms ≤ j / 10 ^ 6) as [Hms Hle].
  { unfold ms. destruct (Z.ltb_spec (2 ^ 32 - 1) (j / 10 ^ 6)); lia. }
  destruct (jitter_range (Fingerprint32 n seed) ms (Hfp n seed) Hms) as [J1 J2]. cbn zeta. fold ms.
  revert J1 J2. generalize (Z.shiftr (Fingerprint32 n seed * ms mod 2 ^ 64) 32). intros x J1 J2. split; [lia|].
  destruct J2 as [->|J2]; [left; lia|right; lia].
Qed.
End compiled.
