(* ===== verification/SchedProps.v ===== *)
(** * Schedules: the theorems on calendars and specs *)
From S2P Require Import Prelude SchedTime SchedText SchedCalendar SchedNext SchedExact SchedParse.
From S2P Require Import SchedSpec SchedNextTime.
Local Open Scope Z_scope.
Local Open Scope go_scope.

(** ** Specs *)

Lemma each_Forall {A} (f : A → result unit) l : each f l = Ok tt ↔ Forall (λ a, f a = Ok tt) l.
Proof.
  induction l as [|a l IH]; simpl; [by split|]. rewrite obind_ok, Forall_cons, <- IH. split.
  - by intros ([] & ? & ?).
  - intros [? ?]. by exists tt.
Qed.
Lemma canonical_facts PD spec spec' : canonicalizeSpec PD spec = Ok spec' →
  CronString spec' = [] ∧ Calendar spec' = [] ∧ ExcludeCalendar spec' = [] ∧
  each validateStructuredCalendar (StructuredCalendar spec') = Ok tt ∧ each validateInterval (Intervals spec') = Ok tt.
Proof.
  unfold canonicalizeSpec. intros (cals & _ & H)%obind_ok. apply obind_ok in H as (excludes & _ & H). apply obind_ok in H as ([[z structured] ivs] & _ & H).
  apply obind_ok in H as (name & _ & H). apply obind_ok in H as ([] & H1 & H). apply obind_ok in H as ([] & H2 & H). by injection H as <-.
Qed.



Section next_time.
Context (ParseDuration : text → option Z) (LoadLocation : text → option Location) (LoadLocationFromTZData : text → text → option Location).
Context (cache : text → option (option Location)).
(** [farm.Fingerprint32] yields 32 bits. *)
Context (Fingerprint32 : Z → text → Z) (Hfp : ∀ n seed, 0 ≤ Fingerprint32 n seed < 2 ^ 32).

End next_time.

(** A spec with a cron string, an interval and an exclusion, in a zone with a fixed offset. *)
Definition sample_spec : ScheduleSpec :=
  mkSpec [] [lit "TZ=Asia/Kolkata 30 5 * * mon-fri # weekdays"] [] [mkInterval (7 * 3600 * second_ns) 0]
    [mkCalendar [] [] [] (lit "25") (lit "Dec") [] [] []] [] (Some 0) None second_ns [] None.
Definition Kolkata (name : text) : option Location := Some (fixed_zone 19800).


(** ** Canonical and clean specs *)

Lemma clean_covers r v : covers (clean_range r) v = covers r v.
Proof.
  unfold covers, clean_range. simpl. destruct (Z.ltb_spec (End r) (Start r)), (Z.eqb_spec (Step r) 0) as [E|N]; simpl;
    rewrite ?(proj2 (Z.eqb_neq _ _) N); do 2 f_equal; f_equal; lia.
Qed.
Lemma clean_in_ranges rs v : in_ranges (map clean_range rs) v = in_ranges rs v.
Proof. unfold in_ranges. induction rs as [|r rs IH]; [done|]. simpl. by rewrite clean_covers, IH. Qed.
Lemma clean_due l s t : cal_due l (cleanCal s) t = cal_due l s t.
Proof.
  unfold cal_due. destruct (Date l t) as [[y mo] d]. cbn [cleanCal sSecond sMinute sHour sDayOfMonth sMonth sYear sDayOfWeek].
  rewrite !clean_in_ranges. by destruct (sYear s).
Qed.
Lemma checkRanges_clean rs f lo hi : 0 ≤ hi → checkRanges rs f lo hi = [] → checkRanges (map clean_range rs) f lo hi = [].
Proof.
  intros Hh. unfold checkRanges. induction rs as [|r rs IH]; [done|]. simpl. intros [H1 H2]%app_nil_inv. rewrite IH, app_nil_r by done.
  unfold check_range in *. apply app_nil_inv in H1 as [H3 [H4 H5]%app_nil_inv]. simpl.
  destruct (Z.ltb_spec (Start r) lo), (Z.ltb_spec hi (Start r)); try done.
  assert ((if Step r =? 0 then 1 else Step r) <? 0 = false) as ->.
  { destruct (Z.ltb_spec (Step r) 0); [done|]. destruct (Z.eqb_spec (Step r) 0); apply Z.ltb_ge; lia. }
  destruct (Z.ltb_spec (End r) (Start r)); simpl.
  - rewrite (proj2 (Z.ltb_ge (Start r) (Start r))), (proj2 (Z.ltb_ge hi (Start r))) by lia. by rewrite andb_false_r.
  - rewrite (proj2 (Z.ltb_ge (End r) (Start r))) in * by lia. simpl in *. by destruct (negb (End r =? 0) && (hi <? End r)).
Qed.
Lemma validate_clean s : validateStructuredCalendar s = Ok tt → validateStructuredCalendar (cleanCal s) = Ok tt.
Proof.
  unfold validateStructuredCalendar. intros H.
  destruct (checkRanges (sSecond s) InSecond 0 59 ++ _) eqn:E; [|done]. repeat (apply app_nil_inv in E as [?E E]). simpl.
  rewrite !checkRanges_clean by done. simpl. by rewrite E.
Qed.

(** The canonical form of a spec: canonicalizing it again changes nothing, and writing its defaults out ([CleanSpec]) gives a canonical
    spec whose calendars and exclusions are due at the same times. *)
Theorem canonicalizeSpec_idempotent ParseDuration spec spec' : canonicalizeSpec ParseDuration spec = Ok spec' →
  canonicalizeSpec ParseDuration spec' = Ok spec' ∧ canonicalizeSpec ParseDuration (CleanSpec spec') = Ok (CleanSpec spec') ∧
  ∀ l t, map (λ s, cal_due l s t) (StructuredCalendar (CleanSpec spec')) = map (λ s, cal_due l s t) (StructuredCalendar spec') ∧
         map (λ s, cal_due l s t) (ExcludeStructuredCalendar (CleanSpec spec')) = map (λ s, cal_due l s t) (ExcludeStructuredCalendar spec').
Proof.
  intros H. apply canonical_facts in H as (H1 & H2 & H3 & H4 & H5). destruct spec' as [st cr ca iv exc exs sta en ji tn td]. simpl in *. subst.
  assert (∀ ks es, each validateStructuredCalendar ks = Ok tt →
    canonicalizeSpec ParseDuration (mkSpec ks [] [] iv [] es sta en ji tn td) = Ok (mkSpec ks [] [] iv [] es sta en ji tn td)) as K.
  { intros ks es Hk. unfold canonicalizeSpec. simpl. by rewrite !app_nil_r, Hk, H5. }
  split_and!; [by apply K| |].
  - apply K, each_Forall. apply each_Forall in H4. apply Forall_forall. intros s (s0 & -> & Hs)%list_elem_of_fmap. rewrite Forall_forall in H4.
    apply validate_clean. by apply H4.
  - intros l t. unfold CleanSpec. simpl. rewrite !map_map. split; apply map_ext; intros s; apply clean_due.
Qed.

(** Compiling a spec without exclusions never panics and never loops: once its canonical form and its time zone are there, every
    calendar compiles. *)
Theorem NewCompiledSpec_total ParseDuration LoadLocation LoadLocationFromTZData cache spec spec' l :
  canonicalizeSpec ParseDuration spec = Ok spec' → ExcludeStructuredCalendar spec' = [] →
  (loadTimezone LoadLocation LoadLocationFromTZData (cache (TimezoneName spec')) spec').1 = Ok l →
  ∃ cs, NewCompiledSpec ParseDuration LoadLocation LoadLocationFromTZData cache spec = Ok cs ∧ cspec cs = spec' ∧ ctz cs = l ∧
    Forall2 (λ s cc, ∀ t, matches cc t = cal_due l s t) (StructuredCalendar spec') (ccalendar cs).
Proof.
  intros Hc He Hl. unfold NewCompiledSpec. rewrite Hc. simpl. rewrite Hl, He. simpl. apply canonical_facts in Hc as (_ & _ & _ & Hv & _).
  apply each_Forall in Hv. assert (∃ ccs, mapM (λ s, newCompiledCalendar s l) (StructuredCalendar spec') = Ok ccs ∧
    Forall2 (λ s cc, ∀ t, matches cc t = cal_due l s t) (StructuredCalendar spec') ccs) as (ccs & -> & F).
  { induction Hv as [|s ss Hs _ (ccs & E & F)]; [by exists []|]. destruct (compile_valid s l (validate_valid s Hs)) as (cc & E1 & _ & E2).
    exists (cc :: ccs). simpl. rewrite E1. simpl. rewrite E. by split; [|constructor]. }
  simpl. by eexists.
Qed.

Lemma canonicalizeSpec_idempotent_witness : ∃ spec', canonicalizeSpec (λ _, None) sample_spec = Ok spec' ∧
  canonicalizeSpec (λ _, None) spec' = Ok spec' ∧ canonicalizeSpec (λ _, None) (CleanSpec spec') = Ok (CleanSpec spec').
Proof.
  eexists. split; [vm_compute; reflexivity|].
  split; eapply (canonicalizeSpec_idempotent (λ _, None) sample_spec); vm_compute; reflexivity.
Defined.

Lemma NewCompiledSpec_total_witness : ∃ spec' cs, canonicalizeSpec (λ _, None) (mkSpec [] [lit "@weekly"] [] [] [] [] None None 0 [] None) = Ok spec' ∧
  NewCompiledSpec (λ _, None) Kolkata (λ _ _, None) (λ _, None) (mkSpec [] [lit "@weekly"] [] [] [] [] None None 0 [] None) = Ok cs ∧ cspec cs = spec'.
Proof.
  eexists. destruct (NewCompiledSpec_total (λ _, None) Kolkata (λ _ _, None) (λ _, None) (mkSpec [] [lit "@weekly"] [] [] [] [] None None 0 [] None)
    (mkSpec [mkStructured [mkRange 0 0 0] [mkRange 0 0 0] [mkRange 0 0 0] [mkRange 1 31 0] [mkRange 1 12 0] [] [mkRange 0 0 0] []] [] [] [] [] [] None None 0 [] None)
    (fixed_zone 19800)) as (cs & H1 & H2 & _); [vm_compute; reflexivity..|].
  exists cs. split; [|split; [exact H1|exact H2]]. vm_compute. reflexivity.
Defined.
