(* ===== verification/SchedFailures.v ===== *)
(** * Schedules: where the next time is not the one asked for *)
From S2P Require Import Prelude SchedTime SchedText SchedCalendar SchedNext SchedExact SchedParse.
From S2P Require Import SchedSpec SchedNextTime.
Local Open Scope Z_scope.
Local Open Scope go_scope.

(** ** [next] *)

(** C21 [next] returns, in every time zone and from every time. *)
Theorem next_returns cc ts : ∃ r, next cc ts = Ok r.
Proof.
  destruct (next_ends cc (λ _, True)) with (ts := ts) as (r & E & _); [done..|]. by exists r.
Qed.

(** C19 [next] is exact in a time zone without transitions: it returns the earliest matching time after the given one, and none only when no
    time up to the last year recognised matches. *)
Theorem next_earliest cc o ts : tz cc = fixed_zone o → ∃ r, next cc ts = Ok r ∧ match r with
  | Some t => ts < t ∧ Year (tz cc) t ≤ maxCalendarYear ∧ matches cc t = true ∧ ∀ t', ts < t' < t → matches cc t' = false
  | None => ∀ t, ts < t → Year (tz cc) t ≤ maxCalendarYear → matches cc t = false
  end.
Proof. intros Hz. by apply (next_fixed cc o). Qed.

(** ** Time zones *)

Definition utc (y mo d h m : Z) : Z := day_number y mo d * 86400 + h * 3600 + m * 60.
Definition no_durations (s : text) : option Z := None.
(** The compiled calendar of a cron string. *)
Definition cron (s : string) (l : Location) : result compiledCalendar :=
  let! parsed := (parseCronString no_durations (lit s)).1 in
  match parsed with inl structured => newCompiledCalendar structured l | inr _ => Err errNoInterval end.
Definition next_of (s : string) (l : Location) (ts : Z) : result (option Z) := let! cc := cron s l in next cc ts.
Definition matched (s : string) (l : Location) (ts : Z) : result bool := let! cc := cron s l in Ok (matches cc ts).

Lemma next_earliest_witness : ∃ cc, cron "0 5 29 2 *" (fixed_zone 19800) = Ok cc ∧ tz cc = fixed_zone 19800 ∧
  ∃ r, next cc (utc 2025 1 1 0 0) = Ok r ∧ match r with
  | Some t => utc 2025 1 1 0 0 < t ∧ Year (tz cc) t ≤ maxCalendarYear ∧ matches cc t = true ∧ ∀ t', utc 2025 1 1 0 0 < t' < t → matches cc t' = false
  | None => ∀ t, utc 2025 1 1 0 0 < t → Year (tz cc) t ≤ maxCalendarYear → matches cc t = false
  end.
Proof.
  eexists. split; [vm_compute; reflexivity|]. split; [reflexivity|]. by apply (next_earliest _ 19800).
Defined.
Example next_leap_day : next_of "0 5 29 2 *" (fixed_zone 19800) (utc 2025 1 1 0 0) = Ok (Some (utc 2028 2 28 23 30)).
Proof. vm_compute. reflexivity. Qed.

(** Some zones, with the transitions of the years in question. *)
Definition Los_Angeles : Location := mkLocation (- 28800) [(utc 2021 3 14 10 0, - 25200); (utc 2021 11 7 9 0, - 28800)].
Definition Berlin : Location := mkLocation 3600 [(utc 2024 3 31 1 0, 7200); (utc 2024 10 27 1 0, 3600)].
Definition Santiago : Location := mkLocation (- 10800) [(utc 2024 4 7 3 0, - 14400); (utc 2024 9 8 4 0, - 10800)].
Definition Apia : Location := mkLocation (- 36000) [(utc 2011 12 30 10 0, 50400)].

(** West of Greenwich the repeated hour is visited twice, as [TestCalendarNextDST] checks. *)
Example repeated_hour_west : map (next_of "33,44 1 * * *" Los_Angeles) [utc 2021 11 7 7 15; utc 2021 11 7 8 33; utc 2021 11 7 8 44; utc 2021 11 7 9 33; utc 2021 11 7 9 44] =
  map (λ t, Ok (Some t)) [utc 2021 11 7 8 33; utc 2021 11 7 8 44; utc 2021 11 7 9 33; utc 2021 11 7 9 44; utc 2021 11 8 9 33].
Proof. vm_compute. reflexivity. Qed.

(** C22 A run in which [next] is wrong: in Berlin, on the 27th of October 2024, when the clocks go back and [time.Date] takes the second of two
    equal local times, a calendar for every minute skips an hour twice, though it matches the minutes in between, and one for 01:30
    fires at 02:30 too, which it does not match. *)
Theorem next_skips_repeated_hour :
  next_of "* * * * *" Berlin (utc 2024 10 27 0 10) = Ok (Some (utc 2024 10 27 1 11)) ∧
  matched "* * * * *" Berlin (utc 2024 10 27 0 11) = Ok true ∧
  next_of "* * * * *" Berlin (utc 2024 10 27 1 11) = Ok (Some (utc 2024 10 27 2 12)) ∧
  matched "* * * * *" Berlin (utc 2024 10 27 1 12) = Ok true ∧
  next_of "30 1 * * *" Berlin (utc 2024 10 26 23 30) = Ok (Some (utc 2024 10 27 0 30)) ∧
  matched "30 1 * * *" Berlin (utc 2024 10 27 0 30) = Ok false.
Proof. vm_compute. repeat split. Qed.

(** Where the clocks go forward at midnight, the day of the week is read at a local time that does not exist, and is that of the day
    before: a calendar for Sundays skips that Sunday, and one for Saturdays fires on it.  Where a whole day is left out, [next] returns the
    time it was given, which is not after it. *)
Theorem next_misreads_missing_time :
  matched "0 5 * * 0" Santiago (utc 2024 9 8 8 0) = Ok true ∧
  next_of "0 5 * * 0" Santiago (utc 2024 9 7 12 0) = Ok (Some (utc 2024 9 15 8 0)) ∧
  next_of "0 5 * * 6" Santiago (utc 2024 9 7 12 0) = Ok (Some (utc 2024 9 8 8 0)) ∧
  matched "0 5 * * 6" Santiago (utc 2024 9 8 8 0) = Ok false ∧
  next_of "0 5 * * *" Apia (utc 2011 12 29 15 0) = Ok (Some (utc 2011 12 29 15 0)).
Proof. vm_compute. repeat split. Qed.

(** ** Intervals and exclusions *)

Definition excluding (cal : CalendarSpec) : ScheduleSpec := mkSpec [] [lit "0 5 * * *"] [] [] [cal] [] None None 0 [] None.
Definition including (cal : CalendarSpec) : ScheduleSpec := mkSpec [] [lit "0 5 * * *"] [cal] [] [] [] None None 0 [] None.
Definition build (spec : ScheduleSpec) : result CompiledSpec := NewCompiledSpec no_durations (λ _, Some UTC) (λ _ _, None) (λ _, None) spec.
(** The division of [nextIntervalTime] truncates towards zero: for a time before the phase of an interval, an interval is skipped. *)
Lemma early_interval_skips :
  match build (mkSpec [] [] [] [mkInterval (10 * second_ns) (5 * second_ns)] [] [] None None 0 [] None) with
  | Ok cs => rawNextTime cs 0 = Ok (Some 15) ∧ interval_due (mkInterval (10 * second_ns) (5 * second_ns)) 5 = true
  | _ => False
  end.
Proof. vm_compute. by split. Qed.
Definition hours (s : string) : CalendarSpec := mkCalendar [] [] (lit s) [] [] [] [] [].
Definition years (s : string) : CalendarSpec := mkCalendar [] [] [] [] [] (lit s) [] [].

(** A step is cut to 32 bits after it is checked, and the calendars of exclusions are not validated: a step of [2^31] makes a negative
    step, which the validation of a calendar rejects but which in an exclusion panics, or for years never stops appending; a step of
    [2^32] becomes a step of one, so that a calendar for midnight fires every hour. *)
Theorem large_step_not_rejected :
  build (including (hours "3/2147483648")) = Err (errInvalidCalendar [errInvalidStep InHour]) ∧
  build (excluding (hours "3/2147483648")) = Panic ∧
  build (excluding (years "2024-2025/2147483648")) = Err LoopsForever ∧
  next_of "0 0/4294967296 * * *" UTC (utc 2024 1 1 0 0) = Ok (Some (utc 2024 1 1 1 0)).
Proof. vm_compute. repeat split. Qed.

(** The range from Monday to day seven is not every day: the comment turns [1-7] into [0-6], but the code drops the seven and adds no
    zero, so that the Sundays are left out. *)
Theorem one_to_seven_drops_sunday :
  makeRange (lit "0-7") InDayOfWeek star 0 7 parseModeDow = Ok [mkRange 0 6 0] ∧
  makeRange (lit "2-7") InDayOfWeek star 0 7 parseModeDow = Ok [mkRange 0 0 0; mkRange 2 6 0] ∧
  makeRange (lit "1-7") InDayOfWeek star 0 7 parseModeDow = Ok [mkRange 1 6 0] ∧
  next_of "0 5 * * 1-7" UTC (utc 2024 1 6 5 0) = Ok (Some (utc 2024 1 8 5 0)).
Proof. vm_compute. repeat split. Qed.
