(* ===== verification/LruCache.v ===== *)
(** * The LRU cache ([common/cache/lru.go])

    Entries are in a list, the most recently used one in front, and in a map from keys to elements of the list.  A method holds the lock from
    its first access to its return, so it is a function on the state; the time it reads and the size of a value, which may change while the
    value is in the cache, are arguments.  The hooks that are called are logged. *)
From S2P Require Import Prelude.
Local Open Scope Z_scope.

Inductive cache_error := ErrCacheFull | ErrCacheItemTooLarge.
Definition emptyEntrySize : Z := 0.

Section lru.
Context {K V : Type} `{Countable K}.

(** A zero [createTime] is [None]. *)
Record entryImpl := mkEntry { key : K; createTime : option Z; value : V; refCount : Z; size : Z }.
(** An element of the list is a number; the list holds the elements with their entries. *)
Notation element := (nat * entryImpl)%type.
Inductive hook := OnPut (v : V) | OnEvict (v : V).

Record lru := mkLru {
  byAccess : list element; byKey : gmap K nat; nextElement : nat;
  maxSize : Z; currSize : Z; pinnedSize : Z; ttl : Z; pin : bool; hooks : list hook }.

Definition NewWithMetrics (maxSize ttl : Z) (pin : bool) : lru := mkLru [] ∅ 0 maxSize 0 0 ttl pin [].

Definition set_list (c : lru) (l : list element) : lru :=
  mkLru l (byKey c) (nextElement c) (maxSize c) (currSize c) (pinnedSize c) (ttl c) (pin c) (hooks c).
Definition set_size (c : lru) (s : Z) : lru :=
  mkLru (byAccess c) (byKey c) (nextElement c) (maxSize c) s (pinnedSize c) (ttl c) (pin c) (hooks c).
Definition set_pinned (c : lru) (s : Z) : lru :=
  mkLru (byAccess c) (byKey c) (nextElement c) (maxSize c) (currSize c) s (ttl c) (pin c) (hooks c).
Definition call_hook (c : lru) (h : hook) : lru :=
  mkLru (byAccess c) (byKey c) (nextElement c) (maxSize c) (currSize c) (pinnedSize c) (ttl c) (pin c) (hooks c ++ [h]).

(** ** [container/list] *)

Fixpoint find_element (i : nat) (l : list element) : option entryImpl :=
  match l with [] => None | (j, e) :: l => if decide (i = j) then Some e else find_element i l end.
Definition remove_element (i : nat) (l : list element) : list element := filter (λ p, p.1 ≠ i) l.
Definition update_element (i : nat) (f : entryImpl → entryImpl) (l : list element) : list element :=
  map (λ p, if decide (p.1 = i) then (p.1, f p.2) else p) l.
Definition MoveToFront (i : nat) (l : list element) : list element :=
  match find_element i l with Some e => (i, e) :: remove_element i l | None => l end.
(** The entry behind [c.byKey[key]]. *)
Definition lookup_key (c : lru) (k : K) : option element :=
  i ← byKey c !! k; e ← find_element i (byAccess c); Some (i, e).

(** ** Entries *)

Definition isEntryExpired (c : lru) (e : entryImpl) (now : Z) : bool :=
  (refCount e =? 0) && match createTime e with Some t => t + ttl c <? now | None => false end.
Definition updateEntryTTL (c : lru) (now : Z) (e : entryImpl) : entryImpl :=
  if ttl c =? 0 then e else mkEntry (key e) (Some now) (value e) (refCount e) (size e).
Definition add_ref (d : Z) (e : entryImpl) : entryImpl := mkEntry (key e) (createTime e) (value e) (refCount e + d) (size e).
Definition set_value (v : V) (s : Z) (e : entryImpl) : entryImpl := mkEntry (key e) (createTime e) v (refCount e) s.
Definition set_entry_size (s : Z) (e : entryImpl) : entryImpl := mkEntry (key e) (createTime e) (value e) (refCount e) s.
(** The new entry, and the pinned size of the cache. *)
Definition updateEntryRefCount (c : lru) (e : entryImpl) : entryImpl * Z :=
  if pin c then (add_ref 1 e, if refCount e + 1 =? 1 then pinnedSize c + size e else pinnedSize c) else (e, pinnedSize c).

Definition calculateNewCacheSize (c : lru) (newEntrySize existingEntrySize : Z) : Z := currSize c - existingEntrySize + newEntrySize.

Definition deleteInternal (p : element) (c : lru) : lru :=
  call_hook (mkLru (remove_element p.1 (byAccess c)) (delete (key p.2) (byKey c)) (nextElement c) (maxSize c) (currSize c - size p.2)
               (pinnedSize c) (ttl c) (pin c) (hooks c)) (OnEvict (value p.2)).

(** ** Eviction *)

Definition tryEvictAndGetPreviousElement (p : element) (c : lru) : lru := if refCount p.2 =? 0 then deleteInternal p c else c.
(** From the back of the list towards its front. *)
Fixpoint evict_loop (newEntrySize existingEntrySize : Z) (skip : option K) (elements : list element) (c : lru) : lru :=
  match elements with
  | [] => c
  | p :: elements =>
      if maxSize c <? calculateNewCacheSize c newEntrySize existingEntrySize then
        if bool_decide (skip = Some (key p.2)) then evict_loop newEntrySize existingEntrySize skip elements c
        else evict_loop newEntrySize existingEntrySize skip elements (tryEvictAndGetPreviousElement p c)
      else c
  end.
Definition tryEvictUntilEnoughSpaceWithSkipEntry (newEntrySize : Z) (existingEntry : option entryImpl) (c : lru) : lru :=
  evict_loop newEntrySize match existingEntry with Some e => size e | None => 0 end (key <$> existingEntry) (reverse (byAccess c)) c.
Definition tryEvictUntilCacheSizeUnderLimit (c : lru) : lru := tryEvictUntilEnoughSpaceWithSkipEntry 0 None c.

(** ** Operations *)

(** The entry of an element is used: its reference count and its place in the list. *)
Definition touch (i : nat) (e : entryImpl) (c : lru) : lru :=
  let '(e', pinned) := updateEntryRefCount c e in
  set_pinned (set_list c (MoveToFront i (update_element i (λ _, e') (byAccess c)))) pinned.

Definition Get (now : Z) (k : K) (c : lru) : lru * option V :=
  if maxSize c =? 0 then (c, None)
  else match lookup_key c k with
       | None => (c, None)
       | Some (i, e) => if isEntryExpired c e now then (deleteInternal (i, e) c, None) else (touch i e c, Some (value e))
       end.

Context (getSize : V → Z).

(** The value of an entry that is there is replaced. *)
Definition update_existing (now : Z) (v : V) (newEntrySize : Z) (i : nat) (e : entryImpl) (c : lru) : lru * (cache_error + entryImpl) :=
  let c := if maxSize c <? calculateNewCacheSize c newEntrySize (size e) then tryEvictUntilEnoughSpaceWithSkipEntry newEntrySize (Some e) c else c in
  let newCacheSize := calculateNewCacheSize c newEntrySize (size e) in
  if maxSize c <? newCacheSize then (c, inl ErrCacheFull)
  else
    let e' := updateEntryTTL c now (set_value v newEntrySize e) in
    (call_hook (set_size (set_list c (update_element i (λ _, e') (byAccess c))) newCacheSize) (OnPut v), inr e').
(** An entry for a key that has none. *)
Definition insert_new (now : Z) (k : K) (v : V) (newEntrySize : Z) (c : lru) : lru * (cache_error + option V) :=
  let c := tryEvictUntilEnoughSpaceWithSkipEntry newEntrySize None c in
  let newCacheSize := calculateNewCacheSize c newEntrySize emptyEntrySize in
  if maxSize c <? newCacheSize then (c, inl ErrCacheFull)
  else
    let '(e, pinned) := updateEntryRefCount c (updateEntryTTL c now (mkEntry k None v 0 newEntrySize)) in
    (call_hook (mkLru ((nextElement c, e) :: byAccess c) (<[k := nextElement c]> (byKey c)) (S (nextElement c)) (maxSize c) newCacheSize
                  pinned (ttl c) (pin c) (hooks c)) (OnPut v), inr None).
Definition putInternal (now : Z) (k : K) (v : V) (allowUpdate : bool) (c : lru) : lru * (cache_error + option V) :=
  if maxSize c =? 0 then (c, inr None)
  else
    let newEntrySize := getSize v in
    if maxSize c <? newEntrySize then (c, inl ErrCacheItemTooLarge)
    else match lookup_key c k with
         | Some (i, e) =>
             if isEntryExpired c e now then insert_new now k v newEntrySize (deleteInternal (i, e) c)
             else if allowUpdate then
               match update_existing now v newEntrySize i e c with
               | (c, inl err) => (c, inl err)
               | (c, inr e') => (touch i e' c, inr (Some (value e)))
               end
             else (touch i e c, inr (Some (value e)))
         | None => insert_new now k v newEntrySize c
         end.
(** A panic is [None]. *)
Definition Put (now : Z) (k : K) (v : V) (c : lru) : option (lru * option V) :=
  if pin c then None
  else Some match putInternal now k v true c with (c, inr existing) => (c, existing) | (c, inl _) => (c, None) end.
Definition PutIfNotExist (now : Z) (k : K) (v : V) (c : lru) : lru * (cache_error + V) :=
  match putInternal now k v false c with
  | (c, inl err) => (c, inl err)
  | (c, inr None) => (c, inr v)
  | (c, inr (Some existing)) => (c, inr existing)
  end.
Definition Delete (k : K) (c : lru) : lru :=
  if maxSize c =? 0 then c else match lookup_key c k with Some p => deleteInternal p c | None => c end.
Definition Release (k : K) (c : lru) : lru :=
  if (maxSize c =? 0) || negb (pin c) then c
  else match lookup_key c k with
       | None => c
       | Some (i, e) =>
           let pinned := if refCount e - 1 =? 0 then pinnedSize c - size e else pinnedSize c in
           let newEntrySize := getSize (value e) in
           let newSize := calculateNewCacheSize c newEntrySize (size e) in
           let c := set_pinned (set_size (set_list c (update_element i (λ _, set_entry_size newEntrySize (add_ref (-1) e)) (byAccess c))) newSize) pinned in
           if maxSize c <? currSize c then tryEvictUntilCacheSizeUnderLimit c else c
       end.
Definition Size (c : lru) : Z := currSize c.

(** ** Background eviction *)

(** One call of [evictToMax]: [n] entries at most, from the back, as long as they have expired. *)
Fixpoint evict_expired (n : nat) (now : Z) (elements : list element) (c : lru) : lru * bool :=
  match n, elements with
  | O, [] => (c, false)
  | O, _ => (c, true)
  | S n, [] => (c, false)
  | S n, p :: elements => if isEntryExpired c p.2 now then evict_expired n now elements (deleteInternal p c) else (c, false)
  end.
Definition evictToMax (MaxEntryPerCall : Z) (now : Z) (c : lru) : lru * bool :=
  if MaxEntryPerCall <=? 0 then (c, false) else evict_expired (Z.to_nat MaxEntryPerCall) now (reverse (byAccess c)) c.
Fixpoint bgEvict_loop (fuel : nat) (MaxEntryPerCall now : Z) (c : lru) : option lru :=
  match fuel with
  | O => None
  | S fuel => match evictToMax MaxEntryPerCall now c with (c, true) => bgEvict_loop fuel MaxEntryPerCall now c | (c, false) => Some c end
  end.
Definition bgEvict (MaxEntryPerCall now : Z) (c : lru) : option lru := bgEvict_loop (S (length (byAccess c))) MaxEntryPerCall now c.

(** ** Iterators *)

(** The lock is held while an iterator is open; [nextItem] is the rest of the list. *)
Record iteratorImpl := mkIterator { it_createTime : Z; nextItem : list element }.
Fixpoint prepareNext (createTime : Z) (items : list element) (c : lru) : lru * list element :=
  match items with
  | [] => (c, [])
  | p :: rest => if isEntryExpired c p.2 createTime then prepareNext createTime rest (deleteInternal p c) else (c, items)
  end.
Definition Iterator (now : Z) (c : lru) : lru * iteratorImpl :=
  let '(c, items) := prepareNext now (byAccess c) c in (c, mkIterator now items).
Definition HasNext (it : iteratorImpl) : bool := match nextItem it with [] => false | _ => true end.
(** The copy has no reference count; a panic is [None]. *)
Definition Next (it : iteratorImpl) (c : lru) : option (lru * iteratorImpl * entryImpl) :=
  match nextItem it with
  | [] => None
  | p :: rest =>
      let '(c, items) := prepareNext (it_createTime it) rest c in
      Some (c, mkIterator (it_createTime it) items, mkEntry (key p.2) (createTime p.2) (value p.2) 0 (size p.2))
  end.
End lru.
Arguments lru K V {_ _}.
Arguments entryImpl K V : clear implicits.
Arguments hook V : clear implicits.
