(* ===== verification/LruSpec.v ===== *)
(** * The LRU cache: its invariant, what each operation does, and that it keeps the invariant *)
From S2P Require Import Prelude LruCache.
Local Open Scope Z_scope.

Section spec.
Context {K V : Type} `{Countable K}.
Notation lru := (lru K V).
Notation entry := (entryImpl K V).
Notation element := (nat * entryImpl K V)%type.
Implicit Types (c : lru) (e : entry) (l : list element) (k : K) (i : nat).

(** ** Lists of elements *)

Definition key_of (p : element) : K := key p.2.
(** The map from keys to elements is the index of a list; its order does not matter. *)
Record indexed (m : gmap K nat) (n : nat) (l : list element) : Prop := {
  ix_elements : NoDup (map fst l);
  ix_keys : NoDup (map key_of l);
  ix_fresh : ∀ p, p ∈ l → (p.1 < n)%nat;
  ix_map : ∀ k i, m !! k = Some i ↔ ∃ e, (i, e) ∈ l ∧ key e = k }.
#[export] Instance indexed_perm m n : Proper ((≡ₚ) ==> iff) (indexed m n).
Proof.
  assert (∀ l l', l ≡ₚ l' → indexed m n l → indexed m n l') as X.
  { intros l l' P [H1 H2 H3 H4]. split.
    - by rewrite <- P.
    - by rewrite <- P.
    - intros p. rewrite <- P. apply H3.
    - intros k i. rewrite H4. by setoid_rewrite P. }
  intros l l' P. split; apply X; by rewrite P.
Qed.

Lemma indexed_delete m n i e l : indexed m n ((i, e) :: l) → indexed (delete (key e) m) n l.
Proof.
  intros [H1 H2 H3 H4]. simpl in *. apply NoDup_cons in H1 as [N1 H1]. apply NoDup_cons in H2 as [N2 H2]. split; try done.
  - intros p Hp. apply H3. by right.
  - intros k j. rewrite lookup_delete_Some, H4. split.
    + intros [Hk (e' & [E|E]%elem_of_cons & <-)]; [by simplify_eq|by exists e'].
    + intros (e' & E & <-). split; [|exists e'; split; [by right|done]]. intros Hk. apply N2. apply list_elem_of_fmap. exists (j, e'). by split.
Qed.
Lemma indexed_update m n i e e' l : key e' = key e → indexed m n ((i, e) :: l) → indexed m n ((i, e') :: l).
Proof.
  intros E [H1 H2 H3 H4]. split; simpl in *; unfold key_of in *; simpl in *; [done|by rewrite E| |].
  - intros p [->|Hp]%elem_of_cons; [apply (H3 (i, e)); by left|apply H3; by right].
  - intros k j. rewrite H4. split; intros (e0 & [X|X]%elem_of_cons & <-); simplify_eq.
    + exists e'. split; [by left|done].
    + exists e0. split; [by right|done].
    + exists e. split; [by left|done].
    + exists e0. split; [by right|done].
Qed.
Lemma indexed_insert m n e l : m !! key e = None → indexed m n l → indexed (<[key e := n]> m) (S n) ((n, e) :: l).
Proof.
  intros Hm [H1 H2 H3 H4]. split; simpl.
  - apply NoDup_cons. split; [|done]. intros (p & E & Hp)%list_elem_of_fmap. specialize (H3 p Hp). lia.
  - apply NoDup_cons. split; [|done]. intros ((i, e') & E & Hp)%list_elem_of_fmap. unfold key_of in E. simpl in E.
    assert (m !! key e = Some i) by (apply H4; exists e'; by rewrite E). congruence.
  - intros p [->|Hp]%elem_of_cons; simpl; [lia|]. specialize (H3 p Hp). lia.
  - intros k i. destruct (decide (k = key e)) as [->|N].
    + rewrite lookup_insert_eq. split; [intros [= <-]; exists e; split; [by left|done]|].
      intros (e' & [X|X]%elem_of_cons & Ek); [by simplify_eq|]. assert (m !! key e = Some i) by (apply H4; exists e'; by rewrite Ek). congruence.
    + rewrite lookup_insert_ne, H4 by done. split; intros (e' & X & <-).
      * exists e'. split; [by right|done].
      * apply elem_of_cons in X as [X|X]; [by simplify_eq|]. by exists e'.
Qed.

Lemma remove_absent i l : i ∉ map fst l → remove_element i l = l.
Proof. intros N. apply filter_all. intros p Hp E. apply N. rewrite <- E. apply list_elem_of_fmap. by exists p. Qed.
Lemma find_remove i l e : NoDup (map fst l) → find_element i l = Some e → l ≡ₚ (i, e) :: remove_element i l.
Proof.
  induction l as [|[j e'] l IH]; simpl; [done|]. intros [N D]%NoDup_cons. unfold remove_element. rewrite filter_cons. simpl.
  destruct (decide (i = j)) as [->|Nj].
  - intros [= ->]. rewrite decide_False by tauto. f_equiv. symmetry. fold (remove_element j l). by rewrite (remove_absent j l).
  - intros E. rewrite decide_True by done. rewrite (IH D E) at 1. apply perm_swap.
Qed.
Lemma find_elem i l e : NoDup (map fst l) → find_element i l = Some e ↔ (i, e) ∈ l.
Proof.
  intros D. split.
  - intros E. rewrite (find_remove _ _ _ D E). by left.
  - induction l as [|[j e'] l IH]; [by intros ?%not_elem_of_nil|]. simpl in *. apply NoDup_cons in D as [N D]. intros [X|X]%elem_of_cons.
    + simplify_eq. by rewrite decide_True.
    + rewrite decide_False; [by apply IH|]. intros ->. apply N. apply list_elem_of_fmap. by exists (j, e).
Qed.
Lemma update_find i e' l : find_element i (update_element i (λ _, e') l) = match find_element i l with Some _ => Some e' | None => None end.
Proof.
  induction l as [|[j e0] l IH]; [done|]. simpl. destruct (decide (j = i)) as [->|N]; simpl; [by rewrite !decide_True|]. by rewrite !decide_False, IH by congruence.
Qed.
Lemma update_remove i f l : remove_element i (update_element i f l) = remove_element i l.
Proof.
  unfold remove_element. induction l as [|[j e0] l IH]; [done|]. simpl. destruct (decide (j = i)) as [->|N]; rewrite !filter_cons; simpl.
  - rewrite !decide_False by tauto. done.
  - rewrite !decide_True by done. by rewrite IH.
Qed.
Lemma update_fst i f l : map fst (update_element i f l) = map fst l.
Proof. unfold update_element. rewrite map_map. apply map_ext. intros [j e0]. simpl. by destruct (decide (j = i)). Qed.
(** The element an operation uses ends up in front. *)
Lemma touch_list i e e' l : find_element i l = Some e → MoveToFront i (update_element i (λ _, e') l) = (i, e') :: remove_element i l.
Proof. intros E. unfold MoveToFront. by rewrite update_find, E, update_remove. Qed.
Lemma update_perm i e e' l : NoDup (map fst l) → find_element i l = Some e → update_element i (λ _, e') l ≡ₚ (i, e') :: remove_element i l.
Proof.
  intros D E. rewrite <- (update_remove i (λ _, e')). apply find_remove; [by rewrite update_fst|]. by rewrite update_find, E.
Qed.

Definition total (l : list element) : Z := foldr (λ p n, size p.2 + n) 0 l.
#[export] Instance total_perm : Proper ((≡ₚ) ==> (=)) total.
Proof. intros l l' P. unfold total. induction P; simpl; lia. Qed.

(** ** The invariant *)

(** The entries a cache may not evict. *)
Definition pinned (p : element) : Prop := refCount p.2 ≠ 0.
#[export] Instance pinned_dec p : Decision (pinned p).
Proof. unfold pinned. apply _. Defined.

Record sized c : Prop := {
  sz_index : indexed (byKey c) (nextElement c) (byAccess c);
  sz_total : currSize c = total (byAccess c);
  sz_nonneg : ∀ p, p ∈ byAccess c → 0 ≤ size p.2;
  sz_unpinned : pin c = false → ∀ p, p ∈ byAccess c → refCount p.2 = 0;
  sz_max : 0 ≤ maxSize c }.
(** The entries fit, or none of them can be evicted. *)
Definition bounded c : Prop := currSize c ≤ maxSize c ∨ ∀ p, p ∈ byAccess c → pinned p.
Definition lru_inv c : Prop := sized c ∧ bounded c.

Lemma lookup_key_spec c k i e : sized c → lookup_key c k = Some (i, e) ↔ (i, e) ∈ byAccess c ∧ key e = k.
Proof.
  intros [[D _ _ M] _ _ _ _]. unfold lookup_key. rewrite bind_Some. setoid_rewrite bind_Some. setoid_rewrite find_elem; [|done]. split.
  - intros (j & Hj & e' & He & [= -> ->]). split; [done|]. apply M in Hj as (e0 & H0 & <-).
    apply find_elem in He; [|done]. apply find_elem in H0; [|done]. congruence.
  - intros [He Hk]. exists i. split; [apply M; by exists e|]. by exists e.
Qed.
Lemma lookup_key_none c k : sized c → lookup_key c k = None → byKey c !! k = None ∧ ∀ p, p ∈ byAccess c → key_of p ≠ k.
Proof.
  intros S E. assert (∀ p, p ∈ byAccess c → key_of p ≠ k) as N.
  { intros [i e] Hp Hk. assert (lookup_key c k = Some (i, e)) by (by apply lookup_key_spec). congruence. }
  split; [|done]. destruct (byKey c !! k) as [i|] eqn:Ei; [|done]. apply S in Ei as (e & He & Hk). by destruct (N _ He).
Qed.

Lemma remove_perm c i e : sized c → (i, e) ∈ byAccess c → byAccess c ≡ₚ (i, e) :: remove_element i (byAccess c).
Proof. intros S He. apply find_remove; [apply S|]. by apply find_elem; [apply S|]. Qed.

(** Deleting an element. *)
Lemma delete_sized c p : sized c → p ∈ byAccess c → sized (deleteInternal p c).
Proof.
  destruct p as [i e]. intros S He. pose proof (remove_perm c i e S He) as P. destruct S as [S1 S2 S3 S4 S5]. split; simpl; [..|done].
  - apply (indexed_delete _ _ i e). by rewrite <- P.
  - pose proof (total_perm _ _ P) as T. simpl in T. lia.
  - intros q Hq. apply S3. rewrite P. by right.
  - intros Hp q Hq. apply S4; [done|]. rewrite P. by right.
Qed.
Lemma elem_remove i l q : q ∈ remove_element i l ↔ q ∈ l ∧ q.1 ≠ i.
Proof. unfold remove_element. rewrite list_elem_of_filter. tauto. Qed.

(** Replacing the entry of an element, wherever it is put. *)
Lemma replace_sized c l i e e' s ps hs : sized c → (i, e) ∈ byAccess c → l ≡ₚ (i, e') :: remove_element i (byAccess c) → key e' = key e →
  s = currSize c - size e + size e' → 0 ≤ size e' → (pin c = false → refCount e' = 0) →
  sized (mkLru l (byKey c) (nextElement c) (maxSize c) s ps (ttl c) (pin c) hs).
Proof.
  intros S He Pl Hk Hs Hn Hr. pose proof (remove_perm c i e S He) as P. destruct S as [S1 S2 S3 S4 S5]. split; simpl; [..|done].
  - rewrite Pl. apply (indexed_update _ _ i e); [done|]. by rewrite <- P.
  - pose proof (total_perm _ _ P) as T. pose proof (total_perm _ _ Pl) as T'. simpl in T, T'. lia.
  - intros q Hq. rewrite Pl in Hq. apply elem_of_cons in Hq as [->|Hq]; [done|]. apply S3. rewrite P. by right.
  - intros Hp q Hq. rewrite Pl in Hq. apply elem_of_cons in Hq as [->|Hq]; [by apply Hr|]. apply S4; [done|]. rewrite P. by right.
Qed.

(** ** Eviction *)

(** What no operation changes. *)
Definition same_config c c' : Prop := maxSize c' = maxSize c ∧ ttl c' = ttl c ∧ pin c' = pin c.
Lemma same_config_refl c : same_config c c.
Proof. done. Qed.
Lemma same_config_trans c1 c2 c3 : same_config c1 c2 → same_config c2 c3 → same_config c1 c3.
Proof. unfold same_config. intuition congruence. Qed.

(** The back of the list, where the least recently used entries are, loses those that are not protected. *)
Record evicts (protected : element → Prop) `{∀ p, Decision (protected p)} c c' : Prop := {
  ev_sized : sized c';
  ev_config : same_config c c';
  ev_next : nextElement c' = nextElement c;
  ev_pinned : pinnedSize c' = pinnedSize c;
  ev_list : ∃ front back, byAccess c = front ++ back ∧ byAccess c' = front ++ filter protected back ∧
    hooks c' = hooks c ++ map (λ p, OnEvict (value p.2)) (reverse (filter (λ p, ¬ protected p) back)) }.

Lemma remove_middle i e l l' : NoDup (map fst (l ++ (i, e) :: l')) → remove_element i (l ++ (i, e) :: l') = l ++ l'.
Proof.
  rewrite map_app. simpl. intros (D1 & D2 & D3)%NoDup_app. apply NoDup_cons in D3 as [N3 D3]. unfold remove_element. rewrite filter_app, filter_cons_False by (simpl; tauto).
  fold (remove_element i l). fold (remove_element i l'). rewrite !remove_absent; [done|done|]. intros X. apply (D2 i X). by left.
Qed.

Section loop.
Context (new ex : Z) (skip : option K).
Definition protected (p : element) : Prop := pinned p ∨ skip = Some (key_of p).
#[export] Instance protected_dec p : Decision (protected p).
Proof. unfold protected. apply _. Defined.
Definition fits c : Prop := calculateNewCacheSize c new ex ≤ maxSize c.

(** The loop has visited [visited] and kept what of it is protected; [seen] was there before. *)
Lemma evict_loop_spec elements c kept : sized c → byAccess c = reverse elements ++ kept →
  let c' := evict_loop new ex skip elements c in
  sized c' ∧ same_config c c' ∧ nextElement c' = nextElement c ∧ pinnedSize c' = pinnedSize c ∧ ∃ front visited,
    reverse elements = front ++ visited ∧ byAccess c' = front ++ filter protected visited ++ kept ∧
    hooks c' = hooks c ++ map (λ p, OnEvict (value p.2)) (reverse (filter (λ p, ¬ protected p) visited)) ∧
    (fits c' ∨ front = []) ∧ (∀ b rest, visited = b :: rest → maxSize c < calculateNewCacheSize c' new ex + (if decide (protected b) then 0 else size b.2)).
Proof.
  revert c kept. induction elements as [|p elements IH]; intros c kept S El; simpl.
  - split_and!; try done. exists [], []. simpl. rewrite !app_nil_r. split_and!; try done. by right.
  - rewrite reverse_cons, <- app_assoc in El. simpl in El. destruct (Z.ltb_spec (maxSize c) (calculateNewCacheSize c new ex)) as [L|L].
    2: { split_and!; try done. exists (reverse (p :: elements)), []. rewrite app_nil_r, reverse_cons, <- !app_assoc. simpl. rewrite app_nil_r.
         split_and!; try done. by left. }
    assert (∀ c1 kept1, sized c1 → byAccess c1 = reverse elements ++ kept1 → same_config c c1 → nextElement c1 = nextElement c → pinnedSize c1 = pinnedSize c →
      kept1 = filter protected [p] ++ kept → hooks c1 = hooks c ++ map (λ p, OnEvict (value p.2)) (filter (λ p, ¬ protected p) [p]) →
      calculateNewCacheSize c new ex = calculateNewCacheSize c1 new ex + (if decide (protected p) then 0 else size p.2) →
      let c' := evict_loop new ex skip elements c1 in
      sized c' ∧ same_config c c' ∧ nextElement c' = nextElement c ∧ pinnedSize c' = pinnedSize c ∧ ∃ front visited,
        reverse (p :: elements) = front ++ visited ∧ byAccess c' = front ++ filter protected visited ++ kept ∧
        hooks c' = hooks c ++ map (λ p, OnEvict (value p.2)) (reverse (filter (λ p, ¬ protected p) visited)) ∧
        (fits c' ∨ front = []) ∧ (∀ b rest, visited = b :: rest → maxSize c < calculateNewCacheSize c' new ex + (if decide (protected b) then 0 else size b.2))) as X.
    { intros c1 kept1 S1 E1 Fc1 N1 P1 -> H1 Hc. destruct (IH c1 _ S1 E1) as (S' & F' & N' & P' & front & visited & V1 & V2 & V3 & V4 & V5).
      split_and!; [done|by eapply same_config_trans|congruence|congruence|]. exists front, (visited ++ [p]).
      rewrite reverse_cons, V1, <- app_assoc, V2, V3, H1, !filter_app, reverse_app, map_app, <- !app_assoc. split_and!; try done.
      - do 2 f_equal. rewrite !filter_cons, !filter_nil. by destruct (decide (¬ protected p)).
      - intros b rest Hb. destruct visited as [|b' visited]; simpl in Hb.
        + injection Hb as <- <-. rewrite app_nil_r in V1. rewrite <- V1 in V2. pose proof (sz_total _ S') as T'. pose proof (sz_total _ S1) as T1.
          rewrite V2 in T'. rewrite E1 in T1. unfold calculateNewCacheSize in *. simpl in T'. lia.
        + injection Hb as <- <-. specialize (V5 b' visited eq_refl). destruct Fc1 as [<- _]. exact V5. }
    case_bool_decide as Hsk; [|unfold tryEvictAndGetPreviousElement; destruct (Z.eqb_spec (refCount p.2) 0) as [E0|N0]].
    + assert (protected p) by by right. apply (X c (p :: kept)); try done; rewrite ?filter_cons_True, ?filter_cons_False by (done || tauto); try done.
      * simpl. by rewrite app_nil_r.
      * rewrite decide_True by done. lia.
    + assert (¬ protected p) as Np by (intros [?|?]; [done|by unfold key_of in *]). destruct p as [i e]. apply (X (deleteInternal (i, e) c) kept); try done.
      * apply delete_sized; [done|]. rewrite El. apply elem_of_app. right. by left.
      * simpl. rewrite El. apply remove_middle. rewrite <- El. apply S.
      * by rewrite filter_cons_False.
      * by rewrite filter_cons_True.
      * rewrite decide_False by done. unfold calculateNewCacheSize. simpl. lia.
    + assert (protected p) by by left. apply (X c (p :: kept)); try done; rewrite ?filter_cons_True, ?filter_cons_False by (done || tauto); try done.
      * simpl. by rewrite app_nil_r.
      * rewrite decide_True by done. lia.
Qed.
End loop.
End spec.

(** ** The LRU cache: every operation keeps its invariant *)

Section ops.
Context {K V : Type} `{Countable K}.
Notation lru := (lru K V).
Notation entry := (entryImpl K V).
Notation element := (nat * entryImpl K V)%type.
Implicit Types (c : lru) (e : entry) (l : list element) (k : K) (i : nat).

(** ** Dropping entries *)

(** Entries may go, but not those to [keep]. *)
Record drops (keep : element → Prop) c c' : Prop := {
  dr_sized : sized c';
  dr_config : same_config c c';
  dr_sub : ∀ p, p ∈ byAccess c' → p ∈ byAccess c;
  dr_keep : ∀ p, p ∈ byAccess c → keep p → p ∈ byAccess c' }.
Lemma drops_refl keep c : sized c → drops keep c c.
Proof. by split. Qed.
Lemma drops_trans keep c1 c2 c3 : drops keep c1 c2 → drops keep c2 c3 → drops keep c1 c3.
Proof. intros [S1 C1 A1 B1] [S2 C2 A2 B2]. split; eauto using same_config_trans. Qed.

Lemma drops_evicted (P : element → Prop) `{∀ p, Decision (P p)} c c' : evicts P c c' → drops P c c'.
Proof.
  intros [S C _ _ (front & back & E & E' & _)]. split; [done|done|..]; intros p; rewrite E, E', !elem_of_app, list_elem_of_filter; tauto.
Qed.

Lemma total_nonneg l : (∀ p, p ∈ l → 0 ≤ size p.2) → 0 ≤ total l.
Proof. induction l as [|p l IH]; simpl; [done|]. intros Hl. specialize (IH ltac:(intros; apply Hl; by right)). pose proof (Hl p ltac:(by left)). lia. Qed.
Lemma total_app l l' : total (l ++ l') = total l + total l'.
Proof. induction l as [|p l IH]; simpl; lia. Qed.
Lemma total_filter (P : element → Prop) `{∀ p, Decision (P p)} l : (∀ p, p ∈ l → 0 ≤ size p.2) → total (filter P l) ≤ total l.
Proof.
  induction l as [|p l IH]; [done|]. intros Hl. rewrite filter_cons. specialize (IH ltac:(intros; apply Hl; by right)). pose proof (Hl p ltac:(by left)).
  destruct (decide (P p)); simpl; lia.
Qed.

(** ** Eviction *)

(** Evicting for a new size: there is room, or only protected entries are left. *)
Lemma evict_spec new existing c : sized c →
  let c' := tryEvictUntilEnoughSpaceWithSkipEntry new existing c in
  let ex := match existing with Some e => size e | None => 0 end in
  let skip := key <$> existing in
  evicts (protected skip) c c' ∧ (fits new ex c' ∨ ∀ p, p ∈ byAccess c' → protected skip p).
Proof.
  intros S c' ex skip.
  destruct (evict_loop_spec new ex skip (reverse (byAccess c)) c [] S) as (S' & C' & N' & P' & front & visited & V1 & V2 & V3 & V4 & _).
  { by rewrite reverse_involutive, app_nil_r. }
  rewrite reverse_involutive in V1. rewrite app_nil_r in V2. split; [split; try done; by exists front, visited|].
  destruct V4 as [V4|V4]; [by left|right]. intros p. unfold c'. fold (tryEvictUntilEnoughSpaceWithSkipEntry new existing c) in V2. subst front. simpl in V2.
  unfold tryEvictUntilEnoughSpaceWithSkipEntry. fold ex skip. rewrite V2. rewrite list_elem_of_filter. tauto.
Qed.
Lemma protected_none (p : element) : protected None p ↔ pinned p.
Proof. unfold protected. naive_solver. Qed.
Lemma evict_none new c : sized c →
  let c' := tryEvictUntilEnoughSpaceWithSkipEntry new None c in
  drops pinned c c' ∧ (currSize c' + new ≤ maxSize c' ∨ ∀ p, p ∈ byAccess c' → pinned p).
Proof.
  intros S c'. destruct (evict_spec new None c S) as [E F]. split.
  - apply drops_evicted in E. destruct E as [E1 E2 E3 E4]. split; try done. intros p Hp Hk. apply E4; [done|]. by apply protected_none.
  - destruct F as [F|F]; [left|right; intros p Hp; by apply protected_none, F]. unfold fits, calculateNewCacheSize in F. fold c' in F. lia.
Qed.

Lemma delete_drops c i e : sized c → (i, e) ∈ byAccess c → refCount e = 0 → drops pinned c (deleteInternal (i, e) c).
Proof.
  intros S He Hr. split; [by apply delete_sized|done|..]; simpl; intros p; rewrite elem_remove; [tauto|]. intros Hp Hpin. split; [done|]. intros Ei.
  assert (p = (i, e)) as ->; [|done]. destruct p as [j e']. simpl in Ei. subst j. f_equal.
  apply find_elem in He; [|apply S]. apply find_elem in Hp; [|apply S]. congruence.
Qed.
Lemma delete_bounded c p : sized c → p ∈ byAccess c → bounded c → bounded (deleteInternal p c).
Proof.
  intros S Hp [L|L]; [left|right]; simpl.
  - pose proof (sz_nonneg _ S p Hp). lia.
  - intros q. rewrite elem_remove. intros [Hq _]. by apply L.
Qed.

(** ** Using an entry *)

Definition used c e : entry := (updateEntryRefCount c e).1.
Lemma used_facts c e : key (used c e) = key e ∧ value (used c e) = value e ∧ size (used c e) = size e ∧ createTime (used c e) = createTime e ∧
  refCount (used c e) = refCount e + (if pin c then 1 else 0).
Proof. unfold used, updateEntryRefCount. destruct (pin c); simpl; split_and!; try done. lia. Qed.
Lemma touch_spec c i e : sized c → (i, e) ∈ byAccess c → sized (touch i e c) ∧ same_config c (touch i e c) ∧
  byAccess (touch i e c) = (i, used c e) :: remove_element i (byAccess c) ∧ currSize (touch i e c) = currSize c ∧ hooks (touch i e c) = hooks c.
Proof.
  intros S He. pose proof (used_facts c e) as (U1 & U2 & U3 & U4 & U5). unfold touch, used in *. destruct (updateEntryRefCount c e) as [e' pd]. simpl in *.
  assert (find_element i (byAccess c) = Some e) as Ef by (by apply find_elem; [apply S|]). rewrite (touch_list i e e') by done.
  split_and!; try done. unfold set_pinned, set_list. simpl. apply (replace_sized c _ i e e'); [done|done|done|done|lia|rewrite U3; by apply (sz_nonneg _ S (i, e))|].
  intros Hp. rewrite U5, Hp. pose proof (sz_unpinned _ S Hp (i, e) He) as R. simpl in R. lia.
Qed.
Lemma touch_bounded c i e : sized c → (i, e) ∈ byAccess c → 0 ≤ refCount e → bounded c → bounded (touch i e c).
Proof.
  intros S He Hr B. destruct (touch_spec c i e S He) as (_ & (M & _ & _) & L & Cs & _). destruct B as [B|B]; [left; rewrite Cs, M; done|right].
  intros p. rewrite L. intros [->|Hp]%elem_of_cons; [|apply B; by apply elem_remove in Hp as [? _]].
  unfold pinned. simpl. destruct (used_facts c e) as (_ & _ & _ & _ & ->). specialize (B _ He). unfold pinned in B. simpl in B. destruct (pin c); lia.
Qed.

(** ** The invariant of a cache whose references are released as often as they were taken *)

Record lru_ok c : Prop := {
  ok_sized : sized c;
  ok_bounded : bounded c;
  ok_counted : ∀ p, p ∈ byAccess c → 0 ≤ refCount p.2;
  ok_times : ttl c = 0 → ∀ p, p ∈ byAccess c → createTime p.2 = None }.

Lemma drops_counted keep c c' : drops keep c c' → (∀ p, p ∈ byAccess c → 0 ≤ refCount p.2) → ∀ p, p ∈ byAccess c' → 0 ≤ refCount p.2.
Proof. intros D Hc p Hp. apply Hc. by apply D. Qed.
Lemma touch_ok c i e : lru_ok c → (i, e) ∈ byAccess c → lru_ok (touch i e c).
Proof.
  intros [S B N T] He. destruct (touch_spec c i e S He) as (S' & (_ & Tt & _) & L & _). split; [done|by apply touch_bounded; auto; apply (N (i, e))| |].
  2: { rewrite Tt. intros E p. rewrite L. intros [->|Hp]%elem_of_cons; [|apply T; [done|]; by apply elem_remove in Hp as [? _]]. simpl.
       destruct (used_facts c e) as (_ & _ & _ & -> & _). apply (T E _ He). }
  intros p. rewrite L. intros [->|Hp]%elem_of_cons; [|apply N; by apply elem_remove in Hp as [? _]]. simpl.
  destruct (used_facts c e) as (_ & _ & _ & _ & ->). specialize (N _ He). simpl in N. destruct (pin c); lia.
Qed.
Lemma delete_ok c p : lru_ok c → p ∈ byAccess c → lru_ok (deleteInternal p c).
Proof.
  intros [S B N T] Hp. split; [by apply delete_sized|by apply delete_bounded|..].
  - intros q. simpl. rewrite elem_remove. intros [Hq _]. by apply N.
  - simpl. intros E q. rewrite elem_remove. intros [Hq _]. by apply T.
Qed.

(** ** Getting *)

Lemma expired_unpinned c e now : isEntryExpired c e now = true → refCount e = 0.
Proof. unfold isEntryExpired. rewrite andb_true_iff, Z.eqb_eq. tauto. Qed.
(** What [Get] does: nothing, drop an expired entry, or use the entry. *)
Lemma Get_spec now k c c' r : sized c → Get now k c = (c', r) → match r with
  | None => drops pinned c c' ∧ (maxSize c ≠ 0 → ∀ p, p ∈ byAccess c' → key_of p ≠ k)
  | Some v => ∃ i e, (i, e) ∈ byAccess c ∧ key e = k ∧ value e = v ∧ isEntryExpired c e now = false ∧ c' = touch i e c
  end.
Proof.
  intros S. unfold Get. destruct (Z.eqb_spec (maxSize c) 0) as [E|N]; [intros [= <- <-]; split; [by apply drops_refl|done]|].
  destruct (lookup_key c k) as [[i e]|] eqn:L.
  - apply lookup_key_spec in L as [He Hk]; [|done]. destruct (isEntryExpired c e now) eqn:X; intros [= <- <-]; [|by exists i, e].
    split; [apply delete_drops; [done|done|by eapply expired_unpinned]|]. intros _ p. simpl. rewrite elem_remove. intros [Hp Ni] Hk'.
    apply Ni. destruct p as [j e']. pose proof (proj2 (lookup_key_spec c k j e' S) (conj Hp Hk')) as L1.
    pose proof (proj2 (lookup_key_spec c k i e S) (conj He Hk)) as L2. simpl. congruence.
  - intros [= <- <-]. split; [by apply drops_refl|]. intros _. by apply lookup_key_none.
Qed.
Lemma drops_bounded c c' : sized c → drops pinned c c' → bounded c → bounded c'.
Proof.
  intros S D [L|L]; [|right; intros p Hp; apply L; by apply D]. left. destruct D as [S' [-> _] A _]. rewrite (sz_total _ S'). rewrite (sz_total _ S) in L.
  assert (total (byAccess c') ≤ total (byAccess c)); [|lia]. clear L. pose proof (sz_nonneg _ S) as Nn. destruct S as [[D _ _ _] _ _ _ _]. destruct S' as [[D' _ _ _] _ _ _ _].
  apply NoDup_fmap_1 in D, D'. revert A D Nn. generalize (byAccess c). induction (byAccess c') as [|p l IH]; intros m A D Nn; simpl; [by apply total_nonneg|].
  apply NoDup_cons in D' as [Np D']. destruct (list_elem_of_split m p) as (m1 & m2 & ->); [apply A; by left|].
  specialize (IH D' (m1 ++ m2)). rewrite total_app in *. simpl.
  enough (total l ≤ total m1 + total m2) by lia. apply IH.
  - intros q Hq. assert (q ∈ m1 ++ p :: m2) as Hq' by (apply A; by right). rewrite elem_of_app, elem_of_cons in Hq'. rewrite elem_of_app.
    destruct Hq' as [?|[->|?]]; [by left|done|by right].
  - apply NoDup_app in D as (D1 & D2 & D3). apply NoDup_cons in D3 as [_ D3]. apply NoDup_app. split_and!; try done. intros x Hx Hx2. apply (D2 x Hx). by right.
  - intros q Hq. apply Nn. rewrite elem_of_app in *. rewrite elem_of_cons. tauto.
Qed.
Lemma drops_ok c c' : lru_ok c → drops pinned c c' → lru_ok c'.
Proof.
  intros [S B N T] D. split; [apply D|by eapply drops_bounded|by eapply drops_counted|]. destruct D as [_ (_ & -> & _) A _]. auto.
Qed.

(** ** Putting *)

Section put.
Context (getSize : V → Z) (Hsize : ∀ v, 0 ≤ getSize v).

Definition new_entry c now k v s : entry := used c (updateEntryTTL c now (mkEntry k None v 0 s)).
Lemma new_entry_facts c now k v s : key (new_entry c now k v s) = k ∧ value (new_entry c now k v s) = v ∧ size (new_entry c now k v s) = s ∧
  refCount (new_entry c now k v s) = (if pin c then 1 else 0).
Proof. unfold new_entry. destruct (used_facts c (updateEntryTTL c now (mkEntry k None v 0 s))) as (-> & -> & -> & _ & ->). unfold updateEntryTTL. destruct (ttl c =? 0); by destruct (pin c). Qed.

Lemma new_entry_time c now k v s : createTime (new_entry c now k v s) = if ttl c =? 0 then None else Some now.
Proof. unfold new_entry. destruct (used_facts c (updateEntryTTL c now (mkEntry k None v 0 s))) as (_ & _ & _ & -> & _). unfold updateEntryTTL. by destruct (ttl c =? 0). Qed.

(** Inserting drops entries until there is room, or fails with only pinned ones left. *)
Lemma insert_new_spec now k v s c c' r : sized c → lookup_key c k = None → 0 ≤ s → insert_new now k v s c = (c', r) → ∃ c1, drops pinned c c1 ∧ match r with
  | inl err => err = ErrCacheFull ∧ c' = c1 ∧ maxSize c < currSize c1 + s ∧ ∀ p, p ∈ byAccess c1 → pinned p
  | inr existing => existing = None ∧ sized c' ∧ same_config c c' ∧ byAccess c' = (nextElement c1, new_entry c1 now k v s) :: byAccess c1 ∧
      currSize c' ≤ maxSize c' ∧ hooks c' = hooks c1 ++ [OnPut v]
  end.
Proof.
  intros S Lk Hs. unfold insert_new. destruct (evict_none s c S) as [D F]. set (c1 := tryEvictUntilEnoughSpaceWithSkipEntry s None c) in *. intros E.
  exists c1. split; [done|]. destruct D as [S1 C1 A1 B1]. unfold calculateNewCacheSize, emptyEntrySize in E. destruct C1 as (M1 & T1 & P1).
  destruct (Z.ltb_spec (maxSize c1) (currSize c1 - 0 + s)) as [L|L]; [injection E as <- <-; split_and!; try done; [lia|]; destruct F; [lia|done]|].
  destruct (updateEntryRefCount c1 _) as [e pd] eqn:Eu. injection E as <- <-.
  assert (e = new_entry c1 now k v s) as -> by (unfold new_entry, used; by rewrite Eu).
  pose proof (new_entry_facts c1 now k v s) as (N1 & N2 & N3 & N4). set (e := new_entry c1 now k v s) in *. apply lookup_key_none in Lk as [Lk1 Lk2]; [|done].
  split_and!; try done. split; simpl; [..|apply S1].
  - rewrite <- N1. apply indexed_insert; [|apply S1]. rewrite N1. destruct (byKey c1 !! k) as [j|] eqn:Ej; [|done].
    apply S1 in Ej as (e0 & H0 & Hk0). apply A1 in H0. by destruct (Lk2 _ H0).
  - rewrite (sz_total _ S1). lia.
  - intros p [->|Hp]%elem_of_cons; simpl; [lia|by apply S1].
  - intros Hp p [->|Hp']%elem_of_cons; simpl; [by rewrite N4, Hp|by apply S1].
Qed.
Lemma insert_new_ok now k v s c c' r : lru_ok c → lookup_key c k = None → 0 ≤ s → insert_new now k v s c = (c', r) → lru_ok c'.
Proof.
  intros O Lk Hs E. destruct (insert_new_spec now k v s c c' r (ok_sized _ O) Lk Hs E) as (c1 & D0 & R). pose proof (drops_ok _ _ O D0) as D.
  destruct r as [err|ex]; [by destruct R as (_ & -> & _)|]. destruct R as (_ & S' & C' & L & Cs & _). split; [done|by left| |].
  2: { intros E' p. rewrite L. assert (ttl c1 = 0) as T1 by (destruct C' as (_ & T & _), D0 as [_ (_ & T' & _) _ _]; congruence).
       intros [->|Hp]%elem_of_cons; [simpl; by rewrite new_entry_time, T1|]. by apply D. }
  intros p. rewrite L. intros [->|Hp]%elem_of_cons; [|by apply D]. simpl. destruct (new_entry_facts c1 now k v s) as (_ & _ & _ & ->). by destruct (pin c1).
Qed.

(** Replacing the value of an entry drops others until there is room. *)
Lemma drops_weaken (keep keep' : element → Prop) c c' : (∀ p, keep' p → keep p) → drops keep c c' → drops keep' c c'.
Proof. intros W [S C A B]. split; auto. Qed.
Lemma update_existing_spec now v s i e c c' r : sized c → (i, e) ∈ byAccess c → 0 ≤ s → update_existing now v s i e c = (c', r) →
  ∃ c1, drops (protected (Some (key e))) c c1 ∧ match r with
  | inl err => err = ErrCacheFull ∧ c' = c1 ∧ maxSize c < currSize c1 - size e + s ∧ ∀ p, p ∈ byAccess c1 → protected (Some (key e)) p
  | inr e' => e' = updateEntryTTL c1 now (set_value v s e) ∧ sized c' ∧ same_config c c' ∧ byAccess c' = update_element i (λ _, e') (byAccess c1) ∧
      currSize c' ≤ maxSize c' ∧ hooks c' = hooks c1 ++ [OnPut v]
  end.
Proof.
  intros S He Hs. unfold update_existing. set (c1 := if maxSize c <? _ then _ else c). intros E. exists c1.
  assert (drops (protected (Some (key e))) c c1 ∧ (fits s (size e) c1 ∨ ∀ p, p ∈ byAccess c1 → protected (Some (key e)) p)) as [D F].
  { unfold c1. destruct (Z.ltb_spec (maxSize c) (calculateNewCacheSize c s (size e))) as [L|L].
    - destruct (evict_spec s (Some e) c S) as [D F]. split; [by apply (drops_evicted (protected (Some (key e))))|done].
    - split; [by apply drops_refl|by left]. }
  split; [done|]. assert ((i, e) ∈ byAccess c1) as He1 by (apply (dr_keep _ _ _ D); [done|by right]). destruct D as [S1 (M1 & T1 & P1) A1 B1].
  unfold calculateNewCacheSize, fits in *. destruct (Z.ltb_spec (maxSize c1) (currSize c1 - size e + s)) as [L|L].
  { injection E as <- <-. unfold calculateNewCacheSize in F. split_and!; try done; [lia|]. destruct F; [lia|done]. }
  set (e' := updateEntryTTL c1 now (set_value v s e)) in *. injection E as <- <-. split_and!; try done.
  assert (key e' = key e ∧ size e' = s ∧ refCount e' = refCount e) as (K1 & K2 & K3) by (unfold e', updateEntryTTL; by destruct (ttl c1 =? 0)).
  assert (find_element i (byAccess c1) = Some e) as Ef by (by apply find_elem; [apply S1|]).
  apply (replace_sized c1 _ i e e'); [done|done|by apply (update_perm i e); [apply S1|]|done|simpl; unfold calculateNewCacheSize; lia|lia|].
  intros Hp. rewrite K3. by apply (sz_unpinned _ S1 Hp (i, e)).
Qed.
(** Without pins there is always room for a value that fits at all. *)
Lemma update_existing_unpinned now v s i e c c' r : sized c → pin c = false → (i, e) ∈ byAccess c → 0 ≤ s ≤ maxSize c →
  update_existing now v s i e c = (c', r) → ∃ e', r = inr e'.
Proof.
  intros S Hp He Hs E. destruct (update_existing_spec now v s i e c c' r S He (proj1 Hs) E) as (c1 & D & R). destruct r as [err|e']; [|by eexists].
  destruct R as (_ & -> & L & Q). exfalso. destruct D as [S1 (M1 & T1 & P1) A1 B1]. assert ((i, e) ∈ byAccess c1) as He1 by (apply B1; [done|by right]).
  pose proof (remove_perm c1 i e S1 He1) as P. assert (remove_element i (byAccess c1) = []) as Er.
  { apply elem_of_nil_inv. intros p. rewrite elem_remove. intros [Hq Ni]. destruct (Q p Hq) as [Hpin|Hk].
    - apply Hpin. apply (sz_unpinned _ S1); [congruence|done].
    - apply Ni. destruct p as [j e']. injection Hk as Hk. pose proof (proj2 (lookup_key_spec c1 (key e) j e' S1) (conj Hq (eq_sym Hk))) as L1.
      pose proof (proj2 (lookup_key_spec c1 (key e) i e S1) (conj He1 eq_refl)) as L2. simpl. congruence. }
  rewrite Er in P. pose proof (total_perm _ _ P) as T. rewrite <- (sz_total _ S1) in T. simpl in T. lia.
Qed.
Lemma insert_new_unpinned now k v s c c' r : sized c → pin c = false → lookup_key c k = None → 0 ≤ s ≤ maxSize c → insert_new now k v s c = (c', r) → r = inr None.
Proof.
  intros S Hp Lk Hs E. destruct (insert_new_spec now k v s c c' r S Lk (proj1 Hs) E) as (c1 & D & R). destruct r as [err|x]; [|by destruct R as (-> & _)].
  destruct R as (_ & -> & L & Q). exfalso. destruct D as [S1 (M1 & T1 & P1) A1 B1]. assert (byAccess c1 = []) as Er.
  { apply elem_of_nil_inv. intros p Hq. apply (Q p Hq). apply (sz_unpinned _ S1); [congruence|done]. }
  pose proof (sz_total _ S1) as T. rewrite Er in T. simpl in T. lia.
Qed.

Lemma lookup_deleted c k i e : sized c → lookup_key c k = Some (i, e) → lookup_key (deleteInternal (i, e) c) k = None.
Proof.
  intros S L. destruct (lookup_key (deleteInternal (i, e) c) k) as [[j e']|] eqn:E; [|done]. apply lookup_key_spec in L as L'; [|done]. destruct L' as [He Hk].
  apply lookup_key_spec in E as [H1 H2]; [|by apply delete_sized]. simpl in H1. apply elem_remove in H1 as [H1 N]. destruct N. simpl.
  pose proof (proj2 (lookup_key_spec c k j e' S) (conj H1 H2)). congruence.
Qed.

Lemma touch_updated i e e' c1 c2 : sized c2 → find_element i (byAccess c1) = Some e → byAccess c2 = update_element i (λ _, e') (byAccess c1) → (i, e') ∈ byAccess c2.
Proof. intros S Ef L. apply find_elem; [apply S|]. by rewrite L, update_find, Ef. Qed.

(** The cases of [putInternal] once the size is within the limit. *)
Lemma putInternal_cases now k v allowUpdate c c' r : sized c → maxSize c ≠ 0 → getSize v ≤ maxSize c → putInternal getSize now k v allowUpdate c = (c', r) →
  (∃ c0, drops pinned c c0 ∧ lookup_key c0 k = None ∧ insert_new now k v (getSize v) c0 = (c', r)) ∨
  (∃ i e, (i, e) ∈ byAccess c ∧ key e = k ∧ allowUpdate = false ∧ c' = touch i e c ∧ r = inr (Some (value e))) ∨
  (∃ i e c1 x, (i, e) ∈ byAccess c ∧ key e = k ∧ allowUpdate = true ∧ update_existing now v (getSize v) i e c = (c1, x) ∧
     match x with inl err => c' = c1 ∧ r = inl err | inr e' => c' = touch i e' c1 ∧ r = inr (Some (value e)) end).
Proof.
  intros S N Hs. unfold putInternal. rewrite (proj2 (Z.eqb_neq _ _) N), (proj2 (Z.ltb_ge _ _) Hs). destruct (lookup_key c k) as [[i e]|] eqn:L.
  - pose proof L as L'. apply lookup_key_spec in L' as [He Hk]; [|done]. destruct (isEntryExpired c e now) eqn:X; [|destruct allowUpdate].
    + intros E. left. exists (deleteInternal (i, e) c). split_and!; [|by apply lookup_deleted|done]. apply delete_drops; [done|done|by eapply expired_unpinned].
    + destruct (update_existing now v (getSize v) i e c) as [c1 [err|e']] eqn:U; intros [= <- <-]; right; right; by exists i, e, c1; eexists.
    + intros [= <- <-]. right; left. by exists i, e.
  - intros E. left. exists c. split_and!; [by apply drops_refl|done|done].
Qed.
Lemma putInternal_ok now k v allowUpdate c c' r : lru_ok c → putInternal getSize now k v allowUpdate c = (c', r) → lru_ok c'.
Proof using Hsize.
  intros O E. destruct (decide (maxSize c = 0)) as [Z0|N]; [unfold putInternal in E; rewrite Z0 in E; by injection E as <- <-|].
  destruct (Z.lt_ge_cases (maxSize c) (getSize v)) as [L|L].
  { unfold putInternal in E. rewrite (proj2 (Z.eqb_neq _ _) N), (proj2 (Z.ltb_lt _ _) L) in E. by injection E as <- <-. }
  destruct (putInternal_cases now k v allowUpdate c c' r (ok_sized _ O) N L E) as [(c0 & D & Lk & I)|[(i & e & He & Hk & _ & -> & ->)|(i & e & c1 & x & He & Hk & _ & U & R)]].
  - eapply insert_new_ok; [by eapply drops_ok|done|apply Hsize|done].
  - by apply touch_ok.
  - destruct (update_existing_spec now v (getSize v) i e c c1 x (ok_sized _ O) He (Hsize v) U) as (c2 & D & R2).
    assert (lru_ok c2) as O2 by (eapply drops_ok; [done|eapply drops_weaken; [|done]; by left]). destruct x as [err|e'].
    + destruct R as [-> _], R2 as (_ & -> & _). done.
    + destruct R as [-> _], R2 as (-> & S1 & C1 & L1 & Cs & _). assert ((i, e) ∈ byAccess c2) as He2 by (apply (dr_keep _ _ _ D); [done|by right]).
      set (e' := updateEntryTTL c2 now (set_value v (getSize v) e)) in *.
      assert (find_element i (byAccess c2) = Some e) as Ef by (by apply find_elem; [apply O2|]).
      apply touch_ok; [|by eapply touch_updated]. assert (createTime e' = if ttl c2 =? 0 then createTime e else Some now) as Te
        by (unfold e', updateEntryTTL; by destruct (ttl c2 =? 0)).
      split; [done|by left| |].
      2: { intros E' p. assert (ttl c2 = 0) as T2 by (destruct C1 as (_ & T & _), D as [_ (_ & T' & _) _ _]; congruence).
           rewrite L1, (update_perm i e) by (done || apply O2). intros [->|Hp]%elem_of_cons; [simpl; rewrite Te, T2; apply (ok_times _ O2 T2 _ He2)|].
           apply (ok_times _ O2 T2). by apply elem_remove in Hp as [? _]. }
      intros p. rewrite L1, (update_perm i e) by (done || apply O2).
      intros [->|Hp]%elem_of_cons; [|apply (ok_counted _ O2); by apply elem_remove in Hp as [? _]]. simpl.
      unfold e', updateEntryTTL. pose proof (ok_counted _ O2 (i, e) He2) as R. simpl in R. by destruct (ttl c2 =? 0).
Qed.

(** [PutIfNotExist] uses the entry that is there, or inserts one. *)
Lemma PutIfNotExist_spec now k v c c' r : sized c → maxSize c ≠ 0 → PutIfNotExist getSize now k v c = (c', r) → match r with
  | inl err => drops pinned c c'
  | inr x => (∃ i e, (i, e) ∈ byAccess c ∧ key e = k ∧ value e = x ∧ c' = touch i e c) ∨
      (x = v ∧ ∃ c1 n, drops pinned c c1 ∧ (∀ p, p ∈ byAccess c1 → key_of p ≠ k) ∧ sized c' ∧ same_config c c' ∧
         byAccess c' = (n, new_entry c1 now k v (getSize v)) :: byAccess c1 ∧ currSize c' ≤ maxSize c')
  end.
Proof using Hsize.
  intros S N. unfold PutIfNotExist. destruct (Z.lt_ge_cases (maxSize c) (getSize v)) as [L|L].
  { unfold putInternal. rewrite (proj2 (Z.eqb_neq _ _) N), (proj2 (Z.ltb_lt _ _) L). intros [= <- <-]. by apply drops_refl. }
  destruct (putInternal getSize now k v false c) as [c2 x] eqn:E.
  destruct (putInternal_cases now k v false c c2 x S N L E) as [(c0 & D & Lk & I)|[(i & e & He & Hk & _ & -> & ->)|(i & e & c1 & y & _ & _ & ? & _)]]; [| |done].
  - destruct (insert_new_spec now k v (getSize v) c0 c2 x (dr_sized _ _ _ D) Lk (Hsize v) I) as (c1 & D1 & R). pose proof (drops_trans _ _ _ _ D D1) as D2.
    destruct x as [err|ex].
    + intros [= <- <-]. by destruct R as (_ & -> & _).
    + destruct R as (-> & S2 & C2 & L2 & Cs & _). intros [= <- <-]. right. split; [done|]. exists c1, (nextElement c1). split_and!; try done.
      * intros p Hp. apply (lookup_key_none c0 k (dr_sized _ _ _ D) Lk). by apply (dr_sub _ _ _ D1).
      * eapply same_config_trans; [apply (dr_config _ _ _ D)|done].
  - intros [= <- <-]. left. by exists i, e.
Qed.

(** ** Releasing *)

Definition released e : entry := set_entry_size (getSize (value e)) (add_ref (-1) e).
Lemma Release_spec k c : sized c → maxSize c ≠ 0 → pin c = true → match lookup_key c k with
  | None => Release getSize k c = c
  | Some (i, e) => ∃ c2, sized c2 ∧ same_config c c2 ∧ byAccess c2 = update_element i (λ _, released e) (byAccess c) ∧
      drops pinned c2 (Release getSize k c) ∧ bounded (Release getSize k c)
  end.
Proof using Hsize.
  intros S N P. unfold Release. rewrite (proj2 (Z.eqb_neq _ _) N), P. simpl. destruct (lookup_key c k) as [[i e]|] eqn:L; [|done].
  apply lookup_key_spec in L as [He Hk]; [|done]. assert (find_element i (byAccess c) = Some e) as Ef by (by apply find_elem; [apply S|]).
  set (c2 := set_pinned _ _). assert (sized c2) as S2.
  { apply (replace_sized c _ i e (released e)); [done|done|by apply (update_perm i e); [apply S|]|done| | |by rewrite P].
    - simpl. unfold calculateNewCacheSize. lia.
    - apply Hsize. }
  exists c2. split_and!; try done.
  - destruct (_ <? _); [|by apply drops_refl]. unfold tryEvictUntilCacheSizeUnderLimit. by apply (evict_none 0 c2).
  - change (maxSize c) with (maxSize c2). change (calculateNewCacheSize c (getSize (value e)) (size e)) with (currSize c2).
    destruct (Z.ltb_spec (maxSize c2) (currSize c2)) as [L|L]; [|by left]. destruct (evict_none 0 c2 S2) as [_ F].
    unfold tryEvictUntilCacheSizeUnderLimit. destruct F as [F|F]; [left; lia|by right].
Qed.
Lemma Release_ok k c : lru_ok c → (∀ i e, (i, e) ∈ byAccess c → key e = k → 0 < refCount e) → lru_ok (Release getSize k c).
Proof using Hsize.
  intros O Hr. destruct (decide (maxSize c = 0)) as [Z0|N]; [unfold Release; by rewrite Z0|].
  destruct (pin c) eqn:P; [|unfold Release; by rewrite P, orb_true_r]. pose proof (Release_spec k c (ok_sized _ O) N P) as R.
  destruct (lookup_key c k) as [[i e]|] eqn:L; [|by rewrite R]. apply lookup_key_spec in L as [He Hk]; [|apply O].
  destruct R as (c2 & S2 & C2 & L2 & D & B). split; [apply D|done| |].
  2: { intros E p Hp. apply (dr_sub _ _ _ D) in Hp. assert (ttl c = 0) as T0 by (destruct C2 as (_ & T & _), D as [_ (_ & T' & _) _ _]; congruence).
       rewrite L2, (update_perm i e) in Hp by (apply find_elem; [apply O|done] || apply O).
       apply elem_of_cons in Hp as [->|Hp]; [apply (ok_times _ O T0 _ He)|]. apply (ok_times _ O T0). by apply elem_remove in Hp as [? _]. }
  eapply drops_counted; [done|]. intros p.
  rewrite L2, (update_perm i e) by (apply find_elem; [apply O|done] || apply O).
  intros [->|Hp]%elem_of_cons; simpl; [specialize (Hr i e He Hk); lia|]. apply O. by apply elem_remove in Hp as [? _].
Qed.
End put.

(** ** Background eviction and iterators *)

Lemma same_expired c c' e now : same_config c c' → isEntryExpired c' e now = isEntryExpired c e now.
Proof. intros (_ & T & _). unfold isEntryExpired. by rewrite T. Qed.
(** Deleting expired entries of a part of the list. *)
Lemma evict_expired_drops n now elements c : sized c → NoDup elements → (∀ p, p ∈ elements → p ∈ byAccess c) →
  drops pinned c (evict_expired n now elements c).1.
Proof.
  revert elements c. induction n as [|n IH]; intros [|p elements] c S D Hs; simpl; try by apply drops_refl.
  apply NoDup_cons in D as [Np D]. destruct (isEntryExpired c p.2 now) eqn:X; [|by apply drops_refl].
  assert (p ∈ byAccess c) as Hp by (apply Hs; by left). destruct p as [i e]. pose proof (delete_drops c i e S Hp (expired_unpinned c e now X)) as D1.
  eapply drops_trans; [done|]. apply IH; [apply D1|done|]. intros q Hq. simpl. apply elem_remove. split; [apply Hs; by right|]. intros Ei.
  apply Np. assert (q = (i, e)) as ->; [|done]. destruct q as [j e']. simpl in Ei. subst j. f_equal.
  assert ((i, e') ∈ byAccess c) as Hq' by (apply Hs; by right). apply find_elem in Hq', Hp; [|apply S..]. congruence.
Qed.
Lemma NoDup_elements c : sized c → NoDup (byAccess c).
Proof. intros S. eapply NoDup_fmap_1. apply S. Qed.
Lemma evictToMax_drops m now c : sized c → drops pinned c (evictToMax m now c).1.
Proof.
  intros S. unfold evictToMax. destruct (m <=? 0); [by apply drops_refl|]. apply evict_expired_drops; [done|rewrite reverse_Permutation; by apply NoDup_elements|].
  intros p. by rewrite elem_of_reverse.
Qed.
Lemma remove_shorter i e c : sized c → (i, e) ∈ byAccess c → length (byAccess c) = S (length (remove_element i (byAccess c))).
Proof. intros S He. by rewrite (Permutation_length (remove_perm c i e S He)). Qed.
Lemma drops_length keep c c' : sized c → drops keep c c' → (length (byAccess c') ≤ length (byAccess c))%nat.
Proof. intros S [S' _ A _]. apply NoDup_incl_length; [by apply NoDup_ListNoDup, NoDup_elements|]. intros p. rewrite <- !list_elem_of_In. apply A. Qed.
(** A call that asks for another has deleted something. *)
Lemma evictToMax_again m now c : sized c → (evictToMax m now c).2 = true → (length (byAccess (evictToMax m now c).1) < length (byAccess c))%nat.
Proof.
  intros S. unfold evictToMax. destruct (Z.leb_spec m 0); [done|]. destruct (Z.to_nat m) as [|n] eqn:En; [lia|].
  destruct (reverse (byAccess c)) as [|p els] eqn:Er; simpl; [done|]. destruct (isEntryExpired c p.2 now) eqn:X; [|done]. intros _.
  assert (p ∈ byAccess c) as Hp by (apply elem_of_reverse; rewrite Er; by left). destruct p as [i e].
  pose proof (delete_drops c i e S Hp (expired_unpinned c e now X)) as D1. pose proof (remove_shorter i e c S Hp).
  assert (drops pinned (deleteInternal (i, e) c) (evict_expired n now els (deleteInternal (i, e) c)).1) as D2.
  { assert (NoDup ((i, e) :: els)) as ND by (rewrite <- Er, reverse_Permutation; by apply NoDup_elements). apply NoDup_cons in ND as [Ne ND].
    apply evict_expired_drops; [apply D1|done|]. intros q Hq. simpl. apply elem_remove.
    assert (q ∈ byAccess c) as Hq' by (apply elem_of_reverse; rewrite Er; by right). split; [done|]. intros Ei. apply Ne.
    assert (q = (i, e)) as <-; [|done]. destruct q as [j e']. simpl in Ei. subst j. f_equal. apply find_elem in Hq', Hp; [|apply S..]. congruence. }
  pose proof (drops_length _ _ _ (dr_sized _ _ _ D1) D2) as Ll. simpl in Ll. lia.
Qed.
(** Background eviction ends. *)
Lemma bgEvict_ends m now c : sized c → ∃ c', bgEvict m now c = Some c' ∧ drops pinned c c'.
Proof.
  intros S. unfold bgEvict. assert (∀ n c, sized c → (length (byAccess c) < n)%nat → ∃ c', bgEvict_loop n m now c = Some c' ∧ drops pinned c c') as X; [|apply X; [done|lia]].
  clear S c. induction n as [|n IH]; intros c S Hn; [lia|]. simpl. pose proof (evictToMax_drops m now c S) as D. pose proof (evictToMax_again m now c S) as A.
  destruct (evictToMax m now c) as [c1 [|]]; simpl in *; [|by exists c1]. destruct (IH c1) as (c' & E & D'); [apply D|specialize (A eq_refl); lia|].
  exists c'. split; [done|by eapply drops_trans].
Qed.

(** An iterator drops expired entries it comes to. *)
Lemma prepareNext_drops t items c c' rest : sized c → (∃ front, byAccess c = front ++ items) → prepareNext t items c = (c', rest) →
  drops pinned c c' ∧ (∃ front, byAccess c' = front ++ rest) ∧ (∀ p ps, rest = p :: ps → isEntryExpired c p.2 t = false) ∧ rest `suffix_of` items.
Proof.
  revert c. induction items as [|p items IH]; intros c S [front Hf]; simpl; [intros [= <- <-]; split_and!; [by apply drops_refl|by exists front|done|done]|].
  destruct (isEntryExpired c p.2 t) eqn:X.
  - intros E. destruct p as [i e]. assert ((i, e) ∈ byAccess c) as He by (rewrite Hf; apply elem_of_app; right; by left).
    pose proof (delete_drops c i e S He (expired_unpinned c e t X)) as D. destruct (IH (deleteInternal (i, e) c)) as (D' & F' & X' & Sf); [apply D| |done|].
    { exists front. simpl. rewrite Hf. apply remove_middle. rewrite <- Hf. apply S. }
    split_and!; [by eapply drops_trans|done|done|by apply suffix_cons_r].
  - intros [= <- <-]. split_and!; [by apply drops_refl|by exists front|by intros ? ? [= <- _]|done].
Qed.
End ops.
