(* ===== verification/LruProps.v ===== *)
(** * The LRU cache: it is a bounded, never stale view of a map; concrete runs *)
From S2P Require Import Prelude LruCache LruSpec.
Local Open Scope Z_scope.

Section props.
Context {K V : Type} `{Countable K}.
Notation lru := (lru K V).
Notation element := (nat * entryImpl K V)%type.
Implicit Types (c : lru) (k : K) (M : gmap K V).

(** ** The map a cache is a view of *)

(** What was put last under each key, of the values that are not larger than the whole cache: [Put] refuses those without a sign.  The size of a value is read when
    an operation needs it, and may differ from one to the next.  Callers release only references they have ([over_release]: the code does not check). *)
Inductive cache_step : lru * gmap K V → lru * gmap K V → Prop :=
  | cs_get now k c M : cache_step (c, M) ((Get now k c).1, M)
  | cs_put getSize now k v c M c' old : (∀ v, 0 ≤ getSize v) → Put getSize now k v c = Some (c', old) →
      cache_step (c, M) (c', if getSize v <=? maxSize c then <[k := v]> M else M)
  | cs_put_if getSize now k v c M c' r : (∀ v, 0 ≤ getSize v) → PutIfNotExist getSize now k v c = (c', r) →
      cache_step (c, M) (c', match r with inr x => <[k := x]> M | inl _ => M end)
  | cs_delete k c M : cache_step (c, M) (Delete k c, delete k M)
  | cs_release getSize k c M : (∀ v, 0 ≤ getSize v) → (∀ p, p ∈ byAccess c → key_of p = k → 0 < refCount p.2) → cache_step (c, M) (Release getSize k c, M)
  | cs_evict m now c M : cache_step (c, M) ((evictToMax m now c).1, M)
  | cs_iterate now c M : cache_step (c, M) ((Iterator now c).1, M).

Definition view c M : Prop := ∀ p, p ∈ byAccess c → M !! key_of p = Some (value p.2).
Lemma view_drops keep c c' M : drops keep c c' → view c M → view c' M.
Proof. intros D Hv p Hp. apply Hv. by apply D. Qed.
Lemma view_touch c i e M : sized c → (i, e) ∈ byAccess c → view c M → view (touch i e c) M.
Proof.
  intros S He Hv p. destruct (touch_spec c i e S He) as (_ & _ & -> & _). intros [->|Hp]%elem_of_cons; [|apply Hv; by apply elem_remove in Hp as [? _]].
  unfold key_of. simpl. destruct (used_facts c e) as (-> & -> & _). apply (Hv _ He).
Qed.
Lemma view_other c k v M : view c M → (∀ p, p ∈ byAccess c → key_of p ≠ k) → view c (<[k := v]> M).
Proof. intros Hv N p Hp. rewrite lookup_insert_ne; [by apply Hv|]. intros E. by apply (N p Hp). Qed.
Lemma view_insert c c1 k v now s n M : byAccess c = (n, new_entry c1 now k v s) :: byAccess c1 → view c1 M → (∀ p, p ∈ byAccess c1 → key_of p ≠ k) → view c (<[k := v]> M).
Proof.
  intros L Hv N p. rewrite L. destruct (new_entry_facts c1 now k v s) as (E1 & E2 & _). intros [->|Hp]%elem_of_cons.
  - unfold key_of. simpl. rewrite E1, E2. apply lookup_insert_eq.
  - by apply (view_other c1).
Qed.

(** Putting into a cache without pins always succeeds, and the value is there. *)
Lemma Put_spec getSize now k v c c' old : (∀ v, 0 ≤ getSize v) → lru_ok c → maxSize c ≠ 0 → getSize v ≤ maxSize c → Put getSize now k v c = Some (c', old) →
  ∃ i e l, byAccess c' = (i, e) :: l ∧ key e = k ∧ value e = v ∧ refCount e = 0 ∧ createTime e = (if ttl c =? 0 then None else Some now) ∧ same_config c c' ∧
    (∀ p, p ∈ l → p ∈ byAccess c ∧ key_of p ≠ k).
Proof.
  intros Hsz O N L. unfold Put. destruct (pin c) eqn:P; [done|]. destruct (putInternal getSize now k v true c) as [c2 r] eqn:E.
  destruct (putInternal_cases getSize now k v true c c2 r (ok_sized _ O) N L E) as [(c0 & D & Lk & I)|[(i & e & _ & _ & ? & _)|(i & e & c1 & x & He & Hk & _ & U & R)]]; [|done|].
  - assert (pin c0 = false) as P0 by (destruct D as [_ (_ & _ & ->) _ _]; done). assert (maxSize c0 = maxSize c) as M0 by apply D.
    pose proof (insert_new_unpinned now k v (getSize v) c0 c2 r (dr_sized _ _ _ D) P0 Lk ltac:(split; [apply Hsz|lia]) I) as ->.
    destruct (insert_new_spec now k v (getSize v) c0 c2 _ (dr_sized _ _ _ D) Lk (Hsz v) I) as (c1 & D1 & _ & S2 & C2 & L2 & _ & _). intros [= <- <-].
    pose proof (new_entry_facts c1 now k v (getSize v)) as (F1 & F2 & F3 & F4). assert (pin c1 = false) as P1 by (destruct D1 as [_ (_ & _ & ->) _ _]; done).
    exists (nextElement c1), (new_entry c1 now k v (getSize v)), (byAccess c1). rewrite F4, P1. split_and!; try done.
    + rewrite new_entry_time. assert (ttl c1 = ttl c) as ->; [|done]. destruct D as [_ (_ & <- & _) _ _], D1 as [_ (_ & <- & _) _ _]. done.
    + eapply same_config_trans; [apply (dr_config _ _ _ D)|done].
    + intros p Hp. apply (dr_sub _ _ _ D1) in Hp as Hp0. split; [by apply (dr_sub _ _ _ D)|]. by apply (lookup_key_none c0 k (dr_sized _ _ _ D) Lk).
  - destruct (update_existing_unpinned now v (getSize v) i e c c1 x (ok_sized _ O) P He ltac:(split; [apply Hsz|done]) U) as [e' ->].
    destruct (update_existing_spec now v (getSize v) i e c c1 _ (ok_sized _ O) He (Hsz v) U) as (c3 & D & Ee & S1 & C1 & L1 & _ & _).
    destruct R as [-> ->]. intros [= <- <-]. assert ((i, e) ∈ byAccess c3) as He3 by (apply (dr_keep _ _ _ D); [done|by right]).
    assert (find_element i (byAccess c3) = Some e) as Ef by (by apply find_elem; [apply (dr_sized _ _ _ D)|]).
    destruct (touch_spec c1 i e' S1) as (S' & C' & L' & _ & _); [by eapply touch_updated|]. assert (pin c1 = false) as P1 by (destruct C1 as (_ & _ & ->); done).
    destruct (used_facts c1 e') as (F1 & F2 & F3 & F4 & F5). rewrite P1, Z.add_0_r in F5.
    assert (key e' = key e ∧ value e' = v ∧ refCount e' = refCount e ∧ createTime e' = if ttl c3 =? 0 then createTime e else Some now) as (G1 & G2 & G3 & G4).
    { rewrite Ee. unfold updateEntryTTL. by destruct (ttl c3 =? 0). }
    exists i, (used c1 e'), (remove_element i (byAccess c1)). rewrite F1, F2, F5, F4, G1, G2, G3, G4. split_and!; try done.
    + apply (sz_unpinned _ (ok_sized _ O) P (i, e) He).
    + assert (ttl c3 = ttl c) as -> by apply D. destruct (Z.eqb_spec (ttl c) 0) as [E0|]; [|done]. apply (ok_times _ O E0 _ He).
    + by eapply same_config_trans.
    + intros p. rewrite L1, update_remove, elem_remove. intros [Hp Ni]. apply (dr_sub _ _ _ D) in Hp as Hp0. split; [done|]. intros Hk'.
      apply Ni. destruct p as [j e0]. rewrite <- Hk in Hk'. pose proof (proj2 (lookup_key_spec c (key e) j e0 (ok_sized _ O)) (conj Hp0 Hk')) as L1'.
      pose proof (proj2 (lookup_key_spec c (key e) i e (ok_sized _ O)) (conj He eq_refl)) as L2'. simpl. congruence.
Qed.

Lemma Put_ok getSize now k v c c' old : (∀ v, 0 ≤ getSize v) → lru_ok c → Put getSize now k v c = Some (c', old) → lru_ok c'.
Proof.
  intros Hsz O. unfold Put. destruct (pin c); [done|]. destruct (putInternal getSize now k v true c) as [c2 r] eqn:E. apply putInternal_ok in E; [|done..].
  by destruct r as [?|?]; intros [= <- <-].
Qed.
Lemma Get_ok now k c : lru_ok c → lru_ok (Get now k c).1.
Proof.
  intros O. destruct (Get now k c) as [c' r] eqn:E. simpl. apply Get_spec in E; [|apply O]. destruct r as [v|].
  - destruct E as (i & e & He & _ & _ & _ & ->). by apply touch_ok.
  - by eapply drops_ok; [|apply E].
Qed.
Lemma Delete_ok k c : lru_ok c → lru_ok (Delete k c).
Proof.
  intros O. unfold Delete. destruct (maxSize c =? 0); [done|]. destruct (lookup_key c k) as [[i e]|] eqn:L; [|done].
  apply lookup_key_spec in L as [He _]; [|apply O]. by apply delete_ok.
Qed.
Lemma Iterator_drops now c : sized c → drops pinned c (Iterator now c).1.
Proof.
  intros S. unfold Iterator. destruct (prepareNext now (byAccess c) c) as [c' items] eqn:E. simpl.
  destruct (prepareNext_drops now (byAccess c) c c' items S) as [D _]; [by exists []|done|done].
Qed.
Lemma PutIfNotExist_ok getSize now k v c : (∀ v, 0 ≤ getSize v) → lru_ok c → lru_ok (PutIfNotExist getSize now k v c).1.
Proof.
  intros Hsz O. unfold PutIfNotExist. destruct (putInternal getSize now k v false c) as [c2 r] eqn:E. apply putInternal_ok in E; [|done..].
  by destruct r as [?|[?|]].
Qed.

Record cache_inv (s : lru * gmap K V) : Prop := {
  ci_ok : lru_ok s.1;
  ci_view : view s.1 s.2;
  ci_empty : maxSize s.1 = 0 → byAccess s.1 = [] }.

Lemma new_ok maxSize ttl pin : 0 ≤ maxSize → lru_ok (NewWithMetrics maxSize ttl pin : lru).
Proof.
  intros Hm. assert (∀ p, p ∈ byAccess (NewWithMetrics maxSize ttl pin : lru) → False) as N by (intros p Hp; by apply not_elem_of_nil in Hp).
  split; [split; try done; [split; [constructor|constructor|by intros p ?%N|]|by intros p ?%N|by intros _ p ?%N]|by left|by intros p ?%N|by intros _ p ?%N].
  intros k i. simpl. rewrite lookup_empty. split; [done|]. by intros (e & ?%N & _).
Qed.
Lemma inv_drops c c' M : cache_inv (c, M) → drops pinned c c' → cache_inv (c', M).
Proof.
  intros [O Hv He] D. split; simpl in *; [by eapply drops_ok|by eapply view_drops|]. destruct D as [_ (-> & _) A _]. intros E. specialize (He E).
  apply elem_of_nil_inv. intros p Hp. apply A in Hp. rewrite He in Hp. by apply not_elem_of_nil in Hp.
Qed.
Lemma empty_ops c k : maxSize c = 0 → Delete k c = c.
Proof. intros E. unfold Delete. by rewrite E. Qed.

Lemma cache_step_inv s s' : cache_inv s → cache_step s s' → cache_inv s'.
Proof.
  intros I St. destruct St as [now k c M|getSize now k v c M c' old Hsz E|getSize now k v c M c' r Hsz E|k c M|getSize k c M Hsz Hr|m now c M|now c M].
  - destruct (Get now k c) as [c' r] eqn:E. simpl. pose proof E as E'. apply Get_spec in E; [|apply I]. destruct r as [v|]; [|by eapply inv_drops; [|apply E]].
    destruct E as (i & e & He & _ & _ & _ & ->). destruct I as [O Hv Hz]. simpl in *. split; simpl; [by apply touch_ok|by apply view_touch; [apply O|..]|].
    intros Z0. destruct (touch_spec c i e (ok_sized _ O) He) as (_ & (M0 & _) & _). rewrite M0 in Z0. rewrite (Hz Z0) in He. by apply not_elem_of_nil in He.
  - destruct (decide (maxSize c = 0)) as [Z0|N].
    { unfold Put in E. destruct (pin c); [done|]. unfold putInternal in E. rewrite Z0 in E. injection E as <- <-. destruct I as [O Hv Hz]. split; simpl in *; try done.
      intros p Hp. rewrite (Hz Z0) in Hp. by apply not_elem_of_nil in Hp. }
    destruct (Z.leb_spec (getSize v) (maxSize c)) as [L|L].
    2: { unfold Put, putInternal in E. rewrite (proj2 (Z.eqb_neq _ _) N), (proj2 (Z.ltb_lt _ _) L) in E. destruct (pin c); [done|]. by injection E as <- _. }
    destruct I as [O Hv Hz]. simpl in *. destruct (Put_spec getSize now k v c c' old Hsz O N L E) as (i & e & l & L' & Hk & Hval & _ & _ & C & Ho).
    split; simpl; [by eapply Put_ok| |by destruct C as (-> & _)]. intros p. rewrite L'. intros [->|Hp]%elem_of_cons.
    + unfold key_of. simpl. rewrite Hk, Hval. apply lookup_insert_eq.
    + destruct (Ho p Hp) as [H1 H2]. rewrite lookup_insert_ne by done. by apply Hv.
  - pose proof (PutIfNotExist_ok getSize now k v c Hsz (ci_ok _ I)) as O'. rewrite E in O'. simpl in O'. destruct (decide (maxSize c = 0)) as [Z0|N].
    { unfold PutIfNotExist, putInternal in E. rewrite Z0 in E. injection E as <- <-. destruct I as [O Hv Hz]. split; simpl in *; try done.
      intros p Hp. rewrite (Hz Z0) in Hp. by apply not_elem_of_nil in Hp. }
    apply PutIfNotExist_spec in E; [|done|apply I|done]. destruct r as [err|x]; [by eapply inv_drops|]. destruct I as [O Hv Hz]. simpl in *.
    destruct E as [(i & e & He & Hk & Hx & ->)|(-> & c1 & n & D & Hn & S' & C & L' & _)].
    + rewrite insert_id; [|rewrite <- Hk, <- Hx; apply (Hv _ He)]. split; simpl; [done|by apply view_touch; [apply O|..]|].
      by destruct (touch_spec c i e (ok_sized _ O) He) as (_ & (-> & _) & _).
    + split; simpl; [done|by eapply view_insert; [|eapply view_drops|]|by destruct C as (-> & _)].
  - destruct (decide (maxSize c = 0)) as [Z0|N].
    { rewrite empty_ops by done. destruct I as [O Hv Hz]. split; simpl in *; try done. intros p Hp. rewrite (Hz Z0) in Hp. by apply not_elem_of_nil in Hp. }
    destruct I as [O Hv Hz]. simpl in *. split; simpl; [by apply Delete_ok| |].
    + unfold Delete. rewrite (proj2 (Z.eqb_neq _ _) N). destruct (lookup_key c k) as [[i e]|] eqn:L.
      * intros p Hp. assert (key_of p ≠ k) as Nk.
        { pose proof (lookup_deleted c k i e (ok_sized _ O) L) as L'. eapply lookup_key_none; [|done|done].
          apply lookup_key_spec in L as [He _]; [|apply O]. apply delete_sized; [apply O|done]. }
        rewrite lookup_delete_ne by done. apply Hv. simpl in Hp. by apply elem_remove in Hp as [? _].
      * intros p Hp. rewrite lookup_delete_ne; [by apply Hv|]. apply lookup_key_none in L as [_ L]; [|apply O]. intros Ek. by apply (L p Hp).
    + unfold Delete. rewrite (proj2 (Z.eqb_neq _ _) N). by destruct (lookup_key c k).
  - assert (lru_ok (Release getSize k c)) as O' by (apply Release_ok; [done|apply I|intros i e He Hk; by apply (Hr (i, e))]).
    destruct I as [O Hv Hz]. simpl in *. destruct (decide (maxSize c = 0)) as [Z0|N]; [assert (Release getSize k c = c) as -> by (unfold Release; by rewrite Z0); by split|].
    destruct (pin c) eqn:P; [|assert (Release getSize k c = c) as -> by (unfold Release; by rewrite P, orb_true_r); by split].
    pose proof (Release_spec getSize Hsz k c (ok_sized _ O) N P) as R. destruct (lookup_key c k) as [[i e]|] eqn:L; [|rewrite R; by split].
    destruct R as (c2 & S2 & C2 & L2 & D & _). apply lookup_key_spec in L as [He Hk]; [|apply O]. split; simpl; [done| |].
    + eapply view_drops; [done|]. intros p. rewrite L2, (update_perm i e) by (apply find_elem; [apply O|done] || apply O).
      intros [->|Hp]%elem_of_cons; [apply (Hv _ He)|apply Hv; by apply elem_remove in Hp as [? _]].
    + destruct D as [_ (-> & _) _ _]. by destruct C2 as (-> & _).
  - eapply inv_drops; [done|]. apply evictToMax_drops. apply I.
  - eapply inv_drops; [done|]. apply Iterator_drops. apply I.
Qed.
Lemma cache_reachable maxSize ttl pin s : 0 ≤ maxSize → rtc cache_step (NewWithMetrics maxSize ttl pin, ∅) s → cache_inv s.
Proof.
  intros Hm R. assert (cache_inv (NewWithMetrics maxSize ttl pin, ∅)) as I.
  { split; simpl; [by apply new_ok|intros p Hp; by apply not_elem_of_nil in Hp|done]. }
  revert I. induction R as [|s1 s2 s3 St _ IH]; [done|]. intros I. apply IH. by eapply cache_step_inv.
Qed.

(** ** Theorems *)

(** Everything reachable from a new cache. *)
Definition cache_run maxSize ttl pin (s : lru * gmap K V) : Prop := rtc cache_step (NewWithMetrics maxSize ttl pin, ∅) s.

(** C13 An LRU cache refines a map, as a bounded view of it.  Over any operations, with any sizes and times, of callers that release only the references they have: it
    returns for a key the last of the values put there that are not larger than the whole cache (a larger one is refused, without a sign by [Put]), or nothing; its size is the sum of the sizes of its entries, and the sum is within the limit or every entry left is pinned - within the limit in any case if the cache does
    not pin. *)
Theorem lru_refines_map maxSize ttl pin c M : 0 ≤ maxSize → cache_run maxSize ttl pin (c, M) →
  (∀ now k c' v, Get now k c = (c', Some v) → M !! k = Some v) ∧
  (∀ p, p ∈ byAccess c → M !! key p.2 = Some (value p.2) ∧ lookup_key c (key p.2) = Some p) ∧
  Size c = total (byAccess c) ∧ (Size c ≤ LruCache.maxSize c ∨ ∀ p, p ∈ byAccess c → refCount p.2 ≠ 0) ∧ (LruCache.pin c = false → Size c ≤ LruCache.maxSize c).
Proof.
  intros Hm R. pose proof (cache_reachable _ _ _ _ Hm R) as [O Hv Hz]. simpl in *. split_and!.
  - intros now k c' v E. apply Get_spec in E; [|apply O]. destruct E as (i & e & He & <- & <- & _). apply (Hv _ He).
  - intros [i e] Hp. split; [apply (Hv _ Hp)|]. by apply lookup_key_spec; [apply O|].
  - apply O.
  - apply (ok_bounded _ O).
  - intros P. destruct (ok_bounded _ O) as [B|B]; [done|]. unfold Size. rewrite (sz_total _ (ok_sized _ O)).
    assert (byAccess c = []) as ->. { apply elem_of_nil_inv. intros p Hp. apply (B p Hp). by apply (sz_unpinned _ (ok_sized _ O)). }
    apply (sz_max _ (ok_sized _ O)).
Qed.


(** What was put can be read back: in a cache that does not pin, putting a value that fits never fails, and the key has that value until it expires,
    whatever had to be evicted for it. *)
Theorem lru_put_get maxSize ttl c M getSize now now' k v : 0 < maxSize → cache_run maxSize ttl false (c, M) → (∀ v, 0 ≤ getSize v) → getSize v ≤ LruCache.maxSize c →
  LruCache.pin c = false → LruCache.maxSize c ≠ 0 → now' ≤ now + LruCache.ttl c ∨ LruCache.ttl c = 0 →
  ∃ c' old, Put getSize now k v c = Some (c', old) ∧ (Get now' k c').2 = Some v ∧ Size c' ≤ LruCache.maxSize c'.
Proof.
  intros Hm R Hsz L P N Ht. pose proof (cache_reachable _ _ _ _ (Z.lt_le_incl _ _ Hm) R) as [O Hv Hz]. simpl in *.
  destruct (Put getSize now k v c) as [[c' old]|] eqn:E; [|unfold Put in E; by rewrite P in E]. exists c', old. split; [done|].
  pose proof (Put_ok getSize now k v c c' old Hsz O E) as O'. destruct (Put_spec getSize now k v c c' old Hsz O N L E) as (i & e & l & L' & Hk & Hval & Hr & Hc & (C1 & C2 & C3) & _).
  split.
  - unfold Get. rewrite C1, (proj2 (Z.eqb_neq _ _) N). rewrite (proj2 (lookup_key_spec c' k i e (ok_sized _ O'))); [|split; [rewrite L'; by left|done]].
    assert (isEntryExpired c' e now' = false) as ->; [|by simpl; rewrite Hval]. unfold isEntryExpired. rewrite Hc, C2. destruct (Z.eqb_spec (LruCache.ttl c) 0) as [E0|N0]; [by rewrite andb_false_r|].
    rewrite (proj2 (Z.ltb_ge _ _)), andb_false_r; [done|]. lia.
  - destruct (ok_bounded _ O') as [B|B]; [done|]. exfalso. apply (B (i, e)); [rewrite L'; by left|done].
Qed.

(** C26 Eviction takes the least recently used entries: putting a new key leaves the front of the list as it was, takes only unpinned entries from the back of it, and
    would not have had room without the last one it took. *)
Theorem lru_evicts_oldest getSize now k v c c' x : (∀ v, 0 ≤ getSize v) → lru_ok c → maxSize c ≠ 0 → getSize v ≤ maxSize c → lookup_key c k = None →
  PutIfNotExist getSize now k v c = (c', inr x) → ∃ front back i e, byAccess c = front ++ back ∧
    byAccess c' = (i, e) :: front ++ filter (λ p, refCount p.2 ≠ 0) back ∧ key e = k ∧ value e = v ∧ x = v ∧
    (∀ b rest, back = b :: rest → maxSize c < Size c' + (if decide (refCount b.2 ≠ 0) then 0 else size b.2)) ∧
    hooks c' = hooks c ++ map (λ p, OnEvict (value p.2)) (reverse (filter (λ p, ¬ refCount p.2 ≠ 0) back)) ++ [OnPut v].
Proof.
  intros Hsz O N L Lk. unfold PutIfNotExist, putInternal. rewrite (proj2 (Z.eqb_neq _ _) N), (proj2 (Z.ltb_ge _ _) L), Lk. unfold insert_new.
  destruct (evict_loop_spec (getSize v) 0 None (reverse (byAccess c)) c [] (ok_sized _ O)) as (S' & C' & N' & P' & front & back & V1 & V2 & V3 & _ & V5).
  { by rewrite reverse_involutive, app_nil_r. }
  rewrite reverse_involutive in V1. rewrite app_nil_r in V2. unfold tryEvictUntilEnoughSpaceWithSkipEntry. simpl.
  set (c1 := evict_loop (getSize v) 0 None (reverse (byAccess c)) c) in *. unfold calculateNewCacheSize, emptyEntrySize in *.
  destruct (Z.ltb_spec (maxSize c1) (currSize c1 - 0 + getSize v)) as [Lt|Ge]; [done|].
  destruct (updateEntryRefCount c1 _) as [e pd] eqn:Eu. intros [= <- <-]. exists front, back, (nextElement c1), e.
  assert (e = new_entry c1 now k v (getSize v)) as Ee by (unfold new_entry, used; by rewrite Eu). destruct (new_entry_facts c1 now k v (getSize v)) as (F1 & F2 & _).
  assert (∀ l : list element, filter (protected None) l = filter (λ p : element, refCount p.2 ≠ 0) l) as Hf by (intros l; apply list_filter_iff, protected_none).
  assert (∀ l : list element, filter (λ p, ¬ protected None p) l = filter (λ p : element, ¬ refCount p.2 ≠ 0) l) as Hf'.
  { intros l. apply list_filter_iff. intros p. by rewrite protected_none. }
  simpl. rewrite <- Hf, <- Hf'. split_and!; [done|by rewrite V2|congruence|congruence|done| |].
  - intros b rest Eb. specialize (V5 b rest Eb). unfold Size. simpl. destruct (decide (protected None b)) as [Pb|Pb], (decide (refCount b.2 ≠ 0)) as [Q|Q]; try lia.
    + destruct Q. by apply protected_none in Pb.
    + destruct Pb. by apply protected_none.
  - by rewrite V3, <- app_assoc.
Qed.
End props.

(** ** The LRU cache: concrete runs *)

Notation cache := (lru nat nat).
Definition one : nat → Z := λ _, 1.
Lemma one_nonneg v : 0 ≤ one v.
Proof. done. Qed.

(** Two entries in a cache for two, the first one older. *)
Definition entry_at (k v : nat) (r : Z) : entryImpl nat nat := mkEntry k None v r 1.
Definition two_entries : cache :=
  mkLru [(1%nat, entry_at 2 20 0); (0%nat, entry_at 1 10 0)] (<[2%nat := 1%nat]> (<[1%nat := 0%nat]> ∅)) 2 2 2 0 0 false [OnPut 10%nat; OnPut 20%nat].
Lemma two_entries_run : cache_run 2 0 false (two_entries, <[2%nat := 20%nat]> (<[1%nat := 10%nat]> ∅)).
Proof.
  eapply rtc_l; [eapply (cs_put one 0 1%nat 10%nat); [apply one_nonneg|vm_compute; reflexivity]|].
  eapply rtc_l; [eapply (cs_put one 0 2%nat 20%nat); [apply one_nonneg|vm_compute; reflexivity]|]. apply rtc_refl.
Qed.
Lemma two_entries_ok : lru_ok two_entries.
Proof. apply (cache_reachable 2 0 false _ ltac:(lia) two_entries_run). Qed.

Lemma lru_refines_map_witness : (Get 5 1%nat two_entries).2 = Some 10%nat ∧ (<[2%nat := 20%nat]> (<[1%nat := 10%nat]> ∅) : gmap nat nat) !! 1%nat = Some 10%nat.
Proof.
  split; [reflexivity|]. destruct (lru_refines_map 2 0 false two_entries _ ltac:(lia) two_entries_run) as [H _].
  apply (H 5 1%nat (Get 5 1%nat two_entries).1 10%nat). vm_compute. reflexivity.
Defined.
Lemma lru_put_get_witness : ∃ c' old, Put one 7 3%nat 30%nat two_entries = Some (c', old) ∧ (Get 9 3%nat c').2 = Some 30%nat ∧ Size c' ≤ maxSize c'.
Proof.
  apply (lru_put_get 2 0 two_entries _ one 7 9 3%nat 30%nat ltac:(lia) two_entries_run); [apply one_nonneg|vm_compute; discriminate|done|done|by right].
Defined.
(** The older of the two entries goes. *)
Definition two_entries_next : cache := (PutIfNotExist one 7 3%nat 30%nat two_entries).1.
Lemma lru_evicts_oldest_witness : ∃ front back i e, byAccess two_entries = front ++ back ∧
  byAccess two_entries_next = (i, e) :: front ++ filter (λ p, refCount p.2 ≠ 0) back ∧ key e = 3%nat.
Proof.
  destruct (lru_evicts_oldest one 7 3%nat 30%nat two_entries two_entries_next 30%nat) as (f & b & i & e & H1 & H2 & H3 & _);
    [apply one_nonneg|apply two_entries_ok|done|vm_compute; discriminate|done|vm_compute; reflexivity|]. by exists f, b, i, e.
Defined.

(** [Put] does not say that it refused: a value larger than the whole cache is dropped, [Put] returns what it returns for a new key, and the key keeps the value it
    had, which [Get] goes on to return. *)
Lemma large_put_keeps_stale getSize now k v (c : cache) : pin c = false → maxSize c ≠ 0 → maxSize c < getSize v →
  Put getSize now k v c = Some (c, None) ∧
  ∃ (c0 : cache) M, cache_run 2 0 false (c0, M) ∧ (∀ now, (Get now 1%nat c0).2 = Some 10%nat) ∧
    ∃ c1, Put (λ v, if decide (v = 11%nat) then 3 else 1) 0 1%nat 11%nat c0 = Some (c1, None) ∧ ∀ now, (Get now 1%nat c1).2 = Some 10%nat.
Proof.
  intros P N L. split.
  - unfold Put, putInternal. by rewrite P, (proj2 (Z.eqb_neq _ _) N), (proj2 (Z.ltb_lt _ _) L).
  - eexists two_entries, _. split; [apply two_entries_run|]. split; [reflexivity|]. exists two_entries. split; [vm_compute; reflexivity|reflexivity].
Qed.
Lemma large_put_refused : Put (λ _, 3) 0 1%nat 11%nat two_entries = Some (two_entries, None).
Proof. apply (large_put_keeps_stale (λ _, 3) 0 1%nat 11%nat two_entries); [done|done|vm_compute; reflexivity]. Defined.

(** The reference counts are the callers' business: a [Release] too many makes the count negative, and the entry can no longer be evicted. *)
Lemma over_release now : ∃ c1 c2 c3 : cache,
  PutIfNotExist one now 1%nat 10%nat (NewWithMetrics 1 0 true) = (c1, inr 10%nat) ∧ Release one 1%nat (Release one 1%nat c1) = c2 ∧ map (λ p, refCount p.2) (byAccess c2) = [-1] ∧
  PutIfNotExist one now 2%nat 20%nat c2 = (c3, inl ErrCacheFull).
Proof.
  set (c1 := (PutIfNotExist one now 1%nat 10%nat (NewWithMetrics 1 0 true : cache)).1). set (c2 := Release one 1%nat (Release one 1%nat c1)).
  exists c1, c2, (PutIfNotExist one now 2%nat 20%nat c2).1. split_and!; vm_compute; reflexivity.
Qed.

(** What the panic message of [Put] recommends for a cache that pins, [Delete] and [PutIfNotExist], takes the pin from the new holder: the release of one who got the
    deleted entry is counted against the new one, which is then evicted although its holder has not released it. *)
Lemma delete_loses_pin now : ∃ c1 c2 c3 c4 c5 : cache,
  PutIfNotExist one now 1%nat 10%nat (NewWithMetrics 1 0 true) = (c1, inr 10%nat) ∧ Delete 1%nat c1 = c2 ∧
  PutIfNotExist one now 1%nat 11%nat c2 = (c3, inr 11%nat) ∧ Release one 1%nat c3 = c4 ∧
  PutIfNotExist one now 2%nat 20%nat c4 = (c5, inr 20%nat) ∧ (Get now 1%nat c5).2 = None ∧
  (PutIfNotExist one now 2%nat 20%nat c3).2 = inl ErrCacheFull ∧
  pinnedSize c2 = 1 ∧ byAccess c2 = [].
Proof.
  set (c1 := (PutIfNotExist one now 1%nat 10%nat (NewWithMetrics 1 0 true : cache)).1). set (c2 := Delete 1%nat c1). set (c3 := (PutIfNotExist one now 1%nat 11%nat c2).1).
  set (c4 := Release one 1%nat c3). exists c1, c2, c3, c4, (PutIfNotExist one now 2%nat 20%nat c4).1. split_and!; vm_compute; reflexivity.
Qed.
