(* ===== verification/Semaphore.v ===== *)
(** * The priority semaphore ([common/locks/priority_semaphore_impl.go])

    A call of [Acquire] that has to wait puts a waiter in the list of its priority and blocks on a channel; a channel is a number, and [ready] are the
    closed ones.  What is done under the semaphore's own lock is one function. *)
From S2P Require Import Prelude.
Local Open Scope Z_scope.

Definition PriorityHigh : nat := 0.
Definition PriorityLow : nat := 1.
Definition NumPriorities : nat := 2.

Record waiter := mkWaiter { channel : nat; w_n : Z }.
Record PrioritySemaphoreImpl := mkSemaphore { ssize : Z; cur : Z; waitLists : list (list waiter); ready : gset nat }.

Definition NewPrioritySemaphore (n : Z) : PrioritySemaphoreImpl := mkSemaphore n 0 (replicate NumPriorities []) ∅.

Definition noWaiters (s : PrioritySemaphoreImpl) : bool := forallb (λ l, bool_decide (l = [])) (waitLists s).

(** One list: the waiters that are left, the channels that are closed, and whether the next waiter does not fit. *)
Fixpoint notify_list (size cur : Z) (l : list waiter) : Z * list waiter * list nat * bool :=
  match l with
  | [] => (cur, [], [], false)
  | w :: rest =>
      if size - cur <? w_n w then (cur, l, [], true)
      else let '(cur, rest, closed, stop) := notify_list size (cur + w_n w) rest in (cur, rest, channel w :: closed, stop)
  end.
Fixpoint notify_lists (size cur : Z) (ls : list (list waiter)) : Z * list (list waiter) * list nat :=
  match ls with
  | [] => (cur, [], [])
  | l :: ls =>
      let '(cur, l, closed, stop) := notify_list size cur l in
      if stop : bool then (cur, l :: ls, closed)
      else let '(cur, ls, closed') := notify_lists size cur ls in (cur, l :: ls, closed ++ closed')
  end.
Definition notifyWaiters (s : PrioritySemaphoreImpl) : PrioritySemaphoreImpl :=
  let '(cur, ls, closed) := notify_lists (ssize s) (cur s) (waitLists s) in
  mkSemaphore (ssize s) cur ls (ready s ∪ list_to_set closed).

(** ** [Acquire] *)

Inductive acquire_result := Acquired | CtxDone | ErrRequestTooLarge | Waiting.
(** Up to the first [Unlock]; [done] is whether the context is done, [ch] the new channel.  A panic is [None]. *)
Definition acquire_start (done : bool) (priority : nat) (n : Z) (ch : nat) (s : PrioritySemaphoreImpl) : option (PrioritySemaphoreImpl * acquire_result) :=
  if (NumPriorities <=? priority)%nat then None
  else if done then Some (s, CtxDone)
  else if (n <=? ssize s - cur s) && noWaiters s then Some (mkSemaphore (ssize s) (cur s + n) (waitLists s) (ready s), Acquired)
  else if ssize s <? n then Some (s, ErrRequestTooLarge)
  else Some (mkSemaphore (ssize s) (cur s) (alter (λ l, l ++ [mkWaiter ch n]) priority (waitLists s)) (ready s), Waiting).
(** The context is done while waiting. *)
Definition isFront (ch : nat) (l : list waiter) : bool := match l with w :: _ => bool_decide (channel w = ch) | [] => false end.
Definition acquire_done (priority : nat) (n : Z) (ch : nat) (s : PrioritySemaphoreImpl) : PrioritySemaphoreImpl :=
  if bool_decide (ch ∈ ready s) then notifyWaiters (mkSemaphore (ssize s) (cur s - n) (waitLists s) (ready s))
  else
    let front := isFront ch (default [] (waitLists s !! priority)) in
    let s := mkSemaphore (ssize s) (cur s) (alter (filter (λ w, channel w ≠ ch)) priority (waitLists s)) (ready s) in
    if front && (cur s <? ssize s) then notifyWaiters s else s.

(** A panic is [None]. *)
Definition Release (n : Z) (s : PrioritySemaphoreImpl) : option PrioritySemaphoreImpl :=
  if cur s - n <? 0 then None else Some (notifyWaiters (mkSemaphore (ssize s) (cur s - n) (waitLists s) (ready s))).
(** The channel is closed; the tokens are put back if the context is done by now. *)
Definition acquire_ready (done : bool) (n : Z) (s : PrioritySemaphoreImpl) : option (PrioritySemaphoreImpl * acquire_result) :=
  if done then s ← Release n s; Some (s, CtxDone) else Some (s, Acquired).
Definition TryAcquire (n : Z) (s : PrioritySemaphoreImpl) : PrioritySemaphoreImpl * bool :=
  if (n <=? ssize s - cur s) && noWaiters s then (mkSemaphore (ssize s) (cur s + n) (waitLists s) (ready s), true) else (s, false).

(** ** Sums over the calls that have tokens *)

Definition tokens (G : gmap nat Z) : Z := map_fold (λ _ n acc, n + acc) 0 G.
Lemma tokens_insert G i n : G !! i = None → tokens (<[i := n]> G) = n + tokens G.
Proof. intros E. unfold tokens. rewrite map_fold_insert_L; [done| |done]. intros. lia. Qed.
Lemma tokens_delete G i n : G !! i = Some n → tokens (delete i G) = tokens G - n.
Proof.
  intros E. rewrite <- (insert_id G i n) at 2 by done. rewrite <- insert_delete_eq, tokens_insert; [lia|]. apply lookup_delete_eq.
Qed.
Lemma tokens_nonneg G : (∀ i n, G !! i = Some n → 0 ≤ n) → 0 ≤ tokens G.
Proof.
  induction G as [|i n G E IH] using map_ind; [done|]. intros Hn. rewrite tokens_insert by done. pose proof (Hn i n (lookup_insert_eq _ _ _)).
  assert (0 ≤ tokens G); [|lia]. apply IH. intros j m Ej. apply (Hn j). rewrite lookup_insert_ne; [done|]. congruence.
Qed.
Lemma tokens_ge G i n : (∀ i n, G !! i = Some n → 0 ≤ n) → G !! i = Some n → n ≤ tokens G.
Proof.
  intros Hn E. pose proof (tokens_delete G i n E). assert (0 ≤ tokens (delete i G)); [|lia]. apply tokens_nonneg. intros j m. rewrite lookup_delete_Some. naive_solver.
Qed.
Lemma tokens_pair G i j n m : (∀ i n, G !! i = Some n → 0 ≤ n) → i ≠ j → G !! i = Some n → G !! j = Some m → n + m ≤ tokens G.
Proof.
  intros Hn N Ei Ej. pose proof (tokens_delete G i n Ei). assert (m ≤ tokens (delete i G)); [|lia]. apply (tokens_ge _ j); [|by rewrite lookup_delete_ne].
  intros k x. rewrite lookup_delete_Some. naive_solver.
Qed.
(** The waiters that get their tokens. *)
Definition grant (g : list waiter) (G : gmap nat Z) : gmap nat Z := foldr (λ w G, <[channel w := w_n w]> G) G g.
Definition demand (g : list waiter) : Z := foldr (λ w n, w_n w + n) 0 g.
Lemma grant_lookup_other g G i : i ∉ map channel g → grant g G !! i = G !! i.
Proof.
  induction g as [|w g IH]; [done|]. simpl. rewrite not_elem_of_cons. intros [N H]. rewrite lookup_insert_ne by congruence. by apply IH.
Qed.
Lemma grant_lookup g G w : NoDup (map channel g) → w ∈ g → grant g G !! channel w = Some (w_n w).
Proof.
  induction g as [|w' g IH]; [by intros _ ?%not_elem_of_nil|]. simpl. intros [N D]%NoDup_cons [->|Hw]%elem_of_cons; [apply lookup_insert_eq|].
  rewrite lookup_insert_ne; [by apply IH|]. intros E. apply N. rewrite E. apply list_elem_of_fmap. by exists w.
Qed.
Lemma tokens_grant g G : NoDup (map channel g) → (∀ w, w ∈ g → G !! channel w = None) → tokens (grant g G) = demand g + tokens G.
Proof.
  induction g as [|w g IH]; [done|]. simpl. intros [N D]%NoDup_cons Hg. rewrite tokens_insert.
  - rewrite IH; [lia|done|]. intros w' Hw. apply Hg. by right.
  - rewrite grant_lookup_other by done. apply Hg. by left.
Qed.
