(* ===== verification/SemaphoreProps.v ===== *)
(** * The priority semaphore: what its operations keep, and all its calls, interleaved *)
From S2P Require Import Prelude Semaphore.
Local Open Scope Z_scope.
Implicit Types (s : PrioritySemaphoreImpl) (G : gmap nat Z) (W : gmap nat (nat * Z)) (ls : list (list waiter)) (w : waiter).

(** ** The invariant

    [G] has the tokens of the calls that have them, whether they know or not; [W] has the calls that wait. *)

Definition listed ls (p : nat) w : Prop := ∃ l, ls !! p = Some l ∧ w ∈ l.
Lemma listed_concat ls w : w ∈ concat ls ↔ ∃ p, listed ls p w.
Proof.
  unfold listed. induction ls as [|l ls IH]; simpl.
  - split; [by intros ?%not_elem_of_nil|]. by intros (p & l & ? & _).
  - rewrite elem_of_app, IH. split.
    + intros [Hw|(p & l' & E & Hw)]; [by exists 0%nat, l|by exists (S p), l'].
    + intros ([|p] & l' & E & Hw); simpl in E; [injection E as ->; by left|right; by exists p, l'].
Qed.

Record sem_core s G W : Prop := {
  se_size : 0 < ssize s;
  se_cur : cur s = tokens G;
  se_bound : cur s ≤ ssize s;
  se_lists : length (waitLists s) = NumPriorities;
  se_listed : ∀ p w, listed (waitLists s) p w → W !! channel w = Some (p, w_n w) ∧ channel w ∉ ready s ∧ G !! channel w = None;
  se_waits : ∀ i p n, W !! i = Some (p, n) → i ∉ ready s → listed (waitLists s) p (mkWaiter i n);
  se_ready : ∀ i p n, W !! i = Some (p, n) → i ∈ ready s → G !! i = Some n;
  se_nodup : NoDup (map channel (concat (waitLists s)));
  se_nonneg : ∀ i n, G !! i = Some n → 0 ≤ n;
  se_demand : ∀ i p n, W !! i = Some (p, n) → 0 ≤ n ≤ ssize s }.
(** Nobody waits for nothing. *)
Definition sem_wake s : Prop := concat (waitLists s) ≠ [] → 0 < cur s.
Definition sem_ok s G W : Prop := sem_core s G W ∧ sem_wake s.

(** ** Waking *)

Lemma notify_list_spec size c l c' l' closed stop : notify_list size c l = (c', l', closed, stop) → ∃ g, l = g ++ l' ∧ closed = map channel g ∧
  c' = c + demand g ∧ (c ≤ size → c' ≤ size) ∧ (if stop : bool then ∃ w r, l' = w :: r ∧ size - c' < w_n w else l' = []).
Proof.
  revert c c' l' closed stop. induction l as [|w l IH]; intros c c' l' closed stop; simpl.
  - intros [= <- <- <- <-]. exists []. split_and!; try done. simpl. lia.
  - destruct (Z.ltb_spec (size - c) (w_n w)) as [L|L].
    + intros [= <- <- <- <-]. exists []. split_and!; try done; [simpl; lia|]. by exists w, l.
    + destruct (notify_list size (c + w_n w) l) as [[[c1 l1] cl] st] eqn:E. intros [= <- <- <- <-].
      destruct (IH _ _ _ _ _ E) as (g & -> & -> & -> & H1 & H2). exists (w :: g). split_and!; try done; simpl; lia.
Qed.
(** The granted prefixes [gs] of the lists; a lower list is touched only when the higher ones are empty. *)
Lemma notify_lists_spec size c ls c' ls' closed : notify_lists size c ls = (c', ls', closed) → ∃ gs, length gs = length ls ∧ length ls' = length ls ∧
  ls = zip_with app gs ls' ∧ closed = map channel (concat gs) ∧ c' = c + demand (concat gs) ∧ (c ≤ size → c' ≤ size) ∧
  (∀ w, head (concat ls') = Some w → size - c' < w_n w) ∧ (∀ p q g, (p < q)%nat → gs !! q = Some g → g ≠ [] → ls' !! p = Some []).
Proof.
  revert c c' ls' closed. induction ls as [|l ls IH]; intros c c' ls' closed; simpl.
  - intros [= <- <- <-]. exists []. split_and!; try done. simpl. lia.
  - destruct (notify_list size c l) as [[[c1 l1] cl] stop] eqn:E. apply notify_list_spec in E as (g & -> & -> & -> & B1 & Hstop). destruct stop.
    + intros [= <- <- <-]. destruct Hstop as (w & r & -> & Hw). exists (g :: replicate (length ls) []). simpl. rewrite length_replicate.
      assert (zip_with app (replicate (length ls) []) ls = ls) as Hz by (clear; induction ls as [|l ls IH]; [done|]; simpl; by rewrite IH).
      assert (concat (replicate (length ls) ([] : list waiter)) = []) as Hc by (clear; induction (length ls); [done|done]).
      rewrite Hz, Hc, app_nil_r. split_and!; try done.
      * intros w'. simpl. by intros [= <-].
      * intros p [|q] g' Hpq Hq Hg; [lia|]. simpl in Hq. apply lookup_replicate in Hq as [-> _]. done.
    + subst l1. destruct (notify_lists size (c + demand g) ls) as [[c2 ls2] cl2] eqn:E2. intros [= <- <- <-].
      destruct (IH _ _ _ _ E2) as (gs & L1 & L2 & -> & -> & -> & B2 & Hw & Hp). exists (g :: gs). simpl. rewrite map_app.
      split_and!; try done; try lia.
      * assert (demand (g ++ concat gs) = demand g + demand (concat gs)) as ->; [|lia]. clear. induction g as [|w g IH]; [done|]. simpl. lia.
      * intros [|p] [|q] g' Hpq Hq Hg; try lia; [done|]. simpl in *. apply (Hp p q g'); [lia|done|done].
Qed.
Lemma concat_zip gs ls : length gs = length ls → concat (zip_with app gs ls) ≡ₚ concat gs ++ concat ls.
Proof.
  revert ls. induction gs as [|g gs IH]; intros [|l ls] L; try done. simpl. rewrite (IH ls) by (simpl in L; lia). rewrite <- !app_assoc. f_equiv.
  rewrite !app_assoc. f_equiv. apply Permutation_app_comm.
Qed.
Lemma listed_zip gs ls p w : length gs = length ls → listed (zip_with app gs ls) p w ↔ listed gs p w ∨ listed ls p w.
Proof.
  intros L. unfold listed. setoid_rewrite lookup_zip_with_Some. split.
  - intros (l & (g & k & -> & Hg & Hk) & [Hw|Hw]%elem_of_app); [left; by exists g|right; by exists k].
  - intros [(g & Hg & Hw)|(k & Hk & Hw)].
    + destruct (lookup_lt_is_Some_2 ls p) as [k Hk]; [rewrite <- L; by eapply lookup_lt_Some|]. exists (g ++ k). split; [by exists g, k|]. apply elem_of_app. by left.
    + destruct (lookup_lt_is_Some_2 gs p) as [g Hg]; [rewrite L; by eapply lookup_lt_Some|]. exists (g ++ k). split; [by exists g, k|]. apply elem_of_app. by right.
Qed.

Lemma notify_ok s G W : sem_core s G W → ∃ G', sem_ok (notifyWaiters s) G' W ∧ (∀ i, W !! i = None → G' !! i = G !! i) ∧ ssize (notifyWaiters s) = ssize s.
Proof.
  intros [H1 H2 H3 H4 H5 H6 H7 H8 H9 H10]. unfold notifyWaiters. destruct (notify_lists (ssize s) (cur s) (waitLists s)) as [[c' ls'] closed] eqn:E.
  apply notify_lists_spec in E as (gs & L1 & L2 & El & -> & -> & B & Hw & _). assert (length gs = length ls') as L3 by congruence.
  pose proof (concat_zip gs ls' L3) as P. rewrite <- El in P. rewrite P, map_app in H8. apply NoDup_app in H8 as (D1 & D2 & D3).
  assert (∀ p w, listed (waitLists s) p w ↔ listed gs p w ∨ listed ls' p w) as Hl by (intros p w; rewrite El; by apply listed_zip).
  assert (∀ w, w ∈ concat gs → ∃ p, W !! channel w = Some (p, w_n w) ∧ channel w ∉ ready s ∧ G !! channel w = None) as Hg.
  { intros w [p Hp]%listed_concat. exists p. apply H5. apply Hl. by left. }
  exists (grant (concat gs) G). split; [split; [split|]|split; [|done]]; simpl; try done.
  - rewrite H2, tokens_grant; [lia|done|]. intros w Hw'. by destruct (Hg w Hw') as (p & _ & _ & ?).
  - by apply B.
  - congruence.
  - intros p w Hp. destruct (H5 p w) as (F1 & F2 & F3); [apply Hl; by right|].
    assert (channel w ∉ map channel (concat gs)) as Nw.
    { intros X. apply (D2 _ X). apply list_elem_of_fmap. exists w. split; [done|]. apply listed_concat. by exists p. }
    split_and!; [done| |by rewrite grant_lookup_other]. rewrite elem_of_union, elem_of_list_to_set. tauto.
  - intros i p n Hi. rewrite elem_of_union, elem_of_list_to_set. intros Ni. assert (listed (waitLists s) p (mkWaiter i n)) as Hp by (apply H6; [done|tauto]).
    apply Hl in Hp as [Hp|Hp]; [|done]. destruct Ni. right. apply list_elem_of_fmap. exists (mkWaiter i n). split; [done|]. apply listed_concat. by exists p.
  - intros i p n Hi. rewrite elem_of_union, elem_of_list_to_set. intros [Hr|Hr].
    + rewrite grant_lookup_other; [by eapply H7|]. intros (w & -> & Hw')%list_elem_of_fmap. destruct (Hg w Hw') as (q & _ & ? & _). done.
    + apply list_elem_of_fmap in Hr as (w & -> & Hw'). destruct (Hg w Hw') as (q & Eq & _). rewrite grant_lookup by done. congruence.
  - intros i n. destruct (decide (i ∈ map channel (concat gs))) as [X|X]; [|rewrite grant_lookup_other by done; apply H9].
    apply list_elem_of_fmap in X as (w & -> & Hw'). rewrite grant_lookup by done. intros [= <-]. destruct (Hg w Hw') as (q & Eq & _). by eapply H10.
  - intros Hne. simpl in Hne |- *. destruct (concat ls') as [|w r] eqn:Ec; [done|]. pose proof (Hw w eq_refl) as Hlt.
    assert (w ∈ concat ls') as [p Hp]%listed_concat by (rewrite Ec; by left). destruct (H5 p w) as (F1 & _); [apply Hl; by right|].
    destruct (H10 _ _ _ F1). lia.
  - intros i Hi. apply grant_lookup_other. intros (w & -> & Hw')%list_elem_of_fmap. destruct (Hg w Hw') as (q & Eq & _). congruence.
Qed.

(** ** The operations *)

Lemma noWaiters_spec s : noWaiters s = true ↔ concat (waitLists s) = [].
Proof.
  unfold noWaiters. induction (waitLists s) as [|l ls IH]; simpl; [done|]. rewrite andb_true_iff, bool_decide_eq_true, IH. split; [by intros [-> ->]|].
  by intros [-> ->]%app_eq_nil.
Qed.
Lemma listed_alter f ls p q w : listed (alter f p ls) q w ↔ ∃ l, ls !! q = Some l ∧ w ∈ (if decide (p = q) then f l else l).
Proof.
  unfold listed. destruct (decide (p = q)) as [->|N].
  - rewrite list_lookup_alter_eq. setoid_rewrite fmap_Some. naive_solver.
  - by rewrite list_lookup_alter_ne.
Qed.
Lemma concat_alter_snoc ls p w : (p < length ls)%nat → concat (alter (λ l, l ++ [w]) p ls) ≡ₚ w :: concat ls.
Proof.
  revert p. induction ls as [|l ls IH]; intros [|p] Hp; simpl in Hp; try lia.
  - simpl. rewrite <- app_assoc. symmetry. apply Permutation_middle.
  - transitivity (l ++ w :: concat ls); [|symmetry; apply Permutation_middle]. apply Permutation_app_head, IH. lia.
Qed.
Lemma sublist_concat_filter (P : waiter → Prop) `{∀ w, Decision (P w)} ls p : concat (alter (filter P) p ls) `sublist_of` concat ls.
Proof.
  revert p. induction ls as [|l ls IH]; intros [|p]; [done|done|..].
  - apply sublist_app; [apply sublist_filter|done].
  - apply sublist_app; [done|apply IH].
Qed.

(** Tokens are taken by a call that did not have any. *)
Lemma take_core s G W ch n : sem_core s G W → G !! ch = None → W !! ch = None → 0 ≤ n → cur s + n ≤ ssize s →
  sem_core (mkSemaphore (ssize s) (cur s + n) (waitLists s) (ready s)) (<[ch := n]> G) W.
Proof.
  intros [H1 H2 H3 H4 H5 H6 H7 H8 H9 H10] Hg Hw Hn L. split; simpl; try done.
  - rewrite tokens_insert by done. lia.
  - intros p w Hp. destruct (H5 p w Hp) as (? & ? & ?). split_and!; try done. rewrite lookup_insert_ne; [done|]. congruence.
  - intros i p m Hi Hr. rewrite lookup_insert_ne; [by eapply H7|]. congruence.
  - intros i m. destruct (decide (i = ch)) as [->|N]; [rewrite lookup_insert_eq; by intros [= <-]|rewrite lookup_insert_ne by done; apply H9].
Qed.
Lemma start_ok done p n ch s s' r G W : sem_ok s G W → G !! ch = None → W !! ch = None → ch ∉ ready s → 0 ≤ n →
  acquire_start done p n ch s = Some (s', r) → ssize s' = ssize s ∧ match r with
  | Acquired => sem_ok s' (<[ch := n]> G) W ∧ concat (waitLists s) = []
  | Waiting => sem_ok s' G (<[ch := (p, n)]> W) ∧ ready s' = ready s
  | _ => s' = s
  end.
Proof.
  intros [C Wk] Hg Hw Hr Hn. unfold acquire_start. destruct (Nat.leb_spec NumPriorities p) as [|Lp]; [done|]. destruct done; [by intros [= <- <-]|].
  destruct ((n <=? ssize s - cur s) && noWaiters s) eqn:Ef.
  { apply andb_true_iff in Ef as [L%Z.leb_le Nw]. intros [= <- <-]. split; [done|]. apply noWaiters_spec in Nw. split; [|done]. split; [apply take_core; auto; lia|].
    intros Hne. simpl in Hne. by rewrite Nw in Hne. }
  destruct (Z.ltb_spec (ssize s) n) as [|Ln]; [by intros [= <- <-]|]. intros [= <- <-]. split; [done|]. split; [|done].
  destruct C as [H1 H2 H3 H4 H5 H6 H7 H8 H9 H10]. assert (p < length (waitLists s))%nat as Hp by lia.
  assert (∀ q w, listed (alter (λ l, l ++ [mkWaiter ch n]) p (waitLists s)) q w ↔ listed (waitLists s) q w ∨ q = p ∧ w = mkWaiter ch n) as Hl.
  { intros q w. rewrite listed_alter. unfold listed. destruct (decide (p = q)) as [<-|N].
    - destruct (lookup_lt_is_Some_2 _ _ Hp) as [l0 E0]. rewrite E0. split.
      + intros (l & [= <-] & [Hx|Hx]%elem_of_app); [left; by exists l0|apply list_elem_of_singleton in Hx; by right].
      + intros [(l & [= <-] & Hx)|[_ ->]]; exists l0; split; try done; apply elem_of_app; [by left|right; by left].
    - split; [by left|]. intros [?|[-> _]]; done. }
  split.
  - split; simpl; try done.
    + by rewrite length_alter.
    + intros q w [Hq|[-> ->]]%Hl.
      * destruct (H5 q w Hq) as (F1 & F2 & F3). split_and!; try done. rewrite lookup_insert_ne; [done|]. congruence.
      * simpl. by rewrite lookup_insert_eq.
    + intros i q m. destruct (decide (i = ch)) as [->|N]; [rewrite lookup_insert_eq; intros [= <- <-] _; apply Hl; by right|].
      rewrite lookup_insert_ne by done. intros Hi Ni. apply Hl. left. by apply H6.
    + intros i q m. destruct (decide (i = ch)) as [->|N]; [done|]. rewrite lookup_insert_ne by done. apply H7.
    + rewrite concat_alter_snoc by done. simpl. apply NoDup_cons. split; [|done]. intros (w & E & [q Hq]%listed_concat)%list_elem_of_fmap.
      destruct (H5 q w Hq) as (F1 & _). congruence.
    + intros i q m. destruct (decide (i = ch)) as [->|N]; [rewrite lookup_insert_eq; by intros [= <- <-]|rewrite lookup_insert_ne by done; apply H10].
  - intros _. simpl. destruct (Z.lt_ge_cases 0 (cur s)) as [|L0]; [done|]. exfalso. assert (noWaiters s = true) as Nw.
    { apply noWaiters_spec. destruct (concat (waitLists s)) eqn:Ec; [done|]. specialize (Wk ltac:(by rewrite Ec)). lia. }
    rewrite Nw, andb_true_r in Ef. apply Z.leb_gt in Ef. lia.
Qed.

(** Tokens are put back by a call that does not wait. *)
Lemma put_back_core s G W i n : sem_core s G W → G !! i = Some n → W !! i = None →
  sem_core (mkSemaphore (ssize s) (cur s - n) (waitLists s) (ready s)) (delete i G) W.
Proof.
  intros [H1 H2 H3 H4 H5 H6 H7 H8 H9 H10] Hg Hw. pose proof (H9 _ _ Hg). split; simpl; try done.
  - rewrite (tokens_delete G i n) by done. lia.
  - lia.
  - intros p w Hp. destruct (H5 p w Hp) as (? & ? & ?). split_and!; try done. by rewrite lookup_delete_None; right.
  - intros j p m Hj Hr. rewrite lookup_delete_ne; [by eapply H7|]. congruence.
  - intros j m [_ Hj]%lookup_delete_Some. by eapply H9.
Qed.
(** A call that waits and is ready stops waiting. *)
Lemma unwait_core s G W i p n : sem_core s G W → W !! i = Some (p, n) → i ∈ ready s → sem_core s G (delete i W).
Proof.
  intros [H1 H2 H3 H4 H5 H6 H7 H8 H9 H10] Hi Hr. split; try done.
  - intros q w Hq. destruct (H5 q w Hq) as (F1 & F2 & F3). split_and!; try done. rewrite lookup_delete_ne; [done|]. intros ->. done.
  - intros j q m [_ Hj]%lookup_delete_Some. by apply H6.
  - intros j q m [_ Hj]%lookup_delete_Some. by eapply H7.
  - intros j q m [_ Hj]%lookup_delete_Some. by eapply H10.
Qed.

(** What a call leaves as it is: the tokens of calls that do not wait. *)
Definition frame_except (i : nat) W G G' : Prop := ∀ j, j ≠ i → W !! j = None → G' !! j = G !! j.

Lemma release_ok s G W i n : sem_ok s G W → G !! i = Some n → W !! i = None →
  ∃ s' G', Release n s = Some s' ∧ sem_ok s' G' W ∧ G' !! i = None ∧ frame_except i W G G' ∧ ssize s' = ssize s.
Proof.
  intros [C _] Hg Hw. pose proof (put_back_core s G W i n C Hg Hw) as C'. unfold Release. destruct (Z.ltb_spec (cur s - n) 0) as [L|L].
  { exfalso. pose proof (tokens_ge G i n (se_nonneg _ _ _ C) Hg). rewrite <- (se_cur _ _ _ C) in *. lia. }
  destruct (notify_ok _ _ _ C') as (G' & O & F & Sz). eexists _, G'. split; [done|]. split_and!; [done|by rewrite F, lookup_delete_eq| |done].
  intros j N Hj. by rewrite F, lookup_delete_ne by done.
Qed.
Lemma done_ok s G W ch p n : sem_ok s G W → W !! ch = Some (p, n) →
  ∃ G', sem_ok (acquire_done p n ch s) G' (delete ch W) ∧ G' !! ch = None ∧ frame_except ch W G G' ∧ ssize (acquire_done p n ch s) = ssize s.
Proof.
  intros [C Wk] Hw. unfold acquire_done. case_bool_decide as Hr.
  - pose proof (se_ready _ _ _ C _ _ _ Hw Hr) as Hg. apply (unwait_core _ _ _ ch p n) in C; [|done..].
    pose proof (put_back_core _ _ _ ch n C Hg (lookup_delete_eq _ _)) as C'. destruct (notify_ok _ _ _ C') as (G' & O & F & Sz). exists G'.
    split_and!; [done|by rewrite F, lookup_delete_eq by apply lookup_delete_eq| |done]. intros j N Hj. rewrite F, lookup_delete_ne by (done || by rewrite lookup_delete_ne). done.
  - set (s1 := mkSemaphore _ _ _ _). assert (sem_core s1 G (delete ch W) ∧ G !! ch = None) as [C' Hg].
    { destruct C as [H1 H2 H3 H4 H5 H6 H7 H8 H9 H10]. assert (listed (waitLists s) p (mkWaiter ch n)) as Hch by by apply H6.
      assert (∀ q w, listed (alter (filter (λ w, channel w ≠ ch)) p (waitLists s)) q w ↔ listed (waitLists s) q w ∧ channel w ≠ ch) as Hl.
      { intros q w. rewrite listed_alter. unfold listed. destruct (decide (p = q)) as [<-|N]; [setoid_rewrite list_elem_of_filter; naive_solver|].
        split; [|naive_solver]. intros (l & El & Hl'). split; [by exists l|]. intros <-. assert (listed (waitLists s) q w) as Hq by by exists l.
        destruct (H5 q w Hq) as (F1 & _). congruence. }
      split; [|by destruct (H5 _ _ Hch) as (_ & _ & ?)]. split; simpl; try done.
      - by rewrite length_alter.
      - intros q w [Hq Nw]%Hl. destruct (H5 q w Hq) as (F1 & F2 & F3). split_and!; try done. by rewrite lookup_delete_ne by done.
      - intros j q m [N Hj]%lookup_delete_Some Nr. apply Hl. split; [by apply H6|done].
      - intros j q m [N Hj]%lookup_delete_Some. by eapply H7.
      - eapply sublist_NoDup; [exact H8|]. apply fmap_sublist, sublist_concat_filter.
      - intros j q m [_ Hj]%lookup_delete_Some. by eapply H10. }
    destruct (isFront ch (default [] (waitLists s !! p)) && (cur s1 <? ssize s1)) eqn:E.
    + destruct (notify_ok _ _ _ C') as (G' & O & F & Sz). exists G'. split_and!; [done|by rewrite F by apply lookup_delete_eq| |done].
      intros j N Hj. by rewrite F by by rewrite lookup_delete_ne.
    + exists G. split_and!; try done. split; [done|]. intros Hne. simpl. apply Wk. intros Hc. apply Hne. simpl.
      pose proof (sublist_concat_filter (λ w, channel w ≠ ch) (waitLists s) p) as Sb. rewrite Hc in Sb. by apply sublist_nil_r in Sb.
Qed.

(** ** The priority semaphore: all its calls, interleaved *)

(** A call of [Acquire] is known by its channel: it waits, or it has its tokens. *)
Inductive call := Waits (priority : nat) (n : Z) | Has (n : Z).
Record sem_state := mkSem { sem : PrioritySemaphoreImpl; calls : gmap nat call }.
Definition sem_init (size : Z) : sem_state := mkSem (NewPrioritySemaphore size) ∅.
(** What the start of a call leaves behind. *)
Definition started (ch priority : nat) (n : Z) (r : acquire_result) (C : gmap nat call) : gmap nat call :=
  match r with Acquired => <[ch := Has n]> C | Semaphore.Waiting => <[ch := Waits priority n]> C | _ => C end.
Definition woken (ch : nat) (n : Z) (r : acquire_result) (C : gmap nat call) : gmap nat call :=
  match r with Acquired => <[ch := Has n]> C | _ => delete ch C end.

(** One critical section of one call; [None] is a panic.  A new call has a new channel, asks for a non-negative number of tokens and has a priority
    that exists; only a call that has its tokens releases them. *)
Inductive sem_step : sem_state → option sem_state → Prop :=
  | Step_start s C ch done p n : C !! ch = None → ch ∉ ready s → 0 ≤ n → (p < NumPriorities)%nat →
      sem_step (mkSem s C) ('(s, r) ← acquire_start done p n ch s; Some (mkSem s (started ch p n r C)))
  | Step_cancel s C ch p n : C !! ch = Some (Waits p n) → sem_step (mkSem s C) (Some (mkSem (acquire_done p n ch s) (delete ch C)))
  | Step_ready s C ch done p n : C !! ch = Some (Waits p n) → ch ∈ ready s →
      sem_step (mkSem s C) ('(s, r) ← acquire_ready done n s; Some (mkSem s (woken ch n r C)))
  | Step_try s C ch n : C !! ch = None → ch ∉ ready s → 0 ≤ n →
      sem_step (mkSem s C) (let '(s, ok) := TryAcquire n s in Some (mkSem s (if ok : bool then <[ch := Has n]> C else C)))
  | Step_release s C ch n : C !! ch = Some (Has n) → sem_step (mkSem s C) (s ← Release n s; Some (mkSem s (delete ch C))).
Inductive sem_reachable (size : Z) : sem_state → Prop :=
  | Sem_init : sem_reachable size (sem_init size)
  | Sem_step σ σ' : sem_reachable size σ → sem_step σ (Some σ') → sem_reachable size σ'.

(** ** The calls and the invariant *)

Definition waits (C : gmap nat call) : gmap nat (nat * Z) := omap (λ c, match c with Waits p n => Some (p, n) | Has _ => None end) C.
Definition holders (C : gmap nat call) : gmap nat Z := omap (λ c, match c with Has n => Some n | Waits _ _ => None end) C.
Definition calls_ok (C : gmap nat call) (G : gmap nat Z) : Prop :=
  ∀ i, match C !! i with Some (Has n) => G !! i = Some n | Some (Waits _ _) => True | None => G !! i = None end.
Definition state_ok (size : Z) (σ : sem_state) : Prop := ∃ G, sem_ok (sem σ) G (waits (calls σ)) ∧ calls_ok (calls σ) G ∧ ssize (sem σ) = size.

Lemma waits_lookup C i : waits C !! i = match C !! i with Some (Waits p n) => Some (p, n) | _ => None end.
Proof. unfold waits. rewrite lookup_omap. by destruct (C !! i) as [[]|]. Qed.
Lemma waits_delete C i : waits (delete i C) = delete i (waits C).
Proof. apply omap_delete. Qed.
Lemma waits_has C i n : waits (<[i := Has n]> C) = delete i (waits C).
Proof. unfold waits. by rewrite omap_insert. Qed.
Lemma waits_waits C i p n : waits (<[i := Waits p n]> C) = <[i := (p, n)]> (waits C).
Proof. unfold waits. by rewrite omap_insert. Qed.
Lemma calls_ok_delete C G G' i : calls_ok C G → G' !! i = None → (∀ j, j ≠ i → waits C !! j = None → G' !! j = G !! j) → calls_ok (delete i C) G'.
Proof.
  intros H Hi F j. destruct (decide (j = i)) as [->|N]; [by rewrite lookup_delete_eq|]. rewrite lookup_delete_ne by done. specialize (F j N). rewrite waits_lookup in F.
  specialize (H j). destruct (C !! j) as [[]|]; [done|..]; by rewrite F.
Qed.
Lemma calls_ok_has C G i n : calls_ok C G → calls_ok (<[i := Has n]> C) (<[i := n]> G).
Proof.
  intros H j. destruct (decide (j = i)) as [->|N]; [by rewrite !lookup_insert_eq|]. rewrite !lookup_insert_ne by done. apply H.
Qed.
Lemma tokens_sub (H G : gmap nat Z) : (∀ i n, G !! i = Some n → 0 ≤ n) → H ⊆ G → tokens H ≤ tokens G.
Proof.
  revert G. induction H as [|i n H E IH] using map_ind; intros G Hn S; [by apply tokens_nonneg|].
  assert (G !! i = Some n) as Gi by (apply (lookup_weaken (<[i := n]> H)); [apply lookup_insert_eq|done]). rewrite tokens_insert by done.
  pose proof (tokens_delete G i n Gi). assert (tokens H ≤ tokens (delete i G)); [|lia]. apply IH.
  - intros j m [_ Hj]%lookup_delete_Some. by eapply Hn.
  - rewrite <- (delete_insert_id H i n) by done. by apply delete_mono.
Qed.
Lemma holders_sub C G : calls_ok C G → holders C ⊆ G.
Proof.
  intros H. apply map_subseteq_spec. intros i n. unfold holders. rewrite lookup_omap. specialize (H i). destruct (C !! i) as [[|m]|]; simpl; [done| |done].
  by intros [= <-].
Qed.

(** ** Every step *)

Lemma sem_init_ok size : 0 < size → state_ok size (sem_init size).
Proof.
  intros L. exists ∅. assert (waits ∅ = ∅) as Hw by apply omap_empty. simpl. rewrite Hw. split; [split; [|by intros []]|split; [|done]].
  2: { intros i. by rewrite !lookup_empty. }
  split; simpl; try done; try lia; try (intros *; by rewrite lookup_empty).
  - intros [|[|p]] w (l & E & Hl); simpl in E; simplify_eq; by apply not_elem_of_nil in Hl.
  - apply NoDup_nil_2.
Qed.
Lemma sem_step_ok size σ o : state_ok size σ → sem_step σ o → ∃ σ', o = Some σ' ∧ state_ok size σ'.
Proof.
  intros (G & O & CK & Sz). destruct 1 as [s C ch done p n Hc Hr Hn Hp|s C ch p n Hc|s C ch done p n Hc Hr|s C ch n Hc Hr Hn|s C ch n Hc]; simpl in *;
    pose proof (CK ch) as Gc; rewrite Hc in Gc; pose proof (waits_lookup C ch) as Wc; rewrite Hc in Wc.
  - destruct (acquire_start done p n ch s) as [[s' r]|] eqn:E.
    + eexists. split; [done|]. destruct (start_ok _ _ _ _ _ _ _ _ _ O Gc Wc Hr Hn E) as [Sz' Hres]. rewrite Sz in Sz'. destruct r; simpl.
      * exists (<[ch := n]> G). simpl. rewrite waits_has, delete_id by done. split_and!; [apply Hres|by apply calls_ok_has|done].
      * subst s'. by exists G.
      * subst s'. by exists G.
      * exists G. simpl. rewrite waits_waits. split_and!; [apply Hres| |done]. intros j. destruct (decide (j = ch)) as [->|N]; [by rewrite lookup_insert_eq|].
        rewrite lookup_insert_ne by done. apply CK.
    + exfalso. unfold acquire_start in E. destruct (Nat.leb_spec NumPriorities p); [lia|]. repeat case_match; done.
  - eexists. split; [done|]. destruct (done_ok _ _ _ _ _ _ O Wc) as (G' & O' & Gi & F & Sz'). exists G'. simpl. rewrite waits_delete.
    split_and!; [done|by apply (calls_ok_delete C G)|congruence].
  - destruct O as [Co Wk]. pose proof (se_ready _ _ _ Co _ _ _ Wc Hr) as Gi. pose proof (unwait_core _ _ _ _ _ _ Co Wc Hr) as Co'.
    assert (sem_ok s G (delete ch (waits C))) as O' by by split. unfold acquire_ready. destruct done; simpl.
    + destruct (release_ok _ _ _ _ _ O' Gi (lookup_delete_eq _ _)) as (s' & G' & -> & O2 & Gi' & F & Sz'). eexists. split; [done|]. exists G'. simpl.
      rewrite waits_delete. split_and!; [done| |congruence]. apply (calls_ok_delete C G); [done..|]. intros j N Hj. apply F; [done|]. by rewrite lookup_delete_ne.
    + eexists. split; [done|]. exists G. simpl. rewrite waits_has. split_and!; [done| |done]. rewrite <- (insert_id G ch n) by done. by apply calls_ok_has.
  - unfold TryAcquire. destruct ((n <=? ssize s - cur s) && noWaiters s) eqn:E; eexists; (split; [done|]); [|by exists G].
    apply andb_true_iff in E as [L%Z.leb_le Nw%noWaiters_spec]. destruct O as [Co Wk]. exists (<[ch := n]> G). simpl. rewrite waits_has, delete_id by done.
    split_and!; [|by apply calls_ok_has|done]. split; [apply take_core; auto; lia|]. intros Hne. simpl in Hne. by rewrite Nw in Hne.
  - destruct (release_ok _ _ _ _ _ O Gc Wc) as (s' & G' & -> & O' & Gi & F & Sz'). eexists. split; [done|]. exists G'. simpl.
    rewrite waits_delete, delete_id by done. split_and!; [done|by apply (calls_ok_delete C G)|congruence].
Qed.
Lemma sem_reachable_ok size σ : 0 < size → sem_reachable size σ → state_ok size σ.
Proof.
  intros L. induction 1 as [|σ σ' _ IH S]; [by apply sem_init_ok|]. destruct (sem_step_ok _ _ _ IH S) as (? & [= <-] & ?). done.
Qed.
Lemma tokens_positive G : 0 < tokens G → ∃ i n, G !! i = Some n ∧ 0 < n.
Proof.
  induction G as [|i n G E IH] using map_ind; [done|]. rewrite tokens_insert by done. intros L. destruct (Z.lt_ge_cases 0 n) as [P|P].
  - exists i, n. by rewrite lookup_insert_eq.
  - destruct IH as (j & m & Ej & Lm); [lia|]. exists j, m. rewrite lookup_insert_ne by congruence. done.
Qed.

(** Whoever waits for tokens waits for a call that has some. *)
Lemma waiter_not_alone size σ i p n : state_ok size σ → calls σ !! i = Some (Waits p n) → i ∉ ready (sem σ) →
  ∃ j m, 0 < m ∧ (calls σ !! j = Some (Has m) ∨ ∃ q, calls σ !! j = Some (Waits q m) ∧ j ∈ ready (sem σ)).
Proof.
  intros (G & [C Wk] & CK & Sz) Hi Nr. assert (waits (calls σ) !! i = Some (p, n)) as Hw by by rewrite waits_lookup, Hi.
  assert (0 < cur (sem σ)) as Lc.
  { apply Wk. pose proof (se_waits _ _ _ C _ _ _ Hw Nr) as Hl. intros E. assert (mkWaiter i n ∈ concat (waitLists (sem σ))) as X by (apply listed_concat; by exists p).
    rewrite E in X. by apply not_elem_of_nil in X. }
  rewrite (se_cur _ _ _ C) in Lc. destruct (tokens_positive G Lc) as (j & m & Ej & Lm). exists j, m. split; [done|]. specialize (CK j).
  destruct (calls σ !! j) as [[q m'|m']|] eqn:Ec; [|left; congruence|congruence]. right. exists q.
  assert (waits (calls σ) !! j = Some (q, m')) as Hj by by rewrite waits_lookup, Ec. destruct (decide (j ∈ ready (sem σ))) as [Rj|Nj].
  - pose proof (se_ready _ _ _ C _ _ _ Hj Rj). split; [congruence|done].
  - pose proof (se_waits _ _ _ C _ _ _ Hj Nj) as Hl. destruct (se_listed _ _ _ C _ _ Hl) as (_ & _ & X). simpl in X. congruence.
Qed.

(** C11 Whatever the interleaving of the calls of [Acquire], their cancellations and the releases: no step panics, the tokens that the calls hold are never
    more than the semaphore has, and a call is never left waiting for nothing — if its channel is not closed, some call holds tokens that it will
    release, or its channel is closed and it is about to run. *)
Theorem semaphore_safe size σ : 0 < size → sem_reachable size σ →
  (∀ o, sem_step σ o → is_Some o) ∧ tokens (holders (calls σ)) ≤ size ∧
  (∀ i p n, calls σ !! i = Some (Waits p n) → i ∉ ready (sem σ) →
     ∃ j m, 0 < m ∧ (calls σ !! j = Some (Has m) ∨ ∃ q, calls σ !! j = Some (Waits q m) ∧ j ∈ ready (sem σ))).
Proof.
  intros L R. apply sem_reachable_ok in R as OK; [|done]. split_and!.
  - intros o S. destruct (sem_step_ok _ _ _ OK S) as (σ' & -> & _). by eexists.
  - destruct OK as (G & [C _] & CK & <-). etrans; [apply (tokens_sub _ G); [apply C|by apply holders_sub]|]. rewrite <- (se_cur _ _ _ C). apply C.
  - intros i p n. by apply (waiter_not_alone size).
Qed.

(** C28 [Release] wakes in order: of every priority a prefix of its list, a lower priority only when no call of a higher one is left waiting, and it stops
    only at a call for which there are not enough tokens. *)
Theorem release_order n s s' : Release n s = Some s' → ∃ gs,
  waitLists s = zip_with app gs (waitLists s') ∧ ready s' = ready s ∪ list_to_set (map channel (concat gs)) ∧
  cur s' = cur s - n + demand (concat gs) ∧
  (∀ p q g, (p < q)%nat → gs !! q = Some g → g ≠ [] → waitLists s' !! p = Some []) ∧
  (∀ w, head (concat (waitLists s')) = Some w → ssize s' - cur s' < w_n w).
Proof.
  unfold Release. case_match; [done|]. intros [= <-]. unfold notifyWaiters. simpl.
  destruct (notify_lists (ssize s) (cur s - n) (waitLists s)) as [[c' ls'] closed] eqn:E.
  apply notify_lists_spec in E as (gs & _ & _ & El & -> & -> & _ & Hw & Hp). by exists gs.
Qed.

(** A call holds the only token and a call of low priority waits. *)
Definition sem_one_waits : sem_state := mkSem (mkSemaphore 1 1 [[]; [mkWaiter 1 1]] ∅) (<[1%nat := Waits PriorityLow 1]> {[0%nat := Has 1]}).
Lemma sem_one_waits_reachable : sem_reachable 1 sem_one_waits.
Proof.
  apply (Sem_step 1 (mkSem (mkSemaphore 1 1 [[]; []] ∅) {[0%nat := Has 1]})); [apply (Sem_step 1 (sem_init 1)); [apply Sem_init|]|].
  - refine (Step_start (NewPrioritySemaphore 1) ∅ 0 false PriorityHigh 1 _ _ _ _); [done|set_solver|lia|unfold PriorityHigh, NumPriorities; lia].
  - refine (Step_start (mkSemaphore 1 1 [[]; []] ∅) {[0%nat := Has 1]} 1 false PriorityLow 1 _ _ _ _); [done|set_solver|lia|unfold PriorityLow, NumPriorities; lia].
Qed.
Lemma semaphore_safe_witness : ∃ j m, 0 < m ∧ (calls sem_one_waits !! j = Some (Has m) ∨ ∃ q, calls sem_one_waits !! j = Some (Waits q m) ∧ j ∈ ready (sem sem_one_waits)).
Proof.
  destruct (semaphore_safe 1 sem_one_waits) as (_ & _ & H); [lia|apply sem_one_waits_reachable|]. apply (H 1%nat PriorityLow 1); [done|set_solver].
Defined.
Lemma release_order_witness : ∃ gs, [[]; [mkWaiter 1 1]] = zip_with app gs [[]; []] ∧ ({[1%nat]} : gset nat) = ∅ ∪ list_to_set (map channel (concat gs)).
Proof.
  destruct (release_order 1 (sem sem_one_waits) (mkSemaphore 1 1 [[]; []] {[1%nat]})) as (gs & H1 & H2 & _).
  - vm_compute. reflexivity.
  - by exists gs.
Defined.
