(* ===== verification/WorkflowCache.v ===== *)
(** * The workflow cache ([service/history/workflow/cache/cache.go], [Lock], [Unlock], [Clear] and [IsDirty] of [workflow/context.go])

    The contexts of the workflows that are in use are in an LRU cache that pins; the lock of a context is a priority semaphore with one token.  A call gets the context of
    its workflow from the cache, locks it, uses it, and calls the function it was given to release it.  The calls of all goroutines are interleaved at what they do under a lock
    of the cache or of a context. *)
From S2P Require Import Prelude LruCache Semaphore.
Local Open Scope Z_scope.

Record WorkflowKey := mkWorkflowKey { NamespaceID : string; WorkflowID : string; RunID : string }.
Record Key := mkKey { workflowKey : WorkflowKey; ShardUUID : string }.
#[export] Instance WorkflowKey_eq_dec : EqDecision WorkflowKey.
Proof. solve_decision. Defined.
#[export] Instance Key_eq_dec : EqDecision Key.
Proof. solve_decision. Defined.
#[export] Instance Key_countable : Countable Key.
Proof.
  apply (inj_countable' (λ k, (NamespaceID (workflowKey k), WorkflowID (workflowKey k), RunID (workflowKey k), ShardUUID k))
           (λ p, mkKey (mkWorkflowKey p.1.1.1 p.1.1.2 p.1.2) p.2)). by intros [[]].
Defined.

(** ** Contexts *)

(** Of the mutable state it matters whether it is loaded, and then whether it is dirty. *)
Record ContextImpl := mkContext { lock : PrioritySemaphoreImpl; MutableState : option bool; archetype : nat }.
Definition ArchetypeAny : nat := 0.
Definition NewContext : ContextImpl := mkContext (NewPrioritySemaphore 1) None ArchetypeAny.
Definition IsDirty (x : ContextImpl) : bool := default false (MutableState x).
Definition Clear (x : ContextImpl) : ContextImpl := mkContext (lock x) None (archetype x).
Definition SetArchetype (a : nat) (x : ContextImpl) : ContextImpl := mkContext (lock x) (MutableState x) a.
Definition set_lock (s : PrioritySemaphoreImpl) (x : ContextImpl) : ContextImpl := mkContext s (MutableState x) (archetype x).
(** A panic is [None]. *)
Definition Unlock (x : ContextImpl) : option ContextImpl := s ← Release 1 (lock x); Some (set_lock s x).

(** ** Requests *)

Record request := mkRequest { rkey : Key; forceClear : bool; rarchetype : nat; lockPriority : nat }.
Definition validateWorkflowID (workflowID : string) : bool := negb (bool_decide (workflowID = EmptyString)).
Definition current_request (owner namespaceID workflowID : string) (priority : nat) : option request :=
  if validateWorkflowID workflowID then Some (mkRequest (mkKey (mkWorkflowKey namespaceID workflowID EmptyString) owner) true ArchetypeAny priority) else None.
(** [parses] is [uuid.Parse]; [current] is the answer of [GetCurrentRunID], which makes a request for the current run and then asks the database. *)
Definition entity_request (parses : string → bool) (current : option string) (owner namespaceID workflowID runID : string) (a priority : nat) : option request :=
  if validateWorkflowID workflowID then
    runID ← (if decide (runID = EmptyString) then current else if parses runID then Some runID else None);
    Some (mkRequest (mkKey (mkWorkflowKey namespaceID workflowID runID) owner) false a priority)
  else None.

(** Until when [lockWorkflowExecution] waits for the lock, if the caller has a deadline; times are in milliseconds. *)
Definition workflowLockTimeoutTailTime : Z := 500.
Definition lock_deadline (isAPI : bool) (nonUserContextLockTimeout now : Z) (deadline : option Z) : option Z :=
  d ← deadline;
  Some (if negb isAPI then if now + nonUserContextLockTimeout <? d then now + nonUserContextLockTimeout else d
        else if now <? d - workflowLockTimeoutTailTime then d - workflowLockTimeoutTailTime else d).

(** ** Calls *)

Inductive outcome := ErrBusyWorkflow | ErrCache (e : cache_error) | Released | Panicked.
(** Where a call is: the cache had no context for it; it has a context and is going to lock it; it waits for the lock; it did not get it; it has it; it has unlocked it and
    is going to release the entry of the cache, and to panic if [panics]; it is done. *)
Inductive status :=
  | Missed (r : request) | GotContext (r : request) (x : nat) | Locking (r : request) (x : nat) | LockFailed (r : request) (x : nat)
  | Holding (r : request) (x : nat) | Unlocked (r : request) (x : nat) (panics : bool) | Done (o : outcome).
Record wf_state := mkState { wcache : lru Key nat; contexts : gmap nat ContextImpl; threads : gmap nat status }.
Definition wf_init (maxSize ttl : Z) : wf_state := mkState (NewWithMetrics maxSize ttl true) ∅ ∅.

(** [c.Get]. *)
Definition get_context (now : Z) (t : nat) (r : request) (σ : wf_state) : wf_state :=
  let '(c, v) := Get now (rkey r) (wcache σ) in
  mkState c (contexts σ) (<[t := match v with Some x => GotContext r x | None => Missed r end]> (threads σ)).
(** [workflow.NewContext] and [c.PutIfNotExist]; [x] is the new context. *)
Definition put_context (getSize : nat → Z) (now : Z) (t x : nat) (r : request) (σ : wf_state) : wf_state :=
  let '(c, v) := PutIfNotExist getSize now (rkey r) x (wcache σ) in
  mkState c (<[x := NewContext]> (contexts σ)) (<[t := match v with inr y => GotContext r y | inl e => Done (ErrCache e) end]> (threads σ)).
(** The lock of a context has answered. *)
Definition after_acquire (a : acquire_result) (r : request) (x : nat) : status :=
  match a with Acquired => Holding r x | Waiting => Locking r x | CtxDone | ErrRequestTooLarge => LockFailed r x end.
Definition acquired_context (a : acquire_result) (r : request) (s : PrioritySemaphoreImpl) (X : ContextImpl) : ContextImpl :=
  match a with Acquired => SetArchetype (rarchetype r) (set_lock s X) | _ => set_lock s X end.
Definition answer (t : nat) (r : request) (x : nat) (X : ContextImpl) (p : PrioritySemaphoreImpl * acquire_result) (σ : wf_state) : wf_state :=
  mkState (wcache σ) (<[x := acquired_context p.2 r p.1 X]> (contexts σ)) (<[t := after_acquire p.2 r x]> (threads σ)).
(** [workflowCtx.Lock] up to where it waits; the rest of it when the context of the call is done, and when it is woken. *)
Definition lock_start (done : bool) (t : nat) (r : request) (x : nat) (X : ContextImpl) (σ : wf_state) : option wf_state :=
  p ← acquire_start done (lockPriority r) 1 t (lock X); Some (answer t r x X p σ).
Definition lock_done (t : nat) (r : request) (x : nat) (X : ContextImpl) (σ : wf_state) : wf_state :=
  answer t r x X (acquire_done (lockPriority r) 1 t (lock X), CtxDone) σ.
Definition lock_ready (done : bool) (t : nat) (r : request) (x : nat) (X : ContextImpl) (σ : wf_state) : option wf_state :=
  p ← acquire_ready done 1 (lock X); Some (answer t r x X p σ).
(** [c.Release] of [lockWorkflowExecution]. *)
Definition release_failed (getSize : nat → Z) (t : nat) (r : request) (σ : wf_state) : wf_state :=
  mkState (LruCache.Release getSize (rkey r) (wcache σ)) (contexts σ) (<[t := Done ErrBusyWorkflow]> (threads σ)).

(** The function of [makeReleaseFunc] up to [Unlock]: the context, and whether it panics in the end.  [rec] is whether it recovers from a panic, [err] whether it gets an error. *)
Definition release_context (rec err forceClear : bool) (X : ContextImpl) : option (ContextImpl * bool) :=
  if rec then X ← Unlock (Clear X); Some (X, true)
  else if err || forceClear then X ← Unlock (Clear X); Some (X, false)
  else let isDirty := IsDirty X in X ← Unlock (if isDirty then Clear X else X); Some (X, isDirty).
Definition release_lock (rec err : bool) (t : nat) (r : request) (x : nat) (X : ContextImpl) (σ : wf_state) : option wf_state :=
  '(X, panics) ← release_context rec err (forceClear r) X;
  Some (mkState (wcache σ) (<[x := X]> (contexts σ)) (<[t := Unlocked r x panics]> (threads σ))).
(** The rest of it. *)
Definition release_entry (getSize : nat → Z) (t : nat) (r : request) (panics : bool) (σ : wf_state) : wf_state :=
  mkState (LruCache.Release getSize (rkey r) (wcache σ)) (contexts σ) (<[t := Done (if panics then Panicked else Released)]> (threads σ)).

(** ** All interleavings

    A step that panics where the code does not mean to is [None].  A call has a name of its own, which is also that of its channel; sizes and times are arbitrary, sizes not negative. *)
Inductive wf_step : wf_state → option wf_state → Prop :=
  | ws_get now t r σ : threads σ !! t = None → (lockPriority r < NumPriorities)%nat → wf_step σ (Some (get_context now t r σ))
  | ws_put getSize now t x r σ : threads σ !! t = Some (Missed r) → contexts σ !! x = None → (∀ y, 0 ≤ getSize y) → wf_step σ (Some (put_context getSize now t x r σ))
  | ws_lock done t r x X σ : threads σ !! t = Some (GotContext r x) → contexts σ !! x = Some X → t ∉ ready (lock X) → wf_step σ (lock_start done t r x X σ)
  | ws_cancel t r x X σ : threads σ !! t = Some (Locking r x) → contexts σ !! x = Some X → wf_step σ (Some (lock_done t r x X σ))
  | ws_wake done t r x X σ : threads σ !! t = Some (Locking r x) → contexts σ !! x = Some X → t ∈ ready (lock X) → wf_step σ (lock_ready done t r x X σ)
  | ws_failed getSize t r x σ : threads σ !! t = Some (LockFailed r x) → (∀ y, 0 ≤ getSize y) → wf_step σ (Some (release_failed getSize t r σ))
  | ws_use t r x X m σ : threads σ !! t = Some (Holding r x) → contexts σ !! x = Some X →
      wf_step σ (Some (mkState (wcache σ) (<[x := mkContext (lock X) m (archetype X)]> (contexts σ)) (threads σ)))
  | ws_unlock rec err t r x X σ : threads σ !! t = Some (Holding r x) → contexts σ !! x = Some X → wf_step σ (release_lock rec err t r x X σ)
  | ws_release getSize t r x panics σ : threads σ !! t = Some (Unlocked r x panics) → (∀ y, 0 ≤ getSize y) → wf_step σ (Some (release_entry getSize t r panics σ))
  | ws_evict m now σ : wf_step σ (Some (mkState (evictToMax m now (wcache σ)).1 (contexts σ) (threads σ))).
Inductive wf_reachable (maxSize ttl : Z) : wf_state → Prop :=
  | wr_init : wf_reachable maxSize ttl (wf_init maxSize ttl)
  | wr_step σ σ' : wf_reachable maxSize ttl σ → wf_step σ (Some σ') → wf_reachable maxSize ttl σ'.
