(* ===== verification/WorkflowCacheProps.v ===== *)
(** * The workflow cache: references and locks; a workflow is locked by one call at a time; concrete runs *)
From S2P Require Import Prelude LruCache LruSpec LruProps Semaphore SemaphoreProps WorkflowCache.
Local Open Scope Z_scope.
Implicit Types (c : lru Key nat) (k : Key) (T : gmap nat status) (C : gmap nat ContextImpl) (t x y : nat) (st : status).

(** ** Which calls have a reference to an entry *)

Definition pin_of st : option (Key * nat) :=
  match st with
  | GotContext r x | Locking r x | LockFailed r x | Holding r x | Unlocked r x _ => Some (rkey r, x)
  | Missed _ | Done _ => None
  end.
Definition use_of k st : option Z := '(k', _) ← pin_of st; if decide (k' = k) then Some 1 else None.
Definition uses k T : gmap nat Z := omap (use_of k) T.
Definition users k T : Z := tokens (uses k T).
Definition weight k (o : option status) : Z := default 0 (o ≫= use_of k).

Lemma uses_lookup k T t : uses k T !! t = T !! t ≫= use_of k.
Proof. apply lookup_omap. Qed.
Lemma use_of_spec k st n : use_of k st = Some n ↔ n = 1 ∧ ∃ x, pin_of st = Some (k, x).
Proof.
  unfold use_of. destruct (pin_of st) as [[k' x]|]; simpl; [|naive_solver]. destruct (decide (k' = k)) as [->|N]; naive_solver.
Qed.
Lemma tokens_remove (G : gmap nat Z) i : tokens (delete i G) = tokens G - default 0 (G !! i).
Proof. destruct (G !! i) as [n|] eqn:E; simpl; [by apply tokens_delete|]. rewrite delete_id by done. lia. Qed.
Lemma users_insert k T t st : users k (<[t := st]> T) = users k T - weight k (T !! t) + weight k (Some st).
Proof.
  unfold users, weight, uses. simpl. rewrite <- lookup_omap. destruct (use_of k st) as [n|] eqn:E.
  - rewrite (omap_insert_Some _ _ _ _ n) by done. rewrite <- insert_delete_eq, tokens_insert, tokens_remove by apply lookup_delete_eq. simpl. lia.
  - rewrite (omap_insert_None _ _ _ _) by done. rewrite tokens_remove. simpl. lia.
Qed.
Lemma uses_nonneg k T i n : uses k T !! i = Some n → 0 ≤ n.
Proof. rewrite uses_lookup, bind_Some. intros (st & _ & [-> _]%use_of_spec). done. Qed.
Lemma users_nonneg k T : 0 ≤ users k T.
Proof. apply tokens_nonneg, uses_nonneg. Qed.
Lemma users_positive k T t x : T !! t ≫= pin_of = Some (k, x) → 0 < users k T.
Proof.
  rewrite bind_Some. intros (st & E & P). assert (uses k T !! t = Some 1) as U.
  { rewrite uses_lookup, E. simpl. apply use_of_spec. split; [done|by exists x]. }
  pose proof (tokens_ge _ _ _ (uses_nonneg k T) U). unfold users. lia.
Qed.
Lemma users_none k T : (∀ t x, T !! t ≫= pin_of ≠ Some (k, x)) → users k T = 0.
Proof.
  intros N. assert (uses k T = ∅) as E; [|unfold users; by rewrite E]. apply map_empty. intros t. rewrite uses_lookup. specialize (N t).
  destruct (T !! t) as [st|]; simpl in *; [|done]. unfold use_of. destruct (pin_of st) as [[k' x]|]; simpl; [|done]. destruct (decide (k' = k)) as [->|]; [|done]. by destruct (N x).
Qed.
Lemma weight_pin k o k' x : o ≫= pin_of = Some (k', x) → weight k o = if decide (k' = k) then 1 else 0.
Proof. unfold weight, use_of. destruct o as [st|]; simpl; [|done]. intros ->. simpl. by destruct (decide (k' = k)). Qed.
Lemma weight_none k o : o ≫= pin_of = None → weight k o = 0.
Proof. unfold weight, use_of. destruct o as [st|]; simpl; [|done]. by intros ->. Qed.

(** ** The references are counted, and what is referenced is in the cache *)

Record refs_ok c T : Prop := {
  ro_counts : ∀ p, p ∈ byAccess c → refCount p.2 = users (key p.2) T;
  ro_entries : ∀ t k x, T !! t ≫= pin_of = Some (k, x) → ∃ p, p ∈ byAccess c ∧ key p.2 = k ∧ value p.2 = x }.
Record pins_ok c T : Prop := { po_ok : lru_ok c; po_pin : pin c = true; po_max : maxSize c ≠ 0; po_refs : refs_ok c T }.

Lemma refs_drops c c' T : refs_ok c T → drops pinned c c' → refs_ok c' T.
Proof.
  intros [Cn En] D. split; [intros p Hp; apply Cn; by apply D|].
  intros t k x E. destruct (En t k x E) as (p & Hp & Hk & Hx). exists p. split; [|done]. apply (dr_keep _ _ _ D); [done|]. unfold pinned. rewrite (Cn p Hp), Hk.
  pose proof (users_positive k T t x E). lia.
Qed.
Lemma pins_drops c c' T : pins_ok c T → drops pinned c c' → pins_ok c' T.
Proof.
  intros [O P M R] D. split; [by eapply drops_ok| | |by eapply refs_drops]; by destruct D as [_ (C1 & _ & C3) _ _]; rewrite ?C1, ?C3.
Qed.
(** A call moves on and keeps what it has, reference or none. *)
Lemma pins_move c T t st : pins_ok c T → pin_of st = T !! t ≫= pin_of → pins_ok c (<[t := st]> T).
Proof.
  intros [O P M [Cn En]] E. split; [done..|]. split.
  - intros p Hp. rewrite users_insert, (Cn p Hp). assert (weight (key p.2) (Some st) = weight (key p.2) (T !! t)) as ->; [|lia].
    unfold weight, use_of. destruct (T !! t); simpl in *; by rewrite E.
  - intros u k x. destruct (decide (u = t)) as [->|N]; [rewrite lookup_insert_eq; simpl; rewrite E; apply En|rewrite lookup_insert_ne by done; apply En].
Qed.
(** The keys of the entries are distinct. *)
Lemma entry_unique c p q : sized c → p ∈ byAccess c → q ∈ byAccess c → key p.2 = key q.2 → p = q.
Proof.
  intros S Hp Hq E. destruct p as [i e], q as [j f]. simpl in E. pose proof (proj2 (lookup_key_spec c (key e) i e S) (conj Hp eq_refl)).
  pose proof (proj2 (lookup_key_spec c (key e) j f S) (conj Hq (eq_sym E))). congruence.
Qed.
(** Taking a reference to an entry that is there. *)
Lemma pins_touch c T t st i e : pins_ok c T → (i, e) ∈ byAccess c → T !! t ≫= pin_of = None → pin_of st = Some (key e, value e) →
  pins_ok (touch i e c) (<[t := st]> T).
Proof.
  intros [O P M [Cn En]] He N Ps. destruct (touch_spec c i e (ok_sized _ O) He) as (S' & (C1 & _ & C3) & L & _). destruct (used_facts c e) as (U1 & U2 & _ & _ & U5).
  rewrite P in U5. split; [by apply touch_ok|congruence|congruence|split].
  - intros p. rewrite L. rewrite users_insert, (weight_none _ _ N), (weight_pin _ (Some st) (key e) (value e)) by done. intros [->|[Hp Ni]%elem_remove]%elem_of_cons.
    + simpl. rewrite U1, U5, decide_True by done. pose proof (Cn _ He) as X. simpl in X. lia.
    + rewrite decide_False; [rewrite (Cn p Hp); lia|]. intros Ek. apply Ni. by rewrite (entry_unique c p (i, e) (ok_sized _ O) Hp He (eq_sym Ek)).
  - intros u k x. rewrite L. destruct (decide (u = t)) as [->|Nu].
    + rewrite lookup_insert_eq. simpl. rewrite Ps. intros [= <- <-]. exists (i, used c e). split; [by left|done].
    + rewrite lookup_insert_ne by done. intros E. destruct (En u k x E) as (p & Hp & Hk & Hx). destruct (decide (p.1 = i)) as [Ei|Ni].
      * exists (i, used c e). split; [by left|]. simpl. assert (p = (i, e)) as ->; [|simpl in *; split; congruence].
        destruct p as [j f]. simpl in Ei. subst j. pose proof (proj2 (find_elem i (byAccess c) f ltac:(apply O)) Hp).
        pose proof (proj2 (find_elem i (byAccess c) e ltac:(apply O)) He). congruence.
      * exists p. split; [|done]. right. by apply elem_remove.
Qed.
(** Taking the first reference to a new entry. *)
Lemma pins_insert c c' T t st n now k v s : pins_ok c T → lru_ok c' → same_config c c' → byAccess c' = (n, new_entry c now k v s) :: byAccess c →
  (∀ p, p ∈ byAccess c → key_of p ≠ k) → T !! t ≫= pin_of = None → pin_of st = Some (k, v) → pins_ok c' (<[t := st]> T).
Proof.
  intros [O P M [Cn En]] O' (C1 & _ & C3) L Nk N Ps. destruct (new_entry_facts c now k v s) as (F1 & F2 & _ & F4). rewrite P in F4.
  split; [done|congruence|congruence|split].
  - intros p. rewrite L, users_insert, (weight_none _ _ N), (weight_pin _ (Some st) k v) by done. intros [->|Hp]%elem_of_cons.
    + simpl. rewrite F1, F4, decide_True by done. assert (users k T = 0) as ->; [|lia]. apply users_none.
      intros u x E. destruct (En u k x E) as (p & Hp & Hk & _). by apply (Nk p Hp).
    + rewrite decide_False; [rewrite (Cn p Hp); lia|]. intros Ek. by apply (Nk p Hp).
  - intros u k' x. rewrite L. destruct (decide (u = t)) as [->|Nu].
    + rewrite lookup_insert_eq. simpl. rewrite Ps. intros [= <- <-]. eexists. split; [by left|done].
    + rewrite lookup_insert_ne by done. intros E. destruct (En u k' x E) as (p & Hp & ?). exists p. split; [by right|done].
Qed.
(** Giving a reference back. *)
Lemma pins_release getSize c T t st k x : (∀ v, 0 ≤ getSize v) → pins_ok c T → T !! t ≫= pin_of = Some (k, x) → pin_of st = None →
  pins_ok (LruCache.Release getSize k c) (<[t := st]> T).
Proof.
  intros Hsz [O P M [Cn En]] Pt Ps. destruct (En t k x Pt) as ((i & e) & He & Hk & Hx). simpl in *. pose proof (users_positive k T t x Pt) as Up.
  pose proof (Release_spec getSize Hsz k c (ok_sized _ O) M P) as R. rewrite (proj2 (lookup_key_spec c k i e (ok_sized _ O)) (conj He Hk)) in R.
  destruct R as (c2 & S2 & C2 & L2 & D & _). assert (find_element i (byAccess c) = Some e) as Ef by (by apply find_elem; [apply O|]).
  assert (refs_ok c2 (<[t := st]> T)) as R2.
  { assert (∀ p, p ∈ byAccess c2 ↔ p = (i, released getSize e) ∨ p ∈ byAccess c ∧ p.1 ≠ i) as Hl.
    { intros p. rewrite L2, (update_perm i e) by (done || apply O). by rewrite elem_of_cons, elem_remove. }
    split.
    - intros p. rewrite Hl, users_insert, (weight_pin _ (T !! t) k x), (weight_none _ (Some st)) by done. intros [->|[Hp Ni]].
      + simpl. rewrite Hk, decide_True by done. pose proof (Cn _ He) as X. simpl in X. rewrite Hk in X. lia.
      + rewrite decide_False; [rewrite (Cn p Hp); lia|]. intros Ek. apply Ni. rewrite <- Hk in Ek. by rewrite (entry_unique c p (i, e) (ok_sized _ O) Hp He (eq_sym Ek)).
    - intros u k' y. destruct (decide (u = t)) as [->|Nu]; [rewrite lookup_insert_eq; simpl; by rewrite Ps|]. rewrite lookup_insert_ne by done. intros E.
      destruct (En u k' y E) as (p & Hp & Hk' & Hy). destruct (decide (p.1 = i)) as [Ei|Ni]; [|exists p; split; [apply Hl; by right|done]].
      exists (i, released getSize e). split; [apply Hl; by left|]. assert (p = (i, e)) as ->; [|done]. destruct p as [j f]. simpl in Ei. subst j.
      pose proof (proj2 (find_elem i (byAccess c) f ltac:(apply O)) Hp). congruence. }
  assert (same_config c (LruCache.Release getSize k c)) as (C1 & _ & C3) by (eapply same_config_trans; [done|apply D]).
  split; [|congruence|congruence|by eapply refs_drops]. apply Release_ok; [done|done|]. intros j f Hf Hkf. pose proof (Cn _ Hf) as X. simpl in X. rewrite Hkf in X. lia.
Qed.

(** ** The locks of the contexts, as semaphores whose calls are the calls here *)

Definition call_of x st : option call :=
  match st with
  | Locking r y => if decide (y = x) then Some (Waits (lockPriority r) 1) else None
  | Holding r y => if decide (y = x) then Some (Has 1) else None
  | _ => None
  end.
Definition lock_calls x T : gmap nat call := omap (call_of x) T.
Definition set_call (t : nat) (o : option call) (A : gmap nat call) : gmap nat call := match o with Some a => <[t := a]> A | None => delete t A end.
Lemma lock_calls_lookup x T t : lock_calls x T !! t = T !! t ≫= call_of x.
Proof. apply lookup_omap. Qed.
Lemma lock_calls_insert x T t st : lock_calls x (<[t := st]> T) = set_call t (call_of x st) (lock_calls x T).
Proof.
  unfold lock_calls. destruct (call_of x st) as [a|] eqn:E; simpl; [by apply omap_insert_Some|by apply omap_insert_None].
Qed.
Lemma lock_calls_same x T t st : call_of x st = T !! t ≫= call_of x → lock_calls x (<[t := st]> T) = lock_calls x T.
Proof.
  intros E. rewrite lock_calls_insert. pose proof (lock_calls_lookup x T t) as L. rewrite <- E in L. destruct (call_of x st); simpl; [by apply insert_id|by apply delete_id].
Qed.

Definition lock_ok T x X : Prop := state_ok 1 (mkSem (lock X) (lock_calls x T)).
(** A context is dirty only while a call has it. *)
Definition clean_ok T x X : Prop := MutableState X = Some true → ∃ t r, T !! t = Some (Holding r x).
Definition locks_ok C T : Prop := ∀ x X, C !! x = Some X → lock_ok T x X ∧ clean_ok T x X.

(** A call that has nothing to do with locks, before and after. *)
Definition unlocked (o : option status) : Prop := ∀ x, o ≫= call_of x = None.
Lemma holding_call o r x : o = Some (Holding r x) → o ≫= call_of x = Some (Has 1).
Proof. intros ->. simpl. by rewrite decide_True. Qed.
Lemma clean_other T t st x X : (∀ r, T !! t ≠ Some (Holding r x)) → clean_ok T x X → clean_ok (<[t := st]> T) x X.
Proof.
  intros N Hc D. destruct (Hc D) as (u & r & E). exists u, r. rewrite lookup_insert_ne; [done|]. intros ->. by apply (N r).
Qed.
Lemma locks_quiet C T t st : locks_ok C T → unlocked (T !! t) → unlocked (Some st) → locks_ok C (<[t := st]> T).
Proof.
  intros L U U' x X E. destruct (L x X E) as [Lx Cx]. split.
  - unfold lock_ok. rewrite lock_calls_same; [done|]. rewrite (U x). apply (U' x).
  - apply clean_other; [|done]. intros r Er. pose proof (U x) as Ux. rewrite (holding_call _ r x Er) in Ux. done.
Qed.
(** A new context. *)
Lemma locks_new C T x : locks_ok C T → (∀ t, T !! t ≫= call_of x = None) → locks_ok (<[x := NewContext]> C) T.
Proof.
  intros L N y Y. destruct (decide (y = x)) as [->|Ny]; [|rewrite lookup_insert_ne by done; apply L]. rewrite lookup_insert_eq. intros [= <-]. split; [|done].
  unfold lock_ok. assert (lock_calls x T = ∅) as ->; [|by apply (sem_init_ok 1)]. apply map_empty. intros t. rewrite lock_calls_lookup. apply N.
Qed.
(** A call takes a step of the lock of its context; [sem_step] says what becomes of the lock and of the calls it knows. *)
Lemma locks_step C T t st x X X' o : locks_ok C T → C !! x = Some X →
  sem_step (mkSem (lock X) (lock_calls x T)) o → o = Some (mkSem (lock X') (set_call t (call_of x st) (lock_calls x T))) →
  (∀ y, y ≠ x → T !! t ≫= call_of y = None ∧ call_of y st = None) → clean_ok (<[t := st]> T) x X' →
  locks_ok (<[x := X']> C) (<[t := st]> T).
Proof.
  intros L E S -> Ho Hc y Y. destruct (decide (y = x)) as [->|Ny].
  - rewrite lookup_insert_eq. intros [= <-]. split; [|done]. unfold lock_ok. rewrite lock_calls_insert. destruct (L x X E) as [Lx _].
    destruct (sem_step_ok 1 _ _ Lx S) as (σ' & [= <-] & O). done.
  - rewrite lookup_insert_ne by done. intros Ey. destruct (L y Y Ey) as [Ly Cy]. destruct (Ho y Ny) as [H1 H2]. split.
    + unfold lock_ok. by rewrite lock_calls_same by congruence.
    + apply clean_other; [|done]. intros r Er. by rewrite (holding_call _ r y Er) in H1.
Qed.
(** Two calls do not have the lock of one context. *)
Lemma lock_exclusive C T t t' r r' x X : locks_ok C T → C !! x = Some X → T !! t = Some (Holding r x) → T !! t' = Some (Holding r' x) → t = t'.
Proof.
  intros L E Ht Ht'. destruct (L x X E) as [(G & [Co _] & CK & Sz) _]. simpl in *. destruct (decide (t = t')) as [|N]; [done|]. exfalso.
  pose proof (CK t) as G1. pose proof (CK t') as G2. rewrite lock_calls_lookup, (holding_call _ r x Ht) in G1. rewrite lock_calls_lookup, (holding_call _ r' x Ht') in G2.
  pose proof (tokens_pair G t t' 1 1 (se_nonneg _ _ _ Co) N G1 G2). pose proof (se_cur _ _ _ Co). pose proof (se_bound _ _ _ Co). lia.
Qed.

(** ** The workflow cache: a workflow is locked by one call at a time *)
Implicit Types (σ : wf_state).

(** ** The invariant *)

Definition pending st : option request := match st with Missed r | GotContext r _ => Some r | _ => None end.
Definition prio_ok T : Prop := ∀ t r, T !! t ≫= pending = Some r → (lockPriority r < NumPriorities)%nat.
Definition known_ok c C : Prop := ∀ p, p ∈ byAccess c → is_Some (C !! value p.2).
Record wf_inv σ : Prop := {
  wi_pins : pins_ok (wcache σ) (threads σ);
  wi_locks : locks_ok (contexts σ) (threads σ);
  wi_known : known_ok (wcache σ) (contexts σ);
  wi_prio : prio_ok (threads σ) }.

Lemma prio_insert T t st : prio_ok T → (∀ r, pending st = Some r → T !! t ≫= pending = Some r ∨ (lockPriority r < NumPriorities)%nat) → prio_ok (<[t := st]> T).
Proof.
  intros P Hs u r. destruct (decide (u = t)) as [->|N]; [|rewrite lookup_insert_ne by done; apply P]. rewrite lookup_insert_eq. simpl. intros E.
  destruct (Hs r E) as [Ho|]; [by apply (P t)|done].
Qed.
Lemma prio_done T t st : prio_ok T → pending st = None → prio_ok (<[t := st]> T).
Proof. intros P E. apply prio_insert; [done|]. by rewrite E. Qed.
Lemma known_drops keep c c' C : drops keep c c' → known_ok c C → known_ok c' C.
Proof. intros D H p Hp. apply H. by apply D. Qed.
Lemma known_touch c i e C : sized c → (i, e) ∈ byAccess c → known_ok c C → known_ok (touch i e c) C.
Proof.
  intros S He H p. destruct (touch_spec c i e S He) as (_ & _ & -> & _). destruct (used_facts c e) as (_ & U & _).
  intros [->|[Hp _]%elem_remove]%elem_of_cons; [simpl; rewrite U; by apply (H (i, e))|by apply H].
Qed.
Lemma known_insert c C x X : known_ok c C → known_ok c (<[x := X]> C).
Proof. intros H p Hp. destruct (H p Hp) as [Y E]. destruct (decide (value p.2 = x)) as [->|N]; [rewrite lookup_insert_eq; by eexists|rewrite lookup_insert_ne by done; by eexists]. Qed.
Lemma known_release getSize k c C : (∀ v, 0 ≤ getSize v) → sized c → maxSize c ≠ 0 → pin c = true → known_ok c C → known_ok (LruCache.Release getSize k c) C.
Proof.
  intros Hsz S M P H. pose proof (Release_spec getSize Hsz k c S M P) as R. destruct (lookup_key c k) as [[i e]|] eqn:L; [|by rewrite R].
  destruct R as (c2 & _ & _ & L2 & D & _). eapply known_drops; [done|]. intros p. rewrite L2. apply lookup_key_spec in L as [He _]; [|done].
  rewrite (update_perm i e) by (apply find_elem; [apply S|done] || apply S). intros [->|[Hp _]%elem_remove]%elem_of_cons; [by apply (H (i, e))|by apply H].
Qed.
(** The context of a call with a reference exists. *)
Lemma pin_known σ t k x : wf_inv σ → threads σ !! t ≫= pin_of = Some (k, x) → is_Some (contexts σ !! x).
Proof. intros I E. destruct (ro_entries _ _ (po_refs _ _ (wi_pins _ I)) _ _ _ E) as (p & Hp & _ & <-). by apply (wi_known _ I). Qed.
Lemma call_pinned x st a : call_of x st = Some a → ∃ k, pin_of st = Some (k, x).
Proof. destruct st as [r|r y|r y|r y|r y|r y b|o]; simpl; try done; destruct (decide (y = x)) as [->|]; try done; by eexists. Qed.
Lemma new_context_unlocked σ x : wf_inv σ → contexts σ !! x = None → ∀ t, threads σ !! t ≫= call_of x = None.
Proof.
  intros I N t. destruct (threads σ !! t ≫= call_of x) as [a|] eqn:E; [|done]. exfalso. apply bind_Some in E as (st & Et & Ea). destruct (call_pinned _ _ _ Ea) as [k Ek].
  destruct (pin_known σ t k x I) as [X EX]; [by rewrite Et|]. congruence.
Qed.

(** ** Answers of locks *)

Lemma acquired_context_lock a r s X : lock (acquired_context a r s X) = s ∧ MutableState (acquired_context a r s X) = MutableState X.
Proof. by destruct a. Qed.
Lemma after_acquire_pin a r x : pin_of (after_acquire a r x) = Some (rkey r, x) ∧ pending (after_acquire a r x) = None ∧ ∀ y, y ≠ x → call_of y (after_acquire a r x) = None.
Proof. destruct a; simpl; split_and!; try done; intros y N; by rewrite decide_False. Qed.
Lemma answer_inv σ t st r x X o s a : wf_inv σ → threads σ !! t = Some st → pin_of st = Some (rkey r, x) → (∀ r', st ≠ Holding r' x) → contexts σ !! x = Some X →
  sem_step (mkSem (lock X) (lock_calls x (threads σ))) o → o = Some (mkSem s (set_call t (call_of x (after_acquire a r x)) (lock_calls x (threads σ)))) →
  wf_inv (answer t r x X (s, a) σ).
Proof.
  intros I Et Ep Nh EX S Eo. destruct (after_acquire_pin a r x) as (A1 & A2 & A3). destruct (acquired_context_lock a r s X) as [B1 B2]. split; simpl.
  - apply pins_move; [apply I|]. rewrite Et. simpl. congruence.
  - eapply (locks_step _ _ t _ x X _ o); [apply I|done|done|by rewrite B1| |].
    + intros y N. split; [|by apply A3]. rewrite Et. simpl. destruct (call_of y st) as [b|] eqn:Ey; [|done]. destruct (call_pinned _ _ _ Ey) as [k Ek]. congruence.
    + destruct (wi_locks _ I x X EX) as [_ Cx]. intros D. rewrite B2 in D. apply (clean_other (threads σ) t _ x X); [|done|done]. rewrite Et. naive_solver.
  - apply known_insert, I.
  - apply prio_done; [apply I|done].
Qed.
Lemma release_context_spec rec err f X : ∃ m b, m ≠ Some true ∧
  release_context rec err f X = (s ← Release 1 (lock X); Some (mkContext s m (archetype X), b)).
Proof.
  unfold release_context, Unlock, IsDirty. destruct rec; [exists None, true|destruct (err || f); [exists None, false|]].
  - split; [done|]. simpl. by destruct (Release 1 (lock X)).
  - split; [done|]. simpl. by destruct (Release 1 (lock X)).
  - destruct (MutableState X) as [[|]|] eqn:E; [exists None, true|exists (Some false), false|exists None, false]; (split; [done|]); simpl;
      destruct (Release 1 (lock X)); simpl; unfold set_lock; by rewrite ?E.
Qed.

(** ** Every step *)

Lemma get_inv now t r σ : wf_inv σ → threads σ !! t = None → (lockPriority r < NumPriorities)%nat → wf_inv (get_context now t r σ).
Proof.
  intros I Et Hp. unfold get_context. destruct (Get now (rkey r) (wcache σ)) as [c v] eqn:E. destruct I as [P L Kn Pr]. apply Get_spec in E; [|apply P].
  assert (locks_ok (contexts σ) (<[t := match v with Some x => GotContext r x | None => Missed r end]> (threads σ))) as L'.
  { apply locks_quiet; [done|intros x; by rewrite Et|intros x; by destruct v]. }
  assert (prio_ok (<[t := match v with Some x => GotContext r x | None => Missed r end]> (threads σ))) as Pr'.
  { apply prio_insert; [done|]. intros r' Er. right. destruct v; simpl in Er; congruence. }
  destruct v as [x|].
  - destruct E as (i & e & He & Hk & Hx & _ & ->). split; simpl; try done.
    + apply pins_touch; [done|done|by rewrite Et|simpl; congruence].
    + apply known_touch; [apply P|done|done].
  - destruct E as [D _]. split; simpl; try done; [|by eapply known_drops]. apply pins_move; [by eapply pins_drops|]. by rewrite Et.
Qed.
Lemma put_inv getSize now t x r σ : (∀ y, 0 ≤ getSize y) → wf_inv σ → threads σ !! t = Some (Missed r) → contexts σ !! x = None → wf_inv (put_context getSize now t x r σ).
Proof.
  intros Hsz I Et Hx. pose proof (new_context_unlocked σ x I Hx) as Nu. unfold put_context. destruct (PutIfNotExist getSize now (rkey r) x (wcache σ)) as [c v] eqn:E.
  destruct I as [P L Kn Pr]. pose proof (PutIfNotExist_ok getSize now (rkey r) x (wcache σ) Hsz (po_ok _ _ P)) as O'. rewrite E in O'. simpl in O'.
  apply PutIfNotExist_spec in E; [|done|apply P|apply P]. set (st := match v with inr y => GotContext r y | inl e => Done (ErrCache e) end).
  assert (locks_ok (<[x := NewContext]> (contexts σ)) (<[t := st]> (threads σ))) as L'.
  { apply locks_quiet; [by apply locks_new|intros y; by rewrite Et|intros y; by destruct v]. }
  assert (prio_ok (<[t := st]> (threads σ))) as Pr'.
  { apply prio_insert; [done|]. intros r' Er. left. rewrite Et. unfold st in Er. by destruct v. }
  unfold st in *. destruct v as [err|y].
  - split; simpl; try done; [|by apply known_insert; eapply known_drops]. apply pins_move; [by eapply pins_drops|]. by rewrite Et.
  - destruct E as [(i & e & He & Hk & Hy & ->)|(-> & c1 & n & D & Hn & S' & Cf & Lc & _)]; split; simpl; try done.
    + apply pins_touch; [done|done|by rewrite Et|simpl; congruence].
    + apply known_insert, known_touch; [apply P|done|done].
    + eapply pins_insert; [by eapply pins_drops| | |exact Lc|done|by rewrite Et|done]; [done|].
      destruct Cf as (F1 & F2 & F3), D as [_ (D1 & D2 & D3) _ _]. unfold same_config. split_and!; congruence.
    + intros p. rewrite Lc. intros [->|Hp]%elem_of_cons.
      * simpl. destruct (new_entry_facts c1 now (rkey r) x (getSize x)) as (_ & -> & _). rewrite lookup_insert_eq. by eexists.
      * apply (known_insert c1); [by eapply known_drops|done].
Qed.
Lemma drop_ref_inv getSize t st st' k x σ : (∀ y, 0 ≤ getSize y) → wf_inv σ → threads σ !! t = Some st → pin_of st = Some (k, x) → unlocked (Some st) →
  pin_of st' = None → pending st' = None → wf_inv (mkState (LruCache.Release getSize k (wcache σ)) (contexts σ) (<[t := st']> (threads σ))).
Proof.
  intros Hsz [P L Kn Pr] Et Ep U Ep' En. split; simpl.
  - eapply pins_release; [done|done|by rewrite Et|done].
  - apply locks_quiet; [done|by rewrite Et|]. intros y. simpl. destruct (call_of y st') as [a|] eqn:Ey; [|done]. destruct (call_pinned _ _ _ Ey) as [k' Ek]. congruence.
  - apply known_release; [done|apply P|apply P|apply P|done].
  - by apply prio_done.
Qed.
Lemma lock_start_inv done t r x X σ : wf_inv σ → threads σ !! t = Some (GotContext r x) → contexts σ !! x = Some X → t ∉ ready (lock X) →
  ∃ σ', lock_start done t r x X σ = Some σ' ∧ wf_inv σ'.
Proof.
  intros I Et EX Nr. assert (lock_calls x (threads σ) !! t = None) as Nc by by rewrite lock_calls_lookup, Et.
  assert (lockPriority r < NumPriorities)%nat as Hp by (apply (wi_prio _ I t); by rewrite Et).
  pose proof (Step_start (lock X) (lock_calls x (threads σ)) t done (lockPriority r) 1 Nc Nr ltac:(lia) Hp) as S. unfold lock_start.
  destruct (wi_locks _ I x X EX) as [Lx _]. destruct (sem_step_ok 1 _ _ Lx S) as (? & Eo & _).
  destruct (acquire_start done (lockPriority r) 1 t (lock X)) as [[s a]|]; [|done]. simpl in S |- *. eexists. split; [reflexivity|].
  eapply (answer_inv σ t _ r x X _ s a I Et); [done|done|done|exact S|]. do 2 f_equal. destruct a; simpl; by rewrite ?decide_True, ?delete_id by done.
Qed.
Lemma lock_ready_inv done t r x X σ : wf_inv σ → threads σ !! t = Some (Locking r x) → contexts σ !! x = Some X → t ∈ ready (lock X) →
  ∃ σ', lock_ready done t r x X σ = Some σ' ∧ wf_inv σ'.
Proof.
  intros I Et EX Nr. assert (lock_calls x (threads σ) !! t = Some (Waits (lockPriority r) 1)) as Nc by (rewrite lock_calls_lookup, Et; simpl; by rewrite decide_True).
  pose proof (Step_ready (lock X) (lock_calls x (threads σ)) t done (lockPriority r) 1 Nc Nr) as S. unfold lock_ready.
  destruct (wi_locks _ I x X EX) as [Lx _]. destruct (sem_step_ok 1 _ _ Lx S) as (? & Eo & _). unfold acquire_ready in *.
  destruct done; simpl in *; [destruct (Release 1 (lock X)) as [s|]; [|done]; simpl in *|]; (eexists; split; [reflexivity|]).
  - eapply (answer_inv σ t _ r x X _ s CtxDone I Et); [done|done|done|exact S|done].
  - eapply (answer_inv σ t _ r x X _ _ Acquired I Et); [done|done|done|exact S|]. simpl. by rewrite decide_True.
Qed.
Lemma release_lock_inv rec err t r x X σ : wf_inv σ → threads σ !! t = Some (Holding r x) → contexts σ !! x = Some X →
  ∃ σ', release_lock rec err t r x X σ = Some σ' ∧ wf_inv σ'.
Proof.
  intros I Et EX. assert (lock_calls x (threads σ) !! t = Some (Has 1)) as Nc by (rewrite lock_calls_lookup; by eapply holding_call).
  pose proof (Step_release (lock X) (lock_calls x (threads σ)) t 1 Nc) as S. destruct (wi_locks _ I x X EX) as [Lx _]. destruct (sem_step_ok 1 _ _ Lx S) as (? & Eo & _).
  unfold release_lock. destruct (release_context_spec rec err (forceClear r) X) as (m & b & Hm & ->). destruct (Release 1 (lock X)) as [s|]; [|done]. simpl in *.
  eexists. split; [reflexivity|]. destruct I as [P L Kn Pr]. split; simpl.
  - apply pins_move; [done|]. by rewrite Et.
  - eapply (locks_step _ _ t _ x X _ _ L EX S); [done| |intros D; by destruct Hm]. intros y N. rewrite Et. simpl. by rewrite decide_False.
  - by apply known_insert.
  - by apply prio_done.
Qed.
Lemma use_inv t r x X m σ : wf_inv σ → threads σ !! t = Some (Holding r x) → contexts σ !! x = Some X →
  wf_inv (mkState (wcache σ) (<[x := mkContext (lock X) m (archetype X)]> (contexts σ)) (threads σ)).
Proof.
  intros [P L Kn Pr] Et EX. split; simpl; [done| |by apply known_insert|done]. intros y Y. destruct (decide (y = x)) as [->|N]; [|rewrite lookup_insert_ne by done; apply L].
  rewrite lookup_insert_eq. intros [= <-]. split; [apply (L x X EX)|]. intros _. by exists t, r.
Qed.

Lemma wf_step_inv σ o : wf_inv σ → wf_step σ o → ∃ σ', o = Some σ' ∧ wf_inv σ'.
Proof.
  intros I. destruct 1 as [now t r σ Et Hp|getSize now t x r σ Et Hx Hsz|done t r x X σ Et EX Nr|t r x X σ Et EX|done t r x X σ Et EX Hr|getSize t r x σ Et Hsz|
    t r x X m σ Et EX|rec err t r x X σ Et EX|getSize t r x pa σ Et Hsz|m now σ].
  - eexists. split; [reflexivity|by apply get_inv].
  - eexists. split; [reflexivity|by apply put_inv].
  - by apply lock_start_inv.
  - eexists. split; [reflexivity|]. assert (lock_calls x (threads σ) !! t = Some (Waits (lockPriority r) 1)) as Nc by (rewrite lock_calls_lookup, Et; simpl; by rewrite decide_True).
    eapply (answer_inv σ t _ r x X _ _ CtxDone I Et); [done|done|done|apply (Step_cancel _ _ _ _ _ Nc)|done].
  - by apply lock_ready_inv.
  - eexists. split; [reflexivity|]. by eapply drop_ref_inv.
  - eexists. split; [reflexivity|]. by eapply use_inv.
  - by apply release_lock_inv.
  - eexists. split; [reflexivity|]. by eapply drop_ref_inv; [| |exact Et|..].
  - eexists. split; [reflexivity|]. destruct I as [P L Kn Pr]. pose proof (evictToMax_drops m now (wcache σ) (ok_sized _ (po_ok _ _ P))) as D.
    split; simpl; [by eapply pins_drops|done|by eapply known_drops|done].
Qed.
Lemma wf_init_inv maxSize ttl : 0 < maxSize → wf_inv (wf_init maxSize ttl).
Proof.
  intros L. split; simpl; [|by intros x X; rewrite lookup_empty|by intros p ?%not_elem_of_nil|by intros t r; rewrite lookup_empty].
  split; [apply new_ok; lia|done|simpl; lia|]. split; [by intros p ?%not_elem_of_nil|by intros t k x; rewrite lookup_empty].
Qed.
Lemma wf_reachable_inv maxSize ttl σ : 0 < maxSize → wf_reachable maxSize ttl σ → wf_inv σ.
Proof.
  intros L. induction 1 as [|σ σ' _ IH S]; [by apply wf_init_inv|]. by destruct (wf_step_inv _ _ IH S) as (? & [= <-] & ?).
Qed.

(** ** Theorems *)

Lemma same_context σ t t' k x x' : wf_inv σ → threads σ !! t ≫= pin_of = Some (k, x) → threads σ !! t' ≫= pin_of = Some (k, x') →
  x = x' ∧ ∃ p, p ∈ byAccess (wcache σ) ∧ key p.2 = k ∧ value p.2 = x ∧ 0 < refCount p.2.
Proof.
  intros I E E'. destruct (wi_pins _ I) as [O _ _ [Cn En]]. destruct (En _ _ _ E) as (p & Hp & Hk & Hx), (En _ _ _ E') as (q & Hq & Hk' & Hx').
  rewrite (entry_unique _ p q (ok_sized _ O) Hp Hq) in Hx by congruence. split; [congruence|]. exists q. split_and!; try done. rewrite (Cn q Hq), Hk'. by eapply users_positive.
Qed.

(** C9 In a cache of at least one entry, whatever the interleaving of the calls, of the eviction in the background and of the sizes and ages of the entries, a workflow is locked by one call at a time: all the calls
    that have a context of a workflow have the same one, it is in the cache and pinned there, and no two of them have its lock.  No call of [Unlock] or [Release] panics, and
    when no call is under way nothing is pinned. *)
Theorem workflow_exclusive maxSize ttl σ : 0 < maxSize → wf_reachable maxSize ttl σ →
  (∀ t t' r r' x x', threads σ !! t = Some (Holding r x) → threads σ !! t' = Some (Holding r' x') → rkey r = rkey r' → t = t' ∧ x = x') ∧
  (∀ t t' k x x', threads σ !! t ≫= pin_of = Some (k, x) → threads σ !! t' ≫= pin_of = Some (k, x') →
     x = x' ∧ ∃ p, p ∈ byAccess (wcache σ) ∧ key p.2 = k ∧ value p.2 = x ∧ 0 < refCount p.2) ∧
  (∀ o, wf_step σ o → is_Some o) ∧
  ((∀ t st, threads σ !! t = Some st → ∃ o, st = Done o) → ∀ p, p ∈ byAccess (wcache σ) → refCount p.2 = 0).
Proof.
  intros L R. pose proof (wf_reachable_inv _ _ _ L R) as I. split_and!.
  - intros t t' r r' x x' E E' Ek. assert (threads σ !! t ≫= pin_of = Some (rkey r, x)) as P by by rewrite E.
    assert (threads σ !! t' ≫= pin_of = Some (rkey r, x')) as P' by (rewrite E', Ek; done). destruct (same_context σ t t' _ _ _ I P P') as [-> _]. split; [|done].
    destruct (pin_known σ t _ _ I P) as [X EX]. by eapply lock_exclusive; [apply I|..].
  - intros t t' k x x'. by apply same_context.
  - intros o S. destruct (wf_step_inv σ o I S) as (σ' & -> & _). by eexists.
  - intros D p Hp. rewrite (ro_counts _ _ (po_refs _ _ (wi_pins _ I)) p Hp). apply users_none. intros t x. destruct (threads σ !! t) as [st|] eqn:E; [|done].
    destruct (D t st E) as [o ->]. done.
Qed.

(** What a call that gets the lock does to its context. *)
Lemma took_lock σ σ' t r x : wf_step σ (Some σ') → (∀ r' x', threads σ !! t ≠ Some (Holding r' x')) → threads σ' !! t = Some (Holding r x) →
  threads σ' = <[t := Holding r x]> (threads σ) ∧
  ∃ X X', contexts σ !! x = Some X ∧ contexts σ' !! x = Some X' ∧ MutableState X' = MutableState X ∧ archetype X' = rarchetype r.
Proof.
  assert (∀ u st T, (<[u := st]> T) !! t = Some (Holding r x) → (∀ r' x', T !! t ≠ Some (Holding r' x')) → u = t ∧ st = Holding r x) as Ins.
  { intros u st T E N. destruct (decide (u = t)) as [->|Nu]; [rewrite lookup_insert_eq in E; split; congruence|rewrite lookup_insert_ne in E by done; by destruct (N r x)]. }
  assert (∀ u r0 y X p, (answer u r0 y X p σ) = σ' → contexts σ !! y = Some X → (∀ r' x', threads σ !! t ≠ Some (Holding r' x')) → threads σ' !! t = Some (Holding r x) →
    threads σ' = <[t := Holding r x]> (threads σ) ∧ ∃ X X', contexts σ !! x = Some X ∧ contexts σ' !! x = Some X' ∧ MutableState X' = MutableState X ∧ archetype X' = rarchetype r) as Ans.
  { intros u r0 y X [s a] <- EX N E. simpl in *. destruct (Ins _ _ _ E N) as [-> Ea]. split; [by rewrite Ea|]. destruct a; simpl in Ea; try done. injection Ea as -> ->.
    eexists X, _. rewrite lookup_insert_eq. split_and!; try done. }
  intros S N E. remember (Some σ') as o eqn:Eq. destruct S as [now u r0 σ Eu|getSize now u y r0 σ Eu|done u r0 y X σ Eu EX|u r0 y X σ Eu EX|done u r0 y X σ Eu EX|getSize u r0 y σ Eu|
    u r0 y X m σ Eu EX|rec err u r0 y X σ Eu EX|getSize u r0 y pa σ Eu|m now σ].
  - injection Eq as <-. unfold get_context in E. destruct (Get _ _ _) as [c v]. simpl in E. destruct (Ins _ _ _ E N) as [_ Es]. by destruct v.
  - injection Eq as <-. unfold put_context in E. destruct (PutIfNotExist _ _ _ _ _) as [c v]. simpl in E. destruct (Ins _ _ _ E N) as [_ Es]. by destruct v.
  - apply bind_Some in Eq as (p & _ & [= Eq]). by eapply Ans.
  - injection Eq as Eq. by eapply Ans.
  - apply bind_Some in Eq as (p & _ & [= Eq]). by eapply Ans.
  - injection Eq as <-. simpl in E. by destruct (Ins _ _ _ E N).
  - injection Eq as <-. simpl in E. by destruct (N r x).
  - apply bind_Some in Eq as ([X' pa] & _ & [= <-]). simpl in E. by destruct (Ins _ _ _ E N).
  - injection Eq as <-. simpl in E. by destruct (Ins _ _ _ E N).
  - injection Eq as <-. simpl in E. by destruct (N r x).
Qed.

(** C14 In a cache of at least one entry, a call that gets the lock of a workflow never sees what another call left half done: when it gets the lock, the mutable state of the context is not loaded or not dirty, and the
    archetype is the one it asked for. *)
Theorem workflow_lock_sees_clean maxSize ttl σ σ' t r x : 0 < maxSize → wf_reachable maxSize ttl σ → wf_step σ (Some σ') →
  (∀ r' x', threads σ !! t ≠ Some (Holding r' x')) → threads σ' !! t = Some (Holding r x) →
  ∃ X, contexts σ' !! x = Some X ∧ IsDirty X = false ∧ archetype X = rarchetype r.
Proof.
  intros L R S N E. destruct (took_lock σ σ' t r x S N E) as (ET & X & X' & EX & EX' & EM & EA). exists X'. split; [done|]. split; [|done].
  unfold IsDirty. rewrite EM. destruct (MutableState X) as [[|]|] eqn:Em; try done. exfalso. pose proof (wf_reachable_inv _ _ _ L R) as I.
  destruct (wi_locks _ I x X EX) as [_ Cx]. destruct (Cx Em) as (u & r' & Eu). assert (u ≠ t) as Nu by (intros ->; by apply (N r' x)).
  destruct (wf_step_inv _ _ I S) as (? & [= <-] & I'). apply Nu. apply (lock_exclusive (contexts σ') (threads σ') u t r' r x X'); [apply I'|done| |done].
  rewrite ET, lookup_insert_ne by done. done.
Qed.

(** C15 In a cache of at least one entry, a call that waits for the lock of a workflow is not forgotten: as long as its channel is not closed, another call has the lock, or has been woken and is about to have it. *)
Theorem workflow_wait_ends maxSize ttl σ t r x : 0 < maxSize → wf_reachable maxSize ttl σ → threads σ !! t = Some (Locking r x) →
  ∃ X, contexts σ !! x = Some X ∧ (t ∈ ready (lock X) ∨
    ∃ u r', threads σ !! u = Some (Holding r' x) ∨ threads σ !! u = Some (Locking r' x) ∧ u ∈ ready (lock X)).
Proof.
  intros L R E. pose proof (wf_reachable_inv _ _ _ L R) as I. destruct (pin_known σ t (rkey r) x I) as [X EX]; [by rewrite E|]. exists X. split; [done|].
  destruct (decide (t ∈ ready (lock X))) as [|Nr]; [by left|right]. destruct (wi_locks _ I x X EX) as [Lx _].
  destruct (waiter_not_alone 1 _ t (lockPriority r) 1 Lx) as (u & m & _ & Hu); [simpl; rewrite lock_calls_lookup, E; simpl; by rewrite decide_True|done|].
  simpl in Hu. rewrite lock_calls_lookup in Hu. destruct (threads σ !! u) as [st|] eqn:Eu; simpl in Hu; [|naive_solver].
  destruct st as [r'|r' y|r' y|r' y|r' y|r' y b|o]; simpl in Hu; try naive_solver; destruct (decide (y = x)) as [->|]; naive_solver.
Qed.

(** ** The workflow cache: concrete runs *)
Local Open Scope string_scope.

Definition run_request : request := mkRequest (mkKey (mkWorkflowKey "ns" "wf" "run") "shard") false 3 PriorityHigh.
Definition unit_size : nat → Z := λ _, 1.
(** Call [t] has looked in the cache, and put the new context [x] there; it gets the lock of the context [y] that it got. *)
Definition run_got (t : nat) (σ : wf_state) : wf_state := get_context 0 t run_request σ.
Definition run_put (t x : nat) (σ : wf_state) : wf_state := put_context unit_size 0 t x run_request σ.
Definition run_locked (t y : nat) (σ : wf_state) : wf_state :=
  match contexts σ !! y with Some Y => default σ (lock_start false t run_request y Y σ) | None => σ end.

Lemma run_priority : (lockPriority run_request < NumPriorities)%nat.
Proof. by apply Nat.ltb_lt. Qed.
Lemma run_put_reachable maxSize ttl t x σ : wf_reachable maxSize ttl σ → threads σ !! t = None → (Get 0 (rkey run_request) (wcache σ)).2 = None →
  contexts σ !! x = None → wf_reachable maxSize ttl (run_put t x (run_got t σ)).
Proof.
  intros R Et Eg Ex. assert (threads (run_got t σ) !! t = Some (Missed run_request) ∧ contexts (run_got t σ) = contexts σ) as [E1 E2].
  { unfold run_got, get_context. destruct (Get 0 (rkey run_request) (wcache σ)) as [c v]. simpl in *. subst v. by rewrite lookup_insert_eq. }
  apply (wr_step _ _ (run_got t σ)); [apply (wr_step _ _ σ); [done|by apply ws_get, run_priority]|]. apply ws_put; [done|by rewrite E2|done].
Qed.
Lemma run_locked_reachable maxSize ttl t y Y σ : wf_reachable maxSize ttl σ → threads σ !! t = Some (GotContext run_request y) → contexts σ !! y = Some Y →
  t ∉ ready (lock Y) → wf_reachable maxSize ttl (run_locked t y σ).
Proof.
  intros R Et Ey Nr. unfold run_locked. rewrite Ey. destruct (lock_start false t run_request y Y σ) as [σ'|] eqn:E; simpl; [|done].
  apply (wr_step _ _ σ); [done|]. rewrite <- E. by apply ws_lock.
Qed.

(** In a cache for one workflow: call 0 has the lock, then call 1 waits for it. *)
Definition run_one : wf_state := run_locked 0 0 (run_put 0 0 (run_got 0 (wf_init 1 0))).
Definition run_two : wf_state := run_locked 1 0 (run_got 1 run_one).
Lemma run_zero_reachable : wf_reachable 1 0 (run_put 0 0 (run_got 0 (wf_init 1 0))).
Proof. apply run_put_reachable; [apply wr_init|reflexivity..]. Qed.
Lemma run_one_reachable : wf_reachable 1 0 run_one.
Proof. apply (run_locked_reachable _ _ _ _ NewContext); [apply run_zero_reachable|vm_compute; reflexivity..|set_solver]. Qed.
Lemma run_two_reachable : wf_reachable 1 0 run_two.
Proof.
  apply (run_locked_reachable _ _ _ _ (mkContext (mkSemaphore 1 1 [[]; []] ∅) None 3)); [|vm_compute; reflexivity..|set_solver].
  apply (wr_step _ _ run_one); [apply run_one_reachable|]. apply ws_get; [vm_compute; reflexivity|apply run_priority].
Qed.

Lemma workflow_exclusive_witness : threads run_two !! 0%nat = Some (Holding run_request 0) ∧ threads run_two !! 1%nat = Some (Locking run_request 0) ∧
  ∃ p, p ∈ byAccess (wcache run_two) ∧ key p.2 = rkey run_request ∧ value p.2 = 0%nat ∧ 0 < refCount p.2.
Proof.
  split; [vm_compute; reflexivity|]. split; [vm_compute; reflexivity|].
  destruct (workflow_exclusive 1 0 run_two ltac:(lia) run_two_reachable) as (_ & H & _). apply (H 0%nat 1%nat (rkey run_request) 0%nat 0%nat); vm_compute; reflexivity.
Defined.
Lemma workflow_lock_sees_clean_witness : ∃ X, contexts run_one !! 0%nat = Some X ∧ IsDirty X = false ∧ archetype X = 3%nat.
Proof.
  apply (workflow_lock_sees_clean 1 0 (run_put 0 0 (run_got 0 (wf_init 1 0))) run_one 0 run_request 0 ltac:(lia) run_zero_reachable).
  - refine (ws_lock false 0 run_request 0 NewContext _ _ _ _); [vm_compute; reflexivity..|set_solver].
  - intros r x. vm_compute. discriminate.
  - vm_compute. reflexivity.
Defined.
Lemma workflow_wait_ends_witness : ∃ X, contexts run_two !! 0%nat = Some X ∧ (1%nat ∈ ready (lock X) ∨
  ∃ u r', threads run_two !! u = Some (Holding r' 0) ∨ threads run_two !! u = Some (Locking r' 0) ∧ u ∈ ready (lock X)).
Proof. apply (workflow_wait_ends 1 0 run_two 1 run_request 0); [lia|apply run_two_reachable|vm_compute; reflexivity]. Defined.

(** With a cache of size zero the lock of a workflow locks nothing: every call gets a context of its own, and two calls have "the" lock of the same workflow at the same time. *)
Lemma no_cache_no_lock ttl : ∃ σ, wf_reachable 0 ttl σ ∧
  threads σ !! 0%nat = Some (Holding run_request 0) ∧ threads σ !! 1%nat = Some (Holding run_request 1).
Proof.
  exists (run_locked 1 1 (run_put 1 1 (run_got 1 (run_locked 0 0 (run_put 0 0 (run_got 0 (wf_init 0 ttl))))))). split; [|split; vm_compute; reflexivity].
  apply (run_locked_reachable _ _ _ _ NewContext); [|vm_compute; reflexivity..|set_solver]. apply run_put_reachable; [|vm_compute; reflexivity..].
  apply (run_locked_reachable _ _ _ _ NewContext); [|vm_compute; reflexivity..|set_solver]. apply run_put_reachable; [apply wr_init|vm_compute; reflexivity..].
Qed.
