(* ===== verification/WorkflowTimers.v ===== *)
(** * Timers of a workflow ([workflow/timer_sequence.go], [retry.go], timers and activities of [mutable_state_impl.go] and [activity.go], [timer_queue_active_task_executor.go])

    A workflow has user timers and, for each activity, up to four timeouts; only for the one that is due first there is a task in the timer queue.  Times are nanoseconds since Go's
    zero time, which a missing timestamp is. *)
From S2P Require Import Prelude.
Local Open Scope Z_scope.
Local Open Scope go_scope.

Inductive TimeoutType := START_TO_CLOSE | SCHEDULE_TO_START | SCHEDULE_TO_CLOSE | HEARTBEAT.
#[export] Instance TimeoutType_eq_dec : EqDecision TimeoutType.
Proof. solve_decision. Defined.
(** The numbers of the enumeration, which the API's Go package gives and the order of timers uses. *)
Class timeout_numbers := { type_number : TimeoutType → Z; type_number_inj :: Inj (=) (=) type_number }.
Section timers.
Context {TN : timeout_numbers}.
Definition EmptyEventID : Z := 0.
Definition TransientEventID : Z := -124.
Definition TimeValue (t : option Z) : Z := default 0 t.

Record TimerInfo := mkTimer { ExpiryTime : Z; ti_StartedEventId : Z; TaskStatus : Z }.
(** A duration that is not set is zero; the coefficient is a floating-point number, of which only the bits are kept. *)
Record retry_policy := mkRetry {
  HasRetryPolicy : bool; RetryInitialInterval : Z; RetryMaximumInterval : Z; RetryMaximumAttempts : Z; RetryBackoffCoefficient : Z;
  RetryNonRetryableErrorTypes : list string; RetryExpirationTime : option Z }.
Record timeouts := mkTimeouts { ScheduleToStartTimeout : Z; ScheduleToCloseTimeout : Z; StartToCloseTimeout : Z; HeartbeatTimeout : Z }.
Record ActivityInfo := mkActivity {
  ScheduledEventId : Z; ScheduledTime : option Z; FirstScheduledTime : option Z; StartedEventId : Z; StartedTime : option Z;
  limits : timeouts; LastHeartbeatUpdateTime : option Z; TimerTaskStatus : Z; Attempt : Z; Stamp : Z; Paused : bool; CancelRequested : bool; retry : retry_policy }.

(** ** Timers in their order *)

Definition TimerTaskStatusNone : Z := 0.
Definition TimerTaskStatusCreated : Z := 1.
Definition timerTypeToTimerMask (ty : TimeoutType) : Z := match ty with START_TO_CLOSE => 1 | SCHEDULE_TO_START => 2 | SCHEDULE_TO_CLOSE => 4 | HEARTBEAT => 8 end.
Definition created (status : Z) (ty : TimeoutType) : bool := 0 <? Z.land status (timerTypeToTimerMask ty).

Record TimerSequenceID := mkSeqID { EventID : Z; Timestamp : Z; TimerType : TimeoutType; TimerCreated : bool; seq_Attempt : Z }.
Definition Less (x y : TimerSequenceID) : bool :=
  if Timestamp x <? Timestamp y then true else if Timestamp y <? Timestamp x then false
  else if EventID x <? EventID y then true else if EventID y <? EventID x then false
  else if type_number (TimerType x) <? type_number (TimerType y) then true else if type_number (TimerType y) <? type_number (TimerType x) then false
  else true.
Definition sort (l : list TimerSequenceID) : list TimerSequenceID := merge_sort (λ x y, Is_true (Less x y)) l.

Definition getUserTimerTimeout (ti : TimerInfo) : option TimerSequenceID :=
  Some (mkSeqID (ti_StartedEventId ti) (ExpiryTime ti) START_TO_CLOSE (TaskStatus ti =? TimerTaskStatusCreated) 1).
Definition seq_id (ai : ActivityInfo) (ty : TimeoutType) (t : Z) : TimerSequenceID := mkSeqID (ScheduledEventId ai) t ty (created (TimerTaskStatus ai) ty) (Attempt ai).
Definition getActivityScheduleToStartTimeout (ai : ActivityInfo) : option TimerSequenceID :=
  if ScheduledEventId ai =? EmptyEventID then None
  else if negb (StartedEventId ai =? EmptyEventID) then None
  else if ScheduleToStartTimeout (limits ai) =? 0 then None
  else Some (seq_id ai SCHEDULE_TO_START (TimeValue (ScheduledTime ai) + ScheduleToStartTimeout (limits ai))).
Definition getActivityScheduleToCloseTimeout (ai : ActivityInfo) : option TimerSequenceID :=
  if ScheduledEventId ai =? EmptyEventID then None
  else if ScheduleToCloseTimeout (limits ai) =? 0 then None
  else Some (seq_id ai SCHEDULE_TO_CLOSE (match FirstScheduledTime ai with Some t => t | None => TimeValue (ScheduledTime ai) end + ScheduleToCloseTimeout (limits ai))).
Definition getActivityStartToCloseTimeout (ai : ActivityInfo) : option TimerSequenceID :=
  if ScheduledEventId ai =? EmptyEventID then None
  else if StartedEventId ai =? EmptyEventID then None
  else if StartToCloseTimeout (limits ai) =? 0 then None
  else Some (seq_id ai START_TO_CLOSE (TimeValue (StartedTime ai) + StartToCloseTimeout (limits ai))).
Definition lastHeartbeat (ai : ActivityInfo) : Z :=
  let last := TimeValue (StartedTime ai) in
  if negb (TimeValue (LastHeartbeatUpdateTime ai) =? 0) && (last <? TimeValue (LastHeartbeatUpdateTime ai)) then TimeValue (LastHeartbeatUpdateTime ai) else last.
Definition getActivityHeartbeatTimeout (ai : ActivityInfo) : option TimerSequenceID :=
  if ScheduledEventId ai =? EmptyEventID then None
  else if StartedEventId ai =? EmptyEventID then None
  else if HeartbeatTimeout (limits ai) =? 0 then None
  else Some (seq_id ai HEARTBEAT (lastHeartbeat ai + HeartbeatTimeout (limits ai))).
Definition activity_timers (ai : ActivityInfo) : list TimerSequenceID :=
  if Paused ai then []
  else omap (λ get, get ai) [getActivityScheduleToCloseTimeout; getActivityScheduleToStartTimeout; getActivityStartToCloseTimeout; getActivityHeartbeatTimeout].

(** ** The state of a workflow *)

(** A task is also known by the pointer [task_id], which mutable state keeps to be able to delete the task; the key it gets from the shard is not used otherwise. *)
Inductive task_kind := UserTimerTask | ActivityTimeoutTask (ty : TimeoutType) (attempt stamp : Z).
Record timer_task := mkTask { task_id : nat; VisibilityTimestamp : Z; task_EventID : Z; kind : task_kind }.
Record MutableState := mkState {
  running : bool; WorkflowRunExpirationTime : Z;
  pendingTimerInfoIDs : gmap string TimerInfo; pendingTimerEventIDToID : gmap Z string;
  pendingActivityInfoIDs : gmap Z ActivityInfo; pendingActivityTimerHeartbeats : gmap Z Z;
  activityTimeoutTasks : gmap (Z * Z) nat; InsertTasks : list timer_task; BestEffortDeleteTasks : list nat; next_task : nat }.

Definition set_timers (s : MutableState) T E : MutableState :=
  mkState (running s) (WorkflowRunExpirationTime s) T E (pendingActivityInfoIDs s) (pendingActivityTimerHeartbeats s) (activityTimeoutTasks s) (InsertTasks s) (BestEffortDeleteTasks s) (next_task s).
Definition set_activities (s : MutableState) A H : MutableState :=
  mkState (running s) (WorkflowRunExpirationTime s) (pendingTimerInfoIDs s) (pendingTimerEventIDToID s) A H (activityTimeoutTasks s) (InsertTasks s) (BestEffortDeleteTasks s) (next_task s).
Definition set_stored (s : MutableState) P D : MutableState :=
  mkState (running s) (WorkflowRunExpirationTime s) (pendingTimerInfoIDs s) (pendingTimerEventIDToID s) (pendingActivityInfoIDs s) (pendingActivityTimerHeartbeats s) P (InsertTasks s) D (next_task s).
(** 99 years. *)
Definition maxScheduledTaskDuration : Z := 99 * 365 * 24 * 3600 * 10 ^ 9.
(** [AddTasks] of a new task, which takes the next number.  A task too far in the future is dropped; no one else learns that. *)
Definition AddTasks (now t event : Z) (k : task_kind) (s : MutableState) : MutableState :=
  mkState (running s) (WorkflowRunExpirationTime s) (pendingTimerInfoIDs s) (pendingTimerEventIDToID s) (pendingActivityInfoIDs s) (pendingActivityTimerHeartbeats s)
    (activityTimeoutTasks s) (if maxScheduledTaskDuration <? t - now then InsertTasks s else InsertTasks s ++ [mkTask (next_task s) t event k])
    (BestEffortDeleteTasks s) (S (next_task s)).

Inductive timer_error := ErrMissingTimerInfo | ErrMissingActivityInfo | ErrActivityNotFound | ErrInternal | ErrWorkflowCompleted | ErrNoTimerFired | ErrInvalidArgument.
Notation result := (outcome timer_error).

Definition LoadAndSortUserTimers (s : MutableState) : list TimerSequenceID := sort (omap (λ p, getUserTimerTimeout p.2) (map_to_list (pendingTimerInfoIDs s))).
Definition LoadAndSortActivityTimers (s : MutableState) : list TimerSequenceID := sort (concat (map (λ p, activity_timers p.2) (map_to_list (pendingActivityInfoIDs s)))).
(** The task of a timer that the timeout of the workflow would come before is not created. *)
Definition after_run (s : MutableState) (f : TimerSequenceID) : bool := negb (WorkflowRunExpirationTime s =? 0) && (WorkflowRunExpirationTime s <? Timestamp f).

Definition UpdateUserTimerTaskStatus (id : string) (status : Z) (s : MutableState) : result MutableState :=
  match pendingTimerInfoIDs s !! id with
  | None => Err ErrMissingTimerInfo
  | Some ti => Ok (set_timers s (<[id := mkTimer (ExpiryTime ti) (ti_StartedEventId ti) status]> (pendingTimerInfoIDs s)) (pendingTimerEventIDToID s))
  end.
Definition CreateNextUserTimer (now : Z) (s : MutableState) : result (MutableState * bool) :=
  match LoadAndSortUserTimers s with
  | [] => Ok (s, false)
  | f :: _ =>
      if after_run s f then Ok (s, false)
      else if TimerCreated f then Ok (s, false)
      else match pendingTimerEventIDToID s !! EventID f with
           | None => Err ErrInternal
           | Some id => let! s := UpdateUserTimerTaskStatus id TimerTaskStatusCreated s in Ok (AddTasks now (Timestamp f) (EventID f) UserTimerTask s, true)
           end
  end.

Definition set_status (status : Z) (ai : ActivityInfo) : ActivityInfo :=
  mkActivity (ScheduledEventId ai) (ScheduledTime ai) (FirstScheduledTime ai) (StartedEventId ai) (StartedTime ai) (limits ai) (LastHeartbeatUpdateTime ai) status (Attempt ai) (Stamp ai)
    (Paused ai) (CancelRequested ai) (retry ai).
Definition UpdateActivityTaskStatusWithTimerHeartbeat (id : Z) (status : Z) (vis : option Z) (s : MutableState) : result MutableState :=
  match pendingActivityInfoIDs s !! id with
  | None => Err ErrMissingActivityInfo
  | Some ai =>
      Ok (set_activities s (<[id := set_status status ai]> (pendingActivityInfoIDs s))
            (match vis with Some t => <[id := t]> (pendingActivityTimerHeartbeats s) | None => pendingActivityTimerHeartbeats s end))
  end.
Definition StoreActivityTimeoutTask (event : Z) (ty : TimeoutType) (task : nat) (s : MutableState) : MutableState :=
  set_stored s (<[(event, type_number ty) := task]> (activityTimeoutTasks s)) (BestEffortDeleteTasks s).
Definition CreateNextActivityTimer (now : Z) (s : MutableState) : result (MutableState * bool) :=
  match LoadAndSortActivityTimers s with
  | [] => Ok (s, false)
  | f :: _ =>
      if after_run s f then Ok (s, false)
      else if TimerCreated f then Ok (s, false)
      else match pendingActivityInfoIDs s !! EventID f with
           | None => Err ErrInternal
           | Some ai =>
               let! s := UpdateActivityTaskStatusWithTimerHeartbeat (ScheduledEventId ai) (Z.lor (TimerTaskStatus ai) (timerTypeToTimerMask (TimerType f)))
                           (if decide (TimerType f = HEARTBEAT) then Some (Timestamp f) else None) s in
               let task := next_task s in
               Ok (StoreActivityTimeoutTask (EventID f) (TimerType f) task
                     (AddTasks now (Timestamp f) (EventID f) (ActivityTimeoutTask (TimerType f) (seq_Attempt f) (Stamp ai)) s), true)
           end
  end.
(** [closeTransactionHandleActivityUserTimerTasks] of an active cluster. *)
Definition closeTransactionHandleActivityUserTimerTasks (now : Z) (s : MutableState) : result MutableState :=
  if negb (running s) then Ok s
  else let! p := CreateNextActivityTimer now s in let! p := CreateNextUserTimer now p.1 in Ok p.1.

(** ** User timers *)

Definition AddTimerStartedEvent (event now : Z) (id : string) (startToFireTimeout : Z) (s : MutableState) : result MutableState :=
  match pendingTimerInfoIDs s !! id with
  | Some _ => Err ErrInvalidArgument
  | None => Ok (set_timers s (<[id := mkTimer (now + startToFireTimeout) event TimerTaskStatusNone]> (pendingTimerInfoIDs s)) (<[event := id]> (pendingTimerEventIDToID s)))
  end.
Definition DeleteUserTimer (id : string) (s : MutableState) : MutableState :=
  set_timers s (delete id (pendingTimerInfoIDs s))
    (match pendingTimerInfoIDs s !! id with Some ti => delete (ti_StartedEventId ti) (pendingTimerEventIDToID s) | None => pendingTimerEventIDToID s end).
Definition AddTimerFiredEvent (id : string) (s : MutableState) : result MutableState :=
  match pendingTimerInfoIDs s !! id with None => Err ErrInternal | Some _ => Ok (DeleteUserTimer id s) end.
(** A timer that has fired, in an event that is still buffered, is canceled without a trace here; [buffered] is whether there is such an event. *)
Definition AddTimerCanceledEvent (buffered : bool) (id : string) (s : MutableState) : result MutableState :=
  match pendingTimerInfoIDs s !! id with
  | Some _ => Ok (DeleteUserTimer id s)
  | None => if buffered then Ok s else Err ErrInvalidArgument
  end.

(** ** Activities *)

Definition set_activity (s : MutableState) (id : Z) (ai : ActivityInfo) : MutableState := set_activities s (<[id := ai]> (pendingActivityInfoIDs s)) (pendingActivityTimerHeartbeats s).
Definition ApplyActivityTaskScheduledEvent (event now : Z) (lim : timeouts) (policy : option retry_policy) (s : MutableState) : MutableState :=
  set_activity s event
    (mkActivity event (Some now) (Some now) EmptyEventID None lim None TimerTaskStatusNone 1 0 false false
       match policy with
       | None => mkRetry false 0 0 0 0 [] None
       | Some p => mkRetry true (RetryInitialInterval p) (RetryMaximumInterval p) (RetryMaximumAttempts p) (RetryBackoffCoefficient p) (RetryNonRetryableErrorTypes p)
                     (if 0 <? ScheduleToCloseTimeout lim then Some (now + ScheduleToCloseTimeout lim) else None)
       end).
(** Marks the task of a timeout for deletion, if it was stored. *)
Definition deleteActivityTimeoutTask (event : Z) (ty : TimeoutType) (s : MutableState) : MutableState :=
  match activityTimeoutTasks s !! (event, type_number ty) with
  | Some task => set_stored s (delete (event, type_number ty) (activityTimeoutTasks s)) (BestEffortDeleteTasks s ++ [task])
  | None => s
  end.
Definition recordActivityTimeoutTasksForDeletion (event : Z) (s : MutableState) : MutableState :=
  set_stored s (foldr (λ ty m, delete (event, type_number ty) m) (activityTimeoutTasks s) [SCHEDULE_TO_START; SCHEDULE_TO_CLOSE; START_TO_CLOSE; HEARTBEAT])
    (BestEffortDeleteTasks s ++ omap (λ ty, activityTimeoutTasks s !! (event, type_number ty)) [SCHEDULE_TO_START; SCHEDULE_TO_CLOSE; START_TO_CLOSE; HEARTBEAT]).
Definition DeleteActivity (event : Z) (s : MutableState) : MutableState :=
  match pendingActivityInfoIDs s !! event with
  | Some _ => recordActivityTimeoutTasksForDeletion event (set_activities s (delete event (pendingActivityInfoIDs s)) (delete event (pendingActivityTimerHeartbeats s)))
  | None => s
  end.
Definition set_started (event : Z) (t : option Z) (ai : ActivityInfo) : ActivityInfo :=
  mkActivity (ScheduledEventId ai) (ScheduledTime ai) (FirstScheduledTime ai) event t (limits ai) (LastHeartbeatUpdateTime ai) (TimerTaskStatus ai) (Attempt ai) (Stamp ai)
    (Paused ai) (CancelRequested ai) (retry ai).
Definition set_heartbeat (t : option Z) (ai : ActivityInfo) : ActivityInfo :=
  mkActivity (ScheduledEventId ai) (ScheduledTime ai) (FirstScheduledTime ai) (StartedEventId ai) (StartedTime ai) (limits ai) t (TimerTaskStatus ai) (Attempt ai) (Stamp ai)
    (Paused ai) (CancelRequested ai) (retry ai).
Definition set_attempt (n : Z) (ai : ActivityInfo) : ActivityInfo :=
  mkActivity (ScheduledEventId ai) (ScheduledTime ai) (FirstScheduledTime ai) (StartedEventId ai) (StartedTime ai) (limits ai) (LastHeartbeatUpdateTime ai) (TimerTaskStatus ai) n (Stamp ai)
    (Paused ai) (CancelRequested ai) (retry ai).
Definition set_paused (b : bool) (stamp : Z) (ai : ActivityInfo) : ActivityInfo :=
  mkActivity (ScheduledEventId ai) (ScheduledTime ai) (FirstScheduledTime ai) (StartedEventId ai) (StartedTime ai) (limits ai) (LastHeartbeatUpdateTime ai) (TimerTaskStatus ai) (Attempt ai) stamp
    b (CancelRequested ai) (retry ai).
Definition set_cancel_requested (ai : ActivityInfo) : ActivityInfo :=
  mkActivity (ScheduledEventId ai) (ScheduledTime ai) (FirstScheduledTime ai) (StartedEventId ai) (StartedTime ai) (limits ai) (LastHeartbeatUpdateTime ai) (TimerTaskStatus ai) (Attempt ai) (Stamp ai)
    (Paused ai) true (retry ai).
(** With a retry policy the started event is not written yet. *)
Definition AddActivityTaskStartedEvent (event now id : Z) (s : MutableState) : result MutableState :=
  match pendingActivityInfoIDs s !! id with
  | None => Err ErrMissingActivityInfo
  | Some ai => Ok (deleteActivityTimeoutTask id SCHEDULE_TO_START (set_activity s id (set_started (if HasRetryPolicy (retry ai) then TransientEventID else event) (Some now) ai)))
  end.
Definition UpdateActivityProgress (now id : Z) (s : MutableState) : result MutableState :=
  match pendingActivityInfoIDs s !! id with
  | None => Err ErrActivityNotFound
  | Some ai => if StartedEventId ai =? EmptyEventID then Err ErrActivityNotFound else Ok (deleteActivityTimeoutTask id HEARTBEAT (set_activity s id (set_heartbeat (Some now) ai)))
  end.
Definition GetActivityState_scheduled (ai : ActivityInfo) : bool := negb (CancelRequested ai) && (StartedEventId ai =? EmptyEventID).
Definition PauseActivity (id : Z) (s : MutableState) : result MutableState :=
  if negb (running s) then Err ErrWorkflowCompleted
  else match pendingActivityInfoIDs s !! id with
       | None => Err ErrActivityNotFound
       | Some ai => if Paused ai then Ok s else Ok (set_activity s id (set_paused true (if GetActivityState_scheduled ai then Stamp ai + 1 else Stamp ai) ai))
       end.
(** [UpdateActivityInfoForRetries]; no heartbeats are reset. *)
Definition UpdateActivityInfoForRetries (attempt nextScheduledTime : Z) (ai : ActivityInfo) : ActivityInfo :=
  mkActivity (ScheduledEventId ai) (Some nextScheduledTime) (FirstScheduledTime ai) EmptyEventID None (limits ai) (LastHeartbeatUpdateTime ai) TimerTaskStatusNone attempt (Stamp ai)
    (Paused ai) (CancelRequested ai) (retry ai).
Definition UnpauseActivity (now : Z) (resetAttempts resetHeartbeat : bool) (id : Z) (s : MutableState) : result MutableState :=
  match pendingActivityInfoIDs s !! id with
  | None => Err ErrActivityNotFound
  | Some ai =>
      let ai := set_paused false (Stamp ai + 1) ai in
      let ai := if resetAttempts then set_attempt 1 ai else ai in
      let ai := if resetHeartbeat then set_heartbeat None ai else ai in
      Ok (set_activity s id (if GetActivityState_scheduled ai then UpdateActivityInfoForRetries (Attempt ai) now ai else ai))
  end.

(** ** Retries *)

Inductive Failure :=
  | TerminatedFailure | CanceledFailure | TimeoutFailure (ty : TimeoutType) | ServerFailure (nonRetryable : bool)
  | ApplicationFailure (nonRetryable : bool) (ty : string) (NextRetryDelay : option Z) | OtherFailure.
Inductive RetryState := IN_PROGRESS | NON_RETRYABLE_FAILURE | TIMEOUT | MAXIMUM_ATTEMPTS_REACHED | RETRY_POLICY_NOT_SET | CANCEL_REQUESTED.
#[export] Instance RetryState_eq_dec : EqDecision RetryState.
Proof. solve_decision. Defined.

Section retries.
(** The name [enumspb.TimeoutType.String] gives, the floating-point [ExponentialBackoffAlgorithm] (initial interval, coefficient, attempt), and whether a rule of the namespace pauses an activity that
    is to be retried. *)
Context (timeout_type_name : TimeoutType → string) (ExponentialBackoffAlgorithm : Z → Z → Z → Z) (rule_pauses : ActivityInfo → bool).

Definition TimeoutFailureTypePrefix : string := "TemporalTimeout:".
Definition isRetryable (failure : option Failure) (nonRetryableTypes : list string) : bool :=
  match failure with
  | None => true
  | Some TerminatedFailure | Some CanceledFailure => false
  | Some (TimeoutFailure ty) =>
      match ty with
      | START_TO_CLOSE | HEARTBEAT => negb (bool_decide (String.append TimeoutFailureTypePrefix (timeout_type_name ty) ∈ nonRetryableTypes))
      | _ => false
      end
  | Some (ServerFailure nonRetryable) => negb nonRetryable
  | Some (ApplicationFailure nonRetryable ty _) => if nonRetryable then false else negb (bool_decide (ty ∈ nonRetryableTypes))
  | Some OtherFailure => true
  end.
Definition nextRetryDelayFrom (failure : option Failure) : option Z := match failure with Some (ApplicationFailure _ _ delay) => delay | _ => None end.
Definition makeBackoffAlgorithm (delay : option Z) (initInterval coefficient attempt : Z) : Z :=
  match delay with Some d => d | None => ExponentialBackoffAlgorithm initInterval coefficient attempt end.
Definition NoBackoff : Z := -1.
Definition nextBackoffInterval (now currentAttempt maxAttempts initInterval maxInterval : Z) (expirationTime : option Z) (coefficient : Z) (calculator : Z → Z → Z → Z) : Z * RetryState :=
  let currentAttempt := if currentAttempt <? 1 then 1 else currentAttempt in
  let expirationTime := match expirationTime with Some t => if t =? 0 then None else Some t | None => None end in
  if (0 <? maxAttempts) && (maxAttempts <=? currentAttempt) then (NoBackoff, MAXIMUM_ATTEMPTS_REACHED)
  else
    let interval := calculator initInterval coefficient currentAttempt in
    if (maxInterval =? 0) && (interval <=? 0) then (NoBackoff, TIMEOUT)
    else
      let interval := if negb (maxInterval =? 0) && ((interval <=? 0) || (maxInterval <? interval)) then maxInterval else interval in
      if match expirationTime with Some t => t <? now + interval | None => false end then (NoBackoff, TIMEOUT) else (interval, IN_PROGRESS).
(** The task of the retry is not a timer's. *)
Definition RetryActivity (now id : Z) (failure : option Failure) (s : MutableState) : result (MutableState * RetryState) :=
  match pendingActivityInfoIDs s !! id with
  | None => Err ErrActivityNotFound
  | Some ai =>
      let p := retry ai in
      if negb (HasRetryPolicy p) then Ok (s, RETRY_POLICY_NOT_SET)
      else if CancelRequested ai then Ok (s, CANCEL_REQUESTED)
      else if negb (isRetryable failure (RetryNonRetryableErrorTypes p)) then Ok (s, NON_RETRYABLE_FAILURE)
      else
        let ai := if negb (Paused ai) && rule_pauses ai then set_paused true (if GetActivityState_scheduled ai then Stamp ai + 1 else Stamp ai) ai else ai in
        if Paused ai then Ok (set_activity s id (set_attempt (Attempt ai + 1) (set_started EmptyEventID None ai)), IN_PROGRESS)
        else
          let delay := nextRetryDelayFrom failure in
          let '(backoff, state) := nextBackoffInterval now (Attempt ai) (RetryMaximumAttempts p) (RetryInitialInterval p) (default (RetryMaximumInterval p) delay) (RetryExpirationTime p)
                                     (RetryBackoffCoefficient p) (makeBackoffAlgorithm delay) in
          if decide (state = IN_PROGRESS) then Ok (set_activity s id (UpdateActivityInfoForRetries (Attempt ai + 1) (now + backoff) ai), IN_PROGRESS)
          else Ok (s, state)
  end.
(** [AddActivityTaskTimedOutEvent]; without the activity it would dereference a nil pointer. *)
Definition AddActivityTaskTimedOutEvent (id startedEventID : Z) (ty : TimeoutType) (s : MutableState) : result MutableState :=
  match pendingActivityInfoIDs s !! id with
  | None => Panic
  | Some ai =>
      if negb (StartedEventId ai =? startedEventID) || bool_decide (ty = START_TO_CLOSE ∨ ty = HEARTBEAT) && (StartedEventId ai =? EmptyEventID) then Err ErrInternal
      else Ok (DeleteActivity id s)
  end.

(** ** The tasks of the timer queue *)

Definition ScheduledTaskMinPrecision : Z := 10 ^ 6.
Definition Truncate (t : Z) : Z := t - t `mod` ScheduledTaskMinPrecision.
Definition IsTimeExpired (task : timer_task) (referenceTime testingTime : Z) : bool :=
  Truncate testingTime <=? Truncate (Z.max referenceTime (VisibilityTimestamp task)).

Fixpoint fire_user_timers (task : timer_task) (now : Z) (l : list TimerSequenceID) (s : MutableState) (fired : bool) : result (MutableState * bool) :=
  match l with
  | [] => Ok (s, fired)
  | f :: l =>
      match pendingTimerEventIDToID s !! EventID f with
      | None => Err ErrInternal
      | Some id =>
          if negb (IsTimeExpired task now (Timestamp f)) then Ok (s, fired)
          else if negb (running s) then Err ErrWorkflowCompleted
          else let! s := AddTimerFiredEvent id s in fire_user_timers task now l s true
      end
  end.
Definition executeUserTimerTimeoutTask (now : Z) (task : timer_task) (s : MutableState) : result MutableState :=
  let! p := fire_user_timers task now (LoadAndSortUserTimers s) s false in
  if p.2 : bool then Ok p.1 else Err ErrNoTimerFired.

(** The state, and whether it has to be written. *)
Definition processSingleActivityTimeoutTask (now : Z) (f : TimerSequenceID) (ai : ActivityInfo) (s : MutableState) : result (MutableState * bool) :=
  if seq_Attempt f <? Attempt ai then Ok (s, false)
  else match RetryActivity now (ScheduledEventId ai) (Some (TimeoutFailure (TimerType f))) s with
       | Panic => Panic
       | Err _ => Ok (s, false)
       | Ok (s, IN_PROGRESS) => Ok (s, true)
       | Ok (s, state) =>
           let! s := AddActivityTaskTimedOutEvent (ScheduledEventId ai) (StartedEventId ai) (if decide (state = TIMEOUT) then SCHEDULE_TO_CLOSE else TimerType f) s in Ok (s, true)
       end.
Fixpoint fire_activity_timers (task : timer_task) (now : Z) (l : list TimerSequenceID) (s : MutableState) (update : bool) : result (MutableState * bool) :=
  match l with
  | [] => Ok (s, update)
  | f :: l =>
      if negb (IsTimeExpired task now (Timestamp f)) then Ok (s, update)
      else match pendingActivityInfoIDs s !! EventID f with
           | None => fire_activity_timers task now l s update
           | Some ai => let! p := processSingleActivityTimeoutTask now f ai s in fire_activity_timers task now l p.1 (update || p.2)
           end
  end.
(** A heartbeat's timeout may have moved since its task was created; the mark that there is a task for it is taken away. *)
Definition clear_heartbeat (task : timer_task) (s : MutableState) : result (MutableState * bool) :=
  match kind task, pendingActivityInfoIDs s !! task_EventID task, pendingActivityTimerHeartbeats s !! task_EventID task with
  | ActivityTimeoutTask HEARTBEAT _ _, Some ai, Some vis =>
      if IsTimeExpired task (VisibilityTimestamp task) vis then
        let! s := UpdateActivityTaskStatusWithTimerHeartbeat (ScheduledEventId ai) (Z.ldiff (TimerTaskStatus ai) (timerTypeToTimerMask HEARTBEAT)) None s in Ok (s, true)
      else Ok (s, false)
  | _, _, _ => Ok (s, false)
  end.
(** [None] when nothing is written. *)
Definition executeActivityTimeoutTask (now : Z) (task : timer_task) (s : MutableState) : result (option MutableState) :=
  if negb (running s) then Ok None
  else
    let! p := clear_heartbeat task s in
    let! p := fire_activity_timers task now (LoadAndSortActivityTimers p.1) p.1 p.2 in
    Ok (if p.2 : bool then Some p.1 else None).
End retries.

(** ** The workflow, its database record and the timer queue

    What is written to the database is what is in memory, except for the tasks that mutable state remembers for deletion and the times of heartbeat tasks; [reload] reads it back. *)
Definition year2000 : Z := 63082281600 * 10 ^ 9.
Definition reload (s : MutableState) : MutableState :=
  mkState (running s) (WorkflowRunExpirationTime s) (pendingTimerInfoIDs s) (pendingTimerEventIDToID s) (pendingActivityInfoIDs s)
    ((λ _, year2000) <$> filter (λ p, created (TimerTaskStatus p.2) HEARTBEAT = true) (pendingActivityInfoIDs s)) ∅ [] [] (next_task s).
Definition written (s : MutableState) : MutableState :=
  mkState (running s) (WorkflowRunExpirationTime s) (pendingTimerInfoIDs s) (pendingTimerEventIDToID s) (pendingActivityInfoIDs s) (pendingActivityTimerHeartbeats s)
    (activityTimeoutTasks s) [] [] (next_task s).

#[export] Instance task_kind_eq_dec : EqDecision task_kind.
Proof. solve_decision. Defined.
#[export] Instance timer_task_eq_dec : EqDecision timer_task.
Proof. solve_decision. Defined.
Record world := mkWorld { mem : MutableState; queue : list timer_task }.
(** A transaction is written: the shard gives the new tasks their times, and [dels] of the tasks that are not needed any more are deleted. *)
Definition commit (assign : timer_task → Z) (dels : list nat) (q : list timer_task) (s : MutableState) : world :=
  mkWorld (written s) (filter (λ t, task_id t ∉ dels) (q ++ map (λ t, mkTask (task_id t) (assign t) (task_EventID t) (kind t)) (InsertTasks s))).
Definition acked (task : timer_task) (ack : bool) (q : list timer_task) : list timer_task := if ack then filter (λ t, t ≠ task) q else q.

(** What a transaction consists of.  An activity ends when it completes, fails for good or is canceled; [OClose] ends the workflow. *)
Inductive op :=
  | OStartTimer (event now : Z) (id : string) (d : Z) | OCancelTimer (buffered : bool) (id : string)
  | OSchedule (event now : Z) (lim : timeouts) (policy : option retry_policy) | OStart (event now id : Z) | OHeartbeat (now id : Z) | OEnd (id startedEventID : Z)
  | OFail (now id : Z) (failure : Failure) | ORequestCancel (buffered : bool) (id : Z) | OOptions (next id : Z) (lim : timeouts) (policy : retry_policy)
  | OPause (id : Z) | OUnpause (now : Z) (resetAttempts resetHeartbeat : bool) (id : Z) | OClose.

Section world.
Context (timeout_type_name : TimeoutType → string) (ExponentialBackoffAlgorithm : Z → Z → Z → Z) (rule_pauses : ActivityInfo → bool).
Notation RetryActivity := (RetryActivity timeout_type_name ExponentialBackoffAlgorithm rule_pauses).
Notation executeActivityTimeoutTask := (executeActivityTimeoutTask timeout_type_name ExponentialBackoffAlgorithm rule_pauses).

(** The retry policy's expiration time is kept. *)
Definition updateActivityOptions (next id : Z) (lim : timeouts) (p : retry_policy) (s : MutableState) : result MutableState :=
  match pendingActivityInfoIDs s !! id with
  | None => Err ErrActivityNotFound
  | Some ai =>
      let r := mkRetry (HasRetryPolicy (retry ai)) (RetryInitialInterval p) (RetryMaximumInterval p) (RetryMaximumAttempts p) (RetryBackoffCoefficient p)
                 (RetryNonRetryableErrorTypes (retry ai)) (RetryExpirationTime (retry ai)) in
      let ai := mkActivity (ScheduledEventId ai) (ScheduledTime ai) (FirstScheduledTime ai) (StartedEventId ai) (StartedTime ai) lim (LastHeartbeatUpdateTime ai) TimerTaskStatusNone
                  (Attempt ai) (Stamp ai + 1) (Paused ai) (CancelRequested ai) r in
      Ok (set_activity s id (if GetActivityState_scheduled ai then UpdateActivityInfoForRetries (Attempt ai) next ai else ai))
  end.
Definition AddActivityTaskCompletedEvent (id startedEventID : Z) (s : MutableState) : result MutableState :=
  match pendingActivityInfoIDs s !! id with
  | None => Err ErrInternal
  | Some ai => if negb (StartedEventId ai =? startedEventID) then Err ErrInternal else Ok (DeleteActivity id s)
  end.
(** Its checks and what it changes are the same. *)
Definition AddActivityTaskFailedEvent : Z → Z → MutableState → result MutableState := AddActivityTaskCompletedEvent.
(** [buffered]: the activity has ended, in an event that is still buffered. *)
Definition AddActivityTaskCancelRequestedEvent (buffered : bool) (id : Z) (s : MutableState) : result MutableState :=
  match pendingActivityInfoIDs s !! id with
  | None => if buffered then Ok s else Err ErrInvalidArgument
  | Some ai => if CancelRequested ai then Err ErrInvalidArgument else Ok (set_activity s id (set_cancel_requested ai))
  end.
Definition exec (o : op) (s : MutableState) : result MutableState :=
  match o with
  | OStartTimer event now id d => AddTimerStartedEvent event now id d s
  | OCancelTimer buffered id => AddTimerCanceledEvent buffered id s
  | OSchedule event now lim policy => Ok (ApplyActivityTaskScheduledEvent event now lim policy s)
  | OStart event now id => AddActivityTaskStartedEvent event now id s
  | OHeartbeat now id => UpdateActivityProgress now id s
  | OEnd id startedEventID => AddActivityTaskCompletedEvent id startedEventID s
  | OFail now id failure => let! p := RetryActivity now id (Some failure) s in if decide (p.2 = IN_PROGRESS) then Ok p.1
                           else match pendingActivityInfoIDs p.1 !! id with None => Err ErrActivityNotFound | Some ai => AddActivityTaskFailedEvent id (StartedEventId ai) p.1 end
  | ORequestCancel buffered id => AddActivityTaskCancelRequestedEvent buffered id s
  | OOptions next id lim policy => updateActivityOptions next id lim policy s
  | OPause id => PauseActivity id s
  | OUnpause now resetAttempts resetHeartbeat id => UnpauseActivity now resetAttempts resetHeartbeat id s
  | OClose => Ok (mkState false (WorkflowRunExpirationTime s) (pendingTimerInfoIDs s) (pendingTimerEventIDToID s) (pendingActivityInfoIDs s) (pendingActivityTimerHeartbeats s)
                    (activityTimeoutTasks s) (InsertTasks s) (BestEffortDeleteTasks s) (next_task s))
  end.

(** Events have new numbers, the clock is past the year 2000 and does not go back between two heartbeats of an activity, an activity starts once per attempt, only a paused activity is unpaused; [pauses] is whether activities are paused at all. *)
Context (pauses : bool).
Definition limits_ok (lim : timeouts) : Prop := 0 ≤ HeartbeatTimeout lim.
Definition op_fits (s : MutableState) (o : op) : Prop :=
  match o with
  | OStartTimer event _ _ _ => pendingTimerEventIDToID s !! event = None
  | OSchedule event _ lim _ => event ≠ EmptyEventID ∧ pendingActivityInfoIDs s !! event = None ∧ limits_ok lim
  | OStart event now id => event ≠ EmptyEventID ∧ year2000 ≤ now ∧ (∀ ai, pendingActivityInfoIDs s !! id = Some ai → StartedEventId ai = EmptyEventID)
  | OHeartbeat now id => year2000 ≤ now ∧ (∀ ai t, pendingActivityInfoIDs s !! id = Some ai → LastHeartbeatUpdateTime ai = Some t → t ≤ now)
  | OOptions _ _ lim _ => limits_ok lim
  | OPause _ => pauses = true
  | OUnpause _ _ _ id => ∀ ai, pendingActivityInfoIDs s !! id = Some ai → Paused ai = true
  | _ => True
  end.
Inductive transaction : MutableState → MutableState → Prop :=
  | tr_nil s : transaction s s
  | tr_op s o s1 s2 : running s = true → op_fits s o → exec o s = Ok s1 → transaction s1 s2 → transaction s s2.

(** [deletes] is [EnableBestEffortDeleteTasksOnWorkflowUpdate]; the shard never gives a task a time before the one it asked for; no transaction closes at a time before [start]. *)
Context (deletes : bool) (start : Z).
Definition assign_ok (assign : timer_task → Z) : Prop := ∀ t, VisibilityTimestamp t ≤ assign t.
Definition dels_ok (s : MutableState) (dels : list nat) : Prop := (∀ i, i ∈ dels → i ∈ BestEffortDeleteTasks s) ∧ (deletes = false → dels = []).
(** A step is a transaction of an API call, the execution of a task, or loss of what is in memory (also after a failed write, whether it took effect or not).  A task may be executed again when its
    acknowledgement is lost. *)
Inductive step : world → world → Prop :=
  | st_transaction s q s1 s2 close assign dels : transaction s s1 → start ≤ close → closeTransactionHandleActivityUserTimerTasks close s1 = Ok s2 → assign_ok assign → dels_ok s2 dels →
      step (mkWorld s q) (commit assign dels q s2)
  | st_user s q now task s1 s2 close assign dels ack : task ∈ q → kind task = UserTimerTask → executeUserTimerTimeoutTask now task s = Ok s1 →
      start ≤ close → closeTransactionHandleActivityUserTimerTasks close s1 = Ok s2 → assign_ok assign → dels_ok s2 dels → step (mkWorld s q) (commit assign dels (acked task ack q) s2)
  | st_user_nothing s q now task e : task ∈ q → kind task = UserTimerTask → executeUserTimerTimeoutTask now task s = Err e → e = ErrNoTimerFired ∨ e = ErrWorkflowCompleted →
      step (mkWorld s q) (mkWorld s (acked task true q))
  | st_activity s q now task ty n stamp s1 s2 close assign dels ack : task ∈ q → kind task = ActivityTimeoutTask ty n stamp → executeActivityTimeoutTask now task s = Ok (Some s1) →
      start ≤ close → closeTransactionHandleActivityUserTimerTasks close s1 = Ok s2 → assign_ok assign → dels_ok s2 dels → step (mkWorld s q) (commit assign dels (acked task ack q) s2)
  | st_activity_nothing s q now task ty n stamp : task ∈ q → kind task = ActivityTimeoutTask ty n stamp → executeActivityTimeoutTask now task s = Ok None →
      step (mkWorld s q) (mkWorld s (acked task true q))
  | st_reload s q : step (mkWorld s q) (mkWorld (reload s) q).
Definition new_workflow (expiration : Z) : world := mkWorld (mkState true expiration ∅ ∅ ∅ ∅ ∅ [] [] 0) [].
Inductive reachable (expiration : Z) : world → Prop :=
  | re_init : reachable expiration (new_workflow expiration)
  | re_step w w' : reachable expiration w → step w w' → reachable expiration w'.
End world.
End timers.
