(* ===== verification/WorkflowTimersSpec.v ===== *)
(** * Timers of a workflow: marks, order, and what each operation does to user timers and activities *)
From S2P Require Import Prelude WorkflowTimers.
Local Open Scope Z_scope.
Local Open Scope go_scope.
Implicit Types (s : MutableState) (f : TimerSequenceID) (l : list TimerSequenceID) (τ : timer_task) (Q : list timer_task) (ai : ActivityInfo) (ti : TimerInfo) (ty : TimeoutType).

Section timers.
Context {TN : timeout_numbers}.

(** ** Marks *)

Definition type_bit (ty : TimeoutType) : Z := match ty with START_TO_CLOSE => 0 | SCHEDULE_TO_START => 1 | SCHEDULE_TO_CLOSE => 2 | HEARTBEAT => 3 end.
Lemma created_bit n ty : created n ty = Z.testbit n (type_bit ty).
Proof.
  unfold created. assert (timerTypeToTimerMask ty = 2 ^ type_bit ty) as -> by (by destruct ty). assert (0 ≤ type_bit ty) as B by (by destruct ty).
  destruct (Z.testbit n (type_bit ty)) eqn:E.
  - assert (Z.land n (2 ^ type_bit ty) = 2 ^ type_bit ty) as ->; [|apply Z.ltb_lt; lia]. apply Z.bits_inj'. intros k K. rewrite Z.land_spec, Z.pow2_bits_eqb by done.
    destruct (Z.eqb_spec (type_bit ty) k) as [<-|]; [by rewrite E|by rewrite andb_false_r].
  - assert (Z.land n (2 ^ type_bit ty) = 0) as ->; [|done]. apply Z.bits_inj'. intros k K. rewrite Z.land_spec, Z.pow2_bits_eqb, Z.bits_0 by done.
    destruct (Z.eqb_spec (type_bit ty) k) as [<-|]; [by rewrite E|by rewrite andb_false_r].
Qed.
Lemma type_bit_inj ty ty' : type_bit ty = type_bit ty' → ty = ty'.
Proof. by destruct ty, ty'. Qed.
Lemma mask_bit ty ty' : Z.testbit (timerTypeToTimerMask ty) (type_bit ty') = bool_decide (ty = ty').
Proof. by destruct ty, ty'. Qed.
Lemma created_mark n ty ty' : created (Z.lor n (timerTypeToTimerMask ty)) ty' = created n ty' || bool_decide (ty = ty').
Proof. by rewrite !created_bit, Z.lor_spec, mask_bit. Qed.
Lemma created_unmark n ty ty' : created (Z.ldiff n (timerTypeToTimerMask ty)) ty' = created n ty' && negb (bool_decide (ty = ty')).
Proof. by rewrite !created_bit, Z.ldiff_spec, mask_bit. Qed.
Lemma created_none ty : created TimerTaskStatusNone ty = false.
Proof. by destruct ty. Qed.

(** ** The order of timers *)

Ltac less_cases := unfold Less; repeat match goal with |- context [?a <? ?b] => destruct (Z.ltb_spec a b) end; simpl.
Lemma Less_total x y : Is_true (Less x y) ∨ Is_true (Less y x).
Proof. less_cases; first [by left|by right|lia]. Qed.
Lemma Less_trans x y z : Is_true (Less x y) → Is_true (Less y z) → Is_true (Less x z).
Proof. less_cases; try done; lia. Qed.
Lemma Less_timestamp x y : Is_true (Less x y) → Timestamp x ≤ Timestamp y.
Proof. less_cases; try done; lia. Qed.
Definition in_order l : Prop := StronglySorted (λ x y, Timestamp x ≤ Timestamp y) l.
Lemma sort_perm l : sort l ≡ₚ l.
Proof. apply merge_sort_Permutation. Qed.
Lemma sort_sorted l : in_order (sort l).
Proof.
  assert (StronglySorted (λ x y, Is_true (Less x y)) (sort l)) as S.
  { apply Sorted_StronglySorted; [intros x y z; apply Less_trans|]. apply Sorted_merge_sort. intros x y. apply Less_total. }
  unfold in_order. induction S as [|x l' S IH F]; constructor; [done|]. eapply Forall_impl; [done|]. intros y. apply Less_timestamp.
Qed.
Lemma sort_nil l : sort l = [] → l = [].
Proof. intros E. apply Permutation_nil_r. by rewrite <- E, sort_perm. Qed.

Lemma Truncate_mono t t' : t ≤ t' → Truncate t ≤ Truncate t'.
Proof. unfold Truncate, ScheduledTaskMinPrecision. intros L. Z.div_mod_to_equations. lia. Qed.
Definition expired τ (now : Z) (t : Z) : Prop := IsTimeExpired τ now t = true.
Lemma expired_vis τ now t : Truncate t ≤ Truncate (VisibilityTimestamp τ) → expired τ now t.
Proof. intros L. apply Z.leb_le. etrans; [done|]. apply Truncate_mono. lia. Qed.
Lemma not_expired_later τ now t t' : t ≤ t' → ¬ expired τ now t → ¬ expired τ now t'.
Proof. unfold expired, IsTimeExpired. rewrite !Z.leb_le. intros L%Truncate_mono. lia. Qed.

(** ** User timers *)

Definition user_seq ti : TimerSequenceID := mkSeqID (ti_StartedEventId ti) (ExpiryTime ti) START_TO_CLOSE (TaskStatus ti =? TimerTaskStatusCreated) 1.
Definition user_seqs (T : gmap string TimerInfo) : list TimerSequenceID := map (λ p, user_seq p.2) (map_to_list T).
Lemma load_user s : LoadAndSortUserTimers s ≡ₚ user_seqs (pendingTimerInfoIDs s).
Proof.
  unfold LoadAndSortUserTimers. rewrite sort_perm. unfold user_seqs. induction (map_to_list _) as [|p l IH]; simpl; [done|]. by rewrite IH.
Qed.
Lemma elem_user_seqs T f : f ∈ user_seqs T ↔ ∃ id ti, T !! id = Some ti ∧ f = user_seq ti.
Proof.
  unfold user_seqs. rewrite list_elem_of_fmap. split.
  - intros ([id ti] & -> & H%elem_of_map_to_list). by exists id, ti.
  - intros (id & ti & H & ->). exists (id, ti). split; [done|]. by apply elem_of_map_to_list.
Qed.
Lemma user_seqs_delete T id ti : T !! id = Some ti → user_seqs T ≡ₚ user_seq ti :: user_seqs (delete id T).
Proof. intros E. unfold user_seqs. rewrite <- (map_to_list_delete T id ti) by done. done. Qed.

Definition indexed_timers s : Prop := ∀ e id, pendingTimerEventIDToID s !! e = Some id ↔ ∃ ti, pendingTimerInfoIDs s !! id = Some ti ∧ ti_StartedEventId ti = e.
(** [Q] has a task that is not executed before the timer has expired. *)
Definition has_user_task Q ti : Prop := ∃ τ, τ ∈ Q ∧ kind τ = UserTimerTask ∧ Truncate (ExpiryTime ti) ≤ Truncate (VisibilityTimestamp τ).
Definition first_user s : Prop := ∀ f l, LoadAndSortUserTimers s = f :: l → after_run s f = true ∨ TimerCreated f = true.

(** What user timers do not depend on. *)
Definition same_timers s s' : Prop := pendingTimerInfoIDs s' = pendingTimerInfoIDs s ∧ pendingTimerEventIDToID s' = pendingTimerEventIDToID s.
Definition same_activities s s' : Prop :=
  pendingActivityInfoIDs s' = pendingActivityInfoIDs s ∧ pendingActivityTimerHeartbeats s' = pendingActivityTimerHeartbeats s ∧ activityTimeoutTasks s' = activityTimeoutTasks s.
Definition same_workflow s s' : Prop := running s' = running s ∧ WorkflowRunExpirationTime s' = WorkflowRunExpirationTime s.
Definition same_tasks s s' : Prop := InsertTasks s' = InsertTasks s ∧ BestEffortDeleteTasks s' = BestEffortDeleteTasks s ∧ next_task s' = next_task s.

Lemma delete_indexed s id ti : indexed_timers s → pendingTimerInfoIDs s !! id = Some ti → indexed_timers (DeleteUserTimer id s).
Proof.
  intros I E e id'. unfold DeleteUserTimer. simpl. rewrite E, lookup_delete_Some, (I e id'). setoid_rewrite lookup_delete_Some. split.
  - intros (N & ti' & E' & <-). exists ti'. split; [|done]. split; [|done]. intros ->. congruence.
  - intros (ti' & [N E'] & <-). split; [|by exists ti']. intros Ee. apply N.
    assert (pendingTimerEventIDToID s !! ti_StartedEventId ti = Some id) as X by (apply I; by exists ti).
    assert (pendingTimerEventIDToID s !! ti_StartedEventId ti' = Some id') as X' by (apply I; by exists ti'). congruence.
Qed.

Record fired s s' : Prop := {
  fi_sub : pendingTimerInfoIDs s' ⊆ pendingTimerInfoIDs s;
  fi_index : indexed_timers s';
  fi_activities : same_activities s s';
  fi_workflow : same_workflow s s';
  fi_tasks : same_tasks s s' }.
Lemma fired_refl s : indexed_timers s → fired s s.
Proof. by split. Qed.
Lemma fire_user_spec τ now l s b : indexed_timers s → in_order l → l ≡ₚ user_seqs (pendingTimerInfoIDs s) → match fire_user_timers τ now l s b with
  | Ok (s', b') => fired s s' ∧ (∀ id ti, pendingTimerInfoIDs s' !! id = Some ti → ¬ expired τ now (ExpiryTime ti)) ∧ (b' = false → s' = s ∧ b = false)
  | Err e => e = ErrWorkflowCompleted ∧ running s = false
  | Panic => False
  end.
Proof.
  intros I S P. revert s b I P. induction l as [|f l IH]; intros s b I P; simpl.
  - split; [by apply fired_refl|]. split; [|done]. intros id ti E. exfalso. assert (user_seq ti ∈ []) as X by (rewrite P; apply elem_user_seqs; by exists id, ti). by apply not_elem_of_nil in X.
  - apply StronglySorted_inv in S as [S F]. assert (f ∈ user_seqs (pendingTimerInfoIDs s)) as (id & ti & E & ->)%elem_user_seqs by (rewrite <- P; by left).
    assert (pendingTimerEventIDToID s !! ti_StartedEventId ti = Some id) as Ee by (apply I; by exists ti). simpl. rewrite Ee.
    destruct (IsTimeExpired τ now (ExpiryTime ti)) eqn:X; simpl.
    + destruct (running s) eqn:R; simpl; [|done]. unfold AddTimerFiredEvent. rewrite E. simpl. specialize (IH S (DeleteUserTimer id s) true (delete_indexed s id ti I E)).
      assert (l ≡ₚ user_seqs (pendingTimerInfoIDs (DeleteUserTimer id s))) as P'.
      { apply (Permutation_cons_inv (a := user_seq ti)). by rewrite P, (user_seqs_delete _ id ti E). }
      specialize (IH P'). destruct (fire_user_timers τ now l (DeleteUserTimer id s) true) as [[s' b']|e|]; [|destruct IH as [? R']; simpl in R'; congruence|done].
      destruct IH as ([H1 H2 H3 H4 H5] & Hn & Hb). split; [split; try done|].
      * etrans; [exact H1|]. apply delete_subseteq.
      * split; [done|]. intros ->. by destruct (Hb eq_refl).
    + split; [by apply fired_refl|]. split; [|done]. intros id' ti' E'. assert (user_seq ti' ∈ user_seq ti :: l) as [Eq|Hl]%elem_of_cons.
      { rewrite P. apply elem_user_seqs. by exists id', ti'. }
      * injection Eq as _ -> _. unfold expired. congruence.
      * rewrite Forall_forall in F. apply (not_expired_later _ _ (ExpiryTime ti)); [by apply (F (user_seq ti'))|]. unfold expired. congruence.
Qed.

(** ** The first timer *)

Lemma sort_head l f l' : sort l = f :: l' → f ∈ l ∧ ∀ g, g ∈ l → Is_true (Less f g).
Proof.
  intros E. assert (StronglySorted (λ x y, Is_true (Less x y)) (sort l)) as S.
  { apply Sorted_StronglySorted; [intros x y z; apply Less_trans|]. apply Sorted_merge_sort. intros x y. apply Less_total. }
  rewrite E in S. apply StronglySorted_inv in S as [_ F]. rewrite Forall_forall in F. split; [rewrite <- (sort_perm l), E; by left|].
  intros g. rewrite <- (sort_perm l), E. intros [->|H]%elem_of_cons; [|by apply F]. destruct (Less_total f f); done.
Qed.
Definition same_timer f g : Prop := Timestamp f = Timestamp g ∧ EventID f = EventID g ∧ TimerType f = TimerType g.
Lemma Less_antisym x y : Is_true (Less x y) → Is_true (Less y x) → same_timer x y.
Proof.
  unfold same_timer. intros H H'. enough (Timestamp x = Timestamp y ∧ EventID x = EventID y ∧ type_number (TimerType x) = type_number (TimerType y)) as (? & ? & ?%(inj type_number)) by done.
  revert H H'. less_cases; try done; lia.
Qed.
Lemma Less_same x x' y y' : same_timer x x' → same_timer y y' → Less x y = Less x' y'.
Proof. unfold same_timer, Less. by intros (-> & -> & ->) (-> & -> & ->). Qed.
(** When the timers of two lists are the same up to marks, so are the first ones. *)
Lemma first_same l l1 f f1 r r1 : sort l = f :: r → sort l1 = f1 :: r1 → (∀ g, g ∈ l → ∃ g1, g1 ∈ l1 ∧ same_timer g g1) → (∀ g1, g1 ∈ l1 → ∃ g, g ∈ l ∧ same_timer g g1) → same_timer f f1.
Proof.
  intros [F M]%sort_head [F1 M1]%sort_head A B. destruct (A f F) as (g1 & G1 & S1), (B f1 F1) as (g & G & S). pose proof (M g G) as H. pose proof (M1 g1 G1) as H1.
  rewrite (Less_same f f g f1) in H by (done || by destruct S). apply (Less_antisym f f1 H). rewrite (Less_same f1 f1 f g1) by (done || by destruct S1). done.
Qed.

(** ** Which tasks may be deleted *)

Definition deletable s (i : nat) : Prop := i ∈ BestEffortDeleteTasks s ∨ ∃ k, activityTimeoutTasks s !! k = Some i.
(** Nothing but activities and what is remembered about their tasks. *)
Record quiet s s' : Prop := {
  qu_timers : same_timers s s';
  qu_workflow : same_workflow s s';
  qu_insert : InsertTasks s' = InsertTasks s;
  qu_next : next_task s' = next_task s;
  qu_deletable : ∀ i, deletable s' i → deletable s i }.
Lemma quiet_refl s : quiet s s.
Proof. by split. Qed.
#[export] Instance quiet_preorder : PreOrder quiet.
Proof.
  split; [exact quiet_refl|]. intros s1 s2 s3 [[T1 E1] [R1 W1] I1 N1 D1] [[T2 E2] [R2 W2] I2 N2 D2]. split; unfold same_timers, same_workflow; try split; try congruence. auto.
Qed.
Lemma quiet_activities s A H : quiet s (set_activities s A H).
Proof. by split. Qed.
Lemma quiet_delete_task s e ty : quiet s (deleteActivityTimeoutTask e ty s).
Proof.
  unfold deleteActivityTimeoutTask. destruct (_ !! _) as [i|] eqn:E; [|done]. split; try done. intros j [Hj|[k Hk]]; simpl in *.
  - apply elem_of_app in Hj as [Hj|Hj]; [by left|]. apply list_elem_of_singleton in Hj as ->. right. by eexists.
  - apply lookup_delete_Some in Hk as [_ Hk]. right. by eexists.
Qed.
Lemma quiet_delete_activity s e : quiet s (DeleteActivity e s).
Proof.
  unfold DeleteActivity. destruct (pendingActivityInfoIDs s !! e); [|done]. split; try done. intros j [Hj|[k Hk]].
  - apply elem_of_app in Hj as [Hj|Hj]; [by left|]. apply list_elem_of_omap in Hj as (ty & _ & Hj). right. by eexists.
  - simpl in Hk. rewrite !lookup_delete_Some in Hk. right. exists k. apply Hk.
Qed.

Section params.
Context (timeout_type_name : TimeoutType → string) (ExponentialBackoffAlgorithm : Z → Z → Z → Z) (rule_pauses : ActivityInfo → bool).
Notation RetryActivity := (RetryActivity timeout_type_name ExponentialBackoffAlgorithm rule_pauses).
Notation exec := (exec timeout_type_name ExponentialBackoffAlgorithm rule_pauses).
Notation processSingleActivityTimeoutTask := (processSingleActivityTimeoutTask timeout_type_name ExponentialBackoffAlgorithm rule_pauses).
Notation fire_activity_timers := (fire_activity_timers timeout_type_name ExponentialBackoffAlgorithm rule_pauses).
Notation executeActivityTimeoutTask := (executeActivityTimeoutTask timeout_type_name ExponentialBackoffAlgorithm rule_pauses).

Lemma quiet_retry now id failure s s' r : RetryActivity now id failure s = Ok (s', r) → quiet s s'.
Proof.
  unfold WorkflowTimers.RetryActivity. intros E. repeat case_match; simplify_eq; try done; apply quiet_activities.
Qed.
Lemma quiet_end id e s s' : AddActivityTaskCompletedEvent id e s = Ok s' → quiet s s'.
Proof. unfold AddActivityTaskCompletedEvent. case_match; [|done]. case_match; [done|]. intros [= <-]. apply quiet_delete_activity. Qed.
Lemma quiet_timed_out id e ty s s' : AddActivityTaskTimedOutEvent id e ty s = Ok s' → quiet s s'.
Proof. unfold AddActivityTaskTimedOutEvent. repeat case_match; try done. intros [= <-]. apply quiet_delete_activity. Qed.
Lemma quiet_process now f ai s s' b : processSingleActivityTimeoutTask now f ai s = Ok (s', b) → quiet s s'.
Proof.
  unfold WorkflowTimers.processSingleActivityTimeoutTask. case_match; [by intros [= <- <-]|]. destruct (RetryActivity _ _ _ s) as [[s1 r]|e|] eqn:E; [|by intros [= <- <-]|done].
  apply quiet_retry in E. destruct r; try (by intros [= <- <-]); (destruct (AddActivityTaskTimedOutEvent _ _ _ s1) as [s2| |] eqn:E2; [|done|done]; intros [= <- <-]; etrans; [done|]; by eapply quiet_timed_out).
Qed.
Lemma quiet_fire τ now l s b s' b' : fire_activity_timers τ now l s b = Ok (s', b') → quiet s s'.
Proof.
  revert s b. induction l as [|f l IH]; intros s b; simpl; [by intros [= <- <-]|]. destruct (IsTimeExpired τ now (Timestamp f)); simpl; [|by intros [= <- <-]].
  destruct (pendingActivityInfoIDs s !! EventID f) as [ai|]; [|apply IH]. destruct (processSingleActivityTimeoutTask now f ai s) as [[s1 b1]| |] eqn:E; try done. simpl.
  intros H%IH. apply quiet_process in E. by etrans.
Qed.
Lemma quiet_clear τ s s' b : clear_heartbeat τ s = Ok (s', b) → quiet s s'.
Proof.
  unfold clear_heartbeat. intros E. repeat case_match; simplify_eq; try done. unfold UpdateActivityTaskStatusWithTimerHeartbeat in E. case_match; [|done]. simpl in E. injection E as <- <-. apply quiet_activities.
Qed.
Lemma quiet_execute now τ s s' : executeActivityTimeoutTask now τ s = Ok (Some s') → quiet s s'.
Proof.
  unfold WorkflowTimers.executeActivityTimeoutTask. case_match; [done|]. destruct (clear_heartbeat τ s) as [[s1 b1]| |] eqn:E; try done. simpl.
  destruct (fire_activity_timers _ _ _ s1 b1) as [[s2 b2]| |] eqn:E2; try done. simpl. destruct b2; [|done]. intros [= <-]. apply quiet_clear in E. apply quiet_fire in E2. by etrans.
Qed.
End params.

(** No transaction closes before [start]; a task that is not dropped is not [far]. *)
Definition far (start t : Z) : Prop := start + maxScheduledTaskDuration < t.
(** A new task is in the list, if it was not dropped; and none is lost. *)
Lemma AddTasks_new now t e k s start : start ≤ now →
  far start t ∧ InsertTasks (AddTasks now t e k s) = InsertTasks s ∨ InsertTasks (AddTasks now t e k s) = InsertTasks s ++ [mkTask (next_task s) t e k].
Proof. intros L. simpl. destruct (Z.ltb_spec maxScheduledTaskDuration (t - now)); [left|by right]. unfold far. split; [lia|done]. Qed.
Lemma AddTasks_elem now t e k s τ : τ ∈ InsertTasks s → τ ∈ InsertTasks (AddTasks now t e k s).
Proof. intros H. simpl. case_match; [done|]. apply elem_of_app. by left. Qed.
Lemma elem_AddTasks now t e k s τ : τ ∈ InsertTasks (AddTasks now t e k s) → τ ∈ InsertTasks s ∨ τ = mkTask (next_task s) t e k.
Proof. simpl. case_match; [by left|]. rewrite elem_of_app, list_elem_of_singleton. tauto. Qed.

Section start.
Context (start : Z).

(** ** User timers are kept *)

(** A marked timer has its task, unless the task was dropped. *)
Definition user_tasks s Q : Prop := ∀ id ti, pendingTimerInfoIDs s !! id = Some ti → TaskStatus ti = TimerTaskStatusCreated → far start (ExpiryTime ti) ∨ has_user_task Q ti.
Lemma user_tasks_more s Q Q' id ti : user_tasks s Q → pendingTimerInfoIDs s !! id = Some ti → TaskStatus ti = TimerTaskStatusCreated → (∀ τ, τ ∈ Q → τ ∈ Q') → far start (ExpiryTime ti) ∨ has_user_task Q' ti.
Proof. intros T E C S. destruct (T id ti E C) as [F|(τ & Hτ & ?)]; [by left|right]. exists τ. split; [by apply S|done]. Qed.
Record user_ok s (q : list timer_task) : Prop := {
  uk_index : indexed_timers s;
  uk_tasks : running s = true → user_tasks s (q ++ InsertTasks s);
  uk_ids : ∀ τ, τ ∈ q ++ InsertTasks s → (task_id τ < next_task s)%nat ∧ (kind τ = UserTimerTask → ¬ deletable s (task_id τ));
  uk_fresh : ∀ i, deletable s i → (i < next_task s)%nat }.
(** What an operation does to user timers: a marked one was there before. *)
Record tamed s s' : Prop := {
  ta_index : indexed_timers s → indexed_timers s';
  ta_marked : ∀ id ti, pendingTimerInfoIDs s' !! id = Some ti → TaskStatus ti = TimerTaskStatusCreated → pendingTimerInfoIDs s !! id = Some ti;
  ta_running : running s' = true → running s = true;
  ta_insert : InsertTasks s' = InsertTasks s;
  ta_next : next_task s' = next_task s;
  ta_deletable : ∀ i, deletable s' i → deletable s i }.
Lemma quiet_tamed s s' : quiet s s' → tamed s s'.
Proof.
  intros [[T E] [R W] I N D]. split; try done; [|by rewrite T|by rewrite R]. intros X e id. rewrite T, E. apply X.
Qed.
Lemma fired_tamed s s' : fired s s' → tamed s s'.
Proof.
  intros [Sb Ix (A1 & A2 & A3) [R W] (I & B & N)]. split; try done; [|by rewrite R|].
  - intros id ti E _. by eapply lookup_weaken.
  - intros i. unfold deletable. by rewrite B, A3.
Qed.
Lemma user_tamed s s' q : user_ok s q → tamed s s' → user_ok s' q.
Proof.
  intros [I T Id F] [Ix M R In N D]. split; [by apply Ix| | |].
  - intros R' id ti E C. rewrite In. eapply T; [by apply R|by apply M|done].
  - intros τ. rewrite In, N. intros Hτ. destruct (Id τ Hτ) as [H1 H2]. split; [done|]. intros K X. by apply (H2 K), D.
  - intros i Hi. rewrite N. by apply F, D.
Qed.
Lemma timer_started s e now id d s' : AddTimerStartedEvent e now id d s = Ok s' → pendingTimerEventIDToID s !! e = None → tamed s s'.
Proof.
  unfold AddTimerStartedEvent. destruct (pendingTimerInfoIDs s !! id) eqn:E; [done|]. intros [= <-] N. split; try done; simpl.
  - intros I e' id'. simpl. destruct (decide (e' = e)) as [->|Ne].
    + simpl. rewrite lookup_insert_eq. split.
      * intros [= <-]. eexists. rewrite lookup_insert_eq. done.
      * intros (ti & Hti & He). destruct (decide (id' = id)) as [->|Ni]; [done|]. rewrite lookup_insert_ne in Hti by done.
        assert (pendingTimerEventIDToID s !! e = Some id') by (apply I; by exists ti). congruence.
    + rewrite lookup_insert_ne by done. rewrite (I e' id'). destruct (decide (id' = id)) as [->|Ni]; [|by setoid_rewrite (lookup_insert_ne _ _ _ _ (not_eq_sym Ni))].
      setoid_rewrite lookup_insert_eq. split; [by intros (ti & Hti & _); congruence|]. intros (ti & [= <-] & He). simpl in He. congruence.
  - intros id' ti. destruct (decide (id' = id)) as [->|Ni]; [|by rewrite lookup_insert_ne]. rewrite lookup_insert_eq. by intros [= <-].
Qed.
Lemma delete_timer_tamed s id ti : pendingTimerInfoIDs s !! id = Some ti → tamed s (DeleteUserTimer id s).
Proof.
  intros E. split; try done; [intros I; by eapply delete_indexed|]. unfold DeleteUserTimer. simpl. intros id' ti' [_ E']%lookup_delete_Some. done.
Qed.
Lemma exec_tamed tn eb rp pauses o s s' : op_fits pauses s o → exec tn eb rp o s = Ok s' → tamed s s'.
Proof.
  destruct o as [e now id d|buf id|e now lim p|e now id|now id|id e|now id failure|buf id|next id lim p|id|now ra rh id|]; simpl; intros Hf E.
  - by eapply timer_started.
  - unfold AddTimerCanceledEvent in E. destruct (pendingTimerInfoIDs s !! id) as [ti|] eqn:Ei; [|destruct buf; [|done]]; injection E as <-; [by eapply delete_timer_tamed|by apply quiet_tamed].
  - injection E as <-. apply quiet_tamed, quiet_activities.
  - unfold AddActivityTaskStartedEvent in E. case_match; [|done]. injection E as <-. apply quiet_tamed. etrans; [apply quiet_activities|apply quiet_delete_task].
  - unfold UpdateActivityProgress in E. repeat case_match; try done. injection E as <-. apply quiet_tamed. etrans; [apply quiet_activities|apply quiet_delete_task].
  - by eapply quiet_tamed, quiet_end.
  - destruct (RetryActivity _ _ _ _ _ _ s) as [[s1 r]| |] eqn:Er; try done. simpl in E. apply quiet_tamed. apply quiet_retry in Er. destruct (decide _); [by injection E as <-|].
    destruct (_ !! id); [|done]. etrans; [done|by eapply quiet_end].
  - unfold AddActivityTaskCancelRequestedEvent in E. repeat case_match; try done; injection E as <-; apply quiet_tamed; done || apply quiet_activities.
  - unfold updateActivityOptions in E. case_match; [|done]. injection E as <-. apply quiet_tamed, quiet_activities.
  - unfold PauseActivity in E. repeat case_match; try done; injection E as <-; apply quiet_tamed; done || apply quiet_activities.
  - unfold UnpauseActivity in E. case_match; [|done]. injection E as <-. apply quiet_tamed, quiet_activities.
  - by injection E as <-.
Qed.
Lemma transaction_user tn eb rp pauses s s' q : transaction tn eb rp pauses s s' → user_ok s q → user_ok s' q.
Proof. induction 1 as [|s o s1 s2 _ Hf E _ IH]; [done|]. intros U. apply IH. eapply user_tamed; [done|]. by eapply exec_tamed. Qed.

(** ** The end of a transaction *)

Lemma create_activity_user now s s' b q : CreateNextActivityTimer now s = Ok (s', b) → user_ok s q → user_ok s' q ∧ running s' = running s.
Proof.
  unfold CreateNextActivityTimer. intros E U. destruct (LoadAndSortActivityTimers s) as [|f l]; [by injection E as <- <-|]. destruct (after_run s f); [by injection E as <- <-|].
  destruct (TimerCreated f); [by injection E as <- <-|]. destruct (pendingActivityInfoIDs s !! EventID f) as [ai|]; [|done].
  unfold UpdateActivityTaskStatusWithTimerHeartbeat in E. destruct (pendingActivityInfoIDs s !! ScheduledEventId ai); [|done]. simpl in E. injection E as <- <-. split; [|done].
  destruct U as [I T Id F].
  assert (∀ i k, (<[(EventID f, type_number (TimerType f)) := next_task s]> (activityTimeoutTasks s)) !! k = Some i → i = next_task s ∨ deletable s i) as Hs.
  { intros i k [[_ <-]|[_ Hk]]%lookup_insert_Some; [by left|right; right; by eexists]. }
  split; cbn [InsertTasks StoreActivityTimeoutTask set_stored].
  - exact I.
  - intros R id ti Hti C. eapply user_tasks_more; [exact (T R)|done|done|]. intros τ. rewrite !elem_of_app. intros [?|?]; [by left|right; by apply AddTasks_elem].
  - intros τ. rewrite elem_of_app. intros H. assert (τ ∈ q ++ InsertTasks s ∨ τ = mkTask (next_task s) (Timestamp f) (EventID f) (ActivityTimeoutTask (TimerType f) (seq_Attempt f) (Stamp ai))) as [Hτ| ->].
    { rewrite elem_of_app. destruct H as [H|H%elem_AddTasks]; [tauto|]. destruct H; tauto. }
    2: { split; [simpl; lia|done]. }
    destruct (Id τ Hτ) as [H1 H2]. split; [simpl; lia|].
    intros K [Hd|[k Hk]]; simpl in *; [apply (H2 K); by left|]. destruct (Hs _ _ Hk) as [Ei|Hd]; [lia|]. by apply (H2 K).
  - intros i [Hd|[k Hk]]; simpl in *; [assert (i < next_task s)%nat by (apply F; by left); lia|]. destruct (Hs _ _ Hk) as [->|Hd]; [lia|]. pose proof (F i Hd). lia.
Qed.
Lemma user_head s f l : LoadAndSortUserTimers s = f :: l → ∃ id ti, pendingTimerInfoIDs s !! id = Some ti ∧ f = user_seq ti.
Proof. intros E. apply elem_user_seqs. rewrite <- load_user, E. by left. Qed.
Lemma load_user_sort s : LoadAndSortUserTimers s = sort (user_seqs (pendingTimerInfoIDs s)).
Proof. unfold LoadAndSortUserTimers, user_seqs. by f_equal. Qed.
Lemma create_user now s q : start ≤ now → user_ok s q → ∃ s' b, CreateNextUserTimer now s = Ok (s', b) ∧ user_ok s' q ∧ same_activities s s' ∧ running s' = running s ∧ WorkflowRunExpirationTime s' = WorkflowRunExpirationTime s ∧
  first_user s' ∧ (∀ τ, τ ∈ InsertTasks s → τ ∈ InsertTasks s').
Proof.
  intros L U. unfold CreateNextUserTimer, first_user. destruct (LoadAndSortUserTimers s) as [|f l] eqn:E; [exists s, false; split_and!; try done; by rewrite E|].
  destruct (after_run s f) eqn:Ea; [exists s, false; split_and!; try done; rewrite E; intros ? ? [= <- <-]; by left|].
  destruct (TimerCreated f) eqn:Ec; [exists s, false; split_and!; try done; rewrite E; intros ? ? [= <- <-]; by right|].
  destruct (user_head s f l E) as (id & ti & Hti & ->). destruct U as [I T Id F]. assert (pendingTimerEventIDToID s !! ti_StartedEventId ti = Some id) as Ee by (apply I; by exists ti).
  simpl. rewrite Ee. unfold UpdateUserTimerTaskStatus. rewrite Hti. simpl. set (ti' := mkTimer (ExpiryTime ti) (ti_StartedEventId ti) TimerTaskStatusCreated).
  eexists _, true. split; [reflexivity|]. set (s' := AddTasks _ _ _ _ _).
  assert (∀ id0 ti0, pendingTimerInfoIDs s' !! id0 = Some ti0 → id0 = id ∧ ti0 = ti' ∨ id0 ≠ id ∧ pendingTimerInfoIDs s !! id0 = Some ti0) as Hl.
  { intros id0 ti0. simpl. intros [[<- <-]|[N H]]%lookup_insert_Some; [by left|right; by split]. }
  split_and!; try done.
  - split; simpl.
    + intros e id0. simpl. rewrite (I e id0). destruct (decide (id0 = id)) as [->|N]; [setoid_rewrite lookup_insert_eq|by setoid_rewrite (lookup_insert_ne _ _ _ _ (not_eq_sym N))]. rewrite Hti. split; intros (x & [= <-] & He); eexists; done.
    + intros R id0 ti0 H0 C0. destruct (Hl id0 ti0 H0) as [[-> ->]|[N H1]].
      * destruct (AddTasks_new now (ExpiryTime ti) (ti_StartedEventId ti) UserTimerTask (set_timers s (<[id:=ti']> (pendingTimerInfoIDs s)) (pendingTimerEventIDToID s)) start L) as [[? _]|X]; [by left|right].
        simpl in X. rewrite X. eexists. split; [apply elem_of_app; right; apply elem_of_app; right; by left|]. done.
      * eapply user_tasks_more; [exact (T R)|done|done|]. intros τ. rewrite !elem_of_app. intros [?|?]; [by left|right]. by case_match; [|apply elem_of_app; left].
    + intros τ H. assert (τ ∈ q ++ InsertTasks s ∨ τ = mkTask (next_task s) (ExpiryTime ti) (ti_StartedEventId ti) UserTimerTask) as [Hτ| ->].
      { rewrite elem_of_app in *. destruct H as [H|H]; [tauto|]. revert H. case_match; [tauto|]. rewrite elem_of_app, list_elem_of_singleton. tauto. }
      * destruct (Id τ Hτ) as [H1 H2]. split; [lia|done].
      * split; [simpl; lia|]. intros _ X. pose proof (F _ X). simpl in *. lia.
    + intros i Hi. pose proof (F i Hi). lia.
  - intros f1 l1 E1. right. rewrite load_user_sort in E, E1. assert (same_timer (user_seq ti) f1) as (S1 & S2 & S3).
    { apply (first_same _ _ _ _ _ _ E E1).
      - intros g (id0 & ti0 & H0 & ->)%elem_user_seqs. destruct (decide (id0 = id)) as [->|N].
        + exists (user_seq ti'). split; [apply elem_user_seqs; exists id, ti'; split; [apply lookup_insert_eq|done]|]. assert (ti0 = ti) as -> by congruence. done.
        + exists (user_seq ti0). split; [|done]. apply elem_user_seqs. exists id0, ti0. split; [simpl; by rewrite lookup_insert_ne|done].
      - intros g (id0 & ti0 & H0 & ->)%elem_user_seqs. destruct (Hl id0 ti0 H0) as [[-> ->]|[N H1]].
        + exists (user_seq ti). split; [apply elem_user_seqs; by exists id, ti|done].
        + exists (user_seq ti0). split; [apply elem_user_seqs; by exists id0, ti0|done]. }
    assert (f1 ∈ user_seqs (pendingTimerInfoIDs s')) as (id0 & ti0 & H0 & ->)%elem_user_seqs by (apply sort_head in E1; apply E1).
    destruct (Hl id0 ti0 H0) as [[-> ->]|[N H1]]; [done|]. exfalso. apply N. assert (pendingTimerEventIDToID s !! ti_StartedEventId ti0 = Some id0) as X by (apply I; by exists ti0).
    simpl in S2. congruence.
  - intros τ Hτ. by apply AddTasks_elem.
Qed.

(** ** Activities *)

Definition act_seqs (A : gmap Z ActivityInfo) : list TimerSequenceID := concat (map (λ p, activity_timers p.2) (map_to_list A)).
Lemma load_activities s : LoadAndSortActivityTimers s = sort (act_seqs (pendingActivityInfoIDs s)).
Proof. done. Qed.
Lemma elem_act_seqs A f : f ∈ act_seqs A ↔ ∃ id ai, A !! id = Some ai ∧ f ∈ activity_timers ai.
Proof.
  unfold act_seqs. rewrite list_elem_of_In, in_concat. split.
  - intros (x & Hx%list_elem_of_In & Hf%list_elem_of_In). apply list_elem_of_fmap in Hx as ([id ai] & -> & H%elem_of_map_to_list). by exists id, ai.
  - intros (id & ai & H & Hf). exists (activity_timers ai). split; apply list_elem_of_In; [|done]. apply list_elem_of_fmap. exists (id, ai). split; [done|]. by apply elem_of_map_to_list.
Qed.

(** What an activity's timer of a type is due. *)
Definition due (ai : ActivityInfo) (ty : TimeoutType) : Z :=
  match ty with
  | START_TO_CLOSE => TimeValue (StartedTime ai) + StartToCloseTimeout (limits ai)
  | SCHEDULE_TO_START => TimeValue (ScheduledTime ai) + ScheduleToStartTimeout (limits ai)
  | SCHEDULE_TO_CLOSE => match FirstScheduledTime ai with Some t => t | None => TimeValue (ScheduledTime ai) end + ScheduleToCloseTimeout (limits ai)
  | HEARTBEAT => lastHeartbeat ai + HeartbeatTimeout (limits ai)
  end.
(** Whether it has one. *)
Definition timed (ai : ActivityInfo) (ty : TimeoutType) : Prop :=
  Paused ai = false ∧ ScheduledEventId ai ≠ EmptyEventID ∧
  match ty with
  | START_TO_CLOSE => StartedEventId ai ≠ EmptyEventID ∧ StartToCloseTimeout (limits ai) ≠ 0
  | SCHEDULE_TO_START => StartedEventId ai = EmptyEventID ∧ ScheduleToStartTimeout (limits ai) ≠ 0
  | SCHEDULE_TO_CLOSE => ScheduleToCloseTimeout (limits ai) ≠ 0
  | HEARTBEAT => StartedEventId ai ≠ EmptyEventID ∧ HeartbeatTimeout (limits ai) ≠ 0
  end.
Lemma elem_activity_timers ai f : f ∈ activity_timers ai ↔ ∃ ty, timed ai ty ∧ f = seq_id ai ty (due ai ty).
Proof.
  unfold activity_timers, timed. destruct (Paused ai); [split; [by intros ?%not_elem_of_nil|by intros (ty & (? & _) & _)]|].
  rewrite list_elem_of_omap. split.
  - intros (g & Hg & E). rewrite !elem_of_cons, elem_of_nil in Hg. destruct Hg as [->|[->|[->|[->|[]]]]]; revert E;
      unfold getActivityScheduleToCloseTimeout, getActivityScheduleToStartTimeout, getActivityStartToCloseTimeout, getActivityHeartbeatTimeout;
      (destruct (Z.eqb_spec (ScheduledEventId ai) EmptyEventID); [done|]); repeat (match goal with |- context [?a =? ?b] => destruct (Z.eqb_spec a b) end; simpl); try done; intros [= <-];
      [exists SCHEDULE_TO_CLOSE|exists SCHEDULE_TO_START|exists START_TO_CLOSE|exists HEARTBEAT]; done.
  - intros (ty & (_ & Hs & Ht) & ->).
    exists match ty with START_TO_CLOSE => getActivityStartToCloseTimeout | SCHEDULE_TO_START => getActivityScheduleToStartTimeout | SCHEDULE_TO_CLOSE => getActivityScheduleToCloseTimeout | HEARTBEAT => getActivityHeartbeatTimeout end.
    split; [destruct ty; set_solver|]. destruct ty; unfold getActivityScheduleToCloseTimeout, getActivityScheduleToStartTimeout, getActivityStartToCloseTimeout, getActivityHeartbeatTimeout;
      rewrite (proj2 (Z.eqb_neq (ScheduledEventId ai) _) Hs).
    + destruct Ht as [H1 H2]. by rewrite (proj2 (Z.eqb_neq _ _) H1), (proj2 (Z.eqb_neq _ _) H2).
    + destruct Ht as [H1 H2]. by rewrite (proj2 (Z.eqb_eq _ _) H1), (proj2 (Z.eqb_neq _ _) H2).
    + by rewrite (proj2 (Z.eqb_neq _ _) Ht).
    + destruct Ht as [H1 H2]. by rewrite (proj2 (Z.eqb_neq _ _) H1), (proj2 (Z.eqb_neq _ _) H2).
Qed.

(** A timer whose task exists, so the mark says. *)
Definition marked (ai : ActivityInfo) (ty : TimeoutType) : Prop := timed ai ty ∧ created (TimerTaskStatus ai) ty = true.
Definition unmarked (ai : ActivityInfo) : Prop := ∀ ty, ¬ marked ai ty.
Definition unpaused (id : Z) (ai : ActivityInfo) : Prop :=
  ScheduledEventId ai = id ∧ id ≠ EmptyEventID ∧ Paused ai = false ∧ limits_ok (limits ai) ∧ (StartedEventId ai ≠ EmptyEventID → year2000 ≤ TimeValue (StartedTime ai)) ∧
  (StartedEventId ai = EmptyEventID → created (TimerTaskStatus ai) START_TO_CLOSE = false ∧ created (TimerTaskStatus ai) HEARTBEAT = false).
Definition all_unpaused s : Prop := ∀ id ai, pendingActivityInfoIDs s !! id = Some ai → unpaused id ai.
(** A heartbeat moves its timeout; the time of the task that exists is remembered instead. *)
Definition relies (H : gmap Z Z) (id : Z) (ai : ActivityInfo) (ty : TimeoutType) (τ : timer_task) : Prop :=
  match ty with
  | HEARTBEAT => year2000 ≤ VisibilityTimestamp τ ∧ ∃ v, H !! id = Some v ∧ v ≤ VisibilityTimestamp τ
  | _ => Truncate (due ai ty) ≤ Truncate (VisibilityTimestamp τ)
  end.
Definition task_of (id : Z) (ty : TimeoutType) (τ : timer_task) : Prop := task_EventID τ = id ∧ ∃ n stamp, kind τ = ActivityTimeoutTask ty n stamp.
Definition has_activity_task (Q : list timer_task) (H : gmap Z Z) (id : Z) (ai : ActivityInfo) (ty : TimeoutType) : Prop := ∃ τ, τ ∈ Q ∧ task_of id ty τ ∧ relies H id ai ty τ.
(** A marked timer has its task, unless the task was dropped. *)
Record activities_ok s (q : list timer_task) : Prop := {
  ao_unpaused : all_unpaused s;
  ao_tasks : running s = true → ∀ id ai ty, pendingActivityInfoIDs s !! id = Some ai → marked ai ty → far start (due ai ty) ∨ has_activity_task (q ++ InsertTasks s) (pendingActivityTimerHeartbeats s) id ai ty }.

(** No mark is new, and no marked timer is due at another time, but a heartbeat's, which may be due later. *)
Definition marks_kept (ai ai' : ActivityInfo) : Prop := ∀ ty, marked ai' ty → marked ai ty ∧ (due ai' ty = due ai ty ∨ ty = HEARTBEAT ∧ due ai ty ≤ due ai' ty).
Record kept s s' : Prop := {
  ke_activities : ∀ id ai', pendingActivityInfoIDs s' !! id = Some ai' → unpaused id ai' ∧
    (unmarked ai' ∨ ∃ ai, pendingActivityInfoIDs s !! id = Some ai ∧ marks_kept ai ai' ∧ pendingActivityTimerHeartbeats s' !! id = pendingActivityTimerHeartbeats s !! id);
  ke_running : running s' = true → running s = true;
  ke_insert : InsertTasks s' = InsertTasks s }.
Lemma kept_unpaused s s' : kept s s' → all_unpaused s'.
Proof. intros K id ai E. by destruct (ke_activities _ _ K id ai E). Qed.
Lemma kept_refl s : all_unpaused s → kept s s.
Proof. intros G. split; [|done|done]. intros id ai E. split; [by apply G|]. right. exists ai. split; [done|]. split; [|done]. intros ty M. split; [done|by left]. Qed.
Lemma kept_trans s1 s2 s3 : kept s1 s2 → kept s2 s3 → kept s1 s3.
Proof.
  intros [A R I] [A' R' I']. split; [|auto|congruence]. intros id ai' E. destruct (A' id ai' E) as [G [U|(ai & E2 & K & Hh)]]; [split; [done|by left]|]. split; [done|].
  destruct (A id ai E2) as [_ [U|(ai0 & E1 & K0 & Hh0)]]; [left; intros ty M; by apply (U ty), K|]. right. exists ai0. split; [done|]. split; [|congruence].
  intros ty M. destruct (K ty M) as [M1 D1], (K0 ty (proj1 (K ty M))) as [M0 D0]. split; [done|]. destruct D1 as [D1|[-> D1]], D0 as [D0|[? D0]]; [left; congruence|right; split; [done|lia]..].
Qed.
Lemma kept_ok s s' q : activities_ok s q → kept s s' → activities_ok s' q.
Proof.
  intros [G T] K. split; [by eapply kept_unpaused|]. intros R id ai ty E M. destruct (ke_activities _ _ K id ai E) as [_ [U|(ai0 & E0 & K0 & Hh)]]; [by destruct (U ty)|].
  destruct (K0 ty M) as [M0 D]. rewrite (ke_insert _ _ K). destruct (T (ke_running _ _ K R) id ai0 ty E0 M0) as [F|(τ & Hτ & O & Re)]; [left; unfold far in *; destruct D as [D|[_ D]]; lia|right].
  exists τ. split; [done|]. split; [done|]. destruct D as [D|[-> D]]; [|simpl in Re |- *; by rewrite Hh]. destruct ty; simpl in *; (rewrite D || rewrite Hh); done.
Qed.

Lemma kept_set s id ai : all_unpaused s → unpaused id ai → (unmarked ai ∨ ∃ ai0, pendingActivityInfoIDs s !! id = Some ai0 ∧ marks_kept ai0 ai) → kept s (set_activity s id ai).
Proof.
  intros G U M. split; [|done|done]. simpl. intros id' ai' [[<- <-]|[N E]]%lookup_insert_Some.
  - split; [done|]. destruct M as [M|(ai0 & E & M)]; [by left|right; by exists ai0].
  - by apply (ke_activities _ _ (kept_refl s G)).
Qed.
Lemma kept_same s s' : all_unpaused s → running s' = running s → pendingActivityInfoIDs s' = pendingActivityInfoIDs s → pendingActivityTimerHeartbeats s' = pendingActivityTimerHeartbeats s →
  InsertTasks s' = InsertTasks s → kept s s'.
Proof.
  intros G R A H I. split; [|by rewrite R|done]. intros id ai. rewrite A, H. apply (ke_activities _ _ (kept_refl s G)).
Qed.
Lemma kept_delete_task s e ty : all_unpaused s → kept s (deleteActivityTimeoutTask e ty s).
Proof. intros G. unfold deleteActivityTimeoutTask. destruct (_ !! _); by apply kept_same. Qed.
Lemma kept_delete_activity s e : all_unpaused s → kept s (DeleteActivity e s).
Proof.
  intros G. unfold DeleteActivity. destruct (pendingActivityInfoIDs s !! e); [|by apply kept_refl]. split; [|done|done]. simpl. intros id ai [N E]%lookup_delete_Some.
  rewrite lookup_delete_ne by done. by apply (ke_activities _ _ (kept_refl s G)).
Qed.
Lemma unmarked_none ai : TimerTaskStatus ai = TimerTaskStatusNone → unmarked ai.
Proof. intros E ty [_ C]. by rewrite E, created_none in C. Qed.

(** What operations do to an activity. *)
Lemma scheduled_unpaused event now lim policy : event ≠ EmptyEventID → limits_ok lim →
  ∃ ai, ApplyActivityTaskScheduledEvent event now lim policy = (λ s, set_activity s event ai) ∧ unpaused event ai ∧ unmarked ai.
Proof. intros N L. eexists. split; [done|]. split; [done|by apply unmarked_none]. Qed.
Lemma started_unpaused id event now ai : unpaused id ai → StartedEventId ai = EmptyEventID → event ≠ EmptyEventID → year2000 ≤ now →
  unpaused id (set_started event (Some now) ai) ∧ marks_kept ai (set_started event (Some now) ai).
Proof.
  intros (H1 & H2 & H3 & H4 & H5 & H6) E N Y. destruct (H6 E) as [C1 C2]. split; [done|]. intros ty [(T1 & T2 & T3) C]. destruct ty; simpl in *; try (unfold created in *; simpl in *; congruence); [by destruct T3|].
  split; [done|by left].
Qed.
Lemma heartbeat_unpaused id t ai : unpaused id ai → year2000 ≤ t → (∀ t0, LastHeartbeatUpdateTime ai = Some t0 → t0 ≤ t) →
  unpaused id (set_heartbeat (Some t) ai) ∧ marks_kept ai (set_heartbeat (Some t) ai).
Proof.
  intros U Y L. split; [done|]. intros ty M. split; [done|]. destruct ty; auto. right. split; [done|]. simpl. unfold lastHeartbeat, year2000 in *. simpl.
  destruct (LastHeartbeatUpdateTime ai) as [t0|]; simpl; [specialize (L t0 eq_refl)|]; repeat match goal with |- context [Z.eqb ?a ?b] => destruct (Z.eqb_spec a b) | |- context [Z.ltb ?a ?b] => destruct (Z.ltb_spec a b) end; simpl; lia.
Qed.
Lemma cancel_unpaused id ai : unpaused id ai → unpaused id (set_cancel_requested ai) ∧ marks_kept ai (set_cancel_requested ai).
Proof. intros U. split; [done|]. intros ty M. split; [done|by left]. Qed.
Lemma retry_unpaused id n t ai : unpaused id ai → unpaused id (UpdateActivityInfoForRetries n t ai) ∧ unmarked (UpdateActivityInfoForRetries n t ai).
Proof. intros (H1 & H2 & H3 & H4 & H5 & H6). split; [|by apply unmarked_none]. done. Qed.
Lemma unmark_unpaused id ty ai : unpaused id ai → unpaused id (set_status (Z.ldiff (TimerTaskStatus ai) (timerTypeToTimerMask ty)) ai) ∧ marks_kept ai (set_status (Z.ldiff (TimerTaskStatus ai) (timerTypeToTimerMask ty)) ai).
Proof.
  intros (H1 & H2 & H3 & H4 & H5 & H6). split.
  - split_and!; try done. simpl. intros E. rewrite !created_unmark. by destruct (H6 E) as [-> ->].
  - intros ty' [T C]. simpl in C. rewrite created_unmark in C. apply andb_true_iff in C as [C _]. split; [done|by left].
Qed.

Section activities.
Context (timeout_type_name : TimeoutType → string) (ExponentialBackoffAlgorithm : Z → Z → Z → Z) (rule_pauses : ActivityInfo → bool).
Hypothesis no_rule : ∀ ai, rule_pauses ai = false.
Notation RetryActivity := (RetryActivity timeout_type_name ExponentialBackoffAlgorithm rule_pauses).
Notation exec := (exec timeout_type_name ExponentialBackoffAlgorithm rule_pauses).
Notation processSingleActivityTimeoutTask := (processSingleActivityTimeoutTask timeout_type_name ExponentialBackoffAlgorithm rule_pauses).
Notation fire_activity_timers := (fire_activity_timers timeout_type_name ExponentialBackoffAlgorithm rule_pauses).
Notation executeActivityTimeoutTask := (executeActivityTimeoutTask timeout_type_name ExponentialBackoffAlgorithm rule_pauses).

(** Without pauses, an activity is retried or left alone. *)
Lemma retry_spec now id failure s ai : all_unpaused s → pendingActivityInfoIDs s !! id = Some ai →
  (∃ t, RetryActivity now id failure s = Ok (set_activity s id (UpdateActivityInfoForRetries (Attempt ai + 1) t ai), IN_PROGRESS)) ∨
  (∃ r, RetryActivity now id failure s = Ok (s, r) ∧ r ≠ IN_PROGRESS).
Proof.
  intros G E. destruct (G id ai E) as (_ & _ & P & _). unfold WorkflowTimers.RetryActivity. rewrite E, no_rule, andb_false_r, P.
  destruct (HasRetryPolicy (retry ai)); simpl; [|right; by eexists]. destruct (CancelRequested ai); [right; by eexists|]. destruct (isRetryable _ _ _); simpl; [|right; by eexists].
  destruct (nextBackoffInterval _ _ _ _ _ _ _ _) as [b r]. case_decide; [left; by eexists|right; by eexists].
Qed.
Lemma kept_retry now id failure s s' r : all_unpaused s → RetryActivity now id failure s = Ok (s', r) → kept s s'.
Proof.
  intros G R. destruct (pendingActivityInfoIDs s !! id) as [ai|] eqn:E; [|unfold WorkflowTimers.RetryActivity in R; by rewrite E in R].
  destruct (retry_spec now id failure s ai G E) as [(t & X)|(r' & X & _)]; rewrite X in R; injection R as <- <-; [|by apply kept_refl].
  destruct (retry_unpaused id (Attempt ai + 1) t ai (G id ai E)). apply kept_set; auto.
Qed.
Lemma kept_end id e s s' : all_unpaused s → AddActivityTaskCompletedEvent id e s = Ok s' → kept s s'.
Proof. unfold AddActivityTaskCompletedEvent. case_match; [|done]. case_match; [done|]. intros G [= <-]. by apply kept_delete_activity. Qed.
Lemma kept_exec o s s' : all_unpaused s → op_fits false s o → exec o s = Ok s' → kept s s'.
Proof.
  intros G. destruct o as [e now id d|buf id|e now lim p|e now id|now id|id e|now id failure|buf id|next id lim p|id|now ra rh id|]; simpl; intros Hf E.
  - unfold AddTimerStartedEvent in E. case_match; [done|]. injection E as <-. by apply kept_same.
  - unfold AddTimerCanceledEvent in E. repeat case_match; try done; injection E as <-; by apply kept_same.
  - injection E as <-. destruct Hf as (N & _ & L). destruct (scheduled_unpaused e now lim p N L) as (ai & -> & U & M). apply kept_set; auto.
  - unfold AddActivityTaskStartedEvent in E. destruct (pendingActivityInfoIDs s !! id) as [ai|] eqn:Ei; [|done]. injection E as <-. destruct Hf as (N & Y & St).
    destruct (started_unpaused id (if HasRetryPolicy (retry ai) then TransientEventID else e) now ai (G id ai Ei) (St ai eq_refl)) as [U M]; [by case_match|done|].
    assert (kept s (set_activity s id (set_started (if HasRetryPolicy (retry ai) then TransientEventID else e) (Some now) ai))) as K by (apply kept_set; eauto).
    eapply kept_trans; [exact K|]. apply kept_delete_task. by eapply kept_unpaused.
  - unfold UpdateActivityProgress in E. destruct (pendingActivityInfoIDs s !! id) as [ai|] eqn:Ei; [|done]. case_match; [done|]. injection E as <-.
    destruct Hf as [Y L]. destruct (heartbeat_unpaused id now ai (G id ai Ei) Y) as [U M]; [by intros t0; apply L|]. assert (kept s (set_activity s id (set_heartbeat (Some now) ai))) as K by (apply kept_set; eauto).
    eapply kept_trans; [exact K|]. apply kept_delete_task. by eapply kept_unpaused.
  - by eapply kept_end.
  - destruct (RetryActivity now id (Some failure) s) as [[s1 r]| |] eqn:Er; try done. simpl in E. apply kept_retry in Er; [|done]. destruct (decide _); [by injection E as <-|].
    destruct (pendingActivityInfoIDs s1 !! id); [|done]. eapply kept_trans; [exact Er|]. eapply kept_end; [by eapply kept_unpaused|done].
  - unfold AddActivityTaskCancelRequestedEvent in E. destruct (pendingActivityInfoIDs s !! id) as [ai|] eqn:Ei; [|destruct buf; [injection E as <-; by apply kept_refl|done]]. case_match; [done|]. injection E as <-.
    destruct (cancel_unpaused id ai (G id ai Ei)). apply kept_set; eauto.
  - unfold updateActivityOptions in E. destruct (pendingActivityInfoIDs s !! id) as [ai|] eqn:Ei; [|done]. injection E as <-. destruct (G id ai Ei) as (H1 & H2 & H3 & H4 & H5 & H6).
    set (ai' := mkActivity _ _ _ _ _ _ _ _ _ _ _ _ _). assert (unpaused id ai') as U by done. destruct (GetActivityState_scheduled ai').
    + destruct (retry_unpaused id (Attempt ai) next ai' U). apply kept_set; auto.
    + apply kept_set; [done|done|]. left. by apply unmarked_none.
  - done.
  - unfold UnpauseActivity in E. destruct (pendingActivityInfoIDs s !! id) as [ai|] eqn:Ei; [|done]. destruct (G id ai Ei) as (_ & _ & P & _). rewrite (Hf ai eq_refl) in P. done.
  - injection E as <-. split; [|done|done]. apply (ke_activities _ _ (kept_refl s G)).
Qed.
Lemma kept_transaction s s' : all_unpaused s → transaction timeout_type_name ExponentialBackoffAlgorithm rule_pauses false s s' → kept s s'.
Proof.
  intros G. induction 1 as [|s o s1 s2 _ Hf E _ IH]; [by apply kept_refl|]. pose proof (kept_exec o s s1 G Hf E) as K. eapply kept_trans; [exact K|]. apply IH. by eapply kept_unpaused.
Qed.

(** The loop of the executor, from the activities [A] it loaded: one that is not as it was has been retried, and its timers are skipped. *)
Definition touched (ai0 ai : ActivityInfo) : Prop := TimerTaskStatus ai = TimerTaskStatusNone ∧ Attempt ai0 < Attempt ai.
Definition since (A A' : gmap Z ActivityInfo) : Prop := ∀ id ai, A' !! id = Some ai → ∃ ai0, A !! id = Some ai0 ∧ (ai = ai0 ∨ touched ai0 ai).
Lemma since_refl A : since A A.
Proof. intros id ai E. exists ai. auto. Qed.
Lemma since_trans A1 A2 A3 : since A1 A2 → since A2 A3 → since A1 A3.
Proof.
  intros H1 H2 id ai E. destruct (H2 id ai E) as (ai2 & E2 & T2). destruct (H1 id ai2 E2) as (ai1 & E1 & T1). exists ai1. split; [done|].
  destruct T2 as [->|[S2 L2]]; [done|]. right. split; [done|]. destruct T1 as [->|[_ L1]]; lia.
Qed.
Definition belongs (A : gmap Z ActivityInfo) f : Prop := ∃ ai ty, A !! EventID f = Some ai ∧ timed ai ty ∧ f = seq_id ai ty (due ai ty).
(** One timer that has expired: its activity is retried or ends. *)
Lemma process_spec now f ai s : all_unpaused s → pendingActivityInfoIDs s !! EventID f = Some ai → (∃ ty, timed ai ty ∧ f = seq_id ai ty (due ai ty)) →
  ∃ s', processSingleActivityTimeoutTask now f ai s = Ok (s', true) ∧ kept s s' ∧ since (pendingActivityInfoIDs s) (pendingActivityInfoIDs s') ∧
    (∀ ai', pendingActivityInfoIDs s' !! EventID f = Some ai' → touched ai ai') ∧ ∀ id, id ≠ EventID f → pendingActivityInfoIDs s' !! id = pendingActivityInfoIDs s !! id.
Proof.
  intros G E (ty & T & ->). simpl in *. unfold WorkflowTimers.processSingleActivityTimeoutTask. simpl. rewrite Z.ltb_irrefl.
  destruct (retry_spec now (ScheduledEventId ai) (Some (TimeoutFailure ty)) s ai G E) as [(t & X)|(r & X & N)]; rewrite X.
  - eexists. split; [reflexivity|]. split_and!.
    + by eapply kept_retry.
    + simpl. intros id ai' [[<- <-]|[Ni E']]%lookup_insert_Some; [exists ai|exists ai']; [|by auto]. split; [done|]. right. split; [done|simpl; lia].
    + simpl. intros ai'. rewrite lookup_insert_eq. intros [= <-]. split; [done|simpl; lia].
    + intros id Ni. simpl. by rewrite lookup_insert_ne.
  - unfold AddActivityTaskTimedOutEvent. rewrite E, Z.eqb_refl. simpl. set (ty' := if decide _ then _ else _).
    assert ((bool_decide (ty' = START_TO_CLOSE ∨ ty' = HEARTBEAT) && (StartedEventId ai =? EmptyEventID)) = false) as Z0.
    { apply andb_false_iff. destruct (Z.eqb_spec (StartedEventId ai) EmptyEventID) as [E0|]; [left|by right]. apply bool_decide_eq_false. subst ty'. case_decide; [by intros [|]|]. destruct T as (_ & _ & T).
      intros [->| ->]; by destruct T. }
    rewrite Z0. exists (DeleteActivity (ScheduledEventId ai) s). split; [by destruct r|]. split_and!.
    + by apply kept_delete_activity.
    + unfold DeleteActivity. rewrite E. simpl. intros id ai' [_ E']%lookup_delete_Some. exists ai'. auto.
    + unfold DeleteActivity. rewrite E. simpl. intros ai'. by rewrite lookup_delete_eq.
    + intros id Ni. unfold DeleteActivity. rewrite E. simpl. by rewrite lookup_delete_ne.
Qed.
Lemma fire_spec τ now A l s b : all_unpaused s → in_order l → (∀ f, f ∈ l → belongs A f) → since A (pendingActivityInfoIDs s) →
  ∃ s' b', fire_activity_timers τ now l s b = Ok (s', b') ∧ kept s s' ∧ since (pendingActivityInfoIDs s) (pendingActivityInfoIDs s') ∧
    (∀ id ai, pendingActivityInfoIDs s' !! id = Some ai → (∃ ai0, A !! id = Some ai0 ∧ touched ai0 ai) ∨ ∀ f, f ∈ l → EventID f = id → ¬ expired τ now (Timestamp f)) ∧ (b' = false → s' = s ∧ b = false).
Proof.
  revert s b. induction l as [|f l IH]; intros s b G O B Si; simpl.
  - exists s, b. split; [done|]. split; [by apply kept_refl|]. split; [apply since_refl|]. split; [|done]. intros id ai E. right. by intros f ?%not_elem_of_nil.
  - apply StronglySorted_inv in O as [O F]. destruct (IsTimeExpired τ now (Timestamp f)) eqn:X; simpl.
    + assert (∀ g, g ∈ l → belongs A g) as B' by (intros g Hg; apply B; by right). destruct (pendingActivityInfoIDs s !! EventID f) as [ai|] eqn:E.
      * destruct (B f) as (ai0 & ty & E0 & T & Ef); [by left|]. destruct (Si _ _ E) as (ai1 & E1 & Tc). assert (ai1 = ai0) as -> by congruence.
        assert (∃ s1 b1, processSingleActivityTimeoutTask now f ai s = Ok (s1, b1) ∧ (b1 = false → s1 = s) ∧ kept s s1 ∧ since (pendingActivityInfoIDs s) (pendingActivityInfoIDs s1) ∧
          (∀ ai', pendingActivityInfoIDs s1 !! EventID f = Some ai' → touched ai0 ai') ∧ ∀ id, id ≠ EventID f → pendingActivityInfoIDs s1 !! id = pendingActivityInfoIDs s !! id)
          as (s1 & b1 & -> & H0 & K & Si1 & H1 & H2).
        { destruct Tc as [->|Tc].
          - destruct (process_spec now f ai0 s G E) as (s1 & Hp & K & Si1 & H1 & H2); [by exists ty|]. exists s1, true. split_and!; done.
          - exists s, false. split_and!; try done; [|by apply kept_refl|by apply since_refl|congruence]. unfold WorkflowTimers.processSingleActivityTimeoutTask.
            rewrite (proj2 (Z.ltb_lt _ _)); [done|]. rewrite Ef. by apply Tc. }
        simpl. destruct (IH s1 (b || b1) (kept_unpaused _ _ K) O B' (since_trans _ _ _ Si Si1)) as (s' & b' & Hf & K' & Si' & H3 & H4).
        exists s', b'. split; [done|]. split; [by eapply kept_trans|]. split; [by eapply since_trans|]. split.
        -- intros id ai' E'. destruct (decide (id = EventID f)) as [->|Ni].
           ++ left. exists ai0. split; [done|]. destruct (Si' _ _ E') as (ai1' & E1' & Tc1). destruct (H1 _ E1') as [S1 L1]. destruct Tc1 as [->|[S2 L2]]; [done|]. split; [done|lia].
           ++ destruct (H3 id ai' E') as [?|H3']; [by left|right]. intros g [->|Hg]%elem_of_cons; [congruence|by apply H3'].
        -- intros Hb. destruct (H4 Hb) as [-> [-> ->]%orb_false_iff]. auto.
      * destruct (IH s b G O B' Si) as (s' & b' & Hf & K & Si' & H3 & H4). exists s', b'. split_and!; try done. intros id ai' E'. destruct (H3 id ai' E') as [?|H3']; [by left|right].
        intros g [->|Hg]%elem_of_cons; [|by apply H3']. intros <-. destruct (Si' _ _ E') as (? & E1 & _). congruence.
    + exists s, b. split; [done|]. split; [by apply kept_refl|]. split; [apply since_refl|]. split; [|done]. intros id ai E. right. intros g [->|Hg]%elem_of_cons _; [unfold expired; congruence|].
      rewrite Forall_forall in F. apply (not_expired_later _ _ (Timestamp f)); [by apply F|]. unfold expired. congruence.
Qed.

Definition remarked ai ai0 : Prop := ∃ n, ai0 = set_status n ai.
Lemma clear_spec τ s : all_unpaused s → ∃ s0 b0, clear_heartbeat τ s = Ok (s0, b0) ∧ kept s s0 ∧ running s0 = running s ∧ (b0 = false → s0 = s) ∧
  (∀ id ai, pendingActivityInfoIDs s !! id = Some ai → ∃ ai0, pendingActivityInfoIDs s0 !! id = Some ai0 ∧ remarked ai ai0) ∧
  (∀ id ai0, pendingActivityInfoIDs s0 !! id = Some ai0 → ∃ ai, pendingActivityInfoIDs s !! id = Some ai ∧ remarked ai ai0) ∧
  (∀ id ai v, task_of id HEARTBEAT τ → pendingActivityInfoIDs s !! id = Some ai → pendingActivityTimerHeartbeats s !! id = Some v → v ≤ VisibilityTimestamp τ →
     b0 = true ∧ ∀ ai0, pendingActivityInfoIDs s0 !! id = Some ai0 → created (TimerTaskStatus ai0) HEARTBEAT = false).
Proof.
  intros G.
  assert (∀ ai, remarked ai ai) as Rr by (intros ai; exists (TimerTaskStatus ai); by destruct ai).
  assert ((clear_heartbeat τ s = Ok (s, false) ∧ ∀ id ai v, task_of id HEARTBEAT τ → pendingActivityInfoIDs s !! id = Some ai → pendingActivityTimerHeartbeats s !! id = Some v → ¬ v ≤ VisibilityTimestamp τ) ∨
    ∃ ai v n st, kind τ = ActivityTimeoutTask HEARTBEAT n st ∧ pendingActivityInfoIDs s !! task_EventID τ = Some ai ∧ pendingActivityTimerHeartbeats s !! task_EventID τ = Some v ∧
      clear_heartbeat τ s = Ok (set_activity s (task_EventID τ) (set_status (Z.ldiff (TimerTaskStatus ai) (timerTypeToTimerMask HEARTBEAT)) ai), true)) as [[-> N]|(ai & v & n & st & K & E & Ev & ->)].
  { unfold clear_heartbeat. destruct (kind τ) as [|ty n st] eqn:K; [left; split; [done|]; intros ? ? ? (_ & ? & ? & K'); congruence|].
    destruct ty; try (left; split; [done|]; intros ? ? ? (_ & ? & ? & K'); congruence).
    destruct (pendingActivityInfoIDs s !! task_EventID τ) as [ai|] eqn:E; [|left; split; [done|]; intros ? ? ? (<- & _); congruence].
    destruct (pendingActivityTimerHeartbeats s !! task_EventID τ) as [v|] eqn:Ev; [|left; split; [done|]; intros ? ? ? (<- & _); congruence].
    destruct (IsTimeExpired τ (VisibilityTimestamp τ) v) eqn:X.
    - right. exists ai, v, n, st. split_and!; try done. unfold UpdateActivityTaskStatusWithTimerHeartbeat. destruct (G _ _ E) as (S & _). by rewrite S, E.
    - left. split; [done|]. intros id ai' v' (<- & _) _ Ev' L. assert (v' = v) as -> by congruence. assert (expired τ (VisibilityTimestamp τ) v) by (by apply expired_vis, Truncate_mono). unfold expired in *. congruence. }
  - exists s, false. split; [done|]. split; [by apply kept_refl|]. split_and!; try done; [by intros id ai E; exists ai|by intros id ai E; exists ai|]. intros id ai v T E Ev L. by destruct (N id ai v T E Ev).
  - set (ai' := set_status _ ai). destruct (unmark_unpaused _ HEARTBEAT _ (G _ _ E)) as [U M]. eexists _, true. split; [reflexivity|]. split; [apply kept_set; eauto|]. split_and!; try done; simpl.
    + intros id ai1 E1. destruct (decide (id = task_EventID τ)) as [->|Ni]; [exists ai'; rewrite lookup_insert_eq; split; [done|]; assert (ai1 = ai) as -> by congruence; by eexists|].
      exists ai1. by rewrite lookup_insert_ne.
    + intros id ai1 [[<- <-]|[Ni E1]]%lookup_insert_Some; [exists ai; split; [done|by eexists]|by exists ai1].
    + intros id ai1 v1 (<- & _) E1 Ev1 L. split; [done|]. intros ai0. rewrite lookup_insert_eq. intros [= <-]. change (created (Z.ldiff (TimerTaskStatus ai) (timerTypeToTimerMask HEARTBEAT)) HEARTBEAT = false). rewrite created_unmark. apply andb_false_r.
Qed.

(** Execution of an activity's task: afterwards no marked timer relies on it, and an activity it leaves alone has no timer that has expired. *)
Lemma remarked_timers ai ai0 ty : remarked ai ai0 → (timed ai0 ty ↔ timed ai ty) ∧ due ai0 ty = due ai ty ∧ Attempt ai0 = Attempt ai.
Proof. intros [n ->]. split; [done|]. split; [|done]. by destruct ty. Qed.
Lemma execute_spec now τ s : all_unpaused s → running s = true → ∃ r, executeActivityTimeoutTask now τ s = Ok r ∧ let s' := default s r in kept s s' ∧
  (∀ id ai', pendingActivityInfoIDs s' !! id = Some ai' → ∃ ai, pendingActivityInfoIDs s !! id = Some ai ∧
     (TimerTaskStatus ai' = TimerTaskStatusNone ∧ Attempt ai < Attempt ai' ∨ remarked ai ai' ∧ ∀ ty, timed ai ty → ¬ expired τ now (due ai ty))) ∧
  (∀ id ai ty, task_of id ty τ → pendingActivityInfoIDs s !! id = Some ai → timed ai ty → relies (pendingActivityTimerHeartbeats s) id ai ty τ →
     r ≠ None ∧ ∀ ai', pendingActivityInfoIDs s' !! id = Some ai' → ¬ marked ai' ty).
Proof.
  intros G R. unfold WorkflowTimers.executeActivityTimeoutTask. rewrite R. simpl. destruct (clear_spec τ s G) as (s0 & b0 & -> & K0 & R0 & H0 & F0 & B0 & C0). simpl.
  destruct (fire_spec τ now (pendingActivityInfoIDs s0) (LoadAndSortActivityTimers s0) s0 b0) as (s' & b' & -> & K & Si & H & Hb).
  { by eapply kept_unpaused. } { apply sort_sorted. } 2: by apply since_refl.
  { intros f. rewrite load_activities, sort_perm. intros (id & ai & E & (ty & T & ->)%elem_activity_timers)%elem_act_seqs. exists ai, ty. simpl. destruct (kept_unpaused _ _ K0 id ai E) as (S & _). by rewrite S. }
  assert (default s (if b' then Some s' else None) = s') as D by (destruct b'; [done|]; destruct (Hb eq_refl) as [-> X0]; by rewrite (H0 X0)).
  exists (if b' then Some s' else None). simpl. rewrite D. split; [done|].
  assert (∀ id ai', pendingActivityInfoIDs s' !! id = Some ai' → ∃ ai, pendingActivityInfoIDs s !! id = Some ai ∧
     (TimerTaskStatus ai' = TimerTaskStatusNone ∧ Attempt ai < Attempt ai' ∨ remarked ai ai' ∧ ∀ ty, timed ai ty → ¬ expired τ now (due ai ty))) as H2.
  { intros id ai' E'. destruct (Si id ai' E') as (ai0 & E0 & Tc). destruct (B0 id ai0 E0) as (ai & E & M). exists ai. split; [done|].
    assert (touched ai0 ai' → TimerTaskStatus ai' = TimerTaskStatusNone ∧ Attempt ai < Attempt ai') as L.
    { intros [S1 L]. destruct (remarked_timers ai ai0 HEARTBEAT M) as (_ & _ & <-). done. }
    destruct Tc as [->|Tc]; [|left; auto]. destruct (H id ai0 E') as [(ai1 & E1 & Tc)|X]; [left; apply L; congruence|right]. split; [done|]. intros ty T.
    destruct (remarked_timers ai ai0 ty M) as (T0 & <- & _). apply (X (seq_id ai0 ty (due ai0 ty))).
    - rewrite load_activities, sort_perm. apply elem_act_seqs. exists id, ai0. split; [done|]. apply elem_activity_timers. exists ty. split; [by apply T0|done].
    - simpl. by destruct (kept_unpaused _ _ K0 id ai0 E0). }
  split; [by eapply kept_trans|]. split; [exact H2|]. intros id ai ty O E T Re. destruct (decide (ty = HEARTBEAT)) as [->|Ne].
  - destruct Re as (_ & v & Ev & L). destruct (C0 id ai v O E Ev L) as [-> C]. split; [destruct b'; [done|]; by destruct (Hb eq_refl)|].
    intros ai' E' M'. destruct (ke_activities _ _ K id ai' E') as [_ [U|(ai0 & E0 & Mk & _)]]; [by apply (U HEARTBEAT)|]. destruct (Mk HEARTBEAT M') as [[_ C'] _]. specialize (C ai0 E0). congruence.
  - assert (expired τ now (due ai ty)) as X by (apply expired_vis; by destruct ty). split.
    + destruct b'; [done|]. simpl in D. subst s'. destruct (H2 id ai E) as (ai1 & E1 & [[_ L]|[_ N]]); assert (ai1 = ai) as -> by congruence; [lia|by destruct (N ty T)].
    + intros ai' E' [_ C]. destruct (H2 id ai' E') as (ai1 & E1 & [[S _]|[_ N]]); assert (ai1 = ai) as -> by congruence; [by rewrite S, created_none in C|by destruct (N ty T)].
Qed.
End activities.

(** The end of a transaction gives the first timer its task. *)
Definition first_activity s : Prop := ∀ f l, LoadAndSortActivityTimers s = f :: l → after_run s f = true ∨ TimerCreated f = true.
Lemma activity_head s f l : LoadAndSortActivityTimers s = f :: l → ∃ id ai ty, pendingActivityInfoIDs s !! id = Some ai ∧ timed ai ty ∧ f = seq_id ai ty (due ai ty).
Proof.
  intros E. assert (f ∈ act_seqs (pendingActivityInfoIDs s)) as (id & ai & Ei & (ty & T & ->)%elem_activity_timers)%elem_act_seqs by (rewrite <- sort_perm, <- load_activities, E; by left). by exists id, ai, ty.
Qed.
Lemma heartbeat_due id ai : unpaused id ai → timed ai HEARTBEAT → year2000 ≤ due ai HEARTBEAT.
Proof.
  intros (_ & _ & _ & L & Y & _) (_ & _ & S & _). specialize (Y S). simpl. unfold lastHeartbeat, limits_ok in *. destruct (negb _ && _) eqn:E; [|lia]. apply andb_true_iff in E as [_ E]. lia.
Qed.
Lemma mark_unpaused id ty ai : unpaused id ai → timed ai ty → unpaused id (set_status (Z.lor (TimerTaskStatus ai) (timerTypeToTimerMask ty)) ai).
Proof.
  intros (H1 & H2 & H3 & H4 & H5 & H6) (_ & _ & T). split_and!; try done. cbn [TimerTaskStatus set_status StartedEventId]. intros E. rewrite !created_mark. destruct (H6 E) as [-> ->]. destruct ty; try done; by destruct T.
Qed.
Lemma create_activity now s q : start ≤ now → activities_ok s q → ∃ s' b, CreateNextActivityTimer now s = Ok (s', b) ∧ activities_ok s' q ∧ running s' = running s ∧ first_activity s'.
Proof.
  intros L [G T]. unfold CreateNextActivityTimer, first_activity. destruct (LoadAndSortActivityTimers s) as [|f l] eqn:E; [exists s, false; split_and!; try done; by rewrite E|].
  destruct (after_run s f) eqn:Ea; [exists s, false; split_and!; try done; rewrite E; intros ? ? [= <- <-]; by left|].
  destruct (TimerCreated f) eqn:Ec; [exists s, false; split_and!; try done; rewrite E; intros ? ? [= <- <-]; by right|].
  destruct (activity_head s f l E) as (id & ai & ty & Ei & Ti & ->). pose proof (G id ai Ei) as U. pose proof (proj1 U) as S. cbn [EventID seq_id TimerType Timestamp seq_Attempt]. rewrite S, Ei.
  unfold UpdateActivityTaskStatusWithTimerHeartbeat. rewrite S, Ei. cbn [obind].
  set (ai' := set_status _ ai). set (H' := match (if decide _ then _ else _) with Some _ => _ | None => _ end). pose proof (mark_unpaused id ty ai U Ti) as U'. fold ai' in U'.
  eexists _, true. split; [reflexivity|]. set (s' := StoreActivityTimeoutTask _ _ _ _). set (τ := mkTask (next_task s) (due ai ty) id (ActivityTimeoutTask ty (Attempt ai) (Stamp ai))).
  assert (pendingActivityInfoIDs s' = <[id := ai']> (pendingActivityInfoIDs s)) as EA by done. assert (pendingActivityTimerHeartbeats s' = H') as EH by done.
  assert (far start (due ai ty) ∨ τ ∈ InsertTasks s') as EI.
  { edestruct (AddTasks_new now) as [[? _]|X]; [exact L|left; eassumption|right]. change (τ ∈ InsertTasks (AddTasks now (due ai ty) id (ActivityTimeoutTask ty (Attempt ai) (Stamp ai)) (set_activities s (<[id:=ai']> (pendingActivityInfoIDs s)) H'))). rewrite X. apply elem_of_app. right. by left. }
  assert (∀ τ0, τ0 ∈ q ++ InsertTasks s → τ0 ∈ q ++ InsertTasks s') as EO by (intros τ0; rewrite !elem_of_app; intros [?|?]; [by left|right; by apply AddTasks_elem]).
  assert (∀ ty0, timed ai' ty0 ↔ timed ai ty0) as Ht by done. assert (∀ ty0, due ai' ty0 = due ai ty0) as Hd by (by intros []).
  assert (∀ ty0, created (TimerTaskStatus ai') ty0 = created (TimerTaskStatus ai) ty0 || bool_decide (ty = ty0)) as Hc by (intros; apply created_mark).
  split_and!; [split|done|].
  - intros id0 ai0. rewrite EA. intros [[<- <-]|[_ E0]]%lookup_insert_Some; [exact U'|by apply G].
  - intros R id0 ai0 ty0. rewrite EA, EH. intros [[<- <-]|[Ni E0]]%lookup_insert_Some [T0 C0].
    + rewrite Hd. destruct (decide (ty0 = ty)) as [->|Ny].
      * destruct EI as [?|EI]; [by left|right]. exists τ. split; [apply elem_of_app; by right|]. split; [split; [done|by eexists _, _]|]. pose proof (heartbeat_due id ai U) as Hb. destruct ty; cbn; try done. split; [by apply Hb|].
        exists (due ai HEARTBEAT). split; [|done]. unfold H'. simpl. by rewrite lookup_insert_eq.
      * rewrite Hc in C0. rewrite bool_decide_eq_false_2 in C0 by congruence. rewrite orb_false_r in C0. destruct (T R id ai ty0 Ei) as [?|(τ0 & Hτ & O & Re)]; [done|by left|right]. exists τ0. split; [by apply EO|]. split; [done|].
        destruct ty0; simpl in *; try done. unfold H'. by destruct ty.
    + destruct (T R id0 ai0 ty0 E0) as [?|(τ0 & Hτ & O & Re)]; [done|by left|right]. exists τ0. split; [by apply EO|]. split; [done|].
      destruct ty0; simpl in *; try done. unfold H'. destruct ty; simpl; try done. by rewrite lookup_insert_ne.
  - intros f1 l1 E1. right. pose proof (activity_head s' f1 l1 E1) as (id1 & ai1 & ty1 & Ei1 & T1 & ->). rewrite load_activities in E, E1.
    assert (same_timer (seq_id ai ty (due ai ty)) (seq_id ai1 ty1 (due ai1 ty1))) as (S1 & S2 & S3).
    { apply (first_same _ _ _ _ _ _ E E1).
      - intros g (id0 & ai0 & E0 & (ty0 & T0 & ->)%elem_activity_timers)%elem_act_seqs. destruct (decide (id0 = id)) as [->|Ni].
        + assert (ai0 = ai) as -> by congruence. exists (seq_id ai' ty0 (due ai' ty0)). split; [apply elem_act_seqs; exists id, ai'; split; [rewrite EA; apply lookup_insert_eq|]|].
          * apply elem_activity_timers. exists ty0. split; [by apply Ht|done].
          * by rewrite Hd.
        + exists (seq_id ai0 ty0 (due ai0 ty0)). split; [|done]. apply elem_act_seqs. exists id0, ai0. split; [by rewrite EA, lookup_insert_ne|]. apply elem_activity_timers. by exists ty0.
      - intros g (id0 & ai0 & E0 & (ty0 & T0 & ->)%elem_activity_timers)%elem_act_seqs. rewrite EA in E0. apply lookup_insert_Some in E0 as [[<- <-]|[Ni E0]].
        + exists (seq_id ai ty0 (due ai ty0)). split; [|by rewrite Hd]. apply elem_act_seqs. exists id, ai. split; [done|]. apply elem_activity_timers. by exists ty0.
        + exists (seq_id ai0 ty0 (due ai0 ty0)). split; [|done]. apply elem_act_seqs. exists id0, ai0. split; [done|]. apply elem_activity_timers. by exists ty0. }
    simpl in S2, S3 |- *. subst ty1. rewrite EA in Ei1. apply lookup_insert_Some in Ei1 as [[<- <-]|[Ni E0]]; [rewrite Hc, bool_decide_eq_true_2 by done; apply orb_true_r|].
    destruct (G id1 ai1 E0) as (X & _). congruence.
Qed.
End start.
End timers.
