(* ===== verification/WorkflowTimersProps.v ===== *)
(** * Timers of a workflow: what holds in all reachable states, its theorems, and concrete runs *)
From S2P Require Import Prelude WorkflowTimers WorkflowTimersSpec.
Local Open Scope Z_scope.
Local Open Scope go_scope.
Implicit Types (s : MutableState) (f : TimerSequenceID) (l : list TimerSequenceID) (τ : timer_task) (q : list timer_task) (ai : ActivityInfo) (ti : TimerInfo) (ty : TimeoutType).

Section timers.
Context {TN : timeout_numbers}.

Section start.
Context (start : Z).
Notation user_ok := (user_ok start).
Notation activities_ok := (activities_ok start).
Notation far := (far start).

(** ** User timers in all reachable states *)

Record user_world (w : world) : Prop := {
  uw_ok : user_ok (mem w) (queue w);
  uw_insert : InsertTasks (mem w) = [];
  uw_first : running (mem w) = true → first_user (mem w) }.

Lemma in_acked task ack q τ : τ ∈ acked task ack q → τ ∈ q.
Proof. unfold acked. destruct ack; [|done]. rewrite list_elem_of_filter. tauto. Qed.
Lemma not_acked task ack q τ : τ ∈ q → τ ≠ task → τ ∈ acked task ack q.
Proof. unfold acked. destruct ack; [|done]. rewrite list_elem_of_filter. tauto. Qed.
Lemma first_user_same s s' : pendingTimerInfoIDs s' = pendingTimerInfoIDs s → WorkflowRunExpirationTime s' = WorkflowRunExpirationTime s → first_user s → first_user s'.
Proof. unfold first_user, after_run. rewrite !load_user_sort. by intros -> ->. Qed.

(** Acknowledging a task that no marked timer relies on. *)
Lemma user_acked s task ack q : InsertTasks s = [] → user_ok s q →
  (running s = true → ∀ id ti, pendingTimerInfoIDs s !! id = Some ti → kind task = UserTimerTask → ¬ Truncate (ExpiryTime ti) ≤ Truncate (VisibilityTimestamp task)) →
  user_ok s (acked task ack q).
Proof.
  intros E [I T Id F] H. rewrite E in *. rewrite app_nil_r in *. split; rewrite ?E, ?app_nil_r; try done.
  - intros R id ti Hti C. destruct (T R id ti Hti C) as [?|(τ & Hτ & K & V)]; [by left|right]. exists τ. split; [|done]. apply not_acked; [done|]. intros ->. by apply (H R id ti Hti).
  - intros τ Hτ%in_acked. by apply Id.
Qed.
Lemma written_user assign dels s q : user_ok s q → (running s = true → first_user s) → assign_ok assign → (∀ i, i ∈ dels → i ∈ BestEffortDeleteTasks s) →
  user_world (commit assign dels q s).
Proof.
  intros [I T Id F] Ff A D. split; simpl; [|done|done]. split; simpl; try done.
  - intros R id ti Hti C. destruct (T R id ti Hti C) as [?|(τ & Hτ & K & V)]; [by left|right].
    assert (task_id τ ∉ dels) as Nd by (intros X; apply (proj2 (Id τ Hτ) K); left; by apply D).
    apply elem_of_app in Hτ as [Hτ|Hτ].
    + exists τ. split; [|done]. apply elem_of_app. left. apply list_elem_of_filter. split; [done|]. apply elem_of_app. by left.
    + eexists (mkTask (task_id τ) (assign τ) (task_EventID τ) (kind τ)). split; [|split; [done|]].
      * apply elem_of_app. left. apply list_elem_of_filter. split; [done|]. apply elem_of_app. right. apply list_elem_of_fmap. by exists τ.
      * etrans; [exact V|]. apply Truncate_mono, A.
  - intros τ. rewrite app_nil_r. intros [_ [Hτ|Hτ]%elem_of_app]%list_elem_of_filter.
    + destruct (Id τ) as [H1 H2]; [apply elem_of_app; by left|]. split; [done|]. intros K [Hd|Hk]; [by apply not_elem_of_nil in Hd|]. apply (H2 K). by right.
    + apply list_elem_of_fmap in Hτ as (τ0 & -> & Hτ). destruct (Id τ0) as [H1 H2]; [apply elem_of_app; by right|]. split; [done|]. intros K [Hd|Hk]; [by apply not_elem_of_nil in Hd|].
      apply (H2 K). by right.
  - intros i [Hd|Hk]; [by apply not_elem_of_nil in Hd|]. apply F. by right.
Qed.
Lemma closed_user close assign dels s s' q : user_ok s q → start ≤ close → closeTransactionHandleActivityUserTimerTasks close s = Ok s' → assign_ok assign → (∀ i, i ∈ dels → i ∈ BestEffortDeleteTasks s') →
  user_world (commit assign dels q s').
Proof.
  intros U L E A D. unfold closeTransactionHandleActivityUserTimerTasks in E. destruct (running s) eqn:R; simpl in E.
  - destruct (CreateNextActivityTimer close s) as [[s1 b1]| |] eqn:E1; try done. simpl in E. destruct (create_activity_user _ _ s s1 b1 q E1 U) as [U1 R1].
    destruct (create_user _ close s1 q L U1) as (s2 & b2 & E2 & U2 & _ & _ & _ & F2 & _). rewrite E2 in E. simpl in E. injection E as <-. by apply written_user.
  - injection E as <-. apply written_user; [done|congruence|done|done].
Qed.

Section params.
Context (timeout_type_name : TimeoutType → string) (ExponentialBackoffAlgorithm : Z → Z → Z → Z) (rule_pauses : ActivityInfo → bool) (pauses deletes : bool).
Notation step := (step timeout_type_name ExponentialBackoffAlgorithm rule_pauses pauses deletes start).
Notation reachable := (reachable timeout_type_name ExponentialBackoffAlgorithm rule_pauses pauses deletes start).

Lemma step_user w w' : user_world w → step w w' → user_world w'.
Proof.
  intros [U In Ff]. destruct 1 as [s q s1 s2 close assign dels Tr L E A [D _]|s q now task s1 s2 close assign dels ack Hq K Ex L E A [D _]|s q now task e Hq K Ex He|
    s q now task ty n stamp s1 s2 close assign dels ack Hq K Ex L E A [D _]|s q now task ty n stamp Hq K Ex|s q]; simpl in *.
  - eapply closed_user; [|exact L|exact E|done|done]. by eapply transaction_user.
  - unfold executeUserTimerTimeoutTask in Ex. pose proof (fire_user_spec task now (LoadAndSortUserTimers s) s false (uk_index _ _ _ U)) as H.
    rewrite load_user_sort in H at 1. specialize (H (sort_sorted _) (load_user s)). destruct (fire_user_timers _ _ _ s false) as [[s3 b]| |]; try done. simpl in Ex.
    destruct b; [|done]. injection Ex as ->. destruct H as (Fi & Hn & _). eapply closed_user; [|exact L|exact E|done|done]. apply user_acked.
    + destruct Fi as [_ _ _ _ (-> & _)]. done.
    + eapply user_tamed; [done|by apply fired_tamed].
    + intros _ id ti Hti _ X. apply (Hn id ti Hti). by apply expired_vis.
  - split; simpl; [|done|done]. change (filter _ q) with (acked task true q). apply user_acked; [done|done|]. intros R id ti Hti _ X.
    unfold executeUserTimerTimeoutTask in Ex. pose proof (fire_user_spec task now (LoadAndSortUserTimers s) s false (uk_index _ _ _ U)) as H.
    rewrite load_user_sort in H at 1. specialize (H (sort_sorted _) (load_user s)). destruct (fire_user_timers _ _ _ s false) as [[s3 b]|e'|]; simpl in Ex; [| |done].
    + destruct b; [done|]. destruct H as (_ & Hn & Hb). destruct (Hb eq_refl) as [-> _]. apply (Hn id ti Hti). by apply expired_vis.
    + destruct H. congruence.
  - eapply closed_user; [|exact L|exact E|done|done]. apply quiet_execute in Ex as Qu. apply user_acked.
    + by rewrite (qu_insert _ _ Qu).
    + eapply user_tamed; [done|by apply quiet_tamed].
    + intros _ id ti _ K'. congruence.
  - split; simpl; [|done|done]. change (filter _ q) with (acked task true q). apply user_acked; [done|done|]. intros _ id ti _ K'. congruence.
  - destruct U as [I T Id F]. rewrite In in *. split; simpl; [|done|]; [split; simpl; try done|].
    + intros τ Hτ. split; [by apply Id|]. intros _ [X|[k X]]; [by apply not_elem_of_nil in X|]. simpl in X. by rewrite lookup_empty in X.
    + intros i [X|[k X]]; [by apply not_elem_of_nil in X|]. simpl in X. by rewrite lookup_empty in X.
    + intros R. by apply (first_user_same s), Ff.
Qed.
Lemma reachable_user expiration w : reachable expiration w → user_world w.
Proof.
  induction 1 as [|w w' _ IH S]; [|by eapply step_user]. split; [|done|].
  - split; simpl; try done; intros *; try (by rewrite ?lookup_empty); rewrite ?lookup_empty; try done.
    + split; [done|]. by intros (ti & ? & _).
    + intros ?%elem_of_nil. done.
    + intros [X|[k X]]; [by apply not_elem_of_nil in X|]. simpl in X. by rewrite lookup_empty in X.
  - intros _ f l E. destruct (user_head _ _ _ E) as (id & ti & X & _). simpl in X; by rewrite lookup_empty in X.
Qed.

(** C6 No user timer is forgotten.  Over every sequence of transactions ([op_fits]: new timers have new event ids), task executions (late, repeated or lost) and reloads, with or without pauses and deletion of tasks: while the workflow is running and has user
    timers, the first of them comes after the timeout of the workflow, or more than 99 years after [start], before which no transaction is closed (such a task may have been dropped, see [far_timer_has_no_task]), or its task
    is in the queue; and executing that task, whatever the clock says, fires it. *)
Theorem user_timers_not_forgotten expiration w f l : reachable expiration w → running (mem w) = true → LoadAndSortUserTimers (mem w) = f :: l →
  after_run (mem w) f = true ∨ start + maxScheduledTaskDuration < Timestamp f ∨
  ∃ τ id ti, τ ∈ queue w ∧ kind τ = UserTimerTask ∧ pendingTimerInfoIDs (mem w) !! id = Some ti ∧ f = user_seq ti ∧
    ∀ now, ∃ s', executeUserTimerTimeoutTask now τ (mem w) = Ok s' ∧ pendingTimerInfoIDs s' !! id = None ∧ pendingTimerInfoIDs s' ⊆ pendingTimerInfoIDs (mem w).
Proof.
  intros Re R E. destruct (reachable_user _ _ Re) as [U In Ff]. destruct (Ff R f l E) as [A|C]; [by left|right]. destruct (user_head _ _ _ E) as (id & ti & Hti & ->).
  simpl in C. apply Z.eqb_eq in C. destruct (uk_tasks _ _ _ U R id ti Hti C) as [?|(τ & Hτ & K & V)]; [by left|right]. rewrite In, app_nil_r in Hτ. exists τ, id, ti. split_and!; try done.
  intros now. unfold executeUserTimerTimeoutTask. pose proof (fire_user_spec τ now (LoadAndSortUserTimers (mem w)) (mem w) false (uk_index _ _ _ U)) as H.
  rewrite load_user_sort in H at 1. specialize (H (sort_sorted _) (load_user (mem w))). destruct (fire_user_timers _ _ _ (mem w) false) as [[s' b]|e|]; [|destruct H; congruence|done].
  destruct H as (Fi & Hn & Hb). destruct b.
  - exists s'. split; [done|]. split; [|apply Fi]. destruct (pendingTimerInfoIDs s' !! id) as [ti'|] eqn:E'; [|done]. exfalso. apply (Hn id ti' E').
    assert (ti' = ti) as ->; [|by apply expired_vis]. pose proof (lookup_weaken _ _ _ _ E' (fi_sub _ _ Fi)). congruence.
  - exfalso. destruct (Hb eq_refl) as [-> _]. apply (Hn id ti Hti). by apply expired_vis.
Qed.
End params.

(** ** Activity timeouts in all reachable states *)

Record activity_world (w : world) : Prop := {
  aw_ok : activities_ok (mem w) (queue w);
  aw_insert : InsertTasks (mem w) = [];
  aw_first : running (mem w) = true → first_activity (mem w) }.
Lemma create_user_activities now s s' b : CreateNextUserTimer now s = Ok (s', b) → same_activities s s' ∧ same_workflow s s' ∧ ∀ τ, τ ∈ InsertTasks s → τ ∈ InsertTasks s'.
Proof.
  unfold CreateNextUserTimer, UpdateUserTimerTaskStatus. intros E. repeat case_match; try done; injection E as <- <-; try done. split_and!; try done. intros τ Hτ. by apply AddTasks_elem.
Qed.
Lemma activities_more s s' q : activities_ok s q → same_activities s s' → running s' = running s → (∀ τ, τ ∈ InsertTasks s → τ ∈ InsertTasks s') → activities_ok s' q.
Proof.
  intros [G T] (A & H & _) R I. split; [intros id ai; rewrite A; apply G|]. rewrite R, A, H. intros Rn id ai ty E M. destruct (T Rn id ai ty E M) as [?|(τ & Hτ & ?)]; [by left|right]. exists τ. split; [|done]. set_solver.
Qed.
Lemma first_activity_same s s' : pendingActivityInfoIDs s' = pendingActivityInfoIDs s → WorkflowRunExpirationTime s' = WorkflowRunExpirationTime s → first_activity s → first_activity s'.
Proof. unfold first_activity, after_run. rewrite !load_activities. by intros -> ->. Qed.
Lemma relies_later H id ai ty τ τ' : VisibilityTimestamp τ ≤ VisibilityTimestamp τ' → relies H id ai ty τ → relies H id ai ty τ'.
Proof.
  intros L. pose proof (Truncate_mono _ _ L) as L'. destruct ty; simpl; try lia. intros (Y & v & E & V). split; [lia|]. exists v. split; [done|lia].
Qed.
Lemma written_activity assign s q : activities_ok s q → (running s = true → first_activity s) → assign_ok assign → activity_world (commit assign [] q s).
Proof.
  intros [G T] F A. split; [|done|done]. split; [done|]. simpl. rewrite app_nil_r. intros R id ai ty E M. destruct (T R id ai ty E M) as [?|(τ & Hτ & (O1 & n & st & O2) & Re)]; [by left|right].
  apply elem_of_app in Hτ as [Hτ|Hτ].
  - exists τ. split; [|by split; [split; [|eexists _, _]|]]. apply list_elem_of_filter. split; [apply not_elem_of_nil|]. apply elem_of_app. by left.
  - exists (mkTask (task_id τ) (assign τ) (task_EventID τ) (kind τ)). split; [|split; [by split; [|eexists _, _]|by eapply relies_later; [apply A|]]].
    apply list_elem_of_filter. split; [apply not_elem_of_nil|]. apply elem_of_app. right. apply list_elem_of_fmap. by exists τ.
Qed.
Lemma closed_activity close assign s s' q : activities_ok s q → start ≤ close → closeTransactionHandleActivityUserTimerTasks close s = Ok s' → assign_ok assign → activity_world (commit assign [] q s').
Proof.
  intros O L E A. unfold closeTransactionHandleActivityUserTimerTasks in E. destruct (running s) eqn:R; simpl in E.
  - destruct (create_activity _ close s q L O) as (s1 & b1 & E1 & O1 & R1 & F1). rewrite E1 in E. simpl in E. destruct (CreateNextUserTimer close s1) as [[s2 b2]| |] eqn:E2; try done. simpl in E. injection E as <-.
    destruct (create_user_activities _ _ _ _ E2) as (Sa & (Sr & Sw) & I). apply written_activity; [by eapply activities_more|intros _; eapply first_activity_same; [apply Sa|done|done]|done].
  - injection E as <-. apply written_activity; [done|congruence|done].
Qed.
(** Acknowledging a task that no marked timer relies on. *)
Lemma activity_acked s task ack q : InsertTasks s = [] → activities_ok s q →
  (running s = true → ∀ id ai ty, pendingActivityInfoIDs s !! id = Some ai → marked ai ty → task_of id ty task → ¬ relies (pendingActivityTimerHeartbeats s) id ai ty task) → activities_ok s (acked task ack q).
Proof.
  intros I [G T] N. split; [done|]. rewrite I, app_nil_r in *. intros R id ai ty E M. destruct (T R id ai ty E M) as [?|(τ & Hτ & O & Re)]; [by left|right]. exists τ. split; [|done]. apply not_acked; [done|].
  intros ->. by apply (N R id ai ty).
Qed.
Lemma fire_user_activities τ now l s b s' b' : fire_user_timers τ now l s b = Ok (s', b') → same_activities s s' ∧ running s' = running s ∧ InsertTasks s' = InsertTasks s.
Proof.
  revert s b. induction l as [|f l IH]; intros s b E; simpl in E; [by injection E as <- <-|]. destruct (_ !! _) as [id|]; [|done]. destruct (negb (IsTimeExpired _ _ _)); [by injection E as <- <-|].
  destruct (negb (running s)); [done|]. unfold AddTimerFiredEvent in E. destruct (pendingTimerInfoIDs s !! id); [|done]. simpl in E. by apply IH in E.
Qed.

Section activities.
Context (timeout_type_name : TimeoutType → string) (ExponentialBackoffAlgorithm : Z → Z → Z → Z) (rule_pauses : ActivityInfo → bool).
Hypothesis no_rule : ∀ ai, rule_pauses ai = false.
Notation step := (step timeout_type_name ExponentialBackoffAlgorithm rule_pauses false false start).
Notation reachable := (reachable timeout_type_name ExponentialBackoffAlgorithm rule_pauses false false start).
Notation executeActivityTimeoutTask := (executeActivityTimeoutTask timeout_type_name ExponentialBackoffAlgorithm rule_pauses).

(** After its execution no marked timer relies on a task. *)
Lemma execute_releases now τ s r id ai ty : all_unpaused s → running s = true → executeActivityTimeoutTask now τ s = Ok r → pendingActivityInfoIDs (default s r) !! id = Some ai →
  marked ai ty → task_of id ty τ → ¬ relies (pendingActivityTimerHeartbeats (default s r)) id ai ty τ.
Proof.
  intros G R Ex E M O Re. destruct (execute_spec timeout_type_name ExponentialBackoffAlgorithm _ no_rule now τ s G R) as (r' & Ex' & K & _ & Rl). rewrite Ex in Ex'. injection Ex' as <-.
  destruct (ke_activities _ _ K id ai E) as [_ [U|(ai0 & E0 & Mk & Hh)]]; [by apply (U ty)|]. destruct (Mk ty M) as [[T0 _] D]. assert (relies (pendingActivityTimerHeartbeats s) id ai0 ty τ) as Re0.
  { destruct D as [D|[-> D]]; [destruct ty|]; simpl in *; (rewrite <- D || rewrite <- Hh); done. }
  by destruct (Rl id ai0 ty O E0 T0 Re0) as [_ N]; apply (N ai E).
Qed.
Lemma step_activity w w' : activity_world w → step w w' → activity_world w'.
Proof.
  intros [O In Ff]. destruct 1 as [s q s1 s2 close assign dels Tr L E A [_ D]|s q now task s1 s2 close assign dels ack Hq K Ex L E A [_ D]|s q now task e Hq K Ex He|
    s q now task ty n stamp s1 s2 close assign dels ack Hq K Ex L E A [_ D]|s q now task ty n stamp Hq K Ex|s q]; simpl in *; try rewrite (D eq_refl).
  - eapply closed_activity; [|exact L|exact E|done]. eapply kept_ok; [done|]. eapply kept_transaction; [done|apply O|done].
  - unfold executeUserTimerTimeoutTask in Ex. destruct (fire_user_timers _ _ _ s false) as [[s3 b]| |] eqn:Ef; try done. simpl in Ex. destruct b; [|done]. injection Ex as ->.
    destruct (fire_user_activities _ _ _ _ _ _ _ Ef) as (Sa & Sr & Si). eapply closed_activity; [|exact L|exact E|done]. apply activity_acked; [congruence|eapply activities_more; [done|done|done|by rewrite Si]|].
    intros _ id ai ty _ _ (_ & n & st & K'). congruence.
  - split; simpl; [|done|done]. change (filter _ q) with (acked task true q). apply activity_acked; [done|done|]. intros _ id ai ty _ _ (_ & n & st & K'). congruence.
  - assert (running s = true) as R by (destruct (running s) eqn:R; [done|]; unfold WorkflowTimers.executeActivityTimeoutTask in Ex; by rewrite R in Ex).
    destruct (execute_spec timeout_type_name ExponentialBackoffAlgorithm _ no_rule now task s (ao_unpaused _ _ _ O) R) as (r & Ex' & Kp & _). rewrite Ex in Ex'. injection Ex' as <-. simpl in Kp.
    eapply closed_activity; [|exact L|exact E|done]. apply activity_acked; [by rewrite (ke_insert _ _ Kp)|by eapply kept_ok|].
    intros _ id ai ty0 E0 M T0. by apply (execute_releases now task s (Some s1) id ai ty0 (ao_unpaused _ _ _ O) R Ex).
  - split; simpl; [|done|done]. change (filter _ q) with (acked task true q). apply activity_acked; [done|done|]. intros R id ai ty0 E0 M T0.
    by apply (execute_releases now task s None id ai ty0 (ao_unpaused _ _ _ O) R Ex).
  - split; simpl; [|done|by intros R; apply (first_activity_same s), Ff]. destruct O as [G T]. split; [done|]. simpl. rewrite app_nil_r. intros R id ai ty E M.
    destruct (T R id ai ty E M) as [?|(τ & Hτ & To & Re)]; [by left|right]. rewrite In, app_nil_r in Hτ. exists τ. split; [done|]. split; [done|]. destruct ty; simpl in *; try done. destruct Re as (Y & _). split; [done|].
    exists year2000. split; [|done]. apply lookup_fmap_Some. exists ai. split; [done|]. apply map_lookup_filter_Some. split; [done|]. apply M.
Qed.
Lemma reachable_activity expiration w : reachable expiration w → activity_world w.
Proof.
  induction 1 as [|w w' _ IH S]; [|by eapply step_activity]. split; [split|done|]; simpl.
  - intros id ai E. simpl in E. by rewrite lookup_empty in E.
  - intros _ id ai ty E. by rewrite lookup_empty in E.
  - intros _ f l E. destruct (activity_head _ _ _ E) as (id & ai & ty & X & _). simpl in X. by rewrite lookup_empty in X.
Qed.

(** C5 No activity timeout is forgotten, as long as activities are not paused and tasks are not deleted.  Over every sequence of transactions (heartbeats, retries, changes of options included; [op_fits]: the
    clock is past 2000 and does not go back between heartbeats, an activity starts once per attempt, and heartbeat timeouts are not negative), task executions (late, repeated
    or lost) and reloads: while the workflow is running and activities have timeouts, the first of them comes after the timeout of the workflow, or more than 99 years after [start], before which no transaction is closed (such a task may have been dropped), or its task is in the queue.
    Executing that task, whatever the clock says, can be committed at any time from [start] on; it ends the activity or retries it, unless the activity has sent a heartbeat since: then the timeout counts as one without a task again, so that the commit creates the next one. *)
Theorem activity_timeouts_not_forgotten expiration w f l : reachable expiration w → running (mem w) = true → LoadAndSortActivityTimers (mem w) = f :: l →
  after_run (mem w) f = true ∨ start + maxScheduledTaskDuration < Timestamp f ∨
  ∃ τ, τ ∈ queue w ∧ task_of (EventID f) (TimerType f) τ ∧
    ∀ now, ∃ s', executeActivityTimeoutTask now τ (mem w) = Ok (Some s') ∧ (∀ close, start ≤ close → ∃ s'', closeTransactionHandleActivityUserTimerTasks close s' = Ok s'') ∧
      ∀ ai', pendingActivityInfoIDs s' !! EventID f = Some ai' →
        seq_Attempt f < Attempt ai' ∨ TimerType f = HEARTBEAT ∧ ¬ expired τ now (Timestamp f) ∧ created (TimerTaskStatus ai') HEARTBEAT = false.
Proof.
  intros Re R E. destruct (reachable_activity _ _ Re) as [O In Ff]. destruct (Ff R f l E) as [A|C]; [by left|right]. destruct (activity_head _ _ _ E) as (id & ai & ty & Ei & T & ->).
  destruct (ao_unpaused _ _ _ O id ai Ei) as (S & _). simpl in C |- *. rewrite S. destruct (ao_tasks _ _ _ O R id ai ty Ei) as [?|(τ & Hτ & To & Rl)]; [done|by left|right]. rewrite In, app_nil_r in Hτ. exists τ. split; [done|]. split; [done|].
  intros now. destruct (execute_spec timeout_type_name ExponentialBackoffAlgorithm _ no_rule now τ (mem w) (ao_unpaused _ _ _ O) R) as (r & Ex & Kp & H2 & H3).
  destruct (H3 id ai ty To Ei T Rl) as [Nr Nm]. destruct r as [s'|]; [|done]. simpl in *. exists s'.
  split; [done|]. split.
  { intros close L. unfold closeTransactionHandleActivityUserTimerTasks. destruct (running s') eqn:R'; simpl; [|by eexists]. destruct (create_activity _ close s' (queue w) L (kept_ok _ _ _ _ O Kp)) as (s1 & b1 & E1 & _). rewrite E1. simpl.
    pose proof (uw_ok _ (reachable_user _ _ _ _ _ _ _ Re)) as U. apply quiet_execute in Ex as Qu. pose proof (user_tamed _ _ _ _ U (quiet_tamed _ _ Qu)) as U1.
    destruct (create_activity_user _ _ _ _ _ _ E1 U1) as [U2 _]. destruct (create_user _ close s1 _ L U2) as (s2 & b2 & E2 & _). rewrite E2. by eexists. }
  intros ai' E'. destruct (H2 id ai' E') as (ai0 & E0 & [[_ L]|[M X]]); assert (ai0 = ai) as -> by congruence; [by left|right].
  destruct (decide (ty = HEARTBEAT)) as [->|Ne]; [|destruct (X ty T); apply expired_vis; by destruct ty]. split; [done|]. split; [by apply X|].
  destruct (created (TimerTaskStatus ai') HEARTBEAT) eqn:Ec'; [|done]. destruct (Nm ai' E'). split; [|done]. by apply (remarked_timers ai ai').
Qed.
End activities.
End start.

(** ** Runs *)

Section runs.
Context (timeout_type_name : TimeoutType → string) (ExponentialBackoffAlgorithm : Z → Z → Z → Z) (rule_pauses : ActivityInfo → bool) (pauses deletes : bool) (start : Z).
Notation reachable := (reachable timeout_type_name ExponentialBackoffAlgorithm rule_pauses pauses deletes start).
(** A transaction of one operation that closes at [start], whose tasks get the times they asked for and whose deletions all succeed. *)
Definition after_op (o : op) (w : world) : world :=
  match exec timeout_type_name ExponentialBackoffAlgorithm rule_pauses o (mem w) with
  | Ok s1 => match closeTransactionHandleActivityUserTimerTasks start s1 with Ok s2 => commit VisibilityTimestamp (if deletes then BestEffortDeleteTasks s2 else []) (queue w) s2 | _ => w end
  | _ => w
  end.
Lemma reachable_op expiration o w : reachable expiration w → running (mem w) = true → op_fits pauses (mem w) o → reachable expiration (after_op o w).
Proof.
  intros Re R Hf. unfold after_op. destruct (exec _ _ _ o (mem w)) as [s1| |] eqn:E1; try done. destruct (closeTransactionHandleActivityUserTimerTasks start s1) as [s2| |] eqn:E2; try done.
  eapply re_step; [exact Re|]. destruct w as [s q]. eapply st_transaction; [|reflexivity|exact E2|intros t; lia|].
  - eapply tr_op; [exact R|exact Hf|exact E1|constructor].
  - destruct deletes; split; try done. by intros i ?%not_elem_of_nil.
Qed.
(** The only task does nothing. *)
Lemma reachable_nothing expiration w now task ty n stamp : reachable expiration w → queue w = [task] → kind task = ActivityTimeoutTask ty n stamp →
  executeActivityTimeoutTask timeout_type_name ExponentialBackoffAlgorithm rule_pauses now task (mem w) = Ok None → reachable expiration (mkWorld (mem w) []).
Proof.
  intros Re Eq K Ex. assert (acked task true [task] = []) as <- by (unfold acked; rewrite filter_cons_False; [done|tauto]). rewrite <- Eq. eapply re_step; [exact Re|]. destruct w as [s q]. simpl in *.
  eapply st_activity_nothing; [rewrite Eq; by left|exact K|exact Ex].
Qed.
End runs.

End timers.

(** The numbers of the API. *)
Definition api_number (ty : TimeoutType) : Z := match ty with START_TO_CLOSE => 1 | SCHEDULE_TO_START => 2 | SCHEDULE_TO_CLOSE => 3 | HEARTBEAT => 4 end.
#[local] Instance api_number_inj : Inj (=) (=) api_number.
Proof. by intros [] []. Defined.
#[local] Instance api_numbers : timeout_numbers := {| type_number := api_number |}.
Definition sec (n : Z) : Z := year2000 + n * 10 ^ 9.
Definition long (start_to_close heartbeat : Z) : timeouts := mkTimeouts 0 0 (start_to_close * 10 ^ 9) (heartbeat * 10 ^ 9).
Definition no_names (ty : TimeoutType) : string := "".
Definition no_backoff (i c n : Z) : Z := 0.
Definition no_rules (ai : ActivityInfo) : bool := false.
Notation run deletes := (after_op no_names no_backoff no_rules deletes (sec 0)).

Definition timer_world : world := run false (OStartTimer 6 (sec 1) "b" (10 ^ 9)) (run false (OStartTimer 5 (sec 0) "a" (3 * 10 ^ 9)) (new_workflow 0)).
Lemma user_timers_not_forgotten_witness : ∃ τ id ti, τ ∈ queue timer_world ∧ kind τ = UserTimerTask ∧ pendingTimerInfoIDs (mem timer_world) !! id = Some ti ∧
  ∀ now, ∃ s', executeUserTimerTimeoutTask now τ (mem timer_world) = Ok s' ∧ pendingTimerInfoIDs s' !! id = None.
Proof.
  destruct (user_timers_not_forgotten (sec 0) no_names no_backoff no_rules false false 0 timer_world (mkSeqID 6 (sec 2) START_TO_CLOSE true 1) [mkSeqID 5 (sec 3) START_TO_CLOSE true 1])
    as [A|[A|(τ & id & ti & H1 & H2 & H3 & _ & H4)]].
  - unfold timer_world. repeat (apply reachable_op; [|vm_compute; reflexivity|vm_compute; reflexivity]). constructor.
  - reflexivity.
  - vm_compute. reflexivity.
  - vm_compute in A. discriminate A.
  - vm_compute in A. discriminate A.
  - exists τ, id, ti. split; [exact H1|]. split; [exact H2|]. split; [exact H3|]. intros now. destruct (H4 now) as (s' & E & N & _). exists s'. by split.
Defined.

(** An activity is scheduled and started. *)
Definition activity_run (deletes : bool) (lim : timeouts) : world := run deletes (OStart 6 (sec 1) 5) (run deletes (OSchedule 5 (sec 0) lim None) (new_workflow 0)).
Ltac heartbeat_fits := split; [vm_compute; discriminate|intros ai t E; vm_compute in E; injection E as <-; discriminate].
Ltac fits := heartbeat_fits || vm_compute; repeat split; try done; try (by intros ai [= <-]).
Ltac reaches := repeat (apply reachable_op; [|vm_compute; reflexivity|fits]); apply re_init.
Lemma activity_timeouts_not_forgotten_witness : ∃ τ, τ ∈ queue (activity_run false (long 100 10)) ∧ task_of 5 HEARTBEAT τ ∧
  ∀ now, ∃ s', executeActivityTimeoutTask no_names no_backoff no_rules now τ (mem (activity_run false (long 100 10))) = Ok (Some s').
Proof.
  destruct (activity_timeouts_not_forgotten (sec 0) no_names no_backoff no_rules (λ _, eq_refl) 0 (activity_run false (long 100 10)) (mkSeqID 5 (sec 11) HEARTBEAT true 1) [mkSeqID 5 (sec 101) START_TO_CLOSE false 1])
    as [A|[A|(τ & H1 & H2 & H3)]].
  - unfold activity_run. reaches.
  - reflexivity.
  - vm_compute. reflexivity.
  - vm_compute in A. discriminate A.
  - vm_compute in A. discriminate A.
  - exists τ. split; [exact H1|]. split; [exact H2|]. intros now. destruct (H3 now) as (s' & E & _). by exists s'.
Defined.

(** A timer further away than 99 years counts as one with a task, but there is none. *)
Lemma far_timer_has_no_task : ∃ w ti, reachable no_names no_backoff no_rules false false (sec 0) 0 w ∧ running (mem w) = true ∧ pendingTimerInfoIDs (mem w) !! "a" = Some ti ∧
  ExpiryTime ti = sec 0 + 100 * 365 * 24 * 3600 * 10 ^ 9 ∧ LoadAndSortUserTimers (mem w) = [user_seq ti] ∧ TaskStatus ti = TimerTaskStatusCreated ∧ queue w = [] ∧
  ∀ close, closeTransactionHandleActivityUserTimerTasks close (mem w) = Ok (mem w).
Proof.
  eexists (run false (OStartTimer 5 (sec 0) "a" (100 * 365 * 24 * 3600 * 10 ^ 9)) (new_workflow 0)), _. split; [reaches|]. split; [vm_compute; reflexivity|]. split; [vm_compute; reflexivity|].
  split_and!; [..|intros close]; vm_compute; reflexivity.
Qed.
(** A heartbeat loses the timeouts of an activity when tasks are deleted with the transactions that make them unnecessary.  The task of the heartbeat timeout is deleted and not created again, since the activity still counts
    as having one; and no timeout of a workflow's activities gets a task while that is the first of them. *)
Lemma heartbeat_loses_timeouts : ∃ w ai, reachable no_names no_backoff no_rules false true (sec 0) 0 w ∧ running (mem w) = true ∧ pendingActivityInfoIDs (mem w) !! 5 = Some ai ∧ timed ai HEARTBEAT ∧ timed ai START_TO_CLOSE ∧
  queue w = [] ∧ ∀ close, closeTransactionHandleActivityUserTimerTasks close (mem w) = Ok (mem w).
Proof.
  eexists (run true (OHeartbeat (sec 5) 5) (activity_run true (long 100 10))), _. split; [unfold activity_run; reaches|]. split; [vm_compute; reflexivity|]. split; [vm_compute; reflexivity|].
  split; [repeat split; vm_compute; discriminate|]. split; [repeat split; vm_compute; discriminate|]. split; [|intros close]; vm_compute; reflexivity.
Qed.
(** C33 A pause loses the timeouts of an activity that goes on running, also when no tasks are deleted.  The task that comes due while the activity is paused is acknowledged and does nothing; when the activity is unpaused,
    it still counts as having a task, none is created, and no timeout of the workflow's activities gets one while that is the first of them. *)
Theorem pause_loses_timeouts : ∃ w ai, reachable no_names no_backoff no_rules true false (sec 0) 0 w ∧ running (mem w) = true ∧ pendingActivityInfoIDs (mem w) !! 5 = Some ai ∧ timed ai START_TO_CLOSE ∧ timed ai HEARTBEAT ∧
  queue w = [] ∧ ∀ close, closeTransactionHandleActivityUserTimerTasks close (mem w) = Ok (mem w).
Proof.
  set (w := run false (OPause 5) (activity_run false (long 10 20))). assert (reachable no_names no_backoff no_rules true false (sec 0) 0 (mkWorld (mem w) [])) as Re.
  { eapply reachable_nothing with (now := sec 11); [unfold w, activity_run; reaches|vm_compute; reflexivity|reflexivity|vm_compute; reflexivity]. }
  eexists (run false (OUnpause (sec 12) false false 5) (mkWorld (mem w) [])), _. split; [apply reachable_op; [exact Re|vm_compute; reflexivity|fits]|]. clear Re.
  split; [vm_compute; reflexivity|]. split; [vm_compute; reflexivity|].
  split; [repeat split; vm_compute; discriminate|]. split; [repeat split; vm_compute; discriminate|]. split; [|intros close]; vm_compute; reflexivity.
Qed.

(** ** Retries *)

Lemma nextBackoffInterval_bounds now attempt maxAttempts initInterval maxInterval expiration coefficient calculator interval : 0 ≤ maxInterval →
  nextBackoffInterval now attempt maxAttempts initInterval maxInterval expiration coefficient calculator = (interval, IN_PROGRESS) →
  0 < interval ∧ (0 < maxAttempts → Z.max 1 attempt < maxAttempts) ∧ (maxInterval ≠ 0 → interval ≤ maxInterval) ∧ (∀ t, expiration = Some t → t ≠ 0 → now + interval ≤ t) ∧
  (maxInterval = 0 ∨ 0 < calculator initInterval coefficient (Z.max 1 attempt) ≤ maxInterval → interval = calculator initInterval coefficient (Z.max 1 attempt)).
Proof.
  intros M. unfold nextBackoffInterval. assert ((if attempt <? 1 then 1 else attempt) = Z.max 1 attempt) as -> by (destruct (Z.ltb_spec attempt 1); lia).
  destruct ((0 <? maxAttempts) && (maxAttempts <=? Z.max 1 attempt)) eqn:E1; [done|]. set (c := calculator _ _ _). destruct ((maxInterval =? 0) && (c <=? 0)) eqn:E2; [done|].
  set (i := if negb (maxInterval =? 0) && ((c <=? 0) || (maxInterval <? c)) then maxInterval else c).
  assert (0 < i ∧ (maxInterval ≠ 0 → i ≤ maxInterval) ∧ (maxInterval = 0 ∨ 0 < c ≤ maxInterval → i = c)) as (I1 & I2 & I3).
  { unfold i. destruct (negb (maxInterval =? 0) && ((c <=? 0) || (maxInterval <? c))) eqn:E3; lia. }
  destruct (match match expiration with Some t => _ | None => _ end with Some t => _ | None => _ end) eqn:E4; [done|]. intros [= <-]. split_and!; try done; [lia|].
  intros t -> Ht. rewrite (proj2 (Z.eqb_neq _ _) Ht) in E4. lia.
Qed.
(** C12 A retry keeps to the policy.  An activity is given its next attempt, not started, only under a policy, when its cancellation was not requested and the failure is one to be retried.  If it is paused, or a rule
    pauses it now, nothing else is checked, and it is not scheduled.  Otherwise it is scheduled after a positive delay that is the one the failure asks for, or at most the maximum of the policy, only if the attempts of
    the policy are not used up, and not after the time the policy expires.  When it is not retried, nothing changes. *)
Theorem retry_within_policy (timeout_type_name : TimeoutType → string) (ExponentialBackoffAlgorithm : Z → Z → Z → Z) (rule_pauses : ActivityInfo → bool) now id failure s s' r ai :
  pendingActivityInfoIDs s !! id = Some ai → 0 ≤ RetryMaximumInterval (retry ai) → (∀ d, nextRetryDelayFrom failure = Some d → 0 ≤ d) →
  RetryActivity timeout_type_name ExponentialBackoffAlgorithm rule_pauses now id failure s = Ok (s', r) →
  if decide (r = IN_PROGRESS) then
    HasRetryPolicy (retry ai) = true ∧ CancelRequested ai = false ∧ isRetryable timeout_type_name failure (RetryNonRetryableErrorTypes (retry ai)) = true ∧
    if Paused ai || rule_pauses ai then
      s' = set_activity s id (set_attempt (Attempt ai + 1) (set_started EmptyEventID None
             (if Paused ai then ai else set_paused true (if GetActivityState_scheduled ai then Stamp ai + 1 else Stamp ai) ai)))
    else ∃ backoff, s' = set_activity s id (UpdateActivityInfoForRetries (Attempt ai + 1) (now + backoff) ai) ∧ 0 < backoff ∧
      (0 < RetryMaximumAttempts (retry ai) → Z.max 1 (Attempt ai) < RetryMaximumAttempts (retry ai)) ∧ (∀ t, RetryExpirationTime (retry ai) = Some t → t ≠ 0 → now + backoff ≤ t) ∧
      match nextRetryDelayFrom failure with Some d => backoff = d | None => RetryMaximumInterval (retry ai) ≠ 0 → backoff ≤ RetryMaximumInterval (retry ai) end
  else s' = s.
Proof.
  intros E M D. unfold RetryActivity. rewrite E. destruct (HasRetryPolicy (retry ai)) eqn:Hp; simpl; [|by intros [= <- <-]]. destruct (CancelRequested ai) eqn:Hc; [by intros [= <- <-]|].
  destruct (isRetryable _ _ _) eqn:Hr; simpl; [|by intros [= <- <-]]. destruct (Paused ai) eqn:P; simpl; [rewrite P; by intros [= <- <-]|]. destruct (rule_pauses ai); simpl; [by intros [= <- <-]|]. rewrite P.
  destruct (nextBackoffInterval _ _ _ _ _ _ _ _) as [b st] eqn:En. destruct (decide (st = IN_PROGRESS)) as [->|N]; intros [= <- <-].
  - apply nextBackoffInterval_bounds in En as (B1 & B2 & B3 & B4 & B5); [|destruct (nextRetryDelayFrom failure) eqn:Ed; simpl; [by apply D|done]]. split_and!; try done. exists b. split_and!; try done.
    destruct (nextRetryDelayFrom failure) as [d|] eqn:Ed; simpl in *; [|done]. specialize (D d eq_refl). apply B5. lia.
  - by rewrite decide_False.
Qed.
Definition failing_activity : ActivityInfo := mkActivity 5 (Some (sec 0)) (Some (sec 0)) 6 (Some (sec 1)) (long 100 0) None 0 1 0 false false (mkRetry true (10 ^ 9) 0 3 0 [] None).
Definition failing : MutableState := set_activity (mem (new_workflow 0)) 5 failing_activity.
Lemma retry_within_policy_witness : ∃ s' backoff, RetryActivity no_names (λ i c n, i) no_rules (sec 3) 5 (Some OtherFailure) failing = Ok (s', IN_PROGRESS) ∧
  s' = set_activity failing 5 (UpdateActivityInfoForRetries 2 (sec 3 + backoff) failing_activity) ∧ 0 < backoff.
Proof.
  destruct (RetryActivity no_names (λ i c n, i) no_rules (sec 3) 5 (Some OtherFailure) failing) as [[s' r]| |] eqn:E; [|by vm_compute in E|by vm_compute in E].
  assert (r = IN_PROGRESS) as -> by (vm_compute in E; by injection E as _ <-).
  assert (Hp : 0 ≤ RetryMaximumInterval (retry failing_activity)) by (vm_compute; discriminate).
  destruct (retry_within_policy no_names (λ i c n, i) no_rules (sec 3) 5 (Some OtherFailure) failing s' IN_PROGRESS failing_activity (lookup_insert_eq _ _ _) Hp ltac:(done) E) as (_ & _ & _ & b & Es & L & _).
  exists s', b. split; [done|]. split; [exact Es|exact L].
Defined.
